(* ===== verification/_CoqProject ===== *)
-Q . S2P
Prelude.v
Bitset.v
DynBitset.v
Array256.v
BaseIndex.v
IpNet.v
Stride.v
IpTrie.v
TrieSpec.v
TrieUpdate.v
TrieRemove.v
TrieLookup.v
Table.v
IpNetModel.v
Routing.v
Bytes.v
Packet.v
Routers.v
PacketFilter.v
FlowTrack.v
InboundFilter.v
PortTrie.v
FilterLookup.v
FilterDst.v
BartFilter.v
Replay.v
Messages.v
Crypto.v
CryptoModel.v
Session.v
Tai64.v
Macs.v
Scheduler.v
Handshake.v
Endpoint.v
EndpointInv.v
EndpointMethods.v
EndpointSafe.v
EndpointKeys.v
EndpointFaults.v
Dataplane.v
DataplaneSafe.v
EndpointTunnel.v
Cbor.v
Base32.v
TkaWire.v
TkaAuth.v
TkaChain.v
TkaSync.v
ControlNode.v
PeerDb.v
Expiry.v
PeerLock.v
PeerTracker.v
RouteUpdate.v
