(* ===== verification/Prelude.v ===== *)
(** * tailscale-rs: a verification library

    tailscale-rs is a Tailscale client in Rust.  This library models the parts
    of it that decide, without I/O, who may talk to whom and what happens to a
    packet: the routing tables, the packet filters, the WireGuard tunnel, the
    data plane that joins them, tailnet lock, and the netmap that the runtime
    keeps and turns into routes.  Paths below are under src/.

    ** How the parts interact

    Control sends netmaps.  The peer tracker checks every peer against the
    authority of tailnet lock, flags peers whose keys have expired, stores the
    peers in an indexed database and publishes snapshots.  The route updater
    and the source filter updater turn a snapshot into routing tables.  The
    data plane uses the tables: outbound packets are routed to a peer,
    encrypted by the endpoint and handed to an underlay transport; inbound
    packets are decrypted, checked against the source filter and the packet
    filter, and routed to an overlay transport.

    ** The files

    Prelude.v (this file) has the monad of computations that may panic,
    instants, integers of a fixed width, and the lemmas, tactics and hint databases that
    the components share.  Bytes.v has byte strings and integer encodings.

    Routing tables:
    - Bitset.v, DynBitset.v, Array256.v: ts_bitset, ts_dynbitset, ts_array256;
    - BaseIndex.v: base_index.rs, lpm.rs and allot.rs of ts_bart;
    - IpNet.v: the interface of the ipnet crate and iptrie/util.rs;
      IpNetModel.v: a concrete instance of it;
    - Stride.v: ts_bart/src/node, the trait [StrideOps] with its laws and [Node];
    - IpTrie.v: ts_bart/src/iptrie; TrieSpec.v, TrieUpdate.v, TrieRemove.v and
      TrieLookup.v: what its operations do to the set of routes;
    - Table.v: ts_bart/src/table; Routing.v: the theorems on tables.

    Packet filters:
    - PacketFilter.v: ts_packetfilter;
    - PortTrie.v, FilterLookup.v, FilterDst.v, BartFilter.v: the port trie, the
      indices and the filter of ts_bart_packetfilter.

    The tunnel:
    - Crypto.v: the interface of the cryptographic crates; CryptoModel.v: a
      concrete instance of it;
    - Replay.v, Messages.v, Session.v, Tai64.v, Macs.v, Handshake.v: the files
      of ts_tunnel of the same purpose (replay.rs, messages.rs, session.rs with
      transport_aead.rs, time.rs, macs.rs, handshake.rs);
    - Scheduler.v: ts_time;
    - Endpoint.v: endpoint.rs and config.rs of ts_tunnel; EndpointInv.v,
      EndpointMethods.v and EndpointSafe.v: its invariant, method by method;
      EndpointKeys.v: the keys that it holds for a peer come from handshakes
      with that peer; EndpointFaults.v: where it fails, outside the conditions
      of the theorems and within.

    The data plane:
    - Packet.v: ts_packet; Routers.v: ts_overlay_router and ts_underlay_router;
    - FlowTrack.v: flowtrack.rs of ts_dataplane; InboundFilter.v: its per-packet
      functions; Dataplane.v: [DataPlane], over the interface [Tunnel];
    - DataplaneSafe.v: its theorems against the laws of the tunnel;
      EndpointTunnel.v: the endpoint satisfies these laws.

    Tailnet lock (ts_tka):
    - Cbor.v, Base32.v, TkaWire.v: the codecs and the records;
    - TkaAuth.v: node-key signatures; TkaChain.v: update messages (AUMs),
      replay, verification and fork choice; TkaSync.v: the store and the
      exchange with a peer.

    The netmap:
    - ControlNode.v, Expiry.v: node.rs and expiry.rs of ts_control;
    - PeerDb.v, PeerLock.v, PeerTracker.v: peer_tracker/peer_db.rs and
      peer_tracker/mod.rs of ts_runtime, with the lock's filter apart;
    - RouteUpdate.v: route_updater.rs and src_filter.rs of ts_runtime.

    ** How the code is represented

    - A function that may panic returns an [outcome]; [Option] and [Result] stay
      [option] and sums.  Overflow, also that of an [Instant] plus a
      [Duration], indexing, [unwrap] and assertions panic where the source does;
      Endpoint.v tells debug from release builds.
    - A [&mut self] method takes the state and returns the next one; a [&mut]
      result is a value with the function that writes it back.  Endpoint.v uses
      two state monads of its own.  Actors are a [handle] function from a
      message and a state to a state and what is emitted.
    - Machine integers are [Z] with their wrap-around written out.  Bytes are
      lists of [Z], strings their UTF-8 bytes, instants nanoseconds.
    - A [HashMap] is a finite map; the order in which a loop walks one is an
      argument, as are clocks, random draws and the answers of other actors.
    - Third-party crates are type classes with the laws that their documentation
      states: [IpNetOps], [CryptoOps], [TkaCrypto], [IpParser], [Chrono].  Each
      has a concrete instance, with which the witnesses are evaluated.
    - Traits of the source are type classes too ([StrideOps], the filter and its
      storage, [Tunnel], [AumStore]); clients are proved against the laws.

    ** What the theorems show

    - Routing: every sequence of updates behaves as a map from prefixes, lookups
      return the longest covering route, and tries stay path-compressed.
    - Filters: the indexed filter holds the rules of the plain map and its exact
      verdict is given, with its two differences from the reference filter.
    - Tunnel: the replay window is a set of counters, each packet is received at
      most once, nonces do not repeat and stop at the end of their counter,
      handshakes agree on keys, session ids stay consistent, and no public
      operation panics in a release build, for the arguments and clocks below.
    - Data plane: no reachable state panics; what the host receives opened under
      a key of the peer that owns its source address and passed the filter;
      timers are always scheduled.
    - Tailnet lock: canonical encoding and round trips, the exact conditions
      under which a chain verifies and a node key is let in, that each peer let
      in traces back to a signed message, and that synchronisation converges.
    - Netmap: the database implements a directory of peers; every message is
      handled without a panic and every query answered once, at the latest by
      the first response with a netmap; tailnet lock, once enforced, holds of
      every peer whatever control sends, and of every address that the source
      filter attributes to a peer; the source filter and the outbound routes
      agree; the exit node fails closed; expiry is undone exactly.

    Some theorems record behaviour that differs from a comment or from what the
    code intends; their comments say so.

    ** Bounds and fuel

    - Trie: [insert_inner] has 17 rounds for at most 16 levels;
      [lookup_collect] 130 for at most 129 covering prefixes; the walk back up
      the stack twice its length; the prefix iterator 257 for 256 indices.
    - Base indices: 8 rounds for [lpm], 512 for [allot_entry], whose subtree has
      fewer than 512 indices; 64 for the bits of a word.
    - Ports: [port_collect] 34; a range has at most 32 blocks
      ([iter_prefixes_covers]).
    - Checksums: three carries bring a [u32] below [2 ^ 16].
    - Flow cache: as many evictions as there are entries.
    - CBOR: 17 levels, the source's limit; a count beyond the bytes left ends in
      the source's error ([decode_loops_terminate]).
    - Synchronisation: the limits 2000 and 1000 are the source's own.
    - The endpoint is shown not to panic within [2 ^ 62] handshakes, before its
      64-bit timestamps end; with keepalive intervals and a monotonic clock
      below [2 ^ 62] seconds, half the range of [Instant]; and with clock
      readings that are at most 180 s, the life of a session, apart within one
      call.  The last two are needed: EndpointFaults.v shows the panics.
    - Peers of a netmap are assumed to list no route twice, which the database
      asserts ([duplicate_route_panics]); peer identifiers are [u32], and an
      upsert is assumed to find one free.
    - Tailnet lock is shown for signatures that are not over a key with the
      marker that the client puts on the keys of expired peers.  It is enforced
      from the start, from a full netmap on, or from the message that announces
      an authority on, if no unverified peer is flagged as expired at that time.
    - A handler of the peer tracker reads the lock's authority once; the source
      reads the cell at each peer, so a write in the middle of a message is
      modelled as one before or after it.

    ** Not modelled

    - Asynchronous code: tasks, channels, actors' mailboxes, sockets, TUN
      devices, HTTP and the control client (ts_control apart from node.rs and
      expiry.rs, ts_magicsock, ts_netcheck, ts_netmon, ts_forwarder,
      ts_host_net, most of ts_runtime, the tailscale crate).  What the modelled
      code takes from it is an argument.
    - Cryptography and its secrecy: only the laws of the interfaces are used.
    - The smoltcp wrapper, the language bindings and serde's derived codecs,
      whose behaviour is that of third-party code.
    - Parts outside the packet path: ts_packetfilter_state, ts_dns_wire,
      ts_disco_protocol, ts_derp, ts_portmapper, ts_control_noise.  They could
      be modelled; no theorem here depends on them.
    - Tracing, metrics, [Debug] and [Display], zeroization and capacities, which
      have no effect on the results. *)

From Stdlib Require Export ZArith Lia.
From stdpp Require Export base tactics numbers option sets list.

(** ** Outcomes

    A Rust expression either returns a value or panics (an index out of
    range, an [unwrap] of [None], a failed [assert!], an arithmetic
    overflow).  [Option] and [Result] values of the source stay [option] and
    sum values inside [Ret]. *)
Inductive outcome (A : Type) : Type :=
| Ret (a : A)
| Panic.
Arguments Ret {A} a.
Arguments Panic {A}.

Declare Scope rust_scope.
Delimit Scope rust_scope with rust.

#[export] Instance outcome_ret : MRet outcome := fun _ a => Ret a.
#[export] Instance outcome_bind : MBind outcome := fun _ _ f m =>
  match m with Ret a => f a | Panic => Panic end.
#[export] Instance outcome_fmap : FMap outcome := fun _ _ f m =>
  match m with Ret a => Ret (f a) | Panic => Panic end.

(** Whether a computation panics, to be decided by evaluation. *)
Definition panics {A} (m : outcome A) : bool :=
  match m with Ret _ => false | Panic => true end.

Lemma outcome_panics {A} (m : outcome A) : panics m = true -> m = Panic.
Proof. by destruct m. Qed.

Lemma outcome_returns {A} (m : outcome A) : panics m = false -> exists a, m = Ret a.
Proof. destruct m as [a|]; [by exists a|done]. Qed.

(** [opt.unwrap()] *)
Definition unwrap {A} (o : option A) : outcome A :=
  match o with Some a => Ret a | None => Panic end.

(** [assert!(b)] *)
Definition rassert (b : bool) : outcome unit :=
  if b then Ret tt else Panic.

(** [xs[i]] on a slice, an array or a [Vec]. *)
Definition idx {A} (xs : list A) (i : nat) : outcome A := unwrap (xs !! i).

(** [xs[i] = x] on a slice, an array or a [Vec]. *)
Definition upd {A} (xs : list A) (i : nat) (x : A) : outcome (list A) :=
  if decide (i < length xs) then Ret (<[i := x]> xs) else Panic.

(** [v.insert(i, x)] on a [Vec]: panics beyond the end. *)
Definition vec_insert {A} (v : list A) (i : nat) (x : A) : outcome (list A) :=
  if decide (i <= length v) then Ret (take i v ++ x :: drop i v) else Panic.

(** [v.remove(i)] on a [Vec]: the removed element and the rest. *)
Definition vec_remove {A} (v : list A) (i : nat) : outcome (A * list A) :=
  match v !! i with
  | Some x => Ret (x, take i v ++ drop (S i) v)
  | None => Panic
  end.

(** [for x in l { .. }]: the loop body threads the state and may panic. *)
Fixpoint mfoldl {S B} (f : S -> B -> outcome S) (s : S) (l : list B) : outcome S :=
  match l with
  | [] => Ret s
  | x :: l => s' ← f s x; mfoldl f s' l
  end.

(** Subtraction of unsigned integers: panics below zero. *)
Definition usub (a b : nat) : outcome nat :=
  if decide (b <= a) then Ret (a - b) else Panic.

(** ** Instants

    [std::time::Instant] in nanoseconds.  On Unix its seconds are an [i64]; the
    checked operations answer [None] outside this range and [+] panics. *)
Definition INSTANT_MIN : Z := (- 2 ^ 63 * 1000000000)%Z.
Definition INSTANT_MAX : Z := (2 ^ 63 * 1000000000 - 1)%Z.

Definition checked_instant (t : Z) : option Z :=
  if decide (INSTANT_MIN <= t <= INSTANT_MAX)%Z then Some t else None.

(** [t + d] for an [Instant] and a [Duration]. *)
Definition instant_add (t d : Z) : outcome Z := unwrap (checked_instant (t + d)).

(** ** Unsigned machine integers *)

Definition u8_ok (x : Z) : Prop := (0 <= x < 2 ^ 8)%Z.
Definition u64_ok (x : Z) : Prop := (0 <= x < 2 ^ 64)%Z.

(** [!w] at 64 bits. *)
Definition not64 (w : Z) : Z := Z.lxor w (Z.ones 64).

(** [w.unbounded_shl(k)] and [w.unbounded_shr(k)] at width [n]. *)
Definition ushl (n w k : Z) : Z := Z.land (Z.shiftl w k) (Z.ones n).
Definition ushr (w k : Z) : Z := Z.shiftr w k.

(** The intrinsics of [u64] the source uses, on the bits 0..63. *)
Definition bits64 (w : Z) : list nat :=
  filter (fun i => Z.testbit w (Z.of_nat i) = true) (seq 0 64).
Definition count_ones64 (w : Z) : nat := length (bits64 w).
Definition trailing_zeros64 (w : Z) : nat := default 64 (head (bits64 w)).
(** [64 - w.leading_zeros()] *)
Definition bit_len64 (w : Z) : nat := from_option S 0 (last (bits64 w)).

(** ** Counting *)

(** How many of the first [n] indices satisfy [f]. *)
Fixpoint count_upto (f : nat -> bool) (n : nat) : nat :=
  match n with
  | O => 0
  | S n => count_upto f n + (if f n then 1 else 0)
  end.

(** ** Automation *)

Create HintDb rust.

#[global] Arguments Nat.div : simpl never.
#[global] Arguments Nat.modulo : simpl never.
#[global] Arguments Nat.land : simpl never.
#[global] Arguments Z.land : simpl never.
#[global] Arguments Z.lor : simpl never.
#[global] Arguments Z.testbit : simpl never.
#[global] Arguments Z.pow : simpl never.
#[global] Arguments Z.of_nat : simpl never.
#[global] Arguments Z.shiftl : simpl never.
#[global] Arguments Z.shiftr : simpl never.

(** Step through the binds of an outcome whose first computation is known. *)
Ltac mrun :=
  cbn [mbind outcome_bind mret outcome_ret fmap outcome_fmap mfoldl unwrap rassert].

(** Case split on the scrutinee of an [if] or [match] anywhere. *)
Ltac split_match :=
  match goal with
  | |- context [match ?x with _ => _ end] => destruct x eqn:?
  | H : context [match ?x with _ => _ end] |- _ => destruct x eqn:?
  end.

(** ** Generic lemmas *)

Section Outcome.
Context {A B : Type}.

Lemma bind_ret (a : A) (f : A -> outcome B) : (Ret a ≫= f) = f a.
Proof. reflexivity. Qed.

Lemma bind_Ret_inv (m : outcome A) (f : A -> outcome B) b :
  (m ≫= f) = Ret b -> exists a, m = Ret a /\ f a = Ret b.
Proof. destruct m; simpl; [eauto|discriminate]. Qed.

Lemma unwrap_Ret (o : option A) a : unwrap o = Ret a <-> o = Some a.
Proof. destruct o; simpl; split; congruence. Qed.

Lemma instant_add_ok t d :
  (INSTANT_MIN <= t + d <= INSTANT_MAX)%Z -> instant_add t d = Ret (t + d)%Z.
Proof. intros H. unfold instant_add, checked_instant. by rewrite decide_True. Qed.

Lemma instant_add_panics t d : (INSTANT_MAX < t + d)%Z -> instant_add t d = Panic.
Proof. intros H. unfold instant_add, checked_instant. rewrite decide_False by lia. done. Qed.

Lemma idx_Ret (xs : list A) i x : idx xs i = Ret x <-> xs !! i = Some x.
Proof. apply unwrap_Ret. Qed.

Lemma idx_lt (xs : list A) i : i < length xs -> exists x, idx xs i = Ret x.
Proof.
  intros [x Hx]%lookup_lt_is_Some_2. exists x. by apply idx_Ret.
Qed.

Lemma mfoldl_app (f : A -> B -> outcome A) s l1 l2 :
  mfoldl f s (l1 ++ l2) = (mfoldl f s l1 ≫= fun s' => mfoldl f s' l2).
Proof.
  revert s; induction l1 as [|x l1 IH]; intros s; simpl; [done|].
  destruct (f s x); simpl; [apply IH|done].
Qed.

Lemma upd_lt (xs : list A) i x : i < length xs -> upd xs i x = Ret (<[i := x]> xs).
Proof. intros. unfold upd. by rewrite decide_True. Qed.
End Outcome.

Section Counting.
Implicit Types f g : nat -> bool.

Lemma count_upto_ext f g n :
  (forall i, i < n -> f i = g i) -> count_upto f n = count_upto g n.
Proof.
  induction n as [|n IH]; intros E; simpl; [done|].
  rewrite IH by (intros; apply E; lia). by rewrite E by lia.
Qed.

Lemma count_upto_mono f m n : m <= n -> count_upto f m <= count_upto f n.
Proof. induction 1; simpl; lia. Qed.

Lemma count_upto_strict f m n : m < n -> f m = true -> count_upto f m < count_upto f n.
Proof.
  intros Hmn Hf. assert (count_upto f (S m) <= count_upto f n)
    by (apply count_upto_mono; lia).
  simpl in H. rewrite Hf in H. lia.
Qed.

Lemma count_upto_app f m n :
  count_upto f (m + n) = count_upto f m + count_upto (fun i => f (m + i)) n.
Proof.
  induction n as [|n IH]; [rewrite Nat.add_0_r; simpl; lia|].
  rewrite Nat.add_succ_r. simpl. rewrite IH. lia.
Qed.

Lemma count_upto_filter f n :
  count_upto f n = length (filter (fun i => f i = true) (seq 0 n)).
Proof.
  induction n as [|n IH]; [done|].
  rewrite seq_S, filter_app, length_app. simpl. rewrite IH.
  destruct (f n) eqn:E.
  - rewrite filter_cons_True by done. simpl. done.
  - rewrite filter_cons_False by congruence. simpl. done.
Qed.

Lemma count_upto_false f n : (forall i, i < n -> f i = false) -> count_upto f n = 0.
Proof.
  intros Hf. induction n as [|n IH]; [done|]. simpl.
  rewrite IH by (intros; apply Hf; lia). by rewrite Hf by lia.
Qed.

(** Adding one index to the set. *)
Lemma count_upto_set f k n :
  f k = false ->
  count_upto (fun i => bool_decide (i = k) || f i) n
  = count_upto f n + (if decide (k < n) then 1 else 0).
Proof.
  intros Hk. induction n as [|n IH]; [done|]. simpl. rewrite IH.
  destruct (decide (n = k)) as [->|Hne].
  - rewrite bool_decide_eq_true_2 by done. rewrite Hk. simpl.
    rewrite decide_False by lia. rewrite decide_True by lia. lia.
  - rewrite bool_decide_eq_false_2 by done. simpl.
    destruct (decide (k < n)); [rewrite decide_True by lia|rewrite decide_False by lia]; lia.
Qed.

(** Removing one index from the set. *)
Lemma count_upto_clear f k n :
  f k = true ->
  count_upto f n
  = count_upto (fun i => negb (bool_decide (i = k)) && f i) n
    + (if decide (k < n) then 1 else 0).
Proof.
  intros Hk.
  rewrite (count_upto_ext f
    (fun i => bool_decide (i = k) || (negb (bool_decide (i = k)) && f i))).
  - rewrite count_upto_set; [done|]. by rewrite bool_decide_eq_true_2.
  - intros i _. case_bool_decide; simpl; congruence.
Qed.
End Counting.

Section Filter.
Context {A B : Type}.

Lemma filter_fmap_comm (f : A -> B) (P : B -> Prop) `{!forall x, Decision (P x)}
    (l : list A) :
  filter P (f <$> l) = f <$> filter (fun x => P (f x)) l.
Proof.
  induction l as [|x l IH]; [done|]. rewrite fmap_cons.
  destruct (decide (P (f x))).
  - by rewrite !filter_cons_True, IH by done.
  - by rewrite !filter_cons_False, IH by done.
Qed.

Lemma filter_ext_in (P Q : A -> Prop)
    `{!forall x, Decision (P x)} `{!forall x, Decision (Q x)} (l : list A) :
  (forall x, x ∈ l -> P x <-> Q x) -> filter P l = filter Q l.
Proof.
  induction l as [|x l IH]; intros E; [done|].
  assert (P x <-> Q x) as Ex by (apply E, list_elem_of_here).
  specialize (IH (fun y Hy => E y (list_elem_of_further y x l Hy))).
  destruct (decide (P x)).
  - rewrite !filter_cons_True by intuition. by rewrite IH.
  - rewrite !filter_cons_False by intuition. by rewrite IH.
Qed.

Lemma app_cong (l1 l2 k1 k2 : list A) : l1 = k1 -> l2 = k2 -> l1 ++ l2 = k1 ++ k2.
Proof. by intros -> ->. Qed.

Lemma filter_none (P : A -> Prop) `{!forall x, Decision (P x)} (l : list A) :
  (forall x, x ∈ l -> ~ P x) -> filter P l = [].
Proof.
  intros HP. apply elem_of_nil_inv. intros x [Hx Hl]%list_elem_of_filter.
  by eapply HP.
Qed.

Lemma filter_all (P : A -> Prop) `{!forall x, Decision (P x)} (l : list A) :
  Forall P l -> filter P l = l.
Proof.
  induction 1 as [|x l Hx Hl IH]; [done|]. by rewrite filter_cons_True, IH.
Qed.
End Filter.

Section Bits64.
Local Open Scope Z_scope.

Lemma elem_of_bits64 w i :
  i ∈ bits64 w <-> (i < 64)%nat /\ Z.testbit w (Z.of_nat i) = true.
Proof.
  unfold bits64. rewrite list_elem_of_filter, elem_of_seq. intuition lia.
Qed.

Lemma u64_testbit_high w k : u64_ok w -> 64 <= k -> Z.testbit w k = false.
Proof.
  intros [H0 H1] Hk. destruct (decide (w = 0)) as [->|].
  - apply Z.testbit_0_l.
  - apply Z.bits_above_log2; [lia|].
    assert (Z.log2 w < 64) by (apply Z.log2_lt_pow2; lia). lia.
Qed.

Lemma u64_ok_testbit w :
  0 <= w -> (forall k, 64 <= k -> Z.testbit w k = false) -> u64_ok w.
Proof.
  intros H0 Hb. split; [done|].
  destruct (decide (w = 0)) as [->|]; [lia|].
  apply Z.log2_lt_pow2; [lia|].
  destruct (Z.lt_ge_cases (Z.log2 w) 64) as [|Hge]; [done|].
  specialize (Hb _ Hge). rewrite Z.bit_log2 in Hb by lia. discriminate.
Qed.

Lemma u64_zero_bits w :
  u64_ok w -> (forall i, (i < 64)%nat -> Z.testbit w (Z.of_nat i) = false) -> w = 0.
Proof.
  intros Hw Hz. apply Z.bits_inj'. intros k Hk. rewrite Z.testbit_0_l.
  destruct (Z.lt_ge_cases k 64).
  - rewrite <- (Z2Nat.id k) by lia. apply Hz. lia.
  - by apply u64_testbit_high.
Qed.

Lemma bits64_nil w : u64_ok w -> bits64 w = [] <-> w = 0.
Proof.
  intros Hw. split.
  - intros E. apply u64_zero_bits; [done|]. intros i Hi.
    apply not_true_is_false. intros Ht.
    assert (i ∈ bits64 w) as Hin by (by apply elem_of_bits64).
    rewrite E in Hin. by apply not_elem_of_nil in Hin.
  - intros ->. reflexivity.
Qed.

Lemma not64_testbit w k :
  0 <= k -> Z.testbit (not64 w) k = xorb (Z.testbit w k) (bool_decide (k < 64)).
Proof.
  intros. unfold not64. rewrite Z.lxor_spec, Z.testbit_ones by lia.
  f_equal. destruct (Z.leb_spec 0 k), (Z.ltb_spec k 64); simpl; try lia.
  - by rewrite bool_decide_eq_true_2.
  - by rewrite bool_decide_eq_false_2 by lia.
Qed.

Lemma not64_ok w : u64_ok w -> u64_ok (not64 w).
Proof.
  intros Hw. apply u64_ok_testbit.
  - unfold not64. apply Z.lxor_nonneg. rewrite Z.ones_equiv. destruct Hw. lia.
  - intros k Hk. rewrite not64_testbit by lia.
    rewrite u64_testbit_high by done. by rewrite bool_decide_eq_false_2 by lia.
Qed.

Lemma lor_ok a b : u64_ok a -> u64_ok b -> u64_ok (Z.lor a b).
Proof.
  intros Ha Hb. apply u64_ok_testbit.
  - apply Z.lor_nonneg. destruct Ha, Hb. lia.
  - intros k Hk. rewrite Z.lor_spec, !u64_testbit_high by done. done.
Qed.

Lemma land_ok a b : u64_ok a -> 0 <= b -> u64_ok (Z.land a b).
Proof.
  intros Ha Hb. apply u64_ok_testbit.
  - apply Z.land_nonneg. destruct Ha. lia.
  - intros k Hk. rewrite Z.land_spec, u64_testbit_high by done. done.
Qed.

Lemma pow2_ok i : (i < 64)%nat -> u64_ok (Z.shiftl 1 (Z.of_nat i)).
Proof.
  intros Hi. rewrite Z.shiftl_mul_pow2 by lia. split; [lia|].
  rewrite Z.mul_1_l. apply Z.pow_lt_mono_r; lia.
Qed.

Lemma pow2_testbit i k :
  0 <= k -> Z.testbit (Z.shiftl 1 (Z.of_nat i)) k = bool_decide (k = Z.of_nat i).
Proof.
  intros Hk. rewrite Z.shiftl_mul_pow2, Z.mul_1_l by lia.
  rewrite Z.pow2_bits_eqb by lia.
  case_bool_decide; [apply Z.eqb_eq|apply Z.eqb_neq]; lia.
Qed.
End Bits64.

(** The first element of a filtered interval, and the rest. *)
Lemma filter_seq_head (P : nat -> Prop) `{!forall x, Decision (P x)} a n t l :
  filter P (seq a n) = t :: l ->
  a <= t < a + n /\ P t /\ (forall i, a <= i < t -> ~ P i) /\
  l = filter P (seq (S t) (a + n - S t)).
Proof.
  revert a. induction n as [|n IH]; intros a; [done|].
  rewrite <- cons_seq. destruct (decide (P a)) as [HP|HP].
  - rewrite filter_cons_True by done. intros [= <- <-].
    split_and!; [lia..|done|intros; lia|]. do 2 f_equal. lia.
  - rewrite filter_cons_False by done. intros E.
    destruct (IH _ E) as (H1 & H2 & H3 & H4).
    split_and!; [lia..|done| |].
    + intros i Hi. destruct (decide (i = a)) as [->|]; [done|]. apply H3. lia.
    + rewrite H4. do 2 f_equal. lia.
Qed.

(** [w & (w - 1)] clears the lowest set bit. *)
Lemma land_pred_testbit (w t k : Z) :
  (0 <= t)%Z -> (forall i, (0 <= i < t)%Z -> Z.testbit w i = false) ->
  Z.testbit w t = true -> (0 <= k)%Z ->
  Z.testbit (Z.land w (w - 1)) k = Z.testbit w k && negb (bool_decide (k = t)).
Proof.
  intros Ht Hlow Hbit Hk. rewrite Z.land_spec.
  destruct (Z.lt_ge_cases k t) as [Hlt|Hge].
  { by rewrite Hlow by lia. }
  assert (w mod 2 ^ t = 0)%Z as Hmod.
  { apply Z.bits_inj'. intros i Hi. rewrite Z.testbit_0_l.
    destruct (Z.lt_ge_cases i t).
    - rewrite Z.mod_pow2_bits_low by lia. apply Hlow. lia.
    - by rewrite Z.mod_pow2_bits_high by lia. }
  assert (w = 2 ^ t * (w / 2 ^ t))%Z as Hw.
  { pose proof (Z.div_mod w (2 ^ t)). lia. }
  set (q := (w / 2 ^ t)%Z) in *.
  assert (forall a, Z.testbit a k = Z.testbit (a / 2 ^ t) (k - t)) as Hsh.
  { intros a. rewrite <- Z.shiftr_div_pow2, Z.shiftr_spec by lia. f_equal. lia. }
  assert ((w - 1) / 2 ^ t = q - 1)%Z as Hq.
  { rewrite Hw. symmetry. apply Z.div_unique with (2 ^ t - 1)%Z; lia. }
  assert (Z.odd q = true) as Hodd.
  { rewrite <- Z.bit0_odd. rewrite <- Hbit. unfold q.
    rewrite <- Z.shiftr_div_pow2, Z.shiftr_spec by lia. f_equal. }
  apply Z.odd_spec in Hodd as [r Hr].
  case_bool_decide as E; simpl.
  - subst k. f_equal. rewrite Hsh, Hq, Z.sub_diag, Z.bit0_odd, Hr.
    replace (2 * r + 1 - 1)%Z with (2 * r)%Z by lia. apply Z.odd_even.
  - rewrite (Hsh (w - 1)%Z), (Hsh w), Hq. change (w / 2 ^ t)%Z with q. rewrite Hr.
    replace (2 * r + 1 - 1)%Z with (2 * r)%Z by lia.
    replace (k - t)%Z with (Z.succ (k - t - 1)) by lia.
    rewrite Z.testbit_even_succ, Z.testbit_odd_succ by lia.
    by rewrite andb_diag, andb_true_r.
Qed.

Lemma bits64_land_pred w t l :
  bits64 w = t :: l -> bits64 (Z.land w (w - 1)) = l.
Proof.
  unfold bits64. intros E. apply filter_seq_head in E as (Ht & Hb & Hlow & ->).
  assert (forall i, (0 <= i < Z.of_nat t)%Z -> Z.testbit w i = false) as Hlow'.
  { intros i Hi. apply not_true_is_false. rewrite <- (Z2Nat.id i) by lia.
    apply Hlow. lia. }
  assert (forall k : nat, Z.testbit (Z.land w (w - 1)) (Z.of_nat k) = true <->
            Z.testbit w (Z.of_nat k) = true /\ k <> t) as Hiff.
  { intros k. rewrite (land_pred_testbit w (Z.of_nat t)) by (done || lia).
    rewrite andb_true_iff, negb_true_iff, bool_decide_eq_false.
    split; intros [? ?]; split; (done || lia). }
  replace 64 with (S t + (0 + 64 - S t)) at 1 by lia.
  rewrite seq_app, filter_app. rewrite filter_none.
  - apply filter_ext_in. intros k [Hk _]%elem_of_seq. rewrite Hiff.
    split; [tauto|]. intros. split; [done|lia].
  - intros k [_ Hk]%elem_of_seq. rewrite Hiff. intros [Hkb Hne].
    apply (Hlow k); [lia|done].
Qed.

#[export] Hint Resolve lor_ok land_ok not64_ok pow2_ok : rust.
