(* ===== verification/Bitset.v ===== *)
(** * Bitset: the fixed-width bitset of ts_bitset

    [Bitset<N_WORDS>] (src/ts_bitset/src/lib.rs and rank.rs) is its array of
    [u64] words, least significant word first; the const generic [N_WORDS] is
    the length of the list.  Operations that index a word out of range panic.
    The specification view is [bit bs i], the value of bit [i]. *)

From S2P Require Import Prelude.

(** ** Operations *)

Definition word_idx (bit : nat) : nat := bit / 64.

Definition subword_idx (bit : nat) : Z :=
  Z.shiftl 1 (Z.of_nat (Nat.land bit 63)).

(** [len] of lib.rs, Go's [bits.Len64]. *)
Definition len (val : Z) : nat := bit_len64 val.

Definition EMPTY (n_words : nat) : list Z := replicate n_words 0%Z.
Definition FULL (n_words : nat) : list Z := replicate n_words (Z.ones 64).
Definition N_BITS (bs : list Z) : nat := length bs * 64.

(** [copy_from_slice] panics unless both slices have the same length. *)
Definition resize (bs : list Z) (m : nat) (empty_value : bool) : outcome (list Z) :=
  let empty := if empty_value then Z.ones 64 else 0%Z in
  let out := replicate m empty in
  let n := if decide (length bs <= m) then length bs else m in
  let to_copy := take n bs in
  if decide (length out = length to_copy) then Ret to_copy else Panic.

Definition set (bs : list Z) (bit : nat) : outcome (list Z) :=
  w ← idx bs (word_idx bit);
  upd bs (word_idx bit) (Z.lor w (subword_idx bit)).

Definition with_bit (bs : list Z) (bit : nat) : outcome (list Z) := set bs bit.

Definition with_bits (bs : list Z) (bits : list nat) : outcome (list Z) :=
  mfoldl set bs bits.

Definition clear (bs : list Z) (bit : nat) : outcome (list Z) :=
  w ← idx bs (word_idx bit);
  upd bs (word_idx bit) (Z.land w (not64 (subword_idx bit))).

Definition without_bit (bs : list Z) (bit : nat) : outcome (list Z) := clear bs bit.

Definition without_bits (bs : list Z) (bits : list nat) : outcome (list Z) :=
  mfoldl clear bs bits.

Definition test (bs : list Z) (bit : nat) : outcome bool :=
  w ← idx bs (word_idx bit);
  Ret (negb (bool_decide (Z.land w (subword_idx bit) = 0%Z))).

(** The word loop of [first_set], from word [i]. *)
Fixpoint first_set_from (i : nat) (words : list Z) : option nat :=
  match words with
  | [] => None
  | w :: words =>
      let zeroes := trailing_zeros64 w in
      if decide (zeroes = 64) then first_set_from (S i) words
      else Some (64 * i + zeroes)
  end.

Definition first_set (bs : list Z) : option nat := first_set_from 0 bs.

(** The word loop of [next_set], from word [i]. *)
Fixpoint next_set_from (i : nat) (words : list Z) : option nat :=
  match words with
  | [] => None
  | w :: words =>
      if decide (w = 0%Z) then next_set_from (S i) words
      else Some (i * 64 + trailing_zeros64 w)
  end.

Definition next_set (bs : list Z) (bit : nat) : outcome (option nat) :=
  let word := word_idx bit in
  w ← idx bs word;
  let first := ushr w (Z.of_nat (Nat.land bit 63)) in
  if decide (first <> 0%Z) then Ret (Some (bit + trailing_zeros64 first))
  else Ret (next_set_from (S word) (drop (S word) bs)).

(** The loop of [last_set] and [intersection_top]: the words from the highest
    down, [word] words remaining. *)
Fixpoint last_set_from (word : nat) (rev_words : list Z) : option nat :=
  match rev_words with
  | [] => None
  | w :: rest =>
      if decide (w = 0%Z) then last_set_from (word - 1) rest
      else Some ((word - 1) * 64 + (len w - 1))
  end.

(** The source starts at [N_WORDS - 1], which underflows for zero words. *)
Definition last_set (bs : list Z) : outcome (option nat) :=
  _ ← usub (length bs) 1;
  Ret (last_set_from (length bs) (rev bs)).

(** The closure of [bits] on one word: yield the lowest set bit, clear it. *)
Fixpoint word_bits (fuel : nat) (word_offset : nat) (word : Z) : list nat :=
  match fuel with
  | O => []
  | S fuel =>
      let tz := trailing_zeros64 word in
      if decide (tz = 64) then []
      else (word_offset + tz) :: word_bits fuel word_offset (Z.land word (word - 1))
  end.

Definition bits (bs : list Z) : list nat :=
  concat (imap (fun i word => word_bits 64 (i * 64) word) bs).

Definition intersection_top (bs other : list Z) : option nat :=
  last_set_from (length (zip_with Z.land bs other)) (rev (zip_with Z.land bs other)).

Definition is_empty (bs : list Z) : bool := forallb (fun w => bool_decide (w = 0%Z)) bs.

Definition intersects (bs other : list Z) : bool :=
  existsb (fun w => negb (bool_decide (w = 0%Z))) (zip_with Z.land bs other).

Definition count_ones (bs : list Z) : nat := sum_list_with count_ones64 bs.

Definition union_inplace (bs other : list Z) : list Z := zip_with Z.lor bs other.
Definition intersect_inplace (bs other : list Z) : list Z := zip_with Z.land bs other.
Definition invert_inplace (bs : list Z) : list Z := not64 <$> bs.

Definition with_bits_upto (n_words : nat) (bit_exclusive : nat) : outcome (list Z) :=
  let out := EMPTY n_words in
  let full_set_words := bit_exclusive / 64 in
  out ← mfoldl (fun out i => upd out i (Z.ones 64)) out (seq 0 full_set_words);
  let last_set_word := full_set_words in
  if decide (last_set_word < n_words) then
    let n_bits := bit_exclusive mod 64 in
    upd out last_set_word (Z.shiftl 1 (Z.of_nat n_bits) - 1)%Z
  else Ret out.

(** One iteration of the in-place loops of the two shifts. *)
Definition shl_step (shift_words shift_bits : nat) (bs : list Z) (tgt_idx : nat)
    : outcome (list Z) :=
  let src_idx := tgt_idx - shift_words in
  src_word1 ← idx bs src_idx;
  src_word2 ← (if decide (src_idx = 0) then Ret 0%Z else idx bs (src_idx - 1));
  upd bs tgt_idx
    (Z.lor (ushl 64 src_word1 (Z.of_nat shift_bits))
           (ushr src_word2 (Z.of_nat (64 - shift_bits)))).

Definition unbounded_shl_inplace (bs : list Z) (rhs : nat) : outcome (list Z) :=
  if decide (N_BITS bs <= rhs) then Ret (EMPTY (length bs))
  else
    let shift_words := rhs / 64 in
    let shift_bits := rhs mod 64 in
    bs ← mfoldl (shl_step shift_words shift_bits) bs
           (rev (seq shift_words (length bs - shift_words)));
    Ret (replicate shift_words 0%Z ++ drop shift_words bs).

Definition shr_step (shift_words shift_bits : nat) (bs : list Z) (tgt_idx : nat)
    : outcome (list Z) :=
  let src_idx := tgt_idx + shift_words in
  src_word1 ← idx bs src_idx;
  let src_word2 := default 0%Z (bs !! (src_idx + 1)) in
  upd bs tgt_idx
    (Z.lor (ushr src_word1 (Z.of_nat shift_bits))
           (ushl 64 src_word2 (Z.of_nat (64 - shift_bits)))).

Definition unbounded_shr_inplace (bs : list Z) (rhs : nat) : outcome (list Z) :=
  if decide (N_BITS bs <= rhs) then Ret (EMPTY (length bs))
  else
    let shift_words := rhs / 64 in
    let shift_bits := rhs mod 64 in
    bs ← mfoldl (shr_step shift_words shift_bits) bs
           (seq 0 (length bs - shift_words));
    Ret (take (length bs - shift_words) bs ++ replicate shift_words 0%Z).

(** [ShlAssign] and [ShrAssign] for a signed or unsigned amount: a negative or
    excessive amount panics, and so does one beyond [u32]. *)
Definition shl_assign (bs : list Z) (rhs : Z) : outcome (list Z) :=
  _ ← rassert (negb (bool_decide (rhs < 0)%Z));
  let rhs := Z.to_nat rhs in
  _ ← rassert (negb (bool_decide (N_BITS bs <= rhs)));
  _ ← rassert (bool_decide (Z.of_nat rhs < 2 ^ 32)%Z);
  unbounded_shl_inplace bs rhs.

Definition shr_assign (bs : list Z) (rhs : Z) : outcome (list Z) :=
  _ ← rassert (negb (bool_decide (rhs < 0)%Z));
  let rhs := Z.to_nat rhs in
  _ ← rassert (negb (bool_decide (N_BITS bs <= rhs)));
  _ ← rassert (bool_decide (Z.of_nat rhs < 2 ^ 32)%Z);
  unbounded_shr_inplace bs rhs.

Definition from_iter (n_words : nat) (bits : list nat) : outcome (list Z) :=
  mfoldl set (EMPTY n_words) bits.

(** *** rank.rs *)

Definition mask_word (word_idx n : nat) : Z :=
  let n := n + 1 in
  let target_word := n / 64 in
  if decide (word_idx < target_word) then Z.ones 64
  else if decide (target_word < word_idx) then 0%Z
  else (Z.shiftl 1 (Z.of_nat (n mod 64)) - 1)%Z.

Definition build_rank_mask (n_words n : nat) : list Z :=
  (fun i => mask_word i n) <$> seq 0 n_words.

Definition rank (bs : list Z) (i : nat) : nat :=
  count_ones (intersect_inplace (build_rank_mask (length bs) i) bs).

(** [rank256] and [rank_mask256]: the table of the [lut] feature holds
    [build_rank_mask i] at [i < 256], so both features agree; without it
    the index is not bounded either. *)
Definition rank256 (bs : list Z) (i : nat) : nat :=
  count_ones (intersect_inplace (build_rank_mask 4 i) bs).

Definition bits_after (bs : list Z) (n : nat) : list nat :=
  bits (intersect_inplace (invert_inplace (build_rank_mask 4 n)) bs).

(** ** Specification view *)

Definition bit (bs : list Z) (i : nat) : bool :=
  Z.testbit (default 0%Z (bs !! (i / 64))) (Z.of_nat (i mod 64)).

Definition wf (n_words : nat) (bs : list Z) : Prop :=
  length bs = n_words /\ Forall u64_ok bs.

(** ** Lemmas on the specification view *)

Section View.
Implicit Types (bs : list Z) (i j k n : nat) (w : Z).

Lemma land63 i : Nat.land i 63 = i mod 64.
Proof. exact (Nat.land_ones i 6). Qed.

Lemma mod64_lt i : i mod 64 < 64.
Proof. apply Nat.mod_upper_bound. lia. Qed.

Lemma div64_lt i n : i < n * 64 -> i / 64 < n.
Proof. intros. apply Nat.Div0.div_lt_upper_bound. lia. Qed.

Lemma div_mod64 i : i = 64 * (i / 64) + i mod 64.
Proof. apply Nat.div_mod_eq. Qed.

Lemma bit_at bs k j w :
  bs !! k = Some w -> j < 64 -> bit bs (k * 64 + j) = Z.testbit w (Z.of_nat j).
Proof.
  intros Hk Hj. unfold bit.
  rewrite (Nat.mul_comm k), (Nat.add_comm (64 * k)), Nat.mul_comm.
  rewrite Nat.div_add, Nat.Div0.mod_add, Nat.div_small, Nat.mod_small by lia.
  by rewrite Nat.add_0_l, Hk.
Qed.

Lemma bit_insert bs k w j :
  k < length bs ->
  bit (<[k := w]> bs) j =
  if decide (j / 64 = k) then Z.testbit w (Z.of_nat (j mod 64)) else bit bs j.
Proof.
  intros Hk. unfold bit. destruct (decide (j / 64 = k)) as [->|Hne].
  - by rewrite list_lookup_insert_eq.
  - by rewrite list_lookup_insert_ne.
Qed.

Lemma bit_ge bs j : N_BITS bs <= j -> bit bs j = false.
Proof.
  intros Hj. unfold bit, N_BITS in *. rewrite lookup_ge_None_2.
  - apply Z.testbit_0_l.
  - apply Nat.div_le_lower_bound; lia.
Qed.

Lemma wf_lookup n bs k w : wf n bs -> bs !! k = Some w -> u64_ok w.
Proof. intros [_ Hf] Hk. by eapply Forall_lookup_1. Qed.

Lemma wf_word n bs k : wf n bs -> u64_ok (default 0%Z (bs !! k)).
Proof.
  intros Hwf. destruct (bs !! k) eqn:E; simpl; [by eapply wf_lookup|].
  split; lia.
Qed.

Lemma wf_EMPTY n : wf n (EMPTY n).
Proof.
  split; [apply length_replicate|]. apply Forall_replicate. split; lia.
Qed.

Lemma bit_EMPTY n j : bit (EMPTY n) j = false.
Proof.
  unfold bit, EMPTY. destruct (replicate n 0%Z !! (j / 64)) eqn:E; simpl.
  - apply lookup_replicate in E as [-> _]. apply Z.testbit_0_l.
  - apply Z.testbit_0_l.
Qed.

(** Two bitsets of the same width with the same bits are equal. *)
Lemma bit_ext n bs bs' :
  wf n bs -> wf n bs' -> (forall j, j < n * 64 -> bit bs j = bit bs' j) -> bs = bs'.
Proof.
  intros [Hl Hf] [Hl' Hf'] Hb. apply list_eq_same_length with n; [done..|].
  intros k w w' Hk Hw Hw'. apply Z.bits_inj'. intros z Hz.
  destruct (Z.lt_ge_cases z 64) as [Hlt|Hge].
  - specialize (Hb (k * 64 + Z.to_nat z)).
    rewrite (bit_at bs k _ w), (bit_at bs' k _ w') in Hb by (done || lia).
    rewrite Z2Nat.id in Hb by done. apply Hb. lia.
  - pose proof (Forall_lookup_1 _ _ _ _ Hf Hw).
    pose proof (Forall_lookup_1 _ _ _ _ Hf' Hw').
    by rewrite !u64_testbit_high.
Qed.

Lemma wf_upd n bs k w : wf n bs -> u64_ok w -> wf n (<[k := w]> bs).
Proof.
  intros [Hl Hf] Hw. split; [by rewrite length_insert|by apply Forall_insert].
Qed.
End View.

#[export] Hint Resolve wf_EMPTY wf_upd : rust.

(** [subword_idx] selects exactly one bit. *)
Lemma subword_testbit i k :
  k < 64 -> Z.testbit (subword_idx i) (Z.of_nat k) = bool_decide (k = i mod 64).
Proof.
  intros. unfold subword_idx. rewrite land63, pow2_testbit by lia.
  apply bool_decide_ext. lia.
Qed.

Lemma subword_ok i : u64_ok (subword_idx i).
Proof. unfold subword_idx. rewrite land63. apply pow2_ok, mod64_lt. Qed.

#[export] Hint Resolve subword_ok : rust.

(** The index [j] lies in word [i / 64] at position [i mod 64] iff it is [i]. *)
Lemma same_bit i j : j / 64 = i / 64 -> j mod 64 = i mod 64 <-> j = i.
Proof. intros. pose proof (div_mod64 i). pose proof (div_mod64 j). lia. Qed.

Section SetClearTest.
Context (n : nat).
Implicit Types (bs : list Z) (i j : nat).

Lemma set_spec bs i :
  wf n bs -> i < n * 64 ->
  exists bs', set bs i = Ret bs' /\ wf n bs' /\
    forall j, bit bs' j = bool_decide (j = i) || bit bs j.
Proof.
  intros Hwf Hi. pose proof (div64_lt _ _ Hi) as Hd. unfold set, word_idx.
  destruct (idx_lt bs (i / 64)) as [w Hw]; [destruct Hwf; lia|].
  rewrite Hw. simpl. apply idx_Ret in Hw.
  rewrite upd_lt by (destruct Hwf; lia).
  eexists; split; [done|split].
  - apply wf_upd; eauto using wf_lookup with rust.
  - intros j. rewrite bit_insert by (destruct Hwf; lia). case_decide as Hj.
    + rewrite Z.lor_spec, subword_testbit by apply mod64_lt.
      unfold bit. rewrite Hj, Hw. simpl. rewrite orb_comm. f_equal.
      apply bool_decide_ext, same_bit, Hj.
    + rewrite bool_decide_eq_false_2; [done|]. by intros ->.
Qed.

Lemma clear_spec bs i :
  wf n bs -> i < n * 64 ->
  exists bs', clear bs i = Ret bs' /\ wf n bs' /\
    forall j, bit bs' j = negb (bool_decide (j = i)) && bit bs j.
Proof.
  intros Hwf Hi. pose proof (div64_lt _ _ Hi) as Hd. unfold clear, word_idx.
  destruct (idx_lt bs (i / 64)) as [w Hw]; [destruct Hwf; lia|].
  rewrite Hw. simpl. apply idx_Ret in Hw.
  rewrite upd_lt by (destruct Hwf; lia).
  eexists; split; [done|split].
  - apply wf_upd; [done|]. apply land_ok; [by eapply wf_lookup|].
    apply not64_ok, subword_ok.
  - intros j. rewrite bit_insert by (destruct Hwf; lia). case_decide as Hj.
    + rewrite Z.land_spec, not64_testbit, subword_testbit by (apply mod64_lt || lia).
      rewrite (bool_decide_eq_true_2 (_ < 64)%Z) by (pose proof (mod64_lt j); lia).
      rewrite xorb_true_r. unfold bit. rewrite Hj, Hw. simpl.
      rewrite andb_comm. do 2 f_equal. apply bool_decide_ext, same_bit, Hj.
    + rewrite (bool_decide_eq_false_2 (j = i)); [done|]. by intros ->.
Qed.

Lemma test_spec bs i : wf n bs -> i < n * 64 -> test bs i = Ret (bit bs i).
Proof.
  intros Hwf Hi. pose proof (div64_lt _ _ Hi) as Hd. unfold test, word_idx.
  destruct (idx_lt bs (i / 64)) as [w Hw]; [destruct Hwf; lia|].
  rewrite Hw. simpl. apply idx_Ret in Hw. f_equal.
  unfold bit. rewrite Hw. simpl. case_bool_decide as E.
  - apply (f_equal (fun z => Z.testbit z (Z.of_nat (i mod 64)))) in E.
    rewrite Z.land_spec, subword_testbit, Z.testbit_0_l in E by apply mod64_lt.
    rewrite bool_decide_eq_true_2, andb_true_r in E by done. by rewrite E.
  - symmetry. apply not_false_is_true. intros Hf. apply E.
    apply u64_zero_bits; [apply land_ok; [by eapply wf_lookup|apply subword_ok]|].
    intros k Hk. rewrite Z.land_spec, subword_testbit by done.
    case_bool_decide as Ek; [subst; by rewrite Hf|apply andb_false_r].
Qed.

(** Out of range every one of the three panics. *)
Lemma set_out_of_range bs i :
  wf n bs -> n * 64 <= i -> set bs i = Panic /\ clear bs i = Panic /\ test bs i = Panic.
Proof.
  intros [Hl _] Hi. unfold set, clear, test, idx, word_idx.
  rewrite lookup_ge_None_2; [done|]. rewrite Hl. apply Nat.div_le_lower_bound; lia.
Qed.

Lemma with_bits_spec bs l :
  wf n bs -> Forall (fun i => i < n * 64) l ->
  exists bs', with_bits bs l = Ret bs' /\ wf n bs' /\
    forall j, bit bs' j = bool_decide (j ∈ l) || bit bs j.
Proof.
  unfold with_bits. intros Hwf Hl. revert bs Hwf.
  induction Hl as [|i l Hi Hl IH]; intros bs Hwf; simpl.
  - by exists bs.
  - destruct (set_spec bs i Hwf Hi) as (bs1 & -> & Hwf1 & Hb1). simpl.
    destruct (IH bs1 Hwf1) as (bs2 & -> & Hwf2 & Hb2).
    exists bs2. split_and!; [done..|]. intros j. rewrite Hb2, Hb1, orb_assoc.
    f_equal. rewrite <- bool_decide_or. apply bool_decide_ext.
    rewrite elem_of_cons. tauto.
Qed.

Lemma without_bits_spec bs l :
  wf n bs -> Forall (fun i => i < n * 64) l ->
  exists bs', without_bits bs l = Ret bs' /\ wf n bs' /\
    forall j, bit bs' j = negb (bool_decide (j ∈ l)) && bit bs j.
Proof.
  unfold without_bits. intros Hwf Hl. revert bs Hwf.
  induction Hl as [|i l Hi Hl IH]; intros bs Hwf; simpl.
  - by exists bs.
  - destruct (clear_spec bs i Hwf Hi) as (bs1 & -> & Hwf1 & Hb1). simpl.
    destruct (IH bs1 Hwf1) as (bs2 & -> & Hwf2 & Hb2).
    exists bs2. split_and!; [done..|]. intros j. rewrite Hb2, Hb1, andb_assoc.
    f_equal. rewrite <- negb_orb, <- bool_decide_or. f_equal.
    apply bool_decide_ext. rewrite elem_of_cons. tauto.
Qed.
End SetClearTest.

(** ** The set positions, in order *)

(** What [bits] yields, as a specification. *)
Definition positions (bs : list Z) : list nat :=
  filter (fun i => bit bs i = true) (seq 0 (N_BITS bs)).

Section Positions.
Implicit Types (bs : list Z) (i j k n : nat) (w : Z).

Lemma bit_cons_lo w bs i : i < 64 -> bit (w :: bs) i = Z.testbit w (Z.of_nat i).
Proof. intros. by apply (bit_at (w :: bs) 0). Qed.

Lemma bit_cons_hi w bs i : bit (w :: bs) (64 + i) = bit bs i.
Proof.
  unfold bit. replace (64 + i) with (i + 1 * 64) by lia.
  rewrite Nat.div_add, Nat.Div0.mod_add by lia.
  by rewrite Nat.add_1_r.
Qed.

Lemma positions_cons w bs :
  positions (w :: bs) = bits64 w ++ (Nat.add 64 <$> positions bs).
Proof.
  unfold positions, N_BITS, bits64. cbn [length]. rewrite Nat.mul_succ_l.
  rewrite Nat.add_comm, seq_app, filter_app. change (0 + 64) with (64 + 0).
  rewrite <- (fmap_add_seq 64 0), filter_fmap_comm.
  apply app_cong; [|apply (f_equal (fmap _))].
  - apply filter_ext_in. intros i [_ Hi]%elem_of_seq. by rewrite bit_cons_lo by lia.
  - apply filter_ext_in. intros i _. by rewrite bit_cons_hi.
Qed.

Lemma positions_nil : positions [] = [].
Proof. reflexivity. Qed.

Lemma positions_snoc bs w :
  positions (bs ++ [w]) = positions bs ++ (Nat.add (64 * length bs) <$> bits64 w).
Proof.
  induction bs as [|v bs IH].
  - rewrite app_nil_l, positions_cons, positions_nil, app_nil_r. simpl.
    symmetry. apply list_fmap_id.
  - rewrite <- app_comm_cons, !positions_cons, IH, fmap_app, app_assoc.
    apply app_cong; [done|]. rewrite <- list_fmap_compose. apply list_fmap_ext.
    intros _ x _. simpl. lia.
Qed.

Lemma elem_of_positions bs i : i ∈ positions bs <-> bit bs i = true.
Proof.
  unfold positions. rewrite list_elem_of_filter, elem_of_seq. split; [tauto|].
  intros Hb. split; [done|]. split; [lia|].
  destruct (Nat.lt_ge_cases i (N_BITS bs)); [lia|].
  rewrite bit_ge in Hb by done. discriminate.
Qed.

Lemma count_ones_positions bs : count_ones bs = length (positions bs).
Proof.
  induction bs as [|w bs IH]; [done|].
  rewrite positions_cons, length_app, length_fmap, <- IH. done.
Qed.

Lemma count_ones_count bs : count_ones bs = count_upto (bit bs) (N_BITS bs).
Proof. by rewrite count_ones_positions, count_upto_filter. Qed.

Lemma trailing_zeros64_spec w :
  u64_ok w ->
  trailing_zeros64 w = 64 /\ w = 0%Z \/
  exists t l, bits64 w = t :: l /\ trailing_zeros64 w = t /\ t < 64 /\ w <> 0%Z.
Proof.
  intros Hw. unfold trailing_zeros64.
  destruct (bits64 w) as [|t l] eqn:E; simpl.
  - left. split; [done|]. by apply bits64_nil.
  - right. exists t, l. split_and!; [done|done| |].
    + assert (t ∈ bits64 w) as Ht by (rewrite E; set_solver).
      by apply elem_of_bits64 in Ht as [? _].
    + intros ->. discriminate E.
Qed.

Lemma first_set_from_spec i bs :
  Forall u64_ok bs -> first_set_from i bs = Nat.add (64 * i) <$> head (positions bs).
Proof.
  intros Hf. revert i. induction Hf as [|w bs Hw Hf IH]; intros i; [done|].
  rewrite positions_cons. cbn [first_set_from].
  destruct (trailing_zeros64_spec w Hw) as [[-> ->]|(t & l & E & -> & Ht & _)].
  - rewrite decide_True by done. rewrite IH.
    change (bits64 0) with (@nil nat). rewrite app_nil_l.
    destruct (positions bs); [done|]. cbn. f_equal. lia.
  - rewrite decide_False by lia. rewrite E. done.
Qed.

Lemma next_set_from_spec i bs :
  Forall u64_ok bs -> next_set_from i bs = Nat.add (64 * i) <$> head (positions bs).
Proof.
  intros Hf. revert i. induction Hf as [|w bs Hw Hf IH]; intros i; [done|].
  rewrite positions_cons. cbn [next_set_from].
  destruct (trailing_zeros64_spec w Hw) as [[_ ->]|(t & l & E & -> & Ht & Hnz)].
  - rewrite decide_True by done. rewrite IH.
    change (bits64 0) with (@nil nat). rewrite app_nil_l.
    destruct (positions bs); [done|]. cbn. f_equal. lia.
  - rewrite decide_False by done. rewrite E. cbn. f_equal. lia.
Qed.

Lemma last_set_from_spec bs :
  Forall u64_ok bs -> last_set_from (length bs) (rev bs) = last (positions bs).
Proof.
  induction bs as [|w bs IH] using rev_ind; [done|].
  intros [Hf Hw]%Forall_app. rewrite Forall_singleton in Hw.
  rewrite rev_app_distr, positions_snoc, length_app. cbn [rev app last_set_from].
  rewrite Nat.add_sub, last_app, fmap_last, IH by done.
  case_decide as Ew; [by subst w|].
  unfold len, bit_len64. destruct (last (bits64 w)) as [x|] eqn:E; cbn.
  - f_equal. lia.
  - destruct Ew. apply bits64_nil; [done|]. by apply last_None.
Qed.
End Positions.

(** ** Word-wise operations, bit by bit *)

Section Bitwise.
Context (n : nat).
Implicit Types (bs : list Z) (i j k : nat) (w : Z).

Lemma zip_word (f : Z -> Z -> Z) bs bs' k :
  f 0%Z 0%Z = 0%Z -> length bs = length bs' ->
  default 0%Z (zip_with f bs bs' !! k)
  = f (default 0%Z (bs !! k)) (default 0%Z (bs' !! k)).
Proof.
  intros Hf Hlen. rewrite lookup_zip_with.
  destruct (bs !! k) eqn:E; destruct (bs' !! k) eqn:E'; simpl; try done.
  - apply lookup_lt_Some in E. apply lookup_ge_None in E'. lia.
  - apply lookup_ge_None in E. apply lookup_lt_Some in E'. lia.
Qed.

Lemma wf_zip (f : Z -> Z -> Z) bs bs' :
  (forall a b, u64_ok a -> u64_ok b -> u64_ok (f a b)) ->
  wf n bs -> wf n bs' -> wf n (zip_with f bs bs').
Proof.
  intros Hf [Hl Ho] [Hl' Ho']. split.
  - rewrite length_zip_with. lia.
  - apply Forall_forall. intros w Hin.
    apply elem_of_zip_with in Hin as (a & b & -> & Ha & Hb).
    apply Hf; [by eapply Forall_forall in Ho|by eapply Forall_forall in Ho'].
Qed.

Lemma wf_intersect bs bs' : wf n bs -> wf n bs' -> wf n (intersect_inplace bs bs').
Proof.
  apply wf_zip. intros a b Ha [Hb _]. by apply land_ok.
Qed.

Lemma wf_union bs bs' : wf n bs -> wf n bs' -> wf n (union_inplace bs bs').
Proof. apply wf_zip, lor_ok. Qed.

Lemma wf_invert bs : wf n bs -> wf n (invert_inplace bs).
Proof.
  intros [Hl Ho]. split; [unfold invert_inplace; by rewrite length_fmap|].
  apply Forall_fmap. eapply Forall_impl; [exact Ho|]. intros w Hw. by apply not64_ok.
Qed.

Lemma intersect_bit bs bs' j :
  wf n bs -> wf n bs' -> bit (intersect_inplace bs bs') j = bit bs j && bit bs' j.
Proof.
  intros [Hl _] [Hl' _]. unfold bit, intersect_inplace.
  rewrite zip_word by (done || congruence). apply Z.land_spec.
Qed.

Lemma union_bit bs bs' j :
  wf n bs -> wf n bs' -> bit (union_inplace bs bs') j = bit bs j || bit bs' j.
Proof.
  intros [Hl _] [Hl' _]. unfold bit, union_inplace.
  rewrite zip_word by (done || congruence). apply Z.lor_spec.
Qed.

Lemma invert_bit bs j : wf n bs -> j < n * 64 -> bit (invert_inplace bs) j = negb (bit bs j).
Proof.
  intros [Hl _] Hj. pose proof (div64_lt _ _ Hj) as Hd. unfold bit, invert_inplace.
  rewrite list_lookup_fmap.
  destruct (lookup_lt_is_Some_2 bs (j / 64)) as [w ->]; [lia|]. simpl.
  rewrite not64_testbit by lia. pose proof (mod64_lt j).
  rewrite bool_decide_eq_true_2 by lia. apply xorb_true_r.
Qed.

Lemma is_empty_spec bs : wf n bs -> is_empty bs = true <-> forall j, bit bs j = false.
Proof.
  intros [Hl Ho]. unfold is_empty. rewrite forallb_forall. split.
  - intros Hz j. unfold bit. destruct (bs !! (j / 64)) as [w|] eqn:E; simpl.
    + apply list_elem_of_lookup_2, list_elem_of_In, Hz, bool_decide_eq_true in E as ->.
      apply Z.testbit_0_l.
    + apply Z.testbit_0_l.
  - intros Hb w [k Hk]%list_elem_of_In%list_elem_of_lookup. apply bool_decide_eq_true.
    apply u64_zero_bits; [by eapply Forall_lookup_1|].
    intros i Hi. by rewrite <- (bit_at bs k i w Hk Hi).
Qed.

Lemma intersects_spec bs bs' :
  wf n bs -> wf n bs' ->
  intersects bs bs' = true <-> exists j, bit bs j = true /\ bit bs' j = true.
Proof.
  intros Hwf Hwf'. pose proof (is_empty_spec _ (wf_intersect _ _ Hwf Hwf')) as He.
  assert (intersects bs bs' = negb (is_empty (intersect_inplace bs bs'))) as ->.
  { unfold intersects, is_empty, intersect_inplace.
    induction (zip_with Z.land bs bs') as [|w l IH]; [done|]. simpl.
    rewrite IH. by destruct (bool_decide _). }
  rewrite negb_true_iff. split.
  - intros Hf. destruct (positions (intersect_inplace bs bs')) as [|j l] eqn:E.
    + rewrite (proj2 He) in Hf; [done|]. intros j. apply not_true_is_false.
      rewrite <- elem_of_positions, E. apply not_elem_of_nil.
    + exists j. assert (j ∈ positions (intersect_inplace bs bs')) as Hj
        by (rewrite E; apply list_elem_of_here).
      by rewrite elem_of_positions, intersect_bit, andb_true_iff in Hj by done.
  - intros (j & Hb & Hb'). apply not_true_is_false. intros Ht.
    apply (proj1 He) with (j := j) in Ht.
    rewrite intersect_bit, Hb, Hb' in Ht by done. discriminate.
Qed.
End Bitwise.

#[export] Hint Resolve wf_intersect wf_union wf_invert : rust.

Section Iteration.
Implicit Types (bs : list Z) (i j k : nat) (w : Z).

Lemma word_bits_spec fuel off w :
  u64_ok w -> length (bits64 w) <= fuel -> word_bits fuel off w = Nat.add off <$> bits64 w.
Proof.
  revert w. induction fuel as [|fuel IH]; intros w Hw Hl.
  - destruct (bits64 w); [done|simpl in Hl; lia].
  - cbn [word_bits].
    destruct (trailing_zeros64_spec w Hw) as [[-> ->]|(t & l & E & -> & Ht & Hnz)].
    + by rewrite decide_True.
    + rewrite decide_False by lia. pose proof (bits64_land_pred _ _ _ E) as Hp.
      rewrite E. rewrite IH, Hp; [done| |].
      * apply land_ok; [done|]. destruct Hw. lia.
      * rewrite Hp. rewrite E in Hl. simpl in Hl. lia.
Qed.

Lemma bits_spec bs : Forall u64_ok bs -> bits bs = positions bs.
Proof.
  intros Hf. unfold bits.
  assert (forall k, concat (imap (fun i word => word_bits 64 ((k + i) * 64) word) bs)
                    = Nat.add (64 * k) <$> positions bs) as Hgen.
  { induction Hf as [|w bs Hw Hf IH]; intros k; [done|].
    rewrite positions_cons, imap_cons, fmap_app. cbn [concat].
    rewrite word_bits_spec; [|done|].
    - apply app_cong.
      + apply list_fmap_ext. intros _ x _. lia.
      + rewrite <- list_fmap_compose. rewrite <- (list_fmap_ext (Nat.add (64 * S k)))
          by (intros _ x _; simpl; lia).
        rewrite <- IH. apply (f_equal (@concat nat)), imap_ext. intros i x _.
        apply (f_equal (fun o => word_bits 64 o x)). lia.
    - unfold bits64. etrans; [apply length_filter|]. by rewrite length_seq. }
  etrans; [exact (Hgen 0)|]. apply list_fmap_id.
Qed.
End Iteration.

(** ** Rank masks *)

Section Rank.
Implicit Types (bs : list Z) (i j k : nat).

Lemma low_mask_testbit (m k : nat) :
  Z.testbit (Z.shiftl 1 (Z.of_nat m) - 1) (Z.of_nat k) = bool_decide (k < m).
Proof.
  replace (Z.shiftl 1 (Z.of_nat m) - 1)%Z with (Z.ones (Z.of_nat m)) by done.
  rewrite Z.testbit_ones by lia.
  destruct (Z.leb_spec 0 (Z.of_nat k)), (Z.ltb_spec (Z.of_nat k) (Z.of_nat m)); simpl; try lia.
  - rewrite bool_decide_eq_true_2; [done|lia].
  - rewrite bool_decide_eq_false_2; [done|lia].
Qed.

Lemma low_mask_ok m : m <= 64 -> u64_ok (Z.shiftl 1 (Z.of_nat m) - 1)%Z.
Proof.
  intros Hm. rewrite Z.shiftl_mul_pow2, Z.mul_1_l by lia.
  assert (2 ^ Z.of_nat m <= 2 ^ 64)%Z by (apply Z.pow_le_mono_r; lia).
  assert (0 < 2 ^ Z.of_nat m)%Z by (apply Z.pow_pos_nonneg; lia).
  split; lia.
Qed.

Lemma mask_word_ok k i : u64_ok (mask_word k i).
Proof.
  unfold mask_word. repeat case_decide.
  - split; [done|reflexivity].
  - split; lia.
  - apply low_mask_ok. pose proof (mod64_lt (i + 1)). lia.
Qed.

Lemma mask_word_testbit k i r :
  r < 64 -> Z.testbit (mask_word k i) (Z.of_nat r) = bool_decide (k * 64 + r <= i).
Proof.
  intros Hr. unfold mask_word.
  pose proof (div_mod64 (i + 1)). pose proof (mod64_lt (i + 1)).
  destruct (decide (k < (i + 1) / 64)); [|destruct (decide ((i + 1) / 64 < k))].
  - change (Z.ones 64) with (Z.shiftl 1 (Z.of_nat 64) - 1)%Z.
    rewrite low_mask_testbit, !bool_decide_eq_true_2 by lia. done.
  - rewrite Z.testbit_0_l, bool_decide_eq_false_2 by lia. done.
  - rewrite low_mask_testbit. apply bool_decide_ext. lia.
Qed.

Lemma wf_build_rank_mask n i : wf n (build_rank_mask n i).
Proof.
  unfold build_rank_mask. split; [by rewrite length_fmap, length_seq|].
  apply Forall_fmap, Forall_forall. intros k _. apply mask_word_ok.
Qed.

Lemma build_rank_mask_bit n i j :
  j < n * 64 -> bit (build_rank_mask n i) j = bool_decide (j <= i).
Proof.
  intros Hj. pose proof (div64_lt _ _ Hj). unfold bit, build_rank_mask.
  rewrite list_lookup_fmap, lookup_seq_lt by done. simpl.
  rewrite mask_word_testbit by apply mod64_lt.
  apply bool_decide_ext. pose proof (div_mod64 j). lia.
Qed.

(** Counting the bits selected by a rank mask. *)
Lemma masked_count n bs i :
  wf n bs -> i < n * 64 ->
  count_ones (intersect_inplace (build_rank_mask n i) bs) = count_upto (bit bs) (S i).
Proof.
  intros Hwf Hi. pose proof (wf_build_rank_mask n i) as Hm.
  rewrite count_ones_count. unfold N_BITS.
  rewrite (proj1 (wf_intersect n _ _ Hm Hwf)).
  replace (n * 64) with (S i + (n * 64 - S i)) by lia.
  rewrite count_upto_app, (count_upto_false (fun _ => bit _ (_ + _))), Nat.add_0_r.
  - apply count_upto_ext. intros j Hj.
    rewrite (intersect_bit n), build_rank_mask_bit by (done || lia).
    by rewrite bool_decide_eq_true_2 by lia.
  - intros j Hj. rewrite (intersect_bit n), build_rank_mask_bit by (done || lia).
    by rewrite bool_decide_eq_false_2 by lia.
Qed.

Lemma rank_spec n bs i :
  wf n bs -> i < n * 64 -> rank bs i = count_upto (bit bs) (S i).
Proof.
  intros Hwf Hi. unfold rank. rewrite (proj1 Hwf). by apply masked_count.
Qed.

Lemma rank256_spec bs i :
  wf 4 bs -> i < 256 -> rank256 bs i = count_upto (bit bs) (S i).
Proof. intros. by apply masked_count. Qed.

Lemma bits_after_spec bs m :
  wf 4 bs -> m < 256 -> bits_after bs m = filter (fun i => m < i) (positions bs).
Proof.
  intros Hwf Hm. pose proof (wf_build_rank_mask 4 m) as Hr. unfold bits_after.
  pose proof (wf_intersect 4 _ _ (wf_invert 4 _ Hr) Hwf) as Hi.
  rewrite bits_spec by apply Hi. unfold positions, N_BITS.
  rewrite (proj1 Hi), (proj1 Hwf), list_filter_filter.
  apply filter_ext_in. intros j [_ Hj]%elem_of_seq.
  rewrite (intersect_bit 4), (invert_bit 4), build_rank_mask_bit by eauto with rust lia.
  rewrite andb_true_iff, negb_true_iff, bool_decide_eq_false. intuition lia.
Qed.
End Rank.

(** ** Constructors *)

Section Constructors.
Implicit Types (bs : list Z) (i j k : nat).

Lemma with_bits_upto_spec n e :
  e <= n * 64 ->
  exists bs, with_bits_upto n e = Ret bs /\ wf n bs /\
    forall j, bit bs j = bool_decide (j < e).
Proof.
  intros He. unfold with_bits_upto, EMPTY.
  pose proof (div_mod64 e) as Hdm. pose proof (mod64_lt e) as Hmod.
  assert (forall q, q <= n ->
    mfoldl (fun out i => upd out i (Z.ones 64)) (replicate n 0%Z) (seq 0 q)
    = Ret (replicate q (Z.ones 64) ++ replicate (n - q) 0%Z)) as Hloop.
  { induction q as [|q IH]; intros Hq; [by rewrite Nat.sub_0_r|].
    rewrite seq_S, mfoldl_app, IH by lia. mrun.
    rewrite upd_lt by (rewrite length_app, !length_replicate; lia). mrun. f_equal.
    rewrite insert_app_r_alt by (rewrite length_replicate; lia).
    rewrite length_replicate, Nat.sub_diag, replicate_S_end, <- app_assoc.
    by replace (n - q) with (S (n - S q)) by lia. }
  rewrite Hloop by lia. simpl.
  set (q := e / 64) in *.
  assert (forall m, m <= n -> forall j, bit (replicate m (Z.ones 64) ++ replicate (n - m) 0%Z) j
            = bool_decide (j < m * 64)) as Hbit.
  { intros m Hm j. unfold bit. pose proof (div_mod64 j). pose proof (mod64_lt j).
    destruct (Nat.lt_ge_cases (j / 64) m) as [Hlt|Hge].
    - rewrite lookup_app_l, lookup_replicate_2 by (rewrite ?length_replicate; lia).
      simpl. change (Z.ones 64) with (Z.shiftl 1 (Z.of_nat 64) - 1)%Z.
      rewrite low_mask_testbit, !bool_decide_eq_true_2 by lia. done.
    - rewrite lookup_app_r by (rewrite length_replicate; lia).
      rewrite (bool_decide_eq_false_2 (j < m * 64)) by lia.
      destruct (_ !! _) as [w|] eqn:E; [apply lookup_replicate in E as [-> _]|];
        apply Z.testbit_0_l. }
  assert (forall m, m <= n -> wf n (replicate m (Z.ones 64) ++ replicate (n - m) 0%Z)) as Hwf.
  { intros m Hm. split; [rewrite length_app, !length_replicate; lia|].
    apply Forall_app. split; apply Forall_replicate; [split; [done|reflexivity]|split; lia]. }
  case_decide as Hq.
  - rewrite upd_lt by (rewrite length_app, !length_replicate; lia).
    eexists; split; [done|]. split.
    + apply wf_upd; [apply Hwf; lia|]. apply low_mask_ok. lia.
    + intros j. rewrite bit_insert by (rewrite length_app, !length_replicate; lia).
      pose proof (div_mod64 j). pose proof (mod64_lt j).
      case_decide; [rewrite low_mask_testbit|rewrite Hbit by lia];
        apply bool_decide_ext; lia.
  - eexists; split; [done|]. split; [apply Hwf; lia|].
    intros j. rewrite Hbit by lia. apply bool_decide_ext. lia.
Qed.

(** Shrinking keeps the low words; growing panics, because the destination
    and the copied prefix differ in length. *)
Lemma resize_spec bs m e :
  resize bs m e = if decide (m <= length bs) then Ret (take m bs) else Panic.
Proof.
  unfold resize. rewrite length_replicate.
  repeat case_decide; rewrite ?length_take in *; try lia; try done.
  replace m with (length bs) by lia. done.
Qed.
End Constructors.

(** ** Shifts *)

Lemma ushl_testbit w (k r : nat) :
  r < 64 ->
  Z.testbit (ushl 64 w (Z.of_nat k)) (Z.of_nat r)
  = bool_decide (k <= r) && Z.testbit w (Z.of_nat (r - k)).
Proof.
  intros Hr. unfold ushl. rewrite Z.land_spec, Z.shiftl_spec by lia.
  rewrite Z.ones_spec_low, andb_true_r by lia.
  case_bool_decide; simpl; [f_equal; lia|]. apply Z.testbit_neg_r. lia.
Qed.

Lemma ushr_testbit w (k r : nat) :
  Z.testbit (ushr w (Z.of_nat k)) (Z.of_nat r) = Z.testbit w (Z.of_nat (r + k)).
Proof. unfold ushr. rewrite Z.shiftr_spec by lia. f_equal. lia. Qed.

Lemma ushl_ok w (k : nat) : u64_ok w -> u64_ok (ushl 64 w (Z.of_nat k)).
Proof.
  intros [Hw _]. unfold ushl. rewrite Z.land_comm. apply land_ok.
  - split; [done|reflexivity].
  - by apply Z.shiftl_nonneg.
Qed.

Lemma ushr_ok w (k : nat) : u64_ok w -> u64_ok (ushr w (Z.of_nat k)).
Proof.
  intros Hw. apply u64_ok_testbit.
  - apply Z.shiftr_nonneg. apply Hw.
  - intros z Hz. unfold ushr. rewrite Z.shiftr_spec by lia.
    apply u64_testbit_high; [done|lia].
Qed.

Section Shifts.
Context (n : nat) (bs0 : list Z) (Hwf : wf n bs0) (rhs : nat) (Hrhs : rhs < n * 64).

Local Abbreviation sw := (rhs / 64).
Local Abbreviation sb := (rhs mod 64).
Local Abbreviation word k := (default 0%Z (bs0 !! k)).

Lemma shift_words_lt : sw < n.
Proof. by apply div64_lt. Qed.

Lemma word_lookup k : k < n -> bs0 !! k = Some (word k).
Proof.
  intros Hk. destruct (lookup_lt_is_Some_2 bs0 k) as [w Hw]; [destruct Hwf; lia|].
  by rewrite Hw.
Qed.

(** What the loops leave in word [t]. *)
Definition shl_word (t : nat) : Z :=
  Z.lor (ushl 64 (word (t - sw)) (Z.of_nat sb))
        (ushr (if decide (t = sw) then 0%Z else word (t - sw - 1)) (Z.of_nat (64 - sb))).
Definition shr_word (t : nat) : Z :=
  Z.lor (ushr (word (t + sw)) (Z.of_nat sb))
        (ushl 64 (word (t + sw + 1)) (Z.of_nat (64 - sb))).

(** The state between two iterations: [old] holds below the boundary for a
    descending loop and from it on for an ascending one. *)
Definition mixed (new : nat -> Z) (is_old : nat -> Prop)
    `{!forall k, Decision (is_old k)} (bs : list Z) : Prop :=
  length bs = n /\
  forall k, k < n -> bs !! k = Some (if decide (is_old k) then word k else new k).

Lemma mixed_upd new (P Q : nat -> Prop) `{!forall k, Decision (P k)}
    `{!forall k, Decision (Q k)} bs t :
  mixed new P bs -> t < n -> (forall k, Q k <-> P k /\ k <> t) -> P t ->
  upd bs t (new t) = Ret (<[t := new t]> bs) /\ mixed new Q (<[t := new t]> bs).
Proof.
  intros [Hl Hk] Ht HQ HP. split; [apply upd_lt; lia|].
  split; [by rewrite length_insert|]. intros k Hkn.
  destruct (decide (k = t)) as [->|Hne].
  - rewrite list_lookup_insert_eq by lia. rewrite decide_False; [done|]. rewrite HQ. tauto.
  - rewrite list_lookup_insert_ne by done. rewrite Hk by done.
    by rewrite (decide_ext (P k) (Q k)) by (rewrite HQ; tauto).
Qed.

Lemma shl_loop m bs :
  sw + m <= n -> mixed shl_word (fun k => k < sw + m) bs ->
  exists bs', mfoldl (shl_step sw sb) bs (rev (seq sw m)) = Ret bs' /\
    mixed shl_word (fun k => k < sw) bs'.
Proof.
  revert bs. induction m as [|m IH]; intros bs Hm Hmix.
  - exists bs. split; [done|]. by rewrite Nat.add_0_r in Hmix.
  - rewrite seq_S, rev_app_distr. cbn [rev app mfoldl].
    pose proof (proj2 Hmix) as Hk.
    assert (shl_step sw sb bs (sw + m) = upd bs (sw + m) (shl_word (sw + m))) as ->.
    { assert (forall k, k <= m -> bs !! k = Some (word k)) as Hold.
      { intros k Hkm. rewrite Hk by lia. by rewrite decide_True by lia. }
      unfold shl_step, shl_word, idx.
      destruct (decide (sw + m - sw = 0)), (decide (sw + m = sw)); try lia;
        by rewrite !Hold by lia. }
    destruct (mixed_upd shl_word (fun k => k < sw + S m) (fun k => k < sw + m) bs (sw + m))
      as [-> Hmix']; [done|lia|intros; lia|lia|]. mrun.
    apply IH; [lia|done].
Qed.

Lemma shr_loop m bs t :
  t + m + sw <= n -> mixed shr_word (fun k => t <= k) bs ->
  exists bs', mfoldl (shr_step sw sb) bs (seq t m) = Ret bs' /\
    mixed shr_word (fun k => t + m <= k) bs'.
Proof.
  revert bs t. induction m as [|m IH]; intros bs t Hm Hmix.
  - exists bs. split; [done|]. by rewrite Nat.add_0_r.
  - cbn [seq mfoldl]. destruct Hmix as [Hl Hk].
    assert (shr_step sw sb bs t = upd bs t (shr_word t)) as ->.
    { assert (forall k, t <= k -> bs !! k = bs0 !! k) as Hold.
      { intros k Htk. destruct (decide (k < n)) as [Hlt|Hge].
        - rewrite Hk, decide_True, word_lookup by lia. done.
        - rewrite !lookup_ge_None_2; [done|destruct Hwf; lia|lia]. }
      unfold shr_step, shr_word, idx. rewrite !Hold by lia.
      by rewrite (word_lookup (t + sw)) by lia. }
    destruct (mixed_upd shr_word (fun k => t <= k) (fun k => S t <= k) bs t)
      as [-> Hmix']; [done|lia|intros; lia|lia|]. mrun.
    destruct (IH _ (S t) ltac:(lia) Hmix') as (bs' & -> & Hmix2).
    exists bs'. split; [done|]. by rewrite Nat.add_succ_r.
Qed.

Lemma shl_word_bit k r :
  sw <= k -> r < 64 ->
  Z.testbit (shl_word k) (Z.of_nat r)
  = bool_decide (rhs <= k * 64 + r) && bit bs0 (k * 64 + r - rhs).
Proof.
  intros Hk Hr. pose proof (div_mod64 rhs). pose proof (mod64_lt rhs).
  unfold shl_word. rewrite Z.lor_spec, ushl_testbit, ushr_testbit by done.
  destruct (decide (sb <= r)) as [Hle|Hgt].
  - rewrite !bool_decide_eq_true_2 by lia. simpl.
    rewrite (u64_testbit_high (if decide _ then _ else _)), orb_false_r.
    + replace (k * 64 + r - rhs) with ((k - sw) * 64 + (r - sb)) by lia.
      destruct (bs0 !! (k - sw)) as [w|] eqn:E; simpl.
      * by rewrite (bit_at bs0 (k - sw) (r - sb) w) by (done || lia).
      * rewrite Z.testbit_0_l, bit_ge; [done|]. apply lookup_ge_None in E.
        unfold N_BITS. lia.
    + case_decide; [split; lia|by apply (wf_word n)].
    + lia.
  - rewrite bool_decide_eq_false_2 by lia. simpl.
    destruct (decide (k = sw)) as [->|Hne].
    + rewrite Z.testbit_0_l, bool_decide_eq_false_2 by lia. done.
    + rewrite bool_decide_eq_true_2 by lia. simpl.
      replace (k * 64 + r - rhs) with ((k - sw - 1) * 64 + (r + (64 - sb))) by lia.
      destruct (bs0 !! (k - sw - 1)) as [w|] eqn:E; simpl.
      * by rewrite (bit_at bs0 (k - sw - 1) (r + (64 - sb)) w) by (done || lia).
      * rewrite Z.testbit_0_l, bit_ge; [done|]. apply lookup_ge_None in E.
        unfold N_BITS. lia.
Qed.

Lemma shr_word_bit k r :
  r < 64 -> Z.testbit (shr_word k) (Z.of_nat r) = bit bs0 (k * 64 + r + rhs).
Proof.
  intros Hr. pose proof (div_mod64 rhs). pose proof (mod64_lt rhs).
  unfold shr_word. rewrite Z.lor_spec, ushl_testbit, ushr_testbit by done.
  assert (forall q t, t < 64 -> Z.testbit (word q) (Z.of_nat t) = bit bs0 (q * 64 + t)) as Hw.
  { intros q t Ht. destruct (bs0 !! q) as [w|] eqn:E; simpl.
    - symmetry. by apply bit_at.
    - rewrite Z.testbit_0_l, bit_ge; [done|]. apply lookup_ge_None in E. unfold N_BITS. lia. }
  destruct (decide (64 - sb <= r)) as [Hle|Hgt].
  - rewrite bool_decide_eq_true_2 by lia. simpl.
    rewrite u64_testbit_high by ((by apply (wf_word n)) || lia). simpl.
    rewrite Hw by lia. f_equal. lia.
  - rewrite bool_decide_eq_false_2 by lia. simpl. rewrite orb_false_r, Hw by lia.
    f_equal. lia.
Qed.

Lemma shl_word_ok t : u64_ok (shl_word t).
Proof.
  apply lor_ok; [apply ushl_ok|apply ushr_ok; case_decide; [split; lia|]];
    by apply (wf_word n).
Qed.

Lemma shr_word_ok t : u64_ok (shr_word t).
Proof.
  apply lor_ok; [apply ushr_ok|apply ushl_ok]; by apply (wf_word n).
Qed.
End Shifts.

(** The bits of a list of words, word by word. *)
Lemma bit_words (bs : list Z) (k : nat -> Z) n j :
  length bs = n -> (forall i, i < n -> bs !! i = Some (k i)) -> j < n * 64 ->
  bit bs j = Z.testbit (k (j / 64)) (Z.of_nat (j mod 64)).
Proof. intros Hl Hk Hj. unfold bit. by rewrite Hk by (by apply div64_lt). Qed.

Lemma wf_words (bs : list Z) (k : nat -> Z) n :
  length bs = n -> (forall i, i < n -> bs !! i = Some (k i)) -> (forall i, u64_ok (k i)) -> wf n bs.
Proof.
  intros Hl Hk Hok. split; [done|]. apply Forall_lookup. intros i w Hw.
  pose proof (lookup_lt_Some _ _ _ Hw) as Hi. rewrite Hk in Hw by lia. by injection Hw as <-.
Qed.

Lemma unbounded_shl_spec n bs rhs :
  wf n bs ->
  exists bs', unbounded_shl_inplace bs rhs = Ret bs' /\ wf n bs' /\
    forall j, j < n * 64 -> bit bs' j = bool_decide (rhs <= j) && bit bs (j - rhs).
Proof.
  intros Hwf. pose proof Hwf as [Hl _]. unfold unbounded_shl_inplace, N_BITS. rewrite Hl.
  destruct (decide (n * 64 <= rhs)) as [Hge|Hlt].
  { eexists; split; [done|]. split; [apply wf_EMPTY|]. intros j Hj.
    by rewrite bit_EMPTY, bool_decide_eq_false_2 by lia. }
  apply Nat.nle_gt in Hlt. pose proof (shift_words_lt n rhs Hlt) as Hsw.
  destruct (shl_loop n bs rhs Hlt (n - rhs / 64) bs) as (b1 & -> & Hl1 & Hk1); [lia| |].
  { split; [done|]. intros k Hk. rewrite decide_True by lia. by apply (word_lookup n bs Hwf rhs Hlt). }
  mrun. eexists; split; [done|].
  set (k := fun i => if decide (i < rhs / 64) then 0%Z else shl_word bs rhs i).
  assert (forall i, i < n -> (replicate (rhs / 64) 0%Z ++ drop (rhs / 64) b1) !! i = Some (k i)) as Hk.
  { intros i Hi. unfold k. destruct (decide (i < rhs / 64)) as [Hd|Hd].
    - rewrite lookup_app_l by (by rewrite length_replicate). by apply lookup_replicate_2.
    - rewrite lookup_app_r, length_replicate, lookup_drop by (rewrite ?length_replicate; lia).
      replace (rhs / 64 + (i - rhs / 64)) with i by lia. rewrite Hk1 by done.
      by rewrite decide_False by lia. }
  assert (length (replicate (rhs / 64) 0%Z ++ drop (rhs / 64) b1) = n) as Hlen
    by (rewrite length_app, length_replicate, length_drop; lia).
  split.
  - eapply wf_words; [done..|]. intros i. unfold k.
    case_decide; [split; lia|by apply (shl_word_ok n)].
  - intros j Hj. rewrite (bit_words _ k n) by done. unfold k.
    pose proof (div_mod64 j) as Hdm. pose proof (mod64_lt j) as Hm.
    pose proof (div_mod64 rhs) as Hdr. pose proof (mod64_lt rhs) as Hmr.
    destruct (decide (j / 64 < rhs / 64)) as [Hd|Hd].
    + rewrite Z.testbit_0_l, bool_decide_eq_false_2; [done|lia].
    + rewrite (shl_word_bit n) by (done || lia).
      by replace (j / 64 * 64 + j mod 64) with j by lia.
Qed.

Lemma unbounded_shr_spec n bs rhs :
  wf n bs ->
  exists bs', unbounded_shr_inplace bs rhs = Ret bs' /\ wf n bs' /\
    forall j, j < n * 64 -> bit bs' j = bit bs (j + rhs).
Proof.
  intros Hwf. pose proof Hwf as [Hl _]. unfold unbounded_shr_inplace, N_BITS. rewrite Hl.
  destruct (decide (n * 64 <= rhs)) as [Hge|Hlt].
  { eexists; split; [done|]. split; [apply wf_EMPTY|]. intros j Hj.
    rewrite bit_EMPTY, bit_ge; [done|]. unfold N_BITS. lia. }
  apply Nat.nle_gt in Hlt. pose proof (shift_words_lt n rhs Hlt) as Hsw.
  destruct (shr_loop n bs Hwf rhs Hlt (n - rhs / 64) bs 0) as (b1 & -> & Hl1 & Hk1); [lia| |].
  { split; [done|]. intros k Hk. rewrite decide_True by lia. by apply (word_lookup n bs Hwf rhs Hlt). }
  mrun. eexists; split; [done|]. rewrite Hl1.
  set (k := fun i => if decide (i < n - rhs / 64) then shr_word bs rhs i else 0%Z).
  assert (forall i, i < n ->
    (take (n - rhs / 64) b1 ++ replicate (rhs / 64) 0%Z) !! i = Some (k i)) as Hk.
  { intros i Hi. unfold k. destruct (decide (i < n - rhs / 64)) as [Hd|Hd].
    - rewrite lookup_app_l by (rewrite length_take; lia). rewrite lookup_take_lt by done.
      rewrite Hk1 by done. by rewrite decide_False by lia.
    - rewrite lookup_app_r by (rewrite length_take; lia). rewrite length_take.
      apply lookup_replicate_2. lia. }
  assert (length (take (n - rhs / 64) b1 ++ replicate (rhs / 64) 0%Z) = n) as Hlen
    by (rewrite length_app, length_replicate, length_take; lia).
  split.
  - eapply wf_words; [done..|]. intros i. unfold k.
    case_decide; [by apply (shr_word_ok n)|split; lia].
  - intros j Hj. rewrite (bit_words _ k n) by done. unfold k.
    pose proof (div_mod64 j) as Hdm. pose proof (mod64_lt j) as Hm.
    pose proof (div_mod64 rhs) as Hdr. pose proof (mod64_lt rhs) as Hmr.
    destruct (decide (j / 64 < n - rhs / 64)) as [Hd|Hd].
    + rewrite (shr_word_bit n) by done. f_equal. lia.
    + rewrite Z.testbit_0_l, bit_ge; [done|]. unfold N_BITS. lia.
Qed.

(** ** Searching *)

Section Search.
Implicit Types (bs : list Z) (i j k q : nat).

Lemma bit_drop bs q j : bit (drop q bs) j = bit bs (q * 64 + j).
Proof.
  unfold bit. rewrite lookup_drop, Nat.div_add_l by lia.
  by rewrite (Nat.add_comm (q * 64)), Nat.Div0.mod_add.
Qed.

(** [r] is the least set index from [i] on. *)
Definition least_set_from (bs : list Z) (i : nat) (r : option nat) : Prop :=
  match r with
  | Some j => i <= j /\ bit bs j = true /\ forall k, i <= k < j -> bit bs k = false
  | None => forall k, i <= k -> bit bs k = false
  end.

(** [r] is the greatest set index. *)
Definition greatest_set (bs : list Z) (r : option nat) : Prop :=
  match r with
  | Some j => bit bs j = true /\ forall k, j < k -> bit bs k = false
  | None => forall k, bit bs k = false
  end.

Lemma head_positions bs : least_set_from bs 0 (head (positions bs)).
Proof.
  destruct (positions bs) as [|j l] eqn:E; simpl.
  - intros k _. apply not_true_is_false. rewrite <- elem_of_positions, E.
    apply not_elem_of_nil.
  - apply filter_seq_head in E as (_ & Hj & Hlow & _). split_and!; [lia|done|].
    intros k Hk. by apply not_true_is_false, Hlow.
Qed.

Lemma last_positions bs : greatest_set bs (last (positions bs)).
Proof.
  destruct (last (positions bs)) as [j|] eqn:E; simpl.
  - split.
    + apply elem_of_positions. apply last_Some in E as [l ->]. set_solver.
    + intros k Hk. apply not_true_is_false. intros Hb.
      assert (Hb' := Hb). rewrite <- elem_of_positions in Hb'.
      unfold positions in E. apply last_filter_Some in E as (l1 & l2 & E & Hno).
      assert (k < N_BITS bs) as Hkn.
      { destruct (Nat.lt_ge_cases k (N_BITS bs)); [done|]. by rewrite bit_ge in Hb. }
      assert ((l1 ++ j :: l2) !! k = Some k) as Hlk.
      { rewrite <- E. rewrite lookup_seq_lt; [done|lia]. }
      assert ((l1 ++ j :: l2) !! length l1 = Some j) as Hlj by (by apply list_lookup_middle).
      assert (length l1 = j) as Hj.
      { rewrite <- E in Hlj. apply lookup_seq in Hlj. lia. }
      rewrite lookup_app_r in Hlk by lia.
      replace (k - length l1) with (S (k - j - 1)) in Hlk by lia.
      eapply Forall_lookup_1 in Hno; [|exact Hlk]. by apply Hno.
  - apply last_None in E. intros k. apply not_true_is_false.
    rewrite <- elem_of_positions, E. apply not_elem_of_nil.
Qed.

Lemma first_set_least n bs : wf n bs -> least_set_from bs 0 (first_set bs).
Proof.
  intros [_ Ho]. unfold first_set. rewrite first_set_from_spec by done.
  rewrite (option_fmap_ext _ id), option_fmap_id by done. apply head_positions.
Qed.

Lemma last_set_greatest n bs :
  0 < n -> wf n bs -> exists r, last_set bs = Ret r /\ greatest_set bs r.
Proof.
  intros Hn [Hl Ho]. unfold last_set, usub. rewrite decide_True by lia. mrun.
  eexists; split; [done|]. rewrite last_set_from_spec by done. apply last_positions.
Qed.

Lemma intersection_top_greatest n bs bs' :
  wf n bs -> wf n bs' ->
  greatest_set (intersect_inplace bs bs') (intersection_top bs bs').
Proof.
  intros Hw Hw'. unfold intersection_top. rewrite last_set_from_spec.
  - apply last_positions.
  - apply (wf_intersect n _ _ Hw Hw').
Qed.

Lemma next_set_least n bs i :
  wf n bs -> i < n * 64 -> exists r, next_set bs i = Ret r /\ least_set_from bs i r.
Proof.
  intros Hwf Hi. pose proof (div64_lt _ _ Hi) as Hd.
  pose proof (div_mod64 i) as Hdm. pose proof (mod64_lt i) as Hm.
  unfold next_set, word_idx. rewrite land63.
  destruct (idx_lt bs (i / 64)) as [w Hw]; [destruct Hwf; lia|].
  rewrite Hw. mrun. apply idx_Ret in Hw. pose proof (wf_lookup _ _ _ _ Hwf Hw) as Hwo.
  set (q := i / 64) in *. set (r := i mod 64) in *.
  assert (forall k, Z.testbit (ushr w (Z.of_nat r)) (Z.of_nat k) =
            bool_decide (r + k < 64) && bit bs (i + k)) as Hsh.
  { intros k. rewrite ushr_testbit. case_bool_decide; simpl.
    - replace (i + k) with (q * 64 + (k + r)) by lia. symmetry. by apply bit_at; [|lia].
    - apply u64_testbit_high; [done|lia]. }
  destruct (trailing_zeros64_spec _ (ushr_ok _ r Hwo)) as [[_ E]|(t & l & E & -> & Ht & Hnz)].
  - rewrite decide_False by tauto. eexists; split; [done|].
    rewrite next_set_from_spec by (apply Forall_drop, Hwf).
    pose proof (head_positions (drop (S q) bs)) as Hp.
    assert (forall k, i <= k < S q * 64 -> bit bs k = false) as Hrest.
    { intros k Hk. specialize (Hsh (k - i)). rewrite E, Z.testbit_0_l in Hsh.
      rewrite bool_decide_eq_true_2 in Hsh by lia. rewrite Hsh. simpl. f_equal. lia. }
    destruct (head _) as [j|]; simpl in *.
    + destruct Hp as (_ & Hj & Hlow). split_and!; [lia| |].
      * rewrite bit_drop in Hj. rewrite <- Hj. f_equal. lia.
      * intros k Hk. destruct (decide (k < S q * 64)); [apply Hrest; lia|].
        specialize (Hlow (k - S q * 64)). rewrite bit_drop in Hlow.
        rewrite <- Hlow by lia. f_equal. lia.
    + intros k Hk. destruct (decide (k < S q * 64)); [apply Hrest; lia|].
      specialize (Hp (k - S q * 64)). rewrite bit_drop in Hp.
      rewrite <- Hp by lia. f_equal. lia.
  - rewrite decide_True by done. eexists; split; [done|].
    unfold bits64 in E. apply filter_seq_head in E as (_ & Hbt & Hlow & _).
    rewrite Hsh, andb_true_iff, bool_decide_eq_true in Hbt. destruct Hbt as [Hrt Hbt].
    split_and!; [lia|done|]. intros k Hk.
    assert (~ Z.testbit (ushr w (Z.of_nat r)) (Z.of_nat (k - i)) = true) as Hf
      by (apply Hlow; lia).
    rewrite Hsh, bool_decide_eq_true_2 in Hf by lia. simpl in Hf.
    replace (i + (k - i)) with k in Hf by lia. by apply not_true_is_false.
Qed.
End Search.

(** ** Properties *)

Definition bits_demo : list Z := [5; 2 ^ 63; 0; 1]%Z.

Lemma bits_demo_wf : wf 4 bits_demo.
Proof. split; [done|]. repeat constructor; by vm_compute. Qed.

(** The in-place word loops shift the whole bitset: bit [j] of the left
    shift is bit [j - rhs], bit [j] of the right shift is bit [j + rhs], bits
    from outside are zero, and an amount of [N_BITS] or more empties it. *)
Theorem shifts_correct n bs rhs :
  wf n bs ->
  exists l r, unbounded_shl_inplace bs rhs = Ret l /\ unbounded_shr_inplace bs rhs = Ret r /\
    wf n l /\ wf n r /\
    forall j, j < n * 64 ->
      bit l j = (if decide (rhs <= j) then bit bs (j - rhs) else false) /\
      bit r j = (if decide (j + rhs < n * 64) then bit bs (j + rhs) else false).
Proof.
  intros Hwf. destruct (unbounded_shl_spec n bs rhs Hwf) as (l & Hl & Hwl & Hbl).
  destruct (unbounded_shr_spec n bs rhs Hwf) as (r & Hr & Hwr & Hbr).
  exists l, r. split_and!; [done..|]. intros j Hj. rewrite Hbl, Hbr by done. split.
  - case_decide; [by rewrite bool_decide_eq_true_2|by rewrite bool_decide_eq_false_2].
  - case_decide; [done|]. rewrite bit_ge; [done|]. unfold N_BITS. destruct Hwf as [-> _]. lia.
Qed.

Lemma shifts_correct_witness :
  exists l r, unbounded_shl_inplace bits_demo 65 = Ret l /\ unbounded_shr_inplace bits_demo 65 = Ret r /\
    wf 4 l /\ wf 4 r /\
    forall j, j < 4 * 64 ->
      bit l j = (if decide (65 <= j) then bit bits_demo (j - 65) else false) /\
      bit r j = (if decide (j + 65 < 4 * 64) then bit bits_demo (j + 65) else false).
Proof. apply (shifts_correct 4 bits_demo 65 bits_demo_wf). Defined.

(** [bits] lists the set indices in increasing order, [count_ones] is
    their number and [rank] counts those up to and including an index. *)
Theorem bits_count_rank n bs i :
  wf n bs -> i < n * 64 ->
  bits bs = filter (fun j => bit bs j = true) (seq 0 (n * 64)) /\
  count_ones bs = length (bits bs) /\
  rank bs i = length (filter (fun j => bit bs j = true) (seq 0 (S i))).
Proof.
  intros Hwf Hi. rewrite bits_spec by apply Hwf. split_and!.
  - unfold positions, N_BITS. by destruct Hwf as [-> _].
  - apply count_ones_positions.
  - rewrite (rank_spec n) by done. apply count_upto_filter.
Qed.

Lemma bits_count_rank_witness :
  bits bits_demo = filter (fun j => bit bits_demo j = true) (seq 0 (4 * 64)) /\
  count_ones bits_demo = length (bits bits_demo) /\
  rank bits_demo 127 = length (filter (fun j => bit bits_demo j = true) (seq 0 (S 127))).
Proof. apply (bits_count_rank 4 bits_demo 127 bits_demo_wf). lia. Defined.

(** [resize] truncates, but panics on every growth, whatever value the
    new bits are to take. *)
Theorem resize_cannot_grow bs m empty_value :
  resize bs m empty_value = if decide (m <= length bs) then Ret (take m bs) else Panic.
Proof. apply resize_spec. Qed.
