(* ===== verification/DynBitset.v ===== *)
(** * DynBitset: the growable bitset

    Models src/ts_dynbitset/src/lib.rs: a vector of [Bitset<WORDS>] without
    trailing empty chunks. [WORDS] is the parameter [W], at least one. *)

From stdpp Require Import gmap.
From S2P Require Import Prelude Bitset.

Section DynBitset.
Context (W : nat).
Implicit Types (ds : list (list Z)) (bit : nat).

Definition BITSET_WIDTH : nat := W * 64.

Definition dyn_empty : list (list Z) := [].
Definition clear_all : list (list Z) := [].
Definition shrink_to_fit ds : list (list Z) := ds.

Definition bitset_and_idx bit : nat * nat := (bit / BITSET_WIDTH, bit mod BITSET_WIDTH).

Definition get_bitset_and_idx ds bit : option (list Z) * nat :=
  let '(bitset, idx) := bitset_and_idx bit in (ds !! bitset, idx).

(** The chunks from the last one on. *)
Fixpoint pop_empty (rev_chunks : list (list Z)) : list (list Z) :=
  match rev_chunks with
  | [] => []
  | x :: rest => if Bitset.is_empty x then pop_empty rest else rev_chunks
  end.

Definition truncate_empty ds : list (list Z) := rev (pop_empty (rev ds)).

Definition ensure_capacity ds bit : list (list Z) :=
  let '(bitset, _) := bitset_and_idx bit in
  ds ++ replicate (S bitset - length ds) (EMPTY W).

Definition zero_from ds (bit_inclusive : nat) : outcome (list (list Z)) :=
  let '(word, idx) := bitset_and_idx bit_inclusive in
  let inner := take (word + 1) ds in
  match inner !! word with
  | None => Ret inner
  | Some w =>
      mask ← with_bits_upto W idx;
      Ret (truncate_empty (<[word := Bitset.intersect_inplace w mask]> inner))
  end.

Definition dyn_set ds bit : outcome (list (list Z)) :=
  let inner := ensure_capacity ds bit in
  let '(bitset, i) := bitset_and_idx bit in
  b ← idx inner bitset;
  b ← Bitset.set b i;
  upd inner bitset b.

Definition dyn_clear ds bit : outcome (list (list Z)) :=
  let '(bitset_idx, i) := bitset_and_idx bit in
  match ds !! bitset_idx with
  | None => Ret ds
  | Some b => b ← Bitset.clear b i; Ret (truncate_empty (<[bitset_idx := b]> ds))
  end.

Definition dyn_test ds bit : outcome bool :=
  match get_bitset_and_idx ds bit with
  | (Some b, i) => Bitset.test b i
  | (None, _) => Ret false
  end.

(** The chunk loop of [first_set]: the offset of a chunk is 64 bits. *)
Fixpoint dyn_first_set_from (bs_idx : nat) ds : option nat :=
  match ds with
  | [] => None
  | b :: ds =>
      match Bitset.first_set b with
      | Some s => Some (bs_idx * 64 + s)
      | None => dyn_first_set_from (S bs_idx) ds
      end
  end.

Definition dyn_first_set ds : option nat := dyn_first_set_from 0 ds.

(** The chunk loop of [next_set] from chunk [i], asking for [query] first. *)
Fixpoint dyn_next_set_from (i query : nat) (rest : list (list Z)) : outcome (option nat) :=
  match rest with
  | [] => Ret None
  | b :: rest =>
      x ← Bitset.next_set b query;
      match x with
      | Some x => Ret (Some (x + i * BITSET_WIDTH))
      | None => dyn_next_set_from (S i) 0 rest
      end
  end.

Definition dyn_next_set ds bit : outcome (option nat) :=
  let '(start, i) := bitset_and_idx bit in
  dyn_next_set_from start i (drop start ds).

(** [rev_chunks] are the first [n] chunks, last one first. *)
Fixpoint dyn_last_set_from (n : nat) (rev_chunks : list (list Z)) : outcome (option nat) :=
  match rev_chunks with
  | [] => Ret None
  | b :: rest =>
      x ← Bitset.last_set b;
      match x with
      | Some x => Ret (Some (x + (n - 1) * BITSET_WIDTH))
      | None => dyn_last_set_from (n - 1) rest
      end
  end.

Definition dyn_last_set ds : outcome (option nat) := dyn_last_set_from (length ds) (rev ds).

Definition dyn_is_empty ds : bool := forallb Bitset.is_empty ds.
Definition dyn_count_ones ds : nat := sum_list_with Bitset.count_ones ds.
Definition dyn_invert_inplace ds : list (list Z) :=
  truncate_empty (Bitset.invert_inplace <$> ds).

Definition dyn_with_bit ds bit : outcome (list (list Z)) := dyn_set ds bit.
Definition dyn_with_bits ds (bits : list nat) : outcome (list (list Z)) := mfoldl dyn_set ds bits.
Definition dyn_without_bit ds bit : outcome (list (list Z)) :=
  ds ← dyn_clear ds bit; Ret (truncate_empty ds).
Definition dyn_without_bits ds (bits : list nat) : outcome (list (list Z)) :=
  ds ← mfoldl dyn_clear ds bits; Ret (truncate_empty ds).

(** The zipped chunks, last one first. *)
Fixpoint dyn_intersection_top_from (n : nat) (rev_pairs : list (list Z * list Z)) : option nat :=
  match rev_pairs with
  | [] => None
  | (this, other) :: rest =>
      match Bitset.intersection_top this other with
      | Some x => Some (x + (n - 1) * BITSET_WIDTH)
      | None => dyn_intersection_top_from (n - 1) rest
      end
  end.

Definition dyn_intersection_top ds (other : list (list Z)) : option nat :=
  dyn_intersection_top_from (length (zip ds other)) (rev (zip ds other)).

Definition dyn_intersects ds (other : list (list Z)) : bool :=
  existsb (fun '(x, y) => Bitset.intersects x y) (zip ds other).

Definition dyn_union_inplace ds (other : list (list Z)) : list (list Z) :=
  zip_with Bitset.union_inplace ds other ++ drop (length other) ds ++
  (if decide (length ds <= length other) then drop (length ds) other else []).

Definition dyn_intersect_inplace ds (other : list (list Z)) : list (list Z) :=
  let inner := take (length other) ds in
  truncate_empty (zip_with Bitset.intersect_inplace inner other ++ drop (length other) inner).

Definition dyn_bits ds : list nat :=
  concat (imap (fun i b => (fun x => x + i * BITSET_WIDTH) <$> Bitset.bits b) ds).

Definition dyn_from_iter (bits : list nat) : outcome (list (list Z)) :=
  out ← mfoldl dyn_set dyn_empty bits; Ret (truncate_empty out).

(** ** Specification view *)

Definition dbit ds (i : nat) : bool :=
  match ds !! (i / BITSET_WIDTH) with
  | Some b => Bitset.bit b (i mod BITSET_WIDTH)
  | None => false
  end.

Definition nonempty (b : list Z) : Prop := exists j, Bitset.bit b j = true.

(** Chunks of [W] words, the last one not empty. *)
Definition dwf ds : Prop :=
  Forall (wf W) ds /\ forall b, last ds = Some b -> nonempty b.
End DynBitset.

(** ** The operations on the view *)

Section DynSpec.
Context (W : nat) (HW : 0 < W).
Implicit Types (ds : list (list Z)) (i j k : nat).

Local Abbreviation width := (BITSET_WIDTH W).
Local Abbreviation dbit := (dbit W).

Lemma width_pos : 0 < width.
Proof using HW. unfold BITSET_WIDTH. lia. Qed.

Lemma mod_width i : i mod width < W * 64.
Proof using HW. apply Nat.mod_upper_bound. unfold BITSET_WIDTH. lia. Qed.

Lemma div_mod_width i : i = width * (i / width) + i mod width.
Proof. apply Nat.div_mod_eq. Qed.

Lemma chunk_index k j : j < width -> (k * width + j) / width = k /\ (k * width + j) mod width = j.
Proof.
  intros Hj. split.
  - rewrite Nat.div_add_l by lia. rewrite Nat.div_small by done. lia.
  - rewrite Nat.add_comm, Nat.Div0.mod_add. by apply Nat.mod_small.
Qed.

Lemma dbit_at ds k b j : ds !! k = Some b -> j < width -> dbit ds (k * width + j) = Bitset.bit b j.
Proof.
  intros Hk Hj. unfold DynBitset.dbit. destruct (chunk_index k j Hj) as [-> ->]. by rewrite Hk.
Qed.

Lemma dbit_ge ds i : length ds * width <= i -> dbit ds i = false.
Proof using HW.
  intros Hi. unfold DynBitset.dbit. rewrite lookup_ge_None_2; [done|].
  pose proof width_pos. apply Nat.div_le_lower_bound; lia.
Qed.

Lemma dbit_lt ds i : dbit ds i = true -> i < length ds * width.
Proof using HW.
  intros Hi. destruct (Nat.lt_ge_cases i (length ds * width)) as [|Hge]; [done|].
  by rewrite dbit_ge in Hi.
Qed.

Lemma dbit_insert ds k b i :
  k < length ds ->
  dbit (<[k := b]> ds) i
  = if decide (i / width = k) then Bitset.bit b (i mod width) else dbit ds i.
Proof.
  intros Hk. unfold DynBitset.dbit. case_decide as E.
  - subst k. by rewrite list_lookup_insert_eq.
  - by rewrite list_lookup_insert_ne.
Qed.

(** The index [j] is [i] iff chunk and position agree. *)
Lemma same_index i j : j / width = i / width -> j mod width = i mod width <-> j = i.
Proof.
  intros Hd. pose proof (div_mod_width i). pose proof (div_mod_width j).
  split; [intros; congruence|by intros ->].
Qed.

Lemma is_empty_false b : wf W b -> Bitset.is_empty b = false -> nonempty b.
Proof.
  intros Hb He.
  destruct (first_set b) as [j|] eqn:E; pose proof (first_set_least W b Hb) as Hf;
    rewrite E in Hf; simpl in Hf.
  - exists j. tauto.
  - assert (Bitset.is_empty b = true); [|congruence].
    apply (is_empty_spec W b Hb). intros j. apply Hf. lia.
Qed.

Lemma is_empty_true b : wf W b -> Bitset.is_empty b = true -> forall j, Bitset.bit b j = false.
Proof. intros Hb He. by apply (is_empty_spec W b Hb). Qed.

Lemma truncate_empty_spec ds :
  Forall (wf W) ds -> dwf W (truncate_empty ds) /\ forall i, dbit (truncate_empty ds) i = dbit ds i.
Proof.
  induction ds as [|b ds IH] using rev_ind; intros Hf.
  { by split; [split|]. }
  apply Forall_app in Hf as [Hf Hb]. rewrite Forall_singleton in Hb.
  unfold truncate_empty. rewrite rev_app_distr. cbn [rev app pop_empty].
  destruct (Bitset.is_empty b) eqn:E.
  - destruct (IH Hf) as [Hwf Hd]. split; [done|]. intros i. rewrite Hd.
    unfold DynBitset.dbit. destruct (Nat.lt_ge_cases (i / width) (length ds)) as [Hlt|Hge].
    + by rewrite lookup_app_l.
    + rewrite (lookup_ge_None_2 ds) by done. rewrite lookup_app_r by done.
      destruct (i / width - length ds) as [|m]; [|by destruct m]. simpl.
      by rewrite is_empty_true.
  - cbn [rev]. rewrite rev_involutive. split; [|done]. split.
    + apply Forall_app_2; [done|]. by constructor.
    + intros b' Hb'. rewrite last_snoc in Hb'. injection Hb' as <-. by apply is_empty_false.
Qed.

(** Equal sets are equal vectors: the derived equality is set equality. *)
Lemma dyn_ext ds ds' : dwf W ds -> dwf W ds' -> (forall i, dbit ds i = dbit ds' i) -> ds = ds'.
Proof using HW.
  intros [Hf Hlast] [Hf' Hlast'] Hb.
  assert (forall a b : list (list Z), Forall (wf W) a -> (forall x, last a = Some x -> nonempty x) ->
    (forall i, dbit a i = dbit b i) -> length a <= length b) as Hle.
  { intros a b Ha Hla Hab. destruct (Nat.le_gt_cases (length a) (length b)) as [|Hgt]; [done|].
    destruct a as [|x a _] using rev_ind; [simpl in Hgt; lia|].
    destruct (Hla x) as [j Hj]; [by rewrite last_snoc|].
    apply Forall_app in Ha as [_ Hx]. rewrite Forall_singleton in Hx.
    assert (j < width) as Hjw.
    { destruct (Nat.lt_ge_cases j width) as [|Hge]; [done|]. rewrite bit_ge in Hj; [done|].
      unfold N_BITS. destruct Hx as [-> _]. exact Hge. }
    assert (dbit (a ++ [x]) (length a * width + j) = true) as Hset.
    { rewrite (dbit_at _ _ x); [done|by rewrite list_lookup_middle|done]. }
    rewrite Hab in Hset. apply dbit_lt in Hset. rewrite length_app in Hgt. simpl in Hgt. nia. }
  apply list_eq_same_length with (length ds); [apply Nat.le_antisymm; by eapply Hle|done|].
  intros k x y Hk Hx Hy.
  pose proof (Forall_lookup_1 _ _ _ _ Hf Hx) as Hwx.
  pose proof (Forall_lookup_1 _ _ _ _ Hf' Hy) as Hwy.
  apply (bit_ext W); [done..|]. intros j Hj.
  by rewrite <- (dbit_at ds k x j), <- (dbit_at ds' k y j), Hb.
Qed.

Lemma ensure_capacity_spec ds i :
  Forall (wf W) ds ->
  Forall (wf W) (ensure_capacity W ds i) /\ i / width < length (ensure_capacity W ds i) /\
  forall j, dbit (ensure_capacity W ds i) j = dbit ds j.
Proof.
  intros Hf. unfold ensure_capacity, bitset_and_idx. split_and!.
  - apply Forall_app_2; [done|]. apply Forall_replicate, wf_EMPTY.
  - rewrite length_app, length_replicate. lia.
  - intros j. unfold DynBitset.dbit.
    destruct (Nat.lt_ge_cases (j / width) (length ds)) as [Hlt|Hge].
    + by rewrite lookup_app_l.
    + rewrite (lookup_ge_None_2 ds), lookup_app_r by done.
      destruct (replicate _ _ !! _) as [b|] eqn:E; [|done].
      apply lookup_replicate in E as [-> _]. apply bit_EMPTY.
Qed.

(** A chunk replaced by one that differs at one position. *)
Lemma dyn_update ds i b b' v :
  ds !! (i / width) = Some b -> Forall (wf W) ds -> wf W b' ->
  (forall j, Bitset.bit b' j = if decide (j = i mod width) then v else Bitset.bit b j) ->
  Forall (wf W) (<[i / width := b']> ds) /\
  forall j, dbit (<[i / width := b']> ds) j = if decide (j = i) then v else dbit ds j.
Proof.
  intros Hb Hf Hwb Hbit. split; [by apply Forall_insert|]. intros j.
  rewrite dbit_insert by (by eapply lookup_lt_Some). destruct (decide (j / width = i / width)) as [E|E].
  - rewrite Hbit, (decide_ext (j mod width = i mod width) (j = i)) by (by apply same_index).
    case_decide; [done|]. unfold DynBitset.dbit. by rewrite E, Hb.
  - rewrite decide_False; [done|]. by intros ->.
Qed.

Lemma dyn_set_spec ds i :
  dwf W ds ->
  exists ds', dyn_set W ds i = Ret ds' /\ dwf W ds' /\
    forall j, dbit ds' j = bool_decide (j = i) || dbit ds j.
Proof using HW.
  intros [Hf Hlast]. unfold dyn_set, bitset_and_idx.
  destruct (ensure_capacity_spec ds i Hf) as (Hf1 & Hlt & Hb1).
  destruct (idx_lt _ _ Hlt) as [b Hb]. rewrite Hb. mrun. apply idx_Ret in Hb.
  pose proof (Forall_lookup_1 _ _ _ _ Hf1 Hb) as Hwb.
  destruct (set_spec W b (i mod width) Hwb (mod_width i)) as (b' & -> & Hwb' & Hbit). mrun.
  rewrite upd_lt by done. eexists; split; [done|].
  destruct (dyn_update _ i b b' true Hb Hf1 Hwb') as [Hf2 Hd2].
  { intros j. rewrite Hbit. repeat case_decide; case_bool_decide; done. }
  split.
  - split; [done|]. intros x Hx. rewrite last_lookup, length_insert in Hx.
    destruct (decide (pred (length (ensure_capacity W ds i)) = i / width)) as [E|E].
    + rewrite E, list_lookup_insert_eq in Hx by done. injection Hx as <-.
      exists (i mod width). rewrite Hbit. by rewrite bool_decide_eq_true_2.
    + rewrite list_lookup_insert_ne in Hx by done. apply Hlast.
      rewrite last_lookup. unfold ensure_capacity, bitset_and_idx in Hx, E, Hlt.
      rewrite length_app, length_replicate in Hx, E, Hlt.
      assert (length ds >= S (i / width)) by lia.
      rewrite lookup_app_l in Hx by lia.
      by replace (length ds + (S (i / width) - length ds)) with (length ds) in Hx by lia.
  - intros j. rewrite Hd2, Hb1. repeat case_decide; case_bool_decide; done.
Qed.

Lemma dyn_clear_spec ds i :
  dwf W ds ->
  exists ds', dyn_clear W ds i = Ret ds' /\ dwf W ds' /\
    forall j, dbit ds' j = negb (bool_decide (j = i)) && dbit ds j.
Proof using HW.
  intros [Hf Hlast]. unfold dyn_clear, bitset_and_idx.
  destruct (ds !! (i / width)) as [b|] eqn:Hb.
  - pose proof (Forall_lookup_1 _ _ _ _ Hf Hb) as Hwb.
    destruct (clear_spec W b (i mod width) Hwb (mod_width i)) as (b' & -> & Hwb' & Hbit). mrun.
    eexists; split; [done|].
    destruct (dyn_update _ i b b' false Hb Hf Hwb') as [Hf2 Hd2].
    { intros j. rewrite Hbit. repeat case_decide; case_bool_decide; done. }
    destruct (truncate_empty_spec _ Hf2) as [Hwf Hd]. split; [done|]. intros j.
    rewrite Hd, Hd2. repeat case_decide; case_bool_decide; done.
  - eexists; split; [done|]. split; [done|]. intros j. case_bool_decide; [|done].
    subst j. unfold DynBitset.dbit. by rewrite Hb.
Qed.

Lemma dyn_test_spec ds i : dwf W ds -> dyn_test W ds i = Ret (dbit ds i).
Proof using HW.
  intros [Hf _]. unfold dyn_test, get_bitset_and_idx, bitset_and_idx, DynBitset.dbit.
  destruct (ds !! (i / width)) as [b|] eqn:Hb; [|done].
  apply (test_spec W); [by eapply Forall_lookup_1|apply mod_width].
Qed.

(** A whole sequence of insertions and deletions. *)
Lemma dyn_from_iter_spec (l : list nat) :
  exists ds, dyn_from_iter W l = Ret ds /\ dwf W ds /\ forall j, dbit ds j = bool_decide (j ∈ l).
Proof using HW.
  assert (forall l ds, dwf W ds -> exists ds', mfoldl (dyn_set W) ds l = Ret ds' /\ dwf W ds' /\
    forall j, dbit ds' j = bool_decide (j ∈ l) || dbit ds j) as Hgen.
  { clear l. induction l as [|i l IH]; intros ds Hds.
    - exists ds. split; [done|]. split; [done|]. intros j.
      rewrite bool_decide_eq_false_2; [done|by intros ?%elem_of_nil].
    - destruct (dyn_set_spec ds i Hds) as (ds1 & E1 & Hw1 & Hb1). cbn [mfoldl]. rewrite E1. mrun.
      destruct (IH ds1 Hw1) as (ds2 & -> & Hw2 & Hb2). exists ds2. split; [done|]. split; [done|].
      intros j. rewrite Hb2, Hb1. destruct (decide (j = i)) as [->|Hne].
      + rewrite !(bool_decide_eq_true_2 (i = i)), (bool_decide_eq_true_2 (i ∈ i :: l))
          by (done || apply list_elem_of_here). by rewrite orb_true_r.
      + rewrite (bool_decide_eq_false_2 (j = i)) by done. simpl.
        f_equal. apply bool_decide_ext. rewrite elem_of_cons. tauto. }
  destruct (Hgen l dyn_empty) as (ds & E & [Hf Hl] & Hb); [by split|].
  unfold dyn_from_iter. rewrite E. mrun. eexists; split; [done|].
  destruct (truncate_empty_spec ds Hf) as [Hwf Hd]. split; [done|]. intros j.
  rewrite Hd, Hb. unfold DynBitset.dbit, dyn_empty. rewrite lookup_nil. apply orb_false_r.
Qed.

Lemma zip_chunks (f : list Z -> list Z -> list Z) ds ds' :
  (forall x y, wf W x -> wf W y -> wf W (f x y)) ->
  Forall (wf W) ds -> Forall (wf W) ds' -> Forall (wf W) (zip_with f ds ds').
Proof.
  intros Hwf Hf Hf'. apply Forall_lookup. intros k x Hx.
  apply lookup_zip_with_Some in Hx as (a & b & -> & Ha & Hb).
  apply Hwf; [apply (Forall_lookup_1 _ _ _ _ Hf Ha)|apply (Forall_lookup_1 _ _ _ _ Hf' Hb)].
Qed.

(** The invariant on the view: some bit of the last chunk is set. *)
Lemma dwf_alt ds :
  dwf W ds <-> Forall (wf W) ds /\
    forall k, length ds = S k -> exists j, j < width /\ dbit ds (k * width + j) = true.
Proof.
  unfold dwf. split; intros [Hf Hl]; (split; [done|]).
  - intros k Hk. destruct (lookup_lt_is_Some_2 ds k) as [b Hb]; [lia|].
    destruct (Hl b) as [j Hj]; [by rewrite last_lookup, Hk|]. exists j.
    assert (j < width) as Hjw.
    { destruct (Nat.lt_ge_cases j width) as [|Hge]; [done|]. rewrite bit_ge in Hj; [done|].
      pose proof (Forall_lookup_1 _ _ _ _ Hf Hb) as [Hlb _]. unfold N_BITS. by rewrite Hlb. }
    split; [done|]. by rewrite (dbit_at _ _ b).
  - intros b Hb. rewrite last_lookup in Hb. pose proof (lookup_lt_Some _ _ _ Hb) as Hlt.
    destruct (Hl (pred (length ds))) as (j & Hj & Hd); [lia|]. exists j.
    by rewrite (dbit_at _ _ b) in Hd.
Qed.

(** The chunk of a union. *)
Lemma dyn_union_lookup ds ds' k :
  dyn_union_inplace ds ds' !! k =
  match ds !! k, ds' !! k with
  | Some x, Some y => Some (Bitset.union_inplace x y)
  | Some x, None => Some x
  | None, r => r
  end.
Proof.
  unfold dyn_union_inplace. set (z := zip_with _ ds ds').
  assert (length z = length ds `min` length ds') as Hz by apply length_zip_with.
  destruct (Nat.lt_ge_cases k (length z)) as [Hlt|Hge].
  - rewrite lookup_app_l by done. unfold z. rewrite lookup_zip_with.
    destruct (lookup_lt_is_Some_2 ds k) as [x ->]; [lia|].
    by destruct (lookup_lt_is_Some_2 ds' k) as [y ->]; [lia|].
  - rewrite lookup_app_r, Hz by done. case_decide as Hd.
    + rewrite (drop_ge ds) by done. rewrite (lookup_ge_None_2 ds k) by lia. simpl.
      rewrite lookup_drop. f_equal. lia.
    + rewrite app_nil_r, lookup_drop, (lookup_ge_None_2 ds' k) by lia.
      replace (length ds' + (k - length ds `min` length ds')) with k by lia.
      by destruct (ds !! k).
Qed.

Lemma dyn_union_length ds ds' :
  length (dyn_union_inplace ds ds') = length ds `max` length ds'.
Proof.
  unfold dyn_union_inplace. rewrite !length_app, length_zip_with, length_drop.
  case_decide; rewrite ?length_drop; simpl; lia.
Qed.

Lemma dyn_union_spec ds ds' :
  dwf W ds -> dwf W ds' ->
  dwf W (dyn_union_inplace ds ds') /\
  forall j, dbit (dyn_union_inplace ds ds') j = dbit ds j || dbit ds' j.
Proof.
  intros Hd Hd'. apply dwf_alt in Hd as [Hf Hl]. apply dwf_alt in Hd' as [Hf' Hl'].
  assert (forall j, dbit (dyn_union_inplace ds ds') j = dbit ds j || dbit ds' j) as Hb.
  { intros j. unfold DynBitset.dbit. rewrite dyn_union_lookup.
    destruct (ds !! (j / width)) as [a|] eqn:Ea; destruct (ds' !! (j / width)) as [b|] eqn:Eb;
      try done; [|by rewrite orb_false_r].
    apply (union_bit W);
      [apply (Forall_lookup_1 _ _ _ _ Hf Ea)|apply (Forall_lookup_1 _ _ _ _ Hf' Eb)]. }
  split; [|done]. apply dwf_alt. split.
  - apply Forall_lookup. intros k x Hx. rewrite dyn_union_lookup in Hx.
    destruct (ds !! k) as [a|] eqn:Ea; destruct (ds' !! k) as [b|] eqn:Eb; simplify_eq;
      [apply wf_union| |]; (apply (Forall_lookup_1 _ _ _ _ Hf Ea) ||
        apply (Forall_lookup_1 _ _ _ _ Hf' Eb)).
  - intros k Hk. rewrite dyn_union_length in Hk.
    destruct (decide (length ds = S k)) as [E|E].
    + destruct (Hl k E) as (j & Hj & Hs). exists j. by rewrite Hb, Hs.
    + destruct (Hl' k) as (j & Hj & Hs); [lia|]. exists j. by rewrite Hb, Hs, orb_true_r.
Qed.

Lemma dyn_intersect_spec ds ds' :
  dwf W ds -> dwf W ds' ->
  dwf W (dyn_intersect_inplace ds ds') /\
  forall j, dbit (dyn_intersect_inplace ds ds') j = dbit ds j && dbit ds' j.
Proof.
  intros [Hf _] [Hf' _]. unfold dyn_intersect_inplace.
  rewrite (drop_ge (take _ _)) by (rewrite length_take; lia). rewrite app_nil_r.
  assert (Forall (wf W) (zip_with Bitset.intersect_inplace (take (length ds') ds) ds')) as Hz
    by (apply zip_chunks; [apply wf_intersect|by apply Forall_take|done]).
  destruct (truncate_empty_spec _ Hz) as [Hwf Hb]. split; [done|]. intros j. rewrite Hb.
  unfold DynBitset.dbit. rewrite lookup_zip_with.
  destruct (ds' !! (j / width)) as [b|] eqn:Eb.
  - rewrite lookup_take_lt by (by eapply lookup_lt_Some).
    destruct (ds !! (j / width)) as [a|] eqn:Ea; [|done].
    apply (intersect_bit W);
      [apply (Forall_lookup_1 _ _ _ _ Hf Ea)|apply (Forall_lookup_1 _ _ _ _ Hf' Eb)].
  - rewrite andb_false_r. by destruct (take _ ds !! _).
Qed.

Lemma zero_from_spec ds i :
  dwf W ds ->
  exists ds', zero_from W ds i = Ret ds' /\ dwf W ds' /\
    forall j, dbit ds' j = bool_decide (j < i) && dbit ds j.
Proof using HW.
  intros Hd. pose proof Hd as [Hf Hl]. unfold zero_from, bitset_and_idx. rewrite Nat.add_1_r.
  assert (forall j, i / width < j / width -> i < j) as Hdiv.
  { intros j Hj. pose proof (div_mod_width i). pose proof (div_mod_width j).
    pose proof (mod_width i). unfold BITSET_WIDTH in *. nia. }
  assert (forall j, j / width < i / width -> j < i) as Hdiv'.
  { intros j Hj. pose proof (div_mod_width i). pose proof (div_mod_width j).
    pose proof (mod_width j). unfold BITSET_WIDTH in *. nia. }
  destruct (take (S (i / width)) ds !! (i / width)) as [w|] eqn:Hw.
  - pose proof (lookup_lt_Some _ _ _ Hw) as Hlt. rewrite lookup_take_lt in Hw by lia.
    pose proof (Forall_lookup_1 _ _ _ _ Hf Hw) as Hww.
    pose proof (with_bits_upto_spec W (i mod width)) as Hmask.
    destruct Hmask as (mask & -> & Hwm & Hmb); [pose proof (mod_width i); lia|]. mrun.
    eexists; split; [done|].
    assert (Forall (wf W) (<[i / width := Bitset.intersect_inplace w mask]>
      (take (S (i / width)) ds))) as Hf1
      by (apply Forall_insert; [by apply Forall_take|by apply wf_intersect]).
    destruct (truncate_empty_spec _ Hf1) as [Hwf Hb]. split; [done|]. intros j.
    rewrite Hb, dbit_insert by done. case_decide as E.
    + rewrite (intersect_bit W) by done. rewrite Hmb. unfold DynBitset.dbit. rewrite E, Hw, andb_comm.
      f_equal. apply bool_decide_ext. pose proof (div_mod_width i). pose proof (div_mod_width j).
      rewrite E in *. lia.
    + unfold DynBitset.dbit. destruct (Nat.lt_total (j / width) (i / width)) as [Hj|[?|Hj]]; [|done|].
      * rewrite lookup_take_lt by lia. by rewrite bool_decide_eq_true_2 by auto.
      * rewrite lookup_take_ge by lia. apply Hdiv in Hj.
        by rewrite bool_decide_eq_false_2 by lia.
  - apply lookup_ge_None in Hw. rewrite length_take in Hw.
    rewrite take_ge by lia. eexists; split; [done|]. split; [done|]. intros j.
    destruct (dbit ds j) eqn:Hj; [|by rewrite andb_false_r].
    rewrite bool_decide_eq_true_2; [done|]. apply Hdiv'.
    unfold DynBitset.dbit in Hj. destruct (ds !! (j / width)) eqn:E; [|done].
    apply lookup_lt_Some in E. lia.
Qed.

Lemma dbit_app_l ds b i :
  i < length ds * width -> dbit (ds ++ [b]) i = dbit ds i.
Proof using HW.
  intros Hi. unfold DynBitset.dbit. rewrite lookup_app_l; [done|].
  pose proof width_pos. apply Nat.Div0.div_lt_upper_bound. lia.
Qed.

Lemma dyn_bits_spec ds :
  Forall (wf W) ds ->
  dyn_bits W ds = filter (fun i => dbit ds i = true) (seq 0 (length ds * width)).
Proof using HW.
  induction ds as [|b ds IH] using rev_ind; intros Hf; [done|].
  apply Forall_app in Hf as [Hf Hb]. rewrite Forall_singleton in Hb.
  unfold dyn_bits. rewrite imap_app, concat_app. fold (dyn_bits W ds). rewrite IH by done.
  rewrite length_app. cbn [length]. rewrite Nat.mul_add_distr_r, Nat.mul_1_l, seq_app, filter_app.
  apply app_cong.
  - apply filter_ext_in. intros i [_ Hi]%elem_of_seq. rewrite dbit_app_l; [done|exact Hi].
  - cbn [imap concat]. rewrite app_nil_r, Nat.add_0_r, bits_spec by apply Hb. unfold positions.
    assert (N_BITS b = width) as -> by (unfold N_BITS; by destruct Hb as [-> _]).
    rewrite <- (Nat.add_0_r (0 + length ds * width)), <- fmap_add_seq, filter_fmap_comm.
    rewrite Nat.add_0_l. symmetry. etrans; [|apply list_fmap_ext; intros _ x _; apply Nat.add_comm].
    apply (f_equal (fmap _)), filter_ext_in. intros i [_ Hi]%elem_of_seq.
    rewrite (dbit_at _ _ b); [done|by rewrite list_lookup_middle|exact Hi].
Qed.

(** [r] is the least set index from [i] on. *)
Definition dyn_least_from ds i (r : option nat) : Prop :=
  match r with
  | Some j => i <= j /\ dbit ds j = true /\ forall k, i <= k < j -> dbit ds k = false
  | None => forall k, i <= k -> dbit ds k = false
  end.

Lemma dyn_next_set_from_spec ds rest : forall k q,
  Forall (wf W) ds -> rest = drop k ds -> q < width ->
  exists r, dyn_next_set_from W k q rest = Ret r /\ dyn_least_from ds (k * width + q) r.
Proof using HW.
  induction rest as [|b rest IH]; intros k q Hf Hr Hq.
  - exists None. split; [done|]. intros j Hj. apply dbit_ge.
    apply (f_equal length) in Hr. rewrite length_drop in Hr. simpl in Hr. nia.
  - assert (ds !! k = Some b) as Hk.
    { apply (f_equal (.!! 0)) in Hr. rewrite lookup_drop, Nat.add_0_r in Hr. by symmetry. }
    pose proof (Forall_lookup_1 _ _ _ _ Hf Hk) as Hwb.
    destruct (next_set_least W b q Hwb Hq) as (x & E & Hx). cbn [dyn_next_set_from].
    rewrite E. mrun. destruct x as [j|]; simpl in Hx.
    + eexists; split; [done|]. destruct Hx as (Hqj & Hj & Hlow).
      assert (j < width) as Hjw.
      { destruct (Nat.lt_ge_cases j width) as [|Hge]; [done|]. rewrite bit_ge in Hj; [done|].
        unfold N_BITS. by destruct Hwb as [-> _]. }
      rewrite (Nat.add_comm j). split_and!; [lia|by rewrite (dbit_at _ _ b)|].
      intros i Hi. replace i with (k * width + (i - k * width)) by lia.
      rewrite (dbit_at _ _ b) by (done || lia). apply Hlow. lia.
    + rewrite (drop_S _ _ _ Hk) in Hr. injection Hr as Hr.
      destruct (IH (S k) 0 Hf Hr) as (r & -> & Hr'); [apply width_pos|].
      exists r. split; [done|].
      assert (forall i, k * width + q <= i < S k * width -> dbit ds i = false) as Hlow.
      { intros i Hi. replace i with (k * width + (i - k * width)) by lia.
        rewrite (dbit_at _ _ b) by (done || lia). apply Hx. lia. }
      destruct r as [j|]; simpl in *.
      * destruct Hr' as (Hj & Hs & Hl). split_and!; [lia|done|]. intros i Hi.
        destruct (Nat.lt_ge_cases i (S k * width)); [apply Hlow; lia|apply Hl; simpl in *; lia].
      * intros i Hi. destruct (Nat.lt_ge_cases i (S k * width)); [apply Hlow; lia|].
        apply Hr'. simpl in *. lia.
Qed.

Lemma dyn_next_set_spec ds i :
  dwf W ds -> exists r, dyn_next_set W ds i = Ret r /\ dyn_least_from ds i r.
Proof using HW.
  intros [Hf _]. unfold dyn_next_set, bitset_and_idx.
  destruct (dyn_next_set_from_spec ds (drop (i / width) ds) (i / width) (i mod width) Hf eq_refl)
    as (r & -> & Hr); [apply mod_width|].
  exists r. split; [done|]. pose proof (div_mod_width i).
  by replace (i / width * width + i mod width) with i in Hr by lia.
Qed.
End DynSpec.

(** ** Sequences of updates *)

Inductive dyn_op :=
| DSet (bit : nat)
| DClear (bit : nat)
| DZeroFrom (bit_inclusive : nat)
| DClearAll.

Definition dyn_step (W : nat) (ds : list (list Z)) (op : dyn_op) : outcome (list (list Z)) :=
  match op with
  | DSet i => dyn_set W ds i
  | DClear i => dyn_clear W ds i
  | DZeroFrom i => zero_from W ds i
  | DClearAll => Ret clear_all
  end.

(** The same update of a finite set. *)
Definition set_step (s : gset nat) (op : dyn_op) : gset nat :=
  match op with
  | DSet i => {[i]} ∪ s
  | DClear i => s ∖ {[i]}
  | DZeroFrom i => filter (fun j => j < i) s
  | DClearAll => ∅
  end.

Definition dyn_rel (W : nat) (ds : list (list Z)) (s : gset nat) : Prop :=
  dwf W ds /\ forall j, dbit W ds j = bool_decide (j ∈ s).

Lemma dyn_step_refines W ds s op :
  0 < W -> dyn_rel W ds s ->
  exists ds', dyn_step W ds op = Ret ds' /\ dyn_rel W ds' (set_step s op).
Proof.
  intros HW [Hwf Hb]. destruct op as [i|i|i|]; simpl.
  - destruct (dyn_set_spec W HW ds i Hwf) as (ds' & -> & Hwf' & Hb').
    exists ds'. split; [done|]. split; [done|]. intros j. rewrite Hb', Hb.
    repeat case_bool_decide; set_solver.
  - destruct (dyn_clear_spec W HW ds i Hwf) as (ds' & -> & Hwf' & Hb').
    exists ds'. split; [done|]. split; [done|]. intros j. rewrite Hb', Hb.
    repeat case_bool_decide; set_solver.
  - destruct (zero_from_spec W HW ds i Hwf) as (ds' & -> & Hwf' & Hb').
    exists ds'. split; [done|]. split; [done|]. intros j. rewrite Hb', Hb.
    rewrite <- bool_decide_and. apply bool_decide_ext. by rewrite elem_of_filter.
  - eexists; split; [done|]. split; [split; [constructor|done]|]. intros j.
    by rewrite bool_decide_eq_false_2 by set_solver.
Qed.

(** Any sequence of [set], [clear], [zero_from] and [clear_all] on an
    empty [DynBitset] runs without a panic, keeps its invariant (chunks of
    [WORDS] words, no empty chunk at the end), and leaves a bitset whose
    [test] answers membership in the set the same updates produce. *)
Theorem dyn_ops_refine_set W (ops : list dyn_op) :
  0 < W ->
  exists ds, mfoldl (dyn_step W) dyn_empty ops = Ret ds /\ dwf W ds /\
    forall i, dyn_test W ds i = Ret (bool_decide (i ∈ foldl set_step ∅ ops)).
Proof.
  intros HW. assert (forall ds s, dyn_rel W ds s ->
    exists ds', mfoldl (dyn_step W) ds ops = Ret ds' /\ dyn_rel W ds' (foldl set_step s ops)) as Hgen.
  { induction ops as [|op ops IH]; intros ds s Hr; [by exists ds|].
    destruct (dyn_step_refines W ds s op HW Hr) as (ds1 & E & Hr1). cbn [mfoldl foldl].
    rewrite E. mrun. by apply IH. }
  destruct (Hgen dyn_empty ∅) as (ds & -> & Hwf & Hb).
  { split; [split; [constructor|done]|]. intros j. by rewrite bool_decide_eq_false_2 by set_solver. }
  exists ds. split; [done|]. split; [done|]. intros i. by rewrite dyn_test_spec, Hb.
Qed.

Lemma dyn_ops_refine_set_witness :
  0 < 2 /\ exists ds, mfoldl (dyn_step 2) dyn_empty [DSet 3; DSet 200; DClear 200; DZeroFrom 64] = Ret ds /\
    dwf 2 ds /\
    forall i, dyn_test 2 ds i = Ret (bool_decide (i ∈ foldl set_step ∅ [DSet 3; DSet 200; DClear 200; DZeroFrom 64])).
Proof. split; [lia|]. apply dyn_ops_refine_set. lia. Defined.

(** Two bitsets that satisfy the invariant and hold the same bits are the
    same vector, so the derived equality of [DynBitset] is set equality. *)
Theorem dyn_eq_is_set_eq W ds ds' :
  0 < W -> dwf W ds -> dwf W ds' ->
  ds = ds' <-> forall i, dyn_test W ds i = dyn_test W ds' i.
Proof.
  intros HW Hwf Hwf'. split; [by intros ->|]. intros Ht. apply (dyn_ext W HW); [done..|].
  intros i. specialize (Ht i). rewrite !dyn_test_spec in Ht by done. congruence.
Qed.

Lemma dyn_eq_is_set_eq_witness :
  [[4; 0]%Z] = [[4; 0]%Z] <-> forall i, dyn_test 2 [[4; 0]%Z] i = dyn_test 2 [[4; 0]%Z] i.
Proof.
  assert (dwf 2 [[4; 0]%Z]) as Hwf.
  { split; [|intros b [= <-]; exists 2; reflexivity].
    constructor; [|constructor]. split; [done|]. repeat constructor; lia. }
  apply (dyn_eq_is_set_eq 2 [[4; 0]%Z] [[4; 0]%Z]); [lia|exact Hwf|exact Hwf].
Defined.

(** [first_set] offsets a chunk by 64 bits whatever its width: with two
    words per chunk, the only bit set is 130 and the answer is 66. *)
Theorem dyn_first_set_wide_chunks :
  exists ds, dyn_set 2 dyn_empty 130 = Ret ds /\ dyn_first_set ds = Some 66 /\
    dyn_test 2 ds 66 = Ret false /\ dyn_next_set 2 ds 0 = Ret (Some 130).
Proof. eexists. split; [vm_compute; reflexivity|]. by vm_compute. Qed.
