(* ===== verification/Array256.v ===== *)
(** * Array256: the sparse array of ts_array256

    [Array256<S>] (src/ts_array256/src/lib.rs) keeps its elements packed in a
    vector, ordered by index, and the occupied indices in a 256-bit bitset;
    the element at index [i] sits at [rank256(i) - 1].  The storage is the
    [Vec] instance of [ArrayStorage].  A mutable reference is the current
    element with the function that writes a new one back. *)

From S2P Require Import Prelude Bitset.

Record Array256 (T : Type) := mkArray256 {
  bitset : list Z;
  storage : list T;
}.
Arguments mkArray256 {T} _ _.
Arguments bitset {T} _.
Arguments storage {T} _.

Definition empty_array {T} : Array256 T := mkArray256 (EMPTY 4) [].

(** ** Operations *)

Section Ops.
Context {T : Type}.
Implicit Types a : Array256 T.

Definition test_index a (index : Z) : outcome bool :=
  Bitset.test (bitset a) (Z.to_nat index).

Definition array_intersects a (other : list Z) : bool :=
  Bitset.intersects (bitset a) other.

Definition array_intersection_top a (other : list Z) : option Z :=
  Z.of_nat <$> Bitset.intersection_top (bitset a) other.

Definition array_is_empty a : bool := Bitset.is_empty (bitset a).

Definition array_len a : nat := length (storage a).

Definition storage_index a (i : Z) : outcome nat :=
  usub (rank256 (bitset a) (Z.to_nat i)) 1.

Definition get a (index : Z) : outcome (option T) :=
  occupied ← test_index a index;
  if (occupied : bool) then
    i ← storage_index a index;
    x ← idx (storage a) i;
    Ret (Some x)
  else Ret None.

Definition get_mut a (index : Z) : outcome (option (T * (T -> Array256 T))) :=
  occupied ← test_index a index;
  if (occupied : bool) then
    i ← storage_index a index;
    x ← idx (storage a) i;
    Ret (Some (x, fun y => mkArray256 (bitset a) (<[i := y]> (storage a))))
  else Ret None.

Definition insert a (index : Z) (element : T) : outcome (Array256 T * option T) :=
  occupied ← test_index a index;
  if (occupied : bool) then
    i ← storage_index a index;
    old ← idx (storage a) i;
    new_storage ← upd (storage a) i element;
    Ret (mkArray256 (bitset a) new_storage, Some old)
  else
    new_bitset ← Bitset.set (bitset a) (Z.to_nat index);
    let a' := mkArray256 new_bitset (storage a) in
    i ← storage_index a' index;
    new_storage ← vec_insert (storage a) i element;
    Ret (mkArray256 new_bitset new_storage, None).

Definition remove a (index : Z) : outcome (Array256 T * option T) :=
  if decide (array_len a = 0) then Ret (a, None)
  else
    occupied ← test_index a index;
    if (occupied : bool) then
      i ← storage_index a index;
      '(value, new_storage) ← vec_remove (storage a) i;
      new_bitset ← Bitset.clear (bitset a) (Z.to_nat index);
      Ret (mkArray256 new_bitset new_storage, Some value)
    else Ret (a, None).

Definition clear_array : Array256 T := mkArray256 (EMPTY 4) [].

Definition iter a : list (Z * T) := zip (Z.of_nat <$> bits (bitset a)) (storage a).

(** [iter_after] indexes the storage once per yielded bit. *)
Definition iter_after a (n : Z) : outcome (list (Z * T)) :=
  mfoldl (fun acc idx_ =>
    i ← storage_index a (Z.of_nat idx_);
    x ← idx (storage a) i;
    Ret (acc ++ [(Z.of_nat idx_, x)])) [] (bits_after (bitset a) (Z.to_nat n)).

Definition from_iter (items : list (Z * T)) : outcome (Array256 T) :=
  mfoldl (fun ary '(addr, item) =>
    '(ary', _) ← insert ary addr item; Ret ary') empty_array items.
End Ops.

(** ** Specification view *)

Section Spec.
Context {T : Type}.
Implicit Types a : Array256 T.

(** The element at index [i]: its position is the number of occupied
    indices below. *)
Definition slot a (i : nat) : option T :=
  if bit (bitset a) i then storage a !! count_upto (bit (bitset a)) i else None.

(** The representation invariant. *)
Definition array_wf a : Prop :=
  Bitset.wf 4 (bitset a) /\ length (storage a) = count_ones (bitset a).

Lemma array_count a : array_wf a -> length (storage a) = count_upto (bit (bitset a)) 256.
Proof.
  intros [Hwf Hl]. rewrite Hl, count_ones_count. unfold N_BITS.
  by rewrite (proj1 Hwf).
Qed.

Lemma bit_256 a i : array_wf a -> bit (bitset a) i = true -> i < 256.
Proof.
  intros [Hwf _] Hb. destruct (Nat.lt_ge_cases i 256) as [|Hge]; [done|].
  rewrite bit_ge in Hb; [done|]. unfold N_BITS. by rewrite (proj1 Hwf).
Qed.

Lemma slot_pos_lt a i :
  array_wf a -> bit (bitset a) i = true ->
  count_upto (bit (bitset a)) i < length (storage a).
Proof.
  intros Hwf Hb. rewrite array_count by done.
  apply count_upto_strict; [by eapply bit_256|done].
Qed.

(** An index is occupied exactly when its bit is set. *)
Lemma slot_is_Some a i : array_wf a -> is_Some (slot a i) <-> bit (bitset a) i = true.
Proof.
  intros Hwf. unfold slot. destruct (bit (bitset a) i) eqn:E.
  - split; [done|]. intros _. by apply lookup_lt_is_Some_2, slot_pos_lt.
  - split; [by intros [? ?]|done].
Qed.

Lemma u8_to_nat (i : Z) : u8_ok i -> Z.to_nat i < 256.
Proof. unfold u8_ok. lia. Qed.

Lemma test_index_spec a i :
  array_wf a -> u8_ok i -> test_index a i = Ret (bit (bitset a) (Z.to_nat i)).
Proof.
  intros [Hwf _] Hi. apply (test_spec 4); [done|]. by apply u8_to_nat.
Qed.

Lemma storage_index_spec a i :
  Bitset.wf 4 (bitset a) -> u8_ok i -> bit (bitset a) (Z.to_nat i) = true ->
  storage_index a i = Ret (count_upto (bit (bitset a)) (Z.to_nat i)).
Proof.
  intros Hwf Hi Hb. unfold storage_index.
  rewrite rank256_spec by (done || by apply u8_to_nat). simpl. rewrite Hb.
  unfold usub. rewrite decide_True by lia. f_equal. lia.
Qed.

Lemma get_spec a i : array_wf a -> u8_ok i -> get a i = Ret (slot a (Z.to_nat i)).
Proof.
  intros Hwf Hi. unfold get, slot. rewrite test_index_spec by done. mrun.
  destruct (bit _ _) eqn:E; [|done].
  rewrite storage_index_spec by (done || apply Hwf). mrun.
  destruct (idx_lt (storage a) _ (slot_pos_lt a _ Hwf E)) as [x Hx].
  rewrite Hx. mrun. apply idx_Ret in Hx. by rewrite Hx.
Qed.
End Spec.

(** ** Packed storage under insertion and removal *)

Section Packed.
Context {T : Type}.
Implicit Types (s : list T) (f g : nat -> bool) (v : T).

Lemma packed_insert f s k v j :
  f k = false -> count_upto f k <= length s ->
  (if bool_decide (j = k) || f j
   then (take (count_upto f k) s ++ v :: drop (count_upto f k) s)
          !! count_upto (fun i => bool_decide (i = k) || f i) j
   else None)
  = if decide (j = k) then Some v
    else if f j then s !! count_upto f j else None.
Proof.
  intros Hk Hle. rewrite count_upto_set by done. set (c := count_upto f k) in *.
  destruct (decide (j = k)) as [->|Hne].
  - rewrite bool_decide_eq_true_2 by done. simpl.
    rewrite decide_False, Nat.add_0_r by lia. fold c.
    rewrite lookup_app_r by (rewrite length_take; lia).
    rewrite length_take, Nat.min_l, Nat.sub_diag by lia. done.
  - rewrite bool_decide_eq_false_2 by done. simpl. destruct (f j) eqn:Hj; [|done].
    case_decide as Hlt.
    + assert (c <= count_upto f j) by (apply count_upto_mono; lia).
      rewrite lookup_app_r by (rewrite length_take; lia).
      rewrite length_take, Nat.min_l by lia.
      replace (count_upto f j + 1 - c) with (S (count_upto f j - c)) by lia.
      rewrite lookup_cons, lookup_drop. f_equal. lia.
    + rewrite Nat.add_0_r.
      assert (count_upto f j < c) by (apply count_upto_strict; [lia|done]).
      rewrite lookup_app_l by (rewrite length_take; lia).
      by apply lookup_take_lt.
Qed.

Lemma packed_remove f s k j :
  f k = true -> count_upto f k < length s ->
  (if negb (bool_decide (j = k)) && f j
   then (take (count_upto f k) s ++ drop (S (count_upto f k)) s)
          !! count_upto (fun i => negb (bool_decide (i = k)) && f i) j
   else None)
  = if decide (j = k) then None
    else if f j then s !! count_upto f j else None.
Proof.
  intros Hk Hle. destruct (decide (j = k)) as [->|Hne].
  { rewrite bool_decide_eq_true_2 by done. done. }
  rewrite bool_decide_eq_false_2 by done. simpl. destruct (f j) eqn:Hj; [|done].
  set (c := count_upto f k) in *. pose proof (count_upto_clear f k j Hk) as Hc.
  destruct (decide (k < j)) as [Hlt|Hge].
  - assert (c < count_upto f j) by (apply count_upto_strict; done).
    rewrite lookup_app_r by (rewrite length_take; lia).
    rewrite length_take, Nat.min_l, lookup_drop by lia. f_equal. lia.
  - assert (count_upto f j < c) by (apply count_upto_strict; [lia|done]).
    rewrite lookup_app_l by (rewrite length_take; lia).
    rewrite lookup_take_lt by lia. f_equal. lia.
Qed.
End Packed.

Section Mutation.
Context {T : Type}.
Implicit Types (a : Array256 T) (v : T).

Lemma bit_ext_slot bs' (f : nat -> bool) (s : list T) j :
  (forall i, bit bs' i = f i) ->
  slot (mkArray256 bs' s) j = if f j then s !! count_upto f j else None.
Proof.
  intros Hf. unfold slot. simpl. rewrite Hf. destruct (f j); [|done].
  f_equal. apply count_upto_ext. intros. apply Hf.
Qed.

Lemma slot_overwrite a i v j :
  array_wf a -> bit (bitset a) i = true ->
  slot (mkArray256 (bitset a) (<[count_upto (bit (bitset a)) i := v]> (storage a))) j
  = if decide (j = i) then Some v else slot a j.
Proof.
  intros Hwf Hb. unfold slot. simpl. pose proof (slot_pos_lt a i Hwf Hb) as Hlt.
  destruct (decide (j = i)) as [->|Hne].
  - rewrite Hb. by apply list_lookup_insert_eq.
  - destruct (bit (bitset a) j) eqn:Hj; [|done].
    apply list_lookup_insert_ne. intros Heq.
    destruct (Nat.lt_total i j) as [H|[H|H]]; [|lia|];
      [apply (count_upto_strict (bit (bitset a))) in H; [lia|done]..].
Qed.

Lemma insert_spec a i v :
  array_wf a -> u8_ok i ->
  exists a', insert a i v = Ret (a', slot a (Z.to_nat i)) /\ array_wf a' /\
    forall j, slot a' j = if decide (j = Z.to_nat i) then Some v else slot a j.
Proof.
  intros Hwf Hi. pose proof Hwf as [Hbs Hlen]. unfold insert.
  rewrite test_index_spec by done. mrun.
  destruct (bit (bitset a) (Z.to_nat i)) eqn:Hb.
  - rewrite storage_index_spec by done. mrun.
    destruct (idx_lt (storage a) _ (slot_pos_lt a _ Hwf Hb)) as [x Hx].
    rewrite Hx. mrun. rewrite upd_lt by (by apply slot_pos_lt). mrun.
    eexists; split; [|split].
    + unfold slot. rewrite Hb. apply idx_Ret in Hx. by rewrite Hx.
    + split; [done|]. simpl. by rewrite length_insert.
    + intros j. by apply slot_overwrite.
  - destruct (set_spec 4 (bitset a) (Z.to_nat i) Hbs (u8_to_nat _ Hi))
      as (bs' & -> & Hwf' & Hbit). mrun.
    rewrite storage_index_spec; simpl; [|done|done|].
    2:{ by rewrite Hbit, bool_decide_eq_true_2. }
    mrun. set (k := Z.to_nat i) in *.
    assert (count_upto (bit bs') k = count_upto (bit (bitset a)) k) as ->.
    { apply count_upto_ext. intros j Hj. by rewrite Hbit, bool_decide_eq_false_2 by lia. }
    assert (count_upto (bit (bitset a)) k <= length (storage a)) as Hle.
    { rewrite array_count by done. apply count_upto_mono.
      pose proof (u8_to_nat _ Hi). lia. }
    unfold vec_insert. rewrite decide_True by done. mrun.
    eexists; split; [|split].
    + unfold slot. by rewrite Hb.
    + split; [done|]. simpl. rewrite length_app, length_take. simpl.
      rewrite length_drop, count_ones_count. unfold N_BITS. rewrite (proj1 Hwf').
      rewrite (count_upto_ext (bit bs') (fun j => bool_decide (j = k) || bit (bitset a) j))
        by (intros; apply Hbit).
      rewrite count_upto_set, decide_True by (done || by apply u8_to_nat).
      pose proof (array_count a Hwf). change (4 * 64) with 256. lia.
    + intros j. rewrite (bit_ext_slot bs' _ _ j Hbit). by apply packed_insert.
Qed.

Lemma remove_spec a i :
  array_wf a -> u8_ok i ->
  exists a', remove a i = Ret (a', slot a (Z.to_nat i)) /\ array_wf a' /\
    forall j, slot a' j = if decide (j = Z.to_nat i) then None else slot a j.
Proof.
  intros Hwf Hi. pose proof Hwf as [Hbs Hlen]. unfold remove, array_len.
  assert (slot a (Z.to_nat i) = None -> forall j,
    slot a j = if decide (j = Z.to_nat i) then None else slot a j) as Hsame.
  { intros E j. case_decide; [by subst|done]. }
  case_decide as Hz.
  { assert (slot a (Z.to_nat i) = None) as E.
    { unfold slot. apply nil_length_inv in Hz. rewrite Hz.
      by destruct (bit _ _). }
    exists a. rewrite E. auto. }
  rewrite test_index_spec by done. mrun.
  destruct (bit (bitset a) (Z.to_nat i)) eqn:Hb.
  - rewrite storage_index_spec by done. mrun.
    pose proof (slot_pos_lt a _ Hwf Hb) as Hlt. unfold vec_remove.
    destruct (lookup_lt_is_Some_2 _ _ Hlt) as [x Hx]. rewrite Hx. mrun.
    destruct (clear_spec 4 (bitset a) (Z.to_nat i) Hbs (u8_to_nat _ Hi))
      as (bs' & -> & Hwf' & Hbit). mrun.
    set (k := Z.to_nat i) in *. eexists; split; [|split].
    + unfold slot. by rewrite Hb, Hx.
    + split; [done|]. simpl. rewrite length_app, length_take, length_drop.
      rewrite count_ones_count. unfold N_BITS. rewrite (proj1 Hwf').
      rewrite (count_upto_ext (bit bs') (fun j => negb (bool_decide (j = k)) && bit (bitset a) j))
        by (intros; apply Hbit).
      pose proof (count_upto_clear (bit (bitset a)) k 256 Hb) as Hc.
      rewrite decide_True in Hc by (by apply u8_to_nat).
      pose proof (array_count a Hwf). change (4 * 64) with 256. lia.
    + intros j. rewrite (bit_ext_slot bs' _ _ j Hbit). by apply packed_remove.
  - assert (slot a (Z.to_nat i) = None) as E by (unfold slot; by rewrite Hb).
    exists a. rewrite E. auto.
Qed.

Lemma get_mut_spec a i :
  array_wf a -> u8_ok i ->
  match slot a (Z.to_nat i) with
  | Some x => exists w, get_mut a i = Ret (Some (x, w)) /\ forall y, array_wf (w y) /\
      forall j, slot (w y) j = if decide (j = Z.to_nat i) then Some y else slot a j
  | None => get_mut a i = Ret None
  end.
Proof.
  intros Hwf Hi. pose proof Hwf as [Hbs Hlen]. unfold get_mut.
  rewrite test_index_spec by done. mrun.
  destruct (bit (bitset a) (Z.to_nat i)) eqn:Hb; [|unfold slot; by rewrite Hb].
  rewrite storage_index_spec by done. mrun.
  destruct (idx_lt (storage a) _ (slot_pos_lt a _ Hwf Hb)) as [x Hx].
  rewrite Hx. mrun. apply idx_Ret in Hx.
  unfold slot at 1. rewrite Hb, Hx. eexists; split; [done|]. intros y. split.
  - split; [done|]. simpl. by rewrite length_insert.
  - intros j. by apply slot_overwrite.
Qed.

Lemma empty_array_wf : array_wf (@empty_array T).
Proof. split; [apply wf_EMPTY|done]. Qed.

Lemma slot_empty j : slot (@empty_array T) j = None.
Proof. unfold slot, empty_array. cbn [bitset]. by rewrite bit_EMPTY. Qed.
End Mutation.

#[export] Hint Resolve empty_array_wf : rust.

(** ** Iteration *)

Section Iter.
Context {T : Type}.
Implicit Types (a : Array256 T) (v : T).

(** The [m]-th set index has [m] set indices below it. *)
Lemma filter_seq_count (f : nat -> bool) n m i :
  filter (fun i => f i = true) (seq 0 n) !! m = Some i ->
  f i = true /\ i < n /\ count_upto f i = m.
Proof.
  induction n as [|n IH]; [done|].
  rewrite seq_S, filter_app. intros E. simpl in E.
  apply lookup_app_Some in E as [E|[Hge E]].
  - destruct (IH E) as (? & ? & ?). split_and!; [done|lia|done].
  - rewrite <- count_upto_filter in *. destruct (f n) eqn:Hn.
    + rewrite filter_cons_True in E by done. simpl in E.
      apply list_lookup_singleton_Some in E as [Hm <-]. split_and!; [done|lia|lia].
    + by rewrite filter_cons_False in E by congruence.
Qed.

Lemma count_filter_seq (f : nat -> bool) n i :
  f i = true -> i < n ->
  filter (fun i => f i = true) (seq 0 n) !! count_upto f i = Some i.
Proof.
  intros Hf Hi.
  assert (i ∈ filter (fun i => f i = true) (seq 0 n)) as [m Hm]%list_elem_of_lookup.
  { apply list_elem_of_filter. rewrite elem_of_seq. split; [done|lia]. }
  destruct (filter_seq_count _ _ _ _ Hm) as (_ & _ & ->). done.
Qed.

Lemma iter_keys a : array_wf a -> fst <$> iter a = Z.of_nat <$> positions (bitset a).
Proof.
  intros [Hwf Hl]. unfold iter. rewrite bits_spec by apply Hwf.
  apply fst_zip. rewrite length_fmap, Hl, count_ones_positions. lia.
Qed.

Lemma elem_of_iter a i v :
  array_wf a -> (Z.of_nat i, v) ∈ iter a <-> slot a i = Some v.
Proof.
  intros Hwf. pose proof Hwf as [Hbs Hl]. unfold iter.
  rewrite bits_spec by apply Hbs. unfold positions, slot.
  rewrite list_elem_of_lookup. split.
  - intros [m Hm]. apply lookup_zip_Some in Hm as [Hk Hv].
    rewrite list_lookup_fmap in Hk. apply fmap_Some in Hk as (i' & Hi' & ->%Nat2Z.inj).
    apply filter_seq_count in Hi' as (Hb & _ & <-). by rewrite Hb.
  - destruct (bit (bitset a) i) eqn:Hb; [|done]. intros Hv.
    exists (count_upto (bit (bitset a)) i). apply lookup_zip_Some. split; [|done].
    rewrite list_lookup_fmap, count_filter_seq; [done|done|].
    unfold N_BITS. rewrite (proj1 Hbs). by eapply bit_256.
Qed.

(** [iter_after] never panics and yields the entries above [n], in order. *)
Lemma iter_after_spec a n :
  array_wf a -> u8_ok n ->
  exists l, iter_after a n = Ret l /\
    fst <$> l = Z.of_nat <$> filter (fun i => Z.to_nat n < i) (positions (bitset a)) /\
    forall i v, (Z.of_nat i, v) ∈ l <-> Z.to_nat n < i /\ slot a i = Some v.
Proof.
  intros Hwf Hn. pose proof Hwf as [Hbs Hl]. unfold iter_after.
  rewrite bits_after_spec by (done || by apply u8_to_nat).
  set (ks := filter _ _).
  assert (forall k, k ∈ ks <-> Z.to_nat n < k /\ bit (bitset a) k = true) as Hks.
  { intros k. unfold ks. by rewrite list_elem_of_filter, elem_of_positions. }
  assert (forall ks acc, (forall k, k ∈ ks -> bit (bitset a) k = true) ->
    mfoldl (fun acc idx_ =>
      i ← storage_index a (Z.of_nat idx_);
      x ← idx (storage a) i; Ret (acc ++ [(Z.of_nat idx_, x)])) acc ks
    = Ret (acc ++ omap (fun k => pair (Z.of_nat k) <$> slot a k) ks)) as Hloop.
  { clear ks Hks. induction ks as [|k ks IH]; intros acc Hall.
    - simpl. by rewrite app_nil_r.
    - assert (bit (bitset a) k = true) as Hb by (apply Hall, list_elem_of_here).
      pose proof (bit_256 a k Hwf Hb). cbn [mfoldl].
      rewrite storage_index_spec; rewrite ?Nat2Z.id; try done.
      2:{ unfold u8_ok. lia. }
      mrun. destruct (idx_lt (storage a) _ (slot_pos_lt a _ Hwf Hb)) as [x Hx].
      rewrite Hx. mrun. apply idx_Ret in Hx.
      rewrite IH by (intros; by apply Hall, list_elem_of_further).
      rewrite <- app_assoc. do 2 f_equal. simpl. unfold slot at 2. by rewrite Hb, Hx. }
  eexists; split; [rewrite Hloop by (intros; by apply Hks)|split].
  - rewrite app_nil_l. done.
  - assert (forall k, k ∈ ks -> bit (bitset a) k = true) as Hb by (intros; by apply Hks).
    clear Hks Hloop. clearbody ks. induction ks as [|k ks IH]; [done|]. simpl.
    destruct (proj2 (slot_is_Some a k Hwf) (Hb k (list_elem_of_here _ _))) as [x Hx].
    rewrite Hx. simpl. f_equal. apply IH. intros. by apply Hb, list_elem_of_further.
  - intros i v. rewrite list_elem_of_omap. split.
    + intros (k & Hk & (x & Hx & [= Heq <-])%fmap_Some). apply Nat2Z.inj in Heq as <-.
      apply Hks in Hk as [? _]. done.
    + intros [Hlt Hs]. exists i. split; [|by rewrite Hs].
      apply Hks. split; [done|]. apply slot_is_Some; [done|]. by eexists.
Qed.

(** Collecting pairs: the last value given for an index wins. *)
Lemma from_iter_spec (items : list (Z * T)) :
  Forall (fun p => u8_ok p.1) items ->
  exists a, from_iter items = Ret a /\ array_wf a /\
    forall j, slot a j =
      snd <$> last (filter (fun p : Z * T => j = Z.to_nat p.1) items).
Proof.
  intros Hall. unfold from_iter. induction items as [|[i v] items IH] using rev_ind.
  - eexists; split; [done|]. split; [apply empty_array_wf|]. apply slot_empty.
  - apply Forall_app in Hall as [Hall Hi]. rewrite Forall_singleton in Hi.
    destruct (IH Hall) as (a & Ha & Hwf & Hs). rewrite mfoldl_app, Ha. mrun.
    destruct (insert_spec a i v Hwf Hi) as (a' & -> & Hwf' & Hs'). mrun.
    eexists; split; [done|]. split; [done|]. intros j. rewrite Hs', Hs, filter_app, last_app.
    case_decide as E.
    + rewrite filter_cons_True by done. done.
    + rewrite filter_cons_False by done. done.
Qed.

Lemma array_len_count a :
  array_wf a -> array_len a = count_upto (fun i => bool_decide (is_Some (slot a i))) 256.
Proof.
  intros Hwf. unfold array_len. rewrite array_count by done.
  apply count_upto_ext. intros i _.
  rewrite (bool_decide_ext _ (bit (bitset a) i = true)) by (by apply slot_is_Some).
  by destruct (bit (bitset a) i).
Qed.
End Iter.

(** ** Properties *)

(** [Array256] is a map from octets: inserting and removing run without a
    panic, return the old element, set or clear one index and keep the packed
    storage in step with the bitset; [get] reads the map. *)
Theorem array256_is_map {T} (a : Array256 T) i v :
  array_wf a -> u8_ok i ->
  exists a1 a2, insert a i v = Ret (a1, slot a (Z.to_nat i)) /\ array_wf a1 /\
    remove a i = Ret (a2, slot a (Z.to_nat i)) /\ array_wf a2 /\
    forall j, u8_ok j ->
      get a1 j = Ret (if decide (j = i) then Some v else slot a (Z.to_nat j)) /\
      get a2 j = Ret (if decide (j = i) then None else slot a (Z.to_nat j)).
Proof.
  intros Hwf Hi. destruct (insert_spec a i v Hwf Hi) as (a1 & -> & Hwf1 & Hs1).
  destruct (remove_spec a i Hwf Hi) as (a2 & -> & Hwf2 & Hs2).
  exists a1, a2. split_and!; [done..|]. intros j Hj. rewrite !get_spec by done.
  rewrite Hs1, Hs2. unfold u8_ok in *.
  destruct (decide (j = i)), (decide (Z.to_nat j = Z.to_nat i)); (done || lia).
Qed.

Definition array_demo : Array256 nat := mkArray256 [2 ^ 7; 0; 0; 2 ^ 63]%Z [10; 20].

Lemma array256_is_map_witness :
  exists a1 a2, insert array_demo 9 5 = Ret (a1, None) /\ array_wf a1 /\
    remove array_demo 9 = Ret (a2, None) /\ array_wf a2 /\
    forall j, u8_ok j ->
      get a1 j = Ret (if decide (j = 9%Z) then Some 5 else slot array_demo (Z.to_nat j)) /\
      get a2 j = Ret (if decide (j = 9%Z) then None else slot array_demo (Z.to_nat j)).
Proof.
  apply (array256_is_map array_demo 9 5).
  - split; [|reflexivity]. split; [done|]. repeat constructor; by vm_compute.
  - unfold u8_ok. lia.
Defined.
