(* ===== verification/BaseIndex.v ===== *)
(** * BaseIndex: prefixes of one octet, linearised

    The base index of Hariguchi's ART (src/ts_bart/src/base_index.rs), the
    longest-prefix-match bitsets (lpm.rs) and the allotment bitsets
    (allot.rs).  A [BaseIndex] is a non-zero [u8], kept as a [Z].  The lookup
    tables of the [lut] feature hold the entry functions' results, so the
    entry functions stand for both features. *)

From S2P Require Import Prelude Bitset.

Local Open Scope Z_scope.

(** ** base_index.rs *)

Definition try_new (val : Z) : option Z := if decide (val = 0) then None else Some val.

Definition new (val : Z) : outcome Z := unwrap (try_new val).

(** [u8::BITS - leading_zeros()]; [val] is a [u8]. *)
Definition idx_len (val : Z) : Z := Z.of_nat (bit_len64 val).

Definition net_mask (bits : Z) : outcome Z :=
  _ ← rassert (bool_decide (bits <= 8));
  Ret (ushl 8 255 (8 - bits)).

Definition from_prefix (octet prefix_len : Z) : outcome Z :=
  _ ← rassert (bool_decide (prefix_len <= 7));
  new (ushr octet (8 - prefix_len) + ushl 8 1 prefix_len).

(** The octet and the prefix length of an index. *)
Definition prefix (self : Z) : Z * Z :=
  let pfx_len := idx_len self - 1 in
  let shift_bits := 8 - pfx_len in
  let mask := ushr 255 shift_bits in
  let octet := ushl 8 (Z.land self mask) shift_bits in
  (octet, pfx_len).

(** The [debug_assert!] is part of debug builds. *)
Definition from_pfx_7 (octet : Z) : outcome Z :=
  ret ← new (128 + ushr octet 1);
  _ ← rassert (bool_decide ((prefix ret).2 = 7));
  Ret ret.

(** [base_bits as u8] truncates. *)
Definition prefix_bits (self : Z) (depth : nat) : Z :=
  let pfx_len_in_stride := idx_len self - 1 in
  let base_bits := Z.of_nat (depth * 8) in
  base_bits mod 256 + pfx_len_in_stride.

Definition range (self : Z) : outcome (Z * Z) :=
  let '(first, pfx_len) := prefix self in
  m ← net_mask pfx_len;
  Ret (first, Z.lor first (Z.lxor m 255)).

Definition cmp_rank (self other : Z) : comparison :=
  let '(a_octet, a_bits) := prefix self in
  let '(b_octet, b_bits) := prefix other in
  match a_octet ?= b_octet with
  | Eq => a_bits ?= b_bits
  | c => c
  end.

Definition parent (self : Z) : outcome (option Z) :=
  if decide (self = 1) then Ret None
  else p ← new (self / 2); Ret (Some p).

Definition children (self : Z) : outcome (option (Z * Z)) :=
  if decide (128 <= self) then Ret None
  else
    l ← new (self * 2);
    r ← new (self * 2 + 1);
    Ret (Some (l, r)).

(** ** lpm.rs *)

(** The loop [while j > 0 { entry.set(j); j >>= 1 }]; eight halvings exhaust
    a [u8]. *)
Fixpoint lpm_loop (fuel : nat) (j : Z) (entry : list Z) : outcome (list Z) :=
  match fuel with
  | O => Ret entry
  | S fuel =>
      if decide (0 < j) then
        entry ← Bitset.set entry (Z.to_nat j);
        lpm_loop fuel (ushr j 1) entry
      else Ret entry
  end.

Definition lpm (i : Z) : outcome (list Z) := lpm_loop 8 i (EMPTY 4).

(** ** allot.rs *)

(** The loop of [entry]: [stack[i..len]] is the work list, [len] the next free
    slot of the 512-entry stack array. *)
Fixpoint allot_loop (fuel : nat) (stack : list nat) (len : nat) (pfx fringe : list Z)
    : outcome (list Z * list Z) :=
  match fuel, stack with
  | S fuel, j :: stack =>
      if decide (j < 256)%nat then
        pfx ← Bitset.set pfx j;
        _ ← rassert (bool_decide (len + 1 < 512)%nat);
        allot_loop fuel (stack ++ [j * 2; j * 2 + 1])%nat (len + 2) pfx fringe
      else
        fringe ← Bitset.set fringe (j mod 256)%nat;
        allot_loop fuel stack len pfx fringe
  | _, _ => Ret (pfx, fringe)
  end.

Definition allot_entry (idx : nat) : outcome (list Z * list Z) :=
  allot_loop 512 [idx] 1 (EMPTY 4) (EMPTY 4).

(** ** Finite quantification over octets and indices *)

Lemma u8_forall (P : Z -> bool) :
  forallb P (seqZ 0 256) = true -> forall x, u8_ok x -> P x = true.
Proof.
  intros H x Hx. rewrite forallb_forall in H. apply H.
  apply list_elem_of_In, elem_of_seqZ. unfold u8_ok in Hx. lia.
Qed.

Lemma len_forall (P : Z -> bool) :
  forallb P (seqZ 0 8) = true -> forall l, 0 <= l <= 7 -> P l = true.
Proof.
  intros H l Hl. rewrite forallb_forall in H. apply H.
  apply list_elem_of_In, elem_of_seqZ. lia.
Qed.

(** Evaluate a boolean statement on every octet and every prefix length. *)
Lemma u8_len_forall (P : Z -> Z -> bool) :
  forallb (fun o => forallb (P o) (seqZ 0 8)) (seqZ 0 256) = true ->
  forall o l, u8_ok o -> 0 <= l <= 7 -> P o l = true.
Proof.
  intros H o l Ho Hl. apply (u8_forall (fun o => forallb (P o) (seqZ 0 8))) in Ho; [|done].
  by apply (len_forall (P o)).
Qed.

(** ** Specification of the encoding *)

(** The index of the first [l] bits of [o], as a total function. *)
Definition fp (o l : Z) : Z := Z.shiftr o (8 - l) + 2 ^ l.

Definition index_ok (i : Z) : Prop := 1 <= i <= 255.

#[global] Instance outcome_eq_dec {A} `{!EqDecision A} : EqDecision (outcome A).
Proof. solve_decision. Defined.

Lemma from_prefix_fp o l :
  u8_ok o -> 0 <= l <= 7 -> from_prefix o l = Ret (fp o l).
Proof.
  intros Ho Hl. apply (bool_decide_eq_true_1 _).
  revert o l Ho Hl. apply u8_len_forall. vm_compute. reflexivity.
Qed.

Lemma from_pfx_7_fp o : u8_ok o -> from_pfx_7 o = Ret (fp o 7).
Proof.
  intros Ho. apply (bool_decide_eq_true_1 _). revert o Ho.
  apply u8_forall. vm_compute. reflexivity.
Qed.

(** Everything known of the index of one prefix: its range, that [prefix]
    inverts it up to host bits, and its length. *)
Definition fp_facts (o l : Z) : bool :=
  bool_decide (2 ^ l <= fp o l) && bool_decide (fp o l < 2 ^ (l + 1)) &&
  bool_decide (idx_len (fp o l) = l + 1) &&
  bool_decide (prefix (fp o l) = (Z.land o (ushl 8 255 (8 - l)), l)) &&
  bool_decide (net_mask l = Ret (ushl 8 255 (8 - l))) &&
  bool_decide (fp (prefix (fp o l)).1 l = fp o l).

Lemma fp_facts_hold o l : u8_ok o -> 0 <= l <= 7 -> fp_facts o l = true.
Proof. apply u8_len_forall. vm_compute. reflexivity. Qed.

Section FpFacts.
Context (o l : Z) (Ho : u8_ok o) (Hl : 0 <= l <= 7).

Lemma fp_bounds : 2 ^ l <= fp o l < 2 ^ (l + 1).
Proof.
  pose proof (fp_facts_hold o l Ho Hl) as H. unfold fp_facts in H.
  rewrite !andb_true_iff, !bool_decide_eq_true in H. tauto.
Qed.

Lemma fp_idx_len : idx_len (fp o l) = l + 1.
Proof.
  pose proof (fp_facts_hold o l Ho Hl) as H. unfold fp_facts in H.
  rewrite !andb_true_iff, !bool_decide_eq_true in H. tauto.
Qed.

Lemma prefix_fp : prefix (fp o l) = (Z.land o (ushl 8 255 (8 - l)), l).
Proof.
  pose proof (fp_facts_hold o l Ho Hl) as H. unfold fp_facts in H.
  rewrite !andb_true_iff, !bool_decide_eq_true in H. tauto.
Qed.

Lemma fp_prefix_fp : fp (prefix (fp o l)).1 l = fp o l.
Proof.
  pose proof (fp_facts_hold o l Ho Hl) as H. unfold fp_facts in H.
  rewrite !andb_true_iff, !bool_decide_eq_true in H. tauto.
Qed.

Lemma net_mask_len : net_mask l = Ret (ushl 8 255 (8 - l)).
Proof.
  pose proof (fp_facts_hold o l Ho Hl) as H. unfold fp_facts in H.
  rewrite !andb_true_iff, !bool_decide_eq_true in H. tauto.
Qed.

Lemma fp_index_ok : index_ok (fp o l).
Proof.
  pose proof fp_bounds as [H1 H2]. unfold index_ok.
  assert (2 ^ 0 <= 2 ^ l) by (apply Z.pow_le_mono_r; lia).
  assert (2 ^ (l + 1) <= 2 ^ 8) by (apply Z.pow_le_mono_r; lia). lia.
Qed.
End FpFacts.

(** Longer prefixes of the same octet have larger indices. *)
Lemma fp_mono o o' l l' :
  u8_ok o -> u8_ok o' -> 0 <= l <= 7 -> 0 <= l' <= 7 -> l < l' -> fp o l < fp o' l'.
Proof.
  intros Ho Ho' Hl Hl' Hlt. pose proof (fp_bounds o l Ho Hl). pose proof (fp_bounds o' l' Ho' Hl').
  assert (2 ^ (l + 1) <= 2 ^ l') by (apply Z.pow_le_mono_r; lia). lia.
Qed.

Lemma fp_inj_len o o' l l' :
  u8_ok o -> u8_ok o' -> 0 <= l <= 7 -> 0 <= l' <= 7 -> fp o l = fp o' l' -> l = l'.
Proof.
  intros Ho Ho' Hl Hl' E. destruct (Z.lt_total l l') as [H|[H|H]]; [|done|].
  - pose proof (fp_mono o o' l l' Ho Ho' Hl Hl' H). lia.
  - pose proof (fp_mono o' o l' l Ho' Ho Hl' Hl H). lia.
Qed.

(** Indices agree exactly when the masked octets do. *)
Lemma fp_eq_mask o o' l :
  u8_ok o -> u8_ok o' -> 0 <= l <= 7 ->
  fp o l = fp o' l <-> Z.land o (ushl 8 255 (8 - l)) = Z.land o' (ushl 8 255 (8 - l)).
Proof.
  intros Ho Ho' Hl. split; intros E.
  - pose proof (prefix_fp o l Ho Hl) as H1. pose proof (prefix_fp o' l Ho' Hl) as H2.
    rewrite E in H1. congruence.
  - rewrite <- (fp_prefix_fp o l), <- (fp_prefix_fp o' l), !prefix_fp by done.
    simpl. by rewrite E.
Qed.

(** Every index is the index of its own prefix. *)
Lemma index_fp i :
  index_ok i ->
  u8_ok (prefix i).1 /\ 0 <= (prefix i).2 <= 7 /\ fp (prefix i).1 (prefix i).2 = i.
Proof.
  intros Hi.
  assert (u8_ok i) as Hu by (unfold u8_ok, index_ok in *; lia).
  apply (u8_forall (fun i => bool_decide (i = 0) ||
    (bool_decide (0 <= (prefix i).1) && bool_decide ((prefix i).1 < 2 ^ 8) &&
     bool_decide (0 <= (prefix i).2) && bool_decide ((prefix i).2 <= 7) &&
     bool_decide (fp (prefix i).1 (prefix i).2 = i)))) in Hu; [|vm_compute; reflexivity].
  rewrite orb_true_iff, !andb_true_iff, !bool_decide_eq_true in Hu.
  unfold u8_ok, index_ok in *. destruct Hu as [->|Hu]; [lia|]. tauto.
Qed.

(** ** The longest-prefix-match bitset *)

Lemma lpm_loop_spec fuel i e :
  wf 4 e -> u8_ok i ->
  exists e', lpm_loop fuel i e = Ret e' /\ wf 4 e' /\
    forall j, bit e' j = true <->
      bit e j = true \/
      exists m, (m < fuel)%nat /\ 0 < Z.shiftr i (Z.of_nat m) /\
                Z.of_nat j = Z.shiftr i (Z.of_nat m).
Proof.
  revert i e. induction fuel as [|fuel IH]; intros i e Hwf Hi; simpl.
  - exists e. split_and!; [done|apply Hwf..|]. intros j. split; [by left|].
    intros [?|(m & Hm & _)]; [done|lia].
  - case_decide as Hpos.
    + destruct (set_spec 4 e (Z.to_nat i)) as (e1 & -> & Hwf1 & Hb1);
        [done|unfold u8_ok in Hi; lia|]. mrun.
      assert (u8_ok (ushr i 1)) as Hi'.
      { unfold ushr, u8_ok in *. rewrite Z.shiftr_div_pow2 by lia. change (2 ^ 1) with 2.
        split; [apply Z.div_pos; lia|]. apply Z.div_lt_upper_bound; lia. }
      destruct (IH (ushr i 1) e1 Hwf1 Hi') as (e2 & -> & Hwf2 & Hb2).
      exists e2. split_and!; [done|apply Hwf2..|]. intros j.
      rewrite Hb2, Hb1, orb_true_iff, bool_decide_eq_true.
      assert (forall m : nat, Z.shiftr (ushr i 1) (Z.of_nat m) = Z.shiftr i (Z.of_nat (S m)))
        as Hsh.
      { intros m. unfold ushr. rewrite Z.shiftr_shiftr by lia. f_equal. lia. }
      split.
      * intros [[Hj|Hj]|(m & Hm & Hp & Hj)].
        -- right. exists O. rewrite Z.shiftr_0_r. split_and!; lia.
        -- by left.
        -- right. exists (S m). rewrite <- Hsh. split_and!; (done || lia).
      * intros [Hj|([|m] & Hm & Hp & Hj)].
        -- left. by right.
        -- left. left. rewrite Z.shiftr_0_r in Hj. lia.
        -- right. exists m. rewrite Hsh. split_and!; (done || lia).
    + exists e. split_and!; [done|apply Hwf..|]. intros j. split; [by left|].
      intros [?|(m & Hm & Hp & _)]; [done|].
      assert (i = 0) by (unfold u8_ok in Hi; lia). subst i.
      rewrite Z.shiftr_0_l in Hp. lia.
Qed.

Lemma shiftr_fp o k m :
  u8_ok o -> 0 <= m <= k -> k <= 7 -> Z.shiftr (fp o k) m = fp o (k - m).
Proof.
  intros Ho Hm Hk. unfold fp. rewrite !Z.shiftr_div_pow2 by lia.
  replace (2 ^ k) with (2 ^ (k - m) * 2 ^ m) by (rewrite <- Z.pow_add_r by lia; f_equal; lia).
  rewrite Z.div_add by lia. f_equal. rewrite Z.div_div, <- Z.pow_add_r by lia.
  do 2 f_equal. lia.
Qed.

(** [lpm] of a prefix's index selects exactly the indices of its covering
    prefixes, itself included. *)
Lemma lpm_spec o k :
  u8_ok o -> 0 <= k <= 7 ->
  exists e, lpm (fp o k) = Ret e /\ wf 4 e /\
    forall j, bit e j = true <-> exists l, 0 <= l <= k /\ Z.of_nat j = fp o l.
Proof.
  intros Ho Hk. unfold lpm. pose proof (fp_index_ok o k Ho Hk) as Hok.
  destruct (lpm_loop_spec 8 (fp o k) (EMPTY 4)) as (e & -> & Hwf & Hb).
  { apply wf_EMPTY. } { unfold u8_ok, index_ok in *. lia. }
  exists e. split_and!; [done|apply Hwf..|]. intros j. rewrite Hb, bit_EMPTY. split.
  - intros [?|(m & Hm & Hpos & Hj)]; [done|].
    destruct (Z.le_gt_cases (Z.of_nat m) k) as [Hle|Hgt].
    + exists (k - Z.of_nat m). split; [lia|]. by rewrite Hj, shiftr_fp by (done || lia).
    + pose proof (fp_bounds o k Ho Hk).
      assert (2 ^ (k + 1) <= 2 ^ Z.of_nat m) by (apply Z.pow_le_mono_r; lia).
      unfold index_ok in Hok.
      rewrite Z.shiftr_div_pow2, Z.div_small in Hpos by lia. lia.
  - intros (l & Hl & Hj). right. exists (Z.to_nat (k - l)).
    rewrite Z2Nat.id by lia. rewrite shiftr_fp by (done || lia).
    replace (k - (k - l)) with l by lia.
    pose proof (fp_index_ok o l Ho ltac:(lia)). unfold index_ok in *.
    split_and!; lia.
Qed.

(** ** The allotment bitsets *)

Section Allot.
Local Open Scope nat_scope.
Implicit Types (j x m : nat) (stack : list nat).

(** [x] lies in the binary tree below [j]. *)
Definition below (j x : nat) : Prop := exists m, x / 2 ^ m = j.

(** The number of indices below [j], nine bits deep. *)
Definition subtree (j : nat) : nat := 2 ^ (9 - Nat.log2 j) - 1.

Lemma below_step j x :
  below j x <-> x = j \/ below (j * 2) x \/ below (j * 2 + 1) x.
Proof.
  split.
  - intros [[|m] Hm].
    + left. by rewrite Nat.pow_0_r, Nat.div_1_r in Hm.
    + right. rewrite Nat.pow_succ_r', Nat.mul_comm, <- Nat.Div0.div_div in Hm.
      pose proof (Nat.div_mod_eq (x / 2 ^ m) 2).
      pose proof (Nat.mod_upper_bound (x / 2 ^ m) 2 ltac:(lia)).
      destruct (decide ((x / 2 ^ m) mod 2 = 0)); [left|right]; exists m; lia.
  - assert (forall m, x / 2 ^ S m = x / 2 ^ m / 2) as Hs.
    { intros m. by rewrite Nat.pow_succ_r', Nat.mul_comm, <- Nat.Div0.div_div. }
    intros [->|[[m Hm]|[m Hm]]].
    + exists 0. by rewrite Nat.pow_0_r, Nat.div_1_r.
    + exists (S m). rewrite Hs, Hm. by apply Nat.div_mul.
    + exists (S m). rewrite Hs, Hm, Nat.add_comm.
      rewrite Nat.div_add by lia. done.
Qed.

Lemma below_leaf j x : 256 <= j -> x < 512 -> below j x <-> x = j.
Proof.
  intros Hj Hx. rewrite below_step. split; [|tauto].
  assert (forall y, 512 <= y -> ~ below y x) as Hno.
  { intros y Hy [m Hm]. assert (x / 2 ^ m <= x); [|lia].
    assert (2 ^ m <> 0) by (apply Nat.pow_nonzero; lia).
    apply Nat.Div0.div_le_upper_bound. nia. }
  intros [?|[H|H]]; [done|exfalso; eapply Hno; [|exact H]; lia..].
Qed.

Lemma subtree_step j :
  0 < j < 256 -> subtree j = 1 + subtree (j * 2) + subtree (j * 2 + 1).
Proof.
  intros Hj. unfold subtree.
  rewrite (Nat.mul_comm j), Nat.log2_double, Nat.log2_succ_double by lia.
  assert (Nat.log2 j < 8) by (apply Nat.log2_lt_pow2; [lia|exact (proj2 Hj)]).
  replace (9 - Nat.log2 j) with (S (9 - S (Nat.log2 j))) by lia.
  rewrite Nat.pow_succ_r'. assert (0 < 2 ^ (9 - S (Nat.log2 j))); [|lia].
  apply Nat.neq_0_lt_0, Nat.pow_nonzero. lia.
Qed.

Lemma subtree_leaf j : 256 <= j < 512 -> subtree j = 1.
Proof.
  intros Hj. unfold subtree. rewrite (Nat.log2_unique j 8); [done|lia|].
  change (2 ^ 8) with 256. change (2 ^ 9) with 512. lia.
Qed.

(** [x] lies below some entry of the work list. *)
Definition below_any (stack : list nat) (x : nat) : Prop :=
  exists j, j ∈ stack /\ below j x.

Lemma below_any_nil x : ~ below_any [] x.
Proof. intros (j & Hj & _). by apply elem_of_nil in Hj. Qed.

Lemma below_any_push j stack x :
  below_any (j :: stack) x <-> x = j \/ below_any (stack ++ [j * 2; j * 2 + 1]) x.
Proof.
  unfold below_any. setoid_rewrite elem_of_app. setoid_rewrite elem_of_cons.
  pose proof (below_step j x) as Hbs. split.
  - intros (y & [->|Hy] & Hbel); [|eauto].
    apply Hbs in Hbel as [?|[?|?]]; [by left|right; eexists; split; [|done]; set_solver..].
  - intros [->|(y & [Hy|Hy] & Hbel)].
    + exists j. split; [by left|]. by rewrite below_step; left.
    + eauto.
    + exists j. split; [by left|]. set_solver.
Qed.

Lemma below_any_leaf j stack x :
  256 <= j -> x < 512 -> below_any (j :: stack) x <-> x = j \/ below_any stack x.
Proof.
  intros Hj Hx. unfold below_any. setoid_rewrite elem_of_cons.
  pose proof (below_leaf j x Hj Hx) as Hl. split.
  - intros (y & [->|Hy] & Hbel); [left; tauto|eauto].
  - intros [->|(y & Hy & Hbel)]; [|eauto]. exists j. tauto.
Qed.

Lemma subtree_pos j : 0 < j < 512 -> 1 <= subtree j.
Proof.
  intros Hj. destruct (decide (j < 256));
    [rewrite subtree_step by lia|rewrite subtree_leaf by lia]; lia.
Qed.

Lemma allot_loop_spec fuel stack len p f :
  wf 4 p -> wf 4 f -> Forall (fun j => 0 < j < 512) stack ->
  sum_list_with subtree stack <= fuel ->
  len + sum_list_with (fun j => subtree j - 1) stack <= 511 ->
  exists p' f', allot_loop fuel stack len p f = Ret (p', f') /\ wf 4 p' /\ wf 4 f' /\
    (forall x, bit p' x = true <-> bit p x = true \/ x < 256 /\ below_any stack x) /\
    (forall x, bit f' x = true <-> bit f x = true \/ x < 256 /\ below_any stack (256 + x)).
Proof.
  revert stack len p f. induction fuel as [|fuel IH]; intros stack len p f Hp Hf Hst Hfuel Hlen;
    destruct stack as [|j stack]; cbn [allot_loop].
  1,3: exists p, f; split_and!; [done..| |]; intros x;
    [pose proof (below_any_nil x)|pose proof (below_any_nil (256 + x))]; tauto.
  { exfalso. apply Forall_cons_1 in Hst as [Hj%subtree_pos _]. simpl in Hfuel. lia. }
  apply Forall_cons_1 in Hst as [Hj Hst]. simpl in Hfuel, Hlen. case_decide as Hlt.
  - destruct (set_spec 4 p j Hp ltac:(lia)) as (p1 & -> & Hp1 & Hb1). mrun.
    pose proof (subtree_step j ltac:(lia)).
    pose proof (subtree_pos (j * 2) ltac:(lia)). pose proof (subtree_pos (j * 2 + 1) ltac:(lia)).
    rewrite bool_decide_eq_true_2 by lia. mrun.
    destruct (IH (stack ++ [j * 2; j * 2 + 1]) (len + 2) p1 f) as
      (p2 & f2 & -> & Hp2 & Hf2 & Hbp & Hbf); [done|done| | | |].
    { apply Forall_app; split; [done|]. rewrite Forall_cons, Forall_singleton. lia. }
    1,2: rewrite sum_list_with_app; simpl; lia.
    exists p2, f2. split_and!; [done..| |]; intros x.
    + rewrite Hbp, Hb1, orb_true_iff, bool_decide_eq_true, below_any_push.
      split; [intros [[->|?]|?]|intros [?|(? & [->|?])]]; tauto.
    + rewrite Hbf, below_any_push.
      split; [intros [?|?]|intros [?|(? & [?|?])]]; (lia || tauto).
  - destruct (set_spec 4 f (j mod 256) Hf) as (f1 & -> & Hf1 & Hb1).
    { apply Nat.mod_upper_bound. lia. } mrun.
    rewrite subtree_leaf in Hfuel, Hlen by lia.
    assert (j mod 256 = j - 256) as Hmod.
    { replace j with (j - 256 + 1 * 256) at 1 by lia.
      rewrite Nat.Div0.mod_add. apply Nat.mod_small. lia. }
    destruct (IH stack len p f1) as (p2 & f2 & -> & Hp2 & Hf2 & Hbp & Hbf); [done..|lia|lia|].
    exists p2, f2. split_and!; [done..| |]; intros x.
    + rewrite Hbp. split; intros [?|[? Hx]]; [by left| |by left|]; right; (split; [done|]).
      * apply below_any_leaf; [lia|lia|by right].
      * apply below_any_leaf in Hx as [?|?]; (lia || done).
    + rewrite Hbf, Hb1, orb_true_iff, bool_decide_eq_true, Hmod.
      split; intros Hx.
      * destruct Hx as [[->|?]|[? Hx]]; [|by left|]; right; (split; [lia|]);
          apply below_any_leaf; (lia || auto).
      * destruct Hx as [?|[? Hx]]; [by left; right|].
        apply below_any_leaf in Hx as [?|?]; [left; left; lia|by right|lia|lia].
Qed.

(** The pair of bitsets of an index: the prefixes (up to /7) and the octets
    (/8) it covers. *)
Lemma allot_entry_spec idx :
  0 < idx < 256 ->
  exists p f, allot_entry idx = Ret (p, f) /\ wf 4 p /\ wf 4 f /\
    (forall x, bit p x = true <-> x < 256 /\ below idx x) /\
    (forall x, bit f x = true <-> x < 256 /\ below idx (256 + x)).
Proof.
  intros Hi. unfold allot_entry.
  assert (subtree idx <= 511) as Hsz.
  { unfold subtree. change 511 with (2 ^ 9 - 1).
    apply Nat.sub_le_mono_r, Nat.pow_le_mono_r; lia. }
  destruct (allot_loop_spec 512 [idx] 1 (EMPTY 4) (EMPTY 4)) as
    (p & f & -> & Hp & Hf & Hbp & Hbf); [apply wf_EMPTY..| | | |]; simpl; [|lia|lia|].
  { rewrite Forall_singleton. lia. }
  assert (forall x, below_any [idx] x <-> below idx x) as Hone.
  { intros x. split; [intros (j & ->%list_elem_of_singleton & ?); done|].
    exists idx. split; [set_solver|done]. }
  exists p, f. split_and!; [done..| |]; intros x.
  - rewrite Hbp, bit_EMPTY, Hone. intuition discriminate.
  - rewrite Hbf, bit_EMPTY, Hone. intuition discriminate.
Qed.
End Allot.

(** ** Properties *)

Local Close Scope Z_scope.

(** [range] of an index is the aligned block of octets of its prefix. *)
Lemma range_fp o l :
  u8_ok o -> (0 <= l <= 7)%Z ->
  range (fp o l) = Ret (o / 2 ^ (8 - l) * 2 ^ (8 - l), o / 2 ^ (8 - l) * 2 ^ (8 - l) + 2 ^ (8 - l) - 1)%Z.
Proof.
  intros Ho Hl. apply (bool_decide_eq_true_1 _). revert o l Ho Hl.
  apply u8_len_forall. vm_compute. reflexivity.
Qed.

Lemma masked_fp o l :
  u8_ok o -> (0 <= l <= 7)%Z -> fp o l = (o / 2 ^ (8 - l) + 2 ^ l)%Z.
Proof.
  intros Ho Hl. apply (bool_decide_eq_true_1 _). revert o l Ho Hl.
  apply u8_len_forall. vm_compute. reflexivity.
Qed.

Lemma block_div (o x k : Z) :
  ((0 < k) -> (o / k * k <= x <= o / k * k + k - 1) <-> x / k = o / k)%Z.
Proof.
  intros Hk. split.
  - intros Hx. symmetry. apply (Z.div_unique_pos x k (o / k) (x - o / k * k)); lia.
  - intros <-. pose proof (Z.div_mod x k). pose proof (Z.mod_pos_bound x k). lia.
Qed.

(** Base indices are the prefixes within an octet: [from_prefix] and
    [prefix] are inverse up to the host bits, and [range] is the interval of
    the octets that have the prefix. *)
Theorem base_index_roundtrip o l :
  u8_ok o -> (0 <= l <= 7)%Z ->
  exists i first last, from_prefix o l = Ret i /\ index_ok i /\
    prefix i = (Z.land o (ushl 8 255 (8 - l)), l) /\
    from_prefix (prefix i).1 (prefix i).2 = Ret i /\
    range i = Ret (first, last) /\
    forall x, u8_ok x -> ((first <= x <= last)%Z <-> from_prefix x l = Ret i).
Proof.
  intros Ho Hl. pose proof (fp_index_ok o l Ho Hl) as Hok.
  eexists (fp o l), _, _.
  split_and!; [by apply from_prefix_fp|done|by apply prefix_fp| |by apply range_fp|].
  - destruct (index_fp _ Hok) as (Hu & Hl' & E). by rewrite from_prefix_fp, E.
  - intros x Hx. rewrite block_div, from_prefix_fp, !masked_fp by (done || lia).
    split; [by intros ->|intros [=]; lia].
Qed.

Lemma base_index_roundtrip_witness :
  exists i first last, from_prefix 200 3 = Ret i /\ index_ok i /\
    prefix i = (Z.land 200 (ushl 8 255 (8 - 3)), 3%Z) /\
    from_prefix (prefix i).1 (prefix i).2 = Ret i /\
    range i = Ret (first, last) /\
    forall x, u8_ok x -> ((first <= x <= last)%Z <-> from_prefix x 3 = Ret i).
Proof. apply base_index_roundtrip; [unfold u8_ok|]; lia. Defined.

(** The longest-match table of an index holds exactly the indices of the
    prefixes of the same octet that are no longer. *)
Theorem lpm_table_covers o k :
  u8_ok o -> (0 <= k <= 7)%Z ->
  exists i e, from_prefix o k = Ret i /\ lpm i = Ret e /\
    forall j, bit e j = true <-> exists l, (0 <= l <= k)%Z /\ from_prefix o l = Ret (Z.of_nat j).
Proof.
  intros Ho Hk. destruct (lpm_spec o k Ho Hk) as (e & He & _ & Hb).
  exists (fp o k), e. split_and!; [by apply from_prefix_fp|done|]. intros j. rewrite Hb.
  split; intros (l & Hl & E); exists l; (split; [done|]).
  - rewrite from_prefix_fp by (done || lia). by rewrite E.
  - rewrite from_prefix_fp in E by (done || lia). congruence.
Qed.

Lemma lpm_table_covers_witness :
  exists i e, from_prefix 200 5 = Ret i /\ lpm i = Ret e /\
    forall j, bit e j = true <-> exists l, (0 <= l <= 5)%Z /\ from_prefix 200 l = Ret (Z.of_nat j).
Proof. apply lpm_table_covers; [unfold u8_ok|]; lia. Defined.

(** The allotment of an index is its whole subtree in the binary tree of
    base indices, the index itself included: the prefixes below 256 in one
    set, the full octets in the other; the work list of 512 entries is enough. *)
Theorem allot_entry_subtree i :
  0 < i < 256 ->
  exists p f, allot_entry i = Ret (p, f) /\
    (forall x, bit p x = true <-> x < 256 /\ below i x) /\
    (forall x, bit f x = true <-> x < 256 /\ below i (256 + x)) /\ bit p i = true.
Proof.
  intros Hi. destruct (allot_entry_spec i Hi) as (p & f & E & _ & _ & Hp & Hf).
  exists p, f. split_and!; [done..|]. apply Hp. split; [lia|]. exists 0.
  by rewrite Nat.pow_0_r, Nat.div_1_r.
Qed.

Lemma allot_entry_subtree_witness :
  exists p f, allot_entry 65 = Ret (p, f) /\
    (forall x, bit p x = true <-> x < 256 /\ below 65 x) /\
    (forall x, bit f x = true <-> x < 256 /\ below 65 (256 + x)) /\ bit p 65 = true.
Proof. apply allot_entry_subtree. lia. Defined.
