(* ===== verification/IpNet.v ===== *)
(** * IpNet: addresses, prefixes and the path helpers of the trie

    [std::net::IpAddr] by its octets, the [ipnet] crate's [IpNet] as an
    interface (the crate is not part of the repository), and the helpers of
    src/ts_bart/src/iptrie/util.rs.

    What is relied on of [ipnet] are the laws of [IpNetLaws]: a network is an
    address and a prefix length within the address's width, [trunc] zeroes the
    host bits, [contains] compares the network bits of addresses of the same
    family, [new_assert] panics exactly on an excessive prefix length. *)

From stdpp Require Import countable.
From S2P Require Import Prelude Bitset BaseIndex.

(** ** Addresses *)

Inductive IpAddr :=
| V4 (octets : list Z)
| V6 (octets : list Z).

#[global] Instance IpAddr_eq_dec : EqDecision IpAddr.
Proof. solve_decision. Defined.

(** [ip_octets] of util.rs: the address's bytes, as a slice. *)
Definition ip_octets (ip : IpAddr) : list Z :=
  match ip with V4 os | V6 os => os end.

Definition is_ipv4 (ip : IpAddr) : bool :=
  match ip with V4 _ => true | V6 _ => false end.

(** Octets of an address: four or sixteen. *)
Definition width (v4 : bool) : nat := if v4 then 4 else 16.

Definition mk_addr (v4 : bool) (os : list Z) : IpAddr := if v4 then V4 os else V6 os.

Definition ip_ok (ip : IpAddr) : Prop :=
  length (ip_octets ip) = width (is_ipv4 ip) /\ Forall u8_ok (ip_octets ip).

(** ** Masks, octet by octet *)

(** The mask keeping the first [l] bits of an octet (all of it from 8 on). *)
Definition mask8 (l : nat) : Z := ushl 8 255 (8 - Z.of_nat (l `min` 8)).

Fixpoint mask_octets (l : nat) (os : list Z) : list Z :=
  match os with
  | [] => []
  | o :: os => Z.land o (mask8 l) :: mask_octets (l - 8) os
  end.

Definition mask_addr (l : nat) (ip : IpAddr) : IpAddr :=
  mk_addr (is_ipv4 ip) (mask_octets l (ip_octets ip)).

(** ** The interface of the ipnet crate *)

Class IpNetOps := {
  IpNet : Type;
  IpNet_eq_dec :: EqDecision IpNet;
  addr : IpNet -> IpAddr;
  prefix_len : IpNet -> nat;
  new_assert : IpAddr -> nat -> outcome IpNet;
  trunc : IpNet -> IpNet;
  net_contains : IpNet -> IpAddr -> bool;
}.

Class IpNetLaws `{!IpNetOps} : Prop := {
  addr_ok n : ip_ok (addr n);
  prefix_len_ok n : prefix_len n <= 8 * width (is_ipv4 (addr n));
  ipnet_ext n m : addr n = addr m -> prefix_len n = prefix_len m -> n = m;
  new_assert_ok ip l :
    ip_ok ip -> l <= 8 * width (is_ipv4 ip) ->
    exists n, new_assert ip l = Ret n /\ addr n = ip /\ prefix_len n = l;
  new_assert_panics ip l : 8 * width (is_ipv4 ip) < l -> new_assert ip l = Panic;
  trunc_len n : prefix_len (trunc n) = prefix_len n;
  trunc_addr n : addr (trunc n) = mask_addr (prefix_len n) (addr n);
  net_contains_iff n ip :
    ip_ok ip ->
    net_contains n ip = true <->
    is_ipv4 ip = is_ipv4 (addr n) /\
    mask_octets (prefix_len n) (ip_octets ip)
      = mask_octets (prefix_len n) (ip_octets (addr n));
}.

(** ** util.rs *)

Definition MAX_DEPTH : nat := 16.
Definition DEPTH_MASK : nat := MAX_DEPTH - 1.

(** [StridePath::first_chunk::<4>] is total on a 16-octet path. *)
Definition ip_from_path (path : list Z) (is4 : bool) : IpAddr :=
  if is4 then V4 (take 4 path) else V6 path.

Section Util.
Context `{!IpNetOps}.

Definition stride_count_and_overflow (prefix : IpNet) : nat * nat :=
  let len := prefix_len prefix in (len / 8, len mod 8).

(** [octet_count - 1] underflows for a prefix shorter than one octet. *)
Definition is_fringe (depth : nat) (prefix : IpNet) : outcome bool :=
  let '(octet_count, overflow_bits) := stride_count_and_overflow prefix in
  last ← usub octet_count 1;
  Ret (bool_decide (depth = last) && bool_decide (overflow_bits = 0)).

Definition prefix_from_path (path_octets : list Z) (depth : nat) (ipv4 : bool) (idx : Z)
    : outcome IpNet :=
  let depth := Nat.land depth DEPTH_MASK in
  let path := replicate MAX_DEPTH 0%Z in
  let '(octet, idx_len) := prefix idx in
  let octet_depth := length path_octets `min` depth in
  let path := take octet_depth path_octets ++ drop octet_depth path in
  path ← upd path depth octet;
  new_assert (ip_from_path path ipv4) (depth * 8 + Z.to_nat idx_len).

Definition fringe_prefix (path_octets : list Z) (depth : nat) (ipv4 : bool) (last_octet : Z)
    : outcome IpNet :=
  let depth := Nat.land depth DEPTH_MASK in
  let path := (fun i =>
    if decide (depth < i) then 0%Z
    else if decide (i = depth) then last_octet
    else default 0%Z (path_octets !! i)) <$> seq 0 MAX_DEPTH in
  new_assert (ip_from_path path ipv4) ((depth + 1) * 8).
End Util.

(** ** Facts on masks *)

Lemma mask8_full l : 8 <= l -> mask8 l = 255%Z.
Proof. intros. unfold mask8. rewrite Nat.min_r by lia. reflexivity. Qed.

Lemma land_255 o : u8_ok o -> Z.land o 255 = o.
Proof.
  intros Ho. change 255%Z with (Z.ones 8). rewrite Z.land_ones by lia.
  apply Z.mod_small. exact Ho.
Qed.

Lemma land_mask8_full o l : u8_ok o -> 8 <= l -> Z.land o (mask8 l) = o.
Proof. intros. rewrite mask8_full by done. by apply land_255. Qed.

Lemma land_u8 o m : u8_ok o -> (0 <= m)%Z -> u8_ok (Z.land o m).
Proof.
  intros Ho Hm. unfold u8_ok in *. split; [apply Z.land_nonneg; lia|].
  assert (Z.land o m <= o)%Z; [|lia].
  rewrite <- (Z.land_diag o) at 2.
  apply Z.ldiff_le; [apply Z.land_nonneg; lia|].
  rewrite Z.land_diag. apply Z.bits_inj'. intros k Hk.
  rewrite Z.ldiff_spec, Z.land_spec, Z.testbit_0_l. by destruct (Z.testbit o k), (Z.testbit m k).
Qed.

Lemma mask8_nonneg l : (0 <= mask8 l)%Z.
Proof. unfold mask8, ushl. apply Z.land_nonneg. right. done. Qed.

Lemma mask8_idem o l : Z.land (Z.land o (mask8 l)) (mask8 l) = Z.land o (mask8 l).
Proof. by rewrite <- Z.land_assoc, Z.land_diag. Qed.

Lemma length_mask_octets l os : length (mask_octets l os) = length os.
Proof. revert l. induction os; intros l; simpl; [done|]. by f_equal. Qed.

Lemma mask_octets_ok l os : Forall u8_ok os -> Forall u8_ok (mask_octets l os).
Proof.
  intros Hos. revert l. induction Hos as [|o os Ho Hos IH]; intros l; simpl; constructor.
  - apply land_u8; [done|apply mask8_nonneg].
  - apply IH.
Qed.

Lemma mask_octets_idem l os : mask_octets l (mask_octets l os) = mask_octets l os.
Proof.
  revert l. induction os as [|o os IH]; intros l; simpl; [done|].
  by rewrite mask8_idem, IH.
Qed.

Lemma mask8_0 : mask8 0 = 0%Z.
Proof. reflexivity. Qed.

Lemma mask_octets_0 os : mask_octets 0 os = replicate (length os) 0%Z.
Proof.
  induction os as [|o os IH]; [done|]. cbn [mask_octets length replicate].
  change (0 - 8) with 0. by rewrite mask8_0, Z.land_0_r, IH.
Qed.

(** Masking to a shorter length absorbs masking to a longer one. *)
Lemma mask8_min o l l' : l <= l' -> Z.land (Z.land o (mask8 l')) (mask8 l) = Z.land o (mask8 l).
Proof.
  intros Hl. rewrite <- Z.land_assoc. f_equal. unfold mask8, ushl.
  apply Z.bits_inj'. intros k Hk. rewrite !Z.land_spec, !Z.shiftl_spec by lia.
  change 255%Z with (Z.ones 8). rewrite !Z.testbit_ones by lia.
  repeat match goal with |- context [Z.leb ?a ?b] => destruct (Z.leb_spec a b) end;
  repeat match goal with |- context [Z.ltb ?a ?b] => destruct (Z.ltb_spec a b) end;
  simpl; try done; lia.
Qed.

Lemma mask_octets_min l l' os :
  l <= l' -> mask_octets l (mask_octets l' os) = mask_octets l os.
Proof.
  revert l l'. induction os as [|o os IH]; intros l l' Hl; simpl; [done|].
  rewrite mask8_min, IH by lia. done.
Qed.

Lemma mk_addr_octets v4 os : ip_octets (mk_addr v4 os) = os.
Proof. by destruct v4. Qed.

Lemma mk_addr_is_ipv4 v4 os : is_ipv4 (mk_addr v4 os) = v4.
Proof. by destruct v4. Qed.

Lemma mk_addr_eta ip : mk_addr (is_ipv4 ip) (ip_octets ip) = ip.
Proof. by destruct ip. Qed.

#[export] Instance IpAddr_countable : Countable IpAddr :=
  inj_countable' (fun ip => (is_ipv4 ip, ip_octets ip)) (fun x => mk_addr x.1 x.2) mk_addr_eta.

Lemma mask_addr_ok l ip : ip_ok ip -> ip_ok (mask_addr l ip).
Proof.
  intros [Hl Ho]. unfold ip_ok, mask_addr.
  rewrite mk_addr_octets, mk_addr_is_ipv4, length_mask_octets.
  split; [done|by apply mask_octets_ok].
Qed.
