(* ===== verification/Stride.v ===== *)
(** * Stride: one level of the trie

    Models src/ts_bart/src/node/: [Child], the [StrideOps] trait with its
    super-traits and extension methods, [NodePrefixIter], and [Node], the
    implementation over two [Array256]s.

    The trait is a class of operations; what the trie relies on is the class
    [StrideLaws], phrased over the views [child_at] and [prefix_at] of a node.
    [Node] discharges it. A [&mut] result is the value read and the function
    that writes it back. *)

From S2P Require Import Prelude Bitset Array256 BaseIndex IpNet.

(** ** Child *)

Inductive Child `{!IpNetOps} (N T : Type) :=
| Path (node : N)
| Leaf (prefix : IpNet) (value : T)
| Fringe (value : T).
Arguments Path {_ N T} _.
Arguments Leaf {_ N T} _ _.
Arguments Fringe {_ N T} _.

Section ChildOps.
Context `{!IpNetOps} {N M T : Type}.

Definition map_node (f : N -> M) (c : Child N T) : Child M T :=
  match c with
  | Path node => Path (f node)
  | Leaf prefix value => Leaf prefix value
  | Fringe t => Fringe t
  end.

Definition into_value (c : Child N T) : option T :=
  match c with
  | Leaf _ value | Fringe value => Some value
  | Path _ => None
  end.

Definition into_node (c : Child N T) : option N :=
  match c with Path node => Some node | _ => None end.
End ChildOps.

(** ** The stride traits *)

(** [StrideBase], [PrefixReadOps], [PrefixOps] and [StrideOps]. *)
Class StrideOps `{!IpNetOps} (N T : Type) := {
  node_default : N;
  prefix_bitset : N -> list Z;
  prefix_count : N -> nat;
  lookup_index : N -> Z -> outcome (option (Z * T));
  get_prefix_exact : N -> Z -> outcome (option T);
  insert_prefix : N -> Z -> T -> outcome (N * option T);
  remove_prefix : N -> Z -> outcome (N * option T);
  get_prefix_exact_mut : N -> Z -> outcome (option (T * (T -> N)));
  direct_prefixes : N -> outcome (list (Z * T));
  child_bitset : N -> list Z;
  child_count : N -> nat;
  get_child : N -> Z -> outcome (option (Child N T));
  get_child_mut : N -> Z -> outcome (option (Child N T * (Child N T -> N)));
  insert_child : N -> Z -> Child N T -> outcome (N * option (Child N T));
  remove_child : N -> Z -> outcome (N * option (Child N T));
  direct_children : N -> list (Z * Child N T);
}.
#[global] Hint Mode StrideOps - + - : typeclass_instances.

(** ** Extension methods and the prefix iterator *)

Section Ext.
Context `{!IpNetOps} {N T : Type} `{!StrideOps N T}.
Implicit Types n : N.

Definition stride_is_empty n : bool :=
  bool_decide (prefix_count n = 0) && bool_decide (child_count n = 0).

Definition with_child n (addr : Z) (child : Child N T) : outcome N :=
  '(n', _) ← insert_child n addr child; Ret n'.

Definition with_prefix n (idx : Z) (value : T) : outcome N :=
  '(n', _) ← insert_prefix n idx value; Ret n'.

Definition into_child n : Child N T := Path n.

Definition supersets_prefix n (idx : Z) : outcome bool :=
  m ← lpm idx;
  Ret (Bitset.intersects (prefix_bitset n) m).

(** [PrefixOpsExt::lookup] *)
Definition lookup_value n (idx : Z) : outcome (option T) :=
  r ← lookup_index n idx;
  Ret (snd <$> (r : option (Z * T))).

(** [NodePrefixIter]: the node and the bits still to yield. *)
Record NodePrefixIter := mkNodePrefixIter {
  iter_node : N;
  yield_state : list Z;
}.

Definition for_octet n (octet : Z) : outcome NodePrefixIter :=
  idx ← from_pfx_7 octet;
  m ← lpm idx;
  Ret (mkNodePrefixIter n (intersect_inplace (prefix_bitset n) m)).

Definition matching_prefixes n (octet : Z) : outcome NodePrefixIter := for_octet n octet.

(** The loop of [next]: every round clears a bit of [yield_state], so 256
    rounds and a last test are enough. *)
Fixpoint prefix_iter_loop (fuel : nat) (it : NodePrefixIter)
    : outcome (option (Z * T) * NodePrefixIter) :=
  match fuel with
  | O => Panic
  | S fuel =>
      last ← last_set (yield_state it);
      match last with
      | None => Ret (None, it)
      | Some bit =>
          ys ← Bitset.clear (yield_state it) bit;
          let it := mkNodePrefixIter (iter_node it) ys in
          index ← new (Z.of_nat bit);
          r ← get_prefix_exact (iter_node it) index;
          match r with
          | Some val => Ret (Some (index, val), it)
          | None => prefix_iter_loop fuel it
          end
      end
  end.

Definition prefix_iter_next (it : NodePrefixIter) : outcome (option (Z * T) * NodePrefixIter) :=
  prefix_iter_loop 257 it.
End Ext.
Arguments NodePrefixIter N : clear implicits.

(** ** Node *)

Inductive Node `{!IpNetOps} (T : Type) :=
  mkNode (prefixes : Array256 T) (children : Array256 (Child (Node T) T)).
Arguments mkNode {_ T} _ _.

Module Node_impl.
Section NodeOps.
Context `{!IpNetOps} {T : Type}.
Implicit Types n : Node T.

Definition prefixes n : Array256 T := let 'mkNode p _ := n in p.
Definition children n : Array256 (Child (Node T) T) := let 'mkNode _ c := n in c.

Definition EMPTY_node : Node T := mkNode empty_array empty_array.

Definition node_is_empty n : bool :=
array_is_empty (prefixes n) && array_is_empty (children n).

Definition prefix_bitset n : list Z := bitset (prefixes n).
Definition prefix_count n : nat := array_len (prefixes n).

Definition lookup_index n (idx : Z) : outcome (option (Z * T)) :=
m ← lpm idx;
match array_intersection_top (prefixes n) m with
| None => Ret None
| Some top =>
    match try_new top with
    | None => Ret None
    | Some i => v ← Array256.get (prefixes n) top; Ret (pair i <$> (v : option T))
    end
end.

Definition get_prefix_exact n (idx : Z) : outcome (option T) :=
Array256.get (prefixes n) idx.

Definition insert_prefix n (idx : Z) (value : T) : outcome (Node T * option T) :=
'(p, old) ← Array256.insert (prefixes n) idx value;
Ret (mkNode p (children n), old).

Definition remove_prefix n (idx : Z) : outcome (Node T * option T) :=
'(p, old) ← Array256.remove (prefixes n) idx;
Ret (mkNode p (children n), old).

Definition get_prefix_exact_mut n (idx : Z) : outcome (option (T * (T -> Node T))) :=
r ← get_mut (prefixes n) idx;
Ret ((fun '(v, w) => (v, fun v' => mkNode (w v') (children n))) <$> (r : option _)).

Definition child_bitset n : list Z := bitset (children n).
Definition child_count n : nat := array_len (children n).

(** The container of a path child ([Box] or inline) is transparent. *)
Definition insert_child n (addr : Z) (child : Child (Node T) T)
  : outcome (Node T * option (Child (Node T) T)) :=
'(c, old) ← Array256.insert (children n) addr child;
Ret (mkNode (prefixes n) c, old).

Definition direct_children n : list (Z * Child (Node T) T) := Array256.iter (children n).

Definition remove_child n (addr : Z) : outcome (Node T * option (Child (Node T) T)) :=
'(c, old) ← Array256.remove (children n) addr;
Ret (mkNode (prefixes n) c, old).

Definition get_child n (addr : Z) : outcome (option (Child (Node T) T)) :=
Array256.get (children n) addr.

Definition get_child_mut n (addr : Z)
  : outcome (option (Child (Node T) T * (Child (Node T) T -> Node T))) :=
r ← get_mut (children n) addr;
Ret ((fun '(c, w) => (c, fun c' => mkNode (prefixes n) (w c'))) <$> (r : option _)).

Definition direct_prefixes n : outcome (list (Z * T)) :=
mfoldl (fun acc '(i, value) => idx ← new i; Ret (acc ++ [(idx, value)])) []
  (Array256.iter (prefixes n)).
End NodeOps.
End Node_impl.

#[export] Instance Node_StrideOps `{!IpNetOps} {T} : StrideOps (Node T) T := {|
  node_default := Node_impl.EMPTY_node;
  prefix_bitset := Node_impl.prefix_bitset;
  prefix_count := Node_impl.prefix_count;
  lookup_index := Node_impl.lookup_index;
  get_prefix_exact := Node_impl.get_prefix_exact;
  insert_prefix := Node_impl.insert_prefix;
  remove_prefix := Node_impl.remove_prefix;
  get_prefix_exact_mut := Node_impl.get_prefix_exact_mut;
  direct_prefixes := Node_impl.direct_prefixes;
  child_bitset := Node_impl.child_bitset;
  child_count := Node_impl.child_count;
  get_child := Node_impl.get_child;
  get_child_mut := Node_impl.get_child_mut;
  insert_child := Node_impl.insert_child;
  remove_child := Node_impl.remove_child;
  direct_children := Node_impl.direct_children;
|}.

(** ** What a stride implementation promises *)

(** The views of a node: its child per octet, its value per base index. *)
Class StrideView `{!IpNetOps} (N T : Type) := {
  stride_wf : N -> Prop;
  child_at : N -> Z -> option (Child N T);
  prefix_at : N -> Z -> option T;
}.
#[global] Hint Mode StrideView - + - : typeclass_instances.

Section Views.
Context `{!IpNetOps} {N T : Type} `{!StrideView N T}.
Implicit Types n : N.

(** [n'] is [n] with the child at [o] replaced. *)
Definition child_updated n n' (o : Z) (c : option (Child N T)) : Prop :=
  stride_wf n' /\
  (forall o', child_at n' o' = if decide (o' = o) then c else child_at n o') /\
  (forall i, prefix_at n' i = prefix_at n i).

(** [n'] is [n] with the prefix value at [i] replaced. *)
Definition prefix_updated n n' (i : Z) (v : option T) : Prop :=
  stride_wf n' /\
  (forall o, child_at n' o = child_at n o) /\
  (forall j, prefix_at n' j = if decide (j = i) then v else prefix_at n j).

Definition has_child n (i : nat) : bool := bool_decide (is_Some (child_at n (Z.of_nat i))).
Definition has_prefix n (i : nat) : bool := bool_decide (is_Some (prefix_at n (Z.of_nat i))).

(** The prefixes of a node that cover [octet] and are shorter than [k]
    bits, most specific first. *)
Definition covers n (octet : Z) (k : nat) : list (Z * T) :=
  omap (fun l => pair (fp octet (Z.of_nat l)) <$> prefix_at n (fp octet (Z.of_nat l)))
    (rev (seq 0 k)).
End Views.

Class StrideLaws `{!IpNetOps} (N T : Type) `{!StrideOps N T} `{!StrideView N T} : Prop := {
  node_default_law :
    stride_wf (node_default : N) /\ (forall o, child_at (node_default : N) o = None) /\
    forall i, prefix_at (node_default : N) i = None;
  child_at_ok (n : N) o c : stride_wf n -> child_at n o = Some c -> u8_ok o;
  prefix_at_ok (n : N) i v : stride_wf n -> prefix_at n i = Some v -> index_ok i;
  child_bitset_law (n : N) :
    stride_wf n ->
    Bitset.wf 4 (child_bitset n) /\ forall i, bit (child_bitset n) i = has_child n i;
  prefix_bitset_law (n : N) :
    stride_wf n ->
    Bitset.wf 4 (prefix_bitset n) /\ forall i, bit (prefix_bitset n) i = has_prefix n i;
  child_count_law (n : N) :
    stride_wf n -> child_count n = count_upto (has_child n) 256;
  prefix_count_law (n : N) :
    stride_wf n -> prefix_count n = count_upto (has_prefix n) 256;
  get_child_law (n : N) o : stride_wf n -> u8_ok o -> get_child n o = Ret (child_at n o);
  get_child_mut_law (n : N) o :
    stride_wf n -> u8_ok o ->
    match child_at n o with
    | Some c => exists w, get_child_mut n o = Ret (Some (c, w)) /\
        forall c', child_updated n (w c') o (Some c')
    | None => get_child_mut n o = Ret None
    end;
  insert_child_law (n : N) o c :
    stride_wf n -> u8_ok o ->
    exists n', insert_child n o c = Ret (n', child_at n o) /\ child_updated n n' o (Some c);
  remove_child_law (n : N) o :
    stride_wf n -> u8_ok o ->
    exists n', remove_child n o = Ret (n', child_at n o) /\ child_updated n n' o None;
  direct_children_law (n : N) :
    stride_wf n -> NoDup (direct_children n).*1 /\
    forall o c, (o, c) ∈ direct_children n <-> child_at n o = Some c;
  lookup_index_law (n : N) o k :
    stride_wf n -> u8_ok o -> k < 8 ->
    lookup_index n (fp o (Z.of_nat k)) = Ret (head (covers n o (S k)));
  get_prefix_exact_law (n : N) i :
    stride_wf n -> index_ok i -> get_prefix_exact n i = Ret (prefix_at n i);
  get_prefix_exact_mut_law (n : N) i :
    stride_wf n -> index_ok i ->
    match prefix_at n i with
    | Some v => exists w, get_prefix_exact_mut n i = Ret (Some (v, w)) /\
        forall v', prefix_updated n (w v') i (Some v')
    | None => get_prefix_exact_mut n i = Ret None
    end;
  insert_prefix_law (n : N) i v :
    stride_wf n -> index_ok i ->
    exists n', insert_prefix n i v = Ret (n', prefix_at n i) /\ prefix_updated n n' i (Some v);
  remove_prefix_law (n : N) i :
    stride_wf n -> index_ok i ->
    exists n', remove_prefix n i = Ret (n', prefix_at n i) /\ prefix_updated n n' i None;
  direct_prefixes_law (n : N) :
    stride_wf n -> exists l, direct_prefixes n = Ret l /\ NoDup l.*1 /\
    forall i v, (i, v) ∈ l <-> prefix_at n i = Some v;
}.

(** ** The covering prefixes of an octet *)

Section Covers.
Context `{!IpNetOps} {N T : Type} `{!StrideView N T}.
Implicit Types n : N.

Lemma covers_0 n o : covers n o 0 = [].
Proof. reflexivity. Qed.

Lemma covers_S n o k :
  covers n o (S k) =
  match prefix_at n (fp o (Z.of_nat k)) with
  | Some v => (fp o (Z.of_nat k), v) :: covers n o k
  | None => covers n o k
  end.
Proof.
  unfold covers. rewrite seq_S, rev_app_distr. cbn [rev app omap list_omap].
  by destruct (prefix_at n _).
Qed.

(** A bitset holding exactly the covering indices below length [k]: its
    greatest element is the first covering prefix. *)
Lemma covers_top n o k bs r :
  u8_ok o -> k <= 8 ->
  (forall j, bit bs j = true <-> exists l, l < k /\ Z.of_nat j = fp o (Z.of_nat l) /\
     is_Some (prefix_at n (Z.of_nat j))) ->
  greatest_set bs r ->
  match r with
  | None => covers n o k = []
  | Some j => exists l v, l < k /\ Z.of_nat j = fp o (Z.of_nat l) /\
      prefix_at n (Z.of_nat j) = Some v /\ covers n o k = (Z.of_nat j, v) :: covers n o l
  end.
Proof.
  intros Ho Hk Hb Hr.
  assert (forall l v, l < k -> prefix_at n (fp o (Z.of_nat l)) = Some v ->
    bit bs (Z.to_nat (fp o (Z.of_nat l))) = true) as Hset.
  { intros l v Hl Hv. apply Hb. exists l.
    pose proof (fp_index_ok o (Z.of_nat l) Ho ltac:(lia)) as [? _].
    rewrite Z2Nat.id by lia. rewrite Hv. eauto. }
  destruct r as [j|]; simpl in Hr.
  - destruct Hr as [Hj Hgt]. apply Hb in Hj as (l & Hl & Ej & v & Hv).
    exists l, v. split_and!; [done..|].
    assert (forall m, m <= k -> l < m -> covers n o m = (Z.of_nat j, v) :: covers n o l)
      as Hall; [|by apply Hall].
    induction m as [|m IH]; intros Hm Hlm; [lia|]. rewrite covers_S.
    destruct (decide (m = l)) as [->|Hne].
    + rewrite <- Ej, Hv. done.
    + destruct (prefix_at n (fp o (Z.of_nat m))) as [v'|] eqn:E.
      * specialize (Hset m v' ltac:(lia) E). rewrite Hgt in Hset; [done|].
        pose proof (fp_mono o o (Z.of_nat l) (Z.of_nat m) Ho Ho ltac:(lia) ltac:(lia) ltac:(lia)).
        lia.
      * apply IH; lia.
  - assert (forall m, m <= k -> covers n o m = []) as Hall; [|by apply Hall].
    induction m as [|m IH]; intros Hm; [done|]. rewrite covers_S.
    destruct (prefix_at n (fp o (Z.of_nat m))) as [v'|] eqn:E; [|apply IH; lia].
    specialize (Hset m v' ltac:(lia) E). by rewrite Hr in Hset.
Qed.
End Covers.

(** ** [Node] keeps its promises *)

Section NodeLaws.
Context `{!IpNetOps} {T : Type}.
Implicit Types n : Node T.

(** The slot of an array at an octet. *)
Definition zslot {A} (a : Array256 A) (i : Z) : option A :=
  if decide (0 <= i)%Z then slot a (Z.to_nat i) else None.

#[export] Instance Node_StrideView : StrideView (Node T) T := {|
  stride_wf n := array_wf (Node_impl.prefixes n) /\ array_wf (Node_impl.children n) /\
                 slot (Node_impl.prefixes n) 0 = None;
  child_at n := zslot (Node_impl.children n);
  prefix_at n := zslot (Node_impl.prefixes n);
|}.

Lemma zslot_nat {A} (a : Array256 A) i : zslot a (Z.of_nat i) = slot a i.
Proof. unfold zslot. rewrite decide_True by lia. by rewrite Nat2Z.id. Qed.

Lemma zslot_u8 {A} (a : Array256 A) i : u8_ok i -> zslot a i = slot a (Z.to_nat i).
Proof. unfold u8_ok, zslot. intros. by rewrite decide_True by lia. Qed.

Lemma zslot_ok {A} (a : Array256 A) i v : array_wf a -> zslot a i = Some v -> u8_ok i.
Proof.
  intros Hwf. unfold zslot. case_decide; [|done]. intros Hs.
  assert (Z.to_nat i < 256); [|unfold u8_ok; lia].
  apply (bit_256 a); [done|]. by apply slot_is_Some; [|rewrite Hs].
Qed.

Lemma index_u8 i : index_ok i -> u8_ok i.
Proof. unfold index_ok, u8_ok. lia. Qed.

(** An update of a slot is an update of the octet view. *)
Lemma zslot_updated {A} (a a' : Array256 A) i v :
  u8_ok i -> (forall j, slot a' j = if decide (j = Z.to_nat i) then v else slot a j) ->
  forall j, zslot a' j = if decide (j = i) then v else zslot a j.
Proof.
  unfold u8_ok, zslot. intros Hi Hs j. rewrite Hs.
  repeat case_decide; try done; lia.
Qed.

Lemma has_bit {A} (a : Array256 A) i :
  array_wf a -> bit (bitset a) i = bool_decide (is_Some (zslot a (Z.of_nat i))).
Proof.
  intros Hwf. rewrite zslot_nat.
  rewrite (bool_decide_ext _ (bit (bitset a) i = true)) by (by apply slot_is_Some).
  by destruct (bit _ _).
Qed.

Lemma len_has {A} (a : Array256 A) :
  array_wf a ->
  array_len a = count_upto (fun i => bool_decide (is_Some (zslot a (Z.of_nat i)))) 256.
Proof.
  intros Hwf. rewrite array_len_count by done. apply count_upto_ext.
  intros i _. by rewrite zslot_nat.
Qed.

Lemma iter_zslot {A} (a : Array256 A) :
  array_wf a -> NoDup (Array256.iter a).*1 /\
  forall i v, (i, v) ∈ Array256.iter a <-> zslot a i = Some v.
Proof.
  intros Hwf. split.
  - rewrite iter_keys by done. apply NoDup_fmap_2; [intros x y; lia|].
    apply NoDup_filter, NoDup_seq.
  - intros i v. split.
    + intros Hin. assert (i ∈ (Array256.iter a).*1) as Hk
        by (apply list_elem_of_fmap; by exists (i, v)).
      rewrite iter_keys in Hk by done. apply list_elem_of_fmap in Hk as (k & -> & _).
      rewrite zslot_nat. by apply elem_of_iter.
    + intros Hs. pose proof (zslot_ok _ _ _ Hwf Hs) as [Hi _].
      rewrite <- (Z2Nat.id i) in Hs |- * by lia. rewrite zslot_nat in Hs. by apply elem_of_iter.
Qed.

(** The entries of a node's prefix array as base indices. *)
Lemma direct_prefixes_all (l : list (Z * T)) :
  Forall (fun p => p.1 <> 0%Z) l ->
  forall acc, mfoldl (fun acc '(i, value) => idx ← new i; Ret (acc ++ [(idx, value)])) acc l
              = Ret (acc ++ l).
Proof.
  induction 1 as [|[i v] l Hi Hl IH]; intros acc; simpl.
  - by rewrite app_nil_r.
  - unfold new, try_new. simpl in Hi. rewrite decide_False by done. mrun.
    rewrite IH. by rewrite <- app_assoc.
Qed.

Lemma node_lookup_index n o k :
  stride_wf n -> u8_ok o -> k < 8 ->
  lookup_index n (fp o (Z.of_nat k)) = Ret (head (covers n o (S k))).
Proof.
  intros (Hp & _ & Hz) Ho Hk. cbn [lookup_index Node_StrideOps]. unfold Node_impl.lookup_index.
  destruct (lpm_spec o (Z.of_nat k) Ho ltac:(lia)) as (e & -> & Hwe & He). mrun.
  unfold array_intersection_top.
  pose proof (intersection_top_greatest 4 (bitset (Node_impl.prefixes n)) e (proj1 Hp) Hwe) as Hg.
  eapply (covers_top n o (S k)) in Hg; [|done|lia|].
  - destruct (Bitset.intersection_top _ _) as [j|]; simpl.
    + destruct Hg as (l & v & Hl & Ej & Hv & ->). simpl.
      pose proof (fp_index_ok o (Z.of_nat l) Ho ltac:(lia)) as Hok. rewrite <- Ej in Hok.
      unfold try_new. unfold index_ok in Hok. rewrite decide_False by lia.
      cbn [prefix_at Node_StrideView] in Hv. rewrite zslot_nat in Hv.
      rewrite get_spec by (done || unfold u8_ok; lia). mrun. by rewrite Nat2Z.id, Hv.
    + by rewrite Hg.
  - intros j. rewrite (intersect_bit 4) by (done || apply Hp).
    rewrite andb_true_iff, He, has_bit, bool_decide_eq_true by done. split.
    + intros [Hs (l & Hl & Ej)]. exists (Z.to_nat l). rewrite Z2Nat.id by lia.
      split_and!; [lia|done|exact Hs].
    + intros (l & Hl & Ej & Hs). split; [exact Hs|]. exists (Z.of_nat l). split; [lia|done].
Qed.

#[export] Instance Node_StrideLaws : StrideLaws (Node T) T.
Proof.
  split.
  - split_and!; [split_and!; [apply empty_array_wf..|apply slot_empty]| |];
      intros; simpl; unfold zslot; case_decide; done || apply slot_empty.
  - intros n o c (_ & Hc & _). by apply zslot_ok.
  - intros n i v (Hp & _ & Hz) Hs. pose proof (zslot_ok _ _ _ Hp Hs) as Hu.
    assert (i <> 0%Z); [|unfold index_ok, u8_ok in *; lia].
    intros ->. cbn [prefix_at Node_StrideView] in Hs. by rewrite (zslot_nat _ 0), Hz in Hs.
  - intros n (_ & Hc & _). split; [apply Hc|]. intros i. by apply has_bit.
  - intros n (Hp & _ & _). split; [apply Hp|]. intros i. by apply has_bit.
  - intros n (_ & Hc & _). by apply len_has.
  - intros n (Hp & _ & _). by apply len_has.
  - intros n o (_ & Hc & _) Ho. simpl. rewrite zslot_u8 by done. by apply get_spec.
  - intros n o (Hp & Hc & Hz) Ho. simpl. unfold Node_impl.get_child_mut.
    rewrite zslot_u8 by done. pose proof (get_mut_spec _ o Hc Ho) as Hg.
    destruct (slot _ (Z.to_nat o)) as [c|]; [|by rewrite Hg].
    destruct Hg as (w & -> & Hw). mrun. eexists; split; [done|]. intros c'.
    destruct (Hw c') as [Hwf Hs]. split; [done|]. split; [by apply zslot_updated|done].
  - intros n o c (Hp & Hc & Hz) Ho. simpl. unfold Node_impl.insert_child.
    destruct (insert_spec _ o c Hc Ho) as (a & -> & Hwf & Hs). mrun.
    rewrite zslot_u8 by done. eexists; split; [done|].
    split; [done|]. split; [by apply zslot_updated|done].
  - intros n o (Hp & Hc & Hz) Ho. simpl. unfold Node_impl.remove_child.
    destruct (remove_spec _ o Hc Ho) as (a & -> & Hwf & Hs). mrun.
    rewrite zslot_u8 by done. eexists; split; [done|].
    split; [done|]. split; [by apply zslot_updated|done].
  - intros n (_ & Hc & _). by apply iter_zslot.
  - apply node_lookup_index.
  - intros n i (Hp & _ & _) Hi%index_u8. simpl. rewrite zslot_u8 by done. by apply get_spec.
  - intros n i (Hp & Hc & Hz) Hi. pose proof (index_u8 _ Hi) as Hu. simpl.
    unfold Node_impl.get_prefix_exact_mut.
    rewrite zslot_u8 by done. pose proof (get_mut_spec _ i Hp Hu) as Hg.
    destruct (slot _ (Z.to_nat i)) as [c|]; [|by rewrite Hg].
    destruct Hg as (w & -> & Hw). mrun. eexists; split; [done|]. intros c'.
    destruct (Hw c') as [Hwf Hs]. split; [split_and!; [done..|]|].
    { simpl. rewrite Hs. rewrite decide_False by (unfold index_ok in Hi; lia). done. }
    split; [done|by apply zslot_updated].
  - intros n i v (Hp & Hc & Hz) Hi. pose proof (index_u8 _ Hi) as Hu. simpl.
    unfold Node_impl.insert_prefix.
    destruct (insert_spec _ i v Hp Hu) as (a & -> & Hwf & Hs). mrun.
    rewrite zslot_u8 by done. eexists; split; [done|]. split; [split_and!; [done..|]|].
    { simpl. rewrite Hs. rewrite decide_False by (unfold index_ok in Hi; lia). done. }
    split; [done|by apply zslot_updated].
  - intros n i (Hp & Hc & Hz) Hi. pose proof (index_u8 _ Hi) as Hu. simpl.
    unfold Node_impl.remove_prefix.
    destruct (remove_spec _ i Hp Hu) as (a & -> & Hwf & Hs). mrun.
    rewrite zslot_u8 by done. eexists; split; [done|]. split; [split_and!; [done..|]|].
    { simpl. rewrite Hs. rewrite decide_False by (unfold index_ok in Hi; lia). done. }
    split; [done|by apply zslot_updated].
  - intros n (Hp & _ & Hz). simpl. unfold Node_impl.direct_prefixes.
    destruct (iter_zslot _ Hp) as [Hnd Hin].
    rewrite direct_prefixes_all; [by eexists|].
    apply Forall_forall. intros [i v] Hiv%Hin. simpl.
    intros ->. by rewrite (zslot_nat _ 0), Hz in Hiv.
Qed.
End NodeLaws.

(** ** The extension methods, against the interface *)

Section ExtSpec.
Context `{!IpNetOps} {N T : Type} `{!StrideOps N T, !StrideView N T, !StrideLaws N T}.
Implicit Types n : N.

(** The iterator still has to yield the covering prefixes below length [k]. *)
Definition pending (it : NodePrefixIter N) n (o : Z) (k : nat) : Prop :=
  iter_node it = n /\ Bitset.wf 4 (yield_state it) /\
  forall j, bit (yield_state it) j = true <->
    exists l, l < k /\ Z.of_nat j = fp o (Z.of_nat l) /\ is_Some (prefix_at n (Z.of_nat j)).

(** The prefixes of [n] among the covering indices of [o] up to length [k]. *)
Lemma lpm_covering n o k :
  stride_wf n -> u8_ok o -> k < 8 ->
  exists m, lpm (fp o (Z.of_nat k)) = Ret m /\ Bitset.wf 4 m /\
    forall j, bit (prefix_bitset n) j && bit m j = true <->
      exists l, l < S k /\ Z.of_nat j = fp o (Z.of_nat l) /\ is_Some (prefix_at n (Z.of_nat j)).
Proof.
  intros Hwf Ho Hk. destruct (prefix_bitset_law n Hwf) as [_ Hb].
  destruct (lpm_spec o (Z.of_nat k) Ho ltac:(lia)) as (m & -> & Hm & Hmb).
  exists m. split_and!; [done..|]. intros j.
  rewrite andb_true_iff, Hb, Hmb. unfold has_prefix. rewrite bool_decide_eq_true. split.
  - intros [Hs (l & Hl & Ej)]. exists (Z.to_nat l). rewrite Z2Nat.id by lia.
    split_and!; [lia|done|exact Hs].
  - intros (l & Hl & Ej & Hs). split; [exact Hs|]. exists (Z.of_nat l). split; [lia|done].
Qed.

Lemma for_octet_spec n o :
  stride_wf n -> u8_ok o -> exists it, for_octet n o = Ret it /\ pending it n o 8.
Proof.
  intros Hwf Ho. unfold for_octet. rewrite from_pfx_7_fp by done. mrun.
  destruct (lpm_covering n o 7 Hwf Ho ltac:(lia)) as (m & Hm & Hwm & Hb).
  change (Z.of_nat 7) with 7%Z in Hm. rewrite Hm. mrun.
  destruct (prefix_bitset_law n Hwf) as [Hwp _].
  eexists; split; [done|]. split; [done|]. cbn [yield_state].
  split; [by apply wf_intersect|]. intros j. rewrite (intersect_bit 4) by done. apply Hb.
Qed.

Lemma prefix_iter_next_spec it n o k :
  stride_wf n -> u8_ok o -> k <= 8 -> pending it n o k ->
  match covers n o k with
  | [] => prefix_iter_next it = Ret (None, it)
  | x :: rest => exists it' k', prefix_iter_next it = Ret (Some x, it') /\
      k' <= 8 /\ pending it' n o k' /\ covers n o k' = rest
  end.
Proof.
  intros Hwf Ho Hk (Hn & Hwy & Hb). unfold prefix_iter_next.
  change 257 with (S 256). generalize 256 as fuel. intros fuel. cbn [prefix_iter_loop].
  destruct (last_set_greatest 4 (yield_state it)) as (r & -> & Hr); [lia|done|]. mrun.
  pose proof (covers_top n o k _ _ Ho Hk Hb Hr) as Hc. destruct r as [j|]; [|by rewrite Hc].
  destruct Hc as (l & v & Hl & Ej & Hv & ->).
  assert (j < 256) as Hj.
  { pose proof (prefix_at_ok n _ _ Hwf Hv) as [_ ?]. lia. }
  destruct (clear_spec 4 (yield_state it) j Hwy Hj) as (ys & -> & Hwy' & Hys). mrun.
  pose proof (fp_index_ok o (Z.of_nat l) Ho ltac:(lia)) as Hok. rewrite <- Ej in Hok.
  unfold new, try_new. rewrite decide_False by (unfold index_ok in Hok; lia). mrun.
  cbn [iter_node]. rewrite Hn, get_prefix_exact_law by done. mrun. rewrite Hv.
  eexists _, l. split; [done|]. split; [lia|]. split; [|done].
  split; [done|]. split; [done|]. cbn [yield_state]. intros i.
  rewrite Hys, andb_true_iff, Hb, negb_true_iff, bool_decide_eq_false. split.
  - intros [Hne (m & Hm & Ei & Hi)]. exists m. split_and!; [|done..].
    destruct Hr as [_ Hr]. destruct (Nat.lt_ge_cases m l) as [|Hge]; [done|].
    destruct (decide (m = l)) as [->|Hml]; [lia|].
    assert (bit (yield_state it) i = true) as Hbi by (apply Hb; eauto).
    rewrite Hr in Hbi; [done|].
    pose proof (fp_mono o o (Z.of_nat l) (Z.of_nat m) Ho Ho ltac:(lia) ltac:(lia) ltac:(lia)).
    lia.
  - intros (m & Hm & Ei & Hi).
    pose proof (fp_mono o o (Z.of_nat m) (Z.of_nat l) Ho Ho ltac:(lia) ltac:(lia) ltac:(lia)).
    split; [lia|]. exists m. split_and!; [lia|done..].
Qed.

Lemma supersets_prefix_spec n o k :
  stride_wf n -> u8_ok o -> k < 8 ->
  supersets_prefix n (fp o (Z.of_nat k)) = Ret (negb (bool_decide (covers n o (S k) = []))).
Proof.
  intros Hwf Ho Hk. unfold supersets_prefix.
  destruct (lpm_covering n o k Hwf Ho Hk) as (m & -> & Hwm & Hb). mrun. f_equal.
  destruct (prefix_bitset_law n Hwf) as [Hwp _].
  pose proof (intersects_spec 4 _ _ Hwp Hwm) as Hi.
  pose proof (intersection_top_greatest 4 _ _ Hwp Hwm) as Hg.
  pose proof Hg as Hc. eapply (covers_top n o (S k)) in Hc; [|done|lia|].
  2:{ intros j. rewrite (intersect_bit 4) by done. apply Hb. }
  destruct (intersection_top _ _) as [j|].
  - destruct Hc as (l & v & _ & _ & _ & ->). rewrite bool_decide_eq_false_2 by done.
    apply Hi. exists j. destruct Hg as [Hg _]. rewrite (intersect_bit 4) in Hg by done.
    by apply andb_true_iff.
  - rewrite bool_decide_eq_true_2 by done. apply not_true_is_false. rewrite Hi.
    intros (j & Hj & Hj'). specialize (Hg j). rewrite (intersect_bit 4) in Hg by done.
    by rewrite Hj, Hj' in Hg.
Qed.
End ExtSpec.
