(* ===== verification/IpTrie.v ===== *)
(** * IpTrie: the multi-level operations

    Models src/ts_bart/src/iptrie/: insertion, removal with path compression,
    in-place modification, exact, longest-match and covering lookups. The
    operations are written against [StrideOps]; a loop that re-borrows
    [node = next] is a recursion that writes the updated child back.

    The loops over the octets of an address are structural. [insert_inner]
    recurses on one level deeper for both the re-inserted leaf and the new
    prefix, so 17 rounds cover the at most 16 levels and the final test. *)

From S2P Require Import Prelude Bitset Array256 BaseIndex IpNet Stride.

(** ** Insertion *)

Section Insert.
Context `{!IpNetOps} {N T : Type} `{!StrideOps N T}.

Fixpoint insert_inner (fuel : nat) (node : N) (prefix : IpNet) (val : T) (depth : nat)
    : outcome (N * option T) :=
  match fuel with
  | O => Panic
  | S fuel =>
      let '(pfx_full_strides, pfx_overflow_bits) := stride_count_and_overflow prefix in
      match ip_octets (addr prefix) !! depth with
      | None => Ret (node, None)
      | Some octet =>
          if decide (depth = pfx_full_strides) then
            i ← from_prefix octet (Z.of_nat pfx_overflow_bits);
            insert_prefix node i val
          else
            occupied ← Bitset.test (child_bitset node) (Z.to_nat octet);
            if negb occupied then
              fringe ← is_fringe depth prefix;
              '(node, old) ← insert_child node octet
                               (if (fringe : bool) then Fringe val else Leaf prefix val);
              Ret (node, (old : option (Child N T)) ≫= into_value)
            else
              let descend (node : N) : outcome (N * option T) :=
                m ← get_child_mut node octet;
                '(c, w) ← unwrap m;
                next ← unwrap (into_node c);
                '(next, ret) ← insert_inner fuel next prefix val (S depth);
                Ret (w (Path next), ret) in
              let replace_child : outcome (N * option T) :=
                '(node, removed) ← insert_child node octet (into_child node_default);
                removed ← unwrap removed;
                m ← get_child_mut node octet;
                match m with
                | Some (Path n, w) =>
                    match removed with
                    | Fringe old =>
                        i ← new 1;
                        '(n, _) ← insert_prefix n i old;
                        descend (w (Path n))
                    | Leaf leaf_prefix leaf_value =>
                        '(n, _) ← insert_inner fuel n leaf_prefix leaf_value (S depth);
                        descend (w (Path n))
                    | Path _ => Panic
                    end
                | _ => Panic
                end in
              m ← get_child_mut node octet;
              '(c, w) ← unwrap m;
              match c with
              | Leaf leaf_pfx leaf_value =>
                  if decide (prefix = leaf_pfx)
                  then Ret (w (Leaf leaf_pfx val), Some leaf_value)
                  else replace_child
              | Fringe old =>
                  fringe ← is_fringe depth prefix;
                  if (fringe : bool) then Ret (w (Fringe val), Some old) else replace_child
              | Path _ => descend node
              end
      end
  end.

Definition insert (node : N) (prefix : IpNet) (val : T) : outcome (N * option T) :=
  insert_inner 17 node (trunc prefix) val 0.
End Insert.

(** ** Removal *)

Section Remove.
Context `{!IpNetOps} {N T : Type} `{!StrideOps N T}.

Record RemovalInfo := mkRemovalInfo {
  info_value : T;
  compression_root_depth : nat;
  node_prefix : IpNet;
}.

Definition try_remove_last_child (node : N) (octets : list Z) (depth : nat) (ipv4 : bool)
    (root_depth : nat) : outcome (N * option RemovalInfo) :=
  if decide (depth = root_depth) then Ret (node, None)
  else
    match child_count node, prefix_count node with
    | 0, 1 =>
        i ← unwrap (first_set (prefix_bitset node));
        idx ← new (Z.of_nat i mod 256);
        '(node, value) ← remove_prefix node idx;
        value ← unwrap value;
        p ← prefix_from_path octets depth ipv4 idx;
        Ret (node, Some (mkRemovalInfo value root_depth p))
    | 1, 0 =>
        i ← unwrap (first_set (child_bitset node));
        let addr := (Z.of_nat i mod 256)%Z in
        c ← get_child node addr;
        c ← unwrap c;
        match c with
        | Path _ => Ret (node, None)
        | _ =>
            '(node, c) ← remove_child node addr;
            c ← unwrap c;
            '(p, value) ← match c with
                          | Fringe val => p ← fringe_prefix octets depth ipv4 addr; Ret (p, val)
                          | Leaf p value => Ret (p, value)
                          | Path _ => Panic
                          end;
            Ret (node, Some (mkRemovalInfo value root_depth p))
        end
    | _, _ => Ret (node, None)
    end.

(** Run [act] on the node reached through the path children at [path]. *)
Fixpoint at_path (path : list Z) (node : N) (act : N -> outcome N) : outcome N :=
  match path with
  | [] => act node
  | octet :: path =>
      m ← get_child_mut node octet;
      '(c, w) ← unwrap m;
      next ← unwrap (into_node c);
      next ← at_path path next act;
      Ret (w (Path next))
  end.

(** The end of [compress_removal_path], at the compression root. *)
Definition compress_at (info : RemovalInfo) (compression_root : N) : outcome N :=
  let octets := ip_octets (addr (node_prefix info)) in
  let d := compression_root_depth info in
  addr ← idx octets d;
  '(node, removed) ← remove_child compression_root addr;
  _ ← rassert (bool_decide (is_Some (removed : option (Child N T))));
  '(node, _) ← insert_inner 17 node (node_prefix info) (info_value info) d;
  Ret node.

Definition compress_removal_path (root : N) (info : RemovalInfo) : outcome N :=
  let octets := ip_octets (addr (node_prefix info)) in
  let d := compression_root_depth info in
  _ ← rassert (bool_decide (d <= length octets));
  at_path (take d octets) root (compress_at info).

(** The loop of [remove_inner], at [depth] with the octets [rest] to go. *)
Fixpoint remove_inner (octets : list Z) (prefix : IpNet) (rest : list Z) (depth : nat)
    (node : N) (root_depth : nat) : outcome (N * (option T * option RemovalInfo)) :=
  match rest with
  | [] => Ret (node, (None, None))
  | octet :: rest =>
      let '(stride_count, overflow_bits) := stride_count_and_overflow prefix in
      if decide (depth = stride_count) then
        i ← from_prefix octet (Z.of_nat overflow_bits);
        '(node, ret) ← remove_prefix node i;
        '(node, info) ← try_remove_last_child node octets depth (is_ipv4 (addr prefix)) root_depth;
        Ret (node, (ret, info))
      else
        let remove_immediate : outcome (N * (option T * option RemovalInfo)) :=
          '(node, c) ← remove_child node octet;
          c ← unwrap c;
          '(node, info) ← try_remove_last_child node octets depth (is_ipv4 (addr prefix)) root_depth;
          Ret (node, (into_value c, info)) in
        child ← get_child node octet;
        match child with
        | None => Ret (node, (None, None))
        | Some (Leaf leaf_prefix _) =>
            if decide (leaf_prefix <> prefix) then Ret (node, (None, None))
            else remove_immediate
        | Some (Fringe _) =>
            fringe ← is_fringe depth prefix;
            if negb fringe then Ret (node, (None, None)) else remove_immediate
        | Some (Path _) =>
            let is_deletable :=
              bool_decide (child_count node = 1) && bool_decide (prefix_count node = 0) in
            let root_depth := if is_deletable then root_depth else depth in
            m ← get_child_mut node octet;
            '(c, w) ← unwrap m;
            next ← unwrap (into_node c);
            '(next, r) ← remove_inner octets prefix rest (S depth) next root_depth;
            Ret (w (Path next), r)
        end
  end.

Definition remove (node : N) (prefix : IpNet) : outcome (N * option T) :=
  let prefix := trunc prefix in
  let octets := ip_octets (addr prefix) in
  '(node, (ret, removal)) ← remove_inner octets prefix octets 0 node 0;
  match removal with
  | Some removal => node ← compress_removal_path node removal; Ret (node, ret)
  | None => Ret (node, ret)
  end.
End Remove.
Arguments RemovalInfo {_} T.

(** ** Modification *)

Inductive RouteModification (T : Type) :=
| Insert (t : T)
| Remove
| Noop.
Arguments Insert {T} _.
Arguments Remove {T}.
Arguments Noop {T}.

(** A closure [FnOnce(Option<&mut T>) -> RouteModification<T>]: what it
    returns on [None], and on [Some] the value it leaves behind the reference
    and what it returns. *)
Record ModifyFn (T : Type) := mkModifyFn {
  on_none : RouteModification T;
  on_some : T -> T * RouteModification T;
}.
Arguments mkModifyFn {T} _ _.
Arguments on_none {T} _.
Arguments on_some {T} _ _.

Section Modify.
Context `{!IpNetOps} {N T : Type} `{!StrideOps N T}.

(** Besides the result, the answer the closure gave (if it was called):
    what a closure that wraps it can record. *)
Fixpoint modify_inner (octets : list Z) (prefix : IpNet) (f : ModifyFn T) (rest : list Z)
    (depth : nat) (node : N) (root_depth : nat)
    : outcome (N * (option T * option (RemovalInfo T)) * option (RouteModification T)) :=
  match rest with
  | [] => Ret (node, (None, None), None)
  | octet :: rest =>
      let ipv4 := is_ipv4 (addr prefix) in
      let '(stride_count, overflow_bits) := stride_count_and_overflow prefix in
      if decide (depth = stride_count) then
        idx ← from_prefix octet (Z.of_nat overflow_bits);
        m ← get_prefix_exact_mut node idx;
        let '(node, action) :=
          match m with
          | Some (v, w) => let '(v', a) := on_some f v in (w v', a)
          | None => (node, on_none f)
          end in
        match action with
        | Remove =>
            '(node, ret) ← remove_prefix node idx;
            '(node, info) ← try_remove_last_child node octets depth ipv4 root_depth;
            Ret (node, (ret, info), Some Remove)
        | Insert t =>
            '(node, ret) ← insert_prefix node idx t;
            Ret (node, (ret, None), Some (Insert t))
        | Noop => Ret (node, (None, None), Some Noop)
        end
      else
        (* the route does not exist and something else is in its place *)
        let absent : outcome (N * (option T * option (RemovalInfo T)) * option (RouteModification T)) :=
          match on_none f with
          | Insert t =>
              '(node, ret) ← insert_inner 17 node prefix t depth;
              Ret (node, (ret, None), Some (Insert t))
          | action => Ret (node, (None, None), Some action)
          end in
        (* the route is the immediate child, with its value written back *)
        let present (v : T) (w : T -> N) : outcome (N * (option T * option (RemovalInfo T)) * option (RouteModification T)) :=
          let '(v', action) := on_some f v in
          let node := w v' in
          match action with
          | Noop => Ret (node, (None, None), Some Noop)
          | Insert t =>
              fringe ← is_fringe depth prefix;
              '(node, old) ← insert_child node octet
                               (if (fringe : bool) then Fringe t else Leaf prefix t);
              old ← unwrap old;
              Ret (node, (into_value old, None), Some (Insert t))
          | Remove =>
              '(node, c) ← remove_child node octet;
              c ← unwrap c;
              '(node, info) ← try_remove_last_child node octets depth ipv4 root_depth;
              Ret (node, (into_value c, info), Some Remove)
          end in
        m ← get_child_mut node octet;
        match m with
        | None =>
            match on_none f with
            | Insert t =>
                fringe ← is_fringe depth prefix;
                '(node, _) ← insert_child node octet
                               (if (fringe : bool) then Fringe t else Leaf prefix t);
                Ret (node, (None, None), Some (Insert t))
            | action => Ret (node, (None, None), Some action)
            end
        | Some (Leaf leaf_prefix value, w) =>
            if decide (leaf_prefix <> prefix) then absent
            else present value (fun v => w (Leaf leaf_prefix v))
        | Some (Fringe value, w) =>
            fringe ← is_fringe depth prefix;
            if negb fringe then absent else present value (fun v => w (Fringe v))
        | Some (Path _, _) =>
            let is_deletable :=
              bool_decide (child_count node = 1) && bool_decide (prefix_count node = 0) in
            let root_depth := if is_deletable then root_depth else depth in
            m ← get_child_mut node octet;
            '(c, w) ← unwrap m;
            next ← unwrap (into_node c);
            '(next, r, op) ← modify_inner octets prefix f rest (S depth) next root_depth;
            Ret (w (Path next), r, op)
        end
  end.

Definition modify_traced (node : N) (prefix : IpNet) (f : ModifyFn T)
    : outcome (N * option T * option (RouteModification T)) :=
  let prefix := trunc prefix in
  let octets := ip_octets (addr prefix) in
  '(node, (ret, removal), op) ← modify_inner octets prefix f octets 0 node 0;
  match removal with
  | Some removal => node ← compress_removal_path node removal; Ret (node, ret, op)
  | None => Ret (node, ret, op)
  end.

Definition modify (node : N) (prefix : IpNet) (f : ModifyFn T) : outcome (N * option T) :=
  '(node, ret, _) ← modify_traced node prefix f;
  Ret (node, ret).
End Modify.

(** ** Lookups *)

Section Lookup.
Context `{!IpNetOps} {N T : Type} `{!StrideOps N T}.

Fixpoint contains_loop (ip : IpAddr) (octets : list Z) (node : N) : outcome bool :=
  match octets with
  | [] => Ret false
  | octet :: octets =>
      index ← from_pfx_7 octet;
      covered ← (if decide (prefix_count node <> 0) then supersets_prefix node index
                 else Ret false);
      if (covered : bool) then Ret true
      else
        child ← get_child node octet;
        match child with
        | None => Ret false
        | Some (Path n) => contains_loop ip octets n
        | Some (Fringe _) => Ret true
        | Some (Leaf prefix _) => Ret (net_contains prefix ip)
        end
  end.

Definition contains (node : N) (ip : IpAddr) : outcome bool :=
  contains_loop ip (ip_octets ip) node.

(** Falling off the octets is [unreachable!()]. *)
Fixpoint lookup_prefix_exact_loop (prefix : IpNet) (octets : list Z) (depth : nat) (node : N)
    : outcome (option T) :=
  match octets with
  | [] => Panic
  | octet :: octets =>
      let '(last_octet_plus_one, last_bits) := stride_count_and_overflow prefix in
      if decide (depth = last_octet_plus_one) then
        i ← from_prefix octet (Z.of_nat last_bits);
        get_prefix_exact node i
      else
        child ← get_child node octet;
        match child with
        | None => Ret None
        | Some (Path child) => lookup_prefix_exact_loop prefix octets (S depth) child
        | Some (Leaf leaf_prefix value) =>
            if decide (prefix = leaf_prefix) then Ret (Some value) else Ret None
        | Some (Fringe val) =>
            fringe ← is_fringe depth prefix;
            if (fringe : bool) then Ret (Some val) else Ret None
        end
  end.

Definition lookup_prefix_exact (node : N) (prefix : IpNet) : outcome (option T) :=
  lookup_prefix_exact_loop prefix (ip_octets (addr prefix)) 0 node.

(** [heapless::Vec::push] on a vector of capacity [MAX_DEPTH], unwrapped;
    the top of the stack is the head of the list. *)
Definition push {A} (stack : list A) (x : A) : outcome (list A) :=
  if decide (length stack < MAX_DEPTH) then Ret (x :: stack) else Panic.

(** One round of [walk_stack] per iterator created or exhausted. *)
Fixpoint walk_stack_loop (fuel : nat) (stack : list (N * Z))
    (prefix_iter : option (NodePrefixIter N))
    : outcome (option T * (list (N * Z) * option (NodePrefixIter N))) :=
  match stack with
  | [] => Ret (None, (stack, prefix_iter))
  | (node, octet) :: rest =>
      match fuel with
      | O => Panic
      | S fuel =>
          match prefix_iter with
          | Some it =>
              '(item, it) ← prefix_iter_next it;
              match item with
              | Some (_, val) => Ret (Some val, (stack, Some it))
              | None => walk_stack_loop fuel rest None
              end
          | None =>
              it ← for_octet node octet;
              walk_stack_loop fuel stack (Some it)
          end
      end
  end.

Definition walk_stack (stack : list (N * Z)) (prefix_iter : option (NodePrefixIter N)) :=
  walk_stack_loop (2 * length stack) stack prefix_iter.

(** The descent of [lookup_address]: an immediate match or the stack. *)
Fixpoint lookup_address_loop (ip : IpAddr) (octets : list Z) (node : N) (stack : list (N * Z))
    : outcome (T + list (N * Z)) :=
  match octets with
  | [] => Ret (inr stack)
  | octet :: octets =>
      stack ← push stack (node, octet);
      child ← get_child node octet;
      match child with
      | None => Ret (inr stack)
      | Some (Path n) => lookup_address_loop ip octets n stack
      | Some (Fringe val) => Ret (inl val)
      | Some (Leaf prefix value) =>
          if net_contains prefix ip then Ret (inl value) else Ret (inr stack)
      end
  end.

Definition lookup_address (node : N) (ip : IpAddr) : outcome (option T) :=
  r ← lookup_address_loop ip (ip_octets ip) node [];
  match r with
  | inl val => Ret (Some val)
  | inr stack => '(val, _) ← walk_stack stack None; Ret val
  end.

Record LookupIter := mkLookupIter {
  lookup_item : option T;
  lookup_stack : list (N * Z);
  lookup_prefix_iter : option (NodePrefixIter N);
}.

Fixpoint lookup_address_all_loop (ip : IpAddr) (octets : list Z) (node : N)
    (stack : list (N * Z)) : outcome LookupIter :=
  match octets with
  | [] => Ret (mkLookupIter None stack None)
  | octet :: octets =>
      stack ← push stack (node, octet);
      child ← get_child node octet;
      match child with
      | None => Ret (mkLookupIter None stack None)
      | Some (Path n) => lookup_address_all_loop ip octets n stack
      | Some (Fringe val) => Ret (mkLookupIter (Some val) stack None)
      | Some (Leaf prefix value) =>
          Ret (mkLookupIter (if net_contains prefix ip then Some value else None) stack None)
      end
  end.

Definition lookup_address_all (node : N) (ip : IpAddr) : outcome LookupIter :=
  lookup_address_all_loop ip (ip_octets ip) node [].

Definition lookup_iter_next (it : LookupIter) : outcome (option T * LookupIter) :=
  match lookup_item it with
  | Some val => Ret (Some val, mkLookupIter None (lookup_stack it) (lookup_prefix_iter it))
  | None =>
      '(val, (stack, prefix_iter)) ← walk_stack (lookup_stack it) (lookup_prefix_iter it);
      Ret (val, mkLookupIter None stack prefix_iter)
  end.

(** [Iterator::collect]: [next] until it returns [None], at most [fuel] times. *)
Fixpoint lookup_collect (fuel : nat) (it : LookupIter) : outcome (list T) :=
  match fuel with
  | O => Panic
  | S fuel =>
      '(item, it) ← lookup_iter_next it;
      match item with
      | None => Ret []
      | Some val => vals ← lookup_collect fuel it; Ret (val :: vals)
      end
  end.

(** The descent of [lookup_prefix_lpm]. *)
Fixpoint lookup_prefix_lpm_loop (prefix : IpNet) (octets : list Z) (depth : nat) (node : N)
    (stack : list (N * Z * nat)) : outcome ((IpNet * T) + list (N * Z * nat)) :=
  match octets with
  | [] => Ret (inr stack)
  | octet :: octets =>
      let '(last_octet_plus_one, last_bits) := stride_count_and_overflow prefix in
      if decide (last_octet_plus_one < depth) then Ret (inr stack)
      else
        stack ← push stack (node, octet, depth);
        child ← get_child node octet;
        match child with
        | None => Ret (inr stack)
        | Some (Path n) => lookup_prefix_lpm_loop prefix octets (S depth) n stack
        | Some (Leaf leaf_prefix value) =>
            if bool_decide (prefix_len prefix < prefix_len leaf_prefix)
               || negb (net_contains leaf_prefix (addr prefix))
            then Ret (inr stack)
            else Ret (inl (leaf_prefix, value))
        | Some (Fringe val) =>
            let fringe_prefix_len := (depth + 1) * 8 in
            if decide (prefix_len prefix < fringe_prefix_len) then Ret (inr stack)
            else
              p ← new_assert (addr prefix) fringe_prefix_len;
              Ret (inl (p, val))
        end
  end.

(** The ancestor walk of [lookup_prefix_lpm]. *)
Fixpoint lookup_prefix_lpm_walk (prefix : IpNet) (stack : list (N * Z * nat))
    : outcome (option (IpNet * T)) :=
  match stack with
  | [] => Ret None
  | (node, octet, depth) :: stack =>
      let '(last_octet_plus_one, last_bits) := stride_count_and_overflow prefix in
      if decide (prefix_count node = 0) then lookup_prefix_lpm_walk prefix stack
      else
        idx ← (if decide (depth = last_octet_plus_one)
               then from_prefix octet (Z.of_nat last_bits) else from_pfx_7 octet);
        r ← lookup_index node idx;
        match r with
        | None => lookup_prefix_lpm_walk prefix stack
        | Some (top, val) =>
            p ← new_assert (addr prefix) (Z.to_nat (prefix_bits top depth));
            Ret (Some (p, val))
        end
  end.

Definition lookup_prefix_lpm (node : N) (prefix : IpNet) : outcome (option (IpNet * T)) :=
  let prefix := trunc prefix in
  r ← lookup_prefix_lpm_loop prefix (ip_octets (addr prefix)) 0 node [];
  match r with
  | inl m => Ret (Some m)
  | inr stack => lookup_prefix_lpm_walk prefix stack
  end.
End Lookup.
Arguments LookupIter N T : clear implicits.
