(* ===== verification/TrieSpec.v ===== *)
(** * TrieSpec: what a trie denotes

    The routes of a trie as a partial function on prefixes, the
    well-formedness of a trie of one address family, and the lemmas that
    relate updates of one node to updates of the routes. *)

From S2P Require Import Prelude Bitset Array256 BaseIndex IpNet Stride IpTrie.

Section Spec.
Context `{!IpNetOps} {N T : Type} `{!StrideOps N T, !StrideView N T}.
Implicit Types (n : N) (p q : IpNet).

(** The value stored for [p] below a node: [os] are the octets of [p] not
    consumed yet, [l] its remaining length. *)
Fixpoint find p (os : list Z) (l : nat) n : option T :=
  match os with
  | [] => None
  | o :: os =>
      if decide (l < 8) then prefix_at n (fp o (Z.of_nat l))
      else match child_at n o with
           | None => None
           | Some (Path n') => find p os (l - 8) n'
           | Some (Leaf q v) => if decide (q = p) then Some v else None
           | Some (Fringe v) => if decide (l = 8) then Some v else None
           end
  end.

(** The value of [p] in the subtree [n] hanging [d] octets below the root. *)
Definition sub (d : nat) p n : option T :=
  find p (drop d (ip_octets (addr p))) (prefix_len p - 8 * d) n.

(** The route of a (truncated) prefix in a trie. *)
Definition route n p : option T := sub 0 p n.

(** The same for a child of a node at depth [d]. *)
Definition csub (d : nat) p (c : option (Child N T)) : option T :=
  match c with
  | None => None
  | Some (Path n') => sub (S d) p n'
  | Some (Leaf q v) => if decide (q = p) then Some v else None
  | Some (Fringe v) => if decide (prefix_len p = 8 * d + 8) then Some v else None
  end.

(** A truncated prefix of the address family. *)
Definition net_ok (v4 : bool) p : Prop := is_ipv4 (addr p) = v4 /\ trunc p = p.

(** [p] belongs below the node reached through the octets [path]. *)
Definition under (v4 : bool) (path : list Z) p : Prop :=
  net_ok v4 p /\ 8 * length path <= prefix_len p /\
  take (length path) (ip_octets (addr p)) = path.

Definition has_path n : Prop := exists o n', child_at n o = Some (Path n').
Definition occ n : nat := child_count n + prefix_count n.

(** Path compression: a node below the root holds two entries, or a path
    child, which again holds such a node. *)
Definition canon n : Prop := 2 <= occ n \/ has_path n.

(** [h] is the number of octets left, at least one. *)
Fixpoint twf (v4 : bool) (h : nat) (path : list Z) n : Prop :=
  match h with
  | O => False
  | S h =>
      stride_wf n /\
      forall o c, child_at n o = Some c ->
        match c with
        | Path n' => twf v4 h (path ++ [o]) n' /\ canon n'
        | Leaf q _ => under v4 (path ++ [o]) q /\ 8 * S (length path) < prefix_len q
        | Fringe _ => True
        end
  end.

Definition child_ok (v4 : bool) (h : nat) (path : list Z) (o : Z) (c : Child N T) : Prop :=
  match c with
  | Path n' => twf v4 h (path ++ [o]) n' /\ canon n'
  | Leaf q _ => under v4 (path ++ [o]) q /\ 8 * S (length path) < prefix_len q
  | Fringe _ => True
  end.

(** A well-formed trie of one address family. *)
Definition trie_wf (v4 : bool) n : Prop := twf v4 (width v4) [] n.
End Spec.

(** ** Truncated prefixes are determined by their network bits *)

Section Nets.
Context `{!IpNetOps, !IpNetLaws}.
Implicit Types (p q : IpNet).

Lemma mask_octets_agree d l os os' :
  Forall u8_ok os -> Forall u8_ok os' ->
  length os = length os' -> take d os = take d os' -> l <= 8 * d + 8 ->
  (forall o o', os !! d = Some o -> os' !! d = Some o' ->
     Z.land o (mask8 (l - 8 * d)) = Z.land o' (mask8 (l - 8 * d))) ->
  mask_octets l os = mask_octets l os'.
Proof.
  revert l os os'. induction d as [|d IH]; intros l os os' Hos Hos' Hlen Ht Hl Hd.
  - destruct os as [|o os], os' as [|o' os']; simpl in Hlen; try done.
    cbn [mask_octets]. specialize (Hd o o' eq_refl eq_refl).
    replace (l - 8 * 0) with l in Hd by lia. rewrite Hd.
    replace (l - 8) with 0 by lia. rewrite !mask_octets_0. do 2 f_equal. lia.
  - destruct os as [|o os], os' as [|o' os']; simpl in Hlen; try done.
    simpl in Ht. injection Ht as -> Ht. cbn [mask_octets]. f_equal.
    apply Forall_cons in Hos as [_ Hos]. apply Forall_cons in Hos' as [_ Hos'].
    apply IH; [done|done|lia|done|lia|]. intros x x' Hx Hx'.
    specialize (Hd x x' Hx Hx'). by replace (l - 8 - 8 * d) with (l - 8 * S d) by lia.
Qed.

Lemma octets_len v4 p : is_ipv4 (addr p) = v4 -> length (ip_octets (addr p)) = width v4.
Proof. intros <-. apply (addr_ok p). Qed.

Lemma octets_u8 p d o : ip_octets (addr p) !! d = Some o -> u8_ok o.
Proof. intros Hlk. pose proof (addr_ok p) as [_ Hf]. by eapply Forall_lookup_1. Qed.

(** A truncated prefix is its own mask. *)
Lemma trunc_octets p :
  trunc p = p -> mask_octets (prefix_len p) (ip_octets (addr p)) = ip_octets (addr p).
Proof.
  intros Ht. pose proof (trunc_addr p) as Ha. rewrite Ht in Ha.
  apply (f_equal ip_octets) in Ha. unfold mask_addr in Ha.
  by rewrite mk_addr_octets in Ha.
Qed.

Lemma trunc_idem p : trunc (trunc p) = trunc p.
Proof.
  apply ipnet_ext; [|apply trunc_len].
  rewrite (trunc_addr (trunc p)), trunc_len, trunc_addr. unfold mask_addr.
  by rewrite mk_addr_octets, mk_addr_is_ipv4, mask_octets_idem.
Qed.

Lemma trunc_family p : is_ipv4 (addr (trunc p)) = is_ipv4 (addr p).
Proof. rewrite trunc_addr. apply mk_addr_is_ipv4. Qed.

Lemma net_ext v4 p q :
  net_ok v4 p -> net_ok v4 q -> prefix_len p = prefix_len q ->
  mask_octets (prefix_len p) (ip_octets (addr p))
    = mask_octets (prefix_len p) (ip_octets (addr q)) -> p = q.
Proof.
  intros [Hp Htp] [Hq Htq] Hl Hm. apply ipnet_ext; [|done].
  rewrite <- (mk_addr_eta (addr p)), <- (mk_addr_eta (addr q)), Hp, Hq. f_equal.
  rewrite (trunc_octets p Htp), Hl, (trunc_octets q Htq) in Hm. done.
Qed.

Lemma prefix_len_le v4 p : is_ipv4 (addr p) = v4 -> prefix_len p <= 8 * width v4.
Proof. intros <-. apply prefix_len_ok. Qed.

(** Every node on the way has an octet for [p]. *)
Lemma under_octet v4 path p :
  under v4 path p -> length path < width v4 ->
  exists o, ip_octets (addr p) !! length path = Some o /\ u8_ok o.
Proof.
  intros ([Hv _] & _ & _) Hlt. rewrite <- (octets_len v4 p Hv) in Hlt.
  destruct (lookup_lt_is_Some_2 _ _ Hlt) as [o Ho]. exists o. split; [done|].
  by eapply octets_u8.
Qed.

Lemma under_snoc v4 path p o :
  under v4 path p -> ip_octets (addr p) !! length path = Some o ->
  8 * length path + 8 <= prefix_len p -> under v4 (path ++ [o]) p.
Proof.
  intros (Hok & _ & Ht) Ho Hl. split_and!; [done|rewrite length_app; simpl; lia|].
  rewrite length_app, Nat.add_1_r. rewrite (take_S_r _ _ _ Ho). by rewrite Ht.
Qed.

Lemma under_snoc_inv v4 path p o :
  under v4 (path ++ [o]) p ->
  under v4 path p /\ ip_octets (addr p) !! length path = Some o /\
  8 * length path + 8 <= prefix_len p.
Proof.
  intros (Hok & Hl & Ht). rewrite length_app, Nat.add_1_r in *.
  assert (ip_octets (addr p) !! length path = Some o) as Ho.
  { rewrite <- (lookup_take_lt _ (S (length path))) by lia. rewrite Ht.
    by rewrite lookup_app_r, Nat.sub_diag by lia. }
  split_and!; [|done|lia]. split_and!; [done|lia|].
  rewrite (take_S_r _ _ _ Ho) in Ht. by apply app_inj_tail in Ht as [? _].
Qed.

(** Two prefixes ending within the same stride of the same node are told
    apart by their base index. *)
Lemma under_prefix_inj v4 path p q o o' :
  under v4 path p -> under v4 path q ->
  ip_octets (addr p) !! length path = Some o ->
  ip_octets (addr q) !! length path = Some o' ->
  prefix_len p < 8 * length path + 8 -> prefix_len q < 8 * length path + 8 ->
  fp o (Z.of_nat (prefix_len p - 8 * length path))
    = fp o' (Z.of_nat (prefix_len q - 8 * length path)) -> p = q.
Proof.
  intros (Hp & Hlp & Htp) (Hq & Hlq & Htq) Ho Ho' Hsp Hsq E.
  pose proof (octets_u8 _ _ _ Ho) as Hu. pose proof (octets_u8 _ _ _ Ho') as Hu'.
  pose proof E as Hl. apply fp_inj_len in Hl; [|done|done|lia|lia].
  assert (prefix_len p = prefix_len q) as Hl' by lia.
  rewrite <- Hl' in E. apply fp_eq_mask in E; [|done|done|lia].
  apply (net_ext v4); [done..|].
  apply (mask_octets_agree (length path)); [apply addr_ok..| |congruence|lia|].
  { rewrite (octets_len v4 p), (octets_len v4 q); [done|apply Hq|apply Hp]. }
  intros x x' Hx Hx'. unfold mask8. rewrite Nat.min_l by lia. congruence.
Qed.

(** The prefix of a fringe is determined by the node and the octet. *)
Lemma under_fringe_inj v4 path p q o :
  under v4 (path ++ [o]) p -> under v4 (path ++ [o]) q ->
  prefix_len p = 8 * length path + 8 -> prefix_len q = 8 * length path + 8 -> p = q.
Proof.
  intros (Hp & _ & Htp) (Hq & _ & Htq) Hl Hl'.
  apply (net_ext v4); [done|done|congruence|].
  apply (mask_octets_agree (length (path ++ [o]))); [apply addr_ok..| |congruence| |].
  - rewrite (octets_len v4 p), (octets_len v4 q); [done|apply Hq|apply Hp].
  - rewrite length_app. simpl. lia.
  - intros x x' _ _. rewrite length_app. simpl length.
    replace (prefix_len p - 8 * (length path + 1)) with 0 by lia.
    by rewrite mask8_0, !Z.land_0_r.
Qed.

Lemma is_fringe_spec d p :
  8 * d + 8 <= prefix_len p -> is_fringe d p = Ret (bool_decide (prefix_len p = 8 * d + 8)).
Proof.
  intros Hl. unfold is_fringe, stride_count_and_overflow, usub.
  pose proof (Nat.div_mod (prefix_len p) 8 ltac:(lia)) as Hdm.
  pose proof (Nat.mod_upper_bound (prefix_len p) 8 ltac:(lia)) as Hm.
  rewrite decide_True by nia. mrun. f_equal.
  repeat case_bool_decide; simpl; try done; nia.
Qed.

(** The test the loops make for the last stride. *)
Lemma last_stride d p :
  8 * d <= prefix_len p ->
  (d = prefix_len p / 8 <-> prefix_len p < 8 * d + 8) /\
  (prefix_len p < 8 * d + 8 -> prefix_len p mod 8 = prefix_len p - 8 * d).
Proof.
  intros Hl. pose proof (Nat.div_mod (prefix_len p) 8 ltac:(lia)) as Hdm.
  pose proof (Nat.mod_upper_bound (prefix_len p) 8 ltac:(lia)) as Hm.
  split; [split; nia|]. intros Hlt.
  assert (prefix_len p / 8 = d) as Hd by nia. nia.
Qed.
End Nets.

(** ** Updates of one node as updates of the routes *)

Section Updates.
Context `{!IpNetOps, !IpNetLaws} {N T : Type}
  `{!StrideOps N T, !StrideView N T, !StrideLaws N T} (v4 : bool).
Implicit Types (n : N) (p q : IpNet) (path : list Z).

Lemma sub_step d p n o :
  ip_octets (addr p) !! d = Some o -> 8 * d <= prefix_len p ->
  sub d p n =
  if decide (prefix_len p < 8 * d + 8)
  then prefix_at n (fp o (Z.of_nat (prefix_len p - 8 * d)))
  else csub d p (child_at n o).
Proof.
  intros Ho Hl. unfold sub at 1. rewrite (drop_S _ _ _ Ho). cbn [find].
  destruct (decide (prefix_len p < 8 * d + 8)).
  - by rewrite decide_True by lia.
  - rewrite decide_False by lia. unfold csub, sub.
    destruct (child_at n o) as [[n'|q v|v]|]; [|done| |done].
    + f_equal. lia.
    + repeat case_decide; done || lia.
Qed.

Lemma twf_inv h path n :
  twf v4 h path n -> exists h', h = S h' /\ stride_wf n /\
    forall o c, child_at n o = Some c -> child_ok v4 h' path o c.
Proof. destruct h as [|h]; [done|]. intros [Hn Hc]. by exists h. Qed.

Lemma twf_stride h path n : twf v4 h path n -> stride_wf n.
Proof. destruct h; [done|]. by intros [? _]. Qed.

Lemma twf_child_updated h path n n' o c :
  twf v4 (S h) path n -> child_updated n n' o c ->
  (forall c', c = Some c' -> child_ok v4 h path o c') -> twf v4 (S h) path n'.
Proof.
  intros [_ Hn] (Hwf & Hc & _) Hok. split; [done|]. intros o' c' Hlk.
  rewrite Hc in Hlk. case_decide as Ho; [|by apply Hn].
  subst o'. by apply Hok.
Qed.

Lemma twf_prefix_updated h path n n' i v :
  twf v4 h path n -> prefix_updated n n' i v -> twf v4 h path n'.
Proof.
  destruct h as [|h]; [done|]. intros [_ Hn] (Hwf & Hc & _). split; [done|].
  intros o c Hlk. rewrite Hc in Hlk. by apply Hn.
Qed.

(** Replacing the child at [o] changes the route of [p] only, when it does
    so for the prefixes below it. *)
Lemma sub_child_updated path n n' o c p r :
  length path < width v4 ->
  child_updated n n' o c -> under v4 (path ++ [o]) p ->
  (forall q, under v4 (path ++ [o]) q ->
     csub (length path) q c = if decide (q = p) then r else csub (length path) q (child_at n o)) ->
  forall q, under v4 path q ->
    sub (length path) q n' = if decide (q = p) then r else sub (length path) q n.
Proof.
  intros Hw (_ & Hc & Hp) Hup Hin q Hq.
  destruct (under_octet _ _ _ Hq Hw) as (o' & Ho' & _). pose proof Hq as (_ & Hl & _).
  rewrite !(sub_step _ q _ o') by done.
  apply under_snoc_inv in Hup as (Hpp & Hpo & Hpl).
  destruct (decide (prefix_len q < 8 * length path + 8)) as [Hs|Hs].
  { rewrite Hp. case_decide as E; [subst; lia|done]. }
  rewrite Hc. destruct (decide (o' = o)) as [->|Hne].
  - apply Hin. apply under_snoc; [done..|lia].
  - case_decide as E; [subst; congruence|done].
Qed.

Lemma sub_prefix_updated path n n' o p r :
  length path < width v4 ->
  under v4 path p -> ip_octets (addr p) !! length path = Some o ->
  prefix_len p < 8 * length path + 8 ->
  prefix_updated n n' (fp o (Z.of_nat (prefix_len p - 8 * length path))) r ->
  forall q, under v4 path q ->
    sub (length path) q n' = if decide (q = p) then r else sub (length path) q n.
Proof.
  intros Hw Hup Ho Hs (_ & Hc & Hp) q Hq.
  destruct (under_octet _ _ _ Hq Hw) as (o' & Ho' & _). pose proof Hq as (_ & Hl & _).
  rewrite !(sub_step _ q _ o') by done. rewrite Hc.
  destruct (decide (prefix_len q < 8 * length path + 8)) as [Hs'|Hs'].
  - rewrite Hp. destruct (decide (q = p)) as [->|Hne].
    + replace o' with o by congruence. by rewrite decide_True.
    + rewrite decide_False; [done|]. intros E. apply Hne.
      by eapply (under_prefix_inj v4 path).
  - case_decide; [subst; lia|done].
Qed.

(** ** Counting entries *)

Lemma count_upto_one (f g : nat -> bool) k m (b : bool) :
  k < m -> g k = b -> (forall i, i < m -> i <> k -> g i = f i) ->
  count_upto g m + (if f k then 1 else 0) = count_upto f m + (if b then 1 else 0).
Proof.
  intros Hk Hgk Hg. induction m as [|m IH]; [lia|]. simpl.
  destruct (decide (k = m)) as [->|Hne].
  - rewrite Hgk. rewrite (count_upto_ext g f m) by (intros; apply Hg; lia). lia.
  - rewrite (Hg m) by lia. assert (k < m) as Hkm by lia.
    specialize (IH Hkm (fun i Hi => Hg i (Nat.lt_lt_succ_r _ _ Hi))). lia.
Qed.

Definition b2n {A} (x : option A) : nat := match x with Some _ => 1 | None => 0 end.

Lemma b2n_dec {A} (x : option A) : b2n x = if bool_decide (is_Some x) then 1 else 0.
Proof. by destruct x. Qed.

Lemma has_child_at n o :
  u8_ok o -> has_child n (Z.to_nat o) = bool_decide (is_Some (child_at n o)).
Proof. unfold u8_ok, has_child. intros. by rewrite Z2Nat.id by lia. Qed.

Lemma has_prefix_at n i :
  index_ok i -> has_prefix n (Z.to_nat i) = bool_decide (is_Some (prefix_at n i)).
Proof. unfold index_ok, has_prefix. intros. by rewrite Z2Nat.id by lia. Qed.

Lemma child_updated_counts n n' o c :
  stride_wf n -> u8_ok o -> child_updated n n' o c ->
  child_count n' + b2n (child_at n o) = child_count n + b2n c /\
  prefix_count n' = prefix_count n.
Proof.
  intros Hwf Ho (Hwf' & Hc & Hp). split.
  - rewrite !child_count_law, !b2n_dec by done.
    pose proof (count_upto_one (has_child n) (has_child n') (Z.to_nat o) 256
      (bool_decide (is_Some c))) as Hone.
    rewrite !has_child_at in Hone by done. apply Hone; [unfold u8_ok in Ho; lia| |].
    + rewrite Hc. by rewrite decide_True.
    + intros i _ Hi. unfold has_child. rewrite Hc. rewrite decide_False; [done|lia].
  - rewrite !prefix_count_law by done. apply count_upto_ext. intros i _.
    unfold has_prefix. by rewrite Hp.
Qed.

Lemma prefix_updated_counts n n' i v :
  stride_wf n -> index_ok i -> prefix_updated n n' i v ->
  prefix_count n' + b2n (prefix_at n i) = prefix_count n + b2n v /\
  child_count n' = child_count n.
Proof.
  intros Hwf Hi (Hwf' & Hc & Hp). split.
  - rewrite !prefix_count_law, !b2n_dec by done.
    pose proof (count_upto_one (has_prefix n) (has_prefix n') (Z.to_nat i) 256
      (bool_decide (is_Some v))) as Hone.
    rewrite !has_prefix_at in Hone by done. apply Hone; [unfold index_ok in Hi; lia| |].
    + rewrite Hp. by rewrite decide_True.
    + intros j _ Hj. unfold has_prefix. rewrite Hp. rewrite decide_False; [done|lia].
  - rewrite !child_count_law by done. apply count_upto_ext. intros j _.
    unfold has_child. by rewrite Hc.
Qed.

Lemma b2n_Some {A} (x : A) : b2n (Some x) = 1.
Proof. done. Qed.

Lemma b2n_None {A} : b2n (@None A) = 0.
Proof. done. Qed.

Lemma b2n_le {A} (x : option A) : b2n x <= 1.
Proof. destruct x; simpl; lia. Qed.

Lemma child_count_pos n o c : stride_wf n -> child_at n o = Some c -> 1 <= child_count n.
Proof.
  intros Hwf Hc. pose proof (child_at_ok n o c Hwf Hc) as Ho.
  rewrite child_count_law by done.
  assert (count_upto (has_child n) (Z.to_nat o) < count_upto (has_child n) 256); [|lia].
  apply count_upto_strict; [unfold u8_ok in Ho; lia|].
  rewrite has_child_at by done. by rewrite Hc, bool_decide_eq_true_2.
Qed.

Lemma prefix_count_pos n i v : stride_wf n -> prefix_at n i = Some v -> 1 <= prefix_count n.
Proof.
  intros Hwf Hc. pose proof (prefix_at_ok n i v Hwf Hc) as Hi.
  rewrite prefix_count_law by done.
  assert (count_upto (has_prefix n) (Z.to_nat i) < count_upto (has_prefix n) 256); [|lia].
  apply count_upto_strict; [unfold index_ok in Hi; lia|].
  rewrite has_prefix_at by done. by rewrite Hc, bool_decide_eq_true_2.
Qed.

(** The empty node, the start of every subtree. *)
Lemma twf_default h path : twf v4 (S h) path (node_default : N).
Proof.
  destruct (node_default_law (N:=N) (T:=T)) as (Hwf & Hc & _). split; [done|].
  intros o c Hlk. by rewrite Hc in Hlk.
Qed.

Lemma sub_default d p : sub d p (node_default : N) = None.
Proof.
  destruct (node_default_law (N:=N) (T:=T)) as (_ & Hc & Hp). unfold sub.
  destruct (drop d _); [done|]. cbn [find]. rewrite Hp, Hc. by case_decide.
Qed.

(** An update keeps the path children when it does not replace one. *)
Lemma has_path_child_updated n n' o c :
  child_updated n n' o c -> (forall m, child_at n o <> Some (Path m)) -> has_path n -> has_path n'.
Proof.
  intros (_ & Hc & _) Hne (o' & m & Hm). exists o', m. rewrite Hc.
  case_decide; [subst; by apply Hne in Hm|done].
Qed.

Lemma has_path_prefix_updated n n' i v : prefix_updated n n' i v -> has_path n -> has_path n'.
Proof. intros (_ & Hc & _) (o' & m & Hm). exists o', m. by rewrite Hc. Qed.

Lemma child_updated_path n n' o m :
  child_updated n n' o (Some (Path m)) -> has_path n'.
Proof. intros (_ & Hc & _). exists o, m. rewrite Hc. by rewrite decide_True. Qed.
End Updates.
