(* ===== verification/TrieUpdate.v ===== *)
(** * TrieUpdate: insertion, removal and modification update the routes

    [insert], [remove] and [modify] never panic on a well-formed trie, keep it
    well formed (path compression included) and change exactly one route. *)

From S2P Require Import Prelude Bitset Array256 BaseIndex IpNet Stride IpTrie TrieSpec.

Section Insert.
Context `{!IpNetOps, !IpNetLaws} {N T : Type}
  `{!StrideOps N T, !StrideView N T, !StrideLaws N T} (v4 : bool).
Implicit Types (n m : N) (p q : IpNet) (path : list Z) (v : T).

(** [n'] holds the routes of [n] with the one of [p] replaced by [r]. *)
Definition updated (h : nat) path n n' p (r : option T) : Prop :=
  twf v4 h path n' /\
  forall q, under v4 path q ->
    sub (length path) q n' = if decide (q = p) then r else sub (length path) q n.

(** What an insertion needs to leave a compressed node behind. *)
Definition fills (d : nat) n p : Prop := canon n \/ (1 <= occ n /\ sub d p n = None).

Definition insert_post (h : nat) path n n' p v : Prop :=
  updated h path n n' p (Some v) /\
  (fills (length path) n p -> canon n') /\ 1 <= occ n'.

Lemma child_updated_trans n n1 n2 o c1 c2 :
  child_updated n n1 o c1 -> child_updated n1 n2 o c2 -> child_updated n n2 o c2.
Proof.
  intros (_ & Hc1 & Hp1) (Hwf & Hc2 & Hp2). split; [done|]. split.
  - intros o'. rewrite Hc2, Hc1. by case_decide.
  - intros i. by rewrite Hp2, Hp1.
Qed.

Lemma child_updated_at n n' o c : child_updated n n' o c -> child_at n' o = c.
Proof. intros (_ & Hc & _). rewrite Hc. by rewrite decide_True. Qed.

(** Writing through a mutable reference to the path child at [o]. *)
Lemma write_path n o m :
  stride_wf n -> u8_ok o -> child_at n o = Some (Path m) ->
  exists w, get_child_mut n o = Ret (Some (Path m, w)) /\
    forall c, child_updated n (w c) o (Some c).
Proof.
  intros Hwf Ho Hc. pose proof (get_child_mut_law n o Hwf Ho) as Hg.
  by rewrite Hc in Hg.
Qed.

Definition insert_ok (h : nat) : Prop :=
  forall fuel path n p v,
    h <= fuel -> twf v4 h path n -> length path + h = width v4 -> under v4 path p ->
    exists n', insert_inner fuel n p v (length path) = Ret (n', sub (length path) p n) /\
      insert_post h path n n' p v.

(** The recursion into the path child. *)
Lemma insert_descend h fuel path n m o p v :
  insert_ok h -> h <= fuel -> length path + S h = width v4 ->
  stride_wf n -> u8_ok o -> child_at n o = Some (Path m) ->
  twf v4 h (path ++ [o]) m -> under v4 (path ++ [o]) p -> fills (S (length path)) m p ->
  exists n' m',
    (r ← get_child_mut n o;
     '(c, w) ← unwrap r;
     next ← unwrap (into_node c);
     '(next, ret) ← insert_inner fuel next p v (S (length path));
     Ret (w (Path next), ret)) = Ret (n', sub (S (length path)) p m) /\
    child_updated n n' o (Some (Path m')) /\
    updated h (path ++ [o]) m m' p (Some v) /\ canon m'.
Proof.
  intros IH Hf Hw Hwf Ho Hc Hm Hup Hfill.
  destruct (write_path n o m Hwf Ho Hc) as (w & -> & Hwr). mrun. cbn [into_node unwrap]. mrun.
  destruct (IH fuel (path ++ [o]) m p v) as (m' & Hi & Hupd & Hcan & _);
    [done..|rewrite length_app; simpl; lia|done|].
  rewrite length_app, Nat.add_1_r in Hi, Hcan. rewrite Hi. mrun.
  exists (w (Path m')), m'. split_and!; [done|apply Hwr|done|]. by apply Hcan.
Qed.

(** A prefix that ends in the stride of the node. *)
Lemma insert_last h path n o p v :
  twf v4 (S h) path n -> length path + S h = width v4 -> under v4 path p ->
  ip_octets (addr p) !! length path = Some o -> u8_ok o ->
  prefix_len p < 8 * length path + 8 ->
  exists n', insert_prefix n (fp o (Z.of_nat (prefix_len p - 8 * length path))) v
               = Ret (n', sub (length path) p n) /\ insert_post (S h) path n n' p v.
Proof.
  intros Hn Hw Hup Hlk Ho Hs. pose proof (twf_stride v4 _ _ _ Hn) as Hwf.
  pose proof Hup as (_ & Hl & _). rewrite (sub_step _ _ _ _ Hlk Hl), decide_True by done.
  assert (index_ok (fp o (Z.of_nat (prefix_len p - 8 * length path)))) as Hi
    by (apply fp_index_ok; [done|lia]).
  destruct (insert_prefix_law n _ v Hwf Hi) as (n' & -> & Hupd).
  exists n'. split; [done|].
  destruct (prefix_updated_counts n n' _ _ Hwf Hi Hupd) as [Hpc Hcc]. rewrite b2n_Some in Hpc.
  pose proof (b2n_le (prefix_at n (fp o (Z.of_nat (prefix_len p - 8 * length path))))) as Hb.
  split_and!.
  - split; [by eapply twf_prefix_updated|]. eapply sub_prefix_updated; [lia|done..].
  - unfold canon, occ. intros [[H2|H2]|[H1 H2]].
    + left. unfold occ in H2. lia.
    + right. by eapply has_path_prefix_updated.
    + left. rewrite (sub_step _ _ _ _ Hlk Hl), decide_True in H2 by done.
      rewrite H2, b2n_None in Hpc. unfold occ in H1. lia.
  - unfold occ. destruct Hupd as (Hwf' & _ & Hp).
    assert (1 <= prefix_count n'); [|lia]. eapply prefix_count_pos; [done|].
    rewrite Hp. by rewrite decide_True.
Qed.

(** An update of the child slot that leaves an entry there. *)
Lemma insert_post_child h path n n' o c p v :
  twf v4 (S h) path n -> length path + S h = width v4 -> u8_ok o ->
  under v4 (path ++ [o]) p -> child_updated n n' o (Some c) -> child_ok v4 h path o c ->
  (forall q, under v4 (path ++ [o]) q ->
     csub (length path) q (Some c)
     = if decide (q = p) then Some v else csub (length path) q (child_at n o)) ->
  ((forall m, child_at n o <> Some (Path m)) \/ has_path n') ->
  (child_at n o = None \/ csub (length path) p (child_at n o) <> None \/ has_path n') ->
  insert_post (S h) path n n' p v.
Proof.
  intros Hn Hw Ho Hup Hupd Hok Hin Hpath Hnew. pose proof (twf_stride v4 _ _ _ Hn) as Hwf.
  destruct (child_updated_counts n n' _ _ Hwf Ho Hupd) as [Hcc Hpc]. rewrite b2n_Some in Hcc.
  pose proof (b2n_le (child_at n o)) as Hb. split_and!.
  - split; [|eapply sub_child_updated; [lia|done..]].
    eapply twf_child_updated; [done..|]. by intros c' [= <-].
  - unfold canon, occ. intros [[H2|H2]|[H1 H2]].
    + left. unfold occ in H2. lia.
    + right. destruct Hpath as [Hpath|]; [|done]. by eapply has_path_child_updated.
    + destruct Hnew as [Hz|[Hz|]]; [|exfalso|by right].
      * rewrite Hz, b2n_None in Hcc. unfold occ in H1. left. lia.
      * apply under_snoc_inv in Hup as (Hpp & Hpo & Hpl).
        rewrite (sub_step _ _ _ o), decide_False in H2 by (done || lia). done.
  - unfold occ. pose proof (child_updated_at _ _ _ _ Hupd) as Hat.
    destruct Hupd as (Hwf' & _). pose proof (child_count_pos n' o c Hwf' Hat). lia.
Qed.

(** A free child slot takes a fringe or a leaf. *)
Lemma insert_free h path n o p v :
  twf v4 (S h) path n -> length path + S h = width v4 -> u8_ok o ->
  under v4 (path ++ [o]) p -> child_at n o = None ->
  exists n',
    (fringe ← is_fringe (length path) p;
     '(node, old) ← insert_child n o (if (fringe : bool) then Fringe v else Leaf p v);
     Ret (node, (old : option (Child N T)) ≫= into_value)) = Ret (n', None) /\
    insert_post (S h) path n n' p v.
Proof.
  intros Hn Hw Ho Hup Hc. pose proof (twf_stride v4 _ _ _ Hn) as Hwf.
  pose proof (under_snoc_inv _ _ _ _ Hup) as (Hpp & Hpo & Hpl).
  rewrite is_fringe_spec by done. mrun.
  destruct (insert_child_law n o (if bool_decide (prefix_len p = 8 * length path + 8)
    then Fringe v else Leaf p v) Hwf Ho) as (n' & -> & Hupd). mrun. rewrite Hc.
  exists n'. split; [done|].
  eapply insert_post_child; [done..| | |left; rewrite Hc; congruence|by left].
  - case_bool_decide; simpl; [done|]. split; [done|]. lia.
  - intros q Hq. rewrite Hc. case_bool_decide as Hfr; simpl.
    + destruct (decide (q = p)) as [->|Hne]; [by rewrite decide_True|].
      rewrite decide_False; [done|]. intros Hlq. apply Hne.
      by apply (under_fringe_inj v4 path _ _ o).
    + repeat case_decide; congruence.
Qed.

Lemma fp_one o l : u8_ok o -> l < 8 -> fp o (Z.of_nat l) = 1%Z <-> l = 0.
Proof.
  intros Ho Hl. pose proof (fp_bounds o (Z.of_nat l) Ho ltac:(lia)) as [H1 H2].
  split; [|intros ->; change (Z.of_nat 0) with 0%Z in *; simpl in *; lia].
  intros E. rewrite E in H1. destruct (decide (l = 0)) as [|Hne]; [done|].
  assert (2 ^ 1 <= 2 ^ Z.of_nat l)%Z by (apply Z.pow_le_mono_r; lia). lia.
Qed.

(** The node that takes the place of a leaf or fringe holds its route. *)
Definition seeds (h : nat) path o (c : Child N T) n0 : Prop :=
  twf v4 h (path ++ [o]) n0 /\ 1 <= occ n0 /\
  forall q, under v4 (path ++ [o]) q -> sub (S (length path)) q n0 = csub (length path) q (Some c).

Lemma seed_leaf h fuel path o q v :
  insert_ok (S h) -> S h <= fuel -> length path + S (S h) = width v4 ->
  under v4 (path ++ [o]) q ->
  exists n0 r, insert_inner fuel (node_default : N) q v (S (length path)) = Ret (n0, r) /\
    seeds (S h) path o (Leaf q v) n0.
Proof.
  intros IH Hf Hw Hq.
  destruct (IH fuel (path ++ [o]) node_default q v) as (n0 & Hi & [Ht Hs] & _ & Hocc);
    [done|apply twf_default|rewrite length_app; simpl; lia|done|].
  rewrite length_app, Nat.add_1_r in Hi, Hs. eexists n0, _. split; [exact Hi|].
  split_and!; [done..|]. intros q' Hq'. rewrite Hs, sub_default by done. simpl.
  repeat case_decide; congruence.
Qed.

Lemma seed_fringe h path o v :
  length path + S (S h) = width v4 ->
  exists n0 r, insert_prefix (node_default : N) 1 v = Ret (n0, r) /\
    seeds (S h) path o (Fringe v) n0.
Proof.
  intros Hw. pose proof (node_default_law (N:=N) (T:=T)) as (Hwf & Hdc & Hdp).
  destruct (insert_prefix_law (node_default : N) 1 v Hwf) as (n0 & -> & Hupd);
    [unfold index_ok; lia|].
  eexists n0, _. split; [done|]. pose proof Hupd as (Hwf' & Hc & Hp). split_and!.
  - eapply twf_prefix_updated; [apply twf_default|done].
  - unfold occ. assert (1 <= prefix_count n0); [|lia]. eapply (prefix_count_pos n0 1 v); [done|].
    rewrite Hp. done.
  - intros q Hq. pose proof Hq as (_ & Hl & _). rewrite length_app, Nat.add_1_r in Hl.
    destruct (under_octet _ _ _ Hq) as (o' & Ho' & Hu); [rewrite length_app; simpl; lia|].
    rewrite length_app, Nat.add_1_r in Ho'.
    rewrite (sub_step _ _ _ o') by done. cbn [csub]. rewrite Hc, Hdc, Hp, Hdp. cbn [csub].
    destruct (decide (prefix_len q < _)) as [Hs|Hs].
    + pose proof (fp_one o' (prefix_len q - 8 * S (length path)) Hu ltac:(lia)) as H1.
      repeat case_decide; try done; exfalso; tauto || lia.
    + rewrite decide_False by lia. done.
Qed.

(** Replacing a leaf or fringe by a path node, then going on below it. *)
Lemma insert_replace h fuel path n n1 w n0 o c p v :
  insert_ok (S h) -> S h <= fuel -> length path + S (S h) = width v4 ->
  twf v4 (S (S h)) path n -> u8_ok o -> child_at n o = Some c -> into_node c = None ->
  under v4 (path ++ [o]) p -> csub (length path) p (Some c) = None ->
  seeds (S h) path o c n0 ->
  child_updated n n1 o (Some (Path node_default)) ->
  (forall c', child_updated n1 (w c') o (Some c')) ->
  exists n', (r ← get_child_mut (w (Path n0)) o;
     '(c, w) ← unwrap r;
     next ← unwrap (into_node c);
     '(next, ret) ← insert_inner fuel next p v (S (length path));
     Ret (w (Path next), ret)) = Ret (n', None) /\
    insert_post (S (S h)) path n n' p v.
Proof.
  intros IH Hf Hw Hn Ho Hc Hnp Hup Hnone (Ht0 & Hocc0 & Hs0) Hupd1 Hw1.
  pose proof (Hw1 (Path n0)) as Hupd2.
  pose proof (child_updated_trans _ _ _ _ _ _ Hupd1 Hupd2) as Hupd.
  assert (sub (S (length path)) p n0 = None) as Hp0 by (by rewrite Hs0).
  destruct (insert_descend (S h) fuel path (w (Path n0)) n0 o p v)
    as (n' & m' & -> & Hupd' & [Ht' Hs'] & Hcan);
    [done..|apply Hupd|done|by eapply child_updated_at|done|done|by right|].
  rewrite Hp0. exists n'. split; [done|].
  pose proof (child_updated_trans _ _ _ _ _ _ Hupd Hupd') as Hall.
  pose proof (child_updated_path _ _ _ _ Hall) as Hhp.
  eapply insert_post_child; [done..|by split| |by right|by right; right].
  intros q Hq. rewrite Hc, <- Hs0 by done. cbn [csub].
  rewrite length_app, Nat.add_1_r in Hs'. by apply Hs'.
Qed.
Lemma child_test n o :
  stride_wf n -> u8_ok o ->
  Bitset.test (child_bitset n) (Z.to_nat o) = Ret (bool_decide (is_Some (child_at n o))).
Proof.
  intros Hwf Ho. destruct (child_bitset_law n Hwf) as [Hwb Hb].
  rewrite (test_spec 4) by (done || unfold u8_ok in Ho; lia).
  by rewrite Hb, has_child_at.
Qed.

(** Overwriting the value of the route itself. *)
Lemma insert_overwrite h path n w o c c' p v :
  twf v4 (S h) path n -> length path + S h = width v4 -> u8_ok o ->
  under v4 (path ++ [o]) p -> child_at n o = Some c -> into_node c = None ->
  (forall c', child_updated n (w c') o (Some c')) -> child_ok v4 h path o c' ->
  csub (length path) p (Some c) <> None ->
  (forall q, under v4 (path ++ [o]) q ->
     csub (length path) q (Some c') = if decide (q = p) then Some v
                                      else csub (length path) q (Some c)) ->
  insert_post (S h) path n (w c') p v.
Proof.
  intros Hn Hw Ho Hup Hc Hnp Hwr Hok Hsome Hin.
  eapply insert_post_child; [done..|apply Hwr|done| | |].
  - intros q Hq. rewrite Hc. by apply Hin.
  - left. rewrite Hc. by intros m [= ->].
  - right. left. by rewrite Hc.
Qed.

Theorem insert_inner_spec h : insert_ok h.
Proof.
  induction h as [|h IH]; intros fuel path n p v Hf Hn Hw Hup; [done|].
  destruct fuel as [|fuel]; [lia|]. cbn [insert_inner].
  unfold stride_count_and_overflow.
  destruct (under_octet _ _ _ Hup) as (o & Hlk & Ho); [lia|]. rewrite Hlk.
  pose proof Hup as (_ & Hl & _). pose proof (twf_stride v4 _ _ _ Hn) as Hwf.
  destruct (last_stride _ _ Hl) as [Hlast Hmod].
  destruct (decide (length path = prefix_len p / 8)) as [Hd|Hd].
  { apply Hlast in Hd. rewrite Hmod by done. rewrite from_prefix_fp by (done || lia). mrun.
    by apply insert_last. }
  assert (8 * length path + 8 <= prefix_len p) as Hlong by (apply Nat.le_ngt; tauto).
  pose proof (under_snoc _ _ _ _ Hup Hlk Hlong) as Hup'.
  rewrite child_test by done. mrun.
  rewrite (sub_step _ _ _ o Hlk Hl), decide_False by lia.
  destruct (child_at n o) as [c|] eqn:Hc.
  2:{ by apply insert_free. }
  rewrite bool_decide_eq_true_2 by done. cbn [negb].
  pose proof (get_child_mut_law n o Hwf Ho) as Hg. rewrite Hc in Hg.
  destruct Hg as (w & Hg & Hwr). rewrite Hg. mrun.
  pose proof (prefix_len_le v4 p (proj1 (proj1 Hup))) as Hmax.
  pose proof Hn as [_ Hcok]. specialize (Hcok o c Hc).
  destruct (insert_child_law n o (into_child node_default) Hwf Ho) as (n1 & Hi1 & Hupd1).
  rewrite Hi1, Hc. mrun.
  destruct (write_path n1 o node_default) as (w1 & Hg1 & Hw1);
    [apply Hupd1|done|by eapply child_updated_at|].
  destruct c as [m|q v0|v0].
  - destruct Hcok as [Hm Hcan].
    destruct (insert_descend h fuel path n m o p v) as (n' & m' & Hd' & Hupd & [Ht Hs] & Hcan');
      [done|lia|done..|by left|].
    rewrite Hg in Hd'. exists n'. split; [exact Hd'|].
    pose proof (child_updated_path _ _ _ _ Hupd) as Hhp.
    eapply insert_post_child; [done..|by split| |by right|by right; right].
    intros q Hq. rewrite Hc. cbn [csub]. rewrite length_app, Nat.add_1_r in Hs. by apply Hs.
  - destruct Hcok as [Hq Hql]. destruct (decide (p = q)) as [->|Hne].
    + exists (w (Leaf q v)). cbn [csub]. rewrite decide_True by done. split; [done|].
      eapply insert_overwrite; [done..| |].
      * cbn [csub]. by rewrite decide_True.
      * intros q' _. cbn [csub]. repeat case_decide; congruence.
    + destruct h as [|h]; [destruct Hq as ([Hqv _] & _);
        pose proof (prefix_len_le v4 q Hqv); lia|].
      rewrite Hg1. mrun.
      destruct (seed_leaf h fuel path o q v0) as (n0 & r & -> & Hseed); [done|lia|done..|]. mrun.
      cbn [csub]. rewrite decide_False by done.
      eapply insert_replace; [done|lia|done|done|done|done|done|done| |done|done|done].
      cbn [csub]. by rewrite decide_False.
  - rewrite is_fringe_spec by done. mrun. cbn [csub]. case_bool_decide as Hfr.
    + exists (w (Fringe v)). rewrite decide_True by done. split; [done|].
      eapply insert_overwrite; [done..| |].
      * cbn [csub]. by rewrite decide_True.
      * intros q' Hq'. cbn [csub]. destruct (decide (q' = p)) as [->|Hne]; [by rewrite decide_True|].
        case_decide as Hlq; [|done]. destruct Hne. by apply (under_fringe_inj v4 path _ _ o).
    + destruct h as [|h]; [lia|]. rewrite decide_False by done. rewrite Hg1. mrun.
      change (new 1) with (Ret 1%Z). mrun.
      destruct (seed_fringe h path o v0) as (n0 & r & -> & Hseed); [done|]. mrun.
      eapply insert_replace; [done|lia|done|done|done|done|done|done| |done|done|done].
      cbn [csub]. by rewrite decide_False.
Qed.
End Insert.
