(* ===== verification/TrieRemove.v ===== *)
(** * TrieRemove: removal and modification

    The specification of [try_remove_last_child], [compress_removal_path],
    [modify] and [remove]. *)

From S2P Require Import Prelude Bitset Array256 BaseIndex IpNet Stride IpTrie TrieSpec TrieUpdate.

(** ** Rebuilding a prefix from a path *)

Section Rebuild.
Context `{!IpNetOps, !IpNetLaws} (v4 : bool).
Implicit Types (path : list Z).

Lemma mask_octets_built path o l k :
  Forall u8_ok path -> Z.land o (mask8 l) = o -> l <= 8 ->
  mask_octets (8 * length path + l) (path ++ o :: replicate k 0%Z)
  = path ++ o :: replicate k 0%Z.
Proof.
  intros Hp Ho Hl. induction Hp as [|x path Hx Hp IH].
  - cbn [app length mask_octets]. replace (8 * 0 + l) with l by lia.
    rewrite Ho. replace (l - 8) with 0 by lia.
    by rewrite mask_octets_0, length_replicate.
  - rewrite <- app_comm_cons. cbn [mask_octets length].
    rewrite land_mask8_full by (done || lia).
    replace (8 * S (length path) + l - 8) with (8 * length path + l) by lia. by rewrite IH.
Qed.

(** The prefix of [8 * length path + l] bits that continues [path] by [o]. *)
Lemma net_built path o l :
  Forall u8_ok path -> u8_ok o -> Z.land o (mask8 l) = o -> l <= 8 -> length path < width v4 ->
  exists p, new_assert (mk_addr v4 (path ++ o :: replicate (width v4 - S (length path)) 0%Z))
              (8 * length path + l) = Ret p /\
    under v4 path p /\ ip_octets (addr p) !! length path = Some o /\
    prefix_len p = 8 * length path + l.
Proof.
  intros Hp Ho Hm Hl Hw. set (os := path ++ o :: _).
  destruct (new_assert_ok (mk_addr v4 os) (8 * length path + l)) as (p & -> & Ha & Hpl).
  - split; rewrite mk_addr_octets; [rewrite mk_addr_is_ipv4; unfold os|].
    + rewrite length_app. cbn [length]. rewrite length_replicate. lia.
    + unfold os. apply Forall_app_2; [done|]. constructor; [done|].
      apply Forall_replicate. unfold u8_ok. lia.
  - rewrite mk_addr_is_ipv4. lia.
  - exists p.
    assert (ip_octets (addr p) = os) as Hos by (rewrite Ha; apply mk_addr_octets).
    split_and!; [done| |rewrite Hos; unfold os; by rewrite list_lookup_middle|done].
    split_and!; [|lia|rewrite Hos; unfold os; by rewrite take_app_length].
    split; [rewrite Ha; apply mk_addr_is_ipv4|]. apply ipnet_ext; [|apply trunc_len].
    rewrite trunc_addr, Hpl, Ha. unfold mask_addr. rewrite mk_addr_octets, mk_addr_is_ipv4.
    f_equal. by apply mask_octets_built.
Qed.

Lemma ip_from_path_built path o :
  length path < width v4 ->
  ip_from_path (path ++ o :: replicate (15 - length path) 0%Z) v4
  = mk_addr v4 (path ++ o :: replicate (width v4 - S (length path)) 0%Z).
Proof.
  intros Hw. unfold ip_from_path, mk_addr. destruct v4; simpl in Hw; [|done].
  f_equal. rewrite take_app, take_ge by lia. f_equal.
  destruct (4 - length path) as [|k] eqn:E; [lia|]. simpl. f_equal.
  rewrite take_replicate. f_equal. simpl width. lia.
Qed.

Lemma width_le : width v4 <= 16.
Proof. destruct v4; simpl; lia. Qed.

Lemma land_depth d : d < 16 -> Nat.land d DEPTH_MASK = d.
Proof.
  intros Hd. change DEPTH_MASK with (Nat.ones 4). rewrite Nat.land_ones.
  apply Nat.mod_small. exact Hd.
Qed.

Lemma path_u8 path (p : IpNet) : under v4 path p -> Forall u8_ok path.
Proof. intros (_ & _ & <-). apply Forall_take, addr_ok. Qed.

Lemma prefix_from_path_spec path p i :
  under v4 path p -> length path < width v4 -> index_ok i ->
  exists q, prefix_from_path (ip_octets (addr p)) (length path) v4 i = Ret q /\
    under v4 path q /\ prefix_len q < 8 * length path + 8 /\
    exists o, ip_octets (addr q) !! length path = Some o /\
      fp o (Z.of_nat (prefix_len q - 8 * length path)) = i.
Proof.
  intros Hup Hw Hi. pose proof width_le. pose proof (index_fp i Hi) as (Hu & Hl & Hfp).
  pose proof (prefix_fp _ _ Hu Hl) as Hpf. rewrite Hfp in Hpf.
  unfold prefix_from_path. rewrite land_depth by lia.
  destruct (prefix i) as [o l] eqn:E. cbn [fst snd] in *.
  rewrite Nat.min_r by (destruct Hup as ([Hv _] & _); rewrite (octets_len v4 p Hv); lia).
  pose proof Hup as (_ & _ & Ht). rewrite Ht.
  rewrite drop_replicate. change MAX_DEPTH with 16.
  rewrite upd_lt by (rewrite length_app, length_replicate; lia). mrun.
  replace (16 - length path) with (S (15 - length path)) by lia. cbn [replicate].
  rewrite insert_app_r_alt, Nat.sub_diag by lia.
  change (<[0:=o]> (0%Z :: replicate (15 - length path) 0%Z))
    with (o :: replicate (15 - length path) 0%Z).
  rewrite ip_from_path_built by done.
  replace (length path * 8 + Z.to_nat l) with (8 * length path + Z.to_nat l) by lia.
  destruct (net_built path o (Z.to_nat l)) as (q & -> & Huq & Hq & Hql);
    [by eapply path_u8|done| |lia|done|].
  { unfold mask8. rewrite Nat.min_l, Z2Nat.id by lia. congruence. }
  exists q. split_and!; [done..|lia|]. exists o. split; [done|].
  rewrite Hql. replace (8 * length path + Z.to_nat l - 8 * length path) with (Z.to_nat l) by lia.
  by rewrite Z2Nat.id by lia.
Qed.

Lemma fringe_prefix_spec path p o :
  under v4 path p -> length path < width v4 -> u8_ok o ->
  exists q, fringe_prefix (ip_octets (addr p)) (length path) v4 o = Ret q /\
    under v4 (path ++ [o]) q /\ prefix_len q = 8 * length path + 8.
Proof.
  intros Hup Hw Ho. pose proof width_le. unfold fringe_prefix. rewrite land_depth by lia.
  pose proof Hup as ([Hv _] & _ & Ht).
  assert ((fun i => if decide (length path < i) then 0%Z
    else if decide (i = length path) then o else default 0%Z (ip_octets (addr p) !! i))
    <$> seq 0 MAX_DEPTH = path ++ o :: replicate (15 - length path) 0%Z) as ->.
  { apply list_eq. intros i. rewrite list_lookup_fmap.
    destruct (Nat.lt_ge_cases i 16) as [Hi|Hi].
    - rewrite lookup_seq_lt by done. simpl. destruct (Nat.lt_total i (length path)) as [|[->|]].
      + rewrite decide_False, decide_False by lia. rewrite lookup_app_l by done.
        rewrite <- Ht at 1. rewrite lookup_take_lt by done.
        destruct (lookup_lt_is_Some_2 (ip_octets (addr p)) i) as [x Hx]; [|by rewrite Hx].
        rewrite (octets_len v4 p Hv). lia.
      + rewrite decide_False, decide_True by lia. by rewrite list_lookup_middle.
      + rewrite decide_True by lia. rewrite lookup_app_r by lia.
        destruct (i - length path) as [|k] eqn:E; [lia|]. simpl. symmetry.
        apply lookup_replicate_2. lia.
    - rewrite lookup_seq_ge by done. simpl. symmetry. apply lookup_ge_None_2.
      rewrite length_app. cbn [length]. rewrite length_replicate. lia. }
  rewrite ip_from_path_built by done.
  replace ((length path + 1) * 8) with (8 * length path + 8) by lia.
  destruct (net_built path o 8) as (q & -> & Huq & Hq & Hql);
    [by eapply path_u8|done|by apply land_mask8_full|lia|done|].
  exists q. split_and!; [done| |done]. apply under_snoc; [done..|lia].
Qed.
End Rebuild.

(** ** The last entry of a node *)

Section Last.
Context `{!IpNetOps, !IpNetLaws} {N T : Type}
  `{!StrideOps N T, !StrideView N T, !StrideLaws N T} (v4 : bool).
Implicit Types (n m : N) (p q : IpNet) (path : list Z) (v : T).

(** [n] holds the single route [info]. *)
Definition single path n (info : RemovalInfo T) : Prop :=
  under v4 path (node_prefix info) /\
  forall q, under v4 path q ->
    sub (length path) q n
    = if decide (q = node_prefix info) then Some (info_value info) else None.

Lemma count_zero (f : nat -> bool) (m i : nat) : count_upto f m = 0 -> i < m -> f i = false.
Proof.
  intros Hc Hi. destruct (f i) eqn:E; [|done].
  pose proof (count_upto_strict f i m Hi E). lia.
Qed.

Lemma count_one (f : nat -> bool) (m i j : nat) :
  count_upto f m = 1 -> i < m -> j < m -> f i = true -> f j = true -> i = j.
Proof.
  intros Hc Hi Hj Ei Ej. destruct (Nat.lt_total i j) as [Hlt|[?|Hlt]]; [exfalso|done|exfalso].
  - pose proof (count_upto_strict f i j Hlt Ei). pose proof (count_upto_strict f j m Hj Ej). lia.
  - pose proof (count_upto_strict f j i Hlt Ej). pose proof (count_upto_strict f i m Hi Ei). lia.
Qed.

Lemma no_child n o : stride_wf n -> child_count n = 0 -> child_at n o = None.
Proof.
  intros Hwf Hz. destruct (child_at n o) as [c|] eqn:E; [|done].
  pose proof (child_count_pos n o c Hwf E). lia.
Qed.

Lemma no_prefix n i : stride_wf n -> prefix_count n = 0 -> prefix_at n i = None.
Proof.
  intros Hwf Hz. destruct (prefix_at n i) as [c|] eqn:E; [|done].
  pose proof (prefix_count_pos n i c Hwf E). lia.
Qed.

(** The only child of a node, as the code finds it. *)
Lemma only_child n :
  stride_wf n -> child_count n = 1 ->
  exists i c, first_set (child_bitset n) = Some i /\ (Z.of_nat i mod 256 = Z.of_nat i)%Z /\
    u8_ok (Z.of_nat i) /\ child_at n (Z.of_nat i) = Some c /\
    forall o, o <> Z.of_nat i -> child_at n o = None.
Proof.
  intros Hwf H1. destruct (child_bitset_law n Hwf) as [Hwb Hb].
  rewrite child_count_law in H1 by done.
  pose proof (first_set_least 4 _ Hwb) as Hl. destruct (first_set _) as [i|]; simpl in Hl.
  - destruct Hl as (_ & Hi & _). rewrite Hb in Hi. pose proof Hi as Hi'.
    apply bool_decide_eq_true in Hi' as [c Hc]. pose proof (child_at_ok _ _ _ Hwf Hc) as Hu.
    exists i, c. split_and!; [done| |done|done|].
    + apply Z.mod_small. unfold u8_ok in Hu. lia.
    + intros o Hne. destruct (child_at n o) as [c'|] eqn:E; [|done]. exfalso. apply Hne.
      pose proof (child_at_ok _ _ _ Hwf E) as Hu'. unfold u8_ok in *.
      rewrite <- (Z2Nat.id o) by lia. f_equal.
      apply (count_one (has_child n) 256); [done|lia|lia| |done].
      rewrite has_child_at by done. by rewrite E, bool_decide_eq_true_2.
  - rewrite count_upto_false in H1; [done|]. intros i _. rewrite <- Hb. apply Hl. lia.
Qed.

Lemma only_prefix n :
  stride_wf n -> prefix_count n = 1 ->
  exists i v, first_set (prefix_bitset n) = Some i /\ (Z.of_nat i mod 256 = Z.of_nat i)%Z /\
    index_ok (Z.of_nat i) /\ prefix_at n (Z.of_nat i) = Some v /\
    forall j, j <> Z.of_nat i -> prefix_at n j = None.
Proof.
  intros Hwf H1. destruct (prefix_bitset_law n Hwf) as [Hwb Hb].
  rewrite prefix_count_law in H1 by done.
  pose proof (first_set_least 4 _ Hwb) as Hl. destruct (first_set _) as [i|]; simpl in Hl.
  - destruct Hl as (_ & Hi & _). rewrite Hb in Hi. pose proof Hi as Hi'.
    apply bool_decide_eq_true in Hi' as [c Hc]. pose proof (prefix_at_ok _ _ _ Hwf Hc) as Hu.
    exists i, c. split_and!; [done| |done|done|].
    + apply Z.mod_small. unfold index_ok in Hu. lia.
    + intros o Hne. destruct (prefix_at n o) as [c'|] eqn:E; [|done]. exfalso. apply Hne.
      pose proof (prefix_at_ok _ _ _ Hwf E) as Hu'. unfold index_ok in *.
      rewrite <- (Z2Nat.id o) by lia. f_equal.
      apply (count_one (has_prefix n) 256); [done|lia|lia| |done].
      rewrite has_prefix_at by done. by rewrite E, bool_decide_eq_true_2.
  - rewrite count_upto_false in H1; [done|]. intros i _. rewrite <- Hb. apply Hl. lia.
Qed.

(** A node with one prefix and no child. *)
Lemma single_prefix path n q i v :
  stride_wf n -> length path < width v4 -> child_count n = 0 ->
  prefix_at n i = Some v -> (forall j, j <> i -> prefix_at n j = None) ->
  under v4 path q -> prefix_len q < 8 * length path + 8 ->
  (exists o, ip_octets (addr q) !! length path = Some o /\
     fp o (Z.of_nat (prefix_len q - 8 * length path)) = i) ->
  forall c, single path n (mkRemovalInfo v c q).
Proof.
  intros Hwf Hw Hc0 Hv Hoth Huq Hs (o & Ho & Hfp) c. split; [done|]. simpl. intros q' Hq'.
  destruct (under_octet _ _ _ Hq' Hw) as (o' & Ho' & Hu'). pose proof Hq' as (_ & Hl' & _).
  rewrite (sub_step _ _ _ o') by done. rewrite (no_child n) by done.
  destruct (decide (prefix_len q' < 8 * length path + 8)) as [Hs'|Hs'].
  - destruct (decide (q' = q)) as [->|Hne].
    + replace o' with o by congruence. by rewrite Hfp.
    + apply Hoth. intros E. apply Hne. eapply (under_prefix_inj v4 path); [done..|].
      by rewrite E.
  - case_decide; [subst; lia|done].
Qed.

(** A node with one leaf or fringe and no prefix. *)
Lemma single_child path n q o c v :
  stride_wf n -> length path < width v4 -> prefix_count n = 0 ->
  child_at n o = Some c -> (forall o', o' <> o -> child_at n o' = None) ->
  under v4 (path ++ [o]) q ->
  (forall q', under v4 (path ++ [o]) q' ->
     csub (length path) q' (Some c) = if decide (q' = q) then Some v else None) ->
  forall d, single path n (mkRemovalInfo v d q).
Proof.
  intros Hwf Hw Hp0 Hc Hoth Huq Hin d.
  apply under_snoc_inv in Huq as Hq. destruct Hq as (Hq & Hqo & Hql).
  split; [done|]. simpl. intros q' Hq'.
  destruct (under_octet _ _ _ Hq' Hw) as (o' & Ho' & Hu'). pose proof Hq' as (_ & Hl' & _).
  rewrite (sub_step _ _ _ o') by done. rewrite (no_prefix n) by done.
  destruct (decide (prefix_len q' < 8 * length path + 8)) as [Hs'|Hs'].
  - case_decide; [subst; lia|done].
  - destruct (decide (o' = o)) as [->|Hne].
    + rewrite Hc. apply Hin. apply under_snoc; [done..|lia].
    + rewrite Hoth by done. case_decide; [subst; congruence|done].
Qed.

(** [try_remove_last_child] at depth [length path]: it takes the last entry
    of the node, unless there is more or nothing to take. *)
Lemma try_remove_last_child_spec h path n p c :
  twf v4 (S h) path n -> length path + S h = width v4 -> under v4 path p ->
  c <= length path -> (c = length path -> path = []) ->
  (path <> [] -> 1 <= occ n) ->
  exists n' info,
    try_remove_last_child n (ip_octets (addr p)) (length path) v4 c = Ret (n', info) /\
    match info with
    | None => n' = n /\ (path <> [] -> canon n)
    | Some info => compression_root_depth info = c /\ c < length path /\ single path n info
    end.
Proof.
  intros Hn Hw Hup Hc Hroot Hocc. unfold try_remove_last_child.
  destruct (decide (length path = c)) as [E|Hne].
  { exists n, None. split_and!; [done..|]. intros Hp. by destruct Hp; apply Hroot. }
  pose proof (twf_stride v4 _ _ _ Hn) as Hwf.
  assert (path <> []) as Hpath by (intros ->; simpl in *; lia). specialize (Hocc Hpath).
  unfold canon. unfold occ in *.
  destruct (child_count n) as [|[|k]] eqn:Ecc.
  - destruct (prefix_count n) as [|[|k]] eqn:Epc; [lia| |].
    2:{ exists n, None. split_and!; [done..|]. left. unfold occ. lia. }
    destruct (only_prefix n Hwf Epc) as (i & v & -> & Hmod & Hi & Hv & Hoth). mrun.
    rewrite Hmod. unfold new, try_new. rewrite decide_False by (unfold index_ok in Hi; lia). mrun.
    destruct (remove_prefix_law n _ Hwf Hi) as (n' & -> & Hupd). rewrite Hv. mrun.
    destruct (prefix_from_path_spec v4 path p _ Hup ltac:(lia) Hi) as (q & -> & Hq & Hqs & Hqo).
    mrun. eexists _, _. split; [done|]. simpl. split_and!; [done|lia|].
    eapply single_prefix; [done|lia|done..].
  - destruct (prefix_count n) as [|k] eqn:Epc.
    2:{ exists n, None. split; [by destruct k|]. split; [done|]. left. unfold occ. lia. }
    destruct (only_child n Hwf Ecc) as (i & ch & -> & Hmod & Hi & Hch & Hoth). mrun.
    rewrite Hmod, get_child_law, Hch by done. mrun.
    destruct (remove_child_law n _ Hwf Hi) as (n' & Hrem & Hupd). rewrite Hch in Hrem.
    pose proof Hn as [_ Hcok]. specialize (Hcok _ _ Hch).
    destruct ch as [m|q v|v].
    + exists n, None. split_and!; [done..|]. right. by exists (Z.of_nat i), m.
    + rewrite Hrem. mrun. eexists _, _. split; [done|]. simpl. split_and!; [done|lia|].
      destruct Hcok as [Hq Hql]. eapply single_child; [done|lia|done..|].
      intros q' _. simpl. repeat case_decide; congruence.
    + rewrite Hrem. mrun.
      destruct (fringe_prefix_spec v4 path p _ Hup ltac:(lia) Hi) as (q & -> & Hq & Hql).
      mrun. eexists _, _. split; [done|]. cbn [compression_root_depth]. split_and!; [done|lia|].
      eapply single_child; [done|lia|done..|]. intros q' Hq'. cbn [csub].
      destruct (decide (q' = q)) as [->|Hq'ne]; [by rewrite decide_True|].
      rewrite decide_False; [done|]. intros Hl'. apply Hq'ne.
      by apply (under_fringe_inj v4 path _ _ (Z.of_nat i)).
  - exists n, None. split; [done|]. split; [done|]. left. unfold occ. lia.
Qed.
End Last.

(** ** Modification *)

(** The value a closure leaves for a route, and what [modify] returns. *)
Definition apply_mod {T} (f : ModifyFn T) (r : option T) : option T * option T :=
  match r with
  | None => match on_none f with Insert t => (Some t, None) | _ => (None, None) end
  | Some v =>
      let '(v', action) := on_some f v in
      match action with
      | Noop => (Some v', None)
      | Insert t => (Some t, Some v')
      | Remove => (None, Some v')
      end
  end.

(** The closure's answer on the stored value. *)
Definition answer {T} (f : ModifyFn T) (r : option T) : RouteModification T :=
  match r with Some v => (on_some f v).2 | None => on_none f end.

Section Modify.
Context `{!IpNetOps, !IpNetLaws} {N T : Type}
  `{!StrideOps N T, !StrideView N T, !StrideLaws N T} (v4 : bool).
Implicit Types (n m : N) (p q : IpNet) (path : list Z) (v : T).

(** What [modify_inner] leaves at a node: either the final node, or a
    collapsed chain that starts above it, or a compression to be done below. *)
Definition mod_post (h : nat) path n n1 p (r : option T) (c : nat)
    (info : option (RemovalInfo T)) : Prop :=
  match info with
  | None => updated v4 h path n n1 p r /\ (path <> [] -> canon n1)
  | Some i =>
      let e := compression_root_depth i in
      under v4 path (node_prefix i) /\
      ((e = c /\ e < length path /\ r = None /\ node_prefix i <> p /\
        forall q, under v4 path q -> q <> p ->
          sub (length path) q n = if decide (q = node_prefix i) then Some (info_value i) else None)
       \/ (length path <= e < width v4 /\
           exists n2, at_path (take (e - length path)
                               (drop (length path) (ip_octets (addr (node_prefix i)))))
                        n1 (compress_at i) = Ret n2 /\
             updated v4 h path n n2 p r /\ (path <> [] -> canon n2)))
  end.

Lemma prefix_updated_trans n n1 n2 i r1 r2 :
  prefix_updated n n1 i r1 -> prefix_updated n1 n2 i r2 -> prefix_updated n n2 i r2.
Proof.
  intros (_ & Hc1 & Hp1) (Hwf & Hc2 & Hp2). split; [done|]. split.
  - intros o. by rewrite Hc2, Hc1.
  - intros j. rewrite Hp2, Hp1. by case_decide.
Qed.

Lemma prefix_put h path n n' o p r :
  twf v4 (S h) path n -> length path + S h = width v4 -> under v4 path p ->
  ip_octets (addr p) !! length path = Some o -> u8_ok o ->
  prefix_len p < 8 * length path + 8 ->
  prefix_updated n n' (fp o (Z.of_nat (prefix_len p - 8 * length path))) r ->
  updated v4 (S h) path n n' p r /\ (canon n -> 1 <= occ n') /\
  (is_Some r -> canon n -> canon n').
Proof.
  intros Hn Hw Hup Hlk Ho Hs Hupd. pose proof (twf_stride v4 _ _ _ Hn) as Hwf.
  pose proof Hup as (_ & Hl & _).
  assert (index_ok (fp o (Z.of_nat (prefix_len p - 8 * length path)))) as Hi
    by (apply fp_index_ok; [done|lia]).
  destruct (prefix_updated_counts n n' _ _ Hwf Hi Hupd) as [Hpc Hcc].
  pose proof (b2n_le (prefix_at n (fp o (Z.of_nat (prefix_len p - 8 * length path))))) as Hb.
  split_and!.
  - split; [by eapply twf_prefix_updated|]. eapply sub_prefix_updated; [lia|done..].
  - intros [H2|H2]; unfold occ in *; [lia|].
    apply (has_path_prefix_updated _ _ _ _ Hupd) in H2 as (o' & m & Hm).
    pose proof (child_count_pos n' o' _ (proj1 Hupd) Hm). lia.
  - intros [v ->] [H2|H2]; [left; rewrite b2n_Some in Hpc; unfold occ in *; lia|].
    right. by eapply has_path_prefix_updated.
Qed.

Lemma child_put h path n n' o c p r :
  twf v4 (S h) path n -> length path + S h = width v4 -> u8_ok o ->
  under v4 (path ++ [o]) p -> (forall m, child_at n o <> Some (Path m)) ->
  child_updated n n' o c -> (forall c', c = Some c' -> child_ok v4 h path o c') ->
  (forall q, under v4 (path ++ [o]) q ->
     csub (length path) q c = if decide (q = p) then r else csub (length path) q (child_at n o)) ->
  updated v4 (S h) path n n' p r /\ (canon n -> 1 <= occ n') /\
  (is_Some c -> canon n -> canon n').
Proof.
  intros Hn Hw Ho Hup Hnp Hupd Hok Hin. pose proof (twf_stride v4 _ _ _ Hn) as Hwf.
  destruct (child_updated_counts n n' _ _ Hwf Ho Hupd) as [Hcc Hpc].
  pose proof (b2n_le (child_at n o)) as Hb. split_and!.
  - split; [by eapply twf_child_updated|]. eapply sub_child_updated; [lia|done..].
  - intros [H2|H2]; unfold occ in *; [lia|].
    apply (has_path_child_updated _ _ _ _ Hupd Hnp) in H2 as (o' & m & Hm).
    pose proof (child_count_pos n' o' _ (proj1 Hupd) Hm). lia.
  - intros [x ->] [H2|H2]; [left; rewrite b2n_Some in Hcc; unfold occ in *; lia|].
    right. by eapply has_path_child_updated.
Qed.

(** The tail of a removal: the node without the route, then its last entry. *)
Lemma remove_tail h path n n' p c {A B} (x : A) (g : N * (A * option (RemovalInfo T)) -> B) :
  length path + S h = width v4 -> under v4 path p ->
  c <= length path -> (c = length path -> path = []) -> (path <> [] -> canon n) ->
  updated v4 (S h) path n n' p None -> (canon n -> 1 <= occ n') ->
  exists n1 info,
    ('(node, info) ← try_remove_last_child n' (ip_octets (addr p)) (length path) v4 c;
     Ret (g (node, (x, info)))) = Ret (g (n1, (x, info))) /\
    mod_post (S h) path n n1 p None c info.
Proof.
  intros Hw Hup Hc Hroot Hcan [Ht Hs] Hocc.
  destruct (try_remove_last_child_spec v4 h path n' p c) as (n1 & info & -> & Hinfo);
    [done..|auto|]. mrun.
  exists n1, info. split; [done|]. destruct info as [i|]; simpl.
  - destruct Hinfo as (He & Hlt & Hunder & Hsingle). split; [done|]. left.
    pose proof (Hsingle _ Hunder) as Hnp. rewrite decide_True in Hnp by done.
    assert (node_prefix i <> p) as Hne.
    { intros E. rewrite Hs, decide_True in Hnp by done. done. }
    split_and!; [done|lia|done|done|]. intros q Hq Hqp.
    rewrite <- Hsingle, Hs by done. by rewrite decide_False.
  - destruct Hinfo as [-> Hc']. split; [by split|done].
Qed.

(** The collapsed chain below [o] is cut off and its route re-inserted. *)
Lemma compress_at_spec h path n n1 m m1 o p i :
  twf v4 (S h) path n -> length path + S h = width v4 -> u8_ok o ->
  child_at n o = Some (Path m) -> child_updated n n1 o (Some (Path m1)) ->
  compression_root_depth i = length path ->
  under v4 (path ++ [o]) p -> under v4 (path ++ [o]) (node_prefix i) -> node_prefix i <> p ->
  (forall q, under v4 (path ++ [o]) q -> q <> p ->
     sub (S (length path)) q m
     = if decide (q = node_prefix i) then Some (info_value i) else None) ->
  exists n2, compress_at i n1 = Ret n2 /\ updated v4 (S h) path n n2 p None /\
    (2 <= occ n -> canon n2).
Proof.
  intros Hn Hw Ho Hc Hupd1 He Hp Hi Hne Hin. pose proof (twf_stride v4 _ _ _ Hn) as Hwf.
  pose proof (under_snoc_inv _ _ _ _ Hi) as (Hiu & Hio & Hil).
  unfold compress_at. rewrite He, (proj2 (idx_Ret _ _ _) Hio). mrun.
  destruct (remove_child_law n1 o (proj1 Hupd1) Ho) as (n1' & -> & Hupd1'). mrun.
  rewrite (child_updated_at _ _ _ _ Hupd1). mrun.
  pose proof (child_updated_trans _ _ _ _ _ _ Hupd1 Hupd1') as Hupd.
  assert (twf v4 (S h) path n1') as Hn1' by (eapply twf_child_updated; [done..|by intros]).
  pose proof (width_le v4) as Hle.
  destruct (insert_inner_spec v4 (S h) 17 path n1' (node_prefix i) (info_value i))
    as (n2 & -> & [Ht2 Hs2] & Hcan & _); [lia|done..|]. mrun.
  exists n2. split; [done|].
  pose proof Hupd as (_ & Hcat & Hpat).
  assert (sub (length path) (node_prefix i) n1' = None) as Hi1.
  { rewrite (sub_step _ _ _ o), decide_False by (done || lia).
    by rewrite (child_updated_at _ _ _ _ Hupd). }
  split; [split; [done|]|].
  - intros q Hq. rewrite Hs2 by done.
    destruct (under_octet _ _ _ Hq) as (o' & Ho' & _); [lia|]. pose proof Hq as (_ & Hql & _).
    pose proof (under_snoc_inv _ _ _ _ Hp) as (_ & Hpo & Hpl).
    rewrite !(sub_step _ q _ o') by done. rewrite Hpat, Hcat.
    destruct (decide (prefix_len q < 8 * length path + 8)) as [Hsh|Hsh].
    { repeat case_decide; subst; try done; lia. }
    destruct (decide (o' = o)) as [->|Hneo].
    + rewrite Hc. cbn [csub]. assert (under v4 (path ++ [o]) q) as Hqo
        by (apply under_snoc; [done..|lia]).
      destruct (decide (q = p)) as [->|Hqp]; [by rewrite decide_False|].
      rewrite Hin by done. done.
    + repeat case_decide; subst; congruence.
  - intros H2. apply Hcan. right. split; [|done].
    destruct (child_updated_counts n n1' _ _ Hwf Ho Hupd) as [Hcc Hpc].
    rewrite Hc, b2n_Some in Hcc. unfold occ in *. lia.
Qed.

(** A deletable node has nothing but its only child. *)
Lemma deletable_only n o c :
  stride_wf n -> child_at n o = Some c -> child_count n = 1 -> prefix_count n = 0 ->
  (forall i, prefix_at n i = None) /\ forall o', o' <> o -> child_at n o' = None.
Proof.
  intros Hwf Hc H1 Hz0. split; [intros; by apply no_prefix|]. intros o' Hne.
  destruct (only_child n Hwf H1) as (i & c' & _ & _ & _ & Hi & Hoth).
  destruct (decide (o = Z.of_nat i)) as [->|Ho]; [by apply Hoth|].
  by rewrite Hoth in Hc.
Qed.

(** From the path child to the node. *)
Lemma mod_post_up h path n n1 m m1 o p r c info :
  twf v4 (S h) path n -> length path + S h = width v4 -> u8_ok o ->
  under v4 (path ++ [o]) p -> c <= length path -> (c = length path -> path = []) ->
  child_at n o = Some (Path m) -> child_updated n n1 o (Some (Path m1)) ->
  mod_post h (path ++ [o]) m m1 p r
    (if bool_decide (child_count n = 1) && bool_decide (prefix_count n = 0)
     then c else length path) info ->
  mod_post (S h) path n n1 p r c info.
Proof.
  intros Hn Hw Ho Hp Hc Hroot Hch Hupd Hpost. pose proof (twf_stride v4 _ _ _ Hn) as Hwf.
  assert (length (path ++ [o]) = S (length path)) as Hlen by (rewrite length_app; simpl; lia).
  assert (path ++ [o] <> []) as Hnil by (by destruct path).
  assert (forall n2 m2, child_updated n n2 o (Some (Path m2)) ->
    updated v4 h (path ++ [o]) m m2 p r -> canon m2 ->
    updated v4 (S h) path n n2 p r /\ (path <> [] -> canon n2)) as Hput.
  { intros n2 m2 Hupd2 [Ht2 Hs2] Hcan2. split; [split|].
    - eapply twf_child_updated; [done..|]. by intros c' [= <-].
    - eapply sub_child_updated; [lia|done..|]. intros q Hq. rewrite Hch. cbn [csub].
      rewrite <- Hlen. by apply Hs2.
    - intros _. right. by eapply child_updated_path. }
  destruct info as [i|]; simpl in Hpost |- *.
  2:{ destruct Hpost as [Hu Hcan]. apply (Hput n1 m1); auto. }
  rewrite Hlen in Hpost. destruct Hpost as (Hi & Hpost).
  pose proof (under_snoc_inv _ _ _ _ Hi) as (Hiu & Hio & Hil). split; [done|].
  destruct Hpost as [(He & Hlt & -> & Hne & Hin)|(Hle & m2 & Hat & Hu2 & Hcan2)].
  - destruct (decide (compression_root_depth i = length path)) as [Hed|Hed].
    + right. split; [lia|].
      destruct (compress_at_spec h path n n1 m m1 o p i) as (n2 & Hc2 & Hu2 & Hcan2); [done..|].
      exists n2. rewrite Hed, Nat.sub_diag. split_and!; [done..|]. intros Hpath.
      apply Hcan2. unfold occ. pose proof (child_count_pos _ _ _ Hwf Hch).
      repeat case_bool_decide; simpl in He; try lia. exfalso. auto with lia.
    + left. destruct (bool_decide_reflect (child_count n = 1)) as [H1|]; [|simpl in He; lia].
      destruct (bool_decide_reflect (prefix_count n = 0)) as [Hz0|]; [|simpl in He; lia].
      simpl in He. split_and!; [done|lia|done|done|]. intros q Hq Hqp.
      destruct (deletable_only n o _ Hwf Hch H1 Hz0) as [Hnp Hnc].
      destruct (under_octet _ _ _ Hq) as (o' & Ho' & _); [lia|]. pose proof Hq as (_ & Hql & _).
      rewrite (sub_step _ q _ o') by done. rewrite Hnp.
      destruct (decide (prefix_len q < 8 * length path + 8)) as [Hsh|Hsh].
      { case_decide; [subst; lia|done]. }
      destruct (decide (o' = o)) as [->|Hneo].
      * rewrite Hch. cbn [csub]. apply Hin; [|done]. apply under_snoc; [done..|lia].
      * rewrite Hnc by done. case_decide; [subst; congruence|done].
  - right. split; [lia|].
    replace (compression_root_depth i - length path)
      with (S (compression_root_depth i - S (length path))) by lia.
    rewrite (drop_S _ _ _ Hio). cbn [take at_path].
    destruct (write_path n1 o m1 (proj1 Hupd) Ho) as (w & -> & Hw1);
      [by eapply child_updated_at|]. mrun. cbn [into_node unwrap]. mrun. rewrite Hat. mrun.
    exists (w (Path m2)). split; [done|]. apply (Hput _ m2); [|done|auto].
    eapply child_updated_trans; [done|apply Hw1].
Qed.
End Modify.

(** ** One level of [modify_inner] *)

Section ModifyStep.
Context `{!IpNetOps, !IpNetLaws} {N T : Type}
  `{!StrideOps N T, !StrideView N T, !StrideLaws N T} (v4 : bool).
Context (f : ModifyFn T) (h : nat) (path : list Z) (n : N) (p : IpNet) (o : Z) (c : nat).
Context (Hn : twf v4 (S h) path n) (Hw : length path + S h = width v4) (Hup : under v4 path p)
  (Hlk : ip_octets (addr p) !! length path = Some o) (Hc : c <= length path)
  (Hroot : c = length path -> path = []) (Hcan : path <> [] -> canon n).

Let d := length path.
Let octets := ip_octets (addr p).
Let r := sub d p n.

(** The step returns what the closure asks for and leaves [mod_post]. *)
Definition step_ok
    (res : outcome (N * (option T * option (RemovalInfo T)) * option (RouteModification T)))
    : Prop :=
  exists n1 info, res = Ret (n1, ((apply_mod f r).2, info), Some (answer f r)) /\
    mod_post v4 (S h) path n n1 p (apply_mod f r).1 c info.

Lemma step_wf : stride_wf n.
Proof. by eapply twf_stride. Qed.

Lemma step_u8 : u8_ok o.
Proof. by eapply octets_u8. Qed.

Lemma step_family : is_ipv4 (addr p) = v4.
Proof. by destruct Hup as ([? _] & _). Qed.

(** The node is final: nothing was removed. *)
Lemma step_final n' ret r' op :
  apply_mod f r = (r', ret) -> answer f r = op ->
  updated v4 (S h) path n n' p r' -> (path <> [] -> canon n') ->
  step_ok (Ret (n', (ret, None), Some op)).
Proof. intros E <- Hu Hc'. exists n', None. rewrite E. split; [done|]. split; done. Qed.

(** The route was removed. *)
Lemma step_removed n' ret :
  apply_mod f r = (None, ret) -> answer f r = Remove ->
  updated v4 (S h) path n n' p None -> (canon n -> 1 <= occ n') ->
  step_ok ('(node, info) ← try_remove_last_child n' octets d (is_ipv4 (addr p)) c;
           Ret (node, (ret, info), Some Remove)).
Proof.
  intros E Ea Hu Hocc. rewrite step_family. unfold step_ok. rewrite E, Ea.
  by apply (remove_tail v4 h path n n' p c ret (fun x => (x, Some Remove))).
Qed.

(** Nothing happened. *)
Lemma step_unchanged op :
  apply_mod f r = (r, None) -> answer f r = op -> step_ok (Ret (n, (None, None), Some op)).
Proof.
  intros E Ea. apply (step_final _ _ r _ E Ea); [|done]. split; [done|].
  intros q _. case_decide; [by subst|done].
Qed.

Lemma modify_last rest :
  prefix_len p < 8 * d + 8 -> step_ok (modify_inner octets p f (o :: rest) d n c).
Proof.
  intros Hs. pose proof Hup as (_ & Hl & _). pose proof step_wf as Hwf. pose proof step_u8 as Ho.
  destruct (last_stride _ _ Hl) as [Hlast Hmod].
  cbn [modify_inner]. unfold stride_count_and_overflow.
  rewrite decide_True by (by apply Hlast). rewrite Hmod by done.
  rewrite from_prefix_fp by (done || subst d; lia). mrun. fold d.
  set (i := fp o (Z.of_nat (prefix_len p - 8 * d))).
  assert (index_ok i) as Hi by (apply fp_index_ok; [done|subst d; lia]).
  assert (r = prefix_at n i) as Hr
    by (unfold r; rewrite (sub_step _ _ _ o Hlk Hl); by rewrite decide_True).
  assert (forall n' x, prefix_updated n n' i x ->
    updated v4 (S h) path n n' p x /\ (canon n -> 1 <= occ n') /\
    (is_Some x -> canon n -> canon n')) as Hput by (intros; by apply (prefix_put v4 h path n n' o)).
  pose proof (get_prefix_exact_mut_law n i Hwf Hi) as Hg.
  destruct (prefix_at n i) as [v|] eqn:Hv.
  - destruct Hg as (w & -> & Hwr). mrun.
    destruct (on_some f v) as [v' action] eqn:Ef. pose proof (Hwr v') as Hu1.
    assert (prefix_at (w v') i = Some v') as Hv'
      by (destruct Hu1 as (_ & _ & Hp1); rewrite Hp1; by rewrite decide_True).
    destruct action as [t| |].
    + destruct (insert_prefix_law (w v') i t (proj1 Hu1) Hi) as (n2 & -> & Hu2). mrun.
      destruct (Hput n2 (Some t)) as (Hu & _ & Hk);
        [by eapply prefix_updated_trans|].
      eapply step_final; [| |exact Hu|auto]; rewrite Hr; simpl; rewrite ?Ef, ?Hv'; done.
    + destruct (remove_prefix_law (w v') i (proj1 Hu1) Hi) as (n2 & -> & Hu2). mrun.
      destruct (Hput n2 None) as (Hu & Hk & _); [by eapply prefix_updated_trans|].
      eapply step_removed; [| |exact Hu|exact Hk]; rewrite Hr; simpl; rewrite ?Ef, ?Hv'; done.
    + destruct (Hput (w v') (Some v')) as (Hu & _ & Hk); [done|].
      eapply step_final; [| |exact Hu|auto]; rewrite Hr; simpl; by rewrite Ef.
  - rewrite Hg. mrun. destruct (on_none f) as [t| |] eqn:Ef.
    + destruct (insert_prefix_law n i t Hwf Hi) as (n2 & -> & Hu2). mrun.
      destruct (Hput n2 (Some t) Hu2) as (Hu & _ & Hk).
      eapply step_final; [| |exact Hu|auto]; rewrite Hr, ?Hv; simpl; by rewrite Ef.
    + destruct (remove_prefix_law n i Hwf Hi) as (n2 & -> & Hu2). mrun.
      destruct (Hput n2 None Hu2) as (Hu & Hk & _).
      eapply step_removed; [| |exact Hu|exact Hk]; rewrite Hr, ?Hv; simpl; by rewrite Ef.
    + apply step_unchanged; rewrite Hr; simpl; by rewrite Ef.
Qed.

Hypothesis Hlong : 8 * d + 8 <= prefix_len p.

Lemma step_under : under v4 (path ++ [o]) p.
Proof. by apply under_snoc. Qed.

Lemma step_child : r = csub d p (child_at n o).
Proof.
  pose proof Hup as (_ & Hl & _). unfold r. rewrite (sub_step _ _ _ o Hlk Hl).
  by rewrite decide_False by (apply Nat.le_ngt; done).
Qed.

(** The route is absent: [insert_inner] takes over. *)
Lemma step_absent :
  csub d p (child_at n o) = None ->
  step_ok (match on_none f with
           | Insert t =>
               '(node, ret) ← insert_inner 17 n p t d; Ret (node, (ret, None), Some (Insert t))
           | action => Ret (n, (None, None), Some action)
           end).
Proof.
  intros Hz. pose proof step_child as Hr. rewrite Hz in Hr.
  destruct (on_none f) as [t| |] eqn:Ef;
    [|apply step_unchanged; rewrite Hr; simpl; by rewrite Ef..].
  pose proof (width_le v4).
  destruct (insert_inner_spec v4 (S h) 17 path n p t) as (n' & Hi & Hu & Hk & _); [lia|done..|].
  fold d r in Hi. rewrite Hi. mrun. eapply step_final; [| |exact Hu|].
  - rewrite Hr. simpl. by rewrite Ef.
  - rewrite Hr. exact Ef.
  - intros Hp. apply Hk. left. auto.
Qed.

(** The child that stands for the route of [p] with value [x]. *)
Definition immediate (x : T) : Child N T :=
  if bool_decide (prefix_len p = 8 * d + 8) then Fringe x else Leaf p x.

Lemma immediate_ok x : child_ok v4 h path o (immediate x).
Proof.
  unfold immediate. pose proof step_under. case_bool_decide; simpl; [done|].
  split; [done|]. lia.
Qed.

Lemma immediate_csub x q :
  under v4 (path ++ [o]) q -> csub d q (Some (immediate x)) = if decide (q = p) then Some x else None.
Proof.
  intros Hq. pose proof step_under as Hp. unfold immediate. case_bool_decide as Hf; cbn [csub].
  - destruct (decide (q = p)) as [->|Hne]; [by rewrite decide_True|].
    rewrite decide_False; [done|]. intros Hl. apply Hne. by apply (under_fringe_inj v4 path _ _ o).
  - repeat case_decide; congruence.
Qed.

Lemma immediate_value x : into_value (immediate x) = Some x.
Proof. unfold immediate. by case_bool_decide. Qed.

Lemma immediate_put n' x :
  (forall m, child_at n o <> Some (Path m)) ->
  (forall q, under v4 (path ++ [o]) q -> q <> p -> csub d q (child_at n o) = None) ->
  child_updated n n' o (immediate <$> x) ->
  updated v4 (S h) path n n' p x /\ (canon n -> 1 <= occ n') /\ (is_Some x -> canon n -> canon n').
Proof.
  intros Hnp Hoth Hu. pose proof step_u8 as Ho. pose proof step_under as Hp.
  destruct (child_put v4 h path n n' o (immediate <$> x) p x) as (H1 & H2 & H3); [done..| | |].
  - intros c' Hc'. destruct x as [x|]; [|done]. injection Hc' as <-. apply immediate_ok.
  - intros q Hq. destruct x as [x|]; cbn [fmap option_fmap option_map].
    + rewrite immediate_csub by done. case_decide; [done|]. fold d. by rewrite Hoth.
    + cbn [csub]. case_decide; [done|]. fold d. by rewrite Hoth.
  - split_and!; [done..|]. intros [y ->]. apply H3. by eexists.
Qed.

(** The free slot. *)
Lemma modify_free rest :
  child_at n o = None -> step_ok (modify_inner octets p f (o :: rest) d n c).
Proof.
  intros Hz. pose proof Hup as (_ & Hl & _). pose proof step_wf as Hwf. pose proof step_u8 as Ho.
  pose proof step_child as Hr. rewrite Hz in Hr.
  destruct (last_stride _ _ Hl) as [Hlast _].
  cbn [modify_inner]. unfold stride_count_and_overflow.
  rewrite decide_False by (intros E; apply Hlast in E; unfold d in *; lia).
  pose proof (get_child_mut_law n o Hwf Ho) as Hg. rewrite Hz in Hg. rewrite Hg. mrun.
  destruct (on_none f) as [t| |] eqn:Ef;
    [|apply step_unchanged; rewrite Hr; simpl; by rewrite Ef..].
  rewrite is_fringe_spec by done. mrun. fold (immediate t).
  destruct (insert_child_law n o (immediate t) Hwf Ho) as (n' & -> & Hu). mrun.
  destruct (immediate_put n' (Some t)) as (Hu' & _ & Hk);
    [by rewrite Hz|intros; by rewrite Hz|done|].
  eapply step_final; [| |exact Hu'|auto]; rewrite Hr; simpl; by rewrite Ef.
Qed.

(** The slot holds the route itself. *)
Lemma modify_present rest v :
  child_at n o = Some (immediate v) -> step_ok (modify_inner octets p f (o :: rest) d n c).
Proof.
  intros Hz. pose proof Hup as (_ & Hl & _). pose proof step_wf as Hwf. pose proof step_u8 as Ho.
  pose proof step_child as Hr. rewrite Hz, immediate_csub, decide_True in Hr
    by (done || apply step_under).
  destruct (last_stride _ _ Hl) as [Hlast _].
  cbn [modify_inner]. unfold stride_count_and_overflow.
  rewrite decide_False by (intros E; apply Hlast in E; unfold d in *; lia).
  pose proof (get_child_mut_law n o Hwf Ho) as Hg. rewrite Hz in Hg.
  destruct Hg as (w & -> & Hwr). mrun.
  assert (forall n' x, child_updated n n' o (immediate <$> x) ->
    updated v4 (S h) path n n' p x /\ (canon n -> 1 <= occ n') /\
    (is_Some x -> canon n -> canon n')) as Hput.
  { intros n' x. apply immediate_put; rewrite Hz; [unfold immediate; by case_bool_decide|].
    intros q Hq Hne. rewrite immediate_csub by done. by rewrite decide_False. }
  assert (forall mk, (forall x, mk x = immediate x) -> step_ok (
    let '(v', action) := on_some f v in
    let node := w (mk v') in
    match action with
    | Noop => Ret (node, (None, None), Some Noop)
    | Insert t =>
        fringe ← is_fringe d p;
        '(node, old) ← insert_child node o (if (fringe : bool) then Fringe t else Leaf p t);
        old ← unwrap old;
        Ret (node, (into_value old, None), Some (Insert t))
    | Remove =>
        '(node, c0) ← remove_child node o;
        c0 ← unwrap c0;
        '(node, info) ← try_remove_last_child node octets d (is_ipv4 (addr p)) c;
        Ret (node, (into_value c0, info), Some Remove)
    end)) as Hpresent.
  { intros mk Hmk. destruct (on_some f v) as [v' action] eqn:Ef. rewrite Hmk. cbv zeta.
    pose proof (Hwr (immediate v')) as Hu1.
    pose proof (child_updated_at _ _ _ _ Hu1) as Hat. destruct action as [t| |].
    - rewrite is_fringe_spec by done. mrun. fold (immediate t).
      destruct (insert_child_law (w (immediate v')) o (immediate t) (proj1 Hu1) Ho)
        as (n2 & -> & Hu2). rewrite Hat. mrun. rewrite immediate_value.
      destruct (Hput n2 (Some t)) as (Hu & _ & Hk); [by eapply child_updated_trans|].
      eapply step_final; [| |exact Hu|auto]; rewrite Hr; simpl; by rewrite Ef.
    - destruct (remove_child_law (w (immediate v')) o (proj1 Hu1) Ho) as (n2 & -> & Hu2).
      rewrite Hat. mrun. rewrite immediate_value.
      destruct (Hput n2 None) as (Hu & Hk & _); [by eapply child_updated_trans|].
      eapply step_removed; [| |exact Hu|exact Hk]; rewrite Hr; simpl; by rewrite Ef.
    - destruct (Hput (w (immediate v')) (Some v')) as (Hu & _ & Hk); [done|].
      eapply step_final; [| |exact Hu|auto]; rewrite Hr; simpl; by rewrite Ef. }
  revert Hpresent. unfold immediate. case_bool_decide as Hf; intros Hpresent.
  - rewrite is_fringe_spec in Hpresent |- * by done. mrun.
    rewrite bool_decide_eq_true_2 in Hpresent |- * by done. cbn [negb].
    apply (Hpresent Fringe). done.
  - rewrite decide_False by auto. apply (Hpresent (Leaf p)). done.
Qed.
End ModifyStep.

(** ** The operations on a whole trie *)

Section Tries.
Context `{!IpNetOps, !IpNetLaws} {N T : Type}
  `{!StrideOps N T, !StrideView N T, !StrideLaws N T} (v4 : bool).
Implicit Types (n : N) (p q : IpNet) (path : list Z) (f : ModifyFn T).

(** The trie [n'] holds the routes of [n] with the one of [p] replaced. *)
Definition routes_updated n n' p (r : option T) : Prop :=
  trie_wf v4 n' /\
  forall q, net_ok v4 q -> route n' q = if decide (q = p) then r else route n q.

Lemma modify_inner_spec f p h : forall path n c,
  twf v4 h path n -> length path + h = width v4 -> under v4 path p ->
  c <= length path -> (c = length path -> path = []) -> (path <> [] -> canon n) ->
  exists n1 info,
    modify_inner (ip_octets (addr p)) p f (drop (length path) (ip_octets (addr p)))
      (length path) n c
    = Ret (n1, ((apply_mod f (sub (length path) p n)).2, info),
           Some (answer f (sub (length path) p n))) /\
    mod_post v4 h path n n1 p (apply_mod f (sub (length path) p n)).1 c info.
Proof.
  induction h as [|h IH]; intros path n c Hn Hw Hup Hc Hroot Hcan; [done|].
  destruct (under_octet _ _ _ Hup) as (o & Hlk & Ho); [lia|].
  rewrite (drop_S _ _ _ Hlk). pose proof Hup as (_ & Hl & _).
  destruct (Nat.lt_ge_cases (prefix_len p) (8 * length path + 8)) as [Hs|Hlong].
  { by apply modify_last. }
  pose proof (twf_stride v4 _ _ _ Hn) as Hwf. pose proof (under_snoc _ _ _ _ Hup Hlk Hlong) as Hup'.
  destruct (child_at n o) as [ch|] eqn:Hch; [|by apply (modify_free v4 f h path n p o c)].
  pose proof Hn as [_ Hok]. specialize (Hok o ch Hch).
  assert (csub (length path) p (Some ch) <> None -> into_node ch = None ->
    exists v, child_at n o = Some (immediate path p v)) as Himm.
  { rewrite Hch. unfold immediate. destruct ch as [m|q v|v]; [done| |]; cbn [csub]; intros Hne _.
    - destruct (decide (q = p)) as [->|]; [|done]. exists v.
      destruct Hok as [_ Hok]. rewrite bool_decide_eq_false_2 by lia. done.
    - destruct (decide (prefix_len p = _)) as [E|]; [|done]. exists v.
      by rewrite bool_decide_eq_true_2. }
  destruct (decide (into_node ch = None)) as [Hin|Hin].
  - destruct (csub (length path) p (Some ch)) as [v|] eqn:Hcs.
    { destruct Himm as [v' Hv']; [done..|]. by apply (modify_present v4 f h path n p o c) with v'. }
    pose proof (step_absent v4 f h path n p o c Hn Hw Hup Hlk Hc Hroot Hcan Hlong) as Habs.
    rewrite Hch in Habs. specialize (Habs Hcs).
    destruct (last_stride _ _ Hl) as [Hlast _].
    cbn [modify_inner]. unfold stride_count_and_overflow.
    rewrite decide_False by (intros E; apply Hlast in E; lia).
    pose proof (get_child_mut_law n o Hwf Ho) as Hg. rewrite Hch in Hg.
    destruct Hg as (w & -> & _). mrun. destruct ch as [m|q v|v]; [done| |].
    + cbn [csub] in Hcs. case_decide; [done|]. rewrite decide_True by done. exact Habs.
    + cbn [csub] in Hcs. case_decide; [done|]. rewrite is_fringe_spec by done. mrun.
      rewrite bool_decide_eq_false_2 by done. exact Habs.
  - destruct ch as [m|q v|v]; [|done..]. destruct Hok as [Hm Hmc].
    destruct (IH (path ++ [o]) m
      (if bool_decide (child_count n = 1) && bool_decide (prefix_count n = 0)
       then c else length path)) as (m1 & info & Hi & Hpost);
      [done|rewrite length_app; simpl; lia|done| | |done|].
    { rewrite length_app. simpl. case_match; lia. }
    { rewrite length_app. simpl. case_match; lia. }
    rewrite length_app, Nat.add_1_r in Hi, Hpost.
    destruct (last_stride _ _ Hl) as [Hlast _].
    cbn [modify_inner]. unfold stride_count_and_overflow.
    rewrite decide_False by (intros E; apply Hlast in E; lia).
    destruct (write_path n o m Hwf Ho Hch) as (w & -> & Hwr). mrun. cbn [into_node unwrap]. mrun.
    rewrite Hi. mrun. exists (w (Path m1)), info.
    rewrite (sub_step _ _ n o Hlk Hl), decide_False by lia. rewrite Hch. cbn [csub].
    split; [done|]. by eapply mod_post_up.
Qed.

Lemma under_nil p : under v4 [] p <-> net_ok v4 p.
Proof. unfold under. simpl. split; [tauto|]. intros. split_and!; [done|lia|done]. Qed.

Lemma trunc_net p : is_ipv4 (addr p) = v4 -> net_ok v4 (trunc p).
Proof. intros Hv. split; [by rewrite trunc_family|apply trunc_idem]. Qed.

Lemma updated_routes n n' p r :
  updated v4 (width v4) [] n n' p r -> routes_updated n n' p r.
Proof. intros [Ht Hs]. split; [done|]. intros q Hq%under_nil. by apply (Hs q). Qed.

Lemma modify_traced_routes n p f :
  trie_wf v4 n -> is_ipv4 (addr p) = v4 ->
  exists n', modify_traced n p f = Ret (n', (apply_mod f (route n (trunc p))).2,
                                        Some (answer f (route n (trunc p)))) /\
    routes_updated n n' (trunc p) (apply_mod f (route n (trunc p))).1.
Proof.
  intros Hn Hv. pose proof (trunc_net p Hv) as Hp. apply under_nil in Hp as Hu.
  destruct (modify_inner_spec f (trunc p) (width v4) [] n 0) as (n1 & info & Hi & Hpost);
    [done..|].
  unfold modify_traced. cbn [length] in Hi. rewrite drop_0 in Hi. rewrite Hi. mrun.
  change (sub 0 (trunc p) n) with (route n (trunc p)) in *.
  destruct info as [i|]; simpl in Hpost.
  - destruct Hpost as (Hiu & [(_ & Hlt & _)|(Hle & n2 & Hat & Hupd & _)]); [lia|].
    unfold compress_removal_path. rewrite (octets_len v4 _ (proj1 (proj1 Hiu))).
    rewrite bool_decide_eq_true_2 by lia. mrun.
    rewrite Nat.sub_0_r, drop_0 in Hat. rewrite Hat. mrun.
    exists n2. split; [done|]. by apply updated_routes.
  - destruct Hpost as [Hupd _]. exists n1. split; [done|]. by apply updated_routes.
Qed.

Lemma modify_routes n p f :
  trie_wf v4 n -> is_ipv4 (addr p) = v4 ->
  exists n', modify n p f = Ret (n', (apply_mod f (route n (trunc p))).2) /\
    routes_updated n n' (trunc p) (apply_mod f (route n (trunc p))).1.
Proof.
  intros Hn Hv. unfold modify.
  destruct (modify_traced_routes n p f Hn Hv) as (n' & -> & Hu). mrun. by exists n'.
Qed.

Lemma insert_routes n p v :
  trie_wf v4 n -> is_ipv4 (addr p) = v4 ->
  exists n', insert n p v = Ret (n', route n (trunc p)) /\
    routes_updated n n' (trunc p) (Some v).
Proof.
  intros Hn Hv. pose proof (trunc_net p Hv) as Hp. apply under_nil in Hp as Hu.
  pose proof (width_le v4).
  destruct (insert_inner_spec v4 (width v4) 17 [] n (trunc p) v) as (n' & Hi & Hupd & _);
    [lia|done..|].
  exists n'. split; [exact Hi|]. by apply updated_routes.
Qed.

Lemma remove_inner_spec p h : forall path n c,
  twf v4 h path n -> length path + h = width v4 -> under v4 path p ->
  c <= length path -> (c = length path -> path = []) -> (path <> [] -> canon n) ->
  exists n1 info,
    remove_inner (ip_octets (addr p)) p (drop (length path) (ip_octets (addr p)))
      (length path) n c = Ret (n1, (sub (length path) p n, info)) /\
    mod_post v4 h path n n1 p None c info.
Proof.
  induction h as [|h IH]; intros path n c Hn Hw Hup Hc Hroot Hcan; [done|].
  destruct (under_octet _ _ _ Hup) as (o & Hlk & Ho); [lia|].
  rewrite (drop_S _ _ _ Hlk). pose proof Hup as (_ & Hl & _).
  pose proof (twf_stride v4 _ _ _ Hn) as Hwf.
  destruct (last_stride _ _ Hl) as [Hlast Hmod].
  assert (forall n', updated v4 (S h) path n n' p None -> (canon n -> 1 <= occ n') ->
    exists n1 info, ('(node, info) ← try_remove_last_child n' (ip_octets (addr p)) (length path)
                      (is_ipv4 (addr p)) c;
      Ret (node, (sub (length path) p n, info))) = Ret (n1, (sub (length path) p n, info)) /\
    mod_post v4 (S h) path n n1 p None c info) as Hrem.
  { intros n' Hu Hocc. rewrite (proj1 (proj1 Hup)).
    by apply (remove_tail v4 h path n n' p c (sub (length path) p n) id). }
  assert (sub (length path) p n = None -> exists n1 info,
    Ret (n, (None, None)) = Ret (n1, (sub (length path) p n, info)) /\
    mod_post v4 (S h) path n n1 p None c info) as Hsame.
  { intros Hz. exists n, None. rewrite Hz. split; [done|]. split; [|done].
    split; [done|]. intros q _. case_decide; [by subst|done]. }
  cbn [remove_inner]. unfold stride_count_and_overflow.
  destruct (decide (length path = prefix_len p / 8)) as [Hd|Hd].
  { apply Hlast in Hd. rewrite Hmod, from_prefix_fp by (done || lia). mrun.
    set (i := fp o _). assert (index_ok i) as Hi by (apply fp_index_ok; [done|lia]).
    destruct (remove_prefix_law n i Hwf Hi) as (n' & -> & Hu). mrun.
    destruct (prefix_put v4 h path n n' o p None) as (Hu' & Hocc & _); [done..|].
    rewrite (sub_step _ _ _ o Hlk Hl), decide_True in Hrem |- * by done. by apply Hrem. }
  assert (8 * length path + 8 <= prefix_len p) as Hlong by (apply Nat.le_ngt; tauto).
  pose proof (under_snoc _ _ _ _ Hup Hlk Hlong) as Hup'.
  rewrite (sub_step _ _ _ o Hlk Hl), decide_False in Hrem, Hsame |- * by lia.
  rewrite get_child_law by done. mrun.
  destruct (child_at n o) as [ch|] eqn:Hch; [|by apply Hsame].
  pose proof Hn as [_ Hok]. specialize (Hok o ch Hch).
  assert (into_node ch = None -> csub (length path) p (Some ch) = into_value ch ->
    (forall q, under v4 (path ++ [o]) q -> q <> p -> csub (length path) q (Some ch) = None) ->
    exists n1 info, ('(node, c0) ← remove_child n o;
      c0 ← unwrap c0;
      '(node, info) ← try_remove_last_child node (ip_octets (addr p)) (length path)
                        (is_ipv4 (addr p)) c;
      Ret (node, (into_value c0, info))) = Ret (n1, (csub (length path) p (Some ch), info)) /\
    mod_post v4 (S h) path n n1 p None c info) as Himm.
  { intros Hin Hval Hoth.
    destruct (remove_child_law n o Hwf Ho) as (n' & -> & Hu). rewrite Hch. mrun.
    rewrite <- Hval.
    destruct (child_put v4 h path n n' o None p None) as (Hu' & Hocc & _);
      [done..|by rewrite Hch; intros m [= ->]|done|done| |by apply Hrem].
    intros q Hq. rewrite Hch. case_decide; [done|]. symmetry. by apply Hoth. }
  destruct ch as [m|q v|v].
  - destruct Hok as [Hm Hmc].
    destruct (IH (path ++ [o]) m
      (if bool_decide (child_count n = 1) && bool_decide (prefix_count n = 0)
       then c else length path)) as (m1 & info & Hi & Hpost);
      [done|rewrite length_app; simpl; lia|done| | |done|];
      [rewrite length_app; simpl; case_match; lia..|].
    rewrite length_app, Nat.add_1_r in Hi.
    destruct (write_path n o m Hwf Ho Hch) as (w & -> & Hwr). mrun. cbn [into_node unwrap]. mrun.
    rewrite Hi. mrun. exists (w (Path m1)), info. split; [done|]. by eapply mod_post_up.
  - cbn [csub] in *. destruct (decide (q = p)) as [->|Hne].
    + rewrite decide_False by auto. apply Himm; [done..|]. intros q' _ Hq'.
      by rewrite decide_False.
    + rewrite decide_True by done. by apply Hsame.
  - rewrite is_fringe_spec by done. mrun. cbn [csub] in *. case_bool_decide as Hf.
    + rewrite decide_True in Himm |- * by done. apply Himm; [done..|]. intros q' Hq' Hne.
      rewrite decide_False; [done|]. intros Hl'. apply Hne.
      by apply (under_fringe_inj v4 path _ _ o).
    + rewrite decide_False in Hsame |- * by done. by apply Hsame.
Qed.

Lemma remove_routes n p :
  trie_wf v4 n -> is_ipv4 (addr p) = v4 ->
  exists n', remove n p = Ret (n', route n (trunc p)) /\ routes_updated n n' (trunc p) None.
Proof.
  intros Hn Hv. pose proof (trunc_net p Hv) as Hp. apply under_nil in Hp as Hu.
  destruct (remove_inner_spec (trunc p) (width v4) [] n 0) as (n1 & info & Hi & Hpost);
    [done..|].
  unfold remove. cbn [length] in Hi. rewrite drop_0 in Hi. rewrite Hi. mrun.
  change (sub 0 (trunc p) n) with (route n (trunc p)) in *.
  destruct info as [i|]; simpl in Hpost.
  - destruct Hpost as (Hiu & [(_ & Hlt & _)|(Hle & n2 & Hat & Hupd & _)]); [lia|].
    unfold compress_removal_path. rewrite (octets_len v4 _ (proj1 (proj1 Hiu))).
    rewrite bool_decide_eq_true_2 by lia. mrun.
    rewrite Nat.sub_0_r, drop_0 in Hat. rewrite Hat. mrun.
    exists n2. split; [done|]. by apply updated_routes.
  - destruct Hpost as [Hupd _]. exists n1. split; [done|]. by apply updated_routes.
Qed.
End Tries.
