(* ===== verification/TrieLookup.v ===== *)
(** * TrieLookup: the lookups return the covering routes

    [matches n ip k] lists the routes of [n] that cover [ip] and are shorter
    than [k] bits, most specific first. [lookup_address] is its head,
    [lookup_address_all] yields all of it, [contains] tests it for emptiness
    and [lookup_prefix_lpm] is its head below the length of the query. *)

From S2P Require Import Prelude Bitset Array256 BaseIndex IpNet Stride IpTrie TrieSpec.

Section Matches.
Context `{!IpNetOps} {N T : Type} `{!StrideOps N T, !StrideView N T}.
Implicit Types (n : N).

(** The network of [l] bits that covers [ip]. *)
Definition net_at (ip : IpAddr) (l : nat) : option IpNet :=
  match new_assert (mask_addr l ip) l with Ret p => Some p | Panic => None end.

(** The covering routes in the subtree [n] at depth [d], with their lengths. *)
Definition matches_from n (ip : IpAddr) (d k : nat) : list (nat * T) :=
  omap (fun l => p ← net_at ip l; pair l <$> sub d p n) (rev (seq (8 * d) (k - 8 * d))).

Definition matches n (ip : IpAddr) (k : nat) : list (nat * T) :=
  omap (fun l => p ← net_at ip l; pair l <$> route n p) (rev (seq 0 k)).

(** The covering prefixes of one node, with their lengths. *)
Definition node_matches n (d : nat) (o : Z) (k : nat) : list (nat * T) :=
  omap (fun j => pair (8 * d + j) <$> prefix_at n (fp o (Z.of_nat j))) (rev (seq 0 k)).

Definition child_matches (ip : IpAddr) (d k : nat) (c : option (Child N T)) : list (nat * T) :=
  match c with
  | None => []
  | Some (Path n') => matches_from n' ip (S d) k
  | Some (Leaf q v) =>
      if net_contains q ip && bool_decide (prefix_len q < k) then [(prefix_len q, v)] else []
  | Some (Fringe v) => if decide (8 * d + 8 < k) then [(8 * d + 8, v)] else []
  end.
End Matches.

Lemma omap_ext_in {A B} (f g : A -> option B) (l : list A) :
  (forall x, x ∈ l -> f x = g x) -> omap f l = omap g l.
Proof.
  induction l as [|x l IH]; intros E; [done|]. cbn [omap list_omap].
  rewrite E by apply list_elem_of_here. destruct (g x);
    [f_equal|]; apply IH; intros y Hy; apply E; by apply list_elem_of_further.
Qed.

Lemma omap_fmap {A B C} (f : B -> option C) (g : A -> B) (l : list A) :
  omap f (g <$> l) = omap (fun x => f (g x)) l.
Proof.
  induction l as [|x l IH]; [done|]. rewrite fmap_cons. cbn [omap list_omap].
  destruct (f (g x)); [f_equal|]; apply IH.
Qed.

Lemma omap_none {A B} (f : A -> option B) (l : list A) :
  (forall x, x ∈ l -> f x = None) -> omap f l = [].
Proof.
  induction l as [|x l IH]; intros E; [done|]. cbn [omap list_omap].
  rewrite E by apply list_elem_of_here. apply IH. intros y Hy. apply E.
  by apply list_elem_of_further.
Qed.

Lemma fmap_nil_iff {A B} (f : A -> B) (l : list A) : f <$> l = [] <-> l = [].
Proof. by destruct l. Qed.

Lemma length_omap_le {A B} (f : A -> option B) (l : list A) : length (omap f l) <= length l.
Proof.
  induction l as [|x l IH]; [done|]. cbn [omap list_omap]. destruct (f x); simpl in *; lia.
Qed.

Lemma rev_reverse {A} (l : list A) : rev l = reverse l.
Proof. apply rev_alt. Qed.

(** At most one element contributes. *)
Lemma omap_unique {A B} (f : A -> option B) (l : list A) x y :
  NoDup l -> x ∈ l -> f x = Some y -> (forall z, z ∈ l -> z <> x -> f z = None) ->
  omap f l = [y].
Proof.
  induction 1 as [|z l Hz Hnd IH]; intros Hin Hx Hoth; [by apply elem_of_nil in Hin|].
  cbn [omap list_omap]. apply elem_of_cons in Hin as [->|Hin].
  - rewrite Hx. f_equal. apply omap_none. intros w Hw. apply Hoth; [by apply list_elem_of_further|].
    by intros ->.
  - rewrite Hoth; [|apply list_elem_of_here|by intros ->].
    apply IH; [done..|]. intros w Hw. apply Hoth. by apply list_elem_of_further.
Qed.

Lemma omap_rev {A B} (f : A -> option B) (l : list A) : omap f (rev l) = rev (omap f l).
Proof.
  induction l as [|x l IH]; [done|]. cbn [rev]. rewrite omap_app, IH. cbn [omap list_omap].
  destruct (f x); [done|]. by rewrite app_nil_r.
Qed.

(** ** The networks that cover an address *)

Section Covering.
Context `{!IpNetOps, !IpNetLaws} (v4 : bool) (ip : IpAddr)
  (Hip : ip_ok ip) (Hfam : is_ipv4 ip = v4).
Implicit Types (p q : IpNet).

Lemma net_at_spec l :
  l <= 8 * width v4 ->
  exists p, net_at ip l = Some p /\ net_ok v4 p /\ prefix_len p = l /\
    ip_octets (addr p) = mask_octets l (ip_octets ip).
Proof.
  intros Hl. unfold net_at.
  destruct (new_assert_ok (mask_addr l ip) l) as (p & -> & Ha & Hpl).
  - by apply mask_addr_ok.
  - unfold mask_addr. rewrite mk_addr_is_ipv4, Hfam. done.
  - exists p. split_and!; [done| |done|rewrite Ha; unfold mask_addr; apply mk_addr_octets].
    split; [rewrite Ha; unfold mask_addr; by rewrite mk_addr_is_ipv4|].
    apply ipnet_ext; [|apply trunc_len]. rewrite trunc_addr, Hpl, Ha. unfold mask_addr.
    by rewrite mk_addr_octets, mk_addr_is_ipv4, mask_octets_idem.
Qed.

(** A truncated network covers [ip] iff it is the one of its length. *)
Lemma net_at_covers l p :
  net_at ip l = Some p <-> net_ok v4 p /\ prefix_len p = l /\ net_contains p ip = true.
Proof.
  split.
  - intros Hp. destruct (Nat.le_gt_cases l (8 * width v4)) as [Hl|Hl].
    + destruct (net_at_spec l Hl) as (p' & Hp' & Hok & Hpl & Ho).
      replace p' with p in * by congruence. split_and!; [done..|].
      apply net_contains_iff; [done|]. rewrite Hpl, Ho, mask_octets_idem.
      split; [by rewrite (proj1 Hok)|done].
    + unfold net_at in Hp. rewrite new_assert_panics in Hp; [done|].
      unfold mask_addr. rewrite mk_addr_is_ipv4, Hfam. done.
  - intros (Hok & <- & Hc). apply net_contains_iff in Hc as [_ Hm]; [|done].
    destruct (net_at_spec (prefix_len p)) as (p' & Hp' & Hok' & Hpl & Ho).
    { apply prefix_len_le, Hok. }
    rewrite Hp'. f_equal. apply (net_ext v4); [done..|].
    rewrite Hpl, Ho, mask_octets_idem. done.
Qed.

Lemma take_mask d l os :
  Forall u8_ok os -> 8 * d <= l -> take d (mask_octets l os) = take d os.
Proof.
  intros Hos. revert d l. induction Hos as [|o os Ho Hos IH]; intros d l Hl; [by destruct d|].
  destruct d as [|d]; [done|]. cbn [mask_octets take].
  rewrite land_mask8_full by (done || lia). by rewrite IH by lia.
Qed.

Lemma lookup_mask d l os o :
  Forall u8_ok os -> os !! d = Some o -> 8 * d <= l ->
  mask_octets l os !! d = Some (Z.land o (mask8 (l - 8 * d))).
Proof.
  intros Hos. revert d l. induction Hos as [|x os Hx Hos IH]; intros d l Hd Hl; [done|].
  destruct d as [|d]; cbn [mask_octets].
  - injection Hd as ->. by replace (l - 8 * 0) with l by lia.
  - simpl in Hd. simpl. rewrite (IH d (l - 8) Hd) by lia. do 3 f_equal. lia.
Qed.

Lemma net_at_under d l p :
  net_at ip l = Some p -> 8 * d <= l -> d <= width v4 ->
  under v4 (take d (ip_octets ip)) p.
Proof.
  intros Hp Hl Hd. apply net_at_covers in Hp as Hc. destruct Hc as (Hok & Hpl & _).
  pose proof (prefix_len_le v4 p (proj1 Hok)) as Hmax.
  destruct (net_at_spec l) as (p' & Hp' & _ & _ & Ho); [lia|].
  replace p' with p in * by congruence. pose proof Hip as [Hlen Hu].
  assert (length (take d (ip_octets ip)) = d) as Hd'
    by (rewrite length_take, Hlen, Hfam; lia).
  split_and!; [done|rewrite Hd'; lia|]. rewrite Hd', Ho. by apply take_mask.
Qed.

Lemma net_at_octet d l p o :
  net_at ip l = Some p -> 8 * d <= l -> ip_octets ip !! d = Some o ->
  ip_octets (addr p) !! d = Some (Z.land o (mask8 (l - 8 * d))).
Proof.
  intros Hp Hl Hlk. apply net_at_covers in Hp as Hc. destruct Hc as (Hok & Hpl & _).
  pose proof (prefix_len_le v4 p (proj1 Hok)) as Hmax.
  destruct (net_at_spec l) as (p' & Hp' & _ & _ & Ho); [lia|].
  replace p' with p in * by congruence. rewrite Ho. apply lookup_mask; [apply Hip|done..].
Qed.

Lemma ip_u8 d o : ip_octets ip !! d = Some o -> u8_ok o.
Proof. intros Hlk. eapply Forall_lookup_1; [apply Hip|done]. Qed.

Lemma fp_masked o j : u8_ok o -> j < 8 -> fp (Z.land o (mask8 j)) (Z.of_nat j) = fp o (Z.of_nat j).
Proof.
  intros Ho Hj. apply fp_eq_mask; [apply land_u8; [done|apply mask8_nonneg]|done|lia|].
  unfold mask8. rewrite Nat.min_l by lia. by rewrite <- Z.land_assoc, Z.land_diag.
Qed.
End Covering.

(** ** The covering routes, node by node *)

Section Step.
Context `{!IpNetOps, !IpNetLaws} {N T : Type}
  `{!StrideOps N T, !StrideView N T, !StrideLaws N T}.
Context (v4 : bool) (ip : IpAddr) (Hip : ip_ok ip) (Hfam : is_ipv4 ip = v4).
Implicit Types (n : N).

Lemma len_path d : d <= width v4 -> length (take d (ip_octets ip)) = d.
Proof. intros Hd. rewrite length_take. destruct Hip as [-> _]. rewrite Hfam. lia. Qed.

Lemma snoc_path d o :
  ip_octets ip !! d = Some o -> take d (ip_octets ip) ++ [o] = take (S d) (ip_octets ip).
Proof. intros Hlk. symmetry. by apply take_S_r. Qed.

(** The matches that end in the stride of the node. *)
Lemma node_part n d k o :
  d < width v4 -> ip_octets ip !! d = Some o -> k <= 8 ->
  omap (fun l => p ← net_at ip l; pair l <$> sub d p n) (rev (seq (8 * d) k))
  = node_matches n d o k.
Proof.
  intros Hd Hlk Hk. unfold node_matches. rewrite !omap_rev. f_equal.
  rewrite <- (Nat.add_0_r (8 * d)) at 1. rewrite <- fmap_add_seq, omap_fmap.
  apply omap_ext_in. intros j [_ Hj]%elem_of_seq. simpl in Hj.
  destruct (net_at_spec v4 ip Hip Hfam (8 * d + j)) as (p & Hp & Hok & Hpl & _); [lia|].
  rewrite Hp. cbn [mbind option_bind].
  pose proof (net_at_octet v4 ip Hip Hfam d _ p o Hp ltac:(lia) Hlk) as Hpo.
  rewrite (sub_step _ _ _ _ Hpo), decide_True by lia.
  rewrite Hpl. replace (8 * d + j - 8 * d) with j by lia.
  rewrite fp_masked; [done| |lia]. by eapply ip_u8.
Qed.

(** The matches below the child at [o]. *)
Lemma child_part h n d k o :
  twf v4 (S h) (take d (ip_octets ip)) n -> d + S h = width v4 ->
  ip_octets ip !! d = Some o -> k <= 8 * width v4 + 1 ->
  omap (fun l => p ← net_at ip l; pair l <$> sub d p n)
    (rev (seq (8 * d + 8) (k - (8 * d + 8))))
  = child_matches ip d k (child_at n o).
Proof.
  intros Hn Hw Hlk Hk. pose proof (ip_u8 ip Hip d o Hlk) as Ho.
  assert (forall l, l ∈ rev (seq (8 * d + 8) (k - (8 * d + 8))) <-> 8 * d + 8 <= l < k) as Hin.
  { intros l. rewrite rev_reverse, elem_of_reverse, elem_of_seq. lia. }
  assert (forall l, 8 * d + 8 <= l < k -> exists p, net_at ip l = Some p /\
    under v4 (take (S d) (ip_octets ip)) p /\ prefix_len p = l /\
    sub d p n = csub d p (child_at n o)) as Hsub.
  { intros l Hl. destruct (net_at_spec v4 ip Hip Hfam l) as (p & Hp & Hok & Hpl & _); [lia|].
    exists p. split_and!; [done| |done|].
    - eapply net_at_under; [done..|lia|lia].
    - pose proof (net_at_octet v4 ip Hip Hfam d _ p o Hp ltac:(lia) Hlk) as Hpo.
      rewrite land_mask8_full in Hpo by (done || lia).
      rewrite (sub_step _ _ _ _ Hpo), decide_False by lia. done. }
  assert (NoDup (rev (seq (8 * d + 8) (k - (8 * d + 8))))) as Hnd.
  { apply NoDup_ListNoDup, List.NoDup_rev, NoDup_ListNoDup, NoDup_seq. }
  destruct Hn as [Hwf Hok]. destruct (child_at n o) as [[m|q v|v]|] eqn:Hc; cbn [child_matches].
  - unfold matches_from. replace (8 * S d) with (8 * d + 8) by lia. apply omap_ext_in.
    intros l Hl%Hin. destruct (Hsub l Hl) as (p & -> & _ & _ & Hs). cbn [mbind option_bind].
    by rewrite Hs.
  - specialize (Hok o _ Hc). simpl in Hok. destruct Hok as [Hq Hql].
    rewrite snoc_path in Hq by done. rewrite len_path in Hql by lia.
    destruct (net_contains q ip && bool_decide (prefix_len q < k)) eqn:Hcov.
    + apply andb_true_iff in Hcov as [Hcov Hlt%bool_decide_eq_true].
      assert (net_at ip (prefix_len q) = Some q) as Hnq
        by (apply (net_at_covers v4); [done..|split_and!; [apply Hq|done|done]]).
      apply (omap_unique _ _ (prefix_len q)); [done|apply Hin; lia| |].
      * rewrite Hnq. cbn [mbind option_bind].
        destruct (Hsub (prefix_len q) ltac:(lia)) as (p & Hp & _ & _ & Hs).
        replace p with q in Hs by congruence. rewrite Hs. simpl. by rewrite decide_True.
      * intros l Hl%Hin Hne. destruct (Hsub l Hl) as (p & -> & _ & Hpl & Hs).
        cbn [mbind option_bind]. rewrite Hs. cbn [csub]. rewrite decide_False; [done|].
        by intros ->.
    + apply omap_none. intros l Hl%Hin. destruct (Hsub l Hl) as (p & Hp & _ & Hpl & Hs).
      rewrite Hp. cbn [mbind option_bind]. rewrite Hs. cbn [csub]. rewrite decide_False; [done|].
      intros ->. apply (net_at_covers v4) in Hp as (_ & _ & Hcp); [|done..].
      rewrite Hcp in Hcov. simpl in Hcov. apply bool_decide_eq_false in Hcov. lia.
  - destruct (decide (8 * d + 8 < k)) as [Hlt|Hlt].
    + apply (omap_unique _ _ (8 * d + 8)); [done|apply Hin; lia| |].
      * destruct (Hsub (8 * d + 8) ltac:(lia)) as (p & -> & _ & Hpl & Hs).
        cbn [mbind option_bind]. rewrite Hs. cbn [csub]. by rewrite decide_True.
      * intros l Hl%Hin Hne. destruct (Hsub l Hl) as (p & -> & _ & Hpl & Hs).
        cbn [mbind option_bind]. rewrite Hs. cbn [csub]. by rewrite decide_False by lia.
    + apply omap_none. intros l Hl%Hin. lia.
  - apply omap_none. intros l Hl%Hin. destruct (Hsub l Hl) as (p & -> & _ & _ & Hs).
    cbn [mbind option_bind]. by rewrite Hs.
Qed.

Lemma matches_step h n d k o :
  twf v4 (S h) (take d (ip_octets ip)) n -> d + S h = width v4 ->
  ip_octets ip !! d = Some o -> k <= 8 * width v4 + 1 ->
  matches_from n ip d k
  = child_matches ip d k (child_at n o) ++ node_matches n d o (8 `min` (k - 8 * d)).
Proof.
  intros Hn Hw Hlk Hk. unfold matches_from.
  destruct (Nat.le_gt_cases (8 * d + 8) k) as [Hle|Hgt].
  - replace (k - 8 * d) with (8 + (k - (8 * d + 8))) by lia.
    rewrite seq_app, rev_app_distr, omap_app, Nat.min_l by lia.
    f_equal; [by eapply child_part|by apply node_part; [lia|..]].
  - rewrite Nat.min_r by lia. rewrite (node_part n d _ o) by (done || lia).
    rewrite <- (child_part h n d k o) by done.
    replace (k - (8 * d + 8)) with 0 by lia. done.
Qed.

(** The prefixes of a node, as its iterator yields them. *)
Lemma node_matches_covers n d o k : (node_matches n d o k).*2 = (covers n o k).*2.
Proof.
  unfold node_matches, covers. generalize (rev (seq 0 k)). intros l.
  induction l as [|j l IH]; [done|]. cbn [omap list_omap].
  destruct (prefix_at n _); [apply (f_equal (cons _))|]; exact IH.
Qed.
End Step.

(** ** Walking the stack *)

Section Walk.
Context `{!IpNetOps} {N T : Type} `{!StrideOps N T, !StrideView N T, !StrideLaws N T}.
Implicit Types (stack : list (N * Z)) (L : list T).

Definition stack_ok stack : Prop := Forall (fun x => stride_wf x.1 /\ u8_ok x.2) stack.

(** What is left to yield from the stack, top first. *)
Definition stack_matches stack : list T := concat ((fun x => (covers x.1 x.2 8).*2) <$> stack).

(** [L] is what is left to yield in the middle of a walk. *)
Definition walk_ok stack (piter : option (NodePrefixIter N)) L : Prop :=
  stack_ok stack /\
  match piter, stack with
  | None, _ => L = stack_matches stack
  | Some _, [] => L = []
  | Some it, (n, o) :: rest =>
      exists k, k <= 8 /\ pending it n o k /\ L = (covers n o k).*2 ++ stack_matches rest
  end.

Lemma walk_stack_loop_spec stack : forall piter L fuel,
  walk_ok stack piter L -> 2 * length stack <= fuel + (if piter is Some _ then 1 else 0) ->
  exists stack' piter', walk_stack_loop fuel stack piter = Ret (head L, (stack', piter')) /\
    walk_ok stack' piter' (tail L) /\ length stack' <= length stack.
Proof.
  induction stack as [|[n o] rest IH]; intros piter L fuel [Hok Hst] Hf.
  { exists [], piter. assert (L = []) as -> by (by destruct piter).
    split; [by destruct fuel|]. split; [|done]. split; [done|]. by destruct piter. }
  apply Forall_cons in Hok as [[Hwf Ho] Hok]. cbn [fst snd length] in *.
  assert (forall it k fuel, k <= 8 -> pending it n o k -> L = (covers n o k).*2 ++ stack_matches rest ->
    2 * length rest <= fuel ->
    exists stack' piter',
      walk_stack_loop (S fuel) ((n, o) :: rest) (Some it) = Ret (head L, (stack', piter')) /\
      walk_ok stack' piter' (tail L) /\ length stack' <= S (length rest)) as Hsome.
  { clear fuel Hf Hst piter. intros it k fuel Hk Hp -> Hf. cbn [walk_stack_loop].
    pose proof (prefix_iter_next_spec it n o k Hwf Ho Hk Hp) as Hnext.
    destruct (covers n o k) as [|[i v] l] eqn:Ec.
    - rewrite Hnext. mrun. destruct (IH None (stack_matches rest) fuel) as (s' & p' & E & Hw & Hl);
        [by split|lia|]. exists s', p'. split_and!; [done|done|lia].
    - destruct Hnext as (it' & k' & -> & Hk' & Hp' & Hc'). mrun.
      eexists _, _. split; [done|]. split; [|simpl; lia].
      split; [by constructor|]. exists k'. rewrite Hc'. done. }
  destruct piter as [it|].
  - destruct Hst as (k & Hk & Hp & HL). destruct fuel as [|fuel]; [lia|].
    eapply Hsome; [done..|lia].
  - destruct fuel as [|[|fuel]]; [lia|lia|].
    destruct (for_octet_spec n o Hwf Ho) as (it & Hfo & Hp).
    change (walk_stack_loop (S (S fuel)) ((n, o) :: rest) None)
      with (it ← for_octet n o; walk_stack_loop (T:=T) (S fuel) ((n, o) :: rest) (Some it)).
    rewrite Hfo. mrun. eapply Hsome; [|exact Hp|done|lia]. lia.
Qed.

Lemma walk_stack_spec stack piter L :
  walk_ok stack piter L ->
  exists stack' piter', walk_stack stack piter = Ret (head L, (stack', piter')) /\
    walk_ok stack' piter' (tail L).
Proof.
  intros Hw. destruct (walk_stack_loop_spec stack piter L (2 * length stack) Hw)
    as (s' & p' & E & Hw' & _); [case_match; lia|]. by exists s', p'.
Qed.

(** [collect] yields the pending item and the rest of the walk. *)
Lemma lookup_collect_spec L : forall fuel (it : LookupIter N T) L',
  length L < fuel -> L = option_list (lookup_item it) ++ L' ->
  walk_ok (lookup_stack it) (lookup_prefix_iter it) L' ->
  lookup_collect fuel it = Ret L.
Proof.
  induction L as [|v L IH]; intros fuel [item stack piter] L' Hf HL Hw;
    destruct fuel as [|fuel]; try (simpl in Hf; lia); cbn [lookup_collect];
    unfold lookup_iter_next; cbn [lookup_item lookup_stack lookup_prefix_iter] in *.
  - destruct item as [x|]; [done|]. simpl in HL. subst L'.
    destruct (walk_stack_spec _ _ _ Hw) as (s' & p' & -> & _). done.
  - destruct item as [x|].
    + injection HL as -> ->. mrun. rewrite (IH fuel _ L'); [done|simpl in Hf; lia|done|done].
    + simpl in HL. subst L'. destruct (walk_stack_spec _ _ _ Hw) as (s' & p' & -> & Hw').
      mrun. cbn [head]. rewrite (IH fuel _ L); [done|simpl in Hf; lia|done|done].
Qed.
End Walk.

Lemma push_spec (v4 : bool) {A} (stack : list A) (x : A) d :
  length stack = d -> d < width v4 -> push stack x = Ret (x :: stack).
Proof.
  intros Hd Hw. unfold push. rewrite decide_True; [done|]. subst d.
  unfold MAX_DEPTH. destruct v4; simpl in Hw; lia.
Qed.

(** ** The descents *)

Section Descend.
Context `{!IpNetOps, !IpNetLaws} {N T : Type}
  `{!StrideOps N T, !StrideView N T, !StrideLaws N T}.
Context (v4 : bool) (ip : IpAddr) (Hip : ip_ok ip) (Hfam : is_ipv4 ip = v4).
Implicit Types (n : N).

Let K := 8 * width v4 + 1.

Lemma ip_octet d : d < width v4 -> exists o, ip_octets ip !! d = Some o /\ u8_ok o.
Proof.
  intros Hd. destruct (lookup_lt_is_Some_2 (ip_octets ip) d) as [o Ho].
  - destruct Hip as [-> _]. by rewrite Hfam.
  - exists o. split; [done|]. by eapply ip_u8.
Qed.

Lemma matches_full h n d o :
  twf v4 (S h) (take d (ip_octets ip)) n -> d + S h = width v4 -> ip_octets ip !! d = Some o ->
  (matches_from n ip d K).*2 = (child_matches ip d K (child_at n o)).*2 ++ (covers n o 8).*2.
Proof.
  intros Hn Hw Hlk. rewrite (matches_step v4 ip Hip Hfam h n d K o) by (done || unfold K; lia).
  rewrite Nat.min_l by (unfold K; lia). by rewrite fmap_app, node_matches_covers.
Qed.

Lemma twf_path h n d o m :
  twf v4 (S h) (take d (ip_octets ip)) n -> ip_octets ip !! d = Some o ->
  child_at n o = Some (Path m) -> twf v4 h (take (S d) (ip_octets ip)) m.
Proof.
  intros [_ Hok] Hlk Hc. apply Hok in Hc as [Hm _]. by rewrite snoc_path in Hm.
Qed.

(** A leaf or a fringe below [n], as the code tests it. *)
Lemma child_matches_imm h n d o c :
  twf v4 (S h) (take d (ip_octets ip)) n -> d + S h = width v4 ->
  child_at n o = Some c -> into_node c = None ->
  (child_matches ip d K (Some c)).*2
  = match c with
    | Leaf q v => if net_contains q ip then [v] else []
    | Fringe v => [v]
    | Path _ => []
    end.
Proof.
  intros [_ Hok] Hw Hc Hin. apply Hok in Hc. destruct c as [m|q v|v]; [done| |]; cbn [child_matches].
  - destruct Hc as [((Hv & _) & _) _]. pose proof (prefix_len_le v4 q Hv).
    rewrite (bool_decide_eq_true_2 (prefix_len q < K)) by (unfold K; lia).
    rewrite andb_true_r. by destruct (net_contains q ip).
  - by rewrite decide_True by (unfold K; lia).
Qed.

Lemma contains_loop_spec h : forall n d,
  twf v4 h (take d (ip_octets ip)) n -> d + h = width v4 ->
  contains_loop ip (drop d (ip_octets ip)) n
  = Ret (negb (bool_decide ((matches_from n ip d K).*2 = []))).
Proof.
  induction h as [|h IH]; intros n d Hn Hw; [done|].
  destruct (ip_octet d) as (o & Hlk & Ho); [lia|]. rewrite (drop_S _ _ _ Hlk).
  cbn [contains_loop]. rewrite from_pfx_7_fp by done. mrun.
  rewrite (matches_full h n d o) by done. pose proof (twf_stride v4 _ _ _ Hn) as Hwf.
  assert ((if decide (prefix_count n <> 0) then supersets_prefix n (fp o 7) else Ret false)
    = Ret (negb (bool_decide ((covers n o 8).*2 = [])))) as ->.
  { assert (bool_decide ((covers n o 8).*2 = []) = bool_decide (covers n o 8 = [])) as ->
      by (apply bool_decide_ext; apply fmap_nil_iff).
    destruct (decide (prefix_count n <> 0)) as [_|Hz].
    - change 7%Z with (Z.of_nat 7). by apply supersets_prefix_spec; [..|lia].
    - rewrite bool_decide_eq_true_2; [done|]. apply omap_none. intros l _.
      destruct (prefix_at n _) as [v|] eqn:E; [|done].
      pose proof (prefix_count_pos n _ _ Hwf E). lia. }
  mrun. destruct (covers n o 8) as [|x l] eqn:Ecov.
  2:{ rewrite !bool_decide_eq_false_2; [done|by intros [_ ?]%app_nil|done]. }
  rewrite bool_decide_eq_true_2, app_nil_r by done. cbn [negb].
  rewrite get_child_law by done. mrun. destruct (child_at n o) as [c|] eqn:Hc; [|done].
  destruct (decide (into_node c = None)) as [Hin|Hin].
  - rewrite (child_matches_imm h n d o c) by done. destruct c as [m|q v|v]; [done| |done].
    by destruct (net_contains q ip).
  - destruct c as [m|q v|v]; [|done..]. apply IH; [by eapply twf_path|lia].
Qed.

Lemma lookup_address_all_loop_spec h : forall n d stack,
  twf v4 h (take d (ip_octets ip)) n -> d + h = width v4 -> length stack = d -> stack_ok stack ->
  exists it, lookup_address_all_loop ip (drop d (ip_octets ip)) n stack = Ret it /\
    lookup_prefix_iter it = None /\ stack_ok (lookup_stack it) /\
    option_list (lookup_item it) ++ stack_matches (lookup_stack it)
    = (matches_from n ip d K).*2 ++ stack_matches stack.
Proof.
  induction h as [|h IH]; intros n d stack Hn Hw Hlen Hst; [done|].
  destruct (ip_octet d) as (o & Hlk & Ho); [lia|]. rewrite (drop_S _ _ _ Hlk).
  cbn [lookup_address_all_loop]. rewrite (push_spec v4 _ _ d) by (done || lia). mrun.
  pose proof (twf_stride v4 _ _ _ Hn) as Hwf. rewrite get_child_law by done. mrun.
  rewrite (matches_full h n d o) by done.
  assert (stack_ok ((n, o) :: stack)) as Hst' by (by constructor).
  destruct (child_at n o) as [c|] eqn:Hc; [|by eexists].
  destruct (decide (into_node c = None)) as [Hin|Hin].
  - rewrite (child_matches_imm h n d o c) by done. destruct c as [m|q v|v]; [done| |].
    + eexists; split_and!; [done|done|done|]. simpl. rewrite <- app_assoc.
      by destruct (net_contains q ip).
    + by eexists.
  - destruct c as [m|q v|v]; [|done..]. cbn [child_matches].
    destruct (IH m (S d) ((n, o) :: stack)) as (it & E & Hp & Hs & HL);
      [by eapply twf_path|lia|simpl; lia|done|].
    exists it. split_and!; [done..|]. rewrite HL. by rewrite <- app_assoc.
Qed.

Lemma lookup_address_loop_spec h : forall n d stack,
  twf v4 h (take d (ip_octets ip)) n -> d + h = width v4 -> length stack = d -> stack_ok stack ->
  exists r, lookup_address_loop ip (drop d (ip_octets ip)) n stack = Ret r /\
    match r with
    | inl v => head ((matches_from n ip d K).*2 ++ stack_matches stack) = Some v
    | inr st => stack_ok st /\ stack_matches st = (matches_from n ip d K).*2 ++ stack_matches stack
    end.
Proof.
  induction h as [|h IH]; intros n d stack Hn Hw Hlen Hst; [done|].
  destruct (ip_octet d) as (o & Hlk & Ho); [lia|]. rewrite (drop_S _ _ _ Hlk).
  cbn [lookup_address_loop]. rewrite (push_spec v4 _ _ d) by (done || lia). mrun.
  pose proof (twf_stride v4 _ _ _ Hn) as Hwf. rewrite get_child_law by done. mrun.
  rewrite (matches_full h n d o) by done.
  assert (stack_ok ((n, o) :: stack)) as Hst' by (by constructor).
  destruct (child_at n o) as [c|] eqn:Hc; [|by eexists].
  destruct (decide (into_node c = None)) as [Hin|Hin].
  - rewrite (child_matches_imm h n d o c) by done. destruct c as [m|q v|v]; [done| |by eexists].
    destruct (net_contains q ip); by eexists.
  - destruct c as [m|q v|v]; [|done..]. cbn [child_matches].
    destruct (IH m (S d) ((n, o) :: stack)) as (r & E & Hr);
      [by eapply twf_path|lia|simpl; lia|done|].
    exists r. rewrite <- app_assoc. done.
Qed.
End Descend.

(** ** The lookups on a whole trie *)

Section Lookups.
Context `{!IpNetOps, !IpNetLaws} {N T : Type}
  `{!StrideOps N T, !StrideView N T, !StrideLaws N T}.
Context (v4 : bool) (n : N) (Hn : trie_wf v4 n).

Lemma matches_root ip k : matches n ip k = matches_from n ip 0 k.
Proof. unfold matches, matches_from. by rewrite Nat.sub_0_r. Qed.

Lemma contains_spec ip :
  ip_ok ip -> is_ipv4 ip = v4 ->
  contains n ip = Ret (negb (bool_decide (matches n ip (8 * width v4 + 1) = []))).
Proof.
  intros Hip Hfam. unfold contains.
  pose proof (contains_loop_spec v4 ip Hip Hfam (width v4) n 0 Hn eq_refl) as Hc.
  rewrite drop_0 in Hc. rewrite Hc, matches_root. do 2 f_equal.
  apply bool_decide_ext, fmap_nil_iff.
Qed.

Lemma lookup_address_all_spec ip :
  ip_ok ip -> is_ipv4 ip = v4 ->
  exists it, lookup_address_all n ip = Ret it /\
    lookup_collect 130 it = Ret (matches n ip (8 * width v4 + 1)).*2.
Proof.
  intros Hip Hfam. unfold lookup_address_all.
  destruct (lookup_address_all_loop_spec v4 ip Hip Hfam (width v4) n 0 [] Hn)
    as (it & E & Hp & Hs & HL); [done|done|constructor|].
  rewrite drop_0 in E. rewrite app_nil_r in HL. exists it. split; [done|].
  rewrite matches_root. eapply lookup_collect_spec; [|by symmetry|by rewrite Hp].
  rewrite length_fmap. unfold matches_from.
  pose proof (length_omap_le (fun l => p ← net_at ip l; pair l <$> sub 0 p n)
    (rev (seq (8 * 0) (8 * width v4 + 1 - 8 * 0)))) as Hle.
  rewrite length_rev, length_seq in Hle. assert (width v4 <= 16) by (destruct v4; simpl; lia).
  lia.
Qed.

Lemma lookup_address_spec ip :
  ip_ok ip -> is_ipv4 ip = v4 ->
  lookup_address n ip = Ret (head (matches n ip (8 * width v4 + 1)).*2).
Proof.
  intros Hip Hfam. unfold lookup_address.
  destruct (lookup_address_loop_spec v4 ip Hip Hfam (width v4) n 0 [] Hn)
    as (r & E & Hr); [done|done|constructor|].
  rewrite drop_0 in E. rewrite E. mrun. rewrite matches_root.
  destruct r as [v|st]; [by rewrite app_nil_r in Hr; rewrite Hr|]. destruct Hr as [Hok Hst].
  rewrite app_nil_r in Hst.
  destruct (walk_stack_spec st None (stack_matches st)) as (s' & p' & -> & _); [done|].
  mrun. by rewrite Hst.
Qed.
End Lookups.

(** ** Exact and longest-prefix lookups of a prefix *)

Section PrefixLookups.
Context `{!IpNetOps, !IpNetLaws} {N T : Type}
  `{!StrideOps N T, !StrideView N T, !StrideLaws N T} (v4 : bool).
Implicit Types (n : N) (p q : IpNet).

Lemma lookup_prefix_exact_loop_spec p h : forall path n,
  twf v4 h path n -> length path + h = width v4 -> under v4 path p ->
  lookup_prefix_exact_loop p (drop (length path) (ip_octets (addr p))) (length path) n
  = Ret (sub (length path) p n).
Proof.
  induction h as [|h IH]; intros path n Hn Hw Hup; [done|].
  destruct (under_octet _ _ _ Hup) as (o & Hlk & Ho); [lia|].
  rewrite (drop_S _ _ _ Hlk). pose proof Hup as (_ & Hl & _).
  pose proof (twf_stride v4 _ _ _ Hn) as Hwf. destruct (last_stride _ _ Hl) as [Hlast Hmod].
  cbn [lookup_prefix_exact_loop]. unfold stride_count_and_overflow.
  rewrite (sub_step _ _ _ o Hlk Hl).
  destruct (decide (length path = prefix_len p / 8)) as [Hd|Hd].
  { apply Hlast in Hd. rewrite decide_True, Hmod, from_prefix_fp by (done || lia). mrun.
    apply get_prefix_exact_law; [done|]. apply fp_index_ok; [done|lia]. }
  assert (8 * length path + 8 <= prefix_len p) as Hlong by (apply Nat.le_ngt; tauto).
  rewrite decide_False by lia. rewrite get_child_law by done. mrun.
  destruct (child_at n o) as [[m|q v|v]|] eqn:Hc; cbn [csub]; [| | |done].
  - destruct Hn as [_ Hok]. apply Hok in Hc as [Hm _].
    pose proof (IH (path ++ [o]) m Hm) as IHm. rewrite length_app, Nat.add_1_r in IHm.
    apply IHm; [lia|by apply under_snoc].
  - repeat case_decide; congruence.
  - rewrite is_fringe_spec by done. mrun. repeat case_bool_decide; case_decide; done.
Qed.

Lemma lookup_prefix_exact_spec n p :
  trie_wf v4 n -> net_ok v4 p -> lookup_prefix_exact n p = Ret (route n p).
Proof.
  intros Hn Hp. unfold lookup_prefix_exact, route.
  apply (lookup_prefix_exact_loop_spec p (width v4) [] n); [done..|].
  split_and!; [done|simpl; lia|done].
Qed.

(** The longest-match walk, for a truncated query. *)
Section Lpm.
Context (p : IpNet) (Hp : net_ok v4 p).
Let ip := addr p.
Let k := S (prefix_len p).

Definition lpm_stack_ok (stack : list (N * Z * nat)) : Prop :=
  Forall (fun '(n, o, d) => stride_wf n /\ u8_ok o /\ 8 * d <= prefix_len p) stack.

Definition lpm_stack_matches (stack : list (N * Z * nat)) : list (nat * T) :=
  concat ((fun '(n, o, d) => node_matches n d o (8 `min` (k - 8 * d))) <$> stack).

(** The answer names the network of length [l] that covers the query. *)
Definition lpm_answer (x : nat * T) (r : IpNet * T) : Prop :=
  r.2 = x.2 /\ prefix_len r.1 = x.1 /\ net_at ip x.1 = Some (trunc r.1).

Lemma lpm_ip : ip_ok ip /\ is_ipv4 ip = v4.
Proof. split; [apply addr_ok|apply Hp]. Qed.

Lemma prefix_len_lt_k : k <= 8 * width v4 + 1.
Proof. pose proof (prefix_len_le v4 p (proj1 Hp)). unfold k. lia. Qed.

(** A network on the address of the query, of length [l]. *)
Lemma lpm_net l :
  l <= prefix_len p ->
  exists q, new_assert ip l = Ret q /\ prefix_len q = l /\ net_at ip l = Some (trunc q).
Proof.
  intros Hl. destruct lpm_ip as [Hip Hfam]. pose proof prefix_len_lt_k.
  destruct (new_assert_ok ip l) as (q & Hq & Ha & Hql); [done|rewrite Hfam; unfold k in *; lia|].
  exists q. split_and!; [done..|].
  apply (net_at_covers v4 ip Hip Hfam). split_and!.
  - split; [by rewrite trunc_family, Ha|apply trunc_idem].
  - by rewrite trunc_len.
  - apply net_contains_iff; [done|]. rewrite trunc_family, trunc_len, Ha, trunc_addr, Ha.
    split; [done|]. unfold mask_addr. by rewrite mk_addr_octets, mask_octets_idem.
Qed.

Lemma node_matches_head n d o j :
  head (node_matches n d o j)
  = (fun x => (8 * d + Z.to_nat (idx_len x.1 - 1), x.2)) <$> head (covers n o j)
  \/ ~ (u8_ok o /\ j <= 8).
Proof.
  destruct (decide (u8_ok o /\ j <= 8)) as [[Ho Hj]|]; [left|by right].
  induction j as [|j IH]; [done|]. rewrite covers_S. unfold node_matches.
  rewrite seq_S, rev_app_distr. cbn [rev app omap list_omap Nat.add].
  destruct (prefix_at n (fp o (Z.of_nat j))) as [v|].
  - cbn [head fmap option_fmap option_map fst snd].
    rewrite fp_idx_len by (done || lia). do 3 f_equal. lia.
  - apply IH. lia.
Qed.

Lemma lookup_prefix_lpm_walk_spec stack :
  lpm_stack_ok stack ->
  exists r, lookup_prefix_lpm_walk p stack = Ret r /\
    match head (lpm_stack_matches stack) with
    | None => r = None
    | Some x => exists y, r = Some y /\ lpm_answer x y
    end.
Proof.
  induction 1 as [|[[n o] d] stack (Hwf & Ho & Hd) Hst IH]; [by exists None|].
  destruct IH as (r & Hr & IH). cbn [lookup_prefix_lpm_walk].
  unfold lpm_stack_matches. cbn [fmap list_fmap concat]. fold (lpm_stack_matches stack).
  destruct (last_stride _ _ Hd) as [Hlast Hmod]. unfold stride_count_and_overflow.
  assert (node_matches n d o (8 `min` (k - 8 * d)) = [] ->
    exists r, lookup_prefix_lpm_walk p stack = Ret r /\
    match head (node_matches n d o (8 `min` (k - 8 * d)) ++ lpm_stack_matches stack) with
    | None => r = None
    | Some x => exists y, r = Some y /\ lpm_answer x y
    end) as Hnext by (intros ->; by exists r).
  destruct (decide (prefix_count n = 0)) as [Hz|Hz].
  { apply Hnext. apply omap_none. intros j _. destruct (prefix_at n _) as [v|] eqn:E; [|done].
    pose proof (prefix_count_pos n _ _ Hwf E). lia. }
  assert (exists j, j < 8 /\ (if decide (d = prefix_len p / 8)
     then from_prefix o (Z.of_nat (prefix_len p mod 8)) else from_pfx_7 o)
     = Ret (fp o (Z.of_nat j)) /\ 8 `min` (k - 8 * d) = S j) as (j & Hj & -> & Ej).
  { destruct (decide (d = prefix_len p / 8)) as [E|E].
    - apply Hlast in E. exists (prefix_len p - 8 * d). rewrite Hmod by done.
      split_and!; [lia|apply from_prefix_fp; [done|lia]|unfold k; lia].
    - exists 7. split_and!; [lia|by apply from_pfx_7_fp|].
      assert (8 * d + 8 <= prefix_len p) by (apply Nat.le_ngt; tauto). unfold k. lia. }
  mrun. rewrite lookup_index_law by done. mrun. rewrite Ej in Hnext |- *.
  destruct (node_matches_head n d o (S j)) as [Hh|Hh]; [|exfalso; apply Hh; split; [done|lia]].
  destruct (covers n o (S j)) as [|[i v] l] eqn:Ec.
  { apply Hnext. by destruct (node_matches n d o (S j)). }
  destruct (node_matches n d o (S j)) as [|x l'] eqn:En; [done|].
  cbn [head fmap option_fmap option_map fst snd app] in Hh |- *. injection Hh as ->.
  assert (exists m, m <= j /\ i = fp o (Z.of_nat m)) as (m & Hm & ->).
  { assert ((i, v) ∈ covers n o (S j)) as Hin by (rewrite Ec; apply list_elem_of_here).
    unfold covers in Hin. apply list_elem_of_omap in Hin as (m & Hm & E).
    rewrite rev_reverse, elem_of_reverse, elem_of_seq in Hm.
    destruct (prefix_at n _); [|done]. injection E as <- _. exists m. split; [lia|done]. }
  unfold prefix_bits. rewrite fp_idx_len by (done || lia).
  assert (prefix_len p <= 128) as H128.
  { pose proof (prefix_len_le v4 p (proj1 Hp)). destruct v4; simpl in *; lia. }
  rewrite Z.mod_small by lia.
  replace (Z.to_nat (Z.of_nat (d * 8) + (Z.of_nat m + 1 - 1))) with (8 * d + m) by lia.
  fold ip.
  destruct (lpm_net (8 * d + m)) as (q & -> & Hql & Hq); [unfold k in *; lia|]. mrun.
  eexists; split; [done|]. exists (q, v). split; [done|].
  match goal with |- lpm_answer (?l, _) _ => replace l with (8 * d + m) by lia end.
  by split_and!.
Qed.

Lemma lookup_prefix_lpm_loop_spec h : forall n d stack,
  twf v4 h (take d (ip_octets ip)) n -> d + h = width v4 -> length stack = d ->
  lpm_stack_ok stack ->
  exists r, lookup_prefix_lpm_loop p (drop d (ip_octets ip)) d n stack = Ret r /\
    match r with
    | inl y => exists x, head (matches_from n ip d k ++ lpm_stack_matches stack) = Some x /\
                 lpm_answer x y
    | inr st => lpm_stack_ok st /\
                lpm_stack_matches st = matches_from n ip d k ++ lpm_stack_matches stack
    end.
Proof.
  destruct lpm_ip as [Hip Hfam]. pose proof prefix_len_lt_k as HK.
  induction h as [|h IH]; intros n d stack Hn Hw Hlen Hst; [done|].
  destruct (ip_octet v4 ip Hip Hfam d) as (o & Hlk & Ho); [lia|]. rewrite (drop_S _ _ _ Hlk).
  cbn [lookup_prefix_lpm_loop]. unfold stride_count_and_overflow.
  pose proof (Nat.div_mod (prefix_len p) 8 ltac:(lia)) as Hdm.
  pose proof (Nat.mod_upper_bound (prefix_len p) 8 ltac:(lia)) as Hmb.
  destruct (decide (prefix_len p / 8 < d)) as [Hlt|Hge].
  { eexists; split; [done|]. split; [done|]. unfold matches_from.
    replace (k - 8 * d) with 0 by (unfold k; lia). done. }
  rewrite (push_spec v4 _ _ d) by (done || lia). mrun.
  pose proof (twf_stride v4 _ _ _ Hn) as Hwf. rewrite get_child_law by done. mrun.
  rewrite (matches_step v4 ip Hip Hfam h n d k o), <- app_assoc by done.
  assert (lpm_stack_ok ((n, o, d) :: stack)) as Hst'
    by (constructor; [split_and!; [done..|lia]|done]).
  pose proof Hn as [_ Hok].
  destruct (child_at n o) as [[m|q v|v]|] eqn:Hc; cbn [child_matches].
  - destruct (IH m (S d) ((n, o, d) :: stack)) as (r & E & Hr);
      [by eapply twf_path|lia|simpl; lia|done|]. by exists r.
  - apply Hok in Hc as [[Hq _] _].
    rewrite (orb_comm (bool_decide _)), <- (negb_involutive (bool_decide (prefix_len p < _))).
    rewrite <- negb_andb.
    assert (negb (bool_decide (prefix_len p < prefix_len q)) = bool_decide (prefix_len q < k)) as ->.
    { unfold k. repeat case_bool_decide; simpl; done || lia. }
    fold ip. destruct (net_contains q ip && bool_decide (prefix_len q < k)) eqn:Hcov;
      cbn [negb]; [|by eexists].
    apply andb_true_iff in Hcov as [Hcov Hlt].
    eexists; split; [done|]. eexists; split; [done|]. split_and!; [done..|]. cbn [fst].
    rewrite (proj2 Hq). apply (net_at_covers v4 ip Hip Hfam). done.
  - replace ((d + 1) * 8) with (8 * d + 8) by lia.
    destruct (decide (prefix_len p < 8 * d + 8)) as [Hlt|Hle].
    + rewrite decide_False by (unfold k; lia). by eexists.
    + rewrite decide_True by (unfold k; lia). fold ip.
      destruct (lpm_net (8 * d + 8)) as (q & -> & Hql & Hq); [lia|]. mrun.
      eexists; split; [done|]. eexists; split; [done|]. by split_and!.
  - by eexists.
Qed.
End Lpm.

Lemma lookup_prefix_lpm_spec n p :
  trie_wf v4 n -> is_ipv4 (addr p) = v4 ->
  exists r, lookup_prefix_lpm n p = Ret r /\
    match head (matches n (addr (trunc p)) (S (prefix_len p))) with
    | None => r = None
    | Some (l, v) => exists q, r = Some (q, v) /\ prefix_len q = l /\
        net_at (addr (trunc p)) l = Some (trunc q)
    end.
Proof.
  intros Hn Hv. assert (net_ok v4 (trunc p)) as Hp
    by (split; [by rewrite trunc_family|apply trunc_idem]).
  unfold lookup_prefix_lpm. rewrite <- (trunc_len p).
  destruct (lookup_prefix_lpm_loop_spec (trunc p) Hp (width v4) n 0 []) as (r & E & Hr);
    [done|done|done|constructor|].
  rewrite drop_0 in E. rewrite E. mrun. rewrite matches_root. destruct r as [y|st].
  - destruct Hr as ([l v] & Hx & Hy1 & Hy2 & Hy3). rewrite app_nil_r in Hx. rewrite Hx.
    eexists; split; [done|]. destruct y as [q v']. cbn [fst snd] in *. subst v'. by exists q.
  - destruct Hr as [Hok Hst]. rewrite app_nil_r in Hst.
    destruct (lookup_prefix_lpm_walk_spec (trunc p) Hp st Hok) as (r & -> & Hr).
    exists r. split; [done|]. rewrite Hst in Hr. destruct (head _) as [[l v]|]; [|done].
    destruct Hr as ([q v'] & -> & Hy1 & Hy2 & Hy3). cbn [fst snd] in *. subst v'. by exists q.
Qed.
End PrefixLookups.
