(* ===== verification/Table.v ===== *)
(** * Table: complete routing tables

    Models src/ts_bart/src/table/: [SimpleTable] (a trie and a route count)
    and [SplitStackTable] (one per address family). The specification is a
    map from truncated prefixes to values; the refinement theorem runs any
    sequence of updates on both and compares every result. *)

From S2P Require Import Prelude Bitset Array256 BaseIndex IpNet Stride IpTrie TrieSpec TrieUpdate TrieRemove TrieLookup.

(** ** SimpleTable *)

Module Simple.
Section SimpleTable.
Context `{!IpNetOps} {N T : Type} `{!StrideOps N T}.

(** The route count is a [usize]; it counts stored routes, so it stays far
  below its range. *)
Record SimpleTable := mkSimpleTable { root : N; size : nat }.

Definition EMPTY : SimpleTable := mkSimpleTable node_default 0.

Definition contains (t : SimpleTable) (ip : IpAddr) : outcome bool :=
IpTrie.contains (root t) ip.

Definition insert (t : SimpleTable) (prefix : IpNet) (val : T)
  : outcome (SimpleTable * option T) :=
'(r, ret) ← IpTrie.insert (root t) (trunc prefix) val;
Ret (mkSimpleTable r (if decide (ret = None) then size t + 1 else size t), ret).

Definition remove (t : SimpleTable) (prefix : IpNet) : outcome (SimpleTable * option T) :=
'(r, ret) ← IpTrie.remove (root t) prefix;
match ret with
| Some _ => s ← usub (size t) 1; Ret (mkSimpleTable r s, ret)
| None => Ret (mkSimpleTable r (size t), ret)
end.

(** The wrapped closure records its answer in [op], [Noop] before the call. *)
Definition modify (t : SimpleTable) (prefix : IpNet) (f : ModifyFn T)
  : outcome (SimpleTable * option T) :=
'(r, ret, op) ← IpTrie.modify_traced (root t) prefix f;
match ret, default Noop op with
| None, Insert _ => Ret (mkSimpleTable r (size t + 1), ret)
| Some _, Remove => s ← usub (size t) 1; Ret (mkSimpleTable r s, ret)
| _, _ => Ret (mkSimpleTable r (size t), ret)
end.

Definition clear : SimpleTable := mkSimpleTable node_default 0.

Definition lookup (t : SimpleTable) (ip : IpAddr) : outcome (option T) :=
IpTrie.lookup_address (root t) ip.

Definition lookup_all (t : SimpleTable) (ip : IpAddr) : outcome (LookupIter N T) :=
IpTrie.lookup_address_all (root t) ip.

Definition lookup_prefix_exact (t : SimpleTable) (prefix : IpNet) : outcome (option T) :=
IpTrie.lookup_prefix_exact (root t) prefix.

Definition lookup_prefix (t : SimpleTable) (prefix : IpNet) : outcome (option T) :=
r ← IpTrie.lookup_prefix_lpm (root t) prefix;
Ret (snd <$> (r : option (IpNet * T))).

Definition lookup_prefix_lpm (t : SimpleTable) (prefix : IpNet)
  : outcome (option (IpNet * T)) :=
IpTrie.lookup_prefix_lpm (root t) prefix.
End SimpleTable.
Arguments SimpleTable N : clear implicits.
End Simple.

(** ** SplitStackTable *)

Module Split.
Section SplitStackTable.
Context `{!IpNetOps} {N T : Type} `{!StrideOps N T}.

Record SplitStackTable := mkSplit {
table4 : Simple.SimpleTable N;
table6 : Simple.SimpleTable N;
}.
Implicit Types t : SplitStackTable.

Definition EMPTY : SplitStackTable := mkSplit Simple.EMPTY Simple.EMPTY.

Definition stack_table t (ipv4 : bool) : Simple.SimpleTable N :=
if ipv4 then table4 t else table6 t.

(** Writing through [stack_table_mut]. *)
Definition set_stack_table t (ipv4 : bool) (s : Simple.SimpleTable N) : SplitStackTable :=
if ipv4 then mkSplit s (table6 t) else mkSplit (table4 t) s.

Definition size4 t : nat := Simple.size (table4 t).
Definition size6 t : nat := Simple.size (table6 t).
Definition size t : nat := Simple.size (table4 t) + Simple.size (table6 t).

Definition contains t (ip : IpAddr) : outcome bool :=
Simple.contains (stack_table t (is_ipv4 ip)) ip.

Definition insert t (prefix : IpNet) (val : T) : outcome (SplitStackTable * option T) :=
let ipv4 := is_ipv4 (addr prefix) in
'(s, ret) ← Simple.insert (stack_table t ipv4) prefix val;
Ret (set_stack_table t ipv4 s, ret).

Definition remove t (prefix : IpNet) : outcome (SplitStackTable * option T) :=
let ipv4 := is_ipv4 (addr prefix) in
'(s, ret) ← Simple.remove (stack_table t ipv4) prefix;
Ret (set_stack_table t ipv4 s, ret).

Definition modify t (prefix : IpNet) (f : ModifyFn T) : outcome (SplitStackTable * option T) :=
let ipv4 := is_ipv4 (addr prefix) in
'(s, ret) ← Simple.modify (stack_table t ipv4) prefix f;
Ret (set_stack_table t ipv4 s, ret).

Definition clear : SplitStackTable := mkSplit Simple.clear Simple.clear.

Definition lookup t (ip : IpAddr) : outcome (option T) :=
Simple.lookup (stack_table t (is_ipv4 ip)) ip.

Definition lookup_all t (ip : IpAddr) : outcome (LookupIter N T) :=
Simple.lookup_all (stack_table t (is_ipv4 ip)) ip.

Definition lookup_prefix_exact t (prefix : IpNet) : outcome (option T) :=
Simple.lookup_prefix_exact (stack_table t (is_ipv4 (addr prefix))) prefix.

Definition lookup_prefix t (prefix : IpNet) : outcome (option T) :=
Simple.lookup_prefix (stack_table t (is_ipv4 (addr prefix))) prefix.

Definition lookup_prefix_lpm t (prefix : IpNet) : outcome (option (IpNet * T)) :=
Simple.lookup_prefix_lpm (stack_table t (is_ipv4 (addr prefix))) prefix.
End SplitStackTable.
Arguments SplitStackTable N : clear implicits.
End Split.

(** ** The specification: a map from truncated prefixes to values *)

Section TableSpec.
Context `{!IpNetOps} {T : Type}.

Definition amap := IpNet -> option T.

Inductive table_op :=
| OInsert (prefix : IpNet) (val : T)
| ORemove (prefix : IpNet)
| OModify (prefix : IpNet) (f : ModifyFn T)
| OClear.

Definition aset (m : amap) (p : IpNet) (r : option T) : amap :=
  fun q => if decide (q = p) then r else m q.

(** An update of the map and the value it returns. *)
Definition amap_step (m : amap) (op : table_op) : amap * option T :=
  match op with
  | OInsert p v => (aset m (trunc p) (Some v), m (trunc p))
  | ORemove p => (aset m (trunc p) None, m (trunc p))
  | OModify p f =>
      (aset m (trunc p) (apply_mod f (m (trunc p))).1, (apply_mod f (m (trunc p))).2)
  | OClear => (fun _ => None, None)
  end.

Fixpoint amap_run (m : amap) (ops : list table_op) : amap * list (option T) :=
  match ops with
  | [] => (m, [])
  | op :: ops =>
      let '(m, r) := amap_step m op in
      let '(m, rs) := amap_run m ops in
      (m, r :: rs)
  end.

(** The covering routes of [ip] shorter than [k] bits, most specific first. *)
Definition amatches (m : amap) (ip : IpAddr) (k : nat) : list (nat * T) :=
  omap (fun l => p ← net_at ip l; pair l <$> m p) (rev (seq 0 k)).
End TableSpec.
Arguments amap {_} T.
Arguments table_op {_} T.

Section TableRun.
Context `{!IpNetOps} {N T : Type} `{!StrideOps N T}.

Definition table_step (t : Split.SplitStackTable N) (op : table_op T)
    : outcome (Split.SplitStackTable N * option T) :=
  match op with
  | OInsert p v => Split.insert t p v
  | ORemove p => Split.remove t p
  | OModify p f => Split.modify t p f
  | OClear => Ret (Split.clear, None)
  end.

Fixpoint table_run (t : Split.SplitStackTable N) (ops : list (table_op T))
    : outcome (Split.SplitStackTable N * list (option T)) :=
  match ops with
  | [] => Ret (t, [])
  | op :: ops =>
      '(t, r) ← table_step t op;
      '(t, rs) ← table_run t ops;
      Ret (t, r :: rs)
  end.
End TableRun.

(** ** SimpleTable: routes and their number *)

Section SimpleSpec.
Context `{!IpNetOps, !IpNetLaws} {N T : Type}
  `{!StrideOps N T, !StrideView N T, !StrideLaws N T} (v4 : bool).
Implicit Types (t : Simple.SimpleTable N) (p q : IpNet).

(** [s] is the number of routes of the family in [n]. *)
Definition counts (n : N) (s : nat) : Prop :=
  exists l : list IpNet, NoDup l /\ length l = s /\
    forall p, p ∈ l <-> net_ok v4 p /\ is_Some (route n p).

Definition simple_wf t : Prop := trie_wf v4 (Simple.root t) /\ counts (Simple.root t) (Simple.size t).

Lemma counts_updated n n' p r s :
  net_ok v4 p -> counts n s -> routes_updated v4 n n' p r ->
  exists s', s' + b2n (route n p) = s + b2n r /\ counts n' s'.
Proof.
  intros Hp (l & Hnd & Hlen & Hl) [_ Hr].
  set (l0 := filter (fun q => q <> p) l).
  assert (NoDup l0) as Hnd0 by (by apply NoDup_filter).
  assert (forall q, q ∈ l0 <-> q <> p /\ net_ok v4 q /\ is_Some (route n q)) as Hl0.
  { intros q. unfold l0. by rewrite list_elem_of_filter, Hl. }
  assert (length l0 + b2n (route n p) = s) as Hlen0.
  { subst s. destruct (route n p) as [v|] eqn:E.
    - rewrite b2n_Some. assert (p ∈ l) as Hin by (apply Hl; by rewrite E).
      assert (l ≡ₚ p :: l0) as ->; [|simpl; lia].
      apply NoDup_Permutation; [done|constructor; [|done]|].
      + rewrite Hl0. tauto.
      + intros q. rewrite elem_of_cons, Hl0, Hl.
        destruct (decide (q = p)) as [->|]; [|tauto]. rewrite E. split; [by left|by split].
    - rewrite b2n_None, Nat.add_0_r. unfold l0. f_equal.
      apply filter_all. apply Forall_forall. intros q Hq ->.
      apply Hl in Hq as [_ [? ?]]. congruence. }
  destruct r as [v|].
  - exists (S (length l0)). rewrite b2n_Some. split; [lia|]. exists (p :: l0).
    split_and!; [constructor; [rewrite Hl0; tauto|done]|done|].
    intros q. rewrite elem_of_cons, Hl0. split.
    + intros [->|(Hne & Hq & Hs)]; (split; [done|]); rewrite Hr by done;
        [by rewrite decide_True|by rewrite decide_False].
    + intros [Hq Hs]. rewrite Hr in Hs by done. case_decide; tauto.
  - exists (length l0). rewrite b2n_None. split; [lia|]. exists l0. split_and!; [done..|].
    intros q. rewrite Hl0. split.
    + intros (Hne & Hq & Hs). split; [done|]. rewrite Hr by done. by rewrite decide_False.
    + intros [Hq Hs]. rewrite Hr in Hs by done. case_decide; [by destruct Hs|tauto].
Qed.

Lemma trie_wf_default : trie_wf v4 (node_default : N).
Proof. unfold trie_wf. destruct v4; apply twf_default. Qed.

Lemma simple_wf_empty : simple_wf (Simple.EMPTY : Simple.SimpleTable N).
Proof.
  split; [apply trie_wf_default|]. exists []. split_and!; [constructor|done|].
  intros p. split; [by intros ?%elem_of_nil|]. intros [_ Hs].
  unfold route in Hs. simpl in Hs. rewrite sub_default in Hs. by destruct Hs.
Qed.

Definition simple_updated t t' p (r : option T) : Prop :=
  simple_wf t' /\ forall q, net_ok v4 q ->
    route (Simple.root t') q = if decide (q = p) then r else route (Simple.root t) q.

Lemma simple_insert t p v :
  simple_wf t -> is_ipv4 (addr p) = v4 ->
  exists t', Simple.insert t p v = Ret (t', route (Simple.root t) (trunc p)) /\
    simple_updated t t' (trunc p) (Some v).
Proof.
  intros [Hwf Hcnt] Hv. pose proof (trunc_net v4 p Hv) as Hp. unfold Simple.insert.
  destruct (insert_routes v4 (Simple.root t) (trunc p) v Hwf) as (n' & Hi & Hu);
    [by rewrite trunc_family|].
  rewrite trunc_idem in Hi, Hu. rewrite Hi. mrun. eexists; split; [done|].
  destruct (counts_updated _ _ _ _ _ Hp Hcnt Hu) as (s' & Hs & Hcnt'). rewrite b2n_Some in Hs.
  destruct Hu as [Hwf' Hr]. split; [|done]. split; [done|]. cbn [Simple.root Simple.size].
  case_decide as E; [rewrite E, b2n_None in Hs|].
  - by replace (Simple.size t + 1) with s' by lia.
  - destruct (route _ _) as [w|]; [|done]. rewrite b2n_Some in Hs.
    by replace (Simple.size t) with s' by lia.
Qed.

Lemma simple_remove t p :
  simple_wf t -> is_ipv4 (addr p) = v4 ->
  exists t', Simple.remove t p = Ret (t', route (Simple.root t) (trunc p)) /\
    simple_updated t t' (trunc p) None.
Proof.
  intros [Hwf Hcnt] Hv. pose proof (trunc_net v4 p Hv) as Hp. unfold Simple.remove.
  destruct (remove_routes v4 (Simple.root t) p Hwf Hv) as (n' & -> & Hu). mrun.
  destruct (counts_updated _ _ _ _ _ Hp Hcnt Hu) as (s' & Hs & Hcnt'). rewrite b2n_None in Hs.
  destruct Hu as [Hwf' Hr]. destruct (route (Simple.root t) (trunc p)) as [w|].
  - rewrite b2n_Some in Hs. unfold usub. rewrite decide_True by lia. mrun.
    eexists; split; [done|]. split; [|done]. split; [done|]. simpl.
    by replace (Simple.size t - 1) with s' by lia.
  - rewrite b2n_None in Hs. eexists; split; [done|]. split; [|done]. split; [done|]. simpl.
    by replace (Simple.size t) with s' by lia.
Qed.

Lemma simple_modify t p f :
  simple_wf t -> is_ipv4 (addr p) = v4 ->
  exists t', Simple.modify t p f = Ret (t', (apply_mod f (route (Simple.root t) (trunc p))).2) /\
    simple_updated t t' (trunc p) (apply_mod f (route (Simple.root t) (trunc p))).1.
Proof.
  intros [Hwf Hcnt] Hv. pose proof (trunc_net v4 p Hv) as Hp. unfold Simple.modify.
  destruct (modify_traced_routes v4 (Simple.root t) p f Hwf Hv) as (n' & -> & Hu). mrun.
  destruct (counts_updated _ _ _ _ _ Hp Hcnt Hu) as (s' & Hs & Hcnt').
  destruct Hu as [Hwf' Hr].
  assert (forall s ret, s = s' -> simple_updated t (Simple.mkSimpleTable n' s) (trunc p) ret <->
    simple_updated t (Simple.mkSimpleTable n' s') (trunc p) ret) as Hsz by (by intros s ret ->).
  assert (simple_updated t (Simple.mkSimpleTable n' s') (trunc p)
    (apply_mod f (route (Simple.root t) (trunc p))).1) as Hdone by (split; [by split|done]).
  unfold apply_mod, answer in *. destruct (route (Simple.root t) (trunc p)) as [w|].
  - destruct (on_some f w) as [w' a]. cbn [snd default].
    destruct a as [x| |]; cbn [fst snd b2n] in *.
    + eexists; split; [done|]. apply Hsz; [lia|done].
    + unfold usub. rewrite decide_True by lia. mrun.
      eexists; split; [done|]. apply Hsz; [lia|done].
    + eexists; split; [done|]. apply Hsz; [lia|done].
  - cbn [default].
    destruct (on_none f) as [x| |]; cbn [fst snd b2n] in *;
      (eexists; split; [done|]; apply Hsz; [lia|done]).
Qed.
End SimpleSpec.

(** ** SplitStackTable refines the map *)

Section Refinement.
Context `{!IpNetOps, !IpNetLaws} {N T : Type}
  `{!StrideOps N T, !StrideView N T, !StrideLaws N T}.
Implicit Types (t : Split.SplitStackTable N) (m : amap T).

Definition table_rel t m : Prop :=
  forall v4, simple_wf v4 (Split.stack_table t v4) /\
    forall p, net_ok v4 p -> route (Simple.root (Split.stack_table t v4)) p = m p.

Lemma table_rel_empty : table_rel Split.EMPTY (fun _ => None).
Proof.
  intros v4. assert (Split.stack_table (Split.EMPTY : Split.SplitStackTable N) v4 = Simple.EMPTY)
    as -> by (by destruct v4).
  split; [apply simple_wf_empty|]. intros p _. apply (sub_default (T:=T)).
Qed.

(** A table of one family was updated. *)
Lemma table_rel_updated t m v4 s p r :
  table_rel t m -> net_ok v4 p -> simple_updated v4 (Split.stack_table t v4) s p r ->
  table_rel (Split.set_stack_table t v4 s) (aset m p r).
Proof.
  intros Ht Hp [Hwf Hr] v4'. unfold aset.
  destruct (decide (v4' = v4)) as [->|Hne].
  - assert (Split.stack_table (Split.set_stack_table t v4 s) v4 = s) as -> by (by destruct v4).
    split; [done|]. intros q Hq. rewrite Hr by done. case_decide; [done|]. by apply Ht.
  - assert (Split.stack_table (Split.set_stack_table t v4 s) v4' = Split.stack_table t v4') as ->
      by (by destruct v4, v4').
    split; [apply Ht|]. intros q Hq. rewrite decide_False; [by apply Ht|].
    intros ->. destruct Hq as [<- _]. by destruct Hp.
Qed.

Lemma table_step_refines t m op :
  table_rel t m ->
  exists t', table_step t op = Ret (t', (amap_step m op).2) /\ table_rel t' (amap_step m op).1.
Proof.
  intros Ht. destruct op as [p v|p|p f|]; cbn [table_step amap_step fst snd].
  - destruct (Ht (is_ipv4 (addr p))) as [Hwf Hr]. unfold Split.insert.
    destruct (simple_insert _ _ p v Hwf eq_refl) as (s & -> & Hu). mrun.
    pose proof (trunc_net _ p eq_refl) as Hp. rewrite Hr by done.
    eexists; split; [done|]. by apply table_rel_updated.
  - destruct (Ht (is_ipv4 (addr p))) as [Hwf Hr]. unfold Split.remove.
    destruct (simple_remove _ _ p Hwf eq_refl) as (s & -> & Hu). mrun.
    pose proof (trunc_net _ p eq_refl) as Hp. rewrite Hr by done.
    eexists; split; [done|]. by apply table_rel_updated.
  - destruct (Ht (is_ipv4 (addr p))) as [Hwf Hr]. unfold Split.modify.
    destruct (simple_modify _ _ p f Hwf eq_refl) as (s & -> & Hu). mrun.
    pose proof (trunc_net _ p eq_refl) as Hp. rewrite Hr in Hu |- * by done.
    eexists; split; [done|]. by apply table_rel_updated.
  - eexists; split; [done|]. apply table_rel_empty.
Qed.

Lemma table_run_refines ops : forall t m,
  table_rel t m ->
  exists t', table_run t ops = Ret (t', (amap_run m ops).2) /\ table_rel t' (amap_run m ops).1.
Proof.
  induction ops as [|op ops IH]; intros t m Ht; [by exists t|].
  cbn [table_run amap_run].
  destruct (table_step_refines t m op Ht) as (t1 & -> & Ht1). mrun.
  destruct (amap_step m op) as [m1 r]. cbn [fst snd] in *.
  destruct (IH t1 m1 Ht1) as (t2 & -> & Ht2). mrun.
  destruct (amap_run m1 ops) as [m2 rs]. by exists t2.
Qed.

(** The covering routes of a trie are those of the map it represents. *)
Lemma matches_amatches t m ip k :
  table_rel t m -> ip_ok ip ->
  matches (Simple.root (Split.stack_table t (is_ipv4 ip))) ip k = amatches m ip k.
Proof.
  intros Ht Hip. apply omap_ext_in. intros l _. destruct (net_at ip l) as [p|] eqn:E; [|done].
  apply (net_at_covers _ ip Hip eq_refl) in E as (Hp & _). cbn [mbind option_bind].
  by rewrite (proj2 (Ht _) p Hp).
Qed.

(** The route count is the number of entries of the map. *)
Lemma table_rel_size t m :
  table_rel t m ->
  exists l, NoDup l /\ length l = Split.size t /\
    forall p, p ∈ l <-> trunc p = p /\ is_Some (m p).
Proof.
  intros Ht. destruct (Ht true) as [[_ (l4 & Hnd4 & Hlen4 & Hl4)] Hr4].
  destruct (Ht false) as [[_ (l6 & Hnd6 & Hlen6 & Hl6)] Hr6].
  exists (l4 ++ l6). split_and!.
  - apply NoDup_app. split_and!; [done| |done]. intros p Hp4 Hp6.
    apply Hl4 in Hp4 as [[H4 _] _]. apply Hl6 in Hp6 as [[H6 _] _]. congruence.
  - rewrite length_app, Hlen4, Hlen6. done.
  - intros p. rewrite elem_of_app, Hl4, Hl6. split.
    + intros [[Hp Hs]|[Hp Hs]]; (split; [apply Hp|]); [by rewrite <- Hr4|by rewrite <- Hr6].
    + intros [Hp Hs]. destruct (is_ipv4 (addr p)) eqn:E; [left|right]; (split; [by split|]);
        [rewrite Hr4|rewrite Hr6]; by try split.
Qed.
End Refinement.
