(* ===== verification/IpNetModel.v ===== *)
(** * IpNetModel: a concrete [IpNet]

    An address and a prefix length within its width: the instance of the
    [ipnet] interface that the examples are evaluated with, and the evidence
    that the laws of [IpNetLaws] can hold. *)

From stdpp Require Import proof_irrel countable.
From S2P Require Import Prelude IpNet.

Definition octet_okb (o : Z) : bool := bool_decide (0 <= o < 256)%Z.

Definition ip_okb (ip : IpAddr) : bool :=
  bool_decide (length (ip_octets ip) = width (is_ipv4 ip)) && forallb octet_okb (ip_octets ip).

Definition net_okb (ip : IpAddr) (l : nat) : bool :=
  ip_okb ip && bool_decide (l <= 8 * width (is_ipv4 ip)).

Record CNet := mkCNet {
  c_addr : IpAddr;
  c_len : nat;
  c_ok : net_okb c_addr c_len = true;
}.

Lemma ip_okb_spec ip : ip_okb ip = true <-> ip_ok ip.
Proof.
  unfold ip_okb, ip_ok. rewrite andb_true_iff, bool_decide_eq_true, forallb_forall.
  rewrite Forall_forall. setoid_rewrite list_elem_of_In.
  split; intros [Hl Ho]; (split; [done|]); intros o Hin; specialize (Ho o Hin).
  - by apply bool_decide_eq_true in Ho.
  - by apply bool_decide_eq_true.
Qed.

Lemma net_okb_spec ip l :
  net_okb ip l = true <-> ip_ok ip /\ l <= 8 * width (is_ipv4 ip).
Proof. unfold net_okb. by rewrite andb_true_iff, ip_okb_spec, bool_decide_eq_true. Qed.

Lemma cnet_ext n m : c_addr n = c_addr m -> c_len n = c_len m -> n = m.
Proof.
  destruct n as [a l H], m as [a' l' H']. simpl. intros -> ->. f_equal. apply proof_irrel.
Qed.

#[export] Instance CNet_eq_dec : EqDecision CNet.
Proof.
  intros n m. destruct (decide (c_addr n = c_addr m)) as [Ha|Ha].
  - destruct (decide (c_len n = c_len m)) as [Hl|Hl].
    + left. by apply cnet_ext.
    + right. by intros ->.
  - right. by intros ->.
Defined.

(** The evidence evaluates to [eq_refl]. *)
Definition c_make (ip : IpAddr) (l : nat) : option CNet :=
  (if net_okb ip l as b return net_okb ip l = b -> option CNet
   then fun H => Some (mkCNet ip l H) else fun _ => None) eq_refl.

Lemma c_make_Some ip l :
  net_okb ip l = true -> exists n, c_make ip l = Some n /\ c_addr n = ip /\ c_len n = l.
Proof.
  intros H. unfold c_make. generalize (eq_refl (net_okb ip l)).
  generalize (net_okb ip l) at 2 3. intros [] E; [by eexists|congruence].
Qed.

Lemma c_make_None ip l : net_okb ip l = false -> c_make ip l = None.
Proof.
  intros H. unfold c_make. generalize (eq_refl (net_okb ip l)).
  generalize (net_okb ip l) at 2 3. intros [] E; [congruence|done].
Qed.

#[export, refine] Instance CNet_countable : Countable CNet :=
  inj_countable (fun n => (c_addr n, c_len n)) (fun x => c_make x.1 x.2) _.
Proof.
  intros n. cbn [fst snd].
  destruct (c_make_Some (c_addr n) (c_len n) (c_ok n)) as (n' & -> & Ha & Hl).
  f_equal. by apply cnet_ext.
Defined.

Definition c_new (ip : IpAddr) (l : nat) : outcome CNet := unwrap (c_make ip l).

Lemma mask_okb n : net_okb (mask_addr (c_len n) (c_addr n)) (c_len n) = true.
Proof.
  destruct n as [a l H]. simpl. apply net_okb_spec in H as [Ha Hl]. apply net_okb_spec.
  split; [by apply mask_addr_ok|]. unfold mask_addr. by rewrite mk_addr_is_ipv4.
Qed.

Definition c_trunc (n : CNet) : CNet :=
  default n (c_make (mask_addr (c_len n) (c_addr n)) (c_len n)).

Definition c_contains (n : CNet) (ip : IpAddr) : bool :=
  bool_decide (is_ipv4 ip = is_ipv4 (c_addr n)) &&
  bool_decide (mask_octets (c_len n) (ip_octets ip) = mask_octets (c_len n) (ip_octets (c_addr n))).

#[export] Instance CNet_ops : IpNetOps := {|
  IpNet := CNet;
  addr := c_addr;
  prefix_len := c_len;
  new_assert := c_new;
  trunc := c_trunc;
  net_contains := c_contains;
|}.

#[export] Instance CNet_laws : IpNetLaws.
Proof.
  split.
  - intros [a l H]. apply (proj1 (net_okb_spec a l) H).
  - intros [a l H]. apply (proj1 (net_okb_spec a l) H).
  - apply cnet_ext.
  - intros ip l Hip Hl. simpl. unfold c_new.
    destruct (c_make_Some ip l) as (n & -> & Ha & Hn); [by apply net_okb_spec|by exists n].
  - intros ip l Hl. simpl. unfold c_new. rewrite c_make_None; [done|].
    apply not_true_is_false. intros H. pose proof (proj1 (net_okb_spec _ _) H). lia.
  - intros n. simpl. unfold c_trunc. by destruct (c_make_Some _ _ (mask_okb n)) as (m & -> & _ & Hm).
  - intros n. simpl. unfold c_trunc. by destruct (c_make_Some _ _ (mask_okb n)) as (m & -> & Hm & _).
  - intros n ip _. simpl. unfold c_contains.
    by rewrite andb_true_iff, !bool_decide_eq_true.
Qed.

(** Examples of addresses and prefixes. *)
Definition ip4 (a b c d : Z) : IpAddr := V4 [a; b; c; d].

Definition net4 (a b c d : Z) (l : nat) (H : net_okb (ip4 a b c d) l = true) : CNet :=
  mkCNet (ip4 a b c d) l H.
