(* ===== verification/Routing.v ===== *)
(** * Routing: what a routing table guarantees

    The theorems on [SplitStackTable] over [Node], for every sequence of
    updates from the empty table. *)

From stdpp Require Import sorting.
From S2P Require Import Prelude Bitset Array256 BaseIndex IpNet Stride IpTrie TrieSpec TrieUpdate TrieRemove TrieLookup Table IpNetModel.

(** ** From lists of matches to statements on prefixes *)

Section Matches.
Context `{!IpNetOps, !IpNetLaws} {T : Type}.
Implicit Types (m : amap T) (p q : IpNet).

(** [p] is a route of [m] that covers [ip]. *)
Definition covering m (ip : IpAddr) p (v : T) : Prop :=
  trunc p = p /\ net_contains p ip = true /\ m p = Some v.

Definition amatch_list m (ip : IpAddr) (k : nat) : list (IpNet * T) :=
  omap (fun l => p ← net_at ip l; pair p <$> m p) (rev (seq 0 k)).

Lemma amatch_list_values m ip k : (amatch_list m ip k).*2 = (amatches m ip k).*2.
Proof.
  unfold amatch_list, amatches. induction (rev (seq 0 k)) as [|l ls IH]; [done|].
  cbn [omap list_omap]. destruct (net_at ip l) as [p|]; [|exact IH]. cbn [mbind option_bind].
  destruct (m p); [apply (f_equal (cons _))|]; exact IH.
Qed.

Lemma elem_of_amatch_list m ip k p v :
  ip_ok ip ->
  (p, v) ∈ amatch_list m ip k <-> prefix_len p < k /\ covering m ip p v.
Proof.
  intros Hip. unfold amatch_list. rewrite list_elem_of_omap. split.
  - intros (l & Hl & E). rewrite rev_reverse, elem_of_reverse, elem_of_seq in Hl.
    destruct (net_at ip l) as [q|] eqn:Hq; [|done]. cbn [mbind option_bind] in E.
    destruct (m q) as [w|] eqn:Hw; [|done]. injection E as <- <-.
    apply (net_at_covers _ ip Hip eq_refl) in Hq as ([_ Ht] & Hpl & Hc).
    split; [lia|]. by split_and!.
  - intros (Hk & Ht & Hc & Hm). exists (prefix_len p).
    rewrite rev_reverse, elem_of_reverse, elem_of_seq. split; [lia|].
    assert (net_at ip (prefix_len p) = Some p) as ->.
    { apply (net_at_covers _ ip Hip eq_refl). split_and!; [|done|done]. split; [|done].
      apply net_contains_iff in Hc as [? _]; done. }
    cbn [mbind option_bind]. by rewrite Hm.
Qed.

Lemma amatch_list_sorted m ip k :
  ip_ok ip -> StronglySorted (fun a b => prefix_len b.1 < prefix_len a.1) (amatch_list m ip k).
Proof.
  intros Hip. induction k as [|k IH]; [constructor|].
  assert (amatch_list m ip (S k) =
    match (p ← net_at ip k; pair p <$> m p) with
    | Some x => x :: amatch_list m ip k | None => amatch_list m ip k end) as ->.
  { unfold amatch_list. by rewrite seq_S, rev_app_distr. }
  destruct (net_at ip k) as [p|] eqn:Hp; [|done]. cbn [mbind option_bind].
  destruct (m p) as [v|]; [|done]. cbn [fmap option_fmap option_map]. constructor; [done|].
  apply Forall_forall. intros [q w] Hq. apply elem_of_amatch_list in Hq as [Hq _]; [|done].
  apply (net_at_covers _ ip Hip eq_refl) in Hp as (_ & Hpl & _). simpl. lia.
Qed.

(** Every covering prefix fits the width of the address. *)
Lemma covering_len m ip p v :
  ip_ok ip -> covering m ip p v -> prefix_len p < 8 * width (is_ipv4 ip) + 1.
Proof.
  intros Hip (_ & Hc & _). apply net_contains_iff in Hc as [Hv _]; [|done].
  pose proof (prefix_len_ok p). rewrite Hv. lia.
Qed.

(** The answer of a longest-prefix match among the routes of at most [k] bits. *)
Definition best_match m (ip : IpAddr) (k : nat) (r : option T) : Prop :=
  match r with
  | Some v => exists p, covering m ip p v /\ prefix_len p <= k /\
      forall q w, covering m ip q w -> prefix_len q <= k -> prefix_len q <= prefix_len p
  | None => forall p v, covering m ip p v -> k < prefix_len p
  end.

Lemma head_best_match m ip k :
  ip_ok ip -> best_match m ip k (head (amatches m ip (S k)).*2).
Proof.
  intros Hip. rewrite <- amatch_list_values.
  pose proof (amatch_list_sorted m ip (S k) Hip) as Hs.
  pose proof (fun p v => elem_of_amatch_list m ip (S k) p v Hip) as Hin.
  destruct (amatch_list m ip (S k)) as [|[p v] l]; simpl.
  - intros p v Hc. destruct (Nat.lt_ge_cases k (prefix_len p)) as [|Hge]; [done|].
    exfalso. apply (not_elem_of_nil (p, v)). apply Hin. split; [lia|done].
  - exists p. destruct (proj1 (Hin p v)) as [Hk Hc]; [apply list_elem_of_here|].
    split_and!; [done|lia|]. intros q w Hq Hqk.
    assert ((q, w) ∈ (p, v) :: l) as Hqin by (apply Hin; split; [lia|done]).
    apply elem_of_cons in Hqin as [[= -> _]|Hql]; [done|].
    apply StronglySorted_inv in Hs as [_ Hs]. rewrite Forall_forall in Hs.
    specialize (Hs _ Hql). simpl in Hs. lia.
Qed.
End Matches.

(** ** The state after a sequence of updates *)

#[local] Strategy expand [table_step amap_step].

Section After.
Context `{!IpNetOps, !IpNetLaws} {T : Type}.

Definition empty_map : amap T := fun _ => None.

(** The routes that a sequence of updates leaves. *)
Definition routes_after (ops : list (table_op T)) : amap T := (amap_run empty_map ops).1.

(** The value of the longest route that covers the address. *)
Definition route_of (m : amap T) (ip : IpAddr) : option T :=
  head (amatches m ip (S (8 * width (is_ipv4 ip)))).*2.

Lemma table_rel_lookup (t : Split.SplitStackTable (Node T)) m ip :
  table_rel t m -> ip_ok ip -> Split.lookup t ip = Ret (route_of m ip).
Proof.
  intros Hrel Hip. destruct (Hrel (is_ipv4 ip)) as [[Hwf _] _].
  unfold Split.lookup, Simple.lookup. rewrite (lookup_address_spec (is_ipv4 ip)) by done.
  rewrite (matches_amatches t _ ip) by done. by rewrite Nat.add_1_r.
Qed.

Lemma table_rel_insert (t : Split.SplitStackTable (Node T)) (m : amap T) p v :
  table_rel t m ->
  exists t', Split.insert t p v = Ret (t', m (trunc p)) /\
    table_rel t' (aset m (trunc p) (Some v)).
Proof.
  intros Ht. pose proof (table_step_refines t m (OInsert p v) Ht) as Hs.
  cbn [table_step amap_step fst snd] in Hs. exact Hs.
Qed.

Lemma table_rel_remove (t : Split.SplitStackTable (Node T)) (m : amap T) p :
  table_rel t m ->
  exists t', Split.remove t p = Ret (t', m (trunc p)) /\ table_rel t' (aset m (trunc p) None).
Proof.
  intros Ht. pose proof (table_step_refines t m (ORemove p) Ht) as Hs.
  cbn [table_step amap_step fst snd] in Hs. exact Hs.
Qed.

Lemma table_rel_modify (t : Split.SplitStackTable (Node T)) (m : amap T) p f :
  table_rel t m ->
  exists t', Split.modify t p f = Ret (t', (apply_mod f (m (trunc p))).2) /\
    table_rel t' (aset m (trunc p) (apply_mod f (m (trunc p))).1).
Proof.
  intros Ht. pose proof (table_step_refines t m (OModify p f) Ht) as Hs.
  cbn [table_step amap_step fst snd] in Hs. exact Hs.
Qed.

Lemma table_rel_exact (t : Split.SplitStackTable (Node T)) (m : amap T) p :
  table_rel t m -> trunc p = p -> Split.lookup_prefix_exact t p = Ret (m p).
Proof.
  intros Hrel Hp. destruct (Hrel (is_ipv4 (addr p))) as [[Hwf _] Hr].
  unfold Split.lookup_prefix_exact, Simple.lookup_prefix_exact.
  rewrite (lookup_prefix_exact_spec (is_ipv4 (addr p))) by done. by rewrite Hr.
Qed.

Lemma table_rel_lookup_prefix (t : Split.SplitStackTable (Node T)) (m : amap T) p :
  table_rel t m ->
  exists r, Split.lookup_prefix t p = Ret r /\
    best_match m (addr (trunc p)) (prefix_len p) r.
Proof.
  intros Hrel. destruct (Hrel (is_ipv4 (addr p))) as [[Hwf _] _].
  pose proof (addr_ok (trunc p)) as Hip.
  destruct (lookup_prefix_lpm_spec (is_ipv4 (addr p)) _ p Hwf eq_refl) as (r & Hr & Hres).
  unfold Split.lookup_prefix, Simple.lookup_prefix. rewrite Hr. exists (snd <$> r). split; [done|].
  rewrite <- (trunc_family p), (matches_amatches t _ (addr (trunc p))) in Hres by done.
  pose proof (head_best_match m (addr (trunc p)) (prefix_len p) Hip) as Hbest.
  destruct (amatches _ _ _) as [|[l v] ms]; cbn [head] in Hres; [by subst r|].
  by destruct Hres as (q & -> & _).
Qed.

Lemma run_rel ops (t : Split.SplitStackTable (Node T)) rs :
  table_run Split.EMPTY ops = Ret (t, rs) -> table_rel t (routes_after ops).
Proof.
  intros Hrun. destruct (table_run_refines ops (Split.EMPTY : Split.SplitStackTable (Node T))
    empty_map table_rel_empty) as (t' & Ht' & Hrel).
  rewrite Hrun in Ht'. by injection Ht' as -> _.
Qed.
End After.

Lemma head_fmap_list {A B} (f : A -> B) (l : list A) : head (f <$> l) = f <$> head l.
Proof. by destruct l. Qed.

Lemma head_elem_of {A} (l : list A) x : head l = Some x -> x ∈ l.
Proof. destruct l; [done|]. intros [= ->]. apply list_elem_of_here. Qed.

(** Nodes reached through path children, with the number of steps. *)
Inductive reaches `{!IpNetOps} {N T : Type} `{!StrideView N T} (root : N) : nat -> N -> Prop :=
| reaches_root : reaches root 0 root
| reaches_path d n o n' :
    reaches root d n -> child_at n o = Some (Path n') -> reaches root (S d) n'.

Lemma reaches_twf `{!IpNetOps, !IpNetLaws} {N T : Type}
    `{!StrideOps N T, !StrideView N T, !StrideLaws N T} v4 (root : N) d n :
  trie_wf v4 root -> reaches root d n ->
  (exists h path, twf v4 h path n /\ d + h = width v4) /\ (0 < d -> canon n).
Proof.
  intros Hwf. induction 1 as [|d n o n' _ [(h & path & Hn & Hd) _] Hc].
  - split; [|lia]. by exists (width v4), [].
  - destruct h as [|h]; [done|]. destruct Hn as [_ Hok]. apply Hok in Hc as [Hn' Hcan].
    split; [|done]. exists h, (path ++ [o]). split; [done|lia].
Qed.

(** ** Properties *)

(** C5: every sequence of insertions, removals, modifications and clears runs
    on a [SplitStackTable] without a panic, returns what the same sequence
    returns on a plain map from truncated prefixes to values, and leaves a
    table whose exact lookups read that map. *)
Theorem table_refines_map `{!IpNetOps, !IpNetLaws} {T : Type} (ops : list (table_op T)) :
  exists t : Split.SplitStackTable (Node T),
    table_run Split.EMPTY ops = Ret (t, (amap_run empty_map ops).2) /\
    forall p, trunc p = p -> Split.lookup_prefix_exact t p = Ret (routes_after ops p).
Proof.
  destruct (table_run_refines ops (Split.EMPTY : Split.SplitStackTable (Node T))
    empty_map table_rel_empty) as (t & Ht & Hrel).
  exists t. split; [done|]. intros p Hp. by apply table_rel_exact.
Qed.

(** C12: [lookup] answers with a route that covers the address and is at least
    as long as every other covering route, and with [None] only when no route
    covers the address. *)
Theorem table_lookup_longest `{!IpNetOps, !IpNetLaws} {T : Type} (ops : list (table_op T))
    (t : Split.SplitStackTable (Node T)) rs ip :
  table_run Split.EMPTY ops = Ret (t, rs) -> ip_ok ip ->
  exists r, Split.lookup t ip = Ret r /\
    best_match (routes_after ops) ip (8 * width (is_ipv4 ip)) r.
Proof.
  intros Hrun Hip. exists (route_of (routes_after ops) ip). split.
  - by eapply table_rel_lookup, Hip; eapply run_rel.
  - by apply head_best_match.
Qed.

(** [lookup_all] yields exactly the values of the covering routes, most
    specific first. *)
Theorem table_lookup_all_sorted `{!IpNetOps, !IpNetLaws} {T : Type} (ops : list (table_op T))
    (t : Split.SplitStackTable (Node T)) rs ip :
  table_run Split.EMPTY ops = Ret (t, rs) -> ip_ok ip ->
  exists it routes, Split.lookup_all t ip = Ret it /\
    lookup_collect 130 it = Ret (routes.*2) /\
    StronglySorted (fun a b => prefix_len b.1 < prefix_len a.1) routes /\
    forall p v, (p, v) ∈ routes <-> covering (routes_after ops) ip p v.
Proof.
  intros Hrun Hip. pose proof (run_rel ops t rs Hrun) as Hrel.
  destruct (Hrel (is_ipv4 ip)) as [[Hwf _] _].
  destruct (lookup_address_all_spec (is_ipv4 ip) _ Hwf ip Hip eq_refl) as (it & Hit & Hc).
  exists it, (amatch_list (routes_after ops) ip (8 * width (is_ipv4 ip) + 1)).
  split_and!; [exact Hit| |by apply amatch_list_sorted|].
  - rewrite Hc, (matches_amatches t _ ip) by done. by rewrite amatch_list_values.
  - intros p v. rewrite elem_of_amatch_list by done. split; [by intros [_ ?]|].
    intros Hcov. split; [by eapply covering_len|done].
Qed.

(** [contains] tells whether some route covers the address. *)
Theorem table_contains_iff `{!IpNetOps, !IpNetLaws} {T : Type} (ops : list (table_op T))
    (t : Split.SplitStackTable (Node T)) rs ip :
  table_run Split.EMPTY ops = Ret (t, rs) -> ip_ok ip ->
  exists b, Split.contains t ip = Ret b /\
    (b = true <-> exists p v, covering (routes_after ops) ip p v).
Proof.
  intros Hrun Hip. pose proof (run_rel ops t rs Hrun) as Hrel.
  destruct (Hrel (is_ipv4 ip)) as [[Hwf _] _].
  unfold Split.contains, Simple.contains. rewrite (contains_spec (is_ipv4 ip)) by done.
  eexists; split; [done|]. rewrite (matches_amatches t _ ip), negb_true_iff, bool_decide_eq_false
    by done.
  rewrite <- (fmap_nil_iff snd), <- amatch_list_values, fmap_nil_iff. split.
  - intros Hne. destruct (amatch_list _ _ _) as [|[p v] l] eqn:E; [done|].
    exists p, v. eapply (elem_of_amatch_list _ ip (8 * width (is_ipv4 ip) + 1)); [done|].
    rewrite E. apply list_elem_of_here.
  - intros (p & v & Hc) E. apply (not_elem_of_nil (p, v)). rewrite <- E.
    apply elem_of_amatch_list; [done|]. split; [by eapply covering_len|done].
Qed.

(** [lookup_prefix_lpm] answers with the longest route that covers the
    query prefix, and the network it names has the length of that route and
    truncates to it. *)
Theorem table_lookup_prefix_lpm `{!IpNetOps, !IpNetLaws} {T : Type} (ops : list (table_op T))
    (t : Split.SplitStackTable (Node T)) rs p :
  table_run Split.EMPTY ops = Ret (t, rs) ->
  exists r, Split.lookup_prefix_lpm t p = Ret r /\
    best_match (routes_after ops) (addr (trunc p)) (prefix_len p) (snd <$> r) /\
    forall q v, r = Some (q, v) -> prefix_len q <= prefix_len p /\
      covering (routes_after ops) (addr (trunc p)) (trunc q) v.
Proof.
  intros Hrun. pose proof (run_rel ops t rs Hrun) as Hrel.
  destruct (Hrel (is_ipv4 (addr p))) as [[Hwf _] _]. pose proof (addr_ok (trunc p)) as Hip.
  destruct (lookup_prefix_lpm_spec (is_ipv4 (addr p)) _ p Hwf eq_refl) as (r & Hr & Hres).
  exists r. split; [exact Hr|].
  rewrite <- (trunc_family p), (matches_amatches t _ (addr (trunc p))) in Hres by done.
  pose proof (head_best_match (routes_after ops) (addr (trunc p)) (prefix_len p) Hip) as Hbest.
  rewrite head_fmap_list in Hbest.
  destruct (head (amatches _ _ _)) as [[l v]|] eqn:Eh; [|by subst r].
  destruct Hres as (q & -> & Hql & Hnq). split; [exact Hbest|]. intros q' v' [= <- <-].
  pose proof (head_elem_of _ _ Eh) as Hin. unfold amatches in Hin.
  apply list_elem_of_omap in Hin as (l' & Hl' & E).
  rewrite rev_reverse, elem_of_reverse, elem_of_seq in Hl'.
  destruct (net_at _ l') as [q''|] eqn:Hq'; [|done]. cbn [mbind option_bind] in E.
  destruct (routes_after ops q'') as [w|] eqn:Hm; [|done]. injection E as -> ->.
  replace q'' with (trunc q) in * by congruence. split; [lia|].
  apply (net_at_covers _ _ Hip eq_refl) in Hnq as ([_ Ht] & _ & Hc). by split_and!.
Qed.

(** [size] is the number of stored routes. *)
Theorem table_size_counts `{!IpNetOps, !IpNetLaws} {T : Type} (ops : list (table_op T))
    (t : Split.SplitStackTable (Node T)) rs :
  table_run Split.EMPTY ops = Ret (t, rs) ->
  exists l, NoDup l /\ length l = Split.size t /\
    forall p, p ∈ l <-> trunc p = p /\ is_Some (routes_after ops p).
Proof. intros Hrun. by eapply table_rel_size, run_rel. Qed.

(** Path compression is maintained: a path node below the root holds two
    entries or another path node, so removals leave no empty or single-entry
    node behind, and no node hangs deeper than the address has octets. *)
Theorem table_path_compressed `{!IpNetOps, !IpNetLaws} {T : Type} (ops : list (table_op T))
    (t : Split.SplitStackTable (Node T)) rs v4 d n :
  table_run Split.EMPTY ops = Ret (t, rs) ->
  reaches (Simple.root (Split.stack_table t v4)) d n -> 0 < d ->
  d < width v4 /\ (2 <= child_count n + prefix_count n \/ has_path n).
Proof.
  intros Hrun Hreach Hd. destruct (run_rel ops t rs Hrun v4) as [[Hwf _] _].
  destruct (reaches_twf v4 _ _ _ Hwf Hreach) as [(h & path & Hn & Hh) Hcan].
  split; [|by apply Hcan]. destruct h; [done|lia].
Qed.

(** ** One update of a trie *)

(** The call returns [ret] and leaves a trie in which the route of [p] is [new]
    and every other route of the trie is what it was. *)
Definition updates_route `{!IpNetOps} {T : Type} (call : outcome (Node T * option T))
    (n : Node T) (p : IpNet) (ret new : option T) : Prop :=
  exists n', call = Ret (n', ret) /\
    routes_updated (is_ipv4 (addr p)) n n' (trunc p) new.

(** On a well-formed trie of the prefix's family, [insert] returns the old
    value of the truncated prefix, sets its route and changes no other; the
    trie stays well formed. *)
Theorem trie_insert_correct `{!IpNetOps, !IpNetLaws} {T : Type} (n : Node T) p v :
  trie_wf (is_ipv4 (addr p)) n ->
  updates_route (insert n p v) n p (route n (trunc p)) (Some v).
Proof. intros Hn. by apply insert_routes. Qed.

(** [remove] returns the route of the truncated prefix, deletes it and
    changes no other route, whatever path compression does to the nodes. *)
Theorem trie_remove_correct `{!IpNetOps, !IpNetLaws} {T : Type} (n : Node T) p :
  trie_wf (is_ipv4 (addr p)) n ->
  updates_route (remove n p) n p (route n (trunc p)) None.
Proof. intros Hn. by apply remove_routes. Qed.

(** [modify] calls the closure on the stored value and carries out its
    answer: an insertion, a removal or an in-place change of this route only;
    it returns the previous value of a replaced or removed route. *)
Theorem trie_modify_correct `{!IpNetOps, !IpNetLaws} {T : Type} (n : Node T) p (f : ModifyFn T) :
  trie_wf (is_ipv4 (addr p)) n ->
  updates_route (modify n p f) n p (apply_mod f (route n (trunc p))).2
    (apply_mod f (route n (trunc p))).1.
Proof. intros Hn. by apply modify_routes. Qed.

(** ** Examples *)

Definition demo_ops : list (table_op nat) :=
  [ OInsert (net4 1 2 0 0 16 eq_refl) 7;
    OInsert (net4 1 3 0 0 16 eq_refl) 8;
    OInsert (net4 1 2 3 4 24 eq_refl) 9;
    ORemove (net4 1 3 0 0 16 eq_refl);
    OInsert (net4 1 3 0 0 16 eq_refl) 6 ].

Definition demo_run : outcome (Split.SplitStackTable (Node nat) * list (option nat)) :=
  table_run Split.EMPTY demo_ops.

Definition demo_table : Split.SplitStackTable (Node nat) :=
  match demo_run with Ret (t, _) => t | Panic => Split.EMPTY end.

Definition demo_results : list (option nat) :=
  match demo_run with Ret (_, rs) => rs | Panic => [] end.

Definition demo_root : Node nat := Simple.root (Split.table4 demo_table).

Definition demo_path : Node nat :=
  match child_at demo_root 1 with Some (Path n) => n | _ => demo_root end.

Lemma demo_runs : table_run Split.EMPTY demo_ops = Ret (demo_table, demo_results).
Proof.
  unfold demo_table, demo_results, demo_run.
  destruct (table_run_refines demo_ops (Split.EMPTY : Split.SplitStackTable (Node nat))
    empty_map table_rel_empty) as (t & -> & _). done.
Qed.

Lemma demo_path_child : child_at demo_root 1 = Some (Path demo_path).
Proof.
  assert (match child_at demo_root 1 with Some (Path _) => true | _ => false end = true) as Hp
    by (vm_compute; reflexivity).
  unfold demo_path. by destruct (child_at demo_root 1) as [[n|p v|v]|].
Qed.

Lemma demo_trie_wf : trie_wf true demo_root.
Proof. apply (run_rel demo_ops demo_table demo_results demo_runs true). Qed.

Lemma ip4_ok : ip_ok (ip4 1 2 3 9).
Proof. apply ip_okb_spec. reflexivity. Qed.

Lemma table_refines_map_witness :
  exists t : Split.SplitStackTable (Node nat),
    table_run Split.EMPTY demo_ops = Ret (t, [None; None; None; Some 8; None]) /\
    forall p, trunc p = p -> Split.lookup_prefix_exact t p = Ret (routes_after demo_ops p).
Proof. exact (table_refines_map demo_ops). Defined.

Lemma table_lookup_longest_witness :
  exists r, Split.lookup demo_table (ip4 1 2 3 9) = Ret r /\
    best_match (routes_after demo_ops) (ip4 1 2 3 9) 32 r.
Proof. exact (table_lookup_longest demo_ops demo_table demo_results _ demo_runs ip4_ok). Defined.

Lemma table_lookup_all_sorted_witness :
  exists it routes, Split.lookup_all demo_table (ip4 1 2 3 9) = Ret it /\
    lookup_collect 130 it = Ret (routes.*2) /\
    StronglySorted (fun a b => prefix_len b.1 < prefix_len a.1) routes /\
    forall p v, (p, v) ∈ routes <-> covering (routes_after demo_ops) (ip4 1 2 3 9) p v.
Proof. exact (table_lookup_all_sorted demo_ops demo_table demo_results _ demo_runs ip4_ok). Defined.

Lemma table_contains_iff_witness :
  exists b, Split.contains demo_table (ip4 1 2 3 9) = Ret b /\
    (b = true <-> exists p v, covering (routes_after demo_ops) (ip4 1 2 3 9) p v).
Proof. exact (table_contains_iff demo_ops demo_table demo_results _ demo_runs ip4_ok). Defined.

Lemma table_lookup_prefix_lpm_witness :
  exists r, Split.lookup_prefix_lpm demo_table (net4 1 2 12 143 32 eq_refl) = Ret r /\
    best_match (routes_after demo_ops) (ip4 1 2 12 143) 32 (snd <$> r) /\
    forall q v, r = Some (q, v) -> prefix_len q <= 32 /\
      covering (routes_after demo_ops) (ip4 1 2 12 143) (trunc q) v.
Proof.
  exact (table_lookup_prefix_lpm demo_ops demo_table demo_results
    (net4 1 2 12 143 32 eq_refl) demo_runs).
Defined.

Lemma table_size_counts_witness :
  exists l, NoDup l /\ length l = 3 /\
    forall p, p ∈ l <-> trunc p = p /\ is_Some (routes_after demo_ops p).
Proof. exact (table_size_counts demo_ops demo_table demo_results demo_runs). Defined.

Lemma table_path_compressed_witness :
  1 < 4 /\ (2 <= child_count demo_path + prefix_count demo_path \/ has_path demo_path).
Proof.
  apply (table_path_compressed demo_ops demo_table demo_results true 1 demo_path demo_runs).
  - apply (reaches_path _ 0 demo_root 1); [apply reaches_root|apply demo_path_child].
  - lia.
Defined.

Lemma trie_insert_correct_witness :
  updates_route (insert demo_root (net4 1 2 3 9 32 eq_refl) 5) demo_root
    (net4 1 2 3 9 32 eq_refl) None (Some 5).
Proof. exact (trie_insert_correct demo_root (net4 1 2 3 9 32 eq_refl) 5 demo_trie_wf). Defined.

Lemma trie_remove_correct_witness :
  updates_route (remove demo_root (net4 1 2 0 0 16 eq_refl)) demo_root
    (net4 1 2 0 0 16 eq_refl) (Some 7) None.
Proof. exact (trie_remove_correct demo_root (net4 1 2 0 0 16 eq_refl) demo_trie_wf). Defined.

Lemma trie_modify_correct_witness :
  updates_route (modify demo_root (net4 1 2 0 0 16 eq_refl)
      (mkModifyFn Noop (fun v => (v + 1, Noop)))) demo_root
    (net4 1 2 0 0 16 eq_refl) None (Some 8).
Proof.
  exact (trie_modify_correct demo_root (net4 1 2 0 0 16 eq_refl)
    (mkModifyFn Noop (fun v => (v + 1, Noop))) demo_trie_wf).
Defined.

(** ** Queries with host bits *)

(** The table that a sequence of operations leaves. *)
Definition table_of (ops : list (table_op nat)) : Split.SplitStackTable (Node nat) :=
  match table_run Split.EMPTY ops with Ret (t, _) => t | Panic => Split.EMPTY end.

Definition lpm_table : Split.SplitStackTable (Node nat) :=
  table_of [OInsert (net4 1 2 0 0 16 eq_refl) 7; OInsert (net4 1 3 0 0 16 eq_refl) 8].

(** The network that [lookup_prefix_lpm] names for a fringe is built on
    the address of the query and not on the stored prefix: with 1.2.0.0/16 and
    1.3.0.0/16 stored, the query 1.2.12.143/32 answers 1.2.12.143/16. *)
Theorem lookup_prefix_lpm_keeps_host_bits :
  Split.lookup_prefix_lpm lpm_table (net4 1 2 12 143 32 eq_refl)
    = Ret (Some (net4 1 2 12 143 16 eq_refl, 7)) /\
  net4 1 2 12 143 16 eq_refl <> net4 1 2 0 0 16 eq_refl.
Proof.
  split; [|intros E; by apply (f_equal c_addr) in E].
  apply (bool_decide_eq_true_1 _). vm_compute. reflexivity.
Qed.

(** [lookup_prefix_exact] does not truncate its query: whether the query
    10.1.0.0/9 finds the route 10.0.0.0/9 depends on whether the unrelated
    route 10.128.0.0/9 is stored. *)
Theorem lookup_prefix_exact_untruncated :
  Split.lookup_prefix_exact (table_of [OInsert (net4 10 0 0 0 9 eq_refl) 1])
    (net4 10 1 0 0 9 eq_refl) = Ret None /\
  Split.lookup_prefix_exact (table_of
      [OInsert (net4 10 0 0 0 9 eq_refl) 1; OInsert (net4 10 128 0 0 9 eq_refl) 2])
    (net4 10 1 0 0 9 eq_refl) = Ret (Some 1).
Proof. split; apply (bool_decide_eq_true_1 _); vm_compute; reflexivity. Qed.
