(* ===== verification/Bytes.v ===== *)
(** * Bytes: byte strings and integers of fixed width

    A byte string is a list of [Z] in the range of [u8].  [le_bytes] and
    [be_bytes] are Rust's [to_le_bytes]/[to_be_bytes], [le_val] and [be_val]
    the [from_*_bytes] readers; slices are [take] and [drop].  The wire formats
    of the other files are built from these. *)

From S2P Require Import Prelude.
From Stdlib Require Ascii String.

Local Open Scope Z_scope.

(** The bytes of a string literal. *)
Fixpoint bytes_of_string (s : String.string) : list Z :=
  match s with
  | String.EmptyString => []
  | String.String c s => Z.of_nat (Ascii.nat_of_ascii c) :: bytes_of_string s
  end.

Definition bytes_ok (bs : list Z) : Prop := Forall u8_ok bs.

Definition u16_ok (x : Z) : Prop := 0 <= x < 2 ^ 16.
Definition u32_ok (x : Z) : Prop := 0 <= x < 2 ^ 32.

Fixpoint le_bytes (n : nat) (x : Z) : list Z :=
  match n with
  | O => []
  | S n => x mod 256 :: le_bytes n (x / 256)
  end.

Fixpoint le_val (bs : list Z) : Z :=
  match bs with
  | [] => 0
  | b :: bs => b + 256 * le_val bs
  end.

Definition be_bytes (n : nat) (x : Z) : list Z := reverse (le_bytes n x).
Definition be_val (bs : list Z) : Z := le_val (reverse bs).

(** [&raw[off..off + n]] *)
Definition slice (off n : nat) (raw : list Z) : list Z := take n (drop off raw).

(** ** Lemmas *)

Lemma u8_mod x : u8_ok (x mod 256).
Proof. unfold u8_ok. pose proof (Z.mod_pos_bound x 256). lia. Qed.

Lemma length_le_bytes n x : length (le_bytes n x) = n.
Proof. revert x; induction n as [|n IH]; intros x; simpl; [done|]. by rewrite IH. Qed.

Lemma le_bytes_ok n x : bytes_ok (le_bytes n x).
Proof.
  revert x; induction n as [|n IH]; intros x; simpl; constructor; [apply u8_mod|apply IH].
Qed.

Lemma le_val_bound bs : bytes_ok bs -> 0 <= le_val bs < 256 ^ Z.of_nat (length bs).
Proof.
  induction 1 as [|b bs Hb Hbs IH]; simpl; [lia|]. unfold u8_ok in Hb.
  rewrite Nat2Z.inj_succ, Z.pow_succ_r by lia. lia.
Qed.

Lemma le_val_bytes n x : 0 <= x < 256 ^ Z.of_nat n -> le_val (le_bytes n x) = x.
Proof.
  revert x; induction n as [|n IH]; intros x Hx; simpl; [lia|].
  rewrite Nat2Z.inj_succ, Z.pow_succ_r in Hx by lia.
  rewrite IH; [|Z.to_euclidean_division_equations; lia].
  pose proof (Z.div_mod x 256 ltac:(lia)). lia.
Qed.

Lemma le_bytes_val bs : bytes_ok bs -> le_bytes (length bs) (le_val bs) = bs.
Proof.
  induction 1 as [|b bs Hb Hbs IH]; simpl; [done|]. unfold u8_ok in Hb.
  rewrite (Z.mul_comm 256), Z.mod_add, Z.mod_small by lia.
  by rewrite Z.div_add, Z.div_small, Z.add_0_l, IH by lia.
Qed.

Lemma length_be_bytes n x : length (be_bytes n x) = n.
Proof. unfold be_bytes. by rewrite length_reverse, length_le_bytes. Qed.

Lemma be_bytes_ok n x : bytes_ok (be_bytes n x).
Proof. apply Forall_reverse, le_bytes_ok. Qed.

Lemma be_val_bytes n x : 0 <= x < 256 ^ Z.of_nat n -> be_val (be_bytes n x) = x.
Proof. intros. unfold be_val, be_bytes. by rewrite reverse_involutive, le_val_bytes. Qed.

Lemma be_bytes_val bs : bytes_ok bs -> be_bytes (length bs) (be_val bs) = bs.
Proof.
  intros Hbs. unfold be_val, be_bytes. rewrite <- (length_reverse bs).
  by rewrite le_bytes_val, reverse_involutive by (by apply Forall_reverse).
Qed.

Lemma be_val_bound bs : bytes_ok bs -> 0 <= be_val bs < 256 ^ Z.of_nat (length bs).
Proof.
  intros. unfold be_val. rewrite <- (length_reverse bs). by apply le_val_bound, Forall_reverse.
Qed.

Lemma bytes_ok_app bs bs' : bytes_ok (bs ++ bs') <-> bytes_ok bs /\ bytes_ok bs'.
Proof. apply Forall_app. Qed.

Lemma bytes_ok_replicate n : bytes_ok (replicate n 0).
Proof. apply Forall_replicate. split; lia. Qed.

Lemma bytes_ok_take n bs : bytes_ok bs -> bytes_ok (take n bs).
Proof. apply Forall_take. Qed.

Lemma bytes_ok_drop n bs : bytes_ok bs -> bytes_ok (drop n bs).
Proof. apply Forall_drop. Qed.

Lemma bytes_ok_slice off n bs : bytes_ok bs -> bytes_ok (slice off n bs).
Proof. intros. by apply bytes_ok_take, bytes_ok_drop. Qed.

Lemma length_slice off n bs : (off + n <= length bs)%nat -> length (slice off n bs) = n.
Proof. intros. unfold slice. rewrite length_take, length_drop. lia. Qed.

Lemma slice_app_l off n bs bs' :
  (off + n <= length bs)%nat -> slice off n (bs ++ bs') = slice off n bs.
Proof.
  intros. unfold slice. rewrite drop_app_le by lia. rewrite take_app_le; [done|].
  rewrite length_drop. lia.
Qed.

(** Read the field that starts where [pre] ends. *)
Lemma slice_at pre field rest off n :
  length pre = off -> length field = n -> slice off n (pre ++ field ++ rest) = field.
Proof.
  intros <- <-. unfold slice. by rewrite drop_app_length, take_app_length.
Qed.

(** The byte string cut into consecutive fields. *)
Lemma slice_split off n bs : drop off bs = slice off n bs ++ drop (off + n) bs.
Proof. unfold slice. by rewrite <- drop_drop, take_drop. Qed.

Lemma lor_shiftl_low a b k :
  0 <= k -> 0 <= b < 2 ^ k -> Z.lor (Z.shiftl a k) b = a * 2 ^ k + b.
Proof.
  intros Hk Hb. rewrite <- Z.shiftl_mul_pow2 by done.
  assert (Z.land (Z.shiftl a k) b = 0) as E.
  { apply Z.bits_inj'. intros n Hn. rewrite Z.land_spec, Z.bits_0, Z.shiftl_spec by done.
    destruct (decide (n < k)); [by rewrite Z.testbit_neg_r by lia|].
    rewrite <- (Z.mod_small b (2 ^ k)), Z.mod_pow2_bits_high by lia. apply andb_false_r. }
  by rewrite (Z.add_nocarry_lxor _ _ E), (Z.lxor_lor _ _ E).
Qed.

(** Evaluation on concrete bytes. *)
Lemma bytes_ok_eval bs : forallb (fun b => (0 <=? b) && (b <? 256)) bs = true -> bytes_ok bs.
Proof.
  rewrite forallb_forall. intros Hb. apply Forall_forall. intros x Hx.
  apply list_elem_of_In, Hb in Hx. unfold u8_ok. lia.
Qed.

Lemma packets_ok_eval ps :
  forallb (forallb (fun b => (0 <=? b) && (b <? 256))) ps = true -> Forall bytes_ok ps.
Proof.
  rewrite forallb_forall. intros Hp. apply Forall_forall. intros x Hx.
  by apply bytes_ok_eval, Hp, list_elem_of_In.
Qed.

#[export] Hint Resolve le_bytes_ok be_bytes_ok bytes_ok_replicate bytes_ok_take bytes_ok_drop
  bytes_ok_slice : rust.
Create Rewrite HintDb bytes.

#[export] Hint Rewrite length_le_bytes length_be_bytes @length_app @length_replicate
  @length_take @length_drop @length_cons : bytes.

#[global] Arguments le_bytes : simpl never.
#[global] Arguments le_val : simpl never.
