(* ===== verification/Packet.v ===== *)
(** * Packet: packet buffers, Geneve headers and TSMP messages (ts_packet)

    A packet is its bytes.  The file models the operations of [PacketMut]
    that the other crates use, the address fields read by the routers, the
    fixed Geneve header of the peer relay, and the two TSMP messages with the
    IP headers that carry them.  Slice accesses are checked as Rust checks
    them, so that the parsers are total only if no access is out of range. *)

From stdpp Require Import list.
From S2P Require Import Prelude IpNet Bytes.

Local Open Scope Z_scope.

(** ** Slices *)

(** [b[lo..hi]] *)
Definition slice_of (lo hi : nat) (b : list Z) : outcome (list Z) :=
  if (lo <=? hi)%nat && (hi <=? length b)%nat then Ret (take (hi - lo) (drop lo b)) else Panic.

(** [b.get(lo..hi)] *)
Definition slice_get (lo hi : nat) (b : list Z) : option (list Z) :=
  if (lo <=? hi)%nat && (hi <=? length b)%nat then Some (take (hi - lo) (drop lo b)) else None.

(** [b[off..off + bs.len()].copy_from_slice(bs)] *)
Definition copy_into (b : list Z) (off : nat) (bs : list Z) : outcome (list Z) :=
  if (off + length bs <=? length b)%nat
  then Ret (take off b ++ bs ++ drop (off + length bs) b) else Panic.

(** [u16::from_be_bytes([b[i], b[i + 1]])] *)
Definition be16 (b : list Z) (i : nat) : outcome Z :=
  x ← idx b i; y ← idx b (S i); Ret (be_val [x; y]).

(** ** PacketMut *)

Definition packet_new (size : nat) : list Z := replicate size 0.

Definition extend_from_slice (p bs : list Z) : list Z := p ++ bs.

(** [resize], [copy_within(..existing_len, len)] and [fill]. *)
Definition grow_front (p : list Z) (len : nat) : outcome (list Z) :=
  let existing_len := length p in
  let contents := p ++ replicate len 0 in
  contents ← copy_into contents len (take existing_len contents);
  copy_into contents 0 (replicate len 0).

Definition extend_front_from_slice (p bs : list Z) : outcome (list Z) :=
  p ← grow_front p (length bs);
  copy_into p 0 bs.

Definition truncate (p : list Z) (count : nat) : list Z := take count p.

Definition truncate_front (p : list Z) (count : nat) : outcome (list Z) :=
  if (count <=? length p)%nat then Ret (drop count p) else Panic.

Definition get_ip_family (p : list Z) : option Z :=
  b ← p !! 0%nat;
  if decide (Z.shiftr b 4 = 4) then Some 4
  else if decide (Z.shiftr b 4 = 6) then Some 6 else None.

Definition ipv4_at (p : list Z) (i : nat) : option IpAddr := V4 <$> slice_get i (i + 4) p.
Definition ipv6_at (p : list Z) (i : nat) : option IpAddr := V6 <$> slice_get i (i + 16) p.

Definition get_src_addr (p : list Z) : option IpAddr :=
  match get_ip_family p with
  | Some 4 => ipv4_at p 12
  | Some 6 => ipv6_at p 8
  | _ => None
  end.

Definition get_dst_addr (p : list Z) : option IpAddr :=
  match get_ip_family p with
  | Some 4 => ipv4_at p 16
  | Some 6 => ipv6_at p 24
  | _ => None
  end.

(** ** Geneve *)

Definition GENEVE_FIXED_HEADER_LEN : nat := 8.
Definition CONTROL_BIT : Z := 128.
Definition GENEVE_PROTOCOL_DISCO : Z := 0x7A11.
Definition GENEVE_PROTOCOL_WIREGUARD : Z := 0x7A12.

Record GeneveHeader := mkGeneveHeader { control : bool; protocol : Z; vni : Z }.

Inductive GeneveError := TooShort | BadVersion | UnexpectedOptions.

Definition geneve_parse (buf : list Z) : outcome (GeneveError + (GeneveHeader * nat)) :=
  if (length buf <? GENEVE_FIXED_HEADER_LEN)%nat then Ret (inl TooShort)
  else
    b0 ← idx buf 0;
    if decide (Z.shiftr b0 6 <> 0) then Ret (inl BadVersion)
    else if decide (Z.land b0 63 <> 0) then Ret (inl UnexpectedOptions)
    else
      b1 ← idx buf 1;
      protocol ← be16 buf 2;
      b4 ← idx buf 4; b5 ← idx buf 5; b6 ← idx buf 6;
      Ret (inr (mkGeneveHeader (bool_decide (Z.land b1 CONTROL_BIT <> 0)) protocol
        (Z.lor (Z.lor (Z.shiftl b4 16) (Z.shiftl b5 8)) b6), GENEVE_FIXED_HEADER_LEN)).

Definition geneve_encode (h : GeneveHeader) : outcome (list Z) :=
  let out := replicate GENEVE_FIXED_HEADER_LEN 0 in
  out ← upd out 0 0;
  out ← upd out 1 (if control h then CONTROL_BIT else 0);
  out ← copy_into out 2 (be_bytes 2 (protocol h));
  out ← upd out 4 (Z.shiftr (vni h) 16 mod 256);
  out ← upd out 5 (Z.shiftr (vni h) 8 mod 256);
  upd out 6 (vni h mod 256).

(** ** TSMP *)

Definition IP_PROTO_TSMP : Z := 99.
Definition TSMP_TYPE_REJECTED_CONN : Z := 33.
Definition TSMP_TYPE_PING : Z := 112.
Definition TSMP_TYPE_PONG : Z := 111.
Definition TSMP_TYPE_DISCO_ADVERTISEMENT : Z := 97.
Definition MIN_TSMP_SIZE : nat := 7.
Definition DISCO_KEY_LEN : nat := 32.
Definition DISCO_ADVERTISEMENT_LEN : nat := 1 + DISCO_KEY_LEN.
Definition IP4_HEADER_LEN : nat := 20.
Definition IP6_HEADER_LEN : nat := 40.
Definition REJECT_FLAG_BIT_MAYBE_BROKEN : Z := 1.
Definition REJECTED_CONN_LEN : nat := 8.
Definition REJECTED_CONN_MIN_LEN : nat := 7.

(** The 16-bit words of [b], added up in a [u32]; an odd last byte is the
    high half of a word. *)
Fixpoint checksum_sum (ac : Z) (b : list Z) : Z :=
  match b with
  | x :: y :: b => checksum_sum ((ac + be_val [x; y]) mod 2 ^ 32) b
  | [x] => (ac + Z.shiftl x 8) mod 2 ^ 32
  | [] => ac
  end.

(** The carry loop; three rounds bring any [u32] below [2 ^ 16]. *)
Fixpoint fold_carry (fuel : nat) (ac : Z) : Z :=
  match fuel with
  | O => ac
  | S fuel =>
      if decide (Z.shiftr ac 16 > 0) then fold_carry fuel (Z.shiftr ac 16 + Z.land ac 65535)
      else ac
  end.

Definition ip4_checksum (b : list Z) : Z :=
  65535 - fold_carry 3 (checksum_sum 0 b) mod 2 ^ 16.

Definition generate4 (src dst payload : list Z) : outcome (list Z) :=
  let buf := replicate (IP4_HEADER_LEN + length payload) 0 in
  buf ← copy_into buf IP4_HEADER_LEN payload;
  buf ← upd buf 0 (Z.lor 64 (Z.shiftr (Z.of_nat IP4_HEADER_LEN) 2));
  buf ← upd buf 1 0;
  let total_len := Z.of_nat (length buf) mod 2 ^ 16 in
  buf ← copy_into buf 2 (be_bytes 2 total_len);
  buf ← copy_into buf 4 (be_bytes 2 0);
  buf ← copy_into buf 6 (be_bytes 2 0);
  buf ← upd buf 8 64;
  buf ← upd buf 9 IP_PROTO_TSMP;
  buf ← copy_into buf 10 (be_bytes 2 0);
  buf ← copy_into buf 12 src;
  buf ← copy_into buf 16 dst;
  header ← slice_of 0 IP4_HEADER_LEN buf;
  copy_into buf 10 (be_bytes 2 (ip4_checksum header)).

Definition generate6 (src dst payload : list Z) : outcome (list Z) :=
  let buf := replicate (IP6_HEADER_LEN + length payload) 0 in
  buf ← copy_into buf IP6_HEADER_LEN payload;
  buf ← upd buf 0 96;
  buf ← copy_into buf 4 (be_bytes 2 (Z.of_nat (length payload) mod 2 ^ 16));
  buf ← upd buf 6 IP_PROTO_TSMP;
  buf ← upd buf 7 64;
  buf ← copy_into buf 8 src;
  copy_into buf 24 dst.

Definition tsmp_body4 (b : list Z) : outcome (option (IpAddr * IpAddr * list Z)) :=
  if (length b <? IP4_HEADER_LEN)%nat then Ret None
  else
    proto ← idx b 9;
    if decide (proto <> IP_PROTO_TSMP) then Ret None
    else
      len16 ← be16 b 2;
      let len := Z.to_nat len16 in
      if (length b <? len)%nat then Ret None
      else
        b0 ← idx b 0;
        let subofs := (Z.to_nat (Z.land b0 15) * 4)%nat in
        if (len <? subofs)%nat then Ret None
        else
          frag_flags ← be16 b 6;
          if bool_decide (Z.land frag_flags 0x2000 <> 0) || bool_decide (Z.land frag_flags 0x1fff <> 0)
          then Ret None
          else
            rest ← usub (length b) subofs;
            if (rest <? MIN_TSMP_SIZE)%nat then Ret None
            else
              s0 ← idx b 12; s1 ← idx b 13; s2 ← idx b 14; s3 ← idx b 15;
              d0 ← idx b 16; d1 ← idx b 17; d2 ← idx b 18; d3 ← idx b 19;
              body ← slice_of subofs len b;
              Ret (Some (V4 [s0; s1; s2; s3], V4 [d0; d1; d2; d3], body)).

Definition tsmp_body6 (b : list Z) : outcome (option (IpAddr * IpAddr * list Z)) :=
  if (length b <? IP6_HEADER_LEN)%nat then Ret None
  else
    proto ← idx b 6;
    if decide (proto <> IP_PROTO_TSMP) then Ret None
    else
      len16 ← be16 b 4;
      let len := (Z.to_nat len16 + IP6_HEADER_LEN)%nat in
      if (length b <? len)%nat then Ret None
      else
        rest ← usub (length b) IP6_HEADER_LEN;
        if (rest <? MIN_TSMP_SIZE)%nat then Ret None
        else
          src ← slice_of 8 24 b;
          dst ← slice_of 24 40 b;
          body ← slice_of IP6_HEADER_LEN len b;
          Ret (Some (V6 src, V6 dst, body)).

Definition tsmp_body (b : list Z) : outcome (option (IpAddr * IpAddr * list Z)) :=
  match b with
  | [] => Ret None
  | b0 :: _ =>
      if decide (Z.shiftr b0 4 = 4) then tsmp_body4 b
      else if decide (Z.shiftr b0 4 = 6) then tsmp_body6 b else Ret None
  end.

Inductive MarshalError := MixedAddressFamilies | MissingRejectReason.

(** The IP header by the family of the addresses, shared by both messages. *)
Definition marshal_ip (src dst : IpAddr) (body : list Z) : outcome (MarshalError + list Z) :=
  match src, dst with
  | V4 src, V4 dst => p ← generate4 src dst body; Ret (inr p)
  | V6 src, V6 dst => p ← generate6 src dst body; Ret (inr p)
  | _, _ => Ret (inl MixedAddressFamilies)
  end.

Record DiscoKeyAdvertisement := mkAdvertisement {
  adv_src : IpAddr;
  adv_dst : IpAddr;
  adv_key : list Z;
}.

Definition key_is_zero (a : DiscoKeyAdvertisement) : bool :=
  bool_decide (adv_key a = replicate DISCO_KEY_LEN 0).

Definition advertisement_marshal (a : DiscoKeyAdvertisement) : outcome (MarshalError + list Z) :=
  let body := replicate DISCO_ADVERTISEMENT_LEN 0 in
  body ← upd body 0 TSMP_TYPE_DISCO_ADVERTISEMENT;
  body ← copy_into body 1 (adv_key a);
  marshal_ip (adv_src a) (adv_dst a) body.

Definition advertisement_parse (ip_packet : list Z) : outcome (option DiscoKeyAdvertisement) :=
  o ← tsmp_body ip_packet;
  match o with
  | None => Ret None
  | Some (src, dst, body) =>
      if (length body <? DISCO_ADVERTISEMENT_LEN)%nat then Ret None
      else
        t ← idx body 0;
        if decide (t <> TSMP_TYPE_DISCO_ADVERTISEMENT) then Ret None
        else
          key ← slice_of 1 DISCO_ADVERTISEMENT_LEN body;
          Ret (Some (mkAdvertisement src dst key))
  end.

(** [RejectReason] is its byte. *)
Definition REASON_NONE : Z := 0.
Definition REASON_ACLS : Z := 65.
Definition REASON_SHIELDS_UP : Z := 83.
Definition REASON_IP_FORWARDING : Z := 70.
Definition REASON_HOST_FIREWALL : Z := 87.
Definition REASON_UNKNOWN_APP_CONNECTOR_TRANSIT_IP : Z := 84.

Definition reason_is_zero (r : Z) : bool := bool_decide (r = REASON_NONE).

Record SocketAddr := mkSocketAddr { sa_ip : IpAddr; sa_port : Z }.

Record TailscaleRejectedHeader := mkRejectedHeader {
  ip_src : IpAddr;
  ip_dst : IpAddr;
  rej_src : SocketAddr;
  rej_dst : SocketAddr;
  rej_proto : Z;
  reason : Z;
  maybe_broken : bool;
}.

Definition rejected_marshal (h : TailscaleRejectedHeader) : outcome (MarshalError + list Z) :=
  if reason_is_zero (reason h) then Ret (inl MissingRejectReason)
  else
    let body := replicate REJECTED_CONN_LEN 0 in
    body ← upd body 0 TSMP_TYPE_REJECTED_CONN;
    body ← upd body 1 (rej_proto h);
    body ← upd body 2 (reason h);
    body ← copy_into body 3 (be_bytes 2 (sa_port (rej_src h)));
    body ← copy_into body 5 (be_bytes 2 (sa_port (rej_dst h)));
    body ← upd body 7 (if maybe_broken h then REJECT_FLAG_BIT_MAYBE_BROKEN else 0);
    marshal_ip (ip_src h) (ip_dst h) body.

Definition rejected_parse (ip_packet : list Z) : outcome (option TailscaleRejectedHeader) :=
  o ← tsmp_body ip_packet;
  match o with
  | None => Ret None
  | Some (ip_src, ip_dst, body) =>
      if (length body <? REJECTED_CONN_MIN_LEN)%nat then Ret None
      else
        t ← idx body 0;
        if decide (t <> TSMP_TYPE_REJECTED_CONN) then Ret None
        else
          let maybe_broken :=
            match body !! 7%nat with
            | Some flags => bool_decide (Z.land flags REJECT_FLAG_BIT_MAYBE_BROKEN <> 0)
            | None => false
            end in
          sport ← be16 body 3;
          dport ← be16 body 5;
          proto ← idx body 1;
          reason ← idx body 2;
          Ret (Some (mkRejectedHeader ip_src ip_dst (mkSocketAddr ip_dst sport)
            (mkSocketAddr ip_src dport) proto reason maybe_broken))
  end.

(** ** Buffers *)

Lemma copy_into_mid pre old post bs :
  length old = length bs -> copy_into (pre ++ old ++ post) (length pre) bs = Ret (pre ++ bs ++ post).
Proof.
  intros Hlen. unfold copy_into.
  rewrite (proj2 (Nat.leb_le _ _)) by (rewrite !length_app; lia).
  rewrite take_app_length, <- Hlen, <- drop_drop, drop_app_length, drop_app_length. done.
Qed.

Lemma copy_into_front old post bs :
  length old = length bs -> copy_into (old ++ post) 0 bs = Ret (bs ++ post).
Proof. apply (copy_into_mid []). Qed.

Lemma grow_front_spec p len : grow_front p len = Ret (replicate len 0 ++ p).
Proof.
  unfold grow_front. rewrite take_app_length.
  assert (copy_into (p ++ replicate len 0) len p = Ret (take len (p ++ replicate len 0) ++ p)) as ->.
  { unfold copy_into. rewrite length_app, length_replicate.
    rewrite (proj2 (Nat.leb_le _ _)) by lia.
    rewrite (drop_ge _ (len + length p)) by (rewrite length_app, length_replicate; lia).
    by rewrite app_nil_r. }
  cbn [mbind outcome_bind]. apply copy_into_front.
  rewrite length_take, length_app, !length_replicate. lia.
Qed.

Lemma extend_front_spec p bs : extend_front_from_slice p bs = Ret (bs ++ p).
Proof.
  unfold extend_front_from_slice. rewrite grow_front_spec. apply copy_into_front.
  apply length_replicate.
Qed.

Lemma slice_of_Ret lo hi b :
  (lo <= hi <= length b)%nat -> slice_of lo hi b = Ret (slice lo (hi - lo) b).
Proof.
  intros [??]. unfold slice_of. by rewrite !(proj2 (Nat.leb_le _ _)) by lia.
Qed.

Lemma be_bytes_2 x : be_bytes 2 x = [x / 256 mod 256; x mod 256].
Proof. reflexivity. Qed.

Lemma be_val_2 x y : be_val [x; y] = 256 * x + y.
Proof. unfold be_val, le_val. cbn. lia. Qed.

Lemma be_val_bytes_2 x : u16_ok x -> be_val [x / 256 mod 256; x mod 256] = x.
Proof. intros Hx. rewrite <- be_bytes_2. by apply be_val_bytes. Qed.

Lemma be16_Ret b i : (S i < length b)%nat -> exists x, be16 b i = Ret x.
Proof.
  intros Hi. unfold be16. destruct (idx_lt b i) as [x ->]; [lia|].
  destruct (idx_lt b (S i)) as [y ->]; [lia|]. by eexists.
Qed.

(** ** Addresses of packets *)

Lemma get_ip_family_Some p f : get_ip_family p = Some f -> f = 4 \/ f = 6.
Proof.
  unfold get_ip_family. destruct (p !! 0%nat); [|done]. cbn. repeat case_decide; naive_solver.
Qed.

Lemma slice_get_ok lo n p bs :
  slice_get lo (lo + n) p = Some bs -> bytes_ok p -> length bs = n /\ bytes_ok bs.
Proof.
  unfold slice_get. destruct (_ && _) eqn:E; [|done]. intros [= <-] Hp.
  apply andb_true_iff in E as [_ E%Nat.leb_le]. replace (lo + n - lo)%nat with n by lia.
  rewrite length_take, length_drop. split; [lia|]. auto with rust.
Qed.

Lemma ipv4_at_ok p i a : bytes_ok p -> ipv4_at p i = Some a -> ip_ok a.
Proof.
  intros Hp. unfold ipv4_at. destruct (slice_get _ _ _) eqn:E; [|done]. intros [= <-].
  by apply slice_get_ok in E as [? ?].
Qed.

Lemma ipv6_at_ok p i a : bytes_ok p -> ipv6_at p i = Some a -> ip_ok a.
Proof.
  intros Hp. unfold ipv6_at. destruct (slice_get _ _ _) eqn:E; [|done]. intros [= <-].
  by apply slice_get_ok in E as [? ?].
Qed.

Lemma get_dst_addr_ok p a : bytes_ok p -> get_dst_addr p = Some a -> ip_ok a.
Proof.
  intros Hp. unfold get_dst_addr. destruct (get_ip_family p) as [f|] eqn:E; [|done].
  apply get_ip_family_Some in E as [-> | ->]; [by apply ipv4_at_ok|by apply ipv6_at_ok].
Qed.

Lemma get_src_addr_ok p a : bytes_ok p -> get_src_addr p = Some a -> ip_ok a.
Proof.
  intros Hp. unfold get_src_addr. destruct (get_ip_family p) as [f|] eqn:E; [|done].
  apply get_ip_family_Some in E as [-> | ->]; [by apply ipv4_at_ok|by apply ipv6_at_ok].
Qed.

(** ** Geneve *)

Definition geneve_ok (h : GeneveHeader) : Prop := u16_ok (protocol h) /\ 0 <= vni h < 2 ^ 24.

(** ** The headers that carry TSMP *)

Definition ip4_header (total_len ck : Z) (src dst : list Z) : list Z :=
  [69; 0] ++ be_bytes 2 total_len ++ [0; 0; 0; 0; 64; 99] ++ be_bytes 2 ck ++ src ++ dst.

Definition ip6_header (payload_len : Z) (src dst : list Z) : list Z :=
  [96; 0; 0; 0] ++ be_bytes 2 payload_len ++ [99; 64] ++ src ++ dst.

(** Run the writes to a buffer whose head is spelled out. *)
Ltac buf_run :=
  repeat (rewrite ?be_bytes_2, ?drop_0, ?take_0;
    first [rewrite upd_lt by (cbn; lia) | progress unfold copy_into | progress unfold slice_of
      | progress cbn [Nat.leb length take drop app]];
    cbn -[Z.modulo Z.div Z.lor Z.shiftr ip4_checksum Z.of_nat Z.pow upd copy_into slice_of
      marshal_ip
      be_bytes Nat.add];
    cbn [Nat.add]).

Lemma generate4_eq src dst payload :
  length src = 4%nat -> length dst = 4%nat ->
  let total_len := Z.of_nat (20 + length payload) mod 2 ^ 16 in
  generate4 src dst payload =
    Ret (ip4_header total_len (ip4_checksum (ip4_header total_len 0 src dst)) src dst ++ payload).
Proof.
  intros Hs Hd tl. destruct src as [|s0 [|s1 [|s2 [|s3 [|]]]]]; try discriminate.
  destruct dst as [|d0 [|d1 [|d2 [|d3 [|]]]]]; try discriminate.
  unfold generate4. rewrite replicate_add, <- (app_nil_r (replicate (length payload) 0)).
  rewrite (copy_into_mid (replicate IP4_HEADER_LEN 0)) by apply length_replicate.
  rewrite app_nil_r. unfold IP4_HEADER_LEN. buf_run. reflexivity.
Qed.

Lemma generate6_eq src dst payload :
  length src = 16%nat -> length dst = 16%nat ->
  generate6 src dst payload =
    Ret (ip6_header (Z.of_nat (length payload) mod 2 ^ 16) src dst ++ payload).
Proof.
  intros Hs Hd. destruct src as [|s0 [|s1 [|s2 [|s3 [|s4 [|s5 [|s6 [|s7 [|s8 [|s9 [|s10 [|s11
    [|s12 [|s13 [|s14 [|s15 [|]]]]]]]]]]]]]]]]]; try discriminate.
  destruct dst as [|d0 [|d1 [|d2 [|d3 [|d4 [|d5 [|d6 [|d7 [|d8 [|d9 [|d10 [|d11
    [|d12 [|d13 [|d14 [|d15 [|]]]]]]]]]]]]]]]]]; try discriminate.
  unfold generate6. rewrite replicate_add, <- (app_nil_r (replicate (length payload) 0)).
  rewrite (copy_into_mid (replicate IP6_HEADER_LEN 0)) by apply length_replicate.
  rewrite app_nil_r. unfold IP6_HEADER_LEN. buf_run. reflexivity.
Qed.

(** The body that the reader finds is the payload that was written; bytes
    after the length in the header do not matter. *)
Lemma tsmp_body4_header total_len ck src dst payload rest :
  length src = 4%nat -> length dst = 4%nat -> (7 <= length payload)%nat ->
  total_len = Z.of_nat (20 + length payload) -> u16_ok total_len ->
  tsmp_body (ip4_header total_len ck src dst ++ payload ++ rest) =
    Ret (Some (V4 src, V4 dst, payload)).
Proof.
  intros Hs Hd Hlen Htl Hok.
  destruct src as [|s0 [|s1 [|s2 [|s3 [|]]]]]; try discriminate.
  destruct dst as [|d0 [|d1 [|d2 [|d3 [|]]]]]; try discriminate.
  set (b := _ ++ _).
  assert (length b = 20 + (length payload + length rest))%nat as Hb
    by (unfold b; by rewrite !length_app).
  change (tsmp_body b) with (tsmp_body4 b). unfold tsmp_body4.
  rewrite Hb, (proj2 (Nat.ltb_ge _ IP4_HEADER_LEN)) by (unfold IP4_HEADER_LEN; lia).
  change (idx b 9) with (Ret 99). change (idx b 0) with (Ret 69). cbn [mbind outcome_bind].
  rewrite decide_False by (intros []; done).
  change (be16 b 2) with (Ret (be_val [total_len / 256 mod 256; total_len mod 256])).
  change (be16 b 6) with (Ret (be_val [0; 0])).
  rewrite be_val_bytes_2, be_val_2 by done. cbn [mbind outcome_bind].
  rewrite (proj2 (Nat.ltb_ge _ (Z.to_nat total_len))) by lia.
  change (Z.to_nat (Z.land 69 15) * 4)%nat with 20%nat.
  rewrite (proj2 (Nat.ltb_ge _ 20)) by lia.
  change (bool_decide _ || bool_decide _) with false. cbn match.
  unfold usub. rewrite decide_True by lia. cbn [mbind outcome_bind].
  rewrite (proj2 (Nat.ltb_ge _ MIN_TSMP_SIZE)) by (unfold MIN_TSMP_SIZE; lia).
  rewrite slice_of_Ret by lia. unfold slice. change (drop 20 b) with (payload ++ rest).
  replace (Z.to_nat total_len - 20)%nat with (length payload) by lia.
  by rewrite take_app_length.
Qed.

Lemma tsmp_body6_header payload_len src dst payload rest :
  length src = 16%nat -> length dst = 16%nat -> (7 <= length payload)%nat ->
  payload_len = Z.of_nat (length payload) -> u16_ok payload_len ->
  tsmp_body (ip6_header payload_len src dst ++ payload ++ rest) =
    Ret (Some (V6 src, V6 dst, payload)).
Proof.
  intros Hs Hd Hlen Htl Hok. set (b := _ ++ _).
  assert (length b = 40 + (length payload + length rest))%nat as Hb
    by (unfold b, ip6_header; autorewrite with bytes; cbn; lia).
  change (tsmp_body b) with (tsmp_body6 b). unfold tsmp_body6.
  rewrite Hb, (proj2 (Nat.ltb_ge _ IP6_HEADER_LEN)) by (unfold IP6_HEADER_LEN; lia).
  change (idx b 6) with (Ret 99). cbn [mbind outcome_bind]. rewrite decide_False by (intros []; done).
  change (be16 b 4) with (Ret (be_val [payload_len / 256 mod 256; payload_len mod 256])).
  rewrite be_val_bytes_2 by done. cbn [mbind outcome_bind]. unfold IP6_HEADER_LEN, usub.
  rewrite (proj2 (Nat.ltb_ge _ (Z.to_nat payload_len + 40))) by lia.
  rewrite decide_True by lia. cbn [mbind outcome_bind].
  rewrite (proj2 (Nat.ltb_ge _ MIN_TSMP_SIZE)) by (unfold MIN_TSMP_SIZE; lia).
  rewrite !slice_of_Ret by lia. cbn [mbind outcome_bind].
  replace (Z.to_nat payload_len + 40 - 40)%nat with (length payload) by lia.
  set (pre := [96; 0; 0; 0] ++ be_bytes 2 payload_len ++ [99; 64]).
  assert (b = pre ++ src ++ dst ++ payload ++ rest) as Eb
    by (unfold b, ip6_header, pre; by rewrite <- !app_assoc).
  assert (slice 8 (24 - 8) b = src) as -> by (rewrite Eb; by apply slice_at).
  assert (slice 24 (40 - 24) b = dst) as ->
    by (rewrite Eb, (app_assoc pre); apply slice_at; [rewrite length_app, Hs|]; done).
  assert (slice 40 (length payload) b = payload) as ->; [|done].
  rewrite Eb, (app_assoc pre), (app_assoc (_ ++ _)). apply slice_at; [|done].
  by rewrite !length_app, Hs, Hd.
Qed.

(** ** The header checksum *)

Fixpoint words_sum (b : list Z) : Z :=
  match b with
  | x :: y :: b => 256 * x + y + words_sum b
  | [x] => 256 * x
  | [] => 0
  end.

Lemma checksum_sum_words n b ac :
  (length b <= n)%nat -> bytes_ok b -> 0 <= ac -> ac + 65536 * Z.of_nat n < 2 ^ 32 ->
  checksum_sum ac b = ac + words_sum b /\ 0 <= words_sum b <= 65536 * Z.of_nat n.
Proof.
  revert b ac. induction n as [n IH] using lt_wf_ind. intros b ac Hlen Hb Hac Hlt.
  destruct b as [|x [|y b]]; cbn; [lia| |]; inversion_clear Hb as [|?? Hx Hb'];
    unfold u8_ok in Hx; cbn in Hlen.
  - rewrite Z.shiftl_mul_pow2, Z.mod_small by lia. lia.
  - inversion_clear Hb' as [|?? Hy Hb]. unfold u8_ok in Hy. rewrite be_val_2, Z.mod_small by lia.
    destruct (IH (n - 2)%nat ltac:(lia) b (ac + (256 * x + y))) as [-> ?]; [lia|done|lia..|lia].
Qed.

(** The carry loop ends within three rounds and keeps the sum modulo
    [2 ^ 16 - 1]. *)
Lemma fold_carry_step ac :
  0 <= ac -> Z.shiftr ac 16 + Z.land ac 65535 = ac - 65535 * (ac / 65536) /\
    0 <= ac / 65536 /\ 0 <= ac mod 65536 < 65536 /\ ac = 65536 * (ac / 65536) + ac mod 65536.
Proof.
  intros Hac. change 65535 with (Z.ones 16) at 1. rewrite Z.land_ones, Z.shiftr_div_pow2 by lia.
  change (2 ^ 16) with 65536.
  pose proof (Z.div_mod ac 65536). pose proof (Z.mod_pos_bound ac 65536).
  pose proof (Z.div_pos ac 65536). lia.
Qed.

Lemma fold_carry_S fuel ac :
  0 <= ac ->
  fold_carry (S fuel) ac =
    if decide (65536 <= ac) then fold_carry fuel (ac - 65535 * (ac / 65536)) else ac.
Proof.
  intros Hac. destruct (fold_carry_step ac Hac) as (E & Hq & Hm & Hd). cbn [fold_carry].
  rewrite E. rewrite Z.shiftr_div_pow2 in * by lia. change (2 ^ 16) with 65536 in *.
  destruct (decide (_ > 0)), (decide (_ <= _)); [done|nia|nia|done].
Qed.

Lemma fold_carry_spec ac :
  0 <= ac < 2 ^ 32 ->
  exists k, 0 <= fold_carry 3 ac < 2 ^ 16 /\ ac = fold_carry 3 ac + 65535 * k /\
    (0 < ac -> 0 < fold_carry 3 ac).
Proof.
  intros Hac. pose proof (Z.div_mod ac 65536 ltac:(lia)). pose proof (Z.mod_pos_bound ac 65536).
  rewrite fold_carry_S by lia. destruct (decide _) as [H1|]; [|exists 0; lia].
  set (q := ac / 65536) in *. assert (1 <= q < 65536) as Hq by lia.
  rewrite fold_carry_S by lia. set (a1 := ac - 65535 * q).
  destruct (decide _) as [H2|]; [|exists q; lia].
  assert (a1 / 65536 = 1) as ->
    by (symmetry; apply (Z.div_unique a1 65536 1 (a1 - 65536)); lia).
  rewrite fold_carry_S by lia. destruct (decide _) as [H3|]; [lia|]. exists (q + 1). lia.
Qed.

Lemma words_sum_nonneg b : bytes_ok b -> 0 <= words_sum b.
Proof.
  remember (length b) as n eqn:Hn. revert b Hn. induction n as [n IH] using lt_wf_ind.
  intros [|x [|y b]] -> Hb; cbn; [lia| |];
    inversion_clear Hb as [|?? Hx Hb']; unfold u8_ok in Hx; [lia|].
  inversion_clear Hb' as [|?? Hy Hb]. unfold u8_ok in Hy.
  specialize (IH (length b) ltac:(cbn; lia) b eq_refl Hb). lia.
Qed.

Lemma header_words c total_len src dst :
  length src = 4%nat -> length dst = 4%nat -> bytes_ok src -> bytes_ok dst -> u16_ok c ->
  checksum_sum 0 (ip4_header total_len c src dst) =
    words_sum (ip4_header total_len 0 src dst) + c /\
  0 < words_sum (ip4_header total_len 0 src dst) < 2 ^ 24.
Proof.
  intros Hs Hd Hsok Hdok Hc.
  assert (forall c, bytes_ok (ip4_header total_len c src dst)) as Hok.
  { intros c'. unfold ip4_header. rewrite !bytes_ok_app.
    split_and!; auto with rust; repeat (constructor; [unfold u8_ok; lia|]); constructor. }
  assert (forall c, length (ip4_header total_len c src dst) = 20%nat) as Hlen
    by (intros c'; unfold ip4_header; autorewrite with bytes; cbn; lia).
  assert (words_sum (ip4_header total_len c src dst) =
    words_sum (ip4_header total_len 0 src dst) + c) as E.
  { pose proof (be_val_bytes_2 c Hc) as E. rewrite be_val_2 in E.
    unfold ip4_header. rewrite !be_bytes_2. cbn -[Z.div Z.modulo Z.mul].
    change (0 / 256 mod 256) with 0. change (0 mod 256) with 0. lia. }
  destruct (checksum_sum_words 20 (ip4_header total_len c src dst) 0) as [-> _];
    [by rewrite Hlen|done|lia|lia|].
  destruct (checksum_sum_words 20 (ip4_header total_len 0 src dst) 0) as [_ Hub];
    [by rewrite Hlen|done|lia|lia|].
  split; [by rewrite E|]. split; [|lia].
  specialize (Hok 0). unfold ip4_header in *. cbn [app] in *.
  apply Forall_cons in Hok as [_ [_ Hok]%Forall_cons]. apply words_sum_nonneg in Hok. cbn [words_sum]. lia.
Qed.

Lemma ip4_checksum_fixes total_len src dst :
  length src = 4%nat -> length dst = 4%nat -> bytes_ok src -> bytes_ok dst ->
  let ck := ip4_checksum (ip4_header total_len 0 src dst) in
  u16_ok ck /\ ip4_checksum (ip4_header total_len ck src dst) = 0.
Proof.
  intros Hs Hd Hsok Hdok ck.
  destruct (header_words 0 total_len src dst) as [E0 Hw]; [done..|].
  rewrite Z.add_0_r in E0. set (w := words_sum _) in *.
  destruct (fold_carry_spec w) as (k & Hr & Ek & Hpos); [lia|].
  assert (ck = 65535 - fold_carry 3 w) as Eck
    by (unfold ck, ip4_checksum; rewrite E0, Z.mod_small by lia; done).
  assert (u16_ok ck) as Hck by (unfold u16_ok; lia). split; [done|].
  destruct (header_words ck total_len src dst) as [E1 _]; [done..|]. fold w in E1.
  unfold ip4_checksum. rewrite E1.
  destruct (fold_carry_spec (w + ck)) as (k' & Hr' & Ek' & Hpos'); [lia|].
  rewrite Z.mod_small by exact Hr'. lia.
Qed.

(** ** No access is out of range *)

(** Run a parser whose guards keep every access in range. *)
Ltac in_range :=
  repeat first
    [ lazymatch goal with
      | |- exists _, idx ?b ?i ≫= _ = _ =>
          let H := fresh in assert (i < length b)%nat as H by lia;
          destruct (idx_lt b i H) as [? ->]; cbn [mbind outcome_bind]
      | |- exists _, be16 ?b ?i ≫= _ = _ =>
          let H := fresh in assert (S i < length b)%nat as H by lia;
          destruct (be16_Ret b i H) as [? ->]; cbn [mbind outcome_bind]
      | |- exists _, slice_of ?lo ?hi ?b ≫= _ = _ =>
          rewrite (slice_of_Ret lo hi b) by lia; cbn [mbind outcome_bind]
      | |- exists _, (if (?m <? ?n)%nat then _ else _) = _ => destruct (Nat.ltb_spec m n)
      | |- exists _, (if ?b then _ else _) = _ => destruct b
      | |- exists _, (if decide ?P then _ else _) = _ => destruct (decide P)
      | |- exists _, (if decide ?P then _ else _) ≫= _ = _ => destruct (decide P)
      end; cbn [mbind outcome_bind]
    | lia | by eexists ].

Lemma tsmp_body4_total b : exists o, tsmp_body4 b = Ret o.
Proof. unfold tsmp_body4, IP4_HEADER_LEN, usub. in_range. Qed.

Lemma tsmp_body6_total b : exists o, tsmp_body6 b = Ret o.
Proof. unfold tsmp_body6, IP6_HEADER_LEN, usub. in_range. Qed.

Lemma tsmp_body_total b : exists o, tsmp_body b = Ret o.
Proof.
  destruct b as [|b0 b]; [by eexists|]. unfold tsmp_body.
  repeat case_decide; [apply tsmp_body4_total|apply tsmp_body6_total|by eexists].
Qed.

Lemma advertisement_parse_total b : exists o, advertisement_parse b = Ret o.
Proof.
  unfold advertisement_parse. destruct (tsmp_body_total b) as [[[[src dst] body]|] ->];
    [|by eexists]. cbn [mbind outcome_bind]. unfold DISCO_ADVERTISEMENT_LEN, DISCO_KEY_LEN. in_range.
Qed.

Lemma rejected_parse_total b : exists o, rejected_parse b = Ret o.
Proof.
  unfold rejected_parse. destruct (tsmp_body_total b) as [[[[src dst] body]|] ->];
    [|by eexists]. cbn [mbind outcome_bind]. unfold REJECTED_CONN_MIN_LEN. in_range.
Qed.

(** ** Round trips *)

(** The Geneve header of a frame survives encoding, whatever follows it. *)
Theorem geneve_roundtrip h rest :
  geneve_ok h ->
  exists b, geneve_encode h = Ret b /\
    geneve_parse (b ++ rest) = Ret (inr (h, GENEVE_FIXED_HEADER_LEN)).
Proof.
  destruct h as [c p v]. intros [Hp Hv]. cbn in Hp, Hv.
  unfold geneve_encode. cbn [control protocol vni].
  rewrite be_bytes_2. unfold GENEVE_FIXED_HEADER_LEN. cbn [replicate].
  buf_run. eexists. split; [reflexivity|].
  unfold geneve_parse, be16, idx. cbn -[be_val Z.div Z.modulo Z.lor Z.shiftl Z.shiftr].
  rewrite be_val_bytes_2 by done. do 3 f_equal. f_equal.
  - destruct c; reflexivity.
  - rewrite !Z.shiftr_div_pow2, <- Z.lor_assoc by lia.
    rewrite (lor_shiftl_low (_ mod _) (v mod 256)), lor_shiftl_low
      by (Z.to_euclidean_division_equations; lia).
    Z.to_euclidean_division_equations; lia.
Qed.

Lemma geneve_roundtrip_witness :
  exists b, geneve_encode (mkGeneveHeader true GENEVE_PROTOCOL_DISCO 0xABCDEF) = Ret b /\
    geneve_parse (b ++ [1; 2; 3]) =
      Ret (inr (mkGeneveHeader true GENEVE_PROTOCOL_DISCO 0xABCDEF, GENEVE_FIXED_HEADER_LEN)).
Proof. apply geneve_roundtrip. split; cbn; unfold u16_ok, GENEVE_PROTOCOL_DISCO; lia. Defined.

Definition same_family (a b : IpAddr) : Prop := is_ipv4 a = is_ipv4 b.

Lemma marshal_ip_spec src dst body :
  ip_ok src -> ip_ok dst -> same_family src dst -> (7 <= length body < 2 ^ 15)%nat ->
  exists p, marshal_ip src dst body = Ret (inr p) /\
    (forall rest, tsmp_body (p ++ rest) = Ret (Some (src, dst, body))) /\
    (is_ipv4 src = true -> ip4_checksum (take 20 p) = 0) /\
    (length p <= 40 + length body)%nat.
Proof.
  intros [Hs Hsok] [Hd Hdok] Hfam Hlen. assert (Z.of_nat (length body) < 2 ^ 15) as Hlt.
  { destruct Hlen as [_ Hlen]. apply Nat2Z.inj_lt in Hlen. by rewrite Nat2Z.inj_pow in Hlen. }
  destruct src as [src|src], dst as [dst|dst]; try discriminate; cbn in Hs, Hd, Hsok, Hdok.
  - unfold marshal_ip. rewrite generate4_eq by done. eexists. split; [reflexivity|].
    rewrite Z.mod_small by lia.
    split_and!; [intros rest|intros _|unfold ip4_header; autorewrite with bytes; cbn; lia].
    + rewrite <- app_assoc. apply tsmp_body4_header; try done; unfold u16_ok; lia.
    + rewrite take_app_le by (unfold ip4_header; autorewrite with bytes; cbn; lia).
      rewrite take_ge by (unfold ip4_header; autorewrite with bytes; cbn; lia).
      by apply ip4_checksum_fixes.
  - unfold marshal_ip. rewrite generate6_eq by done. eexists. split; [reflexivity|].
    rewrite Z.mod_small by lia.
    split_and!; [intros rest|done|unfold ip6_header; autorewrite with bytes; cbn; lia].
    rewrite <- app_assoc. apply tsmp_body6_header; try done; unfold u16_ok; lia.
Qed.

Record advertisement_ok (a : DiscoKeyAdvertisement) : Prop := {
  adv_src_ok : ip_ok (adv_src a);
  adv_dst_ok : ip_ok (adv_dst a);
  adv_family : same_family (adv_src a) (adv_dst a);
  adv_key_len : length (adv_key a) = DISCO_KEY_LEN;
}.

Lemma advertisement_marshal_parse a :
  advertisement_ok a ->
  exists p, advertisement_marshal a = Ret (inr p) /\
    (forall rest, advertisement_parse (p ++ rest) = Ret (Some a)) /\
    (is_ipv4 (adv_src a) = true -> ip4_checksum (take 20 p) = 0).
Proof.
  destruct a as [src dst key]. intros [Hs Hd Hf Hk]. cbn in Hs, Hd, Hf, Hk.
  unfold advertisement_marshal. cbn [adv_src adv_dst adv_key].
  rewrite upd_lt by (unfold DISCO_ADVERTISEMENT_LEN, DISCO_KEY_LEN; cbn; lia). cbn [mbind outcome_bind].
  change (<[0%nat:=TSMP_TYPE_DISCO_ADVERTISEMENT]> (replicate DISCO_ADVERTISEMENT_LEN 0)) with
    ([TSMP_TYPE_DISCO_ADVERTISEMENT] ++ replicate DISCO_KEY_LEN 0 ++ []).
  rewrite (copy_into_mid [_]) by (by rewrite length_replicate). cbn [mbind outcome_bind].
  rewrite app_nil_r. set (body := _ ++ key).
  assert (length body = DISCO_ADVERTISEMENT_LEN) as Hb by (cbn; by rewrite Hk).
  destruct (marshal_ip_spec src dst body) as (p & -> & Hp & Hck & Hlp); [done..| |].
  { rewrite Hb. unfold DISCO_ADVERTISEMENT_LEN, DISCO_KEY_LEN. split; [lia|]. apply Nat.ltb_lt. done. }
  exists p. split_and!; [done| |done]. intros rest.
  unfold advertisement_parse. rewrite Hp. cbn [mbind outcome_bind].
  rewrite Hb, Nat.ltb_irrefl. change (idx body 0) with (Ret TSMP_TYPE_DISCO_ADVERTISEMENT).
  cbn [mbind outcome_bind]. rewrite decide_False by (intros []; done).
  rewrite slice_of_Ret by (rewrite Hb; unfold DISCO_ADVERTISEMENT_LEN; lia).
  unfold slice, body. cbn [drop app mbind outcome_bind]. do 3 f_equal. apply take_ge. by rewrite Hk.
Qed.

Record rejected_ok (h : TailscaleRejectedHeader) : Prop := {
  rej_src_ok : ip_ok (ip_src h);
  rej_dst_ok : ip_ok (ip_dst h);
  rej_family : same_family (ip_src h) (ip_dst h);
  rej_flow : sa_ip (rej_src h) = ip_dst h /\ sa_ip (rej_dst h) = ip_src h;
  rej_ports : u16_ok (sa_port (rej_src h)) /\ u16_ok (sa_port (rej_dst h));
  rej_reason : reason h <> REASON_NONE;
}.

Lemma rejected_marshal_parse h :
  rejected_ok h ->
  exists p, rejected_marshal h = Ret (inr p) /\
    (forall rest, rejected_parse (p ++ rest) = Ret (Some h)) /\
    (is_ipv4 (ip_src h) = true -> ip4_checksum (take 20 p) = 0) /\ (length p <= 48)%nat.
Proof.
  destruct h as [isrc idst [sip sport] [dip dport] proto rsn mb].
  intros [Hs Hd Hf [Efs Efd] [Hsp Hdp] Hr]. cbn in Hs, Hd, Hf, Efs, Efd, Hsp, Hdp, Hr. subst sip dip.
  unfold rejected_marshal, reason_is_zero.
  cbn [reason rej_proto rej_src rej_dst sa_port maybe_broken ip_src ip_dst].
  rewrite bool_decide_false by done. unfold REJECTED_CONN_LEN. cbn [replicate]. buf_run.
  set (body := _ :: _).
  destruct (marshal_ip_spec isrc idst body) as (p & -> & Hp & Hck & Hlp); [done..| |].
  { cbn [length body]. split; [lia|]. apply Nat.ltb_lt. done. }
  exists p. split_and!; [done| |done|exact Hlp]. intros rest.
  unfold rejected_parse. rewrite Hp. cbn [mbind outcome_bind].
  unfold be16, idx, body. cbn -[be_val Z.div Z.modulo]. rewrite !be_val_bytes_2 by done.
  by destruct mb.
Qed.

(** A disco-key advertisement between two addresses of one family is
    marshalled into an IP packet that reads back as the advertisement,
    whatever follows it; the checksum of an IPv4 header is right. *)
Theorem advertisement_roundtrip a rest :
  advertisement_ok a ->
  exists p, advertisement_marshal a = Ret (inr p) /\
    advertisement_parse (p ++ rest) = Ret (Some a) /\
    (is_ipv4 (adv_src a) = true -> ip4_checksum (take 20 p) = 0).
Proof.
  intros Ha. destruct (advertisement_marshal_parse a Ha) as (p & E & Hp & Hck). by exists p.
Qed.

(** A rejection whose flow is the reverse of its IP header, as the rejecting
    node builds it, reads back field for field at the dialer. *)
Theorem rejected_roundtrip h rest :
  rejected_ok h ->
  exists p, rejected_marshal h = Ret (inr p) /\ rejected_parse (p ++ rest) = Ret (Some h) /\
    (is_ipv4 (ip_src h) = true -> ip4_checksum (take 20 p) = 0).
Proof.
  intros Hh. destruct (rejected_marshal_parse h Hh) as (p & E & Hp & Hck & _). by exists p.
Qed.

(** No byte string makes the TSMP readers panic. *)
Theorem tsmp_parse_total b :
  (exists o, advertisement_parse b = Ret o) /\ (exists o, rejected_parse b = Ret o).
Proof. split; [apply advertisement_parse_total|apply rejected_parse_total]. Qed.

Lemma advertisement_roundtrip_witness :
  exists p, advertisement_marshal (mkAdvertisement (V4 [100; 64; 0; 1]) (V4 [100; 64; 0; 2])
      (replicate 32 7)) = Ret (inr p) /\
    advertisement_parse (p ++ [9]) = Ret (Some (mkAdvertisement (V4 [100; 64; 0; 1])
      (V4 [100; 64; 0; 2]) (replicate 32 7))) /\
    (true = true -> ip4_checksum (take 20 p) = 0).
Proof.
  apply advertisement_roundtrip. split; cbn; try done; split; try done; cbn;
    repeat constructor; unfold u8_ok; lia.
Defined.

Lemma rejected_roundtrip_witness :
  let h := mkRejectedHeader (V4 [100; 64; 0; 1]) (V4 [100; 64; 0; 2])
    (mkSocketAddr (V4 [100; 64; 0; 2]) 40000) (mkSocketAddr (V4 [100; 64; 0; 1]) 22) 6
    REASON_ACLS false in
  exists p, rejected_marshal h = Ret (inr p) /\ rejected_parse (p ++ [9]) = Ret (Some h) /\
    (true = true -> ip4_checksum (take 20 p) = 0).
Proof.
  intros h. apply (rejected_roundtrip h). split; cbn; try done.
  - split; [done|]. cbn. repeat constructor; unfold u8_ok; lia.
  - split; [done|]. cbn. repeat constructor; unfold u8_ok; lia.
Defined.
