(* ===== verification/Routers.v ===== *)
(** * Routers: the overlay and underlay routers

    [Router] of src/ts_overlay_router (inbound and outbound) and of
    src/ts_underlay_router.  A batch of packets is split by the next hop of
    each.  A [HashMap] is a finite map; the order in which a loop visits one is
    a [MapOrder], an arbitrary permutation that the caller of the model
    chooses.  Peer and transport identifiers are integers. *)

From stdpp Require Import gmap countable.
From S2P Require Import Prelude Bitset Array256 BaseIndex IpNet Stride IpTrie TrieSpec Table IpNetModel Routing Bytes Packet.

Local Open Scope Z_scope.

Abbreviation packet := (list Z).
Abbreviation RTable T := (Split.SplitStackTable (Node T)).

(** The order of a traversal of a [HashMap]. *)
Record MapOrder (K V : Type) `{Countable K} := mkMapOrder {
  iter_map : gmap K V -> list (K * V);
  iter_map_perm m : iter_map m ≡ₚ map_to_list m;
}.
Arguments mkMapOrder {_ _ _ _}.
Arguments iter_map {_ _ _ _}.
Arguments iter_map_perm {_ _ _ _}.

Definition default_order {K V} `{Countable K} : MapOrder K V :=
  mkMapOrder map_to_list (fun m => Permutation_refl _).

(** [entry(k).or_default().extend(ps)] *)
Definition extend_entry {K} `{Countable K} (m : gmap K (list packet)) (k : K) (ps : list packet)
    : gmap K (list packet) :=
  <[k := default [] (m !! k) ++ ps]> m.

(** [into_group_map] on an iterator of pairs: the values of each key, in
    order. *)
Definition into_group_map {K} `{Countable K} (kps : list (K * packet)) : gmap K (list packet) :=
  foldl (fun m kp => extend_entry m kp.1 [kp.2]) ∅ kps.

Module OrIn.
Inductive RouteAction := Drop | ToOverlay (id : Z).

#[global] Instance RouteAction_eq_dec : EqDecision RouteAction.
Proof. solve_decision. Defined.

Section Router.
Context `{!IpNetOps}.

Definition next_hop (table : RTable RouteAction) (p : packet) : outcome (option (Z * packet)) :=
  match get_dst_addr p with
  | None => Ret None
  | Some addr =>
      r ← Split.lookup table addr;
      match r with
      | Some (ToOverlay key) => Ret (Some (key, p))
      | Some Drop => Ret None
      | None => Ret None
      end
  end.

Fixpoint filter_map (table : RTable RouteAction) (packets : list packet)
    : outcome (list (Z * packet)) :=
  match packets with
  | [] => Ret []
  | p :: packets =>
      o ← next_hop table p;
      rest ← filter_map table packets;
      Ret (match o with Some kp => kp :: rest | None => rest end)
  end.

Definition route (table : RTable RouteAction) (packets : list packet)
    : outcome (gmap Z (list packet)) :=
  kps ← filter_map table packets;
  Ret (into_group_map kps).

Definition swap (table routes : RTable RouteAction) : RTable RouteAction * RTable RouteAction :=
  (routes, table).
End Router.
End OrIn.

Module OrOut.
Inductive RouteAction := Drop | Wireguard (peer : Z) | Loopback (id : Z).

#[global] Instance RouteAction_eq_dec : EqDecision RouteAction.
Proof. solve_decision. Defined.

Record Result := mkResult {
  to_wireguard : gmap Z (list packet);
  loopback : gmap Z (list packet);
}.

Section Router.
Context `{!IpNetOps}.

Definition route_batch (table : RTable RouteAction) (ret : Result) (batch : IpAddr * list packet)
    : outcome Result :=
  r ← Split.lookup table batch.1;
  Ret (match r with
       | Some (Wireguard peer) =>
           mkResult (extend_entry (to_wireguard ret) peer batch.2) (loopback ret)
       | Some (Loopback id) =>
           mkResult (to_wireguard ret) (extend_entry (loopback ret) id batch.2)
       | Some Drop => ret
       | None => ret
       end).

Definition by_dest (packets : list packet) : gmap IpAddr (list packet) :=
  into_group_map (omap (fun p => (fun addr => (addr, p)) <$> get_dst_addr p) packets).

Definition route (order : MapOrder IpAddr (list packet)) (table : RTable RouteAction)
    (packets : list packet) : outcome Result :=
  mfoldl (route_batch table) (mkResult ∅ ∅) (iter_map order (by_dest packets)).

Definition swap (table routes : RTable RouteAction) : RTable RouteAction * RTable RouteAction :=
  (routes, table).
End Router.
End OrOut.

Module UrOut.
Definition route (table : gmap Z Z) (batches : list (Z * list packet))
    : gmap (Z * Z) (list packet) :=
  foldl (fun ret '(peer_id, packets) =>
    match table !! peer_id with
    | Some transport => extend_entry ret (transport, peer_id) packets
    | None => ret
    end) ∅ batches.
End UrOut.

(** ** Groups *)

Section Groups.
Context {K : Type} `{Countable K}.
Implicit Types (m : gmap K (list packet)) (kps : list (K * packet)).

(** The packets of a key, empty for an absent one. *)
Definition entry m (k : K) : list packet := default [] (m !! k).

Lemma entry_empty k : entry ∅ k = [].
Proof. unfold entry. by rewrite lookup_empty. Qed.

Lemma entry_extend m k k' ps :
  entry (extend_entry m k ps) k' = entry m k' ++ (if decide (k' = k) then ps else []).
Proof.
  unfold entry, extend_entry. destruct (decide (k' = k)) as [->|Hne].
  - by rewrite lookup_insert_eq.
  - by rewrite lookup_insert_ne, app_nil_r.
Qed.

Lemma entry_foldl m kps k :
  entry (foldl (fun m kp => extend_entry m kp.1 [kp.2]) m kps) k =
    entry m k ++ (filter (fun kp => kp.1 = k) kps).*2.
Proof.
  revert m. induction kps as [|[k' p] kps IH]; intros m; cbn [foldl]; [by rewrite app_nil_r|].
  rewrite IH, entry_extend, <- app_assoc. f_equal. cbn [fst snd]. rewrite filter_cons. cbn [fst].
  destruct (decide (k = k')) as [->|Hne].
  - by rewrite decide_True.
  - by rewrite decide_False.
Qed.

Lemma entry_group_map kps k :
  entry (into_group_map kps) k = (filter (fun kp => kp.1 = k) kps).*2.
Proof. unfold into_group_map. by rewrite entry_foldl, entry_empty. Qed.

(** A group is never empty. *)
Lemma foldl_nonempty m kps :
  (forall k ps, m !! k = Some ps -> ps <> []) ->
  forall k ps, foldl (fun m kp => extend_entry m kp.1 [kp.2]) m kps !! k = Some ps -> ps <> [].
Proof.
  revert m. induction kps as [|[k' p] kps IH]; intros m Hm; [done|]. cbn [foldl]. apply IH.
  intros k ps. unfold extend_entry. cbn. destruct (decide (k = k')) as [->|Hne].
  - rewrite lookup_insert_eq. intros [= <-]. by destruct (default _ _).
  - rewrite lookup_insert_ne by done. apply Hm.
Qed.

Lemma group_map_lookup kps k ps :
  into_group_map kps !! k = Some ps <->
  ps <> [] /\ ps = (filter (fun kp => kp.1 = k) kps).*2.
Proof.
  rewrite <- entry_group_map. unfold entry. split.
  - intros E. rewrite E. split; [|done]. eapply foldl_nonempty, E. intros ??. by rewrite lookup_empty.
  - intros [Hne ->]. destruct (into_group_map kps !! k); [done|]. done.
Qed.
End Groups.

(** ** What the routers do *)

Section Spec.
Context `{!IpNetOps, !IpNetLaws}.

(** The action for the destination of a packet. *)
Definition action {T} (m : amap T) (p : packet) : option T :=
  addr ← get_dst_addr p; route_of m addr.

Lemma inbound_filter_map table m packets :
  table_rel table m -> Forall bytes_ok packets ->
  exists kps, OrIn.filter_map table packets = Ret kps /\
    forall id, (filter (fun kp => kp.1 = id) kps).*2 =
      filter (fun p => action m p = Some (OrIn.ToOverlay id)) packets.
Proof.
  intros Ht. induction 1 as [|p packets Hp _ (kps & E & Hkps)]; [by exists []|].
  assert (exists o, OrIn.next_hop table p = Ret o /\
    o = match action m p with Some (OrIn.ToOverlay id) => Some (id, p) | _ => None end)
    as (o & En & Eo).
  { unfold OrIn.next_hop, action. destruct (get_dst_addr p) as [a|] eqn:Ea; [|by eexists].
    rewrite (table_rel_lookup table m a Ht) by by eapply get_dst_addr_ok. cbn.
    destruct (route_of m a) as [[]|]; by eexists. }
  cbn [OrIn.filter_map]. rewrite En, E. cbn [mbind outcome_bind]. eexists. split; [reflexivity|].
  intros id. rewrite filter_cons. destruct (action m p) as [[|id']|]; subst o;
    [rewrite decide_False by done; apply Hkps| |rewrite decide_False by done; apply Hkps].
  rewrite filter_cons. cbn [fst]. destruct (decide (id' = id)) as [->|Hne].
  - rewrite decide_True by done. cbn. f_equal. apply Hkps.
  - rewrite decide_False by congruence. apply Hkps.
Qed.

(** Every overlay transport receives, in order, the packets whose longest
    route leads to it. *)
Lemma inbound_route_spec table m packets :
  table_rel table m -> Forall bytes_ok packets ->
  exists res, OrIn.route table packets = Ret res /\
    forall id, entry res id = filter (fun p => action m p = Some (OrIn.ToOverlay id)) packets.
Proof.
  intros Ht Hp. destruct (inbound_filter_map table m packets Ht Hp) as (kps & E & Hkps).
  unfold OrIn.route. rewrite E. eexists. split; [reflexivity|]. intros id.
  by rewrite entry_group_map, Hkps.
Qed.

(** The packets for an address. *)
Definition for_addr (packets : list packet) (a : IpAddr) : list packet :=
  filter (fun p => get_dst_addr p = Some a) packets.

Lemma by_dest_lookup packets a ps :
  OrOut.by_dest packets !! a = Some ps <-> ps <> [] /\ ps = for_addr packets a.
Proof.
  unfold OrOut.by_dest. rewrite group_map_lookup.
  assert ((filter (fun kp => kp.1 = a)
    (omap (fun p => (fun addr => (addr, p)) <$> get_dst_addr p) packets)).*2 = for_addr packets a)
    as ->; [|done].
  unfold for_addr. induction packets as [|p packets IH]; [done|]. cbn [omap list_omap].
  rewrite filter_cons. destruct (get_dst_addr p) as [a'|].
  - cbn [fmap option_fmap option_map]. rewrite filter_cons. cbn [fst].
    destruct (decide (a' = a)) as [->|Hne].
    + rewrite decide_True by done. cbn. f_equal. apply IH.
    + rewrite decide_False by congruence. apply IH.
  - rewrite decide_False by done. apply IH.
Qed.

Lemma filter_disjoint_app (P Q : packet -> Prop) `{!forall x, Decision (P x)}
    `{!forall x, Decision (Q x)} `{!forall x, Decision (P x \/ Q x)} (ps : list packet) :
  (forall p, P p -> Q p -> False) ->
  filter P ps ++ filter Q ps ≡ₚ filter (fun p => P p \/ Q p) ps.
Proof.
  intros Hdisj. induction ps as [|p ps IH]; [done|]. rewrite !filter_cons.
  destruct (decide (P p)), (decide (Q p)); try (exfalso; by eapply Hdisj).
  - rewrite decide_True by tauto. cbn. by rewrite IH.
  - rewrite decide_True by tauto. rewrite <- IH. symmetry. apply Permutation_middle.
  - rewrite decide_False by tauto. done.
Qed.

Lemma concat_for_addr packets ks :
  NoDup ks ->
  concat (for_addr packets <$> ks) ≡ₚ filter (fun p => get_dst_addr p ∈ Some <$> ks) packets.
Proof.
  induction 1 as [|a ks Ha Hks IH].
  - rewrite filter_none; [done|]. by intros p _ ?%elem_of_nil.
  - cbn [concat fmap list_fmap]. rewrite IH.
    unfold for_addr.
    assert (forall p, Decision (get_dst_addr p = Some a \/ get_dst_addr p ∈ Some <$> ks))
      by (intros; apply _).
    rewrite filter_disjoint_app.
    + rewrite (filter_ext_in _ (fun p => get_dst_addr p ∈ Some a :: (Some <$> ks))); [done|].
      intros p _. by rewrite elem_of_cons.
    + intros p E. rewrite E, list_elem_of_fmap. intros (a' & [= ->] & ?). done.
Qed.

Lemma for_addr_concat packets ks a :
  NoDup ks ->
  for_addr (concat (for_addr packets <$> ks)) a = if decide (a ∈ ks) then for_addr packets a else [].
Proof.
  unfold for_addr. induction 1 as [|a' ks Ha Hks IH]; [done|].
  cbn [concat fmap list_fmap]. rewrite filter_app, IH.
  destruct (decide (a = a')) as [->|Hne].
  - rewrite (decide_False (P:=a' ∈ ks)), (decide_True (P:=a' ∈ a' :: ks)) by (done || left).
    rewrite app_nil_r, list_filter_filter. apply filter_ext_in. tauto.
  - rewrite (filter_none _ (filter _ _)).
    + cbn [app]. apply decide_ext. rewrite elem_of_cons. tauto.
    + intros p [E _]%list_elem_of_filter. congruence.
Qed.

Definition routed_to {A} (m : amap A) (v : A) `{!EqDecision A} (L : list (IpAddr * list packet))
    : list (IpAddr * list packet) :=
  filter (fun b => route_of m b.1 = Some v) L.

Lemma outbound_fold table m L ret :
  table_rel table m -> Forall (fun b => ip_ok b.1) L ->
  exists res, mfoldl (OrOut.route_batch table) ret L = Ret res /\
    (forall peer, entry (OrOut.to_wireguard res) peer =
       entry (OrOut.to_wireguard ret) peer ++ concat (routed_to m (OrOut.Wireguard peer) L).*2) /\
    (forall id, entry (OrOut.loopback res) id =
       entry (OrOut.loopback ret) id ++ concat (routed_to m (OrOut.Loopback id) L).*2).
Proof.
  intros Ht HL. revert ret. induction HL as [|[a ps] L Ha _ IH]; intros ret.
  { exists ret. cbn. split_and!; [done|intros; by rewrite app_nil_r..]. }
  cbn [mfoldl fst] in *.
  assert (exists ret', OrOut.route_batch table ret (a, ps) = Ret ret' /\
    ret' = match route_of m a with
      | Some (OrOut.Wireguard peer) =>
          OrOut.mkResult (extend_entry (OrOut.to_wireguard ret) peer ps) (OrOut.loopback ret)
      | Some (OrOut.Loopback id) =>
          OrOut.mkResult (OrOut.to_wireguard ret) (extend_entry (OrOut.loopback ret) id ps)
      | _ => ret
      end) as (ret' & -> & ->).
  { unfold OrOut.route_batch. cbn [fst snd]. rewrite (table_rel_lookup table m a Ht Ha).
    eexists. split; [done|]. by destruct (route_of m a) as [[]|]. }
  cbn [mbind outcome_bind].
  edestruct IH as (res & -> & Hw & Hl). exists res. split; [done|]. unfold routed_to in *.
  split; intros k; [rewrite Hw|rewrite Hl]; rewrite filter_cons; cbn [fst];
    destruct (route_of m a) as [[|peer|id]|]; cbn [OrOut.to_wireguard OrOut.loopback];
    rewrite ?entry_extend, <- ?app_assoc.
  all: try (rewrite (decide_False (P:=_ = _ :> option _)) by congruence; done).
  - destruct (decide (k = peer)) as [->|]; [by rewrite decide_True|].
    by rewrite decide_False by congruence.
  - destruct (decide (k = id)) as [->|]; [by rewrite decide_True|].
    by rewrite decide_False by congruence.
Qed.

(** The batches of the loop: distinct addresses, each with its packets. *)
Lemma batches_spec order packets :
  let L := iter_map order (OrOut.by_dest packets) in
  NoDup L.*1 /\
  (forall a ps, (a, ps) ∈ L <-> ps <> [] /\ ps = for_addr packets a).
Proof.
  intros L. split.
  - unfold L. rewrite iter_map_perm. apply NoDup_fst_map_to_list.
  - intros a ps. unfold L. rewrite iter_map_perm, elem_of_map_to_list. apply by_dest_lookup.
Qed.

Lemma routed_packets {A} `{!EqDecision A} (m : amap A) v order packets :
  let L := routed_to m v (iter_map order (OrOut.by_dest packets)) in
  concat L.*2 ≡ₚ filter (fun p => action m p = Some v) packets /\
  forall a, for_addr (concat L.*2) a =
    if decide (route_of m a = Some v) then for_addr packets a else [].
Proof.
  intros L. destruct (batches_spec order packets) as [Hnd Hin].
  assert (NoDup L.*1) as HL.
  { eapply sublist_NoDup; [exact Hnd|]. apply fmap_sublist, sublist_filter. }
  assert (L.*2 = for_addr packets <$> L.*1) as ->.
  { rewrite <- list_fmap_compose. apply list_fmap_ext. intros i [a ps] Hi.
    apply list_elem_of_lookup_2 in Hi as [_ Hi]%list_elem_of_filter. by apply Hin in Hi as [_ ?]. }
  assert (forall a, a ∈ L.*1 <-> route_of m a = Some v /\ for_addr packets a <> []) as Hk.
  { intros a. rewrite list_elem_of_fmap. split.
    - intros ([a' ps] & -> & [Ha Hi]%list_elem_of_filter). apply Hin in Hi as [? ->]. done.
    - intros [Ha Hne]. exists (a, for_addr packets a). split; [done|]. apply list_elem_of_filter.
      split; [done|]. by apply Hin. }
  split.
  - rewrite concat_for_addr by done. apply reflexive_eq, filter_ext_in. intros p Hp.
    rewrite list_elem_of_fmap. unfold action. destruct (get_dst_addr p) as [a|] eqn:Ea; cbn.
    + split; [by intros (a' & [= <-] & [? _]%Hk)|]. intros E. exists a. split; [done|].
      apply Hk. split; [done|]. intros En.
      assert (p ∈ for_addr packets a) as Hpa by (by apply list_elem_of_filter).
      rewrite En in Hpa. by apply elem_of_nil in Hpa.
    + naive_solver.
  - intros a. rewrite for_addr_concat by done. destruct (decide (a ∈ L.*1)) as [Hi|Hi].
    + by rewrite decide_True by by apply Hk.
    + case_decide; [|done]. symmetry. apply dec_stable. intros Hne. by apply Hi, Hk.
Qed.
End Spec.

(** The table that some updates build. *)
Definition table_of `{!IpNetOps} {T} (ops : list (table_op T)) : RTable T :=
  match table_run Split.EMPTY ops with
  | Ret (t, _) => t
  | Panic => Split.EMPTY
  end.

Lemma table_of_rel `{!IpNetOps, !IpNetLaws} {T} (ops : list (table_op T)) :
  table_rel (table_of ops) (routes_after ops).
Proof.
  unfold table_of. destruct (table_run_refines ops (Split.EMPTY : RTable T) empty_map
    table_rel_empty) as (t & -> & Hrel). exact Hrel.
Qed.

(** The underlay router keeps a peer's packets together and drops them only
    when it knows no transport for the peer. *)
Lemma underlay_fold (table : gmap Z Z) (batches : list (Z * list packet)) (tr peer : Z) (ret : gmap (Z * Z) (list packet)) :
  entry (foldl (fun ret '(peer_id, packets) =>
    match table !! peer_id with
    | Some transport => extend_entry ret (transport, peer_id) packets
    | None => ret
    end) ret batches) (tr, peer) =
  entry ret (tr, peer) ++ if decide (table !! peer = Some tr)
    then concat (filter (fun b => b.1 = peer) batches).*2 else [].
Proof.
  revert ret. induction batches as [|[k ps] batches IH]; intros ret.
  { cbn. case_decide; by rewrite app_nil_r. }
  cbn [foldl]. rewrite IH, filter_cons. cbn [fst].
  destruct (table !! k) as [tr'|] eqn:Ek.
  - rewrite entry_extend, <- app_assoc. f_equal.
    destruct (decide (k = peer)) as [->|Hne].
    + rewrite Ek. destruct (decide (Some tr' = Some tr)) as [[= ->]|Hne].
      * by rewrite decide_True.
      * rewrite decide_False by congruence. done.
    + rewrite (decide_False (P:=(tr, peer) = _)) by congruence. done.
  - destruct (decide (k = peer)) as [->|Hne]; [|done]. by rewrite Ek, !decide_False.
Qed.

Lemma underlay_route_spec table batches tr peer :
  entry (UrOut.route table batches) (tr, peer) =
    if decide (table !! peer = Some tr)
    then concat (filter (fun b => b.1 = peer) batches).*2 else [].
Proof. unfold UrOut.route. by rewrite underlay_fold, entry_empty. Qed.

Lemma outbound_route_spec `{!IpNetOps, !IpNetLaws} order table m packets :
  table_rel table m -> Forall bytes_ok packets ->
  exists res, OrOut.route order table packets = Ret res /\
    (forall peer, entry (OrOut.to_wireguard res) peer ≡ₚ
       filter (fun p => action m p = Some (OrOut.Wireguard peer)) packets) /\
    (forall id, entry (OrOut.loopback res) id ≡ₚ
       filter (fun p => action m p = Some (OrOut.Loopback id)) packets) /\
    forall peer a, for_addr (entry (OrOut.to_wireguard res) peer) a =
      if decide (route_of m a = Some (OrOut.Wireguard peer)) then for_addr packets a else [].
Proof.
  intros Ht Hp. unfold OrOut.route.
  destruct (outbound_fold table m (iter_map order (OrOut.by_dest packets)) (OrOut.mkResult ∅ ∅))
    as (res & -> & Hw & Hl); [done| |].
  { apply Forall_forall. intros [a ps] [Hne ->]%(proj2 (batches_spec order packets)). cbn.
    destruct (for_addr packets a) as [|p ps] eqn:E; [done|].
    assert (p ∈ for_addr packets a) as [Ea Hin]%list_elem_of_filter by (rewrite E; left).
    eapply get_dst_addr_ok, Ea. rewrite Forall_forall in Hp. by apply Hp. }
  exists res. split; [done|]. cbn [OrOut.to_wireguard OrOut.loopback] in Hw, Hl.
  split_and!; [intros k; rewrite Hw|intros k; rewrite Hl|intros k a; rewrite Hw];
    rewrite entry_empty; cbn [app]; apply routed_packets.
Qed.

(** Outbound packets are split by the action of the longest route for their
    destination: each peer and each loopback transport gets exactly the packets
    whose route leads to it, in the order they have per destination, whatever
    order the hash map is traversed in. *)
Theorem outbound_route_exact `{!IpNetOps, !IpNetLaws} order table m packets :
  table_rel table m -> Forall bytes_ok packets ->
  exists res, OrOut.route order table packets = Ret res /\
    (forall peer, entry (OrOut.to_wireguard res) peer ≡ₚ
       filter (fun p => action m p = Some (OrOut.Wireguard peer)) packets) /\
    (forall id, entry (OrOut.loopback res) id ≡ₚ
       filter (fun p => action m p = Some (OrOut.Loopback id)) packets) /\
    forall peer a, for_addr (entry (OrOut.to_wireguard res) peer) a =
      if decide (route_of m a = Some (OrOut.Wireguard peer)) then for_addr packets a else [].
Proof. apply outbound_route_spec. Qed.

(** Two routes and three packets, of which one has no route. *)
Definition demo_routes : list (table_op OrOut.RouteAction) :=
  [OInsert (net4 100 64 0 2 32 eq_refl) (OrOut.Wireguard 1);
   OInsert (net4 100 100 100 100 32 eq_refl) (OrOut.Loopback 7)].

Definition demo_packet (a b c d : Z) : packet :=
  [69; 0; 0; 20; 0; 0; 0; 0; 64; 17; 0; 0; 100; 64; 0; 1; a; b; c; d].

Lemma outbound_route_exact_witness :
  let packets := [demo_packet 100 64 0 2; demo_packet 8 8 8 8; demo_packet 100 100 100 100] in
  exists res, OrOut.route default_order (table_of demo_routes) packets = Ret res /\
    (forall peer, entry (OrOut.to_wireguard res) peer ≡ₚ
       filter (fun p => action (routes_after demo_routes) p = Some (OrOut.Wireguard peer)) packets) /\
    (forall id, entry (OrOut.loopback res) id ≡ₚ
       filter (fun p => action (routes_after demo_routes) p = Some (OrOut.Loopback id)) packets) /\
    forall peer a, for_addr (entry (OrOut.to_wireguard res) peer) a =
      if decide (route_of (routes_after demo_routes) a = Some (OrOut.Wireguard peer))
      then for_addr packets a else [].
Proof.
  apply outbound_route_exact; [apply table_of_rel|].
  repeat constructor; unfold u8_ok; lia.
Defined.
