(* ===== verification/PacketFilter.v ===== *)
(** * PacketFilter: rules, packets and the reference filter

    Models src/ts_packetfilter/src: the packet metadata and its reply
    predicates (lib.rs, l4.rs, ip_proto.rs), the rules and what they match
    (rule.rs), the filters built by map, by shielding and by comparison
    (lib.rs, filter/mod.rs, filter/map_impl.rs, checking_filter.rs) and the
    application of a control-plane update to a filter's storage (state.rs).

    A [CapIter] is the list of the capability names it yields.  Of the
    [ipnet] crate the network-in-network test is used here as well. *)

From stdpp Require Import gmap strings.
From S2P Require Import Prelude IpNet Bytes.

(** ** Protocols and headers *)

(** [IpProto] is its [i64]. *)
Definition ICMP : Z := 1.
Definition ICMPV6 : Z := 58.
Definition TCP : Z := 6.
Definition UDP : Z := 17.
Definition SCTP : Z := 132.
Definition TSMP : Z := 99.

Definition is_port_ful (proto : Z) : bool :=
  bool_decide (proto = TCP) || bool_decide (proto = UDP) || bool_decide (proto = SCTP).

Inductive L4Header :=
| Unknown
| Tcp (flags : Z)
| Icmp (icmp_type icmp_code : Z).

Definition TCP_SYN : Z := 2.
Definition TCP_ACK : Z := 16.
Definition TCP_SYN_ACK : Z := Z.lor TCP_SYN TCP_ACK.
Definition ICMP_NO_CODE : Z := 0.
Definition ICMP4_ECHO_REPLY : Z := 0.
Definition ICMP4_UNREACHABLE : Z := 3.
Definition ICMP4_TIME_EXCEEDED : Z := 11.
Definition ICMP4_PARAM_PROBLEM : Z := 18.
Definition ICMP6_UNREACHABLE : Z := 1.
Definition ICMP6_PACKET_TOO_BIG : Z := 2.
Definition ICMP6_TIME_EXCEEDED : Z := 3.
Definition ICMP6_PARAM_PROBLEM : Z := 4.
Definition ICMP6_ECHO_REPLY : Z := 129.

Definition tcp_syn_flag_set (h : L4Header) : bool :=
  match h with Tcp flags => negb (bool_decide (Z.land flags TCP_SYN = 0%Z)) | _ => false end.

Record PacketInfo := mkPacketInfo {
  src : IpAddr;
  dst : IpAddr;
  ip_proto : Z;
  port : Z;
  l4 : L4Header;
}.

(** The types of the fields. *)
Definition info_ok (info : PacketInfo) : Prop :=
  ip_ok (src info) /\ ip_ok (dst info) /\ u16_ok (port info).

Definition is_tcp_non_syn (info : PacketInfo) : bool :=
  match l4 info with
  | Tcp flags =>
      bool_decide (ip_proto info = TCP) && negb (bool_decide (Z.land flags TCP_SYN_ACK = TCP_SYN))
  | _ => false
  end.

Definition is_icmp_echo_response (info : PacketInfo) : bool :=
  match l4 info with
  | Icmp icmp_type icmp_code =>
      bool_decide (icmp_code = ICMP_NO_CODE) &&
      (if decide (ip_proto info = ICMP) then bool_decide (icmp_type = ICMP4_ECHO_REPLY)
       else if decide (ip_proto info = ICMPV6) then bool_decide (icmp_type = ICMP6_ECHO_REPLY)
       else false)
  | _ => false
  end.

Definition is_icmp_error (info : PacketInfo) : bool :=
  match l4 info with
  | Icmp icmp_type _ =>
      if decide (ip_proto info = ICMP) then
        bool_decide (icmp_type ∈ [ICMP4_UNREACHABLE; ICMP4_TIME_EXCEEDED; ICMP4_PARAM_PROBLEM])
      else if decide (ip_proto info = ICMPV6) then
        bool_decide (icmp_type ∈
          [ICMP6_UNREACHABLE; ICMP6_PACKET_TOO_BIG; ICMP6_TIME_EXCEEDED; ICMP6_PARAM_PROBLEM])
      else false
  | _ => false
  end.

(** ** Rules *)

Inductive PortMode := CheckPort | IpsOnly | IpsOnlyIfAllPorts.

Definition for_proto (proto : Z) : PortMode :=
  if is_port_ful proto then CheckPort
  else if bool_decide (proto = ICMP) || bool_decide (proto = ICMPV6) then IpsOnly
  else IpsOnlyIfAllPorts.

(** A [RangeInclusive<u16>] by its ends. *)
Definition ALL_PORTS : Z * Z := (0, 65535)%Z.

(** The ends of a range are [u16]s. *)
Definition ports_ok (r : Z * Z) : Prop := u16_ok r.1 /\ u16_ok r.2.

Definition range_contains (r : Z * Z) (x : Z) : bool := bool_decide (r.1 <= x <= r.2)%Z.

Section Rules.
Context `{!IpNetOps}.

Record SrcMatch := mkSrcMatch { pfxs : list IpNet; caps : list string }.
Record DstMatch := mkDstMatch { ports : Z * Z; ips : list IpNet }.
Record Rule := mkRule { rule_src : SrcMatch; protos : list Z; rule_dst : list DstMatch }.

Definition Ruleset : Type := list Rule.

Definition ruleset_ok (rs : Ruleset) : Prop :=
  Forall (fun r => Forall (fun d => ports_ok (ports d)) (rule_dst r)) rs.

Definition src_matches (s : SrcMatch) (info : PacketInfo) (cs : list string) : bool :=
  existsb (fun pfx => net_contains pfx (src info)) (pfxs s)
  || existsb (fun cap => existsb (fun c => bool_decide (c = cap)) (caps s)) cs.

Definition dst_matches (d : DstMatch) (info : PacketInfo) (port_mode : PortMode) : bool :=
  let port_ok :=
    match port_mode with
    | CheckPort => range_contains (ports d) (port info)
    | IpsOnly => true
    | IpsOnlyIfAllPorts => bool_decide (ports d = ALL_PORTS)
    end in
  port_ok && existsb (fun pfx => net_contains pfx (dst info)) (ips d).

Definition rule_matches (r : Rule) (info : PacketInfo) (cs : list string) : bool :=
  let port_mode := for_proto (ip_proto info) in
  bool_decide (ip_proto info ∈ protos r)
  && src_matches (rule_src r) info cs
  && existsb (fun d => dst_matches d info port_mode) (rule_dst r).

(** [IpNet::contains(&IpNet)], documented to test that every address of the
    argument belongs to the network. *)
Context (contains_net : IpNet -> IpNet -> bool).

Definition prefixes_overlap (a b : IpNet) : bool := contains_net a b || contains_net b a.

Definition permits_unlocked_nodes (rules : list Rule) (unlocked_allowed_ips : list IpNet) : bool :=
  if bool_decide (unlocked_allowed_ips = []) then false
  else existsb (fun rule =>
    negb (bool_decide (length (rule_dst rule) = 0)) &&
    existsb (fun s => existsb (fun allowed => prefixes_overlap s allowed) unlocked_allowed_ips)
      (pfxs (rule_src rule))) rules.
End Rules.
Arguments mkSrcMatch {_} _ _.
Arguments mkDstMatch {_} _ _.
Arguments mkRule {_} _ _ _.
Arguments Rule {_}.
Arguments Ruleset {_}.
Arguments DstMatch {_}.
Arguments SrcMatch {_}.

(** ** Filters *)

(** The trait [Filter]; [matches] is its provided method unless an
    implementation says otherwise.  A filter may panic. *)
Class Filter (F : Type) := {
  match_for : F -> PacketInfo -> list string -> outcome (option string);
  matches : F -> PacketInfo -> list string -> outcome bool;
  shields_up : F -> bool;
}.

Definition default_matches (r : outcome (option string)) : outcome bool :=
  x ← r; Ret (bool_decide (is_Some x)).

Inductive DropAllFilter := DropAll.

#[export] Instance drop_all_filter : Filter DropAllFilter := {
  match_for _ _ _ := Ret None;
  matches _ _ _ := default_matches (Ret None);
  shields_up _ := false;
}.

Record ShieldsUpFilter (F : Type) := mkShieldsUp { inner : F; self_addrs : list IpAddr }.
Arguments mkShieldsUp {F} _ _.
Arguments inner {F} _.
Arguments self_addrs {F} _.

Definition shields_up_match_for {F} `{!Filter F} (f : ShieldsUpFilter F) (info : PacketInfo)
    (cs : list string) : outcome (option string) :=
  if bool_decide (dst info ∈ self_addrs f) then Ret None else match_for (inner f) info cs.

#[export] Instance shields_up_filter {F} `{!Filter F} : Filter (ShieldsUpFilter F) := {
  match_for := shields_up_match_for;
  matches f info cs := default_matches (shields_up_match_for f info cs);
  shields_up _ := true;
}.

(** [CheckingFilter] answers with its first filter; the second one is
    consulted (and may panic) and a difference is logged. *)
Record CheckingFilter (P C : Type) := mkChecking { primary : P; checked : C }.
Arguments mkChecking {P C} _ _.
Arguments primary {P C} _.
Arguments checked {P C} _.

#[export] Instance checking_filter {P C} `{!Filter P, !Filter C} : Filter (CheckingFilter P C) := {
  match_for f info cs :=
    result ← match_for (primary f) info cs;
    _ ← match_for (checked f) info cs;
    Ret result;
  matches f info cs :=
    result ← matches (primary f) info cs;
    _ ← matches (checked f) info cs;
    Ret result;
  shields_up f := shields_up (primary f);
}.

(** Filters that answer on every typed packet. *)
Class FilterTotal (F : Type) `{!Filter F} := {
  filter_ok : F -> Prop;
  match_for_total f info cs : filter_ok f -> info_ok info -> exists o, match_for f info cs = Ret o;
  matches_total f info cs : filter_ok f -> info_ok info -> exists b, matches f info cs = Ret b;
}.

#[export, refine] Instance drop_all_total : FilterTotal DropAllFilter := {
  filter_ok _ := True;
}.
Proof. all: intros; by eexists. Defined.

#[export, refine] Instance shields_up_total {F} `{!Filter F, !FilterTotal F}
    : FilterTotal (ShieldsUpFilter F) := {
  filter_ok f := filter_ok (inner f);
}.
Proof.
  all: intros f info cs Hf Hi; destruct (match_for_total (inner f) info cs Hf Hi) as [o E];
    cbn [match_for matches shields_up_filter]; unfold shields_up_match_for; rewrite E;
    destruct (bool_decide _); by eexists.
Defined.

#[export, refine] Instance checking_total {P C} `{!Filter P, !FilterTotal P, !Filter C, !FilterTotal C}
    : FilterTotal (CheckingFilter P C) := {
  filter_ok f := filter_ok (primary f) /\ filter_ok (checked f);
}.
Proof.
  - intros f info cs [Hp Hc] Hi. cbn [match_for checking_filter].
    destruct (match_for_total (primary f) info cs Hp Hi) as [o ->].
    destruct (match_for_total (checked f) info cs Hc Hi) as [o' ->]. by eexists.
  - intros f info cs [Hp Hc] Hi. cbn [matches checking_filter].
    destruct (matches_total (primary f) info cs Hp Hi) as [o ->].
    destruct (matches_total (checked f) info cs Hc Hi) as [o' ->]. by eexists.
Defined.

(** ** Storage *)

Class FilterStorage `{!IpNetOps} (F : Type) := {
  insert_dyn : F -> string -> Ruleset -> outcome F;
  storage_remove : F -> string -> outcome F;
  storage_clear : F -> outcome F;
}.

#[export] Instance checking_storage `{!IpNetOps} {P C} `{!FilterStorage P, !FilterStorage C}
    : FilterStorage (CheckingFilter P C) := {
  insert_dyn f name rs :=
    p ← insert_dyn (primary f) name rs;
    c ← insert_dyn (checked f) name rs;
    Ret (mkChecking p c);
  storage_remove f name :=
    p ← storage_remove (primary f) name;
    c ← storage_remove (checked f) name;
    Ret (mkChecking p c);
  storage_clear f :=
    p ← storage_clear (primary f);
    c ← storage_clear (checked f);
    Ret (mkChecking p c);
}.

(** [BTreeFilter], [HashbrownFilter] and [HashMapFilter]. *)
Abbreviation MapFilter := (gmap string Ruleset).

Section MapFilter.
Context `{!IpNetOps}.

#[export] Instance map_storage : FilterStorage MapFilter := {
  insert_dyn m name rs := Ret (<[name := rs]> m);
  storage_remove m name := Ret (delete name m);
  storage_clear _ := Ret ∅;
}.

(** The order in which a map is iterated: the keys' for a [BTreeMap], an
    arbitrary one for a [HashMap]. *)
Class MapIter := {
  map_iter : MapFilter -> list (string * Ruleset);
  map_iter_perm m : map_iter m ≡ₚ map_to_list m;
}.

Fixpoint find_match (entries : list (string * Ruleset)) (info : PacketInfo) (cs : list string)
    : option string :=
  match entries with
  | [] => None
  | (name, rules) :: entries =>
      if existsb (fun rule => rule_matches rule info cs) rules then Some name
      else find_match entries info cs
  end.

Definition map_match_for `{!MapIter} (m : MapFilter) (info : PacketInfo) (cs : list string)
    : option string := find_match (map_iter m) info cs.

#[export] Instance map_filter `{!MapIter} : Filter MapFilter := {
  match_for m info cs := Ret (map_match_for m info cs);
  matches m info cs := default_matches (Ret (map_match_for m info cs));
  shields_up _ := false;
}.
End MapFilter.
Arguments MapIter {_}.

(** ** Updates from the control plane *)

Definition DEFAULT_RULESET_NAME : string := "base".
Definition CLEAR_MAP_KEY : string := "*".

Section Update.
Context `{!IpNetOps} {F : Type} `{!FilterStorage F}.

Definition is_clear_rule (kv : string * option Ruleset) : bool :=
  bool_decide (kv.1 = CLEAR_MAP_KEY) && match kv.2 with None => true | Some _ => false end.

Definition apply_entry (storage : F) (kv : string * option Ruleset) : outcome F :=
  match kv.2 with
  | None => storage_remove storage kv.1
  | Some [] => storage_remove storage kv.1
  | Some ruleset => insert_dyn storage kv.1 ruleset
  end.

Definition apply_update (storage : F) (packet_filter : option Ruleset) (clear_storage : bool)
    (packet_filters : list (string * option Ruleset)) : outcome F :=
  storage ← (if clear_storage then storage_clear storage
             else match packet_filter with
                  | Some ruleset => insert_dyn storage DEFAULT_RULESET_NAME ruleset
                  | None => Ret storage
                  end);
  mfoldl apply_entry storage (List.filter (fun kv => negb (is_clear_rule kv)) packet_filters).
End Update.

(** ** What a storage promises

    A storage represents the map from ruleset names to rulesets: the
    operations act on that map. *)
Class StorageLaws `{!IpNetOps} (F : Type) `{!FilterStorage F} := {
  storage_rel : F -> MapFilter -> Prop;
  insert_law f m name rs :
    storage_rel f m -> ruleset_ok rs ->
    exists f', insert_dyn f name rs = Ret f' /\ storage_rel f' (<[name := rs]> m);
  remove_law f m name :
    storage_rel f m -> exists f', storage_remove f name = Ret f' /\ storage_rel f' (delete name m);
  clear_law f m : storage_rel f m -> exists f', storage_clear f = Ret f' /\ storage_rel f' ∅;
}.

#[export, refine] Instance map_storage_laws `{!IpNetOps} : StorageLaws MapFilter := {
  storage_rel := eq;
}.
Proof. all: intros; subst; by eexists. Defined.

#[export, refine] Instance checking_storage_laws `{!IpNetOps} {P C}
    `{!FilterStorage P, !FilterStorage C, !StorageLaws P, !StorageLaws C}
    : StorageLaws (CheckingFilter P C) := {
  storage_rel f m := storage_rel (primary f) m /\ storage_rel (checked f) m;
}.
Proof.
  - intros f m name rs [Hp Hc] Hrs. destruct (insert_law _ _ name rs Hp Hrs) as (p & Ep & Hp').
    destruct (insert_law _ _ name rs Hc Hrs) as (c & Ec & Hc'). cbn. rewrite Ep. mrun.
    rewrite Ec. mrun. by eexists.
  - intros f m name [Hp Hc]. destruct (remove_law _ _ name Hp) as (p & Ep & Hp').
    destruct (remove_law _ _ name Hc) as (c & Ec & Hc'). cbn. rewrite Ep. mrun.
    rewrite Ec. mrun. by eexists.
  - intros f m [Hp Hc]. destruct (clear_law _ _ Hp) as (p & Ep & Hp').
    destruct (clear_law _ _ Hc) as (c & Ec & Hc'). cbn. rewrite Ep. mrun.
    rewrite Ec. mrun. by eexists.
Defined.

(** ** The map filter *)

Section MapFacts.
Context `{!IpNetOps}.
Implicit Types (m : MapFilter) (info : PacketInfo) (cs : list string).

(** Some rule of some ruleset matches. *)
Definition permitted m info cs : Prop :=
  exists name rs rule, m !! name = Some rs /\ rule ∈ rs /\ rule_matches rule info cs = true.

Lemma find_match_Some entries info cs name :
  find_match entries info cs = Some name ->
  exists rs rule, (name, rs) ∈ entries /\ rule ∈ rs /\ rule_matches rule info cs = true.
Proof.
  induction entries as [|[n rs] entries IH]; [done|]. cbn [find_match].
  destruct (existsb _ rs) eqn:E.
  - intros [= <-]. apply existsb_exists in E as (rule & Hin & Hm).
    exists rs, rule. split_and!; [by left|by apply list_elem_of_In|done].
  - intros Hf. destruct (IH Hf) as (rs' & rule & Hin & Hr). exists rs', rule. split; [by right|done].
Qed.

Lemma find_match_None entries info cs :
  find_match entries info cs = None ->
  forall name rs rule, (name, rs) ∈ entries -> rule ∈ rs -> rule_matches rule info cs = false.
Proof.
  induction entries as [|[n rs] entries IH]; cbn [find_match].
  - intros _ name rs rule Hin. by apply not_elem_of_nil in Hin.
  - destruct (existsb _ rs) eqn:E; [done|]. intros Hf name rs' rule Hin Hr.
    apply elem_of_cons in Hin as [[= -> ->]|Hin]; [|by eapply IH].
    apply not_true_iff_false. intros Hm. apply not_true_iff_false in E. apply E.
    apply existsb_exists. exists rule. split; [by apply list_elem_of_In|done].
Qed.

Lemma elem_of_map_iter `{!MapIter} m name rs : (name, rs) ∈ map_iter m <-> m !! name = Some rs.
Proof. rewrite map_iter_perm. apply (elem_of_map_to_list (M:=gmap string)). Qed.

Lemma map_match_for_spec `{!MapIter} m info cs :
  match map_match_for m info cs with
  | Some name => exists rs rule, m !! name = Some rs /\ rule ∈ rs /\ rule_matches rule info cs = true
  | None => ~ permitted m info cs
  end.
Proof.
  unfold map_match_for. destruct (find_match _ _ _) as [name|] eqn:E.
  - apply find_match_Some in E as (rs & rule & Hin & Hr). apply elem_of_map_iter in Hin. eauto.
  - intros (name & rs & rule & Hm & Hin & Hr). apply elem_of_map_iter in Hm.
    by rewrite (find_match_None _ _ _ E _ _ _ Hm Hin) in Hr.
Qed.

Lemma map_matches_spec `{!MapIter} m info cs :
  exists b, matches m info cs = Ret b /\ (b = true <-> permitted m info cs).
Proof.
  pose proof (map_match_for_spec m info cs) as Hs. cbn [matches map_filter].
  unfold default_matches. mrun. eexists; split; [done|]. rewrite bool_decide_eq_true.
  destruct (map_match_for m info cs) as [name|].
  - split; [|by eexists]. destruct Hs as (rs & rule & Hr). intros _. by exists name, rs, rule.
  - split; [by intros [? ?]|done].
Qed.
End MapFacts.

(** ** Updates refine the update of the map *)

Section UpdateSpec.
Context `{!IpNetOps} {F : Type} `{!FilterStorage F, !StorageLaws F}.

(** The rulesets of an update are well typed. *)
Definition entry_ok (kv : string * option Ruleset) : Prop :=
  match kv.2 with Some rs => ruleset_ok rs | None => True end.

Lemma apply_entry_refines f m kv :
  storage_rel f m -> entry_ok kv ->
  exists f' m', apply_entry f kv = Ret f' /\ apply_entry m kv = Ret m' /\ storage_rel f' m'.
Proof.
  intros Hf Hkv. unfold apply_entry, entry_ok in *. destruct (kv.2) as [[|r rs]|].
  1,3: destruct (remove_law f m kv.1 Hf) as (f' & E & Hf'); exists f', (delete kv.1 m); done.
  destruct (insert_law f m kv.1 (r :: rs) Hf Hkv) as (f' & E & Hf'). eexists _, _. done.
Qed.

Lemma apply_entries_refine kvs : forall f m,
  storage_rel f m -> Forall entry_ok kvs ->
  exists f' m', mfoldl apply_entry f kvs = Ret f' /\ mfoldl apply_entry m kvs = Ret m' /\
    storage_rel f' m'.
Proof.
  induction kvs as [|kv kvs IH]; intros f m Hf Hk; [by exists f, m|].
  apply Forall_cons in Hk as [Hkv Hk].
  destruct (apply_entry_refines f m kv Hf Hkv) as (f1 & m1 & E1 & E2 & Hf1).
  cbn [mfoldl]. rewrite E1, E2. mrun. by apply IH.
Qed.

Definition update_ok (pf : option Ruleset) (pfs : list (string * option Ruleset)) : Prop :=
  entry_ok (DEFAULT_RULESET_NAME, pf) /\ Forall entry_ok pfs.

Lemma apply_update_refines f m pf clear pfs :
  storage_rel f m -> update_ok pf pfs ->
  exists f' m', apply_update f pf clear pfs = Ret f' /\ apply_update m pf clear pfs = Ret m' /\
    storage_rel f' m'.
Proof.
  intros Hf [Hpf Hpfs]. unfold apply_update.
  assert (Forall entry_ok (List.filter (fun kv => negb (is_clear_rule kv)) pfs)) as Hfil.
  { apply Forall_forall. intros kv Hin%list_elem_of_In. apply filter_In in Hin as [Hin _].
    rewrite Forall_forall in Hpfs. by apply Hpfs, list_elem_of_In. }
  destruct clear; [|destruct pf as [rs|]].
  - destruct (clear_law f m Hf) as (f1 & -> & Hf1). mrun. by apply apply_entries_refine.
  - destruct (insert_law f m DEFAULT_RULESET_NAME rs Hf Hpf) as (f1 & -> & Hf1). mrun.
    by apply apply_entries_refine.
  - mrun. by apply apply_entries_refine.
Qed.
End UpdateSpec.

(** The ruleset an update leaves under a name: the last entry that names it
    (an empty ruleset is none), else what a cleared storage holds (nothing), else
    the new base ruleset, else the old one. *)
Definition live_ruleset `{!IpNetOps} (o : option Ruleset) : option Ruleset :=
  match o with Some [] => None | o => o end.

Fixpoint last_entry `{!IpNetOps} (name : string) (pfs : list (string * option Ruleset))
    : option (option Ruleset) :=
  match pfs with
  | [] => None
  | kv :: pfs =>
      match last_entry name pfs with
      | Some v => Some v
      | None => if bool_decide (kv.1 = name) && negb (is_clear_rule kv) then Some kv.2 else None
      end
  end.

Definition updated_ruleset `{!IpNetOps} (m : MapFilter) (pf : option Ruleset) (clear : bool)
    (pfs : list (string * option Ruleset)) (name : string) : option Ruleset :=
  match last_entry name pfs with
  | Some v => live_ruleset v
  | None =>
      if clear then None
      else if bool_decide (name = DEFAULT_RULESET_NAME)
      then match pf with Some rs => Some rs | None => m !! name end
      else m !! name
  end.

Section UpdateMap.
Context `{!IpNetOps}.

Lemma apply_entry_map (m : MapFilter) kv :
  exists m', apply_entry m kv = Ret m' /\
    forall name, m' !! name = if decide (kv.1 = name) then live_ruleset kv.2 else m !! name.
Proof.
  unfold apply_entry. destruct kv as [k [[|r rs]|]]; cbn [fst snd];
    (eexists; split; [done|]); intros name; case_decide as E; subst;
    rewrite ?lookup_insert_eq, ?lookup_delete_eq, ?lookup_insert_ne, ?lookup_delete_ne by done;
    done.
Qed.

Lemma apply_entries_map pfs : forall m : MapFilter,
  exists m', mfoldl apply_entry m (List.filter (fun kv => negb (is_clear_rule kv)) pfs) = Ret m' /\
    forall name, m' !! name =
      match last_entry name pfs with Some v => live_ruleset v | None => m !! name end.
Proof.
  induction pfs as [|kv pfs IH]; intros m; [by exists m|]. cbn [List.filter last_entry].
  destruct (is_clear_rule kv) eqn:Ec; cbn [negb].
  - destruct (IH m) as (m' & E & Hm'). exists m'. split; [done|]. intros name.
    rewrite Hm'. destruct (last_entry name pfs); [done|]. by rewrite andb_false_r.
  - destruct (apply_entry_map m kv) as (m1 & E1 & Hm1). destruct (IH m1) as (m' & E & Hm').
    exists m'. cbn [mfoldl]. rewrite E1. mrun. split; [done|]. intros name. rewrite Hm'.
    destruct (last_entry name pfs); [done|]. rewrite Hm1, andb_true_r.
    by case_decide; case_bool_decide.
Qed.

Lemma apply_update_map (m : MapFilter) pf clear pfs :
  exists m', apply_update m pf clear pfs = Ret m' /\
    forall name, m' !! name = updated_ruleset m pf clear pfs name.
Proof.
  unfold apply_update, updated_ruleset. destruct clear; [|destruct pf as [rs|]]; cbn; mrun.
  - destruct (apply_entries_map pfs ∅) as (m' & E & Hm'). exists m'. split; [done|]. intros name.
    rewrite Hm'. by destruct (last_entry name pfs).
  - destruct (apply_entries_map pfs (<[DEFAULT_RULESET_NAME := rs]> m)) as (m' & E & Hm').
    exists m'. split; [done|]. intros name. rewrite Hm'. destruct (last_entry name pfs); [done|].
    case_bool_decide; subst; by rewrite ?lookup_insert_eq, ?lookup_insert_ne by done.
  - destruct (apply_entries_map pfs m) as (m' & E & Hm'). exists m'. split; [done|]. intros name.
    rewrite Hm'. destruct (last_entry name pfs); [done|]. by case_bool_decide.
Qed.
End UpdateMap.

(** ** Unlocked nodes *)

Section Unlocked.
Context `{!IpNetOps, !IpNetLaws} (contains_net : IpNet -> IpNet -> bool).

(** [a.contains(&b)] of [ipnet]: [b] is a subnet of [a], of the same family,
    not shorter, and with the network bits of [a]. *)
Definition contains_net_law : Prop := forall a b,
  contains_net a b = true <->
  is_ipv4 (addr b) = is_ipv4 (addr a) /\ prefix_len a <= prefix_len b /\
  mask_octets (prefix_len a) (ip_octets (addr b)) = mask_octets (prefix_len a) (ip_octets (addr a)).

Lemma contains_own_addr n : net_contains n (addr n) = true.
Proof. apply net_contains_iff; [apply addr_ok|done]. Qed.

Lemma subnet_of_common a b ip :
  contains_net_law -> ip_ok ip -> net_contains a ip = true -> net_contains b ip = true ->
  prefix_len a <= prefix_len b -> contains_net a b = true.
Proof.
  intros Hlaw Hip Ha Hb Hlen. apply net_contains_iff in Ha as [Ha1 Ha2]; [|done].
  apply net_contains_iff in Hb as [Hb1 Hb2]; [|done].
  apply Hlaw. split_and!; [congruence|done|].
  by rewrite <- (mask_octets_min _ (prefix_len b)), <- Hb2, mask_octets_min.
Qed.

Lemma prefixes_overlap_iff a b :
  contains_net_law ->
  prefixes_overlap contains_net a b = true <->
  exists ip, ip_ok ip /\ net_contains a ip = true /\ net_contains b ip = true.
Proof.
  intros Hlaw. unfold prefixes_overlap. rewrite orb_true_iff. split.
  - assert (forall x y, contains_net x y = true -> net_contains x (addr y) = true) as Hsub.
    { intros x y (H1 & _ & H2)%Hlaw. apply net_contains_iff; [apply addr_ok|done]. }
    intros [Hc|Hc]; [exists (addr b)|exists (addr a)];
      (split_and!; [apply addr_ok|auto using contains_own_addr..]).
  - intros (ip & Hip & Ha & Hb). destruct (Nat.le_ge_cases (prefix_len a) (prefix_len b)).
    + left. by eapply subnet_of_common.
    + right. by eapply subnet_of_common.
Qed.
End Unlocked.

(** A set of rules is reported to permit unlocked nodes exactly when some
    rule with a destination accepts an address that is also within the
    allowed addresses of an unlocked node. *)
Theorem permits_unlocked_nodes_iff `{!IpNetOps, !IpNetLaws}
    (contains_net : IpNet -> IpNet -> bool) rules unlocked :
  contains_net_law contains_net ->
  permits_unlocked_nodes contains_net rules unlocked = true <->
  exists rule s allowed ip, rule ∈ rules /\ rule_dst rule <> [] /\
    s ∈ pfxs (rule_src rule) /\ allowed ∈ unlocked /\ ip_ok ip /\
    net_contains s ip = true /\ net_contains allowed ip = true.
Proof.
  intros Hlaw. unfold permits_unlocked_nodes. case_bool_decide as Hnil.
  { subst. split; [done|]. intros (? & ? & ? & ? & _ & _ & _ & Hin & _).
    by apply not_elem_of_nil in Hin. }
  rewrite existsb_exists. setoid_rewrite andb_true_iff. setoid_rewrite existsb_exists.
  setoid_rewrite existsb_exists. setoid_rewrite (prefixes_overlap_iff contains_net _ _ Hlaw).
  setoid_rewrite negb_true_iff. setoid_rewrite bool_decide_eq_false.
  setoid_rewrite length_zero_iff_nil. setoid_rewrite <- list_elem_of_In. naive_solver.
Qed.

(** An update leaves in every storage, under each name, the last ruleset the
    update gives it (an empty one meaning none); else nothing after a clear;
    else, for the base name, the update's main ruleset; else what was there. *)
Theorem apply_update_functional `{!IpNetOps} {F} `{!FilterStorage F, !StorageLaws F}
    (f : F) (m : MapFilter) pf clear pfs :
  storage_rel f m -> update_ok pf pfs ->
  exists f' m', apply_update f pf clear pfs = Ret f' /\ storage_rel f' m' /\
    forall name, m' !! name = updated_ruleset m pf clear pfs name.
Proof.
  intros Hf Hok. destruct (apply_update_refines f m pf clear pfs Hf Hok) as (f' & m' & E & Em & Hf').
  destruct (apply_update_map m pf clear pfs) as (m2 & Em2 & Hm). exists f', m'.
  split; [done|]. split; [done|]. intros name. assert (m' = m2) as -> by congruence. apply Hm.
Qed.

(** ** Examples *)

From S2P Require Import IpNetModel.

Definition c_contains_net (a b : CNet) : bool :=
  bool_decide (is_ipv4 (c_addr b) = is_ipv4 (c_addr a)) && bool_decide (c_len a <= c_len b) &&
  bool_decide (mask_octets (c_len a) (ip_octets (c_addr b))
               = mask_octets (c_len a) (ip_octets (c_addr a))).

Lemma c_contains_net_law : contains_net_law c_contains_net.
Proof. intros a b. unfold c_contains_net. rewrite !andb_true_iff, !bool_decide_eq_true. cbn. tauto. Qed.

Definition lan_rule : Rule :=
  mkRule (mkSrcMatch [net4 10 0 0 0 8 eq_refl] []) [TCP]
    [mkDstMatch (22, 22)%Z [net4 100 64 0 1 32 eq_refl]].

Definition unlocked_nets : list IpNet := [net4 10 1 2 3 32 eq_refl].

Lemma permits_unlocked_nodes_iff_witness :
  permits_unlocked_nodes c_contains_net [lan_rule] unlocked_nets = true <->
  exists rule s allowed ip, rule ∈ [lan_rule] /\ rule_dst rule <> [] /\
    s ∈ pfxs (rule_src rule) /\ allowed ∈ unlocked_nets /\ ip_ok ip /\
    net_contains s ip = true /\ net_contains allowed ip = true.
Proof.
  exact (permits_unlocked_nodes_iff c_contains_net [lan_rule] unlocked_nets c_contains_net_law).
Defined.

Lemma apply_update_functional_witness :
  exists (f' : MapFilter) (m' : MapFilter),
    apply_update (∅ : MapFilter) (Some [lan_rule]) false
      [("lan"%string, Some [lan_rule]); (CLEAR_MAP_KEY, None)] = Ret f' /\
    storage_rel f' m' /\
    forall name, m' !! name = updated_ruleset ∅ (Some [lan_rule]) false
      [("lan"%string, Some [lan_rule]); (CLEAR_MAP_KEY, None)] name.
Proof.
  apply (apply_update_functional (∅ : MapFilter) ∅); [done|].
  split; repeat constructor; cbn; lia.
Defined.
