(* ===== verification/FlowTrack.v ===== *)
(** * FlowTrack: the tracked outbound flows (src/ts_dataplane/src/flowtrack.rs)

    [FlowCache] remembers the reversed tuples of outbound UDP and SCTP
    packets: a map from tuples to recency stamps, and the tuples ordered by
    stamp.  The [HashMap] is a finite map, the [BTreeMap] an association list
    in ascending order of its keys, a stamp a [u64] that wraps.  The cache is
    shown to be a list of at most [LRU_MAX] tuples, most recently used first. *)

From stdpp Require Import gmap sorting countable.
From S2P Require Import Prelude IpNet PacketFilter Packet.

Local Open Scope Z_scope.

(** ** The model *)

Definition LRU_MAX : nat := 512.

Record Tuple := mkTuple { tup_proto : Z; tup_src : SocketAddr; tup_dst : SocketAddr }.

#[export] Instance SocketAddr_eq_dec : EqDecision SocketAddr.
Proof. solve_decision. Defined.

#[export] Instance Tuple_eq_dec : EqDecision Tuple.
Proof. solve_decision. Defined.

#[export, refine] Instance SocketAddr_countable : Countable SocketAddr :=
  inj_countable' (fun a => (sa_ip a, sa_port a)) (fun x => mkSocketAddr x.1 x.2) _.
Proof. by intros []. Defined.

#[export, refine] Instance Tuple_countable : Countable Tuple :=
  inj_countable' (fun t => (tup_proto t, tup_src t, tup_dst t))
    (fun x => mkTuple x.1.1 x.1.2 x.2) _.
Proof. by intros []. Defined.

Definition is_tracked (proto : Z) : bool :=
  bool_decide (proto = UDP) || bool_decide (proto = SCTP).

(** [BTreeMap<u64, Tuple>] *)
Fixpoint btree_insert (m : list (Z * Tuple)) (k : Z) (t : Tuple) : list (Z * Tuple) :=
  match m with
  | [] => [(k, t)]
  | (k', t') :: m' =>
      match k ?= k' with
      | Lt => (k, t) :: m
      | Eq => (k, t) :: m'
      | Gt => (k', t') :: btree_insert m' k t
      end
  end.

Definition btree_remove (m : list (Z * Tuple)) (k : Z) : list (Z * Tuple) :=
  filter (fun kt => kt.1 <> k) m.

Record FlowCache := mkFlowCache {
  by_tuple : gmap Tuple Z;
  by_recency : list (Z * Tuple);
  next_stamp : Z;
}.

Definition flow_default : FlowCache := mkFlowCache ∅ [] 0.

Definition bump (c : FlowCache) : Z * FlowCache :=
  (next_stamp c, mkFlowCache (by_tuple c) (by_recency c) ((next_stamp c + 1) mod 2 ^ 64)).

(** The eviction loop: each round removes an entry of the index, so as many
    rounds as it has entries suffice. *)
Fixpoint evict (fuel : nat) (c : FlowCache) : FlowCache :=
  match fuel with
  | O => c
  | S fuel =>
      if (LRU_MAX <? size (by_tuple c))%nat then
        match by_recency c with
        | [] => c
        | (_, evicted) :: rest =>
            evict fuel (mkFlowCache (delete evicted (by_tuple c)) rest (next_stamp c))
        end
      else c
  end.

Definition flow_add (c : FlowCache) (tuple : Tuple) : FlowCache :=
  let '(stamp, c) := bump c in
  let recency :=
    match by_tuple c !! tuple with
    | Some previous => btree_remove (by_recency c) previous
    | None => by_recency c
    end in
  let c := mkFlowCache (<[tuple := stamp]> (by_tuple c)) (btree_insert recency stamp tuple)
    (next_stamp c) in
  evict (length (by_recency c)) c.

Definition flow_get (c : FlowCache) (tuple : Tuple) : bool * FlowCache :=
  match by_tuple c !! tuple with
  | None => (false, c)
  | Some previous =>
      let '(stamp, c) := bump c in
      (true, mkFlowCache (<[tuple := stamp]> (by_tuple c))
        (btree_insert (btree_remove (by_recency c) previous) stamp tuple) (next_stamp c))
  end.

Definition record_outbound (c : FlowCache) (proto : Z) (src dst : SocketAddr) : FlowCache :=
  if negb (is_tracked proto) then c else flow_add c (mkTuple proto dst src).

Definition admits_inbound (c : FlowCache) (proto : Z) (src dst : SocketAddr) : bool * FlowCache :=
  if negb (is_tracked proto) then (false, c) else flow_get c (mkTuple proto src dst).

(** ** The abstract cache: tuples, most recently used first *)

Definition touch (t : Tuple) (l : list Tuple) : list Tuple := t :: filter (fun x => x <> t) l.

Record flow_rel (c : FlowCache) (l : list Tuple) : Prop := {
  fr_list : l = reverse (by_recency c).*2;
  fr_sorted : StronglySorted (fun x y => x.1 < y.1) (by_recency c);
  fr_stamps : forall k t, (k, t) ∈ by_recency c -> 0 <= k < next_stamp c;
  fr_map : forall t k, by_tuple c !! t = Some k <-> (k, t) ∈ by_recency c;
  fr_next : 0 <= next_stamp c;
}.

(** The distinct elements, by first occurrence. *)
Fixpoint uniq (h : list Tuple) : list Tuple :=
  match h with
  | [] => []
  | t :: h => touch t (uniq h)
  end.

Inductive flow_op :=
| Outbound (proto : Z) (src dst : SocketAddr)
| Inbound (proto : Z) (src dst : SocketAddr).

(** Run operations on the cache; an inbound packet has an answer. *)
Fixpoint run_flow (c : FlowCache) (ops : list flow_op) : list bool * FlowCache :=
  match ops with
  | [] => ([], c)
  | Outbound proto src dst :: ops => run_flow (record_outbound c proto src dst) ops
  | Inbound proto src dst :: ops =>
      let '(b, c) := admits_inbound c proto src dst in
      let '(bs, c) := run_flow c ops in
      (b :: bs, c)
  end.

(** The same on the history of the tuples used, latest first: a reply is
    admitted when its tuple is among the [LRU_MAX] latest distinct ones. *)
Definition recent (h : list Tuple) : list Tuple := take LRU_MAX (uniq h).

Fixpoint spec_flow (h : list Tuple) (ops : list flow_op) : list bool :=
  match ops with
  | [] => []
  | Outbound proto src dst :: ops =>
      spec_flow (if is_tracked proto then mkTuple proto dst src :: h else h) ops
  | Inbound proto src dst :: ops =>
      let t := mkTuple proto src dst in
      let b := is_tracked proto && bool_decide (t ∈ recent h) in
      b :: spec_flow (if b then t :: h else h) ops
  end.

(** ** The cache implements the list *)

Lemma uniq_NoDup h : NoDup (uniq h).
Proof.
  induction h as [|t h IH]; cbn; constructor.
  - rewrite list_elem_of_filter. naive_solver.
  - by apply NoDup_filter.
Qed.

Lemma elem_of_uniq t h : t ∈ uniq h <-> t ∈ h.
Proof.
  induction h as [|x h IH]; cbn; [done|].
  unfold touch. rewrite !elem_of_cons, list_elem_of_filter, IH.
  destruct (decide (t = x)); naive_solver.
Qed.

Lemma filter_id {A} (P : A -> Prop) `{!forall x, Decision (P x)} (l : list A) :
  (forall x, x ∈ l -> P x) -> filter P l = l.
Proof.
  induction l as [|x l IH]; intros Hl; [done|].
  rewrite filter_cons_True by (apply Hl; left). by rewrite IH by (intros; apply Hl; by right).
Qed.

Lemma filter_notin (t : Tuple) (l : list Tuple) : t ∉ l -> filter (fun x => x <> t) l = l.
Proof. intros Ht. apply filter_id. by intros x Hx ->. Qed.

Lemma take_filter_take (t : Tuple) n (l : list Tuple) :
  NoDup l ->
  take n (filter (fun x => x <> t) (take (S n) l)) = take n (filter (fun x => x <> t) l).
Proof.
  intros Hl. revert n. induction Hl as [|x l Hx Hl IH]; intros n; [done|]. cbn [take].
  rewrite !filter_cons. destruct (decide (x <> t)) as [Hne|Heq].
  - destruct n as [|n]; [done|]. cbn [take]. by rewrite IH.
  - assert (x = t) as -> by (by apply dec_stable).
    rewrite (filter_notin t l) by done.
    rewrite filter_notin by (intros (? & ?%list_elem_of_lookup_2 & ?)%elem_of_take; done). by rewrite take_take, Nat.min_id.
Qed.

Lemma recent_touch t h : recent (t :: h) = take LRU_MAX (touch t (recent h)).
Proof.
  unfold recent, touch, LRU_MAX. cbn [uniq]. unfold touch. cbn [take]. f_equal.
  symmetry. apply take_filter_take, uniq_NoDup.
Qed.

Lemma btree_insert_last m k t :
  (forall k' t', (k', t') ∈ m -> k' < k) -> btree_insert m k t = m ++ [(k, t)].
Proof.
  induction m as [|[k' t'] m IH]; intros Hm; cbn; [done|].
  rewrite (proj2 (Z.compare_gt_iff k k')) by (eapply Hm; left).
  f_equal. apply IH. intros k'' t'' ?. eapply Hm. by right.
Qed.

Lemma sorted_key_inj m k t t' :
  StronglySorted (fun x y : Z * Tuple => x.1 < y.1) m -> (k, t) ∈ m -> (k, t') ∈ m -> t = t'.
Proof.
  induction 1 as [|[k0 t0] m Hs IH Hall]; [by intros ?%elem_of_nil|].
  rewrite Forall_forall in Hall. rewrite !elem_of_cons.
  intros [[= -> ->]|H1] [[= ->]|H2]; [done| | |by apply IH].
  - apply Hall in H2. cbn in H2. lia.
  - apply Hall in H1. cbn in H1. lia.
Qed.

Lemma sorted_keys_NoDup m : StronglySorted (fun x y : Z * Tuple => x.1 < y.1) m -> NoDup m.
Proof.
  induction 1 as [|x m Hs IH Hall]; constructor; [|done].
  rewrite Forall_forall in Hall. intros Hx%Hall. lia.
Qed.

Lemma flow_size c l : flow_rel c l -> size (by_tuple c) = length l.
Proof.
  intros [-> Hs _ Hm _]. rewrite <- length_map_to_list, length_reverse, length_fmap.
  rewrite <- (length_fmap (fun tk => (tk.2, tk.1)) (map_to_list (by_tuple c))).
  apply Permutation_length, NoDup_Permutation.
  - apply NoDup_fmap_2; [|apply NoDup_map_to_list]. by intros [] [] [= -> ->].
  - by apply sorted_keys_NoDup.
  - intros [k t]. rewrite list_elem_of_fmap, <- Hm. split.
    + intros ([t' k'] & [= -> ->] & ?). by apply elem_of_map_to_list.
    + intros ?. exists (t, k). split; [done|]. by apply elem_of_map_to_list.
Qed.

Lemma flow_lookup c l t : flow_rel c l -> is_Some (by_tuple c !! t) <-> t ∈ l.
Proof.
  intros [-> _ _ Hm _]. rewrite elem_of_reverse, list_elem_of_fmap. split.
  - intros [k Hk%Hm]. by exists (k, t).
  - intros ([k t'] & -> & Hk). exists k. by apply Hm.
Qed.

Lemma flow_rel_default : flow_rel flow_default [].
Proof.
  split; cbn; [done|constructor| | |done].
  - by intros ?? ?%elem_of_nil.
  - intros t k. rewrite lookup_empty. split; [done|by intros ?%elem_of_nil].
Qed.

(** The entries without [t], as both operations drop them. *)
Definition kept (c : FlowCache) (t : Tuple) : list (Z * Tuple) :=
  match by_tuple c !! t with
  | Some previous => btree_remove (by_recency c) previous
  | None => by_recency c
  end.

Lemma kept_spec c l t : flow_rel c l -> kept c t = filter (fun kt => kt.2 <> t) (by_recency c).
Proof.
  intros [_ Hs _ Hm _]. unfold kept. destruct (by_tuple c !! t) as [k|] eqn:E.
  - apply Hm in E as Hk. apply filter_ext_in. intros [k' t'] Hin. cbn. split.
    + intros Hne ->. apply Hne. apply Hm in Hin. congruence.
    + intros Hne ->. apply Hne. by eapply sorted_key_inj.
  - symmetry. apply filter_id. intros [k t'] Hin E'. cbn in E'. subst t'.
    apply Hm in Hin. congruence.
Qed.

(** The entries of a cache on which [t] was used. *)
Definition used (c : FlowCache) (t : Tuple) : FlowCache :=
  mkFlowCache (<[t := next_stamp c]> (by_tuple c))
    (filter (fun kt => kt.2 <> t) (by_recency c) ++ [(next_stamp c, t)]) (next_stamp c + 1).

Lemma sorted_filter P `{!forall x, Decision (P x)} (m : list (Z * Tuple)) :
  StronglySorted (fun x y => x.1 < y.1) m -> StronglySorted (fun x y => x.1 < y.1) (filter P m).
Proof.
  induction 1 as [|x m Hs IH Hall]; [constructor|]. rewrite filter_cons.
  destruct (decide (P x)); [|done]. constructor; [done|].
  rewrite Forall_forall in *. intros y [_ Hy]%list_elem_of_filter. by apply Hall.
Qed.

Lemma used_rel c l t : flow_rel c l -> flow_rel (used c t) (touch t l).
Proof.
  intros [-> Hs Hk Hm Hn]. split; cbn [used by_recency by_tuple next_stamp].
  - rewrite fmap_app, reverse_app. change (reverse [(next_stamp c, t)].*2) with [t]. cbn [app].
    unfold touch. f_equal.
    by rewrite filter_reverse, filter_fmap_comm.
  - apply StronglySorted_app. split_and!; [|by apply sorted_filter|repeat constructor].
    intros [k1 t1] [k2 t2] [_ H1]%list_elem_of_filter [= -> ->]%list_elem_of_singleton. cbn.
    by eapply Hk.
  - intros k t'. rewrite elem_of_app, list_elem_of_filter, list_elem_of_singleton.
    intros [[_ Hin%Hk]|[= -> ->]]; lia.
  - intros t' k. rewrite elem_of_app, list_elem_of_filter, list_elem_of_singleton. cbn.
    destruct (decide (t' = t)) as [->|Hne].
    + rewrite lookup_insert_eq. naive_solver.
    + rewrite lookup_insert_ne, Hm by done. naive_solver.
  - lia.
Qed.

Lemma insert_kept c l t :
  flow_rel c l ->
  btree_insert (kept c t) (next_stamp c) t =
    filter (fun kt => kt.2 <> t) (by_recency c) ++ [(next_stamp c, t)].
Proof.
  intros Hc. rewrite (kept_spec c l) by done. apply btree_insert_last.
  intros k' t' [_ Hin]%list_elem_of_filter. apply (fr_stamps c l Hc) in Hin. lia.
Qed.

Lemma evict_rel fuel c l :
  flow_rel c l -> length (by_recency c) = fuel ->
  flow_rel (evict fuel c) (take LRU_MAX l) /\ next_stamp (evict fuel c) = next_stamp c.
Proof.
  revert c l. induction fuel as [|fuel IH]; intros c l Hc Hf.
  - cbn. split; [|done]. destruct c as [m [|] n]; [|done]. destruct Hc as [-> ? ? ? ?]. by split.
  - cbn [evict]. rewrite (flow_size c l) by done.
    destruct (Nat.ltb_spec LRU_MAX (length l)) as [Hlt|Hge];
      [|by rewrite take_ge by done].
    destruct c as [m [|[k t] rest] n]; [done|].
    cbn [by_recency by_tuple next_stamp length] in Hf |- *.
    destruct Hc as [-> Hs Hk Hm Hn]. cbn [by_recency by_tuple next_stamp] in *.
    rewrite fmap_cons, reverse_cons in *. cbn [snd] in *.
    assert (t ∉ rest.*2) as Ht.
    { intros ([k' t'] & -> & Hin)%list_elem_of_fmap. cbn in Hm.
      assert (m !! t' = Some k) as E1 by (apply Hm; left).
      assert (m !! t' = Some k') as E2 by (apply Hm; by right).
      apply StronglySorted_inv in Hs as [_ Hall]. rewrite Forall_forall in Hall.
      apply Hall in Hin. cbn in Hin. assert (k = k') by congruence. lia. }
    destruct (IH (mkFlowCache (delete t m) rest n) (reverse rest.*2)) as [Hr ->]; [|by injection Hf|].
    + split; cbn; [done|by apply StronglySorted_inv in Hs as [? _]| | |done].
      * intros k' t' ?. apply (Hk k' t'). by right.
      * intros t' k'. destruct (decide (t' = t)) as [->|Hne].
        -- rewrite lookup_delete_eq. split; [done|]. intros Hin. destruct Ht.
           apply list_elem_of_fmap. by exists (k', t).
        -- rewrite lookup_delete_ne, Hm, elem_of_cons by done. naive_solver.
    + split; [|done]. rewrite length_app in Hlt. cbn in Hlt. by rewrite take_app_le by lia.
Qed.

Lemma flow_add_rel c l t :
  flow_rel c l -> next_stamp c + 1 < 2 ^ 64 ->
  flow_rel (flow_add c t) (take LRU_MAX (touch t l)) /\
  next_stamp (flow_add c t) = next_stamp c + 1.
Proof.
  intros Hc Hn. pose proof (fr_next c l Hc).
  assert (flow_add c t = evict (length (by_recency (used c t))) (used c t)) as ->.
  { unfold flow_add, bump. cbn [by_tuple by_recency next_stamp]. fold (kept c t).
    rewrite (insert_kept c l t Hc), Z.mod_small by lia. done. }
  apply (evict_rel _ (used c t)); [by apply used_rel|done].
Qed.

Lemma flow_get_rel c l t :
  flow_rel c l -> next_stamp c + 1 < 2 ^ 64 ->
  exists c', flow_get c t = (bool_decide (t ∈ l), c') /\
    flow_rel c' (if bool_decide (t ∈ l) then touch t l else l) /\
    next_stamp c' <= next_stamp c + 1.
Proof.
  intros Hc Hn. pose proof (fr_next c l Hc). unfold flow_get.
  destruct (by_tuple c !! t) as [k|] eqn:E.
  - rewrite bool_decide_true by (apply (flow_lookup c); [done|by eexists]).
    exists (used c t). split; [|split; [by apply used_rel|cbn; lia]].
    pose proof (insert_kept c l t Hc) as Ei. unfold kept in Ei. rewrite E in Ei.
    unfold bump. cbn [by_tuple by_recency next_stamp]. rewrite Ei, Z.mod_small by lia. done.
  - rewrite bool_decide_false.
    + exists c. split_and!; [done..|lia].
    + intros Ht. apply (flow_lookup c) in Ht as [? ?]; [|done]. congruence.
Qed.

Lemma run_flow_spec ops c h :
  flow_rel c (recent h) -> next_stamp c + Z.of_nat (length ops) < 2 ^ 64 ->
  (run_flow c ops).1 = spec_flow h ops.
Proof.
  revert c h. induction ops as [|[proto src dst|proto src dst] ops IH]; intros c h Hc Hn;
    [done| |]; cbn [run_flow spec_flow length] in *.
  - unfold record_outbound. destruct (is_tracked proto); cbn [negb]; [|apply IH; [done|lia]].
    destruct (flow_add_rel c _ (mkTuple proto dst src) Hc) as [Ha En]; [lia|].
    apply IH; [by rewrite recent_touch|lia].
  - unfold admits_inbound. destruct (is_tracked proto); cbn [negb andb].
    + destruct (flow_get_rel c _ (mkTuple proto src dst) Hc) as (c' & -> & Hc' & En); [lia|].
      specialize (IH c' (if bool_decide (mkTuple proto src dst ∈ recent h)
        then mkTuple proto src dst :: h else h)).
      destruct (run_flow c' ops) as [bs c'']. cbn [fst] in *. f_equal. apply IH; [|lia].
      case_bool_decide; [|done]. rewrite recent_touch. rewrite take_ge; [done|].
      assert (length (recent h) <= LRU_MAX)%nat by (unfold recent; rewrite length_take; lia).
      unfold touch. cbn [length].
      pose proof (length_filter_lt (fun x => x <> mkTuple proto src dst) (recent h)
        (mkTuple proto src dst)) as Hlt. specialize (Hlt ltac:(done) ltac:(naive_solver)). lia.
    + specialize (IH c h Hc ltac:(lia)). destruct (run_flow c ops) as [bs c'']. cbn [fst] in *. by f_equal.
Qed.

(** ** Where tuples come from *)

Definition flow_known (c : FlowCache) (t : Tuple) : Prop := is_Some (by_tuple c !! t).

Lemma evict_known fuel c t : flow_known (evict fuel c) t -> flow_known c t.
Proof.
  revert c. induction fuel as [|fuel IH]; intros c; cbn [evict]; [done|].
  destruct (_ <? _)%nat; [|done]. destruct (by_recency c) as [|[k e] rest]; [done|].
  intros [x Hx]%IH. cbn in Hx. apply lookup_delete_Some in Hx as [_ Hx]. by exists x.
Qed.

(** Only outbound packets add tuples. *)
Lemma record_known c proto src dst t :
  flow_known (record_outbound c proto src dst) t ->
  flow_known c t \/ is_tracked proto = true /\ t = mkTuple proto dst src.
Proof.
  unfold record_outbound. destruct (is_tracked proto); cbn [negb]; [|by left].
  unfold flow_add. cbn. intros [x Hx]%evict_known. cbn in Hx.
  apply lookup_insert_Some in Hx as [[<- _]|[_ Hx]]; [by right|left; by exists x].
Qed.

Lemma admits_known c proto src dst b c' :
  admits_inbound c proto src dst = (b, c') ->
  (b = true <-> is_tracked proto = true /\ flow_known c (mkTuple proto src dst)) /\
  forall t, flow_known c' t -> flow_known c t.
Proof.
  unfold admits_inbound. destruct (is_tracked proto); cbn [negb]; [|intros [= <- <-]; naive_solver].
  unfold flow_get, flow_known. destruct (by_tuple c !! mkTuple proto src dst) as [k|] eqn:E.
  2: { intros [= <- <-]. split; [|done]. split; [done|]. by intros [_ [? [=]]]. }
  cbn. intros [= <- <-]. split; [split; [by eauto|done]|].
  intros t [x Hx]. cbn in Hx. apply lookup_insert_Some in Hx as [[<- _]|[_ Hx]]; by eexists.
Qed.

(** ** Properties *)

(** The history after some operations. *)
Fixpoint history (h : list Tuple) (ops : list flow_op) : list Tuple :=
  match ops with
  | [] => h
  | Outbound proto src dst :: ops =>
      history (if is_tracked proto then mkTuple proto dst src :: h else h) ops
  | Inbound proto src dst :: ops =>
      let t := mkTuple proto src dst in
      history (if is_tracked proto && bool_decide (t ∈ recent h) then t :: h else h) ops
  end.

Lemma spec_flow_app h ops ops' :
  spec_flow h (ops ++ ops') = spec_flow h ops ++ spec_flow (history h ops) ops'.
Proof.
  revert h. induction ops as [|[] ops IH]; intros h; cbn [spec_flow history app]; [done| |];
    by rewrite IH.
Qed.

Lemma history_app h ops ops' : history h (ops ++ ops') = history (history h ops) ops'.
Proof. revert h. induction ops as [|[] ops IH]; intros h; cbn [history app]; done. Qed.

Lemma history_grows h ops :
  exists new, history h ops = new ++ h /\ (length new <= length ops)%nat.
Proof.
  revert h. induction ops as [|op ops IH]; intros h; [by exists []|].
  destruct op; cbn [history length];
    (match goal with |- context [history (if ?b then _ else _) _] => destruct b end);
    (edestruct IH as (new & -> & Hlen)).
  1, 3: eexists (new ++ [_]); rewrite <- app_assoc, length_app; cbn; split; [done|lia].
  all: exists new; split; [done|lia].
Qed.

Lemma history_recorded h ops t :
  t ∈ history h ops ->
  t ∈ h \/ is_tracked (tup_proto t) = true /\ Outbound (tup_proto t) (tup_dst t) (tup_src t) ∈ ops.
Proof.
  revert h. induction ops as [|[proto src dst|proto src dst] ops IH]; intros h Ht;
    cbn [history] in Ht; [by left| |]; apply IH in Ht as [Ht|(? & ?)];
    try (right; split; [done|by right]).
  - destruct (is_tracked proto) eqn:Ep; [|by left]. apply elem_of_cons in Ht as [->|Ht]; [|by left].
    right. split; [done|left].
  - destruct (is_tracked proto && _) eqn:Ep; [|by left].
    apply elem_of_cons in Ht as [->|Ht]; [|by left]. left.
    apply andb_true_iff in Ep as [_ Ep]. apply bool_decide_eq_true in Ep.
    unfold recent in Ep. apply elem_of_take in Ep as (i & Ep%list_elem_of_lookup_2 & _).
    by apply elem_of_uniq.
Qed.

Lemma elem_of_take_filter P `{!forall x, Decision (P x)} (t : Tuple) n (l : list Tuple) :
  P t -> t ∈ take n l -> t ∈ take n (filter P l).
Proof.
  intros Ht. revert n. induction l as [|x l IH]; intros [|n]; cbn [take]; try done.
  rewrite elem_of_cons, filter_cons. intros [<-|Hin]; [rewrite decide_True by done; left|].
  destruct (decide (P x)); [right; by apply IH|].
  apply IH in Hin. apply elem_of_take in Hin as (i & Hi & Hlt). apply elem_of_take. exists i.
  split; [done|lia].
Qed.

Lemma uniq_index t new h : t ∈ take (S (length new)) (uniq (new ++ t :: h)).
Proof.
  induction new as [|x new IH]; [left|]. cbn [app uniq length]. unfold touch.
  destruct (decide (t = x)) as [->|Hne]; [left|]. cbn [take]. right.
  by apply elem_of_take_filter.
Qed.

(** C28: the cache of flows is a least-recently-used cache: on any sequence of
    outbound and inbound packets (fewer than [2 ^ 64]) it answers as the list
    of the 512 latest distinct tuples does. *)
Theorem flow_cache_lru ops :
  Z.of_nat (length ops) < 2 ^ 64 -> (run_flow flow_default ops).1 = spec_flow [] ops.
Proof. intros Hlen. apply run_flow_spec; [apply flow_rel_default|cbn; lia]. Qed.

(** An inbound packet is admitted as a reply only if an outbound packet of
    the reversed flow was recorded before, and always when that packet was
    recorded fewer than 512 packets ago. *)
Theorem flow_replies ops proto src dst :
  Z.of_nat (length ops) + 1 < 2 ^ 64 ->
  exists b, last (run_flow flow_default (ops ++ [Inbound proto src dst])).1 = Some b /\
    (b = true -> is_tracked proto = true /\ Outbound proto dst src ∈ ops) /\
    (forall before after, ops = before ++ Outbound proto dst src :: after ->
       is_tracked proto = true -> (length after < 512)%nat -> b = true).
Proof.
  intros Hlen. rewrite (run_flow_spec _ _ []); [|apply flow_rel_default|rewrite length_app; cbn; lia].
  rewrite spec_flow_app. cbn [spec_flow]. rewrite last_snoc. eexists. split; [reflexivity|]. split.
  - intros [Hp Hb]%andb_true_iff. apply bool_decide_eq_true in Hb. split; [done|].
    apply elem_of_take in Hb as (i & Hb%list_elem_of_lookup_2 & _).
    apply elem_of_uniq, history_recorded in Hb as [?%elem_of_nil|[_ ?]]; done.
  - intros before after -> Hp Hafter. rewrite Hp. apply bool_decide_eq_true.
    rewrite history_app. cbn [history]. rewrite Hp.
    destruct (history_grows (mkTuple proto src dst :: history [] before) after) as (new & -> & Hnew).
    pose proof (uniq_index (mkTuple proto src dst) new (history [] before)) as Hin.
    apply elem_of_take in Hin as (i & Hi & Hlt). apply elem_of_take. exists i. split; [done|].
    unfold LRU_MAX. lia.
Qed.

Definition flow_a : SocketAddr := mkSocketAddr (V4 [100; 64; 0; 1]) 40000.
Definition flow_b : SocketAddr := mkSocketAddr (V4 [100; 64; 0; 2]) 53.

Lemma flow_cache_lru_witness :
  (run_flow flow_default [Inbound UDP flow_b flow_a; Outbound UDP flow_a flow_b;
    Inbound UDP flow_b flow_a; Inbound TCP flow_b flow_a]).1 = [false; true; false].
Proof.
  rewrite flow_cache_lru by (cbn; lia). by vm_compute.
Defined.

Lemma flow_replies_witness :
  exists b, last (run_flow flow_default ([Outbound UDP flow_a flow_b] ++
      [Inbound UDP flow_b flow_a])).1 = Some b /\
    (b = true -> is_tracked UDP = true /\ Outbound UDP flow_a flow_b ∈ [Outbound UDP flow_a flow_b]) /\
    (forall before after, [Outbound UDP flow_a flow_b] = before ++ Outbound UDP flow_a flow_b :: after ->
       is_tracked UDP = true -> (length after < 512)%nat -> b = true).
Proof. apply flow_replies. cbn. lia. Defined.
