(* ===== verification/InboundFilter.v ===== *)
(** * InboundFilter: the packet filter stage of the data plane

    The per-packet functions of src/ts_dataplane/src/lib.rs: destinations that
    are dropped before the rules, the fragment decoders, the verdict on an
    inbound packet, TSMP messages that are consumed or sent, and the two tests
    on outbound packets.  The etherparse crate, which slices an IP packet into
    headers, is the interface [IpParser]; what is relied on of it is that the
    addresses it reports are those of the IP header and that ports are [u16]s.
    Tracing is left out. *)

From stdpp Require Import gmap strings.
From S2P Require Import Prelude IpNet Bytes Packet PacketFilter FlowTrack.

Local Open Scope Z_scope.

(** ** etherparse *)

Record Ipv4View := mkIpv4View {
  v4_src : list Z;
  v4_dst : list Z;
  (** [hdr.fragments_offset()] and [hdr.more_fragments()] *)
  v4_offset : Z;
  v4_more : bool;
  (** [ipv4.payload().ip_number] and [.payload] *)
  v4_number : Z;
  v4_payload : list Z;
}.

Inductive Ipv6Ext := ExtFragment | ExtOther.

Record Ipv6View := mkIpv6View {
  v6_src : list Z;
  v6_dst : list Z;
  v6_next_header : Z;
  v6_extensions : list Ipv6Ext;
  v6_payload : list Z;
}.

Inductive NetSlice := NetIpv4 (h : Ipv4View) | NetIpv6 (h : Ipv6View) | NetArp.

Inductive TransportSlice :=
| TrIcmpv4 (icmp_type icmp_code : Z)
| TrIcmpv6 (icmp_type icmp_code : Z)
| TrUdp (source_port destination_port : Z)
| TrTcp (header : list Z) (source_port destination_port : Z).

Record SlicedPacket := mkSlicedPacket {
  net : option NetSlice;
  transport : option TransportSlice;
}.

Class IpParser := {
  (** [SlicedPacket::from_ip] *)
  from_ip : list Z -> option SlicedPacket;
}.

Class IpParserLaws `{!IpParser} : Prop := {
  from_ip_v4 b pkt h : from_ip b = Some pkt -> net pkt = Some (NetIpv4 h) ->
    get_src_addr b = Some (V4 (v4_src h)) /\ get_dst_addr b = Some (V4 (v4_dst h));
  from_ip_v6 b pkt h : from_ip b = Some pkt -> net pkt = Some (NetIpv6 h) ->
    get_src_addr b = Some (V6 (v6_src h)) /\ get_dst_addr b = Some (V6 (v6_dst h));
  from_ip_payload4 b pkt h : bytes_ok b -> from_ip b = Some pkt -> net pkt = Some (NetIpv4 h) ->
    bytes_ok (v4_payload h);
  from_ip_payload6 b pkt h : bytes_ok b -> from_ip b = Some pkt -> net pkt = Some (NetIpv6 h) ->
    bytes_ok (v6_payload h);
  from_ip_udp b pkt s d : bytes_ok b -> from_ip b = Some pkt ->
    transport pkt = Some (TrUdp s d) -> u16_ok s /\ u16_ok d;
  from_ip_tcp b pkt h s d : bytes_ok b -> from_ip b = Some pkt ->
    transport pkt = Some (TrTcp h s d) -> u16_ok s /\ u16_ok d;
}.

(** ** Destinations dropped before the rules *)

(** [Ipv4Addr::is_multicast], [Ipv6Addr::is_multicast] *)
Definition is_multicast (ip : IpAddr) : bool :=
  match ip with
  | V4 os => match os with o :: _ => bool_decide (224 <= o <= 239) | [] => false end
  | V6 os => bool_decide (Z.land (be_val (take 2 os)) 0xff00 = 0xff00)
  end.

(** [Ipv4Addr::is_link_local] *)
Definition is_link_local (os : list Z) : bool := bool_decide (take 2 os = [169; 254]).

Definition ALLOWED_LINK_LOCAL_V4 : list Z := [169; 254; 169; 254].

Definition drop_before_rules (dst : IpAddr) : bool :=
  if is_multicast dst then true
  else
    match dst with
    | V4 os => is_link_local os && negb (bool_decide (os = ALLOWED_LINK_LOCAL_V4))
    | V6 os => bool_decide (Z.land (be_val (take 2 os)) 0xffc0 = 0xfe80)
    end.

(** ** Fragments *)

Record Ipv4Fragment := mkIpv4Fragment { offset_blocks : Z; more_fragments : bool }.

Definition MIN_FRAG_BLKS : Z := (60 + 20) / 8.
Definition IP6_FRAG_HEADER : Z := 44.
Definition IPPROTO_UNKNOWN : Z := 0.
Definition IPPROTO_TCP_BYTE : Z := 6.
Definition IPPROTO_FRAGMENT_SENTINEL : Z := 255.
Definition IP6_FRAG_HEADER_LEN : nat := 8.
Definition SCTP_HEADER_LEN : nat := 12.
Definition TCP_HEADER_LEN : nat := 20.
Definition UDP_HEADER_LEN : nat := 8.
Definition ICMP_HEADER_LEN : nat := 4.

Inductive Ipv6Fragment :=
| FragUnknown
| FragLater
| FragFirst (proto src_port dst_port : Z) (l4 : L4Header).

Inductive Fragment := FragV4 (f : Ipv4Fragment) | FragV6 (f : Ipv6Fragment).

(** The ports at the front of a transport header of at least [min_len] bytes. *)
Definition ported (sub : list Z) (min_len : nat) : outcome (option (Z * Z)) :=
  if (length sub <? min_len)%nat then Ret None
  else s ← be16 sub 0; d ← be16 sub 2; Ret (Some (s, d)).

Definition sctp_ports (sub : list Z) : outcome (option (Z * Z)) := ported sub SCTP_HEADER_LEN.

(** The flags byte of TCP, the type and code of an ICMP message of at least
    eight bytes. *)
Definition tcp_flags (sub : list Z) : L4Header :=
  match sub !! 13%nat with Some flags => Tcp flags | None => Unknown end.

Definition icmp_header (sub : list Z) : L4Header :=
  match sub !! 0%nat, sub !! 1%nat with
  | Some icmp_type, Some icmp_code =>
      if (8 <=? length sub)%nat then Icmp icmp_type icmp_code else Unknown
  | _, _ => Unknown
  end.

Definition decode6_first_fragment (proto : Z) (sub : list Z) : outcome Ipv6Fragment :=
  let first o l4 :=
    match o with Some (s, d) => FragFirst proto s d l4 | None => FragUnknown end in
  let portless (min_len : nat) l4 :=
    if (length sub <? min_len)%nat then FragUnknown else FragFirst proto 0 0 l4 in
  if decide (proto = ICMPV6) then Ret (portless ICMP_HEADER_LEN (icmp_header sub))
  else if decide (proto = TCP) then o ← ported sub TCP_HEADER_LEN; Ret (first o (tcp_flags sub))
  else if decide (proto = UDP) then o ← ported sub UDP_HEADER_LEN; Ret (first o Unknown)
  else if decide (proto = SCTP) then o ← ported sub SCTP_HEADER_LEN; Ret (first o Unknown)
  else if decide (proto = TSMP) then Ret (portless MIN_TSMP_SIZE Unknown)
  else if decide (proto = IPPROTO_FRAGMENT_SENTINEL) then Ret FragUnknown
  else Ret (FragFirst proto 0 0 Unknown).

Definition decode6_fragment (b : list Z) : outcome Ipv6Fragment :=
  if (length b <? IP6_HEADER_LEN)%nat then Ret FragUnknown
  else
    len16 ← be16 b 4;
    if (length b <? Z.to_nat len16 + IP6_HEADER_LEN)%nat then Ret FragUnknown
    else
      let frag := drop IP6_HEADER_LEN b in
      if (length frag <? IP6_FRAG_HEADER_LEN)%nat then Ret FragUnknown
      else
        next_header ← idx frag 0;
        word ← be16 frag 2;
        let frag_ofs := Z.shiftr word 3 in
        let sub := drop IP6_FRAG_HEADER_LEN frag in
        if decide (frag_ofs = 0) then decode6_first_fragment next_header sub
        else if decide (frag_ofs < MIN_FRAG_BLKS) then Ret FragUnknown
        else Ret FragLater.

Definition decode4_first_fragment (proto : Z) (sub : list Z)
    : outcome (option (Z * Z * L4Header)) :=
  let with_l4 l4 (o : option (Z * Z)) := (fun sd => (sd.1, sd.2, l4)) <$> o in
  if decide (proto = TCP) then
    o ← ported sub TCP_HEADER_LEN; Ret (with_l4 (tcp_flags sub) o)
  else if decide (proto = UDP) then o ← ported sub UDP_HEADER_LEN; Ret (with_l4 Unknown o)
  else if decide (proto = SCTP) then o ← sctp_ports sub; Ret (with_l4 Unknown o)
  else if decide (proto = ICMP) then
    Ret (if (length sub <? ICMP_HEADER_LEN)%nat then None else Some (0, 0, icmp_header sub))
  else if decide (proto = IPPROTO_FRAGMENT_SENTINEL) then Ret None
  else Ret (Some (0, 0, Unknown)).

Definition fragment_header_is_chained (h : Ipv6View) : bool :=
  existsb (fun ext => match ext with ExtFragment => true | ExtOther => false end) (v6_extensions h).

(** ** The verdict *)

Section Verdict.
Context {F : Type} `{!Filter F}.

Definition inbound_filter_verdict (filter : F) (flows : FlowCache) (proto : Z)
    (src dst : SocketAddr) (l4 : L4Header) (frag : option Fragment) : outcome (bool * FlowCache) :=
  if drop_before_rules (sa_ip dst) then Ret (false, flows)
  else
    let rules :=
      if decide (proto = IPPROTO_UNKNOWN) then Ret (false, flows)
      else if decide (proto = TSMP) then Ret (true, flows)
      else
        let '(reply, flows) := admits_inbound flows proto src dst in
        if (reply : bool) then Ret (true, flows)
        else
          let info := mkPacketInfo (sa_ip src) (sa_ip dst) proto (sa_port dst) l4 in
          if is_tcp_non_syn info then Ret (true, flows)
          else if is_icmp_echo_response info || is_icmp_error info then Ret (true, flows)
          else verdict ← matches filter info []; Ret (verdict, flows) in
    match frag with
    | Some (FragV4 frag) =>
        if decide (offset_blocks frag > 0) then
          Ret (negb (bool_decide (offset_blocks frag < MIN_FRAG_BLKS)), flows)
        else if bool_decide (proto = TSMP) && more_fragments frag then Ret (false, flows)
        else rules
    | Some (FragV6 FragUnknown) => Ret (false, flows)
    | Some (FragV6 FragLater) => Ret (true, flows)
    | Some (FragV6 (FragFirst _ _ _ _)) | None => rules
    end.
End Verdict.

(** ** Rejections *)

Record RejectConfig := mkRejectConfig { disabled : bool; rc_peerapi_port : option Z }.

Record InboundHarvest := mkHarvest {
  learned_disco_keys : list (Z * DiscoKeyAdvertisement);
  rejected_flows : list (Z * TailscaleRejectedHeader);
  rejects_to_send : list (Z * list Z);
}.

Definition harvest_default : InboundHarvest := mkHarvest [] [] [].

Definition tsmp_reject_for_drop (proto : Z) (src dst : SocketAddr) (l4 : L4Header)
    (shields_up : bool) (cfg : RejectConfig) : outcome (option (list Z)) :=
  if disabled cfg then Ret None
  else if negb (is_ipv4 (sa_ip src)) || negb (is_ipv4 (sa_ip dst)) then Ret None
  else if bool_decide (proto <> TCP) || negb (tcp_syn_flag_set l4) then Ret None
  else if bool_decide (rc_peerapi_port cfg = Some (sa_port dst)) then Ret None
  else
    r ← rejected_marshal (mkRejectedHeader (sa_ip dst) (sa_ip src) src dst IPPROTO_TCP_BYTE
          (if shields_up then REASON_SHIELDS_UP else REASON_ACLS) false);
    Ret (match r with inr p => Some p | inl _ => None end).

(** ** One inbound packet *)

(** What the closure of [filter_inbound_from_peer] reads from the headers. *)
Record NetInfo := mkNetInfo {
  ni_proto : Z;
  ni_src : IpAddr;
  ni_dst : IpAddr;
  ni_frag : option Fragment;
  ni_sub : list Z;
}.

Record Classified := mkClassified {
  cl_proto : Z;
  cl_src : SocketAddr;
  cl_dst : SocketAddr;
  cl_l4 : L4Header;
  cl_frag : option Fragment;
}.

Definition net_info (pkt : SlicedPacket) (bytes : list Z) : outcome (option NetInfo) :=
  match net pkt with
  | Some (NetIpv4 h) =>
      Ret (Some (mkNetInfo (v4_number h) (V4 (v4_src h)) (V4 (v4_dst h))
        (Some (FragV4 (mkIpv4Fragment (v4_offset h) (v4_more h)))) (v4_payload h)))
  | Some (NetIpv6 h) =>
      let base_proto :=
        if decide (v6_next_header h = IPPROTO_FRAGMENT_SENTINEL) then IPPROTO_UNKNOWN
        else v6_next_header h in
      frag ← (if decide (v6_next_header h = IP6_FRAG_HEADER) then
                f ← decode6_fragment bytes; Ret (Some f)
              else if fragment_header_is_chained h then Ret (Some FragUnknown)
              else Ret None);
      let proto :=
        match frag with
        | Some (FragFirst proto _ _ _) => proto
        | Some _ => IPPROTO_UNKNOWN
        | None => base_proto
        end in
      Ret (Some (mkNetInfo proto (V6 (v6_src h)) (V6 (v6_dst h)) (FragV6 <$> frag) (v6_payload h)))
  | _ => Ret None
  end.

(** The decoded first fragment of IPv4; the outer [None] drops the packet. *)
Definition v4_first_frag (ni : NetInfo) : outcome (option (option (Z * Z * L4Header))) :=
  match ni_frag ni with
  | Some (FragV4 f) =>
      if more_fragments f && bool_decide (offset_blocks f = 0) then
        o ← decode4_first_fragment (ni_proto ni) (ni_sub ni);
        Ret (match o with Some decoded => Some (Some decoded) | None => None end)
      else Ret (Some None)
  | _ => Ret (Some None)
  end.

Definition packet_l4 (pkt : SlicedPacket) (ni : NetInfo) (first : option (Z * Z * L4Header))
    : L4Header :=
  match ni_frag ni with
  | Some (FragV6 (FragFirst _ _ _ l4)) => l4
  | Some (FragV6 _) => Unknown
  | _ =>
      match first with
      | Some (_, _, l4) => l4
      | None =>
          match transport pkt with
          | Some (TrTcp header _ _) =>
              if decide (ni_proto ni = TCP) then tcp_flags header else Unknown
          | Some (TrIcmpv4 t c) => if decide (ni_proto ni = ICMP) then Icmp t c else Unknown
          | Some (TrIcmpv6 t c) => if decide (ni_proto ni = ICMPV6) then Icmp t c else Unknown
          | _ => Unknown
          end
      end
  end.

(** The ports; [None] drops the packet. *)
Definition packet_ports (pkt : SlicedPacket) (ni : NetInfo) (first : option (Z * Z * L4Header))
    : outcome (option (Z * Z)) :=
  let rest :=
    if decide (ni_proto ni = SCTP) then sctp_ports (ni_sub ni)
    else
      Ret (Some (match first, transport pkt with
        | Some (s, d, _), _ => (s, d)
        | None, Some (TrUdp s d) => (s, d)
        | None, Some (TrTcp _ s d) => (s, d)
        | None, _ => (0, 0)
        end)) in
  match ni_frag ni with
  | Some (FragV6 (FragFirst _ s d _)) => Ret (Some (s, d))
  | frag =>
      if negb (is_port_ful (ni_proto ni)) then Ret (Some (0, 0))
      else
        match frag with
        | Some (FragV4 f) => if decide (offset_blocks f > 0) then Ret (Some (0, 0)) else rest
        | _ => rest
        end
  end.

Section InboundPacket.
Context `{!IpParser} {F : Type} `{!Filter F}.

(** The part of the closure before TSMP is consumed; [None] drops the packet. *)
Definition classify (bytes : list Z) : outcome (option Classified) :=
  match from_ip bytes with
  | None => Ret None
  | Some pkt =>
      o ← net_info pkt bytes;
      match o with
      | None => Ret None
      | Some ni =>
          f ← v4_first_frag ni;
          match f with
          | None => Ret None
          | Some first =>
              p ← packet_ports pkt ni first;
              match p with
              | None => Ret None
              | Some (src_port, dst_port) =>
                  Ret (Some (mkClassified (ni_proto ni) (mkSocketAddr (ni_src ni) src_port)
                    (mkSocketAddr (ni_dst ni) dst_port) (packet_l4 pkt ni first) (ni_frag ni)))
              end
          end
      end
  end.

(** The closure: whether the packet is kept, the flows and the harvest. *)
Definition filter_packet (filter : F) (peer_id : Z) (reject_cfg : RejectConfig)
    (flows : FlowCache) (harvest : InboundHarvest) (bytes : list Z)
    : outcome (bool * FlowCache * InboundHarvest) :=
  o ← classify bytes;
  match o with
  | None => Ret (false, flows, harvest)
  | Some c =>
      advert ← (if decide (cl_proto c = TSMP) then advertisement_parse bytes else Ret None);
      match advert with
      | Some advert =>
          Ret (false, flows,
            if key_is_zero advert then harvest
            else mkHarvest (learned_disco_keys harvest ++ [(peer_id, advert)])
              (rejected_flows harvest) (rejects_to_send harvest))
      | None =>
          reject ← (if decide (cl_proto c = TSMP) then rejected_parse bytes else Ret None);
          let harvest :=
            match reject with
            | Some r => mkHarvest (learned_disco_keys harvest)
                (rejected_flows harvest ++ [(peer_id, r)]) (rejects_to_send harvest)
            | None => harvest
            end in
          if match reject with
             | Some r => bool_decide (reason r <> REASON_UNKNOWN_APP_CONNECTOR_TRANSIT_IP)
             | None => false
             end
          then Ret (false, flows, harvest)
          else
            '(verdict, flows) ← inbound_filter_verdict filter flows (cl_proto c) (cl_src c)
              (cl_dst c) (cl_l4 c) (cl_frag c);
            if (verdict : bool) then Ret (true, flows, harvest)
            else
              reject ← tsmp_reject_for_drop (cl_proto c) (cl_src c) (cl_dst c) (cl_l4 c)
                (shields_up filter) reject_cfg;
              Ret (false, flows,
                match reject with
                | Some r => mkHarvest (learned_disco_keys harvest) (rejected_flows harvest)
                    (rejects_to_send harvest ++ [(peer_id, r)])
                | None => harvest
                end)
      end
  end.

(** The [retain] over the packets of a peer. *)
Fixpoint filter_inbound_from_peer (filter : F) (peer_id : Z) (reject_cfg : RejectConfig)
    (flows : FlowCache) (harvest : InboundHarvest) (packets : list (list Z))
    : outcome (list (list Z) * FlowCache * InboundHarvest) :=
  match packets with
  | [] => Ret ([], flows, harvest)
  | p :: packets =>
      '(keep, flows, harvest) ← filter_packet filter peer_id reject_cfg flows harvest p;
      '(kept, flows, harvest) ← filter_inbound_from_peer filter peer_id reject_cfg flows harvest
        packets;
      Ret (if (keep : bool) then p :: kept else kept, flows, harvest)
  end.

(** ** Outbound packets *)

Definition outbound_packet_carries_tsmp (b : list Z) : outcome bool :=
  match b with
  | [] => Ret false
  | first :: _ =>
      if decide (Z.shiftr first 4 = 4) then
        if (IP4_HEADER_LEN <=? length b)%nat
        then proto ← idx b 9; Ret (bool_decide (proto = IP_PROTO_TSMP))
        else Ret false
      else if decide (Z.shiftr first 4 = 6) then
        if (length b <? IP6_HEADER_LEN)%nat then Ret false
        else
          next ← idx b 6;
          if decide (next = IP_PROTO_TSMP) then Ret true
          else if decide (next = IP6_FRAG_HEADER) then
            Ret (match b !! IP6_HEADER_LEN with
                 | Some next => bool_decide (next = IP_PROTO_TSMP)
                 | None => false
                 end)
          else Ret false
      else Ret false
  end.

(** The protocol, the addresses and, for a first fragment of IPv6, the ports. *)
Definition outbound_net (pkt : SlicedPacket) (b : list Z)
    : outcome (option (Z * IpAddr * IpAddr * option (Z * Z) * list Z)) :=
  match net pkt with
  | Some (NetIpv4 h) =>
      if decide (v4_offset h > 0) then Ret None
      else Ret (Some (v4_number h, V4 (v4_src h), V4 (v4_dst h), None, v4_payload h))
  | Some (NetIpv6 h) =>
      if decide (v6_next_header h = IP6_FRAG_HEADER) then
        f ← decode6_fragment b;
        match f with
        | FragFirst proto s d _ =>
            Ret (Some (proto, V6 (v6_src h), V6 (v6_dst h), Some (s, d), v6_payload h))
        | _ => Ret None
        end
      else Ret (Some (v6_next_header h, V6 (v6_src h), V6 (v6_dst h), None, v6_payload h))
  | _ => Ret None
  end.

Definition flow_ports (proto : Z) (frag_ports : option (Z * Z)) (sub : list Z)
    : outcome (option (Z * Z)) :=
  match frag_ports with
  | Some ports => Ret (if is_tracked proto then Some ports else None)
  | None =>
      if decide (proto = UDP) then ported sub UDP_HEADER_LEN
      else if decide (proto = SCTP) then sctp_ports sub
      else Ret None
  end.

Definition outbound_udp_or_sctp_flow (b : list Z)
    : outcome (option (Z * SocketAddr * SocketAddr)) :=
  match from_ip b with
  | None => Ret None
  | Some pkt =>
      o ← outbound_net pkt b;
      match o with
      | None => Ret None
      | Some (proto, src_ip, dst_ip, frag_ports, sub) =>
          ports ← flow_ports proto frag_ports sub;
          Ret (match ports with
               | Some (s, d) => Some (proto, mkSocketAddr src_ip s, mkSocketAddr dst_ip d)
               | None => None
               end)
      end
  end.
End InboundPacket.

(** ** The decoders return *)

Ltac u8 := unfold u8_ok in *; lia.

Lemma be16_ok b i x : bytes_ok b -> be16 b i = Ret x -> u16_ok x.
Proof.
  unfold be16. intros Hb E. destruct (idx b i) as [y|] eqn:Ey; [|done].
  destruct (idx b (S i)) as [z|] eqn:Ez; [|done]. cbn in E. injection E as <-.
  apply idx_Ret in Ey, Ez. rewrite be_val_2.
  pose proof (proj1 (Forall_lookup _ _) Hb _ _ Ey). pose proof (proj1 (Forall_lookup _ _) Hb _ _ Ez).
  unfold u16_ok. u8.
Qed.

Lemma ported_total sub n :
  (4 <= n)%nat -> bytes_ok sub ->
  exists o, ported sub n = Ret o /\ forall s d, o = Some (s, d) -> u16_ok s /\ u16_ok d.
Proof.
  intros Hn Hsub. unfold ported. destruct (Nat.ltb_spec (length sub) n) as [|Hlen];
    [by eexists|].
  destruct (be16_Ret sub 0) as [s Es]; [lia|]. destruct (be16_Ret sub 2) as [d Ed]; [lia|].
  rewrite Es, Ed. eexists. split; [reflexivity|]. intros ?? [= <- <-].
  split; by eapply be16_ok.
Qed.

Definition ports_typed (f : Ipv6Fragment) : Prop :=
  match f with FragFirst _ s d _ => u16_ok s /\ u16_ok d | _ => True end.

Lemma u16_0 : u16_ok 0.
Proof. unfold u16_ok. lia. Qed.
Hint Resolve u16_0 : rust.

Ltac port_step :=
  lazymatch goal with
  | |- context [ported ?sub ?n] =>
      let o := fresh "o" in let Ho := fresh "Ho" in
      destruct (ported_total sub n) as (o & -> & Ho);
        [unfold TCP_HEADER_LEN, UDP_HEADER_LEN, SCTP_HEADER_LEN; lia|done|];
      cbn [mbind outcome_bind]; destruct o as [[? ?]|]; [specialize (Ho _ _ eq_refl)|clear Ho]
  end.

Lemma decode6_first_total proto sub :
  bytes_ok sub -> exists f, decode6_first_fragment proto sub = Ret f /\ ports_typed f.
Proof.
  intros Hsub. unfold decode6_first_fragment.
  repeat case_decide; try port_step; eexists; (split; [reflexivity|]); cbn; auto with rust;
    destruct (_ <=? _)%nat; cbn; auto with rust.
Qed.

Lemma decode6_total b : bytes_ok b -> exists f, decode6_fragment b = Ret f /\ ports_typed f.
Proof.
  intros Hb. unfold decode6_fragment, IP6_HEADER_LEN, IP6_FRAG_HEADER_LEN.
  destruct (Nat.ltb_spec (length b) 40); [by eexists|].
  destruct (be16_Ret b 4) as [l ->]; [lia|]. cbn [mbind outcome_bind].
  destruct (_ <? _)%nat; [by eexists|].
  destruct (Nat.ltb_spec (length (drop 40 b)) 8); [by eexists|].
  destruct (idx_lt (drop 40 b) 0) as [nh ->]; [lia|].
  destruct (be16_Ret (drop 40 b) 2) as [w ->]; [lia|]. cbn [mbind outcome_bind].
  case_decide; [apply decode6_first_total; auto with rust|]. case_decide; by eexists.
Qed.

Lemma decode4_total proto sub :
  bytes_ok sub ->
  exists o, decode4_first_fragment proto sub = Ret o /\
    forall s d l4, o = Some (s, d, l4) -> u16_ok s /\ u16_ok d.
Proof.
  intros Hsub. unfold decode4_first_fragment, sctp_ports.
  repeat case_decide; try port_step; eexists; (split; [reflexivity|]); cbn;
    try (destruct (_ <=? _)%nat); intros ??? [=]; subst; auto with rust.
Qed.

(** ** What a classified packet is *)

Record classified_ok (c : Classified) : Prop := {
  co_src : ip_ok (sa_ip (cl_src c));
  co_dst : ip_ok (sa_ip (cl_dst c));
  co_sport : u16_ok (sa_port (cl_src c));
  co_dport : u16_ok (sa_port (cl_dst c));
}.

Section Classify.
Context `{!IpParser, !IpParserLaws}.

Lemma net_info_spec b pkt :
  bytes_ok b -> from_ip b = Some pkt ->
  exists o, net_info pkt b = Ret o /\
    forall ni, o = Some ni ->
      get_src_addr b = Some (ni_src ni) /\ get_dst_addr b = Some (ni_dst ni) /\
      bytes_ok (ni_sub ni) /\
      match ni_frag ni with Some (FragV6 f) => ports_typed f | _ => True end.
Proof.
  intros Hb Hp. unfold net_info. destruct (net pkt) as [[h|h|]|] eqn:En; try by eexists.
  - eexists. split; [reflexivity|]. intros ni [= <-].
    destruct (from_ip_v4 b pkt h Hp En) as [? ?]. split_and!; [done..|by eapply from_ip_payload4|done].
  - destruct (from_ip_v6 b pkt h Hp En) as [? ?].
    assert (bytes_ok (v6_payload h)) by (by eapply from_ip_payload6).
    destruct (decide (v6_next_header h = IP6_FRAG_HEADER)).
    + destruct (decode6_total b Hb) as (f & -> & Hf). eexists. split; [reflexivity|].
      intros ni [= <-]. by split_and!.
    + destruct (fragment_header_is_chained h); eexists; (split; [reflexivity|]); intros ni [= <-];
        by split_and!.
Qed.

Lemma first_frag_spec ni :
  bytes_ok (ni_sub ni) ->
  exists o, v4_first_frag ni = Ret o /\
    forall s d l4, o = Some (Some (s, d, l4)) -> u16_ok s /\ u16_ok d.
Proof.
  intros Hsub. unfold v4_first_frag. destruct (ni_frag ni) as [[f|f]|]; try by eexists.
  destruct (_ && _); [|by eexists].
  destruct (decode4_total (ni_proto ni) (ni_sub ni) Hsub) as (o & -> & Ho). cbn.
  eexists. split; [reflexivity|]. destruct o as [[[s' d'] l4']|]; [|done].
  intros s d l4 [= -> -> ->]. by eapply Ho.
Qed.

Lemma packet_ports_spec b pkt ni first :
  bytes_ok b -> from_ip b = Some pkt -> bytes_ok (ni_sub ni) ->
  match ni_frag ni with Some (FragV6 f) => ports_typed f | _ => True end ->
  (forall s d l4, first = Some (s, d, l4) -> u16_ok s /\ u16_ok d) ->
  exists o, packet_ports pkt ni first = Ret o /\
    forall s d, o = Some (s, d) -> u16_ok s /\ u16_ok d.
Proof.
  intros Hb Hp Hsub Hf Hfirst. unfold packet_ports. set (rest := if decide _ then _ else _).
  assert (exists o, rest = Ret o /\ forall s d, o = Some (s, d) -> u16_ok s /\ u16_ok d) as Hrest.
  { unfold rest. case_decide; [apply ported_total; [unfold SCTP_HEADER_LEN; lia|done]|].
    eexists. split; [reflexivity|]. intros s d [= E].
    destruct first as [[[s' d'] l4]|]; [injection E as <- <-; by eapply Hfirst|].
    destruct (transport pkt) as [[| | |]|] eqn:Et; injection E as <- <-; auto with rust.
    - exact (from_ip_udp b pkt _ _ Hb Hp Et).
    - exact (from_ip_tcp b pkt _ _ _ Hb Hp Et). }
  assert (exists o, Ret (Some (0, 0)) = Ret (A:=option (Z * Z)) o /\
    forall s d, o = Some (s, d) -> u16_ok s /\ u16_ok d) as Hzero.
  { eexists. split; [reflexivity|]. intros ?? [= <- <-]. auto with rust. }
  clearbody rest. destruct (ni_frag ni) as [[f|[| |p s d l4]]|].
  1: destruct (negb _); [done|]; by case_decide.
  1, 2, 4: by destruct (negb _).
  eexists. split; [reflexivity|]. by intros ?? [= <- <-].
Qed.

(** Classification returns, and reports the addresses of the packet. *)
Lemma classify_spec b :
  bytes_ok b ->
  exists o, classify b = Ret o /\ forall c, o = Some c ->
    classified_ok c /\ get_src_addr b = Some (sa_ip (cl_src c)) /\
    get_dst_addr b = Some (sa_ip (cl_dst c)).
Proof.
  intros Hb. unfold classify. destruct (from_ip b) as [pkt|] eqn:Hp; [|by eexists].
  destruct (net_info_spec b pkt Hb Hp) as ([ni|] & -> & Hni); [|by eexists]. cbn [mbind outcome_bind].
  destruct (Hni ni eq_refl) as (Hs & Hd & Hsub & Hf).
  destruct (first_frag_spec ni Hsub) as ([first|] & -> & Hfirst); [|by eexists].
  cbn [mbind outcome_bind].
  destruct (packet_ports_spec b pkt ni first Hb Hp Hsub Hf) as ([[s d]|] & -> & Hports);
    [intros ??? ->; by eapply Hfirst|cbn [mbind outcome_bind]|by eexists].
  eexists. split; [reflexivity|]. intros c [= <-]. destruct (Hports s d eq_refl).
  split; [|done]. split; [exact (get_src_addr_ok b _ Hb Hs)|exact (get_dst_addr_ok b _ Hb Hd)|done..].
Qed.
End Classify.

(** ** What the filter stage lets through *)

Section Stage.
Context `{!IpParser, !IpParserLaws} {F : Type} `{!Filter F, !FilterTotal F}.

Definition info_of (c : Classified) : PacketInfo :=
  mkPacketInfo (sa_ip (cl_src c)) (sa_ip (cl_dst c)) (cl_proto c) (sa_port (cl_dst c)) (cl_l4 c).

Definition tuple_of (c : Classified) : Tuple := mkTuple (cl_proto c) (cl_src c) (cl_dst c).

(** A packet that is not a later fragment; [known] are the tracked flows. *)
Definition rules_admit (f : F) (known : Tuple -> Prop) (c : Classified) : Prop :=
  cl_proto c <> IPPROTO_UNKNOWN /\
  (cl_proto c = TSMP \/
   is_tracked (cl_proto c) = true /\ known (tuple_of c) \/
   is_tcp_non_syn (info_of c) = true \/
   is_icmp_echo_response (info_of c) = true \/ is_icmp_error (info_of c) = true \/
   matches f (info_of c) [] = Ret true).

Definition admissible (f : F) (known : Tuple -> Prop) (c : Classified) : Prop :=
  drop_before_rules (sa_ip (cl_dst c)) = false /\
  match cl_frag c with
  | Some (FragV4 frag) =>
      if decide (offset_blocks frag > 0) then MIN_FRAG_BLKS <= offset_blocks frag
      else ~ (cl_proto c = TSMP /\ more_fragments frag = true) /\ rules_admit f known c
  | Some (FragV6 FragUnknown) => False
  | Some (FragV6 FragLater) => True
  | _ => rules_admit f known c
  end.

Lemma admissible_mono f (known known' : Tuple -> Prop) c :
  (forall t, known t -> known' t) -> admissible f known c -> admissible f known' c.
Proof.
  intros Hsub [Hd Hc]. split; [done|].
  assert (rules_admit f known c -> rules_admit f known' c) as Hr.
  { intros [Hu [|[[? ?]|]]]; (split; [done|]); auto. }
  destruct (cl_frag c) as [[frag|[| |]]|]; [|done|done|auto|auto].
  case_decide; [done|]. destruct Hc. auto.
Qed.

Lemma info_of_ok c : classified_ok c -> info_ok (info_of c).
Proof. intros []. done. Qed.

Lemma verdict_spec f flows c :
  filter_ok f -> classified_ok c ->
  exists v flows', inbound_filter_verdict f flows (cl_proto c) (cl_src c) (cl_dst c) (cl_l4 c)
      (cl_frag c) = Ret (v, flows') /\
    (v = true <-> admissible f (flow_known flows) c) /\
    forall t, flow_known flows' t -> flow_known flows t.
Proof.
  intros Hf Hc. unfold inbound_filter_verdict, admissible.
  destruct (drop_before_rules _); [exists false, flows; naive_solver|].
  set (rules := if decide _ then _ else _).
  assert (exists v flows', rules = Ret (v, flows') /\ (v = true <-> rules_admit f (flow_known flows) c) /\
    forall t, flow_known flows' t -> flow_known flows t) as (v & flows' & Er & Hv & Hk).
  { subst rules. unfold rules_admit. case_decide as Hu; [exists false, flows; naive_solver|].
    case_decide as Ht; [exists true, flows; naive_solver|].
    destruct (admits_inbound _ _ _ _) as [reply flows'] eqn:Ea.
    pose proof (admits_known _ _ _ _ _ _ Ea) as [Hr Hk]. fold (tuple_of c) in Hr.
    fold (info_of c). destruct reply; [exists true, flows'; naive_solver|].
    assert (~ (is_tracked (cl_proto c) = true /\ flow_known flows (tuple_of c))) as Hnr
      by (intros ?%Hr; done).
    destruct (is_tcp_non_syn _) eqn:E1; [exists true, flows'; naive_solver|].
    destruct (is_icmp_echo_response _ || is_icmp_error _) eqn:E2.
    { apply orb_true_iff in E2. exists true, flows'. split; [done|]. split; [|done].
      split; [|done]. intros _. split; [done|]. tauto. }
    apply orb_false_iff in E2 as [E2 E3].
    destruct (matches_total f (info_of c) [] Hf (info_of_ok c Hc)) as [v Ev]. rewrite Ev.
    exists v, flows'. split; [done|]. split; [|done]. split.
    - intros ->. auto 10.
    - intros [_ Ho]. destruct_or! Ho; try done; congruence. }
  destruct (cl_frag c) as [[frag|[| |]]|].
  - case_decide as Hoff.
    + exists (negb (bool_decide (offset_blocks frag < MIN_FRAG_BLKS))), flows.
      split; [done|]. split; [|done]. case_bool_decide; cbn; (split; [|try done]); intros; by try lia.
    + destruct (decide (cl_proto c = TSMP /\ more_fragments frag = true)) as [[E1 E2]|Hn].
      * rewrite bool_decide_true, E2 by done. exists false, flows. naive_solver.
      * assert (bool_decide (cl_proto c = TSMP) && more_fragments frag = false) as ->.
        { case_bool_decide; [|done]. cbn. destruct (more_fragments frag); naive_solver. }
        exists v, flows'. naive_solver.
  - exists false, flows. naive_solver.
  - exists true, flows. naive_solver.
  - exists v, flows'. naive_solver.
  - exists v, flows'. naive_solver.
Qed.

(** A TSMP message that the stage takes for itself. *)
Definition consumed (c : Classified) (p : list Z) : Prop :=
  cl_proto c = TSMP /\
  ((exists a, advertisement_parse p = Ret (Some a)) \/
   exists r, rejected_parse p = Ret (Some r) /\ reason r <> REASON_UNKNOWN_APP_CONNECTOR_TRANSIT_IP).

(** A packet that may be delivered. *)
Definition allowed (f : F) (known : Tuple -> Prop) (p : list Z) : Prop :=
  exists c, classify p = Ret (Some c) /\ admissible f known c /\ ~ consumed c p.

(** Drops that the sender is told of. *)
Definition answerable (cfg : RejectConfig) (c : Classified) : Prop :=
  disabled cfg = false /\ is_ipv4 (sa_ip (cl_src c)) = true /\ is_ipv4 (sa_ip (cl_dst c)) = true /\
  cl_proto c = TCP /\ tcp_syn_flag_set (cl_l4 c) = true /\
  rc_peerapi_port cfg <> Some (sa_port (cl_dst c)).

Definition tells (up : bool) (c : Classified) (r : list Z) : Prop :=
  rejected_parse r = Ret (Some (mkRejectedHeader (sa_ip (cl_dst c)) (sa_ip (cl_src c))
    (cl_src c) (cl_dst c) IPPROTO_TCP_BYTE (if up then REASON_SHIELDS_UP else REASON_ACLS) false)).

(** [r] tells the sender of the dropped packet [p] that its connection was
    refused. *)
Definition refuses (f : F) (known : Tuple -> Prop) (cfg : RejectConfig) (p r : list Z) : Prop :=
  exists c, classify p = Ret (Some c) /\ ~ admissible f known c /\ answerable cfg c /\
    tells (shields_up f) c r.

Lemma reject_spec c up cfg :
  classified_ok c ->
  exists o, tsmp_reject_for_drop (cl_proto c) (cl_src c) (cl_dst c) (cl_l4 c) up cfg = Ret o /\
    match o with
    | Some r => answerable cfg c /\ (length r <= 48)%nat /\ tells up c r
    | None => ~ answerable cfg c
    end.
Proof.
  intros [Hs Hd Hsp Hdp]. unfold tsmp_reject_for_drop, answerable. set (h := mkRejectedHeader _ _ _ _ _ _ _).
  destruct (disabled cfg); [exists None; by split; [|intros [? _]]|].
  destruct (is_ipv4 (sa_ip (cl_src c))) eqn:E4; [|exists None; by split; [|intros (_ & ? & _)]].
  destruct (is_ipv4 (sa_ip (cl_dst c))) eqn:E5; [|exists None; by split; [|intros (_ & _ & ? & _)]].
  cbn [negb orb]. case_bool_decide as E6; [exists None; by split; [|intros (_ & _ & _ & ? & _)]|].
  destruct (tcp_syn_flag_set _); [|exists None; by split; [|intros (_ & _ & _ & _ & ? & _)]].
  cbn [negb orb]. case_bool_decide as E8; [exists None; by split; [|intros (_ & _ & _ & _ & _ & [])]|].
  destruct (rejected_marshal_parse h) as (p & -> & Hp & _ & Hlen).
  { split; cbn; [done|done| |done|done|by destruct up]. unfold same_family. congruence. }
  exists (Some p). split; [done|]. specialize (Hp []). by rewrite app_nil_r in Hp.
Qed.

Lemma consumed_spec c p :
  exists oa orj, (if decide (cl_proto c = TSMP) then advertisement_parse p else Ret None) = Ret oa /\
    (if decide (cl_proto c = TSMP) then rejected_parse p else Ret None) = Ret orj /\
    (consumed c p <-> is_Some oa \/
      exists r, orj = Some r /\ reason r <> REASON_UNKNOWN_APP_CONNECTOR_TRANSIT_IP).
Proof.
  destruct (advertisement_parse_total p) as [oa Ea]. destruct (rejected_parse_total p) as [or Er].
  unfold consumed. case_decide as Ht.
  - exists oa, or. split; [done|]. split; [done|]. rewrite Ea, Er. split.
    + intros [_ [[a [= ->]]|(r & [= ->] & Hr)]]; [left; by eexists|right; by exists r].
    + intros [[a ->]|(r & -> & Hr)]; (split; [done|]); [left; by eexists|right; by exists r].
  - exists None, None. split; [done|]. split; [done|]. split; [by intros [? _]|].
    intros [[? [=]]|(r & [=] & _)].
Qed.

(** One packet: what is kept, what is answered. *)
Lemma filter_packet_spec f peer cfg flows h p :
  filter_ok f -> bytes_ok p ->
  exists keep flows' h', filter_packet f peer cfg flows h p = Ret (keep, flows', h') /\
    (keep = true <-> allowed f (flow_known flows) p) /\
    (forall t, flow_known flows' t -> flow_known flows t) /\
    (rejects_to_send h' = rejects_to_send h /\ (forall r, ~ refuses f (flow_known flows) cfg p r) \/
     exists r, rejects_to_send h' = rejects_to_send h ++ [(peer, r)] /\
       (length r <= 48)%nat /\ refuses f (flow_known flows) cfg p r).
Proof.
  intros Hf Hp. unfold filter_packet, allowed, refuses. destruct (classify_spec p Hp) as ([c|] & Ec & Hc).
  2: { rewrite Ec. exists false, flows, h. split; [done|]. split; [by split; [|intros (? & [=] & _)]|].
       split; [done|]. left. split; [done|]. by intros r (? & [=] & _). }
  rewrite Ec. cbn [mbind outcome_bind]. destruct (Hc c eq_refl) as (Hok & _ & _).
  destruct (consumed_spec c p) as (oa & orj & Ea & Er & Hcons). rewrite Ea, Er. cbn [mbind outcome_bind].
  assert (consumed c p -> forall r, ~ exists c0, Ret (Some c) = Ret (Some c0) /\
    ~ admissible f (flow_known flows) c0 /\ answerable cfg c0 /\ tells (shields_up f) c0 r) as Hquiet.
  { intros [Ht _] r (c0 & [= <-] & _ & (_ & _ & _ & Htcp & _) & _). by rewrite Ht in Htcp. }
  assert (consumed c p -> (false = true <-> exists c0, Ret (Some c) = Ret (Some c0) /\
    admissible f (flow_known flows) c0 /\ ~ consumed c0 p)) as Hdrop.
  { intros Hco. split; [done|]. by intros (c0 & [= <-] & _ & []). }
  destruct oa as [adv|].
  { assert (consumed c p) as Hco by (apply Hcons; left; by eexists).
    eexists false, flows, _. split; [reflexivity|]. split; [by apply Hdrop|]. split; [done|]. left.
    split; [by destruct (key_is_zero adv)|]. by apply Hquiet. }
  set (h1 := match orj with Some _ => mkHarvest _ _ _ | None => _ end).
  assert (rejects_to_send h1 = rejects_to_send h) as Eh1 by (by destruct orj).
  clearbody h1. destruct (match orj with Some _ => _ | None => _ end) eqn:Eo.
  { assert (consumed c p) as Hco.
    { apply Hcons. destruct orj as [r|]; [|done]. right. exists r. by apply bool_decide_eq_true in Eo. }
    exists false, flows, h1. split; [done|]. split; [by apply Hdrop|]. split; [done|]. left.
    split; [done|]. by apply Hquiet. }
  assert (~ consumed c p) as Hnc.
  { intros [[? [=]]|(r & -> & Hr)]%Hcons. by apply bool_decide_eq_false in Eo. }
  destruct (verdict_spec f flows c Hf Hok) as (v & flows' & -> & Hv & Hk). cbn [mbind outcome_bind].
  destruct v.
  - exists true, flows', h1. split; [done|]. split; [|split; [done|left]].
    + split; [|done]. intros _. exists c. by split_and!; [|apply Hv|].
    + split; [done|]. intros r (c0 & [= <-] & Hn & _). by apply Hn, Hv.
  - destruct (reject_spec c (shields_up f) cfg Hok) as (o & -> & Ho). cbn [mbind outcome_bind].
    assert (~ admissible f (flow_known flows) c) as Hna by (by intros ?%Hv).
    eexists false, flows', _. split; [reflexivity|]. split; [|split; [done|]].
    + split; [done|]. by intros (c0 & [= <-] & ? & _).
    + destruct o as [r|]; [right|left].
      * destruct Ho as (Hans & Hl & Htell). exists r. cbn [rejects_to_send]. rewrite Eh1.
        split; [done|]. split; [done|]. by exists c.
      * split; [done|]. by intros r (c0 & [= <-] & _ & Hans & _).
Qed.

Lemma filter_inbound_spec f peer cfg flows h packets :
  filter_ok f -> Forall bytes_ok packets ->
  exists kept flows' h', filter_inbound_from_peer f peer cfg flows h packets =
      Ret (kept, flows', h') /\
    kept `sublist_of` packets /\ Forall (allowed f (flow_known flows)) kept /\
    (forall t, flow_known flows' t -> flow_known flows t) /\
    exists new, rejects_to_send h' = rejects_to_send h ++ new /\ (length new <= length packets)%nat /\
      Forall (fun pr => pr.1 = peer /\ (length pr.2 <= 48)%nat /\
        exists p flows', p ∈ packets /\ (forall t, flow_known flows' t -> flow_known flows t) /\
          refuses f (flow_known flows') cfg p pr.2) new.
Proof.
  intros Hf Hp. revert flows h. induction Hp as [|p packets Hb _ IH]; intros flows h.
  { exists [], flows, h. cbn. split_and!; [done|done|constructor|done|]. exists [].
    rewrite app_nil_r. split; [done|]. split; [done|constructor]. }
  destruct (filter_packet_spec f peer cfg flows h p Hf Hb) as (keep & flows1 & h1 & E1 & Hk & Hm & Hr).
  destruct (IH flows1 h1) as (kept & flows2 & h2 & E2 & Hsub & Hall & Hm2 & new & En & Hlen & Hnew).
  cbn [filter_inbound_from_peer]. rewrite E1. cbn [mbind outcome_bind]. rewrite E2.
  cbn [mbind outcome_bind]. eexists _, flows2, h2. split; [reflexivity|].
  assert (Forall (allowed f (flow_known flows)) kept) as Hall'.
  { eapply Forall_impl; [exact Hall|]. intros q (c & Hc & Ha & Ht). exists c.
    split_and!; [done| |done]. by eapply admissible_mono. }
  split_and!.
  - destruct keep; [by apply sublist_skip|by apply sublist_cons].
  - destruct keep; [constructor; [by apply Hk|done]|done].
  - auto.
  - assert (Forall (fun pr => pr.1 = peer /\ (length pr.2 <= 48)%nat /\
        exists q flows', q ∈ p :: packets /\ (forall t, flow_known flows' t -> flow_known flows t) /\
          refuses f (flow_known flows') cfg q pr.2) new) as Hnew'.
    { eapply Forall_impl; [exact Hnew|]. intros pr (? & ? & q & fl & Hq & Hfl & ?).
      split_and!; [done|done|]. exists q, fl. split_and!; [by right|auto|done]. }
    destruct Hr as [[Er _]|(r & Er & Hlr & Href)].
    + exists new. rewrite En, Er. split_and!; [done|cbn; lia|done].
    + exists ((peer, r) :: new). rewrite En, Er, <- app_assoc. split_and!; [done|cbn; lia|].
      constructor; [|done]. cbn. split_and!; [done|done|]. exists p, flows. split_and!; [left|done|done].
Qed.
End Stage.

(** ** Outbound packets *)

Lemma carries_tsmp_total b : exists r, outbound_packet_carries_tsmp b = Ret r.
Proof.
  destruct b as [|b0 b]; [by eexists|]. unfold outbound_packet_carries_tsmp.
  set (l := b0 :: b). unfold IP4_HEADER_LEN, IP6_HEADER_LEN.
  case_decide; [destruct (Nat.leb_spec 20 (length l)); [|by eexists]
    |case_decide; [destruct (Nat.ltb_spec (length l) 40); [by eexists|]|by eexists]].
  - destruct (idx_lt l 9) as [x ->]; [lia|]. by eexists.
  - destruct (idx_lt l 6) as [x ->]; [lia|]. cbn. repeat case_decide; by eexists.
Qed.

(** Whatever a TSMP reader takes for a message is recognized. *)
Lemma tsmp_body_carries b x : tsmp_body b = Ret (Some x) -> outbound_packet_carries_tsmp b = Ret true.
Proof.
  destruct b as [|b0 b]; [done|]. unfold tsmp_body, outbound_packet_carries_tsmp.
  set (l := b0 :: b). case_decide as H4.
  - unfold tsmp_body4. destruct (Nat.ltb_spec (length l) IP4_HEADER_LEN) as [|Hlen]; [done|].
    rewrite (proj2 (Nat.leb_le _ _) Hlen).
    destruct (idx l 9) as [proto|]; [|done]. cbn [mbind outcome_bind]. case_decide as Hp; [done|].
    by rewrite Hp.
  - case_decide as H6; [|done]. unfold tsmp_body6.
    destruct (Nat.ltb_spec (length l) IP6_HEADER_LEN) as [|Hlen]; [done|].
    destruct (idx l 6) as [proto|]; [|done]. cbn [mbind outcome_bind]. case_decide as Hp; [done|].
    by rewrite Hp, decide_True.
Qed.

Lemma outbound_flow_total `{!IpParser, !IpParserLaws} b :
  bytes_ok b -> exists o, outbound_udp_or_sctp_flow b = Ret o.
Proof.
  intros Hb. unfold outbound_udp_or_sctp_flow. destruct (from_ip b) as [pkt|] eqn:Hp; [|by eexists].
  assert (exists o, outbound_net pkt b = Ret o /\
    forall proto s d fp sub, o = Some (proto, s, d, fp, sub) -> bytes_ok sub) as (o & -> & Ho).
  { unfold outbound_net. destruct (net pkt) as [[h|h|]|] eqn:En; try by eexists.
    - case_decide; [by eexists|]. eexists. split; [reflexivity|]. intros ????? [= _ _ _ _ <-].
      by eapply from_ip_payload4.
    - assert (bytes_ok (v6_payload h)) by (by eapply from_ip_payload6). case_decide.
      + destruct (decode6_total b Hb) as (f & -> & _). cbn. destruct f; try by eexists.
        eexists. split; [reflexivity|]. by intros ????? [= _ _ _ _ <-].
      + eexists. split; [reflexivity|]. by intros ????? [= _ _ _ _ <-]. }
  cbn [mbind outcome_bind]. destruct o as [[[[[proto s] d] fp] sub]|]; [|by eexists].
  specialize (Ho _ _ _ _ _ eq_refl). unfold flow_ports, sctp_ports.
  destruct fp as [ports|]; [by eexists|]. repeat case_decide; try port_step; by eexists.
Qed.

(** C17: The filter stage on one inbound packet.  It returns on any bytes.  The
    packet is kept exactly when its headers are readable, its destination is
    neither multicast nor link-local, its fragment can be judged, the packet is
    a reply to a tracked flow, a packet of an open connection or one that the
    filter admits, and it is no TSMP message meant for the stage.  A dropped
    packet is answered exactly when it opens an IPv4 TCP connection, except to
    the peer API or when answers are disabled, and the answer decodes to the
    refusal of that connection.  No flow becomes known by inbound packets. *)
Theorem filter_stage_exact `{!IpParser, !IpParserLaws} {F} `{!Filter F, !FilterTotal F}
    (f : F) peer cfg flows h p :
  filter_ok f -> bytes_ok p ->
  exists keep flows' h', filter_packet f peer cfg flows h p = Ret (keep, flows', h') /\
    (keep = true <-> allowed f (flow_known flows) p) /\
    (forall t, flow_known flows' t -> flow_known flows t) /\
    (rejects_to_send h' = rejects_to_send h /\ (forall r, ~ refuses f (flow_known flows) cfg p r) \/
     exists r, rejects_to_send h' = rejects_to_send h ++ [(peer, r)] /\
       (length r <= 48)%nat /\ refuses f (flow_known flows) cfg p r).
Proof. apply filter_packet_spec. Qed.

(** ** A parser

    For IPv4 headers without options; enough of [from_ip] to evaluate the
    stage on examples. *)
Module MiniParser.

Definition ports (number : Z) (payload : list Z) : option TransportSlice :=
  match be16 payload 0, be16 payload 2 with
  | Ret s, Ret d =>
      if decide (number = UDP) then Some (TrUdp s d)
      else if decide (number = TCP) then Some (TrTcp payload s d) else None
  | _, _ => None
  end.

Definition slice_ip4 (b : list Z) : option SlicedPacket :=
  match get_src_addr b, get_dst_addr b, b !! 9%nat with
  | Some (V4 s), Some (V4 d), Some number =>
      Some (mkSlicedPacket (Some (NetIpv4 (mkIpv4View s d 0 false number (drop 20 b))))
        (ports number (drop 20 b)))
  | _, _, _ => None
  end.

#[export] Instance mini_parser : IpParser := {| from_ip := slice_ip4 |}.

Lemma slice_inv b pkt :
  from_ip b = Some pkt ->
  exists s d n, get_src_addr b = Some (V4 s) /\ get_dst_addr b = Some (V4 d) /\
    pkt = mkSlicedPacket (Some (NetIpv4 (mkIpv4View s d 0 false n (drop 20 b)))) (ports n (drop 20 b)).
Proof.
  cbn. unfold slice_ip4. destruct (get_src_addr b) as [[s|s]|], (get_dst_addr b) as [[d|d]|]; try done;
    (destruct (b !! 9%nat) as [n|]; [|done]). intros [= <-]. by exists s, d, n.
Qed.

Lemma ports_ok n payload tr :
  bytes_ok payload -> ports n payload = Some tr ->
  match tr with TrUdp s d | TrTcp _ s d => u16_ok s /\ u16_ok d | _ => True end.
Proof.
  intros Hb. unfold ports. destruct (be16 payload 0) eqn:E0; [|done].
  destruct (be16 payload 2) eqn:E2; [|done].
  repeat case_decide; intros [= <-]; split; by eapply be16_ok.
Qed.

#[export] Instance mini_laws : IpParserLaws.
Proof.
  split.
  - intros b pkt h (s & d & n & Hs & Hd & ->)%slice_inv [= <-]. done.
  - by intros b pkt h (s & d & n & Hs & Hd & ->)%slice_inv [=].
  - intros b pkt h Hb (s & d & n & Hs & Hd & ->)%slice_inv [= <-]. by apply bytes_ok_drop.
  - by intros b pkt h Hb (s & d & n & Hs & Hd & ->)%slice_inv [=].
  - intros b pkt p q Hb (s & d & n & Hs & Hd & ->)%slice_inv E.
    exact (ports_ok n (drop 20 b) _ (bytes_ok_drop _ _ Hb) E).
  - intros b pkt h p q Hb (s & d & n & Hs & Hd & ->)%slice_inv E.
    exact (ports_ok n (drop 20 b) _ (bytes_ok_drop _ _ Hb) E).
Qed.
End MiniParser.

(** The headers of a packet between two hosts of 100.64.0.0/24. *)
Definition demo_ip4 (number from to : Z) (payload : list Z) : list Z :=
  [69; 0; 0; 20 + Z.of_nat (length payload); 0; 0; 0; 0; 64; number; 0; 0;
   100; 64; 0; from; 100; 64; 0; to] ++ payload.

(** A TCP packet with the SYN flag, to port 22. *)
Definition demo_syn : list Z :=
  demo_ip4 TCP 2 1 [156; 64; 0; 22; 0; 0; 0; 0; 0; 0; 0; 0; 80; 2; 0; 0; 0; 0; 0; 0].

Import MiniParser.

Lemma demo_syn_answered :
  match filter_packet DropAll 1 (mkRejectConfig false None) flow_default harvest_default demo_syn with
  | Ret (false, _, h) => length (rejects_to_send h) = 1%nat
  | _ => False
  end.
Proof. by vm_compute. Qed.

Lemma filter_stage_exact_witness :
  exists keep flows' h',
    filter_packet DropAll 1 (mkRejectConfig false None) flow_default harvest_default demo_syn
      = Ret (keep, flows', h') /\
    (keep = true <-> allowed DropAll (flow_known flow_default) demo_syn) /\
    (forall t, flow_known flows' t -> flow_known flow_default t) /\
    (rejects_to_send h' = rejects_to_send harvest_default /\
       (forall r, ~ refuses DropAll (flow_known flow_default) (mkRejectConfig false None) demo_syn r) \/
     exists r, rejects_to_send h' = rejects_to_send harvest_default ++ [(1, r)] /\
       (length r <= 48)%nat /\
       refuses DropAll (flow_known flow_default) (mkRejectConfig false None) demo_syn r).
Proof.
  apply filter_stage_exact; [done|]. by apply bytes_ok_eval.
Defined.
