(* ===== verification/PortTrie.v ===== *)
(** * PortTrie: values attached to ranges of ports

    Models src/ts_bart_packetfilter/src/port_trie: the decomposition of an
    inclusive range of ports into aligned blocks (port_prefix.rs) and the
    two-level trie that stores one value per block (mod.rs).

    A [u16] is a [Z]; the ranges are pairs of ends.  The first level keeps the
    blocks of at most 7 bits by base index of the upper octet, a child per
    upper octet those of 8 to 15 bits, and a map the single ports.  The
    decomposition runs with fuel: a range has at most 32 blocks. *)

From stdpp Require Import gmap sorting.
From S2P Require Import Prelude Bitset Array256 Bytes BaseIndex IpTrie TrieRemove PacketFilter.

Local Open Scope Z_scope.

(** ** port_prefix.rs *)

Inductive PortPrefix :=
| PPrefix (idx : Z)
| PChild (hi lo_pfx : Z)
| PSingleton (port : Z).

#[global] Instance PortPrefix_eq_dec : EqDecision PortPrefix.
Proof. solve_decision. Defined.

(** [PortTrie::port_byte] and [Child::port_byte]. *)
Definition port_byte_hi (port : Z) : Z := Z.shiftr port 8.
Definition port_byte_lo (port : Z) : Z := Z.land port 255.

Definition from_pfx (port pfx : Z) : outcome PortPrefix :=
  if decide (pfx = 16) then Ret (PSingleton port)
  else if decide (pfx < 8) then idx ← from_prefix (port_byte_hi port) pfx; Ret (PPrefix idx)
  else lo_pfx ← from_prefix (port_byte_lo port) (pfx - 8); Ret (PChild (port_byte_hi port) lo_pfx).

Definition prefix_form (p : PortPrefix) : Z * Z :=
  match p with
  | PSingleton port => (port, 16)
  | PChild hi lo_pfx => let '(lo_addr, lo_len) := prefix lo_pfx in (hi * 256 + lo_addr, 8 + lo_len)
  | PPrefix idx => let '(addr, len) := prefix idx in (addr * 256, len)
  end.

Definition pstart (p : PortPrefix) : Z := (prefix_form p).1.

Definition pend (p : PortPrefix) : Z :=
  let '(addr, len) := prefix_form p in
  if decide (len = 0) then 65535
  else
    let range := Z.shiftr 32768 (len - 1) in
    Z.min 65535 (addr + (range - 1)).

Definition to_range (p : PortPrefix) : Z * Z := (pstart p, pend p).

(** [u16::trailing_zeros] and [16 - u16::leading_zeros]. *)
Definition trailing_zeros16 (x : Z) : Z :=
  if decide (x = 0) then 16 else Z.of_nat (trailing_zeros64 x).
Definition bit_len16 (x : Z) : Z := Z.of_nat (bit_len64 x).

(** One call of [PortPrefixIter::next] on the pair of its fields. *)
Definition port_next (it : Z * Z) : outcome (option PortPrefix * (Z * Z)) :=
  let '(start, end_) := it in
  match start ?= end_ with
  | Lt =>
      let range := Z.min 65535 (Z.max 0 (end_ - start) + 1) in
      if decide (range = 65535) then p ← from_pfx 0 0; Ret (Some p, (1, 0))
      else
        let range_bits := Z.max 0 (bit_len16 range - 1) in
        let start_tz := trailing_zeros16 start in
        let new_prefix_len := 16 - Z.min range_bits start_tz in
        ret ← from_pfx start new_prefix_len;
        let start := Z.min 65535 (pend ret + 1) in
        let end_ := if decide (start = 65535) then 0 else end_ in
        Ret (Some ret, (start, end_))
  | Eq => Ret (Some (PSingleton start), (1, 0))
  | Gt => Ret (None, it)
  end.

(** The items of the iterator. *)
Fixpoint port_collect (fuel : nat) (it : Z * Z) : outcome (list PortPrefix) :=
  match fuel with
  | O => Panic
  | S fuel =>
      '(item, it) ← port_next it;
      match item with
      | None => Ret []
      | Some p => ps ← port_collect fuel it; Ret (p :: ps)
      end
  end.

Definition iter_prefixes (ports : Z * Z) : outcome (list PortPrefix) := port_collect 34 ports.

(** ** mod.rs *)

Record Child (T : Type) := mkChild { child_prefixes : Array256 T }.
Arguments mkChild {T} _.
Arguments child_prefixes {T} _.

Record PortTrie (T : Type) := mkPortTrie {
  prefixes : Array256 T;
  port_children : Array256 (Child T);
  singletons : gmap Z T;
}.
Arguments mkPortTrie {T} _ _ _.
Arguments prefixes {T} _.
Arguments port_children {T} _.
Arguments singletons {T} _.

Section Ops.
Context {T : Type}.
Implicit Types (t : PortTrie T) (f : ModifyFn T).

Definition EMPTY_TRIE : PortTrie T := mkPortTrie empty_array empty_array ∅.

(** What every arm of [modify] does with an array slot: the closure sees the
    element, and what it answers is carried out. *)
Definition modify_slot (a : Array256 T) (index : Z) f : outcome (Array256 T) :=
  entry ← get_mut a index;
  let '(a, action) :=
    match entry with
    | Some (v, write) => let '(v', action) := on_some f v in (write v', action)
    | None => (a, on_none f)
    end in
  match action with
  | Insert val => '(a, _) ← Array256.insert a index val; Ret a
  | Remove => '(a, _) ← Array256.remove a index; Ret a
  | Noop => Ret a
  end.

Definition modify_singleton (s : gmap Z T) (port : Z) f : gmap Z T :=
  let '(s, action) :=
    match s !! port with
    | Some v => let '(v', action) := on_some f v in (<[port := v']> s, action)
    | None => (s, on_none f)
    end in
  match action with
  | Insert val => <[port := val]> s
  | Remove => delete port s
  | Noop => s
  end.

Definition modify_one t f (pfx : PortPrefix) : outcome (PortTrie T) :=
  match pfx with
  | PPrefix prefix =>
      a ← modify_slot (prefixes t) prefix f;
      Ret (mkPortTrie a (port_children t) (singletons t))
  | PChild hi lo_pfx =>
      occupied ← test_index (port_children t) hi;
      if negb occupied then
        match on_none f with
        | Insert val =>
            a ← Array256.from_iter [(lo_pfx, val)];
            '(cs, _) ← Array256.insert (port_children t) hi (mkChild a);
            Ret (mkPortTrie (prefixes t) cs (singletons t))
        | _ => Ret t
        end
      else
        m ← get_mut (port_children t) hi;
        '(child, write) ← unwrap m;
        a ← modify_slot (child_prefixes child) lo_pfx f;
        Ret (mkPortTrie (prefixes t) (write (mkChild a)) (singletons t))
  | PSingleton port =>
      Ret (mkPortTrie (prefixes t) (port_children t) (modify_singleton (singletons t) port f))
  end.

Definition trie_modify t (ports : Z * Z) f : outcome (PortTrie T) :=
  pfxs ← iter_prefixes ports;
  mfoldl (fun t pfx => modify_one t f pfx) t pfxs.

(** The values at the set bits, in order: [bits().filter_map(get)]. *)
Fixpoint gather (a : Array256 T) (ixs : list nat) : outcome (list T) :=
  match ixs with
  | [] => Ret []
  | i :: ixs =>
      v ← get a (Z.of_nat i);
      vs ← gather a ixs;
      Ret (option_list v ++ vs)
  end.

Definition lpm_matches (a : Array256 T) (octet : Z) : outcome (list T) :=
  pfx ← from_pfx_7 octet;
  pfx_matches ← lpm pfx;
  gather a (bits (Bitset.intersect_inplace pfx_matches (bitset a))).

Definition prefix_matches t (port : Z) : outcome (list T) :=
  lpm_matches (prefixes t) (port_byte_hi port).

Definition child_lookup (c : Child T) (port : Z) : outcome (list T) :=
  lpm_matches (child_prefixes c) (port_byte_lo port).

Definition child_matches t (port : Z) : outcome (list T) :=
  c ← get (port_children t) (port_byte_hi port);
  match c with Some c => child_lookup c port | None => Ret [] end.

Definition trie_lookup t (port : Z) : outcome (list T) :=
  ps ← prefix_matches t port;
  cs ← child_matches t port;
  Ret (ps ++ cs ++ option_list (singletons t !! port)).

Definition clear_trie t : PortTrie T := mkPortTrie clear_array clear_array ∅.
End Ops.

(** ** Ports and octets *)

Lemma port_byte_hi_div p : port_byte_hi p = p / 256.
Proof. unfold port_byte_hi. by rewrite Z.shiftr_div_pow2. Qed.

Lemma port_byte_lo_mod p : port_byte_lo p = p mod 256.
Proof. unfold port_byte_lo. change 255 with (Z.ones 8). by rewrite Z.land_ones. Qed.

Lemma hi_u8 p : u16_ok p -> u8_ok (port_byte_hi p).
Proof. unfold u16_ok, u8_ok. rewrite port_byte_hi_div. intros. split; [|apply Z.div_lt_upper_bound]; [apply Z.div_pos|..]; lia. Qed.

Lemma lo_u8 p : u8_ok (port_byte_lo p).
Proof. unfold u8_ok. rewrite port_byte_lo_mod. apply Z.mod_pos_bound. lia. Qed.

Lemma hi_lo p : p = port_byte_hi p * 256 + port_byte_lo p.
Proof. rewrite port_byte_hi_div, port_byte_lo_mod. pose proof (Z.div_mod p 256). lia. Qed.

(** An octet aligned to [l] bits is the start of its prefix. *)
Lemma prefix_aligned o l :
  u8_ok o -> 0 <= l <= 7 -> o mod 2 ^ (8 - l) = 0 -> prefix (fp o l) = (o, l).
Proof.
  intros Ho Hl Ha.
  pose proof (u8_len_forall (fun o l => negb (bool_decide (o mod 2 ^ (8 - l) = 0))
    || bool_decide (prefix (fp o l) = (o, l)))) as Hall.
  specialize (Hall ltac:(vm_compute; reflexivity) o l Ho Hl). cbn beta in Hall.
  rewrite orb_true_iff, negb_true_iff, bool_decide_eq_false, bool_decide_eq_true in Hall. tauto.
Qed.

(** ** Blocks *)

(** The block of [2 ^ (16 - len)] ports from [port], an aligned one. *)
Definition aligned (port len : Z) : Prop :=
  u16_ok port /\ 0 <= len <= 16 /\ port mod 2 ^ (16 - len) = 0.

(** The representation of the block. *)
Definition block (port len : Z) : PortPrefix :=
  if decide (len = 16) then PSingleton port
  else if decide (len < 8) then PPrefix (fp (port_byte_hi port) len)
  else PChild (port_byte_hi port) (fp (port_byte_lo port) (len - 8)).

Definition pfx_ok (p : PortPrefix) : Prop := exists port len, aligned port len /\ p = block port len.

Lemma from_pfx_block port len : aligned port len -> from_pfx port len = Ret (block port len).
Proof.
  intros (Hp & Hl & _). unfold from_pfx, block. repeat case_decide; [done|..].
  - rewrite from_prefix_fp by (lia || by apply hi_u8). done.
  - rewrite from_prefix_fp by (lia || apply lo_u8). done.
Qed.

Lemma aligned_hi port len :
  aligned port len -> len < 8 ->
  port_byte_hi port mod 2 ^ (8 - len) = 0 /\ port = port_byte_hi port * 256.
Proof.
  intros (Hp & Hl & Ha) Hlen. replace (16 - len) with (8 + (8 - len)) in Ha by lia.
  rewrite Z.pow_add_r in Ha by lia. change (2 ^ 8) with 256 in Ha.
  assert (0 < 2 ^ (8 - len)) by (apply Z.pow_pos_nonneg; lia).
  apply Z.mod_divide in Ha as [q Hq]; [|lia].
  rewrite port_byte_hi_div. assert (port / 256 = q * 2 ^ (8 - len)) as ->.
  { rewrite Hq. replace (q * (256 * 2 ^ (8 - len))) with (q * 2 ^ (8 - len) * 256) by lia.
    apply Z.div_mul. lia. }
  split; [apply Z.mod_mul; lia|lia].
Qed.

Lemma aligned_lo port len :
  aligned port len -> 8 <= len -> port_byte_lo port mod 2 ^ (8 - (len - 8)) = 0.
Proof.
  intros (Hp & Hl & Ha) Hlen. replace (8 - (len - 8)) with (16 - len) by lia.
  rewrite port_byte_lo_mod. assert (0 < 2 ^ (16 - len)) by (apply Z.pow_pos_nonneg; lia).
  assert (256 = 2 ^ (len - 8) * 2 ^ (16 - len)) as ->.
  { rewrite <- Z.pow_add_r by lia. replace (len - 8 + (16 - len)) with 8 by lia. done. }
  apply Z.mod_divide in Ha as [q Hq]; [|lia]. apply Z.mod_divide; [lia|].
  rewrite Z.mod_eq by (assert (0 < 2 ^ (len - 8)) by (apply Z.pow_pos_nonneg; lia); nia).
  rewrite Hq at 1. exists (q - 2 ^ (len - 8) * (port / (2 ^ (len - 8) * 2 ^ (16 - len)))). lia.
Qed.

Lemma prefix_form_block port len : aligned port len -> prefix_form (block port len) = (port, len).
Proof.
  intros Ha. pose proof Ha as (Hp & Hl & _). unfold block. repeat case_decide; cbn [prefix_form].
  - by subst.
  - destruct (aligned_hi port len Ha) as [Hm Hh]; [done|].
    rewrite prefix_aligned by (done || lia || by apply hi_u8). by rewrite <- Hh.
  - rewrite prefix_aligned by (lia || apply lo_u8 || (apply aligned_lo; [done|lia])).
    rewrite <- hi_lo. f_equal. lia.
Qed.

Lemma pow16_le len : 0 <= len <= 16 -> 0 < 2 ^ (16 - len) <= 65536.
Proof.
  intros. split; [apply Z.pow_pos_nonneg; lia|].
  change 65536 with (2 ^ 16). apply Z.pow_le_mono_r; lia.
Qed.

Lemma mult_room q k a : 0 < k -> q * k < a * k -> q * k + k <= a * k.
Proof. intros Hk Hlt. assert (q + 1 <= a) by nia. nia. Qed.

(** An aligned block ends within the ports. *)
Lemma aligned_end port len : aligned port len -> port + 2 ^ (16 - len) <= 65536.
Proof.
  intros (Hp & Hl & Ha). pose proof (pow16_le len Hl) as Hk. unfold u16_ok in Hp.
  apply Z.mod_divide in Ha as [q Hq]; [|lia].
  assert (65536 = 2 ^ len * 2 ^ (16 - len)) as E.
  { rewrite <- Z.pow_add_r by lia. by replace (len + (16 - len)) with 16 by lia. }
  assert (q + 1 <= 2 ^ len); nia.
Qed.

Lemma block_ends port len :
  aligned port len ->
  pstart (block port len) = port /\ pend (block port len) = port + 2 ^ (16 - len) - 1.
Proof.
  intros Ha. pose proof Ha as (Hp & Hl & Hm). pose proof (aligned_end _ _ Ha) as He.
  unfold pstart, pend. rewrite prefix_form_block by done. split; [done|]. case_decide as E.
  - subst. change (2 ^ (16 - 0)) with 65536 in *. unfold u16_ok in Hp. lia.
  - rewrite Z.shiftr_div_pow2 by lia. change 32768 with (2 ^ 15).
    rewrite <- Z.pow_sub_r by lia. replace (15 - (len - 1)) with (16 - len) by lia. lia.
Qed.

(** The blocks a port belongs to: one of every length. *)
Definition blocks_of (port : Z) : list PortPrefix :=
  (PPrefix <$> (fp (port_byte_hi port) <$> seqZ 0 8)) ++
  (PChild (port_byte_hi port) <$> (fp (port_byte_lo port) <$> seqZ 0 8)) ++ [PSingleton port].

Lemma octet_block o x l :
  u8_ok o -> u8_ok x -> 0 <= l <= 7 -> o mod 2 ^ (8 - l) = 0 ->
  fp x l = fp o l <-> o <= x <= o + 2 ^ (8 - l) - 1.
Proof.
  intros Ho Hx Hl Ha. rewrite !masked_fp by done.
  assert (0 < 2 ^ (8 - l)) as Hk by (apply Z.pow_pos_nonneg; lia).
  pose proof (block_div o x _ Hk) as Hb.
  assert (o / 2 ^ (8 - l) * 2 ^ (8 - l) = o) as Eo.
  { pose proof (Z.div_mod o (2 ^ (8 - l))). lia. }
  rewrite Eo in Hb. split; intros E; [apply Hb; lia|]. apply Hb in E. lia.
Qed.

Lemma elem_of_blocks_of port x :
  x ∈ blocks_of port <->
  (exists l, 0 <= l <= 7 /\ x = PPrefix (fp (port_byte_hi port) l)) \/
  (exists l, 0 <= l <= 7 /\ x = PChild (port_byte_hi port) (fp (port_byte_lo port) l)) \/
  x = PSingleton port.
Proof.
  unfold blocks_of. rewrite !elem_of_app, !list_elem_of_fmap, list_elem_of_singleton.
  setoid_rewrite list_elem_of_fmap. setoid_rewrite elem_of_seqZ. split.
  - intros [(? & -> & l & -> & Hl)|[(? & -> & l & -> & Hl)| ->]]; [left|right; left|by right; right];
      (exists l; split; [lia|done]).
  - intros [(l & Hl & ->)|[(l & Hl & ->)| ->]]; [left|right; left|by right; right];
      (eexists; split; [done|]; exists l; split; [done|lia]).
Qed.

(** A port lies within a block exactly when the block is one of the port's. *)
Lemma block_covers b port :
  pfx_ok b -> u16_ok port -> pstart b <= port <= pend b <-> b ∈ blocks_of port.
Proof.
  intros (s & len & Ha & ->) Hport. destruct (block_ends s len Ha) as [-> ->].
  pose proof Ha as (Hs & Hl & _). rewrite elem_of_blocks_of. unfold block.
  pose proof (hi_lo port) as Hpe. pose proof (hi_lo s) as Hse.
  pose proof (hi_u8 port Hport) as Hph. pose proof (hi_u8 s Hs) as Hsh.
  pose proof (lo_u8 port) as Hpl. pose proof (lo_u8 s) as Hsl. repeat case_decide.
  - subst len. change (2 ^ (16 - 16)) with 1. split.
    + intros. do 2 right. f_equal. lia.
    + intros [(? & _ & [=])|[(? & _ & [=])|[=] ] ]. lia.
  - destruct (aligned_hi s len Ha) as [Hm He]; [done|].
    pose proof (octet_block _ _ len Hsh Hph ltac:(lia) Hm) as Hob.
    replace (16 - len) with (8 + (8 - len)) by lia. rewrite Z.pow_add_r by lia.
    change (2 ^ 8) with 256. unfold u8_ok in *. split.
    + intros. left. exists len. split; [lia|]. f_equal. symmetry. apply Hob. lia.
    + intros [(l & Hll & [= E])|[(? & _ & [=])|[=] ] ].
      assert (l = len) as -> by (symmetry; by eapply fp_inj_len; [..|exact E]; unfold u8_ok; lia).
      symmetry in E. apply Hob in E. lia.
  - pose proof (aligned_lo s len Ha ltac:(lia)) as Hm.
    pose proof (octet_block _ _ (len - 8) Hsl Hpl ltac:(lia) Hm) as Hob.
    replace (8 - (len - 8)) with (16 - len) in Hob by lia.
    assert (port_byte_lo s + 2 ^ (16 - len) <= 256) as Hend.
    { pose proof (aligned_end s len Ha). unfold u8_ok in *.
      assert (256 = 2 ^ (len - 8) * 2 ^ (16 - len)) as E.
      { rewrite <- Z.pow_add_r by lia. by replace (len - 8 + (16 - len)) with 8 by lia. }
      replace (8 - (len - 8)) with (16 - len) in Hm by lia.
      assert (0 < 2 ^ (16 - len)) by (apply Z.pow_pos_nonneg; lia).
      apply Z.mod_divide in Hm as [q Hq]; [|lia]. rewrite Hq, E.
      apply mult_room; [done|]. rewrite <- Hq, <- E. lia. }
    unfold u8_ok in *. split.
    + intros. right; left. exists (len - 8).
      assert (port_byte_hi port = port_byte_hi s) as Eh by lia.
      split; [lia|]. rewrite Eh. f_equal. symmetry. apply Hob. lia.
    + intros [(? & _ & [=])|[(l & Hll & [= Eh E])|[=] ] ].
      assert (l = len - 8) as -> by (symmetry; by eapply fp_inj_len; [..|exact E]; unfold u8_ok; lia).
      symmetry in E. apply Hob in E. lia.
Qed.

(** ** Trailing zeros and bit lengths *)

Lemma bit_singleton w j : (j < 64)%nat -> bit [w] j = Z.testbit w (Z.of_nat j).
Proof. intros Hj. by rewrite bit_cons_lo by done. Qed.

Lemma positions_singleton w : positions [w] = bits64 w.
Proof. by rewrite positions_cons, positions_nil, fmap_nil, app_nil_r. Qed.

Lemma bit_len16_log2 x : 0 < x < 65536 -> bit_len16 x = Z.log2 x + 1.
Proof.
  intros Hx. unfold bit_len16, bit_len64. pose proof (last_positions [x]) as Hl.
  rewrite positions_singleton in Hl. assert (u64_ok x) as Hu by (unfold u64_ok; lia).
  destruct (last (bits64 x)) as [j|] eqn:E; cbn [greatest_set from_option] in *.
  - destruct Hl as [Hj Hhi]. assert (j < 64)%nat as Hj64.
    { apply last_Some in E as [l E]. assert (j ∈ bits64 x) as Hin by (rewrite E; set_solver).
      by apply elem_of_bits64 in Hin as [? _]. }
    rewrite bit_singleton in Hj by done. rewrite (Z.log2_unique x (Z.of_nat j)); [lia|lia|].
    split.
    + apply Z.log2_le_pow2; [lia|].
      destruct (Z.le_gt_cases (Z.of_nat j) (Z.log2 x)); [done|].
      rewrite Z.bits_above_log2 in Hj by lia. done.
    + apply Z.log2_lt_pow2; [lia|]. destruct (Z.lt_ge_cases (Z.log2 x) (Z.succ (Z.of_nat j))); [done|].
      pose proof (Z.bit_log2 x ltac:(lia)) as Hb.
      assert (Z.log2 x < 16) by (apply Z.log2_lt_pow2; lia).
      specialize (Hhi (Z.to_nat (Z.log2 x)) ltac:(lia)). rewrite bit_singleton in Hhi by lia.
      rewrite Z2Nat.id in Hhi by lia. congruence.
  - apply last_None, bits64_nil in E; [lia|done].
Qed.

Lemma pow2_divides_bits x k :
  0 <= k -> x mod 2 ^ k = 0 <-> forall i, 0 <= i < k -> Z.testbit x i = false.
Proof.
  intros Hk. rewrite <- Z.land_ones by done. split.
  - intros E i Hi. assert (Z.testbit (Z.land x (Z.ones k)) i = false) as Hb by (by rewrite E, Z.testbit_0_l).
    rewrite Z.land_spec, Z.ones_spec_low, andb_true_r in Hb by lia. done.
  - intros Hlow. apply Z.bits_inj'. intros i Hi. rewrite Z.land_spec, Z.testbit_0_l.
    destruct (Z.lt_ge_cases i k); [by rewrite Hlow by lia|].
    by rewrite Z.ones_spec_high, andb_false_r by lia.
Qed.

Lemma trailing_zeros16_spec x :
  0 < x < 65536 ->
  0 <= trailing_zeros16 x <= 15 /\
  forall k, 0 <= k -> x mod 2 ^ k = 0 <-> k <= trailing_zeros16 x.
Proof.
  intros Hx. unfold trailing_zeros16. rewrite decide_False by lia.
  assert (u64_ok x) as Hu by (unfold u64_ok; lia).
  pose proof (head_positions [x]) as Hh. rewrite positions_singleton in Hh.
  unfold trailing_zeros64. destruct (bits64 x) as [|t l] eqn:E; [apply bits64_nil in E; [lia|done]|].
  cbn [head default least_set_from from_option] in *. destruct Hh as (_ & Ht & Hlow).
  assert (t < 64)%nat as Ht64.
  { assert (t ∈ bits64 x) as Hin by (rewrite E; set_solver). by apply elem_of_bits64 in Hin as [? _]. }
  rewrite bit_singleton in Ht by done.
  assert (Z.of_nat t <= 15) as Ht15.
  { destruct (Z.le_gt_cases (Z.of_nat t) 15); [done|].
    assert (Z.log2 x < 16) by (apply Z.log2_lt_pow2; lia).
    rewrite Z.bits_above_log2 in Ht by lia. done. }
  cbn. split; [lia|]. intros k Hk. rewrite pow2_divides_bits by done. split.
  - intros Hb. destruct (Z.le_gt_cases k (Z.of_nat t)); [done|]. rewrite Hb in Ht by lia. done.
  - intros Hle i Hi. specialize (Hlow (Z.to_nat i) ltac:(lia)).
    rewrite bit_singleton, Z2Nat.id in Hlow by lia. done.
Qed.

Lemma trailing_zeros16_divides x k :
  0 <= x < 65536 -> 0 <= k <= trailing_zeros16 x -> k <= 16 -> x mod 2 ^ k = 0.
Proof.
  intros Hx Hk Hk16. destruct (decide (x = 0)) as [->|Hne]; [apply Z.mod_0_l, Z.pow_nonzero; lia|].
  apply trailing_zeros16_spec; lia.
Qed.

(** ** The decomposition *)

Section Decompose.
Context (s e : Z) (Hs : 0 <= s) (Hse : s <= e) (He : e <= 65535) (Hr : e - s + 1 < 65535).

Local Abbreviation r := (e - s + 1).
Local Abbreviation k := (Z.min (Z.log2 r) (trailing_zeros16 s)).

Lemma trailing_zeros16_nonneg : 0 <= trailing_zeros16 s.
Proof using Hs Hse He. unfold trailing_zeros16. case_decide; lia. Qed.

Lemma log2_r : 0 <= Z.log2 r <= 15 /\ 2 ^ Z.log2 r <= r < 2 * 2 ^ Z.log2 r.
Proof using Hs Hse He Hr.
  assert (Z.log2 r < 16) by (apply Z.log2_lt_pow2; lia).
  pose proof (Z.log2_nonneg r). pose proof (Z.log2_spec r ltac:(lia)) as Hl.
  rewrite Z.pow_succ_r in Hl by lia. lia.
Qed.

Lemma chosen_fits : 0 <= k <= 15 /\ 0 < 2 ^ k <= r.
Proof using Hs Hse He Hr.
  pose proof trailing_zeros16_nonneg. pose proof log2_r as [H1 H2].
  split; [lia|]. split; [apply Z.pow_pos_nonneg; lia|].
  assert (2 ^ k <= 2 ^ Z.log2 r) by (apply Z.pow_le_mono_r; lia). lia.
Qed.

Lemma chosen_aligned : aligned s (16 - k).
Proof using Hs Hse He Hr.
  pose proof chosen_fits as [Hk _]. split_and!; [unfold u16_ok; lia|lia..|].
  replace (16 - (16 - k)) with k by lia. apply trailing_zeros16_divides; lia.
Qed.

(** The next start is never 65535 with that port still to come. *)
Lemma chosen_not_stuck : s + 2 ^ k = 65535 -> e = 65535 -> False.
Proof using Hs Hse He Hr.
  intros E Ee. pose proof chosen_fits as [Hk Hk2]. pose proof log2_r as [Hl Hl2].
  destruct (decide (k = 0)) as [E0|Hne].
  - rewrite E0 in *. change (2 ^ 0) with 1 in *. assert (s = 65534) as -> by lia. subst e.
    vm_compute in E0. done.
  - destruct chosen_aligned as (_ & _ & Ha). replace (16 - (16 - k)) with k in Ha by lia.
    apply Z.mod_divide in Ha as [q Hq]; [|lia].
    replace k with (Z.succ (k - 1)) in E, Hq by lia. rewrite Z.pow_succ_r in E, Hq by lia. lia.
Qed.

Lemma port_next_lt :
  s < e ->
  exists it, port_next (s, e) = Ret (Some (block s (16 - k)), it) /\
    (s + 2 ^ k <= e /\ it = (s + 2 ^ k, e) \/ s + 2 ^ k = e + 1 /\ it.2 < it.1).
Proof using Hs Hse He Hr.
  intros Hlt. pose proof chosen_fits as [Hk Hk2]. pose proof log2_r as [Hl _].
  unfold port_next. rewrite (proj2 (Z.compare_lt_iff s e)) by done.
  replace (Z.min 65535 (Z.max 0 (e - s) + 1)) with r by lia. rewrite decide_False by lia.
  rewrite bit_len16_log2 by lia. replace (Z.max 0 (Z.log2 r + 1 - 1)) with (Z.log2 r) by lia.
  rewrite from_pfx_block by apply chosen_aligned. mrun.
  destruct (block_ends s _ chosen_aligned) as [_ ->]. replace (16 - (16 - k)) with k by lia.
  eexists; split; [done|]. replace (s + 2 ^ k - 1 + 1) with (s + 2 ^ k) by lia.
  pose proof chosen_not_stuck as Hns.
  destruct (Z.le_gt_cases (s + 2 ^ k) e) as [Hle|Hgt].
  - left. split; [done|]. rewrite Z.min_r by lia. rewrite decide_False; [done|].
    intros E. apply Hns; lia.
  - right. split; [lia|]. case_decide; cbn [fst snd]; lia.
Qed.

(** How many more blocks there may be. *)
Definition blocks_bound : Z :=
  if decide (trailing_zeros16 s < Z.log2 r) then 32 - trailing_zeros16 s else Z.log2 r + 1.
End Decompose.

Lemma blocks_bound_pos s e :
  0 <= s -> s <= e -> e <= 65535 -> e - s + 1 < 65535 -> 1 <= blocks_bound s e <= 32.
Proof.
  intros Hs Hse He Hr. unfold blocks_bound.
  pose proof (trailing_zeros16_nonneg s e Hs Hse He). pose proof (log2_r s e Hs Hse He Hr) as [? _].
  case_decide; lia.
Qed.

Lemma blocks_bound_decreases s e (k := Z.min (Z.log2 (e - s + 1)) (trailing_zeros16 s)) :
  0 <= s -> s + 2 ^ k <= e -> e <= 65535 -> e - s + 1 < 65535 ->
  blocks_bound (s + 2 ^ k) e < blocks_bound s e.
Proof.
  intros Hs Hle He Hr. assert (s <= e) as Hse.
  { assert (0 <= 2 ^ k) by apply Z.pow_nonneg, Z.leb_le, eq_refl. lia. }
  pose proof (chosen_fits s e Hs Hse He Hr) as [Hk Hk2]. fold k in Hk, Hk2.
  pose proof (log2_r s e Hs Hse He Hr) as [Hl Hl2].
  pose proof (log2_r (s + 2 ^ k) e ltac:(lia) Hle He ltac:(lia)) as [Hl' Hl2'].
  pose proof (trailing_zeros16_spec (s + 2 ^ k) ltac:(lia)) as [Htz' Hdiv'].
  unfold blocks_bound. destruct (decide (trailing_zeros16 s < Z.log2 (e - s + 1))) as [Hp|Hp].
  - assert (trailing_zeros16 s < trailing_zeros16 (s + 2 ^ k)) as Hlt.
    { apply Z.le_succ_l. apply Hdiv'; [lia|]. subst k. rewrite Z.min_r in * by lia.
      assert (s <> 0) as Hs0 by (intros ->; unfold trailing_zeros16 in Hp; case_decide; lia).
      pose proof (trailing_zeros16_spec s ltac:(lia)) as [Htz Hdiv].
      set (t := trailing_zeros16 s) in *. pose proof (proj2 (Hdiv t ltac:(lia)) ltac:(lia)) as Hd.
      assert (0 < 2 ^ t) by (apply Z.pow_pos_nonneg; lia).
      apply Z.mod_divide in Hd as [q Hq]; [|lia]. rewrite Z.pow_succ_r by lia.
      destruct (Z.Even_or_Odd q) as [[j Hj]|[j Hj]].
      - exfalso. assert (Z.succ t <= t); [|lia]. apply Hdiv; [lia|].
        rewrite Z.pow_succ_r by lia. apply Z.mod_divide; [lia|]. exists j. lia.
      - apply Z.mod_divide; [lia|]. exists (j + 1). rewrite Hq at 1. rewrite Hj. lia. }
    case_decide; lia.
  - assert (k = Z.log2 (e - s + 1)) as Ek by lia. rewrite Ek in *.
    assert (Z.log2 (e - (s + 2 ^ Z.log2 (e - s + 1)) + 1) < Z.log2 (e - s + 1)) as Hdec
      by (apply Z.log2_lt_pow2; lia).
    assert (Z.log2 (e - s + 1) <= trailing_zeros16 (s + 2 ^ Z.log2 (e - s + 1))) as Hphase.
    { apply Hdiv'; [lia|]. rewrite Z.add_mod, Z.mod_same by lia.
      rewrite (trailing_zeros16_divides s) by lia. apply Z.mod_0_l. lia. }
    case_decide; lia.
Qed.

(** The blocks of a list cover the range from [s] to [e], each port once, in
    ascending order. *)
Definition decomposes (l : list PortPrefix) (s e : Z) : Prop :=
  Forall pfx_ok l /\ StronglySorted (fun a b => pend a < pstart b) l /\
  (forall b, b ∈ l -> s <= pstart b) /\
  forall port, u16_ok port -> (exists b, b ∈ l /\ pstart b <= port <= pend b) <-> s <= port <= e.

Lemma decomposes_nil s e : e < s -> decomposes [] s e.
Proof.
  intros Hlt. split_and!; [constructor|constructor|by intros b Hb%not_elem_of_nil|].
  intros port _. split; [intros (b & Hb%not_elem_of_nil & _); done|lia].
Qed.

Lemma decomposes_cons s len l e :
  aligned s len -> decomposes l (s + 2 ^ (16 - len)) e -> s + 2 ^ (16 - len) - 1 <= e ->
  decomposes (block s len :: l) s e.
Proof.
  intros Ha (Hok & Hsort & Hlow & Hcov) He. pose proof Ha as (_ & Hl & _).
  pose proof (pow16_le len Hl) as Hp. destruct (block_ends s len Ha) as [Es Ee].
  unfold decomposes. split_and!.
  - constructor; [by exists s, len|done].
  - constructor; [done|]. apply Forall_forall. intros b Hb. apply Hlow in Hb. lia.
  - intros b [->|Hb]%elem_of_cons; [lia|]. apply Hlow in Hb. lia.
  - intros port Hport. split.
    + intros (b & [->|Hb]%elem_of_cons & Hc); [lia|].
      assert (s + 2 ^ (16 - len) <= port <= e) by (apply Hcov; [done|by exists b]). lia.
    + intros Hc. destruct (Z.lt_ge_cases port (s + 2 ^ (16 - len))).
      * exists (block s len). split; [by left|lia].
      * destruct (proj2 (Hcov port Hport)) as (b & Hb & Hc'); [lia|].
        exists b. split; [by right|done].
Qed.

Lemma port_collect_done fuel it : it.2 < it.1 -> (0 < fuel)%nat -> port_collect fuel it = Ret [].
Proof.
  intros Hlt Hf. destruct fuel as [|fuel]; [lia|]. destruct it as [s e]. cbn in *.
  rewrite (proj2 (Z.compare_gt_iff s e)) by done. done.
Qed.

Lemma singleton_aligned s : u16_ok s -> aligned s 16.
Proof. intros. split_and!; [done|lia..|]. apply Z.mod_1_r. Qed.

Lemma port_collect_spec fuel : forall s e,
  0 <= s -> s <= e -> e <= 65535 -> e - s + 1 < 65535 -> (Z.to_nat (blocks_bound s e) < fuel)%nat ->
  exists l, port_collect fuel (s, e) = Ret l /\ decomposes l s e /\
    Z.of_nat (length l) <= blocks_bound s e.
Proof.
  induction fuel as [|fuel IH]; intros s e Hs Hse He Hr Hf; [lia|].
  pose proof (blocks_bound_pos s e Hs Hse He Hr) as Hb.
  destruct (decide (s = e)) as [->|Hne].
  - cbn [port_collect port_next]. rewrite Z.compare_refl. mrun.
    rewrite port_collect_done by (cbn; lia). mrun. eexists; split; [done|]. split; [|cbn; lia].
    assert (PSingleton e = block e 16) as -> by done.
    apply decomposes_cons; [apply singleton_aligned; unfold u16_ok; lia|apply decomposes_nil; cbn; lia|cbn; lia].
  - destruct (port_next_lt s e Hs Hse He Hr) as (it & E & Hit); [lia|].
    cbn [port_collect]. rewrite E. mrun. clear E.
    pose proof (chosen_fits s e Hs Hse He Hr) as [Hk Hk2].
    pose proof (chosen_aligned s e Hs Hse He Hr) as Ha.
    pose proof (blocks_bound_decreases s e) as Hdec. cbv zeta in Hdec.
    revert Ha. set (k := Z.min _ _) in *. intros Ha.
    assert (2 ^ (16 - (16 - k)) = 2 ^ k) as Ek by (f_equal; lia).
    destruct Hit as [[Hle ->]|[Hend Hit]].
    + specialize (Hdec Hs Hle He Hr).
      pose proof (blocks_bound_pos (s + 2 ^ k) e ltac:(lia) Hle He ltac:(lia)) as Hb'.
      destruct (IH (s + 2 ^ k) e) as (l & -> & Hd & Hlen); [lia..|]. mrun.
      eexists; split; [done|]. split; [|cbn [length]; lia].
      apply decomposes_cons; [done|by rewrite Ek|lia].
    + rewrite port_collect_done by (done || lia). mrun.
      eexists; split; [done|]. split; [|cbn; lia].
      apply decomposes_cons; [done|rewrite Ek; apply decomposes_nil; lia|lia].
Qed.

Lemma all_aligned : aligned 0 0.
Proof. split_and!; [unfold u16_ok; lia|lia..|done]. Qed.

Lemma port_collect_full fuel s e :
  s < e -> 65535 <= e - s + 1 -> (1 < fuel)%nat -> port_collect fuel (s, e) = Ret [block 0 0].
Proof.
  intros Hlt Hr Hf. destruct fuel as [|fuel]; [lia|]. cbn [port_collect port_next].
  rewrite (proj2 (Z.compare_lt_iff s e)) by lia. rewrite decide_True by lia.
  rewrite from_pfx_block by apply all_aligned. mrun.
  by rewrite port_collect_done by (cbn; lia).
Qed.

(** The range the iterator really covers: one of exactly 65535 ports is taken
    for the range of all 65536. *)
Definition effective_ports (r : Z * Z) : Z * Z :=
  if decide (r.2 - r.1 + 1 = 65535) then ALL_PORTS else r.

Lemma iter_prefixes_spec r :
  ports_ok r ->
  exists l, iter_prefixes r = Ret l /\ (length l <= 32)%nat /\
    decomposes l (effective_ports r).1 (effective_ports r).2.
Proof.
  intros [H1 H2]. unfold u16_ok in *. destruct r as [s e]. cbn [fst snd] in *.
  unfold effective_ports, iter_prefixes. cbn [fst snd].
  destruct (Z.lt_ge_cases e s) as [Hlt|Hse].
  { exists []. rewrite port_collect_done by (cbn; lia). rewrite decide_False by lia.
    split_and!; [done|cbn; lia|by apply decomposes_nil]. }
  destruct (Z.lt_ge_cases (e - s + 1) 65535) as [Hr|Hr].
  - rewrite decide_False by lia.
    pose proof (blocks_bound_pos s e ltac:(lia) Hse ltac:(lia) Hr) as Hb.
    destruct (port_collect_spec 34 s e) as (l & -> & Hd & Hlen); [lia..|].
    exists l. split_and!; [done|lia|done].
  - exists [block 0 0]. rewrite port_collect_full by lia. split_and!; [done|cbn; lia|].
    assert ((if decide (e - s + 1 = 65535) then ALL_PORTS else (s, e)) = (0, 65535)) as ->.
    { case_decide; [done|]. f_equal; lia. }
    apply decomposes_cons; [apply all_aligned|by apply decomposes_nil|by cbn].
Qed.

(** ** The trie as a map from blocks *)

Section View.
Context {T : Type}.
Implicit Types (t : PortTrie T) (f : ModifyFn T) (b : PortPrefix) (a : Array256 T).

Definition pslot t b : option T :=
  match b with
  | PPrefix i => slot (prefixes t) (Z.to_nat i)
  | PChild hi lo => c ← slot (port_children t) (Z.to_nat hi); slot (child_prefixes c) (Z.to_nat lo)
  | PSingleton port => singletons t !! port
  end.

Definition trie_wf t : Prop :=
  array_wf (prefixes t) /\ array_wf (port_children t) /\
  forall i c, slot (port_children t) i = Some c -> array_wf (child_prefixes c).

(** The indices of a block are octets. *)
Definition index_u8 b : Prop :=
  match b with
  | PPrefix i => u8_ok i
  | PChild hi lo => u8_ok hi /\ u8_ok lo
  | PSingleton _ => True
  end.

Lemma fp_u8 o l : u8_ok o -> 0 <= l <= 7 -> u8_ok (fp o l).
Proof. intros Ho Hl. pose proof (fp_index_ok o l Ho Hl) as Hi. unfold index_ok, u8_ok in *. lia. Qed.

Lemma pfx_ok_index b : pfx_ok b -> index_u8 b.
Proof.
  intros (s & len & (Hs & Hl & _) & ->). unfold block. repeat case_decide; cbn [index_u8]; [done|..].
  - apply fp_u8; [by apply hi_u8|lia].
  - split; [by apply hi_u8|]. apply fp_u8; [apply lo_u8|lia].
Qed.

Lemma blocks_of_index port b : u16_ok port -> b ∈ blocks_of port -> index_u8 b.
Proof.
  intros Hp [(l & Hl & ->)|[(l & Hl & ->)| ->]]%elem_of_blocks_of; cbn [index_u8]; [..|done].
  - apply fp_u8; [by apply hi_u8|done].
  - split; [by apply hi_u8|]. apply fp_u8; [apply lo_u8|done].
Qed.

Lemma to_nat_u8_inj i j : u8_ok i -> u8_ok j -> Z.to_nat i = Z.to_nat j <-> i = j.
Proof. unfold u8_ok. lia. Qed.

Lemma modify_slot_spec a i f :
  array_wf a -> u8_ok i ->
  exists a', modify_slot a i f = Ret a' /\ array_wf a' /\
    forall j, slot a' j = if decide (j = Z.to_nat i) then (apply_mod f (slot a (Z.to_nat i))).1
                          else slot a j.
Proof.
  intros Hwf Hi. unfold modify_slot. pose proof (get_mut_spec a i Hwf Hi) as Hg.
  destruct (slot a (Z.to_nat i)) as [v|] eqn:Ev; cbn [apply_mod].
  - destruct Hg as (w & -> & Hw). mrun. destruct (on_some f v) as [v' action].
    destruct (Hw v') as [Hwf' Hs']. destruct action as [x| |]; cbn [fst].
    + destruct (insert_spec (w v') i x Hwf' Hi) as (a' & -> & Hwf2 & Hs2). mrun.
      exists a'. split_and!; [done..|]. intros j. rewrite Hs2, Hs'. by case_decide.
    + destruct (remove_spec (w v') i Hwf' Hi) as (a' & -> & Hwf2 & Hs2). mrun.
      exists a'. split_and!; [done..|]. intros j. rewrite Hs2, Hs'. by case_decide.
    + exists (w v'). by split_and!.
  - rewrite Hg. mrun. destruct (on_none f) as [x| |]; cbn [fst].
    + destruct (insert_spec a i x Hwf Hi) as (a' & -> & Hwf2 & Hs2). mrun. by exists a'.
    + destruct (remove_spec a i Hwf Hi) as (a' & -> & Hwf2 & Hs2). mrun. by exists a'.
    + exists a. split_and!; [done..|]. intros j. by case_decide; subst.
Qed.

Lemma from_iter_singleton i (x : T) :
  u8_ok i ->
  exists a, Array256.from_iter [(i, x)] = Ret a /\ array_wf a /\
    forall j, slot a j = if decide (j = Z.to_nat i) then Some x else None.
Proof.
  intros Hi. unfold Array256.from_iter. cbn [mfoldl].
  destruct (insert_spec (empty_array (T:=T)) i x empty_array_wf Hi) as (a & -> & Hwf & Hs). mrun.
  exists a. split_and!; [done..|]. intros j. by rewrite Hs, slot_empty.
Qed.

(** Replacing the child of [hi] by one that differs at [lo]. *)
Lemma child_replaced t hi lo cs a' r :
  trie_wf t -> u8_ok hi -> u8_ok lo -> array_wf cs -> array_wf a' ->
  (forall i, slot cs i = if decide (i = Z.to_nat hi) then Some (mkChild a')
                         else slot (port_children t) i) ->
  (forall j, slot a' j = if decide (j = Z.to_nat lo) then r
                         else c ← slot (port_children t) (Z.to_nat hi); slot (child_prefixes c) j) ->
  trie_wf (mkPortTrie (prefixes t) cs (singletons t)) /\
  forall b, index_u8 b -> pslot (mkPortTrie (prefixes t) cs (singletons t)) b =
    if decide (b = PChild hi lo) then r else pslot t b.
Proof.
  intros (Hp & Hc & Hcc) Hhi Hlo Hcs Ha' Hsc Hs. split.
  - split_and!; [done..|]. intros i c'. cbn [port_children]. rewrite Hsc.
    case_decide; [by intros [= <-]|apply Hcc].
  - intros [i|h l|p] Hb; cbn [pslot prefixes port_children singletons];
      [by rewrite decide_False| |by rewrite decide_False].
    destruct Hb as [Hh Hl]. rewrite Hsc. pose proof (to_nat_u8_inj h hi Hh Hhi) as E1.
    pose proof (to_nat_u8_inj l lo Hl Hlo) as E2.
    destruct (decide (Z.to_nat h = Z.to_nat hi)) as [Eh|Eh].
    + rewrite Eh. cbn [mbind option_bind child_prefixes]. rewrite Hs.
      repeat case_decide; naive_solver.
    + rewrite decide_False by naive_solver. done.
Qed.

Lemma modify_child_spec t f hi lo :
  trie_wf t -> u8_ok hi -> u8_ok lo ->
  exists t', modify_one t f (PChild hi lo) = Ret t' /\ trie_wf t' /\
    forall b, index_u8 b -> pslot t' b =
      if decide (b = PChild hi lo) then (apply_mod f (pslot t (PChild hi lo))).1 else pslot t b.
Proof.
  intros Ht Hhi Hlo. pose proof Ht as (Hp & Hc & Hcc). cbn [modify_one].
  rewrite test_index_spec by done. mrun.
  pose proof (slot_is_Some (port_children t) (Z.to_nat hi) Hc) as Hiss.
  destruct (bit _ _) eqn:Eb; cbn [negb].
  - destruct (proj2 Hiss eq_refl) as [c Ec].
    pose proof (get_mut_spec (port_children t) hi Hc Hhi) as Hg. rewrite Ec in Hg.
    destruct Hg as (w & -> & Hw). mrun. cbn [unwrap]. mrun.
    destruct (modify_slot_spec (child_prefixes c) lo f (Hcc _ _ Ec) Hlo) as (a' & -> & Hwf' & Hs).
    mrun. destruct (Hw (mkChild a')) as [Hwc Hsc]. eexists; split; [done|].
    apply (child_replaced t hi lo _ a'); [done..|]. cbn [pslot]. by rewrite Ec.
  - assert (slot (port_children t) (Z.to_nat hi) = None) as En
      by (apply eq_None_not_Some; by rewrite Hiss).
    cbn [pslot]. rewrite En. cbn [mbind option_bind apply_mod].
    destruct (on_none f) as [x| |]; cbn [fst].
    2,3: exists t; split_and!; [done..|]; intros b _; case_decide; [|done];
      subst b; cbn [pslot]; by rewrite En.
    destruct (from_iter_singleton lo x Hlo) as (a & -> & Hwf' & Hs). mrun.
    destruct (insert_spec (port_children t) hi (mkChild a) Hc Hhi) as (cs & -> & Hwc & Hsc). mrun.
    eexists; split; [done|]. apply (child_replaced t hi lo cs a); [done..|]. by rewrite En.
Qed.

Lemma modify_singleton_spec (s : gmap Z T) p f q :
  modify_singleton s p f !! q = if decide (q = p) then (apply_mod f (s !! p)).1 else s !! q.
Proof.
  unfold modify_singleton, apply_mod. destruct (s !! p) as [v|] eqn:Ev.
  - destruct (on_some f v) as [v' action]. destruct action; case_decide; subst;
      rewrite ?lookup_insert_eq, ?lookup_delete_eq, ?lookup_delete_ne, ?lookup_insert_ne by done;
      done.
  - destruct (on_none f); case_decide; subst;
      rewrite ?lookup_insert_eq, ?lookup_delete_eq, ?lookup_delete_ne, ?lookup_insert_ne by done;
      done.
Qed.

Lemma modify_one_spec t f b :
  trie_wf t -> index_u8 b ->
  exists t', modify_one t f b = Ret t' /\ trie_wf t' /\
    forall b', index_u8 b' ->
      pslot t' b' = if decide (b' = b) then (apply_mod f (pslot t b)).1 else pslot t b'.
Proof.
  intros Ht Hb. destruct b as [i|hi lo|p].
  - destruct Ht as (Hp & Hc & Hcc). cbn [modify_one index_u8] in *.
    destruct (modify_slot_spec (prefixes t) i f Hp Hb) as (a' & -> & Hwf' & Hs). mrun.
    eexists; split; [done|]. split; [done|].
    intros [j|h l|p] Hb'; cbn [pslot prefixes port_children singletons index_u8] in *;
      [|by rewrite decide_False..].
    rewrite Hs. pose proof (to_nat_u8_inj j i Hb' Hb). repeat case_decide; naive_solver.
  - destruct Hb as [Hh Hl]. by apply modify_child_spec.
  - destruct Ht as (Hp & Hc & Hcc). cbn [modify_one]. eexists; split; [done|]. split; [done|].
    intros [j|h l|q] _; cbn [pslot prefixes port_children singletons]; [by rewrite decide_False..|].
    rewrite modify_singleton_spec. repeat case_decide; naive_solver.
Qed.

Lemma sorted_blocks_NoDup l :
  Forall pfx_ok l -> StronglySorted (fun x y => pend x < pstart y) l -> NoDup l.
Proof.
  intros Hok. induction 1 as [|b l Hl IH Hb]; [constructor|].
  apply Forall_cons in Hok as [Hb1 Hok]. constructor; [|by apply IH].
  intros Hin. rewrite Forall_forall in Hb. specialize (Hb b Hin).
  destruct Hb1 as (s & len & Ha & ->). destruct (block_ends s len Ha) as [E1 E2].
  pose proof Ha as (_ & Hlen & _). pose proof (pow16_le len Hlen). lia.
Qed.

Lemma modify_all_spec f bs : forall t,
  trie_wf t -> NoDup bs -> Forall index_u8 bs ->
  exists t', mfoldl (fun t b => modify_one t f b) t bs = Ret t' /\ trie_wf t' /\
    forall b, index_u8 b ->
      pslot t' b = if decide (b ∈ bs) then (apply_mod f (pslot t b)).1 else pslot t b.
Proof.
  induction bs as [|b0 bs IH]; intros t Ht Hnd Hok.
  { exists t. split_and!; [done..|]. intros b _. by rewrite decide_False by apply not_elem_of_nil. }
  apply NoDup_cons in Hnd as [Hni Hnd]. apply Forall_cons in Hok as [Hb0 Hok]. cbn [mfoldl].
  destruct (modify_one_spec t f b0 Ht Hb0) as (t1 & -> & Ht1 & Hs1). mrun.
  destruct (IH t1 Ht1 Hnd Hok) as (t2 & -> & Ht2 & Hs2).
  exists t2. split_and!; [done..|]. intros b Hb. rewrite Hs2, Hs1 by done.
  destruct (decide (b = b0)) as [->|Hne].
  - rewrite decide_False by done. by rewrite decide_True by left.
  - destruct (decide (b ∈ bs)); [by rewrite decide_True by (by right)|].
    by rewrite decide_False by (by intros [?|?]%elem_of_cons).
Qed.

(** The blocks a range of ports is stored under. *)
Definition range_blocks (r : Z * Z) : list PortPrefix :=
  match iter_prefixes r with Ret l => l | Panic => [] end.

Lemma elem_of_range_blocks r port :
  ports_ok r -> u16_ok port ->
  (exists b, b ∈ range_blocks r /\ b ∈ blocks_of port) <->
  range_contains (effective_ports r) port = true.
Proof.
  intros Hr Hport. destruct (iter_prefixes_spec r Hr) as (l & E & _ & Hd).
  unfold range_blocks, range_contains. rewrite E, bool_decide_eq_true.
  destruct Hd as (Hok & _ & _ & Hcov). rewrite <- Hcov by done. rewrite Forall_forall in Hok.
  split; intros (b' & Hin & Hb'); exists b'; (split; [done|]); apply block_covers; auto.
Qed.

Lemma trie_modify_spec t r f :
  trie_wf t -> ports_ok r ->
  exists t', trie_modify t r f = Ret t' /\ trie_wf t' /\
    forall b, index_u8 b ->
      pslot t' b = if decide (b ∈ range_blocks r) then (apply_mod f (pslot t b)).1 else pslot t b.
Proof.
  intros Ht Hr. unfold trie_modify, range_blocks.
  destruct (iter_prefixes_spec r Hr) as (l & -> & _ & Hok & Hsort & _). mrun.
  apply modify_all_spec; [done|by apply sorted_blocks_NoDup|].
  eapply Forall_impl; [exact Hok|]. intros b. apply pfx_ok_index.
Qed.

Lemma gather_spec (a : Array256 T) ixs :
  array_wf a -> Forall (fun i => (i < 256)%nat) ixs -> gather a ixs = Ret (omap (slot a) ixs).
Proof.
  intros Hwf. induction 1 as [|i ixs Hi _ IH]; [done|]. cbn [gather].
  rewrite get_spec by (done || unfold u8_ok; lia). mrun. rewrite IH. mrun.
  rewrite Nat2Z.id. cbn [omap list_omap]. by destruct (slot a i).
Qed.

Lemma lpm_matches_spec (a : Array256 T) o :
  array_wf a -> u8_ok o ->
  exists vs, lpm_matches a o = Ret vs /\
    forall v, v ∈ vs <-> exists l, 0 <= l <= 7 /\ slot a (Z.to_nat (fp o l)) = Some v.
Proof.
  intros Hwf Ho. unfold lpm_matches. rewrite from_pfx_7_fp by done. mrun.
  destruct (lpm_spec o 7 Ho ltac:(lia)) as (e & -> & Hwe & He). mrun.
  pose proof Hwf as [Hwb _]. pose proof (wf_intersect 4 e (bitset a) Hwe Hwb) as Hwi.
  rewrite bits_spec by apply Hwi.
  assert (forall i, i ∈ positions (Bitset.intersect_inplace e (bitset a)) <->
    (exists l, 0 <= l <= 7 /\ Z.of_nat i = fp o l) /\ bit (bitset a) i = true) as Hpos.
  { intros i. rewrite elem_of_positions, (intersect_bit 4), andb_true_iff, He by done. done. }
  rewrite gather_spec.
  - eexists; split; [done|]. intros v. rewrite list_elem_of_omap. split.
    + intros (i & ((l & Hl & Ei) & _)%Hpos & Hv). exists l. split; [done|].
      by rewrite <- Ei, Nat2Z.id.
    + intros (l & Hl & Hv). exists (Z.to_nat (fp o l)). split; [|done]. apply Hpos.
      pose proof (fp_u8 o l Ho Hl) as Hu. unfold u8_ok in Hu.
      split; [exists l; split; [done|lia]|]. apply slot_is_Some; [done|by eexists].
  - done.
  - apply Forall_forall. intros i [_ Hb]%Hpos. by eapply bit_256.
Qed.

Lemma trie_lookup_spec t port :
  trie_wf t -> u16_ok port ->
  exists vs, trie_lookup t port = Ret vs /\
    forall v, v ∈ vs <-> exists b, b ∈ blocks_of port /\ pslot t b = Some v.
Proof.
  intros (Hp & Hc & Hcc) Hport. pose proof (hi_u8 port Hport) as Hh. pose proof (lo_u8 port) as Hl.
  unfold trie_lookup, prefix_matches, child_matches, child_lookup.
  destruct (lpm_matches_spec (prefixes t) _ Hp Hh) as (ps & -> & Hps). mrun.
  rewrite get_spec by done. mrun.
  assert (exists cs, (match slot (port_children t) (Z.to_nat (port_byte_hi port)) with
      | Some c => lpm_matches (child_prefixes c) (port_byte_lo port) | None => Ret [] end) = Ret cs /\
    forall v, v ∈ cs <-> exists l, 0 <= l <= 7 /\
      pslot t (PChild (port_byte_hi port) (fp (port_byte_lo port) l)) = Some v) as (cs & -> & Hcs).
  { cbn [pslot]. destruct (slot (port_children t) _) as [c|] eqn:Ec; cbn [mbind option_bind].
    - by apply lpm_matches_spec; [eapply Hcc|].
    - exists []. split; [done|]. intros v. rewrite elem_of_nil. naive_solver. }
  mrun. eexists; split; [done|]. intros v. rewrite !elem_of_app, Hps, Hcs.
  assert (v ∈ option_list (singletons t !! port) <-> singletons t !! port = Some v) as ->.
  { destruct (singletons t !! port) as [w|]; cbn; rewrite ?list_elem_of_singleton, ?elem_of_nil;
      naive_solver. }
 
  setoid_rewrite elem_of_blocks_of. split.
  - intros [(l & Hl' & Hv)|[(l & Hl' & Hv)|Hv]].
    + exists (PPrefix (fp (port_byte_hi port) l)). split; [left; by exists l|done].
    + eexists; split; [|exact Hv]. right; left. by exists l.
    + exists (PSingleton port). split; [by right; right|done].
  - intros (b & [(l & Hl' & ->)|[(l & Hl' & ->)| ->]] & Hv); eauto.
Qed.

Lemma empty_trie_wf : trie_wf (EMPTY_TRIE (T:=T)).
Proof. split_and!; [apply empty_array_wf..|]. intros i c. cbn. by rewrite slot_empty. Qed.

Lemma pslot_empty b : pslot (EMPTY_TRIE (T:=T)) b = None.
Proof. destruct b; cbn; by rewrite ?slot_empty. Qed.
End View.

(** C39: a range of ports is stored as at most 32 aligned blocks, disjoint and
    in ascending order, which cover exactly the ports of the range, unless the
    range has 65535 ports. *)
Theorem iter_prefixes_covers r :
  ports_ok r -> r.2 - r.1 + 1 <> 65535 ->
  exists l, iter_prefixes r = Ret l /\ (length l <= 32)%nat /\
    StronglySorted (fun a b => pend a < pstart b) l /\
    forall port, u16_ok port ->
      (exists b, b ∈ l /\ pstart b <= port <= pend b) <-> range_contains r port = true.
Proof.
  intros Hr Hne. destruct (iter_prefixes_spec r Hr) as (l & E & Hlen & _ & Hsort & _ & Hcov).
  exists l. split_and!; [done..|]. intros port Hport. rewrite Hcov by done.
  unfold effective_ports, range_contains. rewrite decide_False, bool_decide_eq_true by done. done.
Qed.

Lemma iter_prefixes_covers_witness :
  exists l, iter_prefixes (1024, 65535) = Ret l /\ (length l <= 32)%nat /\
    StronglySorted (fun a b => pend a < pstart b) l /\
    forall port, u16_ok port ->
      (exists b, b ∈ l /\ pstart b <= port <= pend b) <-> range_contains (1024, 65535) port = true.
Proof. apply iter_prefixes_covers; [|done]. split; unfold u16_ok; cbn; lia. Defined.

(** The two ranges of exactly 65535 ports are stored as the range of all
    ports: a range that leaves out port 0 covers it. *)
Theorem port_range_widened :
  iter_prefixes (1, 65535) = iter_prefixes ALL_PORTS /\
  iter_prefixes (0, 65534) = iter_prefixes ALL_PORTS /\
  range_contains (1, 65535) 0 = false /\
  exists b, iter_prefixes (1, 65535) = Ret [b] /\ to_range b = ALL_PORTS.
Proof. split_and!; [vm_compute; reflexivity..|]. exists (PPrefix 1). by vm_compute. Qed.
