(* ===== verification/FilterLookup.v ===== *)
(** * FilterLookup: the indices of the bart packet filter

    Models the parts of src/ts_bart_packetfilter/src that resolve one aspect
    of a packet to a set of rule identifiers: the free list of identifiers
    (lib.rs), the capability index (cap_lookup.rs) and the destination index
    (dst_port.rs).  A set of identifiers is a [DynBitset], the bitset of
    DynBitset.v with chunks of one word.

    The closures given to [modify] set or clear an identifier in place; on a
    well-formed bitset neither operation panics, so they are total here. *)

From stdpp Require Import gmap strings countable sorting.
From S2P Require Import Prelude Bitset DynBitset Array256 BaseIndex IpNet Bytes Stride IpTrie TrieSpec TrieUpdate TrieRemove TrieLookup Table Routing PacketFilter PortTrie.

Abbreviation IdSet := (list (list Z)).

(** ** The free list *)

Definition pop_freelist (b : IdSet) : outcome (option nat * IdSet) :=
  match dyn_first_set b with
  | Some first => b ← dyn_clear 1 b first; Ret (Some first, b)
  | None => Ret (None, b)
  end.

(** [while let Some(None) = v.last() { v.pop(); }] *)
Fixpoint drop_nones {A} (rev_v : list (option A)) : list (option A) :=
  match rev_v with
  | None :: rest => drop_nones rest
  | _ => rev_v
  end.

Definition pop_trailing {A} (v : list (option A)) : list (option A) := rev (drop_nones (rev v)).

(** ** Closures over one identifier *)

Definition ret_or {A} (m : outcome A) (d : A) : A := match m with Ret x => x | Panic => d end.

Definition set_or_insert (id : nat) : ModifyFn IdSet :=
  mkModifyFn (Insert (ret_or (dyn_with_bit 1 dyn_empty id) dyn_empty))
    (fun v => (ret_or (dyn_set 1 v id) v, Noop)).

Definition clear_or_remove (id : nat) : ModifyFn IdSet :=
  mkModifyFn Noop
    (fun v => let v := ret_or (dyn_clear 1 v id) v in
      (v, if dyn_is_empty v then Remove else Noop)).

(** [fold(DynBitset::default(), |acc, x| { acc.union_inplace(x); acc })] *)
Definition union_all (vs : list IdSet) : IdSet := foldl dyn_union_inplace dyn_empty vs.

(** ** cap_lookup.rs *)

Record CapLookup := mkCapLookup {
  ids : gmap string nat;
  caps_to_rules : list (option IdSet);
  cap_freelist : IdSet;
}.

Definition cap_empty : CapLookup := mkCapLookup ∅ [] dyn_empty.

Definition cap_compact (c : CapLookup) : outcome CapLookup :=
  let v := pop_trailing (caps_to_rules c) in
  fl ← zero_from 1 (cap_freelist c) (length v);
  Ret (mkCapLookup (ids c) v fl).

(** The [let id = ..] of [insert]. *)
Definition cap_id (c : CapLookup) (cap_name : string) : outcome (CapLookup * nat) :=
  match ids c !! cap_name with
  | Some id => Ret (c, id)
  | None =>
      '(popped, fl) ← pop_freelist (cap_freelist c);
      match popped with
      | Some id => Ret (mkCapLookup (<[cap_name := id]> (ids c)) (caps_to_rules c) fl, id)
      | None =>
          let id := length (caps_to_rules c) in
          Ret (mkCapLookup (<[cap_name := id]> (ids c)) (caps_to_rules c ++ [None]) fl, id)
      end
  end.

Definition cap_insert (c : CapLookup) (cap_name : string) (rule_id : nat)
    : outcome (CapLookup * nat) :=
  '(c, id) ← cap_id c cap_name;
  entry ← idx (caps_to_rules c) id;
  rules ← dyn_set 1 (default dyn_empty entry) rule_id;
  v ← upd (caps_to_rules c) id (Some rules);
  Ret (mkCapLookup (ids c) v (cap_freelist c), id).

Definition cap_remove (c : CapLookup) (rule_id : nat) (cap_name : string) : outcome CapLookup :=
  match ids c !! cap_name with
  | None => Ret c
  | Some id =>
      '(v, remove) ←
        match caps_to_rules c !! id with
        | Some (Some rules) =>
            rules ← dyn_clear 1 rules rule_id;
            Ret (<[id := Some rules]> (caps_to_rules c), dyn_is_empty rules)
        | _ => Ret (caps_to_rules c, false)
        end;
      c ←
        (if (remove : bool) then
          fl ← dyn_set 1 (cap_freelist c) id;
          Ret (mkCapLookup (delete cap_name (ids c)) (<[id := None]> v) fl)
        else Ret (mkCapLookup (ids c) v (cap_freelist c)));
      cap_compact c
  end.

Definition cap_clear : CapLookup := mkCapLookup ∅ [] clear_all.

Definition cap_lookup (c : CapLookup) (cs : list string) : IdSet :=
  union_all (omap (fun id => mjoin (caps_to_rules c !! id)) (omap (fun cap => ids c !! cap) cs)).

(** ** dst_port.rs *)

#[global] Instance DstMatch_eq_dec `{!IpNetOps} : EqDecision DstMatch.
Proof. solve_decision. Defined.

#[global] Instance DstMatch_countable `{!IpNetOps, !Countable IpNet} : Countable DstMatch :=
  inj_countable' (fun d => (ports d, ips d)) (fun x => mkDstMatch x.1 x.2) (fun d => match d with
    mkDstMatch _ _ => eq_refl end).

Section DstLookup.
Context `{!IpNetOps, !Countable IpNet}.

Record DstMatchLookup := mkDstMatchLookup {
  dsts : Split.SplitStackTable (Node IdSet);
  dst_ports : PortTrie IdSet;
  dstmatch_ids : gmap DstMatch IdSet;
  dstmatch_id_to_rule_id : list (option nat);
  freelist : IdSet;
}.

Definition dst_empty : DstMatchLookup := mkDstMatchLookup Split.EMPTY EMPTY_TRIE ∅ [] dyn_empty.

Definition dst_compact (l : DstMatchLookup) : outcome DstMatchLookup :=
  let v := pop_trailing (dstmatch_id_to_rule_id l) in
  fl ← zero_from 1 (freelist l) (length v);
  Ret (mkDstMatchLookup (dsts l) (dst_ports l) (dstmatch_ids l) v fl).

Definition dst_clear : DstMatchLookup := mkDstMatchLookup Split.EMPTY EMPTY_TRIE ∅ [] clear_all.

(** [bits().find(|id| table[id].is_some_and(|r| r == rule))] *)
Fixpoint find_rule (table : list (option nat)) (rule : nat) (is_ : list nat) : outcome (option nat) :=
  match is_ with
  | [] => Ret None
  | id :: is_ =>
      r ← idx table id;
      if bool_decide (r = Some rule) then Ret (Some id) else find_rule table rule is_
  end.

Definition lookup_dstmatch_id (l : DstMatchLookup) (rule : nat) (d : DstMatch)
    : outcome (option nat) :=
  match dstmatch_ids l !! d with
  | None => Ret None
  | Some b => find_rule (dstmatch_id_to_rule_id l) rule (dyn_bits 1 b)
  end.

Definition modify_all (t : Split.SplitStackTable (Node IdSet)) (pfxs : list IpNet) (f : ModifyFn IdSet)
    : outcome (Split.SplitStackTable (Node IdSet)) :=
  mfoldl (fun t pfx => '(t, _) ← Split.modify t pfx f; Ret t) t pfxs.

(** The [let id = ..] of [insert]. *)
Definition dst_id (l : DstMatchLookup) (rule : nat) (d : DstMatch)
    : outcome (DstMatchLookup * nat) :=
  allocated_id ← lookup_dstmatch_id l rule d;
  match allocated_id with
  | Some id => Ret (l, id)
  | None =>
      '(popped, fl) ← pop_freelist (freelist l);
      '(v, id) ←
        match popped with
        | Some free => v ← upd (dstmatch_id_to_rule_id l) free (Some rule); Ret (v, free)
        | None => Ret (dstmatch_id_to_rule_id l ++ [Some rule], length (dstmatch_id_to_rule_id l))
        end;
      b ← dyn_set 1 (default dyn_empty (dstmatch_ids l !! d)) id;
      Ret (mkDstMatchLookup (dsts l) (dst_ports l) (<[d := b]> (dstmatch_ids l)) v fl, id)
  end.

Definition dst_insert (l : DstMatchLookup) (rule : nat) (d : DstMatch) : outcome DstMatchLookup :=
  '(l, id) ← dst_id l rule d;
  t ← modify_all (dsts l) (ips d) (set_or_insert id);
  p ← trie_modify (dst_ports l) (ports d) (set_or_insert id);
  dst_compact (mkDstMatchLookup t p (dstmatch_ids l) (dstmatch_id_to_rule_id l) (freelist l)).

Definition dst_remove (l : DstMatchLookup) (rule : nat) (d : DstMatch) : outcome DstMatchLookup :=
  found ← lookup_dstmatch_id l rule d;
  match found with
  | None => Ret l
  | Some id =>
      t ← modify_all (dsts l) (ips d) (clear_or_remove id);
      p ← trie_modify (dst_ports l) (ports d) (clear_or_remove id);
      entry ← unwrap (dstmatch_ids l !! d);
      entry ← dyn_clear 1 entry id;
      let m := if dyn_is_empty entry then delete d (dstmatch_ids l)
               else <[d := entry]> (dstmatch_ids l) in
      stored ← idx (dstmatch_id_to_rule_id l) id;
      v ← upd (dstmatch_id_to_rule_id l) id None;
      _ ← rassert (bool_decide (Some rule = stored));
      fl ← dyn_set 1 (freelist l) id;
      dst_compact (mkDstMatchLookup t p m v fl)
  end.

Definition port_bitset (l : DstMatchLookup) (port : Z) : outcome IdSet :=
  vs ← trie_lookup (dst_ports l) port; Ret (union_all vs).

(** [lookup_all] yields at most one value per prefix length. *)
Definition dst_bitset (l : DstMatchLookup) (ip : IpAddr) : outcome IdSet :=
  it ← Split.lookup_all (dsts l) ip;
  vs ← lookup_collect 130 it;
  Ret (union_all vs).

Definition resolve_rule_ids (l : DstMatchLookup) (b : IdSet) : outcome IdSet :=
  rules ← mfoldl (fun acc x => r ← idx (dstmatch_id_to_rule_id l) x; Ret (acc ++ option_list r))
    [] (dyn_bits 1 b);
  dyn_from_iter 1 rules.

Definition dst_lookup (l : DstMatchLookup) (ip : IpAddr) (port : Z) : outcome IdSet :=
  port_matches ← port_bitset l port;
  ip_matches ← dst_bitset l ip;
  resolve_rule_ids l (dyn_intersect_inplace port_matches ip_matches).

Definition lookup_ips_only (l : DstMatchLookup) (ip : IpAddr) : outcome IdSet :=
  ip_matches ← dst_bitset l ip;
  resolve_rule_ids l ip_matches.

Definition lookup_all_ports_ips (l : DstMatchLookup) (ip : IpAddr) : outcome IdSet :=
  all_ports ← port_bitset l 0;
  top ← port_bitset l 65535;
  let all_ports := dyn_intersect_inplace all_ports top in
  ip_matches ← dst_bitset l ip;
  resolve_rule_ids l (dyn_intersect_inplace all_ports ip_matches).
End DstLookup.

(** ** Sets of identifiers *)

Local Abbreviation has := (dbit 1).
Local Abbreviation ids_wf := (dwf 1).

(** [o] is absent or a well-formed bitset with at least one identifier. *)
Definition idset_ok (o : option IdSet) : Prop :=
  match o with Some b => ids_wf b /\ exists i, has b i = true | None => True end.

Definition idset_in (o : option IdSet) (i : nat) : bool :=
  match o with Some b => has b i | None => false end.

Lemma one_pos : 0 < 1.
Proof. lia. Qed.

Lemma empty_wf : ids_wf dyn_empty.
Proof. by split; [constructor|]. Qed.

Lemma has_empty i : has dyn_empty i = false.
Proof. done. Qed.

#[export] Hint Resolve empty_wf one_pos : rust.

Lemma set_total b i :
  ids_wf b -> exists b', dyn_set 1 b i = Ret b' /\ ids_wf b' /\
    forall j, has b' j = bool_decide (j = i) || has b j.
Proof. apply (dyn_set_spec 1 one_pos). Qed.

Lemma clear_total b i :
  ids_wf b -> exists b', dyn_clear 1 b i = Ret b' /\ ids_wf b' /\
    forall j, has b' j = negb (bool_decide (j = i)) && has b j.
Proof. apply (dyn_clear_spec 1 one_pos). Qed.

Lemma dyn_is_empty_spec b : ids_wf b -> dyn_is_empty b = true <-> forall i, has b i = false.
Proof.
  intros [Hf _]. unfold dyn_is_empty. rewrite forallb_forall. split.
  - intros He i. unfold dbit. destruct (b !! _) as [w|] eqn:Ew; [|done].
    apply (is_empty_true 1); [by eapply Forall_lookup_1|]. apply He.
    apply list_elem_of_In. by eapply list_elem_of_lookup_2.
  - intros Hb w Hin. apply list_elem_of_In, list_elem_of_lookup in Hin as [k Hk].
    pose proof (Forall_lookup_1 _ _ _ _ Hf Hk) as Hw. apply (is_empty_spec 1 w Hw). intros j.
    destruct (Nat.lt_ge_cases j 64) as [Hj|Hj].
    + specialize (Hb (k * BITSET_WIDTH 1 + j)).
      by rewrite (dbit_at 1 one_pos b k w j) in Hb.
    + apply bit_ge. unfold N_BITS. by rewrite (proj1 Hw).
Qed.

Lemma dyn_is_empty_false b : ids_wf b -> dyn_is_empty b = false <-> exists i, has b i = true.
Proof.
  intros Hb. split.
  - intros E. destruct (decide (Exists (fun i => has b i = true) (dyn_bits 1 b))) as [Hx|Hx].
    + apply Exists_exists in Hx as (i & _ & Hi). by exists i.
    + exfalso. apply not_true_iff_false in E. apply E. apply dyn_is_empty_spec; [done|].
      intros i. apply not_true_is_false. intros Hi. apply Hx. apply Exists_exists. exists i.
      split; [|done]. rewrite dyn_bits_spec by (apply Hb || lia).
      apply list_elem_of_filter. split; [done|]. apply elem_of_seq.
      apply (dbit_lt 1 one_pos) in Hi. lia.
  - intros [i Hi]. apply not_true_is_false. rewrite dyn_is_empty_spec by done.
    intros Hno. by rewrite Hno in Hi.
Qed.

Lemma elem_of_dyn_bits b i : ids_wf b -> i ∈ dyn_bits 1 b <-> has b i = true.
Proof.
  intros Hb. rewrite dyn_bits_spec by (apply Hb || lia). rewrite list_elem_of_filter, elem_of_seq.
  split; [tauto|]. intros Hi. split; [done|]. apply (dbit_lt 1 one_pos) in Hi. lia.
Qed.

Lemma set_or_insert_spec id o :
  idset_ok o ->
  idset_ok (apply_mod (set_or_insert id) o).1 /\
  forall i, idset_in (apply_mod (set_or_insert id) o).1 i = bool_decide (i = id) || idset_in o i.
Proof.
  intros Ho. destruct o as [b|]; cbn [apply_mod set_or_insert on_some on_none fst].
  - destruct Ho as [Hb [k Hk]]. destruct (set_total b id Hb) as (b' & -> & Hb' & Hs). cbn.
    split; [|done]. split; [done|]. exists k. by rewrite Hs, Hk, orb_true_r.
  - unfold dyn_with_bit. destruct (set_total dyn_empty id empty_wf) as (b' & -> & Hb' & Hs). cbn.
    split.
    + split; [done|]. exists id. by rewrite Hs, bool_decide_eq_true_2.
    + intros i. by rewrite Hs, has_empty.
Qed.

Lemma clear_or_remove_spec id o :
  idset_ok o ->
  idset_ok (apply_mod (clear_or_remove id) o).1 /\
  forall i, idset_in (apply_mod (clear_or_remove id) o).1 i
            = negb (bool_decide (i = id)) && idset_in o i.
Proof.
  intros Ho. destruct o as [b|]; cbn [apply_mod clear_or_remove on_some on_none fst idset_in].
  - destruct Ho as [Hb _]. destruct (clear_total b id Hb) as (b' & -> & Hb' & Hs). cbn [ret_or].
    destruct (dyn_is_empty b') eqn:E; cbn.
    + split; [done|]. intros i. rewrite <- Hs. symmetry. by apply dyn_is_empty_spec.
    + split; [|done]. split; [done|]. by apply dyn_is_empty_false.
  - split; [done|]. intros i. by rewrite andb_false_r.
Qed.

Lemma union_all_spec vs :
  Forall ids_wf vs ->
  ids_wf (union_all vs) /\
  forall i, has (union_all vs) i = true <-> exists v, v ∈ vs /\ has v i = true.
Proof.
  unfold union_all. assert (forall acc, ids_wf acc -> Forall ids_wf vs ->
    ids_wf (foldl dyn_union_inplace acc vs) /\
    forall i, has (foldl dyn_union_inplace acc vs) i = true <->
      has acc i = true \/ exists v, v ∈ vs /\ has v i = true) as Hgen.
  { induction vs as [|v vs IH]; intros acc Hacc Hvs; cbn [foldl].
    - split; [done|]. intros i. setoid_rewrite elem_of_nil. naive_solver.
    - apply Forall_cons in Hvs as [Hv Hvs].
      destruct (dyn_union_spec 1 one_pos acc v Hacc Hv) as [Hu Hb].
      destruct (IH _ Hu Hvs) as [H1 H2]. split; [done|]. intros i.
      rewrite H2, Hb, orb_true_iff. setoid_rewrite elem_of_cons. naive_solver. }
  intros Hvs. destruct (Hgen dyn_empty empty_wf Hvs) as [H1 H2]. split; [done|].
  intros i. rewrite H2, has_empty. naive_solver.
Qed.

(** *** The free list *)

Lemma dyn_first_set_from_spec b : forall k,
  Forall (wf 1) b ->
  match dyn_first_set_from k b with
  | Some i => k * 64 <= i /\ has b (i - k * 64) = true /\ forall j, j < i - k * 64 -> has b j = false
  | None => forall j, has b j = false
  end.
Proof.
  induction b as [|w b IH]; intros k Hf; [done|]. cbn [dyn_first_set_from].
  apply Forall_cons in Hf as [Hw Hf]. pose proof (first_set_least 1 w Hw) as Hl.
  assert (forall j, has (w :: b) j = if decide (j < 64) then bit w j else has b (j - 64)) as Hcons.
  { intros j. unfold dbit, BITSET_WIDTH. rewrite Nat.mul_1_l.
    destruct (decide (j < 64)) as [Hj|Hj].
    - rewrite Nat.div_small, Nat.mod_small by done. done.
    - assert (j = j - 64 + 1 * 64) as E by lia.
      assert (j / 64 = S ((j - 64) / 64)) as -> by (rewrite E at 1; rewrite Nat.div_add; lia).
      assert (j mod 64 = (j - 64) mod 64) as -> by (rewrite E at 1; by rewrite Nat.Div0.mod_add).
      done. }
  destruct (first_set w) as [s|] eqn:E; cbn [least_set_from] in Hl.
  - destruct Hl as (_ & Hs & Hlow).
    assert (s < 64) as Hs64.
    { destruct (Nat.lt_ge_cases s 64); [done|]. rewrite bit_ge in Hs; [done|].
      unfold N_BITS. by rewrite (proj1 Hw). }
    replace (k * 64 + s - k * 64) with s by lia. split_and!; [lia| |].
    + rewrite Hcons. by rewrite decide_True.
    + intros j Hj. rewrite Hcons, decide_True by lia. apply Hlow. lia.
  - specialize (IH (S k) Hf). destruct (dyn_first_set_from (S k) b) as [i|].
    + destruct IH as (Hle & Hi & Hlow). split_and!; [lia| |].
      * rewrite Hcons, decide_False by lia. by replace (i - k * 64 - 64) with (i - S k * 64) by lia.
      * intros j Hj. rewrite Hcons. case_decide; [apply Hl; lia|]. apply Hlow. lia.
    + intros j. rewrite Hcons. case_decide; [apply Hl; lia|apply IH].
Qed.

Lemma pop_freelist_spec b :
  ids_wf b ->
  exists r b', pop_freelist b = Ret (r, b') /\ ids_wf b' /\
    match r with
    | Some i => has b i = true /\ (forall j, has b j = true -> i <= j) /\
        forall j, has b' j = negb (bool_decide (j = i)) && has b j
    | None => b' = b /\ forall j, has b j = false
    end.
Proof.
  intros Hb. unfold pop_freelist, dyn_first_set.
  pose proof (dyn_first_set_from_spec b 0 (proj1 Hb)) as Hf.
  destruct (dyn_first_set_from 0 b) as [i|].
  - destruct (clear_total b i Hb) as (b' & -> & Hb' & Hs). mrun. exists (Some i), b'.
    destruct Hf as (_ & Hi & Hlow). rewrite Nat.sub_0_r in *. split_and!; [done..| |done].
    intros j Hj. destruct (Nat.le_gt_cases i j); [done|]. by rewrite Hlow in Hj.
  - exists None, b. by split_and!.
Qed.

(** *** Trailing empty entries *)

Lemma pop_trailing_take {A} (v : list (option A)) :
  exists n, pop_trailing v = take n v /\ n <= length v /\
    forall i, n <= i -> i < length v -> v !! i = Some None.
Proof.
  unfold pop_trailing. induction v as [|x v IH] using rev_ind.
  { exists 0. split_and!; [done..|]. cbn. lia. }
  rewrite rev_app_distr. cbn [rev app]. destruct x as [a|]; cbn [drop_nones].
  - exists (length (v ++ [Some a])). split_and!; [|done|lia].
    rewrite take_ge by done. cbn [rev]. by rewrite rev_involutive.
  - destruct IH as (n & E & Hn & Hnone). exists n. rewrite E, length_app. cbn [length].
    split_and!; [by rewrite take_app_le|lia|]. intros i Hi Hlt.
    destruct (decide (i = length v)) as [->|Hne]; [by apply list_lookup_middle|].
    rewrite lookup_app_l by lia. apply Hnone; lia.
Qed.

Lemma pop_trailing_spec {A} (v : list (option A)) :
  (forall i x, pop_trailing v !! i = Some (Some x) <-> v !! i = Some (Some x)) /\
  forall i, i < length (pop_trailing v) -> pop_trailing v !! i = v !! i.
Proof.
  destruct (pop_trailing_take v) as (n & E & Hn & Hnone). rewrite E. split.
  - intros i x. destruct (Nat.lt_ge_cases i n); [by rewrite lookup_take_lt|].
    rewrite lookup_take_ge by done. split; [done|]. intros Hx.
    rewrite Hnone in Hx; [done|done|]. by eapply lookup_lt_Some.
  - intros i Hi. rewrite length_take in Hi. rewrite lookup_take_lt by lia. done.
Qed.

(** A table with a free list: the free identifiers are empty slots of it. *)
Definition free_ok {A} (v : list (option A)) (fl : IdSet) : Prop :=
  ids_wf fl /\ forall i, has fl i = true -> v !! i = Some None.

Lemma compact_free {A} (v : list (option A)) fl :
  ids_wf fl -> (forall i, has fl i = true -> forall x, v !! i <> Some (Some x)) ->
  exists fl', zero_from 1 fl (length (pop_trailing v)) = Ret fl' /\ free_ok (pop_trailing v) fl'.
Proof.
  intros Hfl Hno. destruct (zero_from_spec 1 one_pos fl (length (pop_trailing v)) Hfl)
    as (fl' & -> & Hfl' & Hs).
  exists fl'. split; [done|]. split; [done|]. intros i Hi. rewrite Hs in Hi.
  apply andb_true_iff in Hi as [Hlt%bool_decide_eq_true Hi].
  destruct (pop_trailing_spec v) as [_ Hpt]. rewrite Hpt by done.
  destruct (lookup_lt_is_Some_2 v i) as [o Ho].
  { destruct (pop_trailing_take v) as (n & E & Hn & _). rewrite E, length_take in Hlt. lia. }
  rewrite Ho. destruct o as [x|]; [|done]. by destruct (Hno i Hi x).
Qed.

(** The slot a new identifier takes: a free one, the least, or the next of
    the table. *)
Lemma pop_slot {A} (v : list (option A)) fl :
  free_ok v fl ->
  exists r fl' id, pop_freelist fl = Ret (r, fl') /\ id = default (length v) r /\ ids_wf fl' /\
    (forall x, v !! id <> Some (Some x)) /\
    match r with Some _ => id < length v | None => True end /\
    forall i, has fl' i = true -> id < i /\ v !! i = Some None.
Proof.
  intros [Hfl Hfree]. destruct (pop_freelist_spec fl Hfl) as (r & fl' & E & Hfl' & Hr).
  exists r, fl', (default (length v) r). do 3 (split; [done|]). destruct r as [i|]; cbn.
  - destruct Hr as (Hi & Hmin & Hs). specialize (Hfree i Hi) as Hslot. split_and!.
    + intros x. by rewrite Hslot.
    + by eapply lookup_lt_Some.
    + intros j Hj. rewrite Hs in Hj. apply andb_true_iff in Hj as [Hne Hj].
      apply negb_true_iff, bool_decide_eq_false in Hne. specialize (Hmin j Hj).
      split; [lia|auto].
  - destruct Hr as [-> Hnone]. split_and!; [|done|].
    + intros x. by rewrite lookup_ge_None_2.
    + intros i Hi. by rewrite Hnone in Hi.
Qed.

(** ** The capability index

    [cap_rel c S]: the index holds exactly the pairs of a capability and a rule
    identifier of [S]. *)

Record cap_rel (c : CapLookup) (S : gset (string * nat)) : Prop := {
  cr_ids cap i : ids c !! cap = Some i ->
    exists b, caps_to_rules c !! i = Some (Some b) /\ ids_wf b /\
      forall r, has b r = bool_decide ((cap, r) ∈ S);
  cr_live cap r : (cap, r) ∈ S -> is_Some (ids c !! cap);
  cr_inj cap cap' i : ids c !! cap = Some i -> ids c !! cap' = Some i -> cap = cap';
  cr_free : free_ok (caps_to_rules c) (cap_freelist c);
}.

Lemma cap_rel_empty : cap_rel cap_empty ∅.
Proof.
  split; cbn; [by setoid_rewrite lookup_empty|set_solver|by setoid_rewrite lookup_empty|].
  split; [apply empty_wf|done].
Qed.

(** The identifier an insertion works on: its slot, and the other names'
    slots untouched. *)
Lemma cap_insert_alloc c S cap :
  cap_rel c S ->
  exists ids' v fl id o,
    cap_id c cap = Ret (mkCapLookup ids' v fl, id) /\
    ids' = <[cap := id]> (ids c) /\ v !! id = Some o /\ ids_wf (default dyn_empty o) /\
    (forall r, has (default dyn_empty o) r = bool_decide ((cap, r) ∈ S)) /\
    (forall cap' i, cap' <> cap -> ids c !! cap' = Some i -> i <> id /\ v !! i = caps_to_rules c !! i) /\
    ids_wf fl /\ forall i, has fl i = true -> i <> id /\ v !! i = Some None.
Proof.
  intros Hc. pose proof (cr_free _ _ Hc) as [Hfl Hfree]. unfold cap_id.
  destruct (ids c !! cap) as [id|] eqn:E.
  - destruct (cr_ids _ _ Hc _ _ E) as (b & Hb & Hwf & Hin).
    exists (ids c), (caps_to_rules c), (cap_freelist c), id, (Some b). split_and!; try done.
    + by destruct c.
    + by rewrite insert_id.
    + intros cap' i Hne Hi. split; [|done]. intros ->. by apply Hne, (cr_inj _ _ Hc _ _ id).
    + intros i Hi. specialize (Hfree i Hi). split; [|done]. intros ->. congruence.
  - assert (forall r, false = bool_decide ((cap, r) ∈ S)) as Hno.
    { intros r. symmetry. apply bool_decide_eq_false. intros [x Hx]%(cr_live _ _ Hc). congruence. }
    destruct (pop_freelist_spec _ Hfl) as (r & fl & -> & Hfl' & Hr). mrun. destruct r as [id|].
    + destruct Hr as (Hid & _ & Hs). pose proof (Hfree _ Hid) as Hslot.
      eexists _, _, _, id, None.
      do 3 (split; [done|]). split; [apply empty_wf|]. split; [done|]. split; [|split; [done|]].
      * intros cap' i _ Hi. split; [|done]. destruct (cr_ids _ _ Hc _ _ Hi) as (b & Hb & _).
        intros ->. congruence.
      * intros i Hi. rewrite Hs in Hi. apply andb_true_iff in Hi as [Hne Hi].
        apply negb_true_iff, bool_decide_eq_false in Hne. split; [done|auto].
    + destruct Hr as [-> Hnone]. eexists _, _, _, _, None.
      do 2 (split; [done|]). split; [by apply list_lookup_middle|]. split; [apply empty_wf|].
      split; [done|]. split; [|split; [done|]].
      * intros cap' i _ Hi. destruct (cr_ids _ _ Hc _ _ Hi) as (b & Hb & _).
        pose proof (lookup_lt_Some _ _ _ Hb). split; [lia|]. by rewrite lookup_app_l.
      * intros i Hi. by rewrite Hnone in Hi.
Qed.

Lemma cap_insert_spec c S cap rule :
  cap_rel c S ->
  exists c' id, cap_insert c cap rule = Ret (c', id) /\ cap_rel c' ({[(cap, rule)]} ∪ S).
Proof.
  intros Hc. destruct (cap_insert_alloc c S cap Hc)
    as (ids' & v & fl & id & o & E & -> & Hv & Hwf & Hin & Hother & Hfl & Hfree).
  unfold cap_insert. rewrite E. mrun. cbn [caps_to_rules FilterLookup.ids cap_freelist].
  unfold idx. rewrite Hv. cbn [unwrap]. mrun.
  destruct (set_total _ rule Hwf) as (b & -> & Hb & Hs). mrun.
  pose proof (lookup_lt_Some _ _ _ Hv) as Hlt. unfold upd. rewrite decide_True by done. mrun.
  eexists _, _. split; [done|]. constructor; cbn [caps_to_rules FilterLookup.ids cap_freelist].
  - intros cap' i. destruct (decide (cap' = cap)) as [->|Hne].
    + rewrite lookup_insert_eq. intros [= <-]. exists b. rewrite list_lookup_insert_eq by done.
      split_and!; [done..|]. intros r. rewrite Hs, Hin.
      repeat case_bool_decide; set_solver.
    + rewrite lookup_insert_ne by done. intros Hi. destruct (Hother _ _ Hne Hi) as [Hii Hvi].
      destruct (cr_ids _ _ Hc _ _ Hi) as (b' & Hb' & Hwf' & Hin'). exists b'.
      rewrite list_lookup_insert_ne, Hvi by done. split_and!; [done..|]. intros r. rewrite Hin'.
      apply bool_decide_ext. set_solver.
  - intros cap' r Hin'. destruct (decide (cap' = cap)) as [->|Hne]; [by rewrite lookup_insert_eq|].
    rewrite lookup_insert_ne by done. apply (cr_live _ _ Hc cap' r). set_solver.
  - intros cap1 cap2 i. destruct (decide (cap1 = cap)) as [->|H1], (decide (cap2 = cap)) as [->|H2];
      rewrite ?lookup_insert_eq, ?lookup_insert_ne by done; [done|..].
    + intros [= ->] Hi. by destruct (Hother _ _ H2 Hi).
    + intros Hi [= ->]. by destruct (Hother _ _ H1 Hi).
    + apply (cr_inj _ _ Hc).
  - split; [done|]. intros i Hi. destruct (Hfree _ Hi). by rewrite list_lookup_insert_ne.
Qed.

Lemma cap_compact_spec c S :
  (forall cap i, ids c !! cap = Some i ->
    exists b, caps_to_rules c !! i = Some (Some b) /\ ids_wf b /\
      forall r, has b r = bool_decide ((cap, r) ∈ S)) ->
  (forall cap r, (cap, r) ∈ S -> is_Some (ids c !! cap)) ->
  (forall cap cap' i, ids c !! cap = Some i -> ids c !! cap' = Some i -> cap = cap') ->
  ids_wf (cap_freelist c) ->
  (forall i, has (cap_freelist c) i = true -> forall x, caps_to_rules c !! i <> Some (Some x)) ->
  exists c', cap_compact c = Ret c' /\ cap_rel c' S.
Proof.
  intros Hids Hlive Hinj Hfl Hno. unfold cap_compact.
  destruct (compact_free _ _ Hfl Hno) as (fl' & -> & Hfree). mrun. eexists; split; [done|].
  constructor; cbn; [|done..]. intros cap i Hi. destruct (Hids _ _ Hi) as (b & Hb & Hr).
  exists b. split; [|done]. by apply pop_trailing_spec.
Qed.

Lemma cap_remove_spec c S cap rule :
  cap_rel c S ->
  exists c', cap_remove c rule cap = Ret c' /\ cap_rel c' (S ∖ {[(cap, rule)]}).
Proof.
  intros Hc. unfold cap_remove. pose proof (cr_free _ _ Hc) as [Hfl Hfree].
  destruct (ids c !! cap) as [id|] eqn:E.
  - destruct (cr_ids _ _ Hc _ _ E) as (b & Hb & Hwf & Hin). rewrite Hb.
    destruct (clear_total b rule Hwf) as (b' & -> & Hb' & Hs). mrun.
    pose proof (lookup_lt_Some _ _ _ Hb) as Hlt.
    assert (forall r, has b' r = bool_decide ((cap, r) ∈ S ∖ {[(cap, rule)]})) as Hin'.
    { intros r. rewrite Hs, Hin. repeat case_bool_decide; set_solver. }
    assert (forall o cap' i, cap' <> cap -> ids c !! cap' = Some i ->
      exists b0, <[id := o]> (caps_to_rules c) !! i = Some (Some b0) /\ ids_wf b0 /\
        forall r, has b0 r = bool_decide ((cap', r) ∈ S ∖ {[(cap, rule)]})) as Hother.
    { intros o cap' i Hne Hi. destruct (cr_ids _ _ Hc _ _ Hi) as (b0 & Hb0 & Hw0 & Hr0).
      exists b0. rewrite list_lookup_insert_ne;
        [|intros ->; by apply Hne, (cr_inj _ _ Hc _ _ i)].
      split_and!; [done..|]. intros r. rewrite Hr0. apply bool_decide_ext. set_solver. }
    destruct (dyn_is_empty b') eqn:Ee.
    + destruct (set_total _ id Hfl) as (fl' & -> & Hfl' & Hsf). mrun.
      rewrite list_insert_insert. pose proof (proj1 (dyn_is_empty_spec b' Hb') Ee) as Hnone.
      apply cap_compact_spec; cbn [FilterLookup.ids caps_to_rules cap_freelist]; [..|done|].
      * intros cap' i. destruct (decide (cap' = cap)) as [->|Hne]; [by rewrite lookup_delete_eq|].
        rewrite lookup_delete_ne by done. rewrite decide_True by done. by apply Hother.
      * intros cap' r Hin1. destruct (decide (cap' = cap)) as [->|Hne].
        -- specialize (Hin' r). rewrite Hnone in Hin'. symmetry in Hin'.
           by apply bool_decide_eq_false in Hin'.
        -- rewrite lookup_delete_ne by done. apply (cr_live _ _ Hc cap' r). set_solver.
      * intros c1 c2 i [_ H1]%lookup_delete_Some [_ H2]%lookup_delete_Some. by eapply (cr_inj _ _ Hc).
      * intros i Hi x. rewrite Hsf in Hi. destruct (decide (i = id)) as [->|Hne].
        -- rewrite decide_True, list_lookup_insert_eq by done. done.
        -- rewrite bool_decide_eq_false_2 in Hi by done. rewrite decide_True, list_lookup_insert_ne by done.
           by rewrite Hfree.
    + mrun. apply cap_compact_spec; cbn [FilterLookup.ids caps_to_rules cap_freelist]; [..|done|].
      * intros cap' i. destruct (decide (cap' = cap)) as [->|Hne]; [|by apply Hother].
        rewrite E. intros [= <-]. exists b'. by rewrite list_lookup_insert_eq.
      * intros cap' r Hin1. apply (cr_live _ _ Hc cap' r). set_solver.
      * apply (cr_inj _ _ Hc).
      * intros i Hi x. specialize (Hfree _ Hi). destruct (decide (i = id)) as [->|Hne]; [congruence|].
        rewrite list_lookup_insert_ne, Hfree by done. done.
  - exists c. split; [done|]. replace (S ∖ {[(cap, rule)]}) with S; [done|].
    apply set_eq. intros [cap' r]. rewrite elem_of_difference, elem_of_singleton. split; [|tauto].
    intros Hin. split; [done|]. intros [= -> ->]. destruct (cr_live _ _ Hc _ _ Hin). congruence.
Qed.

Lemma cap_lookup_spec c S cs :
  cap_rel c S ->
  ids_wf (cap_lookup c cs) /\
  forall r, has (cap_lookup c cs) r = true <-> exists cap, cap ∈ cs /\ (cap, r) ∈ S.
Proof.
  intros Hc. unfold cap_lookup.
  assert (forall b, b ∈ omap (fun id => mjoin (caps_to_rules c !! id)) (omap (fun cap => ids c !! cap) cs) <->
    exists cap id, cap ∈ cs /\ ids c !! cap = Some id /\ caps_to_rules c !! id = Some (Some b)) as Hel.
  { intros b. rewrite list_elem_of_omap. setoid_rewrite list_elem_of_omap. split.
    - intros (id & (cap & Hcap & Hid) & Hb). exists cap, id. split_and!; [done..|].
      by destruct (caps_to_rules c !! id) as [[|]|]; simplify_eq/=.
    - intros (cap & id & Hcap & Hid & Hb). exists id. split; [by exists cap|]. by rewrite Hb. }
  destruct (union_all_spec (omap (fun id => mjoin (caps_to_rules c !! id)) (omap (fun cap => ids c !! cap) cs)))
    as [Hwf Hin].
  { apply Forall_forall. intros b (cap & id & _ & Hid & Hb)%Hel.
    destruct (cr_ids _ _ Hc _ _ Hid) as (b' & Hb' & Hw & _). congruence. }
  split; [done|]. intros r. rewrite Hin. split.
  - intros (b & (cap & id & Hcap & Hid & Hb)%Hel & Hr). exists cap. split; [done|].
    destruct (cr_ids _ _ Hc _ _ Hid) as (b' & Hb' & _ & Hs). assert (b' = b) as -> by congruence.
    rewrite Hs in Hr. by apply bool_decide_eq_true in Hr.
  - intros (cap & Hcap & Hr). destruct (cr_live _ _ Hc _ _ Hr) as [id Hid].
    destruct (cr_ids _ _ Hc _ _ Hid) as (b & Hb & _ & Hs). exists b.
    split; [apply Hel; by exists cap, id|]. rewrite Hs. by apply bool_decide_eq_true.
Qed.

(** ** Identifiers that stand for pairs *)

Lemma insert_pair_iff {A B} (G : gmap nat (A * B)) id rule d i (P : B -> Prop) :
  G !! id = None \/ G !! id = Some (rule, d) ->
  (i = id /\ P d \/ exists r d', G !! i = Some (r, d') /\ P d') <->
  exists r d', <[id := (rule, d)]> G !! i = Some (r, d') /\ P d'.
Proof.
  intros HG. destruct (decide (i = id)) as [->|Hne].
  - rewrite lookup_insert_eq. split.
    + intros [[_ HP]|(r & d' & Hr & HP)]; [by exists rule, d|].
      destruct HG as [HG|HG]; [congruence|]. rewrite HG in Hr. injection Hr as <- <-. by exists rule, d.
    + intros (r & d' & [= <- <-] & HP). by left.
  - rewrite lookup_insert_ne by done. naive_solver.
Qed.

Lemma delete_pair_iff {A B} (G : gmap nat (A * B)) id rule d i (P : B -> Prop) :
  G !! id = Some (rule, d) ->
  ((exists r d', G !! i = Some (r, d') /\ P d') /\ ~ (i = id /\ P d)) <->
  exists r d', delete id G !! i = Some (r, d') /\ P d'.
Proof.
  intros HG. destruct (decide (i = id)) as [->|Hne].
  - rewrite lookup_delete_eq, HG. naive_solver.
  - rewrite lookup_delete_ne by done. naive_solver.
Qed.

(** ** Tables of identifiers

    A routing table and a port trie whose values are sets of identifiers are
    relations: between prefixes (or blocks of ports) and identifiers. *)

(** How a closure changes the membership of each identifier. *)
Definition acts (f : ModifyFn IdSet) (h : nat -> bool -> bool) : Prop :=
  (forall o, idset_ok o -> idset_ok (apply_mod f o).1 /\
    forall i, idset_in (apply_mod f o).1 i = h i (idset_in o i)) /\
  forall i b, h i (h i b) = h i b.

Lemma set_acts id : acts (set_or_insert id) (fun i b => bool_decide (i = id) || b).
Proof. split; [apply set_or_insert_spec|]. intros i b. by destruct (bool_decide _), b. Qed.

Lemma clear_acts id : acts (clear_or_remove id) (fun i b => negb (bool_decide (i = id)) && b).
Proof. split; [apply clear_or_remove_spec|]. intros i b. by destruct (bool_decide _), b. Qed.

Section Tables.
Context `{!IpNetOps, !IpNetLaws, !Countable IpNet}.
Implicit Types (t : Split.SplitStackTable (Node IdSet)) (R : IpNet -> nat -> Prop).

Definition tbl_rel t R : Prop :=
  exists m, table_rel t m /\ (forall p, idset_ok (m p)) /\
    forall p i, idset_in (m p) i = true <-> R p i.

#[export] Instance tbl_rel_proper :
  Proper (eq ==> pointwise_relation _ (pointwise_relation _ iff) ==> iff) tbl_rel.
Proof.
  intros t _ <- R R' HR. unfold tbl_rel. split; intros (m & Hm & Hok & Hin); exists m;
    (split_and!; [done..|]); intros p i; rewrite Hin; [|symmetry]; apply HR.
Qed.

Lemma tbl_rel_iff t R R' : tbl_rel t R -> (forall p i, R p i <-> R' p i) -> tbl_rel t R'.
Proof. intros Ht HR. eapply tbl_rel_proper; [done| |exact Ht]. intros p i. by rewrite HR. Qed.

Lemma tbl_empty : tbl_rel Split.EMPTY (fun _ _ => False).
Proof. exists (fun _ => None). split_and!; [apply table_rel_empty|done..]. Qed.

Lemma modify_all_acts f h pfxs : acts f h -> forall t m,
  table_rel t m -> (forall p, idset_ok (m p)) ->
  exists t' m', modify_all t pfxs f = Ret t' /\ table_rel t' m' /\ (forall p, idset_ok (m' p)) /\
    forall p i, idset_in (m' p) i =
      if decide (p ∈ trunc <$> pfxs) then h i (idset_in (m p) i) else idset_in (m p) i.
Proof.
  intros [Hf Hidem]. induction pfxs as [|q pfxs IH]; intros t m Ht Hok.
  { exists t, m. split_and!; [done..|]. intros p i. by rewrite decide_False by apply not_elem_of_nil. }
  unfold modify_all in *. cbn [mfoldl].
  destruct (table_step_refines t m (OModify q f) Ht) as (t1 & E & Ht1).
  cbn [table_step amap_step fst snd] in E, Ht1. rewrite E. mrun.
  destruct (Hf _ (Hok (trunc q))) as [Hq Hqi].
  destruct (IH t1 _ Ht1) as (t2 & m2 & E2 & Ht2 & Hok2 & Hin2).
  { intros p. unfold aset. by case_decide. }
  exists t2, m2. split_and!; [done..|]. intros p i. rewrite Hin2, fmap_cons. unfold aset.
  destruct (decide (p = trunc q)) as [->|Hne].
  - rewrite Hqi. destruct (decide (trunc q ∈ trunc q :: (trunc <$> pfxs))) as [_|Hno].
    + case_decide; [by rewrite Hidem|done].
    + destruct Hno. apply list_elem_of_here.
  - destruct (decide (p ∈ trunc <$> pfxs)); [by rewrite decide_True by (by right)|].
    by rewrite decide_False by (by intros [?|?]%elem_of_cons).
Qed.

Lemma tbl_set t R pfxs id :
  tbl_rel t R ->
  exists t', modify_all t pfxs (set_or_insert id) = Ret t' /\
    tbl_rel t' (fun p i => i = id /\ p ∈ trunc <$> pfxs \/ R p i).
Proof.
  intros (m & Hm & Hok & Hin).
  destruct (modify_all_acts _ _ pfxs (set_acts id) t m Hm Hok) as (t' & m' & E & Ht' & Hok' & Hin').
  exists t'. split; [done|]. exists m'. split_and!; [done..|]. intros p i. rewrite Hin', <- Hin.
  case_decide; rewrite ?orb_true_iff, ?bool_decide_eq_true; tauto.
Qed.

Lemma tbl_clear t R pfxs id :
  tbl_rel t R ->
  exists t', modify_all t pfxs (clear_or_remove id) = Ret t' /\
    tbl_rel t' (fun p i => R p i /\ ~ (i = id /\ p ∈ trunc <$> pfxs)).
Proof.
  intros (m & Hm & Hok & Hin).
  destruct (modify_all_acts _ _ pfxs (clear_acts id) t m Hm Hok) as (t' & m' & E & Ht' & Hok' & Hin').
  exists t'. split; [done|]. exists m'. split_and!; [done..|]. intros p i. rewrite Hin', <- Hin.
  case_decide; rewrite ?andb_true_iff, ?negb_true_iff, ?bool_decide_eq_false; tauto.
Qed.

(** The prefixes that a lookup of [ip] can answer from. *)
Definition covers (p : IpNet) (ip : IpAddr) : Prop := trunc p = p /\ net_contains p ip = true.

Lemma tbl_lookup_all t R ip :
  tbl_rel t R -> ip_ok ip ->
  exists it vs, Split.lookup_all t ip = Ret it /\ lookup_collect 130 it = Ret vs /\
    ids_wf (union_all vs) /\
    forall i, has (union_all vs) i = true <-> exists p, covers p ip /\ R p i.
Proof.
  intros (m & Hm & Hok & Hin) Hip. destruct (Hm (is_ipv4 ip)) as [[Hwf _] _].
  destruct (lookup_address_all_spec (is_ipv4 ip) _ Hwf ip Hip eq_refl) as (it & Hit & Hc).
  rewrite (matches_amatches t m ip), <- amatch_list_values in Hc by done.
  exists it, (amatch_list m ip (8 * width (is_ipv4 ip) + 1)).*2.
  assert (forall v, v ∈ (amatch_list m ip (8 * width (is_ipv4 ip) + 1)).*2 <->
    exists p, covering m ip p v) as Hel.
  { intros v. rewrite list_elem_of_fmap. split.
    - intros ([p w] & -> & [_ Hcov]%elem_of_amatch_list); [by exists p|done].
    - intros [p Hcov]. exists (p, v). split; [done|]. apply elem_of_amatch_list; [done|].
      split; [by eapply covering_len|done]. }
  destruct (union_all_spec (amatch_list m ip (8 * width (is_ipv4 ip) + 1)).*2) as [Hw Hu].
  { apply Forall_forall. intros v (p & _ & _ & Hp)%Hel. specialize (Hok p). rewrite Hp in Hok.
    apply Hok. }
  split_and!; [exact Hit|done|apply Hw..|]. intros i. rewrite Hu. split.
  - intros (v & (p & Htr & Hco & Hp)%Hel & Hv). exists p. split; [done|]. apply Hin. by rewrite Hp.
  - intros (p & [Htr Hco] & HR). apply Hin in HR. destruct (m p) as [v|] eqn:Hp; [|done].
    exists v. split; [|done]. apply Hel. exists p. by split_and!.
Qed.

Lemma tbl_lookup t R ip :
  tbl_rel t R -> ip_ok ip ->
  exists r, Split.lookup t ip = Ret r /\ idset_ok r /\
    forall i, idset_in r i = true <->
      exists p, covers p ip /\ R p i /\
        forall q j, covers q ip -> R q j -> prefix_len q <= prefix_len p.
Proof.
  intros (m & Hm & Hok & Hin) Hip. destruct (Hm (is_ipv4 ip)) as [[Hwf _] _].
  unfold Split.lookup, Simple.lookup. rewrite (lookup_address_spec (is_ipv4 ip)) by done.
  rewrite (matches_amatches t m ip), Nat.add_1_r by done.
  pose proof (head_best_match m ip (8 * width (is_ipv4 ip)) Hip) as Hb.
  eexists; split; [done|]. destruct (head _) as [b|]; cbn [best_match] in Hb.
  - destruct Hb as (p & (Htr & Hco & Hp) & _ & Hbest). pose proof (Hok p) as Hokp.
    rewrite Hp in Hokp. split; [done|].
    assert (forall q j, covers q ip -> R q j -> prefix_len q <= prefix_len p) as Hlong.
    { intros q j [Hq1 Hq2] HR. apply Hin in HR. destruct (m q) as [w|] eqn:Hq; [|done].
      assert (covering m ip q w) as Hcq by done. apply (Hbest q w Hcq).
      pose proof (covering_len m ip q w Hip Hcq). lia. }
    intros i. split.
    + intros Hi. exists p. split_and!; [done..| |done]. apply Hin. by rewrite Hp.
    + intros (q & [Hq1 Hq2] & HR & Hmax).
      assert (q = p) as ->; [|apply Hin in HR; by rewrite Hp in HR].
      destruct Hokp as [_ [k Hk]].
      assert (R p k) as HRp by (apply Hin; by rewrite Hp).
      pose proof (Hmax p k (conj Htr Hco) HRp). pose proof (Hlong q i (conj Hq1 Hq2) HR).
      apply net_contains_iff in Hco as [Hf1 Hf2]; [|done].
      apply net_contains_iff in Hq2 as [Hf3 Hf4]; [|done].
      rewrite <- Htr, <- Hq1. apply ipnet_ext; rewrite ?trunc_len, ?trunc_addr; [|lia].
      unfold mask_addr. rewrite <- Hf1, <- Hf3, <- Hf2, <- Hf4. do 2 f_equal. lia.
  - split; [done|]. intros i. split; [done|]. intros (p & [Htr Hco] & HR & _).
    apply Hin in HR. destruct (m p) as [w|] eqn:Hp; [|done].
    assert (covering m ip p w) as Hcp by done. pose proof (Hb p w Hcp).
    pose proof (covering_len m ip p w Hip Hcp). lia.
Qed.
End Tables.

Definition ptbl_rel (t : PortTrie IdSet) (R : PortPrefix -> nat -> Prop) : Prop :=
  trie_wf t /\ (forall b, index_u8 b -> idset_ok (pslot t b)) /\
  forall b i, index_u8 b -> idset_in (pslot t b) i = true <-> R b i.

Lemma ptbl_rel_iff t R R' :
  ptbl_rel t R -> (forall b i, index_u8 b -> R b i <-> R' b i) -> ptbl_rel t R'.
Proof.
  intros (Hwf & Hok & Hin) HR. split_and!; [apply Hwf..|done|]. intros b i Hb.
  by rewrite <- HR, Hin.
Qed.

Lemma ptbl_empty : ptbl_rel EMPTY_TRIE (fun _ _ => False).
Proof.
  split; [apply empty_trie_wf|]. split; intros b; rewrite pslot_empty; done.
Qed.

Lemma ptbl_modify f h t R r :
  acts f h -> ptbl_rel t R -> ports_ok r ->
  exists t', trie_modify t r f = Ret t' /\ trie_wf t' /\
    (forall b, index_u8 b -> idset_ok (pslot t' b)) /\
    forall b i, index_u8 b -> idset_in (pslot t' b) i =
      if decide (b ∈ range_blocks r) then h i (idset_in (pslot t b) i) else idset_in (pslot t b) i.
Proof.
  intros [Hf _] (Hwf & Hok & Hin) Hr.
  destruct (trie_modify_spec t r f Hwf Hr) as (t' & E & Hwf' & Hs).
  exists t'. split; [done|]. split; [done|]. split.
  - intros b Hb. rewrite Hs by done. case_decide; [apply Hf|]; by apply Hok.
  - intros b i Hb. rewrite Hs by done. case_decide; [|done]. apply Hf. by apply Hok.
Qed.

Lemma ptbl_set t R r id :
  ptbl_rel t R -> ports_ok r ->
  exists t', trie_modify t r (set_or_insert id) = Ret t' /\
    ptbl_rel t' (fun b i => i = id /\ b ∈ range_blocks r \/ R b i).
Proof.
  intros Ht Hr. destruct (ptbl_modify _ _ t R r (set_acts id) Ht Hr) as (t' & E & Hwf & Hok & Hin).
  exists t'. split; [done|]. split; [done|]. split; [done|]. intros b i Hb. destruct Ht as (_ & _ & Ht).
  rewrite Hin, <- Ht by done. case_decide; rewrite ?orb_true_iff, ?bool_decide_eq_true; tauto.
Qed.

Lemma ptbl_clear t R r id :
  ptbl_rel t R -> ports_ok r ->
  exists t', trie_modify t r (clear_or_remove id) = Ret t' /\
    ptbl_rel t' (fun b i => R b i /\ ~ (i = id /\ b ∈ range_blocks r)).
Proof.
  intros Ht Hr. destruct (ptbl_modify _ _ t R r (clear_acts id) Ht Hr) as (t' & E & Hwf & Hok & Hin).
  exists t'. split; [done|]. split; [done|]. split; [done|]. intros b i Hb. destruct Ht as (_ & _ & Ht).
  rewrite Hin, <- Ht by done.
  case_decide; rewrite ?andb_true_iff, ?negb_true_iff, ?bool_decide_eq_false; tauto.
Qed.

Lemma ptbl_lookup t R port :
  ptbl_rel t R -> u16_ok port ->
  exists vs, trie_lookup t port = Ret vs /\ ids_wf (union_all vs) /\
    forall i, has (union_all vs) i = true <-> exists b, b ∈ blocks_of port /\ R b i.
Proof.
  intros (Hwf & Hok & Hin) Hport. destruct (trie_lookup_spec t port Hwf Hport) as (vs & E & Hel).
  exists vs. split; [done|]. destruct (union_all_spec vs) as [Hw Hu].
  { apply Forall_forall. intros v (b & Hb & Hv)%Hel.
    specialize (Hok b (blocks_of_index _ _ Hport Hb)). rewrite Hv in Hok. apply Hok. }
  split; [done|]. intros i. rewrite Hu. split.
  - intros (v & (b & Hb & Hv)%Hel & Hi). exists b. split; [done|].
    apply Hin; [by eapply blocks_of_index|]. by rewrite Hv.
  - intros (b & Hb & HR). pose proof (blocks_of_index _ _ Hport Hb) as Hbi.
    apply Hin in HR; [|done]. destruct (pslot t b) as [v|] eqn:Ev; [|done].
    exists v. split; [|done]. apply Hel. by exists b.
Qed.
