(* ===== verification/FilterDst.v ===== *)
(** * FilterDst: the destination index is a set of pairs

    The index of dst_port.rs (FilterLookup.v) holds a set of pairs of a rule
    identifier and a [DstMatch]: insertion adds a pair, removal deletes it,
    neither panics, and the lookups resolve exactly the rules with a matching
    destination. *)

From stdpp Require Import gmap strings countable sorting.
From S2P Require Import Prelude Bitset DynBitset IpNet Bytes IpTrie TrieRemove Table Stride PacketFilter PortTrie FilterLookup.

Local Abbreviation has := (dbit 1).
Local Abbreviation ids_wf := (dwf 1).

Section Dst.
Context `{!IpNetOps, !IpNetLaws, !Countable IpNet}.
Implicit Types (l : DstMatchLookup) (d : DstMatch) (G : gmap nat (nat * DstMatch)).

(** The identifiers in use: [G] gives the pair each stands for. *)
Record dst_core (m : gmap DstMatch IdSet) (v : list (option nat)) G : Prop := {
  dc_inj i j x : G !! i = Some x -> G !! j = Some x -> i = j;
  dc_rule i r : v !! i = Some (Some r) <-> exists d, G !! i = Some (r, d);
  dc_ok d : idset_ok (m !! d);
  dc_ids d i : idset_in (m !! d) i = true <-> exists r, G !! i = Some (r, d);
}.

Record dst_ghost l G : Prop := {
  dg_core : dst_core (dstmatch_ids l) (dstmatch_id_to_rule_id l) G;
  dg_free : free_ok (dstmatch_id_to_rule_id l) (freelist l);
  dg_ips : tbl_rel (dsts l) (fun p i => exists r d, G !! i = Some (r, d) /\ p ∈ trunc <$> ips d);
  dg_ports : ptbl_rel (dst_ports l)
    (fun b i => exists r d, G !! i = Some (r, d) /\ b ∈ range_blocks (ports d));
  dg_u16 i r d : G !! i = Some (r, d) -> ports_ok (ports d);
}.

(** The index represents a set of pairs. *)
Definition dst_rel l (D : gset (nat * DstMatch)) : Prop :=
  exists G, dst_ghost l G /\ forall r d, (r, d) ∈ D <-> exists i, G !! i = Some (r, d).

Lemma dst_rel_empty : dst_rel dst_empty ∅.
Proof.
  exists ∅. split; [|set_solver]. constructor; cbn.
  - constructor; [set_solver|set_solver|done|set_solver].
  - split; [apply empty_wf|done].
  - eapply tbl_rel_iff; [apply tbl_empty|set_solver].
  - eapply ptbl_rel_iff; [apply ptbl_empty|set_solver].
  - set_solver.
Qed.

(** ** Finding an identifier *)

Lemma find_rule_spec v rule is_ :
  Forall (fun i => is_Some (v !! i)) is_ ->
  exists o, find_rule v rule is_ = Ret o /\
    match o with
    | Some i => i ∈ is_ /\ v !! i = Some (Some rule)
    | None => forall i, i ∈ is_ -> v !! i <> Some (Some rule)
    end.
Proof.
  induction 1 as [|i is_ [o Ho] _ IH]; cbn [find_rule].
  - exists None. split; [done|]. by intros i Hi%not_elem_of_nil.
  - unfold idx. rewrite Ho. cbn [unwrap]. mrun. case_bool_decide as E.
    + exists (Some i). split; [done|]. subst. split; [apply list_elem_of_here|done].
    + destruct IH as (o' & -> & Hres). exists o'. split; [done|]. destruct o' as [j|].
      * destruct Hres. split; [by apply list_elem_of_further|done].
      * intros j [->|Hj]%elem_of_cons; [congruence|by apply Hres].
Qed.

Lemma lookup_dstmatch_id_spec l G rule d :
  dst_ghost l G ->
  exists o, lookup_dstmatch_id l rule d = Ret o /\
    match o with
    | Some i => G !! i = Some (rule, d)
    | None => forall i, G !! i <> Some (rule, d)
    end.
Proof.
  intros [[Hinj Hrule Hok Hids] _ _ _ _]. unfold lookup_dstmatch_id.
  specialize (Hok d). specialize (Hids d). destruct (dstmatch_ids l !! d) as [b|] eqn:Eb.
  - destruct Hok as [Hwf _].
    assert (forall i, i ∈ dyn_bits 1 b -> exists r, G !! i = Some (r, d)) as Hbits.
    { intros i Hi%elem_of_dyn_bits; [|done]. by apply Hids. }
    destruct (find_rule_spec (dstmatch_id_to_rule_id l) rule (dyn_bits 1 b)) as (o & -> & Ho).
    { apply Forall_forall. intros i [r Hr]%Hbits. exists (Some r). apply Hrule. by exists d. }
    exists o. split; [done|]. destruct o as [i|].
    + destruct Ho as [[r Hr]%Hbits Hv]. apply Hrule in Hv as [d' Hd']. congruence.
    + intros i Hi. apply (Ho i); [|apply Hrule; by exists d].
      apply elem_of_dyn_bits; [done|]. apply Hids. by exists rule.
  - exists None. split; [done|]. intros i Hi.
    assert (idset_in (@None IdSet) i = true) as Hin; [|done]. apply Hids. by exists rule.
Qed.

(** ** Compaction *)

Lemma dst_compact_spec t p m v fl G :
  dst_core m v G -> ids_wf fl ->
  (forall i, has fl i = true -> forall x, v !! i <> Some (Some x)) ->
  tbl_rel t (fun p i => exists r d, G !! i = Some (r, d) /\ p ∈ trunc <$> ips d) ->
  ptbl_rel p (fun b i => exists r d, G !! i = Some (r, d) /\ b ∈ range_blocks (ports d)) ->
  (forall i r d, G !! i = Some (r, d) -> ports_ok (ports d)) ->
  exists l', dst_compact (mkDstMatchLookup t p m v fl) = Ret l' /\ dst_ghost l' G.
Proof.
  intros [Hinj Hrule Hok Hids] Hfl Hno Ht Hp Hu. unfold dst_compact. cbn [dstmatch_id_to_rule_id freelist].
  destruct (compact_free v fl Hfl Hno) as (fl' & -> & Hfree). mrun. eexists; split; [done|].
  constructor; cbn; [|done..]. constructor; [done| |done..].
  intros i r. rewrite <- Hrule. apply pop_trailing_spec.
Qed.

(** ** Insertion *)

Lemma dst_slot (v : list (option nat)) fl rule :
  free_ok v fl ->
  exists r fl' v' id, pop_freelist fl = Ret (r, fl') /\
    match r with
    | Some free => v ← upd v free (Some rule); Ret (v, free)
    | None => Ret (v ++ [Some rule], length v)
    end = Ret (v', id) /\
    (forall x, v !! id <> Some (Some x)) /\ v' !! id = Some (Some rule) /\
    (forall i, i <> id -> v' !! i = v !! i) /\ ids_wf fl' /\
    forall i, has fl' i = true -> forall x, v' !! i <> Some (Some x).
Proof.
  intros Hfree. destruct (pop_slot v fl Hfree) as (r & fl' & ? & E & -> & Hfl' & Hnew & Hlt & Hrest).
  exists r, fl'. destruct r as [id|]; cbn in Hnew, Hlt, Hrest |- *.
  - unfold upd. rewrite decide_True by done. eexists _, id. split; [done|]. split; [done|].
    split; [done|]. split; [by apply list_lookup_insert_eq|].
    split; [intros; by apply list_lookup_insert_ne|]. split; [done|].
    intros i Hi x. destruct (Hrest i Hi) as [Hii Hv]. rewrite list_lookup_insert_ne, Hv by lia. done.
  - eexists _, _. split; [done|]. split; [done|]. split; [done|].
    split; [by apply list_lookup_middle|]. split; [|split; [done|]].
    + intros i Hne. destruct (Nat.lt_ge_cases i (length v)); [by rewrite lookup_app_l|].
      rewrite !lookup_ge_None_2; [done|lia|rewrite length_app; cbn; lia].
    + intros i Hi x. destruct (Hrest i Hi) as [Hii Hv].
      apply lookup_lt_Some in Hv. lia.
Qed.

(** A fresh identifier for a new pair. *)
Lemma dst_core_insert m v v' G rule d id b :
  dst_core m v G -> (forall i, G !! i <> Some (rule, d)) ->
  (forall x, v !! id <> Some (Some x)) -> v' !! id = Some (Some rule) ->
  (forall i, i <> id -> v' !! i = v !! i) -> ids_wf b ->
  (forall j, has b j = bool_decide (j = id) || has (default dyn_empty (m !! d)) j) ->
  G !! id = None /\ dst_core (<[d := b]> m) v' (<[id := (rule, d)]> G).
Proof.
  intros [Hinj Hrule Hok Hids] Hnew Hslot Hv Hother Hb Hs.
  assert (G !! id = None) as HG.
  { apply eq_None_not_Some. intros [[r d'] Hx]. apply (Hslot r), Hrule. by exists d'. }
  split; [done|]. constructor.
  - intros i j x. destruct (decide (i = id)) as [->|Hi], (decide (j = id)) as [->|Hj];
      rewrite ?lookup_insert_eq, ?lookup_insert_ne by done; [done|..].
    + intros [= <-] Hx. by apply Hnew in Hx.
    + intros Hx [= <-]. by apply Hnew in Hx.
    + apply Hinj.
  - intros i r'. destruct (decide (i = id)) as [->|Hi].
    + rewrite Hv, lookup_insert_eq. split; [intros [= ->]; by exists d|by intros [? [= -> _]]].
    + rewrite Hother, lookup_insert_ne by done. apply Hrule.
  - intros d'. destruct (decide (d' = d)) as [->|Hd]; [|by rewrite lookup_insert_ne].
    rewrite lookup_insert_eq. split; [done|]. exists id. by rewrite Hs, bool_decide_eq_true_2.
  - intros d' i. destruct (decide (d' = d)) as [->|Hd].
    + rewrite lookup_insert_eq. cbn [idset_in]. rewrite Hs, orb_true_iff, bool_decide_eq_true.
      assert (has (default dyn_empty (m !! d)) i = true <-> exists r, G !! i = Some (r, d))
        as -> by (rewrite <- Hids; by destruct (m !! d)).
      destruct (decide (i = id)) as [->|Hi]; [rewrite lookup_insert_eq|rewrite lookup_insert_ne by done];
        naive_solver.
    + rewrite lookup_insert_ne, Hids by done. destruct (decide (i = id)) as [->|Hi].
      * rewrite lookup_insert_eq, HG. naive_solver.
      * by rewrite lookup_insert_ne by done.
Qed.

(** The identifier of the pair: allocated already, taken from the free list,
    or the next of the table. *)
Lemma dst_alloc l G rule d :
  dst_ghost l G ->
  exists m v fl id,
    dst_id l rule d = Ret (mkDstMatchLookup (dsts l) (dst_ports l) m v fl, id) /\
    (G !! id = None \/ G !! id = Some (rule, d)) /\
    dst_core m v (<[id := (rule, d)]> G) /\ ids_wf fl /\
    forall i, has fl i = true -> forall x, v !! i <> Some (Some x).
Proof.
  intros Hl. pose proof Hl as [Hcore [Hfl Hfree] _ _ _]. unfold dst_id.
  destruct (lookup_dstmatch_id_spec l G rule d Hl) as (o & -> & Ho). mrun. destruct o as [id|].
  { exists (dstmatch_ids l), (dstmatch_id_to_rule_id l), (freelist l), id.
    split; [by destruct l|]. split; [by right|]. rewrite insert_id by done.
    split; [done|]. split; [done|]. intros i Hi x. by rewrite Hfree. }
  destruct (dst_slot _ _ rule (dg_free _ _ Hl))
    as (r & fl & v & id & -> & E & Hslot & Hv & Hother & Hfl' & Hno).
  mrun. rewrite E. mrun.
  assert (ids_wf (default dyn_empty (dstmatch_ids l !! d))) as Hwf.
  { pose proof (dc_ok _ _ _ Hcore d) as Hok.
    destruct (dstmatch_ids l !! d); [apply Hok|apply empty_wf]. }
  destruct (set_total _ id Hwf) as (b & -> & Hb & Hs). mrun.
  destruct (dst_core_insert _ _ v _ rule d id b Hcore Ho Hslot Hv Hother Hb Hs) as [HG Hcore'].
  eexists _, v, fl, id. split; [done|]. split; [by left|]. split; [done|]. by split.
Qed.

Lemma dst_insert_spec l D rule d :
  dst_rel l D -> ports_ok (ports d) ->
  exists l', dst_insert l rule d = Ret l' /\ dst_rel l' ({[(rule, d)]} ∪ D).
Proof.
  intros (G & Hl & HD) Hp. unfold dst_insert.
  destruct (dst_alloc l G rule d Hl) as (m & v & fl & id & E & HG & Hcore & Hfl & Hno).
  pose proof Hl as [_ _ Hips Hports Hu].
  rewrite E. mrun. cbn [dsts dst_ports dstmatch_ids dstmatch_id_to_rule_id freelist].
  destruct (tbl_set _ _ (ips d) id Hips) as (t & -> & Ht). mrun.
  destruct (ptbl_set _ _ (ports d) id Hports Hp) as (p & -> & Hpt). mrun.
  destruct (dst_compact_spec t p m v fl (<[id := (rule, d)]> G)) as (l' & -> & Hl'); [done..| | | |].
  - eapply tbl_rel_iff; [exact Ht|]. intros q i. cbn beta.
    apply (insert_pair_iff G id rule d i (fun d => q ∈ trunc <$> ips d) HG).
  - eapply ptbl_rel_iff; [exact Hpt|]. intros b i _. cbn beta.
    apply (insert_pair_iff G id rule d i (fun d => b ∈ range_blocks (ports d)) HG).
  - intros i r d' [[_ [= <- <-]]|[_ Hi]]%lookup_insert_Some; [done|by eapply Hu].
  - exists l'. split; [done|]. eexists; split; [exact Hl'|]. intros r d'.
    rewrite elem_of_union, elem_of_singleton, HD. split.
    + intros [[= -> ->]|[i Hi]]; [exists id; by rewrite lookup_insert_eq|].
      destruct (decide (i = id)) as [->|Hne]; [|exists i; by rewrite lookup_insert_ne].
      exists id. rewrite lookup_insert_eq. destruct HG; congruence.
    + intros [i [[_ [= <- <-]]|[_ Hi]]%lookup_insert_Some]; [by left|right; by exists i].
Qed.

(** ** Removal *)

Lemma dst_remove_spec l D rule d :
  dst_rel l D ->
  exists l', dst_remove l rule d = Ret l' /\ dst_rel l' (D ∖ {[(rule, d)]}).
Proof.
  intros (G & Hl & HD). unfold dst_remove.
  destruct (lookup_dstmatch_id_spec l G rule d Hl) as (o & -> & Ho). mrun.
  pose proof Hl as [[Hinj Hrule Hok Hids] [Hfl Hfree] Hips Hports Hu]. destruct o as [id|].
  2: { exists l. split; [done|]. exists G. split; [done|]. intros r d'.
       rewrite elem_of_difference, elem_of_singleton, HD. split; [tauto|]. intros [i Hi].
       split; [by exists i|]. intros [= -> ->]. by apply (Ho i). }
  destruct (tbl_clear _ _ (ips d) id Hips) as (t & -> & Ht). mrun.
  destruct (ptbl_clear _ _ (ports d) id Hports (Hu _ _ _ Ho)) as (p & -> & Hpt). mrun.
  assert (idset_in (dstmatch_ids l !! d) id = true) as Hin by (apply Hids; by exists rule).
  pose proof (Hok d) as Hokd. destruct (dstmatch_ids l !! d) as [b|] eqn:Eb; [|done].
  destruct Hokd as [Hwf _]. cbn [unwrap]. mrun.
  destruct (clear_total b id Hwf) as (b' & -> & Hb' & Hs). mrun.
  assert (dstmatch_id_to_rule_id l !! id = Some (Some rule)) as Hv by (apply Hrule; by exists d).
  pose proof (lookup_lt_Some _ _ _ Hv) as Hlt. unfold idx, upd. rewrite Hv, decide_True by done.
  cbn [unwrap]. mrun. rewrite bool_decide_eq_true_2 by done. cbn [rassert]. mrun.
  destruct (set_total _ id Hfl) as (fl & -> & Hfl' & Hsf). mrun.
  set (m := if dyn_is_empty b' then _ else _).
  assert (forall d', idset_ok (m !! d') /\ forall i, idset_in (m !! d') i =
    if decide (d' = d) then has b' i else idset_in (dstmatch_ids l !! d') i) as Hm.
  { intros d'. subst m. destruct (dyn_is_empty b') eqn:Ee; case_decide as Hd; subst;
      rewrite ?lookup_delete_eq, ?lookup_insert_eq, ?lookup_delete_ne, ?lookup_insert_ne by done;
      (split; [|done || intros i]); try apply Hok; try done.
    - symmetry. by apply dyn_is_empty_spec.
    - split; [done|]. by apply dyn_is_empty_false. }
  destruct (dst_compact_spec t p m (<[id := None]> (dstmatch_id_to_rule_id l)) fl (delete id G))
    as (l' & -> & Hl'); [|done|..].
  - constructor.
    + intros i j x [_ Hi]%lookup_delete_Some [_ Hj]%lookup_delete_Some. by eapply Hinj.
    + intros i r. destruct (decide (i = id)) as [->|Hne].
      * rewrite list_lookup_insert_eq, lookup_delete_eq by done. naive_solver.
      * by rewrite list_lookup_insert_ne, lookup_delete_ne by done.
    + intros d'. apply Hm.
    + intros d' i. rewrite (proj2 (Hm d')). case_decide as Hd; [subst d'|].
      * rewrite Hs, andb_true_iff, negb_true_iff, bool_decide_eq_false.
        specialize (Hids d i). rewrite Eb in Hids. cbn [idset_in] in Hids. rewrite Hids.
        destruct (decide (i = id)) as [->|Hne]; [rewrite lookup_delete_eq|rewrite lookup_delete_ne by done];
          naive_solver.
      * rewrite Hids. destruct (decide (i = id)) as [->|Hne]; [|by rewrite lookup_delete_ne].
        rewrite lookup_delete_eq, Ho. naive_solver.
  - intros i Hi x. rewrite Hsf in Hi. destruct (decide (i = id)) as [->|Hne].
    + by rewrite list_lookup_insert_eq.
    + rewrite list_lookup_insert_ne by done. rewrite bool_decide_eq_false_2 in Hi by done.
      by rewrite Hfree.
  - eapply tbl_rel_iff; [exact Ht|]. intros q i. cbn beta.
    apply (delete_pair_iff G id rule d i (fun d => q ∈ trunc <$> ips d) Ho).
  - eapply ptbl_rel_iff; [exact Hpt|]. intros q i _. cbn beta.
    apply (delete_pair_iff G id rule d i (fun d => q ∈ range_blocks (ports d)) Ho).
  - intros i r d' [_ Hi]%lookup_delete_Some. by eapply Hu.
  - exists l'. split; [done|]. eexists; split; [exact Hl'|]. intros r d'.
    rewrite elem_of_difference, elem_of_singleton, HD. split.
    + intros [[i Hi] Hne]. exists i. apply lookup_delete_Some. split; [|done]. intros ->. congruence.
    + intros [i [Hne Hi]%lookup_delete_Some]. split; [by exists i|]. intros [= -> ->].
      by apply Hne, (Hinj _ _ (rule, d)).
Qed.

(** ** Lookups *)

(** The rules of the identifiers in a set. *)
Lemma resolve_spec l G b :
  dst_ghost l G -> ids_wf b -> (forall i, has b i = true -> is_Some (G !! i)) ->
  exists rs, resolve_rule_ids l b = Ret rs /\ ids_wf rs /\
    forall r, has rs r = true <-> exists i d, has b i = true /\ G !! i = Some (r, d).
Proof.
  intros [[_ Hrule _ _] _ _ _ _] Hb Hin. unfold resolve_rule_ids.
  assert (forall is_ acc, Forall (fun i => is_Some (G !! i)) is_ ->
    exists rules, mfoldl (fun acc x => r ← idx (dstmatch_id_to_rule_id l) x; Ret (acc ++ option_list r))
      acc is_ = Ret rules /\
    forall r, r ∈ rules <-> r ∈ acc \/ exists i d, i ∈ is_ /\ G !! i = Some (r, d)) as Hgen.
  { induction is_ as [|i is_ IH]; intros acc Hf.
    - exists acc. split; [done|]. intros r. setoid_rewrite elem_of_nil. naive_solver.
    - apply Forall_cons in Hf as [[[r d] Hi] Hf]. cbn [mfoldl].
      assert (dstmatch_id_to_rule_id l !! i = Some (Some r)) as Hv by (apply Hrule; by exists d).
      assert (idx (dstmatch_id_to_rule_id l) i = Ret (Some r)) as -> by (unfold idx; by rewrite Hv).
      mrun.
      destruct (IH (acc ++ option_list (Some r)) Hf) as (rules & -> & Hr).
      exists rules. split; [done|]. intros r'. rewrite Hr, elem_of_app. change (option_list (Some r)) with [r].
      rewrite list_elem_of_singleton. setoid_rewrite elem_of_cons. split.
      + intros [[Ha| ->]|(j & d' & Hj & Hd')]; [by left|right..].
        * exists i, d. split; [by left|done].
        * exists j, d'. split; [by right|done].
      + intros [Ha|(j & d' & [->|Hj] & Hd')]; [by left; left| |right; by exists j, d'].
        left; right. congruence. }
  destruct (Hgen (dyn_bits 1 b) []) as (rules & -> & Hr).
  { apply Forall_forall. intros i Hi%elem_of_dyn_bits; auto. }
  mrun. destruct (dyn_from_iter_spec 1 one_pos rules) as (rs & -> & Hwf & Hs).
  exists rs. split; [done|]. split; [done|]. intros r. rewrite Hs, bool_decide_eq_true, Hr.
  rewrite elem_of_nil. setoid_rewrite elem_of_dyn_bits; [naive_solver|done].
Qed.

(** A destination that covers the address. *)
Definition dst_covers (d : DstMatch) (ip : IpAddr) : bool :=
  existsb (fun pfx => net_contains pfx ip) (ips d).

(** Some prefix of a list contains an address exactly when its truncation is a
    key a lookup of the address visits. *)
Lemma covered_iff (l : list IpNet) ip :
  ip_ok ip ->
  existsb (fun pfx => net_contains pfx ip) l = true <->
  exists p, covers p ip /\ p ∈ trunc <$> l.
Proof.
  intros Hip. rewrite existsb_exists. split.
  - intros (p & Hin%list_elem_of_In & Hc). exists (trunc p). split; [|by apply list_elem_of_fmap_2].
    split; [apply ipnet_ext; rewrite ?trunc_len, ?trunc_addr, ?trunc_len; [|done]|].
    + unfold mask_addr. by rewrite mk_addr_octets, mk_addr_is_ipv4, mask_octets_idem.
    + apply net_contains_iff in Hc as [H1 H2]; [|done]. apply net_contains_iff; [done|].
      rewrite trunc_len, trunc_addr. unfold mask_addr.
      by rewrite mk_addr_octets, mk_addr_is_ipv4, mask_octets_idem.
  - intros (p & [Htr Hc] & (q & -> & Hq)%list_elem_of_fmap). exists q.
    split; [by apply list_elem_of_In|]. apply net_contains_iff in Hc as [H1 H2]; [|done].
    rewrite trunc_len, trunc_addr in *. unfold mask_addr in *.
    rewrite mk_addr_octets, mk_addr_is_ipv4, mask_octets_idem in *.
    by apply net_contains_iff.
Qed.

Lemma dst_covers_iff d ip :
  ip_ok ip -> dst_covers d ip = true <-> exists p, covers p ip /\ p ∈ trunc <$> ips d.
Proof. apply covered_iff. Qed.

Lemma port_bitset_spec l G port :
  dst_ghost l G -> u16_ok port ->
  exists b, port_bitset l port = Ret b /\ ids_wf b /\
    forall i, has b i = true <->
      exists r d, G !! i = Some (r, d) /\ range_contains (effective_ports (ports d)) port = true.
Proof.
  intros Hl Hport. unfold port_bitset.
  destruct (ptbl_lookup _ _ port (dg_ports _ _ Hl) Hport) as (vs & -> & Hwf & Hin). mrun.
  eexists; split; [done|]. split; [done|]. intros i. rewrite Hin. split.
  - intros (b & Hb & r & d & Hi & Hr). exists r, d. split; [done|].
    apply elem_of_range_blocks; [by eapply dg_u16|done|by exists b].
  - intros (r & d & Hi & Hr). apply elem_of_range_blocks in Hr as (b & Hb1 & Hb2);
      [|by eapply dg_u16|done]. exists b. split; [done|]. by exists r, d.
Qed.

Lemma dst_bitset_spec l G ip :
  dst_ghost l G -> ip_ok ip ->
  exists b, dst_bitset l ip = Ret b /\ ids_wf b /\
    forall i, has b i = true <-> exists r d, G !! i = Some (r, d) /\ dst_covers d ip = true.
Proof.
  intros Hl Hip. unfold dst_bitset.
  destruct (tbl_lookup_all _ _ ip (dg_ips _ _ Hl) Hip) as (it & vs & -> & Hvs & Hwf & Hin). mrun.
  rewrite Hvs. mrun. eexists; split; [done|]. split; [done|]. intros i. rewrite Hin.
  setoid_rewrite dst_covers_iff; [|done]. split.
  - intros (p & Hp & r & d & Hi & Hd). exists r, d. split; [done|]. by exists p.
  - intros (r & d & Hi & p & Hp & Hd). exists p. split; [done|]. by exists r, d.
Qed.

(** What the destination index matches, in terms of the port mode. *)
Definition bart_dst_matches (d : DstMatch) (info : PacketInfo) (mode : PortMode) : bool :=
  match mode with
  | CheckPort => range_contains (effective_ports (ports d)) (port info)
  | IpsOnly => true
  | IpsOnlyIfAllPorts => bool_decide (effective_ports (ports d) = ALL_PORTS)
  end && dst_covers d (dst info).

Lemma all_ports_ends r :
  ports_ok r ->
  effective_ports r = ALL_PORTS <->
  range_contains (effective_ports r) 0 = true /\ range_contains (effective_ports r) 65535 = true.
Proof.
  intros [[H1 H2] [H3 H4]]. unfold range_contains. rewrite !bool_decide_eq_true.
  assert (0 <= (effective_ports r).1 /\ (effective_ports r).2 <= 65535)%Z as [Hlo Hhi].
  { unfold effective_ports. case_decide; cbn; lia. }
  destruct (effective_ports r) as [s e]. cbn [fst snd] in *. unfold ALL_PORTS.
  split; [intros [= -> ->]; lia|]. intros [? ?]. f_equal; lia.
Qed.

Section Query.
Context (l : DstMatchLookup) (D : gset (nat * DstMatch)) (Hl : dst_rel l D) (info : PacketInfo)
  (Hip : ip_ok (dst info)) (Hport : u16_ok (port info)).

Definition resolves (m : outcome IdSet) (mode : PortMode) : Prop :=
  exists rs, m = Ret rs /\ ids_wf rs /\
    forall r, has rs r = true <-> exists d, (r, d) ∈ D /\ bart_dst_matches d info mode = true.

Lemma resolves_intro G b mode :
  dst_ghost l G -> (forall r d, (r, d) ∈ D <-> exists i, G !! i = Some (r, d)) -> ids_wf b ->
  (forall i, has b i = true <-> exists r d, G !! i = Some (r, d) /\ bart_dst_matches d info mode = true) ->
  resolves (resolve_rule_ids l b) mode.
Proof using.
  intros HG HD Hb Hin. destruct (resolve_spec l G b HG Hb) as (rs & -> & Hwf & Hrs).
  { intros i (r & d & Hi & _)%Hin. by eexists. }
  exists rs. split; [done|]. split; [done|]. intros r. rewrite Hrs. setoid_rewrite HD. split.
  - intros (i & d & (r' & d' & Hi & Hm)%Hin & Hi'). exists d. split; [by exists i|]. congruence.
  - intros (d & [i Hi] & Hm). exists i, d. split; [|done]. apply Hin. by exists r, d.
Qed.

Lemma dst_lookup_spec : resolves (dst_lookup l (dst info) (port info)) CheckPort.
Proof using All.
  destruct Hl as (G & HG & HD). unfold dst_lookup.
  destruct (port_bitset_spec l G _ HG Hport) as (b1 & -> & Hw1 & Hb1). mrun.
  destruct (dst_bitset_spec l G _ HG Hip) as (b2 & -> & Hw2 & Hb2). mrun.
  destruct (dyn_intersect_spec 1 one_pos b1 b2 Hw1 Hw2) as [Hw Hb].
  apply (resolves_intro G); [done..|]. intros i. rewrite Hb, andb_true_iff, Hb1, Hb2.
  unfold bart_dst_matches. setoid_rewrite andb_true_iff. split.
  - intros [(r & d & Hi & Hr) (r' & d' & Hi' & Hc)]. exists r, d. split; [done|]. split; congruence.
  - intros (r & d & Hi & Hr & Hc). split; by exists r, d.
Qed.

Lemma lookup_ips_only_spec : resolves (lookup_ips_only l (dst info)) IpsOnly.
Proof using All.
  destruct Hl as (G & HG & HD). unfold lookup_ips_only.
  destruct (dst_bitset_spec l G _ HG Hip) as (b2 & -> & Hw2 & Hb2). mrun.
  by apply (resolves_intro G).
Qed.

Lemma lookup_all_ports_ips_spec : resolves (lookup_all_ports_ips l (dst info)) IpsOnlyIfAllPorts.
Proof using All.
  destruct Hl as (G & HG & HD). unfold lookup_all_ports_ips.
  destruct (port_bitset_spec l G 0 HG) as (b0 & -> & Hw0 & Hb0); [split; lia|]. mrun.
  destruct (port_bitset_spec l G 65535 HG) as (b1 & -> & Hw1 & Hb1); [split; lia|]. mrun.
  destruct (dst_bitset_spec l G _ HG Hip) as (b2 & -> & Hw2 & Hb2). mrun.
  destruct (dyn_intersect_spec 1 one_pos b0 b1 Hw0 Hw1) as [Hw' Hb'].
  destruct (dyn_intersect_spec 1 one_pos _ b2 Hw' Hw2) as [Hw Hb].
  apply (resolves_intro G); [done..|]. intros i.
  rewrite Hb, Hb', !andb_true_iff, Hb0, Hb1, Hb2. unfold bart_dst_matches.
  setoid_rewrite andb_true_iff. split.
  - intros [[(r & d & Hi & H0') (r' & d' & Hi' & H1')] (r'' & d'' & Hi'' & Hc)].
    rewrite Hi in Hi', Hi''. injection Hi' as <- <-. injection Hi'' as <- <-.
    exists r, d. split; [done|]. split; [|done].
    apply bool_decide_eq_true, all_ports_ends; [by eapply (dg_u16 _ _ HG)|done].
  - intros (r & d & Hi & Hall & Hc).
    apply bool_decide_eq_true, all_ports_ends in Hall as [? ?]; [|by eapply (dg_u16 _ _ HG)].
    split_and!; by exists r, d.
Qed.
End Query.
End Dst.
