(* ===== verification/BartFilter.v ===== *)
(** * BartFilter: the packet filter built on the routing table

    Models src/ts_bart_packetfilter/src/lib.rs: rulesets are stored rule by
    rule under numeric identifiers in four indices (capabilities, source
    prefixes, protocols, destinations), and a packet is looked up by
    intersecting what the indices answer.

    The invariant is a map [L] from the identifiers in use to the ruleset and
    the rule each stands for.  The theorems give the exact meaning of the
    filter for every sequence of updates, relate it to the reference filter of
    PacketFilter.v, and show where the two differ. *)

From stdpp Require Import gmap strings countable sorting.
From S2P Require Import Prelude Bitset DynBitset IpNet Bytes IpTrie TrieRemove Table Stride PacketFilter PortTrie FilterLookup FilterDst.

Local Abbreviation has := (dbit 1).
Local Abbreviation ids_wf := (dwf 1).

Section Model.
Context `{!IpNetOps, !Countable IpNet}.

Record RulesetEntry := mkRulesetEntry { ruleset : Ruleset; rule_ids : IdSet }.

Definition rules_and_ids (e : RulesetEntry) : list (nat * Rule) :=
  zip (dyn_bits 1 (rule_ids e)) (ruleset e).

(** The four indices. *)
Record Indices := mkIndices {
  ix_caps : CapLookup;
  srcs : Split.SplitStackTable (Node IdSet);
  ix_dsts : DstMatchLookup;
  ip_protos : gmap Z IdSet;
}.

Record BartFilter := mkBartFilter {
  indices : Indices;
  rules_to_rulesets : list (option string);
  rule_freelist : IdSet;
  rulesets : gmap string RulesetEntry;
}.

Definition empty_indices : Indices := mkIndices cap_empty Split.EMPTY dst_empty ∅.
Definition bart_default : BartFilter := mkBartFilter empty_indices [] dyn_empty ∅.

Definition bart_compact (f : BartFilter) : outcome BartFilter :=
  let v := pop_trailing (rules_to_rulesets f) in
  fl ← zero_from 1 (rule_freelist f) (length v);
  Ret (mkBartFilter (indices f) v fl (rulesets f)).

(** The loops over the parts of a rule, on insertion. *)
Definition index_rule (x : Indices) (rule_id : nat) (rule : Rule) : outcome Indices :=
  ps ← mfoldl (fun m proto =>
      b ← dyn_set 1 (default dyn_empty (m !! proto)) rule_id; Ret (<[proto := b]> m))
    (ip_protos x) (protos rule);
  cs ← mfoldl (fun c cap => '(c, _) ← cap_insert c cap rule_id; Ret c)
    (ix_caps x) (caps (rule_src rule));
  ss ← modify_all (srcs x) (pfxs (rule_src rule)) (set_or_insert rule_id);
  ds ← mfoldl (fun l d => dst_insert l rule_id d) (ix_dsts x) (rule_dst rule);
  Ret (mkIndices cs ss ds ps).

(** The loops over the parts of a rule, on removal. *)
Definition unindex_rule (x : Indices) (rule_id : nat) (rule : Rule) : outcome Indices :=
  ps ← mfoldl (fun m proto =>
      match m !! proto with
      | Some rules =>
          rules ← dyn_clear 1 rules rule_id;
          Ret (if dyn_is_empty rules then delete proto m else <[proto := rules]> m)
      | None => Ret m
      end) (ip_protos x) (protos rule);
  ds ← mfoldl (fun l d => dst_remove l rule_id d) (ix_dsts x) (rule_dst rule);
  cs ← mfoldl (fun c cap => cap_remove c rule_id cap) (ix_caps x) (caps (rule_src rule));
  ss ← modify_all (srcs x) (pfxs (rule_src rule)) (clear_or_remove rule_id);
  Ret (mkIndices cs ss ds ps).

Definition bart_remove (f : BartFilter) (name : string) : outcome BartFilter :=
  match rulesets f !! name with
  | None => Ret f
  | Some entry =>
      let fl := dyn_union_inplace (rule_freelist f) (rule_ids entry) in
      v ← mfoldl (fun v id => upd v id None) (rules_to_rulesets f) (dyn_bits 1 (rule_ids entry));
      x ← mfoldl (fun x '(id, rule) => unindex_rule x id rule) (indices f) (rules_and_ids entry);
      bart_compact (mkBartFilter x v fl (delete name (rulesets f)))
  end.

(** One rule of [insert]: the filter and the identifiers used so far. *)
Definition insert_rule (name : string) (st : BartFilter * IdSet) (rule : Rule)
    : outcome (BartFilter * IdSet) :=
  let '(f, rule_ids) := st in
  '(popped, fl) ← pop_freelist (rule_freelist f);
  let '(v, rule_id) :=
    match popped with
    | Some idx => (rules_to_rulesets f, idx)
    | None => (rules_to_rulesets f ++ [None], length (rules_to_rulesets f))
    end in
  rule_ids ← dyn_set 1 rule_ids rule_id;
  v ← upd v rule_id (Some name);
  x ← index_rule (indices f) rule_id rule;
  Ret (mkBartFilter x v fl (rulesets f), rule_ids).

Definition bart_insert (f : BartFilter) (name : string) (rs : Ruleset) : outcome BartFilter :=
  f ← bart_remove f name;
  '(f, ids) ← mfoldl (insert_rule name) (f, dyn_empty) rs;
  bart_compact (mkBartFilter (indices f) (rules_to_rulesets f) (rule_freelist f)
    (<[name := mkRulesetEntry rs ids]> (rulesets f))).

Definition bart_clear (f : BartFilter) : BartFilter :=
  mkBartFilter (mkIndices cap_clear Split.clear dst_clear ∅) [] clear_all ∅.

Definition bart_lookup (f : BartFilter) (info : PacketInfo) (cs : list string) : outcome IdSet :=
  let x := indices f in
  let cap_matches := cap_lookup (ix_caps x) cs in
  ip_matches ← Split.lookup (srcs x) (src info);
  let all_matches :=
    match ip_matches with
    | Some ip_matches => dyn_union_inplace cap_matches ip_matches
    | None => cap_matches
    end in
  if dyn_is_empty all_matches then Ret all_matches
  else
    let all_matches :=
      match ip_protos x !! ip_proto info with
      | Some proto_matches => dyn_intersect_inplace all_matches proto_matches
      | None => clear_all
      end in
    if dyn_is_empty all_matches then Ret all_matches
    else
      dst_matches ←
        (if is_port_ful (ip_proto info) then dst_lookup (ix_dsts x) (dst info) (port info)
         else if bool_decide (ip_proto info = ICMP) || bool_decide (ip_proto info = ICMPV6)
         then lookup_ips_only (ix_dsts x) (dst info)
         else lookup_all_ports_ips (ix_dsts x) (dst info));
      Ret (dyn_intersect_inplace all_matches dst_matches).

Definition bart_match_for (f : BartFilter) (info : PacketInfo) (cs : list string)
    : outcome (option string) :=
  all_matches ← bart_lookup f info cs;
  match dyn_first_set all_matches with
  | None => Ret None
  | Some rule_id =>
      o ← idx (rules_to_rulesets f) rule_id;
      name ← unwrap o;
      Ret (Some name)
  end.

Definition bart_matches (f : BartFilter) (info : PacketInfo) (cs : list string) : outcome bool :=
  all_matches ← bart_lookup f info cs;
  Ret (negb (dyn_is_empty all_matches)).

#[export] Instance bart_filter : Filter BartFilter := {
  match_for := bart_match_for;
  matches := bart_matches;
  shields_up _ := false;
}.

#[export] Instance bart_storage : FilterStorage BartFilter := {
  insert_dyn := bart_insert;
  storage_remove := bart_remove;
  storage_clear f := Ret (bart_clear f);
}.
End Model.

(** ** The indices of the live rules *)

Section Index.
Context `{!IpNetOps, !IpNetLaws, !Countable IpNet}.
Implicit Types (L : gmap nat (string * Rule)) (x : Indices).

(** The identifiers of the live rules that satisfy [P]. *)
Definition live_with L (P : Rule -> Prop) (i : nat) : Prop :=
  exists n r, L !! i = Some (n, r) /\ P r.

Definition caps_are (c : CapLookup) (R : string -> nat -> Prop) : Prop :=
  exists S, cap_rel c S /\ forall cap i, (cap, i) ∈ S <-> R cap i.

Definition dsts_are (l : DstMatchLookup) (R : DstMatch -> nat -> Prop) : Prop :=
  exists D, dst_rel l D /\ forall d i, (i, d) ∈ D <-> R d i.

Definition protos_are (m : gmap Z IdSet) (R : Z -> nat -> Prop) : Prop :=
  (forall p, idset_ok (m !! p)) /\ forall p i, idset_in (m !! p) i = true <-> R p i.

Record index_ok x L : Prop := {
  ix_cap : caps_are (ix_caps x) (fun cap => live_with L (fun r => cap ∈ caps (rule_src r)));
  ix_src : tbl_rel (srcs x) (fun p => live_with L (fun r => p ∈ trunc <$> pfxs (rule_src r)));
  ix_dst : dsts_are (ix_dsts x) (fun d => live_with L (fun r => d ∈ rule_dst r));
  ix_proto : protos_are (ip_protos x) (fun p => live_with L (fun r => p ∈ protos r));
}.

Lemma index_ok_empty : index_ok empty_indices ∅.
Proof.
  assert (forall P i, ~ live_with ∅ P i) as Hno by (by intros P i (n & r & Hr & _)).
  constructor; cbn.
  - exists ∅. split; [apply cap_rel_empty|]. intros cap i. split; [set_solver|by intros ?%Hno].
  - eapply tbl_rel_iff; [apply tbl_empty|]. intros p i. split; [done|apply Hno].
  - exists ∅. split; [apply dst_rel_empty|]. intros d i. split; [set_solver|by intros ?%Hno].
  - split; [done|]. intros p i. split; [done|by intros ?%Hno].
Qed.

(** *** The loops over the parts of a rule *)

Lemma caps_add cs id : forall c R,
  caps_are c R ->
  exists c', mfoldl (fun c cap => '(c, _) ← cap_insert c cap id; Ret c) c cs = Ret c' /\
    caps_are c' (fun cap i => i = id /\ cap ∈ cs \/ R cap i).
Proof.
  induction cs as [|cap cs IH]; intros c R (S & Hc & HS); cbn [mfoldl].
  - exists c. split; [done|]. exists S. split; [done|]. intros cap i. rewrite HS, elem_of_nil. tauto.
  - destruct (cap_insert_spec c S cap id Hc) as (c1 & id1 & -> & Hc1). mrun.
    destruct (IH c1 (fun cap' i => (i = id /\ cap' = cap) \/ R cap' i)) as (c2 & -> & S2 & Hc2 & HS2).
    { eexists; split; [exact Hc1|]. intros cap' i. rewrite elem_of_union, elem_of_singleton, HS.
      naive_solver. }
    exists c2. split; [done|]. exists S2. split; [done|]. intros cap' i.
    rewrite HS2, elem_of_cons. tauto.
Qed.

Lemma caps_del cs id : forall c R,
  caps_are c R ->
  exists c', mfoldl (fun c cap => cap_remove c id cap) c cs = Ret c' /\
    caps_are c' (fun cap i => R cap i /\ ~ (i = id /\ cap ∈ cs)).
Proof.
  induction cs as [|cap cs IH]; intros c R (S & Hc & HS); cbn [mfoldl].
  - exists c. split; [done|]. exists S. split; [done|]. intros cap i. rewrite HS, elem_of_nil. tauto.
  - destruct (cap_remove_spec c S cap id Hc) as (c1 & -> & Hc1). mrun.
    destruct (IH c1 (fun cap' i => R cap' i /\ ~ (i = id /\ cap' = cap))) as (c2 & -> & S2 & Hc2 & HS2).
    { eexists; split; [exact Hc1|]. intros cap' i.
      rewrite elem_of_difference, elem_of_singleton, HS, pair_eq. tauto. }
    exists c2. split; [done|]. exists S2. split; [done|]. intros cap' i.
    rewrite HS2, elem_of_cons. tauto.
Qed.

Lemma dsts_add ds id : forall l R,
  dsts_are l R -> Forall (fun d => ports_ok (ports d)) ds ->
  exists l', mfoldl (fun l d => dst_insert l id d) l ds = Ret l' /\
    dsts_are l' (fun d i => i = id /\ d ∈ ds \/ R d i).
Proof.
  induction ds as [|d ds IH]; intros l R (D & Hl & HD) Hok; cbn [mfoldl].
  - exists l. split; [done|]. exists D. split; [done|]. intros d i. rewrite HD, elem_of_nil. tauto.
  - apply Forall_cons in Hok as [Hd Hok].
    destruct (dst_insert_spec l D id d Hl Hd) as (l1 & -> & Hl1). mrun.
    destruct (IH l1 (fun d' i => (i = id /\ d' = d) \/ R d' i)) as (l2 & -> & D2 & Hl2 & HD2); [|done|].
    { eexists; split; [exact Hl1|]. intros d' i.
      rewrite elem_of_union, elem_of_singleton, HD, pair_eq. tauto. }
    exists l2. split; [done|]. exists D2. split; [done|]. intros d' i. rewrite HD2, elem_of_cons. tauto.
Qed.

Lemma dsts_del ds id : forall l R,
  dsts_are l R ->
  exists l', mfoldl (fun l d => dst_remove l id d) l ds = Ret l' /\
    dsts_are l' (fun d i => R d i /\ ~ (i = id /\ d ∈ ds)).
Proof.
  induction ds as [|d ds IH]; intros l R (D & Hl & HD); cbn [mfoldl].
  - exists l. split; [done|]. exists D. split; [done|]. intros d i. rewrite HD, elem_of_nil. tauto.
  - destruct (dst_remove_spec l D id d Hl) as (l1 & -> & Hl1). mrun.
    destruct (IH l1 (fun d' i => R d' i /\ ~ (i = id /\ d' = d))) as (l2 & -> & D2 & Hl2 & HD2).
    { eexists; split; [exact Hl1|]. intros d' i.
      rewrite elem_of_difference, elem_of_singleton, HD, pair_eq. tauto. }
    exists l2. split; [done|]. exists D2. split; [done|]. intros d' i. rewrite HD2, elem_of_cons. tauto.
Qed.

Lemma protos_add ps id : forall m R,
  protos_are m R ->
  exists m', mfoldl (fun m proto =>
      b ← dyn_set 1 (default dyn_empty (m !! proto)) id; Ret (<[proto := b]> m)) m ps = Ret m' /\
    protos_are m' (fun p i => i = id /\ p ∈ ps \/ R p i).
Proof.
  induction ps as [|q ps IH]; intros m R [Hok Hin]; cbn [mfoldl].
  - exists m. split; [done|]. split; [done|]. intros p i. rewrite Hin, elem_of_nil. tauto.
  - assert (ids_wf (default dyn_empty (m !! q)) /\
      forall i, has (default dyn_empty (m !! q)) i = idset_in (m !! q) i) as [Hwf Hq].
    { specialize (Hok q). destruct (m !! q); [split; [apply Hok|done]|split; [apply empty_wf|done]]. }
    destruct (set_total _ id Hwf) as (b & -> & Hb & Hs). mrun.
    destruct (IH (<[q := b]> m) (fun p i => (i = id /\ p = q) \/ R p i)) as (m' & -> & Hok' & Hin').
    { split.
      - intros p. destruct (decide (p = q)) as [->|Hne]; [|by rewrite lookup_insert_ne].
        rewrite lookup_insert_eq. split; [done|]. exists id. by rewrite Hs, bool_decide_eq_true_2.
      - intros p i. destruct (decide (p = q)) as [->|Hne].
        + rewrite lookup_insert_eq. cbn [idset_in].
          rewrite Hs, Hq, orb_true_iff, bool_decide_eq_true, Hin. tauto.
        + rewrite lookup_insert_ne, Hin by done. tauto. }
    exists m'. split; [done|]. split; [done|]. intros p i. rewrite Hin', elem_of_cons. tauto.
Qed.

Lemma protos_del ps id : forall m R,
  protos_are m R ->
  exists m', mfoldl (fun m proto =>
      match m !! proto with
      | Some rules =>
          rules ← dyn_clear 1 rules id;
          Ret (if dyn_is_empty rules then delete proto m else <[proto := rules]> m)
      | None => Ret m
      end) m ps = Ret m' /\
    protos_are m' (fun p i => R p i /\ ~ (i = id /\ p ∈ ps)).
Proof.
  induction ps as [|q ps IH]; intros m R [Hok Hin]; cbn [mfoldl].
  - exists m. split; [done|]. split; [done|]. intros p i. rewrite Hin, elem_of_nil. tauto.
  - pose proof (Hok q) as Hokq. destruct (m !! q) as [b|] eqn:Eq.
    + destruct (clear_total b id (proj1 Hokq)) as (b' & -> & Hb' & Hs). mrun.
      destruct (IH (if dyn_is_empty b' then delete q m else <[q := b']> m)
        (fun p i => R p i /\ ~ (i = id /\ p = q))) as (m' & -> & Hok' & Hin').
      { assert (forall i, has b i = true <-> R q i) as Hbq by (intros i; by rewrite <- Hin, Eq).
        split; intros p; destruct (decide (p = q)) as [->|Hne]; destruct (dyn_is_empty b') eqn:Ee;
          rewrite ?lookup_insert_eq, ?lookup_delete_eq, ?lookup_insert_ne, ?lookup_delete_ne by done;
          try apply Hok; try done.
        - split; [done|]. by apply dyn_is_empty_false.
        - intros i. pose proof (proj1 (dyn_is_empty_spec b' Hb') Ee i) as Hno. rewrite Hs in Hno.
          split; [done|]. intros [HR Hne]. apply Hbq in HR. rewrite HR, andb_true_r in Hno.
          apply negb_false_iff, bool_decide_eq_true in Hno. tauto.
        - intros i. cbn [idset_in]. rewrite Hs, andb_true_iff, negb_true_iff, bool_decide_eq_false, Hbq.
          tauto.
        - intros i. rewrite Hin. tauto.
        - intros i. rewrite Hin. tauto. }
      exists m'. split; [done|]. split; [done|]. intros p i. rewrite Hin', elem_of_cons. tauto.
    + mrun. destruct (IH m R) as (m' & -> & Hok' & Hin'); [done|]. exists m'. split; [done|].
      split; [done|]. intros p i. rewrite Hin', elem_of_cons. split; [|tauto].
      intros [HR Hne]. split; [done|]. intros [-> [->|Hp]]; [|tauto].
      apply Hin in HR. by rewrite Eq in HR.
Qed.

Lemma index_rule_spec x L id name rule :
  index_ok x L -> L !! id = None -> Forall (fun d => ports_ok (ports d)) (rule_dst rule) ->
  exists x', index_rule x id rule = Ret x' /\ index_ok x' (<[id := (name, rule)]> L).
Proof.
  intros [Hc Hs Hd Hp] HL Hok. unfold index_rule.
  destruct (protos_add (protos rule) id _ _ Hp) as (ps & -> & Hps). mrun.
  destruct (caps_add (caps (rule_src rule)) id _ _ Hc) as (cs & -> & S & Hcs & HS). mrun.
  destruct (tbl_set _ _ (pfxs (rule_src rule)) id Hs) as (ss & -> & Hss). mrun.
  destruct (dsts_add (rule_dst rule) id _ _ Hd Hok) as (ds & -> & D & Hds & HD). mrun.
  assert (forall (P : Rule -> Prop) i, (i = id /\ P rule \/ live_with L P i) <->
    live_with (<[id := (name, rule)]> L) P i) as Hiff
    by (intros P i; apply insert_pair_iff; by left).
  eexists; split; [done|]. constructor; cbn.
  - exists S. split; [done|]. intros cap i. rewrite HS. apply (Hiff (fun r => cap ∈ caps (rule_src r))).
  - eapply tbl_rel_iff; [exact Hss|]. intros p i. cbn beta.
    apply (Hiff (fun r => p ∈ trunc <$> pfxs (rule_src r))).
  - exists D. split; [done|]. intros d i. rewrite HD. apply (Hiff (fun r => d ∈ rule_dst r)).
  - destruct Hps as [H1 H2]. split; [done|]. intros p i. rewrite H2.
    apply (Hiff (fun r => p ∈ protos r)).
Qed.

Lemma unindex_rule_spec x L id name rule :
  index_ok x L -> L !! id = Some (name, rule) ->
  exists x', unindex_rule x id rule = Ret x' /\ index_ok x' (delete id L).
Proof.
  intros [Hc Hs Hd Hp] HL. unfold unindex_rule.
  destruct (protos_del (protos rule) id _ _ Hp) as (ps & -> & Hps). mrun.
  destruct (dsts_del (rule_dst rule) id _ _ Hd) as (ds & -> & D & Hds & HD). mrun.
  destruct (caps_del (caps (rule_src rule)) id _ _ Hc) as (cs & -> & S & Hcs & HS). mrun.
  destruct (tbl_clear _ _ (pfxs (rule_src rule)) id Hs) as (ss & -> & Hss). mrun.
  assert (forall (P : Rule -> Prop) i, (live_with L P i /\ ~ (i = id /\ P rule)) <->
    live_with (delete id L) P i) as Hiff by (intros P i; by eapply delete_pair_iff).
  eexists; split; [done|]. constructor; cbn.
  - exists S. split; [done|]. intros cap i. rewrite HS. apply (Hiff (fun r => cap ∈ caps (rule_src r))).
  - eapply tbl_rel_iff; [exact Hss|]. intros p i. cbn beta.
    apply (Hiff (fun r => p ∈ trunc <$> pfxs (rule_src r))).
  - exists D. split; [done|]. intros d i. rewrite HD. apply (Hiff (fun r => d ∈ rule_dst r)).
  - destruct Hps as [H1 H2]. split; [done|]. intros p i. rewrite H2.
    apply (Hiff (fun r => p ∈ protos r)).
Qed.
End Index.

(** ** Ascending identifiers *)

Lemma filter_seq_sorted (P : nat -> Prop) `{!forall i, Decision (P i)} n : forall a,
  StronglySorted lt (filter P (seq a n)).
Proof.
  induction n as [|n IH]; intros a; cbn [seq]; [constructor|]. rewrite filter_cons. case_decide; [|done].
  constructor; [done|]. apply Forall_forall. intros i [_ Hi]%list_elem_of_filter.
  apply elem_of_seq in Hi. lia.
Qed.

Lemma sorted_lt_NoDup (l : list nat) : StronglySorted lt l -> NoDup l.
Proof.
  induction 1 as [|i l _ IH Hi]; constructor; [|done]. intros Hin.
  rewrite Forall_forall in Hi. specialize (Hi i Hin). lia.
Qed.

Lemma sorted_lt_le (l : list nat) : StronglySorted lt l -> StronglySorted le l.
Proof.
  induction 1 as [|i l _ IH Hi]; constructor; [done|]. eapply Forall_impl; [exact Hi|]. lia.
Qed.

(** The bits of a set are the ascending list of its elements. *)
Lemma dyn_bits_sorted b : ids_wf b -> StronglySorted lt (dyn_bits 1 b).
Proof. intros Hb. rewrite dyn_bits_spec by (apply Hb || lia). apply filter_seq_sorted. Qed.

Lemma dyn_bits_unique b l :
  ids_wf b -> StronglySorted lt l -> (forall i, has b i = true <-> i ∈ l) -> dyn_bits 1 b = l.
Proof.
  intros Hb Hl Hin. apply (StronglySorted_unique le); [by apply sorted_lt_le, dyn_bits_sorted|by apply sorted_lt_le|].
  apply NoDup_Permutation; [by apply sorted_lt_NoDup, dyn_bits_sorted|by apply sorted_lt_NoDup|].
  intros i. by rewrite elem_of_dyn_bits, Hin.
Qed.

(** ** The filter as a map of rulesets *)

Section Storage.
Context `{!IpNetOps, !IpNetLaws, !Countable IpNet}.
Implicit Types (L : gmap nat (string * Rule)) (f : BartFilter) (name : string).

(** The identifiers and the rules of a stored ruleset correspond in order. *)
Definition entry_live L name (e : RulesetEntry) : Prop :=
  ids_wf (rule_ids e) /\ length (dyn_bits 1 (rule_ids e)) = length (ruleset e) /\
  forall k i r, dyn_bits 1 (rule_ids e) !! k = Some i -> ruleset e !! k = Some r ->
    L !! i = Some (name, r).

Definition names_ok (v : list (option string)) L : Prop :=
  forall i n, v !! i = Some (Some n) <-> exists r, L !! i = Some (n, r).

Record bart_inv f L : Prop := {
  bi_index : index_ok (indices f) L;
  bi_names : names_ok (rules_to_rulesets f) L;
  bi_free : free_ok (rules_to_rulesets f) (rule_freelist f);
  bi_entry name e : rulesets f !! name = Some e -> entry_live L name e;
  bi_live i n r : L !! i = Some (n, r) ->
    exists e k, rulesets f !! n = Some e /\ dyn_bits 1 (rule_ids e) !! k = Some i /\
      ruleset e !! k = Some r;
}.

Definition bart_rel f (m : MapFilter) : Prop :=
  m = ruleset <$> rulesets f /\ exists L, bart_inv f L.

Lemma bart_rel_empty : bart_rel bart_default ∅.
Proof.
  split; [symmetry; apply fmap_empty|]. exists ∅. constructor; cbn; try done.
  - apply index_ok_empty.
  - intros i n. split; [done|by intros [? ?]].
Qed.

Lemma bart_compact_spec x v fl m L :
  index_ok x L -> names_ok v L -> ids_wf fl ->
  (forall i, has fl i = true -> forall n, v !! i <> Some (Some n)) ->
  (forall name e, m !! name = Some e -> entry_live L name e) ->
  (forall i n r, L !! i = Some (n, r) ->
    exists e k, m !! n = Some e /\ dyn_bits 1 (rule_ids e) !! k = Some i /\ ruleset e !! k = Some r) ->
  exists f, bart_compact (mkBartFilter x v fl m) = Ret f /\ rulesets f = m /\ bart_inv f L.
Proof.
  intros Hx Hv Hfl Hno He Hlive. unfold bart_compact. cbn [rules_to_rulesets rule_freelist].
  destruct (compact_free v fl Hfl Hno) as (fl' & -> & Hfree). mrun. eexists; split; [done|].
  split; [done|]. constructor; cbn [indices rules_to_rulesets rule_freelist rulesets]; try done.
  intros i n. rewrite <- (Hv i n). apply pop_trailing_spec.
Qed.

(** *** Removal *)

Lemma clear_names is_ : forall v : list (option string),
  Forall (fun i => i < length v) is_ ->
  exists v', mfoldl (fun v id => upd v id None) v is_ = Ret v' /\
    forall i, v' !! i = if decide (i ∈ is_) then Some None else v !! i.
Proof.
  induction is_ as [|j is_ IH]; intros v Hf; cbn [mfoldl].
  { exists v. split; [done|]. intros i. by rewrite decide_False by apply not_elem_of_nil. }
  apply Forall_cons in Hf as [Hj Hf]. rewrite (upd_lt v j None Hj). mrun.
  destruct (IH (<[j := None]> v)) as (v' & E & Hv').
  { eapply Forall_impl; [exact Hf|]. intros i. by rewrite length_insert. }
  exists v'. split; [done|]. intros i. rewrite Hv'. destruct (decide (i ∈ is_)) as [Hin|Hin].
  - by rewrite decide_True by (by right).
  - destruct (decide (i = j)) as [->|Hne].
    + rewrite list_lookup_insert_eq, decide_True by (done || by left). done.
    + rewrite list_lookup_insert_ne by done. rewrite decide_False; [done|].
      by intros [?|?]%elem_of_cons.
Qed.

Lemma unindex_all name ps : forall x L,
  index_ok x L -> NoDup ps.*1 -> (forall i r, (i, r) ∈ ps -> L !! i = Some (name, r)) ->
  exists x' L', mfoldl (fun x '(id, rule) => unindex_rule x id rule) x ps = Ret x' /\
    index_ok x' L' /\ forall i, L' !! i = if decide (i ∈ ps.*1) then None else L !! i.
Proof.
  induction ps as [|[j r] ps IH]; intros x L Hx Hnd Hin; cbn [mfoldl].
  { exists x, L. split_and!; [done..|]. intros i. by rewrite decide_False by apply not_elem_of_nil. }
  rewrite fmap_cons in Hnd |- *. cbn [fst] in *. apply NoDup_cons in Hnd as [Hj Hnd].
  destruct (unindex_rule_spec x L j name r Hx) as (x1 & -> & Hx1); [apply Hin; by left|]. mrun.
  destruct (IH x1 (delete j L) Hx1 Hnd) as (x' & L' & -> & Hx' & HL').
  { intros i r' Hi. rewrite lookup_delete_ne; [apply Hin; by right|]. intros ->. apply Hj.
    by apply (list_elem_of_fmap_2 fst _ (i, r')). }
  exists x', L'. split_and!; [done..|]. intros i. rewrite HL'.
  destruct (decide (i ∈ ps.*1)) as [Hi|Hi]; [by rewrite decide_True by (by right)|].
  destruct (decide (i = j)) as [->|Hne].
  - rewrite lookup_delete_eq, decide_True by left. done.
  - rewrite lookup_delete_ne by done. rewrite decide_False; [done|]. by intros [?|?]%elem_of_cons.
Qed.

Lemma zip_fst_all {A B} (l : list A) (k : list B) : length l = length k -> (zip l k).*1 = l.
Proof. intros. apply fst_zip. lia. Qed.

Lemma elem_of_zip_lookup {A B} (l : list A) (k : list B) a b :
  (a, b) ∈ zip l k <-> exists j, l !! j = Some a /\ k !! j = Some b.
Proof.
  rewrite list_elem_of_lookup. split.
  - intros [j Hj]. exists j. by apply lookup_zip_Some in Hj.
  - intros [j Hj]. exists j. by apply lookup_zip_Some.
Qed.

Lemma bart_remove_inv f L name :
  bart_inv f L ->
  exists f' L', bart_remove f name = Ret f' /\ rulesets f' = delete name (rulesets f) /\
    bart_inv f' L'.
Proof.
  intros Hf. pose proof Hf as [Hx Hv [Hfl Hfree] He Hlive]. unfold bart_remove.
  destruct (rulesets f !! name) as [e|] eqn:Ee.
  2: { exists f, L. by rewrite delete_id. }
  destruct (He _ _ Ee) as (Hwf & Hlen & Hent).
  assert (forall i, i ∈ dyn_bits 1 (rule_ids e) -> exists r, L !! i = Some (name, r)) as Hbits.
  { intros i [k Hk]%list_elem_of_lookup. pose proof (lookup_lt_Some _ _ _ Hk) as Hlt.
    rewrite Hlen in Hlt. destruct (lookup_lt_is_Some_2 _ _ Hlt) as [r Hr]. exists r. by eapply Hent. }
  destruct (clear_names (dyn_bits 1 (rule_ids e)) (rules_to_rulesets f)) as (v & -> & Hv').
  { apply Forall_forall. intros i [r Hr]%Hbits. eapply lookup_lt_Some, Hv. by exists r. }
  mrun. unfold rules_and_ids.
  destruct (unindex_all name (zip (dyn_bits 1 (rule_ids e)) (ruleset e)) (indices f) L Hx)
    as (x & L' & -> & Hx' & HL').
  { rewrite zip_fst_all by done. by apply sorted_lt_NoDup, dyn_bits_sorted. }
  { intros i r (k & Hk1 & Hk2)%elem_of_zip_lookup. by eapply Hent. }
  rewrite zip_fst_all in HL' by done. mrun.
  destruct (dyn_union_spec 1 one_pos _ _ Hfl Hwf) as [Hwu Hu].
  destruct (bart_compact_spec x v (dyn_union_inplace (rule_freelist f) (rule_ids e))
    (delete name (rulesets f)) L') as (f' & -> & Hr & Hf'); [done| |done|..].
  - intros i n. rewrite Hv', HL'. case_decide; [|apply Hv]. naive_solver.
  - intros i Hi n. rewrite Hu in Hi. rewrite Hv'. case_decide as Hd; [done|].
    rewrite elem_of_dyn_bits in Hd by done. apply not_true_is_false in Hd.
    rewrite Hd, orb_false_r in Hi. by rewrite Hfree.
  - intros n e' [Hne Hn]%lookup_delete_Some. destruct (He _ _ Hn) as (Hw & Hl & Hl').
    split; [done|]. split; [done|]. intros k i r Hk1 Hk2. specialize (Hl' k i r Hk1 Hk2).
    rewrite HL'. case_decide as Hd; [|done]. destruct (Hbits i Hd). congruence.
  - intros i n r. rewrite HL'. case_decide as Hd; [done|]. intros Hi.
    destruct (Hlive _ _ _ Hi) as (e' & k & He' & Hk1 & Hk2). exists e', k. split; [|done].
    apply lookup_delete_Some. split; [|done]. intros ->. rewrite Ee in He'. injection He' as <-.
    apply Hd. by eapply list_elem_of_lookup_2.
  - exists f', L'. done.
Qed.

(** *** Insertion

    After the rules [rs] the loop has used the identifiers [used], ascending,
    one per rule. *)
Record loop_inv name (R0 : gmap string RulesetEntry) (rs : Ruleset) f (ids : IdSet)
    (used : list nat) L : Prop := {
  li_index : index_ok (indices f) L;
  li_names : names_ok (rules_to_rulesets f) L;
  li_free : free_ok (rules_to_rulesets f) (rule_freelist f);
  li_sets : rulesets f = R0;
  li_wf : ids_wf ids;
  li_ids i : has ids i = true <-> i ∈ used;
  li_sorted : StronglySorted lt used;
  li_below i : i ∈ used -> i < length (rules_to_rulesets f) /\
    forall j, has (rule_freelist f) j = true -> i < j;
  li_len : length used = length rs;
  li_used k i r : used !! k = Some i -> rs !! k = Some r -> L !! i = Some (name, r);
  li_old n e : R0 !! n = Some e -> entry_live L n e;
  li_live i n r : L !! i = Some (n, r) ->
    (exists k, n = name /\ used !! k = Some i /\ rs !! k = Some r) \/
    exists e k, R0 !! n = Some e /\ dyn_bits 1 (rule_ids e) !! k = Some i /\ ruleset e !! k = Some r;
}.

(** The identifier a rule gets. *)
Lemma rule_slot (v : list (option string)) fl name :
  free_ok v fl ->
  exists r fl' v' id, pop_freelist fl = Ret (r, fl') /\
    (let '(v, rule_id) := match r with Some idx => (v, idx) | None => (v ++ [None], length v) end in
     v ← upd v rule_id (Some name); Ret (v, rule_id)) = Ret (v', id) /\
    (forall n, v !! id <> Some (Some n)) /\ v' !! id = Some (Some name) /\
    (forall i, i <> id -> v' !! i = v !! i) /\ length v <= length v' /\ free_ok v' fl' /\
    (forall j, has fl' j = true -> id < j /\ has fl j = true) /\
    (has fl id = true \/ id = length v).
Proof.
  intros [Hfl Hfree]. destruct (pop_freelist_spec fl Hfl) as (r & fl' & E & Hfl' & Hr).
  exists r, fl'. destruct r as [id|].
  - destruct Hr as (Hid & Hmin & Hs). pose proof (Hfree _ Hid) as Hslot.
    pose proof (lookup_lt_Some _ _ _ Hslot) as Hlt. rewrite upd_lt by done. eexists _, id.
    assert (forall j, has fl' j = true -> id < j /\ has fl j = true) as Hj.
    { intros j Hj. rewrite Hs in Hj. apply andb_true_iff in Hj as [Hne Hj].
      apply negb_true_iff, bool_decide_eq_false in Hne. specialize (Hmin j Hj). split; [lia|done]. }
    split; [done|]. split; [done|]. split; [intros n; by rewrite Hslot|].
    split; [by apply list_lookup_insert_eq|]. split; [intros; by apply list_lookup_insert_ne|].
    split; [by rewrite length_insert|]. split; [|split; [done|by left]].
    split; [done|]. intros j [Hlt' Hj']%Hj. rewrite list_lookup_insert_ne by lia. auto.
  - destruct Hr as [-> Hnone]. rewrite upd_lt by (rewrite length_app; cbn; lia).
    eexists _, _. split; [done|]. split; [done|].
    split; [intros n; by rewrite lookup_ge_None_2|].
    split; [apply list_lookup_insert_eq; rewrite length_app; cbn; lia|]. split.
    { intros i Hne. rewrite list_lookup_insert_ne by done.
      destruct (Nat.lt_ge_cases i (length v)); [by rewrite lookup_app_l|].
      rewrite !lookup_ge_None_2; [done|lia|rewrite length_app; cbn; lia]. }
    split; [rewrite length_insert, length_app; lia|].
    split; [|split; [|by right]]; [split; [done|]|]; intros j Hj; by rewrite Hnone in Hj.
Qed.

Lemma sorted_snoc (l : list nat) i :
  StronglySorted lt l -> (forall j, j ∈ l -> j < i) -> StronglySorted lt (l ++ [i]).
Proof.
  induction 1 as [|j l Hl IH Hj]; intros Hi; cbn; [by repeat constructor|].
  constructor; [apply IH; intros k Hk; apply Hi; by right|].
  apply Forall_app. split; [done|]. constructor; [|constructor]. apply Hi. by left.
Qed.

Lemma snoc_lookup {A} (l : list A) x k y :
  (l ++ [x]) !! k = Some y <-> l !! k = Some y \/ k = length l /\ y = x.
Proof.
  destruct (Nat.lt_total k (length l)) as [Hk|[->|Hk]].
  - rewrite lookup_app_l by done. split; [by left|]. intros [?|[-> _]]; [done|lia].
  - rewrite list_lookup_middle by done. split; [intros [= ->]; by right|].
    intros [Hy|[_ ->]]; [|done]. apply lookup_lt_Some in Hy. lia.
  - rewrite lookup_ge_None_2 by (rewrite length_app; cbn; lia). split; [done|].
    intros [Hy|[-> _]]; [|lia]. apply lookup_lt_Some in Hy. lia.
Qed.

Lemma insert_rule_inv name R0 rs f ids used L rule :
  loop_inv name R0 rs f ids used L -> Forall (fun d => ports_ok (ports d)) (rule_dst rule) ->
  exists f' ids' used' L', insert_rule name (f, ids) rule = Ret (f', ids') /\
    loop_inv name R0 (rs ++ [rule]) f' ids' used' L'.
Proof.
  intros [Hx Hv Hfree HR Hwf Hids Hsort Hbelow Hlen Hdone Hold Hlive] Hok. unfold insert_rule.
  destruct (rule_slot _ _ name Hfree)
    as (r & fl & v & id & -> & Ev & Hnew & Hvid & Hvo & Hvl & Hfree' & Hlow & Hor). mrun.
  destruct (match r with Some idx => _ | None => _ end) as [v0 id0].
  assert (exists v1, upd v0 id0 (Some name) = Ret v1 /\ v1 = v /\ id0 = id) as (v1 & Eu & -> & ->).
  { destruct (upd v0 id0 (Some name)) as [v1|]; [|discriminate].
    cbn [mbind outcome_bind] in Ev. injection Ev as -> ->. by eexists. }
  destruct (set_total ids id Hwf) as (ids' & -> & Hwf' & Hs). mrun. rewrite Eu. mrun.
  assert (L !! id = None) as HL.
  { apply eq_None_not_Some. intros [[n r'] Hi]. apply (Hnew n), Hv. by exists r'. }
  destruct (index_rule_spec (indices f) L id name rule Hx HL Hok) as (x & -> & Hx'). mrun.
  assert (forall i y, L !! i = Some y -> <[id := (name, rule)]> L !! i = Some y) as Hmono.
  { intros i y Hi. rewrite lookup_insert_ne; [done|]. intros ->. congruence. }
  assert (forall i, i ∈ used -> i < id) as Hlt.
  { intros i Hi. destruct (Hbelow i Hi) as [? Hfl]. destruct Hor as [?| ->]; auto. }
  eexists _, _, (used ++ [id]), _. split; [reflexivity|].
  constructor; cbn [indices rules_to_rulesets rule_freelist rulesets]; try done.
  - intros i n. destruct (decide (i = id)) as [->|Hne].
    + rewrite Hvid, lookup_insert_eq. split; [intros [= ->]; by exists rule|by intros [? [= -> _]]].
    + rewrite Hvo, lookup_insert_ne by done. apply Hv.
  - intros i. rewrite Hs, orb_true_iff, bool_decide_eq_true, Hids, elem_of_app,
      list_elem_of_singleton. tauto.
  - by apply sorted_snoc.
  - intros i [Hi| ->%list_elem_of_singleton]%elem_of_app.
    + destruct (Hbelow i Hi) as [? Hfl]. split; [lia|]. intros j [_ Hj]%Hlow. auto.
    + split; [by eapply lookup_lt_Some|]. intros j Hj. by apply Hlow.
  - rewrite !length_app. cbn. lia.
  - intros k i r' [Hk1|[-> ->]]%snoc_lookup [Hk2|[Hk2 ->]]%snoc_lookup.
    + apply Hmono. by eapply Hdone.
    + apply lookup_lt_Some in Hk1. lia.
    + apply lookup_lt_Some in Hk2. lia.
    + apply lookup_insert_eq.
  - intros n e He. destruct (Hold n e He) as (H1 & H2 & H3). split_and!; [apply H1..|done|].
    intros k i r' Hk1 Hk2. apply Hmono. by eapply H3.
  - intros i n r' [[<- [= <- <-]]|[_ Hi]]%lookup_insert_Some.
    + left. exists (length rs). rewrite !snoc_lookup. split_and!; [done|right; split; [done|]|right]; done.
    + destruct (Hlive i n r' Hi) as [(k & -> & Hk1 & Hk2)|Hr]; [left|by right].
      exists k. rewrite !snoc_lookup. split_and!; [done|by left..].
Qed.

Lemma insert_rules_inv name R0 todo : forall rs f ids used L,
  loop_inv name R0 rs f ids used L -> ruleset_ok todo ->
  exists f' ids' used' L', mfoldl (insert_rule name) (f, ids) todo = Ret (f', ids') /\
    loop_inv name R0 (rs ++ todo) f' ids' used' L'.
Proof.
  induction todo as [|rule todo IH]; intros rs f ids used L Hl Hok; cbn [mfoldl].
  { exists f, ids, used, L. by rewrite app_nil_r. }
  apply Forall_cons in Hok as [Hr Hok].
  destruct (insert_rule_inv _ _ _ _ _ _ _ rule Hl Hr) as (f1 & ids1 & used1 & L1 & -> & Hl1). mrun.
  destruct (IH _ _ _ _ _ Hl1 Hok) as (f2 & ids2 & used2 & L2 & -> & Hl2).
  exists f2, ids2, used2, L2. by rewrite <- app_assoc in Hl2.
Qed.

Lemma bart_insert_inv f L name rs :
  bart_inv f L -> ruleset_ok rs ->
  exists f' L' ids, bart_insert f name rs = Ret f' /\
    rulesets f' = <[name := mkRulesetEntry rs ids]> (rulesets f) /\ bart_inv f' L'.
Proof.
  intros Hf Hok. unfold bart_insert.
  destruct (bart_remove_inv f L name Hf) as (f0 & L0 & -> & HR0 & [Hx Hv Hfree He Hlive]). mrun.
  assert (rulesets f0 !! name = None) as Hnone by (rewrite HR0; apply lookup_delete_eq).
  destruct (insert_rules_inv name (rulesets f0) rs [] f0 dyn_empty [] L0)
    as (f1 & ids & used & L1 & -> & [Hx1 Hv1 Hfree1 HR1 Hwf Hids Hsort Hbelow Hlen Hdone Hold Hlive1]);
    [|done|].
  { constructor; try done; [intros i; by rewrite elem_of_nil|constructor| |].
    - intros i Hi%not_elem_of_nil. done.
    - intros i n r Hi. right. by apply Hlive. }
  mrun. cbn [app] in *.
  pose proof (dyn_bits_unique ids used Hwf Hsort Hids) as Hbits.
  destruct (bart_compact_spec (indices f1) (rules_to_rulesets f1) (rule_freelist f1)
    (<[name := mkRulesetEntry rs ids]> (rulesets f1)) L1) as (f2 & -> & HR2 & Hf2);
    [done|done|apply Hfree1|..].
  - intros i Hi n. destruct Hfree1 as [_ Hfr]. by rewrite Hfr.
  - intros n e [[<- <-]|[_ Hn]]%lookup_insert_Some; [|rewrite HR1 in Hn; by apply Hold].
    split; [done|]. cbn [rule_ids ruleset]. by rewrite Hbits.
  - intros i n r Hi. destruct (Hlive1 i n r Hi) as [(k & -> & Hk1 & Hk2)|(e & k & He' & Hk)].
    + exists (mkRulesetEntry rs ids), k. rewrite lookup_insert_eq. cbn [rule_ids ruleset].
      by rewrite Hbits.
    + exists e, k. rewrite lookup_insert_ne, HR1 by (intros ->; congruence). done.
  - exists f2, L1, ids. split; [done|]. split; [|done].
    by rewrite HR2, HR1, HR0, insert_delete_eq.
Qed.
End Storage.

#[export, refine] Instance bart_storage_laws `{!IpNetOps, !IpNetLaws, !Countable IpNet}
    : StorageLaws BartFilter := {
  storage_rel := bart_rel;
}.
Proof.
  - intros f m name rs [-> [L HL]] Hrs.
    destruct (bart_insert_inv f L name rs HL Hrs) as (f' & L' & ids & E & HR & Hf').
    exists f'. split; [done|]. split; [by rewrite HR, fmap_insert|by exists L'].
  - intros f m name [-> [L HL]].
    destruct (bart_remove_inv f L name HL) as (f' & L' & E & HR & Hf').
    exists f'. split; [done|]. split; [by rewrite HR, fmap_delete|by exists L'].
  - intros f m _. exists bart_default. split; [done|]. apply bart_rel_empty.
Defined.

(** ** What a lookup answers *)

Section Lookup.
Context `{!IpNetOps, !IpNetLaws, !Countable IpNet}.
Implicit Types (m : MapFilter) (info : PacketInfo) (cs : list string) (r : Rule).

(** A rule of the stored rulesets, under the given name. *)
Definition stored m (name : string) r : Prop := exists rs, m !! name = Some rs /\ r ∈ rs.

(** The source prefixes of all stored rules. *)
Definition source_prefix m (p : IpNet) : Prop :=
  exists name r, stored m name r /\ p ∈ trunc <$> pfxs (rule_src r).

(** The source test of [lookup]: a capability, or the longest of all the
    stored source prefixes that cover the source is one of the rule's. *)
Definition bart_src_matches m r info cs : Prop :=
  (exists cap, cap ∈ cs /\ cap ∈ caps (rule_src r)) \/
  exists p, covers p (src info) /\ p ∈ trunc <$> pfxs (rule_src r) /\
    forall q, covers q (src info) -> source_prefix m q -> prefix_len q <= prefix_len p.

Definition bart_rule_matches m r info cs : Prop :=
  ip_proto info ∈ protos r /\ bart_src_matches m r info cs /\
  exists d, d ∈ rule_dst r /\ bart_dst_matches d info (for_proto (ip_proto info)) = true.


Lemma stored_live f L n r :
  bart_inv f L -> stored (ruleset <$> rulesets f) n r <-> exists i, L !! i = Some (n, r).
Proof.
  intros Hf. unfold stored. setoid_rewrite lookup_fmap. split.
  - intros (rs & Hrs & [k Hk]%list_elem_of_lookup).
    destruct (rulesets f !! n) as [e|] eqn:Ee; [|done]. injection Hrs as <-.
    destruct (bi_entry _ _ Hf _ _ Ee) as (_ & Hlen & Hl).
    pose proof (lookup_lt_Some _ _ _ Hk) as Hlt. rewrite <- Hlen in Hlt.
    destruct (lookup_lt_is_Some_2 _ _ Hlt) as [i Hi]. exists i. by eapply Hl.
  - intros [i Hi]. destruct (bi_live _ _ Hf _ _ _ Hi) as (e & k & -> & _ & Hk).
    exists (ruleset e). split; [done|]. by eapply list_elem_of_lookup_2.
Qed.

(** [b] is the set of the identifiers of the live rules that satisfy [P]. *)
Definition picks (b : IdSet) (L : gmap nat (string * Rule)) (P : Rule -> Prop) : Prop :=
  ids_wf b /\ forall i, has b i = true <-> live_with L P i.

Lemma picks_iff b L P Q : picks b L P -> (forall r, P r <-> Q r) -> picks b L Q.
Proof.
  intros [Hb Hin] HPQ. split; [done|]. intros i. rewrite Hin. unfold live_with.
  by setoid_rewrite HPQ.
Qed.

Lemma picks_none b L P Q :
  picks b L P -> dyn_is_empty b = true -> (forall r, Q r -> P r) -> picks b L Q.
Proof.
  intros [Hb Hin] He HQP. split; [done|]. intros i.
  pose proof (proj1 (dyn_is_empty_spec b Hb) He i) as Hno. rewrite Hno. split; [done|].
  intros (n & r & Hi & Hr). assert (has b i = true) by (apply Hin; exists n, r; auto). congruence.
Qed.

Lemma picks_and b b' L P Q :
  picks b L P -> picks b' L Q -> picks (dyn_intersect_inplace b b') L (fun r => P r /\ Q r).
Proof.
  intros [Hb Hin] [Hb' Hin']. destruct (dyn_intersect_spec 1 one_pos b b' Hb Hb') as [Hw Hh].
  split; [done|]. intros i. rewrite Hh, andb_true_iff, Hin, Hin'. split.
  - intros [(n & r & Hi & Hr) (n' & r' & Hi' & Hr')]. exists n, r. split; [done|].
    split; [done|congruence].
  - intros (n & r & Hi & Hr1 & Hr2). split; by exists n, r.
Qed.

Lemma picks_src f L info cs :
  bart_inv f L -> info_ok info ->
  exists ipm, Split.lookup (srcs (indices f)) (src info) = Ret ipm /\
    picks (match ipm with
           | Some b => dyn_union_inplace (cap_lookup (ix_caps (indices f)) cs) b
           | None => cap_lookup (ix_caps (indices f)) cs
           end) L (fun r => bart_src_matches (ruleset <$> rulesets f) r info cs).
Proof.
  intros Hf (Hsrc & _). pose proof (bi_index _ _ Hf) as [(S & Hc & HS) Hs _ _].
  destruct (cap_lookup_spec _ _ cs Hc) as [Hwc Hcin].
  destruct (tbl_lookup _ _ (src info) Hs Hsrc) as (ipm & E & Hipok & Hipin).
  exists ipm. split; [done|]. set (all := match ipm with Some b => _ | None => _ end).
  assert (ids_wf all /\ forall i, has all i = has (cap_lookup (ix_caps (indices f)) cs) i || idset_in ipm i)
    as [Hwa Ha].
  { destruct ipm as [b|]; subst all; cbn [idset_in].
    - by apply (dyn_union_spec 1 one_pos _ _ Hwc (proj1 Hipok)).
    - split; [done|]. intros i. by rewrite orb_false_r. }
  split; [done|]. intros i. rewrite Ha, orb_true_iff, Hcin, Hipin. setoid_rewrite HS.
  unfold bart_src_matches, live_with. split.
  - intros [(cap & Hcap & n & r & Hi & Hr)|(p & Hp & (n & r & Hi & Hr) & Hmax)]; exists n, r;
      (split; [done|]); [left; by exists cap|].
    right. exists p. split; [done|]. split; [done|].
    intros q Hq (n' & r' & Hst & Hq'). apply (stored_live f L) in Hst as [j Hj]; [|done].
    apply (Hmax q j Hq). by exists n', r'.
  - intros (n & r & Hi & [(cap & Hcap & Hr)|(p & Hp & Hpr & Hmax)]).
    + left. exists cap. split; [done|]. by exists n, r.
    + right. exists p. split; [done|]. split; [by exists n, r|].
      intros q j Hq (n' & r' & Hj & Hq'). apply (Hmax q Hq). exists n', r'. split; [|done].
      apply (stored_live f L); [done|]. by exists j.
Qed.

Lemma picks_proto f L b P proto :
  bart_inv f L -> picks b L P ->
  picks (match ip_protos (indices f) !! proto with
         | Some p => dyn_intersect_inplace b p
         | None => clear_all
         end) L (fun r => P r /\ proto ∈ protos r).
Proof.
  intros Hf Hb. destruct (bi_index _ _ Hf) as [_ _ _ [Hpok Hpin]].
  specialize (Hpok proto). specialize (Hpin proto).
  destruct (ip_protos (indices f) !! proto) as [p|]; [by apply picks_and; [|split; [apply Hpok|]]|].
  split; [apply empty_wf|]. intros i. split; [done|]. intros (n & r & Hi & _ & Hr).
  assert (idset_in (@None IdSet) i = true) as Hno; [apply Hpin; by exists n, r|done].
Qed.

Lemma picks_dst f L info :
  bart_inv f L -> info_ok info ->
  exists ds, (if is_port_ful (ip_proto info)
      then dst_lookup (ix_dsts (indices f)) (dst info) (port info)
      else if bool_decide (ip_proto info = ICMP) || bool_decide (ip_proto info = ICMPV6)
      then lookup_ips_only (ix_dsts (indices f)) (dst info)
      else lookup_all_ports_ips (ix_dsts (indices f)) (dst info)) = Ret ds /\
    picks ds L (fun r => exists d, d ∈ rule_dst r /\
      bart_dst_matches d info (for_proto (ip_proto info)) = true).
Proof.
  intros Hf (_ & Hdst & Hport). destruct (bi_index _ _ Hf) as [_ _ (D & Hd & HD) _].
  assert (resolves D info (if is_port_ful (ip_proto info)
      then dst_lookup (ix_dsts (indices f)) (dst info) (port info)
      else if bool_decide (ip_proto info = ICMP) || bool_decide (ip_proto info = ICMPV6)
      then lookup_ips_only (ix_dsts (indices f)) (dst info)
      else lookup_all_ports_ips (ix_dsts (indices f)) (dst info)) (for_proto (ip_proto info)))
    as (ds & -> & Hwd & Hds).
  { unfold for_proto. destruct (is_port_ful _); [by apply dst_lookup_spec|].
    destruct (_ || _); [by apply lookup_ips_only_spec|by apply lookup_all_ports_ips_spec]. }
  exists ds. split; [done|]. split; [done|]. intros i. rewrite Hds. setoid_rewrite HD.
  unfold live_with. split.
  - intros (d & (n & r & Hi & Hr) & Hm). exists n, r. split; [done|]. by exists d.
  - intros (n & r & Hi & d & Hr & Hm). exists d. split; [by exists n, r|done].
Qed.

Lemma bart_lookup_spec f L info cs :
  bart_inv f L -> info_ok info ->
  exists b, bart_lookup f info cs = Ret b /\
    picks b L (fun r => bart_rule_matches (ruleset <$> rulesets f) r info cs).
Proof.
  intros Hf Hinfo. unfold bart_lookup.
  destruct (picks_src f L info cs Hf Hinfo) as (ipm & -> & Hsrc). mrun.
  set (all := match ipm with Some b => _ | None => _ end) in *. clearbody all.
  destruct (dyn_is_empty all) eqn:E1.
  { exists all. split; [done|]. eapply picks_none; [exact Hsrc|done|]. by intros r (_ & ? & _). }
  pose proof (picks_proto f L all _ (ip_proto info) Hf Hsrc) as Hproto.
  set (all2 := match ip_protos _ !! _ with Some b => _ | None => _ end) in *. clearbody all2.
  destruct (dyn_is_empty all2) eqn:E2.
  { exists all2. split; [done|]. eapply picks_none; [exact Hproto|done|]. by intros r (? & ? & _). }
  destruct (picks_dst f L info Hf Hinfo) as (ds & -> & Hds). mrun.
  eexists; split; [done|]. eapply picks_iff; [by apply picks_and|].
  intros r. unfold bart_rule_matches. tauto.
Qed.

(** [matches] and [match_for] from the set of matching rules. *)
Lemma bart_answers f m info cs :
  bart_rel f m -> info_ok info ->
  exists b o, bart_matches f info cs = Ret b /\ bart_match_for f info cs = Ret o /\
    (b = true <-> exists name r, stored m name r /\ bart_rule_matches m r info cs) /\
    match o with
    | Some name => exists r, stored m name r /\ bart_rule_matches m r info cs
    | None => b = false
    end.
Proof.
  intros [-> [L Hf]] Hinfo. unfold bart_matches, bart_match_for.
  destruct (bart_lookup_spec f L info cs Hf Hinfo) as (b & -> & Hb & Hin). mrun.
  assert (exists o, (match dyn_first_set b with
      | None => Ret None
      | Some rule_id => o ← idx (rules_to_rulesets f) rule_id; name ← unwrap o; Ret (Some name)
      end) = Ret o /\ match o with
    | Some name => exists r, stored (ruleset <$> rulesets f) name r /\
        bart_rule_matches (ruleset <$> rulesets f) r info cs
    | None => negb (dyn_is_empty b) = false
    end) as (o & -> & Ho).
  { unfold dyn_first_set. pose proof (dyn_first_set_from_spec b 0 (proj1 Hb)) as Hfs.
    destruct (dyn_first_set_from 0 b) as [i|].
    - destruct Hfs as (_ & Hi & _). rewrite Nat.sub_0_r in Hi. apply Hin in Hi as (n & r & Hi & Hr).
      assert (rules_to_rulesets f !! i = Some (Some n)) as Hn by (apply (bi_names _ _ Hf); by exists r).
      exists (Some n). unfold idx. rewrite Hn. split; [done|]. exists r. split; [|done].
      apply (stored_live f L); [done|]. by exists i.
    - exists None. split; [done|]. apply negb_false_iff. by apply dyn_is_empty_spec. }
  eexists _, o. split; [done|]. split; [done|]. split; [|done].
  rewrite negb_true_iff, dyn_is_empty_false by done. setoid_rewrite Hin. unfold live_with.
  setoid_rewrite (stored_live f L); [|done]. naive_solver.
Qed.
End Lookup.

#[export, refine] Instance bart_total `{!IpNetOps, !IpNetLaws, !Countable IpNet}
    : FilterTotal BartFilter := {
  filter_ok f := exists m, bart_rel f m;
}.
Proof.
  all: intros f info cs [m Hf] Hi; destruct (bart_answers f m info cs Hf Hi) as (b & o & Eb & Eo & _);
    by eexists.
Defined.

(** ** Against the reference filter *)

(** One update of the control plane: the arguments of [apply_update]. *)
Record Update `{!IpNetOps} := mkUpdate {
  packet_filter : option Ruleset;
  clear_storage : bool;
  packet_filters : list (string * option Ruleset);
}.
Arguments mkUpdate {_} _ _ _.
Arguments Update {_}.

Definition run_updates `{!IpNetOps} {F} `{!FilterStorage F} (f : F) (us : list Update) : outcome F :=
  mfoldl (fun f u => apply_update f (packet_filter u) (clear_storage u) (packet_filters u)) f us.

Definition update_typed `{!IpNetOps} (u : Update) : Prop :=
  update_ok (packet_filter u) (packet_filters u).

Section Reference.
Context `{!IpNetOps, !IpNetLaws, !Countable IpNet}.
Implicit Types (m : MapFilter) (info : PacketInfo) (cs : list string) (r : Rule).

Lemma run_updates_refines {F} `{!FilterStorage F, !StorageLaws F} us : forall (f : F) m,
  storage_rel f m -> Forall update_typed us ->
  exists f' m', run_updates f us = Ret f' /\ run_updates m us = Ret m' /\ storage_rel f' m'.
Proof.
  unfold run_updates. induction us as [|u us IH]; intros f m Hf Hus; [by exists f, m|].
  apply Forall_cons in Hus as [Hu Hus]. cbn [mfoldl].
  destruct (apply_update_refines f m _ (clear_storage u) _ Hf Hu) as (f1 & m1 & -> & -> & Hf1).
  mrun. by apply IH.
Qed.

(** No destination of a stored rule has a range of exactly 65535 ports. *)
Definition plain_ports m : Prop :=
  forall name r d, stored m name r -> d ∈ rule_dst r -> effective_ports (ports d) = ports d.

(** No two source prefixes of stored rules are nested. *)
Definition flat_sources m : Prop :=
  forall p q ip, source_prefix m p -> source_prefix m q -> ip_ok ip ->
    covers p ip -> covers q ip -> prefix_len q <= prefix_len p.

Lemma bart_dst_matches_plain d info mode :
  effective_ports (ports d) = ports d -> bart_dst_matches d info mode = dst_matches d info mode.
Proof. intros E. unfold bart_dst_matches, dst_matches. by rewrite E. Qed.

Lemma caps_match_iff r cs :
  existsb (fun cap => existsb (fun c => bool_decide (c = cap)) (caps (rule_src r))) cs = true <->
  exists cap, cap ∈ cs /\ cap ∈ caps (rule_src r).
Proof.
  rewrite existsb_exists. setoid_rewrite existsb_exists. setoid_rewrite bool_decide_eq_true.
  setoid_rewrite <- list_elem_of_In. naive_solver.
Qed.

Lemma bart_src_sound m r info cs :
  ip_ok (src info) -> bart_src_matches m r info cs -> src_matches (rule_src r) info cs = true.
Proof.
  intros Hip Hs. unfold src_matches. rewrite orb_true_iff, caps_match_iff, covered_iff by done.
  destruct Hs as [Hc|(p & Hp & Hpr & _)]; [by right|left; by exists p].
Qed.

Lemma bart_src_complete m name r info cs :
  ip_ok (src info) -> stored m name r -> flat_sources m ->
  src_matches (rule_src r) info cs = true -> bart_src_matches m r info cs.
Proof.
  intros Hip Hst Hflat. unfold src_matches.
  rewrite orb_true_iff, caps_match_iff, covered_iff by done.
  intros [(p & Hp & Hpr)|Hc]; [right|by left]. exists p. split; [done|]. split; [done|].
  intros q Hq Hqs. apply (Hflat p q (src info)); try done. by exists name, r.
Qed.

Lemma rule_matches_iff r info cs :
  rule_matches r info cs = true <->
  ip_proto info ∈ protos r /\ src_matches (rule_src r) info cs = true /\
  exists d, d ∈ rule_dst r /\ dst_matches d info (for_proto (ip_proto info)) = true.
Proof.
  unfold rule_matches. rewrite !andb_true_iff, bool_decide_eq_true, existsb_exists.
  setoid_rewrite <- list_elem_of_In. tauto.
Qed.

Lemma bart_rule_sound m name r info cs :
  info_ok info -> stored m name r -> plain_ports m ->
  bart_rule_matches m r info cs -> rule_matches r info cs = true.
Proof.
  intros (Hip & _) Hst Hplain (Hp & Hs & d & Hd & Hm). apply rule_matches_iff.
  split; [done|]. split; [by eapply bart_src_sound|]. exists d. split; [done|].
  rewrite <- bart_dst_matches_plain; [done|by eapply Hplain].
Qed.

Lemma bart_rule_complete m name r info cs :
  info_ok info -> stored m name r -> plain_ports m -> flat_sources m ->
  rule_matches r info cs = true -> bart_rule_matches m r info cs.
Proof.
  intros (Hip & _) Hst Hplain Hflat (Hp & Hs & d & Hd & Hm)%rule_matches_iff.
  split; [done|]. split; [by eapply bart_src_complete|]. exists d. split; [done|].
  rewrite bart_dst_matches_plain; [done|by eapply Hplain].
Qed.

Lemma permitted_stored m info cs :
  permitted m info cs <-> exists name r, stored m name r /\ rule_matches r info cs = true.
Proof. unfold permitted, stored. naive_solver. Qed.

Lemma bart_run us :
  Forall update_typed us ->
  exists f m, run_updates bart_default us = Ret f /\ run_updates (∅ : MapFilter) us = Ret m /\
    bart_rel f m.
Proof.
  intros Hus. destruct (run_updates_refines us bart_default ∅) as (f & m & E1 & E2 & Hf);
    [apply bart_rel_empty|done|]. by exists f, m.
Qed.
End Reference.

(** ** Properties *)


(** The filter accepts nothing that the reference filter drops, as long as
    no rule has a range of exactly 65535 ports. *)
Theorem bart_filter_sound `{!IpNetOps, !IpNetLaws, !Countable IpNet, !MapIter} us info cs f m :
  Forall update_typed us -> info_ok info ->
  run_updates bart_default us = Ret f -> run_updates (∅ : MapFilter) us = Ret m ->
  plain_ports m -> matches f info cs = Ret true -> matches m info cs = Ret true.
Proof.
  intros Hus Hinfo Ef Em Hplain Hm.
  destruct (bart_run us Hus) as (f' & m' & E1 & E2 & Hf).
  assert (f' = f) as -> by congruence. assert (m' = m) as -> by congruence.
  destruct (bart_answers f m info cs Hf Hinfo) as (b & o & Eb & _ & Hb & _).
  destruct (map_matches_spec m info cs) as (b' & -> & Hb'). f_equal. apply Hb', permitted_stored.
  assert (b = true) as Hbt by (cbn in Hm; congruence).
  apply Hb in Hbt as (name & r & Hst & Hr). exists name, r. split; [done|].
  by eapply bart_rule_sound.
Qed.

(** With such rules and no nested source prefixes the filter and the
    reference filter give the same verdict on every packet. *)
Theorem bart_filter_agrees `{!IpNetOps, !IpNetLaws, !Countable IpNet, !MapIter} us info cs f m :
  Forall update_typed us -> info_ok info ->
  run_updates bart_default us = Ret f -> run_updates (∅ : MapFilter) us = Ret m ->
  plain_ports m -> flat_sources m -> matches f info cs = matches m info cs.
Proof.
  intros Hus Hinfo Ef Em Hplain Hflat.
  destruct (bart_run us Hus) as (f' & m' & E1 & E2 & Hf).
  assert (f' = f) as -> by congruence. assert (m' = m) as -> by congruence.
  destruct (bart_answers f m info cs Hf Hinfo) as (b & o & Eb & _ & Hb & _).
  destruct (map_matches_spec m info cs) as (b' & -> & Hb'). cbn [matches bart_filter]. rewrite Eb.
  f_equal. apply eq_true_iff_eq. rewrite Hb, Hb', permitted_stored. split.
  - intros (name & r & Hst & Hr). exists name, r. split; [done|]. by eapply bart_rule_sound.
  - intros (name & r & Hst & Hr). exists name, r. split; [done|]. by eapply bart_rule_complete.
Qed.

(** ** Where the two filters differ, and examples *)

From S2P Require Import IpNetModel.

#[local] Instance map_to_list_iter : MapIter := {|
  map_iter := map_to_list;
  map_iter_perm m := reflexivity _;
|}.

Definition host : CNet := net4 100 64 0 1 32 eq_refl.

Definition tcp_rule (from : CNet) (lo hi : Z) : Rule :=
  mkRule (mkSrcMatch [from] []) [TCP] [mkDstMatch (lo, hi) [host]].

Definition tcp_packet (from : IpAddr) (to : Z) : PacketInfo :=
  mkPacketInfo from (ip4 100 64 0 1) TCP to (Tcp TCP_SYN).

(** Port 22 for 10.0.0.0/8, port 80 for 10.1.0.0/16. *)
Definition nested_update : list Update :=
  [ mkUpdate (Some [ tcp_rule (net4 10 0 0 0 8 eq_refl) 22 22;
                     tcp_rule (net4 10 1 0 0 16 eq_refl) 80 80 ]) false [] ].

Definition verdict {F} `{!FilterStorage F, !Filter F} (f : F) (us : list Update) (info : PacketInfo)
    : outcome bool :=
  f ← run_updates f us; matches f info [].

(** A rule is shadowed by the more specific source prefix of another rule.
    With port 22 open to 10.0.0.0/8 and port 80 to 10.1.0.0/16, a packet from
    10.1.2.3 to port 22 is accepted by the reference filter and dropped by this
    one, while one from 10.2.2.3 is accepted by both. *)
Theorem source_rule_shadowed :
  verdict (∅ : MapFilter) nested_update (tcp_packet (ip4 10 1 2 3) 22) = Ret true /\
  verdict bart_default nested_update (tcp_packet (ip4 10 1 2 3) 22) = Ret false /\
  verdict bart_default nested_update (tcp_packet (ip4 10 2 2 3) 22) = Ret true.
Proof. split_and!; vm_compute; reflexivity. Qed.

(** Ports 1 to 65535 for 10.0.0.0/8, for TCP and for GRE (protocol 47). *)
Definition almost_all_ports : list Update :=
  [ mkUpdate (Some [ mkRule (mkSrcMatch [net4 10 0 0 0 8 eq_refl] []) [TCP; 47%Z]
                       [mkDstMatch (1, 65535)%Z [host]] ]) false [] ].

Definition gre_packet : PacketInfo :=
  mkPacketInfo (ip4 10 1 2 3) (ip4 100 64 0 1) 47 0 Unknown.

(** A rule for the ports 1 to 65535 opens port 0 and the protocols without
    ports, which the reference filter drops. *)
Theorem almost_all_ports_opened :
  verdict (∅ : MapFilter) almost_all_ports (tcp_packet (ip4 10 1 2 3) 0) = Ret false /\
  verdict bart_default almost_all_ports (tcp_packet (ip4 10 1 2 3) 0) = Ret true /\
  verdict (∅ : MapFilter) almost_all_ports gre_packet = Ret false /\
  verdict bart_default almost_all_ports gre_packet = Ret true.
Proof. split_and!; vm_compute; reflexivity. Qed.

(** *** The examples satisfy the hypotheses *)

Definition nested_rules : Ruleset :=
  [ tcp_rule (net4 10 0 0 0 8 eq_refl) 22 22; tcp_rule (net4 10 1 0 0 16 eq_refl) 80 80 ].

(** Port 22 for 10.0.0.0/8, port 80 for 192.168.0.0/16, after the nested rules
    were in force. *)
Definition flat_rules : Ruleset :=
  [ tcp_rule (net4 10 0 0 0 8 eq_refl) 22 22; tcp_rule (net4 192 168 0 0 16 eq_refl) 80 80 ].

Definition flat_update : list Update :=
  nested_update ++ [ mkUpdate None true [("lan"%string, Some flat_rules)] ].

Definition filter_after (us : list Update) : BartFilter :=
  match run_updates bart_default us with Ret f => f | Panic => bart_default end.

Lemma filter_after_runs us :
  Forall update_typed us -> run_updates bart_default us = Ret (filter_after us).
Proof. intros Hus. unfold filter_after. by destruct (bart_run us Hus) as (f & m & -> & _). Qed.

Lemma nested_typed : Forall update_typed nested_update.
Proof. repeat constructor; cbn; lia. Qed.

Lemma flat_typed : Forall update_typed flat_update.
Proof. repeat constructor; cbn; lia. Qed.

Lemma tcp_packet_ok a b c d p :
  ip_okb (ip4 a b c d) = true -> (0 <= p < 65536)%Z -> info_ok (tcp_packet (ip4 a b c d) p).
Proof. intros Hip Hp. split; [by apply ip_okb_spec|]. split; [by apply ip_okb_spec|exact Hp]. Qed.

Lemma stored_singleton n rs name (r : Rule) : stored {[n := rs]} name r -> name = n /\ r ∈ rs.
Proof. intros (rs' & [<- <-]%lookup_singleton_Some & Hr). done. Qed.

Lemma nested_plain : plain_ports {["base"%string := nested_rules]}.
Proof.
  intros name r d [_ Hr]%stored_singleton Hd. unfold nested_rules in Hr.
  repeat (apply elem_of_cons in Hr as [->|Hr]; [by apply list_elem_of_singleton in Hd as ->|]).
  by apply not_elem_of_nil in Hr.
Qed.

Lemma flat_plain : plain_ports {["lan"%string := flat_rules]}.
Proof.
  intros name r d [_ Hr]%stored_singleton Hd. unfold flat_rules in Hr.
  repeat (apply elem_of_cons in Hr as [->|Hr]; [by apply list_elem_of_singleton in Hd as ->|]).
  by apply not_elem_of_nil in Hr.
Qed.

Lemma flat_is_flat : flat_sources {["lan"%string := flat_rules]}.
Proof.
  intros p q ip (n & r & [_ Hr]%stored_singleton & Hp) (n' & r' & [_ Hr']%stored_singleton & Hq)
    Hip [_ Hcp] [_ Hcq].
  apply net_contains_iff in Hcp as [Hp1 Hp2]; [|done].
  apply net_contains_iff in Hcq as [Hq1 Hq2]; [|done].
  apply elem_of_cons in Hr as [->|Hr%list_elem_of_singleton];
    apply elem_of_cons in Hr' as [->|Hr'%list_elem_of_singleton]; subst;
    apply list_elem_of_singleton in Hp as ->; apply list_elem_of_singleton in Hq as ->; try done;
    destruct ip as [os|os]; try done; destruct os as [|o os]; try done;
    vm_compute in Hp1; cbn in Hp2, Hq2.
  all: injection Hp2 as Hp2 _; injection Hq2 as Hq2 _; exfalso; vm_compute in *; congruence.
Qed.


Lemma bart_filter_sound_witness :
  matches {["base"%string := nested_rules]} (tcp_packet (ip4 10 2 2 3) 22) [] = Ret true.
Proof.
  apply (bart_filter_sound nested_update _ _ (filter_after nested_update)).
  - apply nested_typed.
  - by apply tcp_packet_ok; [reflexivity|lia].
  - apply filter_after_runs, nested_typed.
  - reflexivity.
  - apply nested_plain.
  - vm_compute. reflexivity.
Defined.

Lemma bart_filter_agrees_witness :
  matches (filter_after flat_update) (tcp_packet (ip4 10 1 2 3) 22) []
  = matches {["lan"%string := flat_rules]} (tcp_packet (ip4 10 1 2 3) 22) [].
Proof.
  apply (bart_filter_agrees flat_update).
  - apply flat_typed.
  - by apply tcp_packet_ok; [reflexivity|lia].
  - apply filter_after_runs, flat_typed.
  - reflexivity.
  - apply flat_plain.
  - apply flat_is_flat.
Defined.
