(* ===== verification/Replay.v ===== *)
(** * Replay: the anti-replay window of ts_tunnel

    [ReplayWindow] (src/ts_tunnel/src/replay.rs) is the ring of RFC 6479: 128
    blocks of 64 bits, of which one is always held back, and the highest
    counter seen.  Counters and blocks are [Z] at 64 bits.  The
    specification is the set of the counters accepted so far: [check] is
    compared with membership in that set. *)

From S2P Require Import Prelude Bitset.
From stdpp Require Import gmap.

Local Open Scope Z_scope.

(** ** replay.rs *)

Definition TOTAL_BITS : Z := 8192.
Definition N_BLOCKS : Z := TOTAL_BITS / 64.
Definition BIT_IDX_BITMASK : Z := 63.
Definition BIT_IDX_SHIFT : Z := 6.
Definition BLOCK_IDX_BITMASK : Z := N_BLOCKS - 1.
Definition WINDOW_SIZE : Z := (N_BLOCKS - 1) * 64.

Record ReplayWindow := mkReplayWindow {
  last : Z;
  blocks : list Z;
}.

Definition replay_default : ReplayWindow :=
  mkReplayWindow 0 (replicate (Z.to_nat N_BLOCKS) 0).

(** [saturating_sub] *)
Definition smallest_valid (w : ReplayWindow) : Z := Z.max 0 (last w - WINDOW_SIZE).

Definition block_idx_unbounded (counter : Z) : Z := Z.shiftr counter BIT_IDX_SHIFT.

Definition bit_idx (counter : Z) : Z := Z.land counter BIT_IDX_BITMASK.

Definition block_idx_and_bit_mask (counter : Z) : nat * Z :=
  let block_idx := Z.land (block_idx_unbounded counter) BLOCK_IDX_BITMASK in
  (Z.to_nat block_idx, Z.shiftl 1 (bit_idx counter)).

Definition check (w : ReplayWindow) (counter : Z) : outcome bool :=
  if decide (last w < counter) then Ret true
  else if decide (counter < smallest_valid w) then Ret false
  else
    let '(block_idx, bit_mask) := block_idx_and_bit_mask counter in
    b ← idx (blocks w) block_idx;
    Ret (bool_decide (Z.land b bit_mask = 0)).

(** The loop [for i in cur_block..new_block]: every block that the head enters
    is zeroed. *)
Definition clear_block (bs : list Z) (i : Z) : outcome (list Z) :=
  upd bs (Z.to_nat (Z.land (i + 1) BLOCK_IDX_BITMASK)) 0.

Definition advance (w : ReplayWindow) (counter : Z) : outcome ReplayWindow :=
  let cur_block := block_idx_unbounded (last w) in
  let new_block := block_idx_unbounded counter in
  let delta := new_block - cur_block in
  bs ← (if decide (N_BLOCKS <= delta) then Ret (replicate (Z.to_nat N_BLOCKS) 0)
        else mfoldl clear_block (blocks w) (seqZ cur_block delta));
  Ret (mkReplayWindow counter bs).

(** Both [panic!]s are [Panic]. *)
Definition set (w : ReplayWindow) (counter : Z) : outcome ReplayWindow :=
  if decide (counter < smallest_valid w) then Panic
  else
    w ← (if decide (last w < counter) then advance w counter else Ret w);
    let '(block_idx, bit_mask) := block_idx_and_bit_mask counter in
    b ← idx (blocks w) block_idx;
    if decide (Z.land b bit_mask <> 0) then Panic
    else
      bs ← upd (blocks w) block_idx (Z.lor b bit_mask);
      Ret (mkReplayWindow (last w) bs).

(** ** Specification

    The window holds the counters [seen] when its head is the highest of them
    and every bit of the 128 blocks up to the head says whether its counter
    was seen. *)

(** The slot of a counter in the ring. *)
Definition slot_bit (bs : list Z) (c : Z) : bool :=
  Z.testbit (default 0 (bs !! Z.to_nat (c / 64 mod 128))) (c mod 64).

(** The counters whose blocks the ring currently holds. *)
Definition in_ring (w : ReplayWindow) (c : Z) : Prop :=
  0 <= c /\ last w / 64 - 127 <= c / 64 <= last w / 64.

Record replay_rel (w : ReplayWindow) (seen : gset Z) : Prop := mkReplayRel {
  rel_wf : wf 128 (blocks w);
  rel_last : 0 <= last w;
  rel_seen : forall c, c ∈ seen -> 0 <= c <= last w;
  rel_bits : forall c, in_ring w c -> slot_bit (blocks w) c = bool_decide (c ∈ seen);
}.

(** The counters that the protocol still allows, given those seen. *)
Definition fresh (head : Z) (seen : gset Z) (c : Z) : Prop :=
  (c ∉ seen) /\ (head - WINDOW_SIZE <= c).

#[export] Instance fresh_dec head seen c : Decision (fresh head seen c).
Proof. unfold fresh. apply _. Defined.

(** Process a counter as [decrypt_one] does for an authentic packet. *)
Definition accept (w : ReplayWindow) (counter : Z) : outcome (ReplayWindow * bool) :=
  ok ← check w counter;
  if (ok : bool) then w ← set w counter; Ret (w, true) else Ret (w, false).

Fixpoint accept_all (w : ReplayWindow) (counters : list Z) : outcome (ReplayWindow * list bool) :=
  match counters with
  | [] => Ret (w, [])
  | c :: counters =>
      '(w, b) ← accept w c;
      '(w, bs) ← accept_all w counters;
      Ret (w, b :: bs)
  end.

(** The same on the set of all counters ever accepted. *)
Fixpoint accept_spec (head : Z) (seen : gset Z) (counters : list Z) : list bool :=
  match counters with
  | [] => []
  | c :: counters =>
      if decide (fresh head seen c)
      then true :: accept_spec (Z.max head c) ({[c]} ∪ seen) counters
      else false :: accept_spec head seen counters
  end.

(** ** Index arithmetic *)

Lemma block_idx_eq c :
  0 <= c -> block_idx_and_bit_mask c = (Z.to_nat (c / 64 mod 128), Z.shiftl 1 (c mod 64)).
Proof.
  intros Hc. unfold block_idx_and_bit_mask, block_idx_unbounded, bit_idx.
  rewrite Z.shiftr_div_pow2 by (unfold BIT_IDX_SHIFT; lia).
  change BLOCK_IDX_BITMASK with (Z.ones 7). change BIT_IDX_BITMASK with (Z.ones 6).
  by rewrite !Z.land_ones by lia.
Qed.

Lemma mask_zero b k :
  0 <= k -> (Z.land b (Z.shiftl 1 k) = 0 <-> Z.testbit b k = false).
Proof.
  intros Hk. rewrite Z.shiftl_1_l. split.
  - intros E. apply (f_equal (fun x => Z.testbit x k)) in E.
    rewrite Z.land_spec, Z.pow2_bits_true, Z.testbit_0_l, andb_true_r in E by done. done.
  - intros E. apply Z.bits_inj'. intros j Hj.
    rewrite Z.land_spec, Z.pow2_bits_eqb, Z.testbit_0_l by done.
    destruct (Z.eqb_spec k j) as [<-|]; [by rewrite E|apply andb_false_r].
Qed.

Lemma ring_lookup bs c :
  wf 128 bs -> exists b, bs !! Z.to_nat (c / 64 mod 128) = Some b /\ u64_ok b.
Proof.
  intros [Hl Hf]. pose proof (Z.mod_pos_bound (c / 64) 128).
  destruct (lookup_lt_is_Some_2 bs (Z.to_nat (c / 64 mod 128))) as [b Hb]; [lia|].
  exists b. split; [done|]. by eapply Forall_lookup_1.
Qed.

(** Two counters of the ring with the same block slot have the same block. *)
Lemma same_slot k k' h :
  h - 127 <= k <= h -> h - 127 <= k' <= h -> k mod 128 = k' mod 128 -> k = k'.
Proof.
  intros ?? E. pose proof (Z.div_mod k 128 ltac:(lia)). pose proof (Z.div_mod k' 128 ltac:(lia)).
  lia.
Qed.

(** ** check *)

Lemma check_spec w seen c :
  replay_rel w seen -> 0 <= c ->
  check w c = Ret (bool_decide (fresh (last w) seen c)).
Proof.
  intros [Hwf Hlast Hseen Hbits] Hc. unfold check, smallest_valid.
  case_decide as Hnew.
  { f_equal. symmetry. apply bool_decide_eq_true. split; [|change WINDOW_SIZE with 8128; lia].
    intros Hin. apply Hseen in Hin. lia. }
  case_decide as Hold.
  { f_equal. symmetry. apply bool_decide_eq_false. intros [_ H]. lia. }
  rewrite block_idx_eq by done. destruct (ring_lookup (blocks w) c Hwf) as (b & Hb & _).
  unfold idx. rewrite Hb. mrun. f_equal. apply bool_decide_ext.
  rewrite mask_zero by (apply Z.mod_pos_bound; lia).
  assert (in_ring w c) as Hin.
  { change WINDOW_SIZE with (127 * 64) in *. split; [done|].
    Z.to_euclidean_division_equations. lia. }
  specialize (Hbits c Hin). unfold slot_bit in Hbits. rewrite Hb in Hbits. simpl in Hbits.
  rewrite Hbits, bool_decide_eq_false. unfold fresh. split; [intros; split; [done|lia]|tauto].
Qed.

(** ** set *)

Lemma slot_lt k : (Z.to_nat (k mod 128) < 128)%nat.
Proof. pose proof (Z.mod_pos_bound k 128). lia. Qed.

Lemma clear_block_spec bs i :
  wf 128 bs -> 0 <= i ->
  exists bs', clear_block bs i = Ret bs' /\ wf 128 bs' /\
    forall k, default 0 (bs' !! Z.to_nat (k mod 128)) =
      if decide (k mod 128 = (i + 1) mod 128) then 0 else default 0 (bs !! Z.to_nat (k mod 128)).
Proof.
  intros Hwf Hi. unfold clear_block. change BLOCK_IDX_BITMASK with (Z.ones 7).
  rewrite Z.land_ones by lia. change (2 ^ 7) with 128.
  pose proof (slot_lt (i + 1)). pose proof Hwf as [Hl _].
  rewrite upd_lt by lia. eexists; split; [done|]. split.
  - apply wf_upd; [done|split; lia].
  - intros k. case_decide as E; [by rewrite E, list_lookup_insert_eq by lia|].
    rewrite list_lookup_insert_ne; [done|].
    pose proof (Z.mod_pos_bound k 128). pose proof (Z.mod_pos_bound (i + 1) 128). lia.
Qed.

(** A fate for the block slot [k]: entered by the head and zero, or as before. *)
Definition cleared (bs bs' : list Z) (cur new k : Z) : Prop :=
  (exists i, cur < i <= new /\ i mod 128 = k mod 128 /\
     default 0 (bs' !! Z.to_nat (k mod 128)) = 0) \/
  (forall i, cur < i <= new -> i mod 128 <> k mod 128) /\
  default 0 (bs' !! Z.to_nat (k mod 128)) = default 0 (bs !! Z.to_nat (k mod 128)).

Lemma clear_blocks n bs cur :
  wf 128 bs -> 0 <= cur ->
  exists bs', mfoldl clear_block bs (seqZ cur (Z.of_nat n)) = Ret bs' /\ wf 128 bs' /\
    forall k, cleared bs bs' cur (cur + Z.of_nat n) k.
Proof.
  revert bs cur. induction n as [|n IH]; intros bs cur Hwf Hcur.
  { exists bs. split; [done|]. split; [done|]. intros k. right. split; [lia|done]. }
  rewrite seqZ_cons by lia. rewrite Nat2Z.inj_succ, Z.pred_succ. cbn [mfoldl].
  destruct (clear_block_spec bs cur Hwf Hcur) as (bs1 & -> & Hwf1 & Hb1). mrun.
  destruct (IH bs1 (Z.succ cur) Hwf1 ltac:(lia)) as (bs2 & -> & Hwf2 & Hb2).
  exists bs2. split; [done|]. split; [done|]. intros k. specialize (Hb1 k).
  destruct (Hb2 k) as [(i & Hi & E & Hz)|[Hne Hs]].
  - left. exists i. split_and!; (done || lia).
  - destruct (decide (k mod 128 = (cur + 1) mod 128)) as [Hk|Hk].
    + left. exists (cur + 1). split_and!; [lia..|done|by rewrite Hs, Hb1].
    + right. rewrite Hs, Hb1. split; [|done].
      intros i Hi. destruct (decide (i = cur + 1)) as [->|]; [done|]. apply Hne. lia.
Qed.

(** Advancing the head empties exactly the counters beyond the old head. *)
Lemma advance_spec w seen c :
  replay_rel w seen -> last w < c ->
  exists w', advance w c = Ret w' /\ last w' = c /\ wf 128 (blocks w') /\
    forall x, in_ring w' x -> slot_bit (blocks w') x = bool_decide (x ∈ seen).
Proof.
  intros [Hwf Hlast Hseen Hbits] Hc. unfold advance, block_idx_unbounded.
  rewrite !Z.shiftr_div_pow2 by (unfold BIT_IDX_SHIFT; lia).
  change (2 ^ BIT_IDX_SHIFT) with 64. change N_BLOCKS with 128.
  assert (last w / 64 <= c / 64) by (apply Z.div_le_mono; lia).
  assert (0 <= last w / 64) by (apply Z.div_pos; lia).
  case_decide as Hfar.
  - mrun. eexists; split; [done|]. split; [done|]. split; [apply wf_EMPTY|].
    intros x [Hx [Hx1 Hx2]]. unfold slot_bit. cbn [blocks last] in *.
    assert (last w < x) by (Z.to_euclidean_division_equations; lia).
    rewrite lookup_replicate_2 by apply slot_lt. simpl. rewrite Z.testbit_0_l.
    symmetry. apply bool_decide_eq_false. intros Hin%Hseen. lia.
  - destruct (clear_blocks (Z.to_nat (c / 64 - last w / 64)) (blocks w) (last w / 64) Hwf)
      as (bs & E & Hwf' & Hcl); [done|].
    rewrite Z2Nat.id in E, Hcl by lia. rewrite E. mrun.
    eexists; split; [done|]. split; [done|]. split; [done|].
    intros x [Hx [Hx1 Hx2]]. unfold slot_bit. cbn [blocks last] in *.
    destruct (Hcl (x / 64)) as [(i & Hi & Hmod & ->)|[Hne ->]].
    + rewrite Z.testbit_0_l. symmetry. apply bool_decide_eq_false. intros Hin%Hseen.
      assert (i = x / 64) by (apply (same_slot _ _ (c / 64)); lia). subst i.
      Z.to_euclidean_division_equations. lia.
    + apply Hbits. split; [done|].
      destruct (Z.le_gt_cases (x / 64) (last w / 64)); [lia|].
      exfalso. apply (Hne (x / 64)); [lia|done].
Qed.

(** Marking one counter of the ring. *)
Lemma mark_spec w seen c :
  wf 128 (blocks w) -> 0 <= c <= last w -> in_ring w c ->
  (forall x, x ∈ seen -> 0 <= x <= last w) ->
  (forall x, in_ring w x -> slot_bit (blocks w) x = bool_decide (x ∈ seen)) ->
  c ∉ seen ->
  exists b, blocks w !! Z.to_nat (c / 64 mod 128) = Some b /\
    Z.land b (Z.shiftl 1 (c mod 64)) = 0 /\
    replay_rel (mkReplayWindow (last w)
      (<[Z.to_nat (c / 64 mod 128) := Z.lor b (Z.shiftl 1 (c mod 64))]> (blocks w))) ({[c]} ∪ seen).
Proof.
  intros Hwf Hc Hring Hseen Hbits Hnew. destruct (ring_lookup _ c Hwf) as (b & Hb & Hok).
  pose proof (Z.mod_pos_bound c 64 ltac:(lia)) as Hm.
  exists b. split_and!; [done|..].
  - apply mask_zero; [lia|]. specialize (Hbits c Hring). unfold slot_bit in Hbits.
    rewrite Hb in Hbits. simpl in Hbits. by rewrite Hbits, bool_decide_eq_false.
  - split; cbn [blocks last]; [|lia|set_solver|].
    + apply wf_upd; [done|]. apply lor_ok; [done|].
      rewrite <- (Z2Nat.id (c mod 64)) by lia. apply pow2_ok. lia.
    + intros x Hx. unfold slot_bit. pose proof (slot_lt (c / 64)). pose proof Hwf as [Hl _].
      destruct (decide (x / 64 = c / 64)) as [E|E].
      * rewrite E, list_lookup_insert_eq by lia. simpl. rewrite Z.lor_spec, Z.shiftl_1_l.
        rewrite Z.pow2_bits_eqb by lia. specialize (Hbits x Hx). unfold slot_bit in Hbits.
        rewrite E, Hb in Hbits. simpl in Hbits. rewrite Hbits.
        destruct (Z.eqb_spec (c mod 64) (x mod 64)) as [E2|E2].
        -- assert (x = c) as -> by (Z.to_euclidean_division_equations; lia).
           rewrite orb_true_r. symmetry. apply bool_decide_eq_true. set_solver.
        -- rewrite orb_false_r. apply bool_decide_ext. assert (x <> c) by congruence. set_solver.
      * assert (x / 64 mod 128 <> c / 64 mod 128) as Hne.
        { intros E'. apply E. destruct Hx as [_ Hx], Hring as [_ Hr]. by eapply same_slot. }
        pose proof (Z.mod_pos_bound (x / 64) 128). pose proof (Z.mod_pos_bound (c / 64) 128).
        rewrite list_lookup_insert_ne by lia. specialize (Hbits x Hx). unfold slot_bit in Hbits.
        rewrite Hbits. apply bool_decide_ext. assert (x <> c) by congruence. set_solver.
Qed.

Lemma in_ring_window w c :
  0 <= c <= last w -> last w - WINDOW_SIZE <= c -> in_ring w c.
Proof.
  change WINDOW_SIZE with 8128. intros. split; [lia|]. Z.to_euclidean_division_equations. lia.
Qed.

Lemma set_accepts w seen c :
  replay_rel w seen -> 0 <= c -> fresh (last w) seen c ->
  exists w', set w c = Ret w' /\ last w' = Z.max (last w) c /\ replay_rel w' ({[c]} ∪ seen).
Proof.
  intros Hrel Hc [Hnew Hwin]. unfold set, smallest_valid. rewrite decide_False by lia.
  assert (exists w', (if decide (last w < c) then advance w c else Ret w) = Ret w' /\
    last w' = Z.max (last w) c /\ wf 128 (blocks w') /\
    forall x, in_ring w' x -> slot_bit (blocks w') x = bool_decide (x ∈ seen))
    as (w' & -> & Hlast & Hwf & Hbits).
  { case_decide as Hlt.
    - destruct (advance_spec w seen c Hrel Hlt) as (w' & ? & ? & ? & ?).
      exists w'. split_and!; [done|lia|done..].
    - exists w. destruct Hrel. split_and!; [done|lia|done..]. }
  mrun. rewrite block_idx_eq by done. destruct Hrel as [_ Hl0 Hseen _].
  destruct (mark_spec w' seen c) as (b & Hb & Hz & Hrel'); [done|lia|..|done|done|].
  { apply in_ring_window; [lia|]. change WINDOW_SIZE with 8128 in *. lia. }
  { intros x Hx%Hseen. lia. }
  unfold idx. rewrite Hb. mrun. rewrite decide_False by (intros H; done).
  rewrite upd_lt by (by eapply lookup_lt_Some). mrun. eexists. by split_and!.
Qed.

Lemma replay_default_rel : replay_rel replay_default ∅.
Proof.
  split; [apply wf_EMPTY|done|set_solver|]. intros c _. unfold slot_bit.
  cbn [blocks replay_default]. change (Z.to_nat N_BLOCKS) with 128%nat.
  rewrite lookup_replicate_2 by apply slot_lt. simpl. by rewrite Z.testbit_0_l.
Qed.

Lemma accept_all_spec w seen cs :
  replay_rel w seen -> Forall u64_ok cs ->
  exists w' seen', accept_all w cs = Ret (w', accept_spec (last w) seen cs) /\
    replay_rel w' seen'.
Proof.
  intros Hrel Hcs. revert w seen Hrel.
  induction Hcs as [|c cs [Hc _] _ IH]; intros w seen Hrel; [by exists w, seen|].
  cbn [accept_all accept_spec]. unfold accept. rewrite (check_spec w seen) by done. mrun.
  case_bool_decide as Hf.
  - rewrite decide_True by done. destruct (set_accepts w seen c Hrel Hc Hf) as (w1 & -> & E & Hrel1).
    mrun. destruct (IH w1 _ Hrel1) as (w' & seen' & -> & Hrel'). mrun. rewrite E.
    by exists w', seen'.
  - rewrite decide_False by done. mrun.
    destruct (IH w _ Hrel) as (w' & seen' & -> & Hrel'). mrun. by exists w', seen'.
Qed.

(** ** Properties *)

(** C19: feeding any counters to the window ([check], then [set] when it
    answers yes) never panics and answers as the unbounded specification: a
    counter is accepted exactly when it was never accepted before and is at
    most [WINDOW_SIZE] behind the highest one accepted. *)
Theorem replay_window_refines_set cs :
  Forall u64_ok cs ->
  exists w, accept_all replay_default cs = Ret (w, accept_spec 0 ∅ cs).
Proof.
  intros Hcs. destruct (accept_all_spec _ _ _ replay_default_rel Hcs) as (w & _ & E & _).
  by exists w.
Qed.

Lemma replay_window_refines_set_witness :
  exists w, accept_all replay_default [5; 5; 9000; 872; 871; 872; 20000; 9000]
    = Ret (w, [true; false; true; true; false; false; true; false]).
Proof.
  apply (replay_window_refines_set [5; 5; 9000; 872; 871; 872; 20000; 9000]).
  repeat constructor; lia.
Defined.

(** Some counter is accepted at two positions of the run. *)
Definition replayed (cs : list Z) (bs : list bool) : Prop :=
  exists i j c, i <> j /\ cs !! i = Some c /\ cs !! j = Some c /\
    bs !! i = Some true /\ bs !! j = Some true.

Lemma accept_spec_seen head seen cs i c :
  c ∈ seen -> cs !! i = Some c -> accept_spec head seen cs !! i <> Some true.
Proof.
  revert head seen i. induction cs as [|x cs IH]; intros head seen i Hin Hi; [done|].
  cbn [accept_spec]. destruct i as [|i]; simpl in Hi.
  - injection Hi as ->. rewrite decide_False; [done|]. by intros [].
  - case_decide; simpl; apply IH; set_solver.
Qed.

Lemma accept_spec_once head seen cs i j c :
  (i < j)%nat -> cs !! i = Some c -> cs !! j = Some c ->
  accept_spec head seen cs !! i = Some true -> accept_spec head seen cs !! j <> Some true.
Proof.
  revert head seen i j. induction cs as [|x cs IH]; intros head seen i j Hij Hi Hj; [done|].
  cbn [accept_spec]. destruct j as [|j]; [lia|]. simpl in Hj. destruct i as [|i]; simpl in Hi.
  - injection Hi as ->. case_decide; simpl; [|done]. intros _.
    apply (accept_spec_seen _ _ _ _ c); [set_solver|done].
  - case_decide; simpl; apply IH; (done || lia).
Qed.

(** No counter is ever accepted twice, however the counters are ordered. *)
Theorem replay_never_accepts_twice cs :
  Forall u64_ok cs ->
  forall w bs, accept_all replay_default cs = Ret (w, bs) -> ~ replayed cs bs.
Proof.
  intros Hcs w bs E (i & j & c & Hij & Hi & Hj & Hbi & Hbj).
  destruct (accept_all_spec _ _ _ replay_default_rel Hcs) as (w' & _ & E' & _).
  rewrite E in E'. injection E' as _ ->.
  destruct (Nat.lt_total i j) as [H|[H|H]]; [|done|].
  - by apply (accept_spec_once 0 ∅ cs i j c).
  - by apply (accept_spec_once 0 ∅ cs j i c).
Qed.

Lemma replay_never_accepts_twice_witness :
  ~ replayed [7; 7] [true; false].
Proof.
  apply (replay_never_accepts_twice [7; 7] ltac:(repeat constructor; lia)
    (mkReplayWindow 7 (128 :: replicate 127 0))).
  vm_compute. reflexivity.
Defined.
