(* ===== verification/Messages.v ===== *)
(** * Messages: the WireGuard messages of ts_tunnel

    The [#[repr(C)]] message structs of src/ts_tunnel/src/messages.rs are
    records of their fields; [*_as_bytes] is zerocopy's [as_bytes] (the fields
    in order, [U32]/[U64] little-endian) and [*_try_from] the checked casts
    [try_ref_from_bytes] (exact length, valid [MessageType]) and
    [try_ref_from_prefix].  [Message_try_from] is the dispatch on the first
    byte. *)

From S2P Require Import Prelude Bytes.

Local Open Scope Z_scope.

Inductive MessageType :=
| MT_HandshakeInitiation
| MT_HandshakeResponse
| MT_CookieReply
| MT_TransportData.

Definition MessageType_byte (t : MessageType) : Z :=
  match t with
  | MT_HandshakeInitiation => 1
  | MT_HandshakeResponse => 2
  | MT_CookieReply => 3
  | MT_TransportData => 4
  end.

(** The bytes that are a valid [MessageType]. *)
Definition MessageType_of (b : Z) : option MessageType :=
  if decide (b = 1) then Some MT_HandshakeInitiation
  else if decide (b = 2) then Some MT_HandshakeResponse
  else if decide (b = 3) then Some MT_CookieReply
  else if decide (b = 4) then Some MT_TransportData
  else None.

(** A [SessionId] is its [u32]. *)
Record HandshakeInitiation := mkHandshakeInitiation {
  hi_msg_type : MessageType;
  hi_reserved : list Z;
  hi_sender_id : Z;
  hi_ephemeral_pub : list Z;
  hi_static_pub_sealed : list Z;
  hi_timestamp_sealed : list Z;
  hi_mac1 : list Z;
  hi_mac2 : list Z;
}.

Record HandshakeResponse := mkHandshakeResponse {
  hr_msg_type : MessageType;
  hr_reserved : list Z;
  hr_sender_id : Z;
  hr_receiver_id : Z;
  hr_ephemeral_pub : list Z;
  hr_auth_tag : list Z;
  hr_mac1 : list Z;
  hr_mac2 : list Z;
}.

Record TransportDataHeader := mkTransportDataHeader {
  td_msg_type : MessageType;
  td_reserved : list Z;
  td_receiver_id : Z;
  td_nonce : Z;
}.

Record CookieReply := mkCookieReply {
  cr_msg_type : MessageType;
  cr_reserved : list Z;
  cr_receiver_id : Z;
  cr_nonce : list Z;
  cr_cookie_sealed : list Z;
}.

Definition zeros (n : nat) : list Z := replicate n 0.

(** The [Default] impls. *)
Definition HandshakeInitiation_default : HandshakeInitiation :=
  mkHandshakeInitiation MT_HandshakeInitiation (zeros 3) 0 (zeros 32) (zeros 48) (zeros 28)
    (zeros 16) (zeros 16).

Definition HandshakeResponse_default : HandshakeResponse :=
  mkHandshakeResponse MT_HandshakeResponse (zeros 3) 0 0 (zeros 32) (zeros 16) (zeros 16) (zeros 16).

Definition TransportDataHeader_default : TransportDataHeader :=
  mkTransportDataHeader MT_TransportData (zeros 3) 0 0.

Definition CookieReply_default : CookieReply :=
  mkCookieReply MT_CookieReply (zeros 3) 0 (zeros 24) (zeros 32).

(** ** Layouts *)

(** The field widths, in order. *)
Definition hi_layout : list nat := [1; 3; 4; 32; 48; 28; 16; 16]%nat.
Definition hr_layout : list nat := [1; 3; 4; 4; 32; 16; 16; 16]%nat.
Definition td_layout : list nat := [1; 3; 4; 8]%nat.
Definition cr_layout : list nat := [1; 3; 4; 24; 32]%nat.

Fixpoint split_fields (widths : list nat) (raw : list Z) : list (list Z) :=
  match widths with
  | [] => []
  | w :: widths => take w raw :: split_fields widths (drop w raw)
  end.

Definition HandshakeInitiation_as_bytes (m : HandshakeInitiation) : list Z :=
  concat [[MessageType_byte (hi_msg_type m)]; hi_reserved m; le_bytes 4 (hi_sender_id m);
    hi_ephemeral_pub m; hi_static_pub_sealed m; hi_timestamp_sealed m; hi_mac1 m; hi_mac2 m].

Definition HandshakeResponse_as_bytes (m : HandshakeResponse) : list Z :=
  concat [[MessageType_byte (hr_msg_type m)]; hr_reserved m; le_bytes 4 (hr_sender_id m);
    le_bytes 4 (hr_receiver_id m); hr_ephemeral_pub m; hr_auth_tag m; hr_mac1 m; hr_mac2 m].

Definition TransportDataHeader_as_bytes (m : TransportDataHeader) : list Z :=
  concat [[MessageType_byte (td_msg_type m)]; td_reserved m; le_bytes 4 (td_receiver_id m);
    le_bytes 8 (td_nonce m)].

Definition CookieReply_as_bytes (m : CookieReply) : list Z :=
  concat [[MessageType_byte (cr_msg_type m)]; cr_reserved m; le_bytes 4 (cr_receiver_id m);
    cr_nonce m; cr_cookie_sealed m].

Definition HandshakeInitiation_try_from (raw : list Z) : option HandshakeInitiation :=
  if decide (length raw = 148%nat) then
    match split_fields hi_layout raw with
    | [ty; res; sid; eph; st; ts; m1; m2] =>
        ty ← MessageType_of (le_val ty);
        Some (mkHandshakeInitiation ty res (le_val sid) eph st ts m1 m2)
    | _ => None
    end
  else None.

Definition HandshakeResponse_try_from (raw : list Z) : option HandshakeResponse :=
  if decide (length raw = 92%nat) then
    match split_fields hr_layout raw with
    | [ty; res; sid; rid; eph; tag; m1; m2] =>
        ty ← MessageType_of (le_val ty);
        Some (mkHandshakeResponse ty res (le_val sid) (le_val rid) eph tag m1 m2)
    | _ => None
    end
  else None.

(** [try_ref_from_prefix]: the header and what follows it. *)
Definition TransportDataHeader_try_from_prefix (raw : list Z)
    : option (TransportDataHeader * list Z) :=
  if decide (16 <= length raw)%nat then
    match split_fields td_layout raw with
    | [ty; res; rid; nonce] =>
        ty ← MessageType_of (le_val ty);
        Some (mkTransportDataHeader ty res (le_val rid) (le_val nonce), drop 16 raw)
    | _ => None
    end
  else None.

Definition CookieReply_try_from (raw : list Z) : option CookieReply :=
  if decide (length raw = 64%nat) then
    match split_fields cr_layout raw with
    | [ty; res; rid; nonce; sealed] =>
        ty ← MessageType_of (le_val ty);
        Some (mkCookieReply ty res (le_val rid) nonce sealed)
    | _ => None
    end
  else None.

Inductive Message :=
| M_HandshakeInitiation (m : HandshakeInitiation)
| M_HandshakeResponse (m : HandshakeResponse)
| M_TransportDataHeader (m : TransportDataHeader)
| M_CookieReply (m : CookieReply).

Definition Message_try_from (raw : list Z) : option Message :=
  b ← head raw;
  msg_type ← MessageType_of b;
  match msg_type with
  | MT_HandshakeInitiation => M_HandshakeInitiation <$> HandshakeInitiation_try_from raw
  | MT_HandshakeResponse => M_HandshakeResponse <$> HandshakeResponse_try_from raw
  | MT_TransportData =>
      '(header, _) ← TransportDataHeader_try_from_prefix raw; Some (M_TransportDataHeader header)
  | MT_CookieReply => M_CookieReply <$> CookieReply_try_from raw
  end.

Definition receiver_id (m : Message) : option Z :=
  match m with
  | M_HandshakeInitiation _ => None
  | M_HandshakeResponse resp => Some (hr_receiver_id resp)
  | M_TransportDataHeader data => Some (td_receiver_id data)
  | M_CookieReply cookie => Some (cr_receiver_id cookie)
  end.

(** ** Well-formed messages *)

Definition field_ok (n : nat) (f : list Z) : Prop := length f = n /\ bytes_ok f.

Record hi_ok (m : HandshakeInitiation) : Prop := mkHiOk {
  hi_ok_type : hi_msg_type m = MT_HandshakeInitiation;
  hi_ok_res : field_ok 3 (hi_reserved m);
  hi_ok_id : u32_ok (hi_sender_id m);
  hi_ok_eph : field_ok 32 (hi_ephemeral_pub m);
  hi_ok_st : field_ok 48 (hi_static_pub_sealed m);
  hi_ok_ts : field_ok 28 (hi_timestamp_sealed m);
  hi_ok_m1 : field_ok 16 (hi_mac1 m);
  hi_ok_m2 : field_ok 16 (hi_mac2 m);
}.

Record hr_ok (m : HandshakeResponse) : Prop := mkHrOk {
  hr_ok_type : hr_msg_type m = MT_HandshakeResponse;
  hr_ok_res : field_ok 3 (hr_reserved m);
  hr_ok_sid : u32_ok (hr_sender_id m);
  hr_ok_rid : u32_ok (hr_receiver_id m);
  hr_ok_eph : field_ok 32 (hr_ephemeral_pub m);
  hr_ok_tag : field_ok 16 (hr_auth_tag m);
  hr_ok_m1 : field_ok 16 (hr_mac1 m);
  hr_ok_m2 : field_ok 16 (hr_mac2 m);
}.

Record td_ok (m : TransportDataHeader) : Prop := mkTdOk {
  td_ok_type : td_msg_type m = MT_TransportData;
  td_ok_res : field_ok 3 (td_reserved m);
  td_ok_id : u32_ok (td_receiver_id m);
  td_ok_nonce : u64_ok (td_nonce m);
}.

Record cr_ok (m : CookieReply) : Prop := mkCrOk {
  cr_ok_type : cr_msg_type m = MT_CookieReply;
  cr_ok_res : field_ok 3 (cr_reserved m);
  cr_ok_id : u32_ok (cr_receiver_id m);
  cr_ok_nonce : field_ok 24 (cr_nonce m);
  cr_ok_sealed : field_ok 32 (cr_cookie_sealed m);
}.

Definition msg_ok (m : Message) : Prop :=
  match m with
  | M_HandshakeInitiation m => hi_ok m
  | M_HandshakeResponse m => hr_ok m
  | M_TransportDataHeader m => td_ok m
  | M_CookieReply m => cr_ok m
  end.

(** The bytes of a message; transport data is followed by its payload. *)
Definition msg_bytes (m : Message) (payload : list Z) : list Z :=
  match m with
  | M_HandshakeInitiation m => HandshakeInitiation_as_bytes m
  | M_HandshakeResponse m => HandshakeResponse_as_bytes m
  | M_TransportDataHeader m => TransportDataHeader_as_bytes m ++ payload
  | M_CookieReply m => CookieReply_as_bytes m
  end.

(** ** Lemmas *)

Lemma MessageType_of_byte t : MessageType_of (MessageType_byte t) = Some t.
Proof. by destruct t. Qed.

Lemma MessageType_byte_of b t : MessageType_of b = Some t -> MessageType_byte t = b.
Proof. unfold MessageType_of. repeat case_decide; intros [= <-]; done. Qed.

Lemma split_fields_concat fs rest :
  split_fields (length <$> fs) (concat fs ++ rest) = fs.
Proof.
  induction fs as [|f fs IH]; csimpl; [done|].
  by rewrite <- app_assoc, take_app_length, drop_app_length, IH.
Qed.

Lemma split_fields_eq ws fs rest :
  length <$> fs = ws -> split_fields ws (concat fs ++ rest) = fs.
Proof. intros <-. apply split_fields_concat. Qed.

Lemma concat_split ws raw :
  concat (split_fields ws raw) = take (sum_list ws) raw.
Proof.
  revert raw; induction ws as [|w ws IH]; intros raw; simpl; [done|].
  by rewrite IH, <- take_take_drop.
Qed.

Lemma length_concat_fields (fs : list (list Z)) :
  length (concat fs) = sum_list (length <$> fs).
Proof. induction fs; csimpl; [done|]. rewrite length_app. by f_equal. Qed.

Lemma field_len n f : field_ok n f -> length f = n.
Proof. by intros []. Qed.

Lemma le4_val x : u32_ok x -> le_val (le_bytes 4 x) = x.
Proof. intros. apply le_val_bytes. unfold u32_ok in *. simpl. lia. Qed.

Lemma le8_val x : u64_ok x -> le_val (le_bytes 8 x) = x.
Proof. intros. apply le_val_bytes. unfold u64_ok in *. simpl. lia. Qed.

Lemma le1_val b : le_val [b] = b.
Proof. unfold le_val. lia. Qed.

(** Discharge the width side conditions of a layout. *)
Ltac widths :=
  csimpl; rewrite ?length_le_bytes; repeat match goal with
  | H : field_ok _ _ |- _ => apply field_len in H; rewrite H
  end; reflexivity.

Lemma hi_roundtrip m :
  hi_ok m -> HandshakeInitiation_try_from (HandshakeInitiation_as_bytes m) = Some m.
Proof.
  intros [Ht Hres Hid Heph Hst Hts Hm1 Hm2]. unfold HandshakeInitiation_try_from.
  rewrite decide_True.
  - unfold HandshakeInitiation_as_bytes. rewrite <- (app_nil_r (concat _)).
    rewrite split_fields_eq by widths. rewrite le1_val, MessageType_of_byte, le4_val by done.
    by destruct m.
  - unfold HandshakeInitiation_as_bytes. rewrite length_concat_fields. widths.
Qed.

Lemma hr_roundtrip m :
  hr_ok m -> HandshakeResponse_try_from (HandshakeResponse_as_bytes m) = Some m.
Proof.
  intros [Ht Hres Hsid Hrid Heph Htag Hm1 Hm2]. unfold HandshakeResponse_try_from.
  rewrite decide_True.
  - unfold HandshakeResponse_as_bytes. rewrite <- (app_nil_r (concat _)).
    rewrite split_fields_eq by widths. rewrite le1_val, MessageType_of_byte, !le4_val by done.
    by destruct m.
  - unfold HandshakeResponse_as_bytes. rewrite length_concat_fields. widths.
Qed.

Lemma length_td m : td_ok m -> length (TransportDataHeader_as_bytes m) = 16%nat.
Proof.
  intros [Ht Hres Hid Hn]. unfold TransportDataHeader_as_bytes.
  rewrite length_concat_fields. widths.
Qed.

Lemma td_roundtrip m payload :
  td_ok m ->
  TransportDataHeader_try_from_prefix (TransportDataHeader_as_bytes m ++ payload)
    = Some (m, payload).
Proof.
  intros Hok. pose proof (length_td m Hok) as Hlen. destruct Hok as [Ht Hres Hid Hn].
  unfold TransportDataHeader_try_from_prefix.
  rewrite decide_True by (rewrite length_app; lia).
  rewrite drop_app_length' by done. unfold TransportDataHeader_as_bytes.
  rewrite split_fields_eq by widths.
  rewrite le1_val, MessageType_of_byte, le4_val, le8_val by done. by destruct m.
Qed.

Lemma cr_roundtrip m : cr_ok m -> CookieReply_try_from (CookieReply_as_bytes m) = Some m.
Proof.
  intros [Ht Hres Hid Hn Hs]. unfold CookieReply_try_from.
  rewrite decide_True.
  - unfold CookieReply_as_bytes. rewrite <- (app_nil_r (concat _)).
    rewrite split_fields_eq by widths. rewrite le1_val, MessageType_of_byte, le4_val by done.
    by destruct m.
  - unfold CookieReply_as_bytes. rewrite length_concat_fields. widths.
Qed.

(** A successful cast reads back the very bytes. *)
Lemma td_parse_bytes raw h rest :
  bytes_ok raw -> TransportDataHeader_try_from_prefix raw = Some (h, rest) ->
  raw = TransportDataHeader_as_bytes h ++ rest /\ u64_ok (td_nonce h) /\ u32_ok (td_receiver_id h).
Proof.
  intros Hok. unfold TransportDataHeader_try_from_prefix. case_decide as Hlen; [|done].
  cbn [split_fields td_layout].
  destruct (MessageType_of _) as [t|] eqn:Ht; [|done]. cbn [mbind option_bind]. intros [= <- <-].
  unfold TransportDataHeader_as_bytes. cbn [td_msg_type td_reserved td_receiver_id td_nonce].
  apply MessageType_byte_of in Ht.
  rewrite !drop_drop. cbn [Nat.add]. set (f3 := take 4 (drop 4 raw)). set (f4 := take 8 (drop 8 raw)).
  assert (length f3 = 4%nat) as H3 by (unfold f3; rewrite length_take, length_drop; lia).
  assert (length f4 = 8%nat) as H4 by (unfold f4; rewrite length_take, length_drop; lia).
  assert (bytes_ok f3) as B3 by (unfold f3; auto with rust).
  assert (bytes_ok f4) as B4 by (unfold f4; auto with rust).
  pose proof (le_bytes_val f3 B3) as E3. rewrite H3 in E3. rewrite E3.
  pose proof (le_bytes_val f4 B4) as E4. rewrite H4 in E4. rewrite E4.
  pose proof (le_val_bound f3 B3) as V3. rewrite H3 in V3.
  pose proof (le_val_bound f4 B4) as V4. rewrite H4 in V4.
  split; [|split; [exact V4|exact V3]].
  destruct raw as [|b raw]; [simpl in Hlen; lia|]. simpl in Ht. rewrite firstn_O, le1_val in Ht.
  unfold f3, f4. cbn [concat app drop]. rewrite Ht. f_equal.
  rewrite app_nil_r, <- !app_assoc.
  rewrite <- (take_drop 3 raw) at 1. f_equal. rewrite <- (take_drop 4 (drop 3 raw)) at 1.
  f_equal. rewrite drop_drop. simpl. rewrite <- (take_drop 8 (drop 7 raw)) at 1.
  f_equal. by rewrite drop_drop.
Qed.

Definition msg_type_of (m : Message) : MessageType :=
  match m with
  | M_HandshakeInitiation m => hi_msg_type m
  | M_HandshakeResponse m => hr_msg_type m
  | M_TransportDataHeader m => td_msg_type m
  | M_CookieReply m => cr_msg_type m
  end.

Lemma msg_bytes_head m payload :
  head (msg_bytes m payload) = Some (MessageType_byte (msg_type_of m)).
Proof. by destruct m. Qed.

Lemma msg_bytes_parse m payload :
  msg_ok m -> Message_try_from (msg_bytes m payload) = Some m.
Proof.
  intros Hok. unfold Message_try_from. rewrite msg_bytes_head. cbn [mbind option_bind].
  rewrite MessageType_of_byte. cbn [mbind option_bind].
  destruct m as [m|m|m|m]; cbn [msg_type_of msg_bytes]; pose proof Hok as [-> _].
  - by rewrite hi_roundtrip.
  - by rewrite hr_roundtrip.
  - by rewrite td_roundtrip.
  - by rewrite cr_roundtrip.
Qed.

(** ** Properties *)

(** Every well-formed message, handshake, cookie or transport header
    followed by any payload, is what [Message::try_from] reads back from its
    bytes. *)
Theorem message_roundtrip m payload :
  msg_ok m -> Message_try_from (msg_bytes m payload) = Some m.
Proof. apply msg_bytes_parse. Qed.

Lemma message_roundtrip_witness :
  Message_try_from (msg_bytes (M_TransportDataHeader
      (mkTransportDataHeader MT_TransportData (zeros 3) 77 300)) [1; 2; 3])
    = Some (M_TransportDataHeader (mkTransportDataHeader MT_TransportData (zeros 3) 77 300)).
Proof.
  apply message_roundtrip. split; cbn.
  - reflexivity.
  - split; [reflexivity|apply (bytes_ok_replicate 3)].
  - unfold u32_ok. lia.
  - unfold u64_ok. lia.
Defined.
