(* ===== verification/Crypto.v ===== *)
(** * Crypto: the interface of the cryptographic crates

    The primitives of the crates blake2, hkdf, chacha20poly1305 and
    x25519-dalek are operations of a class; [CryptoLaws] states what their
    documentation promises and the tunnel relies on: authenticated encryption
    opens what it sealed and adds a 16-byte tag, messages up to the RFC 8439
    limit can be sealed, X25519 is commutative, and outputs have fixed widths.
    Nothing is assumed about secrecy. *)

From S2P Require Import Prelude Bytes.

Local Open Scope Z_scope.

Class CryptoOps := {
  (** [Blake2s256::digest] *)
  blake2s : list Z -> list Z;
  (** [Blake2sMac<U16>] of data under a key *)
  blake2s_mac : list Z -> list Z -> list Z;
  (** [SimpleHkdf::<Blake2s256>::new(salt, ikm).expand(&[], n bytes)] *)
  hkdf : list Z -> list Z -> nat -> list Z;
  (** [ChaCha20Poly1305]: key, nonce, associated data, text *)
  chacha_seal : list Z -> list Z -> list Z -> list Z -> option (list Z);
  chacha_open : list Z -> list Z -> list Z -> list Z -> option (list Z);
  (** [XChaCha20Poly1305] *)
  xchacha_seal : list Z -> list Z -> list Z -> list Z -> option (list Z);
  xchacha_open : list Z -> list Z -> list Z -> list Z -> option (list Z);
  (** [PublicKey::from(&secret)] and [secret.diffie_hellman(&public)] *)
  x25519_pub : list Z -> list Z;
  x25519 : list Z -> list Z -> list Z;
}.

(** RFC 8439: a plaintext has at most 2^38 - 64 bytes. *)
Definition P_MAX : Z := 2 ^ 38 - 64.

Class CryptoLaws `{!CryptoOps} : Prop := {
  blake2s_len d : length (blake2s d) = 32%nat;
  blake2s_mac_len k d : length (blake2s_mac k d) = 16%nat;
  blake2s_mac_ok k d : bytes_ok (blake2s_mac k d);
  hkdf_len s k n : (n <= 255 * 32)%nat -> length (hkdf s k n) = n;
  chacha_seal_some k n a p : Z.of_nat (length p) <= P_MAX -> is_Some (chacha_seal k n a p);
  chacha_open_seal k n a p c : chacha_seal k n a p = Some c -> chacha_open k n a c = Some p;
  chacha_seal_len k n a p c : chacha_seal k n a p = Some c -> length c = (length p + 16)%nat;
  chacha_open_len k n a p c : chacha_open k n a c = Some p -> length c = (length p + 16)%nat;
  chacha_seal_ok k n a p c : bytes_ok p -> chacha_seal k n a p = Some c -> bytes_ok c;
  chacha_open_ok k n a p c : bytes_ok c -> chacha_open k n a c = Some p -> bytes_ok p;
  xchacha_seal_some k n a p : Z.of_nat (length p) <= P_MAX -> is_Some (xchacha_seal k n a p);
  xchacha_open_seal k n a p c : xchacha_seal k n a p = Some c -> xchacha_open k n a c = Some p;
  xchacha_seal_len k n a p c : xchacha_seal k n a p = Some c -> length c = (length p + 16)%nat;
  xchacha_open_len k n a p c : xchacha_open k n a c = Some p -> length c = (length p + 16)%nat;
  xchacha_seal_ok k n a p c : bytes_ok p -> xchacha_seal k n a p = Some c -> bytes_ok c;
  x25519_pub_len s : length (x25519_pub s) = 32%nat;
  x25519_pub_ok s : bytes_ok (x25519_pub s);
  x25519_comm a b : x25519 a (x25519_pub b) = x25519 b (x25519_pub a);
}.
