(* ===== verification/CryptoModel.v ===== *)
(** * CryptoModel: the cryptographic interface can be satisfied

    A toy instance of [CryptoOps], of no cryptographic strength, on which the
    laws hold and the tunnel can be evaluated: checksums for the hashes and
    tags, an untouched plaintext before the tag, and addition of keys for the
    key agreement. *)

From S2P Require Import Prelude Bytes Crypto.

Local Open Scope Z_scope.

Definition checksum (d : list Z) : Z := foldl (fun acc b => (acc * 257 + b + 1) mod 2 ^ 64) 1 d.

Definition toy_hash (n : nat) (d : list Z) : list Z := le_bytes n (checksum d).

Definition toy_tag (k n a p : list Z) : list Z := toy_hash 16 (k ++ n ++ a ++ p).

Definition toy_seal (k n a p : list Z) : option (list Z) := Some (p ++ toy_tag k n a p).

Definition toy_open (k n a c : list Z) : option (list Z) :=
  let p := take (length c - 16) c in
  if decide (drop (length c - 16) c = toy_tag k n a p) then Some p else None.

Definition toy_norm (s : list Z) : list Z :=
  take 32 (((fun b => b mod 256) <$> s) ++ replicate 32 0).

Definition toy_dh (s p : list Z) : list Z :=
  zip_with (fun x y => (x + y) mod 256) (toy_norm s) p.

#[export] Instance Toy_ops : CryptoOps := {|
  blake2s := toy_hash 32;
  blake2s_mac := fun k d => toy_hash 16 (k ++ d);
  hkdf := fun s k n => toy_hash n (s ++ k);
  chacha_seal := toy_seal;
  chacha_open := toy_open;
  xchacha_seal := toy_seal;
  xchacha_open := toy_open;
  x25519_pub := toy_norm;
  x25519 := toy_dh;
|}.

Lemma toy_open_seal k n a p c : toy_seal k n a p = Some c -> toy_open k n a c = Some p.
Proof.
  intros [= <-]. unfold toy_open. rewrite length_app.
  assert (length (toy_tag k n a p) = 16%nat) as -> by apply length_le_bytes.
  replace (length p + 16 - 16)%nat with (length p) by lia.
  rewrite take_app_length, drop_app_length. by rewrite decide_True.
Qed.

Lemma toy_seal_len k n a p c : toy_seal k n a p = Some c -> length c = (length p + 16)%nat.
Proof. intros [= <-]. by rewrite length_app. Qed.

Lemma toy_open_len k n a p c : toy_open k n a c = Some p -> length c = (length p + 16)%nat.
Proof.
  unfold toy_open. case_decide as E; [|done]. intros [= <-].
  apply (f_equal length) in E. unfold toy_tag, toy_hash in E.
  rewrite length_drop, length_le_bytes in E. rewrite length_take. lia.
Qed.

Lemma toy_seal_ok k n a p c : bytes_ok p -> toy_seal k n a p = Some c -> bytes_ok c.
Proof. intros Hp [= <-]. apply bytes_ok_app. split; [done|apply le_bytes_ok]. Qed.

Lemma toy_open_ok k n a p c : bytes_ok c -> toy_open k n a c = Some p -> bytes_ok p.
Proof. unfold toy_open. intros Hc. case_decide; [|done]. intros [= <-]. by apply bytes_ok_take. Qed.

Lemma toy_norm_len s : length (toy_norm s) = 32%nat.
Proof.
  unfold toy_norm. rewrite length_take, length_app, length_fmap, length_replicate. lia.
Qed.

Lemma toy_norm_ok s : bytes_ok (toy_norm s).
Proof.
  apply bytes_ok_take, bytes_ok_app. split; [|apply bytes_ok_replicate].
  apply Forall_fmap, Forall_true. intros x. apply u8_mod.
Qed.

Lemma toy_dh_comm a b : toy_dh a (toy_norm b) = toy_dh b (toy_norm a).
Proof.
  unfold toy_dh. generalize (toy_norm a), (toy_norm b). intros l. induction l as [|x l IH];
    intros [|y l']; simpl; [done..|]. by rewrite IH, Z.add_comm.
Qed.

#[export] Instance Toy_laws : CryptoLaws.
Proof.
  split; simpl; intros; try apply length_le_bytes; try apply le_bytes_ok;
    try (eapply toy_open_ok; eassumption); eauto using
    toy_open_seal, toy_seal_len, toy_open_len, toy_seal_ok, toy_norm_len, toy_norm_ok, toy_dh_comm.
Qed.
