(* ===== verification/Session.v ===== *)
(** * Session: transport sessions of ts_tunnel

    Nonce allocation, padding, sealing and opening of transport packets
    (src/ts_tunnel/src/session.rs, transport_aead.rs).  A packet is its byte
    string; instants and durations are nanoseconds; the lock around the nonce
    counter makes a batch one atomic step, so concurrent senders are sequences
    of batches.  The receiver runs the window of [Replay]. *)

From S2P Require Import Replay.
From S2P Require Import Prelude Bytes Crypto Messages.
From stdpp Require Import list gmap sorting.

Local Open Scope Z_scope.

Definition secs (n : Z) : Z := n * 1000000000.

Definition REKEY_AFTER_TIME : Z := secs 120.
Definition REJECT_AFTER_TIME : Z := secs 180.
Definition REKEY_AFTER_TIME_RECEIVING : Z := secs 165.
Definition REJECT_AFTER_TIME_RECV : Z := REJECT_AFTER_TIME.
Definition U64_MAX : Z := 2 ^ 64 - 1.
Definition REJECT_AFTER_MESSAGES : Z := U64_MAX - Z.shiftl 1 13.
Definition REKEY_AFTER_MESSAGES : Z := Z.shiftl 1 60.
Definition PADDING_MULTIPLE : Z := 16.

(** [now.duration_since(earlier)] saturates at zero. *)
Definition duration_since (now earlier : Z) : Z := Z.max 0 (now - earlier).

Definition padding_size (len : nat) : nat :=
  let m := PADDING_MULTIPLE in
  Z.to_nat (Z.land (Z.of_nat len + m - 1) (Z.lnot (m - 1)) - Z.of_nat len).

(** ** Nonces *)

Record NonceIter := mkNonceIter { cur : Z; end_ : Z }.

(** [NonceGenerator::batch] on the guarded counter: the reserved range and the
    new counter. *)
Definition batch (nonce : Z) (num : nat) : NonceIter * Z :=
  let e := if decide (nonce + Z.of_nat num <= U64_MAX) then nonce + Z.of_nat num else U64_MAX in
  (mkNonceIter nonce e, e).

Definition nonce_next (it : NonceIter) : option (Z * NonceIter) :=
  if decide (cur it = end_ it) then None
  else Some (cur it, mkNonceIter (cur it + 1) (end_ it)).

(** [Nonce::bytes]: four zero bytes and the little-endian counter. *)
Definition nonce_bytes (counter : Z) : list Z := zeros 4 ++ le_bytes 8 counter.

(** ** Transmit sessions *)

(** [TransportCipher::new] keeps the key. *)
Record TransmitSession := mkTransmitSession {
  ts_key : list Z;
  ts_nonce : Z;
  ts_id : Z;
  ts_created : Z;
}.

Definition TransmitSession_new (key : list Z) (id now : Z) : TransmitSession :=
  mkTransmitSession key 0 id now.

Definition stale (s : TransmitSession) (now : Z) : bool :=
  bool_decide (REKEY_AFTER_TIME < duration_since now (ts_created s))
  || bool_decide (REKEY_AFTER_MESSAGES <= ts_nonce s).

Definition ts_expired (s : TransmitSession) (now : Z) : bool :=
  bool_decide (REJECT_AFTER_TIME < duration_since now (ts_created s))
  || bool_decide (REJECT_AFTER_MESSAGES <= ts_nonce s).

Definition needs_receive_rekey (s : TransmitSession) (now : Z) : bool :=
  bool_decide (REKEY_AFTER_TIME_RECEIVING < duration_since now (ts_created s)).

Section Transmit.
Context `{!CryptoOps}.

(** The body of the loop of [encrypt]; [grow_front] and [write_to_prefix] put
    the header before the sealed packet. *)
Definition encrypt_packet (s : TransmitSession) (nonce : Z) (packet : list Z)
    : outcome (list Z) :=
  let pad := padding_size (length packet) in
  let packet := packet ++ zeros pad in
  sealed ← unwrap (chacha_seal (ts_key s) (nonce_bytes nonce) [] packet);
  let header := mkTransportDataHeader MT_TransportData (zeros 3) (ts_id s) nonce in
  Ret (TransportDataHeader_as_bytes header ++ sealed).

(** [for (packet, nonce) in packets.zip(nonce)]: packets left over when the
    nonces run out stay as they are. *)
Fixpoint encrypt_loop (s : TransmitSession) (packets : list (list Z)) (nonce : NonceIter)
    : outcome (list (list Z)) :=
  match packets with
  | [] => Ret []
  | packet :: packets =>
      match nonce_next nonce with
      | None => Ret (packet :: packets)
      | Some (n, nonce) =>
          packet ← encrypt_packet s n packet;
          packets ← encrypt_loop s packets nonce;
          Ret (packet :: packets)
      end
  end.

Definition encrypt (s : TransmitSession) (packets : list (list Z))
    : outcome (TransmitSession * list (list Z)) :=
  let '(it, nonce) := batch (ts_nonce s) (length packets) in
  packets ← encrypt_loop s packets it;
  Ret (mkTransmitSession (ts_key s) nonce (ts_id s) (ts_created s), packets).
End Transmit.

(** ** Receive sessions *)

Record ReceiveSession := mkReceiveSession {
  rs_key : list Z;
  rs_id : Z;
  rs_created : Z;
  rs_window : Replay.ReplayWindow;
}.

Definition ReceiveSession_new (key : list Z) (id now : Z) : ReceiveSession :=
  mkReceiveSession key id now Replay.replay_default.

Definition set_window (s : ReceiveSession) (w : Replay.ReplayWindow) : ReceiveSession :=
  mkReceiveSession (rs_key s) (rs_id s) (rs_created s) w.

Definition rs_expired (s : ReceiveSession) (now : Z) : bool :=
  bool_decide (REJECT_AFTER_TIME_RECV < duration_since now (rs_created s)).

Section Receive.
Context `{!CryptoOps}.

(** [decrypt_one]: [None] for a packet that is dropped.  The [debug_assert!]
    on the receiver id fires when [debug_assertions] is on. *)
Definition decrypt_one (debug_assertions : bool) (s : ReceiveSession) (pkt : list Z)
    : outcome (ReceiveSession * option (list Z)) :=
  match TransportDataHeader_try_from_prefix pkt with
  | None => Ret (s, None)
  | Some (header, body) =>
      if decide (td_receiver_id header <> rs_id s) then
        if debug_assertions then Panic else Ret (s, None)
      else
        let counter := td_nonce header in
        ok ← Replay.check (rs_window s) counter;
        if negb ok then Ret (s, None)
        else
          match chacha_open (rs_key s) (nonce_bytes counter) [] body with
          | Some plain =>
              w ← Replay.set (rs_window s) counter;
              Ret (set_window s w, Some plain)
          | None => Ret (s, None)
          end
  end.

(** [packets.retain_mut(|packet| self.decrypt_one(packet))] *)
Fixpoint decrypt (debug_assertions : bool) (s : ReceiveSession) (packets : list (list Z))
    : outcome (ReceiveSession * list (list Z)) :=
  match packets with
  | [] => Ret (s, [])
  | packet :: packets =>
      '(s, r) ← decrypt_one debug_assertions s packet;
      '(s, rest) ← decrypt debug_assertions s packets;
      Ret (s, match r with Some p => p :: rest | None => rest end)
  end.
End Receive.

(** ** Specification *)

(** What the receiver gets for a packet: the packet and its padding. *)
Definition padded (packet : list Z) : list Z := packet ++ zeros (padding_size (length packet)).

(** The nonces that a batch yields to its consumer. *)
Fixpoint nonce_collect (fuel : nat) (it : NonceIter) : list Z :=
  match fuel with
  | O => []
  | S fuel =>
      match nonce_next it with
      | None => []
      | Some (n, it) => n :: nonce_collect fuel it
      end
  end.

(** The nonces of a sequence of batches taken from one generator. *)
Fixpoint nonces_issued (nonce : Z) (sizes : list nat) : list Z :=
  match sizes with
  | [] => []
  | num :: sizes =>
      let '(it, nonce) := batch nonce num in
      nonce_collect num it ++ nonces_issued nonce sizes
  end.

(** The network delivers the frames in the order [ixs], with losses and
    duplicates. *)
Definition deliver {A} (xs : list A) (ixs : list nat) : list A := omap (fun i => xs !! i) ixs.

(** The elements that are marked [true]. *)
Definition select {A} (bs : list bool) (xs : list A) : list A :=
  omap (fun '(b, x) => if (b : bool) then Some x else None) (zip bs xs).

(** ** Padding *)

Lemma padding_size_eq len :
  Z.of_nat (padding_size len) = (Z.of_nat len + 15) / 16 * 16 - Z.of_nat len.
Proof.
  unfold padding_size, PADDING_MULTIPLE. change (16 - 1) with (Z.ones 4).
  rewrite <- Z.ldiff_land, Z.ldiff_ones_r by lia.
  rewrite Z.shiftl_mul_pow2, Z.shiftr_div_pow2 by lia. change (2 ^ 4) with 16.
  replace (Z.of_nat len + 16 - 1) with (Z.of_nat len + 15) by lia.
  rewrite Z2Nat.id; [done|]. Z.to_euclidean_division_equations. lia.
Qed.

Lemma padding_size_lt len : (padding_size len < 16)%nat.
Proof. pose proof (padding_size_eq len). Z.to_euclidean_division_equations. lia. Qed.

Lemma padded_len p : Z.of_nat (length (padded p)) = (Z.of_nat (length p) + 15) / 16 * 16.
Proof.
  unfold padded, zeros. rewrite length_app, length_replicate, Nat2Z.inj_add, padding_size_eq. lia.
Qed.

(** ** Nonces *)

Lemma nonce_collect_eq n it :
  cur it <= end_ it -> end_ it - cur it <= Z.of_nat n ->
  nonce_collect n it = seqZ (cur it) (end_ it - cur it).
Proof.
  revert it. induction n as [|n IH]; intros [c e] Hle Hn; cbn [cur end_ nonce_collect] in *.
  { by replace (e - c) with 0 by lia. }
  unfold nonce_next. cbn [cur end_]. case_decide as E.
  { subst. by rewrite Z.sub_diag. }
  rewrite seqZ_cons by lia. rewrite IH; cbn [cur end_]; [|lia..].
  f_equal. f_equal; lia.
Qed.

Lemma batch_range nonce num :
  0 <= nonce <= U64_MAX ->
  cur (batch nonce num).1 = nonce /\ end_ (batch nonce num).1 = (batch nonce num).2 /\
  nonce <= (batch nonce num).2 <= U64_MAX /\
  (batch nonce num).2 - nonce <= Z.of_nat num.
Proof. intros. unfold batch. case_decide; simpl; lia. Qed.

Lemma seqZ_sorted c k : StronglySorted Z.lt (seqZ c k).
Proof.
  destruct (Z.le_gt_cases k 0); [rewrite seqZ_nil by done; constructor|].
  rewrite <- (Z2Nat.id k) by lia. generalize (Z.to_nat k). intros m. revert c.
  induction m as [|m IH]; intros c; [constructor|].
  rewrite seqZ_cons, Nat2Z.inj_succ, Z.pred_succ by lia. constructor; [apply IH|].
  apply Forall_forall. intros x Hx%elem_of_seqZ. lia.
Qed.

(** The reserved ranges follow each other, up to the end of the counter. *)
Lemma nonces_issued_eq nonce sizes :
  0 <= nonce <= U64_MAX ->
  nonces_issued nonce sizes
    = seqZ nonce (Z.min (nonce + Z.of_nat (sum_list sizes)) U64_MAX - nonce).
Proof.
  revert nonce. induction sizes as [|num sizes IH]; intros nonce Hn; cbn [nonces_issued sum_list].
  { by replace (Z.min _ _ - nonce) with 0 by lia. }
  pose proof (batch_range nonce num Hn) as (Hc & He & Hb & Hlen).
  assert ((batch nonce num).2 = Z.min (nonce + Z.of_nat num) U64_MAX) as Hmin
    by (unfold batch; case_decide; simpl; lia).
  destruct (batch nonce num) as [it e]. cbn [fst snd] in *.
  rewrite nonce_collect_eq by lia. rewrite Hc, He, IH by lia.
  set (last := Z.min _ _). replace (seqZ e (last - e)) with (seqZ (nonce + (e - nonce)) (last - e))
    by (f_equal; lia).
  rewrite <- seqZ_app by (subst last; lia). f_equal. subst last. unfold id. lia.
Qed.

(** ** Sealing and opening *)

Section SealOpen.
Context `{!CryptoOps, !CryptoLaws}.
Implicit Types (s : TransmitSession) (r : ReceiveSession) (p : list Z).

(** A packet that fits in one message. *)
Definition packet_fits p : Prop := Z.of_nat (length p) + 15 <= P_MAX.

(** The frame of a packet under a nonce. *)
Definition is_frame s (n : Z) p (f : list Z) : Prop :=
  exists sealed, chacha_seal (ts_key s) (nonce_bytes n) [] (padded p) = Some sealed /\
    f = TransportDataHeader_as_bytes
          (mkTransportDataHeader MT_TransportData (zeros 3) (ts_id s) n) ++ sealed.

Lemma encrypt_packet_frame s n p :
  packet_fits p -> exists f, encrypt_packet s n p = Ret f /\ is_frame s n p f.
Proof.
  intros Hp. unfold encrypt_packet. fold (padded p).
  destruct (chacha_seal_some (ts_key s) (nonce_bytes n) [] (padded p)) as [c Hc].
  { unfold packet_fits in Hp. rewrite padded_len. Z.to_euclidean_division_equations. lia. }
  rewrite Hc. mrun. eexists. split; [done|]. by exists c.
Qed.

Lemma encrypt_loop_frames s ps c :
  Forall packet_fits ps ->
  exists fs, encrypt_loop s ps (mkNonceIter c (c + Z.of_nat (length ps))) = Ret fs /\
    length fs = length ps /\
    forall i p, ps !! i = Some p -> exists f, fs !! i = Some f /\ is_frame s (c + Z.of_nat i) p f.
Proof.
  intros Hps. revert c. induction Hps as [|p ps Hp _ IH]; intros c.
  { exists []. split_and!; [done..|]. intros i p Hi. by rewrite lookup_nil in Hi. }
  cbn [encrypt_loop]. unfold nonce_next. cbn [cur end_].
  rewrite decide_False by (cbn [length]; lia).
  destruct (encrypt_packet_frame s c p Hp) as (f & -> & Hf). mrun.
  destruct (IH (c + 1)) as (fs & E & Hlen & Hfs).
  replace (c + Z.of_nat (length (p :: ps))) with (c + 1 + Z.of_nat (length ps)) by (cbn; lia).
  rewrite E. mrun. exists (f :: fs). split_and!; [done|simpl; by f_equal|].
  intros [|i] q Hq; simpl in Hq.
  - injection Hq as ->. exists f. rewrite Z.add_0_r. done.
  - destruct (Hfs i q Hq) as (g & Hg & Hfr). exists g. split; [done|].
    by replace (c + Z.of_nat (S i)) with (c + 1 + Z.of_nat i) by lia.
Qed.

Lemma encrypt_frames s ps :
  0 <= ts_nonce s -> ts_nonce s + Z.of_nat (length ps) <= U64_MAX -> Forall packet_fits ps ->
  exists s' fs, encrypt s ps = Ret (s', fs) /\
    ts_nonce s' = ts_nonce s + Z.of_nat (length ps) /\ length fs = length ps /\
    forall i p, ps !! i = Some p ->
      exists f, fs !! i = Some f /\ is_frame s (ts_nonce s + Z.of_nat i) p f.
Proof.
  intros Hz Hmax Hps. unfold encrypt, batch. rewrite decide_True by done.
  destruct (encrypt_loop_frames s ps (ts_nonce s) Hps) as (fs & -> & Hlen & Hfs). mrun.
  eexists _, fs. by split_and!.
Qed.

(** The receiving half of a session. *)
Definition paired s r : Prop := rs_key r = ts_key s /\ rs_id r = ts_id s /\ u32_ok (ts_id s).

Lemma decrypt_one_frame dbg s r seen n p f :
  paired s r -> Replay.replay_rel (rs_window r) seen -> u64_ok n -> is_frame s n p f ->
  if decide (Replay.fresh (Replay.last (rs_window r)) seen n)
  then exists w, decrypt_one dbg r f = Ret (set_window r w, Some (padded p)) /\
    Replay.last w = Z.max (Replay.last (rs_window r)) n /\ Replay.replay_rel w ({[n]} ∪ seen)
  else decrypt_one dbg r f = Ret (r, None).
Proof.
  intros (Hk & Hid & Hu) Hrel Hn (c & Hc & ->).
  assert (decrypt_one dbg r (TransportDataHeader_as_bytes (mkTransportDataHeader MT_TransportData
      (zeros 3) (ts_id s) n) ++ c) =
    if decide (Replay.fresh (Replay.last (rs_window r)) seen n)
    then w ← Replay.set (rs_window r) n; Ret (set_window r w, Some (padded p))
    else Ret (r, None)) as ->.
  { unfold decrypt_one. rewrite td_roundtrip.
    2:{ split; cbn; [done|split; [done|apply (bytes_ok_replicate 3)]|done|done]. }
    cbn [td_receiver_id td_nonce]. rewrite decide_False by (rewrite Hid; tauto).
    unfold u64_ok in Hn. rewrite (check_spec _ seen) by (done || lia). mrun.
    rewrite Hk, (chacha_open_seal _ _ _ _ _ Hc).
    by case_bool_decide; [rewrite decide_True|rewrite decide_False]. }
  case_decide as Hf; [|done]. unfold u64_ok in Hn.
  destruct (set_accepts _ seen n Hrel) as (w & -> & Hl & Hw); [lia|done|]. mrun. by exists w.
Qed.

Lemma decrypt_schedule dbg s ps fs n0 :
  0 <= n0 -> n0 + Z.of_nat (length ps) <= U64_MAX ->
  (forall i p, ps !! i = Some p ->
     exists f, fs !! i = Some f /\ is_frame s (n0 + Z.of_nat i) p f) ->
  forall ixs r seen,
  paired s r -> Replay.replay_rel (rs_window r) seen ->
  Forall (fun i => (i < length ps)%nat) ixs ->
  exists r', decrypt dbg r (deliver fs ixs)
    = Ret (r', select (Replay.accept_spec (Replay.last (rs_window r)) seen
                        ((fun i => n0 + Z.of_nat i) <$> ixs))
                 (deliver (padded <$> ps) ixs)).
Proof.
  intros Hz Hmax Hfr ixs r seen Hpair Hrel Hixs. revert r seen Hpair Hrel.
  induction Hixs as [|i ixs Hi _ IH]; intros r seen Hpair Hrel; [by exists r|].
  destruct (lookup_lt_is_Some_2 ps i Hi) as [p Hp]. destruct (Hfr i p Hp) as (f & Hf & Hfr').
  unfold deliver. csimpl. rewrite Hf, list_lookup_fmap, Hp. csimpl.
  assert (u64_ok (n0 + Z.of_nat i)) as Hn by (unfold u64_ok, U64_MAX in *; lia).
  pose proof (decrypt_one_frame dbg s r seen _ p f Hpair Hrel Hn Hfr') as Hone.
  case_decide as Hfresh.
  - destruct Hone as (w & -> & Hl & Hw). mrun.
    destruct (IH (set_window r w) _ Hpair Hw) as (r' & E). unfold deliver in E. rewrite E.
    mrun. exists r'. cbn [rs_window set_window]. by rewrite Hl.
  - rewrite Hone. mrun. destruct (IH r seen Hpair Hrel) as (r' & E). unfold deliver in E.
    rewrite E. mrun. by exists r'.
Qed.
End SealOpen.

(** An increasing run of counters is accepted. *)
Lemma accept_spec_increasing n m head seen :
  (forall c, c ∈ seen -> c < n) -> head < n \/ head = 0 -> 0 <= n ->
  Replay.accept_spec head seen (seqZ n (Z.of_nat m)) = replicate m true.
Proof.
  revert n head seen. induction m as [|m IH]; intros n head seen Hs Hh Hn; [done|].
  rewrite seqZ_cons, Nat2Z.inj_succ, Z.pred_succ by lia. cbn [Replay.accept_spec replicate].
  rewrite decide_True.
  - f_equal. apply IH; [|lia..]. intros c [->%elem_of_singleton|Hc%Hs]%elem_of_union; lia.
  - split; [intros Hc%Hs; lia|]. change Replay.WINDOW_SIZE with 8128. lia.
Qed.

Lemma select_all {A} (xs : list A) n : length xs = n -> select (replicate n true) xs = xs.
Proof. intros <-. induction xs as [|x xs IH]; [done|]. unfold select in *. simpl. by f_equal. Qed.

Lemma deliver_shift {A} (x : A) xs ixs : deliver (x :: xs) (S <$> ixs) = deliver xs ixs.
Proof.
  unfold deliver. induction ixs as [|i ixs IH]; csimpl; [done|]. by rewrite IH.
Qed.

Lemma deliver_all {A} (xs : list A) : deliver xs (seq 0 (length xs)) = xs.
Proof.
  induction xs as [|x xs IH]; [done|]. cbn [length seq]. rewrite <- fmap_S_seq.
  transitivity (x :: deliver (x :: xs) (S <$> seq 0 (length xs))); [done|].
  by rewrite deliver_shift, IH.
Qed.

Lemma seq_seqZ n0 m : (fun i => n0 + Z.of_nat i) <$> seq 0 m = seqZ n0 (Z.of_nat m).
Proof. unfold seqZ. rewrite Nat2Z.id. apply list_fmap_ext. intros. lia. Qed.

(** ** Properties *)

(** C37: the nonces that a session hands out, over any sequence of batches of
    any sizes, are the numbers from zero up, in order and without a gap, until
    all that were asked for are out or the counter is at its end, which is
    never handed out: no nonce is used twice and the counter does not wrap. *)
Theorem nonces_never_repeat sizes :
  nonces_issued 0 sizes = seqZ 0 (Z.min (Z.of_nat (sum_list sizes)) U64_MAX) /\
  StronglySorted Z.lt (nonces_issued 0 sizes) /\ NoDup (nonces_issued 0 sizes) /\
  Forall (fun n => 0 <= n < U64_MAX) (nonces_issued 0 sizes).
Proof.
  assert (0 <= 0 <= U64_MAX) as H0 by (unfold U64_MAX; lia).
  rewrite (nonces_issued_eq 0 sizes H0), Z.add_0_l, Z.sub_0_r. split; [done|].
  split; [apply seqZ_sorted|]. split; [apply NoDup_seqZ|]. apply Forall_forall. intros x Hx%elem_of_seqZ. lia.
Qed.

(** C13: frames that the transmit half seals, delivered to the receive half in
    any order, with any losses and duplicates, come out as the padded packets,
    each at most once: exactly at the positions that the replay specification
    accepts.  Neither side panics. *)
Theorem transport_exactly_once `{!CryptoOps, !CryptoLaws} dbg s key now ps ixs :
  ts_key s = key -> u32_ok (ts_id s) ->
  0 <= ts_nonce s -> ts_nonce s + Z.of_nat (length ps) <= U64_MAX ->
  Forall packet_fits ps -> Forall (fun i => (i < length ps)%nat) ixs ->
  exists s' fs r', encrypt s ps = Ret (s', fs) /\
    decrypt dbg (ReceiveSession_new key (ts_id s) now) (deliver fs ixs)
      = Ret (r', select (Replay.accept_spec 0 ∅ ((fun i => ts_nonce s + Z.of_nat i) <$> ixs))
                   (deliver (padded <$> ps) ixs)).
Proof.
  intros Hk Hid Hz Hmax Hps Hixs.
  destruct (encrypt_frames s ps Hz Hmax Hps) as (s' & fs & E & _ & _ & Hfs).
  destruct (decrypt_schedule dbg s ps fs _ Hz Hmax Hfs ixs
    (ReceiveSession_new key (ts_id s) now) ∅) as (r' & Er); [|apply replay_default_rel|done|].
  { split; [done|]. by split. }
  exists s', fs, r'. by rewrite E, Er.
Qed.

(** Delivered in order and without losses, every packet arrives, padded
    to a multiple of sixteen bytes with fewer than sixteen zeros. *)
Theorem transport_in_order `{!CryptoOps, !CryptoLaws} dbg s key now ps :
  ts_key s = key -> u32_ok (ts_id s) ->
  0 <= ts_nonce s -> ts_nonce s + Z.of_nat (length ps) <= U64_MAX -> Forall packet_fits ps ->
  exists s' fs r', encrypt s ps = Ret (s', fs) /\
    decrypt dbg (ReceiveSession_new key (ts_id s) now) fs = Ret (r', padded <$> ps) /\
    forall p, exists k, padded p = p ++ zeros k /\ (k < 16)%nat /\
      (length (padded p) mod 16 = 0)%nat.
Proof.
  intros Hk Hid Hz Hmax Hps.
  destruct (encrypt_frames s ps Hz Hmax Hps) as (s' & fs & E & _ & Hlen & Hfs).
  destruct (decrypt_schedule dbg s ps fs _ Hz Hmax Hfs (seq 0 (length ps))
    (ReceiveSession_new key (ts_id s) now) ∅) as (r' & Er); [|apply replay_default_rel|..].
  { split; [done|]. by split. }
  { apply Forall_forall. intros i Hi%elem_of_seq. lia. }
  exists s', fs, r'. split_and!; [done|..].
  - rewrite <- Hlen, deliver_all in Er at 1. rewrite Er. do 2 f_equal.
    rewrite seq_seqZ. cbn [rs_window ReceiveSession_new Replay.last Replay.replay_default].
    rewrite accept_spec_increasing; [|set_solver|lia|done].
    rewrite <- (length_fmap padded ps), deliver_all. by apply select_all.
  - intros p. exists (padding_size (length p)). split_and!; [done|apply padding_size_lt|].
    apply Nat2Z.inj. rewrite Nat2Z.inj_mod, padded_len. apply Z.mod_mul. lia.
Qed.

(** [encrypt] leaves a packet for which no nonce is left in the clear:
    from the position where the counter reaches its ceiling on, the packets
    come back as they were given. *)
Theorem encrypt_out_of_nonces `{!CryptoOps, !CryptoLaws} s ps s' fs i :
  0 <= ts_nonce s <= U64_MAX -> Forall packet_fits ps ->
  encrypt s ps = Ret (s', fs) -> U64_MAX <= ts_nonce s + Z.of_nat i -> fs !! i = ps !! i.
Proof.
  intros Hn Hps. unfold encrypt. pose proof (batch_range (ts_nonce s) (length ps) Hn) as Hb.
  destruct (batch (ts_nonce s) (length ps)) as [[c e] e']. simpl in Hb.
  destruct Hb as (-> & -> & [Hle Hmax] & _).
  destruct (encrypt_loop _ _ _) as [fs'|] eqn:E; [|done]. mrun. intros [= _ <-] Hi.
  remember (ts_nonce s) as c eqn:Hc. clear Hc Hn. revert c i fs' E Hle Hi.
  induction Hps as [|p ps Hp _ IH]; intros c i fs' E Hle Hi; simpl in E.
  { by injection E as <-. }
  unfold nonce_next in E. cbn [cur end_] in E. case_decide as Hce; [by injection E as <-|].
  destruct (encrypt_packet_frame s c p Hp) as (f & Ef & _). rewrite Ef in E. simpl in E.
  destruct (encrypt_loop _ _ _) as [gs|] eqn:Eg; [|done]. simpl in E. injection E as <-.
  destruct i as [|i]; [lia|]. simpl. apply (IH (c + 1)); [done|lia..].
Qed.

(** ** Examples *)

From S2P Require Import CryptoModel.

Definition demo_send : TransmitSession := mkTransmitSession [1; 2; 3] 7 42 0.
Definition demo_packets : list (list Z) := [[1; 2]; []; [9]].

Lemma demo_packets_fit : Forall packet_fits demo_packets.
Proof. repeat constructor; unfold packet_fits, P_MAX; simpl; lia. Qed.

Lemma transport_exactly_once_witness :
  exists s' fs r', encrypt demo_send demo_packets = Ret (s', fs) /\
    decrypt true (ReceiveSession_new [1; 2; 3] 42 0) (deliver fs [2; 0; 2; 0; 1]%nat)
      = Ret (r', [padded [9]; padded [1; 2]; padded []]).
Proof.
  apply (transport_exactly_once true demo_send [1; 2; 3] 0 demo_packets [2; 0; 2; 0; 1]%nat).
  - reflexivity.
  - unfold u32_ok. simpl. lia.
  - simpl. lia.
  - unfold U64_MAX. simpl. lia.
  - apply demo_packets_fit.
  - repeat constructor; simpl; lia.
Defined.

Lemma transport_in_order_witness :
  exists s' fs r', encrypt demo_send demo_packets = Ret (s', fs) /\
    decrypt true (ReceiveSession_new [1; 2; 3] 42 0) fs
      = Ret (r', padded <$> demo_packets) /\
    forall p, exists k, padded p = p ++ zeros k /\ (k < 16)%nat /\
      (length (padded p) mod 16 = 0)%nat.
Proof.
  apply (transport_in_order true demo_send [1; 2; 3] 0 demo_packets).
  - reflexivity.
  - unfold u32_ok. simpl. lia.
  - simpl. lia.
  - unfold U64_MAX. simpl. lia.
  - apply demo_packets_fit.
Defined.

Definition spent_send : TransmitSession := mkTransmitSession [1; 2; 3] (2 ^ 64 - 2) 42 0.

Lemma encrypt_out_of_nonces_witness :
  match encrypt spent_send [[5]; [6; 7]] with
  | Ret (_, fs) => fs !! 1%nat = Some [6; 7]
  | Panic => False
  end.
Proof.
  destruct (encrypt spent_send [[5]; [6; 7]]) as [[s' fs]|] eqn:E.
  - apply (encrypt_out_of_nonces spent_send [[5]; [6; 7]] s' fs 1).
    + unfold U64_MAX. simpl. lia.
    + repeat constructor; unfold packet_fits, P_MAX; simpl; lia.
    + exact E.
    + unfold U64_MAX. simpl. lia.
  - vm_compute in E. discriminate E.
Defined.
