(* ===== verification/Tai64.v ===== *)
(** * Tai64: the handshake timestamps of ts_tunnel

    [TAI64N] and [TAI64NClock] (src/ts_tunnel/src/time.rs).  A [SystemTime] is
    its signed distance in nanoseconds from the Unix epoch; additions and
    subtractions of [u64] seconds panic outside their range. *)

From S2P Require Import Prelude Bytes.
From stdpp Require Import sorting.

Local Open Scope Z_scope.

Record TAI64N := mkTAI64N { secs : Z; nanos : Z }.

Definition TAI_BASE : Z := 0x400000000000000a.
Definition WHITEN_MASK : Z := Z.lxor 0xFFFFFF (Z.ones 32).
Definition WHITEN_INCREMENT : Z := Z.lxor WHITEN_MASK (Z.ones 32) + 1.

(** The derived [Ord]: seconds first. *)
Definition tai_lt (a b : TAI64N) : Prop :=
  secs a < secs b \/ (secs a = secs b /\ nanos a < nanos b).

#[export] Instance tai_lt_dec a b : Decision (tai_lt a b).
Proof. unfold tai_lt. apply _. Defined.

Definition add_secs (s n : Z) : outcome Z :=
  if decide (s + n < 2 ^ 64) then Ret (s + n) else Panic.

Definition sub_secs (s n : Z) : outcome Z :=
  if decide (n <= s) then Ret (s - n) else Panic.

(** [overflowing_add] of the nanoseconds at 32 bits. *)
Definition clamp_after (self min : TAI64N) : outcome TAI64N :=
  if decide (tai_lt min self) then Ret self
  else
    let sum := nanos min + WHITEN_INCREMENT in
    let '(n, carry) := (sum mod 2 ^ 32, bool_decide (2 ^ 32 <= sum)) in
    s ← (if (carry : bool) then add_secs (secs min) 1 else Ret (secs min));
    Ret (mkTAI64N s (Z.land n WHITEN_MASK)).

(** [From<SystemTime>]; [v] is the time in nanoseconds from the epoch. *)
Definition from_system_time (v : Z) : outcome TAI64N :=
  if decide (v < 0) then
    let now := - v in
    let '(s, n) := if decide (now mod 1000000000 = 0) then (now / 1000000000, 0)
                   else (now / 1000000000 + 1, 1000000000 - now mod 1000000000) in
    s ← sub_secs TAI_BASE s;
    Ret (mkTAI64N s (Z.land n WHITEN_MASK))
  else
    s ← add_secs TAI_BASE (v / 1000000000);
    Ret (mkTAI64N s (Z.land (v mod 1000000000) WHITEN_MASK)).

(** [TAI64NClock] is its [last] timestamp. *)
Definition clock_new : TAI64N := mkTAI64N 0 0.

(** [TAI64NClock::now], given the system time it reads. *)
Definition clock_now (last : TAI64N) (system_now : Z) : outcome TAI64N :=
  t ← from_system_time system_now;
  clamp_after t last.

(** The timestamps issued while the system clock shows the given times. *)
Fixpoint clock_run (last : TAI64N) (times : list Z) : outcome (list TAI64N) :=
  match times with
  | [] => Ret []
  | t :: times =>
      now ← clock_now last t;
      rest ← clock_run now times;
      Ret (now :: rest)
  end.

(** ** Lemmas *)

(** A whitened timestamp with room above its seconds. *)
Definition tai_ok (bound : Z) (t : TAI64N) : Prop :=
  0 <= secs t < bound /\ (exists k, 0 <= k < 256 /\ nanos t = k * 2 ^ 24).

Lemma land_whiten n : 0 <= n < 2 ^ 32 -> Z.land n WHITEN_MASK = n / 2 ^ 24 * 2 ^ 24.
Proof.
  intros Hn. change WHITEN_MASK with (Z.shiftl (Z.ones 8) 24).
  rewrite <- Z.shiftl_mul_pow2, <- Z.shiftr_div_pow2 by lia.
  apply Z.bits_inj'. intros i Hi. rewrite Z.land_spec, !Z.shiftl_spec by done.
  destruct (Z.lt_ge_cases i 24) as [Hlt|Hge].
  { by rewrite !(Z.testbit_neg_r _ (i - 24)), andb_false_r by lia. }
  rewrite Z.shiftr_spec by lia. rewrite Z.sub_add.
  destruct (Z.lt_ge_cases i 32) as [H32|H32].
  - rewrite Z.ones_spec_low by lia. apply andb_true_r.
  - rewrite Z.ones_spec_high, andb_false_r by lia. symmetry.
    assert (2 ^ 32 <= 2 ^ i) by (apply Z.pow_le_mono_r; lia).
    by rewrite Z.testbit_odd, Z.shiftr_div_pow2, Z.div_small by lia.
Qed.

Lemma whiten_multiple n :
  0 <= n < 2 ^ 32 -> exists k, 0 <= k < 256 /\ Z.land n WHITEN_MASK = k * 2 ^ 24.
Proof.
  intros Hn. exists (n / 2 ^ 24). rewrite land_whiten by done. split; [|done].
  Z.to_euclidean_division_equations. lia.
Qed.

(** The times at which the clock can be read: about 2^59 seconds around the
    epoch. *)
Definition time_ok (v : Z) : Prop := - 2 ^ 59 <= v / 1000000000 < 2 ^ 59.

Lemma from_system_time_ok v :
  time_ok v -> exists t, from_system_time v = Ret t /\ tai_ok (2 ^ 63) t.
Proof.
  unfold time_ok. intros Hv. unfold from_system_time. case_decide as Hneg.
  - set (q := (- v) / 1000000000). set (m := (- v) mod 1000000000).
    assert (0 <= m < 1000000000) as Hm by (apply Z.mod_pos_bound; lia).
    assert (0 <= q <= 2 ^ 59) as Hq.
    { unfold q. Z.to_euclidean_division_equations. lia. }
    destruct (decide (m = 0)); cbn [fst snd]; unfold sub_secs, TAI_BASE;
      rewrite decide_True by lia; mrun; eexists; (split; [done|]); (split; [simpl; lia|]);
      apply whiten_multiple; lia.
  - pose proof (Z.mod_pos_bound v 1000000000 ltac:(lia)).
    assert (0 <= v / 1000000000) by (apply Z.div_pos; lia).
    unfold add_secs, TAI_BASE. rewrite decide_True by lia. mrun.
    eexists; (split; [done|]); (split; [simpl; lia|]). apply whiten_multiple. lia.
Qed.

Lemma clamp_after_spec t m bound :
  tai_ok bound t -> tai_ok bound m -> bound < 2 ^ 64 ->
  exists r, clamp_after t m = Ret r /\ tai_ok (bound + 1) r /\ tai_lt m r /\
    (tai_lt m t -> r = t).
Proof.
  intros [Ht Htn] [Hm (k & Hk & Hn)] Hb. unfold clamp_after. case_decide as Hlt.
  { exists t. split_and!; try done; try lia. split; [lia|done]. }
  change WHITEN_INCREMENT with (2 ^ 24). rewrite Hn. case_bool_decide as Hc.
  - unfold add_secs. rewrite decide_True by lia. mrun. eexists. split; [done|].
    assert (k = 255) as -> by lia. split; [|split; [|tauto]].
    + split; [simpl; lia|]. exists 0. done.
    + left. simpl. lia.
  - mrun. eexists. split; [done|].
    rewrite Z.mod_small by lia. rewrite land_whiten by lia.
    replace (k * 2 ^ 24 + 2 ^ 24) with ((k + 1) * 2 ^ 24) by lia. rewrite Z.div_mul by lia.
    split; [|split; [|tauto]].
    + split; [simpl; lia|]. exists (k + 1). split; [lia|done].
    + right. simpl. lia.
Qed.

Lemma clock_run_spec times last bound :
  Forall time_ok times -> tai_ok bound last -> 2 ^ 63 <= bound ->
  bound + Z.of_nat (length times) <= 2 ^ 64 ->
  exists ts, clock_run last times = Ret ts /\ length ts = length times /\
    StronglySorted tai_lt (last :: ts).
Proof.
  intros Hts. revert last bound.
  induction Hts as [|v times Hv _ IH]; intros last bound Hlast Hb Hlen.
  { exists []. repeat constructor. }
  cbn [clock_run]. unfold clock_now. simpl in Hlen.
  destruct (from_system_time_ok v Hv) as (t & -> & Ht). mrun.
  destruct (clamp_after_spec t last bound) as (r & -> & Hr & Hlt & _); [|done|lia|].
  { destruct Ht as [Ht Htn]. split; [lia|done]. }
  mrun. destruct (IH r (bound + 1)) as (ts & -> & Hl & Hs); [done|lia..|]. mrun.
  exists (r :: ts). split_and!; [done|simpl; lia|]. constructor; [done|].
  inversion Hs as [|? ? _ Hf]; subst. constructor; [done|].
  eapply Forall_impl; [exact Hf|]. unfold tai_lt in *. intros x. simpl. lia.
Qed.

(** ** Properties *)

(** Whatever the system clock does (jump back, stand still, jump ahead,
    before or after the epoch), the clock issues strictly increasing
    timestamps without a panic, so a responder that keeps the greatest one
    rejects every replayed initiation and no fresh one. *)
Theorem clock_strictly_increasing times :
  Forall time_ok times -> Z.of_nat (length times) <= 2 ^ 62 ->
  exists ts, clock_run clock_new times = Ret ts /\ length ts = length times /\
    StronglySorted tai_lt ts.
Proof.
  intros Hts Hlen. destruct (clock_run_spec times clock_new (2 ^ 63)) as (ts & E & Hl & Hs);
    [done|..|lia|lia|].
  { split; [simpl; lia|]. exists 0. done. }
  exists ts. split_and!; [done..|]. by inversion Hs.
Qed.

Lemma clock_strictly_increasing_witness :
  exists ts, clock_run clock_new [5000000000; 1; 1; -7; 6000000000] = Ret ts /\
    length ts = 5%nat /\ StronglySorted tai_lt ts.
Proof.
  apply (clock_strictly_increasing [5000000000; 1; 1; -7; 6000000000]).
  - repeat constructor; unfold time_ok; vm_compute; intros E; discriminate E.
  - simpl. lia.
Defined.
