(* ===== verification/Macs.v ===== *)
(** * Macs: message authentication and cookies of ts_tunnel

    [MACSender], [MACReceiver] and [CookieGenerator]
    (src/ts_tunnel/src/macs.rs).  A handshake message ends in mac1 and mac2,
    sixteen bytes each.  Random draws and the current time are arguments. *)

From S2P Require Import Prelude Bytes Crypto Messages Session.

Local Open Scope Z_scope.

(** [b"mac1----"] and [b"cookie--"] *)
Definition MAC1_LABEL : list Z := [109; 97; 99; 49; 45; 45; 45; 45].
Definition MAC2_LABEL : list Z := [99; 111; 111; 107; 105; 101; 45; 45].
Definition COOKIE_ROTATION_TIME : Z := secs 120.

(** [try_ref_from_suffix]: the data and the last [n] bytes. *)
Definition from_suffix (n : nat) (pkt : list Z) : option (list Z * list Z) :=
  if decide (n <= length pkt)%nat
  then Some (take (length pkt - n) pkt, drop (length pkt - n) pkt) else None.

Record MACSender := mkMACSender {
  snd_mac1_key : list Z;
  snd_mac2_key : list Z;
  (** the key and the expiry of the last cookie *)
  snd_cookie : option (list Z * Z);
}.

Record CookieGenerator := mkCookieGenerator {
  encryption_key : list Z;
  (** the secret and the instant it was drawn *)
  secret : option (list Z * Z);
}.

Record MACReceiver := mkMACReceiver { rcv_mac1_key : list Z }.

Section Macs.
Context `{!CryptoOps}.

Definition mac1_key (key : list Z) : list Z := blake2s (MAC1_LABEL ++ key).
Definition mac2_key (key : list Z) : list Z := blake2s (MAC2_LABEL ++ key).

Definition MACSender_new (peer_key : list Z) : MACSender :=
  mkMACSender (mac1_key peer_key) (mac2_key peer_key) None.

(** [write_macs]: the mac1 it returns and the packet with both MACs. *)
Definition write_macs (s : MACSender) (now : Z) (pkt : list Z) : outcome (list Z * list Z) :=
  '(data, _) ← unwrap (from_suffix 32 pkt);
  let mac1 := blake2s_mac (snd_mac1_key s) data in
  let mac2 :=
    match snd_cookie s with
    | Some (key, expiry) =>
        if decide (now < expiry) then blake2s_mac key (data ++ mac1) else zeros 16
    | None => zeros 16
    end in
  Ret (mac1, data ++ mac1 ++ mac2).

(** [cookie.try_into().unwrap()] panics unless the cookie has 16 bytes. *)
Definition receive_cookie (s : MACSender) (now : Z) (cookie : CookieReply) (handshake_mac : list Z)
    : outcome MACSender :=
  match xchacha_open (snd_mac2_key s) (cr_nonce cookie) handshake_mac (cr_cookie_sealed cookie) with
  | None => Ret s
  | Some key =>
      _ ← rassert (bool_decide (length key = 16%nat));
      expiry ← instant_add now COOKIE_ROTATION_TIME;
      Ret (mkMACSender (snd_mac1_key s) (snd_mac2_key s) (Some (key, expiry)))
  end.

Definition cookie_mac (secret binding : list Z) : list Z := blake2s_mac secret binding.

Definition CookieGenerator_new (my_key : list Z) : CookieGenerator :=
  mkCookieGenerator (mac2_key my_key) None.

(** [cookie]: [rnd] is the value [rand::random] would draw. *)
Definition cookie (g : CookieGenerator) (rnd binding : list Z) (now : Z)
    : outcome (CookieGenerator * list Z) :=
  let fresh := match secret g with
               | Some (_, set_at) => bool_decide (duration_since now set_at <= COOKIE_ROTATION_TIME)
               | None => false
               end in
  let g := if fresh then g else mkCookieGenerator (encryption_key g) (Some (rnd, now)) in
  '(value, _) ← unwrap (secret g);
  Ret (g, cookie_mac value binding).

Definition create_reply (g : CookieGenerator) (rnd nonce msg : list Z) (receiver : Z)
    (binding : list Z) (now : Z) : outcome (CookieGenerator * option CookieReply) :=
  match from_suffix 32 msg with
  | None => Ret (g, None)
  | Some (_, trailer) =>
      let mac1 := take 16 trailer in
      '(g, c) ← cookie g rnd binding now;
      match xchacha_seal (encryption_key g) nonce mac1 c with
      | None => Ret (g, None)
      | Some sealed =>
          if decide (length sealed = 32%nat)
          then Ret (g, Some (mkCookieReply MT_CookieReply (zeros 3) receiver nonce sealed))
          else Ret (g, None)
      end
  end.

Definition check_mac2 (g : CookieGenerator) (msg binding : list Z) (now : Z) : bool :=
  match secret g with
  | None => false
  | Some (value, set_at) =>
      if decide (COOKIE_ROTATION_TIME < duration_since now set_at) then false
      else
        match from_suffix 16 msg with
        | None => false
        | Some (data, mac2) =>
            let c := cookie_mac value binding in
            bool_decide (blake2s_mac c data = mac2)
        end
  end.

Definition MACReceiver_new (my_key : list Z) : MACReceiver := mkMACReceiver (mac1_key my_key).

Definition verify_macs (r : MACReceiver) (pkt : list Z) : bool :=
  match from_suffix 32 pkt with
  | None => false
  | Some (data, trailer) => bool_decide (blake2s_mac (rcv_mac1_key r) data = take 16 trailer)
  end.
End Macs.

(** ** Lemmas *)

Lemma from_suffix_app n data trailer :
  length trailer = n -> from_suffix n (data ++ trailer) = Some (data, trailer).
Proof.
  intros <-. unfold from_suffix. rewrite length_app, decide_True by lia.
  replace (length data + length trailer - length trailer)%nat with (length data) by lia.
  by rewrite take_app_length, drop_app_length.
Qed.

Lemma from_suffix_split n pkt data trailer :
  from_suffix n pkt = Some (data, trailer) -> pkt = data ++ trailer /\ length trailer = n.
Proof.
  unfold from_suffix. case_decide; [|done]. intros [= <- <-].
  split; [by rewrite take_drop|]. rewrite length_drop. lia.
Qed.

Section Lemmas.
Context `{!CryptoOps, !CryptoLaws}.

(** The two trailers of a message that [write_macs] produced. *)
Lemma write_macs_form s now pkt :
  (32 <= length pkt)%nat ->
  exists data mac2, data = take (length pkt - 32) pkt /\ field_ok 16 mac2 /\
    write_macs s now pkt = Ret (blake2s_mac (snd_mac1_key s) data,
      data ++ blake2s_mac (snd_mac1_key s) data ++ mac2) /\
    forall key expiry, snd_cookie s = Some (key, expiry) -> now < expiry ->
      mac2 = blake2s_mac key (data ++ blake2s_mac (snd_mac1_key s) data).
Proof.
  intros Hlen. unfold write_macs, from_suffix. rewrite decide_True by done. mrun.
  eexists _, _. split; [done|]. split; [|split; [done|]].
  - destruct (snd_cookie s) as [[key e]|]; [case_decide|]; split;
      (apply blake2s_mac_len || apply blake2s_mac_ok || apply (bytes_ok_replicate 16) || done).
  - intros key e -> Hlt. by rewrite decide_True.
Qed.

Lemma verify_trailer key data mac2 :
  length mac2 = 16%nat ->
  verify_macs (MACReceiver_new key) (data ++ blake2s_mac (mac1_key key) data ++ mac2) = true.
Proof.
  intros Hm. unfold verify_macs. rewrite from_suffix_app.
  - rewrite take_app_length'; [by apply bool_decide_eq_true|by rewrite blake2s_mac_len].
  - rewrite length_app, blake2s_mac_len. lia.
Qed.

(** The cookie that a reply carries is the one [check_mac2] computes. *)
Lemma create_reply_spec g rnd nonce data mac1 mac2 receiver binding now :
  length mac1 = 16%nat -> length mac2 = 16%nat ->
  exists g' value set_at sealed,
    create_reply g rnd nonce (data ++ mac1 ++ mac2) receiver binding now
      = Ret (g', Some (mkCookieReply MT_CookieReply (zeros 3) receiver nonce sealed)) /\
    secret g' = Some (value, set_at) /\ encryption_key g' = encryption_key g /\
    duration_since now set_at <= COOKIE_ROTATION_TIME /\
    xchacha_seal (encryption_key g) nonce mac1 (cookie_mac value binding) = Some sealed.
Proof.
  intros H1 H2. unfold create_reply. rewrite from_suffix_app by (rewrite length_app; lia).
  rewrite take_app_length' by done.
  assert (exists g' value set_at, cookie g rnd binding now = Ret (g', cookie_mac value binding) /\
    secret g' = Some (value, set_at) /\ encryption_key g' = encryption_key g /\
    duration_since now set_at <= COOKIE_ROTATION_TIME) as (g' & value & set_at & -> & Hs & He & Hd).
  { unfold cookie.
    assert (duration_since now now <= COOKIE_ROTATION_TIME)
      by (unfold duration_since, COOKIE_ROTATION_TIME, secs; lia).
    destruct (secret g) as [[v sa]|] eqn:E; [case_bool_decide|]; cbn [secret];
      rewrite ?E; mrun; eexists _, _, _; by split_and!. }
  mrun. rewrite He.
  destruct (xchacha_seal_some (encryption_key g) nonce mac1 (cookie_mac value binding))
    as [sealed Hseal].
  { unfold cookie_mac. rewrite blake2s_mac_len. unfold P_MAX. lia. }
  rewrite Hseal, decide_True.
  - by exists g', value, set_at, sealed.
  - rewrite (xchacha_seal_len _ _ _ _ _ Hseal). unfold cookie_mac. by rewrite blake2s_mac_len.
Qed.
End Lemmas.

(** ** Properties *)

(** A message that [write_macs] finished for a peer passes that peer's
    [verify_macs], and only its last 32 bytes changed. *)
Theorem write_macs_verify `{!CryptoOps, !CryptoLaws} key now pkt :
  (32 <= length pkt)%nat ->
  exists mac1 pkt', write_macs (MACSender_new key) now pkt = Ret (mac1, pkt') /\
    verify_macs (MACReceiver_new key) pkt' = true /\ length pkt' = length pkt /\
    take (length pkt - 32) pkt' = take (length pkt - 32) pkt.
Proof.
  intros Hlen. destruct (write_macs_form (MACSender_new key) now pkt Hlen)
    as (data & mac2 & Hd & [Hm _] & -> & _).
  assert (length data = (length pkt - 32)%nat) as Hdl by (subst; rewrite length_take; lia).
  eexists _, _. split_and!; [done|by apply verify_trailer|..].
  - rewrite !length_app, blake2s_mac_len. lia.
  - rewrite take_app_length' by done. by rewrite Hd.
Qed.

(** The cookie exchange completes.  A responder that answers a handshake
    message with a cookie reply accepts the mac2 of the initiator's next
    message from the same origin, as long as neither the initiator's copy
    ([t3]) nor the responder's secret ([t4]) has aged out. *)
Theorem cookie_exchange `{!CryptoOps, !CryptoLaws} key g s rnd nonce receiver binding
    msg1 msg2 t0 t1 t2 t3 :
  encryption_key g = mac2_key key -> s = MACSender_new key ->
  (32 <= length msg1)%nat -> (32 <= length msg2)%nat ->
  t3 < t2 + COOKIE_ROTATION_TIME -> INSTANT_MIN <= t2 <= INSTANT_MAX - COOKIE_ROTATION_TIME ->
  exists mac1 sent1 g' reply s' mac1' sent2 set_at,
    write_macs s t0 msg1 = Ret (mac1, sent1) /\
    create_reply g rnd nonce sent1 receiver binding t1 = Ret (g', Some reply) /\
    receive_cookie s t2 reply mac1 = Ret s' /\
    write_macs s' t3 msg2 = Ret (mac1', sent2) /\
    snd <$> secret g' = Some set_at /\ duration_since t1 set_at <= COOKIE_ROTATION_TIME /\
    forall t4, duration_since t4 set_at <= COOKIE_ROTATION_TIME ->
      check_mac2 g' sent2 binding t4 = true.
Proof.
  intros Hg -> H1 H2 Ht Hrep.
  destruct (write_macs_form (MACSender_new key) t0 msg1 H1) as (data1 & m2 & _ & [Hm2 _] & E1 & _).
  destruct (create_reply_spec g rnd nonce data1 (blake2s_mac (mac1_key key) data1) m2 receiver
    binding t1 (blake2s_mac_len _ _) Hm2) as (g' & value & set_at & sealed & E2 & Hs & _ & Hd & Hx).
  set (s' := mkMACSender (mac1_key key) (mac2_key key)
    (Some (cookie_mac value binding, t2 + COOKIE_ROTATION_TIME))).
  destruct (write_macs_form s' t3 msg2 H2) as (data2 & m2' & _ & [Hm2' _] & E3 & Hc).
  specialize (Hc _ _ eq_refl Ht).
  eexists _, _, g', _, s', _, _, set_at.
  split_and!; [exact E1|exact E2| |exact E3|by rewrite Hs|done|].
  - unfold receive_cookie. cbn [cr_nonce cr_cookie_sealed snd_mac2_key snd_mac1_key MACSender_new].
    rewrite Hg in Hx. rewrite (xchacha_open_seal _ _ _ _ _ Hx).
    unfold cookie_mac at 1. rewrite blake2s_mac_len. mrun.
    by rewrite instant_add_ok by (unfold COOKIE_ROTATION_TIME, secs in *; lia).
  - intros t4 Ht4. unfold check_mac2. rewrite Hs, decide_False by lia.
    rewrite app_assoc, from_suffix_app by done. by apply bool_decide_eq_true.
Qed.

(** No mac2 is accepted before a cookie was issued, nor once the secret
    is older than the rotation time. *)
Theorem check_mac2_refuses `{!CryptoOps} g msg binding now :
  match secret g with
  | None => check_mac2 g msg binding now = false
  | Some (_, set_at) =>
      set_at + COOKIE_ROTATION_TIME < now -> check_mac2 g msg binding now = false
  end.
Proof.
  unfold check_mac2. destruct (secret g) as [[value set_at]|]; [|done]. intros Ht.
  rewrite decide_True; [done|]. unfold duration_since, COOKIE_ROTATION_TIME, secs in *. lia.
Qed.

(** ** Examples *)

From S2P Require Import CryptoModel.

Definition demo_key : list Z := replicate 32 5.

Lemma write_macs_verify_witness :
  exists mac1 pkt', write_macs (MACSender_new demo_key) 0 (zeros 40) = Ret (mac1, pkt') /\
    verify_macs (MACReceiver_new demo_key) pkt' = true /\ length pkt' = 40%nat /\
    take 8 pkt' = zeros 8.
Proof. apply (write_macs_verify demo_key 0 (zeros 40)). simpl. lia. Defined.

Lemma cookie_exchange_witness :
  exists mac1 sent1 g' reply s' mac1' sent2 set_at,
    write_macs (MACSender_new demo_key) 0 (zeros 40) = Ret (mac1, sent1) /\
    create_reply (CookieGenerator_new demo_key) [1; 2] [3] sent1 9 [7; 7] 10 = Ret (g', Some reply) /\
    receive_cookie (MACSender_new demo_key) 20 reply mac1 = Ret s' /\
    write_macs s' 30 (zeros 50) = Ret (mac1', sent2) /\
    snd <$> secret g' = Some set_at /\ duration_since 10 set_at <= COOKIE_ROTATION_TIME /\
    forall t4, duration_since t4 set_at <= COOKIE_ROTATION_TIME ->
      check_mac2 g' sent2 [7; 7] t4 = true.
Proof.
  apply (cookie_exchange demo_key (CookieGenerator_new demo_key) (MACSender_new demo_key)
    [1; 2] [3] 9 [7; 7] (zeros 40) (zeros 50) 0 10 20 30); try reflexivity; simpl; try lia.
  unfold INSTANT_MIN, INSTANT_MAX, COOKIE_ROTATION_TIME, secs. lia.
Defined.
