(* ===== verification/Scheduler.v ===== *)
(** * Scheduler: the event scheduler of ts_time

    [TimeRange], [Scheduler] and [Handle] (src/ts_time/src/lib.rs).  Instants
    and durations are nanoseconds.  The scheduler's vector of [Arc]s is a list
    of events tagged with the identity of their allocation, drawn from a
    counter; a [Handle] is the identity, and upgrading its [Weak] succeeds
    exactly while the vector holds the event. *)

From S2P Require Import Prelude.
From stdpp Require Import sorting.

Local Open Scope Z_scope.

Record TimeRange := mkTimeRange { tr_start : Z; tr_end : Z }.

Definition TimeRange_new (s e : Z) : outcome TimeRange :=
  _ ← rassert (bool_decide (s <= e));
  Ret (mkTimeRange s e).

Definition TimeRange_new_around (t plus_minus : Z) : outcome TimeRange :=
  TimeRange_new (default t (checked_instant (t - plus_minus)))
    (default t (checked_instant (t + plus_minus))).

Definition TimeRange_contains (r : TimeRange) (t : Z) : bool :=
  bool_decide (tr_start r <= t) && bool_decide (t <= tr_end r).

Section Scheduler.
Context {E : Type}.

Record FutureEvent := mkFutureEvent { ev_id : nat; ev_when : TimeRange; ev_what : E }.

(** The vector, in descending order of start, and the next identity. *)
Record Scheduler := mkScheduler { events : list FutureEvent; next_id : nat }.

Definition Scheduler_default : Scheduler := mkScheduler [] 0.

(** [slice::partition_point] on a partitioned slice: the length of the prefix
    on which the predicate holds. *)
Fixpoint partition_point (evs : list FutureEvent) (t : Z) : nat :=
  match evs with
  | [] => 0
  | e :: evs => if decide (t < tr_start (ev_when e)) then S (partition_point evs t) else 0
  end.

(** The scan of [find] from the partition point. *)
Fixpoint find_from (evs : list FutureEvent) (event : FutureEvent) : option nat :=
  match evs with
  | [] => None
  | other :: evs =>
      if decide (tr_start (ev_when other) <> tr_start (ev_when event)) then None
      else if decide (ev_id other = ev_id event) then Some 0%nat
      else S <$> find_from evs event
  end.

Definition find (evs : list FutureEvent) (event : FutureEvent) : option nat :=
  let idx := partition_point evs (tr_start (ev_when event)) in
  (fun i => (idx + i)%nat) <$> find_from (drop idx evs) event.

Definition insert_event (evs : list FutureEvent) (e : FutureEvent) : outcome (list FutureEvent) :=
  vec_insert evs (partition_point evs (tr_start (ev_when e))) e.

Definition add (s : Scheduler) (when : TimeRange) (what : E) : outcome (Scheduler * nat) :=
  let event := mkFutureEvent (next_id s) when what in
  evs ← insert_event (events s) event;
  Ret (mkScheduler evs (S (next_id s)), next_id s).

Definition clear (s : Scheduler) : Scheduler := mkScheduler [] (next_id s).

(** [dispatch]: the due events, earliest start first. *)
Definition dispatch (s : Scheduler) (now : Z) : Scheduler * list E :=
  let idx := partition_point (events s) now in
  (mkScheduler (take idx (events s)) (next_id s), ev_what <$> reverse (drop idx (events s))).

(** The loop of [next_dispatch_range], from the back of the vector. *)
Fixpoint range_loop (e : Z) (rest : list FutureEvent) : Z :=
  match rest with
  | [] => e
  | ev :: rest =>
      if decide (e < tr_start (ev_when ev)) then e
      else range_loop (Z.min e (tr_end (ev_when ev))) rest
  end.

Definition next_dispatch_range (s : Scheduler) : outcome (option TimeRange) :=
  match reverse (events s) with
  | [] => Ret None
  | ev :: rest =>
      r ← TimeRange_new (tr_start (ev_when ev)) (range_loop (tr_end (ev_when ev)) rest);
      Ret (Some r)
  end.

Definition next_dispatch (s : Scheduler) : outcome (option Z) :=
  r ← next_dispatch_range s;
  Ret (option_map tr_end r).

(** [Weak::upgrade] of the handle's event. *)
Definition upgrade (s : Scheduler) (h : nat) : option FutureEvent :=
  List.find (fun e => bool_decide (ev_id e = h)) (events s).

(** [Handle::cancel] *)
Definition cancel (s : Scheduler) (h : nat) : outcome Scheduler :=
  match upgrade s h with
  | None => Ret s
  | Some event =>
      match find (events s) event with
      | None => Ret s
      | Some idx =>
          '(_, evs) ← vec_remove (events s) idx;
          Ret (mkScheduler evs (next_id s))
      end
  end.

(** [Handle::reschedule]: the moved event keeps its identity. *)
Definition reschedule (s : Scheduler) (h : nat) (when : TimeRange)
    : outcome (Scheduler * option nat) :=
  match upgrade s h with
  | None => Ret (s, None)
  | Some event =>
      match find (events s) event with
      | None => Ret (s, None)
      | Some idx =>
          '(_, evs) ← vec_remove (events s) idx;
          evs ← insert_event evs (mkFutureEvent (ev_id event) when (ev_what event));
          Ret (mkScheduler evs (next_id s), Some h)
      end
  end.
End Scheduler.

Arguments FutureEvent : clear implicits.
Arguments Scheduler : clear implicits.

(** ** Invariant *)

Section Invariant.
Context {E : Type}.
Implicit Types (s : Scheduler E) (evs : list (FutureEvent E)) (e : FutureEvent E).

Definition start e : Z := tr_start (ev_when e).

Definition starts_desc e e' : Prop := start e' <= start e.

(** Descending starts, distinct identities below the counter, proper ranges. *)
Record sched_wf s : Prop := mkSchedWf {
  wf_sorted : StronglySorted starts_desc (events s);
  wf_ids : NoDup (ev_id <$> events s);
  wf_fresh : Forall (fun e => (ev_id e < next_id s)%nat) (events s);
  wf_ranges : Forall (fun e => start e <= tr_end (ev_when e)) (events s);
}.

Lemma partition_point_le evs t : (partition_point evs t <= length evs)%nat.
Proof. induction evs as [|e evs IH]; simpl; [lia|]. case_decide; lia. Qed.

Lemma partition_take evs t : Forall (fun e => t < start e) (take (partition_point evs t) evs).
Proof.
  induction evs as [|e evs IH]; simpl; [constructor|]. case_decide; simpl; constructor; done.
Qed.

Lemma partition_drop evs t :
  StronglySorted starts_desc evs ->
  Forall (fun e => start e <= t) (drop (partition_point evs t) evs).
Proof.
  induction 1 as [|e evs Hs IH Hf]; simpl; [constructor|]. case_decide as Hlt; simpl; [done|].
  constructor; [unfold start; lia|]. eapply Forall_impl; [exact Hf|].
  unfold starts_desc, start in *. intros x Hx. lia.
Qed.

(** The events that start after [t], and those that do not. *)
Lemma partition_filter evs t :
  StronglySorted starts_desc evs ->
  take (partition_point evs t) evs = filter (fun e => t < start e) evs /\
  drop (partition_point evs t) evs = filter (fun e => ~ t < start e) evs.
Proof.
  induction 1 as [|e evs Hs [IH1 IH2] Hf]; simpl; [done|]. fold (start e).
  case_decide as Hlt; simpl.
  - rewrite filter_cons_True by done. rewrite filter_cons_False by (intros H; by apply H).
    split; [by f_equal|done].
  - rewrite filter_cons_False by done. rewrite filter_cons_True by done.
    assert (Forall (fun x => ~ t < start x) evs) as Hall.
    { eapply Forall_impl; [exact Hf|]. unfold starts_desc. intros x Hx. lia. }
    clear -Hall. split; [|f_equal].
    + induction Hall as [|x l Hx _ IH]; [done|]. by rewrite filter_cons_False.
    + induction Hall as [|x l Hx _ IH]; [done|]. rewrite filter_cons_True by done. by f_equal.
Qed.

Lemma wf_default : sched_wf (Scheduler_default (E := E)).
Proof. split; constructor. Qed.

Lemma upgrade_elem s h e :
  sched_wf s -> upgrade s h = Some e <-> e ∈ events s /\ ev_id e = h.
Proof.
  intros [_ Hids _ _]. unfold upgrade. split.
  - intros Hf. apply List.find_some in Hf as [Hin Hid]. apply bool_decide_eq_true in Hid.
    split; [by apply list_elem_of_In|done].
  - intros [Hin Hid]. destruct (List.find _ _) as [e'|] eqn:Hf.
    + apply List.find_some in Hf as [Hin' Hid']. apply bool_decide_eq_true in Hid'.
      apply list_elem_of_In in Hin'. f_equal. clear -Hids Hin Hin' Hid Hid'.
      induction (events s) as [|x l IH]; [by apply not_elem_of_nil in Hin|].
      csimpl in Hids. apply NoDup_cons in Hids as [Hx Hl].
      apply elem_of_cons in Hin as [->|Hin], Hin' as [->|Hin']; [done|..|by apply IH].
      * exfalso. apply Hx. apply list_elem_of_fmap. exists e'. split; [congruence|done].
      * exfalso. apply Hx. apply list_elem_of_fmap. exists e. split; [congruence|done].
    + eapply List.find_none in Hf; [|by apply list_elem_of_In].
      apply bool_decide_eq_false in Hf. done.
Qed.

(** ** Inserting and removing *)

Lemma insert_event_split evs e :
  exists l1 l2, evs = l1 ++ l2 /\ insert_event evs e = Ret (l1 ++ e :: l2) /\
    l1 = take (partition_point evs (start e)) evs /\
    l2 = drop (partition_point evs (start e)) evs.
Proof.
  exists (take (partition_point evs (start e)) evs), (drop (partition_point evs (start e)) evs).
  split_and!; [by rewrite take_drop| |done..]. unfold insert_event, vec_insert.
  rewrite decide_True; [done|apply partition_point_le].
Qed.

Lemma insert_event_spec evs e :
  StronglySorted starts_desc evs ->
  exists evs', insert_event evs e = Ret evs' /\ evs' ≡ₚ e :: evs /\
    StronglySorted starts_desc evs'.
Proof.
  intros Hs. destruct (insert_event_split evs e) as (l1 & l2 & Hsplit & -> & H1 & H2).
  eexists. split; [done|]. split; [rewrite Hsplit; by rewrite Permutation_middle|].
  pose proof (partition_take evs (start e)) as Ht. pose proof (partition_drop evs (start e) Hs) as Hd.
  rewrite <- H1 in Ht. rewrite <- H2 in Hd. rewrite Hsplit in Hs.
  apply StronglySorted_app in Hs as (Hcross & Hs1 & Hs2).
  rewrite Forall_forall in Ht, Hd. apply StronglySorted_app_2; [|done|].
  - intros x y Hx [->|Hy]%elem_of_cons; [|by apply Hcross].
    specialize (Ht x Hx). unfold starts_desc. lia.
  - constructor; [done|]. apply Forall_forall. intros y Hy. specialize (Hd y Hy).
    unfold starts_desc. lia.
Qed.

Lemma find_from_spec evs e :
  StronglySorted starts_desc evs -> NoDup (ev_id <$> evs) ->
  Forall (fun x => start x <= start e) evs -> e ∈ evs ->
  exists i, find_from evs e = Some i /\ evs !! i = Some e.
Proof.
  intros Hs. induction Hs as [|x evs Hs IH Hf]; intros Hids Hle Hin;
    [by apply not_elem_of_nil in Hin|].
  simpl. csimpl in Hids. apply NoDup_cons in Hids as [Hx Hids].
  inversion Hle as [|? ? Hxe Hle']; subst.
  apply elem_of_cons in Hin as [->|Hin].
  - rewrite decide_False by (intros Hc; by apply Hc). rewrite decide_True by done. by exists 0%nat.
  - assert (start e <= start x) by (rewrite Forall_forall in Hf; by apply Hf).
    rewrite decide_False by (unfold start in *; intros Hc; apply Hc; lia).
    rewrite decide_False.
    + destruct (IH Hids Hle' Hin) as (i & -> & Hi). by exists (S i).
    + intros Heq. apply Hx. apply list_elem_of_fmap. by exists e.
Qed.

(** [find] finds every pending event. *)
Lemma find_spec s e :
  sched_wf s -> e ∈ events s -> exists i, find (events s) e = Some i /\ events s !! i = Some e.
Proof.
  intros [Hs Hids _ _] Hin. unfold find. fold (start e).
  set (k := partition_point (events s) (start e)).
  pose proof (take_drop k (events s)) as Hsplit.
  assert (e ∈ drop k (events s)) as Hd.
  { rewrite <- Hsplit in Hin. apply elem_of_app in Hin as [Hin|Hin]; [|done].
    pose proof (partition_take (events s) (start e)) as Ht. fold k in Ht.
    rewrite Forall_forall in Ht. specialize (Ht e Hin). lia. }
  rewrite <- Hsplit in Hs, Hids. rewrite fmap_app in Hids. apply NoDup_app in Hids as (_ & _ & Hids).
  destruct (find_from_spec (drop k (events s)) e) as (i & Hfi & Hi).
  - by apply StronglySorted_app_1_r in Hs.
  - done.
  - rewrite Hsplit in Hs. by apply partition_drop.
  - done.
  - exists (k + i)%nat. rewrite Hfi. split; [done|]. by rewrite <- lookup_drop.
Qed.

Lemma remove_sub s i e :
  sched_wf s -> events s !! i = Some e ->
  exists evs, vec_remove (events s) i = Ret (e, evs) /\ events s ≡ₚ e :: evs /\
    sched_wf (mkScheduler evs (next_id s)).
Proof.
  intros [Hs Hids Hfr Hr] Hi. unfold vec_remove. rewrite Hi. eexists. split; [done|].
  pose proof (take_drop_middle (events s) i e Hi) as Hmid.
  assert (events s ≡ₚ e :: (take i (events s) ++ drop (S i) (events s))) as Hp.
  { rewrite <- Hmid at 1. by rewrite <- Permutation_middle. }
  split; [done|]. rewrite Hp in Hids, Hfr, Hr. csimpl in Hids.
  apply NoDup_cons in Hids as [_ Hids]. inversion Hfr; inversion Hr; subst.
  split; cbn [events next_id]; [|done..].
  rewrite <- Hmid in Hs. apply StronglySorted_app in Hs as (Hc & Hs1 & Hs2).
  inversion Hs2; subst. apply StronglySorted_app_2; [|done..].
  intros x y Hx Hy. apply Hc; [done|]. by apply elem_of_cons; right.
Qed.

(** ** Operations *)

Lemma add_spec s w x :
  sched_wf s -> tr_start w <= tr_end w ->
  exists s', add s w x = Ret (s', next_id s) /\ sched_wf s' /\ next_id s' = S (next_id s) /\
    events s' ≡ₚ mkFutureEvent (next_id s) w x :: events s.
Proof.
  intros [Hs Hids Hfr Hr] Hw. unfold add.
  destruct (insert_event_spec (events s) (mkFutureEvent (next_id s) w x) Hs)
    as (evs & -> & Hp & Hs'). mrun. eexists. split; [done|]. split; [|done].
  split; cbn [events next_id]; rewrite ?Hp; [done|..].
  - csimpl. constructor; [|done]. intros (e & He & Hin)%list_elem_of_fmap.
    rewrite Forall_forall in Hfr. specialize (Hfr e Hin). lia.
  - constructor; [simpl; lia|]. eapply Forall_impl; [exact Hfr|]. simpl. lia.
  - constructor; [done|done].
Qed.

Lemma cancel_spec s h :
  sched_wf s ->
  exists s', cancel s h = Ret s' /\ sched_wf s' /\ next_id s' = next_id s /\
    forall e, e ∈ events s' <-> e ∈ events s /\ ev_id e <> h.
Proof.
  intros Hwf. unfold cancel. destruct (upgrade s h) as [e0|] eqn:Hu.
  - apply upgrade_elem in Hu as [Hin Hid]; [|done].
    destruct (find_spec s e0 Hwf Hin) as (i & -> & Hi).
    destruct (remove_sub s i e0 Hwf Hi) as (evs & -> & Hp & Hwf'). mrun.
    eexists. split; [done|]. split; [done|]. split; [done|]. cbn [events]. intros e.
    destruct Hwf as [_ Hids _ _]. rewrite Hp in Hids. csimpl in Hids.
    apply NoDup_cons in Hids as [Hnot _]. rewrite Hp, elem_of_cons. split.
    + intros He. split; [by right|]. intros Heq. apply Hnot, list_elem_of_fmap.
      exists e. split; [congruence|done].
    + intros [[->|He] Hne]; [done|done].
  - exists s. split_and!; [done|done|done|]. intros e. split; [|by intros []].
    intros He. split; [done|]. intros Hid.
    assert (upgrade s h = Some e) by (by apply upgrade_elem). congruence.
Qed.

Lemma reschedule_spec s h w :
  sched_wf s -> tr_start w <= tr_end w ->
  exists s' r, reschedule s h w = Ret (s', r) /\ sched_wf s' /\ next_id s' = next_id s /\
    match upgrade s h with
    | None => r = None /\ s' = s
    | Some e => r = Some h /\ exists evs, events s ≡ₚ e :: evs /\
        events s' ≡ₚ mkFutureEvent h w (ev_what e) :: evs
    end.
Proof.
  intros Hwf Hw. unfold reschedule. destruct (upgrade s h) as [e0|] eqn:Hu;
    [|by exists s, None].
  apply upgrade_elem in Hu as [Hin <-]; [|done].
  destruct (find_spec s e0 Hwf Hin) as (i & -> & Hi).
  destruct (remove_sub s i e0 Hwf Hi) as (evs & -> & Hp & [Hs Hids Hfr Hr]). mrun.
  destruct (insert_event_spec evs (mkFutureEvent (ev_id e0) w (ev_what e0)) Hs)
    as (evs' & -> & Hp' & Hs'). mrun. eexists _, _. split; [done|]. split; [|split; [done|]].
  - destruct Hwf as [_ Hids0 Hfr0 _]. rewrite Hp in Hids0, Hfr0. csimpl in Hids0.
    inversion Hfr0; subst. split; cbn [events next_id] in *; rewrite ?Hp'; [done|..].
    + done.
    + by constructor.
    + by constructor.
  - split; [done|]. by exists evs.
Qed.

Lemma dispatch_spec s now :
  sched_wf s ->
  sched_wf (dispatch s now).1 /\ next_id (dispatch s now).1 = next_id s /\
  events (dispatch s now).1 = filter (fun e => now < start e) (events s) /\
  (dispatch s now).2 = ev_what <$> reverse (filter (fun e => ~ now < start e) (events s)).
Proof.
  intros [Hs Hids Hfr Hr]. unfold dispatch. cbn [fst snd events next_id].
  destruct (partition_filter (events s) now Hs) as [H1 H2]. rewrite <- H1, <- H2.
  split_and!; [|done..]. split; cbn [events next_id].
  - rewrite <- (take_drop (partition_point (events s) now)) in Hs.
    by apply StronglySorted_app_1_l in Hs.
  - rewrite fmap_take. eapply sublist_NoDup; [exact Hids|apply sublist_take].
  - by apply Forall_take.
  - by apply Forall_take.
Qed.

Lemma reverse_sorted evs :
  StronglySorted starts_desc evs -> StronglySorted (flip starts_desc) (reverse evs).
Proof.
  induction 1 as [|e evs Hs IH Hf]; [constructor|]. rewrite reverse_cons.
  apply StronglySorted_app_2; [|done|repeat constructor].
  intros x y Hx ->%list_elem_of_singleton. rewrite elem_of_reverse in Hx.
  rewrite Forall_forall in Hf.
  by apply Hf.
Qed.

(** The window of [next_dispatch_range]. *)
Lemma range_loop_spec (e : Z) rest :
  StronglySorted (flip starts_desc) rest -> Forall (fun x => start x <= tr_end (ev_when x)) rest ->
  range_loop e rest <= e /\ Forall (fun x => range_loop e rest <= tr_end (ev_when x)) rest /\
  forall lo, lo <= e -> Forall (fun x => lo <= start x) rest -> lo <= range_loop e rest.
Proof.
  intros Hs. revert e. induction Hs as [|x rest Hs IH Hf]; intros e Hr; simpl.
  { split; [lia|]. split; [constructor|]. done. }
  inversion Hr as [|? ? Hx Hr']; subst. fold (start x). case_decide as Hlt.
  - split; [lia|]. split; [|by intros]. constructor; [lia|]. rewrite Forall_forall in Hf, Hr' |- *.
    intros y Hy. specialize (Hf y Hy). specialize (Hr' y Hy). unfold flip, starts_desc in Hf. lia.
  - destruct (IH (Z.min e (tr_end (ev_when x))) Hr') as (H1 & H2 & H3).
    split; [lia|]. split; [constructor; [lia|done]|].
    intros lo Hlo Hall. inversion Hall; subst. apply H3; [lia|done].
Qed.

Lemma next_dispatch_range_spec s :
  sched_wf s ->
  match events s with
  | [] => next_dispatch_range s = Ret None
  | _ => exists r, next_dispatch_range s = Ret (Some r) /\ tr_start r <= tr_end r /\
      (exists e, e ∈ events s /\ start e = tr_start r) /\
      Forall (fun e => tr_start r <= start e /\ tr_end r <= tr_end (ev_when e)) (events s)
  end.
Proof.
  intros [Hs _ _ Hr]. unfold next_dispatch_range. apply reverse_sorted in Hs.
  apply Forall_reverse in Hr. destruct (events s) as [|x0 l] eqn:Hev; [done|].
  destruct (reverse (x0 :: l)) as [|ev rest] eqn:Hrev.
  { apply (f_equal length) in Hrev. by rewrite length_reverse in Hrev. }
  inversion Hs as [|? ? Hs' Hf]; subst. inversion Hr as [|? ? Hx Hr']; subst.
  destruct (range_loop_spec (tr_end (ev_when ev)) rest Hs' Hr') as (H1 & H2 & H3).
  assert (start ev <= range_loop (tr_end (ev_when ev)) rest) as Hle by (apply H3; [done|exact Hf]).
  unfold TimeRange_new. fold (start ev). rewrite bool_decide_eq_true_2 by done. mrun.
  eexists. split; [done|]. cbn [tr_start tr_end]. split; [done|].
  assert (forall y, y ∈ x0 :: l <-> y ∈ ev :: rest) as Hel.
  { intros y. rewrite <- Hrev. by rewrite elem_of_reverse. }
  split; [exists ev; split; [apply Hel, list_elem_of_here|done]|].
  apply Forall_forall. intros y [->|Hy]%Hel%elem_of_cons; [by split|].
  rewrite Forall_forall in Hf, H2. split; [by apply Hf|by apply H2].
Qed.
End Invariant.

(** ** Properties *)

(** The timers that the caller still waits for: what the vector must hold. *)
Inductive sched_op (E : Type) :=
| SAdd (when : TimeRange) (what : E)
| SCancel (h : nat)
| SReschedule (h : nat) (when : TimeRange)
| SDispatch (now : Z)
| SClear.
Arguments SAdd {E}.
Arguments SCancel {E}.
Arguments SReschedule {E}.
Arguments SDispatch {E}.
Arguments SClear {E}.

Definition op_ok {E} (op : sched_op E) : Prop :=
  match op with
  | SAdd w _ | SReschedule _ w => tr_start w <= tr_end w
  | _ => True
  end.

Definition sched_step {E} (s : Scheduler E) (op : sched_op E) : outcome (Scheduler E) :=
  match op with
  | SAdd w x => '(s, _) ← add s w x; Ret s
  | SCancel h => cancel s h
  | SReschedule h w => '(s, _) ← reschedule s h w; Ret s
  | SDispatch now => Ret (dispatch s now).1
  | SClear => Ret (clear s)
  end.

(** Every sequence of additions, cancellations, reschedulings, dispatches
    and clears runs without a panic and keeps the vector sorted by descending
    start, its identities distinct and its ranges proper. *)
Theorem scheduler_ops_safe {E} (ops : list (sched_op E)) :
  Forall op_ok ops ->
  exists s, mfoldl sched_step Scheduler_default ops = Ret s /\ sched_wf s.
Proof.
  intros Hops. generalize (wf_default (E := E)).
  generalize (Scheduler_default (E := E)). induction Hops as [|op ops Hop _ IH]; intros s Hwf.
  { by exists s. }
  cbn [mfoldl]. destruct op as [w x|h|h w|now|]; cbn [sched_step op_ok] in *.
  - destruct (add_spec s w x Hwf Hop) as (s' & -> & Hwf' & _). by apply IH.
  - destruct (cancel_spec s h Hwf) as (s' & -> & Hwf' & _). by apply IH.
  - destruct (reschedule_spec s h w Hwf Hop) as (s' & r & -> & Hwf' & _). by apply IH.
  - apply IH. by apply dispatch_spec.
  - apply IH. split; constructor.
Qed.

Lemma scheduler_ops_safe_witness :
  exists s, mfoldl sched_step Scheduler_default
      [SAdd (mkTimeRange 5 9) true; SAdd (mkTimeRange 2 3) false; SReschedule 0 (mkTimeRange 1 1);
       SCancel 1; SDispatch 4] = Ret s /\ sched_wf s.
Proof. apply scheduler_ops_safe. repeat constructor; simpl; lia. Defined.

(** [dispatch] hands out exactly the events whose window has opened,
    earliest start first, and keeps exactly the others; [cancel] removes one
    pending event and nothing else, and is a no-op on a lapsed handle. *)
Theorem scheduler_dispatch_cancel {E} (s : Scheduler E) now h :
  sched_wf s ->
  (exists due, (dispatch s now).2 = ev_what <$> due /\
     due ≡ₚ filter (fun e => ~ now < start e) (events s) /\
     StronglySorted (fun e e' => start e <= start e') due /\
     events (dispatch s now).1 = filter (fun e => now < start e) (events s)) /\
  exists s', cancel s h = Ret s' /\
    forall e, e ∈ events s' <-> e ∈ events s /\ ev_id e <> h.
Proof.
  intros Hwf. split.
  - destruct (dispatch_spec s now Hwf) as (_ & _ & Hev & Hd).
    exists (reverse (filter (fun e => ~ now < start e) (events s))).
    split_and!; [done|by rewrite reverse_Permutation| |done].
    destruct Hwf as [Hs _ _ _]. destruct (partition_filter (events s) now Hs) as [_ <-].
    apply (reverse_sorted (drop _ _)).
    rewrite <- (take_drop (partition_point (events s) now)) in Hs.
    by apply StronglySorted_app_1_r in Hs.
  - destruct (cancel_spec s h Hwf) as (s' & -> & _ & _ & He). by exists s'.
Qed.

Definition sched_demo : Scheduler bool :=
  mkScheduler [mkFutureEvent 0 (mkTimeRange 5 9) true; mkFutureEvent 1 (mkTimeRange 2 3) false] 2.

Lemma sched_demo_wf : sched_wf sched_demo.
Proof.
  split; simpl.
  - repeat constructor. unfold starts_desc, start. simpl. lia.
  - apply NoDup_cons. split; [set_solver|apply NoDup_singleton].
  - repeat constructor; simpl; lia.
  - repeat constructor; unfold start; simpl; lia.
Qed.

Lemma scheduler_dispatch_cancel_witness :
  (exists due, [false] = ev_what <$> due /\
     due ≡ₚ filter (fun e => ~ 4 < start e) (events sched_demo) /\
     StronglySorted (fun e e' => start e <= start e') due /\
     events (dispatch sched_demo 4).1 = filter (fun e => 4 < start e) (events sched_demo)) /\
  exists s', cancel sched_demo 0 = Ret s' /\
    forall e, e ∈ events s' <-> e ∈ events sched_demo /\ ev_id e <> 0%nat.
Proof. exact (scheduler_dispatch_cancel sched_demo 4 0 sched_demo_wf). Defined.

(** The range that [next_dispatch_range] names starts at the earliest
    pending start and ends no later than the end of any pending event, so a
    dispatch inside it is early for none and late for none. *)
Theorem next_dispatch_on_time {E} (s : Scheduler E) :
  sched_wf s ->
  match events s with
  | [] => next_dispatch_range s = Ret None
  | _ => exists r, next_dispatch_range s = Ret (Some r) /\ tr_start r <= tr_end r /\
      (exists e, e ∈ events s /\ start e = tr_start r) /\
      Forall (fun e => tr_start r <= start e /\ tr_end r <= tr_end (ev_when e)) (events s)
  end.
Proof. apply next_dispatch_range_spec. Qed.

Lemma next_dispatch_on_time_witness :
  exists r, next_dispatch_range sched_demo = Ret (Some r) /\ tr_start r <= tr_end r /\
    (exists e, e ∈ events sched_demo /\ start e = tr_start r) /\
    Forall (fun e => tr_start r <= start e /\ tr_end r <= tr_end (ev_when e)) (events sched_demo).
Proof. exact (next_dispatch_on_time sched_demo sched_demo_wf). Defined.
