(* ===== verification/Handshake.v ===== *)
(** * Handshake: the Noise handshake of ts_tunnel

    src/ts_tunnel/src/handshake.rs: the symmetric state of Noise_IKpsk2, the
    initiator's and the responder's side of the exchange, and the [Handshake]
    slots that an endpoint keeps per peer.  Random ephemeral keys are
    arguments.  A timer [Handle] is an identity of [Scheduler]; the operations
    that cancel one take and return the scheduler. *)

From S2P Require Import Prelude Bytes Crypto Messages Tai64 Session Macs Scheduler.
From Stdlib Require Import Ascii String.
From stdpp Require Import base list.

Local Open Scope Z_scope.

(** ** Keys and events *)

Record NodeKeyPair := mkNodeKeyPair { private : list Z; public : list Z }.

(** [PeerId] is its [u32]. *)
Inductive Event :=
| HandshakeTimeout (p : Z)
| MaybeSendKeepalive (p : Z)
| PersistentKeepalive (p : Z)
| NewHandshakeTimeout (p : Z).

#[export] Instance Event_eq_dec : EqDecision Event.
Proof. solve_decision. Defined.

Definition Handle : Type := nat.

(** The bytes of a [TAI64N] timestamp, big-endian. *)
Definition tai_bytes (t : TAI64N) : list Z := be_bytes 8 (Tai64.secs t) ++ be_bytes 4 (nanos t).

Definition tai_of_bytes (bs : list Z) : TAI64N :=
  mkTAI64N (be_val (take 8 bs)) (be_val (drop 8 bs)).

(** ** The symmetric state *)

Record SessionKeys := mkSessionKeys {
  initiator_to_responder : list Z;
  responder_to_initiator : list Z;
}.

Record HandshakeState := mkHandshakeState {
  hash : list Z;
  chaining_key : list Z;
  cipher : option (list Z);
}.

Section Noise.
Context `{!CryptoOps}.

Definition must_cipher (key : list Z) : outcome (list Z) :=
  _ ← rassert (bool_decide (length key = 32%nat));
  Ret key.

Definition must_hkdf2 (ck key : list Z) : list Z * list Z :=
  let expanded := hkdf ck key 64 in
  (take 32 expanded, drop 32 expanded).

Definition must_hkdf3 (ck key : list Z) : list Z * list Z * list Z :=
  let expanded := hkdf ck key 96 in
  (take 32 expanded, slice 32 32 expanded, drop 64 expanded).

Definition mix_hash (st : HandshakeState) (data : list Z) : HandshakeState :=
  mkHandshakeState (blake2s (hash st ++ data)) (chaining_key st) (cipher st).

Definition HandshakeState_new (responder_static : list Z) : HandshakeState :=
  let init := blake2s (bytes_of_string "Noise_IKpsk2_25519_ChaChaPoly_BLAKE2s") in
  mix_hash (mix_hash (mkHandshakeState init init None)
    (bytes_of_string "WireGuard v1 zx2c4 Jason@zx2c4.com")) responder_static.

Definition mix_key (st : HandshakeState) (key : list Z) : outcome HandshakeState :=
  let '(ck, k) := must_hkdf2 (chaining_key st) key in
  c ← must_cipher k;
  Ret (mkHandshakeState (hash st) ck (Some c)).

Definition mix_psk (st : HandshakeState) (psk : list Z) : outcome HandshakeState :=
  let '(ck, h, k) := must_hkdf3 (chaining_key st) psk in
  c ← must_cipher k;
  Ret (mix_hash (mkHandshakeState (hash st) ck (Some c)) h).

Definition hs_finish (st : HandshakeState) : SessionKeys :=
  let '(k1, k2) := must_hkdf2 (chaining_key st) [] in
  mkSessionKeys k1 k2.

(** [encrypt] into a destination of [dst_len] bytes. *)
Definition hs_encrypt (st : HandshakeState) (cleartext : list Z) (dst_len : nat)
    : outcome (HandshakeState * list Z) :=
  _ ← rassert (bool_decide (dst_len = length cleartext + 16)%nat);
  c ← unwrap (cipher st);
  dst ← unwrap (chacha_seal c (zeros 12) (hash st) cleartext);
  Ret (mix_hash (mkHandshakeState (hash st) (chaining_key st) None) dst, dst).

(** [decrypt] into a destination of [dst_len] bytes; [None] when the tag does
    not verify. *)
Definition hs_decrypt (st : HandshakeState) (ciphertext : list Z) (dst_len : nat)
    : outcome (option (HandshakeState * list Z)) :=
  n ← usub (length ciphertext) 16;
  _ ← rassert (bool_decide (dst_len = n));
  c ← unwrap (cipher st);
  match chacha_open c (zeros 12) (hash st) ciphertext with
  | None => Ret None
  | Some plain =>
      Ret (Some (mix_hash (mkHandshakeState (hash st) (chaining_key st) None) ciphertext, plain))
  end.
End Noise.

(** ** The two roles *)

Record SessionPair := mkSessionPair { send : TransmitSession; recv : ReceiveSession }.

Record ReceivedHandshake := mkReceivedHandshake {
  rh_send_id : Z;
  rh_peer_ephemeral : list Z;
  rh_peer_static : list Z;
  rh_timestamp : TAI64N;
  rh_handshake : HandshakeState;
}.

Record SentHandshake := mkSentHandshake {
  sh_id : Z;
  sh_my_ephemeral : list Z;
  sh_my_static : list Z;
  sh_handshake : HandshakeState;
}.

Section Roles.
Context `{!CryptoOps}.

Definition ReceivedHandshake_new (pkt : HandshakeInitiation) (my_static : NodeKeyPair)
    (macs : MACReceiver) : outcome (option ReceivedHandshake) :=
  if negb (verify_macs macs (HandshakeInitiation_as_bytes pkt)) then Ret None
  else
    let peer_ephemeral := hi_ephemeral_pub pkt in
    let st := HandshakeState_new (public my_static) in
    let st := mix_hash st (hi_ephemeral_pub pkt) in
    st ← mix_key st (hi_ephemeral_pub pkt);
    st ← mix_key st (x25519 (private my_static) peer_ephemeral);
    r ← hs_decrypt st (hi_static_pub_sealed pkt) 32;
    match r with
    | None => Ret None
    | Some (st, peer_static_bytes) =>
        st ← mix_key st (x25519 (private my_static) peer_static_bytes);
        r ← hs_decrypt st (hi_timestamp_sealed pkt) 12;
        match r with
        | None => Ret None
        | Some (st, timestamp) =>
            Ret (Some (mkReceivedHandshake (hi_sender_id pkt) (hi_ephemeral_pub pkt)
              peer_static_bytes (tai_of_bytes timestamp) st))
        end
    end.

(** [ReceivedHandshake::respond]; [my_ephemeral] is the fresh secret and
    [mac_now] the instant that [write_macs] reads. *)
Definition rh_respond (rh : ReceivedHandshake) (my_ephemeral : list Z) (session_id : Z)
    (psk : list Z) (macs : MACSender) (now mac_now : Z) : outcome (SessionPair * list Z) :=
  let my_ephemeral_pub := x25519_pub my_ephemeral in
  let st := mix_hash (rh_handshake rh) my_ephemeral_pub in
  st ← mix_key st my_ephemeral_pub;
  st ← mix_key st (x25519 my_ephemeral (rh_peer_ephemeral rh));
  st ← mix_key st (x25519 my_ephemeral (rh_peer_static rh));
  st ← mix_psk st psk;
  '(st, auth_tag) ← hs_encrypt st [] 16;
  let keys := hs_finish st in
  let response := mkHandshakeResponse MT_HandshakeResponse (zeros 3) session_id (rh_send_id rh)
    my_ephemeral_pub auth_tag (zeros 16) (zeros 16) in
  let send := TransmitSession_new (responder_to_initiator keys) (rh_send_id rh) now in
  let recv := ReceiveSession_new (initiator_to_responder keys) session_id now in
  '(_, pkt) ← write_macs macs mac_now (HandshakeResponse_as_bytes response);
  Ret (mkSessionPair send recv, pkt).

Definition initiate_handshake (endpoint_static peer_static : list Z) (session_id : Z)
    (timestamp : TAI64N) (ephemeral : list Z) : outcome (SentHandshake * HandshakeInitiation) :=
  let ephemeral_pub := x25519_pub ephemeral in
  let endpoint_static_pub := x25519_pub endpoint_static in
  let st := HandshakeState_new peer_static in
  let st := mix_hash st ephemeral_pub in
  st ← mix_key st ephemeral_pub;
  st ← mix_key st (x25519 ephemeral peer_static);
  '(st, static_pub_sealed) ← hs_encrypt st endpoint_static_pub 48;
  st ← mix_key st (x25519 endpoint_static peer_static);
  '(st, timestamp_sealed) ← hs_encrypt st (tai_bytes timestamp) 28;
  Ret (mkSentHandshake session_id ephemeral endpoint_static st,
    mkHandshakeInitiation MT_HandshakeInitiation (zeros 3) session_id ephemeral_pub
      static_pub_sealed timestamp_sealed (zeros 16) (zeros 16)).

(** The cryptographic part of [Handshake::finish]. *)
Definition finish_keys (sent : SentHandshake) (packet : HandshakeResponse) (psk : list Z)
    : outcome (option SessionKeys) :=
  let peer_ephemeral := hr_ephemeral_pub packet in
  let st := mix_hash (sh_handshake sent) (hr_ephemeral_pub packet) in
  st ← mix_key st (hr_ephemeral_pub packet);
  st ← mix_key st (x25519 (sh_my_ephemeral sent) peer_ephemeral);
  st ← mix_key st (x25519 (sh_my_static sent) peer_ephemeral);
  st ← mix_psk st psk;
  r ← hs_decrypt st (hr_auth_tag packet) 0;
  Ret (match r with Some (st, _) => Some (hs_finish st) | None => None end).
End Roles.

(** ** The handshake slots of a peer *)

Record Handshake := mkHandshake {
  initiated : option (SentHandshake * Handle * list Z);
  responded : option SessionPair;
}.

Definition Handshake_none : Handshake := mkHandshake None None.

Definition hs_cancel (h : Handshake) (sched : Scheduler Event) : outcome (Scheduler Event) :=
  match initiated h with
  | Some (_, timeout, _) => Scheduler.cancel sched timeout
  | None => Ret sched
  end.

(** The [debug_assert!] fires when [debug_assertions] is on. *)
Definition set_initiated (debug_assertions : bool) (h : Handshake) (sent : SentHandshake)
    (timeout : Handle) (mac1 : list Z) : outcome Handshake :=
  _ ← rassert (negb debug_assertions || bool_decide (initiated h = None));
  Ret (mkHandshake (Some (sent, timeout, mac1)) (responded h)).

Definition is_active (h : Handshake) : bool :=
  match initiated h with Some _ => true | None => false end.

Definition initiated_session_id (h : Handshake) : option Z :=
  match initiated h with Some (sent, _, _) => Some (sh_id sent) | None => None end.

Definition responded_session_id (h : Handshake) : option Z :=
  match responded h with Some tentative => Some (rs_id (recv tentative)) | None => None end.

Definition hs_mac1 (h : Handshake) : option (list Z) :=
  match initiated h with Some (_, _, mac1) => Some mac1 | None => None end.

Section Slots.
Context `{!CryptoOps}.

Definition hs_respond (h : Handshake) (session_id : Z) (rh : ReceivedHandshake)
    (my_ephemeral psk : list Z) (cookie_sender : MACSender) (now mac_now : Z)
    : outcome (Handshake * list Z * option Z) :=
  '(session, packet) ← rh_respond rh my_ephemeral session_id psk cookie_sender now mac_now;
  let displaced := responded_session_id h in
  Ret (mkHandshake (initiated h) (Some session), packet, displaced).

Definition hs_finish_slot (h : Handshake) (packet : HandshakeResponse) (psk : list Z)
    (cookies : MACReceiver) (now : Z) (sched : Scheduler Event)
    : outcome (Handshake * Scheduler Event * option SessionPair) :=
  match initiated h with
  | None => Ret (h, sched, None)
  | Some (sent, timeout, _) =>
      if negb (verify_macs cookies (HandshakeResponse_as_bytes packet)) then Ret (h, sched, None)
      else
        k ← finish_keys sent packet psk;
        match k with
        | None => Ret (h, sched, None)
        | Some keys =>
            let send := TransmitSession_new (initiator_to_responder keys) (hr_sender_id packet) now in
            let recv := ReceiveSession_new (responder_to_initiator keys) (sh_id sent) now in
            sched ← Scheduler.cancel sched timeout;
            Ret (mkHandshake None (responded h), sched, Some (mkSessionPair send recv))
        end
  end.

Definition hs_confirm (debug_assertions : bool) (h : Handshake) (session_id : Z)
    (packets : list (list Z)) (now : Z)
    : outcome (Handshake * option (SessionPair * list (list Z))) :=
  match responded h with
  | None => Ret (h, None)
  | Some tentative =>
      if decide (rs_id (recv tentative) <> session_id) then Ret (h, None)
      else if rs_expired (recv tentative) now then Ret (h, None)
      else
        '(r, packets) ← decrypt debug_assertions (recv tentative) packets;
        let tentative := mkSessionPair (send tentative) r in
        match packets with
        | [] => Ret (mkHandshake (initiated h) (Some tentative), None)
        | _ => Ret (mkHandshake (initiated h) None, Some (tentative, packets))
        end
  end.
End Slots.

(** ** The symmetric state never panics when keys are mixed *)

Section Lemmas.
Context `{!CryptoOps, !CryptoLaws}.
Implicit Types (st : HandshakeState).

Lemma mix_key_total st k :
  exists st' c, mix_key st k = Ret st' /\ cipher st' = Some c.
Proof.
  unfold mix_key, must_hkdf2, must_cipher.
  rewrite bool_decide_eq_true_2; [mrun; by eexists _, _|].
  rewrite length_drop, hkdf_len; lia.
Qed.

Lemma mix_psk_total st k :
  exists st' c, mix_psk st k = Ret st' /\ cipher st' = Some c.
Proof.
  unfold mix_psk, must_hkdf3, must_cipher.
  rewrite bool_decide_eq_true_2; [mrun; by eexists _, _|].
  rewrite length_drop, hkdf_len; lia.
Qed.

(** What one side encrypts the other decrypts, and both reach the same state. *)
Lemma hs_encrypt_decrypt st c p :
  cipher st = Some c -> Z.of_nat (length p) <= P_MAX ->
  exists st' dst, hs_encrypt st p (length p + 16) = Ret (st', dst) /\
    hs_decrypt st dst (length p) = Ret (Some (st', p)) /\
    length dst = (length p + 16)%nat /\ (bytes_ok p -> bytes_ok dst).
Proof.
  intros Hc Hp. unfold hs_encrypt. rewrite bool_decide_eq_true_2 by done. mrun.
  rewrite Hc. mrun. destruct (chacha_seal_some c (zeros 12) (hash st) p Hp) as [dst Hd].
  pose proof (chacha_seal_len _ _ _ _ _ Hd) as Hlen.
  rewrite Hd. mrun. eexists _, _. split_and!; [done| |done|].
  - unfold hs_decrypt, usub. rewrite decide_True by lia. mrun.
    rewrite bool_decide_eq_true_2 by lia. mrun. rewrite Hc. mrun.
    by rewrite (chacha_open_seal _ _ _ _ _ Hd).
  - intros Hok. by eapply chacha_seal_ok.
Qed.
End Lemmas.

(** ** Messages with their MACs *)

Definition hi_with_macs (m : HandshakeInitiation) (m1 m2 : list Z) : HandshakeInitiation :=
  mkHandshakeInitiation (hi_msg_type m) (hi_reserved m) (hi_sender_id m) (hi_ephemeral_pub m)
    (hi_static_pub_sealed m) (hi_timestamp_sealed m) m1 m2.

Definition hr_with_macs (m : HandshakeResponse) (m1 m2 : list Z) : HandshakeResponse :=
  mkHandshakeResponse (hr_msg_type m) (hr_reserved m) (hr_sender_id m) (hr_receiver_id m)
    (hr_ephemeral_pub m) (hr_auth_tag m) m1 m2.

Definition hi_data (m : HandshakeInitiation) : list Z :=
  concat [[MessageType_byte (hi_msg_type m)]; hi_reserved m; le_bytes 4 (hi_sender_id m);
    hi_ephemeral_pub m; hi_static_pub_sealed m; hi_timestamp_sealed m].

Definition hr_data (m : HandshakeResponse) : list Z :=
  concat [[MessageType_byte (hr_msg_type m)]; hr_reserved m; le_bytes 4 (hr_sender_id m);
    le_bytes 4 (hr_receiver_id m); hr_ephemeral_pub m; hr_auth_tag m].

Lemma hi_bytes_split m : HandshakeInitiation_as_bytes m = hi_data m ++ hi_mac1 m ++ hi_mac2 m.
Proof.
  unfold HandshakeInitiation_as_bytes, hi_data. cbn [concat]. by rewrite <- !app_assoc, !app_nil_r.
Qed.

Lemma hr_bytes_split m : HandshakeResponse_as_bytes m = hr_data m ++ hr_mac1 m ++ hr_mac2 m.
Proof.
  unfold HandshakeResponse_as_bytes, hr_data. cbn [concat]. by rewrite <- !app_assoc, !app_nil_r.
Qed.

Section WithMacs.
Context `{!CryptoOps, !CryptoLaws}.

(** [write_macs] on a message that ends in its two MAC fields. *)
Lemma write_macs_message s t data m1 m2 :
  field_ok 16 m1 -> field_ok 16 m2 ->
  exists m2', field_ok 16 m2' /\
    write_macs s t (data ++ m1 ++ m2) = Ret (blake2s_mac (snd_mac1_key s) data,
      data ++ blake2s_mac (snd_mac1_key s) data ++ m2').
Proof.
  intros [H1 _] [H2 _].
  destruct (write_macs_form s t (data ++ m1 ++ m2)) as (d & m2' & Hd & Hm & -> & _).
  { rewrite !length_app. lia. }
  exists m2'. split; [done|]. rewrite !length_app in Hd.
  replace (length data + (length m1 + length m2) - 32)%nat with (length data) in Hd by lia.
  rewrite take_app_length in Hd. by subst d.
Qed.

Lemma mac_field k d : field_ok 16 (blake2s_mac k d).
Proof. split; [apply blake2s_mac_len|apply blake2s_mac_ok]. Qed.

Lemma hi_write_macs s t m key :
  hi_ok m -> snd_mac1_key s = mac1_key key ->
  exists m1 m2, write_macs s t (HandshakeInitiation_as_bytes m)
      = Ret (m1, HandshakeInitiation_as_bytes (hi_with_macs m m1 m2)) /\
    hi_ok (hi_with_macs m m1 m2) /\
    verify_macs (MACReceiver_new key) (HandshakeInitiation_as_bytes (hi_with_macs m m1 m2)) = true.
Proof.
  intros [Ht Hres Hid Heph Hst Hts Hm1 Hm2] Hk. rewrite hi_bytes_split.
  destruct (write_macs_message s t (hi_data m) _ _ Hm1 Hm2) as (m2 & Hok2 & ->).
  eexists _, m2. rewrite hi_bytes_split. split; [done|]. split.
  - split; try done. apply mac_field.
  - cbn [hi_mac1 hi_mac2 hi_with_macs]. rewrite Hk. apply verify_trailer. apply Hok2.
Qed.

Lemma hr_write_macs s t m key :
  hr_ok m -> snd_mac1_key s = mac1_key key ->
  exists m1 m2, write_macs s t (HandshakeResponse_as_bytes m)
      = Ret (m1, HandshakeResponse_as_bytes (hr_with_macs m m1 m2)) /\
    hr_ok (hr_with_macs m m1 m2) /\
    verify_macs (MACReceiver_new key) (HandshakeResponse_as_bytes (hr_with_macs m m1 m2)) = true.
Proof.
  intros [Ht Hres Hsid Hrid Heph Htag Hm1 Hm2] Hk. rewrite hr_bytes_split.
  destruct (write_macs_message s t (hr_data m) _ _ Hm1 Hm2) as (m2 & Hok2 & ->).
  eexists _, m2. rewrite hr_bytes_split. split; [done|]. split.
  - split; try done. apply mac_field.
  - cbn [hr_mac1 hr_mac2 hr_with_macs]. rewrite Hk. apply verify_trailer. apply Hok2.
Qed.
End WithMacs.

(** ** Timestamps on the wire *)

Definition tai_wire_ok (t : TAI64N) : Prop := u64_ok (Tai64.secs t) /\ u32_ok (nanos t).

Lemma tai_roundtrip t : tai_wire_ok t -> tai_of_bytes (tai_bytes t) = t.
Proof.
  intros [Hs Hn]. unfold tai_of_bytes, tai_bytes.
  rewrite take_app_length', drop_app_length' by (by rewrite length_be_bytes).
  rewrite !be_val_bytes; [by destruct t|..]; unfold u64_ok, u32_ok in *; simpl; lia.
Qed.

Lemma tai_bytes_len t : length (tai_bytes t) = 12%nat.
Proof. unfold tai_bytes. by rewrite length_app, !length_be_bytes. Qed.

(** ** The two messages *)

Section Agreement.
Context `{!CryptoOps, !CryptoLaws}.

Lemma pub_field s : field_ok 32 (x25519_pub s).
Proof. split; [apply x25519_pub_len|apply x25519_pub_ok]. Qed.

Lemma zeros_field n : field_ok n (zeros n).
Proof. split; [apply length_replicate|apply bytes_ok_replicate]. Qed.

(** The responder reads the initiation and reaches the initiator's state. *)
Lemma initiation_received a b e id ts :
  tai_wire_ok ts -> u32_ok id ->
  exists st init, initiate_handshake a (x25519_pub b) id ts e
      = Ret (mkSentHandshake id e a st, init) /\
    hi_ok init /\
    forall m1 m2,
      verify_macs (MACReceiver_new (x25519_pub b))
        (HandshakeInitiation_as_bytes (hi_with_macs init m1 m2)) = true ->
      ReceivedHandshake_new (hi_with_macs init m1 m2) (mkNodeKeyPair b (x25519_pub b))
          (MACReceiver_new (x25519_pub b))
        = Ret (Some (mkReceivedHandshake id (x25519_pub e) (x25519_pub a) ts st)).
Proof.
  intros Hts Hid. unfold initiate_handshake.
  set (st0 := mix_hash (HandshakeState_new (x25519_pub b)) (x25519_pub e)).
  destruct (mix_key_total st0 (x25519_pub e)) as (st1 & c1 & E1 & _). rewrite E1. mrun.
  destruct (mix_key_total st1 (x25519 e (x25519_pub b))) as (st2 & c2 & E2 & Hc2). rewrite E2. mrun.
  destruct (hs_encrypt_decrypt st2 c2 (x25519_pub a) Hc2) as (st3 & d3 & E3 & D3 & L3 & O3).
  { rewrite x25519_pub_len. unfold P_MAX. lia. }
  rewrite x25519_pub_len in E3, D3, L3. change (32 + 16)%nat with 48%nat in E3, L3. rewrite E3. mrun.
  destruct (mix_key_total st3 (x25519 a (x25519_pub b))) as (st4 & c4 & E4 & Hc4). rewrite E4. mrun.
  destruct (hs_encrypt_decrypt st4 c4 (tai_bytes ts) Hc4) as (st5 & d5 & E5 & D5 & L5 & O5).
  { rewrite tai_bytes_len. unfold P_MAX. lia. }
  rewrite tai_bytes_len in E5, D5, L5. change (12 + 16)%nat with 28%nat in E5, L5. rewrite E5. mrun.
  eexists _, _. split; [done|]. split.
  - split; cbn; [done|apply zeros_field|done|apply pub_field|..|apply zeros_field|apply zeros_field].
    + split; [done|]. apply O3, x25519_pub_ok.
    + split; [done|]. apply O5, bytes_ok_app. split; apply be_bytes_ok.
  - intros m1 m2 Hv. unfold ReceivedHandshake_new. rewrite Hv. cbn [negb].
    cbn [hi_with_macs hi_ephemeral_pub hi_static_pub_sealed hi_timestamp_sealed hi_sender_id
      private public].
    fold st0. rewrite E1. mrun. rewrite (x25519_comm b e), E2. mrun. rewrite D3. mrun.
    rewrite (x25519_comm b a), E4. mrun. rewrite D5. mrun. by rewrite tai_roundtrip.
Qed.

(** The initiator completes with the response and derives the same keys. *)
Lemma response_finished a e f id id_r ts st psk s key t tm :
  u32_ok id -> u32_ok id_r -> snd_mac1_key s = mac1_key key ->
  exists pair keys resp,
    rh_respond (mkReceivedHandshake id (x25519_pub e) (x25519_pub a) ts st) f id_r psk s t tm
      = Ret (pair, HandshakeResponse_as_bytes resp) /\
    hr_ok resp /\ hr_sender_id resp = id_r /\ hr_receiver_id resp = id /\
    verify_macs (MACReceiver_new key) (HandshakeResponse_as_bytes resp) = true /\
    finish_keys (mkSentHandshake id e a st) resp psk = Ret (Some keys) /\
    pair = mkSessionPair (TransmitSession_new (responder_to_initiator keys) id t)
             (ReceiveSession_new (initiator_to_responder keys) id_r t).
Proof.
  intros Hid Hid_r Hs. unfold rh_respond.
  cbn [rh_handshake rh_peer_ephemeral rh_peer_static rh_send_id].
  set (st0 := mix_hash st (x25519_pub f)).
  destruct (mix_key_total st0 (x25519_pub f)) as (st1 & c1 & E1 & _). rewrite E1. mrun.
  destruct (mix_key_total st1 (x25519 f (x25519_pub e))) as (st2 & c2 & E2 & _). rewrite E2. mrun.
  destruct (mix_key_total st2 (x25519 f (x25519_pub a))) as (st3 & c3 & E3 & _). rewrite E3. mrun.
  destruct (mix_psk_total st3 psk) as (st4 & c4 & E4 & Hc4). rewrite E4. mrun.
  destruct (hs_encrypt_decrypt st4 c4 [] Hc4) as (st5 & d5 & E5 & D5 & L5 & O5).
  { unfold P_MAX. simpl. lia. }
  simpl in E5, D5, L5. rewrite E5. mrun.
  set (resp := mkHandshakeResponse MT_HandshakeResponse (zeros 3) id_r id (x25519_pub f) d5
    (zeros 16) (zeros 16)).
  assert (hr_ok resp) as Hok.
  { split; cbn; [done|apply zeros_field|done|done|apply pub_field| |apply zeros_field|apply zeros_field].
    split; [done|]. apply O5. constructor. }
  destruct (hr_write_macs s tm resp key Hok Hs) as (m1 & m2 & -> & Hok' & Hv). mrun.
  eexists _, (hs_finish st5), (hr_with_macs resp m1 m2).
  split; [done|]. do 3 (split; [done|]). split; [done|]. split; [|done].
  unfold finish_keys. cbn [hr_with_macs resp hr_ephemeral_pub hr_auth_tag sh_handshake
    sh_my_ephemeral sh_my_static]. fold st0. rewrite E1. mrun.
  rewrite (x25519_comm e f), E2. mrun. rewrite (x25519_comm a f), E3. mrun.
  rewrite E4. mrun. rewrite D5. by mrun.
Qed.
End Agreement.

(** ** Properties *)

(** C20: the handshake completes.  The initiation that one side sends, read
    off the wire by the other side, identifies the sender and its timestamp;
    the response, read back, completes the initiator's slot and cancels its
    timer; and the two resulting session pairs fit together in both
    directions: same keys, each side sending to the id the other receives on.
    Neither side panics. *)
Theorem handshake_agreement `{!CryptoOps, !CryptoLaws} a b e f psk id_i id_r ts si sr t0 t1 tm t2
    timeout tentative sched :
  tai_wire_ok ts -> u32_ok id_i -> u32_ok id_r -> sched_wf sched ->
  snd_mac1_key si = mac1_key (x25519_pub b) -> snd_mac1_key sr = mac1_key (x25519_pub a) ->
  exists sent init mac1 pkt1 init' rh pair_r pkt2 resp sched' pair_i,
    initiate_handshake a (x25519_pub b) id_i ts e = Ret (sent, init) /\
    write_macs si t0 (HandshakeInitiation_as_bytes init) = Ret (mac1, pkt1) /\
    Message_try_from pkt1 = Some (M_HandshakeInitiation init') /\
    ReceivedHandshake_new init' (mkNodeKeyPair b (x25519_pub b)) (MACReceiver_new (x25519_pub b))
      = Ret (Some rh) /\
    rh_peer_static rh = x25519_pub a /\ rh_timestamp rh = ts /\
    rh_respond rh f id_r psk sr t1 tm = Ret (pair_r, pkt2) /\
    Message_try_from pkt2 = Some (M_HandshakeResponse resp) /\ hr_receiver_id resp = id_i /\
    hs_finish_slot (mkHandshake (Some (sent, timeout, mac1)) tentative) resp psk
        (MACReceiver_new (x25519_pub a)) t2 sched
      = Ret (mkHandshake None tentative, sched', Some pair_i) /\
    Scheduler.cancel sched timeout = Ret sched' /\
    paired (send pair_i) (recv pair_r) /\ paired (send pair_r) (recv pair_i).
Proof.
  intros Hts Hi Hr Hsched Hsi Hsr.
  destruct (initiation_received a b e id_i ts Hts Hi) as (st & init & E1 & Hok1 & Hrecv).
  destruct (hi_write_macs si t0 init _ Hok1 Hsi) as (m1 & m2 & Ew & Hok1' & Hv1).
  destruct (response_finished a e f id_i id_r ts st psk sr _ t1 tm Hi Hr Hsr)
    as (pair & keys & resp & E2 & Hok2 & Hsid & Hrid & Hv2 & E3 & ->).
  destruct (cancel_spec sched timeout Hsched) as (sched' & Ec & _).
  eexists (mkSentHandshake id_i e a st), init, m1, _, _, _, _, _, resp, sched', _.
  split; [done|]. split; [done|].
  split; [by apply (msg_bytes_parse (M_HandshakeInitiation _) [])|].
  split; [by apply Hrecv|]. do 2 (split; [done|]). split; [done|].
  split; [by apply (msg_bytes_parse (M_HandshakeResponse _) [])|]. split; [done|].
  split; [|split; [done|]].
  - unfold hs_finish_slot. cbn [initiated]. rewrite Hv2. cbn [negb]. rewrite E3. mrun.
    cbn [sh_id]. rewrite Ec. by mrun.
  - rewrite Hsid. by split.
Qed.

(** ** Examples *)

From S2P Require Import CryptoModel.

Lemma handshake_agreement_witness :
  exists sent init mac1 pkt1 init' rh pair_r pkt2 resp sched' pair_i,
    initiate_handshake [1] (x25519_pub [2]) 10 (mkTAI64N 5 6) [3] = Ret (sent, init) /\
    write_macs (MACSender_new (x25519_pub [2])) 0 (HandshakeInitiation_as_bytes init)
      = Ret (mac1, pkt1) /\
    Message_try_from pkt1 = Some (M_HandshakeInitiation init') /\
    ReceivedHandshake_new init' (mkNodeKeyPair [2] (x25519_pub [2]))
        (MACReceiver_new (x25519_pub [2])) = Ret (Some rh) /\
    rh_peer_static rh = x25519_pub [1] /\ rh_timestamp rh = mkTAI64N 5 6 /\
    rh_respond rh [4] 20 [9] (MACSender_new (x25519_pub [1])) 1 1 = Ret (pair_r, pkt2) /\
    Message_try_from pkt2 = Some (M_HandshakeResponse resp) /\ hr_receiver_id resp = 10 /\
    hs_finish_slot (mkHandshake (Some (sent, 0%nat, mac1)) None) resp [9]
        (MACReceiver_new (x25519_pub [1])) 2 Scheduler_default
      = Ret (mkHandshake None None, sched', Some pair_i) /\
    Scheduler.cancel Scheduler_default 0 = Ret sched' /\
    paired (send pair_i) (recv pair_r) /\ paired (send pair_r) (recv pair_i).
Proof.
  apply (handshake_agreement [1] [2] [3] [4] [9] 10 20 (mkTAI64N 5 6)
    (MACSender_new (x25519_pub [2])) (MACSender_new (x25519_pub [1])) 0 1 1 2 0%nat None
    Scheduler_default).
  - split; [unfold u64_ok|unfold u32_ok]; simpl; lia.
  - unfold u32_ok. lia.
  - unfold u32_ok. lia.
  - apply wf_default.
  - reflexivity.
  - reflexivity.
Defined.
