(* ===== verification/Endpoint.v ===== *)
(** * Endpoint: the WireGuard endpoint of ts_tunnel

    src/ts_tunnel/src/endpoint.rs and config.rs: the peers of an endpoint,
    their sessions, handshakes and timers, the map of session ids, and every
    public operation of [Endpoint].

    A method of [Peer] is a computation in the monad [PM], whose state is the
    borrowed peer, the endpoint state and the result being built; an operation
    of [Endpoint] is a computation in [EM].  What a call reads from outside is
    its [Env]: successive readings of the clocks and of the random generator
    (one counter for all of them), and whether debug assertions are compiled
    in.  Tracing is left out. *)

From S2P Require Import Replay Prelude Bytes Crypto Messages Tai64 Session Macs Scheduler Handshake.
From stdpp Require Import base list gmap sorting.

Local Open Scope Z_scope.

(** ** Constants *)

Definition MAX_QUEUED_PER_PEER : nat := 32.
Definition KEEPALIVE_TIMEOUT : Z := Session.secs 10.
Definition MAX_PRIORITY_MESSAGE_CONTENT_SIZE : nat := 512.
Definition REKEY_TIMEOUT : Z := Session.secs 5.
Definition REKEY_TIMEOUT_JITTER_MAX_MS : Z := 334.
Definition millis (n : Z) : Z := n * 1000000.
Definition HANDSHAKE_RETRANSMIT_COALESCE : Z := millis 50.
Definition UNDER_LOAD_INITIATIONS : Z := 128.
Definition UNDER_LOAD_WINDOW : Z := Session.secs 1.
Definition MAX_TIMER_HANDSHAKES : Z := 18.

(** ** Environment *)

Record Env := mkEnv {
  debug_assertions : bool;
  (** [Instant::now] and [SystemTime::now] *)
  clock : nat -> Z;
  wall : nat -> Z;
  (** [rand::random::<u64>] and random byte arrays of a length *)
  rand_u64 : nat -> Z;
  rand_bytes : nat -> nat -> list Z;
  (** the draw on which the loop of [allocate_session] exits *)
  rand_session : nat -> gmap Z Z -> Z;
}.

(** ** Queues *)

(** [Queue::append]: the oldest packets are dropped. *)
Definition append (q packets : list (list Z)) : list (list Z) :=
  let new_packets := Nat.min (length packets) MAX_QUEUED_PER_PEER in
  let drop_incoming := (length packets - new_packets)%nat in
  let keep_queued := (MAX_QUEUED_PER_PEER - new_packets)%nat in
  let drop_queued := (length q - keep_queued)%nat in
  drop drop_queued q ++ drop drop_incoming packets.

Definition new_with (packets : list (list Z)) : list (list Z) := append [] packets.

(** ** State *)

Inductive SessionState :=
| SNone (queue : list (list Z))
| SActive (recv : ReceiveSession) (recv_prev : option ReceiveSession) (send : TransmitSession)
    (is_initiator last_minute_handshake_sent : bool).

Record PeerConfig := mkPeerConfig {
  cfg_key : list Z;
  cfg_psk : list Z;
  cfg_persistent_keepalive_interval : option Z;
}.

Definition effective_persistent_keepalive (c : PeerConfig) : option Z :=
  match cfg_persistent_keepalive_interval c with
  | Some d => if decide (d = 0) then None else Some d
  | None => None
  end.

Record Peer := mkPeer {
  p_id : Z;
  p_config : PeerConfig;
  p_session : SessionState;
  p_handshake : Handshake;
  p_last_seen_timestamp : option TAI64N;
  p_cookie_sender : MACSender;
  p_keepalive : option Handle;
  p_send_another_keepalive : bool;
  p_persistent_keepalive : option Handle;
  p_new_handshake : option Handle;
  p_handshake_attempts : Z;
}.

Record IdMap := mkIdMap { sessions : gmap Z Z; node_keys : gmap (list Z) Z }.

Record HandshakeLoad := mkHandshakeLoad {
  window : option (Z * Z);
  under_load_until : option Z;
}.

Record EndpointState := mkEndpointState {
  my_key : NodeKeyPair;
  my_cookie : MACReceiver;
  cookies : CookieGenerator;
  load : HandshakeLoad;
  ids : IdMap;
  timestamps : TAI64N;
  scheduler : Scheduler Event;
}.

(** [SendResult], [RecvResult] and [EventResult]; the first and the last only
    use [to_peers]. *)
Record Result_ := mkResult {
  to_local : gmap Z (list (list Z));
  to_peers : gmap Z (list (list Z));
  sessions_established : list Z;
}.

Definition Result_default : Result_ := mkResult ∅ ∅ [].

Record Endpoint := mkEndpoint { e_state : EndpointState; e_peers : gmap Z Peer }.

(** ** Field updates *)

Section Updates.
Implicit Types (p : Peer) (s : EndpointState).

Definition set_config p x := mkPeer (p_id p) x (p_session p) (p_handshake p)
  (p_last_seen_timestamp p) (p_cookie_sender p) (p_keepalive p) (p_send_another_keepalive p)
  (p_persistent_keepalive p) (p_new_handshake p) (p_handshake_attempts p).
Definition set_session p x := mkPeer (p_id p) (p_config p) x (p_handshake p)
  (p_last_seen_timestamp p) (p_cookie_sender p) (p_keepalive p) (p_send_another_keepalive p)
  (p_persistent_keepalive p) (p_new_handshake p) (p_handshake_attempts p).
Definition set_handshake p x := mkPeer (p_id p) (p_config p) (p_session p) x
  (p_last_seen_timestamp p) (p_cookie_sender p) (p_keepalive p) (p_send_another_keepalive p)
  (p_persistent_keepalive p) (p_new_handshake p) (p_handshake_attempts p).
Definition set_last_seen p x := mkPeer (p_id p) (p_config p) (p_session p) (p_handshake p)
  x (p_cookie_sender p) (p_keepalive p) (p_send_another_keepalive p)
  (p_persistent_keepalive p) (p_new_handshake p) (p_handshake_attempts p).
Definition set_cookie_sender p x := mkPeer (p_id p) (p_config p) (p_session p) (p_handshake p)
  (p_last_seen_timestamp p) x (p_keepalive p) (p_send_another_keepalive p)
  (p_persistent_keepalive p) (p_new_handshake p) (p_handshake_attempts p).
Definition set_keepalive p x := mkPeer (p_id p) (p_config p) (p_session p) (p_handshake p)
  (p_last_seen_timestamp p) (p_cookie_sender p) x (p_send_another_keepalive p)
  (p_persistent_keepalive p) (p_new_handshake p) (p_handshake_attempts p).
Definition set_send_another p x := mkPeer (p_id p) (p_config p) (p_session p) (p_handshake p)
  (p_last_seen_timestamp p) (p_cookie_sender p) (p_keepalive p) x
  (p_persistent_keepalive p) (p_new_handshake p) (p_handshake_attempts p).
Definition set_persistent p x := mkPeer (p_id p) (p_config p) (p_session p) (p_handshake p)
  (p_last_seen_timestamp p) (p_cookie_sender p) (p_keepalive p) (p_send_another_keepalive p)
  x (p_new_handshake p) (p_handshake_attempts p).
Definition set_new_handshake p x := mkPeer (p_id p) (p_config p) (p_session p) (p_handshake p)
  (p_last_seen_timestamp p) (p_cookie_sender p) (p_keepalive p) (p_send_another_keepalive p)
  (p_persistent_keepalive p) x (p_handshake_attempts p).
Definition set_attempts p x := mkPeer (p_id p) (p_config p) (p_session p) (p_handshake p)
  (p_last_seen_timestamp p) (p_cookie_sender p) (p_keepalive p) (p_send_another_keepalive p)
  (p_persistent_keepalive p) (p_new_handshake p) x.

Definition set_cookies s x := mkEndpointState (my_key s) (my_cookie s) x (load s) (ids s)
  (timestamps s) (scheduler s).
Definition set_load s x := mkEndpointState (my_key s) (my_cookie s) (cookies s) x (ids s)
  (timestamps s) (scheduler s).
Definition set_ids s x := mkEndpointState (my_key s) (my_cookie s) (cookies s) (load s) x
  (timestamps s) (scheduler s).
Definition set_timestamps s x := mkEndpointState (my_key s) (my_cookie s) (cookies s) (load s)
  (ids s) x (scheduler s).
Definition set_scheduler s x := mkEndpointState (my_key s) (my_cookie s) (cookies s) (load s)
  (ids s) (timestamps s) x.
End Updates.

(** [to_peers.entry(peer).or_default()] followed by [append] or [push]. *)
Definition queue_packets (m : gmap Z (list (list Z))) (peer : Z) (packets : list (list Z))
    : gmap Z (list (list Z)) :=
  <[peer := default [] (m !! peer) ++ packets]> m.

(** ** The id map *)

Definition get_by_nodekey (m : IdMap) (key : list Z) : option Z := node_keys m !! key.

Definition get_by_session_id (m : IdMap) (id : Z) : option Z := sessions m !! id.

Definition idmap_add_peer (m : IdMap) (id : Z) (key : list Z) : IdMap * bool :=
  match node_keys m !! key with
  | Some _ => (m, false)
  | None => (mkIdMap (sessions m) (<[key := id]> (node_keys m)), true)
  end.

Definition remove_session (m : IdMap) (id : Z) : outcome IdMap :=
  _ ← unwrap (sessions m !! id);
  Ret (mkIdMap (delete id (sessions m)) (node_keys m)).

Definition remove_handshake_session (m : IdMap) (h : Handshake) : outcome IdMap :=
  m ← (match initiated_session_id h with Some id => remove_session m id | None => Ret m end);
  match responded_session_id h with Some id => remove_session m id | None => Ret m end.

Definition idmap_remove_peer (m : IdMap) (key : list Z) : outcome IdMap :=
  _ ← unwrap (node_keys m !! key);
  Ret (mkIdMap (sessions m) (delete key (node_keys m))).

(** ** Handshake load *)

Definition under_load (l : HandshakeLoad) (now : Z) : bool :=
  match under_load_until l with Some until => bool_decide (now < until) | None => false end.

(** [count += 1] on a [u32]: an overflow panics in a debug build and wraps in a
    release build. *)
Definition u32_succ (debug : bool) (n : Z) : outcome Z :=
  if decide (n + 1 < 2 ^ 32) then Ret (n + 1) else if debug then Panic else Ret 0.

Definition record_initiation (debug : bool) (l : HandshakeLoad) (now : Z)
    : outcome (HandshakeLoad * bool) :=
  let restart := mkHandshakeLoad (Some (now, 1)) (under_load_until l) in
  l ← match window l with
      | Some (start, count) =>
          if decide (duration_since now start < UNDER_LOAD_WINDOW) then
            count ← u32_succ debug count;
            if decide (UNDER_LOAD_INITIATIONS <= count) then
              until ← instant_add now UNDER_LOAD_WINDOW;
              Ret (mkHandshakeLoad (Some (start, count)) (Some until))
            else Ret (mkHandshakeLoad (Some (start, count)) (under_load_until l))
          else Ret restart
      | None => Ret restart
      end;
  Ret (l, under_load l now).

(** [peer.0.to_le_bytes()] *)
Definition cookie_binding (peer : Z) : list Z := le_bytes 4 peer.

(** ** The monad of peer methods *)

Record Ctx := mkCtx { self : Peer; est : EndpointState; out : Result_; tick : nat }.

Definition PM (A : Type) : Type := Ctx -> outcome (A * Ctx).

#[export] Instance PM_ret : MRet PM := fun _ a c => Ret (a, c).
#[export] Instance PM_bind : MBind PM := fun _ _ f m c =>
  match m c with Ret (a, c) => f a c | Panic => Panic end.

Definition lift {A} (m : outcome A) : PM A :=
  fun c => match m with Ret a => Ret (a, c) | Panic => Panic end.
Definition get_self : PM Peer := fun c => Ret (self c, c).
Definition put_self (p : Peer) : PM unit := fun c => Ret (tt, mkCtx p (est c) (out c) (tick c)).
Definition get_est : PM EndpointState := fun c => Ret (est c, c).
Definition put_est (s : EndpointState) : PM unit :=
  fun c => Ret (tt, mkCtx (self c) s (out c) (tick c)).
Definition modify_out (f : Result_ -> Result_) : PM unit :=
  fun c => Ret (tt, mkCtx (self c) (est c) (f (out c)) (tick c)).
Definition next_tick : PM nat := fun c => Ret (tick c, mkCtx (self c) (est c) (out c) (S (tick c))).

Section Methods.
Context `{!CryptoOps} (env : Env).

Definition instant_now : PM Z := t ← next_tick; mret (clock env t).
Definition system_now : PM Z := t ← next_tick; mret (wall env t).
Definition random_u64 : PM Z := t ← next_tick; mret (rand_u64 env t).
Definition random_bytes (n : nat) : PM (list Z) := t ← next_tick; mret (rand_bytes env t n).

(** [out.queue_to_peer(self.id).append(..)] *)
Definition queue_to_peer (packets : list (list Z)) : PM unit :=
  p ← get_self;
  modify_out (fun r => mkResult (to_local r) (queue_packets (to_peers r) (p_id p) packets)
    (sessions_established r)).

Definition queue_to_local (packets : list (list Z)) : PM unit :=
  p ← get_self;
  modify_out (fun r => mkResult (queue_packets (to_local r) (p_id p) packets) (to_peers r)
    (sessions_established r)).

Definition note_session_established : PM unit :=
  p ← get_self;
  modify_out (fun r => mkResult (to_local r) (to_peers r) (sessions_established r ++ [p_id p])).

Definition scheduler_add (tr : TimeRange) (ev : Event) : PM Handle :=
  s ← get_est;
  '(sched, h) ← lift (Scheduler.add (scheduler s) tr ev);
  _ ← put_est (set_scheduler s sched);
  mret h.

Definition handle_cancel (h : Handle) : PM unit :=
  s ← get_est;
  sched ← lift (Scheduler.cancel (scheduler s) h);
  put_est (set_scheduler s sched).

Definition cancel_opt (h : option Handle) : PM unit :=
  match h with Some h => handle_cancel h | None => mret tt end.

Definition ids_remove_session (id : Z) : PM unit :=
  s ← get_est;
  m ← lift (remove_session (ids s) id);
  put_est (set_ids s m).

(** [allocate_session]: the loop exits on a vacant id. *)
Definition allocate_session : PM Z :=
  p ← get_self;
  s ← get_est;
  t ← next_tick;
  let id := rand_session env t (sessions (ids s)) in
  _ ← lift (rassert (bool_decide (sessions (ids s) !! id = None)));
  _ ← put_est (set_ids s (mkIdMap (<[id := p_id p]> (sessions (ids s))) (node_keys (ids s))));
  mret id.

(** ** Session state *)

Definition take_session : PM SessionState :=
  p ← get_self;
  _ ← put_self (set_session p (SNone []));
  mret (p_session p).

Definition activate (next : SessionPair) (is_initiator : bool) : PM (list (list Z)) :=
  old ← take_session;
  p ← get_self;
  match old with
  | SNone queue =>
      '(snd, ret) ← lift (encrypt (send next) queue);
      _ ← put_self (set_session p (SActive (recv next) None snd is_initiator false));
      mret ret
  | SActive r r_prev _ _ _ =>
      _ ← (match r_prev with Some r_prev => ids_remove_session (rs_id r_prev) | None => mret tt end);
      _ ← put_self (set_session p (SActive (recv next) (Some r) (send next) is_initiator false));
      mret []
  end.

Definition keep_key_fresh_receiving (now : Z) : PM bool :=
  p ← get_self;
  match p_session p with
  | SActive r r_prev snd true false =>
      if needs_receive_rekey snd now
      then _ ← put_self (set_session p (SActive r r_prev snd true true)); mret true
      else mret false
  | _ => mret false
  end.

Definition deactivate : PM unit :=
  old ← take_session;
  match old with
  | SActive r r_prev _ _ _ =>
      _ ← ids_remove_session (rs_id r);
      match r_prev with Some r_prev => ids_remove_session (rs_id r_prev) | None => mret tt end
  | SNone _ => mret tt
  end.

(** [encrypt_keepalive] and [encrypt_priority]: one packet on the current
    keypair. *)
Definition encrypt_one (packet : list Z) : PM (option (list Z)) :=
  p ← get_self;
  match p_session p with
  | SActive r r_prev snd i l =>
      now ← instant_now;
      if ts_expired snd now then mret None
      else
        '(snd, packets) ← lift (encrypt snd [packet]);
        _ ← put_self (set_session p (SActive r r_prev snd i l));
        mret (list.last packets)
  | SNone _ => mret None
  end.

Definition encrypt_keepalive : PM (option (list Z)) := encrypt_one [].

Definition encrypt_priority (msg : list Z) : PM (option (list Z)) := encrypt_one msg.

Definition encrypt_or_queue (packets : list (list Z)) : PM (option (list (list Z))) :=
  p ← get_self;
  match p_session p with
  | SNone queue =>
      _ ← put_self (set_session p (SNone (append queue packets)));
      mret None
  | SActive r r_prev snd i l =>
      now ← instant_now;
      if ts_expired snd now then
        _ ← deactivate;
        p ← get_self;
        _ ← put_self (set_session p (SNone (new_with packets)));
        mret None
      else
        '(snd, packets) ← lift (encrypt snd packets);
        _ ← put_self (set_session p (SActive r r_prev snd i l));
        mret (Some packets)
  end.

(** [get_recv]: which of the two receive sessions has the id and is alive. *)
Definition get_recv (id : Z) : PM (option bool) :=
  p ← get_self;
  match p_session p with
  | SNone _ => mret None
  | SActive r r_prev _ _ _ =>
      cur ← (if decide (rs_id r = id) then now ← instant_now; mret (negb (rs_expired r now))
             else mret false);
      if (cur : bool) then mret (Some true)
      else
        match r_prev with
        | Some r_prev =>
            if decide (rs_id r_prev = id) then
              now ← instant_now;
              mret (if rs_expired r_prev now then None else Some false)
            else mret None
        | None => mret None
        end
  end.

(** [session.decrypt(packets)] on the session that [get_recv] found. *)
Definition session_decrypt (current : bool) (packets : list (list Z)) : PM (list (list Z)) :=
  p ← get_self;
  match p_session p, current with
  | SActive r r_prev snd i l, true =>
      '(r, packets) ← lift (decrypt (debug_assertions env) r packets);
      _ ← put_self (set_session p (SActive r r_prev snd i l));
      mret packets
  | SActive r (Some r_prev) snd i l, false =>
      '(r_prev, packets) ← lift (decrypt (debug_assertions env) r_prev packets);
      _ ← put_self (set_session p (SActive r (Some r_prev) snd i l));
      mret packets
  | _, _ => mret []
  end.

Definition needs_rotation : PM bool :=
  p ← get_self;
  match p_session p with
  | SNone _ => mret true
  | SActive _ _ snd _ _ => now ← instant_now; mret (stale snd now)
  end.

(** ** Timers *)

Definition rekey_retransmit_delay : PM Z :=
  r ← random_u64;
  mret (REKEY_TIMEOUT + millis (r mod REKEY_TIMEOUT_JITTER_MAX_MS)).

Definition new_handshake_delay : PM Z :=
  r ← random_u64;
  mret (KEEPALIVE_TIMEOUT + REKEY_TIMEOUT + millis (r mod REKEY_TIMEOUT_JITTER_MAX_MS)).

Definition arm_new_handshake : PM unit :=
  p ← get_self;
  match p_new_handshake p with
  | Some _ => mret tt
  | None =>
      now ← instant_now;
      d ← new_handshake_delay;
      target ← lift (instant_add now d);
      until ← lift (instant_add target HANDSHAKE_RETRANSMIT_COALESCE);
      tr ← lift (TimeRange_new target until);
      h ← scheduler_add tr (NewHandshakeTimeout (p_id p));
      put_self (set_new_handshake p (Some h))
  end.

Definition cancel_new_handshake : PM unit :=
  p ← get_self;
  _ ← put_self (set_new_handshake p None);
  cancel_opt (p_new_handshake p).

Definition schedule_keepalive : PM unit :=
  p ← get_self;
  match p_keepalive p with
  | Some _ => put_self (set_send_another p true)
  | None =>
      now ← instant_now;
      target ← lift (instant_add now KEEPALIVE_TIMEOUT);
      tr ← lift (TimeRange_new_around target (Session.secs 1));
      h ← scheduler_add tr (MaybeSendKeepalive (p_id p));
      put_self (set_keepalive p (Some h))
  end.

Definition arm_persistent_keepalive : PM unit :=
  p ← get_self;
  match effective_persistent_keepalive (p_config p) with
  | None => mret tt
  | Some interval =>
      now ← instant_now;
      deadline ← lift (instant_add now interval);
      let lead := Z.min (Session.secs 1) (interval / 4) in
      tr ← lift (TimeRange_new (Z.max (default now (checked_instant (deadline - lead))) now) deadline);
      h ← scheduler_add tr (PersistentKeepalive (p_id p));
      _ ← put_self (set_persistent p (Some h));
      cancel_opt (p_persistent_keepalive p)
  end.

(** ** Handshakes *)

Definition start_handshake (is_retry : bool) : PM unit :=
  p ← get_self;
  _ ← (if is_retry then mret tt else put_self (set_attempts p 0));
  session_id ← allocate_session;
  s ← get_est;
  sysnow ← system_now;
  ts ← lift (clock_now (timestamps s) sysnow);
  _ ← put_est (set_timestamps s ts);
  eph ← random_bytes 32;
  p ← get_self;
  '(sent, packet) ← lift (initiate_handshake (private (my_key s)) (cfg_key (p_config p))
                            session_id ts eph);
  mac_now ← instant_now;
  '(mac, packet) ← lift (write_macs (p_cookie_sender p) mac_now
                           (HandshakeInitiation_as_bytes packet));
  _ ← queue_to_peer [packet];
  now ← instant_now;
  d ← rekey_retransmit_delay;
  target ← lift (instant_add now d);
  until ← lift (instant_add target HANDSHAKE_RETRANSMIT_COALESCE);
  tr ← lift (TimeRange_new target until);
  timeout ← scheduler_add tr (HandshakeTimeout (p_id p));
  p ← get_self;
  h ← lift (set_initiated (debug_assertions env) (p_handshake p) sent timeout mac);
  put_self (set_handshake p h).

(** ** Peer methods *)

Definition peer_send (packets : list (list Z)) : PM unit :=
  r ← encrypt_or_queue packets;
  _ ← (match r with
       | Some packets =>
           _ ← (match packets with
                | [] => mret tt
                | _ => _ ← arm_persistent_keepalive; arm_new_handshake
                end);
           queue_to_peer packets
       | None => mret tt
       end);
  p ← get_self;
  if is_active (p_handshake p) then mret tt
  else
    rot ← needs_rotation;
    if (rot : bool) then start_handshake false else mret tt.

Definition peer_send_priority_message (msg : list Z) : PM bool :=
  match msg with
  | [] => mret false
  | _ =>
      if decide (MAX_PRIORITY_MESSAGE_CONTENT_SIZE < length msg)%nat then mret false
      else
        r ← encrypt_priority msg;
        match r with
        | None => mret false
        | Some packet =>
            _ ← arm_persistent_keepalive;
            _ ← arm_new_handshake;
            _ ← queue_to_peer [packet];
            mret true
        end
  end.

Definition recv_cookie_reply (packet : CookieReply) : PM unit :=
  p ← get_self;
  match hs_mac1 (p_handshake p) with
  | None => mret tt
  | Some mac1 =>
      now ← instant_now;
      snd ← lift (receive_cookie (p_cookie_sender p) now packet mac1);
      put_self (set_cookie_sender p snd)
  end.

Definition recv_handshake_response (packet : HandshakeResponse) : PM unit :=
  now ← instant_now;
  p ← get_self;
  s ← get_est;
  '(h, sched, session) ← lift (hs_finish_slot (p_handshake p) packet (cfg_psk (p_config p))
                                 (my_cookie s) now (scheduler s));
  _ ← put_self (set_handshake p h);
  _ ← put_est (set_scheduler s sched);
  match session with
  | None => mret tt
  | Some session =>
      p ← get_self;
      _ ← put_self (set_attempts p 0);
      _ ← cancel_new_handshake;
      packets ← activate session true;
      packets ← (match packets with
                 | [] => r ← encrypt_or_queue [[]]; lift (unwrap r)
                 | _ => mret packets
                 end);
      _ ← arm_persistent_keepalive;
      _ ← queue_to_peer packets;
      note_session_established
  end.

Definition recv_transport_data (session_id : Z) (packets : list (list Z)) : PM unit :=
  found ← get_recv session_id;
  match found with
  | Some current =>
      packets ← session_decrypt current packets;
      match packets with
      | [] => mret tt
      | _ =>
          _ ← cancel_new_handshake;
          let data_received := existsb (fun p => negb (bool_decide (p = []))) packets in
          _ ← queue_to_local packets;
          _ ← (if (data_received : bool) then schedule_keepalive else mret tt);
          now ← instant_now;
          rekey ← keep_key_fresh_receiving now;
          if (rekey : bool) then start_handshake false else mret tt
      end
  | None =>
      p ← get_self;
      now ← instant_now;
      '(h, r) ← lift (hs_confirm (debug_assertions env) (p_handshake p) session_id packets now);
      _ ← put_self (set_handshake p h);
      match r with
      | None => mret tt
      | Some (session, packets) =>
          _ ← cancel_new_handshake;
          _ ← queue_to_local packets;
          _ ← schedule_keepalive;
          packets_for_peer ← activate session false;
          _ ← arm_persistent_keepalive;
          _ ← (match packets_for_peer with [] => mret tt | _ => queue_to_peer packets_for_peer end);
          note_session_established
      end
  end.

(** The [retain_mut] of [recv]: handles the handshake messages, keeps the
    transport data. *)
Fixpoint recv_retain (packets : list (list Z)) : PM (list (list Z)) :=
  match packets with
  | [] => mret []
  | packet :: packets =>
      keep ← (match Message_try_from packet with
              | None => mret false
              | Some (M_TransportDataHeader _) => mret true
              | Some (M_HandshakeResponse resp) => _ ← recv_handshake_response resp; mret false
              | Some (M_CookieReply resp) => _ ← recv_cookie_reply resp; mret false
              | Some (M_HandshakeInitiation _) =>
                  _ ← lift (rassert (negb (debug_assertions env))); mret false
              end);
      rest ← recv_retain packets;
      mret (if (keep : bool) then packet :: rest else rest)
  end.

Definition peer_recv (session_id : Z) (packets : list (list Z)) : PM unit :=
  packets ← recv_retain packets;
  recv_transport_data session_id packets.

Definition respond_to_handshake (handshake : ReceivedHandshake) : PM unit :=
  p ← get_self;
  let replay := match p_last_seen_timestamp p with
                | Some timestamp => negb (bool_decide (tai_lt timestamp (rh_timestamp handshake)))
                | None => false
                end in
  if replay then mret tt
  else
    _ ← put_self (set_last_seen p (Some (rh_timestamp handshake)));
    _ ← cancel_new_handshake;
    session_id ← allocate_session;
    p ← get_self;
    now ← instant_now;
    eph ← random_bytes 32;
    mac_now ← instant_now;
    '(h, packet, displaced) ← lift (hs_respond (p_handshake p) session_id handshake eph
                                      (cfg_psk (p_config p)) (p_cookie_sender p) now mac_now);
    _ ← put_self (set_handshake p h);
    _ ← (match displaced with Some old_id => ids_remove_session old_id | None => mret tt end);
    queue_to_peer [packet].

Definition new_handshake_timeout : PM unit :=
  p ← get_self;
  _ ← put_self (set_new_handshake p None);
  if is_active (p_handshake p) then mret tt else start_handshake false.

Definition handshake_timeout : PM unit :=
  p ← get_self;
  if negb (is_active (p_handshake p)) then mret tt
  else
    s ← get_est;
    m ← lift (remove_handshake_session (ids s) (p_handshake p));
    _ ← put_est (set_ids s m);
    _ ← put_self (set_handshake p Handshake_none);
    if decide (MAX_TIMER_HANDSHAKES <= p_handshake_attempts p) then
      _ ← deactivate;
      p ← get_self;
      _ ← put_self (set_attempts p 0);
      cancel_new_handshake
    else
      p ← get_self;
      _ ← put_self (set_attempts p (p_handshake_attempts p + 1));
      start_handshake true.

Definition send_keepalive : PM unit :=
  r ← encrypt_keepalive;
  match r with
  | None => mret tt
  | Some packet =>
      _ ← queue_to_peer [packet];
      p ← get_self;
      _ ← put_self (set_keepalive p None);
      if p_send_another_keepalive p then
        _ ← schedule_keepalive;
        p ← get_self;
        put_self (set_send_another p false)
      else mret tt
  end.

Definition send_persistent_keepalive : PM unit :=
  p ← get_self;
  _ ← put_self (set_persistent p None);
  r ← encrypt_keepalive;
  match r with
  | None => mret tt
  | Some packet =>
      _ ← queue_to_peer [packet];
      arm_persistent_keepalive
  end.

Definition cancel_all_timers : PM unit :=
  p ← get_self;
  _ ← put_self (set_keepalive p None);
  _ ← cancel_opt (p_keepalive p);
  p ← get_self;
  _ ← put_self (set_persistent p None);
  _ ← cancel_opt (p_persistent_keepalive p);
  cancel_new_handshake.

Definition shutdown : PM unit :=
  _ ← deactivate;
  p ← get_self;
  s ← get_est;
  m ← lift (remove_handshake_session (ids s) (p_handshake p));
  _ ← put_est (set_ids s m);
  _ ← put_self (set_handshake p Handshake_none);
  s ← get_est;
  sched ← lift (hs_cancel (p_handshake p) (scheduler s));
  _ ← put_est (set_scheduler s sched);
  cancel_all_timers.
End Methods.

Definition Peer_new `{!CryptoOps} (id : Z) (config : PeerConfig) : Peer :=
  mkPeer id config (SNone []) Handshake_none None (MACSender_new (cfg_key config)) None false
    None None 0.

(** ** The endpoint *)

Record ECtx := mkECtx { ep : Endpoint; eout : Result_; etick : nat }.

Definition EM (A : Type) : Type := ECtx -> outcome (A * ECtx).

#[export] Instance EM_ret : MRet EM := fun _ a c => Ret (a, c).
#[export] Instance EM_bind : MBind EM := fun _ _ f m c =>
  match m c with Ret (a, c) => f a c | Panic => Panic end.

Definition elift {A} (m : outcome A) : EM A :=
  fun c => match m with Ret a => Ret (a, c) | Panic => Panic end.
Definition get_ep : EM Endpoint := fun c => Ret (ep c, c).
Definition put_ep (e : Endpoint) : EM unit := fun c => Ret (tt, mkECtx e (eout c) (etick c)).
Definition enext_tick : EM nat := fun c => Ret (etick c, mkECtx (ep c) (eout c) (S (etick c))).

(** [out.queue_to_peer(peer).push(..)] *)
Definition equeue_to_peer (peer : Z) (packets : list (list Z)) : EM unit := fun c =>
  let r := eout c in
  Ret (tt, mkECtx (ep c) (mkResult (to_local r) (queue_packets (to_peers r) peer packets)
    (sessions_established r)) (etick c)).

(** Run a method on a peer that is not in the map (a fresh or a removed one). *)
Definition run_peer {A} (p : Peer) (m : PM A) : EM (A * Peer) := fun c =>
  match m (mkCtx p (e_state (ep c)) (eout c) (etick c)) with
  | Ret (a, c') =>
      Ret ((a, self c'), mkECtx (mkEndpoint (est c') (e_peers (ep c))) (out c') (tick c'))
  | Panic => Panic
  end.

(** [self.peers.get_mut(&id)] and a method on the peer. *)
Definition with_peer (id : Z) (m : PM unit) : EM unit :=
  e ← get_ep;
  match e_peers e !! id with
  | None => mret tt
  | Some p =>
      '(_, p) ← run_peer p m;
      e ← get_ep;
      put_ep (mkEndpoint (e_state e) (<[id := p]> (e_peers e)))
  end.

Definition run_call {A} (e : Endpoint) (m : EM A) : outcome (A * Endpoint * Result_) :=
  '(a, c) ← m (mkECtx e Result_default 0);
  Ret (a, ep c, eout c).

Definition Endpoint_new `{!CryptoOps} (key : NodeKeyPair) : Endpoint :=
  mkEndpoint (mkEndpointState key (MACReceiver_new (public key)) (CookieGenerator_new (public key))
    (mkHandshakeLoad None None) (mkIdMap ∅ ∅) clock_new Scheduler_default) ∅.

Section Operations.
Context `{!CryptoOps} (env : Env).

Definition upsert_peer_body (id : Z) (cfg : PeerConfig) : EM (option PeerConfig) :=
  e ← get_ep;
  _ ← elift (rassert (match get_by_nodekey (ids (e_state e)) (cfg_key cfg) with
                      | Some owner => bool_decide (owner = id)
                      | None => true
                      end));
  match e_peers e !! id with
  | Some peer =>
      if decide (cfg_key (p_config peer) <> cfg_key cfg \/ cfg_psk (p_config peer) <> cfg_psk cfg)
      then
        _ ← put_ep (mkEndpoint (e_state e) (<[id := Peer_new id cfg]> (e_peers e)));
        '(_, old) ← run_peer peer shutdown;
        e ← get_ep;
        m ← elift (idmap_remove_peer (ids (e_state e)) (cfg_key (p_config old)));
        let '(m, added) := idmap_add_peer m id (cfg_key cfg) in
        _ ← elift (rassert added);
        _ ← put_ep (mkEndpoint (set_ids (e_state e) m) (e_peers e));
        mret (Some (p_config old))
      else
        let prev_interval := effective_persistent_keepalive (p_config peer) in
        let new_interval := effective_persistent_keepalive cfg in
        let peer' := set_config peer cfg in
        _ ← put_ep (mkEndpoint (e_state e) (<[id := peer']> (e_peers e)));
        _ ← (if decide (new_interval = prev_interval) then mret tt
             else
               with_peer id (
                 match new_interval, p_session peer with
                 | Some _, SActive _ _ _ _ _ => arm_persistent_keepalive env
                 | _, _ =>
                     p ← get_self;
                     _ ← put_self (set_persistent p None);
                     cancel_opt (p_persistent_keepalive p)
                 end));
        mret (Some (p_config peer))
  | None =>
      let '(m, added) := idmap_add_peer (ids (e_state e)) id (cfg_key cfg) in
      _ ← elift (rassert added);
      _ ← put_ep (mkEndpoint (set_ids (e_state e) m) (<[id := Peer_new id cfg]> (e_peers e)));
      mret None
  end.

Definition remove_peer_body (peer : Z) : EM bool :=
  e ← get_ep;
  match e_peers e !! peer with
  | None => mret false
  | Some p =>
      _ ← put_ep (mkEndpoint (e_state e) (delete peer (e_peers e)));
      '(_, p) ← run_peer p shutdown;
      e ← get_ep;
      m ← elift (idmap_remove_peer (ids (e_state e)) (cfg_key (p_config p)));
      _ ← put_ep (mkEndpoint (set_ids (e_state e) m) (e_peers e));
      mret true
  end.

Fixpoint send_body (packets : list (Z * list (list Z))) : EM unit :=
  match packets with
  | [] => mret tt
  | (peer_id, ps) :: packets =>
      _ ← with_peer peer_id (peer_send env ps);
      send_body packets
  end.

Definition send_priority_message_body (peer_id : Z) (msg : list Z) : EM unit :=
  with_peer peer_id (_ ← peer_send_priority_message env msg; mret tt).

(** [send_cookie_reply]: [rnd] and [nonce] are its random draws. *)
Definition send_cookie_reply (from : Z) (init : HandshakeInitiation) (binding : list Z) (now : Z)
    : EM unit :=
  e ← get_ep;
  t1 ← enext_tick;
  t2 ← enext_tick;
  '(g, reply) ← elift (create_reply (cookies (e_state e)) (rand_bytes env t1 32)
                         (rand_bytes env t2 24) (HandshakeInitiation_as_bytes init)
                         (hi_sender_id init) binding now);
  _ ← put_ep (mkEndpoint (set_cookies (e_state e) g) (e_peers e));
  match reply with
  | None => mret tt
  | Some reply => equeue_to_peer from [CookieReply_as_bytes reply]
  end.

Definition process_one_handshake (from : option Z) (packet : list Z) : EM unit :=
  match Message_try_from packet with
  | Some (M_HandshakeInitiation init) =>
      t ← enext_tick;
      let now := clock env t in
      e ← get_ep;
      '(l, under) ← elift (record_initiation (debug_assertions env) (load (e_state e)) now);
      _ ← put_ep (mkEndpoint (set_load (e_state e) l) (e_peers e));
      if negb (verify_macs (my_cookie (e_state e)) (HandshakeInitiation_as_bytes init)) then mret tt
      else
        let challenge :=
          match under, from with
          | true, Some from =>
              let binding := cookie_binding from in
              if check_mac2 (cookies (e_state e)) (HandshakeInitiation_as_bytes init) binding now
              then None else Some (from, binding)
          | _, _ => None
          end in
        match challenge with
        | Some (from, binding) => send_cookie_reply from init binding now
        | None =>
            r ← elift (ReceivedHandshake_new init (my_key (e_state e)) (my_cookie (e_state e)));
            match r with
            | None => mret tt
            | Some handshake =>
                match get_by_nodekey (ids (e_state e)) (rh_peer_static handshake) with
                | None => mret tt
                | Some peer_id => with_peer peer_id (respond_to_handshake env handshake)
                end
            end
        end
  | _ => mret tt
  end.

(** The key of [into_group_map_by]. *)
Definition group_key (packet : list Z) : Z :=
  default 0 (Message_try_from packet ≫= receiver_id).

Fixpoint process_handshakes (from : option Z) (packets : list (list Z)) : EM unit :=
  match packets with
  | [] => mret tt
  | packet :: packets => _ ← process_one_handshake from packet; process_handshakes from packets
  end.

(** The groups of the map, visited in its iteration order. *)
Fixpoint process_groups (packets : list (list Z)) (order : list Z) : EM unit :=
  match order with
  | [] => mret tt
  | session_id :: order =>
      e ← get_ep;
      _ ← (match get_by_session_id (ids (e_state e)) session_id with
           | None => mret tt
           | Some peer_id =>
               with_peer peer_id
                 (peer_recv env session_id (filter (fun p => group_key p = session_id) packets))
           end);
      process_groups packets order
  end.

(** [recv_from]: [order] is the iteration order of the hash map of groups. *)
Definition recv_from_body (from : option Z) (packets : list (list Z)) (order : list Z) : EM unit :=
  _ ← process_handshakes from (filter (fun p => group_key p = 0) packets);
  process_groups packets order.

Definition handle_event (ev : Event) : EM unit :=
  match ev with
  | HandshakeTimeout peer_id => with_peer peer_id (handshake_timeout env)
  | MaybeSendKeepalive peer_id => with_peer peer_id (send_keepalive env)
  | PersistentKeepalive peer_id => with_peer peer_id (send_persistent_keepalive env)
  | NewHandshakeTimeout peer_id => with_peer peer_id (new_handshake_timeout env)
  end.

Fixpoint handle_events (evs : list Event) : EM unit :=
  match evs with
  | [] => mret tt
  | ev :: evs => _ ← handle_event ev; handle_events evs
  end.

Definition dispatch_events_body (now : Z) : EM unit :=
  e ← get_ep;
  let '(sched, evs) := Scheduler.dispatch (scheduler (e_state e)) now in
  _ ← put_ep (mkEndpoint (set_scheduler (e_state e) sched) (e_peers e));
  handle_events evs.

(** The public operations: the answer, the new endpoint and the result. *)
Definition upsert_peer (e : Endpoint) (id : Z) (cfg : PeerConfig) :=
  run_call e (upsert_peer_body id cfg).
Definition remove_peer (e : Endpoint) (peer : Z) := run_call e (remove_peer_body peer).
Definition endpoint_send (e : Endpoint) (packets : list (Z * list (list Z))) :=
  run_call e (send_body packets).
Definition send_priority_message (e : Endpoint) (peer_id : Z) (msg : list Z) :=
  run_call e (send_priority_message_body peer_id msg).
Definition recv_from (e : Endpoint) (from : option Z) (packets : list (list Z)) (order : list Z) :=
  run_call e (recv_from_body from packets order).
Definition dispatch_events (e : Endpoint) (now : Z) := run_call e (dispatch_events_body now).
End Operations.

Definition next_event (e : Endpoint) : outcome (option TimeRange) :=
  next_dispatch_range (scheduler (e_state e)).

Definition peer_key (e : Endpoint) (id : Z) : option (list Z) :=
  (fun p => cfg_key (p_config p)) <$> e_peers e !! id.

Definition peer_id (e : Endpoint) (key : list Z) : option Z :=
  get_by_nodekey (ids (e_state e)) key.
