(* ===== verification/EndpointInv.v ===== *)
(** * EndpointInv: what an endpoint maintains

    The bookkeeping of the endpoint: the session ids that its peers own (two
    receive sessions, the initiation in flight, the tentative session) are
    allocated in the id map under the peer's handle, distinct, and, where no
    initiation is overwritten, are all of it.  From this follows that no
    operation panics in a release build. *)

From S2P Require Import Replay Prelude Bytes Crypto Messages Tai64 Session Macs Scheduler Handshake Endpoint.
From stdpp Require Import base list gmap sorting.

Local Open Scope Z_scope.

(** ** Components that cannot panic *)

(** Instants in the lower half of the range, to which a duration shorter than
    half of it can be added. *)
Definition HALF_RANGE : Z := Session.secs (2 ^ 62).
Definition instant_early (t : Z) : Prop := INSTANT_MIN <= t < HALF_RANGE.

Lemma early_add t d : instant_early t -> 0 <= d < HALF_RANGE -> INSTANT_MIN <= t + d <= INSTANT_MAX.
Proof. unfold instant_early, HALF_RANGE, INSTANT_MIN, INSTANT_MAX, Session.secs. lia. Qed.

Definition recv_ok (r : ReceiveSession) : Prop := exists seen, Replay.replay_rel (rs_window r) seen.
Definition snd_ok (s : TransmitSession) : Prop := 0 <= ts_nonce s <= U64_MAX.

Section Totality.
Context `{!CryptoOps, !CryptoLaws}.

Lemma encrypt_loop_total s ps it :
  Forall packet_fits ps -> exists fs, encrypt_loop s ps it = Ret fs /\ length fs = length ps.
Proof.
  intros Hps. revert it. induction Hps as [|p ps Hp _ IH]; intros it; [by exists []|].
  cbn [encrypt_loop]. destruct (nonce_next it) as [[n it']|]; [|by eexists].
  destruct (encrypt_packet_frame s n p Hp) as (f & -> & _). mrun.
  destruct (IH it') as (fs & -> & Hl). mrun. exists (f :: fs). split; [done|]. simpl. by f_equal.
Qed.

Lemma encrypt_total s ps :
  snd_ok s -> Forall packet_fits ps ->
  exists s' fs, encrypt s ps = Ret (s', fs) /\ snd_ok s' /\ length fs = length ps.
Proof.
  intros Hs Hps. unfold encrypt. pose proof (batch_range (ts_nonce s) (length ps) Hs) as Hb.
  destruct (batch (ts_nonce s) (length ps)) as [it e]. simpl in Hb.
  destruct (encrypt_loop_total s ps it Hps) as (fs & -> & Hl). mrun.
  eexists _, fs. split; [done|]. split; [|done]. unfold snd_ok in *. simpl. lia.
Qed.

(** [decrypt] panics only on the debug assertion. *)
Lemma decrypt_one_total dbg r pkt :
  recv_ok r -> bytes_ok pkt ->
  match decrypt_one dbg r pkt with
  | Ret (r', _) => recv_ok r' /\ rs_id r' = rs_id r
  | Panic => dbg = true
  end.
Proof.
  intros [seen Hrel] Hpkt. unfold decrypt_one.
  destruct (TransportDataHeader_try_from_prefix pkt) as [[h body]|] eqn:Hp; [|by split; [eexists|]].
  apply td_parse_bytes in Hp as (_ & [Hn _] & _); [|done].
  case_decide; [destruct dbg; [done|by split; [eexists|]]|].
  rewrite (check_spec _ seen) by done. mrun. case_bool_decide as Hf; cbn [negb].
  - destruct (chacha_open _ _ _ _) as [plain|]; [|by split; [eexists|]].
    destruct (set_accepts _ seen _ Hrel Hn Hf) as (w & -> & _ & Hw). mrun.
    split; [by eexists|done].
  - split; [by eexists|done].
Qed.

Lemma decrypt_total dbg r ps :
  recv_ok r -> Forall bytes_ok ps ->
  match decrypt dbg r ps with
  | Ret (r', _) => recv_ok r' /\ rs_id r' = rs_id r
  | Panic => dbg = true
  end.
Proof.
  intros Hr Hps. revert r Hr. induction Hps as [|p ps Hp _ IH]; intros r Hr; [done|].
  cbn [decrypt]. pose proof (decrypt_one_total dbg r p Hr Hp) as H1.
  destruct (decrypt_one dbg r p) as [[r1 o]|]; [|done]. destruct H1 as [Hr1 Hid1]. mrun.
  specialize (IH r1 Hr1). destruct (decrypt dbg r1 ps) as [[r2 rest]|]; [|done]. mrun.
  destruct IH as [? ?]. split; [done|congruence].
Qed.

(** A new pair of sessions. *)
Definition pair_ok (p : SessionPair) : Prop := snd_ok (send p) /\ recv_ok (recv p).

Lemma new_pair_ok k k' id id' t t' :
  pair_ok (mkSessionPair (TransmitSession_new k id t) (ReceiveSession_new k' id' t')).
Proof.
  split; [unfold snd_ok, U64_MAX; simpl; lia|]. exists ∅. apply replay_default_rel.
Qed.

Lemma initiate_total a b id ts e :
  exists sent init, initiate_handshake a b id ts e = Ret (sent, init) /\ sh_id sent = id /\
    (32 <= length (HandshakeInitiation_as_bytes init))%nat.
Proof.
  unfold initiate_handshake.
  destruct (mix_key_total (mix_hash (HandshakeState_new b) (x25519_pub e)) (x25519_pub e))
    as (st1 & c1 & -> & _). mrun.
  destruct (mix_key_total st1 (x25519 e b)) as (st2 & c2 & -> & Hc2). mrun.
  destruct (hs_encrypt_decrypt st2 c2 (x25519_pub a) Hc2) as (st3 & d3 & E3 & _ & L3 & _).
  { rewrite x25519_pub_len. unfold P_MAX. lia. }
  rewrite x25519_pub_len in E3. change (32 + 16)%nat with 48%nat in E3. rewrite E3. mrun.
  destruct (mix_key_total st3 (x25519 a b)) as (st4 & c4 & -> & Hc4). mrun.
  destruct (hs_encrypt_decrypt st4 c4 (tai_bytes ts) Hc4) as (st5 & d5 & E5 & _ & L5 & _).
  { rewrite tai_bytes_len. unfold P_MAX. lia. }
  rewrite tai_bytes_len in E5. change (12 + 16)%nat with 28%nat in E5. rewrite E5. mrun. eexists _, _. split; [done|]. split; [done|].
  rewrite hi_bytes_split. cbn [hi_mac1 hi_mac2]. rewrite !length_app. unfold zeros.
  rewrite !length_replicate. lia.
Qed.

Lemma write_macs_total s t pkt :
  (32 <= length pkt)%nat -> exists mac pkt', write_macs s t pkt = Ret (mac, pkt').
Proof. intros H1. destruct (write_macs_form s t pkt H1) as (d & m & _ & _ & -> & _). by eexists _, _. Qed.

Lemma rh_respond_total rh f id psk s t tm :
  exists pair pkt, rh_respond rh f id psk s t tm = Ret (pair, pkt) /\ pair_ok pair /\
    rs_id (recv pair) = id.
Proof.
  unfold rh_respond.
  destruct (mix_key_total (mix_hash (rh_handshake rh) (x25519_pub f)) (x25519_pub f))
    as (st1 & c1 & -> & _). mrun.
  destruct (mix_key_total st1 (x25519 f (rh_peer_ephemeral rh))) as (st2 & c2 & -> & _). mrun.
  destruct (mix_key_total st2 (x25519 f (rh_peer_static rh))) as (st3 & c3 & -> & _). mrun.
  destruct (mix_psk_total st3 psk) as (st4 & c4 & -> & Hc4). mrun.
  destruct (hs_encrypt_decrypt st4 c4 [] Hc4) as (st5 & d5 & E5 & _).
  { unfold P_MAX. simpl. lia. }
  simpl in E5. rewrite E5. mrun.
  destruct (write_macs_total s tm (HandshakeResponse_as_bytes (mkHandshakeResponse
    MT_HandshakeResponse (zeros 3) id (rh_send_id rh) (x25519_pub f) d5 (zeros 16) (zeros 16))))
    as (mac & pkt & ->).
  { rewrite hr_bytes_split. cbn [hr_mac1 hr_mac2]. rewrite !length_app. unfold zeros.
    rewrite !length_replicate. lia. }
  mrun. eexists _, _. split; [done|]. split; [apply new_pair_ok|done].
Qed.

(** Decryption of a field of the right width. *)
Lemma hs_decrypt_total st c ct n :
  cipher st = Some c -> length ct = (n + 16)%nat -> exists r, hs_decrypt st ct n = Ret r.
Proof.
  intros Hc Hl. unfold hs_decrypt, usub. rewrite decide_True by lia. mrun.
  rewrite bool_decide_eq_true_2 by lia. mrun. rewrite Hc. mrun.
  destruct (chacha_open _ _ _ _); by eexists.
Qed.

Lemma received_total init kp macs :
  length (hi_static_pub_sealed init) = 48%nat -> length (hi_timestamp_sealed init) = 28%nat ->
  exists r, ReceivedHandshake_new init kp macs = Ret r.
Proof.
  intros Hs Ht. unfold ReceivedHandshake_new. destruct (negb _); [by eexists|].
  destruct (mix_key_total (mix_hash (HandshakeState_new (public kp)) (hi_ephemeral_pub init))
    (hi_ephemeral_pub init)) as (st1 & c1 & -> & _). mrun.
  destruct (mix_key_total st1 (x25519 (private kp) (hi_ephemeral_pub init)))
    as (st2 & c2 & -> & Hc2). mrun.
  destruct (hs_decrypt_total st2 c2 (hi_static_pub_sealed init) 32 Hc2 Hs) as [[[st3 ps]|] ->];
    mrun; [|by eexists].
  destruct (mix_key_total st3 (x25519 (private kp) ps)) as (st4 & c4 & -> & Hc4). mrun.
  destruct (hs_decrypt_total st4 c4 (hi_timestamp_sealed init) 12 Hc4 Ht) as [[[st5 tsb]|] ->];
    mrun; by eexists.
Qed.

Lemma finish_keys_total sent resp psk :
  length (hr_auth_tag resp) = 16%nat -> exists k, finish_keys sent resp psk = Ret k.
Proof.
  intros Hl. unfold finish_keys.
  destruct (mix_key_total (mix_hash (sh_handshake sent) (hr_ephemeral_pub resp))
    (hr_ephemeral_pub resp)) as (st1 & c1 & -> & _). mrun.
  destruct (mix_key_total st1 (x25519 (sh_my_ephemeral sent) (hr_ephemeral_pub resp)))
    as (st2 & c2 & -> & _). mrun.
  destruct (mix_key_total st2 (x25519 (sh_my_static sent) (hr_ephemeral_pub resp)))
    as (st3 & c3 & -> & _). mrun.
  destruct (mix_psk_total st3 psk) as (st4 & c4 & -> & Hc4). mrun.
  destruct (hs_decrypt_total st4 c4 (hr_auth_tag resp) 0 Hc4 Hl) as [r ->]. mrun. by eexists.
Qed.

Lemma receive_cookie_total s t reply mac :
  length (cr_cookie_sealed reply) = 32%nat -> instant_early t ->
  exists s', receive_cookie s t reply mac = Ret s'.
Proof.
  intros Hl Ht. unfold receive_cookie. destruct (xchacha_open _ _ _ _) as [k|] eqn:E; [|by eexists].
  apply xchacha_open_len in E. rewrite bool_decide_eq_true_2 by lia. mrun.
  rewrite instant_add_ok; [by eexists|]. by apply early_add.
Qed.

Lemma create_reply_total g rnd nonce msg receiver binding now :
  exists g' r, create_reply g rnd nonce msg receiver binding now = Ret (g', r).
Proof.
  unfold create_reply. destruct (from_suffix 32 msg) as [[d t]|]; [|by eexists _, _].
  unfold cookie. destruct (secret g) as [[v sa]|] eqn:E; [case_bool_decide|]; cbn [secret];
    rewrite ?E; mrun; destruct (xchacha_seal _ _ _ _); [case_decide| |case_decide| |case_decide|];
    by eexists _, _.
Qed.
End Totality.

(** ** Widths of parsed fields *)

Lemma hi_parse_widths raw init :
  HandshakeInitiation_try_from raw = Some init ->
  length (hi_static_pub_sealed init) = 48%nat /\ length (hi_timestamp_sealed init) = 28%nat.
Proof.
  unfold HandshakeInitiation_try_from. case_decide as Hlen; [|done].
  cbn [split_fields hi_layout]. destruct (MessageType_of _); [|done]. cbn [mbind option_bind].
  intros [= <-]. cbn [hi_static_pub_sealed hi_timestamp_sealed].
  rewrite !length_take, !length_drop. lia.
Qed.

Lemma hr_parse_widths raw resp :
  HandshakeResponse_try_from raw = Some resp -> length (hr_auth_tag resp) = 16%nat.
Proof.
  unfold HandshakeResponse_try_from. case_decide as Hlen; [|done].
  cbn [split_fields hr_layout]. destruct (MessageType_of _); [|done]. cbn [mbind option_bind].
  intros [= <-]. cbn [hr_auth_tag]. rewrite !length_take, !length_drop. lia.
Qed.

Lemma cr_parse_widths raw reply :
  CookieReply_try_from raw = Some reply -> length (cr_cookie_sealed reply) = 32%nat.
Proof.
  unfold CookieReply_try_from. case_decide as Hlen; [|done].
  cbn [split_fields cr_layout]. destruct (MessageType_of _); [|done]. cbn [mbind option_bind].
  intros [= <-]. cbn [cr_cookie_sealed]. rewrite !length_take, !length_drop. lia.
Qed.

(** The widths of the sealed fields of a parsed message. *)
Lemma message_widths raw msg :
  Message_try_from raw = Some msg ->
  match msg with
  | M_HandshakeInitiation m =>
      length (hi_static_pub_sealed m) = 48%nat /\ length (hi_timestamp_sealed m) = 28%nat
  | M_HandshakeResponse m => length (hr_auth_tag m) = 16%nat
  | M_TransportDataHeader _ => True
  | M_CookieReply m => length (cr_cookie_sealed m) = 32%nat
  end.
Proof.
  unfold Message_try_from. destruct (head raw) as [b|]; [|done]. cbn [mbind option_bind].
  destruct (MessageType_of b) as [[]|]; cbn [mbind option_bind]; [..|done].
  - intros (m & H & ->)%fmap_Some. by apply hi_parse_widths in H.
  - intros (m & H & ->)%fmap_Some. by apply hr_parse_widths in H.
  - intros (m & H & ->)%fmap_Some. by apply cr_parse_widths in H.
  - destruct (TransportDataHeader_try_from_prefix raw) as [[]|]; [|done]. by intros [= <-].
Qed.

(** ** The invariant of a peer method *)

Definition session_ids (s : SessionState) : list Z :=
  match s with
  | SNone _ => []
  | SActive r r_prev _ _ _ => rs_id r :: from_option (fun r => [rs_id r]) [] r_prev
  end.

Definition hs_ids (h : Handshake) : list Z :=
  option_list (initiated_session_id h) ++ option_list (responded_session_id h).

(** The session ids that a peer owns. *)
Definition owned (p : Peer) : list Z := session_ids (p_session p) ++ hs_ids (p_handshake p).

Definition session_ok (s : SessionState) : Prop :=
  match s with
  | SNone queue => Forall packet_fits queue
  | SActive r r_prev snd _ _ => recv_ok r /\ from_option recv_ok True r_prev /\ snd_ok snd
  end.

(** A keepalive interval is a duration shorter than [2 ^ 62] seconds. *)
Definition cfg_ok (cfg : PeerConfig) : Prop :=
  forall d, cfg_persistent_keepalive_interval cfg = Some d -> 0 <= d < HALF_RANGE.

Definition peer_ok (p : Peer) : Prop :=
  cfg_ok (p_config p) /\ session_ok (p_session p) /\
  from_option pair_ok True (responded (p_handshake p)).

(** What a call relies on: the system clock is within 2^59 seconds of the
    epoch, [allocate_session] stops on a vacant id, the monotonic clock shows
    less than [2 ^ 62] seconds, and its readings within a call are at most
    [REJECT_AFTER_TIME], 180 seconds, apart.  The last one is not a guarantee of
    the source: see [stalled_handshake_panics]. *)
Class env_ok (env : Env) : Prop := {
  env_wall t : time_ok (wall env t);
  env_session t m : m !! rand_session env t m = None;
  env_instant t : instant_early (clock env t);
  env_clock t t' : clock env t' - clock env t <= REJECT_AFTER_TIME;
}.

Section Methods.
Context `{!CryptoOps, !CryptoLaws} (env : Env).

(** The state [c] of a method that was entered in [c0]: [X] are the ids that
    the method holds itself, [n] bounds the last timestamp.  With debug
    assertions the ids are exactly those mapped to the peer. *)
Record Inv (c0 : Ctx) (n : Z) (X : list Z) (c : Ctx) : Prop := {
  inv_peer : peer_ok (self c);
  inv_id : p_id (self c) = p_id (self c0);
  inv_config : p_config (self c) = p_config (self c0);
  inv_sched : sched_wf (scheduler (est c));
  inv_tai : tai_ok n (timestamps (est c));
  inv_tai_low : 2 ^ 63 <= n;
  inv_nodup : NoDup (owned (self c) ++ X);
  inv_mapped s : s ∈ owned (self c) ++ X -> sessions (ids (est c)) !! s = Some (p_id (self c0));
  inv_exact : debug_assertions env = true ->
    forall s, sessions (ids (est c)) !! s = Some (p_id (self c0)) -> s ∈ owned (self c) ++ X;
  inv_frame s q : q <> p_id (self c0) ->
    (sessions (ids (est c)) !! s = Some q <-> sessions (ids (est c0)) !! s = Some q);
  inv_keys : node_keys (ids (est c)) = node_keys (ids (est c0));
  inv_key : my_key (est c) = my_key (est c0);
}.

Lemma submseteq_NoDup (l k : list Z) : l ⊆+ k -> NoDup k -> NoDup l.
Proof. intros [k' E]%submseteq_Permutation. rewrite E. by intros [? _]%NoDup_app. Qed.

(** Panics are those of debug assertions. *)
Definition wp {A} (m : PM A) (c : Ctx) (Q : A -> Ctx -> Prop) : Prop :=
  match m c with Ret (a, c') => Q a c' | Panic => debug_assertions env = true end.

Lemma wp_bind {A B} (m : PM A) (k : A -> PM B) c Q :
  wp m c (fun a c' => wp (k a) c' Q) -> wp (m ≫= k) c Q.
Proof. unfold wp, mbind, PM_bind. by destruct (m c) as [[a c']|]. Qed.

Lemma wp_ret {A} (a : A) c (Q : A -> Ctx -> Prop) : Q a c -> wp (mret a) c Q.
Proof. done. Qed.

Lemma wp_get_self c Q : Q (self c) c -> wp get_self c Q.
Proof. done. Qed.

Lemma wp_get_est c Q : Q (est c) c -> wp get_est c Q.
Proof. done. Qed.

Lemma wp_lift {A} (m : outcome A) c (Q : A -> Ctx -> Prop) a : m = Ret a -> Q a c -> wp (lift m) c Q.
Proof. by intros ->. Qed.

Lemma wp_mono {A} (m : PM A) c (Q Q' : A -> Ctx -> Prop) :
  wp m c Q -> (forall a c', Q a c' -> Q' a c') -> wp m c Q'.
Proof. unfold wp. destruct (m c) as [[a c']|]; auto. Qed.

Section Rules.
Context (c0 : Ctx).
Implicit Types (n : Z) (X : list Z) (c : Ctx) (p : Peer).

Lemma Inv_ext n X c c' : Inv c0 n X c -> self c' = self c -> est c' = est c -> Inv c0 n X c'.
Proof. intros [] E1 E2. split; rewrite ?E1, ?E2; auto. Qed.

Lemma Inv_self n X X' c p o t :
  Inv c0 n X c -> peer_ok p -> p_id p = p_id (self c) -> p_config p = p_config (self c) ->
  owned p ++ X' ⊆+ owned (self c) ++ X ->
  (debug_assertions env = true -> owned (self c) ++ X ⊆+ owned p ++ X') ->
  Inv c0 n X' (mkCtx p (est c) o t).
Proof.
  intros [] Hok Hid Hcfg Hsub Hrev. split; cbn [self est]; try congruence; try done.
  - by eapply submseteq_NoDup.
  - intros s Hs. apply inv_mapped0. by eapply elem_of_submseteq.
  - intros Hd s Hs. eapply elem_of_submseteq; [|by apply Hrev]. by apply inv_exact0.
Qed.

Lemma Inv_same n X c p o t :
  Inv c0 n X c -> peer_ok p -> p_id p = p_id (self c) -> p_config p = p_config (self c) ->
  owned p = owned (self c) -> Inv c0 n X (mkCtx p (est c) o t).
Proof. intros HI Hok Hid Hcfg E. eapply Inv_self; [done..|by rewrite E|by rewrite E]. Qed.

Lemma Inv_perm n X X' c : Inv c0 n X c -> X ≡ₚ X' -> Inv c0 n X' c.
Proof.
  intros HI HX. eapply (Inv_ext _ _ (mkCtx (self c) (est c) (out c) (tick c))); [|done..].
  eapply Inv_self; try done; [apply HI|by rewrite HX|by rewrite HX].
Qed.

Lemma Inv_mono n n' X c : Inv c0 n X c -> n <= n' -> Inv c0 n' X c.
Proof. intros [] Hn. split; try done; [|lia]. destruct inv_tai0 as [? ?]. split; [lia|done]. Qed.

Lemma Inv_sched n X c s o t :
  Inv c0 n X c -> sched_wf s -> Inv c0 n X (mkCtx (self c) (set_scheduler (est c) s) o t).
Proof. intros [] Hs. by split. Qed.

(** Steps that touch neither the peer nor the endpoint. *)
Definition pure {A} (m : PM A) : Prop :=
  forall c, exists a c', m c = Ret (a, c') /\ self c' = self c /\ est c' = est c.

Lemma wp_pure {A} (m : PM A) n X c Q :
  pure m -> Inv c0 n X c ->
  (forall a c', self c' = self c -> est c' = est c -> Inv c0 n X c' -> Q a c') -> wp m c Q.
Proof.
  intros Hm HI HQ. unfold wp. destruct (Hm c) as (a & c' & -> & E1 & E2).
  apply HQ; [done..|]. by eapply Inv_ext.
Qed.

Lemma wp_instant_now n X c Q :
  Inv c0 n X c ->
  (forall t c', self c' = self c -> est c' = est c -> Inv c0 n X c' -> Q (clock env t) c') ->
  wp (instant_now env) c Q.
Proof. intros HI HQ. apply HQ; [done..|]. by eapply Inv_ext. Qed.

Lemma wp_system_now n X c Q :
  Inv c0 n X c ->
  (forall t c', self c' = self c -> est c' = est c -> Inv c0 n X c' -> Q (wall env t) c') ->
  wp (system_now env) c Q.
Proof. intros HI HQ. apply HQ; [done..|]. by eapply Inv_ext. Qed.

Lemma pure_random_u64 : pure (random_u64 env).
Proof. intros c. by eexists _, _. Qed.
Lemma pure_random_bytes k : pure (random_bytes env k).
Proof. intros c. by eexists _, _. Qed.
Lemma pure_queue_to_peer ps : pure (queue_to_peer ps).
Proof. intros c. by eexists _, _. Qed.
Lemma pure_queue_to_local ps : pure (queue_to_local ps).
Proof. intros c. by eexists _, _. Qed.
Lemma pure_note : pure note_session_established.
Proof. intros c. by eexists _, _. Qed.

Lemma wp_put_self n X X' c p Q :
  Inv c0 n X c -> peer_ok p -> p_id p = p_id (self c) -> p_config p = p_config (self c) ->
  owned p ++ X' ≡ₚ owned (self c) ++ X ->
  (forall c', self c' = p -> est c' = est c -> Inv c0 n X' c' -> Q tt c') -> wp (put_self p) c Q.
Proof.
  intros HI Hok Hid Hcfg E HQ. apply HQ; [done..|].
  eapply Inv_self; [done..|by rewrite E|by rewrite E].
Qed.

(** An update of a field that holds no session. *)
Lemma wp_put_field n X c p Q :
  Inv c0 n X c -> p_id p = p_id (self c) -> p_config p = p_config (self c) ->
  p_session p = p_session (self c) -> p_handshake p = p_handshake (self c) ->
  (forall c', self c' = p -> est c' = est c -> Inv c0 n X c' -> Q tt c') -> wp (put_self p) c Q.
Proof.
  intros HI Hid Hcfg Es Eh HQ. eapply wp_put_self; [exact HI|..]; try done.
  - destruct HI as [[? [? ?]]]. unfold peer_ok. by rewrite Hcfg, Es, Eh.
  - unfold owned. by rewrite Es, Eh.
Qed.

Lemma wp_scheduler_add n X c tr ev Q :
  Inv c0 n X c -> tr_start tr <= tr_end tr ->
  (forall h c', self c' = self c -> ids (est c') = ids (est c) -> Inv c0 n X c' -> Q h c') ->
  wp (scheduler_add tr ev) c Q.
Proof.
  intros HI Htr HQ.
  destruct (add_spec (scheduler (est c)) tr ev) as (s' & E & Hs & _); [apply HI|done|].
  unfold scheduler_add, wp, mbind, PM_bind, get_est, lift. rewrite E.
  apply HQ; [done..|]. by apply Inv_sched.
Qed.

Lemma wp_handle_cancel n X c h Q :
  Inv c0 n X c -> (forall c', self c' = self c -> Inv c0 n X c' -> Q tt c') ->
  wp (handle_cancel h) c Q.
Proof.
  intros HI HQ. destruct (cancel_spec (scheduler (est c)) h) as (s' & E & Hs & _); [apply HI|].
  unfold handle_cancel, wp, mbind, PM_bind, get_est, lift. rewrite E.
  apply HQ; [done|]. by apply Inv_sched.
Qed.

Lemma wp_cancel_opt n X c h Q :
  Inv c0 n X c -> (forall c', self c' = self c -> Inv c0 n X c' -> Q tt c') ->
  wp (cancel_opt h) c Q.
Proof.
  intros HI HQ. destruct h as [h|]; [by eapply wp_handle_cancel|]. by apply wp_ret, HQ.
Qed.

Lemma remove_session_Inv n X c id o t :
  Inv c0 n (id :: X) c ->
  exists m, remove_session (ids (est c)) id = Ret m /\
    Inv c0 n X (mkCtx (self c) (set_ids (est c) m) o t).
Proof.
  intros []. unfold remove_session.
  assert (owned (self c) ++ id :: X ≡ₚ id :: owned (self c) ++ X) as HP by solve_Permutation.
  rewrite (inv_mapped0 id) by (rewrite HP; set_solver). mrun. eexists. split; [done|].
  rewrite HP in inv_nodup0. apply NoDup_cons in inv_nodup0 as [Hni Hnd].
  split; try done; cbn [self est set_ids ids sessions].
  - intros s Hs. rewrite lookup_delete_ne by (intros ->; done). apply inv_mapped0.
    rewrite HP. by right.
  - intros Hd s [Hne Hs]%lookup_delete_Some. specialize (inv_exact0 Hd s Hs).
    rewrite HP in inv_exact0. by apply elem_of_cons in inv_exact0 as [->|?].
  - intros s q Hq. rewrite <- (inv_frame0 s q Hq). rewrite lookup_delete_Some.
    split; [tauto|]. intros Hs. split; [|done]. intros <-.
    specialize (inv_mapped0 id ltac:(rewrite HP; by left)). congruence.
Qed.

Lemma wp_ids_remove_session n X c id Q :
  Inv c0 n (id :: X) c -> (forall c', self c' = self c -> Inv c0 n X c' -> Q tt c') ->
  wp (ids_remove_session id) c Q.
Proof.
  intros HI HQ.
  destruct (remove_session_Inv n X c id (out c) (tick c) HI) as (m & E & HI').
  unfold ids_remove_session, wp, mbind, PM_bind, get_est, lift. rewrite E.
  by apply HQ.
Qed.

Section Allocate.
Context `{!env_ok env}.

Lemma wp_allocate_session n X c Q :
  Inv c0 n X c -> (forall id c', self c' = self c -> Inv c0 n (id :: X) c' -> Q id c') ->
  wp (allocate_session env) c Q.
Proof.
  intros HI HQ. pose proof (env_session (tick c) (sessions (ids (est c)))) as Hv.
  unfold allocate_session, wp, mbind, PM_bind, get_est, get_self, next_tick, lift.
  cbn [self est out tick]. rewrite bool_decide_eq_true_2 by done. apply HQ; [done|].
  set (id := rand_session env (tick c) (sessions (ids (est c)))) in *. destruct HI.
  assert (owned (self c) ++ id :: X ≡ₚ id :: owned (self c) ++ X) as HP by solve_Permutation.
  split; try done; cbn [self est set_ids ids sessions].
  - rewrite HP. apply NoDup_cons. split; [|done]. intros Hin%inv_mapped0. congruence.
  - intros s. rewrite HP, elem_of_cons. intros [->|Hs].
    + by rewrite lookup_insert_eq, inv_id0.
    + rewrite lookup_insert_ne; [by apply inv_mapped0|]. intros ->.
      apply inv_mapped0 in Hs. congruence.
  - intros Hd s. rewrite HP, elem_of_cons, lookup_insert_Some. intros [[<- _]|[_ Hs]]; [by left|].
    right. by apply inv_exact0.
  - intros s q Hq. rewrite <- (inv_frame0 s q Hq), lookup_insert_Some. split.
    + intros [[_ E]|[_ Hs]]; [congruence|done].
    + intros Hs. right. split; [|done]. intros <-. congruence.
Qed.
End Allocate.

(** *** Sessions *)

Ltac wbind := apply wp_bind.
Ltac wself := apply wp_bind, wp_get_self.
Ltac west := apply wp_bind, wp_get_est.
Ltac wput HI := eapply wp_put_field; [exact HI|done..|].

Lemma wp_take_session n X c Q :
  Inv c0 n X c ->
  (forall c', self c' = set_session (self c) (SNone []) -> est c' = est c ->
    Inv c0 n (session_ids (p_session (self c)) ++ X) c' -> Q (p_session (self c)) c') ->
  wp take_session c Q.
Proof.
  intros HI HQ. unfold take_session. wself. wbind. eapply wp_put_self; [exact HI|..]; try done.
  - destruct HI as [[? [? ?]]]. split; [done|]. by split; [constructor|].
  - unfold owned. cbn [p_session set_session session_ids p_handshake]. solve_Permutation.
Qed.

(** Putting sessions back whose ids the method holds. *)
Lemma wp_put_session n X X' c s Q :
  Inv c0 n X c -> p_session (self c) = SNone [] -> session_ok s -> session_ids s ++ X' ≡ₚ X ->
  (forall c', self c' = set_session (self c) s -> est c' = est c -> Inv c0 n X' c' -> Q tt c') ->
  wp (put_self (set_session (self c) s)) c Q.
Proof.
  intros HI Es Hs HX HQ. eapply wp_put_self; [exact HI|..]; try done.
  - destruct HI as [[? [? ?]]]. by split.
  - unfold owned. rewrite Es. cbn [p_session set_session session_ids p_handshake].
    rewrite <- HX. solve_Permutation.
Qed.

(** Replacing the sessions by others with the same ids. *)
Lemma wp_update_session n X c s Q :
  Inv c0 n X c -> session_ok s -> session_ids s = session_ids (p_session (self c)) ->
  (forall c', self c' = set_session (self c) s -> est c' = est c -> Inv c0 n X c' -> Q tt c') ->
  wp (put_self (set_session (self c) s)) c Q.
Proof.
  intros HI Hs E HQ. eapply wp_put_self; [exact HI|..]; try done.
  - destruct HI as [[? [? ?]]]. by split.
  - unfold owned. cbn [p_session set_session p_handshake]. by rewrite E.
Qed.

Lemma wp_remove_recv n X c r Q :
  Inv c0 n (from_option (fun r => [rs_id r]) [] r ++ X) c ->
  (forall c', self c' = self c -> Inv c0 n X c' -> Q tt c') ->
  wp (match r with Some r => ids_remove_session (rs_id r) | None => mret tt end) c Q.
Proof.
  intros HI HQ. destruct r as [r|]; cbn [from_option app] in HI;
    [by eapply wp_ids_remove_session|by apply wp_ret, HQ].
Qed.

Lemma wp_deactivate n X c Q :
  Inv c0 n X c ->
  (forall c', self c' = set_session (self c) (SNone []) -> Inv c0 n X c' -> Q tt c') ->
  wp deactivate c Q.
Proof.
  intros HI HQ. unfold deactivate. wbind. eapply wp_take_session; [exact HI|].
  intros c1 E1 _ HI1. destruct (p_session (self c)) as [q|r rp snd i l].
  - apply wp_ret. by apply HQ.
  - wbind. eapply wp_ids_remove_session; [exact HI1|]. intros c2 E2 HI2.
    eapply wp_remove_recv; [exact HI2|]. intros c3 E3 HI3. apply HQ; [congruence|done].
Qed.

(** After [activate] the session is active, and still unused when no packet
    was waiting. *)
Lemma wp_activate n X c next init Q :
  Inv c0 n (rs_id (recv next) :: X) c -> pair_ok next ->
  (forall ps c', Inv c0 n X c' ->
    (ps = [] -> ts_nonce (send next) = 0 -> exists r rp snd i l, p_session (self c') = SActive r rp snd i l /\
      ts_nonce snd = 0 /\ ts_created snd = ts_created (send next)) -> Q ps c') ->
  wp (activate next init) c Q.
Proof.
  intros HI [Hsnd Hrcv] HQ. unfold activate. wbind. eapply wp_take_session; [exact HI|].
  intros c1 E1 _ HI1. wself. pose proof (inv_peer _ _ _ _ HI) as (_ & Hok & _).
  assert (p_session (self c1) = SNone []) as Es by (by rewrite E1).
  destruct (p_session (self c)) as [q|r rp snd i l].
  - destruct (encrypt_total (send next) q Hsnd Hok) as (s' & fs & E & Hs' & Hl).
    wbind. eapply wp_lift; [exact E|]. wbind.
    eapply (wp_put_session n _ X); [exact HI1|done|done|done|].
    intros c2 E2 _ HI2. apply wp_ret, HQ; [done|]. intros -> H0n. destruct q; [|done].
    unfold encrypt in E. cbn in E. rewrite H0n in E. injection E as <-.
    rewrite E2. eexists _, _, _, _, _. split; [done|]. done.
  - destruct Hok as (Hr & Hrp & _). wbind.
    eapply (wp_remove_recv n (rs_id r :: rs_id (recv next) :: X)).
    { eapply Inv_perm; [exact HI1|]. cbn [session_ids]. solve_Permutation. }
    intros c2 E2 HI2. wbind.
    rewrite <- E2. eapply (wp_put_session n _ X); [exact HI2|by rewrite E2|done| |].
    { cbn [session_ids from_option]. solve_Permutation. }
    intros c3 E3 _ HI3. apply wp_ret, HQ; [done|]. intros _ H0n. rewrite E3. eexists _, _, _, _, _. done.
Qed.

Lemma wp_keep_key_fresh n X c now Q :
  Inv c0 n X c -> (forall b c', Inv c0 n X c' -> Q b c') ->
  wp (keep_key_fresh_receiving now) c Q.
Proof.
  intros HI HQ. unfold keep_key_fresh_receiving. wself.
  pose proof (inv_peer _ _ _ _ HI) as (_ & Hok & _).
  destruct (p_session (self c)) as [q|r rp snd i l] eqn:Es; [by apply wp_ret, HQ|].
  destruct i, l; try (by apply wp_ret, HQ).
  destruct (needs_receive_rekey snd now); [|by apply wp_ret, HQ]. wbind.
  eapply wp_update_session; [exact HI|done|by rewrite Es|]. intros. by apply wp_ret, HQ.
Qed.

Lemma wp_encrypt_one n X c pkt Q :
  Inv c0 n X c -> packet_fits pkt -> (forall r c', Inv c0 n X c' -> Q r c') ->
  wp (encrypt_one env pkt) c Q.
Proof.
  intros HI Hp HQ. unfold encrypt_one. wself.
  pose proof (inv_peer _ _ _ _ HI) as (_ & Hok & _).
  destruct (p_session (self c)) as [q|r rp snd i l] eqn:Es; [by apply wp_ret, HQ|].
  destruct Hok as (Hr & Hrp & Hsnd).
  wbind. eapply wp_instant_now; [exact HI|]. intros t c1 E1 _ HI1.
  destruct (ts_expired snd _); [by apply wp_ret, HQ|].
  destruct (encrypt_total snd [pkt] Hsnd) as (s' & fs & E & Hs' & Hl); [by repeat constructor|].
  wbind. eapply wp_lift; [exact E|]. wbind. rewrite <- E1.
  eapply wp_update_session; [exact HI1|done|by rewrite E1, Es|]. intros. by apply wp_ret, HQ.
Qed.

Lemma append_fits q ps : Forall packet_fits q -> Forall packet_fits ps -> Forall packet_fits (append q ps).
Proof. intros. unfold append. apply Forall_app. split; by apply Forall_drop. Qed.

Lemma wp_encrypt_or_queue n X c ps Q :
  Inv c0 n X c -> Forall packet_fits ps ->
  (forall r c', Inv c0 n X c' ->
    (forall rr rp snd i l, p_session (self c) = SActive rr rp snd i l ->
      (forall t, ts_expired snd (clock env t) = false) -> is_Some r) -> Q r c') ->
  wp (encrypt_or_queue env ps) c Q.
Proof.
  intros HI Hp HQ. unfold encrypt_or_queue. wself.
  pose proof (inv_peer _ _ _ _ HI) as (_ & Hok & _).
  destruct (p_session (self c)) as [q|r rp snd i l] eqn:Es.
  { wbind. eapply wp_update_session; [exact HI|by apply append_fits|by rewrite Es|].
    intros. apply wp_ret, HQ; [done|]. by intros. }
  destruct Hok as (Hr & Hrp & Hsnd).
  wbind. eapply wp_instant_now; [exact HI|]. intros t c1 E1 _ HI1.
  destruct (ts_expired snd (clock env t)) eqn:Ex.
  - wbind. eapply wp_deactivate; [exact HI1|]. intros c2 E2 HI2. wself. wbind.
    eapply (wp_put_session n _ X); [exact HI2|by rewrite E2|by apply append_fits|done|].
    intros c3 _ _ HI3. apply wp_ret, HQ; [done|]. intros ????? [=] Hne. subst.
    by rewrite Hne in Ex.
  - destruct (encrypt_total snd ps Hsnd Hp) as (s' & fs & E & Hs' & Hl).
    wbind. eapply wp_lift; [exact E|]. wbind. rewrite <- E1.
    eapply wp_update_session; [exact HI1|done|by rewrite E1, Es|].
    intros. apply wp_ret, HQ; [done|]. by eexists.
Qed.

Lemma wp_get_recv n X c id Q :
  Inv c0 n X c -> (forall r c', self c' = self c -> Inv c0 n X c' -> Q r c') ->
  wp (get_recv env id) c Q.
Proof.
  intros HI HQ. unfold get_recv. wself.
  destruct (p_session (self c)) as [q|r rp snd i l] eqn:Es; [by apply wp_ret, HQ|].
  wbind. eapply (wp_mono _ _ (fun _ c' => self c' = self c /\ Inv c0 n X c')).
  { case_decide; [|by apply wp_ret]. wbind. eapply wp_instant_now; [exact HI|].
    intros. by apply wp_ret. }
  intros b c1 [E1 HI1]. destruct b; [by apply wp_ret, HQ|].
  destruct rp as [rp|]; [|by apply wp_ret, HQ]. case_decide; [|by apply wp_ret, HQ].
  wbind. eapply wp_instant_now; [exact HI1|]. intros. apply wp_ret, HQ; [congruence|done].
Qed.

Lemma wp_lift_dbg {A} (m : outcome A) c (Q : A -> Ctx -> Prop) (P : A -> Prop) :
  match m with Ret a => P a | Panic => debug_assertions env = true end ->
  (forall a, P a -> Q a c) -> wp (lift m) c Q.
Proof. unfold wp, lift. destruct m; auto. Qed.

Lemma wp_decrypt c r ps (Q : ReceiveSession * list (list Z) -> Ctx -> Prop) :
  recv_ok r -> Forall bytes_ok ps ->
  (forall r' ps', recv_ok r' -> rs_id r' = rs_id r -> Q (r', ps') c) ->
  wp (lift (decrypt (debug_assertions env) r ps)) c Q.
Proof.
  intros Hr Hps HQ. pose proof (decrypt_total (debug_assertions env) r ps Hr Hps) as HH.
  unfold wp, lift. destruct decrypt as [[r' ps']|]; [|done]. destruct HH. by apply HQ.
Qed.

Lemma wp_session_decrypt n X c cur ps Q :
  Inv c0 n X c -> Forall bytes_ok ps -> (forall ps' c', Inv c0 n X c' -> Q ps' c') ->
  wp (session_decrypt env cur ps) c Q.
Proof.
  intros HI Hp HQ. unfold session_decrypt. wself.
  pose proof (inv_peer _ _ _ _ HI) as (_ & Hok & _).
  destruct (p_session (self c)) as [q|r rp snd i l] eqn:Es; [by apply wp_ret, HQ|].
  destruct Hok as (Hr & Hrp & Hsnd).
  destruct cur, rp as [rp|]; try (by apply wp_ret, HQ); wbind; (apply wp_decrypt; [done..|]);
    intros r' ps' Hr' Hid; wbind;
    (eapply wp_update_session; [exact HI|done|rewrite Es; simpl; by rewrite ?Hid|]);
    intros; by apply wp_ret, HQ.
Qed.

Lemma wp_needs_rotation n X c Q :
  Inv c0 n X c -> (forall b c', self c' = self c -> Inv c0 n X c' -> Q b c') ->
  wp (needs_rotation env) c Q.
Proof.
  intros HI HQ. unfold needs_rotation. wself.
  destruct (p_session (self c)) as [q|r rp snd i l]; [by apply wp_ret, HQ|].
  wbind. eapply wp_instant_now; [exact HI|]. intros. by apply wp_ret, HQ.
Qed.

(** *** Timers *)

Section Timers.
Context `{!env_ok env}.

Lemma wp_range c s e (Q : TimeRange -> Ctx -> Prop) :
  s <= e -> Q (mkTimeRange s e) c -> wp (lift (TimeRange_new s e)) c Q.
Proof.
  intros Hle HQ. eapply wp_lift; [|exact HQ]. unfold TimeRange_new.
  by rewrite bool_decide_eq_true_2.
Qed.

Lemma jitter_bound d r :
  0 <= d <= KEEPALIVE_TIMEOUT + REKEY_TIMEOUT ->
  0 <= d + millis (r mod REKEY_TIMEOUT_JITTER_MAX_MS) < HALF_RANGE - HANDSHAKE_RETRANSMIT_COALESCE.
Proof.
  intros Hd. pose proof (Z.mod_pos_bound r REKEY_TIMEOUT_JITTER_MAX_MS eq_refl).
  unfold KEEPALIVE_TIMEOUT, REKEY_TIMEOUT, REKEY_TIMEOUT_JITTER_MAX_MS, HALF_RANGE,
    HANDSHAKE_RETRANSMIT_COALESCE, millis, Session.secs in *. lia.
Qed.

Lemma wp_instant_add t d c (Q : Z -> Ctx -> Prop) :
  0 <= d < HALF_RANGE -> Q (clock env t + d) c -> wp (lift (instant_add (clock env t) d)) c Q.
Proof. intros Hd HQ. eapply wp_lift; [|exact HQ]. apply instant_add_ok, early_add; [apply env_instant|done]. Qed.

(** A timer armed a short delay from now, with the coalescing tail. *)
Lemma wp_coalesced {A} t d c (k : TimeRange -> PM A) (Q : A -> Ctx -> Prop) :
  0 <= d < HALF_RANGE - HANDSHAKE_RETRANSMIT_COALESCE ->
  wp (k (mkTimeRange (clock env t + d) (clock env t + d + HANDSHAKE_RETRANSMIT_COALESCE))) c Q ->
  wp (target ← lift (instant_add (clock env t) d);
      until ← lift (instant_add target HANDSHAKE_RETRANSMIT_COALESCE);
      tr ← lift (TimeRange_new target until); k tr) c Q.
Proof.
  intros Hd HQ. assert (0 < HANDSHAKE_RETRANSMIT_COALESCE) by done.
  wbind. apply wp_instant_add; [lia|]. wbind. eapply wp_lift.
  { apply instant_add_ok. rewrite <- Z.add_assoc. apply early_add; [apply env_instant|lia]. }
  wbind. apply wp_range; [lia|done].
Qed.

Lemma wp_arm_new_handshake n X c Q :
  Inv c0 n X c -> (forall c', Inv c0 n X c' -> Q tt c') -> wp (arm_new_handshake env) c Q.
Proof.
  intros HI HQ. unfold arm_new_handshake. wself.
  destruct (p_new_handshake (self c)); [by apply wp_ret, HQ|].
  wbind. eapply wp_instant_now; [exact HI|]. intros t c1 E1 _ HI1.
  unfold new_handshake_delay. wbind. wbind.
  eapply wp_pure; [apply pure_random_u64|exact HI1|]. intros r c2 E2 _ HI2. apply wp_ret.
  apply wp_coalesced; [by apply jitter_bound|].
  wbind. eapply wp_scheduler_add; [exact HI2|unfold HANDSHAKE_RETRANSMIT_COALESCE, millis; simpl; lia|].
  intros h c3 E3 _ HI3. rewrite <- E1, <- E2, <- E3. wput HI3. intros. by apply HQ.
Qed.

Lemma wp_cancel_new_handshake n X c Q :
  Inv c0 n X c ->
  (forall c', self c' = set_new_handshake (self c) None -> Inv c0 n X c' -> Q tt c') ->
  wp cancel_new_handshake c Q.
Proof.
  intros HI HQ. unfold cancel_new_handshake. wself. wbind. wput HI. intros c1 E1 _ HI1.
  eapply wp_cancel_opt; [exact HI1|]. intros c2 E2 HI2. apply HQ; [congruence|done].
Qed.

Lemma wp_schedule_keepalive n X c Q :
  Inv c0 n X c -> (forall c', Inv c0 n X c' -> Q tt c') -> wp (schedule_keepalive env) c Q.
Proof.
  intros HI HQ. unfold schedule_keepalive. wself.
  destruct (p_keepalive (self c)). { wput HI. intros. by apply HQ. }
  wbind. eapply wp_instant_now; [exact HI|]. intros t c1 E1 _ HI1.
  wbind. apply wp_instant_add; [done|]. set (x := clock env t + KEEPALIVE_TIMEOUT).
  assert (default x (checked_instant (x - Session.secs 1))
    <= default x (checked_instant (x + Session.secs 1))) as Hle.
  { unfold checked_instant. repeat case_decide; simpl; unfold Session.secs; lia. }
  unfold TimeRange_new_around. wbind. apply wp_range; [done|].
  wbind. eapply wp_scheduler_add; [exact HI1|done|]. intros h c2 E2 _ HI2.
  rewrite <- E1, <- E2. wput HI2. intros. by apply HQ.
Qed.

Lemma wp_arm_persistent_keepalive n X c Q :
  Inv c0 n X c -> (forall c', Inv c0 n X c' -> Q tt c') -> wp (arm_persistent_keepalive env) c Q.
Proof.
  intros HI HQ. unfold arm_persistent_keepalive. wself.
  pose proof (inv_peer _ _ _ _ HI) as (Hc & _ & _). unfold cfg_ok in Hc.
  destruct (effective_persistent_keepalive (p_config (self c))) as [d|] eqn:Ed; [|by apply wp_ret, HQ].
  assert (0 <= d < HALF_RANGE) as Hd.
  { unfold effective_persistent_keepalive in Ed.
    destruct (cfg_persistent_keepalive_interval _) as [d'|]; [|done]. specialize (Hc d' eq_refl).
    case_decide; [done|]. by injection Ed as <-. }
  wbind. eapply wp_instant_now; [exact HI|]. intros t c1 E1 _ HI1.
  wbind. apply wp_instant_add; [done|]. set (now := clock env t). set (s := Z.max _ now).
  assert (s <= now + d) as Hle.
  { unfold s. assert (0 <= Z.min (Session.secs 1) (d / 4)).
    { apply Z.min_glb; [unfold Session.secs; lia|]. apply Z.div_pos; lia. }
    unfold checked_instant. case_decide; simpl; lia. }
  wbind. apply wp_range; [done|]. wbind. eapply wp_scheduler_add; [exact HI1|done|].
  intros h c2 E2 _ HI2. rewrite <- E1, <- E2. wbind. wput HI2. intros c3 E3 _ HI3.
  eapply wp_cancel_opt; [exact HI3|]. intros. by apply HQ.
Qed.

End Timers.

(** *** Handshakes *)

Section Timestamp.
Context `{!env_ok env}.

Lemma wp_timestamp n X c t (Q : TAI64N -> Ctx -> Prop) :
  Inv c0 n X c -> n < 2 ^ 64 ->
  (forall ts, Inv c0 (n + 1) X (mkCtx (self c) (set_timestamps (est c) ts) (out c) (tick c)) -> Q ts c) ->
  wp (lift (clock_now (timestamps (est c)) (wall env t))) c Q.
Proof.
  intros HI Hn HQ. unfold clock_now.
  destruct (from_system_time_ok _ (env_wall t)) as (sys & Es & Hs).
  pose proof (inv_tai_low _ _ _ _ HI).
  destruct (clamp_after_spec sys (timestamps (est c)) n) as (ts & E & Hts & _);
    [destruct Hs as [? ?]; split; [lia|done]|apply HI|done|].
  eapply wp_lift; [rewrite Es; mrun; exact E|]. apply HQ. destruct HI. split; try done. lia.
Qed.
End Timestamp.

(** Filling the initiator slot: in a release build an initiation in flight is
    overwritten and its id forgotten. *)
Lemma wp_set_initiated n X c sent timeout mac Q :
  Inv c0 n (sh_id sent :: X) c ->
  (forall c', Inv c0 n X c' -> is_active (p_handshake (self c')) = true ->
    p_session (self c') = p_session (self c) -> Q tt c') ->
  wp (h ← lift (set_initiated (debug_assertions env) (p_handshake (self c)) sent timeout mac);
      put_self (set_handshake (self c) h)) c Q.
Proof.
  intros HI HQ. wbind. unfold set_initiated, wp, lift.
  destruct (negb (debug_assertions env) || _) eqn:Ea; cbn [rassert mbind outcome_bind].
  2: { apply orb_false_iff in Ea as [Ea _]. by apply negb_false_iff. }
  apply HQ; [|done|done]. pose proof (inv_peer _ _ _ _ HI) as (H1 & H2 & H3).
  set (h := mkHandshake _ _). set (R := option_list (responded_session_id (p_handshake (self c)))).
  assert (owned (set_handshake (self c) h)
    = session_ids (p_session (self c)) ++ sh_id sent :: R) as E1 by done.
  assert (owned (self c) = session_ids (p_session (self c)) ++
    option_list (initiated_session_id (p_handshake (self c))) ++ R) as E2 by done.
  eapply Inv_self; [exact HI|done..| |]; rewrite E1, E2; unfold initiated_session_id;
    rewrite <- !app_assoc.
  - apply submseteq_skips_l. cbn [app].
    transitivity (R ++ sh_id sent :: X); [by rewrite Permutation_middle|apply submseteq_inserts_l; done].
  - intros Hd. rewrite Hd in Ea. apply bool_decide_eq_true in Ea. rewrite Ea.
    apply submseteq_skips_l. cbn [app option_list from_option]. by rewrite Permutation_middle.
Qed.

Section Start.
Context `{!env_ok env}.

Lemma wp_start_handshake n X c retry Q :
  Inv c0 n X c -> n < 2 ^ 64 ->
  (forall c', Inv c0 (n + 1) X c' -> is_active (p_handshake (self c')) = true -> Q tt c') ->
  wp (start_handshake env retry) c Q.
Proof.
  intros HI Hn HQ. unfold start_handshake. wself. wbind.
  eapply (wp_mono _ _ (fun _ c' => Inv c0 n X c')).
  { destruct retry; [by apply wp_ret|]. wput HI. by intros. }
  intros _ c1 HI1. wbind. eapply wp_allocate_session; [exact HI1|]. intros id c2 E2 HI2. west.
  wbind. eapply wp_system_now; [exact HI2|]. intros t c3 E3 E3' HI3. rewrite <- E3'.
  wbind. eapply wp_timestamp; [exact HI3|done|]. intros ts HI4.
  wbind. unfold put_est at 1, wp at 1. set (c4 := mkCtx _ _ _ _) in *.
  wbind. eapply wp_pure; [apply pure_random_bytes|exact HI4|]. intros eph c5 E5 E5' HI5. wself.
  destruct (initiate_total (private (my_key (est c3))) (cfg_key (p_config (self c5))) id ts eph)
    as (sent & init & Ei & Hid & Hlen).
  wbind. eapply wp_lift; [exact Ei|].
  wbind. eapply wp_instant_now; [exact HI5|]. intros t6 c6 E6 E6' HI6.
  destruct (write_macs_total (p_cookie_sender (self c5)) (clock env t6) _ Hlen) as (mac & pkt & Em).
  wbind. eapply wp_lift; [exact Em|].
  wbind. eapply wp_pure; [apply pure_queue_to_peer|exact HI6|]. intros _ c7 E7 E7' HI7.
  wbind. eapply wp_instant_now; [exact HI7|]. intros t8 c8 E8 E8' HI8.
  unfold rekey_retransmit_delay. wbind. wbind.
  eapply wp_pure; [apply pure_random_u64|exact HI8|]. intros r c9 E9 _ HI9. apply wp_ret.
  apply wp_coalesced; [by apply jitter_bound|].
  wbind. eapply wp_scheduler_add; [exact HI9|unfold HANDSHAKE_RETRANSMIT_COALESCE, millis; simpl; lia|].
  intros h c10 E10 _ HI10. wself. eapply wp_set_initiated; [by rewrite Hid|]. intros. by apply HQ.
Qed.
End Start.

End Rules.
End Methods.

(** ** Symbolic execution of peer methods *)

Ltac wbind := apply wp_bind.
Ltac wself := apply wp_bind, wp_get_self.
Ltac west := apply wp_bind, wp_get_est.
Ltac wput HI := eapply wp_put_field; [exact HI|done..|].
