(* ===== verification/EndpointMethods.v ===== *)
(** * EndpointMethods: every peer method keeps the invariant

    Each method of [Peer], entered with the invariant of [EndpointInv], returns
    with it; the only panics are those of debug assertions. *)

From S2P Require Import Replay Prelude Bytes Crypto Messages Tai64 Session Macs Scheduler Handshake Endpoint EndpointInv.
From stdpp Require Import base list gmap sorting.

Local Open Scope Z_scope.

Section Methods.
Context `{!CryptoOps, !CryptoLaws} (env : Env) `{!env_ok env} (c0 : Ctx).
Implicit Types (n : Z) (X : list Z) (c : Ctx) (p : Peer).

Lemma wp_peer_send n X c ps Q :
  Inv env c0 n X c -> n < 2 ^ 64 -> Forall packet_fits ps ->
  (forall c', Inv env c0 (n + 1) X c' -> Q tt c') -> wp env (peer_send env ps) c Q.
Proof.
  intros HI Hn Hps HQ. unfold peer_send. wbind. eapply wp_encrypt_or_queue; [exact HI|done|].
  intros r c1 HI1 _. wbind. eapply (wp_mono _ _ _ (fun _ c' => Inv env c0 n X c')).
  { destruct r as [fs|]; [|by apply wp_ret]. wbind. eapply (wp_mono _ _ _ (fun _ c' => Inv env c0 n X c')).
    - destruct fs; [by apply wp_ret|]. wbind. eapply (wp_arm_persistent_keepalive env c0); [exact HI1|].
      intros c2 HI2. by eapply (wp_arm_new_handshake env c0).
    - intros _ c2 HI2. eapply wp_pure; [apply pure_queue_to_peer|exact HI2|]. by intros. }
  intros _ c2 HI2. wself. destruct (is_active _).
  { apply wp_ret, HQ. eapply Inv_mono; [done|lia]. }
  wbind. eapply wp_needs_rotation; [exact HI2|]. intros b c3 _ HI3. destruct b.
  - eapply (wp_start_handshake env c0); [exact HI3|done|]. intros. by apply HQ.
  - apply wp_ret, HQ. eapply Inv_mono; [done|lia].
Qed.

Lemma priority_fits msg : (length msg <= MAX_PRIORITY_MESSAGE_CONTENT_SIZE)%nat -> packet_fits msg.
Proof.
  unfold packet_fits, MAX_PRIORITY_MESSAGE_CONTENT_SIZE, P_MAX. lia.
Qed.

Lemma wp_peer_send_priority n X c msg Q :
  Inv env c0 n X c -> (forall b c', Inv env c0 n X c' -> Q b c') -> wp env (peer_send_priority_message env msg) c Q.
Proof.
  intros HI HQ. unfold peer_send_priority_message. destruct msg as [|b msg]; [by apply wp_ret, HQ|].
  case_decide; [by apply wp_ret, HQ|]. wbind.
  eapply wp_encrypt_one; [exact HI|apply priority_fits; lia|]. intros [f|] c1 HI1; [|by apply wp_ret, HQ].
  wbind. eapply (wp_arm_persistent_keepalive env c0); [exact HI1|]. intros c2 HI2.
  wbind. eapply (wp_arm_new_handshake env c0); [exact HI2|]. intros c3 HI3.
  wbind. eapply wp_pure; [apply pure_queue_to_peer|exact HI3|]. intros. by apply wp_ret, HQ.
Qed.

Lemma wp_recv_cookie_reply n X c reply Q :
  Inv env c0 n X c -> length (cr_cookie_sealed reply) = 32%nat -> (forall c', Inv env c0 n X c' -> Q tt c') ->
  wp env (recv_cookie_reply env reply) c Q.
Proof.
  intros HI Hl HQ. unfold recv_cookie_reply. wself. destruct (hs_mac1 _); [|by apply wp_ret, HQ].
  wbind. eapply wp_instant_now; [exact HI|]. intros t c1 E1 _ HI1. rewrite <- E1.
  destruct (receive_cookie_total (p_cookie_sender (self c1)) (clock env t) reply l Hl (env_instant t)) as [s' E].
  wbind. eapply wp_lift; [exact E|]. wput HI1. intros. by apply HQ.
Qed.

(** The keypair just created is not expired within the call that made it. *)
Lemma fresh_not_expired snd t t' :
  ts_nonce snd = 0 -> ts_created snd = clock env t -> ts_expired snd (clock env t') = false.
Proof.
  intros Hz Ht. unfold ts_expired. rewrite Hz, Ht. pose proof (env_clock t t').
  unfold duration_since, REJECT_AFTER_TIME, Session.secs in *.
  rewrite !bool_decide_eq_false_2; [done| |lia].
  unfold REJECT_AFTER_MESSAGES, U64_MAX. vm_compute. intros E. by apply E.
Qed.

Lemma nil_fits : packet_fits [].
Proof. apply priority_fits. simpl. lia. Qed.

(** The effect of a response on the slot. *)
Lemma finish_slot_cases h resp psk rcv t sched :
  length (hr_auth_tag resp) = 16%nat -> sched_wf sched ->
  (exists sched', hs_finish_slot h resp psk rcv t sched = Ret (h, sched', None) /\ sched_wf sched') \/
  exists sent timeout mac sched' pair, initiated h = Some (sent, timeout, mac) /\
    hs_finish_slot h resp psk rcv t sched = Ret (mkHandshake None (responded h), sched', Some pair) /\
    sched_wf sched' /\ pair_ok pair /\ rs_id (recv pair) = sh_id sent /\
    ts_nonce (send pair) = 0 /\ ts_created (send pair) = t.
Proof.
  intros Hl Hwf. unfold hs_finish_slot. destruct (initiated h) as [[[sent timeout] mac]|] eqn:Ei;
    [|left; by eexists]. destruct (negb _); [left; by eexists|].
  destruct (finish_keys_total sent resp psk Hl) as [[k|] ->]; mrun; [|left; by eexists].
  destruct (cancel_spec sched timeout Hwf) as (s' & -> & Hs & _). mrun. right.
  eexists _, _, _, _, _. split; [done|]. split; [done|]. split; [done|].
  split; [apply new_pair_ok|done].
Qed.

Lemma wp_recv_handshake_response n X c resp Q :
  Inv env c0 n X c -> length (hr_auth_tag resp) = 16%nat -> (forall c', Inv env c0 n X c' -> Q tt c') ->
  wp env (recv_handshake_response env resp) c Q.
Proof.
  intros HI Hl HQ. unfold recv_handshake_response. wbind.
  eapply wp_instant_now; [exact HI|]. intros t c1 _ _ HI1. wself. west.
  pose proof (inv_peer _ _ _ _ _ HI1) as (P1 & P2 & P3).
  destruct (finish_slot_cases (p_handshake (self c1)) resp (cfg_psk (p_config (self c1)))
    (my_cookie (est c1)) (clock env t) (scheduler (est c1)) Hl (inv_sched _ _ _ _ _ HI1))
    as [(s' & E & Hs)|(sent & timeout & mac & s' & pair & Ei & E & Hs & Hp & Hid & H0n & Ht)];
    wbind; (eapply wp_lift; [exact E|]); wbind.
  - eapply wp_put_self; [exact HI1|done..|]. intros c2 E2 E2' HI2. rewrite <- E2'. wbind.
    apply wp_ret. apply HQ. by apply Inv_sched.
  - eapply (wp_put_self _ _ n X (sh_id sent :: X)); [exact HI1|done..| |].
    { unfold owned, hs_ids, initiated_session_id. rewrite Ei.
      cbn [set_handshake p_session p_handshake initiated responded_session_id responded].
      unfold responded_session_id. cbn [responded option_list]. solve_Permutation. }
    intros c2 E2 E2' HI2. rewrite <- E2'. wbind.
    eapply (wp_mono _ (put_est _) _ (fun _ c' => Inv env c0 n (sh_id sent :: X) c')).
    { by apply Inv_sched. }
    intros _ c3 HI3. wself. wbind. wput HI3. intros c4 E4 _ HI4. wbind.
    eapply wp_cancel_new_handshake; [exact HI4|]. intros c5 E5 HI5. wbind.
    eapply wp_activate; [rewrite Hid; exact HI5|done|]. intros ps c6 HI6 Hps. wbind.
    eapply (wp_mono _ _ _ (fun _ c' => Inv env c0 n X c')).
    { destruct ps; [|by apply wp_ret]. destruct Hps as (r & rp & snd & i & l & Es & Hn0 & Hcr); [done..|].
      wbind. eapply wp_encrypt_or_queue; [exact HI6|repeat constructor; apply nil_fits|].
      intros o c7 HI7 Hsome. destruct (Hsome _ _ _ _ _ Es) as [fs ->]; [|by eapply wp_lift].
      intros t'. apply (fresh_not_expired _ t); [done|congruence]. }
    intros fs c7 HI7. wbind. eapply (wp_arm_persistent_keepalive env c0); [exact HI7|]. intros c8 HI8.
    wbind. eapply wp_pure; [apply pure_queue_to_peer|exact HI8|]. intros _ c9 _ _ HI9.
    eapply wp_pure; [apply pure_note|exact HI9|]. intros [] c10 _ _ HI10. by apply HQ.
Qed.

(** The effect of a transport packet on the tentative session. *)
Lemma confirm_cases h id ps t :
  from_option pair_ok True (responded h) -> Forall bytes_ok ps ->
  match hs_confirm (debug_assertions env) h id ps t with
  | Ret (h', None) => initiated h' = initiated h /\
      responded_session_id h' = responded_session_id h /\ from_option pair_ok True (responded h')
  | Ret (h', Some (sp, _)) => h' = mkHandshake (initiated h) None /\ pair_ok sp /\
      responded_session_id h = Some (rs_id (recv sp))
  | Panic => debug_assertions env = true
  end.
Proof.
  intros Hok Hps. unfold hs_confirm. destruct (responded h) as [sp|] eqn:Er; [|by rewrite Er].
  case_decide; [by rewrite Er|]. destruct (rs_expired _ _); [by rewrite Er|].
  destruct Hok as [Hsnd Hrcv].
  pose proof (decrypt_total (debug_assertions env) (recv sp) ps Hrcv Hps) as HH.
  destruct (decrypt _ _ _) as [[r ps']|]; mrun; [|done]. destruct HH as [Hr Hid].
  unfold responded_session_id. rewrite Er. destruct ps' as [|f ps']; mrun.
  - cbn [initiated responded recv]. by rewrite Hid.
  - cbn [recv]. rewrite Hid. by split; [|split].
Qed.

Lemma wp_recv_transport_data n X c id ps Q :
  Inv env c0 n X c -> n < 2 ^ 64 -> Forall bytes_ok ps ->
  (forall c', Inv env c0 (n + 1) X c' -> Q tt c') -> wp env (recv_transport_data env id ps) c Q.
Proof.
  intros HI Hn Hps HQ.
  assert (forall c', Inv env c0 n X c' -> Q tt c') as HQ'.
  { intros c' HI'. apply HQ. eapply Inv_mono; [done|lia]. }
  unfold recv_transport_data. wbind. eapply wp_get_recv; [exact HI|]. intros [cur|] c1 E1 HI1.
  - wbind. eapply wp_session_decrypt; [exact HI1|done|]. intros fs c2 HI2.
    destruct fs as [|f fs]; [by apply wp_ret, HQ'|].
    wbind. eapply wp_cancel_new_handshake; [exact HI2|]. intros c3 _ HI3.
    wbind. eapply wp_pure; [apply pure_queue_to_local|exact HI3|]. intros _ c4 _ _ HI4.
    wbind. eapply (wp_mono _ _ _ (fun _ c' => Inv env c0 n X c')).
    { destruct (existsb _ _); [|by apply wp_ret]. by eapply (wp_schedule_keepalive env c0). }
    intros _ c5 HI5. wbind. eapply wp_instant_now; [exact HI5|]. intros t c6 _ _ HI6.
    wbind. eapply wp_keep_key_fresh; [exact HI6|]. intros [] c7 HI7; [|by apply wp_ret, HQ'].
    eapply (wp_start_handshake env c0); [exact HI7|done|]. intros. by apply HQ.
  - wself. wbind. eapply wp_instant_now; [exact HI1|]. intros t c2 E2 _ HI2.
    rewrite <- E2. pose proof (inv_peer _ _ _ _ _ HI2) as (P1 & P2 & P3).
    pose proof (confirm_cases (p_handshake (self c2)) id ps (clock env t) P3 Hps) as HH.
    wbind. unfold wp at 1, lift.
    destruct (hs_confirm _ _ _ _ _) as [[h [[sp fs]|]]|]; [| |done].
    + destruct HH as (-> & Hp & Hid). wbind.
      eapply (wp_put_self _ _ n X (rs_id (recv sp) :: X)); [exact HI2|done..| |].
      { unfold owned, hs_ids. rewrite Hid. unfold responded_session_id.
        cbn [set_handshake p_session p_handshake initiated responded option_list initiated_session_id].
        unfold initiated_session_id. cbn [initiated]. solve_Permutation. }
      intros c3 E3 _ HI3. wbind. eapply wp_cancel_new_handshake; [exact HI3|]. intros c4 _ HI4.
      wbind. eapply wp_pure; [apply pure_queue_to_local|exact HI4|]. intros _ c5 _ _ HI5.
      wbind. eapply (wp_schedule_keepalive env c0); [exact HI5|]. intros c6 HI6.
      wbind. eapply wp_activate; [exact HI6|done|]. intros gs c7 HI7 _.
      wbind. eapply (wp_arm_persistent_keepalive env c0); [exact HI7|]. intros c8 HI8.
      wbind. eapply (wp_mono _ _ _ (fun _ c' => Inv env c0 n X c')).
      { destruct gs; [by apply wp_ret|].
        eapply wp_pure; [apply pure_queue_to_peer|exact HI8|]. by intros. }
      intros _ c9 HI9. eapply wp_pure; [apply pure_note|exact HI9|]. intros [] c10 _ _ HI10.
      by apply HQ'.
    + destruct HH as (Hi & Hid & Hok). wbind.
      eapply wp_put_self; [exact HI2|by split; [|split]|done|done| |].
      { unfold owned, hs_ids, initiated_session_id.
        cbn [set_handshake p_session p_handshake]. by rewrite Hi, Hid. }
      intros c3 E3 _ HI3. apply wp_ret. by apply HQ'.
Qed.

Lemma wp_recv_retain n X c ps Q :
  Inv env c0 n X c -> Forall bytes_ok ps ->
  (forall ps' c', Inv env c0 n X c' -> Forall bytes_ok ps' -> Q ps' c') ->
  wp env (recv_retain env ps) c Q.
Proof.
  intros HI Hps. revert c Q HI. induction Hps as [|pkt ps Hp Hps IH]; intros c Q HI HQ.
  { apply wp_ret. by apply HQ. }
  cbn [recv_retain]. wbind. eapply (wp_mono _ _ _ (fun _ c' => Inv env c0 n X c')).
  { destruct (Message_try_from pkt) as [msg|] eqn:Em; [|by apply wp_ret].
    apply message_widths in Em. destruct msg.
    - wbind. unfold wp, lift. destruct (debug_assertions env); [done|]. cbn [negb rassert]. done.
    - wbind. eapply wp_recv_handshake_response; [exact HI|done|]. intros. by apply wp_ret.
    - by apply wp_ret.
    - wbind. eapply wp_recv_cookie_reply; [exact HI|done|]. intros. by apply wp_ret. }
  intros b c1 HI1. wbind. apply IH; [done|]. intros ps' c2 HI2 Hps'. apply wp_ret, HQ; [done|].
  destruct b; [by constructor|done].
Qed.

Lemma wp_peer_recv n X c id ps Q :
  Inv env c0 n X c -> n < 2 ^ 64 -> Forall bytes_ok ps ->
  (forall c', Inv env c0 (n + 1) X c' -> Q tt c') -> wp env (peer_recv env id ps) c Q.
Proof.
  intros HI Hn Hps HQ. unfold peer_recv. wbind. eapply wp_recv_retain; [exact HI|done|].
  intros. by eapply wp_recv_transport_data.
Qed.

(** A response fills the tentative slot; an older tentative id is freed. *)
Lemma wp_respond_to_handshake n X c rh Q :
  Inv env c0 n X c -> (forall c', Inv env c0 n X c' -> Q tt c') ->
  wp env (respond_to_handshake env rh) c Q.
Proof.
  intros HI HQ. unfold respond_to_handshake. wself. case_match; [by apply wp_ret, HQ|].
  wbind. wput HI. intros c1 E1 _ HI1. wbind. eapply wp_cancel_new_handshake; [exact HI1|].
  intros c2 _ HI2. wbind. eapply (wp_allocate_session env c0); [exact HI2|]. intros id c3 _ HI3. wself.
  wbind. eapply wp_instant_now; [exact HI3|]. intros t c4 E4 _ HI4.
  wbind. eapply wp_pure; [apply pure_random_bytes|exact HI4|]. intros eph c5 E5 _ HI5.
  wbind. eapply wp_instant_now; [exact HI5|]. intros t6 c6 E6 _ HI6.
  rewrite <- E4, <- E5, <- E6. pose proof (inv_peer _ _ _ _ _ HI6) as (P1 & P2 & P3).
  set (h := p_handshake (self c6)) in *.
  destruct (rh_respond_total rh eph id (cfg_psk (p_config (self c6))) (p_cookie_sender (self c6))
    (clock env t) (clock env t6)) as (sp & pkt & E & Hp & Hid).
  wbind. eapply (wp_lift _ _ _ _ (mkHandshake (initiated h) (Some sp), pkt, responded_session_id h)).
  { unfold hs_respond. rewrite E. by mrun. }
  wbind. eapply (wp_put_self _ _ n _ (option_list (responded_session_id h) ++ X));
    [exact HI6|done..| |].
  { unfold owned, hs_ids, initiated_session_id. fold h.
    cbn [set_handshake p_session p_handshake initiated]. unfold responded_session_id at 1.
    cbn [responded]. rewrite Hid. cbn [option_list from_option]. solve_Permutation. }
  intros c7 _ _ HI7. wbind. eapply (wp_mono _ _ _ (fun _ c' => Inv env c0 n X c')).
  { destruct (responded_session_id h) as [old|]; [|by apply wp_ret].
    eapply wp_ids_remove_session; [exact HI7|]. by intros. }
  intros _ c8 HI8. eapply wp_pure; [apply pure_queue_to_peer|exact HI8|].
  intros [] c9 _ _ HI9. by apply HQ.
Qed.

Lemma wp_new_handshake_timeout n X c Q :
  Inv env c0 n X c -> n < 2 ^ 64 -> (forall c', Inv env c0 (n + 1) X c' -> Q tt c') ->
  wp env (new_handshake_timeout env) c Q.
Proof.
  intros HI Hn HQ. unfold new_handshake_timeout. wself. wbind. wput HI. intros c1 _ _ HI1.
  destruct (is_active _).
  - apply wp_ret, HQ. eapply Inv_mono; [done|lia].
  - eapply (wp_start_handshake env c0); [exact HI1|done|]. intros. by apply HQ.
Qed.

(** Dropping both slots frees their ids. *)
Lemma wp_drop_handshake {B} n X c (k : PM B) Q :
  Inv env c0 n X c ->
  (forall c', self c' = set_handshake (self c) Handshake_none -> Inv env c0 n X c' ->
    wp env k c' Q) ->
  wp env (s ← get_est;
          m ← lift (remove_handshake_session (ids s) (p_handshake (self c)));
          _ ← put_est (set_ids s m);
          _ ← put_self (set_handshake (self c) Handshake_none);
          k) c Q.
Proof.
  intros HI HQ. set (h := p_handshake (self c)).
  assert (Inv env c0 n (hs_ids h ++ X)
    (mkCtx (set_handshake (self c) Handshake_none) (est c) (out c) (tick c))) as HI1.
  { pose proof (inv_peer _ _ _ _ _ HI) as (P1 & P2 & P3).
    eapply Inv_self; [exact HI|done..| |];
      unfold owned; cbn [set_handshake p_session p_handshake]; fold h;
      rewrite app_nil_r, <- app_assoc; done. }
  west. wbind. unfold wp, lift, remove_handshake_session. unfold hs_ids in HI1. fold h.
  rewrite <- app_assoc in HI1.
  assert (exists m, (match initiated_session_id h with
                     | Some id => remove_session (ids (est c)) id | None => Ret (ids (est c)) end) = Ret m /\
    Inv env c0 n (option_list (responded_session_id h) ++ X)
      (mkCtx (set_handshake (self c) Handshake_none) (set_ids (est c) m) (out c) (tick c)))
    as (m1 & -> & HI2).
  { destruct (initiated_session_id h) as [id|].
    - by apply (remove_session_Inv env c0 n _ _ id (out c) (tick c)) in HI1.
    - eexists. split; [done|]. eapply Inv_ext; [exact HI1|done|]. by destruct c as [? []]. }
  mrun. destruct (responded_session_id h) as [id|].
  - apply (remove_session_Inv env c0 n _ _ id (out c) (tick c)) in HI2 as (m2 & E & HI3).
    cbn [est set_ids ids] in E. rewrite E. by apply HQ.
  - by apply HQ.
Qed.

Lemma wp_handshake_timeout n X c Q :
  Inv env c0 n X c -> n < 2 ^ 64 -> (forall c', Inv env c0 (n + 1) X c' -> Q tt c') ->
  wp env (handshake_timeout env) c Q.
Proof.
  intros HI Hn HQ.
  assert (forall c', Inv env c0 n X c' -> Q tt c') as HQ'.
  { intros c' HI'. apply HQ. eapply Inv_mono; [done|lia]. }
  unfold handshake_timeout. wself. destruct (negb _); [by apply wp_ret, HQ'|].
  eapply wp_drop_handshake; [exact HI|]. intros c1 E1 HI1. case_decide.
  - wbind. eapply wp_deactivate; [exact HI1|]. intros c2 _ HI2. wself. wbind. wput HI2.
    intros c3 _ _ HI3. eapply wp_cancel_new_handshake; [exact HI3|]. intros. by apply HQ'.
  - wself. wbind. wput HI1. intros c2 _ _ HI2.
    eapply (wp_start_handshake env c0); [exact HI2|done|]. intros. by apply HQ.
Qed.

Lemma wp_send_keepalive n X c Q :
  Inv env c0 n X c -> (forall c', Inv env c0 n X c' -> Q tt c') -> wp env (send_keepalive env) c Q.
Proof.
  intros HI HQ. unfold send_keepalive. wbind. eapply wp_encrypt_one; [exact HI|apply nil_fits|].
  intros [f|] c1 HI1; [|by apply wp_ret, HQ]. wbind.
  eapply wp_pure; [apply pure_queue_to_peer|exact HI1|]. intros _ c2 _ _ HI2. wself. wbind.
  wput HI2. intros c3 _ _ HI3. destruct (p_send_another_keepalive _); [|by apply wp_ret, HQ].
  wbind. eapply (wp_schedule_keepalive env c0); [exact HI3|]. intros c4 HI4. wself. wput HI4.
  intros. by apply HQ.
Qed.

Lemma wp_send_persistent_keepalive n X c Q :
  Inv env c0 n X c -> (forall c', Inv env c0 n X c' -> Q tt c') ->
  wp env (send_persistent_keepalive env) c Q.
Proof.
  intros HI HQ. unfold send_persistent_keepalive. wself. wbind. wput HI. intros c1 _ _ HI1.
  wbind. eapply wp_encrypt_one; [exact HI1|apply nil_fits|].
  intros [f|] c2 HI2; [|by apply wp_ret, HQ]. wbind.
  eapply wp_pure; [apply pure_queue_to_peer|exact HI2|]. intros _ c3 _ _ HI3.
  by eapply (wp_arm_persistent_keepalive env c0).
Qed.

Lemma wp_cancel_all_timers n X c Q :
  Inv env c0 n X c ->
  (forall c', p_session (self c') = p_session (self c) -> p_handshake (self c') = p_handshake (self c) ->
    Inv env c0 n X c' -> Q tt c') ->
  wp env cancel_all_timers c Q.
Proof.
  intros HI HQ. unfold cancel_all_timers. wself. wbind. wput HI. intros c1 E1 _ HI1.
  wbind. eapply wp_cancel_opt; [exact HI1|]. intros c2 E2 HI2. wself. wbind. wput HI2.
  intros c3 E3 _ HI3. wbind. eapply wp_cancel_opt; [exact HI3|]. intros c4 E4 HI4.
  eapply wp_cancel_new_handshake; [exact HI4|]. intros c5 E5 HI5.
  apply HQ; [| |done]; by rewrite E5, E4, E3, E2, E1.
Qed.

(** [shutdown] leaves the peer with no session id at all. *)
Lemma wp_shutdown n X c Q :
  Inv env c0 n X c -> (forall c', owned (self c') = [] -> Inv env c0 n X c' -> Q tt c') ->
  wp env shutdown c Q.
Proof.
  intros HI HQ. unfold shutdown. wbind. eapply wp_deactivate; [exact HI|]. intros c1 E1 HI1. wself.
  eapply wp_drop_handshake; [exact HI1|]. intros c2 E2 HI2. west.
  wbind. unfold hs_cancel.
  assert (exists s', match initiated (p_handshake (self c1)) with
    | Some (_, timeout, _) => Scheduler.cancel (scheduler (est c2)) timeout
    | None => Ret (scheduler (est c2)) end = Ret s' /\ sched_wf s') as (s' & E & Hs).
  { destruct (initiated _) as [[[? timeout] ?]|]; [|eexists; split; [done|apply HI2]].
    destruct (cancel_spec (scheduler (est c2)) timeout) as (s' & ? & ? & _); [apply HI2|by eexists]. }
  eapply wp_lift; [exact E|]. wbind.
  assert (Inv env c0 n X (mkCtx (self c2) (set_scheduler (est c2) s') (out c2) (tick c2))) as HI3
    by (by apply Inv_sched).
  unfold put_est at 1, wp at 1. eapply wp_cancel_all_timers; [exact HI3|]. intros c4 E4 E4' HI4.
  apply HQ; [|done]. unfold owned. rewrite E4, E4'. cbn [self]. by rewrite E2, E1.
Qed.
End Methods.
