(* ===== verification/EndpointSafe.v ===== *)
(** * EndpointSafe: the public operations of the endpoint

    The invariant of [EndpointInv], over all peers, is kept by every public
    operation of [Endpoint]; reachable endpoints are those produced by
    sequences of them. *)

From S2P Require Import Replay Prelude Bytes Crypto Messages Tai64 Session Macs Scheduler Handshake Endpoint EndpointInv EndpointMethods.
From stdpp Require Import base list gmap sorting.

Local Open Scope Z_scope.

(** ** The invariant *)

(** [n] bounds the last timestamp.  With debug assertions every allocated id
    is owned. *)
Record ep_inv (dbg : bool) (n : Z) (e : Endpoint) : Prop := {
  ei_sched : sched_wf (scheduler (e_state e));
  ei_tai : tai_ok n (timestamps (e_state e));
  ei_low : 2 ^ 63 <= n;
  ei_peer i p : e_peers e !! i = Some p ->
    peer_ok p /\ p_id p = i /\ NoDup (owned p) /\
    node_keys (ids (e_state e)) !! cfg_key (p_config p) = Some i;
  ei_mapped i p s : e_peers e !! i = Some p -> s ∈ owned p ->
    sessions (ids (e_state e)) !! s = Some i;
  ei_exact : dbg = true -> forall s i, sessions (ids (e_state e)) !! s = Some i ->
    exists p, e_peers e !! i = Some p /\ s ∈ owned p;
  ei_keys k i : node_keys (ids (e_state e)) !! k = Some i ->
    exists p, e_peers e !! i = Some p /\ cfg_key (p_config p) = k;
}.

Lemma ep_inv_mono dbg n n' e : ep_inv dbg n e -> n <= n' -> ep_inv dbg n' e.
Proof. intros [] Hn. split; try done; [|lia]. destruct ei_tai0 as [? ?]. split; [lia|done]. Qed.

Lemma ep_inv_new `{!CryptoOps} dbg key : ep_inv dbg (2 ^ 63) (Endpoint_new key).
Proof.
  split; cbn; try done.
  - apply wf_default.
  - split; [simpl; lia|]. exists 0. done.
Qed.

(** ** Operations that run peer methods *)

Section Lifting.
Context `{!CryptoOps, !CryptoLaws} (env : Env) `{!env_ok env}.

Definition ewp {A} (m : EM A) (c : ECtx) (Q : A -> ECtx -> Prop) : Prop :=
  match m c with Ret (a, c') => Q a c' | Panic => debug_assertions env = true end.

Lemma ewp_bind {A B} (m : EM A) (k : A -> EM B) c Q :
  ewp m c (fun a c' => ewp (k a) c' Q) -> ewp (m ≫= k) c Q.
Proof. unfold ewp, mbind, EM_bind. by destruct (m c) as [[a c']|]. Qed.

Lemma ewp_ret {A} (a : A) c (Q : A -> ECtx -> Prop) : Q a c -> ewp (mret a) c Q.
Proof. done. Qed.

Lemma ewp_get c Q : Q (ep c) c -> ewp get_ep c Q.
Proof. done. Qed.

Lemma ewp_lift {A} (m : outcome A) c (Q : A -> ECtx -> Prop) a : m = Ret a -> Q a c -> ewp (elift m) c Q.
Proof. by intros ->. Qed.

Lemma ewp_mono {A} (m : EM A) c (Q Q' : A -> ECtx -> Prop) :
  ewp m c Q -> (forall a c', Q a c' -> Q' a c') -> ewp m c Q'.
Proof. unfold ewp. destruct (m c) as [[a c']|]; auto. Qed.

Lemma ewp_record_initiation l t c (Q : HandshakeLoad * bool -> ECtx -> Prop) :
  (forall l' under, Q (l', under) c) ->
  ewp (elift (record_initiation (debug_assertions env) l (clock env t))) c Q.
Proof.
  intros HQ. unfold ewp, elift, record_initiation. destruct (window l) as [[start count]|]; [|apply HQ].
  case_decide; [|apply HQ]. unfold u32_succ.
  assert (instant_add (clock env t) UNDER_LOAD_WINDOW = Ret (clock env t + UNDER_LOAD_WINDOW)) as E
    by (apply instant_add_ok, early_add; [apply env_instant|done]).
  rewrite E. destruct (debug_assertions env); (case_decide; mrun; [|try done]);
    case_decide; mrun; apply HQ.
Qed.

Definition EI (n : Z) (c : ECtx) : Prop := ep_inv (debug_assertions env) n (ep c).

(** A peer taken out of the endpoint satisfies the invariant of methods. *)
Lemma enter n e i p o t :
  ep_inv (debug_assertions env) n e -> e_peers e !! i = Some p ->
  let c0 := mkCtx p (e_state e) o t in Inv env c0 n [] c0.
Proof.
  intros [] Hp c0. destruct (ei_peer0 i p Hp) as (Hok & Hid & Hnd & Hk).
  split; try done; cbn [self est c0]; rewrite ?app_nil_r, ?Hid; try done.
  - intros s. rewrite ?app_nil_r. by apply ei_mapped0.
  - intros Hd s Hs. destruct (ei_exact0 Hd s i Hs) as (p' & Hp' & Hin).
    rewrite ?app_nil_r. congruence.
Qed.

(** Putting it back. *)
Lemma leave n n' e i p o t c' :
  let c0 := mkCtx p (e_state e) o t in
  ep_inv (debug_assertions env) n e -> e_peers e !! i = Some p -> Inv env c0 n' [] c' ->
  ep_inv (debug_assertions env) n' (mkEndpoint (est c') (<[i := self c']> (e_peers e))).
Proof.
  intros c0 [] Hp HI. destruct (ei_peer0 i p Hp) as (_ & Hid & _ & Hk). destruct HI.
  cbn [self est c0] in *. rewrite Hid in *. rewrite app_nil_r in *.
  split; cbn [e_state e_peers]; try done.
  - intros j q [[<- <-]|[Hne Hq]]%lookup_insert_Some.
    + split; [done|]. split; [done|]. split; [done|]. by rewrite inv_config, inv_keys.
    + rewrite inv_keys. by apply ei_peer0.
  - intros j q s [[<- <-]|[Hne Hq]]%lookup_insert_Some Hs.
    + apply inv_mapped. by rewrite ?app_nil_r.
    + apply inv_frame; [done|]. by eapply ei_mapped0.
  - intros Hd s j Hs. destruct (decide (j = i)) as [->|Hne].
    + exists (self c'). rewrite lookup_insert_eq. split; [done|].
      specialize (inv_exact Hd s Hs). by rewrite ?app_nil_r in inv_exact.
    + apply inv_frame in Hs; [|done]. destruct (ei_exact0 Hd s j Hs) as (q & Hq & Hin).
      exists q. by rewrite lookup_insert_ne by done.
  - intros k j. rewrite inv_keys. intros (q & Hq & Hqk)%ei_keys0.
    destruct (decide (j = i)) as [->|Hne].
    + exists (self c'). rewrite lookup_insert_eq, inv_config. split; [done|congruence].
    + exists q. by rewrite lookup_insert_ne by done.
Qed.

(** What a method has to satisfy. *)
Definition keeps (n n' : Z) (m : PM unit) : Prop :=
  forall c0, Inv env c0 n [] c0 -> wp env m c0 (fun _ c' => Inv env c0 n' [] c').

Lemma ewp_with_peer n n' i m c :
  EI n c -> n <= n' -> keeps n n' m -> ewp (with_peer i m) c (fun _ => EI n').
Proof.
  intros HI Hn Hm. unfold with_peer. apply ewp_bind, ewp_get.
  destruct (e_peers (ep c) !! i) as [p|] eqn:Hp; [|apply ewp_ret; by eapply ep_inv_mono].
  specialize (Hm _ (enter n (ep c) i p (eout c) (etick c) HI Hp)).
  unfold wp in Hm. unfold ewp, mbind, EM_bind, run_peer.
  destruct (m _) as [[a c']|]; [|done]. 
  exact (leave n n' (ep c) i p (eout c) (etick c) c' HI Hp Hm).
Qed.

Ltac method H := intros ? HI; eapply H; [exact HI|..]; try done; intros; done.

Lemma send_inv packets n c :
  EI n c -> Forall (fun pp => Forall packet_fits pp.2) packets ->
  n + Z.of_nat (length packets) <= 2 ^ 64 ->
  ewp (send_body env packets) c (fun _ => EI (n + Z.of_nat (length packets))).
Proof.
  intros HI Hps. revert n c HI. induction Hps as [|[i ps] packets Hp _ IH]; intros n c HI Hn.
  { apply ewp_ret. by rewrite Z.add_0_r. }
  cbn [send_body length] in *. apply ewp_bind. eapply ewp_mono.
  { eapply (ewp_with_peer n (n + 1)); [exact HI|lia|]. intros c0 HI0.
    eapply (wp_peer_send env); [exact HI0|lia|done|]. by intros. }
  intros [] c1 HI1. eapply ewp_mono; [apply IH; [exact HI1|lia]|]. intros [] c2. simpl.
  by replace (n + 1 + Z.of_nat (length packets)) with (n + Z.of_nat (S (length packets))) by lia.
Qed.

Lemma priority_inv i msg n c :
  EI n c -> ewp (send_priority_message_body env i msg) c (fun _ => EI n).
Proof.
  intros HI. eapply ewp_with_peer; [exact HI|lia|]. intros c0 HI0. apply wp_bind.
  eapply (wp_peer_send_priority env); [exact HI0|]. intros. by apply wp_ret.
Qed.

(** ** Receiving *)

Lemma put_other n c e' :
  EI n c -> e_peers e' = e_peers (ep c) -> ids (e_state e') = ids (e_state (ep c)) ->
  timestamps (e_state e') = timestamps (e_state (ep c)) ->
  scheduler (e_state e') = scheduler (e_state (ep c)) ->
  ewp (put_ep e') c (fun _ => EI n).
Proof.
  intros [] E1 E2 E3 E4. unfold ewp, put_ep, EI. cbn [ep].
  split; rewrite ?E1, ?E2, ?E3, ?E4; auto.
Qed.

Lemma cookie_reply_inv from init binding now n c :
  EI n c -> ewp (send_cookie_reply env from init binding now) c (fun _ => EI n).
Proof.
  intros HI. unfold send_cookie_reply. apply ewp_bind, ewp_get. apply ewp_bind.
  unfold enext_tick at 1, ewp at 1. apply ewp_bind. unfold enext_tick at 1, ewp at 1.
  cbn [ep eout etick]. match goal with |- context [create_reply ?g ?r ?o ?m ?i ?b ?t] =>
    destruct (create_reply_total g r o m i b t) as (g' & rep & E) end.
  apply ewp_bind. eapply ewp_lift; [exact E|]. apply ewp_bind.
  eapply ewp_mono; [by apply (put_other n)|].
  intros [] c1 HI1. destruct rep; [exact HI1|by apply ewp_ret].
Qed.

Lemma process_handshake_inv from pkt n c :
  EI n c -> ewp (process_one_handshake env from pkt) c (fun _ => EI n).
Proof.
  intros HI. unfold process_one_handshake.
  destruct (Message_try_from pkt) as [[init| | |]|] eqn:Em; try (by apply ewp_ret).
  apply message_widths in Em as [Hs Ht]. apply ewp_bind. unfold enext_tick at 1, ewp at 1.
  apply ewp_bind, ewp_get. cbn [ep]. apply ewp_bind. apply ewp_record_initiation. intros l under.
  apply ewp_bind. eapply ewp_mono; [by apply (put_other n)|].
  intros [] c1 HI1. destruct (negb _); [by apply ewp_ret|].
  destruct (match under with true => _ | false => _ end) as [[j b]|]; [by apply cookie_reply_inv|].
  destruct (received_total init (my_key (e_state (ep c))) (my_cookie (e_state (ep c))) Hs Ht)
    as [r E]. apply ewp_bind. eapply ewp_lift; [exact E|]. destruct r as [rh|]; [|by apply ewp_ret].
  destruct (get_by_nodekey _ _); [|by apply ewp_ret].
  eapply ewp_with_peer; [exact HI1|lia|]. intros c0 HI0.
  eapply (wp_respond_to_handshake env); [exact HI0|]. by intros.
Qed.

Lemma process_handshakes_inv from ps n c :
  EI n c -> ewp (process_handshakes env from ps) c (fun _ => EI n).
Proof.
  revert c. induction ps as [|p ps IH]; intros c HI; [by apply ewp_ret|]. cbn [process_handshakes].
  apply ewp_bind. eapply ewp_mono; [by apply process_handshake_inv|]. intros [] c1. apply IH.
Qed.

Lemma filter_bytes_ok id ps :
  Forall bytes_ok ps -> Forall bytes_ok (filter (fun p => group_key p = id) ps).
Proof.
  rewrite !Forall_forall. intros Hps p [_ Hp]%list_elem_of_filter. by apply Hps.
Qed.

Lemma process_groups_inv ps order n c :
  EI n c -> Forall bytes_ok ps -> n + Z.of_nat (length order) <= 2 ^ 64 ->
  ewp (process_groups env ps order) c (fun _ => EI (n + Z.of_nat (length order))).
Proof.
  intros HI Hps. revert n c HI. induction order as [|id order IH]; intros n c HI Hn.
  { apply ewp_ret. by rewrite Z.add_0_r. }
  cbn [process_groups length] in *. apply ewp_bind, ewp_get. apply ewp_bind.
  eapply (ewp_mono _ _ (fun _ => EI (n + 1))).
  { destruct (get_by_session_id _ _); [|apply ewp_ret; eapply ep_inv_mono; [exact HI|lia]].
    eapply (ewp_with_peer n (n + 1)); [exact HI|lia|]. intros c0 HI0.
    eapply (wp_peer_recv env); [exact HI0|lia|by apply filter_bytes_ok|]. by intros. }
  intros [] c1 HI1. eapply ewp_mono; [apply IH; [exact HI1|lia]|]. intros [] c2. simpl.
  by replace (n + 1 + Z.of_nat (length order)) with (n + Z.of_nat (S (length order))) by lia.
Qed.

Lemma recv_inv from ps order n c :
  EI n c -> Forall bytes_ok ps -> n + Z.of_nat (length order) <= 2 ^ 64 ->
  ewp (recv_from_body env from ps order) c (fun _ => EI (n + Z.of_nat (length order))).
Proof.
  intros HI Hps Hn. unfold recv_from_body. apply ewp_bind.
  eapply ewp_mono; [by apply process_handshakes_inv|]. intros [] c1 HI1. by apply process_groups_inv.
Qed.

(** ** Timers *)

Lemma handle_event_inv ev n c :
  EI n c -> n < 2 ^ 64 -> ewp (handle_event env ev) c (fun _ => EI (n + 1)).
Proof.
  intros HI Hn.
  assert (forall c0 c', Inv env c0 n [] c' -> Inv env c0 (n + 1) [] c') as Hm.
  { intros. eapply Inv_mono; [done|lia]. }
  destruct ev; cbn [handle_event]; (eapply (ewp_with_peer n (n + 1)); [exact HI|lia|]); intros c0 HI0.
  - eapply (wp_handshake_timeout env); [exact HI0|done|]. by intros.
  - eapply (wp_send_keepalive env); [exact HI0|]. auto.
  - eapply (wp_send_persistent_keepalive env); [exact HI0|]. auto.
  - eapply (wp_new_handshake_timeout env); [exact HI0|done|]. by intros.
Qed.

Lemma handle_events_inv evs n c :
  EI n c -> n + Z.of_nat (length evs) <= 2 ^ 64 ->
  ewp (handle_events env evs) c (fun _ => EI (n + Z.of_nat (length evs))).
Proof.
  revert n c. induction evs as [|ev evs IH]; intros n c HI Hn.
  { apply ewp_ret. by rewrite Z.add_0_r. }
  cbn [handle_events length] in *. apply ewp_bind.
  eapply ewp_mono; [apply (handle_event_inv ev n); [exact HI|lia]|].
  intros [] c1 HI1. eapply ewp_mono; [apply IH; [exact HI1|lia]|]. intros [] c2. simpl.
  by replace (n + 1 + Z.of_nat (length evs)) with (n + Z.of_nat (S (length evs))) by lia.
Qed.

Lemma dispatch_inv now n c :
  let k := Z.of_nat (length (events (scheduler (e_state (ep c))))) in
  EI n c -> n + k <= 2 ^ 64 -> ewp (dispatch_events_body env now) c (fun _ => EI (n + k)).
Proof.
  intros k HI Hn. unfold dispatch_events_body. apply ewp_bind, ewp_get.
  destruct (dispatch_spec (scheduler (e_state (ep c))) now (ei_sched _ _ _ HI)) as (Hwf & _ & _ & Hev).
  destruct (dispatch _ now) as [sched evs]. cbn [fst snd] in *. apply ewp_bind.
  eapply (ewp_mono _ _ (fun _ => EI n)).
  { unfold ewp, put_ep, EI. cbn [ep]. destruct HI. by split. }
  intros [] c1 HI1.
  assert (Z.of_nat (length evs) <= k) as Hk.
  { subst evs k. rewrite length_fmap, length_reverse. apply Nat2Z.inj_le, length_filter. }
  eapply ewp_mono; [apply (handle_events_inv evs n c1 HI1); lia|].
  intros [] c2 HI2. eapply ep_inv_mono; [exact HI2|lia].
Qed.

(** ** Configuration *)

(** A peer whose sessions are gone leaves with its key. *)
Lemma removed_inv n e i p o t c1 :
  let c0 := mkCtx p (e_state e) o t in
  ep_inv (debug_assertions env) n e -> e_peers e !! i = Some p -> Inv env c0 n [] c1 ->
  owned (self c1) = [] ->
  exists m, idmap_remove_peer (ids (est c1)) (cfg_key (p_config (self c1))) = Ret m /\
    ep_inv (debug_assertions env) n (mkEndpoint (set_ids (est c1) m) (delete i (e_peers e))) /\
    forall k, node_keys m !! k = if decide (k = cfg_key (p_config p)) then None
                                 else node_keys (ids (e_state e)) !! k.
Proof.
  intros c0 [] Hp HI Hown. destruct (ei_peer0 i p Hp) as (_ & Hid & _ & Hk). destruct HI.
  cbn [self est c0] in *. rewrite Hid, Hown in *. unfold idmap_remove_peer.
  rewrite inv_keys, inv_config, Hk. mrun. eexists. split; [done|]. split.
  - split; cbn [e_state e_peers set_ids ids node_keys sessions scheduler timestamps]; try done.
    + intros j q [Hne Hq]%lookup_delete_Some. destruct (ei_peer0 j q Hq) as (H1 & H2 & H3 & H4).
      do 3 (split; [done|]). rewrite lookup_delete_ne; [done|]. intros E. rewrite E in Hk. congruence.
    + intros j q s [Hne Hq]%lookup_delete_Some Hs. apply inv_frame; [done|]. by eapply ei_mapped0.
    + intros Hd s j Hs. destruct (decide (j = i)) as [->|Hne].
      { apply (inv_exact Hd) in Hs. by apply elem_of_nil in Hs. }
      apply inv_frame in Hs; [|done]. destruct (ei_exact0 Hd s j Hs) as (q & Hq & Hin).
      exists q. by rewrite lookup_delete_ne by done.
    + intros k j [Hne (q & Hq & Hqk)%ei_keys0]%lookup_delete_Some. exists q. split; [|done].
      rewrite lookup_delete_ne; [done|]. intros ->. congruence.
  - intros k. cbn [node_keys]. case_decide as E; [subst; by rewrite lookup_delete_eq|].
    by rewrite lookup_delete_ne by done.
Qed.

(** A new peer. *)
Lemma added_inv n e i cfg :
  ep_inv (debug_assertions env) n e -> e_peers e !! i = None ->
  node_keys (ids (e_state e)) !! cfg_key cfg = None -> cfg_ok cfg ->
  exists m, idmap_add_peer (ids (e_state e)) i (cfg_key cfg) = (m, true) /\
    ep_inv (debug_assertions env) n
      (mkEndpoint (set_ids (e_state e) m) (<[i := Peer_new i cfg]> (e_peers e))).
Proof.
  intros [] Hp Hk Hc. unfold idmap_add_peer. rewrite Hk. eexists. split; [done|].
  split; cbn [e_state e_peers set_ids ids node_keys sessions scheduler timestamps]; try done.
  - intros j q [[<- <-]|[Hne Hq]]%lookup_insert_Some.
    + rewrite lookup_insert_eq. split; [split; [exact Hc|by repeat constructor]|]. split; [done|].
      split; [constructor|done].
    + destruct (ei_peer0 j q Hq) as (H1 & H2 & H3 & H4). do 3 (split; [done|]).
      rewrite lookup_insert_ne; [done|]. intros E. by rewrite <- E, Hk in H4.
  - intros j q s [[<- <-]|[Hne Hq]]%lookup_insert_Some Hs; [by apply elem_of_nil in Hs|].
    by eapply ei_mapped0.
  - intros Hd s j Hs. destruct (ei_exact0 Hd s j Hs) as (q & Hq & Hin). exists q.
    rewrite lookup_insert_ne; [done|]. intros <-. congruence.
  - intros k j [[<- <-]|[Hne Hj]]%lookup_insert_Some.
    + exists (Peer_new i cfg). by rewrite lookup_insert_eq.
    + destruct (ei_keys0 k j Hj) as (q & Hq & Hqk). exists q.
      rewrite lookup_insert_ne; [done|]. intros <-. congruence.
Qed.

(** A peer whose configuration keeps its key. *)
Lemma reconfigured_inv n e i p cfg :
  ep_inv (debug_assertions env) n e -> e_peers e !! i = Some p -> cfg_ok cfg ->
  cfg_key cfg = cfg_key (p_config p) ->
  ep_inv (debug_assertions env) n (mkEndpoint (e_state e) (<[i := set_config p cfg]> (e_peers e))).
Proof.
  intros [] Hp Hc Hk. split; cbn [e_state e_peers]; try done.
  - intros j q [[<- <-]|[Hne Hq]]%lookup_insert_Some; [|by apply ei_peer0].
    destruct (ei_peer0 i p Hp) as ((_ & H1 & H2) & H3 & H4 & H5).
    split; [by split|]. split; [done|]. split; [done|]. cbn [set_config p_config]. by rewrite Hk.
  - intros j q s [[<- <-]|[Hne Hq]]%lookup_insert_Some Hs; by eapply ei_mapped0.
  - intros Hd s j Hs. destruct (ei_exact0 Hd s j Hs) as (q & Hq & Hin).
    destruct (decide (j = i)) as [->|Hne].
    + exists (set_config p cfg). rewrite lookup_insert_eq. split; [done|].
      by replace q with p in Hin by congruence.
    + exists q. by rewrite lookup_insert_ne by done.
  - intros k j Hj. destruct (ei_keys0 k j Hj) as (q & Hq & Hqk). destruct (decide (j = i)) as [->|Hne].
    + exists (set_config p cfg). rewrite lookup_insert_eq. split; [done|]. cbn [set_config p_config].
      rewrite Hk. by replace q with p in Hqk by congruence.
    + exists q. by rewrite lookup_insert_ne by done.
Qed.

(** Shutting down a peer taken from [e], whatever map of peers is in place. *)
Lemma ewp_shutdown n e i p c Q :
  ep_inv (debug_assertions env) n e -> e_peers e !! i = Some p -> e_state (ep c) = e_state e ->
  (forall p' st o t m, p_config p' = p_config p ->
    idmap_remove_peer (ids st) (cfg_key (p_config p')) = Ret m ->
    ep_inv (debug_assertions env) n (mkEndpoint (set_ids st m) (delete i (e_peers e))) ->
    (forall k, node_keys m !! k = if decide (k = cfg_key (p_config p)) then None
                                  else node_keys (ids (e_state e)) !! k) ->
    Q (tt, p') (mkECtx (mkEndpoint st (e_peers (ep c))) o t)) ->
  ewp (run_peer p shutdown) c Q.
Proof.
  intros HI Hp Hst HQ. pose proof (enter n e i p (eout c) (etick c) HI Hp) as H0i.
  set (c0 := mkCtx p (e_state e) (eout c) (etick c)) in *. cbn zeta in H0i.
  assert (wp env shutdown c0 (fun _ c' => owned (self c') = [] /\ Inv env c0 n [] c')) as Hw
    by (eapply wp_shutdown; [exact H0i|auto]).
  unfold wp in Hw. unfold ewp, run_peer. rewrite Hst. fold c0.
  destruct (shutdown _) as [[[] c']|]; [|done]. destruct Hw as [Hown HI'].
  destruct (removed_inv n e i p _ _ _ HI Hp HI' Hown) as (m & E & Hinv & Hm).
  eapply HQ; [|done..]. apply HI'.
Qed.

Lemma remove_inv i n c : EI n c -> ewp (remove_peer_body i) c (fun _ => EI n).
Proof.
  intros HI. unfold remove_peer_body. apply ewp_bind, ewp_get.
  destruct (e_peers (ep c) !! i) as [p|] eqn:Hp; [|by apply ewp_ret].
  apply ewp_bind. unfold put_ep at 1, ewp at 1. apply ewp_bind.
  eapply (ewp_shutdown n (ep c)); [exact HI|done|done|]. intros p' st o t m Hc E Hinv _.
  apply ewp_bind, ewp_get. apply ewp_bind. eapply ewp_lift; [exact E|]. exact Hinv.
Qed.

Lemma upsert_inv i cfg n c :
  EI n c -> cfg_ok cfg ->
  (forall owner, node_keys (ids (e_state (ep c))) !! cfg_key cfg = Some owner -> owner = i) ->
  ewp (upsert_peer_body env i cfg) c (fun _ => EI n).
Proof.
  intros HI Hc Hcol. unfold upsert_peer_body. apply ewp_bind, ewp_get. apply ewp_bind.
  eapply (ewp_lift _ _ _ tt).
  { unfold get_by_nodekey. destruct (node_keys _ !! _) as [w|] eqn:Ek; [|done].
    by rewrite bool_decide_eq_true_2 by (by apply Hcol). }
  destruct (e_peers (ep c) !! i) as [p|] eqn:Hp.
  - case_decide as Hch.
    + apply ewp_bind. unfold put_ep at 1, ewp at 1. apply ewp_bind.
      eapply (ewp_shutdown n (ep c)); [exact HI|done|done|]. intros p' st o t m Hcfg E Hinv Hm.
      apply ewp_bind, ewp_get. apply ewp_bind. eapply ewp_lift; [exact E|].
      edestruct (added_inv n _ i cfg Hinv) as (m' & E' & Hinv').
      { apply lookup_delete_eq. }
      { cbn [e_state set_ids ids]. rewrite Hm. case_decide as Ek; [done|].
        apply eq_None_not_Some. intros [w Ew].
        pose proof (Hcol w Ew) as ->. destruct (ei_keys _ _ _ HI _ _ Ew) as (q & Hq & Hqk). congruence. }
      { done. }
      cbn [e_state set_ids ids] in E'. rewrite E'. apply ewp_bind. eapply ewp_lift; [done|].
      apply ewp_bind. cbn [e_peers] in Hinv'. rewrite insert_delete_eq in Hinv'. exact Hinv'.
    + assert (cfg_key cfg = cfg_key (p_config p)) as Hk.
      { destruct (decide (cfg_key (p_config p) = cfg_key cfg)); [done|]. exfalso. tauto. }
      apply ewp_bind. eapply (ewp_mono _ _ (fun _ => EI n)).
      { unfold ewp, put_ep, EI. cbn [ep]. by apply reconfigured_inv. }
      intros [] c1 HI1. apply ewp_bind. eapply (ewp_mono _ _ (fun _ => EI n)).
      { case_decide; [by apply ewp_ret|]. eapply ewp_with_peer; [exact HI1|lia|]. intros c0 HI0.
        destruct (effective_persistent_keepalive cfg), (p_session p);
          try (eapply (wp_arm_persistent_keepalive env c0); [exact HI0|by intros]);
          wself; wbind; wput HI0; intros c2 _ _ HI2; (eapply wp_cancel_opt; [exact HI2|by intros]). }
      intros [] c2 HI2. by apply ewp_ret.
  - destruct (added_inv n (ep c) i cfg HI Hp) as (m & E & Hinv); [|done|].
    { apply eq_None_not_Some. intros [w Ew].
      pose proof (Hcol w Ew) as ->. destruct (ei_keys _ _ _ HI _ _ Ew) as (q & Hq & _). congruence. }
    rewrite E. apply ewp_bind. eapply ewp_lift; [done|]. exact Hinv.
Qed.
End Lifting.

(** ** Reachable endpoints *)

Inductive Op :=
| OpUpsert (id : Z) (cfg : PeerConfig)
| OpRemove (id : Z)
| OpSend (packets : list (Z * list (list Z)))
| OpPriority (id : Z) (msg : list Z)
| OpRecv (from : option Z) (packets : list (list Z)) (order : list Z)
| OpDispatch (now : Z).

Section Reachable.
Context `{!CryptoOps}.

Definition run_op (env : Env) (e : Endpoint) (op : Op) : outcome Endpoint :=
  match op with
  | OpUpsert id cfg => '(_, e, _) ← upsert_peer env e id cfg; Ret e
  | OpRemove id => '(_, e, _) ← remove_peer e id; Ret e
  | OpSend packets => '(_, e, _) ← endpoint_send env e packets; Ret e
  | OpPriority id msg => '(_, e, _) ← send_priority_message env e id msg; Ret e
  | OpRecv from packets order => '(_, e, _) ← recv_from env e from packets order; Ret e
  | OpDispatch now => '(_, e, _) ← dispatch_events env e now; Ret e
  end.

(** What callers promise: keepalive intervals are shorter than [2 ^ 62]
    seconds, a node key is not configured for two peers (documented to panic),
    packets are shorter than the limit of the cipher, and received packets are
    bytes. *)
Definition op_ok (e : Endpoint) (op : Op) : Prop :=
  match op with
  | OpUpsert id cfg => cfg_ok cfg /\ forall owner, peer_id e (cfg_key cfg) = Some owner -> owner = id
  | OpRemove _ | OpPriority _ _ | OpDispatch _ => True
  | OpSend packets => Forall (fun pp => Forall packet_fits pp.2) packets
  | OpRecv _ packets _ => Forall bytes_ok packets
  end.

(** A bound on the handshakes that an operation starts. *)
Definition initiations (e : Endpoint) (op : Op) : nat :=
  match op with
  | OpSend packets => length packets
  | OpRecv _ _ order => length order
  | OpDispatch _ => length (events (scheduler (e_state e)))
  | _ => 0
  end.

(** Endpoints reached from a new one by a build with or without debug
    assertions, with the handshakes started so far. *)
Inductive reachable (dbg : bool) (key : NodeKeyPair) : nat -> Endpoint -> Prop :=
| reach_new : reachable dbg key 0 (Endpoint_new key)
| reach_step k e env op e' :
    reachable dbg key k e -> env_ok env -> debug_assertions env = dbg -> op_ok e op ->
    Z.of_nat (k + initiations e op) <= 2 ^ 62 -> run_op env e op = Ret e' ->
    reachable dbg key (k + initiations e op) e'.

Context `{!CryptoLaws}.

Lemma run_call_spec {A} env n e (m : EM A) :
  ewp env m (mkECtx e Result_default 0) (fun _ => EI env n) ->
  match ('(_, e, _) ← run_call e m; Ret e) with
  | Ret e' => ep_inv (debug_assertions env) n e'
  | Panic => debug_assertions env = true
  end.
Proof. unfold ewp, run_call. by destruct (m _) as [[a c']|]. Qed.

(** One operation. *)
Lemma run_op_spec env n e op :
  env_ok env -> ep_inv (debug_assertions env) n e -> op_ok e op ->
  n + Z.of_nat (initiations e op) <= 2 ^ 64 ->
  match run_op env e op with
  | Ret e' => ep_inv (debug_assertions env) (n + Z.of_nat (initiations e op)) e'
  | Panic => debug_assertions env = true
  end.
Proof.
  intros He HI Hok Hn. destruct op; cbn [run_op initiations op_ok] in *; rewrite ?Z.add_0_r;
    apply run_call_spec.
  - destruct Hok. by apply upsert_inv.
  - by apply remove_inv.
  - by apply send_inv.
  - by apply priority_inv.
  - by apply recv_inv.
  - by apply (dispatch_inv env now n (mkECtx e Result_default 0)).
Qed.

Lemma reachable_inv dbg key k e :
  reachable dbg key k e -> ep_inv dbg (2 ^ 63 + Z.of_nat k) e.
Proof.
  induction 1 as [|k e env op e' _ IH He <- Hok Hk E].
  - rewrite Z.add_0_r. apply ep_inv_new.
  - assert (match run_op env e op with
            | Ret e' => ep_inv (debug_assertions env)
                (2 ^ 63 + Z.of_nat k + Z.of_nat (initiations e op)) e'
            | Panic => debug_assertions env = true end) as HH.
    { apply run_op_spec; [done..|]. lia. }
    rewrite E in HH. eapply ep_inv_mono; [exact HH|]. lia.
Qed.
End Reachable.

(** ** Keepalives, replayed initiations and waiting packets *)

(** The iteration order of the map of groups: its keys other than zero. *)
Definition group_order (packets : list (list Z)) (order : list Z) : Prop :=
  NoDup order /\ forall k, k ∈ order <-> k <> 0 /\ exists p, p ∈ packets /\ group_key p = k.

(** The packets waiting for a session after appending batches. *)
Definition queue_batches (batches : list (list (list Z))) : list (list Z) := foldl append [] batches.

(** Whether an initiation is newer than all that were answered. *)
Definition newer (rh : ReceivedHandshake) (p : Peer) : bool :=
  match p_last_seen_timestamp p with
  | Some t => bool_decide (tai_lt t (rh_timestamp rh))
  | None => true
  end.

Lemma append_last q ps :
  (length q <= MAX_QUEUED_PER_PEER)%nat ->
  append q ps = drop (length (q ++ ps) - MAX_QUEUED_PER_PEER) (q ++ ps).
Proof.
  intros Hq. unfold append. rewrite length_app, drop_app.
  unfold MAX_QUEUED_PER_PEER in *. f_equal; [|f_equal; lia].
  destruct (decide (32 <= length ps)%nat); [|f_equal; lia]. by rewrite !drop_ge by lia.
Qed.

(** The waiting packets are the last [MAX_QUEUED_PER_PEER] of all that
    were queued, in order; the queue never grows beyond that. *)
Theorem queue_keeps_newest batches :
  queue_batches batches
    = drop (length (concat batches) - MAX_QUEUED_PER_PEER) (concat batches) /\
  (length (queue_batches batches) <= MAX_QUEUED_PER_PEER)%nat.
Proof.
  assert (queue_batches batches
    = drop (length (concat batches) - MAX_QUEUED_PER_PEER) (concat batches)) as E.
  { unfold queue_batches. induction batches as [|b bs IH] using rev_ind; [done|].
    rewrite foldl_app, concat_app. cbn [foldl concat]. rewrite app_nil_r, IH.
    rewrite append_last by (rewrite length_drop; lia). rewrite !length_app, length_drop.
    set (m := MAX_QUEUED_PER_PEER). destruct (decide (length (concat bs) <= m)%nat) as [Hle|Hgt].
    - by rewrite (proj2 (Nat.sub_0_le (length (concat bs)) m)), drop_0, Nat.sub_0_r by done.
    - rewrite !drop_app, drop_drop, length_drop. f_equal; [|f_equal; lia].
      destruct (decide (m <= length b)%nat); [by rewrite !drop_ge by (rewrite ?length_drop; lia)|f_equal; lia]. }
  split; [done|]. rewrite E, length_drop. lia.
Qed.

(** Answer initiations to one peer in turn; the result lists the timestamps of
    those that were answered. *)
Fixpoint respond_all `{!CryptoOps} (env : Env) (rhs : list ReceivedHandshake) : PM (list TAI64N) :=
  match rhs with
  | [] => mret []
  | rh :: rhs =>
      p ← get_self;
      _ ← respond_to_handshake env rh;
      rest ← respond_all env rhs;
      mret (if newer rh p then rh_timestamp rh :: rest else rest)
  end.

Section Respond.
Context `{!CryptoOps}.

Lemma cancel_keeps_last_seen h c c' u :
  cancel_opt h c = Ret (u, c') -> p_last_seen_timestamp (self c') = p_last_seen_timestamp (self c).
Proof.
  destruct h as [h|]; cbn; [|by intros [= <- <-]].
  unfold handle_cancel, mbind, PM_bind, get_est, lift, put_est.
  by destruct (Scheduler.cancel _ _); intros [= <- <-].
Qed.

Lemma remove_keeps_last_seen id c c' u :
  ids_remove_session id c = Ret (u, c') ->
  p_last_seen_timestamp (self c') = p_last_seen_timestamp (self c).
Proof.
  unfold ids_remove_session, mbind, PM_bind, get_est, lift, put_est.
  by destruct (remove_session _ _); intros [= <- <-].
Qed.

(** An initiation is answered and remembered, or changes nothing. *)
Lemma respond_last_seen env rh c c' u :
  respond_to_handshake env rh c = Ret (u, c') ->
  if newer rh (self c) then p_last_seen_timestamp (self c') = Some (rh_timestamp rh) else c' = c.
Proof.
  unfold respond_to_handshake, mbind at 1, PM_bind at 1, get_self at 1.
  assert (match p_last_seen_timestamp (self c) with
    | Some timestamp => negb (bool_decide (tai_lt timestamp (rh_timestamp rh)))
    | None => false end = negb (newer rh (self c))) as ->.
  { unfold newer. by destruct (p_last_seen_timestamp (self c)). }
  destruct (newer rh (self c)); cbn [negb]; [|by intros [= _ <-]].
  unfold mbind, PM_bind, put_self at 1, cancel_new_handshake, get_self, put_self at 1.
  cbn [self est out tick]. unfold mbind, PM_bind.
  destruct (cancel_opt _ _) as [[? c1]|] eqn:E1; [|done]. apply cancel_keeps_last_seen in E1.
  cbn [self p_last_seen_timestamp set_new_handshake set_last_seen] in E1.
  unfold allocate_session, mbind, PM_bind, get_self, get_est, next_tick, lift, put_est.
  cbn [self est out tick]. destruct (rassert _); [|done]. cbn [self est out tick].
  unfold instant_now, random_bytes, next_tick, mbind, PM_bind. cbn -[hs_respond].
  destruct (hs_respond _ _ _ _ _ _ _ _) as [[[h pkt] d]|]; [|done].
  unfold put_self. cbn. destruct d as [old|]; cbn.
  - destruct (ids_remove_session _ _) as [[? c2]|] eqn:E2; [|done].
    apply remove_keeps_last_seen in E2. cbn in E2. intros [= _ <-]. cbn. congruence.
  - intros [= _ <-]. done.
Qed.
End Respond.

#[export] Instance tai_lt_trans : Transitive tai_lt.
Proof. intros [s1 n1] [s2 n2] [s3 n3]. unfold tai_lt. cbn. lia. Qed.

Section RespondAll.
Context `{!CryptoOps, !CryptoLaws} (env : Env) `{!env_ok env}.

Lemma respond_all_sorted rhs c acc c' :
  respond_all env rhs c = Ret (acc, c') ->
  StronglySorted tai_lt acc /\
  forall t, p_last_seen_timestamp (self c) = Some t -> Forall (tai_lt t) acc.
Proof.
  revert c acc c'. induction rhs as [|rh rhs IH]; intros c acc c'; cbn [respond_all].
  { intros [= <- <-]. split; [constructor|]. intros. constructor. }
  unfold mbind, PM_bind, get_self. destruct (respond_to_handshake env rh c) as [[u c1]|] eqn:E; [|done].
  apply respond_last_seen in E. destruct (respond_all env rhs c1) as [[rest c2]|] eqn:Er; [|done].
  apply IH in Er as [Hs Hf]. unfold newer in *. intros [= <- <-].
  destruct (p_last_seen_timestamp (self c)) as [t0|] eqn:El.
  - case_bool_decide as Hlt; [|subst c1; rewrite El in *; split; [done|]; by intros ? [= <-]; apply Hf].
    specialize (Hf _ E). split; [by constructor|]. intros ? [= <-].
    constructor; [done|]. eapply Forall_impl; [exact Hf|]. intros t Ht. by etrans.
  - specialize (Hf _ E). split; [by constructor|]. done.
Qed.

Lemma wp_respond_all c0 rhs n c :
  Inv env c0 n [] c -> wp env (respond_all env rhs) c (fun _ c' => Inv env c0 n [] c').
Proof.
  revert c. induction rhs as [|rh rhs IH]; intros c HI; cbn [respond_all]; [by apply wp_ret|].
  wself. wbind. eapply (wp_respond_to_handshake env); [exact HI|]. intros c1 HI1. wbind.
  eapply wp_mono; [by apply IH|]. intros acc c2 HI2. by apply wp_ret.
Qed.
End RespondAll.

(** ** Properties *)

(** C9: in a release build no public operation panics: from any endpoint
    reached by the public operations, every call with acceptable arguments
    returns, whatever the peers send and the random generator draws.
    Acceptable is ([op_ok], [env_ok]): a keepalive interval is shorter than
    2^62 s, a node key is configured for one peer, packets are shorter than the
    limit of the cipher; the system clock is within 2^59 s of the epoch, the
    draw of a session id ends on a vacant one, the monotonic clock stays below
    2^62 s and two readings of it within one call are at most the 180 s life of
    a session apart; and at most 2^62 handshakes are started.
    The bounds on the interval and on the readings are needed
    ([keepalive_interval_panics], [stalled_handshake_panics]). *)
Theorem endpoint_never_panics `{!CryptoOps, !CryptoLaws} key k e env op :
  reachable false key k e -> env_ok env -> debug_assertions env = false -> op_ok e op ->
  Z.of_nat (k + initiations e op) <= 2 ^ 62 ->
  exists e', run_op env e op = Ret e'.
Proof.
  intros HR He Hd Hok Hk. apply reachable_inv in HR. rewrite <- Hd in HR.
  pose proof (run_op_spec env _ e op He HR Hok ltac:(lia)) as HH.
  destruct (run_op env e op) as [e'|]; [by eexists|congruence].
Qed.

(** C23: in every reachable endpoint the session ids of a peer (of its two
    receive sessions, of the initiation in flight and of the tentative
    session) are distinct and route to that peer, so no id belongs to two
    peers; node keys and peer ids correspond; and with debug assertions every
    allocated id is owned, so none is leaked. *)
Theorem endpoint_ids_consistent `{!CryptoOps, !CryptoLaws} dbg key k e :
  reachable dbg key k e ->
  (forall i p, e_peers e !! i = Some p -> p_id p = i /\ NoDup (owned p) /\
    forall s, s ∈ owned p -> get_by_session_id (ids (e_state e)) s = Some i) /\
  (forall i nk, peer_key e i = Some nk <-> peer_id e nk = Some i) /\
  (dbg = true -> forall s i, get_by_session_id (ids (e_state e)) s = Some i ->
    exists p, e_peers e !! i = Some p /\ s ∈ owned p).
Proof.
  intros []%reachable_inv. split_and!.
  - intros i p Hp. destruct (ei_peer0 i p Hp) as (_ & H1 & H2 & _). split_and!; [done..|].
    intros s Hs. by eapply ei_mapped0.
  - intros i nk. unfold peer_key, peer_id, get_by_nodekey. rewrite fmap_Some. split.
    + intros (p & Hp & ->). by apply ei_peer0.
    + intros (p & Hp & <-)%ei_keys0. by eexists.
  - done.
Qed.

(** Replayed initiations.  Of the authenticated initiations that a peer
    receives, in any order and with any repetitions, those answered have
    strictly increasing timestamps: no initiation is answered twice and none
    after a newer one. *)
Theorem initiations_answered_once `{!CryptoOps, !CryptoLaws} env n c rhs :
  env_ok env -> debug_assertions env = false -> Inv env c n [] c ->
  exists acc c', respond_all env rhs c = Ret (acc, c') /\ StronglySorted tai_lt acc /\
    forall t, p_last_seen_timestamp (self c) = Some t -> Forall (tai_lt t) acc.
Proof.
  intros He Hd HI. pose proof (wp_respond_all env c rhs n c HI) as HH. unfold wp in HH.
  destruct (respond_all env rhs c) as [[acc c']|] eqn:E; [|congruence].
  apply respond_all_sorted in E. by eexists _, _.
Qed.

(** A recorded keepalive handle while the peer has no session. *)
Definition stale_keepalive (c : Ctx) (h : Handle) : Prop :=
  p_keepalive (self c) = Some h /\ exists queue, p_session (self c) = SNone queue.

(** A keepalive timer that fires while the peer has no usable session
    stays recorded as armed, and from then on the reactive keepalive is never
    scheduled again: [schedule_keepalive] leaves the scheduler alone for as
    long as the stale handle is there. *)
Theorem keepalive_handle_stays `{!CryptoOps} env c h :
  stale_keepalive c h ->
  send_keepalive env c = Ret (tt, c) /\
  exists c', schedule_keepalive env c = Ret (tt, c') /\ est c' = est c /\ stale_keepalive c' h.
Proof.
  intros (Hk & queue & Hs). split.
  - unfold send_keepalive, encrypt_keepalive, encrypt_one, mbind, PM_bind, get_self. by rewrite Hs.
  - unfold schedule_keepalive, mbind, PM_bind, get_self. rewrite Hk. eexists. split; [done|].
    split; [done|]. split; [done|]. by exists queue.
Qed.

(** A session whose id is zero never receives: transport packets that
    name receiver zero are taken for handshakes and dropped, the endpoint and
    its result unchanged. *)
Theorem session_zero_never_receives `{!CryptoOps} env e from packets order :
  group_order packets order ->
  Forall (fun p => exists h, Message_try_from p = Some (M_TransportDataHeader h) /\
    td_receiver_id h = 0) packets ->
  recv_from env e from packets order = Ret (tt, e, Result_default).
Proof.
  intros [_ Hord] Hps. assert (order = []) as ->.
  { destruct order as [|k order]; [done|]. destruct (proj1 (Hord k) ltac:(by left)) as (Hk & p & Hp & Hg).
    rewrite Forall_forall in Hps. destruct (Hps p Hp) as (h & Hm & Hz).
    unfold group_key in Hg. rewrite Hm in Hg. cbn in Hg. congruence. }
  unfold recv_from, run_call, recv_from_body.
  assert (forall c, process_handshakes env from (filter (fun p => group_key p = 0) packets) c
    = Ret (tt, c)) as E.
  { clear Hord. intros c. induction Hps as [|p ps (h & Hm & Hz) _ IH]; [done|].
    rewrite filter_cons. case_decide; [|done]. cbn [process_handshakes].
    unfold mbind, EM_bind, process_one_handshake. rewrite Hm. exact IH. }
  unfold mbind at 2, EM_bind at 1. rewrite E. done.
Qed.

(** ** A run of two endpoints

    With the model of the cryptography, at the given second. *)

From S2P Require Import CryptoModel.

Definition ex_env (dbg : bool) (t seed : Z) : Env :=
  mkEnv dbg (fun _ => Session.secs t) (fun _ => Session.secs t) (fun _ => 0)
    (fun k n => replicate n (Z.of_nat k + seed))
    (fun _ m => fresh ({[0]} ∪ dom m : gset Z)).

#[export] Instance ex_env_ok dbg t seed : 0 <= t < 2 ^ 32 -> env_ok (ex_env dbg t seed).
Proof.
  intros Ht. split; cbn.
  - intros _. unfold time_ok, Session.secs. rewrite Z.div_mul by done. lia.
  - intros _ m. apply not_elem_of_dom. pose proof (is_fresh ({[0]} ∪ dom m : gset Z)). set_solver.
  - intros _. unfold instant_early, INSTANT_MIN, HALF_RANGE, Session.secs. lia.
  - intros _ _. rewrite Z.sub_diag. unfold REJECT_AFTER_TIME, Session.secs. lia.
Qed.

Definition ex_key (x : Z) : NodeKeyPair := mkNodeKeyPair (replicate 32 x) (x25519_pub (replicate 32 x)).

Definition ex_peer (x : Z) : PeerConfig := mkPeerConfig (public (ex_key x)) (replicate 32 7) None.

Definition ex_queued (r : Result_) (p : Z) : list (list Z) := default [] (to_peers r !! p).

Definition ex_order (ps : list (list Z)) : list Z :=
  remove_dups (filter (fun k => k <> 0) (group_key <$> ps)).

(** ** Examples *)

Lemma ex_peer_ok x : cfg_ok (ex_peer x).
Proof. by intros ?. Qed.

Definition ex_upserted (dbg : bool) : Endpoint :=
  match run_op (ex_env dbg 1 0) (Endpoint_new (ex_key 1)) (OpUpsert 21 (ex_peer 2)) with
  | Ret e => e
  | Panic => Endpoint_new (ex_key 1)
  end.

Lemma ex_upserted_reachable dbg : reachable dbg (ex_key 1) 0 (ex_upserted dbg).
Proof.
  apply (reach_step dbg (ex_key 1) 0 (Endpoint_new (ex_key 1)) (ex_env dbg 1 0) (OpUpsert 21 (ex_peer 2)));
    [constructor|apply ex_env_ok; lia|done|split; [apply ex_peer_ok|done]|done|].
  unfold ex_upserted. destruct dbg; vm_compute; reflexivity.
Qed.

Lemma endpoint_never_panics_witness :
  exists e', run_op (ex_env false 1 3) (ex_upserted false) (OpSend [(21, [[1; 2; 3]])]) = Ret e'.
Proof.
  apply (endpoint_never_panics (ex_key 1) 0).
  - apply ex_upserted_reachable.
  - apply ex_env_ok. lia.
  - reflexivity.
  - repeat constructor. unfold packet_fits, P_MAX. simpl. lia.
  - simpl. lia.
Defined.

Lemma endpoint_ids_consistent_witness :
  (forall i p, e_peers (ex_upserted true) !! i = Some p -> p_id p = i /\ NoDup (owned p) /\
    forall s, s ∈ owned p -> get_by_session_id (ids (e_state (ex_upserted true))) s = Some i) /\
  (forall i nk, peer_key (ex_upserted true) i = Some nk <-> peer_id (ex_upserted true) nk = Some i) /\
  (true = true -> forall s i, get_by_session_id (ids (e_state (ex_upserted true))) s = Some i ->
    exists p, e_peers (ex_upserted true) !! i = Some p /\ s ∈ owned p).
Proof. apply (endpoint_ids_consistent true (ex_key 1) 0). apply ex_upserted_reachable. Defined.

Definition ex_ctx : Ctx := mkCtx (Peer_new 21 (ex_peer 2)) (e_state (ex_upserted false)) Result_default 0.

Lemma ex_ctx_inv : Inv (ex_env false 1 3) ex_ctx (2 ^ 63 + 0) [] ex_ctx.
Proof.
  apply (enter (ex_env false 1 3) _ (ex_upserted false) 21).
  - apply (reachable_inv false (ex_key 1) 0), ex_upserted_reachable.
  - by vm_compute.
Qed.

Definition ex_rh (t : Z) : ReceivedHandshake :=
  mkReceivedHandshake 5 (replicate 32 1) (replicate 32 2) (mkTAI64N t 0) (mkHandshakeState [] [] None).

Lemma initiations_answered_once_witness :
  exists acc c', respond_all (ex_env false 1 3) [ex_rh 4; ex_rh 4; ex_rh 6; ex_rh 5] ex_ctx
      = Ret (acc, c') /\ StronglySorted tai_lt acc /\
    forall t, p_last_seen_timestamp (self ex_ctx) = Some t -> Forall (tai_lt t) acc.
Proof.
  apply (initiations_answered_once (ex_env false 1 3) (2 ^ 63 + 0) ex_ctx).
  - apply ex_env_ok. lia.
  - reflexivity.
  - apply ex_ctx_inv.
Defined.

Definition ex_stale : Ctx :=
  mkCtx (set_keepalive (Peer_new 21 (ex_peer 2)) (Some 0%nat)) (e_state (ex_upserted false))
    Result_default 0.

Lemma keepalive_handle_stays_witness :
  send_keepalive (ex_env false 1 3) ex_stale = Ret (tt, ex_stale) /\
  exists c', schedule_keepalive (ex_env false 1 3) ex_stale = Ret (tt, c') /\ est c' = est ex_stale /\
    stale_keepalive c' 0%nat.
Proof.
  apply (keepalive_handle_stays (ex_env false 1 3) ex_stale 0%nat). split; [reflexivity|].
  exists []. reflexivity.
Defined.

Definition ex_zero : list Z :=
  TransportDataHeader_as_bytes (mkTransportDataHeader MT_TransportData [0; 0; 0] 0 1) ++ replicate 16 0.

Lemma session_zero_never_receives_witness :
  recv_from (ex_env false 1 3) (ex_upserted false) None [ex_zero] []
    = Ret (tt, ex_upserted false, Result_default).
Proof.
  apply session_zero_never_receives.
  - split; [constructor|]. intros k. split; [by intros ?%elem_of_nil|].
    intros (Hk & p & Hp%list_elem_of_singleton & Hg). subst p.
    assert (group_key ex_zero = 0) by (vm_compute; reflexivity). congruence.
  - constructor; [|constructor]. exists (mkTransportDataHeader MT_TransportData [0; 0; 0] 0 1).
    split; vm_compute; reflexivity.
Defined.
