(* ===== verification/EndpointKeys.v ===== *)
(** * EndpointKeys: whose keys open what an endpoint delivers

    Every receive key that an endpoint holds for a peer comes from a Noise
    handshake with the static key and the preshared key that are configured for
    that peer, and a packet is delivered as coming from a peer only when it
    opened under such a key.  The first is an invariant of all public
    operations, the second a property of [recv_from]. *)

From stdpp Require Import gmap.
From S2P Require Import Prelude Bytes Packet Routers Crypto Messages Tai64 Session Macs Scheduler Handshake Endpoint EndpointInv EndpointMethods EndpointSafe.

Local Open Scope Z_scope.

(** ** Keys of a peer *)

Section Keys.
Context `{!CryptoOps}.

(** The receive keys of the handshakes between [me] and the holder of the
    static key [pub]: as the initiator, a key that a response to an initiation
    for [pub] completed; as the responder, a key answered to an initiation that
    authenticated [pub]. *)
Inductive session_key (me : NodeKeyPair) (pub psk : list Z) : list Z -> Prop :=
| key_initiator id ts eph sent init resp keys :
    initiate_handshake (private me) pub id ts eph = Ret (sent, init) ->
    finish_keys sent resp psk = Ret (Some keys) ->
    session_key me pub psk (responder_to_initiator keys)
| key_responder init macs rh eph id sender now mac_now pair pkt :
    ReceivedHandshake_new init me macs = Ret (Some rh) -> rh_peer_static rh = pub ->
    rh_respond rh eph id psk sender now mac_now = Ret (pair, pkt) ->
    session_key me pub psk (rs_key (recv pair)).

Definition cfg_session_key (me : NodeKeyPair) (cfg : PeerConfig) (key : list Z) : Prop :=
  session_key me (cfg_key cfg) (cfg_psk cfg) key.

Definition initiated_by (me : NodeKeyPair) (pub : list Z) (sent : SentHandshake) : Prop :=
  exists id ts eph init, initiate_handshake (private me) pub id ts eph = Ret (sent, init).

Definition session_keyed (K : list Z -> Prop) (s : SessionState) : Prop :=
  match s with
  | SNone _ => True
  | SActive r r_prev _ _ _ => K (rs_key r) /\ from_option (fun r => K (rs_key r)) True r_prev
  end.

(** The sessions and handshakes of a peer are with its configured key. *)
Record keyed (me : NodeKeyPair) (p : Peer) : Prop := {
  kd_session : session_keyed (cfg_session_key me (p_config p)) (p_session p);
  kd_initiated : from_option (fun i => initiated_by me (cfg_key (p_config p)) i.1.1) True
    (initiated (p_handshake p));
  kd_responded : from_option (fun pair => cfg_session_key me (p_config p) (rs_key (recv pair))) True
    (responded (p_handshake p));
}.

(** [p] is the plaintext of one of the packets under a key of the peer, at the
    nonce that the packet carries. *)
Definition opened_by (me : NodeKeyPair) (cfg : PeerConfig) (packets : list packet) (p : packet)
    : Prop :=
  exists pkt header body key, pkt ∈ packets /\
    TransportDataHeader_try_from_prefix pkt = Some (header, body) /\
    chacha_open key (nonce_bytes (td_nonce header)) [] body = Some p /\
    cfg_session_key me cfg key.

Definition opened_under (key : list Z) (packets : list packet) (p : packet) : Prop :=
  exists pkt header body, pkt ∈ packets /\
    TransportDataHeader_try_from_prefix pkt = Some (header, body) /\
    chacha_open key (nonce_bytes (td_nonce header)) [] body = Some p.

Lemma opened_under_by me cfg key packets packets' p :
  (forall x, x ∈ packets -> x ∈ packets') -> cfg_session_key me cfg key ->
  opened_under key packets p -> opened_by me cfg packets' p.
Proof. intros Hs Hk (pkt & h & b & Hp & E1 & E2). exists pkt, h, b, key. auto. Qed.

Lemma decrypt_one_key dbg r pkt r' o :
  decrypt_one dbg r pkt = Ret (r', o) ->
  rs_key r' = rs_key r /\ forall p, o = Some p -> opened_under (rs_key r) [pkt] p.
Proof.
  unfold decrypt_one. destruct (TransportDataHeader_try_from_prefix pkt) as [[h body]|] eqn:Eh;
    [|by intros [= <- <-]].
  case_decide; [destruct dbg; [done|by intros [= <- <-]]|].
  destruct (Replay.check _ _) as [ok|]; [|done]. cbn [mbind outcome_bind].
  destruct (negb ok); [by intros [= <- <-]|].
  destruct (chacha_open _ _ _ _) as [plain|] eqn:Ec; [|by intros [= <- <-]].
  destruct (Replay.set _ _); [|done]. intros [= <- <-]. split; [done|]. intros p [= <-].
  exists pkt, h, body. split; [by left|done].
Qed.

Lemma decrypt_key dbg packets : forall r r' out,
  decrypt dbg r packets = Ret (r', out) ->
  rs_key r' = rs_key r /\ Forall (opened_under (rs_key r) packets) out.
Proof.
  induction packets as [|pkt packets IH]; intros r r' out; cbn [decrypt].
  { intros [= <- <-]. split; [done|constructor]. }
  destruct (decrypt_one dbg r pkt) as [[r1 o]|] eqn:E1; [|done]. cbn [mbind outcome_bind].
  destruct (decrypt dbg r1 packets) as [[r2 rest]|] eqn:E2; [|done]. intros [= <- <-].
  apply decrypt_one_key in E1 as [K1 H1]. apply IH in E2 as [K2 H2]. rewrite K1 in *.
  split; [done|]. assert (Forall (opened_under (rs_key r) (pkt :: packets)) rest) as Hrest.
  { eapply Forall_impl; [exact H2|]. intros p (q & h & b & Hq & E). exists q, h, b. split; [by right|done]. }
  destruct o as [p|]; [|done]. constructor; [|done].
  destruct (H1 p eq_refl) as (q & h & b & ->%list_elem_of_singleton & E). exists pkt, h, b. split; [by left|done].
Qed.
End Keys.

(** ** What a method keeps *)

Section Kept.
Context `{!CryptoOps} (packets : list packet).

(** What every method leaves alone. *)
Record framed (c c' : Ctx) : Prop := {
  fr_me : my_key (est c') = my_key (est c);
  fr_nodes : node_keys (ids (est c')) = node_keys (ids (est c));
  fr_id : p_id (self c') = p_id (self c);
  fr_config : p_config (self c') = p_config (self c);
}.

Record kept (c c' : Ctx) : Prop := {
  kp_frame : framed c c';
  kp_keyed : keyed (my_key (est c)) (self c) -> keyed (my_key (est c)) (self c');
  kp_local : keyed (my_key (est c)) (self c) -> forall peer p,
    p ∈ entry (to_local (out c')) peer ->
    p ∈ entry (to_local (out c)) peer \/
    peer = p_id (self c) /\ opened_by (my_key (est c)) (p_config (self c)) packets p;
}.

#[export] Instance framed_refl : Reflexive framed.
Proof. intros c. by split. Qed.

#[export] Instance framed_trans : Transitive framed.
Proof. intros c1 c2 c3 [] []. split; congruence. Qed.

#[export] Instance kept_refl : Reflexive kept.
Proof. intros c. split; auto. reflexivity. Qed.

#[export] Instance kept_trans : Transitive kept.
Proof.
  intros c1 c2 c3 [F K L] [F' K' L']. split; [by etrans|..]; destruct F as [M N I C];
    rewrite ?M, ?C, ?I in *; [by auto|].
  intros Hk peer p Hp. destruct (L' (K Hk) peer p Hp) as [Hp'|?]; [by apply L|by right].
Qed.

(** The keys need only be followed from a state that has them. *)
Lemma kept_intro c c' :
  framed c c' -> (keyed (my_key (est c)) (self c) -> kept c c') -> kept c c'.
Proof. intros F HK. split; [done|..]; intros Hk; by apply HK. Qed.

Definition keeps {A} (m : PM A) : Prop := forall c a c', m c = Ret (a, c') -> kept c c'.

Lemma PM_bind_Ret {A B} (m : PM A) (k : A -> PM B) c b c' :
  (m ≫= k) c = Ret (b, c') -> exists a c1, m c = Ret (a, c1) /\ k a c1 = Ret (b, c').
Proof. unfold mbind, PM_bind. destruct (m c) as [[a c1]|]; [eauto|done]. Qed.

Lemma keeps_bind {A B} (m : PM A) (k : A -> PM B) :
  keeps m -> (forall a, keeps (k a)) -> keeps (m ≫= k).
Proof.
  intros Hm Hk c b c' (a & c1 & E1 & E2)%PM_bind_Ret. etrans; [by eapply Hm|by eapply Hk].
Qed.

Lemma keeps_ret {A} (a : A) : keeps (mret a).
Proof. by intros c a' c' [= _ <-]. Qed.
Lemma keeps_lift {A} (m : outcome A) : keeps (lift m).
Proof. intros c a c'. unfold lift. by destruct m; intros [= _ <-]. Qed.
Lemma keeps_get_self : keeps get_self.
Proof. by intros c a c' [= _ <-]. Qed.
Lemma keeps_get_est : keeps get_est.
Proof. by intros c a c' [= _ <-]. Qed.
Lemma keeps_next_tick : keeps next_tick.
Proof. intros c a c' [= _ <-]. split; auto. by split. Qed.
Lemma keeps_queue_to_peer ps : keeps (queue_to_peer ps).
Proof. intros c a c' [= _ <-]. split; auto. by split. Qed.
Lemma keeps_note : keeps note_session_established.
Proof. intros c a c' [= _ <-]. split; auto. by split. Qed.

(** Changing fields that hold no keys. *)
Lemma kept_fields c p s o t :
  to_local o = to_local (out c) -> my_key s = my_key (est c) -> node_keys (ids s) = node_keys (ids (est c)) ->
  p_id p = p_id (self c) -> p_config p = p_config (self c) ->
  (keyed (my_key (est c)) (self c) -> keyed (my_key (est c)) p) ->
  kept c (mkCtx p s o t).
Proof. intros El. intros. split; auto; [by split|]. cbn. rewrite El. auto. Qed.

Lemma keyed_same me p p' :
  p_config p' = p_config p -> p_session p' = p_session p -> p_handshake p' = p_handshake p ->
  keyed me p -> keyed me p'.
Proof. intros E1 E2 E3 []. split; by rewrite ?E1, ?E2, ?E3. Qed.
End Kept.

Create HintDb keys.
#[export] Hint Resolve keeps_ret keeps_lift keeps_get_self keeps_get_est keeps_next_tick
  keeps_queue_to_peer keeps_note : keys.

(** Follows the structure of a method whose steps keep the keys. *)
Ltac keep :=
  repeat first
    [ solve [auto with keys]
    | apply keeps_bind; [|intros ?]
    | progress cbv zeta
    | match goal with |- keeps _ (match ?x with _ => _ end) => destruct x end ].

(** Runs a short method to its final state. *)
Ltac run_pm E :=
  unfold instant_now, system_now, random_u64, random_bytes in E;
  unfold mbind, PM_bind, mret, PM_ret, get_self, put_self, get_est, put_est, lift, next_tick,
    modify_out in E;
  cbn [self est out tick] in E; simplify_eq; repeat (case_match; simplify_eq; cbn [self est out tick] in * ).

(** ** The methods of a peer *)

Section Methods.
Context `{!CryptoOps} (env : Env) (packets : list packet).

(** A method that ends in a state with the same keys. *)
Ltac leaf :=
  let c := fresh "c" in let a := fresh "a" in let c' := fresh "c'" in let E := fresh "E" in
  intros c a c' E; run_pm E; try reflexivity;
  (apply kept_fields; try done; try (by apply keyed_same)).

(** The session holds the receive keys that it held. *)
Ltac same_session :=
  intros [Hs Hi Hr]; split; cbn in *; try done;
  match goal with Hp : p_session _ = _ |- _ => by rewrite Hp in Hs end.

Lemma keeps_instant_now : keeps packets (instant_now env).
Proof. unfold instant_now. keep. Qed.
Lemma keeps_random_u64 : keeps packets (random_u64 env).
Proof. unfold random_u64. keep. Qed.
Lemma keeps_random_bytes n : keeps packets (random_bytes env n).
Proof. unfold random_bytes. keep. Qed.
Lemma keeps_system_now : keeps packets (system_now env).
Proof. unfold system_now. keep. Qed.

Lemma keeps_scheduler_add tr ev : keeps packets (scheduler_add tr ev).
Proof. unfold scheduler_add. leaf. Qed.
Lemma keeps_handle_cancel h : keeps packets (handle_cancel h).
Proof. unfold handle_cancel. leaf. Qed.

Lemma remove_session_nodes m id m' : remove_session m id = Ret m' -> node_keys m' = node_keys m.
Proof. unfold remove_session. destruct (sessions m !! id); [|done]. by intros [= <-]. Qed.

Lemma keeps_ids_remove id : keeps packets (ids_remove_session id).
Proof. unfold ids_remove_session. leaf. by eapply remove_session_nodes. Qed.
Lemma keeps_allocate : keeps packets (allocate_session env).
Proof. unfold allocate_session. leaf. Qed.
Lemma keeps_take_session : keeps packets take_session.
Proof. unfold take_session. leaf. intros []. by split. Qed.
Hint Resolve keeps_instant_now keeps_random_u64 keeps_random_bytes keeps_system_now
  keeps_scheduler_add keeps_handle_cancel keeps_ids_remove keeps_allocate keeps_take_session : keys.

Lemma keeps_cancel_opt h : keeps packets (cancel_opt h).
Proof. unfold cancel_opt. keep. Qed.

Lemma keeps_deactivate : keeps packets deactivate.
Proof. unfold deactivate. keep. Qed.

Lemma activate_framed next b c a c' : activate next b c = Ret (a, c') -> framed c c'.
Proof.
  intros E. unfold activate, take_session, ids_remove_session in E. run_pm E; (split; try done).
  by eapply remove_session_nodes.
Qed.

Lemma activate_kept next b c a c' :
  (keyed (my_key (est c)) (self c) ->
   cfg_session_key (my_key (est c)) (p_config (self c)) (rs_key (recv next))) ->
  activate next b c = Ret (a, c') -> kept packets c c'.
Proof.
  intros HK E. unfold activate, take_session, ids_remove_session in E. run_pm E;
    (apply kept_fields; try done; [..|]);
    try (intros Hk; specialize (HK Hk); destruct Hk as [Hs Hi Hr]; split; cbn in *; try done;
      match goal with Hp : p_session _ = _ |- _ => rewrite Hp in Hs end; cbn in Hs; tauto).
  by eapply remove_session_nodes.
Qed.

Lemma keeps_keep_fresh now : keeps packets (keep_key_fresh_receiving now).
Proof. unfold keep_key_fresh_receiving. leaf; same_session. Qed.

Lemma keeps_encrypt_one p : keeps packets (encrypt_one env p).
Proof. unfold encrypt_one. leaf; same_session. Qed.

Lemma keeps_get_recv id : keeps packets (get_recv env id).
Proof. unfold get_recv. keep. Qed.
Lemma keeps_needs_rotation : keeps packets (needs_rotation env).
Proof. unfold needs_rotation. keep. Qed.

(** The packets that a session opens are from the peer. *)
Lemma session_decrypt_kept cur ps c out c' :
  session_decrypt env cur ps c = Ret (out, c') ->
  kept packets c c' /\
  (keyed (my_key (est c)) (self c) ->
   Forall (opened_by (my_key (est c)) (p_config (self c)) ps) out).
Proof.
  intros E. unfold session_decrypt in E. run_pm E; try (split; [done|intros; by apply Forall_nil_2]);
    match goal with Hd : decrypt _ _ _ = _ |- _ => apply decrypt_key in Hd as [Hkey Hopen] end;
    match goal with Hp : p_session _ = _ |- _ => rename Hp into Hses end;
    (split;
      [apply kept_fields; try done; intros [Hs Hi Hr]; split; cbn in *; try done;
       rewrite Hses in Hs; cbn in Hs; rewrite Hkey; tauto
      |intros [Hs _ _]; rewrite Hses in Hs; cbn in Hs; eapply Forall_impl; [exact Hopen|];
       intros p; apply opened_under_by; tauto]).
Qed.

Lemma keeps_arm_new_handshake : keeps packets (arm_new_handshake env).
Proof. unfold arm_new_handshake, new_handshake_delay, scheduler_add. leaf. Qed.
Lemma keeps_cancel_new_handshake : keeps packets cancel_new_handshake.
Proof. unfold cancel_new_handshake, cancel_opt, handle_cancel. leaf. Qed.
Lemma keeps_schedule_keepalive : keeps packets (schedule_keepalive env).
Proof. unfold schedule_keepalive, scheduler_add. leaf. Qed.
Lemma keeps_arm_persistent : keeps packets (arm_persistent_keepalive env).
Proof. unfold arm_persistent_keepalive, scheduler_add, cancel_opt, handle_cancel. leaf. Qed.

Lemma set_initiated_Ret dbg h sent timeout mac h' :
  set_initiated dbg h sent timeout mac = Ret h' ->
  h' = mkHandshake (Some (sent, timeout, mac)) (responded h).
Proof. unfold set_initiated. destruct (rassert _); [|done]. by intros [= <-]. Qed.

Lemma keeps_start_handshake b : keeps packets (start_handshake env b).
Proof.
  unfold start_handshake, rekey_retransmit_delay, allocate_session, scheduler_add, queue_to_peer.
  intros c a c' E. run_pm E; (apply kept_fields; try done);
    (intros [Hs Hi Hr];
     match goal with Hh : set_initiated _ _ _ _ _ = _ |- _ => apply set_initiated_Ret in Hh as -> end;
     split; [exact Hs|by eexists _, _, _, _|exact Hr]).
Qed.

Lemma keeps_encrypt_or_queue ps : keeps packets (encrypt_or_queue env ps).
Proof.
  unfold encrypt_or_queue, deactivate, take_session, ids_remove_session. leaf; try same_session;
    repeat match goal with Hm : remove_session _ _ = Ret _ |- _ =>
      apply remove_session_nodes in Hm; cbn in Hm end; cbn; congruence.
Qed.
Hint Resolve keeps_cancel_opt keeps_deactivate keeps_keep_fresh keeps_encrypt_one keeps_get_recv
  keeps_needs_rotation keeps_arm_new_handshake keeps_cancel_new_handshake keeps_schedule_keepalive
  keeps_arm_persistent keeps_start_handshake keeps_encrypt_or_queue : keys.

Lemma keeps_peer_send ps : keeps packets (peer_send env ps).
Proof. unfold peer_send. keep. Qed.
Lemma keeps_priority msg : keeps packets (peer_send_priority_message env msg).
Proof. unfold peer_send_priority_message, encrypt_priority. keep. Qed.
Lemma keeps_cookie_reply r : keeps packets (recv_cookie_reply env r).
Proof. unfold recv_cookie_reply. leaf. Qed.

Lemma hs_finish_key me cfg h resp cookies now sched h' sched' o p :
  hs_finish_slot h resp (cfg_psk cfg) cookies now sched = Ret (h', sched', o) ->
  p_config p = cfg -> p_handshake p = h -> keyed me p ->
  keyed me (set_handshake p h') /\
  forall pair, o = Some pair -> cfg_session_key me cfg (rs_key (recv pair)).
Proof.
  intros E <- <- [Hs Hi Hr]. unfold hs_finish_slot in E.
  destruct (initiated (p_handshake p)) as [[[sent timeout] mac]|] eqn:Ei.
  2: { injection E as <- _ <-. split; [|done]. split; cbn; by rewrite ?Ei. }
  destruct (negb _). { injection E as <- _ <-. split; [|done]. split; cbn; by rewrite ?Ei. }
  destruct (finish_keys _ _ _) as [[keys|]|] eqn:Ek; [|injection E as <- _ <-|done].
  2: { split; [|done]. split; cbn; by rewrite ?Ei. }
  cbn in E. destruct (Scheduler.cancel _ _); [|done]. injection E as <- _ <-. split; [by split|].
  intros pair [= <-]. cbn in Hi. destruct Hi as (id & ts & eph & init & Hi). by eapply key_initiator.
Qed.

(** What follows the completion of a handshake, as either role. *)
Lemma activate_bind {B} next b (k : list packet -> PM B) c x c' :
  (forall ps, keeps packets (k ps)) ->
  (keyed (my_key (est c)) (self c) ->
   cfg_session_key (my_key (est c)) (p_config (self c)) (rs_key (recv next))) ->
  (activate next b ≫= k) c = Ret (x, c') -> kept packets c c'.
Proof.
  intros Hk HK (ps & c1 & E1 & E2)%PM_bind_Ret. etrans; [by eapply activate_kept|by eapply Hk].
Qed.

Lemma activate_bind_framed {B} next b (k : list packet -> PM B) c x c' :
  (forall ps, keeps packets (k ps)) -> (activate next b ≫= k) c = Ret (x, c') -> framed c c'.
Proof.
  intros Hk (ps & c1 & E1 & E2)%PM_bind_Ret. apply Hk in E2. etrans; [by eapply activate_framed|apply E2].
Qed.

Lemma keeps_attempts_then {B} (f : Peer -> Z) (m : PM B) :
  keeps packets m -> keeps packets (p ← get_self; _ ← put_self (set_attempts p (f p)); m).
Proof.
  intros Hm c a c' E. apply PM_bind_Ret in E as (p & ? & [= <- <-] & E).
  apply PM_bind_Ret in E as ([] & c1 & [= <-] & E). etrans; [|by eapply Hm].
  by apply kept_fields; try apply keyed_same.
Qed.

Lemma keeps_handshake_response r : keeps packets (recv_handshake_response env r).
Proof.
  unfold recv_handshake_response. intros c a c' (now & c1 & E1 & E)%PM_bind_Ret.
  apply keeps_instant_now in E1. etrans; [exact E1|]. clear E1.
  apply PM_bind_Ret in E as (p & ? & [= <- <-] & E). apply PM_bind_Ret in E as (s & ? & [= <- <-] & E).
  apply PM_bind_Ret in E as ([[h sched] o] & cx & Ef & E). unfold lift in Ef.
  destruct (hs_finish_slot _ _ _ _ _ _) as [x|] eqn:Ef'; [|done]. injection Ef as -> <-.
  pose proof (fun me => hs_finish_key me _ _ _ _ _ _ _ _ _ (self c1) Ef' eq_refl eq_refl) as Hk.
  apply PM_bind_Ret in E as ([] & ? & [= <-] & E). apply PM_bind_Ret in E as ([] & c2 & [= <-] & E).
  cbn [self est out tick] in E. set (c2 := mkCtx _ _ _ _) in E.
  assert (kept packets c1 c2) as H12 by (apply kept_fields; try done; intros; by apply Hk).
  destruct o as [pair|]; [|by injection E as _ <-].
  apply PM_bind_Ret in E as (p & ? & [= <- <-] & E). apply PM_bind_Ret in E as ([] & c3 & E3 & E).
  assert (kept packets c2 c3) as H23 by (injection E3 as <-; by apply kept_fields; try apply keyed_same).
  apply PM_bind_Ret in E as ([] & c4 & E4%keeps_cancel_new_handshake & E).
  assert (kept packets c1 c4) as H14 by (etrans; [exact H12|]; by etrans).
  apply kept_intro.
  - etrans; [apply H14|]. eapply activate_bind_framed; [|exact E]. intros ps. keep.
  - intros Hk1. etrans; [exact H14|]. eapply activate_bind; [|..|exact E]; [intros ps; keep|].
    intros _. destruct H14 as [[M _ _ C] _ _]. rewrite M, C. by apply Hk.
Qed.
Hint Resolve keeps_peer_send keeps_priority keeps_cookie_reply keeps_handshake_response : keys.

Lemma opened_by_mono me cfg ps p :
  (forall x, x ∈ ps -> x ∈ packets) -> opened_by me cfg ps p -> opened_by me cfg packets p.
Proof. intros Hs (pkt & h & b & key & Hp & E). exists pkt, h, b, key. auto. Qed.

Lemma queue_to_local_framed ps c a c' : queue_to_local ps c = Ret (a, c') -> framed c c'.
Proof. intros [= _ <-]. by split. Qed.

Lemma queue_to_local_kept ps c a c' :
  Forall (opened_by (my_key (est c)) (p_config (self c)) packets) ps ->
  queue_to_local ps c = Ret (a, c') -> kept packets c c'.
Proof.
  intros Hps [= _ <-]. split; [by split|done|]. intros _ peer p. cbn. unfold entry, queue_packets.
  destruct (decide (peer = p_id (self c))) as [->|Hne].
  - rewrite lookup_insert_eq. intros [Hp|Hp]%elem_of_app; [by left|right].
    rewrite Forall_forall in Hps. auto.
  - rewrite lookup_insert_ne by done. by left.
Qed.

Lemma hs_confirm_key me dbg p id ps now h' r :
  hs_confirm dbg (p_handshake p) id ps now = Ret (h', r) -> keyed me p ->
  keyed me (set_handshake p h') /\
  forall pair out, r = Some (pair, out) ->
    cfg_session_key me (p_config p) (rs_key (recv pair)) /\ Forall (opened_by me (p_config p) ps) out.
Proof.
  intros E [Hs Hi Hr]. unfold hs_confirm in E. destruct (responded (p_handshake p)) as [t|] eqn:Et.
  2: { injection E as <- <-. split; [|done]. split; cbn; by rewrite ?Et. }
  case_decide. { injection E as <- <-. split; [|done]. split; cbn; by rewrite ?Et. }
  destruct (rs_expired _ _). { injection E as <- <-. split; [|done]. split; cbn; by rewrite ?Et. }
  destruct (decrypt _ _ _) as [[r' out]|] eqn:Ed; [|done]. apply decrypt_key in Ed as [Ek Ho].
  cbn in E, Hr. destruct out as [|q out]; injection E as <- <-.
  - split; [|done]. split; cbn; by rewrite ?Ek.
  - split; [by split|]. intros pair out' [= <- <-]. cbn. rewrite Ek. split; [done|].
    eapply Forall_impl; [exact Ho|]. intros x. by apply opened_under_by.
Qed.

Lemma by_keeps {A} (m : PM A) c a c' : m c = Ret (a, c') -> keeps packets m -> kept packets c c'.
Proof. intros E Hm. by eapply Hm. Qed.

(** Data on an established session. *)
Lemma recv_established_kept cur ps c c' a :
  (forall p, p ∈ ps -> p ∈ packets) ->
  (out ← session_decrypt env cur ps;
   match out with
   | [] => mret tt
   | _ =>
       _ ← cancel_new_handshake;
       let data_received := existsb (fun p => negb (bool_decide (p = []))) out in
       _ ← queue_to_local out;
       _ ← (if (data_received : bool) then schedule_keepalive env else mret tt);
       now ← instant_now env;
       rekey ← keep_key_fresh_receiving now;
       if (rekey : bool) then start_handshake env false else mret tt
   end) c = Ret (a, c') -> kept packets c c'.
Proof.
  intros Hsub (out & c1 & E1 & E)%PM_bind_Ret. apply session_decrypt_kept in E1 as [H1 Ho].
  destruct out as [|q out]; [by injection E as _ <-|].
  apply PM_bind_Ret in E as ([] & c2 & E2%keeps_cancel_new_handshake & E). cbv zeta in E.
  apply PM_bind_Ret in E as ([] & c3 & E3 & E).
  assert (kept packets c c2) as H2 by (by etrans).
  assert (kept packets c3 c') as H4 by (eapply by_keeps; [exact E|keep]).
  apply kept_intro; [etrans; [apply H2|]; etrans; [by eapply queue_to_local_framed|apply H4]|].
  intros Hk. etrans; [exact H2|]. etrans; [|exact H4]. eapply queue_to_local_kept; [|exact E3].
  destruct H2 as [[M _ _ C] _ _]. rewrite M, C. eapply Forall_impl; [by apply Ho|].
  intros p. by apply opened_by_mono.
Qed.

(** Data that confirms a session this side has answered. *)
Lemma recv_confirmed_kept id ps c c' a :
  (forall p, p ∈ ps -> p ∈ packets) ->
  (p ← get_self;
   now ← instant_now env;
   '(h, r) ← lift (hs_confirm (debug_assertions env) (p_handshake p) id ps now);
   _ ← put_self (set_handshake p h);
   match r with
   | None => mret tt
   | Some (session, out) =>
       _ ← cancel_new_handshake;
       _ ← queue_to_local out;
       _ ← schedule_keepalive env;
       packets_for_peer ← activate session false;
       _ ← arm_persistent_keepalive env;
       _ ← (match packets_for_peer with [] => mret tt | _ => queue_to_peer packets_for_peer end);
       note_session_established
   end) c = Ret (a, c') -> kept packets c c'.
Proof.
  intros Hsub E. apply PM_bind_Ret in E as (p & ? & [= <- <-] & E).
  apply PM_bind_Ret in E as (now & c1 & E1 & E). injection E1 as _ <-.
  apply PM_bind_Ret in E as ([h r] & cx & Ef & E). unfold lift in Ef.
  destruct (hs_confirm _ _ _ _ _) as [x|] eqn:Ec; [|done]. injection Ef as -> <-.
  pose proof (fun me => hs_confirm_key me _ _ _ _ _ _ _ Ec) as HK.
  apply PM_bind_Ret in E as ([] & c2 & [= <-] & E). cbn [self est out tick] in E.
  set (c2 := mkCtx _ _ _ _) in E.
  assert (kept packets c c2) as H2 by (apply kept_fields; try done; intros; by apply HK).
  destruct r as [[pair out]|]; [|by injection E as _ <-].
  apply PM_bind_Ret in E as ([] & c3 & E3%keeps_cancel_new_handshake & E).
  assert (kept packets c c3) as H3 by (by etrans).
  apply PM_bind_Ret in E as ([] & c4 & E4 & E).
  apply PM_bind_Ret in E as ([] & c5 & E5%keeps_schedule_keepalive & E).
  assert (framed c c5) as F5.
  { etrans; [apply H3|]. etrans; [by eapply queue_to_local_framed|apply E5]. }
  apply kept_intro; [etrans; [exact F5|]; eapply activate_bind_framed; [|exact E]; intros; keep|].
  intros Hk. destruct (HK _ Hk) as [_ Hp]. destruct (Hp pair out eq_refl) as [Hpair Hout].
  etrans; [exact H3|]. etrans; [|etrans; [exact E5|]].
  - eapply queue_to_local_kept; [|exact E4]. destruct H3 as [[M _ _ C] _ _]. rewrite M, C.
    eapply Forall_impl; [exact Hout|]. intros x. by apply opened_by_mono.
  - eapply activate_bind; [| |exact E]; [intros; keep|]. destruct F5 as [M _ _ C]. by rewrite M, C.
Qed.

Lemma recv_transport_kept id ps :
  (forall p, p ∈ ps -> p ∈ packets) -> keeps packets (recv_transport_data env id ps).
Proof.
  intros Hsub c a c' (found & c1 & E1%keeps_get_recv & E)%PM_bind_Ret. etrans; [exact E1|].
  destruct found as [cur|]; [by eapply recv_established_kept|by eapply recv_confirmed_kept].
Qed.

Lemma keeps_recv_retain ps : keeps packets (recv_retain env ps).
Proof. induction ps as [|p ps IH]; cbn [recv_retain]; keep. Qed.

Lemma recv_retain_subset ps : forall c kept c',
  recv_retain env ps c = Ret (kept, c') -> forall p, p ∈ kept -> p ∈ ps.
Proof.
  induction ps as [|q ps IH]; intros c kept c' E; cbn [recv_retain] in E; [by injection E as <- _|].
  apply PM_bind_Ret in E as (keep & c1 & _ & E). apply PM_bind_Ret in E as (rest & c2 & E2 & [= <- _]).
  intros p. destruct keep; [rewrite !elem_of_cons; intros [->|]; [by left|]|intros; apply elem_of_cons];
    right; by eapply IH.
Qed.

Lemma peer_recv_kept id ps :
  (forall p, p ∈ ps -> p ∈ packets) -> keeps packets (peer_recv env id ps).
Proof.
  intros Hsub c a c' (rest & c1 & E1 & E)%PM_bind_Ret. pose proof (recv_retain_subset _ _ _ _ E1) as Hr.
  apply keeps_recv_retain in E1. etrans; [exact E1|]. eapply recv_transport_kept; [|exact E]. auto.
Qed.

(** Answering an initiation that authenticated the peer. *)
Lemma respond_kept init macs rh c a c' :
  ReceivedHandshake_new init (my_key (est c)) macs = Ret (Some rh) ->
  rh_peer_static rh = cfg_key (p_config (self c)) ->
  respond_to_handshake env rh c = Ret (a, c') -> kept packets c c'.
Proof.
  intros Hrh Hst E. unfold respond_to_handshake in E. apply PM_bind_Ret in E as (p & ? & [= <- <-] & E).
  cbv zeta in E. match type of E with (if ?b then _ else _) _ = _ => destruct b end; [by injection E as _ <-|].
  apply PM_bind_Ret in E as ([] & c1 & E1 & E).
  assert (kept packets c c1) as H1 by (injection E1 as <-; by apply kept_fields; try apply keyed_same).
  apply PM_bind_Ret in E as ([] & c2 & E2%keeps_cancel_new_handshake & E).
  apply PM_bind_Ret in E as (id & c3 & E3%keeps_allocate & E).
  assert (kept packets c c3) as H3 by (etrans; [exact H1|]; by etrans).
  apply PM_bind_Ret in E as (p & ? & [= <- <-] & E).
  apply PM_bind_Ret in E as (now & ? & [= _ <-] & E). apply PM_bind_Ret in E as (eph & ? & [= _ <-] & E).
  apply PM_bind_Ret in E as (mnow & ? & [= _ <-] & E). apply PM_bind_Ret in E as ([[h pkt] old] & cx & Ef & E).
  unfold lift, hs_respond in Ef. destruct (rh_respond _ _ _ _ _ _ _) as [[pair pkt']|] eqn:Er; [|done].
  injection Ef as <- <- <- <-. apply PM_bind_Ret in E as ([] & c4 & [= <-] & E). cbn [self est out tick] in E.
  etrans; [exact H3|]. etrans; [|eapply by_keeps; [exact E|keep]].
  apply kept_fields; try done. intros [Hs Hi Hr]. split; [done|done|]. cbn.
  destruct H3 as [[M _ _ C] _ _]. rewrite M, ?C in *. eapply key_responder; [exact Hrh|exact Hst|exact Er].
Qed.

Lemma keeps_new_handshake_timeout : keeps packets (new_handshake_timeout env).
Proof.
  unfold new_handshake_timeout. intros c a c' E. apply PM_bind_Ret in E as (p & ? & [= <- <-] & E).
  apply PM_bind_Ret in E as ([] & c1 & [= <-] & E).
  etrans; [|eapply by_keeps; [exact E|keep]]. by apply kept_fields; try apply keyed_same.
Qed.

Lemma remove_handshake_nodes m h m' :
  remove_handshake_session m h = Ret m' -> node_keys m' = node_keys m.
Proof.
  unfold remove_handshake_session. destruct (initiated_session_id h) as [i|].
  - destruct (remove_session m i) as [m1|] eqn:E1; [|done]. cbn [mbind outcome_bind].
    destruct (responded_session_id h); [intros ->%remove_session_nodes|intros [= <-]];
      by eapply remove_session_nodes.
  - cbn [mbind outcome_bind]. destruct (responded_session_id h); [apply remove_session_nodes|by intros [= <-]].
Qed.

(** Dropping both handshakes of a peer. *)
Lemma forget_handshakes_kept c m :
  remove_handshake_session (ids (est c)) (p_handshake (self c)) = Ret m ->
  kept packets c (mkCtx (set_handshake (self c) Handshake_none) (set_ids (est c) m) (out c) (tick c)).
Proof.
  intros E%remove_handshake_nodes. apply kept_fields; try done. intros [Hs _ _]. by split.
Qed.

Lemma keeps_handshake_timeout : keeps packets (handshake_timeout env).
Proof.
  unfold handshake_timeout. intros c a c' E. apply PM_bind_Ret in E as (p & ? & [= <- <-] & E).
  destruct (negb _); [by injection E as _ <-|]. apply PM_bind_Ret in E as (s & ? & [= <- <-] & E).
  apply PM_bind_Ret in E as (m & cx & Ef & E). unfold lift in Ef.
  destruct (remove_handshake_session _ _) as [x|] eqn:Er; [|done]. injection Ef as -> <-.
  apply PM_bind_Ret in E as ([] & ? & [= <-] & E). apply PM_bind_Ret in E as ([] & ? & [= <-] & E).
  cbn [self est out tick] in E. etrans; [by apply forget_handshakes_kept|].
  case_decide; (eapply by_keeps; [exact E|]).
  - apply keeps_bind; [keep|]. intros _. apply keeps_attempts_then. keep.
  - apply keeps_attempts_then. keep.
Qed.

Lemma keeps_send_keepalive : keeps packets (send_keepalive env).
Proof.
  unfold send_keepalive, encrypt_keepalive. apply keeps_bind; [keep|]. intros [pkt|]; [|keep].
  apply keeps_bind; [keep|]. intros _ c a c' E.
  apply PM_bind_Ret in E as (p & ? & [= <- <-] & E). apply PM_bind_Ret in E as ([] & c1 & [= <-] & E).
  etrans; [|eapply by_keeps; [exact E|]]; [by apply kept_fields; try apply keyed_same|].
  destruct (p_send_another_keepalive _); [|keep]. apply keeps_bind; [keep|]. intros _. leaf.
Qed.

Lemma keeps_send_persistent : keeps packets (send_persistent_keepalive env).
Proof.
  intros c a c' E. apply PM_bind_Ret in E as (p & ? & [= <- <-] & E).
  apply PM_bind_Ret in E as ([] & c1 & [= <-] & E).
  etrans; [|eapply by_keeps; [exact E|unfold encrypt_keepalive; keep]].
  by apply kept_fields; try apply keyed_same.
Qed.

Lemma keeps_cancel_persistent :
  keeps packets (p ← get_self; _ ← put_self (set_persistent p None); cancel_opt (p_persistent_keepalive p)).
Proof. unfold cancel_opt, handle_cancel. leaf. Qed.

Lemma keeps_cancel_all_timers : keeps packets cancel_all_timers.
Proof.
  intros c a c' E. apply PM_bind_Ret in E as (p & ? & [= <- <-] & E).
  apply PM_bind_Ret in E as ([] & c1 & [= <-] & E).
  apply PM_bind_Ret in E as ([] & c2 & E2%keeps_cancel_opt & E).
  etrans; [|etrans; [exact E2|]]; [by apply kept_fields; try apply keyed_same|].
  apply PM_bind_Ret in E as (p & ? & [= <- <-] & E).
  apply PM_bind_Ret in E as ([] & c3 & [= <-] & E).
  etrans; [|eapply by_keeps; [exact E|keep]]. by apply kept_fields; try apply keyed_same.
Qed.

Lemma keeps_shutdown : keeps packets shutdown.
Proof.
  intros c a c' E. apply PM_bind_Ret in E as ([] & c1 & E1%keeps_deactivate & E). etrans; [exact E1|].
  apply PM_bind_Ret in E as (p & ? & [= <- <-] & E). apply PM_bind_Ret in E as (s & ? & [= <- <-] & E).
  apply PM_bind_Ret in E as (m & cx & Ef & E). unfold lift in Ef.
  destruct (remove_handshake_session _ _) as [x|] eqn:Er; [|done]. injection Ef as -> <-.
  apply PM_bind_Ret in E as ([] & ? & [= <-] & E). apply PM_bind_Ret in E as ([] & ? & [= <-] & E).
  cbn [self est out tick] in E. etrans; [by apply forget_handshakes_kept|].
  apply PM_bind_Ret in E as (s & ? & [= <- <-] & E). apply PM_bind_Ret in E as (sched & cx & Ef & E).
  unfold lift in Ef. destruct (hs_cancel _ _); [|done]. injection Ef as <- <-.
  apply PM_bind_Ret in E as ([] & ? & [= <-] & E).
  etrans; [|by eapply keeps_cancel_all_timers]. by apply kept_fields.
Qed.
End Methods.

#[export] Hint Resolve keeps_send_keepalive keeps_send_persistent keeps_new_handshake_timeout
  keeps_handshake_timeout keeps_priority keeps_peer_send keeps_shutdown keeps_arm_persistent
  keeps_cancel_persistent : keys.

(** ** The endpoint *)

Section EndpointKeyed.
Context `{!CryptoOps}.

(** Every peer is keyed, and a node key leads to the peer configured with it. *)
Record keyed_ep (e : Endpoint) : Prop := {
  ke_id i p : e_peers e !! i = Some p -> p_id p = i;
  ke_nodes k i p : node_keys (ids (e_state e)) !! k = Some i -> e_peers e !! i = Some p ->
    cfg_key (p_config p) = k;
  ke_keys i p : e_peers e !! i = Some p -> keyed (my_key (e_state e)) p;
}.

(** The last part is what [ep_inv] does not say. *)
Lemma keyed_ep_intro dbg n e :
  ep_inv dbg n e -> (forall i p, e_peers e !! i = Some p -> keyed (my_key (e_state e)) p) -> keyed_ep e.
Proof.
  intros HI Hk. split; [|intros k i p Hn Hp|done].
  - intros i p Hp. by apply (ei_peer _ _ _ HI).
  - destruct (ei_keys _ _ _ HI k i Hn) as (q & Hq & <-). congruence.
Qed.

Lemma keyed_ep_new key : keyed_ep (Endpoint_new key).
Proof. split; intros *; cbn; by rewrite ?lookup_empty. Qed.

Lemma keyed_Peer_new me i cfg : keyed me (Peer_new i cfg).
Proof. by split. Qed.

Section Calls.
Context (env : Env) (packets : list packet).

(** What a call keeps and delivers, from an endpoint with keyed peers. *)
Record ekept_at (c c' : ECtx) : Prop := {
  ek_me : my_key (e_state (ep c')) = my_key (e_state (ep c));
  ek_config i : p_config <$> e_peers (ep c') !! i = p_config <$> e_peers (ep c) !! i;
  ek_keyed : keyed_ep (ep c');
  ek_local peer p : p ∈ entry (to_local (eout c')) peer ->
    p ∈ entry (to_local (eout c)) peer \/
    exists q, e_peers (ep c) !! peer = Some q /\
      opened_by (my_key (e_state (ep c))) (p_config q) packets p;
}.

Definition ekept (c c' : ECtx) : Prop := keyed_ep (ep c) -> ekept_at c c'.

#[export] Instance ekept_refl : Reflexive ekept.
Proof. intros c Hk. split; auto. Qed.

#[export] Instance ekept_trans : Transitive ekept.
Proof.
  intros c1 c2 c3 H12 H23 Hk. destruct (H12 Hk) as [M C K L]. destruct (H23 K) as [M' C' K' L'].
  split; [congruence|intros; by rewrite C', C|done|]. intros peer p Hp.
  destruct (L' peer p Hp) as [Hp'|(q & Hq & Ho)]; [by apply L|right].
  specialize (C peer). rewrite Hq in C. destruct (e_peers (ep c1) !! peer) as [q1|] eqn:Hq1; [|done].
  injection C as C. exists q1. by rewrite <- M, <- C.
Qed.

Definition ekeeps {A} (m : EM A) : Prop := forall c a c', m c = Ret (a, c') -> ekept c c'.

Lemma EM_bind_Ret {A B} (m : EM A) (k : A -> EM B) c b c' :
  (m ≫= k) c = Ret (b, c') -> exists a c1, m c = Ret (a, c1) /\ k a c1 = Ret (b, c').
Proof. unfold mbind, EM_bind. destruct (m c) as [[a c1]|]; [eauto|done]. Qed.

Lemma ekeeps_bind {A B} (m : EM A) (k : A -> EM B) :
  ekeeps m -> (forall a, ekeeps (k a)) -> ekeeps (m ≫= k).
Proof.
  intros Hm Hk c b c' (a & c1 & E1 & E2)%EM_bind_Ret. etrans; [by eapply Hm|by eapply Hk].
Qed.

Lemma ekeeps_ret {A} (a : A) : ekeeps (mret a).
Proof. by intros c a' c' [= _ <-]. Qed.

(** Changing what holds neither keys nor deliveries. *)
Lemma ekept_fields c s o t :
  my_key s = my_key (e_state (ep c)) -> node_keys (ids s) = node_keys (ids (e_state (ep c))) ->
  to_local o = to_local (eout c) -> ekept c (mkECtx (mkEndpoint s (e_peers (ep c))) o t).
Proof.
  intros Hm Hn Hl [K1 K2 K3]. split; cbn; [done|done|split; cbn|intros; left; by rewrite <- Hl].
  - done.
  - rewrite Hn. exact K2.
  - rewrite Hm. exact K3.
Qed.

Lemma with_peer_ekept i (m : PM unit) c a c' :
  (forall p a cc, keyed_ep (ep c) -> e_peers (ep c) !! i = Some p ->
    m (mkCtx p (e_state (ep c)) (eout c) (etick c)) = Ret (a, cc) ->
    kept packets (mkCtx p (e_state (ep c)) (eout c) (etick c)) cc) ->
  with_peer i m c = Ret (a, c') -> ekept c c'.
Proof.
  intros Hm E HK. unfold with_peer in E. apply EM_bind_Ret in E as (e & ? & [= <- <-] & E).
  destruct (e_peers (ep c) !! i) as [p|] eqn:Hp; [|injection E as _ <-; by apply ekept_refl].
  apply EM_bind_Ret in E as ([u p'] & c1 & E1 & E). unfold run_peer in E1.
  destruct (m _) as [[u' cc]|] eqn:Em; [|done]. injection E1 as _ <- <-. injection E as _ <-.
  destruct (Hm p _ _ HK eq_refl Em) as [[M N I C] K L]. cbn [self est out ep eout] in *.
  destruct HK as [K1 K2 K3]. specialize (K (K3 i p Hp)). specialize (L (K3 i p Hp)).
  split; cbn [ep eout e_state e_peers]; [done| | |].
  - intros j. destruct (decide (j = i)) as [->|]; [rewrite lookup_insert_eq, Hp; cbn; by rewrite C|].
    by rewrite lookup_insert_ne.
  - split; cbn [e_state e_peers].
    + intros j q [[<- <-]|[_ Hq]]%lookup_insert_Some; [rewrite I|]; auto.
    + intros k j q. rewrite N. intros Hn [[<- <-]|[_ Hq]]%lookup_insert_Some; [rewrite C|]; eauto.
    + intros j q. rewrite M. intros [[<- <-]|[_ Hq]]%lookup_insert_Some; eauto.
  - intros peer x Hx. destruct (L peer x Hx) as [|[-> Ho]]; [by left|right].
    exists p. by rewrite (K1 i p Hp).
Qed.

Lemma ekeeps_with_peer i (m : PM unit) : keeps packets m -> ekeeps (with_peer i m).
Proof. intros Hm c a c'. apply with_peer_ekept. intros p b cc _ _ E. by eapply Hm. Qed.

Lemma send_ekept ps : ekeeps (send_body env ps).
Proof.
  induction ps as [|[i ps'] ps IH]; cbn [send_body]; [apply ekeeps_ret|].
  apply ekeeps_bind; [apply ekeeps_with_peer; auto with keys|done].
Qed.

Lemma priority_ekept i msg : ekeeps (send_priority_message_body env i msg).
Proof. apply ekeeps_with_peer. keep. Qed.

Lemma cookie_reply_ekept from init binding now : ekeeps (send_cookie_reply env from init binding now).
Proof.
  intros c a c' E. unfold send_cookie_reply in E. apply EM_bind_Ret in E as (e & ? & [= <- <-] & E).
  apply EM_bind_Ret in E as (t1 & ? & [= <- <-] & E). apply EM_bind_Ret in E as (t2 & ? & [= <- <-] & E).
  apply EM_bind_Ret in E as ([g reply] & cx & Ef & E). unfold elift in Ef.
  destruct (create_reply _ _ _ _ _ _ _) as [x|]; [|done]. injection Ef as -> <-.
  apply EM_bind_Ret in E as ([] & ? & [= <-] & E).
  destruct reply; injection E as _ <-; by apply ekept_fields.
Qed.

Lemma process_one_ekept from pkt : ekeeps (process_one_handshake env from pkt).
Proof.
  intros c a c' E. unfold process_one_handshake in E.
  destruct (Message_try_from pkt) as [[init| | |]|]; try (by injection E as _ <-).
  apply EM_bind_Ret in E as (t & ? & [= <- <-] & E). apply EM_bind_Ret in E as (e & ? & [= <- <-] & E).
  apply EM_bind_Ret in E as ([l under] & cx & Ef & E). unfold elift in Ef.
  destruct (record_initiation _ _ _) as [x|]; [|done]. injection Ef as -> <-.
  apply EM_bind_Ret in E as ([] & ? & [= <-] & E). cbn [ep eout etick] in E.
  set (c1 := mkECtx _ _ _) in E. assert (ekept c c1) as H1 by (by apply ekept_fields).
  etrans; [exact H1|].
  destruct (negb _); [by injection E as _ <-|].
  destruct (match under with true => _ | false => _ end) as [[j b]|]; [by eapply cookie_reply_ekept|].
  apply EM_bind_Ret in E as (r & cx & Ef & E). unfold elift in Ef.
  destruct (ReceivedHandshake_new _ _ _) as [x|] eqn:Er; [|done]. injection Ef as -> <-.
  destruct r as [rh|]; [|by injection E as _ <-].
  destruct (get_by_nodekey _ _) as [i|] eqn:Hi; [|by injection E as _ <-].
  eapply with_peer_ekept; [|exact E]. intros p b cc HK Hp. apply (respond_kept _ _ init (my_cookie (e_state (ep c)))).
  - exact Er.
  - symmetry. by eapply (ke_nodes _ HK).
Qed.

Lemma recv_from_ekept from order : ekeeps (recv_from_body env from packets order).
Proof.
  apply ekeeps_bind.
  - induction (filter _ packets) as [|p ps IH]; [apply ekeeps_ret|].
    apply ekeeps_bind; [apply process_one_ekept|done].
  - intros _. induction order as [|id order IH]; cbn [process_groups]; [apply ekeeps_ret|].
    intros c a c' E. apply EM_bind_Ret in E as (e & ? & [= <- <-] & E). revert E.
    apply ekeeps_bind; [|done]. destruct (get_by_session_id _ _); [|apply ekeeps_ret].
    apply ekeeps_with_peer, peer_recv_kept. by intros p [_ Hp]%list_elem_of_filter.
Qed.

Lemma dispatch_ekept now : ekeeps (dispatch_events_body env now).
Proof.
  intros c a c' E. unfold dispatch_events_body in E. apply EM_bind_Ret in E as (e & ? & [= <- <-] & E).
  destruct (dispatch _ now) as [sched evs]. apply EM_bind_Ret in E as ([] & ? & [= <-] & E).
  etrans; [by apply (ekept_fields c (set_scheduler (e_state (ep c)) sched) (eout c) (etick c))|].
  revert E. generalize (mkECtx (mkEndpoint (set_scheduler (e_state (ep c)) sched) (e_peers (ep c)))
    (eout c) (etick c)). intros c1 E. revert c1 a c' E. fold (ekeeps (handle_events env evs)).
  induction evs as [|ev evs IH]; cbn [handle_events]; [apply ekeeps_ret|].
  apply ekeeps_bind; [|done]. destruct ev; apply ekeeps_with_peer; auto with keys.
Qed.
End Calls.

(** ** Configuration *)

Definition keyed_peers (e : Endpoint) : Prop :=
  map_Forall (fun _ p => keyed (my_key (e_state e)) p) (e_peers e).

Lemma keyed_set_config me p cfg :
  cfg_key cfg = cfg_key (p_config p) -> cfg_psk cfg = cfg_psk (p_config p) ->
  keyed me p -> keyed me (set_config p cfg).
Proof.
  intros E1 E2 [Hs Hi Hr]. unfold cfg_session_key in *.
  split; unfold cfg_session_key; cbn; by rewrite ?E1, ?E2.
Qed.

(** Shutting a peer down, outside the map. *)
Lemma shutdown_me p c p' c' :
  run_peer p shutdown c = Ret ((tt, p'), c') ->
  e_peers (ep c') = e_peers (ep c) /\ my_key (e_state (ep c')) = my_key (e_state (ep c)).
Proof.
  unfold run_peer. destruct (shutdown _) as [[[] cc]|] eqn:E; [|done]. intros [= _ <-].
  apply (keeps_shutdown []) in E as [[M _ _ _] _ _]. done.
Qed.

Lemma remove_keyed i c a c' :
  keyed_peers (ep c) -> remove_peer_body i c = Ret (a, c') -> keyed_peers (ep c').
Proof.
  intros HK E. unfold remove_peer_body in E. apply EM_bind_Ret in E as (e & ? & [= <- <-] & E).
  destruct (e_peers (ep c) !! i) as [p|]; [|by injection E as _ <-].
  apply EM_bind_Ret in E as ([] & ? & [= <-] & E).
  apply EM_bind_Ret in E as ([[] p'] & c1 & E1%shutdown_me & E). cbn [ep e_peers e_state] in E1.
  apply EM_bind_Ret in E as (e & ? & [= <- <-] & E). apply EM_bind_Ret in E as (m & cx & Ef & E).
  unfold elift in Ef. destruct (idmap_remove_peer _ _); [|done]. injection Ef as -> <-.
  apply EM_bind_Ret in E as ([] & ? & [= <-] & [= _ <-]). destruct E1 as [Ep Em].
  unfold keyed_peers. cbn. rewrite Ep, Em. by apply map_Forall_delete.
Qed.

Lemma upsert_keyed env i cfg c a c' :
  keyed_ep (ep c) -> upsert_peer_body env i cfg c = Ret (a, c') -> keyed_peers (ep c').
Proof.
  intros HK E. pose proof (ke_keys _ HK) as HP. unfold upsert_peer_body in E.
  apply EM_bind_Ret in E as (e & ? & [= <- <-] & E). apply EM_bind_Ret in E as ([] & cx & Ef & E).
  unfold elift in Ef. destruct (rassert _); [|done]. injection Ef as _ <-.
  destruct (e_peers (ep c) !! i) as [p|] eqn:Hp; [case_decide as Hch|].
  - apply EM_bind_Ret in E as ([] & ? & [= <-] & E).
    apply EM_bind_Ret in E as ([[] p'] & c1 & [Ep Em]%shutdown_me & E). cbn [ep e_peers e_state] in *.
    apply EM_bind_Ret in E as (e & ? & [= <- <-] & E). apply EM_bind_Ret in E as (m & cx & Ef & E).
    unfold elift in Ef. destruct (idmap_remove_peer _ _); [|done]. injection Ef as -> <-.
    destruct (idmap_add_peer _ _ _) as [m' added]. apply EM_bind_Ret in E as ([] & cx & Ef & E).
    unfold elift in Ef. destruct (rassert added); [|done]. injection Ef as _ <-.
    apply EM_bind_Ret in E as ([] & ? & [= <-] & [= _ <-]). unfold keyed_peers. cbn. rewrite Ep, Em.
    by apply map_Forall_insert_2; [apply keyed_Peer_new|].
  - destruct (decide (cfg_key (p_config p) = cfg_key cfg)) as [Ek|]; [|tauto].
    destruct (decide (cfg_psk (p_config p) = cfg_psk cfg)) as [Es|]; [|tauto].
    apply EM_bind_Ret in E as ([] & ? & [= <-] & E). apply EM_bind_Ret in E as ([] & c1 & E1 & [= _ <-]).
    set (c0 := mkECtx _ _ _) in E1. assert (keyed_ep (ep c0)) as HK0.
    { destruct HK as [K1 K2 K3]. split; cbn [ep e_state e_peers c0].
      - intros j q [[<- <-]|[_ Hq]]%lookup_insert_Some; [cbn|]; auto.
      - intros k j q Hn [[<- <-]|[_ Hq]]%lookup_insert_Some; [cbn; rewrite <- Ek|]; eauto.
      - intros j q [[<- <-]|[_ Hq]]%lookup_insert_Some; [apply keyed_set_config|]; eauto. }
    assert (ekept [] c0 c1) as H1.
    { revert E1. case_decide; [by intros [= <-]|]. apply ekeeps_with_peer.
      destruct (effective_persistent_keepalive cfg), (p_session p); auto with keys. }
    intros j q. apply (ke_keys _ (ek_keyed _ _ _ (H1 HK0))).
  - destruct (idmap_add_peer _ _ _) as [m' added]. apply EM_bind_Ret in E as ([] & cx & Ef & E).
    unfold elift in Ef. destruct (rassert added); [|done]. injection Ef as _ <-.
    apply EM_bind_Ret in E as ([] & ? & [= <-] & [= _ <-]). unfold keyed_peers. cbn.
    by apply map_Forall_insert_2; [apply keyed_Peer_new|].
Qed.

(** ** Reachable endpoints *)

Lemma run_call_ekept {A} packets e (m : EM A) a e' r :
  keyed_ep e -> ekeeps packets m -> run_call e m = Ret (a, e', r) -> keyed_ep e'.
Proof.
  intros HK Hm. unfold run_call. destruct (m _) as [[b c]|] eqn:E; [|done]. intros [= _ <- _].
  by apply (ek_keyed _ _ _ (Hm _ _ _ E HK)).
Qed.

Context `{!CryptoLaws}.

Lemma run_op_keyed env n e op e' :
  env_ok env -> ep_inv (debug_assertions env) n e -> op_ok e op ->
  n + Z.of_nat (initiations e op) <= 2 ^ 64 -> keyed_ep e -> run_op env e op = Ret e' -> keyed_ep e'.
Proof.
  intros He HI Hok Hn HK E. pose proof (run_op_spec env n e op He HI Hok Hn) as HI'. rewrite E in HI'.
  destruct op; cbn [run_op] in E; (destruct (_ : outcome (_ * Endpoint * Result_)) as [[[a e1] r]|] eqn:Ec in E;
    [|done]); injection E as <-.
  - eapply keyed_ep_intro; [exact HI'|]. unfold upsert_peer, run_call in Ec.
    destruct (upsert_peer_body _ _ _ _) as [[b c]|] eqn:Eu; [|done]. injection Ec as _ <- _.
    by eapply upsert_keyed in Eu.
  - eapply keyed_ep_intro; [exact HI'|]. unfold remove_peer, run_call in Ec.
    destruct (remove_peer_body _ _) as [[b c]|] eqn:Eu; [|done]. injection Ec as _ <- _.
    eapply remove_keyed in Eu; [exact Eu|]. exact (ke_keys _ HK).
  - eapply (run_call_ekept []); [exact HK| |exact Ec]. apply send_ekept.
  - eapply (run_call_ekept []); [exact HK| |exact Ec]. apply priority_ekept.
  - eapply (run_call_ekept packets); [exact HK| |exact Ec]. apply recv_from_ekept.
  - eapply (run_call_ekept []); [exact HK| |exact Ec]. apply dispatch_ekept.
Qed.

Lemma reachable_keyed dbg key k e : reachable dbg key k e -> keyed_ep e.
Proof.
  induction 1 as [|k e env op e' HR IH He <- Hok Hk E]; [apply keyed_ep_new|].
  eapply run_op_keyed; [exact He|by apply reachable_inv in HR|exact Hok| |exact IH|exact E]. lia.
Qed.

(** Every packet that [recv_from] delivers as coming from a peer opened under a
    key of a handshake with that peer. *)
Lemma recv_from_opened_by env e from packets order a e' r peer p :
  keyed_ep e -> recv_from env e from packets order = Ret (a, e', r) -> p ∈ entry (to_local r) peer ->
  exists q, e_peers e !! peer = Some q /\ opened_by (my_key (e_state e)) (p_config q) packets p.
Proof.
  intros HK. unfold recv_from, run_call. destruct (recv_from_body _ _ _ _ _) as [[b c]|] eqn:E; [|done].
  intros [= _ _ <-] Hp. apply recv_from_ekept in E.
  destruct (ek_local _ _ _ (E HK) peer p Hp) as [Hn|]; [|done].
  unfold entry in Hn. cbn in Hn. by apply elem_of_nil in Hn.
Qed.
End EndpointKeyed.
