(* ===== verification/EndpointFaults.v ===== *)
(** * EndpointFaults: where the endpoint fails

    The conditions under which [endpoint_never_panics] holds are needed: a
    keepalive interval beyond the range of [Instant] and a clock that jumps by
    the life of a session inside one call make the endpoint panic.  And data
    received on an aged session overwrites a handshake in flight: a debug build
    panics, a release build leaks the session id of the lost initiation. *)

From stdpp Require Import gmap.
From S2P Require Import Prelude Bytes Packet Routers Crypto Messages Tai64 Session Macs Scheduler Handshake Endpoint EndpointInv EndpointMethods EndpointSafe EndpointKeys.

Local Open Scope Z_scope.

(** ** Durations and clocks *)

(** A peer without packets waiting for a session. *)
Definition nothing_waiting (p : Peer) : Prop :=
  match p_session p with SNone queue => queue = [] | SActive _ _ _ _ _ => True end.

Section Panics.
Context `{!CryptoOps} (env : Env).

(** A keepalive interval that ends beyond the last [Instant] panics as soon as
    the timer is armed, in every build. *)
Theorem keepalive_interval_panics c interval :
  effective_persistent_keepalive (p_config (self c)) = Some interval ->
  INSTANT_MAX < clock env (tick c) + interval -> arm_persistent_keepalive env c = Panic.
Proof.
  intros Hi Hmax. unfold arm_persistent_keepalive, instant_now, mbind, PM_bind, get_self, next_tick, lift.
  rewrite Hi. cbn [self est out tick mret PM_ret]. unfold mret, PM_ret. cbn [tick].
  by rewrite instant_add_panics.
Qed.

(** Activating a session with nothing to send makes it the current one. *)
Lemma activate_current next b c ps c' :
  nothing_waiting (self c) -> activate next b c = Ret (ps, c') ->
  ps = [] /\ tick c' = tick c /\ exists r r_prev snd i l,
    p_session (self c') = SActive r r_prev snd i l /\ ts_created snd = ts_created (send next).
Proof.
  unfold nothing_waiting, activate. intros Hw E.
  apply PM_bind_Ret in E as (old & c1 & [= <- <-] & E). apply PM_bind_Ret in E as (p & ? & [= <- <-] & E).
  destruct (p_session (self c)) as [queue|r r_prev snd i l].
  - subst queue. apply PM_bind_Ret in E as ([snd ret] & c2 & [= <- <- <-] & E). injection E as <- <-.
    split_and!; [done..|]. by eexists _, _, _, _, _.
  - apply PM_bind_Ret in E as ([] & c2 & E2 & E). injection E as <- <-. split; [done|].
    split; [|by eexists _, _, _, _, _]. destruct r_prev; [|by injection E2 as <-].
    unfold ids_remove_session in E2. by run_pm E2.
Qed.

(** A session that is too old is given up. *)
Lemma encrypt_expired ps c r r_prev snd i l o c' :
  p_session (self c) = SActive r r_prev snd i l -> ts_expired snd (clock env (tick c)) = true ->
  encrypt_or_queue env ps c = Ret (o, c') -> o = None.
Proof.
  intros Hs Hx E. unfold encrypt_or_queue in E. apply PM_bind_Ret in E as (p & ? & [= <- <-] & E).
  rewrite Hs in E. apply PM_bind_Ret in E as (now & c1 & [= <- <-] & E). rewrite Hx in E.
  apply PM_bind_Ret in E as ([] & c2 & _ & E). apply PM_bind_Ret in E as (p & c3 & _ & E).
  apply PM_bind_Ret in E as ([] & c4 & _ & E). by injection E.
Qed.

Lemma cancel_tick c a c' :
  cancel_new_handshake c = Ret (a, c') ->
  tick c' = tick c /\ p_session (self c') = p_session (self c).
Proof. intros E. unfold cancel_new_handshake, cancel_opt, handle_cancel in E. by run_pm E. Qed.

Lemma hs_finish_created h resp psk macs now sched h' sched' pair :
  hs_finish_slot h resp psk macs now sched = Ret (h', sched', Some pair) -> ts_created (send pair) = now.
Proof.
  unfold hs_finish_slot. destruct (initiated h) as [[[sent timeout] mac]|]; [|done].
  destruct (negb _); [done|]. destruct (finish_keys _ _ _) as [[keys|]|]; [|done..].
  cbn [mbind outcome_bind]. destruct (Scheduler.cancel _ _); [|done]. by intros [= _ _ <-].
Qed.

(** A response is answered with an empty packet on the session that it
    completes, which is unwrapped: when the clock passes the life of the session
    between the two readings, every build panics. *)
Theorem stalled_handshake_panics c resp h sched pair :
  hs_finish_slot (p_handshake (self c)) resp (cfg_psk (p_config (self c))) (my_cookie (est c))
    (clock env (tick c)) (scheduler (est c)) = Ret (h, sched, Some pair) ->
  nothing_waiting (self c) ->
  REJECT_AFTER_TIME < clock env (S (tick c)) - clock env (tick c) ->
  recv_handshake_response env resp c = Panic.
Proof.
  intros Hf Hw Hx. destruct (recv_handshake_response env resp c) as [[a c']|] eqn:E; [exfalso|done].
  unfold recv_handshake_response in E. apply PM_bind_Ret in E as (now & c1 & [= <- <-] & E).
  apply PM_bind_Ret in E as (p & ? & [= <- <-] & E). apply PM_bind_Ret in E as (s & ? & [= <- <-] & E).
  cbn [self est out tick] in E. apply PM_bind_Ret in E as ([[h' sched'] session] & c1 & E1 & E).
  unfold lift in E1. rewrite Hf in E1. injection E1 as <- <- <- <-.
  apply PM_bind_Ret in E as ([] & ? & [= <-] & E). apply PM_bind_Ret in E as ([] & ? & [= <-] & E).
  apply PM_bind_Ret in E as (p & ? & [= <- <-] & E). apply PM_bind_Ret in E as ([] & ? & [= <-] & E).
  apply PM_bind_Ret in E as ([] & c2 & [T2 S2]%cancel_tick & E). cbn [self est out tick] in *.
  apply PM_bind_Ret in E as (ps & c3 & E3 & E).
  apply activate_current in E3 as (-> & T3 & r & rp & snd & i & l & S3 & C3);
    [|unfold nothing_waiting; by rewrite S2].
  apply PM_bind_Ret in E as (ps & c4 & E4 & _). apply PM_bind_Ret in E4 as (o & c5 & E5 & E6).
  eapply encrypt_expired in E5 as ->; [done|exact S3|]. rewrite T3, T2. unfold ts_expired.
  rewrite C3. apply hs_finish_created in Hf as ->. unfold duration_since.
  by rewrite bool_decide_eq_true_2 by lia.
Qed.
End Panics.

(** ** Overwritten initiations *)



Section Overwrite.
Context `{!CryptoOps} (env : Env).

(** What the steps before the new handshake leave alone. *)
Record same_ids (c c' : Ctx) : Prop := {
  si_id : p_id (self c') = p_id (self c);
  si_session : p_session (self c') = p_session (self c);
  si_handshake : p_handshake (self c') = p_handshake (self c);
  si_ids : ids (est c') = ids (est c);
}.

#[export] Instance same_ids_trans : Transitive same_ids.
Proof. intros c1 c2 c3 [] []. split; congruence. Qed.







End Overwrite.

(** ** Receiving data for one session *)


Section Receive.
Context `{!CryptoOps} (env : Env).



End Receive.


(** ** Examples

    Peers 21 (seen from the first endpoint) and 11 (from the second) complete a
    handshake.  Later the first endpoint, whose session is due for a new
    handshake, sends, which starts one; before the answer arrives, it receives
    data of the second. *)

From S2P Require Import CryptoModel.

Definition ex_result (m : outcome (unit * Endpoint * Result_)) : Result_ :=
  match m with Ret (_, _, r) => r | Panic => Result_default end.

Definition ex_after (env : Env) (e : Endpoint) (op : Op) : Endpoint :=
  match run_op env e op with Ret e' => e' | Panic => e end.


Section Run.
Context (dbg : bool).

Definition ex_send1 : Op := OpSend [(21, [[1; 2; 3]])].
Definition ex_initiation : list packet :=
  ex_queued (ex_result (endpoint_send (ex_env dbg 1 3) (ex_upserted dbg) [(21, [[1; 2; 3]])])) 21.
Definition ex_first1 : Endpoint := ex_after (ex_env dbg 1 3) (ex_upserted dbg) ex_send1.

Definition ex_second0 : Endpoint :=
  ex_after (ex_env dbg 1 0) (Endpoint_new (ex_key 2)) (OpUpsert 11 (ex_peer 1)).
Definition ex_answer (env : Env) (e : Endpoint) (from : Z) (ps : list packet) : Endpoint * list packet :=
  (ex_after env e (OpRecv (Some from) ps (ex_order ps)),
   ex_queued (ex_result (recv_from env e (Some from) ps (ex_order ps))) from).

Definition ex_second1 : Endpoint * list packet := ex_answer (ex_env dbg 1 4) ex_second0 11 ex_initiation.
Definition ex_first2 : Endpoint * list packet := ex_answer (ex_env dbg 1 5) ex_first1 21 ex_second1.2.
Definition ex_second2 : Endpoint := (ex_answer (ex_env dbg 1 6) ex_second1.1 11 ex_first2.2).1.

(** Data of the second endpoint, 163 seconds later. *)
Definition ex_late_data : list packet :=
  take 1 (ex_queued (ex_result (endpoint_send (ex_env dbg 164 7) ex_second2 [(11, [[9; 9]])])) 11).

(** The first endpoint with a second initiation in flight. *)
Definition ex_first3 : Endpoint := ex_after (ex_env dbg 165 8) ex_first2.1 (OpSend [(21, [[4]])]).

Definition ex_late : Env := ex_env dbg 167 9.
End Run.



(** The ids allocated to a peer that it does not own, also after the peer is
    removed. *)
Definition leaked (e : Endpoint) (i : Z) : list Z :=
  let own := from_option owned [] (e_peers e !! i) in
  filter (fun s => (s ∉ own)) (fst <$> map_to_list (filter (fun kv => kv.2 = i) (sessions (ids (e_state e))))).

Example rekey_leaks_forever :
  (recv_from (ex_late true) (ex_first3 true) (Some 21) (ex_late_data true) (ex_order (ex_late_data true))) = Panic /\
  ('(_, a, _) ← recv_from (ex_late false) (ex_first3 false) (Some 21) (ex_late_data false) (ex_order (ex_late_data false));
   '(_, a', _) ← remove_peer a 21; Ret (leaked a 21, leaked a' 21))
    = Ret ([2], [2]).
Proof. split; vm_compute; reflexivity. Qed.









(** A keepalive interval as long as the clock's range: the response that
    completes the handshake makes a release build panic. *)
Definition ex_forever : PeerConfig :=
  mkPeerConfig (public (ex_key 2)) (replicate 32 7) (Some INSTANT_MAX).

Definition ex_response (e : Endpoint) (env : Env) : outcome Endpoint :=
  let ps := (ex_second1 false).2 in run_op env e (OpRecv (Some 21) ps (ex_order ps)).

Example keepalive_interval_example :
  let e := ex_after (ex_env false 1 0) (Endpoint_new (ex_key 1)) (OpUpsert 21 ex_forever) in
  ex_response (ex_after (ex_env false 1 3) e ex_send1) (ex_env false 1 5) = Panic.
Proof. vm_compute. reflexivity. Qed.

(** A clock that stands at one second for the first reading and at 200 s for
    the others: with no packet waiting, the response makes a release build
    panic. *)
Definition ex_stall : Env :=
  mkEnv false (fun t => Session.secs (if decide (t = O) then 1 else 200)) (fun _ => Session.secs 1) (fun _ => 0)
    (fun k n => replicate n (Z.of_nat k + 5)) (fun _ m => fresh ({[0]} ∪ dom m : gset Z)).

Example stalled_handshake_example :
  ex_response (ex_after (ex_env false 1 3) (ex_upserted false) (OpSend [(21, [])])) ex_stall = Panic.
Proof. vm_compute. reflexivity. Qed.
