(* ===== verification/Dataplane.v ===== *)
(** * Dataplane: outbound, inbound and timer processing (src/ts_dataplane)

    [DataPlane] joins the tunnel, the routers, the packet filter, the tracked
    flows and the scheduler.  The tunnel is the interface [Tunnel]; its
    operations take what the environment decides in a call (clocks, random
    draws, hash orders) as an input.  [DpInput] collects these inputs and the
    orders in which the hash maps are traversed.  The capture hook and tracing
    only observe and are left out. *)

From stdpp Require Import gmap strings sorting.
From S2P Require Import Prelude Bitset Array256 BaseIndex IpNet Stride IpTrie TrieSpec Table Routing Bytes Packet Routers PacketFilter FlowTrack InboundFilter Scheduler.

Local Open Scope Z_scope.

(** ** The tunnel *)

Record RecvResult := mkRecvResult {
  rr_to_local : gmap Z (list packet);
  rr_to_peers : gmap Z (list packet);
  rr_sessions_established : list Z;
}.

Class Tunnel (T : Type) := {
  tun_input : Type;
  tun_send : tun_input -> T -> list (Z * list packet) -> outcome (gmap Z (list packet) * T);
  tun_send_priority_message : tun_input -> T -> Z -> packet ->
    outcome (gmap Z (list packet) * T);
  tun_recv_from : tun_input -> T -> option Z -> list packet -> outcome (RecvResult * T);
  tun_dispatch_events : tun_input -> T -> Z -> outcome (gmap Z (list packet) * T);
  tun_next_event : T -> outcome (option TimeRange);
}.

(** ** Disco-key advertisements *)

Record AdvertisementTarget := mkTarget { node_addr : IpAddr; wireguard_only : bool }.

Record DiscoAdvertisementState := mkAdvertisementState {
  disco_key : list Z;
  adv_self_addrs : list IpAddr;
  adv_peers : gmap Z AdvertisementTarget;
}.

Definition self_ip_matching_family (addrs : list IpAddr) (want : IpAddr) : option IpAddr :=
  List.find (fun a => Bool.eqb (is_ipv4 a) (is_ipv4 want)) addrs.

Definition advertisement_for (st : DiscoAdvertisementState) (peer : Z) : outcome (option packet) :=
  if decide (disco_key st = replicate DISCO_KEY_LEN 0) then Ret None
  else
    match adv_peers st !! peer with
    | None => Ret None
    | Some target =>
        if wireguard_only target then Ret None
        else
          match self_ip_matching_family (adv_self_addrs st) (node_addr target) with
          | None => Ret None
          | Some src =>
              r ← advertisement_marshal (mkAdvertisement src (node_addr target) (disco_key st));
              Ret (match r with inr p => Some p | inl _ => None end)
          end
    end.

(** ** The state *)

Inductive Subsystem := Wireguard.

(** [Arc<dyn Filter>]: the filter of a new data plane, or an installed one. *)
Inductive DynFilter (F : Type) := DynDropAll (f : DropAllFilter) | DynFilterOf (f : F).
Arguments DynDropAll {F}.
Arguments DynFilterOf {F}.

#[export] Instance dyn_filter {F} `{!Filter F} : Filter (DynFilter F) := {
  match_for f info cs :=
    match f with DynDropAll f => match_for f info cs | DynFilterOf f => match_for f info cs end;
  matches f info cs :=
    match f with DynDropAll f => matches f info cs | DynFilterOf f => matches f info cs end;
  shields_up f := match f with DynDropAll f => shields_up f | DynFilterOf f => shields_up f end;
}.

Record DataPlane `{!IpNetOps} (T F : Type) := mkDataPlane {
  wireguard : T;
  or_out : RTable OrOut.RouteAction;
  ur_out : gmap Z Z;
  src_filter_in : RTable Z;
  or_in : RTable OrIn.RouteAction;
  packet_filter : DynFilter F;
  dp_events : Scheduler Subsystem;
  wg_next : option nat;
  flows : FlowCache;
  disco_advertisement : option DiscoAdvertisementState;
  peerapi_port : option Z;
  disable_tsmp_rejected : bool;
}.
Arguments mkDataPlane {_ T F}.
Arguments wireguard {_ T F}.
Arguments or_out {_ T F}.
Arguments ur_out {_ T F}.
Arguments src_filter_in {_ T F}.
Arguments or_in {_ T F}.
Arguments packet_filter {_ T F}.
Arguments dp_events {_ T F}.
Arguments wg_next {_ T F}.
Arguments flows {_ T F}.
Arguments disco_advertisement {_ T F}.
Arguments peerapi_port {_ T F}.
Arguments disable_tsmp_rejected {_ T F}.

(** The fields that processing changes. *)
Definition with_state `{!IpNetOps} {T F} (dp : DataPlane T F) (wg : T) (fl : FlowCache) : DataPlane T F :=
  mkDataPlane wg (or_out dp) (ur_out dp) (src_filter_in dp) (or_in dp) (packet_filter dp)
    (dp_events dp) (wg_next dp) fl (disco_advertisement dp) (peerapi_port dp)
    (disable_tsmp_rejected dp).

Definition with_events `{!IpNetOps} {T F} (dp : DataPlane T F) (evs : Scheduler Subsystem) (h : option nat)
    : DataPlane T F :=
  mkDataPlane (wireguard dp) (or_out dp) (ur_out dp) (src_filter_in dp) (or_in dp)
    (packet_filter dp) evs h (flows dp) (disco_advertisement dp) (peerapi_port dp)
    (disable_tsmp_rejected dp).

Record OutboundResult := mkOutboundResult {
  ob_to_peers : gmap (Z * Z) (list packet);
  ob_loopback : gmap Z (list packet);
}.

Record InboundResult := mkInboundResult {
  ib_to_local : gmap Z (list packet);
  ib_to_peers : gmap (Z * Z) (list packet);
  ib_learned_disco_keys : list (Z * DiscoKeyAdvertisement);
  ib_rejected_flows : list (Z * TailscaleRejectedHeader);
}.

Record EventResult := mkEventResult { er_to_peers : gmap (Z * Z) (list packet) }.

Section DataPlane.
Context `{!IpNetOps, !IpParser} {T : Type} `{!Tunnel T} {F : Type} `{!Filter F}.
Implicit Types dp : DataPlane T F.

(** The inputs of the n-th call of the tunnel and the n-th traversal of a map
    from peers, the traversal by destination, and [Instant::now]. *)
Record DpInput := mkDpInput {
  di_tun : nat -> tun_input (T := T);
  di_order : nat -> MapOrder Z (list packet);
  di_dest_order : MapOrder IpAddr (list packet);
  di_now : Z;
}.

(** [DataPlane::new], on a new endpoint. *)
Definition DataPlane_new (endpoint : T) : DataPlane T F :=
  mkDataPlane endpoint Split.EMPTY ∅ Split.EMPTY Split.EMPTY (DynDropAll DropAll)
    Scheduler_default None flow_default None None false.

(** The let chain that ends each operation: the tunnel's next event replaces
    the scheduled one. *)
Definition schedule_wireguard dp : outcome (DataPlane T F) :=
  next ← tun_next_event (wireguard dp);
  match next with
  | None => Ret dp
  | Some next =>
      '(evs, h) ← Scheduler.add (dp_events dp) next Wireguard;
      match wg_next dp with
      | None => Ret (with_events dp evs (Some h))
      | Some prev => evs ← Scheduler.cancel evs prev; Ret (with_events dp evs (Some h))
      end
  end.

(** ** Outbound *)

Fixpoint retain_not_tsmp (packets : list packet) : outcome (list packet) :=
  match packets with
  | [] => Ret []
  | p :: packets =>
      tsmp ← outbound_packet_carries_tsmp p;
      rest ← retain_not_tsmp packets;
      Ret (if (tsmp : bool) then rest else p :: rest)
  end.

Definition record_flow (fl : FlowCache) (p : packet) : outcome FlowCache :=
  o ← outbound_udp_or_sctp_flow p;
  Ret (match o with
       | Some (proto, src, dst) => record_outbound fl proto src dst
       | None => fl
       end).

Definition process_outbound (inp : DpInput) dp (packets : list packet)
    : outcome (OutboundResult * DataPlane T F) :=
  packets ← retain_not_tsmp packets;
  fl ← mfoldl record_flow (flows dp) packets;
  r ← OrOut.route (di_dest_order inp) (or_out dp) packets;
  '(encrypted, wg) ← tun_send (di_tun inp 0) (wireguard dp)
    (iter_map (di_order inp 0) (OrOut.to_wireguard r));
  let to_peers := UrOut.route (ur_out dp) (iter_map (di_order inp 1) encrypted) in
  dp ← schedule_wireguard (with_state dp wg fl);
  Ret (mkOutboundResult to_peers (OrOut.loopback r), dp).

(** ** Inbound *)

(** The source filter: the longest route for the source leads to the peer. *)
Fixpoint src_filter (table : RTable Z) (peer_id : Z) (packets : list packet)
    : outcome (list packet) :=
  match packets with
  | [] => Ret []
  | p :: packets =>
      verdict ←
        (match get_src_addr p with
         | None => Ret false
         | Some src =>
             allowed_peer ← Split.lookup table src;
             Ret (bool_decide (allowed_peer = Some peer_id))
         end);
      rest ← src_filter table peer_id packets;
      Ret (if (verdict : bool) then p :: rest else rest)
  end.

(** Both filters on the packets of each peer in turn. *)
Fixpoint filter_peers (table : RTable Z) (filter : DynFilter F) (cfg : RejectConfig)
    (fl : FlowCache) (harvest : InboundHarvest) (batches : list (Z * list packet))
    : outcome (list (list packet) * FlowCache * InboundHarvest) :=
  match batches with
  | [] => Ret ([], fl, harvest)
  | (peer_id, packets) :: batches =>
      packets ← src_filter table peer_id packets;
      '(v, fl, harvest) ← filter_inbound_from_peer filter peer_id cfg fl harvest packets;
      '(vs, fl, harvest) ← filter_peers table filter cfg fl harvest batches;
      Ret (v :: vs, fl, harvest)
  end.

Definition extend_all (m : gmap Z (list packet)) (batches : list (Z * list packet))
    : gmap Z (list packet) :=
  foldl (fun m kps => extend_entry m kps.1 kps.2) m batches.

(** The rejections, sealed for the peers whose packets were dropped. *)
Definition send_rejects (inp : DpInput) (wg : T) (rejects : list (Z * packet))
    (to_peers : gmap Z (list packet)) : outcome (gmap Z (list packet) * T) :=
  match rejects with
  | [] => Ret (to_peers, wg)
  | _ =>
      let by_peer := into_group_map rejects in
      '(sealed, wg) ← tun_send (di_tun inp 1) wg (iter_map (di_order inp 1) by_peer);
      Ret (extend_all to_peers (iter_map (di_order inp 2) sealed), wg)
  end.

(** The advertisements for the sessions established; the n-th uses the inputs
    from [n]. *)
Fixpoint send_adverts (inp : DpInput) (n : nat) (advert : DiscoAdvertisementState) (wg : T)
    (priority : gmap Z (list packet)) (peers : list Z) : outcome (gmap Z (list packet) * T) :=
  match peers with
  | [] => Ret (priority, wg)
  | peer :: peers =>
      msg ← advertisement_for advert peer;
      match msg with
      | None => send_adverts inp (S n) advert wg priority peers
      | Some msg =>
          '(res, wg) ← tun_send_priority_message (di_tun inp n) wg peer msg;
          send_adverts inp (S n) advert wg (extend_all priority (iter_map (di_order inp n) res)) peers
      end
  end.

(** The priority messages go in front of what is queued for a peer. *)
Definition prepend_all (to_peers : gmap Z (list packet)) (batches : list (Z * list packet))
    : gmap Z (list packet) :=
  foldl (fun m kps => <[kps.1 := kps.2 ++ default [] (m !! kps.1)]> m) to_peers batches.

Definition advertise (inp : DpInput) dp (wg : T) (sessions_established : list Z)
    (to_peers : gmap Z (list packet)) : outcome (gmap Z (list packet) * T) :=
  match disco_advertisement dp with
  | None => Ret (to_peers, wg)
  | Some advert =>
      '(priority, wg) ← send_adverts inp 5 advert wg ∅ sessions_established;
      Ret (prepend_all to_peers (iter_map (di_order inp 3) priority), wg)
  end.

Definition process_inbound_from (inp : DpInput) dp (from : option Z) (packets : list packet)
    : outcome (InboundResult * DataPlane T F) :=
  '(r, wg) ← tun_recv_from (di_tun inp 0) (wireguard dp) from packets;
  let reject_cfg := mkRejectConfig (disable_tsmp_rejected dp) (peerapi_port dp) in
  '(kept, fl, harvest) ← filter_peers (src_filter_in dp) (packet_filter dp) reject_cfg (flows dp)
    harvest_default (iter_map (di_order inp 0) (rr_to_local r));
  '(to_peers, wg) ← send_rejects inp wg (rejects_to_send harvest) (rr_to_peers r);
  '(to_peers, wg) ← advertise inp dp wg (rr_sessions_established r) to_peers;
  to_local ← OrIn.route (or_in dp) (concat kept);
  let to_peers := UrOut.route (ur_out dp) (iter_map (di_order inp 4) to_peers) in
  dp ← schedule_wireguard (with_state dp wg fl);
  Ret (mkInboundResult to_local to_peers (learned_disco_keys harvest) (rejected_flows harvest), dp).

Definition process_inbound (inp : DpInput) dp (packets : list packet)
    : outcome (InboundResult * DataPlane T F) := process_inbound_from inp dp None packets.

(** ** Timers *)

Definition dp_next_event dp : outcome (option Z) := next_dispatch (dp_events dp).

(** The loop over the due events; [HashMap::extend] replaces the packets of a
    peer that is present. *)
Fixpoint dispatch_all (inp : DpInput) (n : nat) (wg : T) (to_peers : gmap Z (list packet))
    (evs : list Subsystem) : outcome (gmap Z (list packet) * T) :=
  match evs with
  | [] => Ret (to_peers, wg)
  | Wireguard :: evs =>
      '(res, wg) ← tun_dispatch_events (di_tun inp n) wg (di_now inp);
      dispatch_all inp (S n) wg (res ∪ to_peers) evs
  end.

Definition process_events (inp : DpInput) dp : outcome (EventResult * DataPlane T F) :=
  let '(sched, evs) := Scheduler.dispatch (dp_events dp) (di_now inp) in
  '(to_peers, wg) ← dispatch_all inp 0 (wireguard dp) ∅ evs;
  let to_peers := UrOut.route (ur_out dp) (iter_map (di_order inp 0) to_peers) in
  dp ← schedule_wireguard (with_events (with_state dp wg (flows dp)) sched (wg_next dp));
  Ret (mkEventResult to_peers, dp).
End DataPlane.
Arguments DpInput T {_}.
