(* ===== verification/DataplaneSafe.v ===== *)
(** * DataplaneSafe: what the data plane guarantees

    Against the laws of the tunnel ([TunnelLaws]) and of the filter
    ([FilterTotal]), every operation of a reachable [DataPlane] returns; the
    packets delivered to the host come from the peer that owns their source
    address, pass the filter stage and follow the inbound routes; the rejected
    connections are answered to their dialers; and the tunnel's timer is always
    scheduled, once. *)

From stdpp Require Import gmap strings sorting.
From S2P Require Import Prelude Bitset Array256 BaseIndex IpNet Stride IpTrie TrieSpec Table Routing Bytes Packet Routers PacketFilter FlowTrack InboundFilter Scheduler Dataplane.

Local Open Scope Z_scope.

(** What the data plane relies on.  [tun_ok k] holds of a tunnel that has
    started at most [k] handshakes; a call may start as many as its cost, and
    no call panics before [2 ^ 62] of them. *)
Class TunnelLaws (T : Type) `{!Tunnel T} := {
  tun_ok : nat -> T -> Prop;
  tun_input_ok : tun_input -> Prop;
  tun_fits : packet -> Prop;
  tun_dispatch_cost : T -> nat;
  tun_ok_mono k k' t : tun_ok k t -> (k <= k')%nat -> tun_ok k' t;
  tun_fits_small p : (length p <= 48)%nat -> tun_fits p;
  tun_send_law i k t ps :
    tun_input_ok i -> tun_ok k t -> Forall (fun pp => Forall tun_fits pp.2) ps ->
    Z.of_nat (k + length ps) <= 2 ^ 62 ->
    exists m t', tun_send i t ps = Ret (m, t') /\ tun_ok (k + length ps) t';
  tun_priority_law i k t peer msg :
    tun_input_ok i -> tun_ok k t -> Z.of_nat k <= 2 ^ 62 ->
    exists m t', tun_send_priority_message i t peer msg = Ret (m, t') /\ tun_ok k t';
  tun_recv_law i k t from ps :
    tun_input_ok i -> tun_ok k t -> Forall bytes_ok ps -> Z.of_nat (k + length ps) <= 2 ^ 62 ->
    exists r t', tun_recv_from i t from ps = Ret (r, t') /\ tun_ok (k + length ps) t' /\
      forall peer, Forall bytes_ok (entry (rr_to_local r) peer);
  tun_dispatch_law i k t now :
    tun_input_ok i -> tun_ok k t -> Z.of_nat (k + tun_dispatch_cost t) <= 2 ^ 62 ->
    exists m t', tun_dispatch_events i t now = Ret (m, t') /\ tun_ok (k + tun_dispatch_cost t) t';
  tun_next_law k t : tun_ok k t ->
    exists o, tun_next_event t = Ret o /\ forall r, o = Some r -> tr_start r <= tr_end r;
}.

#[export, refine] Instance dyn_total {F} `{!Filter F, !FilterTotal F} : FilterTotal (DynFilter F) := {
  filter_ok f := match f with DynDropAll _ => True | DynFilterOf f => filter_ok f end;
}.
Proof.
  - intros [[]|f] info cs Hf Hi; [by eexists|]. exact (match_for_total f info cs Hf Hi).
  - intros [[]|f] info cs Hf Hi; [by eexists|]. exact (matches_total f info cs Hf Hi).
Defined.

(** ** Maps of packets *)

Lemma Forall_filtered {A} (P Q : A -> Prop) `{!forall x, Decision (Q x)} (l : list A) :
  Forall P l -> Forall P (filter Q l).
Proof. rewrite !Forall_forall. intros Hl x [_ Hx]%list_elem_of_filter. auto. Qed.

Lemma Forall_filter_holds {A} (Q : A -> Prop) `{!forall x, Decision (Q x)} (l : list A) :
  Forall Q (filter Q l).
Proof. apply Forall_forall. by intros x [Hx _]%list_elem_of_filter. Qed.

Lemma Forall_sublist {A} (P : A -> Prop) (l l' : list A) :
  l `sublist_of` l' -> Forall P l' -> Forall P l.
Proof. rewrite !Forall_forall. intros Hs Hl x Hx. by eapply Hl, elem_of_sublist. Qed.

Lemma entry_lookup (m : gmap Z (list packet)) k p :
  p ∈ entry m k <-> exists ps, m !! k = Some ps /\ p ∈ ps.
Proof.
  unfold entry. destruct (m !! k) as [ps|]; cbn; split.
  - intros. by exists ps.
  - by intros (? & [= <-] & ?).
  - by intros ?%elem_of_nil.
  - by intros (? & [=] & ?).
Qed.

Lemma elem_of_iter_map (o : MapOrder Z (list packet)) m k ps :
  (k, ps) ∈ iter_map o m <-> m !! k = Some ps.
Proof. rewrite iter_map_perm. apply elem_of_map_to_list. Qed.

(** All packets of a map. *)
Definition all_packets (m : gmap Z (list packet)) : list packet := concat (map_to_list m).*2.

Lemma length_all_packets (o : MapOrder Z (list packet)) m :
  length (concat (iter_map o m).*2) = length (all_packets m).
Proof.
  unfold all_packets. pose proof (iter_map_perm o m) as Hp.
  assert (forall l l' : list (Z * list packet), l ≡ₚ l' ->
    length (concat l.*2) = length (concat l'.*2)) as Hl.
  { intros l l'. induction 1 as [|[k ps] l l' _ IH|[] [] l|]; cbn; rewrite ?length_app; lia. }
  by apply Hl.
Qed.

Lemma size_group_map (kps : list (Z * packet)) : (size (into_group_map kps) <= length kps)%nat.
Proof.
  unfold into_group_map.
  enough (forall m : gmap Z (list packet),
    (size (foldl (fun m kp => extend_entry m kp.1 [kp.2]) m kps) <= size m + length kps)%nat) as Hm
    by (specialize (Hm ∅); by rewrite map_size_empty in Hm).
  induction kps as [|[k p] kps IH]; intros m; cbn [foldl length]; [lia|].
  etrans; [apply IH|]. unfold extend_entry. cbn.
  destruct (m !! k) as [ps|] eqn:E.
  - rewrite map_size_insert_Some by by eexists. lia.
  - rewrite map_size_insert_None by done. lia.
Qed.

Lemma length_iter_map (o : MapOrder Z (list packet)) m : length (iter_map o m) = size m.
Proof. rewrite (Permutation_length (iter_map_perm o m)). apply length_map_to_list. Qed.

(** ** The invariant *)

Section Safe.
Context `{!IpNetOps, !IpNetLaws, !IpParser, !IpParserLaws}.
Context {T : Type} `{!Tunnel T, !TunnelLaws T} {F : Type} `{!Filter F, !FilterTotal F}.
Implicit Types (dp : DataPlane T F) (inp : DpInput T) (packets log : list packet).

Definition input_ok inp : Prop := forall n, tun_input_ok (di_tun inp n).

(** At most one event is scheduled, and [wg_next] is its handle. *)
Definition events_ok dp : Prop :=
  sched_wf (dp_events dp) /\
  match wg_next dp with
  | None => events (dp_events dp) = []
  | Some h => (h < next_id (dp_events dp))%nat /\
      forall e, e ∈ events (dp_events dp) -> ev_id e = h
  end.

Definition advert_ok (st : DiscoAdvertisementState) : Prop :=
  length (disco_key st) = DISCO_KEY_LEN /\ Forall ip_ok (adv_self_addrs st) /\
  forall peer t, adv_peers st !! peer = Some t -> ip_ok (node_addr t).

(** The reverse of the tuple is the flow of a packet that was sent. *)
Definition sent log (t : Tuple) : Prop :=
  exists q, q ∈ log /\ outbound_packet_carries_tsmp q = Ret false /\
    outbound_udp_or_sctp_flow q = Ret (Some (tup_proto t, tup_dst t, tup_src t)).

(** The routes, the filter and the advertisements that are in place. *)
Record config_ok dp : Prop := {
  cf_out : exists m, table_rel (or_out dp) m;
  cf_src : exists m, table_rel (src_filter_in dp) m;
  cf_in : exists m, table_rel (or_in dp) m;
  cf_filter : filter_ok (packet_filter dp);
  cf_advert : forall st, disco_advertisement dp = Some st -> advert_ok st;
}.

Record dp_inv log (k : nat) dp : Prop := {
  di_tunnel : tun_ok k (wireguard dp);
  di_config : config_ok dp;
  di_events : events_ok dp;
  di_flows : forall t, flow_known (flows dp) t -> sent log t;
}.

(** ** Scheduling *)

(** Exactly the tunnel's next event is scheduled. *)
Definition scheduled dp : Prop :=
  forall r, tun_next_event (wireguard dp) = Ret (Some r) ->
    exists h, wg_next dp = Some h /\ events (dp_events dp) = [mkFutureEvent h r Wireguard].

Lemma only_event (s : Scheduler Subsystem) e :
  sched_wf s -> (forall e', e' ∈ events s <-> e' = e) -> events s = [e].
Proof.
  intros [_ Hids _ _] He. destruct (events s) as [|a l] eqn:E.
  - pose proof (proj2 (He e) eq_refl) as Hn. by apply elem_of_nil in Hn.
  - assert (a = e) as -> by (apply He; left). destruct l as [|b l]; [done|].
    assert (b = e) as -> by (apply He; right; left).
    cbn in Hids. apply NoDup_cons in Hids as [Hn _]. destruct Hn. left.
Qed.

Lemma schedule_spec k dp :
  tun_ok k (wireguard dp) -> events_ok dp ->
  exists evs h, schedule_wireguard dp = Ret (with_events dp evs h) /\
    events_ok (with_events dp evs h) /\ scheduled (with_events dp evs h).
Proof.
  intros Ht [Hwf Hev]. destruct (tun_next_law k (wireguard dp) Ht) as (o & En & Ho).
  unfold schedule_wireguard. rewrite En. cbn [mbind outcome_bind]. destruct o as [r|].
  2: { exists (dp_events dp), (wg_next dp). split; [by destruct dp|]. split; [done|].
       intros r Er. cbn in Er. congruence. }
  destruct (add_spec (dp_events dp) r Wireguard Hwf (Ho r eq_refl)) as (s1 & -> & Hwf1 & Hid1 & Hp).
  cbn [mbind outcome_bind]. set (h := next_id (dp_events dp)) in *.
  assert (exists s2, (match wg_next dp with
      | None => Ret (with_events dp s1 (Some h))
      | Some prev => evs ← cancel s1 prev; Ret (with_events dp evs (Some h))
      end) = Ret (with_events dp s2 (Some h)) /\ sched_wf s2 /\ next_id s2 = S h /\
      events s2 = [mkFutureEvent h r Wireguard]) as (s2 & -> & Hwf2 & Hid2 & Es2).
  { destruct (wg_next dp) as [prev|].
    - destruct Hev as [Hlt Hev].
      destruct (cancel_spec s1 prev Hwf1) as (s2 & -> & Hwf2 & Hid2 & Hin).
      exists s2. split; [done|]. split; [done|]. split; [lia|]. apply only_event; [done|].
      intros e. rewrite Hin, Hp, elem_of_cons. split.
      + intros [[->|He] Hne]; [done|]. by apply Hev in He.
      + intros ->. split; [by left|]. cbn. lia.
    - exists s1. split; [done|]. split; [done|]. split; [done|].
      rewrite Hev in Hp. by apply Permutation_singleton_r in Hp. }
  exists s2, (Some h). split; [done|]. split.
  - split; [done|]. cbn. split; [lia|]. rewrite Es2.
    intros e ->%list_elem_of_singleton. done.
  - intros r' Er. cbn in Er. rewrite En in Er. injection Er as <-. exists h. split; [done|exact Es2].
Qed.

Lemma scheduled_wakes dp :
  events_ok dp -> scheduled dp -> forall r, tun_next_event (wireguard dp) = Ret (Some r) ->
  dp_next_event dp = Ret (Some (tr_end r)).
Proof.
  intros [[_ _ _ Hr] _] Hs r Er. destruct (Hs r Er) as (h & _ & Ee).
  unfold dp_next_event, next_dispatch, next_dispatch_range. rewrite Ee in *. cbn.
  unfold TimeRange_new. rewrite bool_decide_true; [done|]. by inversion_clear Hr.
Qed.

(** ** Outbound *)

Definition carries_tsmp (p : packet) : bool :=
  match outbound_packet_carries_tsmp p with Ret b => b | Panic => false end.

Lemma carries_tsmp_eq p : outbound_packet_carries_tsmp p = Ret (carries_tsmp p).
Proof. unfold carries_tsmp. by destruct (carries_tsmp_total p) as [b ->]. Qed.

Lemma retain_eq packets :
  retain_not_tsmp packets = Ret (filter (fun p => carries_tsmp p = false) packets).
Proof.
  induction packets as [|p packets IH]; [done|]. cbn [retain_not_tsmp].
  rewrite carries_tsmp_eq, IH. cbn [mbind outcome_bind]. rewrite filter_cons.
  by destruct (carries_tsmp p).
Qed.

Lemma record_flows_spec fl packets :
  Forall bytes_ok packets -> Forall (fun p => carries_tsmp p = false) packets ->
  exists fl', mfoldl record_flow fl packets = Ret fl' /\
    forall t, flow_known fl' t -> flow_known fl t \/ sent packets t.
Proof.
  intros Hb Hc. revert fl. induction packets as [|p packets IH]; intros fl.
  { exists fl. split; [done|]. by left. }
  apply Forall_cons in Hb as [Hp Hb], Hc as [Hcp Hc].
  destruct (outbound_flow_total p Hp) as (o & Eo). cbn [mfoldl].
  assert (record_flow fl p = Ret (match o with
    | Some (proto, src, dst) => record_outbound fl proto src dst
    | None => fl end)) as -> by (unfold record_flow; by rewrite Eo).
  cbn [mbind outcome_bind].
  edestruct (IH Hb Hc) as (fl' & -> & Hfl'). exists fl'. split; [done|].
  intros t [Ht|(q & Hq & Hs)]%Hfl'; [|right; exists q; split; [by right|done]].
  destruct o as [[[proto src] dst]|]; [|by left].
  apply record_known in Ht as [Ht|[_ ->]]; [by left|]. right. exists p. split; [left|].
  split; [by rewrite carries_tsmp_eq, Hcp|done].
Qed.

(** The peers that outbound packets are sent to. *)
Definition outbound_cost inp dp packets : nat :=
  match (ps ← retain_not_tsmp packets; OrOut.route (di_dest_order inp) (or_out dp) ps) with
  | Ret r => size (OrOut.to_wireguard r)
  | Panic => 0
  end.

Lemma config_ok_state dp wg fl : config_ok dp -> config_ok (with_state dp wg fl).
Proof. by intros []. Qed.

Lemma config_ok_events dp evs h : config_ok dp -> config_ok (with_events dp evs h).
Proof. by intros []. Qed.

Lemma sent_mono log log' t : (forall q, q ∈ log -> q ∈ log') -> sent log t -> sent log' t.
Proof. intros Hl (q & Hq & Hs). exists q. auto. Qed.

(** The last step of every operation. *)
Lemma finish_spec log k dp :
  tun_ok k (wireguard dp) -> config_ok dp -> events_ok dp ->
  (forall t, flow_known (flows dp) t -> sent log t) ->
  exists dp', schedule_wireguard dp = Ret dp' /\ dp_inv log k dp' /\ scheduled dp' /\
    packet_filter dp' = packet_filter dp.
Proof.
  intros Ht Hc He Hf. destruct (schedule_spec k dp Ht He) as (evs & h & -> & He' & Hs).
  eexists. split; [done|]. split; [|done]. split; [done|by apply config_ok_events|done|done].
Qed.

Lemma process_outbound_spec log k inp dp packets :
  dp_inv log k dp -> input_ok inp -> Forall bytes_ok packets -> Forall tun_fits packets ->
  Z.of_nat (k + outbound_cost inp dp packets) <= 2 ^ 62 ->
  exists res dp', process_outbound inp dp packets = Ret (res, dp') /\
    dp_inv (log ++ packets) (k + outbound_cost inp dp packets) dp' /\ scheduled dp'.
Proof.
  intros [Ht Hc He Hf] Hi Hb Hfits Hk. destruct (cf_out _ Hc) as [m Hm].
  set (kept := filter (fun p => carries_tsmp p = false) packets).
  assert (Forall bytes_ok kept) as Hkb by (by apply Forall_filtered).
  destruct (record_flows_spec (flows dp) kept) as (fl & Efl & Hfl); [done|apply Forall_filter_holds|].
  destruct (outbound_route_spec (di_dest_order inp) (or_out dp) m kept Hm Hkb) as (r & Er & Hw & _ & _).
  unfold outbound_cost in *. unfold process_outbound. rewrite retain_eq in *. cbn [mbind outcome_bind] in *.
  fold kept in Hk |- *. rewrite Er in *. rewrite Efl. cbn [mbind outcome_bind].
  destruct (tun_send_law (di_tun inp 0) k (wireguard dp)
    (iter_map (di_order inp 0) (OrOut.to_wireguard r))) as (enc & wg & -> & Hwg); [done|done| | |].
  { apply Forall_forall. intros [peer ps] Hin%elem_of_iter_map. cbn.
    specialize (Hw peer). unfold entry in Hw. rewrite Hin in Hw. cbn in Hw. rewrite Hw.
    by apply Forall_filtered, Forall_filtered. }
  { by rewrite length_iter_map. }
  cbn [mbind outcome_bind]. rewrite length_iter_map in Hwg.
  destruct (finish_spec (log ++ packets) _ (with_state dp wg fl) Hwg) as (dp' & -> & Hinv & Hs & _).
  - by apply config_ok_state.
  - exact He.
  - intros t [Hk'|Hs]%Hfl.
    + eapply sent_mono, Hf, Hk'. intros q Hq. apply elem_of_app. by left.
    + eapply sent_mono, Hs. intros q [_ Hq]%list_elem_of_filter. apply elem_of_app. by right.
  - by eexists _, dp'.
Qed.

(** ** Inbound *)

(** The source address of the packet belongs to the peer. *)
Definition owns_source (table : RTable Z) (peer : Z) (p : packet) : Prop :=
  exists src, get_src_addr p = Some src /\ Split.lookup table src = Ret (Some peer).

Lemma src_filter_spec table m peer packets :
  table_rel table m -> Forall bytes_ok packets ->
  exists kept, src_filter table peer packets = Ret kept /\ kept `sublist_of` packets /\
    Forall (owns_source table peer) kept.
Proof.
  intros Ht. induction 1 as [|p packets Hp _ (kept & E & Hsub & Hown)].
  { exists []. by repeat split. }
  assert (exists v, (match get_src_addr p with
      | None => Ret false
      | Some src => allowed_peer ← Split.lookup table src;
          Ret (bool_decide (allowed_peer = Some peer))
      end) = Ret v /\ (v = true -> owns_source table peer p)) as (v & Ev & Hv).
  { destruct (get_src_addr p) as [a|] eqn:Ea; [|by eexists].
    rewrite (table_rel_lookup table m a Ht) by by eapply get_src_addr_ok. eexists. split; [reflexivity|].
    intros E'%bool_decide_eq_true. exists a. split; [done|].
    rewrite (table_rel_lookup table m a Ht) by by eapply get_src_addr_ok. by rewrite E'. }
  cbn [src_filter]. rewrite Ev, E. eexists. split; [reflexivity|]. destruct v.
  - split; [by apply sublist_skip|]. constructor; auto.
  - split; [by apply sublist_cons|done].
Qed.

(** A packet [p] of the batches that came from [peer]. *)
Definition came_from (table : RTable Z) (batches : list (Z * list packet)) (peer : Z) (p : packet)
    : Prop := exists ps, (peer, ps) ∈ batches /\ p ∈ ps /\ owns_source table peer p.

Definition answers (f : DynFilter F) (known : Tuple -> Prop) (cfg : RejectConfig)
    (table : RTable Z) (batches : list (Z * list packet)) (pr : Z * packet) : Prop :=
  (length pr.2 <= 48)%nat /\ exists p known', came_from table batches pr.1 p /\
    (forall t, known' t -> known t) /\ refuses f known' cfg p pr.2.

Lemma came_from_mono table batches b peer p :
  came_from table batches peer p -> came_from table (b :: batches) peer p.
Proof. intros (ps & Hin & Hp). exists ps. split; [by right|done]. Qed.

Lemma filter_peers_spec table m f cfg fl h batches :
  table_rel table m -> filter_ok f -> Forall (fun b => Forall bytes_ok b.2) batches ->
  exists vs fl' h', filter_peers table f cfg fl h batches = Ret (vs, fl', h') /\
    (forall p, p ∈ concat vs ->
      (exists peer, came_from table batches peer p) /\ allowed f (flow_known fl) p /\ bytes_ok p) /\
    (forall t, flow_known fl' t -> flow_known fl t) /\
    exists new, rejects_to_send h' = rejects_to_send h ++ new /\
      (length new <= length (concat batches.*2))%nat /\
      Forall (answers f (flow_known fl) cfg table batches) new.
Proof.
  intros Ht Hf Hb. revert fl h. induction Hb as [|[peer ps] batches Hps _ IH]; intros fl h.
  { exists [], fl, h. split; [done|]. split; [by intros ? ?%elem_of_nil|]. split; [done|].
    exists []. rewrite app_nil_r. split; [done|]. split; [done|constructor]. }
  cbn in Hps. destruct (src_filter_spec table m peer ps Ht Hps) as (ps1 & E1 & Hsub1 & Hown).
  assert (Forall bytes_ok ps1) as Hps1 by (by eapply Forall_sublist).
  destruct (filter_inbound_spec f peer cfg fl h ps1 Hf Hps1)
    as (v & fl1 & h1 & E2 & Hsub2 & Hall & Hm1 & new1 & En1 & Hlen1 & Hnew1).
  destruct (IH fl1 h1) as (vs & fl2 & h2 & E3 & Hvs & Hm2 & new2 & En2 & Hlen2 & Hnew2).
  assert (forall p, p ∈ ps1 -> came_from table ((peer, ps) :: batches) peer p) as Hfrom.
  { intros p Hp. exists ps. split; [left|]. split; [by eapply elem_of_sublist|].
    rewrite Forall_forall in Hown. by apply Hown. }
  cbn [filter_peers]. rewrite E1. cbn [mbind outcome_bind]. rewrite E2. cbn [mbind outcome_bind].
  rewrite E3. cbn [mbind outcome_bind]. eexists _, fl2, h2. split; [reflexivity|]. split; [|split; [auto|]].
  - intros p [Hp|Hp]%elem_of_app.
    + assert (p ∈ ps1) as Hp1 by (by eapply elem_of_sublist).
      rewrite Forall_forall in Hall, Hps1. split; [exists peer; auto|]. auto.
    + destruct (Hvs p Hp) as ((peer' & Hc) & (c & Hc1 & Ha & Htc) & Hpb).
      split; [exists peer'; by apply came_from_mono|]. split; [|done]. exists c.
      split; [done|]. split; [by eapply admissible_mono|done].
  - exists (new1 ++ new2). rewrite En2, En1, app_assoc. split; [done|].
    cbn [concat fmap list_fmap snd]. rewrite !length_app.
    pose proof (sublist_length _ _ Hsub1). split; [lia|]. apply Forall_app. split.
    + eapply Forall_impl; [exact Hnew1|]. intros [peer' r] (Ep & Hr & p & fl' & Hp & Hfl' & Href).
      cbn in *. subst peer'. split; [done|]. exists p, (flow_known fl'). auto.
    + eapply Forall_impl; [exact Hnew2|]. intros [peer' r] (Hr & p & kn & Hc & Hkn & Href).
      split; [done|]. exists p, kn. split; [by apply came_from_mono|]. auto.
Qed.

Lemma send_rejects_spec k inp wg rejects to_peers :
  tun_ok k wg -> input_ok inp -> Forall (fun pr : Z * packet => (length pr.2 <= 48)%nat) rejects ->
  Z.of_nat (k + length rejects) <= 2 ^ 62 ->
  exists to_peers' wg', send_rejects inp wg rejects to_peers = Ret (to_peers', wg') /\
    tun_ok (k + length rejects) wg'.
Proof.
  intros Ht Hi Hr Hk. unfold send_rejects. destruct rejects as [|pr rejects].
  { exists to_peers, wg. split; [done|]. by rewrite Nat.add_0_r. }
  set (l := pr :: rejects) in *. pose proof (size_group_map l) as Hsz.
  destruct (tun_send_law (di_tun inp 1) k wg (iter_map (di_order inp 1) (into_group_map l)))
    as (m & wg' & -> & Hwg); [done|done| |rewrite length_iter_map; lia|].
  - apply Forall_forall. intros [peer ps] [_ ->]%elem_of_iter_map%group_map_lookup. cbn [snd].
    apply Forall_fmap, Forall_filtered. eapply Forall_impl; [exact Hr|]. intros x. apply tun_fits_small.
  - eexists _, wg'. split; [reflexivity|]. eapply tun_ok_mono; [exact Hwg|].
    rewrite length_iter_map. lia.
Qed.

Lemma advertisement_for_total st peer : advert_ok st -> exists o, advertisement_for st peer = Ret o.
Proof.
  intros (Hkey & Hself & Hpeers). unfold advertisement_for. case_decide; [by eexists|].
  destruct (adv_peers st !! peer) as [t|] eqn:Et; [|by eexists].
  destruct (wireguard_only t); [by eexists|].
  destruct (self_ip_matching_family _ _) as [src|] eqn:Es; [|by eexists].
  apply find_some in Es as [Hin Hfam].
  destruct (advertisement_marshal_parse (mkAdvertisement src (node_addr t) (disco_key st)))
    as (p & -> & _); [|by eexists].
  split; cbn; [|by eapply Hpeers|by apply eqb_prop|done].
  rewrite Forall_forall in Hself. apply Hself. by apply list_elem_of_In.
Qed.

Lemma send_adverts_spec k inp n advert wg priority peers :
  tun_ok k wg -> input_ok inp -> advert_ok advert -> Z.of_nat k <= 2 ^ 62 ->
  exists m wg', send_adverts inp n advert wg priority peers = Ret (m, wg') /\ tun_ok k wg'.
Proof.
  intros Ht Hi Ha Hk. revert n wg priority Ht. induction peers as [|peer peers IH]; intros n wg pr Ht.
  { by exists pr, wg. }
  cbn [send_adverts]. destruct (advertisement_for_total advert peer Ha) as [[msg|] ->];
    cbn [mbind outcome_bind]; [|by apply IH].
  destruct (tun_priority_law (di_tun inp n) k wg peer msg) as (m & wg' & -> & Hwg'); [done..|].
  cbn [mbind outcome_bind]. by apply IH.
Qed.

Lemma advertise_spec k inp dp wg peers to_peers :
  tun_ok k wg -> input_ok inp -> config_ok dp -> Z.of_nat k <= 2 ^ 62 ->
  exists m wg', advertise inp dp wg peers to_peers = Ret (m, wg') /\ tun_ok k wg'.
Proof.
  intros Ht Hi Hc Hk. unfold advertise. destruct (disco_advertisement dp) as [st|] eqn:E.
  - destruct (send_adverts_spec k inp 5 st wg ∅ peers) as (m & wg' & -> & Hwg); [done..| |done|].
    { by apply (cf_advert _ Hc). }
    by eexists _, wg'.
  - by exists to_peers, wg.
Qed.

(** The handshakes that a batch of inbound packets may start. *)
Definition inbound_cost inp dp (from : option Z) packets : nat :=
  length packets +
  match tun_recv_from (di_tun inp 0) (wireguard dp) from packets with
  | Ret (r, _) => length (all_packets (rr_to_local r))
  | Panic => 0
  end.

(** What is known of a packet delivered to an overlay transport. *)
Definition delivered log inp dp (from : option Z) packets (id : Z) (p : packet) : Prop :=
  exists r wg peer dst,
    tun_recv_from (di_tun inp 0) (wireguard dp) from packets = Ret (r, wg) /\
    p ∈ entry (rr_to_local r) peer /\
    owns_source (src_filter_in dp) peer p /\
    allowed (packet_filter dp) (sent log) p /\
    get_dst_addr p = Some dst /\ Split.lookup (or_in dp) dst = Ret (Some (OrIn.ToOverlay id)).

Lemma process_inbound_spec log k inp dp from packets :
  dp_inv log k dp -> input_ok inp -> Forall bytes_ok packets ->
  Z.of_nat (k + inbound_cost inp dp from packets) <= 2 ^ 62 ->
  exists res dp', process_inbound_from inp dp from packets = Ret (res, dp') /\
    dp_inv log (k + inbound_cost inp dp from packets) dp' /\ scheduled dp' /\
    forall id p, p ∈ entry (ib_to_local res) id -> delivered log inp dp from packets id p.
Proof.
  intros [Ht Hc He Hf] Hi Hb Hk. destruct (cf_src _ Hc) as [ms Hms]. destruct (cf_in _ Hc) as [mi Hmi].
  destruct (tun_recv_law (di_tun inp 0) k (wireguard dp) from packets (Hi 0%nat) Ht Hb)
    as (r & wg & Er & Hwg & Htl).
  { unfold inbound_cost in Hk. lia. }
  unfold inbound_cost in *. rewrite Er in *. unfold process_inbound_from. rewrite Er.
  cbn [mbind outcome_bind]. set (cfg := mkRejectConfig _ _).
  destruct (filter_peers_spec (src_filter_in dp) ms (packet_filter dp) cfg (flows dp) harvest_default
    (iter_map (di_order inp 0) (rr_to_local r))) as (vs & fl & h & -> & Hvs & Hfl & new & En & Hlen & Hnew);
    [done|by apply cf_filter| |].
  { apply Forall_forall. intros [peer ps] Hin%elem_of_iter_map. specialize (Htl peer).
    unfold entry in Htl. by rewrite Hin in Htl. }
  cbn [mbind outcome_bind]. rewrite length_all_packets in Hlen.
  destruct (send_rejects_spec (k + length packets) inp wg (rejects_to_send h) (rr_to_peers r))
    as (tp & wg1 & -> & Hwg1); [done|done| | |].
  { rewrite En. cbn. eapply Forall_impl; [exact Hnew|]. by intros pr [? _]. }
  { rewrite En. cbn. lia. }
  cbn [mbind outcome_bind]. rewrite En in Hwg1. cbn [rejects_to_send harvest_default app] in Hwg1.
  set (k1 := (k + (length packets + length (all_packets (rr_to_local r))))%nat) in *.
  assert (tun_ok k1 wg1) as Hwg1' by (eapply tun_ok_mono; [exact Hwg1|unfold k1; lia]).
  destruct (advertise_spec k1 inp dp wg1 (rr_sessions_established r) tp) as (tp2 & wg2 & -> & Hwg2);
    [done..|]. cbn [mbind outcome_bind].
  destruct (inbound_route_spec (or_in dp) mi (concat vs) Hmi) as (tl & -> & Hroute).
  { apply Forall_forall. intros p Hp. by apply Hvs. }
  cbn [mbind outcome_bind].
  destruct (finish_spec log k1 (with_state dp wg2 fl)) as (dp' & -> & Hinv & Hs & _);
    [done|by apply config_ok_state|done|intros t Hkn; by apply Hf, Hfl|].
  cbn [mbind outcome_bind]. eexists _, dp'. split; [reflexivity|]. split; [done|]. split; [done|].
  intros id p. cbn [ib_to_local]. rewrite Hroute. intros [Ha Hp]%list_elem_of_filter.
  destruct (Hvs p Hp) as ((peer & ps & Hin & Hpp & Hown) & (c & Hc1 & Hadm & Htc) & Hpb).
  unfold action in Ha. destruct (get_dst_addr p) as [dst|] eqn:Ed; [|done]. cbn in Ha.
  exists r, wg, peer, dst. split; [done|]. split.
  { apply entry_lookup. exists ps. by apply elem_of_iter_map in Hin. }
  split; [done|]. split; [|split; [done|]].
  - exists c. split; [done|]. split; [|done]. by eapply admissible_mono.
  - rewrite (table_rel_lookup _ mi) by (done || by eapply get_dst_addr_ok). by rewrite Ha.
Qed.

(** ** Timers *)

(** What is due at [now]: the one event, or nothing. *)
Lemma due_events dp now :
  events_ok dp ->
  exists sched evs, Scheduler.dispatch (dp_events dp) now = (sched, evs) /\
    events_ok (with_events dp sched (wg_next dp)) /\ (evs = [] \/ evs = [Wireguard]) /\
    (forall e, events (dp_events dp) = [e] -> tr_start (ev_when e) <= now -> evs = [Wireguard]).
Proof.
  intros [Hwf Hev]. destruct (dispatch_spec (dp_events dp) now Hwf) as (Hwf' & Hid & Ekeep & Edue).
  destruct (Scheduler.dispatch (dp_events dp) now) as [sched evs]. cbn [fst snd] in *.
  exists sched, evs. split; [done|]. assert (length (events (dp_events dp)) <= 1)%nat as Hone.
  { destruct (wg_next dp) as [h|]; [|by rewrite Hev; cbn; lia]. destruct Hev as [_ Hev].
    destruct Hwf as [_ Hids _ _]. destruct (events (dp_events dp)) as [|a [|b l]]; [cbn; lia..|].
    cbn in Hids. apply NoDup_cons in Hids as [Hn _]. destruct Hn.
    rewrite (Hev a) by left. rewrite <- (Hev b) by (right; left). left. }
  split; [|split].
  - split; [done|]. cbn. destruct (wg_next dp) as [h|].
    + rewrite Ekeep, Hid. destruct Hev as [? Hev]. split; [done|].
      intros e [_ He]%list_elem_of_filter. auto.
    + by rewrite Ekeep, Hev.
  - rewrite Edue. destruct (events (dp_events dp)) as [|e [|e' l]]; [by left| |cbn in Hone; lia].
    rewrite filter_cons. destruct (decide _); [right|by left]. cbn. by destruct (ev_what e).
  - intros e Ee Hnow. rewrite Edue, Ee, filter_cons, decide_True by (unfold start; lia).
    cbn. by destruct (ev_what e).
Qed.

Lemma process_events_spec log k inp dp :
  dp_inv log k dp -> input_ok inp -> Z.of_nat (k + tun_dispatch_cost (wireguard dp)) <= 2 ^ 62 ->
  exists res dp', process_events inp dp = Ret (res, dp') /\
    dp_inv log (k + tun_dispatch_cost (wireguard dp)) dp' /\ scheduled dp' /\
    forall e, events (dp_events dp) = [e] -> tr_start (ev_when e) <= di_now inp ->
      exists m, tun_dispatch_events (di_tun inp 0) (wireguard dp) (di_now inp) = Ret (m, wireguard dp') /\
        er_to_peers res = UrOut.route (ur_out dp) (iter_map (di_order inp 0) m).
Proof.
  intros [Ht Hc He Hf] Hi Hk. unfold process_events.
  destruct (due_events dp (di_now inp) He) as (sched & evs & -> & He' & Hevs & Hdue).
  destruct (tun_dispatch_law (di_tun inp 0) k (wireguard dp) (di_now inp)) as (m & wg & Ed & Hwg); [done..|].
  assert (exists m' wg', dispatch_all inp 0 (wireguard dp) ∅ evs = Ret (m', wg') /\
    tun_ok (k + tun_dispatch_cost (wireguard dp)) wg' /\
    (evs = [Wireguard] -> m' = m /\ wg' = wg)) as (m' & wg' & -> & Hwg' & Hm).
  { destruct Hevs as [->| ->]; cbn [dispatch_all].
    - eexists _, _. split; [done|]. split; [eapply tun_ok_mono; [done|lia]|done].
    - rewrite Ed. cbn [mbind outcome_bind]. eexists _, _. split; [done|]. split; [done|].
      intros _. split; [apply (right_id_L ∅ (∪))|done]. }
  cbn [mbind outcome_bind].
  destruct (schedule_spec (k + tun_dispatch_cost (wireguard dp))
    (with_events (with_state dp wg' (flows dp)) sched (wg_next dp)) Hwg' He') as (sc & h & -> & He2 & Hs).
  cbn [mbind outcome_bind]. eexists _, _. split; [reflexivity|]. split.
  { split; [done|by apply config_ok_events, config_ok_events, config_ok_state|done|done]. }
  split; [done|]. intros e Ee Hnow. destruct (Hm (Hdue e Ee Hnow)) as [-> ->]. by exists m.
Qed.

(** ** Reachable data planes *)

(** [dp_reachable log k dp]: [log] are the packets the host has sent and [k]
    bounds the handshakes started.  Between the operations, the owner installs
    routes, filters and advertisements and changes the peers of the tunnel. *)
Inductive dp_reachable : list packet -> nat -> DataPlane T F -> Prop :=
| reach_new k t : tun_ok k t -> dp_reachable [] k (DataPlane_new t)
| reach_outbound log k dp inp packets res dp' :
    dp_reachable log k dp -> input_ok inp -> Forall bytes_ok packets -> Forall tun_fits packets ->
    Z.of_nat (k + outbound_cost inp dp packets) <= 2 ^ 62 ->
    process_outbound inp dp packets = Ret (res, dp') ->
    dp_reachable (log ++ packets) (k + outbound_cost inp dp packets) dp'
| reach_inbound log k dp inp from packets res dp' :
    dp_reachable log k dp -> input_ok inp -> Forall bytes_ok packets ->
    Z.of_nat (k + inbound_cost inp dp from packets) <= 2 ^ 62 ->
    process_inbound_from inp dp from packets = Ret (res, dp') ->
    dp_reachable log (k + inbound_cost inp dp from packets) dp'
| reach_events log k dp inp res dp' :
    dp_reachable log k dp -> input_ok inp ->
    Z.of_nat (k + tun_dispatch_cost (wireguard dp)) <= 2 ^ 62 ->
    process_events inp dp = Ret (res, dp') ->
    dp_reachable log (k + tun_dispatch_cost (wireguard dp)) dp'
| reach_configure log k k' dp wg out ur src inr f advert port off :
    dp_reachable log k dp -> (k <= k')%nat -> tun_ok k' wg ->
    let dp' := mkDataPlane wg out ur src inr f (dp_events dp) (wg_next dp) (flows dp) advert port off in
    config_ok dp' -> dp_reachable log k' dp'.

Lemma new_inv k t : tun_ok k t -> dp_inv [] k (DataPlane_new t).
Proof.
  intros Ht. split; [done| | |].
  - split; try (eexists; apply table_rel_empty); done.
  - split; [apply wf_default|done].
  - intros tup Hk. by destruct Hk as [? Hk].
Qed.

Lemma dp_reachable_inv log k dp : dp_reachable log k dp -> dp_inv log k dp.
Proof.
  induction 1 as [k t Ht|log k dp inp packets res dp' _ IH Hi Hb Hfits Hk E
    |log k dp inp from packets res dp' _ IH Hi Hb Hk E|log k dp inp res dp' _ IH Hi Hk E
    |log k k' dp wg out ur src inr f advert port off _ IH Hle Ht dp' Hc].
  - by apply new_inv.
  - destruct (process_outbound_spec log k inp dp packets IH Hi Hb Hfits Hk) as (? & ? & E' & Hinv & _).
    congruence.
  - destruct (process_inbound_spec log k inp dp from packets IH Hi Hb Hk) as (? & ? & E' & Hinv & _).
    congruence.
  - destruct (process_events_spec log k inp dp IH Hi Hk) as (? & ? & E' & Hinv & _). congruence.
  - destruct IH as [_ _ He Hf]. by split.
Qed.

(** C4: From every reachable state, and while fewer than 2^62 handshakes have
    been started, no operation of the data plane panics: outbound packets,
    inbound packets from any sender and due timers are processed, and the next
    event is reported. *)
Theorem dataplane_never_panics log k dp inp from out_packets in_packets :
  dp_reachable log k dp -> input_ok inp ->
  Forall bytes_ok out_packets -> Forall tun_fits out_packets -> Forall bytes_ok in_packets ->
  Z.of_nat (k + outbound_cost inp dp out_packets) <= 2 ^ 62 ->
  Z.of_nat (k + inbound_cost inp dp from in_packets) <= 2 ^ 62 ->
  Z.of_nat (k + tun_dispatch_cost (wireguard dp)) <= 2 ^ 62 ->
  (exists r, process_outbound inp dp out_packets = Ret r) /\
  (exists r, process_inbound_from inp dp from in_packets = Ret r) /\
  (exists r, process_events inp dp = Ret r) /\
  (exists r, dp_next_event dp = Ret r).
Proof.
  intros Hr%dp_reachable_inv Hi Hob Hof Hib Ho Hin He. split; [|split; [|split]].
  - destruct (process_outbound_spec log k inp dp out_packets Hr Hi Hob Hof Ho) as (? & ? & -> & _).
    by eexists.
  - destruct (process_inbound_spec log k inp dp from in_packets Hr Hi Hib Hin) as (? & ? & -> & _).
    by eexists.
  - destruct (process_events_spec log k inp dp Hr Hi He) as (? & ? & -> & _). by eexists.
  - destruct (di_events _ _ _ Hr) as [Hwf _]. pose proof (next_dispatch_range_spec _ Hwf) as Hn.
    unfold dp_next_event, next_dispatch. destruct (events (dp_events dp)).
    + rewrite Hn. by eexists.
    + destruct Hn as (r & -> & _). by eexists.
Qed.

(** Whatever bytes arrive, inbound processing returns, and every packet it
    delivers to an overlay transport was decrypted from a peer, has a source
    address whose longest route belongs to that peer, is admitted by the filter
    stage, where a reply is admitted only to a packet the host has sent, is no
    disco-key advertisement, and is delivered where the longest route for its
    destination leads. *)
Theorem inbound_delivery_safe log k dp inp from packets :
  dp_reachable log k dp -> input_ok inp -> Forall bytes_ok packets ->
  Z.of_nat (k + inbound_cost inp dp from packets) <= 2 ^ 62 ->
  exists res dp', process_inbound_from inp dp from packets = Ret (res, dp') /\
    forall id p, p ∈ entry (ib_to_local res) id -> delivered log inp dp from packets id p.
Proof.
  intros Hr%dp_reachable_inv Hi Hb Hk.
  destruct (process_inbound_spec log k inp dp from packets Hr Hi Hb Hk) as (res & dp' & E & _ & _ & Hd).
  by exists res, dp'.
Qed.

(** One operation of the data plane. *)
Inductive dp_op : Type :=
| OpOutbound (packets : list packet)
| OpInbound (from : option Z) (packets : list packet)
| OpEvents.

Definition op_typed (op : dp_op) : Prop :=
  match op with
  | OpOutbound packets => Forall bytes_ok packets /\ Forall tun_fits packets
  | OpInbound _ packets => Forall bytes_ok packets
  | OpEvents => True
  end.

Definition op_cost inp dp (op : dp_op) : nat :=
  match op with
  | OpOutbound packets => outbound_cost inp dp packets
  | OpInbound from packets => inbound_cost inp dp from packets
  | OpEvents => tun_dispatch_cost (wireguard dp)
  end.

Definition dp_run inp dp (op : dp_op) : outcome (DataPlane T F) :=
  match op with
  | OpOutbound packets => '(_, dp) ← process_outbound inp dp packets; Ret dp
  | OpInbound from packets => '(_, dp) ← process_inbound_from inp dp from packets; Ret dp
  | OpEvents => '(_, dp) ← process_events inp dp; Ret dp
  end.

Lemma dp_run_spec log k inp dp op :
  dp_inv log k dp -> input_ok inp -> op_typed op -> Z.of_nat (k + op_cost inp dp op) <= 2 ^ 62 ->
  exists log' dp', dp_run inp dp op = Ret dp' /\ dp_inv log' (k + op_cost inp dp op) dp' /\ scheduled dp'.
Proof.
  intros Hr Hi. destruct op as [packets|from packets|]; cbn [op_typed op_cost dp_run].
  - intros [Hb Hf] Hk.
    destruct (process_outbound_spec log k inp dp packets Hr Hi Hb Hf Hk) as (? & dp' & -> & ? & ?).
    by exists (log ++ packets), dp'.
  - intros Hb Hk.
    destruct (process_inbound_spec log k inp dp from packets Hr Hi Hb Hk) as (? & dp' & -> & ? & ? & _).
    by exists log, dp'.
  - intros _ Hk. destruct (process_events_spec log k inp dp Hr Hi Hk) as (? & dp' & -> & ? & ? & _).
    by exists log, dp'.
Qed.

(** C27: The tunnel's timers run.  After any operation, the next event the data
    plane reports is the end of the tunnel's next event, and when
    [process_events] is called in time for it the tunnel's events are
    dispatched, and what they produce is sent along the underlay routes. *)
Theorem timers_run log k dp inp op inp' r :
  dp_reachable log k dp -> input_ok inp -> op_typed op ->
  Z.of_nat (k + op_cost inp dp op) <= 2 ^ 62 ->
  exists dp', dp_run inp dp op = Ret dp' /\
    (tun_next_event (wireguard dp') = Ret (Some r) ->
     dp_next_event dp' = Ret (Some (tr_end r)) /\
     (input_ok inp' -> tr_start r <= di_now inp' ->
      Z.of_nat (k + op_cost inp dp op + tun_dispatch_cost (wireguard dp')) <= 2 ^ 62 ->
      exists res dp'' m, process_events inp' dp' = Ret (res, dp'') /\
        tun_dispatch_events (di_tun inp' 0) (wireguard dp') (di_now inp') = Ret (m, wireguard dp'') /\
        er_to_peers res = UrOut.route (ur_out dp') (iter_map (di_order inp' 0) m))).
Proof.
  intros Hr%dp_reachable_inv Hi Hop Hk.
  destruct (dp_run_spec log k inp dp op Hr Hi Hop Hk) as (log' & dp' & -> & Hinv & Hs).
  exists dp'. split; [done|]. intros Er. split; [apply scheduled_wakes; [by apply Hinv|done|done]|].
  intros Hi' Hnow Hk'. destruct (Hs r Er) as (h & _ & Ee).
  destruct (process_events_spec _ _ inp' dp' Hinv Hi' Hk') as (res & dp'' & E & _ & _ & Hd).
  destruct (Hd _ Ee Hnow) as (m & Em & Eres). by exists res, dp'', m.
Qed.

(** C29: The host cannot forge TSMP messages: outbound processing is the same
    on the packets without those that carry protocol 99, and every packet that
    a TSMP reader takes for an advertisement or a rejection is among those
    removed. *)
Theorem outbound_tsmp_refused inp dp packets :
  process_outbound inp dp packets =
    process_outbound inp dp (filter (fun p => carries_tsmp p = false) packets) /\
  forall p, p ∈ filter (fun p => carries_tsmp p = false) packets ->
    tsmp_body p = Ret None /\ advertisement_parse p = Ret None /\ rejected_parse p = Ret None.
Proof.
  split.
  - unfold process_outbound. rewrite !retain_eq, list_filter_filter_l; done.
  - intros p [Hp _]%list_elem_of_filter.
    assert (tsmp_body p = Ret None) as Eb.
    { destruct (tsmp_body_total p) as [[x|] E]; [|done].
      apply tsmp_body_carries in E. rewrite carries_tsmp_eq, Hp in E. done. }
    unfold advertisement_parse, rejected_parse. by rewrite Eb.
Qed.
End Safe.

(** ** An example

    A tunnel that sends packets as they are, a peer 1 with the address
    100.64.0.2, and a host 100.64.0.1 on transport 7 whose filter drops
    everything: the reply to a packet that was sent is delivered. *)
From S2P Require Import IpNetModel.
Import MiniParser.

Inductive PlainTunnel := Plain.

#[export] Instance plain_tunnel : Tunnel PlainTunnel := {|
  tun_input := unit;
  tun_send _ t ps := Ret (list_to_map ps, t);
  tun_send_priority_message _ t peer msg := Ret ({[peer := [msg]]}, t);
  tun_recv_from _ t from ps :=
    Ret (mkRecvResult (match from with Some peer => {[peer := ps]} | None => ∅ end) ∅ [], t);
  tun_dispatch_events _ t _ := Ret (∅, t);
  tun_next_event _ := Ret (Some (mkTimeRange 5 9));
|}.

#[export, refine] Instance plain_laws : TunnelLaws PlainTunnel := {|
  tun_ok _ _ := True;
  tun_input_ok _ := True;
  tun_fits _ := True;
  tun_dispatch_cost _ := 0%nat;
|}.
Proof.
  - done.
  - done.
  - intros. by eexists _, _.
  - intros. by eexists _, _.
  - intros i k t from ps _ _ Hps _. eexists _, _. split; [reflexivity|]. split; [done|].
    intros peer. cbn. destruct from as [q|]; unfold entry; cbn.
    + destruct (decide (q = peer)) as [->|Hne]; [by rewrite lookup_singleton_eq|].
      rewrite lookup_singleton_ne by done. constructor.
    + rewrite lookup_empty. constructor.
  - intros. by eexists _, _.
  - intros. eexists. split; [reflexivity|]. by intros r [= <-].
Defined.

Definition demo_dp : DataPlane PlainTunnel DropAllFilter :=
  mkDataPlane Plain (table_of [OInsert (net4 100 64 0 2 32 eq_refl) (OrOut.Wireguard 1)]) {[1 := 4]}
    (table_of [OInsert (net4 100 64 0 2 32 eq_refl) 1])
    (table_of [OInsert (net4 100 64 0 1 32 eq_refl) (OrIn.ToOverlay 7)])
    (DynDropAll DropAll) Scheduler_default None flow_default None None false.

Definition demo_input (now : Z) : DpInput PlainTunnel :=
  mkDpInput (fun _ => tt) (fun _ => default_order) default_order now.

Definition demo_request : packet := demo_ip4 UDP 1 2 [156; 64; 0; 53; 0; 8; 0; 0].
Definition demo_reply : packet := demo_ip4 UDP 2 1 [0; 53; 156; 64; 0; 8; 0; 0].

Definition demo_sent : DataPlane PlainTunnel DropAllFilter :=
  match process_outbound (demo_input 0) demo_dp [demo_request] with
  | Ret (_, dp) => dp
  | Panic => demo_dp
  end.

Lemma demo_input_ok now : input_ok (demo_input now).
Proof. done. Qed.

Lemma demo_configured : dp_reachable [] 0 demo_dp.
Proof.
  apply (reach_configure [] 0 0 (DataPlane_new Plain)); [by apply reach_new|lia|done|].
  split; try (eexists; apply table_of_rel); done.
Qed.

Lemma demo_cost : outbound_cost (demo_input 0) demo_dp [demo_request] = 1%nat.
Proof. vm_compute. reflexivity. Qed.

Lemma demo_bytes : Forall bytes_ok [demo_request].
Proof. by apply packets_ok_eval. Qed.

Lemma demo_fits : Forall tun_fits [demo_request].
Proof. by repeat constructor. Qed.

Lemma demo_budget : Z.of_nat (0 + outbound_cost (demo_input 0) demo_dp [demo_request]) <= 2 ^ 62.
Proof. rewrite demo_cost. lia. Qed.

Lemma demo_run : exists res, process_outbound (demo_input 0) demo_dp [demo_request] = Ret (res, demo_sent).
Proof.
  unfold demo_sent. destruct (process_outbound_spec [] 0 (demo_input 0) demo_dp [demo_request]
    (dp_reachable_inv _ _ _ demo_configured) (demo_input_ok 0) demo_bytes demo_fits demo_budget)
    as (res & dp & -> & _). by exists res.
Qed.

Lemma demo_reachable : dp_reachable [demo_request] 1 demo_sent.
Proof.
  destruct demo_run as [res E]. rewrite <- demo_cost.
  exact (reach_outbound [] 0 demo_dp (demo_input 0) [demo_request] res demo_sent demo_configured
    (demo_input_ok 0) demo_bytes demo_fits demo_budget E).
Qed.

Lemma demo_reply_delivered :
  match process_inbound_from (demo_input 1) demo_sent (Some 1) [demo_reply; demo_syn] with
  | Ret (res, _) => entry (ib_to_local res) 7 = [demo_reply] /\ map_size (ib_to_peers res) = 1%nat
  | Panic => False
  end.
Proof. by vm_compute. Qed.

Lemma dataplane_never_panics_witness :
  (exists r, process_outbound (demo_input 1) demo_sent [demo_request] = Ret r) /\
  (exists r, process_inbound_from (demo_input 1) demo_sent (Some 1) [demo_reply] = Ret r) /\
  (exists r, process_events (demo_input 1) demo_sent = Ret r) /\
  (exists r, dp_next_event demo_sent = Ret r).
Proof.
  apply (dataplane_never_panics [demo_request] 1).
  - apply demo_reachable.
  - apply demo_input_ok.
  - by apply packets_ok_eval.
  - apply demo_fits.
  - by apply packets_ok_eval.
  - vm_compute. by intros.
  - vm_compute. by intros.
  - vm_compute. by intros.
Defined.

Lemma inbound_delivery_safe_witness :
  exists res dp', process_inbound_from (demo_input 1) demo_sent (Some 1) [demo_reply; demo_syn]
      = Ret (res, dp') /\
    forall id p, p ∈ entry (ib_to_local res) id ->
      delivered [demo_request] (demo_input 1) demo_sent (Some 1) [demo_reply; demo_syn] id p.
Proof.
  apply (inbound_delivery_safe [demo_request] 1).
  - apply demo_reachable.
  - apply demo_input_ok.
  - by apply packets_ok_eval.
  - vm_compute. by intros.
Defined.

Lemma timers_run_witness :
  exists dp', dp_run (demo_input 1) demo_sent OpEvents = Ret dp' /\
    (tun_next_event (wireguard dp') = Ret (Some (mkTimeRange 5 9)) ->
     dp_next_event dp' = Ret (Some 9) /\
     (input_ok (demo_input 8) -> 5 <= 8 ->
      Z.of_nat (1 + op_cost (demo_input 1) demo_sent OpEvents + tun_dispatch_cost (wireguard dp')) <= 2 ^ 62 ->
      exists res dp'' m, process_events (demo_input 8) dp' = Ret (res, dp'') /\
        tun_dispatch_events (di_tun (demo_input 8) 0) (wireguard dp')
            (di_now (demo_input 8)) = Ret (m, wireguard dp'') /\
        er_to_peers res = UrOut.route (ur_out dp') (iter_map (di_order (demo_input 8) 0) m))).
Proof.
  apply (timers_run [demo_request] 1 demo_sent (demo_input 1) OpEvents (demo_input 8) (mkTimeRange 5 9)).
  - apply demo_reachable.
  - apply demo_input_ok.
  - constructor.
  - vm_compute. by intros.
Defined.
