(* ===== verification/EndpointTunnel.v ===== *)
(** * EndpointTunnel: the WireGuard endpoint is the tunnel of the data plane

    [Endpoint] implements the interface [Tunnel] and satisfies its laws in a
    release build, so the theorems of [DataplaneSafe] hold for the data plane
    as it is built: over the endpoint, the routing tables and the packet
    filter of this development: what the host receives from a source address
    opened under a key of the peer that owns the address. *)

From stdpp Require Import gmap strings sorting countable.
From S2P Require Import Prelude Bitset Array256 BaseIndex IpNet Stride IpTrie TrieSpec Table Routing Bytes Packet Routers PacketFilter FlowTrack InboundFilter BartFilter Crypto Messages Tai64 Session Macs Scheduler Handshake Endpoint EndpointInv EndpointMethods EndpointSafe EndpointKeys Dataplane DataplaneSafe.

Local Open Scope Z_scope.

(** ** The tunnel *)

(** What a call reads from outside, and the order in which the groups of
    received packets are visited. *)
Record TunInput := mkTunInput { ti_env : Env; ti_order : list packet -> list Z }.

#[export] Instance endpoint_tunnel `{!CryptoOps} : Tunnel Endpoint := {|
  tun_input := TunInput;
  tun_send i e ps :=
    '(_, e, r) ← endpoint_send (ti_env i) e ps;
    Ret (to_peers r, e);
  tun_send_priority_message i e peer msg :=
    '(_, e, r) ← send_priority_message (ti_env i) e peer msg;
    Ret (to_peers r, e);
  tun_recv_from i e from ps :=
    '(_, e, r) ← recv_from (ti_env i) e from ps (ti_order i ps);
    Ret (mkRecvResult (to_local r) (to_peers r) (sessions_established r), e);
  tun_dispatch_events i e now :=
    '(_, e, r) ← dispatch_events (ti_env i) e now;
    Ret (to_peers r, e);
  tun_next_event := next_event;
|}.

(** The calls of a release build. *)
Definition ti_ok (i : TunInput) : Prop :=
  env_ok (ti_env i) /\ debug_assertions (ti_env i) = false /\
  forall ps, group_order ps (ti_order i ps).

Lemma group_order_length ps order : group_order ps order -> (length order <= length ps)%nat.
Proof.
  intros [Hnd Hin]. rewrite <- (length_fmap group_key ps). apply submseteq_length, NoDup_submseteq; [done|].
  intros k (_ & p & Hp & <-)%Hin. by apply list_elem_of_fmap_2.
Qed.

Section Laws.
Context `{!CryptoOps, !CryptoLaws}.

(** The invariant of an endpoint that has started at most [k] handshakes. *)
Definition tunnel_inv (k : nat) (e : Endpoint) : Prop :=
  ep_inv false (2 ^ 63 + Z.of_nat k) e /\ keyed_ep e.

(** A call of the endpoint returns and keeps the invariant. *)
Lemma tunnel_call {A} env k e op (call : outcome (A * Endpoint * Result_)) :
  env_ok env -> debug_assertions env = false -> tunnel_inv k e -> op_ok e op ->
  Z.of_nat (k + initiations e op) <= 2 ^ 62 ->
  run_op env e op = ('(_, e, _) ← call; Ret e) ->
  exists a e' r, call = Ret (a, e', r) /\ tunnel_inv (k + initiations e op) e'.
Proof.
  intros He Hd [HI HK] Hok Hk E. rewrite <- Hd in HI.
  assert (2 ^ 63 + Z.of_nat k + Z.of_nat (initiations e op) <= 2 ^ 64) as Hn by lia.
  pose proof (run_op_spec env _ e op He HI Hok Hn) as HH.
  pose proof (fun e' => run_op_keyed env _ e op e' He HI Hok Hn HK) as HK'.
  rewrite E in HH, HK'. destruct call as [[[a e'] r]|]; [|by rewrite Hd in HH].
  exists a, e', r. split; [done|]. split; [|by apply HK']. rewrite <- Hd.
  eapply ep_inv_mono; [exact HH|lia].
Qed.

Lemma tunnel_inv_mono k k' e : tunnel_inv k e -> (k <= k')%nat -> tunnel_inv k' e.
Proof. intros [HI HK] Hk. split; [|done]. eapply ep_inv_mono; [exact HI|lia]. Qed.

Lemma opened_bytes_ok me cfg packets p : Forall bytes_ok packets -> opened_by me cfg packets p -> bytes_ok p.
Proof.
  intros Hps (pkt & h & body & key & Hin & Eh & Eo & _). eapply chacha_open_ok; [|exact Eo].
  rewrite Forall_forall in Hps. specialize (Hps _ Hin). revert Eh.
  unfold TransportDataHeader_try_from_prefix. case_decide; [|done]. cbn [split_fields td_layout].
  destruct (MessageType_of _); [|done]. cbn [mbind option_bind]. intros [= _ <-]. by apply bytes_ok_drop.
Qed.

#[export, refine] Instance endpoint_laws : TunnelLaws Endpoint := {|
  tun_ok := tunnel_inv;
  tun_input_ok := ti_ok;
  tun_fits := packet_fits;
  tun_dispatch_cost e := length (events (scheduler (e_state e)));
|}.
Proof.
  - intros k k' e. apply tunnel_inv_mono.
  - intros p Hp. unfold packet_fits, P_MAX. lia.
  - intros i k e ps (He & Hd & _) HI Hps Hk.
    destruct (tunnel_call _ k e (OpSend ps) _ He Hd HI Hps Hk eq_refl) as (a & e' & r & E & HI').
    cbn [tun_send endpoint_tunnel]. rewrite E. by eexists _, e'.
  - intros i k e peer msg (He & Hd & _) HI Hk. rewrite <- (Nat.add_0_r k) in Hk.
    destruct (tunnel_call _ k e (OpPriority peer msg) _ He Hd HI Logic.I Hk eq_refl)
      as (a & e' & r & E & HI').
    cbn [tun_send_priority_message endpoint_tunnel]. rewrite E. eexists _, e'. split; [done|].
    cbn [initiations] in HI'. by rewrite Nat.add_0_r in HI'.
  - intros i k e from ps (He & Hd & Ho) HI Hps Hk.
    pose proof (group_order_length ps _ (Ho ps)) as Hlen.
    assert (Z.of_nat (k + initiations e (OpRecv from ps (ti_order i ps))) <= 2 ^ 62) as Hk'
      by (cbn [initiations]; lia).
    destruct (tunnel_call _ k e (OpRecv from ps (ti_order i ps)) _ He Hd HI Hps Hk' eq_refl)
      as (a & e' & r & E & HI').
    cbn [tun_recv_from endpoint_tunnel]. rewrite E. eexists _, e'. split; [reflexivity|].
    split; [eapply tunnel_inv_mono; [exact HI'|cbn [initiations]; lia]|]. intros peer. cbn [rr_to_local].
    apply Forall_forall. intros p Hp.
    destruct (recv_from_opened_by _ _ _ _ _ _ _ _ _ _ (proj2 HI) E Hp) as (q & _ & Hq).
    by eapply opened_bytes_ok.
  - intros i k e now (He & Hd & _) HI Hk.
    destruct (tunnel_call _ k e (OpDispatch now) _ He Hd HI Logic.I Hk eq_refl) as (a & e' & r & E & HI').
    cbn [tun_dispatch_events endpoint_tunnel]. rewrite E. by eexists _, e'.
  - intros k e [HI _]. cbn [tun_next_event endpoint_tunnel]. unfold next_event.
    pose proof (next_dispatch_range_spec _ (ei_sched _ _ _ HI)) as Hn.
    destruct (events (scheduler (e_state e))).
    + exists None. split; [done|]. by intros.
    + destruct Hn as (r & -> & Hr & _). exists (Some r). split; [done|]. by intros r' [= <-].
Defined.

Lemma reachable_tunnel_inv key k e : reachable false key k e -> tunnel_inv k e.
Proof. intros HR. split; [by eapply reachable_inv|by eapply reachable_keyed]. Qed.
End Laws.

(** ** The data plane over the endpoint *)

(** What the host receives on an overlay transport: a packet whose source
    address belongs to the peer whose keys opened it. *)
Definition host_receives `{!CryptoOps, !IpNetOps, !IpParser} {F} `{!Filter F} (log : list packet)
    (dp : DataPlane Endpoint F) (packets : list packet) (id : Z) (p : packet) : Prop :=
  (exists peer q src,
    e_peers (wireguard dp) !! peer = Some q /\
    opened_by (my_key (e_state (wireguard dp))) (p_config q) packets p /\
    get_src_addr p = Some src /\ Split.lookup (src_filter_in dp) src = Ret (Some peer)) /\
  (exists dst, get_dst_addr p = Some dst /\
    Split.lookup (or_in dp) dst = Ret (Some (OrIn.ToOverlay id))) /\
  allowed (packet_filter dp) (sent log) p.

(** C1: The data plane over the WireGuard endpoint and the filter built on the
    routing table, in a release build.  Whatever bytes arrive, from whichever
    sender, processing returns, and every packet that the host receives opened
    under a key of a handshake with the node key and the preshared key
    configured for one peer, has a source address that the source filter
    routes to that same peer, passes the filter stage and follows the inbound
    route of its destination.  The calls are those of [ti_ok]: clocks that
    advance by at most the 180 s life of a session within one call and stay below
    2^62 s, as do the keepalive intervals of the peers; and fewer than 2^62
    handshakes started. *)
Theorem wireguard_inbound_safe `{!CryptoOps, !CryptoLaws, !IpNetOps, !IpNetLaws, !Countable IpNet}
    `{!IpParser, !IpParserLaws} log k (dp : DataPlane Endpoint BartFilter) (inp : DpInput Endpoint)
    from (packets : list packet) :
  dp_reachable log k dp -> (forall n, ti_ok (di_tun inp n)) -> Forall bytes_ok packets ->
  Z.of_nat (k + inbound_cost inp dp from packets) <= 2 ^ 62 ->
  exists res dp', process_inbound_from inp dp from packets = Ret (res, dp') /\
    forall id p, p ∈ entry (ib_to_local res) id -> host_receives log dp packets id p.
Proof.
  intros Hr%dp_reachable_inv Hi Hb Hk.
  destruct (process_inbound_spec log k inp dp from packets Hr Hi Hb Hk) as (res & dp' & E & _ & _ & Hd).
  exists res, dp'. split; [done|]. intros id p Hp.
  destruct (Hd id p Hp) as (r & wg & peer & dst & Er & Hin & (src & Hsrc & Hown) & Hall & Hdst & Hroute).
  split; [|split; [by exists dst|done]]. cbn [tun_recv_from endpoint_tunnel] in Er.
  destruct (recv_from _ _ _ _ _) as [[[a e'] r']|] eqn:Ee; [|done]. injection Er as <- <-.
  destruct (recv_from_opened_by _ _ _ _ _ _ _ _ _ _ (proj2 (di_tunnel _ _ _ Hr)) Ee Hin) as (q & Hq & Ho).
  by exists peer, q, src.
Qed.

(** ** An example

    Two endpoints complete a handshake; the data plane of the second, whose
    peer 11 has the address 100.64.0.2, receives the first packet. *)
From S2P Require Import IpNetModel CryptoModel.
Import MiniParser.

(** A TCP packet of an open connection. *)
Definition wg_packet : packet :=
  demo_ip4 TCP 2 1 [156; 64; 0; 22; 0; 0; 0; 0; 0; 0; 0; 0; 80; 16; 0; 0; 0; 0; 0; 0].

Definition wg_or {A} (m : outcome A) (a : A) : A := match m with Ret a => a | Panic => a end.

Definition wg_no : unit * Endpoint * Result_ := (tt, Endpoint_new (ex_key 1), Result_default).

(** The first endpoint after sending, and its handshake initiation. *)
Definition wg_first : unit * Endpoint * Result_ :=
  wg_or (endpoint_send (ex_env false 1 3) (ex_upserted false) [(21, [wg_packet])]) wg_no.

Definition wg_initiation : list packet := ex_queued wg_first.2 21.

(** The second endpoint, before and after the initiation. *)
Definition wg_second0 : Endpoint :=
  wg_or (run_op (ex_env false 1 0) (Endpoint_new (ex_key 2)) (OpUpsert 11 (ex_peer 1))) wg_no.1.2.

Definition wg_second : Endpoint :=
  wg_or (run_op (ex_env false 1 4) wg_second0 (OpRecv (Some 11) wg_initiation (ex_order wg_initiation)))
    wg_no.1.2.

Definition wg_response : list packet :=
  ex_queued (wg_or (recv_from (ex_env false 1 4) wg_second0 (Some 11) wg_initiation
    (ex_order wg_initiation)) wg_no).2 11.

(** The packet, encrypted by the first endpoint. *)
Definition wg_data : list packet :=
  ex_queued (wg_or (recv_from (ex_env false 1 5) wg_first.1.2 (Some 21) wg_response
    (ex_order wg_response)) wg_no).2 21.

Definition wg_dp : DataPlane Endpoint BartFilter :=
  mkDataPlane wg_second (table_of [OInsert (net4 100 64 0 2 32 eq_refl) (OrOut.Wireguard 11)]) {[11 := 4]}
    (table_of [OInsert (net4 100 64 0 2 32 eq_refl) 11])
    (table_of [OInsert (net4 100 64 0 1 32 eq_refl) (OrIn.ToOverlay 7)])
    (DynFilterOf bart_default) Scheduler_default None flow_default None None false.

Definition wg_input : DpInput Endpoint :=
  mkDpInput (T := Endpoint) (fun _ => mkTunInput (ex_env false 1 6) ex_order) (fun _ => default_order) default_order 0.

Lemma wg_second_reachable : reachable false (ex_key 2) 0 wg_second.
Proof.
  assert (reachable false (ex_key 2) 0 wg_second0) as H0.
  { apply (reach_step false (ex_key 2) 0 (Endpoint_new (ex_key 2)) (ex_env false 1 0)
      (OpUpsert 11 (ex_peer 1))); [constructor|apply ex_env_ok; lia|done|split; [apply ex_peer_ok|done]|done|].
    vm_compute. reflexivity. }
  apply (reach_step false (ex_key 2) 0 wg_second0 (ex_env false 1 4)
    (OpRecv (Some 11) wg_initiation (ex_order wg_initiation)) wg_second H0).
  - apply ex_env_ok. lia.
  - reflexivity.
  - apply packets_ok_eval. vm_compute. reflexivity.
  - vm_compute. by intros.
  - vm_compute. reflexivity.
Qed.

Lemma ex_order_group ps : group_order ps (ex_order ps).
Proof.
  unfold ex_order. split; [apply NoDup_remove_dups|]. intros k.
  rewrite elem_of_remove_dups, list_elem_of_filter, list_elem_of_fmap. naive_solver.
Qed.

Lemma wg_input_ok n : ti_ok (di_tun wg_input n).
Proof. split; [apply ex_env_ok; lia|]. split; [done|]. apply ex_order_group. Qed.

Lemma wg_dp_reachable : dp_reachable [] 0 wg_dp.
Proof.
  apply (reach_configure [] 0 0 (DataPlane_new wg_second)).
  - apply reach_new. apply (reachable_tunnel_inv (ex_key 2)), wg_second_reachable.
  - lia.
  - apply (reachable_tunnel_inv (ex_key 2)), wg_second_reachable.
  - split; try (eexists; apply table_of_rel); [|done]. exists ∅. apply bart_rel_empty.
Qed.

Lemma wg_packet_delivered :
  match process_inbound_from wg_input wg_dp (Some 11) wg_data with
  | Ret (res, _) => exists pad, entry (ib_to_local res) 7 = [wg_packet ++ pad]
  | Panic => False
  end.
Proof. vm_compute. by eexists. Qed.

Lemma wireguard_inbound_safe_witness :
  exists res dp', process_inbound_from wg_input wg_dp (Some 11) wg_data = Ret (res, dp') /\
    forall id p, p ∈ entry (ib_to_local res) id -> host_receives [] wg_dp wg_data id p.
Proof.
  apply (wireguard_inbound_safe [] 0).
  - apply wg_dp_reachable.
  - apply wg_input_ok.
  - apply packets_ok_eval. vm_compute. reflexivity.
  - vm_compute. by intros.
Defined.
