(* ===== verification/Cbor.v ===== *)
(** * Cbor: canonical CBOR for Tailnet Lock (src/ts_tka)

    The encoder of src/ts_tka/src/cbor.rs and the decoder of
    src/ts_tka/src/lib.rs.  Lists of bytes are [Vec<u8>] and [&[u8]]; a decoder
    returns the rest of its input or an error.  The [debug_assert!]s on
    duplicate keys are those of a debug build and left out: the theorems assume
    distinct keys where it matters. *)

From stdpp Require Import list sorting strings.
From S2P Require Import Prelude Bytes.

Local Open Scope Z_scope.

(** ** Errors *)

Inductive TkaError :=
| Decode (what : string)
| BadSignature
| UntrustedKey
| CredentialCannotAuthorize
| NodeKeyMismatch
| BadParent
| BadKeyState
| BadChain
| UnsignedAum.

#[export] Instance TkaError_eq_dec : EqDecision TkaError.
Proof. solve_decision. Defined.

(** [Result<A, TkaError>] with its [?]. *)
Abbreviation res := (sum TkaError).
Abbreviation Err := (@inl TkaError _).
Abbreviation Ok := (@inr TkaError _).

#[export] Instance res_ret : MRet (sum TkaError) := fun _ a => inr a.
#[export] Instance res_bind : MBind (sum TkaError) := fun _ _ f m =>
  match m with inl e => inl e | inr a => f a end.

Definition ok_or {A} (o : option A) (e : TkaError) : res A :=
  match o with Some a => Ok a | None => Err e end.

(** [Iterator::collect] into a [Result]: the first error, if any. *)
Fixpoint collect {A B} (f : A -> res B) (l : list A) : res (list B) :=
  match l with
  | [] => Ok []
  | a :: l => b ← f a; bs ← collect f l; Ok (b :: bs)
  end.

(** ** Sorting *)

Section Sort.
Context {K V : Type} (le : K -> K -> bool).

(** [sort_by_key]: stable. *)
Fixpoint insert_sorted (x : K * V) (l : list (K * V)) : list (K * V) :=
  match l with
  | [] => [x]
  | y :: l' => if le x.1 y.1 then x :: l else y :: insert_sorted x l'
  end.

Fixpoint sort_by_key (l : list (K * V)) : list (K * V) :=
  match l with
  | [] => []
  | x :: l => insert_sorted x (sort_by_key l)
  end.
End Sort.

(** [Ord for [u8]] *)
Fixpoint lex_le (a b : list Z) : bool :=
  match a, b with
  | [], _ => true
  | _, [] => false
  | x :: a, y :: b => if decide (x < y) then true else if decide (y < x) then false else lex_le a b
  end.

(** ** Values *)

Inductive Value :=
| Uint (n : Z)
| Null
| Bytes (b : list Z)
| Text (t : list Z)
| Array (items : list Value)
| IntMap (entries : list (Z * Value))
| TextMap (entries : list (list Z * Value)).

Definition encode_head (major n : Z) : list Z :=
  let mt := Z.shiftl major 5 in
  if decide (n < 24) then [Z.lor mt n]
  else if decide (n <= 255) then [Z.lor mt 24; n]
  else if decide (n <= 65535) then Z.lor mt 25 :: be_bytes 2 n
  else if decide (n <= 2 ^ 32 - 1) then Z.lor mt 26 :: be_bytes 4 n
  else Z.lor mt 27 :: be_bytes 8 n.

Definition len {A} (l : list A) : Z := Z.of_nat (length l).

(** The key of a [TextMap], as it is sorted and emitted. *)
Definition encode_key (k : list Z) : list Z := encode_head 3 (len k) ++ k.

(** [Value::encode]; the entries are encoded before they are put in order. *)
Fixpoint encode (v : Value) : list Z :=
  match v with
  | Uint n => encode_head 0 n
  | Null => [0xf6]
  | Bytes b => encode_head 2 (len b) ++ b
  | Text t => encode_head 3 (len t) ++ t
  | Array items => encode_head 4 (len items) ++ concat (encode <$> items)
  | IntMap entries =>
      let sorted := sort_by_key Z.leb ((fun kv => (kv.1, encode kv.2)) <$> entries) in
      encode_head 5 (len sorted) ++ concat ((fun ke => encode_head 0 ke.1 ++ ke.2) <$> sorted)
  | TextMap entries =>
      let encoded := sort_by_key lex_le ((fun kv => (encode_key kv.1, encode kv.2)) <$> entries) in
      encode_head 5 (len encoded) ++ concat ((fun ke => ke.1 ++ ke.2) <$> encoded)
  end.

(** [int_map]: the entries that are present. *)
Definition int_map (pairs : list (Z * option Value)) : Value :=
  IntMap (omap (fun kv => (fun v => (kv.1, v)) <$> kv.2) pairs).

(** ** Decoding *)

Definition MAX_SIG_NESTING_DEPTH : nat := 16.

Definition decode_head (buf : list Z) : res (Z * Z * list Z) :=
  match buf with
  | [] => Err (Decode "empty CBOR")
  | first :: rest =>
      let major := Z.shiftr first 5 in
      let info := Z.land first 0x1f in
      if decide (info <= 23) then Ok (major, info, rest)
      else if decide (info = 24) then
        match rest with
        | [] => Err (Decode "truncated u8")
        | b :: rest => Ok (major, b, rest)
        end
      else if decide (info = 25) then
        if (length rest <? 2)%nat then Err (Decode "truncated u16")
        else Ok (major, be_val (take 2 rest), drop 2 rest)
      else if decide (info = 26) then
        if (length rest <? 4)%nat then Err (Decode "truncated u32")
        else Ok (major, be_val (take 4 rest), drop 4 rest)
      else if decide (info = 27) then
        if (length rest <? 8)%nat then Err (Decode "truncated u64")
        else Ok (major, be_val (take 8 rest), drop 8 rest)
      else Err (Decode "indefinite/reserved CBOR length")
  end.

(** The iterations of [for _ in 0..arg] over a buffer.  Each of them takes a
    byte or fails, so none is left out by the bound; see [decode_items_bound],
    [int_entries_bound] and [text_entries_bound]. *)
Definition rounds (arg : Z) (buf : list Z) : nat := Z.to_nat (Z.min arg (len buf + 1)).

(** [reject_duplicate_keys] *)
Fixpoint windows_equal {K} `{EqDecision K} (ks : list K) : bool :=
  match ks with
  | a :: (b :: _) as ks' => bool_decide (a = b) || windows_equal ks'
  | _ => false
  end.

Definition reject_duplicate_keys {K} `{EqDecision K} (le : K -> K -> bool) (ks : list K) : res unit :=
  let sorted := (sort_by_key le ((fun k => (k, tt)) <$> ks)).*1 in
  if windows_equal sorted then Err (Decode "duplicate map key") else Ok tt.

Section Loops.
(** [decode_value] one level down. *)
Variable dec : list Z -> res (Value * list Z).

Fixpoint decode_items (n : nat) (cur : list Z) : res (list Value * list Z) :=
  match n with
  | O => Ok ([], cur)
  | S n =>
      '(v, next) ← dec cur;
      '(items, cur) ← decode_items n next;
      Ok (v :: items, cur)
  end.

Fixpoint int_entries (n : nat) (cur : list Z) : res (list (Z * Value) * list Z) :=
  match n with
  | O => Ok ([], cur)
  | S n =>
      '(m, k, next) ← decode_head cur;
      if decide (m = 0) then
        '(v, next) ← dec next;
        '(entries, cur) ← int_entries n next;
        Ok ((k, v) :: entries, cur)
      else Err (Decode "mixed map key types")
  end.

Fixpoint text_entries (n : nat) (cur : list Z) : res (list (list Z * Value) * list Z) :=
  match n with
  | O => Ok ([], cur)
  | S n =>
      '(key_val, next) ← dec cur;
      match key_val with
      | Text k =>
          '(v, next) ← dec next;
          '(entries, cur) ← text_entries n next;
          Ok ((k, v) :: entries, cur)
      | _ => Err (Decode "mixed map key types")
      end
  end.

Definition decode_map (buf : list Z) (count : Z) : res (Value * list Z) :=
  if decide (count = 0) then Ok (IntMap [], buf)
  else
    '(first_major, _, _) ← decode_head buf;
    if decide (first_major = 0) then
      '(entries, cur) ← int_entries (rounds count buf) buf;
      _ ← reject_duplicate_keys Z.leb entries.*1;
      Ok (IntMap entries, cur)
    else if decide (first_major = 3) then
      '(entries, cur) ← text_entries (rounds count buf) buf;
      _ ← reject_duplicate_keys lex_le entries.*1;
      Ok (TextMap entries, cur)
    else Err (Decode "map key not uint or text string").
End Loops.

(** [decode_value] with [levels] left: [levels = MAX_SIG_NESTING_DEPTH + 1 -
    depth]. *)
Fixpoint decode_value (levels : nat) (buf : list Z) : res (Value * list Z) :=
  match levels with
  | O => Err (Decode "CBOR nesting too deep")
  | S levels =>
      '(major, arg, rest) ← decode_head buf;
      if decide (major = 0) then Ok (Uint arg, rest)
      else if decide (major = 2) then
        if decide (len rest < arg) then Err (Decode "byte string truncated")
        else Ok (Bytes (take (Z.to_nat arg) rest), drop (Z.to_nat arg) rest)
      else if decide (major = 3) then
        if decide (len rest < arg) then Err (Decode "text string truncated")
        else Ok (Text (take (Z.to_nat arg) rest), drop (Z.to_nat arg) rest)
      else if decide (major = 4) then
        '(items, cur) ← decode_items (decode_value levels) (rounds arg rest) rest;
        Ok (Array items, cur)
      else if decide (major = 5) then decode_map (decode_value levels) rest arg
      else if decide (major = 7 /\ arg = 22) then Ok (Null, rest)
      else Err (Decode "unsupported CBOR major type")
  end.

(** [decode_value(buf, 0)] *)
Definition decode_top (buf : list Z) : res (Value * list Z) :=
  decode_value (S MAX_SIG_NESTING_DEPTH) buf.

(** ** Induction on values *)

Section ValueInd.
Context (P : Value -> Prop).
Context (HU : forall n, P (Uint n)) (HN : P Null) (HB : forall b, P (Bytes b)) (HT : forall t, P (Text t)).
Context (HA : forall items, Forall P items -> P (Array items)).
Context (HI : forall es, Forall (fun kv => P kv.2) es -> P (IntMap es)).
Context (HX : forall es, Forall (fun kv => P kv.2) es -> P (TextMap es)).

Fixpoint value_ind' (v : Value) : P v :=
  match v with
  | Uint n => HU n
  | Null => HN
  | Bytes b => HB b
  | Text t => HT t
  | Array items => HA items ((fix all l := match l return Forall P l with
      | [] => Forall_nil_2 _
      | x :: l => Forall_cons_2 _ _ _ (value_ind' x) (all l) end) items)
  | IntMap es => HI es ((fix all l := match l return Forall (fun kv => P kv.2) l with
      | [] => Forall_nil_2 _
      | x :: l => Forall_cons_2 _ _ _ (value_ind' x.2) (all l) end) es)
  | TextMap es => HX es ((fix all l := match l return Forall (fun kv => P kv.2) l with
      | [] => Forall_nil_2 _
      | x :: l => Forall_cons_2 _ _ _ (value_ind' x.2) (all l) end) es)
  end.
End ValueInd.

(** ** Sorting lemmas *)

Section SortLemmas.
Context {K V : Type} (le : K -> K -> bool).
Context (le_total : forall a b, le a b = true \/ le b a = true).
Context (le_trans : forall a b c, le a b = true -> le b c = true -> le a c = true).
Context (le_antisym : forall a b, le a b = true -> le b a = true -> a = b).
Implicit Types (l : list (K * V)) (x : K * V).

Definition key_le (x y : K * V) : Prop := le x.1 y.1 = true.

Lemma insert_sorted_perm x l : insert_sorted le x l ≡ₚ x :: l.
Proof.
  induction l as [|y l IH]; cbn; [done|]. destruct (le x.1 y.1); [done|].
  rewrite IH. by constructor.
Qed.

Lemma sort_perm l : sort_by_key le l ≡ₚ l.
Proof. induction l as [|x l IH]; cbn; [done|]. by rewrite insert_sorted_perm, IH. Qed.

Lemma length_sort l : length (sort_by_key le l) = length l.
Proof. apply Permutation_length, sort_perm. Qed.

Lemma insert_sorted_sorted x l :
  StronglySorted key_le l -> StronglySorted key_le (insert_sorted le x l).
Proof.
  induction 1 as [|y l Hs IH Hf]; cbn; [by repeat constructor|].
  destruct (le x.1 y.1) eqn:E.
  - constructor; [by constructor|]. constructor; [done|]. eapply Forall_impl; [exact Hf|].
    intros z Hz. by eapply le_trans.
  - constructor; [done|]. rewrite insert_sorted_perm. constructor; [|done].
    destruct (le_total x.1 y.1); [congruence|done].
Qed.

Lemma sort_sorted l : StronglySorted key_le (sort_by_key le l).
Proof. induction l as [|x l IH]; cbn; [constructor|]. by apply insert_sorted_sorted. Qed.

(** Distinct keys have one order. *)
Lemma sorted_unique l l' :
  NoDup l.*1 -> l ≡ₚ l' -> StronglySorted key_le l -> StronglySorted key_le l' -> l = l'.
Proof.
  intros Hnd Hp Hs. revert l' Hp. induction Hs as [|x l Hs IH Hf]; intros l' Hp Hs'.
  { by apply Permutation_nil_l in Hp as ->. }
  destruct Hs' as [|y l' Hs' Hf']; [by apply Permutation_nil_r in Hp|].
  apply NoDup_cons in Hnd as [Hx Hnd].
  assert (x = y) as <-.
  { assert (y ∈ x :: l) as Hy by (rewrite Hp; left). assert (x ∈ y :: l') as Hx' by (rewrite <- Hp; left).
    apply elem_of_cons in Hy as [->|Hy]; [done|]. apply elem_of_cons in Hx' as [->|Hx']; [done|].
    rewrite Forall_forall in Hf, Hf'. pose proof (le_antisym _ _ (Hf _ Hy) (Hf' _ Hx')) as E.
    destruct Hx. apply list_elem_of_fmap. by exists y. }
  f_equal. apply IH; [done| |done]. by apply Permutation_cons_inv in Hp.
Qed.

Lemma sort_unique l l' : NoDup l.*1 -> l ≡ₚ l' -> sort_by_key le l = sort_by_key le l'.
Proof.
  intros Hnd Hp. apply sorted_unique; [|by rewrite !sort_perm|apply sort_sorted..].
  by rewrite sort_perm.
Qed.

Lemma sort_idemp l : StronglySorted key_le l -> sort_by_key le l = l.
Proof.
  induction 1 as [|x l Hs IH Hf]; cbn; [done|]. rewrite IH. destruct Hf as [|y l Hy _]; [done|].
  cbn. unfold key_le in Hy. by rewrite Hy.
Qed.
End SortLemmas.

(** Sorting commutes with a change of keys and values. *)
Lemma sort_fmap {K K' V V'} (le : K' -> K' -> bool) (g : K -> K') (f : V -> V') l :
  sort_by_key le ((fun kv => (g kv.1, f kv.2)) <$> l)
  = (fun kv => (g kv.1, f kv.2)) <$> sort_by_key (fun a b => le (g a) (g b)) l.
Proof.
  assert (forall x m, insert_sorted le (g x.1, f x.2) ((fun kv => (g kv.1, f kv.2)) <$> m)
    = (fun kv => (g kv.1, f kv.2)) <$> insert_sorted (fun a b => le (g a) (g b)) x m) as Hi.
  { intros x m. induction m as [|y m IH]; cbn; [done|]. destruct (le _ _); [done|]. cbn. by rewrite <- IH. }
  induction l as [|x l IH]; cbn; [done|]. by rewrite <- Hi, <- IH.
Qed.

Lemma lex_le_total a b : lex_le a b = true \/ lex_le b a = true.
Proof.
  revert b. induction a as [|x a IH]; intros [|y b]; cbn; auto. repeat case_decide; auto; lia.
Qed.

Lemma lex_le_trans a b c : lex_le a b = true -> lex_le b c = true -> lex_le a c = true.
Proof.
  revert b c. induction a as [|x a IH]; intros [|y b] [|z c]; cbn; try done.
  repeat case_decide; try done; try lia. apply IH.
Qed.

Lemma lex_le_antisym a b : lex_le a b = true -> lex_le b a = true -> a = b.
Proof.
  revert b. induction a as [|x a IH]; intros [|y b]; cbn; try done.
  repeat case_decide; try done; try lia. intros. f_equal; [lia|auto].
Qed.

Lemma Zleb_total a b : (a <=? b) = true \/ (b <=? a) = true.
Proof. lia. Qed.
Lemma Zleb_trans a b c : (a <=? b) = true -> (b <=? c) = true -> (a <=? c) = true.
Proof. lia. Qed.
Lemma Zleb_antisym a b : (a <=? b) = true -> (b <=? a) = true -> a = b.
Proof. lia. Qed.

Section Duplicates.
Context {K : Type} `{!EqDecision K} (le : K -> K -> bool).
Context (le_total : forall a b, le a b = true \/ le b a = true).
Context (le_trans : forall a b c, le a b = true -> le b c = true -> le a c = true).
Context (le_antisym : forall a b, le a b = true -> le b a = true -> a = b).

Lemma windows_equal_spec (l : list (K * unit)) :
  StronglySorted (key_le le) l -> windows_equal l.*1 = false <-> NoDup l.*1.
Proof.
  induction 1 as [|x l Hs IH Hf]; [split; [constructor|done]|]. cbn [fmap list_fmap].
  rewrite NoDup_cons. destruct l as [|y l].
  - cbn. split; [|done]. intros _. split; [apply not_elem_of_nil|constructor].
  - cbn [fmap list_fmap windows_equal] in *. rewrite orb_false_iff, bool_decide_eq_false, IH.
    split; intros [Hx Hnd]; (split; [|done]); [|set_solver].
    intros [E|[z [Ez Hz]]%list_elem_of_fmap]%elem_of_cons; [done|]. apply Hx.
    apply Forall_cons in Hf as [Hxy _]. apply StronglySorted_inv in Hs as [_ Hyz].
    rewrite Forall_forall in Hyz. specialize (Hyz _ Hz). apply le_antisym; [done|]. by rewrite Ez.
Qed.

Lemma reject_duplicates_iff ks : reject_duplicate_keys le ks = Ok tt <-> NoDup ks.
Proof.
  unfold reject_duplicate_keys. set (l := (fun k => (k, tt)) <$> ks).
  assert (l.*1 = ks) as El by (unfold l; rewrite <- list_fmap_compose; apply list_fmap_id).
  pose proof (windows_equal_spec (sort_by_key le l) (sort_sorted le le_total le_trans l)) as Hw.
  assert (NoDup (sort_by_key le l).*1 <-> NoDup ks) as Hk by (by rewrite (sort_perm le l), El).
  destruct (windows_equal _).
  - split; [done|]. intros Hnd. by apply Hk, Hw in Hnd.
  - split; [|done]. intros _. by apply Hk, Hw.
Qed.
End Duplicates.

(** ** Heads *)

Lemma head_split major i :
  0 <= i < 32 ->
  Z.shiftr (Z.lor (Z.shiftl major 5) i) 5 = major /\ Z.land (Z.lor (Z.shiftl major 5) i) 0x1f = i.
Proof.
  intros Hi. rewrite lor_shiftl_low by lia. change 0x1f with (Z.ones 5).
  rewrite Z.shiftr_div_pow2, Z.land_ones by lia.
  change (2 ^ 5) with 32. split.
  - rewrite Z.div_add_l, Z.div_small by lia. lia.
  - rewrite Z.add_comm, Z.mod_add by lia. by apply Z.mod_small.
Qed.

Lemma decode_encode_head major n rest :
  u64_ok n -> decode_head (encode_head major n ++ rest) = Ok (major, n, rest).
Proof.
  intros Hn. unfold u64_ok in Hn. unfold encode_head. repeat case_decide; cbn [app decode_head];
    match goal with |- context [Z.lor (Z.shiftl major 5) ?i] =>
      destruct (head_split major i) as [-> ->]; [lia|] end.
  1: by rewrite decide_True by lia.
  1: done.
  all: repeat (rewrite decide_False by lia); rewrite ?decide_True by done.
  all: rewrite length_app, length_be_bytes, (proj2 (Nat.ltb_ge _ _)) by lia.
  all: rewrite take_app_length', drop_app_length', be_val_bytes by (rewrite ?length_be_bytes; lia); done.
Qed.

Lemma length_encode_head major n :
  length (encode_head major n)
  = if decide (n < 24) then 1%nat else if decide (n <= 255) then 2%nat
    else if decide (n <= 65535) then 3%nat else if decide (n <= 2 ^ 32 - 1) then 5%nat else 9%nat.
Proof. unfold encode_head. repeat case_decide; cbn [length]; rewrite ?length_be_bytes; done. Qed.

Lemma encode_head_cons major n : exists b bs, encode_head major n = b :: bs.
Proof. unfold encode_head. repeat case_decide; eauto. Qed.

Lemma encode_cons v : exists b bs, encode v = b :: bs.
Proof.
  destruct v; cbn [encode]; eauto using encode_head_cons;
    match goal with |- context [encode_head ?m ?n] => destruct (encode_head_cons m n) as (? & ? & ->) end;
    cbn; eauto.
Qed.

Lemma encode_key_inj k k' : encode_key k = encode_key k' -> k = k'.
Proof.
  unfold encode_key, len. intros E. assert (length k = length k') as El.
  { apply (f_equal length) in E. rewrite !length_app, !length_encode_head in E.
    repeat case_decide; lia. }
  rewrite El in E. by apply app_inv_head in E.
Qed.

(** ** Canonical form *)

(** The order of the keys of a [TextMap]: bytewise on the encoded keys. *)
Definition text_le (k k' : list Z) : bool := lex_le (encode_key k) (encode_key k').

(** The value with the entries of all its maps in the order they are emitted. *)
Fixpoint canon (v : Value) : Value :=
  match v with
  | Array items => Array (canon <$> items)
  | IntMap es => IntMap (sort_by_key Z.leb ((fun kv => (kv.1, canon kv.2)) <$> es))
  | TextMap es => TextMap (sort_by_key text_le ((fun kv => (kv.1, canon kv.2)) <$> es))
  | _ => v
  end.

(** The levels of [decode_value] a value needs. *)
Fixpoint depth (v : Value) : nat :=
  match v with
  | Array items => S (max_list (depth <$> items))
  | IntMap es => S (max_list ((fun kv => depth kv.2) <$> es))
  | TextMap es => S (max_list (1%nat :: ((fun kv => depth kv.2) <$> es)))
  | _ => 1%nat
  end.

(** The values that go over the wire: machine integers, distinct keys, and no
    empty [TextMap], which would read back as an [IntMap]. *)
Inductive wire_ok : Value -> Prop :=
| ok_uint n : u64_ok n -> wire_ok (Uint n)
| ok_null : wire_ok Null
| ok_bytes b : u64_ok (len b) -> wire_ok (Bytes b)
| ok_text t : u64_ok (len t) -> wire_ok (Text t)
| ok_array items : u64_ok (len items) -> Forall wire_ok items -> wire_ok (Array items)
| ok_int_map es :
    u64_ok (len es) -> NoDup es.*1 -> Forall (fun kv => u64_ok kv.1 /\ wire_ok kv.2) es ->
    wire_ok (IntMap es)
| ok_text_map es :
    u64_ok (len es) -> es <> [] -> NoDup es.*1 ->
    Forall (fun kv => u64_ok (len kv.1) /\ wire_ok kv.2) es -> wire_ok (TextMap es).

Lemma text_le_total a b : text_le a b = true \/ text_le b a = true.
Proof. apply lex_le_total. Qed.
Lemma text_le_trans a b c : text_le a b = true -> text_le b c = true -> text_le a c = true.
Proof. apply lex_le_trans. Qed.
Lemma text_le_antisym a b : text_le a b = true -> text_le b a = true -> a = b.
Proof. intros. by apply encode_key_inj, lex_le_antisym. Qed.

Lemma sort_values {K V V'} (le : K -> K -> bool) (f : V -> V') l :
  sort_by_key le ((fun kv => (kv.1, f kv.2)) <$> l) = (fun kv => (kv.1, f kv.2)) <$> sort_by_key le l.
Proof. apply (sort_fmap le id f). Qed.

(** What [encode] emits for a map, entry by entry. *)
Lemma encode_int_map es :
  encode (IntMap es)
  = encode_head 5 (len es)
    ++ concat ((fun kv => encode_head 0 kv.1 ++ encode kv.2) <$> sort_by_key Z.leb es).
Proof.
  cbn [encode]. rewrite sort_values. unfold len. rewrite length_fmap, length_sort.
  by rewrite <- list_fmap_compose.
Qed.

Lemma encode_text_map es :
  encode (TextMap es)
  = encode_head 5 (len es)
    ++ concat ((fun kv => encode_key kv.1 ++ encode kv.2) <$> sort_by_key text_le es).
Proof.
  cbn [encode]. rewrite (sort_fmap lex_le encode_key encode). unfold len.
  rewrite length_fmap, length_sort. by rewrite <- list_fmap_compose.
Qed.

(** The canonical form encodes as the value does. *)
Lemma entries_canon {K} (le : K -> K -> bool) (enc : K -> list Z) (es : list (K * Value)) :
  (forall a b, le a b = true \/ le b a = true) ->
  (forall a b c, le a b = true -> le b c = true -> le a c = true) ->
  Forall (fun kv => encode (canon kv.2) = encode kv.2) es ->
  (fun kv => enc kv.1 ++ encode kv.2)
    <$> sort_by_key le (sort_by_key le ((fun kv => (kv.1, canon kv.2)) <$> es))
  = (fun kv => enc kv.1 ++ encode kv.2) <$> sort_by_key le es.
Proof.
  intros Ht Htr IH. rewrite (sort_idemp le), sort_values, <- list_fmap_compose by by apply sort_sorted.
  apply Forall_fmap_ext_1. rewrite sort_perm. eapply Forall_impl; [exact IH|].
  intros kv E. cbn. by rewrite E.
Qed.

Lemma encode_canon v : encode (canon v) = encode v.
Proof.
  induction v as [| | | |items IH|es IH|es IH] using value_ind'; try done.
  - cbn. unfold len. rewrite length_fmap. do 2 f_equal. rewrite <- list_fmap_compose.
    by apply Forall_fmap_ext_1.
  - cbn [canon]. rewrite !encode_int_map, (entries_canon Z.leb) by eauto using Zleb_total, Zleb_trans.
    unfold len. by rewrite length_sort, length_fmap.
  - cbn [canon]. rewrite !encode_text_map, (entries_canon text_le) by eauto using text_le_total, text_le_trans.
    unfold len. by rewrite length_sort, length_fmap.
Qed.

(** ** Reading back what was written *)

Lemma rounds_exact {A} (l : list A) buf :
  (length l <= length buf)%nat -> rounds (len l) buf = length l.
Proof. unfold rounds, len. lia. Qed.

Lemma length_concat_ge {A} (f : A -> list Z) l :
  (forall a, 1 <= length (f a))%nat -> (length l <= length (concat (f <$> l)))%nat.
Proof.
  intros Hf. induction l as [|a l IH]; cbn; [lia|]. rewrite length_app. specialize (Hf a). lia.
Qed.

Section ReadBack.
Variable dec : list Z -> res (Value * list Z).

Definition reads (v : Value) : Prop := forall rest, dec (encode v ++ rest) = Ok (canon v, rest).

Lemma decode_items_encode items rest :
  Forall reads items ->
  decode_items dec (length items) (concat (encode <$> items) ++ rest) = Ok (canon <$> items, rest).
Proof.
  induction 1 as [|v items Hv _ IH]; cbn; [done|].
  rewrite <- app_assoc, Hv. cbn. by rewrite IH.
Qed.

Lemma int_entries_encode es rest :
  Forall (fun kv => u64_ok kv.1 /\ reads kv.2) es ->
  int_entries dec (length es) (concat ((fun kv => encode_head 0 kv.1 ++ encode kv.2) <$> es) ++ rest)
  = Ok ((fun kv => (kv.1, canon kv.2)) <$> es, rest).
Proof.
  induction 1 as [|[k v] es [Hk Hv] _ IH]; cbn; [done|]. cbn in *.
  rewrite <- !app_assoc, decode_encode_head by done. cbn. rewrite Hv. cbn. by rewrite IH.
Qed.

Lemma text_entries_encode es rest :
  Forall (fun kv => reads (Text kv.1) /\ reads kv.2) es ->
  text_entries dec (length es) (concat ((fun kv => encode_key kv.1 ++ encode kv.2) <$> es) ++ rest)
  = Ok ((fun kv => (kv.1, canon kv.2)) <$> es, rest).
Proof.
  induction 1 as [|[k v] es [Hk Hv] _ IH]; cbn; [done|]. cbn in *.
  rewrite <- !app_assoc, (Hk _ : dec (encode_key k ++ _) = _). cbn. rewrite Hv. cbn. by rewrite IH.
Qed.
End ReadBack.

Lemma max_list_fmap_le {A} (f : A -> nat) l n : (max_list (f <$> l) <= n)%nat -> Forall (fun a => f a <= n)%nat l.
Proof.
  intros H. apply Forall_forall. intros a Ha.
  assert (f a ∈ f <$> l) as Hf by (apply list_elem_of_fmap; eauto).
  pose proof (max_list_elem_of_le _ _ Hf). lia.
Qed.

(** The values [decode_value] reads back at a level. *)
Definition back (v : Value) : Prop :=
  forall levels rest, wire_ok v -> (depth v <= levels)%nat ->
    decode_value levels (encode v ++ rest) = Ok (canon v, rest).

Lemma back_array items : Forall back items -> back (Array items).
Proof.
  intros IH levels rest Hw Hd. inversion Hw as [| | | |? Hl Hf| |]; subst.
  destruct levels as [|levels]; cbn in Hd; [lia|]. apply le_S_n, max_list_fmap_le in Hd.
  cbn [encode decode_value]. rewrite <- app_assoc, decode_encode_head by done. cbn.
  rewrite rounds_exact by (rewrite length_app; etrans; [by apply (length_concat_ge encode);
    intros a; destruct (encode_cons a) as (? & ? & ->); cbn; lia|lia]).
  rewrite decode_items_encode; [done|]. apply Forall_forall. intros v Hv r.
  rewrite Forall_forall in IH, Hf, Hd. apply IH; auto.
Qed.

Lemma length_entries_ge {K} (enc : K -> list Z) (es : list (K * Value)) rest :
  (length es <= length (concat ((fun kv => enc kv.1 ++ encode kv.2) <$> es) ++ rest))%nat.
Proof.
  rewrite length_app. etrans; [apply (length_concat_ge (fun kv => enc kv.1 ++ encode kv.2))|lia].
  intros a. rewrite length_app. destruct (encode_cons a.2) as (? & ? & ->). cbn. lia.
Qed.

Lemma decode_head_key k rest :
  u64_ok (len k) -> decode_head (encode_key k ++ rest) = Ok (3, len k, k ++ rest).
Proof. intros. unfold encode_key. by rewrite <- app_assoc, decode_encode_head. Qed.

Lemma decode_map_int dec es rest :
  NoDup es.*1 -> u64_ok (len es) -> Forall (fun kv => u64_ok kv.1 /\ reads dec kv.2) es ->
  decode_map dec (concat ((fun kv => encode_head 0 kv.1 ++ encode kv.2) <$> es) ++ rest) (len es)
  = Ok (IntMap ((fun kv => (kv.1, canon kv.2)) <$> es), rest).
Proof.
  intros Hnd Hl Hf. unfold decode_map. case_decide as E.
  { destruct es; [done|]. unfold len in E. cbn in E. lia. }
  rewrite rounds_exact by (by apply length_entries_ge). rewrite int_entries_encode by done.
  destruct Hf as [|[k v] es [Hk Hv] Hf]; [done|]. cbn in *.
  rewrite <- !app_assoc, decode_encode_head by done. cbn.
  rewrite <- list_fmap_compose. cbn.
  rewrite (proj2 (reject_duplicates_iff Z.leb Zleb_total Zleb_trans Zleb_antisym _)) by done. done.
Qed.

Lemma decode_map_text dec es rest :
  NoDup es.*1 -> es <> [] -> u64_ok (len es) ->
  Forall (fun kv => u64_ok (len kv.1) /\ reads dec (Text kv.1) /\ reads dec kv.2) es ->
  decode_map dec (concat ((fun kv => encode_key kv.1 ++ encode kv.2) <$> es) ++ rest) (len es)
  = Ok (TextMap ((fun kv => (kv.1, canon kv.2)) <$> es), rest).
Proof.
  intros Hnd Hne Hl Hf. unfold decode_map. case_decide as E.
  { destruct es; [done|]. unfold len in E. cbn in E. lia. }
  rewrite rounds_exact by (by apply length_entries_ge).
  rewrite text_entries_encode by (eapply Forall_impl; [exact Hf|]; naive_solver).
  destruct Hf as [|[k v] es [Hk Hv] Hf]; [done|]. cbn in *.
  rewrite <- !app_assoc, decode_head_key by done. cbn.
  rewrite <- list_fmap_compose. cbn.
  rewrite (proj2 (reject_duplicates_iff lex_le lex_le_total lex_le_trans lex_le_antisym _)) by done. done.
Qed.

Lemma back_int_map es : Forall (fun kv => back kv.2) es -> back (IntMap es).
Proof.
  intros IH levels rest Hw Hd. inversion Hw as [| | | | |? Hl Hnd Hf|]; subst.
  destruct levels as [|levels]; cbn in Hd; [lia|]. apply le_S_n, max_list_fmap_le in Hd.
  cbn [decode_value canon]. rewrite encode_int_map, <- app_assoc, decode_encode_head, sort_values by done.
  cbn -[sort_by_key].
  replace (len es) with (len (sort_by_key Z.leb es)) in Hl |- * by (unfold len; by rewrite length_sort).
  rewrite decode_map_int; [done|by rewrite sort_perm|done|].
  rewrite sort_perm. apply Forall_forall. intros kv Hkv. rewrite Forall_forall in IH, Hf, Hd.
  split; [by apply Hf|]. intros r. apply IH; [done|by apply Hf|by apply Hd].
Qed.

Lemma back_text t : back (Text t).
Proof.
  intros levels rest Hw Hd. inversion Hw as [| | |? Hl| | |]; subst.
  destruct levels as [|levels]; cbn in Hd; [lia|]. cbn [encode decode_value canon].
  rewrite <- app_assoc, decode_encode_head by done. cbn. unfold len.
  do 2 rewrite decide_False by lia. rewrite decide_True by done.
  rewrite decide_False by (rewrite length_app; lia). rewrite Nat2Z.id.
  by rewrite take_app_length, drop_app_length.
Qed.

Lemma back_text_map es : Forall (fun kv => back kv.2) es -> back (TextMap es).
Proof.
  intros IH levels rest Hw Hd. inversion Hw as [| | | | | |? Hl Hne Hnd Hf]; subst.
  destruct levels as [|levels]; cbn in Hd; [lia|]. apply le_S_n in Hd.
  assert (1 <= levels)%nat as Hlev by lia.
  assert (max_list ((fun kv => depth kv.2) <$> es) <= levels)%nat as Hd' by lia.
  apply max_list_fmap_le in Hd'. cbn [decode_value canon].
  rewrite encode_text_map, <- app_assoc, decode_encode_head, sort_values by done. cbn -[sort_by_key].
  replace (len es) with (len (sort_by_key text_le es)) in Hl |- * by (unfold len; by rewrite length_sort).
  rewrite decode_map_text; [done|by rewrite sort_perm| |done|].
  { intros E. apply (f_equal length) in E. rewrite length_sort in E. by destruct es. }
  rewrite sort_perm. apply Forall_forall. intros kv Hkv. rewrite Forall_forall in IH, Hf, Hd'.
  specialize (Hf _ Hkv) as [Hk Hv]. split_and!; [done| |].
  - intros r. apply back_text; [by constructor|done].
  - intros r. apply IH; [done|done|by apply Hd'].
Qed.

Lemma decode_encode v : back v.
Proof.
  induction v using value_ind'; auto using back_array, back_int_map, back_text_map, back_text.
  - intros [|levels] rest Hw Hd; cbn in Hd; [lia|]. inversion Hw; subst. cbn [encode decode_value].
    by rewrite decode_encode_head.
  - intros [|levels] rest Hw Hd; cbn in Hd; [lia|]. done.
  - intros [|levels] rest Hw Hd; cbn in Hd; [lia|]. inversion Hw as [| |? Hl| | | |]; subst.
    cbn [encode decode_value canon]. rewrite <- app_assoc, decode_encode_head by done. cbn. unfold len.
    rewrite decide_False, decide_True by lia.
    rewrite decide_False by (rewrite length_app; lia). rewrite Nat2Z.id.
    by rewrite take_app_length, drop_app_length.
Qed.

(** ** What the decoder accepts *)

(** [rest] is what is left of [buf] after at least one byte. *)
Definition shorter (rest buf : list Z) : Prop := rest `suffix_of` buf /\ (length rest < length buf)%nat.

Definition consumes (dec : list Z -> res (Value * list Z)) : Prop :=
  forall buf v rest, dec buf = Ok (v, rest) -> shorter rest buf.

Lemma shorter_trans a b c : shorter a b -> shorter b c -> shorter a c.
Proof. intros [? ?] [? ?]. split; [by etrans|lia]. Qed.

Lemma shorter_suffix a b c : a `suffix_of` b -> shorter b c -> shorter a c.
Proof. intros Hs [? ?]. split; [by etrans|]. apply suffix_length in Hs. lia. Qed.

Lemma suffix_drop n (l : list Z) : drop n l `suffix_of` l.
Proof. exists (take n l). by rewrite take_drop. Qed.

Lemma shorter_drop n b (l : list Z) : shorter (drop n l) (b :: l).
Proof.
  split; [|cbn; rewrite length_drop; lia]. etrans; [apply suffix_drop|]. by apply suffix_cons_r.
Qed.

Lemma decode_head_shorter buf major n rest :
  decode_head buf = Ok (major, n, rest) -> shorter rest buf.
Proof.
  unfold decode_head. intros E. destruct buf as [|b buf]; [done|].
  repeat case_decide; repeat case_match; simplify_eq; try apply shorter_drop; try apply (shorter_drop 0).
  apply (shorter_drop 1).
Qed.

Lemma decode_head_u64 buf major n rest :
  bytes_ok buf -> decode_head buf = Ok (major, n, rest) -> u64_ok n.
Proof.
  unfold decode_head. intros Hb E. destruct buf as [|b buf]; [done|].
  apply Forall_cons in Hb as [Hb Hbuf]. unfold u64_ok.
  assert (forall k, (length buf <? k)%nat = false -> 0 <= be_val (take k buf) < 256 ^ Z.of_nat k) as Hv.
  { intros k Hk. apply Nat.ltb_ge in Hk. pose proof (be_val_bound (take k buf)) as Hv.
    rewrite length_take_le in Hv by lia. apply Hv. by apply Forall_take. }
  assert (0 <= Z.land b 31) by (apply Z.land_nonneg; lia).
  repeat case_decide; repeat case_match; simplify_eq; try lia;
    try match goal with H : _ = false |- _ => specialize (Hv _ H); cbn in Hv; lia end.
  apply Forall_cons in Hbuf as [Hz _]. unfold u8_ok in Hz. lia.
Qed.

Section Accepted.
Variable dec : list Z -> res (Value * list Z).
Hypothesis Hdec : consumes dec.

(** Each round of a loop takes a byte. *)
Lemma decode_items_len n cur items rest :
  decode_items dec n cur = Ok (items, rest) ->
  rest `suffix_of` cur /\ (n + length rest <= length cur)%nat.
Proof.
  revert cur items rest. induction n as [|n IH]; intros cur items rest E; cbn in E; [by simplify_eq|].
  destruct (dec cur) as [|[v next]] eqn:Ed; [done|]. cbn in E.
  destruct (decode_items dec n next) as [|[items' cur']] eqn:Ei; [done|]. simplify_eq/=.
  apply Hdec in Ed as [Hs Hl]. apply IH in Ei as [Hs' Hl']. split; [by etrans|lia].
Qed.

Lemma int_entries_len n cur es rest :
  int_entries dec n cur = Ok (es, rest) -> rest `suffix_of` cur /\ (n + length rest <= length cur)%nat.
Proof.
  revert cur es rest. induction n as [|n IH]; intros cur es rest E; cbn in E; [by simplify_eq|].
  destruct (decode_head cur) as [|[[m k] next]] eqn:Eh; [done|]. cbn in E. case_decide; [|done].
  destruct (dec next) as [|[v next']] eqn:Ed; [done|]. cbn in E.
  destruct (int_entries dec n next') as [|[es' cur']] eqn:Ei; [done|]. simplify_eq/=.
  apply decode_head_shorter in Eh as [Hs Hl]. apply Hdec in Ed as [Hs' Hl'].
  apply IH in Ei as [Hs'' Hl'']. split; [by repeat (etrans; [done|])|lia].
Qed.

Lemma text_entries_len n cur es rest :
  text_entries dec n cur = Ok (es, rest) -> rest `suffix_of` cur /\ (n + length rest <= length cur)%nat.
Proof.
  revert cur es rest. induction n as [|n IH]; intros cur es rest E; cbn in E; [by simplify_eq|].
  destruct (dec cur) as [|[kv next]] eqn:Eh; [done|]. cbn in E. destruct kv; try done.
  destruct (dec next) as [|[v next']] eqn:Ed; [done|]. cbn in E.
  destruct (text_entries dec n next') as [|[es' cur']] eqn:Ei; [done|]. simplify_eq/=.
  apply Hdec in Eh as [Hs Hl]. apply Hdec in Ed as [Hs' Hl'].
  apply IH in Ei as [Hs'' Hl'']. split; [by repeat (etrans; [done|])|lia].
Qed.

(** More rounds than bytes end in the error they end in without the excess. *)
Lemma decode_items_more m n cur :
  (length cur < m)%nat -> (m <= n)%nat -> decode_items dec n cur = decode_items dec m cur.
Proof.
  revert n cur. induction m as [|m IH]; intros n cur Hm Hn; [lia|]. destruct n as [|n]; [lia|]. cbn.
  destruct (dec cur) as [|[v next]] eqn:Ed; [done|]. cbn. apply Hdec in Ed as [_ Hl].
  by rewrite (IH n) by lia.
Qed.

Lemma int_entries_more m n cur :
  (length cur < m)%nat -> (m <= n)%nat -> int_entries dec n cur = int_entries dec m cur.
Proof.
  revert n cur. induction m as [|m IH]; intros n cur Hm Hn; [lia|]. destruct n as [|n]; [lia|]. cbn.
  destruct (decode_head cur) as [|[[k next] ?]] eqn:Eh; [done|]. cbn.
  apply decode_head_shorter in Eh as [_ Hh]. case_decide; [|done].
  destruct (dec _) as [|[v next']] eqn:Ed; [done|]. cbn. apply Hdec in Ed as [_ Hl].
  by rewrite (IH n) by lia.
Qed.

Lemma text_entries_more m n cur :
  (length cur < m)%nat -> (m <= n)%nat -> text_entries dec n cur = text_entries dec m cur.
Proof.
  revert n cur. induction m as [|m IH]; intros n cur Hm Hn; [lia|]. destruct n as [|n]; [lia|]. cbn.
  destruct (dec cur) as [|[kv next]] eqn:Eh; [done|]. cbn. apply Hdec in Eh as [_ Hh].
  destruct kv; try done. destruct (dec _) as [|[v next']] eqn:Ed; [done|]. cbn.
  apply Hdec in Ed as [_ Hl]. by rewrite (IH n) by lia.
Qed.

(** The bound on the rounds of a loop leaves none out. *)
Lemma decode_items_bound arg buf : decode_items dec (Z.to_nat arg) buf = decode_items dec (rounds arg buf) buf.
Proof.
  unfold rounds, len. destruct (decide (arg <= Z.of_nat (length buf) + 1)).
  - by rewrite Z.min_l.
  - rewrite Z.min_r by lia. apply decode_items_more; lia.
Qed.

Lemma int_entries_bound arg buf : int_entries dec (Z.to_nat arg) buf = int_entries dec (rounds arg buf) buf.
Proof.
  unfold rounds, len. destruct (decide (arg <= Z.of_nat (length buf) + 1)).
  - by rewrite Z.min_l.
  - rewrite Z.min_r by lia. apply int_entries_more; lia.
Qed.

Lemma text_entries_bound arg buf : text_entries dec (Z.to_nat arg) buf = text_entries dec (rounds arg buf) buf.
Proof.
  unfold rounds, len. destruct (decide (arg <= Z.of_nat (length buf) + 1)).
  - by rewrite Z.min_l.
  - rewrite Z.min_r by lia. apply text_entries_more; lia.
Qed.

Lemma decode_map_suffix buf count v rest : decode_map dec buf count = Ok (v, rest) -> rest `suffix_of` buf.
Proof.
  unfold decode_map. case_decide; [by intros [= <- <-]|].
  destruct (decode_head buf) as [|[[m ?] ?]]; [done|]. cbn. repeat case_decide; [| |done].
  - destruct (int_entries dec _ buf) as [|[es cur]] eqn:E; [done|]. cbn.
    destruct (reject_duplicate_keys _ _); [done|]. cbn. intros [= <- <-]. by apply int_entries_len in E as [? _].
  - destruct (text_entries dec _ buf) as [|[es cur]] eqn:E; [done|]. cbn.
    destruct (reject_duplicate_keys _ _); [done|]. cbn. intros [= <- <-]. by apply text_entries_len in E as [? _].
Qed.
End Accepted.

Lemma decode_value_consumes levels : consumes (decode_value levels).
Proof.
  induction levels as [|levels IH]; intros buf v rest E; [done|]. cbn [decode_value] in E.
  destruct (decode_head buf) as [|[[major arg] rest']] eqn:Eh; [done|]. cbn in E.
  apply decode_head_shorter in Eh. repeat case_decide; try done; simplify_eq; try done;
    try (by eapply shorter_suffix; [apply suffix_drop|]).
  - destruct (decode_items _ _ rest') as [|[items cur]] eqn:Ei; [done|]. simplify_eq/=.
    apply decode_items_len in Ei as [Hs _]; [|done]. by eapply shorter_suffix.
  - apply decode_map_suffix in E; [|done]. by eapply shorter_suffix.
Qed.

(** A decoder that gives values for the wire, of at most [lev] levels. *)
Definition types (lev : nat) (dec : list Z -> res (Value * list Z)) : Prop :=
  forall buf v rest, bytes_ok buf -> u64_ok (len buf) -> dec buf = Ok (v, rest) ->
    wire_ok v /\ (depth v <= lev)%nat.

Lemma bytes_ok_suffix rest buf : bytes_ok buf -> rest `suffix_of` buf -> bytes_ok rest.
Proof. intros Hb [k ->]. by apply Forall_app in Hb as [_ ?]. Qed.

Lemma u64_len_le {A B} (a : list A) (b : list B) : u64_ok (len b) -> (length a <= length b)%nat -> u64_ok (len a).
Proof. unfold u64_ok, len. lia. Qed.

Section Types.
Variable lev : nat.
Variable dec : list Z -> res (Value * list Z).
Hypothesis Hdec : consumes dec.
Hypothesis Htypes : types lev dec.

Lemma decode_items_types n cur items rest :
  bytes_ok cur -> u64_ok (len cur) -> decode_items dec n cur = Ok (items, rest) ->
  length items = n /\ Forall wire_ok items /\ Forall (fun v => depth v <= lev)%nat items.
Proof.
  revert cur items rest. induction n as [|n IH]; intros cur items rest Hb Hl E; cbn in E.
  { by simplify_eq. }
  destruct (dec cur) as [|[v next]] eqn:Ed; [done|]. cbn in E.
  destruct (decode_items dec n next) as [|[items' cur']] eqn:Ei; [done|]. simplify_eq/=.
  pose proof (Htypes _ _ _ Hb Hl Ed) as [Hw Hv]. apply Hdec in Ed as [Hs Hlt].
  apply IH in Ei as (-> & ? & ?); [auto using Forall_cons_2|by eapply bytes_ok_suffix|].
  eapply u64_len_le; [done|lia].
Qed.

Lemma int_entries_types n cur es rest :
  bytes_ok cur -> u64_ok (len cur) -> int_entries dec n cur = Ok (es, rest) ->
  length es = n /\ Forall (fun kv => u64_ok kv.1 /\ wire_ok kv.2) es
  /\ Forall (fun kv => depth kv.2 <= lev)%nat es.
Proof.
  revert cur es rest. induction n as [|n IH]; intros cur es rest Hb Hl E; cbn in E.
  { by simplify_eq. }
  destruct (decode_head cur) as [|[[m k] next]] eqn:Eh; [done|]. cbn in E. case_decide; [|done].
  destruct (dec next) as [|[v next']] eqn:Ed; [done|]. cbn in E.
  destruct (int_entries dec n next') as [|[es' cur']] eqn:Ei; [done|]. simplify_eq/=.
  pose proof (decode_head_u64 _ _ _ _ Hb Eh) as Hk. apply decode_head_shorter in Eh as [Hs Hlt].
  assert (bytes_ok next) as Hb1 by (by eapply bytes_ok_suffix).
  assert (u64_ok (len next)) as Hl1 by (eapply u64_len_le; [done|lia]).
  pose proof (Htypes _ _ _ Hb1 Hl1 Ed) as [Hw Hv]. apply Hdec in Ed as [Hs' Hlt'].
  apply IH in Ei as (-> & ? & ?); [auto using Forall_cons_2|by eapply bytes_ok_suffix|].
  eapply u64_len_le; [done|lia].
Qed.

Lemma text_entries_types n cur es rest :
  bytes_ok cur -> u64_ok (len cur) -> text_entries dec n cur = Ok (es, rest) ->
  length es = n /\ Forall (fun kv => u64_ok (len kv.1) /\ wire_ok kv.2) es
  /\ Forall (fun kv => depth kv.2 <= lev)%nat es /\ (n <> 0 -> 1 <= lev)%nat.
Proof.
  revert cur es rest. induction n as [|n IH]; intros cur es rest Hb Hl E; cbn in E.
  { by simplify_eq. }
  destruct (dec cur) as [|[kv next]] eqn:Eh; [done|]. cbn in E. destruct kv as [| | |k| | |]; try done.
  destruct (dec next) as [|[v next']] eqn:Ed; [done|]. cbn in E.
  destruct (text_entries dec n next') as [|[es' cur']] eqn:Ei; [done|]. simplify_eq/=.
  pose proof (Htypes _ _ _ Hb Hl Eh) as [Hk Hlev]. apply Hdec in Eh as [Hs Hlt].
  assert (bytes_ok next) as Hb1 by (by eapply bytes_ok_suffix).
  assert (u64_ok (len next)) as Hl1 by (eapply u64_len_le; [done|lia]).
  pose proof (Htypes _ _ _ Hb1 Hl1 Ed) as [Hw Hv]. apply Hdec in Ed as [Hs' Hlt'].
  inversion Hk; subst.
  apply IH in Ei as (-> & ? & ? & ?); [auto using Forall_cons_2|by eapply bytes_ok_suffix|].
  eapply u64_len_le; [exact Hl1|lia].
Qed.

Lemma max_list_le_Forall {A} (f : A -> nat) l n :
  Forall (fun a => f a <= n)%nat l -> (max_list (f <$> l) <= n)%nat.
Proof. induction 1; cbn; lia. Qed.

Lemma decode_map_types buf count v rest :
  bytes_ok buf -> u64_ok (len buf) -> 0 <= count -> decode_map dec buf count = Ok (v, rest) ->
  wire_ok v /\ (depth v <= S lev)%nat.
Proof.
  intros Hb Hl Hc. unfold decode_map. case_decide as H0.
  { intros [= <- <-]. split; [|cbn; lia]. constructor; [done|constructor|constructor]. }
  destruct (decode_head buf) as [|[[m ?] ?]] eqn:Eh; [done|]. cbn.
  apply decode_head_shorter in Eh as [_ Hlt]. repeat case_decide; [| |done].
  - destruct (int_entries dec _ buf) as [|[es cur]] eqn:E; [done|]. cbn.
    destruct (reject_duplicate_keys _ _) as [|[]] eqn:Er; [done|]. cbn. intros [= <- <-].
    apply (reject_duplicates_iff _ Zleb_total Zleb_trans Zleb_antisym) in Er.
    pose proof (int_entries_len _ Hdec _ _ _ _ E) as [_ Hn].
    apply int_entries_types in E as (Hes & Hf & Hd); [|done..]. split.
    + constructor; [|done|done]. eapply u64_len_le; [exact Hl|lia].
    + cbn. by apply le_n_S, max_list_le_Forall.
  - destruct (text_entries dec _ buf) as [|[es cur]] eqn:E; [done|]. cbn.
    destruct (reject_duplicate_keys _ _) as [|[]] eqn:Er; [done|]. cbn. intros [= <- <-].
    apply (reject_duplicates_iff _ lex_le_total lex_le_trans lex_le_antisym) in Er.
    pose proof (text_entries_len _ Hdec _ _ _ _ E) as [_ Hn].
    apply text_entries_types in E as (Hes & Hf & Hd & Hlv); [|done..].
    assert (rounds count buf <> 0%nat) as Hr by (unfold rounds, len; lia). split.
    + constructor; [|by intros ->|done|done]. eapply u64_len_le; [exact Hl|lia].
    + cbn. apply max_list_le_Forall in Hd. specialize (Hlv Hr). lia.
Qed.
End Types.

Lemma decode_value_types levels : types levels (decode_value levels).
Proof.
  induction levels as [|levels IH]; intros buf v rest Hb Hl E; [done|]. cbn [decode_value] in E.
  destruct (decode_head buf) as [|[[major arg] rest']] eqn:Eh; [done|]. cbn in E.
  pose proof (decode_head_u64 _ _ _ _ Hb Eh) as Ha. apply decode_head_shorter in Eh as [Hs Hlt].
  assert (bytes_ok rest') as Hb1 by (by eapply bytes_ok_suffix).
  assert (u64_ok (len rest')) as Hl1 by (eapply u64_len_le; [done|lia]).
  assert (forall n, u64_ok (len (take n rest'))) as Ht.
  { intros n. eapply u64_len_le; [exact Hl1|]. rewrite length_take. lia. }
  repeat case_decide; try done; simplify_eq; try (split; [by constructor|cbn; lia]).
  - destruct (decode_items _ _ rest') as [|[items cur]] eqn:Ei; [done|]. simplify_eq/=.
    pose proof (decode_items_len _ (decode_value_consumes levels) _ _ _ _ Ei) as [_ Hn].
    eapply decode_items_types in Ei as (Hit & Hf & Hd); [|apply decode_value_consumes|done..]. split.
    + constructor; [|done]. eapply u64_len_le; [exact Hl1|lia].
    + cbn. by apply le_n_S, max_list_le_Forall.
  - exact (decode_map_types levels _ (decode_value_consumes levels) IH _ _ _ _ Hb1 Hl1 (proj1 Ha) E).
Qed.

Lemma cbor_decode_ok buf v rest :
  bytes_ok buf -> u64_ok (len buf) -> decode_top buf = Ok (v, rest) -> wire_ok v.
Proof. intros Hb Hl E. by destruct (decode_value_types _ _ _ _ Hb Hl E). Qed.

(** ** Theorems *)

(** A value for the wire that is nested no deeper than the decoder allows
    reads back as its canonical form, with whatever follows it left alone, and
    the canonical form has the same bytes: the encoder and the decoder are
    inverse up to the order of map entries. *)
Theorem cbor_roundtrip (v : Value) (rest : list Z) :
  wire_ok v -> (depth v <= S MAX_SIG_NESTING_DEPTH)%nat ->
  decode_top (encode v ++ rest) = Ok (canon v, rest) /\ encode (canon v) = encode v.
Proof. intros Hw Hd. split; [by apply decode_encode|apply encode_canon]. Qed.

(** C22: The encoding is canonical: two values for the wire have the same bytes
    exactly when they differ only in the order of map entries, at any depth, and
    so a digest of the bytes signs the content and not the order a map was built
    in; listing the entries of a map in another order never changes the bytes. *)
Theorem cbor_canonical (v w : Value) (es es' : list (Z * Value)) (ts ts' : list (list Z * Value)) :
  wire_ok v -> wire_ok w -> NoDup es.*1 -> es ≡ₚ es' -> NoDup ts.*1 -> ts ≡ₚ ts' ->
  (encode v = encode w <-> canon v = canon w)
  /\ encode (IntMap es) = encode (IntMap es') /\ encode (TextMap ts) = encode (TextMap ts').
Proof.
  intros Hv Hw Hes Pes Hts Pts. split; [split|split].
  - intros E. pose proof (decode_encode v (max (depth v) (depth w)) [] Hv ltac:(lia)) as Dv.
    rewrite E, decode_encode in Dv by (done || lia). congruence.
  - intros E. by rewrite <- encode_canon, E, encode_canon.
  - rewrite !encode_int_map. unfold len. rewrite (Permutation_length Pes).
    by rewrite (sort_unique Z.leb Zleb_total Zleb_trans Zleb_antisym es es').
  - rewrite !encode_text_map. unfold len. rewrite (Permutation_length Pts).
    by rewrite (sort_unique text_le text_le_total text_le_trans text_le_antisym ts ts').
Qed.

(** C33: Whatever bytes the decoder accepts, it has taken at least one of them
    and left a suffix, the value has machine integers, distinct keys in all its
    maps and at most 17 levels, and encoding it again and decoding that gives its
    canonical form: bytes in another order or with long heads decode to a value
    with one canonical encoding. *)
Theorem cbor_decode_sound (buf : list Z) (v : Value) (rest : list Z) :
  bytes_ok buf -> u64_ok (len buf) -> decode_top buf = Ok (v, rest) ->
  (exists used, used <> [] /\ buf = used ++ rest)
  /\ wire_ok v /\ (depth v <= 17)%nat /\ decode_top (encode v) = Ok (canon v, []).
Proof.
  intros Hb Hl E. destruct (decode_value_types _ _ _ _ Hb Hl E) as [Hw Hd].
  apply decode_value_consumes in E as [[used Hu] Hlt].
  split; [|split_and!; [done|exact Hd|]].
  - exists used. split; [|done]. intros ->. subst. cbn in Hlt. lia.
  - rewrite <- (app_nil_r (encode v)). by apply decode_encode.
Qed.

(** The rounds of every loop of the decoder are those of the source. *)
Theorem decode_loops_terminate (levels : nat) (arg : Z) (buf : list Z) :
  let dec := decode_value levels in
  decode_items dec (Z.to_nat arg) buf = decode_items dec (rounds arg buf) buf
  /\ int_entries dec (Z.to_nat arg) buf = int_entries dec (rounds arg buf) buf
  /\ text_entries dec (Z.to_nat arg) buf = text_entries dec (rounds arg buf) buf.
Proof.
  pose proof (decode_value_consumes levels) as Hc.
  split_and!; by (apply decode_items_bound || apply int_entries_bound || apply text_entries_bound).
Qed.

(** *** Witnesses *)

(** A map out of order, its text map too. *)
Definition demo_value : Value :=
  IntMap [(7, TextMap [([98; 98], Text [1]); ([97], Null)]); (1, Array [Uint 500; Bytes [2; 3]])].

Lemma demo_wire_ok : wire_ok demo_value.
Proof.
  unfold demo_value. repeat (constructor; cbn; try done); try (unfold u64_ok, len; cbn; lia);
    cbn; rewrite ?elem_of_cons, ?elem_of_nil; try naive_solver lia.
Qed.

Lemma cbor_roundtrip_witness :
  decode_top (encode demo_value ++ [9]) = Ok (canon demo_value, [9])
  /\ encode (canon demo_value) = encode demo_value.
Proof. apply (cbor_roundtrip demo_value [9]); [apply demo_wire_ok|by apply Nat.leb_le]. Defined.

Lemma cbor_canonical_witness :
  (encode demo_value = encode (canon demo_value) <-> canon demo_value = canon (canon demo_value))
  /\ encode (IntMap [(2, Null); (1, Uint 3)]) = encode (IntMap [(1, Uint 3); (2, Null)])
  /\ encode (TextMap [([2], Null); ([1], Null)]) = encode (TextMap [([1], Null); ([2], Null)]).
Proof.
  apply cbor_canonical; [apply demo_wire_ok| | |apply Permutation_swap| |apply Permutation_swap].
  - apply (cbor_decode_ok (encode demo_value) _ []); [apply bytes_ok_eval; reflexivity| |reflexivity].
    by split; vm_compute.
  - apply NoDup_ListNoDup. repeat constructor; cbn; lia.
  - repeat constructor; set_solver.
Defined.

Lemma cbor_decode_sound_witness :
  (exists used, used <> [] /\ encode demo_value = used ++ [])
  /\ wire_ok (canon demo_value) /\ (depth (canon demo_value) <= 17)%nat
  /\ decode_top (encode (canon demo_value)) = Ok (canon (canon demo_value), []).
Proof.
  apply (cbor_decode_sound (encode demo_value) _ []); [apply bytes_ok_eval; reflexivity| |reflexivity].
  by split; vm_compute.
Defined.
