(* ===== verification/Base32.v ===== *)
(** * Base32: the text form of AUM hashes (src/ts_tka/src/lib.rs)

    [base32_encode_nopad] and [base32_decode_nopad]: RFC 4648 base32 without
    padding, over a 32-bit buffer whose shifts drop the bits that leave it.
    Strings are lists of character codes. *)

From stdpp Require Import list strings.
From S2P Require Import Prelude Bytes.

Local Open Scope Z_scope.

(** [b"ABCDEFGHIJKLMNOPQRSTUVWXYZ234567"] *)
Definition BASE32_ALPHABET : list Z := seqZ 65 26 ++ seqZ 50 6.

(** [u32 << k] *)
Definition shl32 (x k : Z) : Z := Z.shiftl x k mod 2 ^ 32.

(** The index is the low five bits of something, so within the alphabet. *)
Definition base32_char (x : Z) : Z := BASE32_ALPHABET !!! Z.to_nat (Z.land x 0x1f).

(** The [while bits >= 5] loop. *)
Fixpoint drain (buffer : Z) (bits : nat) (out : list Z) : nat * list Z :=
  match bits with
  | S (S (S (S (S bits)))) => drain buffer bits (out ++ [base32_char (Z.shiftr buffer (Z.of_nat bits))])
  | _ => (bits, out)
  end.

Fixpoint encode_loop (data : list Z) (buffer : Z) (bits : nat) (out : list Z) : Z * nat * list Z :=
  match data with
  | [] => (buffer, bits, out)
  | b :: data =>
      let buffer := Z.lor (shl32 buffer 8) b in
      let '(bits, out) := drain buffer (bits + 8) out in
      encode_loop data buffer bits out
  end.

Definition base32_encode_nopad (data : list Z) : list Z :=
  let '(buffer, bits, out) := encode_loop data 0 0 [] in
  if (0 <? bits)%nat then out ++ [base32_char (shl32 buffer (Z.of_nat (5 - bits)))] else out.

(** A character's value. *)
Definition base32_val (c : Z) : option Z :=
  if decide (65 <= c <= 90) then Some (c - 65)
  else if decide (50 <= c <= 55) then Some (c - 50 + 26)
  else None.

Fixpoint decode_loop (text : list Z) (buffer : Z) (bits : nat) (out : list Z) : option (list Z) :=
  match text with
  | [] => Some out
  | c :: text =>
      v ← base32_val c;
      let buffer := Z.lor (shl32 buffer 5) v in
      let bits := (bits + 5)%nat in
      if (8 <=? bits)%nat then
        decode_loop text buffer (bits - 8) (out ++ [Z.shiftr buffer (Z.of_nat (bits - 8)) mod 256])
      else decode_loop text buffer bits out
  end.

Definition base32_decode_nopad (text : list Z) : option (list Z) := decode_loop text 0 0 [].

(** ** Big-endian numbers in another base *)

Definition value (base : Z) (ds : list Z) : Z := foldl (fun n d => n * base + d) 0 ds.

Definition digits (base : Z) (ds : list Z) : Prop := Forall (fun d => 0 <= d < base) ds.

Lemma value_snoc base ds d : value base (ds ++ [d]) = value base ds * base + d.
Proof. unfold value. by rewrite foldl_snoc. Qed.

Lemma value_nonneg base ds : 0 <= base -> digits base ds -> 0 <= value base ds.
Proof.
  intros Hb. induction ds as [|d ds IH] using rev_ind; intros Hd; [done|].
  apply Forall_app in Hd as [Hds Hd]. rewrite value_snoc. inversion Hd; subst. specialize (IH Hds). nia.
Qed.

Lemma value_inj base ds ds' :
  length ds = length ds' -> digits base ds -> digits base ds' -> value base ds = value base ds' -> ds = ds'.
Proof.
  revert ds'. induction ds as [|d ds IH] using rev_ind; intros ds' El Hd Hd' E.
  { by destruct ds'. }
  destruct ds' as [|d' ds' _] using rev_ind.
  { rewrite length_app in El. cbn in El. lia. }
  rewrite !length_app in El. cbn in El. apply Forall_app in Hd as [Hds Hd], Hd' as [Hds' Hd'].
  inversion Hd; inversion Hd'; subst. rewrite !value_snoc in E.
  destruct (Z.div_mod_unique base (value base ds) (value base ds') d d') as [E1 ->]; [lia..|].
  f_equal. apply IH; auto; lia.
Qed.

(** ** Bits *)

Lemma shift_in V k d :
  0 <= k <= 32 -> 0 <= d < 2 ^ k -> Z.lor (shl32 (V mod 2 ^ 32) k) d = (V * 2 ^ k + d) mod 2 ^ 32.
Proof.
  intros Hk Hd. rewrite <- lor_shiftl_low by lia. unfold shl32. apply Z.bits_inj'. intros n Hn.
  destruct (decide (n < 32)).
  - rewrite Z.lor_spec, !Z.mod_pow2_bits_low, Z.lor_spec, !Z.shiftl_spec by lia.
    destruct (decide (n < k)); [by rewrite !(Z.testbit_neg_r _ (n - k)) by lia|].
    by rewrite Z.mod_pow2_bits_low by lia.
  - rewrite Z.lor_spec, !Z.mod_pow2_bits_high by lia. cbn.
    rewrite <- (Z.mod_small d (2 ^ k)), Z.mod_pow2_bits_high by lia. done.
Qed.

Lemma shift_out V s j :
  0 <= s -> 0 <= j -> s + j <= 32 -> Z.shiftr (V mod 2 ^ 32) s mod 2 ^ j = Z.shiftr V s mod 2 ^ j.
Proof.
  intros Hs Hj Hsj. apply Z.bits_inj'. intros n Hn. destruct (decide (n < j)).
  - rewrite !Z.mod_pow2_bits_low, !Z.shiftr_spec, Z.mod_pow2_bits_low by lia. done.
  - by rewrite !Z.mod_pow2_bits_high by lia.
Qed.

(** Peeling [j] bits off the front of what is left. *)
Lemma peel V s j : 0 <= s -> 0 <= j -> V / 2 ^ (s + j) * 2 ^ j + Z.shiftr V s mod 2 ^ j = V / 2 ^ s.
Proof.
  intros Hs Hj. pose proof (Z.pow_pos_nonneg 2 s). pose proof (Z.pow_pos_nonneg 2 j).
  rewrite Z.shiftr_div_pow2, Z.pow_add_r, <- Z.div_div by lia.
  rewrite (Z.mul_comm (_ / _)). symmetry. apply Z.div_mod. lia.
Qed.

Lemma div_shift_in V k d s : 0 <= s -> 0 <= k -> 0 <= d < 2 ^ k -> (V * 2 ^ k + d) / 2 ^ (s + k) = V / 2 ^ s.
Proof.
  intros Hs Hk Hd. pose proof (Z.pow_pos_nonneg 2 s). pose proof (Z.pow_pos_nonneg 2 k).
  rewrite (Z.add_comm s k), Z.pow_add_r, <- Z.div_div by lia.
  by rewrite Z.div_add_l, (Z.div_small d), Z.add_0_r by lia.
Qed.

(** ** Characters *)

Definition alph (d : Z) : Z := BASE32_ALPHABET !!! Z.to_nat d.

Lemma base32_val_alph d : 0 <= d < 32 -> base32_val (alph d) = Some d.
Proof.
  intros Hd. unfold alph. rewrite <- (Z2Nat.id d) at 2 by lia.
  assert (Z.to_nat d < 32)%nat as Hn by lia. revert Hn. generalize (Z.to_nat d). intros n Hn.
  do 32 (destruct n as [|n]; [reflexivity|]). lia.
Qed.

Lemma base32_char_alph x : base32_char x = alph (x mod 2 ^ 5).
Proof. unfold base32_char, alph. change 0x1f with (Z.ones 5). by rewrite Z.land_ones by lia. Qed.

(** ** The encoder writes a number in base 32 *)

Lemma drain_spec N bits ds :
  (bits <= 12)%nat -> digits 32 ds -> value 32 ds = N / 2 ^ Z.of_nat bits ->
  exists bits' ds', drain (N mod 2 ^ 32) bits (alph <$> ds) = (bits', alph <$> ds')
    /\ (bits' < 5)%nat /\ (5 * length ds' + bits' = 5 * length ds + bits)%nat
    /\ digits 32 ds' /\ value 32 ds' = N / 2 ^ Z.of_nat bits'.
Proof.
  revert ds. induction (lt_wf bits) as [bits _ IH]. intros ds Hb Hd Hv.
  destruct (decide (bits < 5)%nat) as [Hlt|Hge].
  { exists bits, ds. split; [|done]. do 5 (destruct bits as [|bits]; [done|]). lia. }
  do 5 (destruct bits as [|bits]; [lia|]). cbn [drain].
  set (x := Z.shiftr N (Z.of_nat bits) mod 2 ^ 5).
  assert (alph <$> ds ++ [x] = (alph <$> ds) ++ [base32_char (Z.shiftr (N mod 2 ^ 32) (Z.of_nat bits))]) as Ex.
  { rewrite fmap_app, base32_char_alph, shift_out by lia. done. }
  rewrite <- Ex. destruct (IH bits ltac:(lia) (ds ++ [x])) as (b' & ds' & E & Hb' & Hl & Hd' & Hv').
  - lia.
  - apply Forall_app. split; [done|]. constructor; [|done]. apply Z.mod_pos_bound. lia.
  - rewrite value_snoc, Hv. unfold x.
    replace (Z.of_nat (S (S (S (S (S bits)))))) with (Z.of_nat bits + 5) by lia. apply peel; lia.
  - exists b', ds'. rewrite length_app in Hl. cbn in Hl. split_and!; [done|done|lia|done|done].
Qed.

Lemma encode_loop_spec data N bits ds :
  bytes_ok data -> (bits < 5)%nat -> digits 32 ds -> value 32 ds = N / 2 ^ Z.of_nat bits ->
  exists N' bits' ds',
    encode_loop data (N mod 2 ^ 32) bits (alph <$> ds) = (N' mod 2 ^ 32, bits', alph <$> ds')
    /\ N' = foldl (fun n d => n * 256 + d) N data
    /\ (bits' < 5)%nat /\ (5 * length ds' + bits' = 5 * length ds + bits + 8 * length data)%nat
    /\ digits 32 ds' /\ value 32 ds' = N' / 2 ^ Z.of_nat bits'.
Proof.
  intros Hb. revert N bits ds. induction Hb as [|b data Hb _ IH]; intros N bits ds Hlt Hd Hv.
  { exists N, bits, ds. cbn. split_and!; try done; lia. }
  cbn [encode_loop foldl]. unfold u8_ok in Hb. rewrite shift_in by lia. change (2 ^ 8) with 256.
  destruct (drain_spec (N * 256 + b) (bits + 8) ds) as (b1 & ds1 & -> & Hb1 & Hl1 & Hd1 & Hv1); [lia|done| |].
  { rewrite Hv, Nat2Z.inj_add. symmetry. apply (div_shift_in N 8); lia. }
  destruct (IH _ _ _ Hb1 Hd1 Hv1) as (N' & b' & ds' & -> & -> & Hb' & Hl' & Hd' & Hv').
  eexists _, b', ds'. split_and!; try done. cbn. lia.
Qed.

Lemma base32_encode_spec data :
  bytes_ok data ->
  exists ds pad, base32_encode_nopad data = alph <$> ds /\ digits 32 ds /\ (pad < 5)%nat
    /\ (5 * length ds = 8 * length data + pad)%nat /\ value 32 ds = value 256 data * 2 ^ Z.of_nat pad.
Proof.
  intros Hb. unfold base32_encode_nopad.
  destruct (encode_loop_spec data 0 0 [] Hb) as (N & bits & ds & E & -> & Hlt & Hl & Hd & Hv);
    [lia|constructor|done|].
  change (alph <$> []) with (@nil Z) in E. rewrite Zmod_0_l in E. rewrite E. clear E.
  change (foldl _ 0 data) with (value 256 data) in *. cbn in Hl. destruct (0 <? bits)%nat eqn:E0.
  - apply Nat.ltb_lt in E0. set (x := (value 256 data * 2 ^ Z.of_nat (5 - bits)) mod 2 ^ 5).
    exists (ds ++ [x]), (5 - bits)%nat. split_and!; [| |lia|rewrite length_app; cbn; lia|].
    + rewrite fmap_app, base32_char_alph. f_equal. cbn. do 2 f_equal. unfold x, shl32.
      rewrite Z.shiftl_mul_pow2 by lia. rewrite Z.mod_mod_divide by (exists (2 ^ 27); lia).
      rewrite Z.mul_mod, Z.mod_mod_divide, <- Z.mul_mod by (done || exists (2 ^ 27); lia). done.
    + apply Forall_app. split; [done|]. constructor; [|done]. apply Z.mod_pos_bound. lia.
    + rewrite value_snoc, Hv. unfold x.
      rewrite <- (div_shift_in _ (Z.of_nat (5 - bits)) 0), Z.add_0_r by lia.
      replace (Z.of_nat bits + Z.of_nat (5 - bits)) with 5 by lia. change (2 ^ 5) with 32.
      rewrite Z.mul_comm. symmetry. by apply Z.div_mod.
  - apply Nat.ltb_ge in E0. exists ds, 0%nat. assert (bits = 0%nat) as -> by lia.
    split_and!; [done|done|lia|lia|]. rewrite Hv. cbn. rewrite Z.div_1_r. lia.
Qed.

(** ** The decoder reads it in base 256 *)

Lemma decode_loop_spec ds V bits out :
  digits 32 ds -> bytes_ok out -> (bits < 8)%nat -> value 256 out = V / 2 ^ Z.of_nat bits ->
  exists out' bits', decode_loop (alph <$> ds) (V mod 2 ^ 32) bits out = Some out'
    /\ (bits' < 8)%nat /\ (8 * length out' + bits' = 8 * length out + bits + 5 * length ds)%nat
    /\ bytes_ok out'
    /\ value 256 out' = foldl (fun n d => n * 32 + d) V ds / 2 ^ Z.of_nat bits'.
Proof.
  intros Hd. revert V bits out. induction Hd as [|d ds Hd _ IH]; intros V bits out Ho Hb Hv.
  { exists out, bits. cbn. split_and!; try done; lia. }
  cbn [fmap list_fmap decode_loop foldl]. rewrite base32_val_alph by done. cbn [mbind option_bind].
  rewrite shift_in by lia. change (2 ^ 5) with 32.
  assert (value 256 out = (V * 32 + d) / 2 ^ Z.of_nat (bits + 5)) as Hv'.
  { rewrite Hv, Nat2Z.inj_add. symmetry. apply (div_shift_in V 5); lia. }
  destruct (8 <=? bits + 5)%nat eqn:E8.
  - apply Nat.leb_le in E8. set (s := (bits + 5 - 8)%nat).
    change 256 with (2 ^ 8) at 1. rewrite (shift_out (V * 32 + d) (Z.of_nat s) 8) by lia.
    destruct (IH (V * 32 + d) s (out ++ [Z.shiftr (V * 32 + d) (Z.of_nat s) mod 2 ^ 8]))
      as (out' & bits' & -> & Hb' & Hl & Ho' & Hv'').
    + apply bytes_ok_app. split; [done|]. constructor; [|done]. apply u8_mod.
    + lia.
    + rewrite value_snoc, Hv'. replace (Z.of_nat (bits + 5)) with (Z.of_nat s + 8) by lia. apply peel; lia.
    + exists out', bits'. rewrite length_app in Hl. cbn in Hl |- *. split_and!; try done. lia.
  - apply Nat.leb_gt in E8.
    destruct (IH (V * 32 + d) (bits + 5)%nat out Ho ltac:(lia) Hv') as (out' & bits' & -> & ? & ? & ? & ?).
    exists out', bits'. cbn. split_and!; try done. lia.
Qed.

Lemma base32_decode_encode data : bytes_ok data -> base32_decode_nopad (base32_encode_nopad data) = Some data.
Proof.
  intros Hb. destruct (base32_encode_spec data Hb) as (ds & pad & -> & Hd & Hp & Hl & Hv).
  unfold base32_decode_nopad.
  destruct (decode_loop_spec ds 0 0 [] Hd) as (out & bits & E & Hbits & Hlo & Ho & Hvo);
    [constructor|lia|done|].
  rewrite Zmod_0_l in E. rewrite E. f_equal. cbn in Hlo. symmetry.
  assert (length data = length out) as El by lia. assert (bits = pad) as -> by lia.
  apply (value_inj 256); [done|done|done|]. rewrite Hvo.
  change (foldl _ 0 ds) with (value 32 ds). rewrite Hv. by rewrite Z.div_mul by lia.
Qed.

(** A hash has one text form. *)
Lemma base32_encode_inj a b :
  bytes_ok a -> bytes_ok b -> base32_encode_nopad a = base32_encode_nopad b -> a = b.
Proof. intros Ha Hb E. apply (f_equal base32_decode_nopad) in E. rewrite !base32_decode_encode in E by done. congruence. Qed.
