(* ===== verification/TkaWire.v ===== *)
(** * TkaWire: Tailnet Lock's records and their CBOR form (src/ts_tka/src/lib.rs)

    The data of tailnet lock: authority update messages (AUMs), the keys and
    checkpoint states they carry, and node-key signatures, each with the CBOR
    value it is serialised as and the decoder that reads it back.  Strings are
    their UTF-8 bytes, hashes and keys are byte lists. *)

From stdpp Require Import list sorting strings.
From S2P Require Import Prelude Bytes Cbor Base32.

Local Open Scope Z_scope.

(** ** The primitives of other crates *)

(** [blake2], [ed25519_dalek] (RFC 8032 signatures) and [ed25519_zebra] (ZIP-215
    verification). *)
Class TkaCrypto := {
  SigningKey : Type;
  (** [Blake2s256] *)
  blake2s : list Z -> list Z;
  (** [signing_key.verifying_key().to_bytes()] *)
  ed_public : SigningKey -> list Z;
  (** [signing_key.sign(msg).to_bytes()] *)
  ed_sign : SigningKey -> list Z -> list Z;
  (** [ed25519_dalek::VerifyingKey::from_bytes] succeeds *)
  std_key_ok : list Z -> bool;
  (** [vk.verify(msg, sig)] with the key, the message and the signature *)
  std_verify : list Z -> list Z -> list Z -> bool;
  (** [ed25519_zebra::VerificationKey::try_from] succeeds *)
  zip_key_ok : list Z -> bool;
  zip_verify : list Z -> list Z -> list Z -> bool;
}.

(** What the crates document of them: sizes, and that a signature verifies under
    the key of its signer, by RFC 8032 and so by the laxer ZIP-215. *)
Class TkaCryptoLaws `{TkaCrypto} : Prop := {
  blake2s_len : forall data, length (blake2s data) = 32%nat;
  blake2s_bytes : forall data, bytes_ok (blake2s data);
  ed_public_len : forall sk, length (ed_public sk) = 32%nat;
  ed_public_bytes : forall sk, bytes_ok (ed_public sk);
  ed_sign_len : forall sk msg, length (ed_sign sk msg) = 64%nat;
  ed_sign_bytes : forall sk msg, bytes_ok (ed_sign sk msg);
  ed_sign_std : forall sk msg,
    std_key_ok (ed_public sk) = true /\ std_verify (ed_public sk) msg (ed_sign sk msg) = true;
  ed_sign_zip : forall sk msg,
    zip_key_ok (ed_public sk) = true /\ zip_verify (ed_public sk) msg (ed_sign sk msg) = true;
}.

(** ** Data *)

Definition AUM_HASH_LEN : nat := 32.

Definition AumHash : Type := list Z.

#[export] Instance AumHash_eq_dec : EqDecision AumHash := list_eq_dec.

Inductive AumKind := AumInvalid | AddKey | RemoveKey | NoOp | UpdateKey | Checkpoint.

#[export] Instance AumKind_eq_dec : EqDecision AumKind.
Proof. solve_decision. Defined.

Inductive KeyKind := Ed25519.

#[export] Instance KeyKind_eq_dec : EqDecision KeyKind.
Proof. solve_decision. Defined.

Inductive SigKind := SigInvalid | Direct | Rotation | Credential.

#[export] Instance SigKind_eq_dec : EqDecision SigKind.
Proof. solve_decision. Defined.

(** [Vec<(String, String)>] *)
Definition Meta : Type := list (list Z * list Z).

Record AumKey := mkAumKey {
  ak_kind : KeyKind;
  ak_votes : Z;
  ak_public : list Z;
  ak_meta : Meta;
}.

Record AumState := mkAumState {
  as_last_aum_hash : option AumHash;
  as_disablement_values : option (list (list Z));
  as_keys : option (list AumKey);
  as_state_id1 : Z;
  as_state_id2 : Z;
}.

Record AumSignature := mkAumSignature {
  sg_key_id : list Z;
  sg_signature : list Z;
}.

Record Aum := mkAum {
  message_kind : AumKind;
  prev_aum_hash : option AumHash;
  aum_key : option AumKey;
  aum_key_id : list Z;
  aum_state : option AumState;
  aum_votes : option Z;
  aum_meta : Meta;
  aum_signatures : list AumSignature;
}.

Inductive NodeKeySignature := mkNks {
  sig_kind : SigKind;
  nks_pubkey : list Z;
  nks_key_id : list Z;
  nks_signature : list Z;
  nested : option NodeKeySignature;
  wrapping_pubkey : list Z;
}.

(** [message_kind as u8], [sig_kind as u8] *)
Definition aum_kind_u8 (k : AumKind) : Z :=
  match k with
  | AumInvalid => 0 | AddKey => 1 | RemoveKey => 2 | NoOp => 3 | UpdateKey => 4 | Checkpoint => 5
  end.

Definition aum_kind_from_u8 (n : Z) : option AumKind :=
  match n with
  | 0 => Some AumInvalid | 1 => Some AddKey | 2 => Some RemoveKey | 3 => Some NoOp
  | 4 => Some UpdateKey | 5 => Some Checkpoint | _ => None
  end.

Definition aum_kind_as_str (k : AumKind) : string :=
  match k with
  | AddKey => "add-key"
  | RemoveKey => "remove-key"
  | UpdateKey => "update-key"
  | Checkpoint => "checkpoint"
  | NoOp => "no-op"
  | AumInvalid => "invalid"
  end.

Definition sig_kind_u8 (k : SigKind) : Z :=
  match k with SigInvalid => 0 | Direct => 1 | Rotation => 2 | Credential => 3 end.

Definition sig_kind_from_u8 (n : Z) : option SigKind :=
  match n with
  | 0 => Some SigInvalid | 1 => Some Direct | 2 => Some Rotation | 3 => Some Credential | _ => None
  end.

(** [AumHash::from_base32], [AumHash::to_base32] *)
Definition from_base32 (text : list Z) : option AumHash :=
  decoded ← base32_decode_nopad text;
  if (length decoded =? AUM_HASH_LEN)%nat then Some decoded else None.

Definition to_base32 (h : AumHash) : list Z := base32_encode_nopad h.

(** ** Encoding *)

Definition nonempty_bytes (b : list Z) : option Value :=
  match b with [] => None | _ => Some (Bytes b) end.

Definition bytes_or_null (b : list Z) : Value :=
  match b with [] => Null | _ => Bytes b end.

Definition hash_or_null (h : option AumHash) : Value :=
  match h with Some h => Bytes h | None => Null end.

Definition meta_to_cbor (meta : Meta) : option Value :=
  match meta with
  | [] => None
  | _ => Some (TextMap ((fun kv => (kv.1, Text kv.2)) <$> meta))
  end.

Definition kind_u8 (k : AumKey) : Z := match ak_kind k with Ed25519 => 1 end.

Definition key_to_cbor (k : AumKey) : Value :=
  int_map [(1, Some (Uint (kind_u8 k)));
           (2, Some (Uint (ak_votes k)));
           (3, Some (Bytes (ak_public k)));
           (12, meta_to_cbor (ak_meta k))].

(** [(n != 0).then_some(Value::Uint(n))] *)
Definition nonzero_uint (n : Z) : option Value := if decide (n = 0) then None else Some (Uint n).

Definition state_to_cbor (s : AumState) : Value :=
  int_map [(1, Some (hash_or_null (as_last_aum_hash s)));
           (2, Some match as_disablement_values s with
                    | None => Null
                    | Some vals => Array (Bytes <$> vals)
                    end);
           (3, Some match as_keys s with
                    | None => Null
                    | Some keys => Array (key_to_cbor <$> keys)
                    end);
           (4, nonzero_uint (as_state_id1 s));
           (5, nonzero_uint (as_state_id2 s))].

Definition signature_to_cbor (s : AumSignature) : Value :=
  int_map [(1, Some (bytes_or_null (sg_key_id s))); (2, Some (bytes_or_null (sg_signature s)))].

Definition aum_to_cbor (a : Aum) (include_signatures : bool) : Value :=
  let signatures :=
    if include_signatures && negb (length (aum_signatures a) =? 0)%nat
    then Some (Array (signature_to_cbor <$> aum_signatures a)) else None in
  int_map [(1, Some (Uint (aum_kind_u8 (message_kind a))));
           (2, Some (hash_or_null (prev_aum_hash a)));
           (3, key_to_cbor <$> aum_key a);
           (4, nonempty_bytes (aum_key_id a));
           (5, state_to_cbor <$> aum_state a);
           (6, Uint <$> aum_votes a);
           (7, meta_to_cbor (aum_meta a));
           (23, signatures)].

(** [Aum::serialize] *)
Definition aum_serialize (a : Aum) : list Z := encode (aum_to_cbor a true).

Fixpoint nks_to_cbor (s : NodeKeySignature) (include_signature : bool) : Value :=
  int_map [(1, Some (Uint (sig_kind_u8 (sig_kind s))));
           (2, nonempty_bytes (nks_pubkey s));
           (3, nonempty_bytes (nks_key_id s));
           (4, if include_signature then nonempty_bytes (nks_signature s) else None);
           (5, match nested s with Some n => Some (nks_to_cbor n true) | None => None end);
           (6, nonempty_bytes (wrapping_pubkey s))].

(** [NodeKeySignature::serialize] *)
Definition nks_serialize (s : NodeKeySignature) : list Z := encode (nks_to_cbor s true).

Section Hashes.
Context `{TkaCrypto}.

Definition aum_hash (canonical_cbor : list Z) : AumHash := blake2s canonical_cbor.

(** [Aum::hash], [Aum::sig_hash], [NodeKeySignature::sig_hash] *)
Definition hash (a : Aum) : AumHash := blake2s (aum_serialize a).

Definition aum_sig_hash (a : Aum) : list Z := blake2s (encode (aum_to_cbor a false)).

Definition nks_sig_hash (s : NodeKeySignature) : list Z := blake2s (encode (nks_to_cbor s false)).
End Hashes.

(** ** Decoding *)

(** [for x in l { ... }] over the variables [s], left at the first error. *)
Fixpoint try_each {S A} (f : S -> A -> res S) (s : S) (l : list A) : res S :=
  match l with
  | [] => Ok s
  | a :: l => s ← f s a; try_each f s l
  end.

Definition expect_bytes (v : Value) : res (list Z) :=
  match v with Bytes b => Ok b | _ => Err (Decode "expected byte string") end.

Definition expect_bytes_or_null (v : Value) : res (list Z) :=
  match v with
  | Bytes b => Ok b
  | Null => Ok []
  | _ => Err (Decode "expected byte string or null")
  end.

Definition expect_uint (v : Value) : res Z :=
  match v with Uint n => Ok n | _ => Err (Decode "expected unsigned integer") end.

(** [u8::try_from], [u32::try_from] *)
Definition u8_try (n : Z) : option Z := if decide (n <= 255) then Some n else None.
Definition u32_try (n : Z) : option Z := if decide (n < 2 ^ 32) then Some n else None.

(** [String::from_utf8]: the well-formed byte sequences of the Unicode standard. *)
Definition cont (b : Z) : bool := (0x80 <=? b) && (b <=? 0xbf).
Definition within (lo hi b : Z) : bool := (lo <=? b) && (b <=? hi).

Fixpoint utf8 (bs : list Z) : bool :=
  match bs with
  | [] => true
  | b :: bs =>
      if within 0 0x7f b then utf8 bs
      else if within 0xc2 0xdf b then
        match bs with c :: bs => cont c && utf8 bs | _ => false end
      else if within 0xe0 0xef b then
        match bs with
        | c :: d :: bs =>
            within (if b =? 0xe0 then 0xa0 else 0x80) (if b =? 0xed then 0x9f else 0xbf) c
            && cont d && utf8 bs
        | _ => false
        end
      else if within 0xf0 0xf4 b then
        match bs with
        | c :: d :: e :: bs =>
            within (if b =? 0xf0 then 0x90 else 0x80) (if b =? 0xf4 then 0x8f else 0xbf) c
            && cont d && cont e && utf8 bs
        | _ => false
        end
      else false
  end.

Definition from_utf8 (bs : list Z) (what : string) : res (list Z) :=
  if utf8 bs then Ok bs else Err (Decode what).

Definition meta_from_value (v : Value) : res Meta :=
  match v with
  | TextMap entries =>
      collect (fun kv =>
        match kv.2 with
        | Text vbytes =>
            key ← from_utf8 kv.1 "meta key not utf-8";
            value ← from_utf8 vbytes "meta value not utf-8";
            Ok (key, value)
        | _ => Err (Decode "meta value not text")
        end) entries
  | _ => Err (Decode "meta is not a text-keyed map")
  end.

Definition aum_hash_from_bytes (b : list Z) : res AumHash :=
  if (length b =? AUM_HASH_LEN)%nat then Ok b else Err (Decode "AUM hash not 32 bytes").

Definition key_field (f : option KeyKind * option Z * option (list Z) * Meta) (kv : Z * Value) :
    res (option KeyKind * option Z * option (list Z) * Meta) :=
  let '(kind, votes, public, meta) := f in
  match kv.1 with
  | 1 =>
      n ← expect_uint kv.2;
      match n with
      | 1 => Ok (Some Ed25519, votes, public, meta)
      | _ => Err (Decode "unsupported key kind")
      end
  | 2 =>
      n ← expect_uint kv.2;
      votes ← ok_or (u32_try n) (Decode "key votes out of range");
      Ok (kind, Some votes, public, meta)
  | 3 => public ← expect_bytes_or_null kv.2; Ok (kind, votes, Some public, meta)
  | 12 => meta ← meta_from_value kv.2; Ok (kind, votes, public, meta)
  | _ => Err (Decode "unknown key field")
  end.

Definition key_from_value (v : Value) : res AumKey :=
  match v with
  | IntMap entries =>
      '(kind, votes, public, meta) ← try_each key_field (None, None, None, []) entries;
      kind ← ok_or kind (Decode "key missing kind");
      votes ← ok_or votes (Decode "key missing votes");
      public ← ok_or public (Decode "key missing public");
      Ok (mkAumKey kind votes public meta)
  | _ => Err (Decode "key is not an int-keyed map")
  end.

Definition AumState_default : AumState := mkAumState None None None 0 0.

Definition state_field (s : AumState) (kv : Z * Value) : res AumState :=
  let '(mkAumState last disablement keys id1 id2) := s in
  match kv.1 with
  | 1 =>
      match kv.2 with
      | Null => Ok (mkAumState None disablement keys id1 id2)
      | Bytes b => h ← aum_hash_from_bytes b; Ok (mkAumState (Some h) disablement keys id1 id2)
      | _ => Err (Decode "last_aum_hash not bytes or null")
      end
  | 2 =>
      match kv.2 with
      | Null => Ok (mkAumState last None keys id1 id2)
      | Array items => ds ← collect expect_bytes items; Ok (mkAumState last (Some ds) keys id1 id2)
      | _ => Err (Decode "disablement_values not array or null")
      end
  | 3 =>
      match kv.2 with
      | Null => Ok (mkAumState last disablement None id1 id2)
      | Array items => ks ← collect key_from_value items; Ok (mkAumState last disablement (Some ks) id1 id2)
      | _ => Err (Decode "state keys not array or null")
      end
  | 4 => id1 ← expect_uint kv.2; Ok (mkAumState last disablement keys id1 id2)
  | 5 => id2 ← expect_uint kv.2; Ok (mkAumState last disablement keys id1 id2)
  | _ => Err (Decode "unknown state field")
  end.

Definition state_from_value (v : Value) : res AumState :=
  match v with
  | IntMap entries => try_each state_field AumState_default entries
  | _ => Err (Decode "state is not an int-keyed map")
  end.

Definition signature_field (f : option (list Z) * option (list Z)) (kv : Z * Value) :
    res (option (list Z) * option (list Z)) :=
  match kv.1 with
  | 1 => b ← expect_bytes_or_null kv.2; Ok (Some b, f.2)
  | 2 => b ← expect_bytes_or_null kv.2; Ok (f.1, Some b)
  | _ => Err (Decode "unknown AUM signature field")
  end.

Definition signature_from_value (v : Value) : res AumSignature :=
  match v with
  | IntMap entries =>
      '(key_id, signature) ← try_each signature_field (None, None) entries;
      key_id ← ok_or key_id (Decode "AUM signature missing key_id");
      signature ← ok_or signature (Decode "AUM signature missing signature");
      Ok (mkAumSignature key_id signature)
  | _ => Err (Decode "signature is not an int-keyed map")
  end.

(** The variables of [Aum::from_cbor]'s loop. *)
Record AumFields := mkAumFields {
  af_kind : option AumKind;
  af_prev : option AumHash;
  af_have_prev : bool;
  af_key : option AumKey;
  af_key_id : list Z;
  af_state : option AumState;
  af_votes : option Z;
  af_meta : Meta;
  af_signatures : list AumSignature;
}.

Definition aum_field (f : AumFields) (kv : Z * Value) : res AumFields :=
  let '(mkAumFields kind prev have key key_id state votes meta sigs) := f in
  match kv.1 with
  | 1 =>
      n ← expect_uint kv.2;
      n ← ok_or (u8_try n) (Decode "message kind out of range");
      kind ← ok_or (aum_kind_from_u8 n) (Decode "unknown AUM message kind");
      Ok (mkAumFields (Some kind) prev have key key_id state votes meta sigs)
  | 2 =>
      match kv.2 with
      | Null => Ok (mkAumFields kind None true key key_id state votes meta sigs)
      | Bytes b =>
          h ← aum_hash_from_bytes b;
          Ok (mkAumFields kind (Some h) true key key_id state votes meta sigs)
      | _ => Err (Decode "prev_aum_hash not bytes or null")
      end
  | 3 => k ← key_from_value kv.2; Ok (mkAumFields kind prev have (Some k) key_id state votes meta sigs)
  | 4 => id ← expect_bytes_or_null kv.2; Ok (mkAumFields kind prev have key id state votes meta sigs)
  | 5 => s ← state_from_value kv.2; Ok (mkAumFields kind prev have key key_id (Some s) votes meta sigs)
  | 6 =>
      n ← expect_uint kv.2;
      n ← ok_or (u32_try n) (Decode "votes out of range");
      Ok (mkAumFields kind prev have key key_id state (Some n) meta sigs)
  | 7 => m ← meta_from_value kv.2; Ok (mkAumFields kind prev have key key_id state votes m sigs)
  | 23 =>
      match kv.2 with
      | Array items =>
          sigs ← collect signature_from_value items;
          Ok (mkAumFields kind prev have key key_id state votes meta sigs)
      | _ => Err (Decode "signatures not an array")
      end
  | _ => Err (Decode "unknown AUM field")
  end.

Definition aum_from_cbor (buf : list Z) : res Aum :=
  '(val, rest) ← decode_top buf;
  match rest with
  | _ :: _ => Err (Decode "trailing bytes after AUM")
  | [] =>
      match val with
      | IntMap entries =>
          f ← try_each aum_field (mkAumFields None None false None [] None None [] []) entries;
          if negb (af_have_prev f) then Err (Decode "AUM missing prev_aum_hash")
          else
            kind ← ok_or (af_kind f) (Decode "AUM missing message kind");
            Ok (mkAum kind (af_prev f) (af_key f) (af_key_id f) (af_state f) (af_votes f) (af_meta f)
                  (af_signatures f))
      | _ => Err (Decode "AUM is not an int-keyed map")
      end
  end.

(** The variables of [node_key_signature_from_value]'s loop. *)
Record NksFields := mkNksFields {
  nf_kind : option SigKind;
  nf_pubkey : list Z;
  nf_key_id : list Z;
  nf_signature : list Z;
  nf_nested : option NodeKeySignature;
  nf_wrapping : list Z;
}.

(** [rec] is [node_key_signature_from_value] one level down. *)
Definition nks_field (rec : Value -> res NodeKeySignature) (f : NksFields) (kv : Z * Value) : res NksFields :=
  let '(mkNksFields kind pubkey key_id signature nested wrapping) := f in
  match kv.1 with
  | 1 =>
      match kv.2 with
      | Uint n =>
          n ← ok_or (u8_try n) (Decode "sig kind range");
          kind ← ok_or (sig_kind_from_u8 n) (Decode "unknown sig kind");
          Ok (mkNksFields (Some kind) pubkey key_id signature nested wrapping)
      | _ => Err (Decode "sig kind not uint")
      end
  | 2 => b ← expect_bytes kv.2; Ok (mkNksFields kind b key_id signature nested wrapping)
  | 3 => b ← expect_bytes kv.2; Ok (mkNksFields kind pubkey b signature nested wrapping)
  | 4 => b ← expect_bytes kv.2; Ok (mkNksFields kind pubkey key_id b nested wrapping)
  | 5 => n ← rec kv.2; Ok (mkNksFields kind pubkey key_id signature (Some n) wrapping)
  | 6 => b ← expect_bytes kv.2; Ok (mkNksFields kind pubkey key_id signature nested b)
  | _ => Err (Decode "unknown signature field")
  end.

(** [node_key_signature_from_value] with [levels = MAX_SIG_NESTING_DEPTH + 1 -
    depth]. *)
Fixpoint nks_from_value (levels : nat) (val : Value) : res NodeKeySignature :=
  match levels with
  | O => Err (Decode "nested signature too deep")
  | S levels =>
      match val with
      | IntMap entries =>
          f ← try_each (nks_field (nks_from_value levels)) (mkNksFields None [] [] [] None []) entries;
          kind ← ok_or (nf_kind f) (Decode "signature missing kind");
          Ok (mkNks kind (nf_pubkey f) (nf_key_id f) (nf_signature f) (nf_nested f) (nf_wrapping f))
      | _ => Err (Decode "signature is not an int-keyed map")
      end
  end.

Definition decode_node_key_signature (buf : list Z) : res NodeKeySignature :=
  '(val, rest) ← decode_top buf;
  match rest with
  | _ :: _ => Err (Decode "trailing bytes after signature")
  | [] => nks_from_value (S MAX_SIG_NESTING_DEPTH) val
  end.

Lemma u32_try_ok n : u32_ok n -> u32_try n = Some n.
Proof. intros [_ Hn]. unfold u32_try. by rewrite decide_True. Qed.

#[local] Arguments u32_try : simpl never.

(** ** Maps with fixed fields *)

(** The entries [int_map] keeps. *)
Definition present (pairs : list (Z * option Value)) : list (Z * Value) :=
  omap (fun kv => (fun v => (kv.1, v)) <$> kv.2) pairs.

(** Fields listed by ascending key. *)
Fixpoint ascending (lo : Z) (ks : list Z) : bool :=
  match ks with
  | [] => true
  | k :: ks => (lo <? k) && (k <? 24) && ascending k ks
  end.

Lemma ascending_lt lo ks : ascending lo ks = true -> Forall (fun k => lo < k < 24) ks.
Proof.
  revert lo. induction ks as [|k ks IH]; intros lo Ha; cbn in Ha; [constructor|].
  apply andb_true_iff in Ha as [Hk Ha]. constructor; [lia|]. apply IH in Ha.
  eapply Forall_impl; [exact Ha|]. cbn. lia.
Qed.

Lemma present_keys lo pairs :
  ascending lo pairs.*1 = true ->
  Forall (fun kv => lo < kv.1 < 24) (present pairs) /\ NoDup (present pairs).*1
  /\ StronglySorted (key_le Z.leb) (present pairs).
Proof.
  revert lo. induction pairs as [|[k [v|]] pairs IH]; intros lo Ha; cbn in Ha |- *.
  { split_and!; constructor. }
  - apply andb_true_iff in Ha as [Hk Ha]. destruct (IH _ Ha) as (Hf & Hnd & Hs).
    split_and!; constructor; cbn; try done; try lia.
    + eapply Forall_impl; [exact Hf|]. cbn. lia.
    + intros ([k' v'] & -> & Hin)%list_elem_of_fmap. rewrite Forall_forall in Hf. specialize (Hf _ Hin).
      cbn in Hf. lia.
    + eapply Forall_impl; [exact Hf|]. unfold key_le. cbn. lia.
  - apply andb_true_iff in Ha as [Hk Ha]. destruct (IH _ Ha) as (Hf & Hnd & Hs). split_and!; [|done|done].
    eapply Forall_impl; [exact Hf|]. cbn. lia.
Qed.

Lemma canon_int_map lo pairs :
  ascending lo pairs.*1 = true ->
  canon (int_map pairs) = IntMap ((fun kv => (kv.1, canon kv.2)) <$> present pairs).
Proof.
  intros Ha. destruct (present_keys _ _ Ha) as (_ & _ & Hs). change (int_map pairs) with (IntMap (present pairs)).
  cbn [canon].
  rewrite sort_values. by rewrite (sort_idemp Z.leb _ Hs).
Qed.

Lemma length_present pairs : (length (present pairs) <= length pairs)%nat.
Proof. unfold present. induction pairs as [|[k [v|]] pairs IH]; cbn in *; lia. Qed.

Lemma int_map_ok pairs :
  ascending 0 pairs.*1 = true -> (length pairs < 24)%nat ->
  Forall (fun kv => forall v, kv.2 = Some v -> wire_ok v) pairs -> wire_ok (int_map pairs).
Proof.
  intros Ha Hl Hf. destruct (present_keys _ _ Ha) as (Hk & Hnd & _).
  pose proof (length_present pairs). change (int_map pairs) with (IntMap (present pairs)).
  constructor; [unfold u64_ok, len; lia|done|].
  apply Forall_forall. intros [k v] Hin. rewrite Forall_forall in Hk. specialize (Hk _ Hin). cbn in *.
  split; [unfold u64_ok; lia|]. apply list_elem_of_omap in Hin as ([k' [v'|]] & Hin & [= -> ->]).
  rewrite Forall_forall in Hf. by apply (Hf _ Hin).
Qed.

Lemma int_map_depth pairs n :
  Forall (fun kv => forall v, kv.2 = Some v -> (depth v <= n)%nat) pairs -> (depth (int_map pairs) <= S n)%nat.
Proof.
  intros Hf. change (int_map pairs) with (IntMap (present pairs)). cbn [depth].
  apply le_n_S, max_list_le_Forall. unfold present. induction Hf as [|[k [v|]] pairs Hv _ IH]; cbn; auto.
Qed.

(** ** Records for the wire *)

(** A [String] is valid UTF-8; keys are distinct, lengths and numbers have their
    machine widths. *)
Definition string_ok (s : list Z) : Prop := utf8 s = true /\ u64_ok (len s).

Definition meta_ok (m : Meta) : Prop :=
  u64_ok (len m) /\ NoDup m.*1 /\ Forall (fun kv => string_ok kv.1 /\ string_ok kv.2) m.

Definition hash_ok (h : AumHash) : Prop := length h = AUM_HASH_LEN.

Record key_ok (k : AumKey) : Prop := {
  ko_votes : u32_ok (ak_votes k);
  ko_public : u64_ok (len (ak_public k));
  ko_meta : meta_ok (ak_meta k);
}.

Record state_ok (s : AumState) : Prop := {
  so_last : from_option hash_ok True (as_last_aum_hash s);
  so_disablement : from_option (fun ds => u64_ok (len ds) /\ Forall (fun d => u64_ok (len d)) ds) True
                     (as_disablement_values s);
  so_keys : from_option (fun ks => u64_ok (len ks) /\ Forall key_ok ks) True (as_keys s);
  so_id1 : u64_ok (as_state_id1 s);
  so_id2 : u64_ok (as_state_id2 s);
}.

Record signature_ok (s : AumSignature) : Prop := {
  sgo_key_id : u64_ok (len (sg_key_id s));
  sgo_signature : u64_ok (len (sg_signature s));
}.

Record aum_ok (a : Aum) : Prop := {
  ao_prev : from_option hash_ok True (prev_aum_hash a);
  ao_key : from_option key_ok True (aum_key a);
  ao_key_id : u64_ok (len (aum_key_id a));
  ao_state : from_option state_ok True (aum_state a);
  ao_votes : from_option u32_ok True (aum_votes a);
  ao_meta : meta_ok (aum_meta a);
  ao_signatures : u64_ok (len (aum_signatures a)) /\ Forall signature_ok (aum_signatures a);
}.

(** The records with their metadata in wire order. *)
Definition meta_canon (m : Meta) : Meta := sort_by_key text_le m.

Definition key_canon (k : AumKey) : AumKey :=
  mkAumKey (ak_kind k) (ak_votes k) (ak_public k) (meta_canon (ak_meta k)).

Definition state_canon (s : AumState) : AumState :=
  mkAumState (as_last_aum_hash s) (as_disablement_values s) (option_map (map key_canon) (as_keys s))
    (as_state_id1 s) (as_state_id2 s).

Definition aum_canon (a : Aum) : Aum :=
  mkAum (message_kind a) (prev_aum_hash a) (key_canon <$> aum_key a) (aum_key_id a)
    (state_canon <$> aum_state a) (aum_votes a) (meta_canon (aum_meta a)) (aum_signatures a).

(** What it takes for the encoding of a record to be read back by [from]: a
    value for the wire, of at most [n] levels. *)
Record sends {A} (v : Value) (n : nat) (from : Value -> res A) (a : A) : Prop := {
  sends_ok : wire_ok v;
  sends_depth : (depth v <= n)%nat;
  sends_back : from (canon v) = Ok a;
}.

Lemma collect_fmap {A B C} (g : A -> B) (f : B -> res C) (h : A -> C) l :
  Forall (fun a => f (g a) = Ok (h a)) l -> collect f (g <$> l) = Ok (h <$> l).
Proof. induction 1 as [|a l E _ IH]; cbn; [done|]. rewrite E. cbn. by rewrite IH. Qed.

(** One goal per field that can be there. *)
Ltac fields :=
  repeat first [apply Forall_nil_2
    | apply Forall_cons_2; [let v := fresh "v" in let E := fresh "E" in cbn [snd]; intros v E; simplify_eq|]].

Lemma meta_sends m v :
  meta_ok m -> meta_to_cbor m = Some v -> sends v 2 meta_from_value (meta_canon m).
Proof.
  intros (Hl & Hnd & Hf) Ev.
  assert (v = TextMap ((fun kv => (kv.1, Text kv.2)) <$> m) /\ m <> []) as [-> Hne].
  { destruct m; [done|]. by injection Ev as <-. }
  clear Ev. assert (Forall (fun kv => u64_ok (len kv.1) /\ wire_ok kv.2) ((fun kv => (kv.1, Text kv.2)) <$> m)) as Hw.
  { apply Forall_fmap. eapply Forall_impl; [exact Hf|]. intros [k t] [[_ Hk] [_ Ht]]. cbn in *.
    split; [done|by constructor]. }
  split.
  - constructor; [unfold len in *; by rewrite length_fmap| | |done].
    + intros E. apply fmap_nil_inv in E. done.
    + rewrite <- list_fmap_compose. done.
  - cbn [depth]. apply le_n_S. rewrite <- list_fmap_compose. apply (Nat.max_lub 1); [lia|].
    apply max_list_le_Forall. apply Forall_true. intros kv. cbn. lia.
  - cbn [canon meta_from_value]. rewrite <- list_fmap_compose.
    change ((fun kv => (kv.1, canon kv.2)) ∘ (fun kv : list Z * list Z => (kv.1, Text kv.2)))
      with (fun kv : list Z * list Z => (kv.1, Text kv.2)).
    rewrite sort_values, (collect_fmap _ _ id); [by rewrite list_fmap_id|].
    rewrite sort_perm. eapply Forall_impl; [exact Hf|]. intros [k t] [[Hk _] [Ht _]]. cbn in *.
    unfold from_utf8. rewrite Hk, Ht. done.
Qed.

Lemma meta_none m : meta_to_cbor m = None -> m = [].
Proof. by destruct m. Qed.

Lemma key_sends k : key_ok k -> sends (key_to_cbor k) 3 key_from_value (key_canon k).
Proof.
  intros [Hv Hp Hm]. unfold u32_ok in Hv. unfold key_to_cbor. split.
  - apply int_map_ok; [done|cbn; lia|]. fields.
    + constructor. destruct k as [[] ? ? ?]. unfold u64_ok; cbn; lia.
    + constructor. unfold u64_ok. lia.
    + by constructor.
    + by destruct (meta_sends _ _ Hm E).
  - apply int_map_depth. fields; cbn; try lia.
    by destruct (meta_sends _ _ Hm E).
  - rewrite (canon_int_map 0) by done. destruct k as [[] votes public meta].
    cbn in *. rewrite u32_try_ok by done. cbn. destruct (meta_to_cbor meta) as [v|] eqn:E; cbn.
    + destruct (meta_sends _ _ Hm E) as [_ _ Hb]. rewrite Hb. done.
    + apply meta_none in E as ->. done.
Qed.

(** An array of records. *)
Lemma array_ok {A} (f : A -> Value) l :
  u64_ok (len l) -> Forall (fun a => wire_ok (f a)) l -> wire_ok (Array (f <$> l)).
Proof.
  intros Hl Hf. constructor; [unfold len in *; by rewrite length_fmap|]. by apply Forall_fmap.
Qed.

Lemma array_depth {A} (f : A -> Value) l n :
  Forall (fun a => depth (f a) <= n)%nat l -> (depth (Array (f <$> l)) <= S n)%nat.
Proof.
  intros Hf. cbn [depth]. rewrite <- list_fmap_compose. by apply le_n_S, max_list_le_Forall.
Qed.

Lemma array_back {A B} (f : A -> Value) (from : Value -> res B) (g : A -> B) l :
  Forall (fun a => from (canon (f a)) = Ok (g a)) l ->
  collect from (canon <$> (f <$> l)) = Ok (g <$> l).
Proof. intros Hf. rewrite <- list_fmap_compose. by apply (collect_fmap (canon ∘ f)). Qed.

Lemma hash_or_null_ok h : from_option hash_ok True h -> wire_ok (hash_or_null h).
Proof.
  destruct h as [h|]; intros Hh; constructor. unfold hash_ok, AUM_HASH_LEN in Hh. cbn in Hh.
  unfold u64_ok, len. lia.
Qed.

Lemma hash_back h : hash_ok h -> aum_hash_from_bytes h = Ok h.
Proof. intros Hh. unfold aum_hash_from_bytes. by rewrite Hh. Qed.

Lemma keys_sends ks :
  u64_ok (len ks) /\ Forall key_ok ks ->
  wire_ok (Array (key_to_cbor <$> ks)) /\ (depth (Array (key_to_cbor <$> ks)) <= 4)%nat
  /\ collect key_from_value (canon <$> (key_to_cbor <$> ks)) = Ok (key_canon <$> ks).
Proof.
  intros [Hl Hf]. split_and!.
  - apply array_ok; [done|]. eapply Forall_impl; [exact Hf|]. intros k Hk. by destruct (key_sends k Hk).
  - apply array_depth. eapply Forall_impl; [exact Hf|]. intros k Hk. by destruct (key_sends k Hk).
  - apply array_back. eapply Forall_impl; [exact Hf|]. intros k Hk. by destruct (key_sends k Hk).
Qed.

Lemma disablements_sends ds :
  u64_ok (len ds) /\ Forall (fun d : list Z => u64_ok (len d)) ds ->
  wire_ok (Array (Bytes <$> ds)) /\ (depth (Array (Bytes <$> ds)) <= 4)%nat
  /\ collect expect_bytes (canon <$> (Bytes <$> ds)) = Ok ds.
Proof.
  intros [Hl Hf]. split_and!.
  - apply array_ok; [done|]. eapply Forall_impl; [exact Hf|]. by constructor.
  - apply array_depth, Forall_true. intros d. cbn. lia.
  - rewrite (array_back _ _ id); [by rewrite list_fmap_id|]. by apply Forall_true.
Qed.

Lemma state_sends s : state_ok s -> sends (state_to_cbor s) 5 state_from_value (state_canon s).
Proof.
  intros [Hh Hd Hk H1 H2]. unfold state_to_cbor, nonzero_uint. split.
  - apply int_map_ok; [done|cbn; lia|]. fields.
    + by apply hash_or_null_ok.
    + destruct (as_disablement_values s); [by apply disablements_sends|constructor].
    + destruct (as_keys s); [by apply keys_sends|constructor].
    + case_decide; simplify_eq. by constructor.
    + case_decide; simplify_eq. by constructor.
  - apply int_map_depth. fields.
    + destruct (as_last_aum_hash s); cbn; lia.
    + destruct (as_disablement_values s); [by apply disablements_sends|cbn; lia].
    + destruct (as_keys s); [by apply keys_sends|cbn; lia].
    + case_decide; simplify_eq. cbn. lia.
    + case_decide; simplify_eq. cbn. lia.
  - rewrite (canon_int_map 0) by done. destruct s as [h ds ks i1 i2]. cbn in *.
    assert (match ks with Some ks => collect key_from_value (canon <$> (key_to_cbor <$> ks)) = Ok (key_canon <$> ks)
            | None => True end) as Eks by (destruct ks; [by apply keys_sends|done]).
    assert (match ds with Some ds => collect expect_bytes (canon <$> (Bytes <$> ds)) = Ok ds
            | None => True end) as Eds by (destruct ds; [by apply disablements_sends|done]).
    destruct h as [h|], ds as [ds|], ks as [ks|]; cbn in *; rewrite ?hash_back by done; cbn;
      rewrite ?Eds; cbn; rewrite ?Eks; cbn;
      repeat case_decide; subst; cbn; done.
Qed.

Lemma signature_sends s : signature_ok s -> sends (signature_to_cbor s) 2 signature_from_value s.
Proof.
  intros [Hk Hs]. unfold signature_to_cbor, bytes_or_null. split.
  - apply int_map_ok; [done|cbn; lia|]. fields; case_match; by constructor.
  - apply int_map_depth. fields; case_match; cbn; lia.
  - rewrite (canon_int_map 0) by done. by destruct s as [[|??] [|??]].
Qed.

Lemma signatures_sends ss :
  u64_ok (len ss) /\ Forall signature_ok ss ->
  wire_ok (Array (signature_to_cbor <$> ss)) /\ (depth (Array (signature_to_cbor <$> ss)) <= 3)%nat
  /\ collect signature_from_value (canon <$> (signature_to_cbor <$> ss)) = Ok ss.
Proof.
  intros [Hl Hf]. split_and!.
  - apply array_ok; [done|]. eapply Forall_impl; [exact Hf|]. intros k Hk. by destruct (signature_sends k Hk).
  - apply array_depth. eapply Forall_impl; [exact Hf|]. intros k Hk. by destruct (signature_sends k Hk).
  - rewrite (array_back _ _ id); [by rewrite list_fmap_id|]. eapply Forall_impl; [exact Hf|].
    intros k Hk. by destruct (signature_sends k Hk).
Qed.

Lemma nonempty_bytes_some b v : nonempty_bytes b = Some v -> v = Bytes b.
Proof. destruct b; [done|]. by intros [= <-]. Qed.

Lemma aum_kind_back k : u8_try (aum_kind_u8 k) = Some (aum_kind_u8 k) /\ aum_kind_from_u8 (aum_kind_u8 k) = Some k.
Proof. by destruct k. Qed.

Lemma aum_value_ok a b : aum_ok a -> wire_ok (aum_to_cbor a b) /\ (depth (aum_to_cbor a b) <= 6)%nat.
Proof.
  intros [Hp Hk Hi Hs Hv Hm Hg]. unfold aum_to_cbor. split.
  - apply int_map_ok; [done|cbn; lia|]. fields.
    + constructor. destruct (message_kind a); unfold u64_ok; cbn; lia.
    + by apply hash_or_null_ok.
    + destruct (aum_key a) as [k|]; [injection E as <-|done]. by destruct (key_sends k Hk).
    + apply nonempty_bytes_some in E as ->. by constructor.
    + destruct (aum_state a) as [s|]; [injection E as <-|done]. by destruct (state_sends s Hs).
    + destruct (aum_votes a) as [n|]; [injection E as <-|done]. constructor. cbn in Hv. unfold u32_ok, u64_ok in *. lia.
    + by destruct (meta_sends _ _ Hm E).
    + case_match; simplify_eq. by apply signatures_sends.
  - apply int_map_depth. fields.
    + cbn. lia.
    + destruct (prev_aum_hash a); cbn; lia.
    + destruct (aum_key a) as [k|]; [injection E as <-|done]. destruct (key_sends k Hk). lia.
    + apply nonempty_bytes_some in E as ->. cbn. lia.
    + destruct (aum_state a) as [s|]; [injection E as <-|done]. by destruct (state_sends s Hs).
    + destruct (aum_votes a) as [n|]; [injection E as <-|done]. cbn. lia.
    + destruct (meta_sends _ _ Hm E). lia.
    + case_match; simplify_eq. apply signatures_sends in Hg as (_ & ? & _). lia.
Qed.

(** A field of a map, there or not. *)
Lemma try_field {S} (f : S -> Z * Value -> res S) s s' k (o : option Value) pairs :
  match o with Some v => f s (k, canon v) = Ok s' | None => s = s' end ->
  try_each f s ((fun kv => (kv.1, canon kv.2)) <$> present ((k, o) :: pairs))
  = try_each f s' ((fun kv => (kv.1, canon kv.2)) <$> present pairs).
Proof. destruct o as [v|]; cbn; [|by intros ->]. intros E. by rewrite E. Qed.

Lemma aum_back a : aum_ok a -> aum_from_cbor (aum_serialize a) = Ok (aum_canon a).
Proof.
  intros Ha. destruct (aum_value_ok a true Ha) as [Hw Hd]. destruct Ha as [Hp Hk Hi Hs Hv Hm Hg].
  unfold aum_from_cbor, aum_serialize, decode_top. rewrite <- (app_nil_r (encode _)).
  rewrite decode_encode by (done || unfold MAX_SIG_NESTING_DEPTH; lia). clear Hw Hd. cbn [mbind res_bind].
  unfold aum_to_cbor. rewrite (canon_int_map 0) by done.
  destruct a as [kind prev key kid state votes meta sigs].
  cbn -[present meta_ok u64_ok] in *.
  destruct (aum_kind_back kind) as [Ek Ek'].
  erewrite try_field by (cbn; rewrite Ek; cbn; rewrite Ek'; reflexivity).
  erewrite (try_field _ _ (mkAumFields (Some kind) prev true None [] None None [] []))
    by (destruct prev; cbn; rewrite ?hash_back by done; done).
  erewrite (try_field _ _ (mkAumFields (Some kind) prev true (key_canon <$> key) [] None None [] []))
    by (destruct key as [k|]; [cbn [aum_field fst snd fmap option_fmap option_map]; by rewrite (sends_back _ _ _ _ (key_sends k Hk))|done]).
  erewrite (try_field _ _ (mkAumFields (Some kind) prev true (key_canon <$> key) kid None None [] []))
    by (by destruct kid).
  erewrite (try_field _ _ (mkAumFields (Some kind) prev true (key_canon <$> key) kid
    (state_canon <$> state) None [] []))
    by (destruct state as [s|]; [cbn [aum_field fst snd fmap option_fmap option_map]; by rewrite (sends_back _ _ _ _ (state_sends s Hs))|done]).
  erewrite (try_field _ _ (mkAumFields (Some kind) prev true (key_canon <$> key) kid
    (state_canon <$> state) votes [] []))
    by (destruct votes as [n|]; [cbn; by rewrite u32_try_ok|done]).
  erewrite (try_field _ _ (mkAumFields (Some kind) prev true (key_canon <$> key) kid
    (state_canon <$> state) votes (meta_canon meta) [])).
  2: { destruct (meta_to_cbor meta) as [v|] eqn:E; [|by apply meta_none in E as ->].
       cbn [aum_field fst snd]. by rewrite (sends_back _ _ _ _ (meta_sends _ _ Hm E)). }
  erewrite (try_field _ _ (mkAumFields (Some kind) prev true (key_canon <$> key) kid
    (state_canon <$> state) votes (meta_canon meta) sigs)).
  2: { destruct sigs as [|s ss] eqn:Es; [done|]. rewrite <- Es in *. replace (length sigs =? 0)%nat with false
         by (by subst).
       cbn [aum_field fst snd negb canon]. by rewrite (proj2 (proj2 (signatures_sends sigs Hg))). }
  done.
Qed.

(** The order of metadata does not reach the bytes. *)
Lemma canon_int_map_ext lo pairs pairs' :
  ascending lo pairs.*1 = true ->
  Forall2 (fun p p' => p.1 = p'.1 /\ canon <$> p.2 = canon <$> p'.2) pairs pairs' ->
  canon (int_map pairs) = canon (int_map pairs').
Proof.
  intros Ha Hp. assert (pairs'.*1 = pairs.*1) as Ek.
  { clear Ha. induction Hp as [|p p' l l' [E _] _ IH]; cbn; [done|]. by rewrite E, IH. }
  rewrite !(canon_int_map lo) by congruence. f_equal. clear Ha Ek.
  induction Hp as [|[k o] [k' o'] l l' [Ek Eo] _ IH]; [done|]. cbn in Ek, Eo. subst k'.
  destruct o as [v|], o' as [v'|]; cbn in *; simplify_eq; [|done]. by f_equal; [f_equal|].
Qed.

Lemma canon_meta m : canon <$> meta_to_cbor (meta_canon m) = canon <$> meta_to_cbor m.
Proof.
  destruct m as [|p m]; [done|]. remember (p :: m) as m' eqn:E.
  assert (forall x, x <> [] -> meta_to_cbor x = Some (TextMap ((fun kv => (kv.1, Text kv.2)) <$> x))) as Hs
    by (by intros []).
  rewrite !Hs; [|by subst|].
  - cbn. f_equal. f_equal. rewrite !sort_values. unfold meta_canon.
    by rewrite (sort_idemp text_le _ (sort_sorted text_le text_le_total text_le_trans m')).
  - intros E'. apply (f_equal length) in E'. unfold meta_canon in E'. rewrite length_sort in E'. by subst.
Qed.

Lemma canon_key k : canon (key_to_cbor (key_canon k)) = canon (key_to_cbor k).
Proof.
  apply (canon_int_map_ext 0); [done|]. repeat constructor; cbn [fst snd]. apply canon_meta.
Qed.

Lemma canon_state s : canon (state_to_cbor (state_canon s)) = canon (state_to_cbor s).
Proof.
  apply (canon_int_map_ext 0); [done|]. repeat constructor; cbn [fst snd].
  destruct s as [? ? [ks|] ? ?]; [|done]. cbn. f_equal. f_equal.
  rewrite map_map, <- !list_fmap_compose. apply list_fmap_ext. intros ? k _. apply canon_key.
Qed.

Lemma canon_aum a b : canon (aum_to_cbor (aum_canon a) b) = canon (aum_to_cbor a b).
Proof.
  apply (canon_int_map_ext 0); [done|]. repeat constructor; cbn [fst snd].
  - destruct a as [? ? [k|] ? ? ? ? ?]; [|done]. cbn [aum_canon aum_key fmap option_fmap option_map].
    f_equal. apply canon_key.
  - destruct a as [? ? ? ? [s|] ? ? ?]; [|done]. cbn [aum_canon aum_state fmap option_fmap option_map].
    f_equal. apply canon_state.
  - apply canon_meta.
Qed.

Lemma aum_canon_serialize a : aum_serialize (aum_canon a) = aum_serialize a.
Proof. unfold aum_serialize. by rewrite <- encode_canon, canon_aum, encode_canon. Qed.

(** ** Node-key signatures *)

Section NksInd.
Context (P : NodeKeySignature -> Prop).
Context (step : forall k p i s n w, (forall m, n = Some m -> P m) -> P (mkNks k p i s n w)).

Fixpoint nks_ind' (s : NodeKeySignature) : P s :=
  match s with
  | mkNks k p i sg n w =>
      step k p i sg n w
        match n as n0 return (forall m, n0 = Some m -> P m) with
        | Some m' => fun m E => eq_ind m' P (nks_ind' m') m (f_equal (from_option id m') E)
        | None => fun m E => match eq_ind None (fun o => if o is Some _ then False else True) I _ E with end
        end
  end.
End NksInd.

(** The signatures of the chain. *)
Fixpoint nks_depth (s : NodeKeySignature) : nat :=
  S match nested s with Some n => nks_depth n | None => 0%nat end.

Fixpoint nks_ok (s : NodeKeySignature) : Prop :=
  u64_ok (len (nks_pubkey s)) /\ u64_ok (len (nks_key_id s)) /\ u64_ok (len (nks_signature s))
  /\ u64_ok (len (wrapping_pubkey s)) /\ match nested s with Some n => nks_ok n | None => True end.

Lemma sig_kind_back k :
  u8_try (sig_kind_u8 k) = Some (sig_kind_u8 k) /\ sig_kind_from_u8 (sig_kind_u8 k) = Some k.
Proof. by destruct k. Qed.

Lemma nks_value_ok s b : nks_ok s -> wire_ok (nks_to_cbor s b) /\ (depth (nks_to_cbor s b) <= S (nks_depth s))%nat.
Proof.
  revert b. induction s as [k p i g n w IH] using nks_ind'. intros b (Hp & Hi & Hg & Hw & Hn).
  cbn [nks_pubkey nks_key_id nks_signature wrapping_pubkey nested] in *.
  cbn [nks_to_cbor sig_kind nks_pubkey nks_key_id nks_signature wrapping_pubkey nested]. split.
  - apply int_map_ok; [done|cbn; lia|]. fields.
    + constructor. destruct k; unfold u64_ok; cbn; lia.
    + apply nonempty_bytes_some in E as ->. by constructor.
    + apply nonempty_bytes_some in E as ->. by constructor.
    + destruct b; [|done]. apply nonempty_bytes_some in E as ->. by constructor.
    + destruct n as [m|]; simplify_eq. by apply (IH m).
    + apply nonempty_bytes_some in E as ->. by constructor.
  - cbn [nks_depth nested]. apply int_map_depth. fields.
    + cbn. lia.
    + apply nonempty_bytes_some in E as ->. cbn. lia.
    + apply nonempty_bytes_some in E as ->. cbn. lia.
    + destruct b; [|done]. apply nonempty_bytes_some in E as ->. cbn. lia.
    + destruct n as [m|]; simplify_eq. by apply (IH m).
    + apply nonempty_bytes_some in E as ->. cbn. lia.
Qed.

Lemma nks_value_back s levels :
  nks_ok s -> (nks_depth s <= levels)%nat -> nks_from_value levels (canon (nks_to_cbor s true)) = Ok s.
Proof.
  revert levels. induction s as [k p i g n w IH] using nks_ind'. intros levels Hs Hl.
  destruct levels as [|levels]; [cbn in Hl; lia|]. destruct Hs as (_ & _ & _ & _ & Hn).
  cbn [nks_depth nested] in Hl, Hn. destruct (sig_kind_back k) as [Ek Ek'].
  cbn [nks_to_cbor sig_kind nks_pubkey nks_key_id nks_signature wrapping_pubkey nested].
  rewrite (canon_int_map 0) by done. cbn [nks_from_value].
  erewrite try_field by (cbn; rewrite Ek; cbn; rewrite Ek'; reflexivity).
  erewrite (try_field _ _ (mkNksFields (Some k) p [] [] None [])) by (by destruct p).
  erewrite (try_field _ _ (mkNksFields (Some k) p i [] None [])) by (by destruct i).
  erewrite (try_field _ _ (mkNksFields (Some k) p i g None [])) by (by destruct g).
  erewrite (try_field _ _ (mkNksFields (Some k) p i g n [])).
  2: { destruct n as [m|]; [|done]. cbn [nks_field fst snd]. by rewrite (IH m) by (done || lia). }
  erewrite (try_field _ _ (mkNksFields (Some k) p i g n w)) by (by destruct w).
  done.
Qed.

Lemma nks_back s :
  nks_ok s -> (nks_depth s <= MAX_SIG_NESTING_DEPTH)%nat -> decode_node_key_signature (nks_serialize s) = Ok s.
Proof.
  intros Hs Hd. destruct (nks_value_ok s true Hs) as [Hw Hdepth].
  unfold decode_node_key_signature, nks_serialize, decode_top. rewrite <- (app_nil_r (encode _)).
  rewrite decode_encode by (done || lia). cbn [mbind res_bind]. apply nks_value_back; [done|lia].
Qed.

(** ** What the record decoders accept *)

Lemma try_each_inv {S A} (f : S -> A -> res S) (P : S -> Prop) (Q : A -> Prop) s l s' :
  (forall s a s', P s -> Q a -> f s a = Ok s' -> P s') ->
  P s -> Forall Q l -> try_each f s l = Ok s' -> P s'.
Proof.
  intros Hf Hs Hl. revert s Hs. induction Hl as [|a l Ha _ IH]; intros s Hs E; cbn in E; [by simplify_eq|].
  destruct (f s a) as [|s1] eqn:E1; [done|]. eauto.
Qed.

Lemma collect_inv {A B} (f : A -> res B) (Q : A -> Prop) (P : B -> Prop) l bs :
  (forall a b, Q a -> f a = Ok b -> P b) -> Forall Q l -> collect f l = Ok bs ->
  Forall P bs /\ length bs = length l.
Proof.
  intros Hf Hl. revert bs. induction Hl as [|a l Ha _ IH]; intros bs E; cbn in E; [by simplify_eq|].
  destruct (f a) as [|b] eqn:E1; [done|]. cbn in E. destruct (collect f l) as [|bs'] eqn:E2; [done|].
  simplify_eq/=. destruct (IH bs') as [? ->]; [done|]. split; [|done]. constructor; eauto.
Qed.

(** [x ← m; k] that succeeds. *)
Ltac bind_ok E :=
  match type of E with
  | (?m ≫= _) = _ => let Em := fresh "Em" in destruct m eqn:Em; [discriminate E|cbn [mbind res_bind] in E]
  end.

Lemma ok_or_some {A} (o : option A) e a : ok_or o e = Ok a -> o = Some a.
Proof. destruct o; cbn; intros; by simplify_eq. Qed.

Lemma from_utf8_ok s w t : from_utf8 s w = Ok t -> t = s /\ utf8 s = true.
Proof. unfold from_utf8. destruct (utf8 s) eqn:E; intros; by simplify_eq. Qed.

Lemma meta_entries_ok es m :
  collect (fun kv : list Z * Value =>
    match kv.2 with
    | Text vbytes =>
        key ← from_utf8 kv.1 "meta key not utf-8";
        value ← from_utf8 vbytes "meta value not utf-8";
        Ok (key, value)
    | _ => Err (Decode "meta value not text")
    end) es = Ok m ->
  Forall (fun kv => u64_ok (len kv.1) /\ wire_ok kv.2) es ->
  m.*1 = es.*1 /\ Forall (fun kv => string_ok kv.1 /\ string_ok kv.2) m.
Proof.
  revert m. induction es as [|[k v] es IH]; intros m E Hf; cbn in E; [by simplify_eq|].
  apply Forall_cons in Hf as [[Hk Hv] Hf]. cbn in *. destruct v as [| | |t| | |]; try done.
  bind_ok E. bind_ok Em. bind_ok Em. simplify_eq/=. bind_ok E. simplify_eq/=.
  apply from_utf8_ok in Em0 as [-> Hu], Em1 as [-> Hu']. destruct (IH _ eq_refl Hf) as [E' Hf'].
  split; [cbn; by rewrite E'|]. constructor; [|done]. inversion Hv; subst. unfold string_ok. cbn. auto.
Qed.

Lemma meta_from_value_ok v m : wire_ok v -> meta_from_value v = Ok m -> meta_ok m.
Proof.
  intros Hv E. destruct v as [| | | | | |es]; try done. inversion Hv as [| | | | | |? Hl Hne Hnd Hf]; subst.
  cbn in E. destruct (meta_entries_ok _ _ E Hf) as [Ek Hm]. split_and!; [|by rewrite Ek|done].
  apply (f_equal length) in Ek. rewrite !length_fmap in Ek. unfold len in *. by rewrite Ek.
Qed.

Lemma expect_bytes_ok v b : wire_ok v -> expect_bytes v = Ok b -> u64_ok (len b).
Proof. intros Hv E. destruct v; simplify_eq/=. by inversion Hv. Qed.

Lemma expect_bytes_or_null_ok v b : wire_ok v -> expect_bytes_or_null v = Ok b -> u64_ok (len b).
Proof. intros Hv E. destruct v; simplify_eq/=; [done|]. by inversion Hv. Qed.

Lemma expect_uint_ok v n : wire_ok v -> expect_uint v = Ok n -> u64_ok n.
Proof. intros Hv E. destruct v; simplify_eq/=. by inversion Hv. Qed.

Lemma u32_try_inv n m : u64_ok n -> u32_try n = Some m -> u32_ok m.
Proof. unfold u32_try. intros [? _] E. case_decide; simplify_eq. split; lia. Qed.

Lemma hash_from_bytes_ok b h : aum_hash_from_bytes b = Ok h -> hash_ok h.
Proof.
  unfold aum_hash_from_bytes. destruct (Nat.eqb_spec (length b) AUM_HASH_LEN); intros; by simplify_eq.
Qed.

Lemma key_from_value_ok v k : wire_ok v -> key_from_value v = Ok k -> key_ok k.
Proof.
  intros Hv E. destruct v as [| | | | |es|]; try done. inversion Hv as [| | | | |? Hl Hnd Hf|]; subst.
  cbn in E. bind_ok E. destruct p as [[[kind votes] public] meta].
  eapply (try_each_inv _ (fun f => from_option u32_ok True f.1.1.2
    /\ from_option (fun b => u64_ok (len b)) True f.1.2 /\ meta_ok f.2)) in Em as (Hvo & Hp & Hm); [| | |exact Hf].
  - repeat (bind_ok E). apply ok_or_some in Em as ->, Em0 as ->, Em1 as ->. simplify_eq/=. by split.
  - clear. intros [[[kind votes] public] meta] [k v] f' (Hvo & Hp & Hm) [_ Hv] E.
    unfold key_field in E. cbn [fst snd] in *.
    repeat (case_match; try discriminate E); repeat (bind_ok E); simplify_eq/=; try done.
    all: repeat (case_match; try discriminate E); simplify_eq/=; split_and!; try done.
    all: eauto using expect_bytes_or_null_ok, meta_from_value_ok.
    apply ok_or_some in Em0. eapply u32_try_inv; [|done]. by eapply expect_uint_ok.
  - cbn. split_and!; try done. split; [done|]. split; constructor.
Qed.

Lemma state_from_value_ok v s : wire_ok v -> state_from_value v = Ok s -> state_ok s.
Proof.
  intros Hv E. destruct v as [| | | | |es|]; try done. inversion Hv as [| | | | |? Hl Hnd Hf|]; subst.
  cbn in E. eapply (try_each_inv _ state_ok); [| |exact Hf|exact E].
  - clear. intros [h ds ks i1 i2] [k v] s' [Hh Hd Hk H1 H2] [_ Hv] E.
    unfold state_field in E. cbn [fst snd] in *.
    repeat (case_match; try discriminate E); repeat (bind_ok E); simplify_eq/=; split; cbn; try done.
    all: eauto using expect_uint_ok, hash_from_bytes_ok.
    + inversion Hv as [| | | |? Hl Hf| |]; subst.
      eapply (collect_inv _ _ key_ok) in Em as [? El]; [|apply key_from_value_ok|done].
      unfold len in *. by rewrite El.
    + inversion Hv as [| | | |? Hl Hf| |]; subst.
      eapply (collect_inv _ _ (fun d => u64_ok (len d))) in Em as [? El]; [|apply expect_bytes_ok|done].
      unfold len in *. by rewrite El.
  - by split.
Qed.

Lemma signature_from_value_ok v s : wire_ok v -> signature_from_value v = Ok s -> signature_ok s.
Proof.
  intros Hv E. destruct v as [| | | | |es|]; try done. inversion Hv as [| | | | |? Hl Hnd Hf|]; subst.
  cbn in E. bind_ok E. destruct p as [id sg].
  eapply (try_each_inv _ (fun f => from_option (fun b => u64_ok (len b)) True f.1
    /\ from_option (fun b => u64_ok (len b)) True f.2)) in Em as [Hi Hs]; [| | |exact Hf].
  - repeat (bind_ok E). apply ok_or_some in Em as ->, Em0 as ->. simplify_eq/=. by split.
  - clear. intros [id sg] [k v] f' [Hi Hs] [_ Hv] E. unfold signature_field in E. cbn [fst snd] in *.
    repeat (case_match; try discriminate E); repeat (bind_ok E); simplify_eq/=; split; cbn; try done.
    all: eauto using expect_bytes_or_null_ok.
  - done.
Qed.

Lemma aum_from_cbor_ok buf a : bytes_ok buf -> u64_ok (len buf) -> aum_from_cbor buf = Ok a -> aum_ok a.
Proof.
  intros Hb Hl E. unfold aum_from_cbor in E. bind_ok E. destruct p as [v rest].
  pose proof (cbor_decode_ok _ _ _ Hb Hl Em) as Hv. clear Em. destruct rest; [|done].
  destruct v as [| | | | |es|]; try done. inversion Hv as [| | | | |? Hle Hnd Hf|]; subst. bind_ok E.
  eapply (try_each_inv _ (fun f => from_option hash_ok True (af_prev f)
    /\ from_option key_ok True (af_key f) /\ u64_ok (len (af_key_id f))
    /\ from_option state_ok True (af_state f) /\ from_option u32_ok True (af_votes f)
    /\ meta_ok (af_meta f) /\ u64_ok (len (af_signatures f)) /\ Forall signature_ok (af_signatures f)))
    in Em as (Hp & Hk & Hi & Hs & Hvo & Hm & Hg); [| | |exact Hf].
  - destruct (negb _); [done|]. bind_ok E. simplify_eq/=. by split.
  - clear. intros [kind prev have key kid state votes meta sigs] [k v] f' (Hp & Hk & Hi & Hs & Hvo & Hm & Hg) [_ Hv] E.
    unfold aum_field in E. cbn [fst snd] in *.
    repeat (case_match; try discriminate E); repeat (bind_ok E); simplify_eq/=; split_and!; try apply Hg; try done.
    all: eauto using expect_bytes_or_null_ok, meta_from_value_ok, key_from_value_ok, state_from_value_ok, hash_from_bytes_ok.
    + inversion Hv as [| | | |? Hl Hf| |]; subst.
      eapply (collect_inv _ _ signature_ok) in Em as [? El]; [|apply signature_from_value_ok|done].
      unfold len in *. by rewrite El.
    + inversion Hv as [| | | |? Hl Hf| |]; subst.
      eapply (collect_inv _ _ signature_ok) in Em as [? El]; [|apply signature_from_value_ok|done]. done.
    + apply ok_or_some in Em0. eapply u32_try_inv; [|done]. by eapply expect_uint_ok.
  - cbn. split_and!; try done. split; [done|]. split; constructor.
Qed.

Lemma nks_from_value_ok levels v s :
  wire_ok v -> nks_from_value levels v = Ok s -> nks_ok s /\ (S (nks_depth s) <= depth v)%nat.
Proof.
  revert v s. induction levels as [|levels IH]; intros v s Hv E; [done|]. cbn [nks_from_value] in E.
  destruct v as [| | | | |es|]; try done. inversion Hv as [| | | | |? Hl Hnd Hf|]; subst. bind_ok E.
  cbn [depth]. set (D := max_list ((fun kv => depth kv.2) <$> es)).
  assert (Forall (fun kv => wire_ok kv.2 /\ (depth kv.2 <= D)%nat) es) as HD.
  { apply Forall_forall. intros kv Hkv. rewrite Forall_forall in Hf. split; [by apply Hf|].
    apply max_list_elem_of_le, list_elem_of_fmap. eauto. }
  eapply (try_each_inv _ (fun f => (is_Some (nf_kind f) -> 1 <= D)%nat /\ u64_ok (len (nf_pubkey f))
    /\ u64_ok (len (nf_key_id f)) /\ u64_ok (len (nf_signature f)) /\ u64_ok (len (nf_wrapping f))
    /\ from_option (fun n => nks_ok n /\ S (nks_depth n) <= D)%nat True (nf_nested f)))
    in Em as (Hk & Hp & Hi & Hg & Hw & Hn); [| | |exact HD].
  - bind_ok E. apply ok_or_some in Em. rewrite Em in Hk. simplify_eq/=. specialize (Hk ltac:(eauto)).
    destruct (nf_nested n) as [m|]; cbn in *; split_and!; try done; try apply Hn; lia.
  - clear - IH. intros [kind pk kid sg nst wr] [k v] f' (Hk & Hp & Hi & Hg & Hw & Hn) [Hv Hd] E.
    unfold nks_field in E. cbn [fst snd] in *.
    repeat (case_match; try discriminate E); repeat (bind_ok E); simplify_eq/=; split_and!; try done.
    all: eauto using expect_bytes_ok; try (intros _; exact Hd).
    all: destruct (IH _ _ Hv Em) as [? ?]; first [done|lia].
  - cbn. by split_and!.
Qed.

Lemma nks_decode_ok buf s :
  bytes_ok buf -> u64_ok (len buf) -> decode_node_key_signature buf = Ok s ->
  nks_ok s /\ (nks_depth s <= MAX_SIG_NESTING_DEPTH)%nat.
Proof.
  intros Hb Hl E. unfold decode_node_key_signature in E. bind_ok E. destruct p as [v rest].
  destruct (decode_value_types _ _ _ _ Hb Hl Em) as [Hv Hd]. destruct rest; [|done].
  destruct (nks_from_value_ok _ _ _ Hv E). split; [done|lia].
Qed.

(** ** Theorems *)

(** C34: An authority update message reads back from its serialisation as itself
    with the metadata of the message and of its keys in wire order; that form has
    the same bytes, so the same hash and the same signing digest.  Whatever bytes
    the decoder accepts give a well-formed message, and so one with these
    properties. *)
Theorem aum_roundtrip `{TkaCrypto} (a b : Aum) (buf : list Z) :
  aum_ok a -> bytes_ok buf -> u64_ok (len buf) -> aum_from_cbor buf = Ok b ->
  aum_from_cbor (aum_serialize a) = Ok (aum_canon a)
  /\ aum_serialize (aum_canon a) = aum_serialize a
  /\ hash (aum_canon a) = hash a /\ aum_sig_hash (aum_canon a) = aum_sig_hash a
  /\ aum_ok b /\ aum_from_cbor (aum_serialize b) = Ok (aum_canon b).
Proof.
  intros Ha Hb Hl E. pose proof (aum_from_cbor_ok _ _ Hb Hl E) as Hok. split_and!.
  - by apply aum_back.
  - apply aum_canon_serialize.
  - unfold hash. by rewrite aum_canon_serialize.
  - unfold aum_sig_hash. by rewrite <- encode_canon, canon_aum, encode_canon.
  - done.
  - by apply aum_back.
Qed.

(** A node-key signature with at most 16 signatures in its chain reads back
    from its serialisation unchanged, and every signature the decoder accepts is
    of that kind: chains of 17 or more are refused. *)
Theorem nks_roundtrip (s : NodeKeySignature) (buf : list Z) (t : NodeKeySignature) :
  nks_ok s -> (nks_depth s <= 16)%nat ->
  bytes_ok buf -> u64_ok (len buf) -> decode_node_key_signature buf = Ok t ->
  decode_node_key_signature (nks_serialize s) = Ok s
  /\ nks_ok t /\ (nks_depth t <= 16)%nat /\ decode_node_key_signature (nks_serialize t) = Ok t.
Proof.
  intros Hs Hd Hb Hl E. destruct (nks_decode_ok _ _ Hb Hl E) as [Ht Hdt].
  split_and!; [by apply nks_back|done|done|by apply nks_back].
Qed.

(** A hash reads back from its text. *)
Lemma base32_roundtrip (h : AumHash) : bytes_ok h -> hash_ok h -> from_base32 (to_base32 h) = Some h.
Proof.
  intros Hb Hh. unfold from_base32, to_base32. rewrite base32_decode_encode by done. cbn. by rewrite Hh.
Qed.

(** ** Witnesses *)

(** Concrete primitives: a polynomial hash, and signatures anyone can check. *)
Module ToyTka.

Definition poly (data : list Z) : list Z :=
  le_bytes 32 (foldl (fun h b => (h * 257 + b + 1) mod 2 ^ 256) 7 data).

Definition pub (sk : Z) : list Z := replicate 32 (sk mod 256).

Definition checks (pk msg sig : list Z) : bool := bool_decide (sig = pk ++ poly msg).

#[export] Instance toy_tka : TkaCrypto := {|
  SigningKey := Z;
  blake2s := poly;
  ed_public := pub;
  ed_sign := fun sk msg => pub sk ++ poly msg;
  std_key_ok := fun _ => true;
  std_verify := checks;
  zip_key_ok := fun _ => true;
  zip_verify := checks;
|}.

Lemma pub_bytes sk : bytes_ok (pub sk).
Proof. apply Forall_replicate, u8_mod. Qed.

#[export] Instance toy_tka_laws : TkaCryptoLaws.
Proof.
  split; cbn [blake2s ed_public ed_sign std_key_ok std_verify zip_key_ok zip_verify toy_tka].
  - intros. apply length_le_bytes.
  - intros. apply le_bytes_ok.
  - done.
  - apply pub_bytes.
  - intros. rewrite length_app. unfold pub, poly. by rewrite length_replicate, length_le_bytes.
  - intros. apply bytes_ok_app. split; [apply pub_bytes|apply le_bytes_ok].
  - intros. split; [done|]. by apply bool_decide_eq_true.
  - intros. split; [done|]. by apply bool_decide_eq_true.
Qed.

(** A key with metadata out of order, in a checkpoint. *)
Definition demo_key : AumKey := mkAumKey Ed25519 5 (replicate 32 9) [([98; 98], [33]); ([97], [104; 105])].

Definition demo_aum : Aum :=
  mkAum Checkpoint None None [] (Some (mkAumState None (Some [replicate 32 1]) (Some [demo_key]) 3 0))
    None [] [mkAumSignature (replicate 32 9) (replicate 64 8)].

Definition demo_nks : NodeKeySignature :=
  mkNks Rotation (replicate 32 4) [] (replicate 64 3)
    (Some (mkNks Direct (replicate 32 5) (replicate 32 9) (replicate 64 2) None (replicate 32 5))) [].

Lemma demo_aum_back : aum_from_cbor (aum_serialize demo_aum) = Ok (aum_canon demo_aum).
Proof. vm_compute. reflexivity. Qed.

Lemma demo_aum_ok : aum_ok demo_aum.
Proof.
  assert (meta_ok (ak_meta demo_key)) as Hm.
  { split; [by split; vm_compute|]. split; [|repeat (constructor; [split; (split; [done|by split; vm_compute])|]); constructor].
    cbn. rewrite !NoDup_cons, !elem_of_cons, !elem_of_nil. split_and!; [naive_solver|naive_solver|constructor]. }
  split; cbn [prev_aum_hash aum_key aum_key_id aum_state aum_votes aum_meta aum_signatures demo_aum from_option].
  - exact I.
  - exact I.
  - by split; vm_compute.
  - split; cbn [as_last_aum_hash as_disablement_values as_keys as_state_id1 as_state_id2 from_option].
    + exact I.
    + split; [by split; vm_compute|]. constructor; [by split; vm_compute|constructor].
    + split; [by split; vm_compute|]. constructor; [|constructor].
      split; [by split; vm_compute|by split; vm_compute|exact Hm].
    + by split; vm_compute.
    + by split; vm_compute.
  - exact I.
  - split; [by split; vm_compute|]. split; constructor.
  - split; [by split; vm_compute|]. constructor; [|constructor]. split; by split; vm_compute.
Qed.
End ToyTka.

#[local] Existing Instance ToyTka.toy_tka.

Lemma aum_roundtrip_witness :
  aum_from_cbor (aum_serialize ToyTka.demo_aum) = Ok (aum_canon ToyTka.demo_aum)
  /\ aum_serialize (aum_canon ToyTka.demo_aum) = aum_serialize ToyTka.demo_aum
  /\ hash (aum_canon ToyTka.demo_aum) = hash ToyTka.demo_aum
  /\ aum_sig_hash (aum_canon ToyTka.demo_aum) = aum_sig_hash ToyTka.demo_aum
  /\ aum_ok (aum_canon ToyTka.demo_aum)
  /\ aum_from_cbor (aum_serialize (aum_canon ToyTka.demo_aum)) = Ok (aum_canon (aum_canon ToyTka.demo_aum)).
Proof.
  apply (aum_roundtrip ToyTka.demo_aum _ (aum_serialize ToyTka.demo_aum)).
  - apply ToyTka.demo_aum_ok.
  - apply bytes_ok_eval. vm_compute. reflexivity.
  - by split; vm_compute.
  - apply ToyTka.demo_aum_back.
Defined.

Lemma nks_roundtrip_witness :
  decode_node_key_signature (nks_serialize ToyTka.demo_nks) = Ok ToyTka.demo_nks
  /\ nks_ok ToyTka.demo_nks /\ (nks_depth ToyTka.demo_nks <= 16)%nat
  /\ decode_node_key_signature (nks_serialize ToyTka.demo_nks) = Ok ToyTka.demo_nks.
Proof.
  apply (nks_roundtrip ToyTka.demo_nks (nks_serialize ToyTka.demo_nks)).
  - repeat (split; [by split; vm_compute|]). repeat (split; [by split; vm_compute|]). done.
  - cbn. lia.
  - apply bytes_ok_eval. vm_compute. reflexivity.
  - by split; vm_compute.
  - vm_compute. reflexivity.
Defined.
