(* ===== verification/TkaAuth.v ===== *)
(** * TkaAuth: which node keys an authority lets in (src/ts_tka/src/lib.rs)

    Node-key signatures, how they are made and verified, and
    [Authority::node_key_authorized], which decides whether a peer's node key is
    signed by a key the tailnet trusts. *)

From stdpp Require Import list strings.
From S2P Require Import Prelude Bytes Cbor TkaWire.

Local Open Scope Z_scope.

(** ** Trusted keys *)

Record Key := mkKey {
  k_kind : KeyKind;
  k_votes : Z;
  k_public : list Z;
}.

Definition key_id_of (k : Key) : list Z := k_public k.

(** [State] *)
Record State := mkState { st_keys : list Key }.

(** [Iterator::find] *)
Definition find_first {A} (p : A -> bool) (l : list A) : option A := snd <$> list_find p l.

Definition state_get_key (s : State) (key_id : list Z) : option Key :=
  find_first (fun k => bool_decide (key_id_of k = key_id)) (st_keys s).

Record Authority := mkAuthority {
  au_head : AumHash;
  au_state : State;
}.

Definition from_state (head : AumHash) (state : State) : Authority := mkAuthority head state.

Definition head_matches (a : Authority) (head : AumHash) : bool := bool_decide (au_head a = head).

Definition key_trusted (a : Authority) (key_id : list Z) : bool :=
  match state_get_key (au_state a) key_id with Some _ => true | None => false end.

Record RotationDetails := mkRotationDetails {
  prev_node_keys : list (list Z);
  initial_sig_kind : SigKind;
  initial_wrapping_pubkey : list Z;
}.

(** ** Signatures *)

(** The [while let] loop of [rotation_details], from the signature [n]: the keys
    and the last signature it looks at. *)
Fixpoint rotation_walk (n : NodeKeySignature) (prev : list (list Z)) :
    res (list (list Z) * NodeKeySignature) :=
  prev ← match nks_pubkey n with
         | [] => Ok prev
         | _ => if (length (nks_pubkey n) =? 32)%nat then Ok (prev ++ [nks_pubkey n])
                else Err (Decode "nested rotation pubkey wrong length")
         end;
  match sig_kind n, nested n with
  | Rotation, Some m => rotation_walk m prev
  | _, _ => Ok (prev, n)
  end.

Definition rotation_details (s : NodeKeySignature) : res (option RotationDetails) :=
  match sig_kind s, nested s with
  | Rotation, Some n =>
      '(prev, initial) ← rotation_walk n [];
      Ok (Some (mkRotationDetails prev (sig_kind initial) (wrapping_pubkey initial)))
  | _, _ => Ok None
  end.

Fixpoint authorizing_key_id (s : NodeKeySignature) : res (list Z) :=
  match sig_kind s with
  | Rotation =>
      match nested s with
      | Some n => authorizing_key_id n
      | None => Err (Decode "rotation signature missing nested")
      end
  | Direct | Credential => Ok (nks_key_id s)
  | SigInvalid => Err (Decode "invalid signature kind")
  end.

Fixpoint wrapping_public (s : NodeKeySignature) : option (list Z) :=
  match wrapping_pubkey s with
  | _ :: _ => Some (wrapping_pubkey s)
  | [] =>
      match sig_kind s, nested s with
      | Rotation, Some n => wrapping_public n
      | _, _ => None
      end
  end.

Section Auth.
Context `{TkaCrypto}.

Definition verify_ed25519_std (public msg sig : list Z) : res unit :=
  if negb (length public =? 32)%nat then Err (Decode "bad pubkey len")
  else if negb (std_key_ok public) then Err (Decode "bad ed25519 pubkey")
  else if negb (length sig =? 64)%nat then Err (Decode "bad sig len")
  else if std_verify public msg sig then Ok tt else Err BadSignature.

Definition verify_ed25519_zip215 (public msg sig : list Z) : res unit :=
  if negb (length public =? 32)%nat then Err (Decode "bad pubkey len")
  else if negb (zip_key_ok public) then Err (Decode "bad ed25519 pubkey")
  else if negb (length sig =? 64)%nat then Err (Decode "bad sig len")
  else if zip_verify public msg sig then Ok tt else Err BadSignature.

(** [NodeKeySignature::verify_signature] *)
Fixpoint verify_signature (s : NodeKeySignature) (node_key : list Z) (verification_key : Key) : res unit :=
  if bool_decide (sig_kind s <> Credential) && bool_decide (nks_pubkey s <> node_key)
  then Err NodeKeyMismatch
  else
    match sig_kind s with
    | Rotation =>
        match nested s with
        | None => Err (Decode "rotation signature missing nested")
        | Some n =>
            verify_pub ← ok_or (wrapping_public n) (Decode "missing rotation key");
            if negb (length verify_pub =? 32)%nat then Err (Decode "wrapping pubkey wrong length")
            else
              _ ← verify_ed25519_std verify_pub (nks_sig_hash s) (nks_signature s);
              let nested_node_key := match sig_kind n with Credential => [] | _ => nks_pubkey n end in
              verify_signature n nested_node_key verification_key
        end
    | Direct | Credential =>
        match nested s with
        | Some _ => Err (Decode "direct/credential signature has nested")
        | None =>
            if bool_decide (k_kind verification_key <> Ed25519)
               || negb (length (k_public verification_key) =? 32)%nat
            then Err (Decode "verification key not ed25519")
            else verify_ed25519_zip215 (k_public verification_key) (nks_sig_hash s) (nks_signature s)
        end
    | SigInvalid => Err (Decode "invalid signature kind")
    end.

Definition set_signature (s : NodeKeySignature) (sig : list Z) : NodeKeySignature :=
  mkNks (sig_kind s) (nks_pubkey s) (nks_key_id s) sig (nested s) (wrapping_pubkey s).

Definition sign_direct (node_key : list Z) (signing_key : SigningKey) : NodeKeySignature :=
  let sig := mkNks Direct node_key (ed_public signing_key) [] None [] in
  set_signature sig (ed_sign signing_key (nks_sig_hash sig)).

Definition sign_rotation (node_key : list Z) (inner_signer pivot_key : SigningKey) : NodeKeySignature :=
  let pivot_pub := ed_public pivot_key in
  let inner := mkNks Direct pivot_pub (ed_public inner_signer) [] None pivot_pub in
  let inner := set_signature inner (ed_sign inner_signer (nks_sig_hash inner)) in
  let sig := mkNks Rotation node_key [] [] (Some inner) [] in
  set_signature sig (ed_sign pivot_key (nks_sig_hash sig)).

Definition node_key_authorized_with_details (a : Authority) (node_key signature_cbor : list Z) :
    res (option RotationDetails) :=
  sig ← decode_node_key_signature signature_cbor;
  match sig_kind sig with
  | Credential => Err CredentialCannotAuthorize
  | _ =>
      key_id ← authorizing_key_id sig;
      key ← ok_or (state_get_key (au_state a) key_id) UntrustedKey;
      _ ← verify_signature sig node_key key;
      rotation_details sig
  end.

Definition node_key_authorized (a : Authority) (node_key signature_cbor : list Z) : res unit :=
  _ ← node_key_authorized_with_details a node_key signature_cbor; Ok tt.
End Auth.

(** ** What a signature says *)

(** The signatures from the outermost to the one that is not a rotation. *)
Fixpoint links (s : NodeKeySignature) : list NodeKeySignature :=
  s :: match sig_kind s, nested s with
       | Rotation, Some n => links n
       | _, _ => []
       end.

(** The first wrapping key of a chain. *)
Fixpoint first_wrapping (ls : list NodeKeySignature) : option (list Z) :=
  match ls with
  | [] => None
  | l :: ls => match wrapping_pubkey l with [] => first_wrapping ls | w => Some w end
  end.

Section Spec.
Context `{TkaCrypto}.

Definition std_valid (public msg sig : list Z) : Prop :=
  length public = 32%nat /\ std_key_ok public = true /\ length sig = 64%nat /\ std_verify public msg sig = true.

Definition zip_valid (public msg sig : list Z) : Prop :=
  length public = 32%nat /\ zip_key_ok public = true /\ length sig = 64%nat /\ zip_verify public msg sig = true.

(** Every rotation of the chain is signed by the wrapping key the signatures
    inside it name. *)
Definition rotations_signed (ls : list NodeKeySignature) : Prop :=
  forall i l, ls !! i = Some l -> sig_kind l = Rotation ->
    exists p, first_wrapping (drop (S i) ls) = Some p /\ std_valid p (nks_sig_hash l) (nks_signature l).

(** The innermost signature is direct or a credential, and [key]'s. *)
Definition rooted (key : Key) (ls : list NodeKeySignature) : Prop :=
  exists root, last ls = Some root /\ (sig_kind root = Direct \/ sig_kind root = Credential)
    /\ nested root = None /\ zip_valid (k_public key) (nks_sig_hash root) (nks_signature root).

Lemma std_valid_iff p m s : verify_ed25519_std p m s = Ok tt <-> std_valid p m s.
Proof.
  unfold verify_ed25519_std, std_valid.
  destruct (Nat.eqb_spec (length p) 32), (std_key_ok p), (Nat.eqb_spec (length s) 64), (std_verify p m s);
    cbn; split; try done; naive_solver.
Qed.

Lemma zip_valid_iff p m s : verify_ed25519_zip215 p m s = Ok tt <-> zip_valid p m s.
Proof.
  unfold verify_ed25519_zip215, zip_valid.
  destruct (Nat.eqb_spec (length p) 32), (zip_key_ok p), (Nat.eqb_spec (length s) 64), (zip_verify p m s);
    cbn; split; try done; naive_solver.
Qed.

Lemma wrapping_public_links s : wrapping_public s = first_wrapping (links s).
Proof.
  induction s as [k p i g n w IH] using nks_ind'. cbn. destruct w; [|done].
  destruct k; try done. destruct n as [m|]; [|done]. by apply IH.
Qed.

Lemma links_last s : exists l, last (links s) = Some l.
Proof.
  destruct (last (links s)) eqn:E; [eauto|]. apply last_None in E. by destruct s.
Qed.

Lemma rotations_signed_cons s ls :
  rotations_signed (s :: ls)
  <-> (sig_kind s = Rotation -> exists p, first_wrapping ls = Some p
        /\ std_valid p (nks_sig_hash s) (nks_signature s)) /\ rotations_signed ls.
Proof.
  split.
  - intros Hr. split; [intros Hk; by apply (Hr 0%nat)|]. intros i l. apply (Hr (S i)).
  - intros [H0 Hr] [|i] l Hl Hk; cbn in Hl; [simplify_eq; by apply H0|by apply (Hr i)].
Qed.

Lemma rooted_one key s :
  rooted key [s] <-> (sig_kind s = Direct \/ sig_kind s = Credential) /\ nested s = None
    /\ zip_valid (k_public key) (nks_sig_hash s) (nks_signature s).
Proof. unfold rooted. cbn. split; [intros (? & [= <-] & ?)|intros ?; eexists]; naive_solver. Qed.

Lemma rotations_signed_one s : sig_kind s <> Rotation -> rotations_signed [s].
Proof. intros Hk. apply rotations_signed_cons. by split. Qed.

Lemma rooted_links key s m : rooted key (s :: links m) <-> rooted key (links m).
Proof. unfold rooted. destruct m; done. Qed.

(** A signature that is not a rotation. *)
Lemma verify_leaf_iff s key :
  sig_kind s = Direct \/ sig_kind s = Credential ->
  match nested s with
  | Some _ => Err (Decode "direct/credential signature has nested")
  | None =>
      if bool_decide (k_kind key <> Ed25519) || negb (length (k_public key) =? 32)%nat
      then Err (Decode "verification key not ed25519")
      else verify_ed25519_zip215 (k_public key) (nks_sig_hash s) (nks_signature s)
  end = Ok tt <-> rooted key [s].
Proof.
  intros Hk. rewrite rooted_one. destruct (nested s); [naive_solver|].
  destruct (k_kind key). rewrite bool_decide_false by naive_solver. cbn [orb].
  destruct (Nat.eqb_spec (length (k_public key)) 32) as [El|El]; cbn [negb].
  - rewrite zip_valid_iff. naive_solver.
  - split; [done|]. intros (_ & _ & ? & _). done.
Qed.

Lemma verify_signature_iff s node_key key :
  verify_signature s node_key key = Ok tt
  <-> (sig_kind s <> Credential -> nks_pubkey s = node_key)
      /\ rotations_signed (links s) /\ rooted key (links s).
Proof.
  revert node_key. induction s as [k p i g n w IH] using nks_ind'. intros nk.
  cbn [verify_signature sig_kind nks_pubkey nested].
  assert (bool_decide (k <> Credential) && bool_decide (p <> nk) = true <-> ~ (k <> Credential -> p = nk)) as Hg.
  { rewrite andb_true_iff, !bool_decide_eq_true. split; [naive_solver|].
    intros Hn. split; intros E; destruct Hn; naive_solver. }
  destruct (bool_decide (k <> Credential) && _).
  { split; [done|]. intros [E _]. by destruct (proj1 Hg eq_refl). }
  assert (k <> Credential -> p = nk) as Hpk by (destruct (decide (p = nk)); [done|]; intros ?; tauto || naive_solver).
  clear Hg.
  destruct k; cbn [links sig_kind nested].
  - rewrite rooted_one. naive_solver.
  - rewrite (verify_leaf_iff (mkNks _ p i g n w)) by auto.
    pose proof (rotations_signed_one (mkNks Direct p i g n w)). naive_solver.
  - destruct n as [m|].
    2: { rewrite rotations_signed_cons. naive_solver. }
    rewrite rotations_signed_cons, rooted_links, wrapping_public_links. cbn [sig_kind nks_signature].
    destruct (first_wrapping (links m)) as [q|]; cbn [ok_or mbind res_bind].
    2: { split; [done|]. intros (_ & [Hs _] & _). by destruct (Hs eq_refl) as (? & ? & _). }
    destruct (Nat.eqb_spec (length q) 32) as [Eq|Eq]; cbn [negb].
    2: { split; [done|]. intros (_ & [Hs _] & _). by destruct (Hs eq_refl) as (? & [= <-] & ? & _). }
    destruct (verify_ed25519_std q _ _) as [e|[]] eqn:Ev; cbn [mbind res_bind].
    { split; [done|]. intros (_ & [Hs _] & _). destruct (Hs eq_refl) as (? & [= <-] & Hv).
      apply std_valid_iff in Hv. congruence. }
    apply std_valid_iff in Ev. rewrite (IH m eq_refl). split.
    + intros (_ & Hr & Ho). split_and!; [done|eauto|done|done].
    + intros (_ & [_ Hr] & Ho). split_and!; [|done|done]. by destruct (sig_kind m).
  - rewrite (verify_leaf_iff (mkNks _ p i g n w)) by auto.
    pose proof (rotations_signed_one (mkNks Credential p i g n w)). naive_solver.
Qed.

Lemma authorizing_key_id_links s root :
  last (links s) = Some root -> sig_kind root = Direct \/ sig_kind root = Credential ->
  authorizing_key_id s = Ok (nks_key_id root).
Proof.
  induction s as [k p i g n w IH] using nks_ind'. cbn [links sig_kind nested authorizing_key_id nks_key_id].
  destruct k; cbn; try (intros [= <-]; cbn; naive_solver).
  destruct n as [m|]; [|intros [= <-]; cbn; naive_solver].
  intros El. apply (IH m eq_refl). by destruct m.
Qed.

(** The nested signatures carry node keys, or none. *)
Definition node_keys_ok (ls : list NodeKeySignature) : Prop :=
  Forall (fun l => nks_pubkey l = [] \/ length (nks_pubkey l) = 32%nat) ls.

Definition nonempty_keys (ls : list NodeKeySignature) : list (list Z) :=
  filter (fun k => k <> []) (nks_pubkey <$> ls).

Lemma nonempty_keys_cons s ls : nonempty_keys (s :: ls) = nonempty_keys [s] ++ nonempty_keys ls.
Proof. unfold nonempty_keys. cbn [fmap list_fmap]. rewrite <- filter_app. done. Qed.

Lemma last_links_cons s m : last (s :: links m) = last (links m).
Proof. by destruct m. Qed.

Lemma rotation_walk_iff n prev prev' root :
  rotation_walk n prev = Ok (prev', root)
  <-> node_keys_ok (links n) /\ prev' = prev ++ nonempty_keys (links n) /\ last (links n) = Some root.
Proof.
  revert prev prev' root. induction n as [k p i g n w IH] using nks_ind'. intros prev prev' root.
  cbn [rotation_walk]. set (s := mkNks k p i g n w). change (nks_pubkey s) with p.
  match goal with |- (?m ≫= _) = _ <-> _ => destruct m as [e|prev1] eqn:E end; cbn [mbind res_bind].
  { split; [done|]. intros (Hf & _). exfalso. destruct p as [|x p]; [done|].
    destruct (Nat.eqb_spec (length (x :: p)) 32); [done|]. subst s. destruct k, n; by inversion Hf; naive_solver. }
  assert ((p = [] \/ length p = 32%nat) /\ prev1 = prev ++ nonempty_keys [s]) as [Hp ->].
  { destruct p as [|x p]; [simplify_eq; rewrite app_nil_r; auto|].
    destruct (Nat.eqb_spec (length (x :: p)) 32); [|done]. simplify_eq. auto. }
  clear E. assert (forall prev' root, Ok (prev ++ nonempty_keys [s], s) = Ok (prev', root) <->
    node_keys_ok [s] /\ prev' = prev ++ nonempty_keys [s] /\ last [s] = Some root) as Hone.
  { intros. unfold node_keys_ok. rewrite Forall_singleton. cbn [last]. split; [intros [= <- <-]|intros (_ & -> & [= <-])]; auto. }
  destruct k; cbn [s sig_kind nested links]; try apply Hone. destruct n as [m|]; [|apply Hone].
  rewrite (IH m eq_refl), (nonempty_keys_cons _ (links m)), app_assoc. unfold node_keys_ok. rewrite Forall_cons.
  rewrite last_links_cons. split; [intros (? & ? & ?)|intros ([_ ?] & ? & ?)]; auto.
Qed.

(** ** Trusted keys by their ids *)

Lemma find_first_some {A} (p : A -> bool) l a : find_first p l = Some a -> a ∈ l /\ p a = true.
Proof.
  unfold find_first. intros ([i b] & E & ->)%fmap_Some. apply list_find_Some in E as (E & Hp & _).
  split; [by eapply list_elem_of_lookup_2|by apply Is_true_eq_true].
Qed.

Lemma find_first_none {A} (p : A -> bool) l : find_first p l = None -> forall a, a ∈ l -> p a = false.
Proof.
  unfold find_first. intros E%fmap_None. apply list_find_None in E. intros a Ha.
  rewrite Forall_forall in E. specialize (E a Ha). by destruct (p a).
Qed.

Lemma state_get_key_public st id key : state_get_key st id = Some key -> k_public key = id.
Proof. intros [_ E]%find_first_some. by apply bool_decide_eq_true in E. Qed.

(** A key is trusted exactly when one of the keys of the state has its id. *)
Lemma key_trusted_iff a id : key_trusted a id = true <-> id ∈ k_public <$> st_keys (au_state a).
Proof.
  unfold key_trusted, state_get_key. rewrite list_elem_of_fmap.
  destruct (find_first _ _) as [k|] eqn:E.
  - apply find_first_some in E as [Hk E]. apply bool_decide_eq_true in E. naive_solver.
  - split; [done|]. intros (k & -> & Hk). pose proof (find_first_none _ _ E k Hk) as Hf.
    apply bool_decide_eq_false in Hf. done.
Qed.

(** ** Theorems *)

(** What the nested signatures say of a verified chain. *)
Definition details_of (s root : NodeKeySignature) : option RotationDetails :=
  match tail (links s) with
  | [] => None
  | ls => Some (mkRotationDetails (nonempty_keys ls) (sig_kind root) (wrapping_pubkey root))
  end.

(** A chain that lets [node_key] in: the outermost signature names it and is not
    a credential, every rotation is signed by the wrapping key inside it, the
    innermost is a direct signature or a credential of a trusted key, and the
    rotated keys are keys. *)
Definition lets_in (a : Authority) (node_key : list Z) (s root : NodeKeySignature) : Prop :=
  sig_kind s <> Credential /\ nks_pubkey s = node_key
  /\ last (links s) = Some root /\ (sig_kind root = Direct \/ sig_kind root = Credential)
  /\ nested root = None /\ nks_key_id root ∈ k_public <$> st_keys (au_state a)
  /\ zip_valid (nks_key_id root) (nks_sig_hash root) (nks_signature root)
  /\ rotations_signed (links s) /\ node_keys_ok (tail (links s)).

Lemma rotation_details_iff s root d :
  last (links s) = Some root -> sig_kind root <> Rotation ->
  rotation_details s = Ok d <-> node_keys_ok (tail (links s)) /\ d = details_of s root.
Proof.
  destruct s as [k p i g n w]. unfold rotation_details, details_of. cbn [links sig_kind nested tail].
  assert (forall e, Ok None = Ok e <-> node_keys_ok [] /\ e = None :> option RotationDetails) as Hnil.
  { intros e. split; [intros [= <-]|intros [_ ->]]; split; constructor. }
  intros Hl Hk. destruct k; try apply Hnil. destruct n as [m|]; [|apply Hnil].
  rewrite last_links_cons in Hl. destruct (links m) as [|l ls] eqn:Em; [by destruct m|]. rewrite <- Em in *.
  destruct (rotation_walk m []) as [e|[prev root']] eqn:E; cbn [mbind res_bind].
  - split; [done|]. intros [Hf ->]. enough (rotation_walk m [] = Ok (nonempty_keys (links m), root)) by congruence.
    by apply rotation_walk_iff.
  - apply rotation_walk_iff in E as (Hf & -> & E). assert (root' = root) as -> by congruence. cbn [app].
    rewrite Em in *. split; [intros [= <-]|intros [_ ->]]; done.
Qed.

Lemma trusted_get_key a id :
  id ∈ k_public <$> st_keys (au_state a) -> exists key, state_get_key (au_state a) id = Some key.
Proof. intros Hid. apply key_trusted_iff in Hid. unfold key_trusted in Hid. case_match; [eauto|done]. Qed.

Lemma authorized_details_iff a node_key cbor d :
  node_key_authorized_with_details a node_key cbor = Ok d
  <-> exists s root, decode_node_key_signature cbor = Ok s /\ lets_in a node_key s root
        /\ d = details_of s root.
Proof.
  unfold node_key_authorized_with_details.
  destruct (decode_node_key_signature cbor) as [e|s]; cbn [mbind res_bind]; [naive_solver|].
  destruct (decide (sig_kind s = Credential)) as [Ek|Ek].
  { rewrite Ek. split; [done|]. intros (? & ? & [= <-] & [? _] & _). done. }
  assert (forall X Y : res (option RotationDetails),
    match sig_kind s with Credential => Y | _ => X end = X) as Hm by (intros; by destruct (sig_kind s)).
  rewrite Hm. clear Hm.
  split.
  - intros E. repeat bind_ok E. apply ok_or_some in Em0. destruct u.
    apply verify_signature_iff in Em1 as (Hp & Hr & root & Hl & Hk & Hn & Hz).
    rewrite (authorizing_key_id_links _ _ Hl Hk) in Em. injection Em as <-.
    pose proof (state_get_key_public _ _ _ Em0) as Epub. rewrite Epub in Hz.
    apply (rotation_details_iff _ _ _ Hl) in E as [Hnk ->]; [|by destruct Hk as [->| ->]].
    exists s, root. split_and!; [done| |done]. unfold lets_in. split_and!; auto.
    apply key_trusted_iff. unfold key_trusted. by rewrite Em0.
  - intros (s' & root & [= <-] & (_ & Hp & Hl & Hk & Hn & Ht & Hz & Hr & Hnk) & ->).
    rewrite (authorizing_key_id_links _ _ Hl Hk). cbn [mbind res_bind].
    destruct (trusted_get_key _ _ Ht) as [key Ekey]. rewrite Ekey. cbn [ok_or mbind res_bind].
    rewrite (proj2 (verify_signature_iff s node_key key)).
    + cbn [mbind res_bind]. apply (rotation_details_iff _ _ _ Hl); [by destruct Hk as [->| ->]|done].
    + split_and!; [done|done|]. exists root. split_and!; try done.
      by rewrite (state_get_key_public _ _ _ Ekey).
Qed.

(** C14: A node key is let in exactly when the signature that comes with it
    decodes to a chain whose outermost signature names that key and is no
    credential, whose rotations are each signed by the wrapping key named inside
    them, and whose innermost signature is a direct signature or a credential
    made by a key of the authority's trusted set; the details given back are the
    rotated-away keys and the kind and wrapping key of the innermost signature. *)
Theorem node_key_authorized_iff (a : Authority) (node_key cbor : list Z) (d : option RotationDetails) :
  (node_key_authorized_with_details a node_key cbor = Ok d
   <-> exists s root, decode_node_key_signature cbor = Ok s /\ lets_in a node_key s root
         /\ d = details_of s root)
  /\ (node_key_authorized a node_key cbor = Ok tt
      <-> exists s root, decode_node_key_signature cbor = Ok s /\ lets_in a node_key s root).
Proof.
  split; [apply authorized_details_iff|]. unfold node_key_authorized.
  destruct (node_key_authorized_with_details a node_key cbor) as [e|d'] eqn:E; cbn [mbind res_bind].
  - split; [done|]. intros (s & root & Es & Hs).
    pose proof (proj2 (authorized_details_iff a node_key cbor (details_of s root)) ltac:(eauto 10)). congruence.
  - split; [|done]. intros _. apply authorized_details_iff in E as (s & root & ? & ? & _). eauto.
Qed.
End Spec.

(** ** Signing *)

Section Signing.
Context `{TkaCryptoLaws}.

Lemma ed_sign_zip_valid sk msg : zip_valid (ed_public sk) msg (ed_sign sk msg).
Proof.
  destruct (ed_sign_zip sk msg). unfold zip_valid. by rewrite ed_public_len, ed_sign_len.
Qed.

Lemma ed_sign_std_valid sk msg : std_valid (ed_public sk) msg (ed_sign sk msg).
Proof.
  destruct (ed_sign_std sk msg). unfold std_valid. by rewrite ed_public_len, ed_sign_len.
Qed.

Lemma u64_len_small (l : list Z) n : length l = n -> (n < 100)%nat -> u64_ok (len l).
Proof. unfold u64_ok, len. lia. Qed.

Lemma sign_direct_back nk sk :
  u64_ok (len nk) -> decode_node_key_signature (nks_serialize (sign_direct nk sk)) = Ok (sign_direct nk sk).
Proof.
  intros Hnk. apply nks_back; [|cbn; unfold MAX_SIG_NESTING_DEPTH; lia]. cbn. split_and!; try done.
  - eapply u64_len_small; [apply ed_public_len|lia].
  - eapply u64_len_small; [apply ed_sign_len|lia].
Qed.

Lemma sign_rotation_back nk sk pivot :
  u64_ok (len nk) ->
  decode_node_key_signature (nks_serialize (sign_rotation nk sk pivot)) = Ok (sign_rotation nk sk pivot).
Proof.
  intros Hnk. apply nks_back; [|cbn; unfold MAX_SIG_NESTING_DEPTH; lia]. cbn. split_and!; try done.
  all: eapply u64_len_small; [apply ed_public_len || apply ed_sign_len|lia].
Qed.

Lemma sign_direct_lets_in a nk sk :
  key_trusted a (ed_public sk) = true -> lets_in a nk (sign_direct nk sk) (sign_direct nk sk).
Proof.
  intros Ht. apply key_trusted_iff in Ht. unfold lets_in. cbn. split_and!; try done; auto.
  - apply (ed_sign_zip_valid sk (nks_sig_hash (sign_direct nk sk))).
  - by apply rotations_signed_one.
  - constructor.
Qed.

Lemma sign_rotation_lets_in a nk sk pivot :
  key_trusted a (ed_public sk) = true ->
  exists inner, nested (sign_rotation nk sk pivot) = Some inner
    /\ lets_in a nk (sign_rotation nk sk pivot) inner
    /\ details_of (sign_rotation nk sk pivot) inner
       = Some (mkRotationDetails [ed_public pivot] Direct (ed_public pivot)).
Proof.
  intros Ht. apply key_trusted_iff in Ht. pose proof (ed_public_len pivot) as Hl.
  assert (ed_public pivot <> []) as Hne by (by intros E; rewrite E in Hl).
  eexists. split; [done|]. split.
  - unfold lets_in. cbn. split_and!; try done; auto.
    + refine (ed_sign_zip_valid sk _).
    + apply rotations_signed_cons. split; [|by apply rotations_signed_one]. intros _.
      exists (ed_public pivot). split.
      * cbn. by destruct (ed_public pivot).
      * apply (ed_sign_std_valid pivot (nks_sig_hash (sign_rotation nk sk pivot))).
    + constructor; [|constructor]. cbn. auto.
  - unfold details_of. cbn. unfold nonempty_keys. cbn. by rewrite decide_True.
Qed.

(** A signature is for one node key. *)
Lemma other_key_refused a nk nk' s root :
  nk' <> nk -> u64_ok (len nk) -> decode_node_key_signature (nks_serialize s) = Ok s -> lets_in a nk s root ->
  node_key_authorized_with_details a nk' (nks_serialize s) = Err NodeKeyMismatch.
Proof.
  intros Hne Hl Es (Hk & Hp & Hlast & Hr & _ & Ht & _). unfold node_key_authorized_with_details.
  rewrite Es. cbn [mbind res_bind]. rewrite (authorizing_key_id_links _ _ Hlast Hr). cbn [mbind res_bind].
  destruct (trusted_get_key _ _ Ht) as [key ->]. cbn [ok_or mbind res_bind].
  replace (verify_signature s nk' key) with (@inl TkaError unit NodeKeyMismatch);
    [by destruct (sig_kind s)|].
  destruct s as [k p i g n w]. cbn [verify_signature]. by rewrite !bool_decide_true by congruence.
Qed.

Lemma untrusted_refused a nk s root :
  decode_node_key_signature (nks_serialize s) = Ok s -> sig_kind s <> Credential ->
  last (links s) = Some root -> sig_kind root = Direct ->
  key_trusted a (nks_key_id root) = false ->
  node_key_authorized_with_details a nk (nks_serialize s) = Err UntrustedKey.
Proof.
  intros Es Hk Hl Hr Ht. unfold node_key_authorized_with_details. rewrite Es. cbn [mbind res_bind].
  rewrite (authorizing_key_id_links _ _ Hl) by auto. cbn [mbind res_bind].
  unfold key_trusted in Ht. case_match; [done|]. cbn. by destruct (sig_kind s).
Qed.

(** What the signing functions make is accepted where it should be: with the
    signer's key trusted, a direct signature and a rotation let exactly the node
    key they were made for in, the rotation naming the pivot as the key rotated
    away; for any other node key they are a mismatch, and with the signer's key
    not trusted they are refused. *)
Theorem signed_keys_let_in (a a' : Authority) (nk nk' : list Z) (sk pivot : SigningKey) :
  u64_ok (len nk) -> nk' <> nk ->
  key_trusted a (ed_public sk) = true -> key_trusted a' (ed_public sk) = false ->
  let direct := nks_serialize (sign_direct nk sk) in
  let rotation := nks_serialize (sign_rotation nk sk pivot) in
  node_key_authorized_with_details a nk direct = Ok None
  /\ node_key_authorized_with_details a nk rotation
     = Ok (Some (mkRotationDetails [ed_public pivot] Direct (ed_public pivot)))
  /\ node_key_authorized_with_details a nk' direct = Err NodeKeyMismatch
  /\ node_key_authorized_with_details a nk' rotation = Err NodeKeyMismatch
  /\ node_key_authorized_with_details a' nk direct = Err UntrustedKey
  /\ node_key_authorized_with_details a' nk rotation = Err UntrustedKey.
Proof.
  intros Hl Hne Ht Hu direct rotation. pose proof (sign_direct_back nk sk Hl) as Ed.
  pose proof (sign_rotation_back nk sk pivot Hl) as Er.
  pose proof (sign_direct_lets_in a nk sk Ht) as Hd.
  destruct (sign_rotation_lets_in a nk sk pivot Ht) as (inner & Ei & Hr & Edet).
  split_and!.
  - apply authorized_details_iff. eauto 10.
  - apply authorized_details_iff. eauto 10.
  - by eapply other_key_refused.
  - by eapply other_key_refused.
  - by apply (untrusted_refused _ _ _ (sign_direct nk sk)).
  - injection Ei as <-. by eapply (untrusted_refused _ _ _ _ Er).
Qed.
End Signing.

(** *** Witness *)

#[local] Existing Instances ToyTka.toy_tka ToyTka.toy_tka_laws.

Definition trusting (ks : list (list Z)) : Authority :=
  mkAuthority (replicate 32 0) (mkState (mkKey Ed25519 1 <$> ks)).

Lemma signed_keys_let_in_witness :
  let direct := nks_serialize (sign_direct (replicate 32 7) 3) in
  let rotation := nks_serialize (sign_rotation (replicate 32 7) 3 4) in
  node_key_authorized_with_details (trusting [replicate 32 3]) (replicate 32 7) direct = Ok None
  /\ node_key_authorized_with_details (trusting [replicate 32 3]) (replicate 32 7) rotation
     = Ok (Some (mkRotationDetails [replicate 32 4] Direct (replicate 32 4)))
  /\ node_key_authorized_with_details (trusting [replicate 32 3]) [] direct = Err NodeKeyMismatch
  /\ node_key_authorized_with_details (trusting [replicate 32 3]) [] rotation = Err NodeKeyMismatch
  /\ node_key_authorized_with_details (trusting []) (replicate 32 7) direct = Err UntrustedKey
  /\ node_key_authorized_with_details (trusting []) (replicate 32 7) rotation = Err UntrustedKey.
Proof.
  apply (signed_keys_let_in (H := ToyTka.toy_tka) (trusting [replicate 32 3]) (trusting []) (replicate 32 7) [] 3 4).
  - by split; vm_compute.
  - discriminate.
  - vm_compute. reflexivity.
  - vm_compute. reflexivity.
Defined.
