(* ===== verification/TkaChain.v ===== *)
(** * TkaChain: replaying and verifying AUM chains (src/ts_tka/src/lib.rs)

    Authority update messages are folded into a trusted-key state, each one
    signed by keys that were trusted before it; at a fork the branch is chosen by
    weight.  [ReplayState::apply_verified_aum] takes the state by mutable
    reference and can fail after a change, so it gives back a state in every
    case. *)

From stdpp Require Import list gmap strings.
From S2P Require Import Prelude Bytes Cbor TkaWire TkaAuth.

Local Open Scope Z_scope.

(** ** Static validation *)

Definition MAX_KEYS : nat := 512.
Definition MAX_DISABLEMENT_VALUES : nat := 32.
Definition DISABLEMENT_LENGTH : nat := 32.
Definition MAX_META_BYTES : nat := 512.
Definition MAX_KEY_VOTES : Z := 4096.

Definition aum_key_id_of (k : AumKey) : list Z := ak_public k.

Definition meta_bytes (m : Meta) : nat := sum_list ((fun kv => length kv.1 + length kv.2)%nat <$> m).

(** [AumKey::static_validate] *)
Definition key_static_validate (k : AumKey) : res unit :=
  if decide (MAX_KEY_VOTES < ak_votes k) then Err BadKeyState
  else if decide (ak_votes k = 0) then Err BadKeyState
  else if (MAX_META_BYTES <? meta_bytes (ak_meta k))%nat then Err BadKeyState
  else Ok tt.

Definition to_key (k : AumKey) : Key := mkKey (ak_kind k) (ak_votes k) (ak_public k).

(** The loops of [static_validate_checkpoint]; [seen] is the part of the list
    before the element. *)
Fixpoint check_disablements (seen ds : list (list Z)) : res unit :=
  match ds with
  | [] => Ok tt
  | d :: ds =>
      if negb (length d =? DISABLEMENT_LENGTH)%nat then Err BadKeyState
      else if existsb (fun other => bool_decide (other = d)) seen then Err BadKeyState
      else check_disablements (seen ++ [d]) ds
  end.

Fixpoint check_keys (seen ks : list AumKey) : res unit :=
  match ks with
  | [] => Ok tt
  | k :: ks =>
      _ ← key_static_validate k;
      if existsb (fun other => bool_decide (aum_key_id_of other = aum_key_id_of k)) seen
      then Err BadKeyState
      else check_keys (seen ++ [k]) ks
  end.

Definition static_validate_checkpoint (s : AumState) : res unit :=
  match as_last_aum_hash s with
  | Some _ => Err BadKeyState
  | None =>
      let disablements := default [] (as_disablement_values s) in
      if (length disablements =? 0)%nat || (MAX_DISABLEMENT_VALUES <? length disablements)%nat
      then Err BadKeyState
      else
        _ ← check_disablements [] disablements;
        let keys := default [] (as_keys s) in
        if (length keys =? 0)%nat || (MAX_KEYS <? length keys)%nat then Err BadKeyState
        else check_keys [] keys
  end.

Definition is_some {A} (o : option A) : bool := match o with Some _ => true | None => false end.
Definition is_empty {A} (l : list A) : bool := match l with [] => true | _ => false end.

(** [Aum::static_validate] *)
Definition static_validate (a : Aum) : res unit :=
  _ ← match aum_key a with Some key => key_static_validate key | None => Ok tt end;
  _ ← try_each (fun _ sig =>
        if negb (length (sg_key_id sig) =? 32)%nat || negb (length (sg_signature sig) =? 64)%nat
        then Err (Decode "AUM signature has missing keyID or malformed signature")
        else Ok tt) tt (aum_signatures a);
  _ ← match aum_state a with Some state => static_validate_checkpoint state | None => Ok tt end;
  let has_key := is_some (aum_key a) in
  let has_key_id := negb (is_empty (aum_key_id a)) in
  let has_state := is_some (aum_state a) in
  let has_votes := is_some (aum_votes a) in
  let has_meta := negb (is_empty (aum_meta a)) in
  match message_kind a with
  | AddKey =>
      if negb has_key then Err (Decode "AddKey AUMs must contain a key")
      else if has_key_id || has_state || has_votes || has_meta
      then Err (Decode "AddKey AUMs may only specify a Key") else Ok tt
  | RemoveKey =>
      if negb has_key_id then Err (Decode "RemoveKey AUMs must specify a key ID")
      else if has_key || has_state || has_votes || has_meta
      then Err (Decode "RemoveKey AUMs may only specify a KeyID") else Ok tt
  | UpdateKey =>
      if negb has_key_id then Err (Decode "UpdateKey AUMs must specify a key ID")
      else if negb has_votes && negb has_meta
      then Err (Decode "UpdateKey AUMs must contain an update to votes or key metadata")
      else if has_key || has_state
      then Err (Decode "UpdateKey AUMs may only specify KeyID, Votes, and Meta") else Ok tt
  | Checkpoint =>
      if negb has_state then Err (Decode "Checkpoint AUMs must specify the state")
      else if has_key_id || has_key || has_votes || has_meta
      then Err (Decode "Checkpoint AUMs may only specify State") else Ok tt
  | NoOp | AumInvalid => Ok tt
  end.

Definition new_genesis_checkpoint (keys : list AumKey) (disablement_values : list (list Z)) : res Aum :=
  let aum := mkAum Checkpoint None None [] (Some (mkAumState None (Some disablement_values) (Some keys) 0 0))
               None [] [] in
  _ ← static_validate aum;
  Ok aum.

(** ** Replay *)

Record ReplayState := mkReplay {
  rs_keys : list AumKey;
  rs_last_aum_hash : option AumHash;
  rs_state_id : option (Z * Z);
}.

Definition ReplayState_default : ReplayState := mkReplay [] None None.

Definition rs_get_key (s : ReplayState) (key_id : list Z) : option AumKey :=
  find_first (fun k => bool_decide (aum_key_id_of k = key_id)) (rs_keys s).

(** The index, with the key at it. *)
Definition find_key_index (s : ReplayState) (key_id : list Z) : option (nat * AumKey) :=
  list_find (fun k => bool_decide (aum_key_id_of k = key_id)) (rs_keys s).

Fixpoint weight_loop (s : ReplayState) (seen : list (list Z)) (weight : Z) (sigs : list AumSignature) : Z :=
  match sigs with
  | [] => weight
  | sig :: sigs =>
      let id := sg_key_id sig in
      if existsb (fun other => bool_decide (other = id)) seen then weight_loop s seen weight sigs
      else
        match rs_get_key s id with
        | Some key => weight_loop s (seen ++ [id]) (weight + ak_votes key) sigs
        | None => weight_loop s seen weight sigs
        end
  end.

Definition weight (s : ReplayState) (a : Aum) : Z := weight_loop s [] 0 (aum_signatures a).

Definition to_state (s : ReplayState) : State := mkState (to_key <$> rs_keys s).

(** The changes of an [UpdateKey] to a key. *)
Definition update_key (a : Aum) (k : AumKey) : AumKey :=
  mkAumKey (ak_kind k) (default (ak_votes k) (aum_votes a)) (ak_public k)
    (match aum_meta a with [] => ak_meta k | m => m end).

Section Replay.
Context `{TkaCrypto}.

(** [Aum::sign] *)
Definition aum_sign (a : Aum) (signing_key : SigningKey) : Aum :=
  mkAum (message_kind a) (prev_aum_hash a) (aum_key a) (aum_key_id a) (aum_state a) (aum_votes a) (aum_meta a)
    (aum_signatures a ++ [mkAumSignature (ed_public signing_key) (ed_sign signing_key (aum_sig_hash a))]).

(** The parent link and the kind of a genesis. *)
Definition check_link (s : ReplayState) (a : Aum) : res unit :=
  match rs_last_aum_hash s with
  | Some head =>
      match prev_aum_hash a with
      | Some prev => if decide (prev = head) then Ok tt else Err BadParent
      | None => Err BadParent
      end
  | None =>
      match prev_aum_hash a with
      | Some _ => Err BadParent
      | None =>
          match message_kind a with
          | NoOp | AddKey | Checkpoint => Ok tt
          | _ => Err BadChain
          end
      end
  end.

(** [self.last_aum_hash = Some(aum.hash())] *)
Definition advance (s : ReplayState) (a : Aum) : ReplayState :=
  mkReplay (rs_keys s) (Some (hash a)) (rs_state_id s).

Definition set_keys (s : ReplayState) (ks : list AumKey) : ReplayState :=
  mkReplay ks (rs_last_aum_hash s) (rs_state_id s).

Definition apply_verified_aum (s : ReplayState) (a : Aum) : ReplayState * res unit :=
  match check_link s a with
  | inl e => (s, Err e)
  | inr _ =>
      match message_kind a with
      | NoOp | AumInvalid => (advance s a, Ok tt)
      | Checkpoint =>
          match aum_state a with
          | None => (s, Err (Decode "checkpoint AUM missing state"))
          | Some state =>
              let incoming := (as_state_id1 state, as_state_id2 state) in
              let s' := mkReplay (default [] (as_keys state)) (rs_last_aum_hash s) (Some incoming) in
              match rs_state_id s with
              | Some existing => if decide (existing = incoming) then (advance s' a, Ok tt) else (s, Err BadKeyState)
              | None => (advance s' a, Ok tt)
              end
          end
      | AddKey =>
          match aum_key a with
          | None => (s, Err (Decode "AddKey AUM missing key"))
          | Some key =>
              match rs_get_key s (aum_key_id_of key) with
              | Some _ => (s, Err BadKeyState)
              | None => (advance (set_keys s (rs_keys s ++ [key])) a, Ok tt)
              end
          end
      | UpdateKey =>
          match find_key_index s (aum_key_id a) with
          | None => (s, Err BadKeyState)
          | Some (i, k) =>
              let s' := set_keys s (<[i := update_key a k]> (rs_keys s)) in
              match key_static_validate (update_key a k) with
              | inl e => (s', Err e)
              | inr _ => (advance s' a, Ok tt)
              end
          end
      | RemoveKey =>
          if match rs_keys s with [k] => bool_decide (aum_key_id_of k = aum_key_id a) | _ => false end
          then (s, Err BadKeyState)
          else
            match find_key_index s (aum_key_id a) with
            | None => (s, Err BadKeyState)
            | Some (i, _) => (advance (set_keys s (delete i (rs_keys s))) a, Ok tt)
            end
      end
  end.

(** [for aum in aums { state.apply_verified_aum(aum)?; }] *)
Fixpoint replay (s : ReplayState) (aums : list Aum) : res ReplayState :=
  match aums with
  | [] => Ok s
  | a :: aums =>
      match apply_verified_aum s a with
      | (_, inl e) => Err e
      | (s, inr _) => replay s aums
      end
  end.

Definition verify_aum_signatures (s : ReplayState) (a : Aum) : res unit :=
  if is_empty (aum_signatures a) then Err UnsignedAum
  else
    let sig_hash := aum_sig_hash a in
    try_each (fun _ sig =>
      key ← ok_or (rs_get_key s (sg_key_id sig)) UntrustedKey;
      if bool_decide (ak_kind key <> Ed25519) || negb (length (ak_public key) =? 32)%nat
      then Err (Decode "AUM signing key is not ed25519")
      else verify_ed25519_zip215 (ak_public key) sig_hash (sg_signature sig)) tt (aum_signatures a).

Record VerifiedAumChain := mkVerified {
  vc_state : ReplayState;
  vc_head : AumHash;
}.

(** The body of [VerifiedAumChain::verify]'s loop for the genesis and for the
    others. *)
Definition verify_genesis (a : Aum) : res ReplayState :=
  _ ← static_validate a;
  match apply_verified_aum ReplayState_default a with
  | (_, inl e) => Err e
  | (s, inr _) => _ ← verify_aum_signatures s a; Ok s
  end.

Definition verify_next (s : ReplayState) (a : Aum) : res ReplayState :=
  _ ← static_validate a;
  _ ← verify_aum_signatures s a;
  match apply_verified_aum s a with
  | (_, inl e) => Err e
  | (s, inr _) => Ok s
  end.

Definition verify (aums : list Aum) : res VerifiedAumChain :=
  match aums, last aums with
  | genesis :: rest, Some la =>
      s ← verify_genesis genesis;
      s ← try_each verify_next s rest;
      Ok (mkVerified s (hash la))
  | _, _ => Err BadChain
  end.

(** [cand] replaces [best] in [pick_next_aum]. *)
Definition better (s : ReplayState) (cand best : Aum) : bool :=
  let w := weight s cand in
  let best_weight := weight s best in
  let r := bool_decide (message_kind cand = RemoveKey) in
  let best_r := bool_decide (message_kind best = RemoveKey) in
  if negb (w =? best_weight) then best_weight <? w
  else if negb (eqb r best_r) then r
  else negb (lex_le (hash best) (hash cand)).

(** [pick_next_aum(state, candidates)] with [candidates = c :: cs]; it is never
    called without candidates. *)
Definition pick_next_aum (s : ReplayState) (c : Aum) (cs : list Aum) : Aum :=
  foldl (fun best cand => if better s cand best then cand else best) c cs.

Definition from_verified_chain (chain : VerifiedAumChain) : Authority :=
  mkAuthority (vc_head chain) (to_state (vc_state chain)).

Definition from_chain (aums : list Aum) : res Authority :=
  match last aums with
  | None => Err BadChain
  | Some la =>
      s ← replay ReplayState_default aums;
      Ok (mkAuthority (hash la) (to_state s))
  end.

Definition from_forked_chain (prefix : list Aum) (branches : list (list Aum)) : res Authority :=
  if is_empty branches || existsb (fun b => negb (length b =? 1)%nat) branches then Err BadChain
  else
    s ← replay ReplayState_default prefix;
    match concat branches with
    | [] => Err BadChain
    | c :: cs =>
        let winner_head := hash (pick_next_aum s c cs) in
        winner ← ok_or (find_first (fun b => bool_decide (hash b = winner_head)) (c :: cs)) BadChain;
        match apply_verified_aum s winner with
        | (_, inl e) => Err e
        | (s, inr _) => Ok (mkAuthority (hash winner) (to_state s))
        end
    end.
End Replay.

(** ** Choosing a branch *)

Section Pick.
Context `{TkaCrypto}.
Variable s : ReplayState.
Implicit Types (x y z : Aum) (cs : list Aum).

Definition removes x : bool := bool_decide (message_kind x = RemoveKey).

(** The order [better] compares by: weight, then removals, then the lowest hash. *)
Lemma better_spec x y :
  better s x y = true
  <-> weight s y < weight s x
      \/ (weight s x = weight s y
          /\ ((removes x = true /\ removes y = false)
              \/ (removes x = removes y /\ lex_le (hash y) (hash x) = false))).
Proof.
  unfold better. fold (removes x) (removes y).
  destruct (Z.eqb_spec (weight s x) (weight s y)) as [E|E]; cbn [negb].
  - destruct (removes x), (removes y), (lex_le (hash y) (hash x)); cbn; intuition (try done; try lia).
  - rewrite Z.ltb_lt. intuition lia.
Qed.

Lemma not_better_trans x y z : better s x y = false -> better s y z = false -> better s x z = false.
Proof.
  rewrite <- !not_true_iff_false, !better_spec. intros Hxy Hyz Hxz.
  destruct (removes x), (removes y), (removes z);
    destruct (lex_le (hash y) (hash x)) eqn:E1, (lex_le (hash z) (hash y)) eqn:E2;
    try (assert (lex_le (hash z) (hash x) = true) by (by eapply lex_le_trans));
    destruct (Ztrichotomy (weight s x) (weight s y)) as [|[|]];
    destruct (Ztrichotomy (weight s y) (weight s z)) as [|[|]]; intuition (congruence || lia).
Qed.

Lemma not_better_antisym x y :
  better s x y = false -> better s y x = false ->
  weight s x = weight s y /\ removes x = removes y /\ hash x = hash y.
Proof.
  rewrite <- !not_true_iff_false, !better_spec. intros Hxy Hyx.
  assert (weight s x = weight s y) as Ew by (destruct (Ztrichotomy (weight s x) (weight s y)) as [|[|]]; intuition lia).
  pose proof (eq_sym Ew). assert (removes x = removes y) as Er by (destruct (removes x), (removes y); intuition congruence).
  split_and!; [done|done|]. apply lex_le_antisym.
  - destruct (lex_le (hash x) (hash y)) eqn:E; [done|]. destruct Hyx. right. auto.
  - destruct (lex_le (hash y) (hash x)) eqn:E; [done|]. destruct Hxy. right. auto.
Qed.

Lemma better_irrefl x : better s x x = false.
Proof.
  rewrite <- not_true_iff_false, better_spec. intros [?|(_ & [[? ?]|[_ E]])]; [lia|congruence|].
  destruct (lex_le_total (hash x) (hash x)); congruence.
Qed.

Lemma better_asym x y : better s x y = true -> better s y x = false.
Proof.
  intros Hxy. destruct (better s y x) eqn:Hyx; [|done]. exfalso.
  apply better_spec in Hxy, Hyx. destruct (lex_le_total (hash x) (hash y)); intuition (congruence || lia).
Qed.

(** The pick is one of the candidates, and none is better. *)
Lemma pick_next_best c cs :
  pick_next_aum s c cs ∈ c :: cs /\ forall x, x ∈ c :: cs -> better s x (pick_next_aum s c cs) = false.
Proof.
  unfold pick_next_aum. revert c. induction cs as [|d cs IH]; intros c; cbn [foldl].
  { split; [left|]. intros x ->%list_elem_of_singleton. apply better_irrefl. }
  destruct (better s d c) eqn:E.
  - destruct (IH d) as [Hin Hb]. split; [by right|]. intros x [->|Hx]%elem_of_cons; [|by apply Hb].
    eapply not_better_trans; [by apply better_asym|]. apply Hb. left.
  - destruct (IH c) as [Hin Hb]. split; [set_solver|].
    intros x [->|[->|Hx]%elem_of_cons]%elem_of_cons; [apply Hb; left| |apply Hb; by right].
    eapply not_better_trans; [exact E|]. apply Hb. left.
Qed.

(** Any other order of the candidates picks the same message. *)
Lemma pick_next_perm c cs d ds :
  c :: cs ≡ₚ d :: ds -> hash (pick_next_aum s c cs) = hash (pick_next_aum s d ds).
Proof.
  intros Hp. destruct (pick_next_best c cs) as [Hc Bc], (pick_next_best d ds) as [Hd Bd].
  apply not_better_antisym; [apply Bd; by rewrite <- Hp|apply Bc; by rewrite Hp].
Qed.
End Pick.

(** ** The trusted keys as a map *)

Section Map.
Context `{TkaCrypto}.
Implicit Types (s : ReplayState) (a : Aum) (k : AumKey) (ks : list AumKey).

Definition ids ks : list (list Z) := ak_public <$> ks.

Definition keys_map ks : gmap (list Z) AumKey := list_to_map ((fun k => (ak_public k, k)) <$> ks).

Lemma keys_map_fst ks : ((fun k => (ak_public k, k)) <$> ks).*1 = ids ks.
Proof. unfold ids. rewrite <- list_fmap_compose. done. Qed.

Lemma rs_get_key_map s id : rs_get_key s id = keys_map (rs_keys s) !! id.
Proof.
  unfold rs_get_key, keys_map, find_first. induction (rs_keys s) as [|k ks IH]; cbn; [done|].
  case_decide as Hd; [apply bool_decide_unpack in Hd|rewrite bool_decide_spec in Hd];
    unfold aum_key_id_of in Hd.
  - rewrite Hd. by rewrite lookup_insert_eq.
  - rewrite lookup_insert_ne by done. rewrite <- IH. destruct (list_find _ ks) as [[]|]; done.
Qed.

Lemma find_key_index_some s id i k :
  find_key_index s id = Some (i, k) -> rs_keys s !! i = Some k /\ ak_public k = id /\ rs_get_key s id = Some k.
Proof.
  unfold find_key_index, rs_get_key, find_first. intros E. rewrite E. apply list_find_Some in E as (E & Hp & _).
  split_and!; [done| |done]. by apply bool_decide_unpack in Hp.
Qed.

Lemma find_key_index_none s id : find_key_index s id = None -> rs_get_key s id = None.
Proof. unfold find_key_index, rs_get_key, find_first. by intros ->. Qed.

Lemma keys_map_size ks : NoDup (ids ks) -> size (keys_map ks) = length ks.
Proof.
  intros Hnd. rewrite <- keys_map_fst in Hnd. unfold keys_map. rewrite map_size_list_to_map by done.
  by rewrite length_fmap.
Qed.

Lemma keys_map_lookup ks k : NoDup (ids ks) -> k ∈ ks -> keys_map ks !! ak_public k = Some k.
Proof.
  intros Hnd Hk. apply elem_of_list_to_map_1; [by rewrite keys_map_fst|]. apply list_elem_of_fmap. eauto.
Qed.

Lemma keys_map_lookup_inv ks id k : keys_map ks !! id = Some k -> k ∈ ks /\ ak_public k = id.
Proof.
  intros E. apply elem_of_list_to_map_2, list_elem_of_fmap in E as (k' & [= -> ->] & Hk). done.
Qed.

Lemma keys_map_ext ks (m : gmap (list Z) AumKey) :
  NoDup (ids ks) -> (forall id k, m !! id = Some k <-> k ∈ ks /\ ak_public k = id) -> keys_map ks = m.
Proof.
  intros Hnd Hm. apply map_eq. intros id. apply option_eq. intros k. rewrite Hm. split.
  - apply keys_map_lookup_inv.
  - intros [Hk <-]. by apply keys_map_lookup.
Qed.

Lemma keys_map_snoc ks k :
  ak_public k ∉ ids ks -> keys_map (ks ++ [k]) = <[ak_public k := k]> (keys_map ks).
Proof.
  intros Hk. unfold keys_map. rewrite fmap_app. cbn. rewrite list_to_map_snoc; [done|].
  by rewrite keys_map_fst.
Qed.

Lemma keys_map_delete ks i k :
  NoDup (ids ks) -> ks !! i = Some k -> keys_map (delete i ks) = delete (ak_public k) (keys_map ks).
Proof.
  intros Hnd Hi. pose proof (delete_Permutation _ _ _ Hi) as Hp.
  assert (NoDup (ids (k :: delete i ks))) as Hnd' by (unfold ids in *; by rewrite <- Hp).
  cbn in Hnd'. apply NoDup_cons in Hnd' as [Hk Hnd'].
  apply keys_map_ext; [done|]. intros id k'. rewrite lookup_delete_Some. split.
  - intros [Hne E]. apply keys_map_lookup_inv in E as [Hin <-]. rewrite Hp in Hin.
    apply elem_of_cons in Hin as [->|Hin]; [done|]. done.
  - intros [Hin <-]. split.
    + intros E. apply Hk. rewrite E. unfold ids. apply list_elem_of_fmap. eauto.
    + apply keys_map_lookup; [done|]. rewrite Hp. by right.
Qed.

Lemma ids_insert ks i k k' : ks !! i = Some k -> ak_public k' = ak_public k -> ids (<[i := k']> ks) = ids ks.
Proof.
  intros Hi E. unfold ids. rewrite list_fmap_insert, E. apply list_insert_id.
  by rewrite list_lookup_fmap, Hi.
Qed.

Lemma keys_map_insert ks i k k' :
  NoDup (ids ks) -> ks !! i = Some k -> ak_public k' = ak_public k ->
  keys_map (<[i := k']> ks) = <[ak_public k := k']> (keys_map ks).
Proof.
  intros Hnd Hi E. apply keys_map_ext; [by erewrite ids_insert|]. intros id x.
  pose proof (lookup_lt_Some _ _ _ Hi) as Hlt. rewrite lookup_insert_Some. split.
  - intros [[<- <-]|[Hne Ex]].
    + split; [|done]. apply list_elem_of_lookup. exists i. by apply list_lookup_insert_eq.
    + apply keys_map_lookup_inv in Ex as [Hx <-]. split; [|done]. apply list_elem_of_lookup in Hx as [j Hj].
      apply list_elem_of_lookup. exists j. rewrite list_lookup_insert_ne; [done|]. intros ->. congruence.
  - intros [Hx <-]. apply list_elem_of_lookup in Hx as [j Hj].
    apply list_lookup_insert_Some in Hj as [(-> & -> & _)|[Hne Hj]]; [by left|]. right. split.
    + intros Ep. apply Hne. eapply (NoDup_lookup (ids ks)); [done| |].
      * unfold ids. rewrite list_lookup_fmap, Hi. done.
      * unfold ids. rewrite list_lookup_fmap, Hj. cbn. by rewrite Ep.
    + apply keys_map_lookup; [done|]. by eapply list_elem_of_lookup_2.
Qed.
End Map.

(** ** What an update does, on the map *)

(** The trusted keys by id, the message the state is at, and the authority's id. *)
Record Trust := mkTrust {
  t_keys : gmap (list Z) AumKey;
  t_head : option AumHash;
  t_id : option (Z * Z);
}.

#[global] Arguments keys_map : simpl never.

Section Refine.
Context `{TkaCrypto}.
Implicit Types (s : ReplayState) (a : Aum) (k : AumKey) (ks : list AumKey).

Definition abs s : Trust := mkTrust (keys_map (rs_keys s)) (rs_last_aum_hash s) (rs_state_id s).

(** A message extends the one it names as its parent; the first has none, and
    adds a key, sets a checkpoint or does nothing. *)
Definition extends (t : Trust) a : bool :=
  match t_head t, prev_aum_hash a with
  | Some head, Some prev => bool_decide (prev = head)
  | None, None => match message_kind a with NoOp | AddKey | Checkpoint => true | _ => false end
  | _, _ => false
  end.

Definition trust_apply (t : Trust) a : option Trust :=
  if extends t a then
    match message_kind a with
    | NoOp | AumInvalid => Some (mkTrust (t_keys t) (Some (hash a)) (t_id t))
    | AddKey =>
        k ← aum_key a;
        match t_keys t !! ak_public k with
        | Some _ => None
        | None => Some (mkTrust (<[ak_public k := k]> (t_keys t)) (Some (hash a)) (t_id t))
        end
    | UpdateKey =>
        k ← t_keys t !! aum_key_id a;
        match key_static_validate (update_key a k) with
        | inl _ => None
        | inr _ => Some (mkTrust (<[aum_key_id a := update_key a k]> (t_keys t)) (Some (hash a)) (t_id t))
        end
    | RemoveKey =>
        _ ← t_keys t !! aum_key_id a;
        if (size (t_keys t) =? 1)%nat then None
        else Some (mkTrust (delete (aum_key_id a) (t_keys t)) (Some (hash a)) (t_id t))
    | Checkpoint =>
        st ← aum_state a;
        let id := (as_state_id1 st, as_state_id2 st) in
        if match t_id t with Some id' => bool_decide (id' = id) | None => true end
        then Some (mkTrust (keys_map (default [] (as_keys st))) (Some (hash a)) (Some id))
        else None
    end
  else None.

(** Distinct ids. *)
Definition distinct s : Prop := NoDup (ids (rs_keys s)).

(** A checkpoint lists each key once. *)
Definition checkpoint_distinct a : Prop :=
  match aum_state a with Some st => NoDup (ids (default [] (as_keys st))) | None => True end.

Lemma check_link_extends s a :
  match check_link s a with inr _ => extends (abs s) a = true | inl _ => extends (abs s) a = false end.
Proof.
  unfold check_link, extends, abs. cbn. destruct (rs_last_aum_hash s), (prev_aum_hash a); try done.
  - case_decide; [by apply bool_decide_eq_true|by apply bool_decide_eq_false].
  - by destruct (message_kind a).
Qed.

(** The outcome of an update refines the map's. *)
Definition refines s a (out : ReplayState * res unit) : Prop :=
  match out with
  | (s', inr _) => trust_apply (abs s) a = Some (abs s') /\ distinct s'
  | (_, inl _) => trust_apply (abs s) a = None
  end.

Lemma add_refines s a :
  distinct s -> extends (abs s) a = true -> message_kind a = AddKey ->
  refines s a match aum_key a with
    | None => (s, Err (Decode "AddKey AUM missing key"))
    | Some key =>
        match rs_get_key s (aum_key_id_of key) with
        | Some _ => (s, Err BadKeyState)
        | None => (advance (set_keys s (rs_keys s ++ [key])) a, Ok tt)
        end
    end.
Proof.
  intros Hd He Hk. unfold refines, trust_apply. rewrite He, Hk. destruct (aum_key a) as [k|]; [|done].
  unfold aum_key_id_of. rewrite rs_get_key_map. cbn [mbind option_bind abs t_keys].
  destruct (keys_map (rs_keys s) !! ak_public k) eqn:E; [done|].
  assert (ak_public k ∉ ids (rs_keys s)) as Hk'.
  { rewrite <- keys_map_fst. by apply not_elem_of_list_to_map. }
  split.
  - unfold abs. cbn. by rewrite keys_map_snoc.
  - unfold distinct, ids. cbn. rewrite fmap_app. apply NoDup_app. split_and!; [done| |apply NoDup_singleton].
    intros x Hx ->%list_elem_of_singleton. done.
Qed.

Lemma update_refines s a :
  distinct s -> extends (abs s) a = true -> message_kind a = UpdateKey ->
  refines s a match find_key_index s (aum_key_id a) with
    | None => (s, Err BadKeyState)
    | Some (i, k) =>
        let s' := set_keys s (<[i := update_key a k]> (rs_keys s)) in
        match key_static_validate (update_key a k) with
        | inl e => (s', Err e)
        | inr _ => (advance s' a, Ok tt)
        end
    end.
Proof.
  intros Hd He Hk. unfold refines, trust_apply. rewrite He, Hk.
  destruct (find_key_index s (aum_key_id a)) as [[i k]|] eqn:E.
  - apply find_key_index_some in E as (Hi & Ep & Eg). rewrite rs_get_key_map in Eg.
    cbn [abs t_keys]. rewrite Eg. cbn [mbind option_bind].
    destruct (key_static_validate (update_key a k)); [done|]. split.
    + unfold abs. cbn. by rewrite (keys_map_insert _ _ k), Ep by done.
    + unfold distinct. cbn. by rewrite (ids_insert _ _ k).
  - apply find_key_index_none in E. rewrite rs_get_key_map in E. cbn [abs t_keys]. by rewrite E.
Qed.

Lemma remove_refines s a :
  distinct s -> extends (abs s) a = true -> message_kind a = RemoveKey ->
  refines s a
    (if match rs_keys s with [k] => bool_decide (aum_key_id_of k = aum_key_id a) | _ => false end
     then (s, Err BadKeyState)
     else match find_key_index s (aum_key_id a) with
          | None => (s, Err BadKeyState)
          | Some (i, _) => (advance (set_keys s (delete i (rs_keys s))) a, Ok tt)
          end).
Proof.
  intros Hd He Hk. unfold refines, trust_apply. rewrite He, Hk. cbn [abs t_keys].
  rewrite (keys_map_size _ Hd). rewrite <- rs_get_key_map.
  destruct (find_key_index s (aum_key_id a)) as [[i k]|] eqn:E.
  - pose proof (find_key_index_some _ _ _ _ E) as (Hi & Ep & Eg). rewrite Eg. cbn [mbind option_bind].
    destruct (rs_keys s) as [|k0 [|k1 ks]] eqn:Eks; [done| |].
    + destruct i; [|done]. cbn in Hi. simplify_eq. rewrite bool_decide_true by done. done.
    + cbn [length Nat.eqb]. split.
      * unfold abs. cbn -[keys_map delete]. rewrite (keys_map_delete _ _ k); [by rewrite Ep| |done].
        unfold distinct in Hd. by rewrite Eks in Hd.
      * unfold distinct in *. cbn [rs_keys advance set_keys]. rewrite Eks in Hd.
        pose proof (delete_Permutation _ _ _ Hi) as Hp. unfold ids in *. rewrite Hp in Hd.
        by apply NoDup_cons in Hd as [_ ?].
  - rewrite (find_key_index_none _ _ E). cbn. by destruct (match rs_keys s with [_] => _ | _ => _ end).
Qed.

Lemma checkpoint_refines s a :
  checkpoint_distinct a -> extends (abs s) a = true -> message_kind a = Checkpoint ->
  refines s a match aum_state a with
    | None => (s, Err (Decode "checkpoint AUM missing state"))
    | Some state =>
        let incoming := (as_state_id1 state, as_state_id2 state) in
        let s' := mkReplay (default [] (as_keys state)) (rs_last_aum_hash s) (Some incoming) in
        match rs_state_id s with
        | Some existing => if decide (existing = incoming) then (advance s' a, Ok tt) else (s, Err BadKeyState)
        | None => (advance s' a, Ok tt)
        end
    end.
Proof.
  intros Hc He Hk. unfold refines, trust_apply, checkpoint_distinct in *. rewrite He, Hk.
  destruct (aum_state a) as [st|]; [|done]. cbn [mbind option_bind abs t_id].
  destruct (rs_state_id s) as [id|]; [|done].
  case_decide; [rewrite bool_decide_true by done|rewrite bool_decide_false by done]; done.
Qed.

Lemma apply_refines s a : distinct s -> checkpoint_distinct a -> refines s a (apply_verified_aum s a).
Proof.
  intros Hd Hc. unfold apply_verified_aum. pose proof (check_link_extends s a) as Hl.
  destruct (check_link s a) as [e|u]; [unfold refines, trust_apply; by rewrite Hl|].
  destruct (message_kind a) eqn:Hk.
  - unfold refines, trust_apply. rewrite Hl, Hk. done.
  - by apply add_refines.
  - by apply remove_refines.
  - unfold refines, trust_apply. rewrite Hl, Hk. done.
  - by apply update_refines.
  - by apply checkpoint_refines.
Qed.
End Refine.

(** ** Validated messages *)

Section Valid.
Implicit Types (a : Aum) (k : AumKey) (ks : list AumKey).

Definition valid_key k : Prop := key_static_validate k = Ok tt.

Lemma valid_key_iff k :
  valid_key k <-> ak_votes k <= 4096 /\ ak_votes k <> 0 /\ (meta_bytes (ak_meta k) <= 512)%nat.
Proof.
  unfold valid_key, key_static_validate, MAX_KEY_VOTES, MAX_META_BYTES.
  case_decide; [split; [done|lia]|]. case_decide; [split; [done|lia]|].
  destruct (Nat.ltb_spec 512 (meta_bytes (ak_meta k))); split; (done || lia).
Qed.

Lemma unit_ok (r : res unit) : (exists u, r = Ok u) <-> r = Ok tt.
Proof. split; [intros [[] ->]|]; eauto. Qed.

Lemma existsb_decide {A} (f : A -> list Z) x l :
  existsb (fun y => bool_decide (f y = x)) l = false <-> x ∉ f <$> l.
Proof.
  rewrite list_elem_of_fmap. induction l as [|y l IH]; cbn.
  - split; [|done]. intros _ (y & _ & Hy). by apply elem_of_nil in Hy.
  - rewrite orb_false_iff, IH, bool_decide_eq_false. split.
    + intros [Hy Hn] (z & -> & [->|Hz]%elem_of_cons); [done|]. apply Hn. eauto.
    + intros Hn. split; [intros E|intros (z & -> & Hz)]; apply Hn; eexists; (split; [done|]); [left|by right].
Qed.

Lemma ids_snoc ks k id : id ∈ ids (ks ++ [k]) <-> id ∈ ids ks \/ id = ak_public k.
Proof. unfold ids. rewrite fmap_app, elem_of_app. cbn. by rewrite list_elem_of_singleton. Qed.

Lemma check_keys_iff seen ks :
  check_keys seen ks = Ok tt
  <-> Forall valid_key ks /\ NoDup (ids ks) /\ (forall id, id ∈ ids ks -> id ∉ ids seen).
Proof.
  revert seen. induction ks as [|k ks IH]; intros seen.
  { split; [|done]. intros _. split_and!; [constructor|constructor|]. intros id Hid. by apply elem_of_nil in Hid. }
  cbn [check_keys]. rewrite Forall_cons. unfold valid_key at 1. cbn [ids fmap list_fmap].
  destruct (key_static_validate k) as [e|[]]; cbn [mbind res_bind]; [naive_solver|].
  pose proof (existsb_decide ak_public (ak_public k) seen) as Hex. unfold aum_key_id_of.
  change (ak_public <$> ?l) with (ids l) in *.
  destruct (existsb _ seen).
  - split; [done|]. intros (_ & _ & Hn). exfalso. destruct (decide (ak_public k ∈ ids seen)) as [Hin|Hin].
    + eapply Hn; [left|done].
    + apply Hex in Hin. done.
  - destruct Hex as [Hex _]. specialize (Hex eq_refl). rewrite IH, NoDup_cons. split.
    + intros (Hf & Hnd & Hn). split_and!; [done|done| |done|].
      * intros Hin. apply (Hn _ Hin), ids_snoc. by right.
      * intros id [->|Hid]%elem_of_cons Hs; [done|]. apply (Hn id Hid), ids_snoc. by left.
    + intros ([_ Hf] & [Hk Hnd] & Hn). split_and!; [done|done|]. intros id Hid [Hs| ->]%ids_snoc; [|done].
      by apply (Hn id); [right|].
Qed.

(** What static validation says of the keys of a message. *)
Lemma static_validate_keys a :
  static_validate a = Ok tt ->
  (forall k, aum_key a = Some k -> valid_key k)
  /\ (forall st, aum_state a = Some st ->
        let ks := default [] (as_keys st) in
        Forall valid_key ks /\ NoDup (ids ks) /\ ks <> [] /\ (length ks <= 512)%nat).
Proof.
  unfold static_validate. intros E. repeat bind_ok E. clear E. split.
  - intros k Ek. rewrite Ek in Em. by destruct u.
  - intros st Es. rewrite Es in Em1. unfold static_validate_checkpoint in Em1.
    destruct (as_last_aum_hash st); [done|]. destruct (_ || _); [done|]. bind_ok Em1.
    destruct (_ || _) eqn:El; [done|]. apply orb_false_iff in El as [El1 El2].
    apply Nat.eqb_neq in El1. apply Nat.ltb_ge in El2. destruct u1. apply check_keys_iff in Em1 as (Hf & Hnd & _).
    split_and!; [done|done| |done]. intros E. by rewrite E in El1.
Qed.

Lemma static_validate_distinct a : static_validate a = Ok tt -> checkpoint_distinct a.
Proof.
  intros [_ Hs]%static_validate_keys. unfold checkpoint_distinct. destruct (aum_state a) as [st|]; [|done].
  by apply (Hs st).
Qed.
End Valid.

(** ** Verified chains *)

Section Verified.
Context `{TkaCrypto}.
Implicit Types (s : ReplayState) (a : Aum) (k : AumKey) (l aums : list Aum).

(** Every signature of [a], at least one, is by a key trusted in [s]. *)
Definition signed s a : Prop :=
  aum_signatures a <> []
  /\ Forall (fun sig => sg_key_id sig ∈ ids (rs_keys s)
       /\ zip_valid (sg_key_id sig) (aum_sig_hash a) (sg_signature sig)) (aum_signatures a).

Lemma try_each_unit {A} (f : unit -> A -> res unit) (l : list A) :
  try_each f tt l = Ok tt <-> Forall (fun x => f tt x = Ok tt) l.
Proof.
  induction l as [|x l IH]; cbn; [done|]. rewrite Forall_cons.
  destruct (f tt x) as [e|[]]; cbn; [naive_solver|]. rewrite IH. naive_solver.
Qed.

Lemma try_each_unit_snoc {A} (f : unit -> A -> res unit) (l : list A) x :
  try_each f tt l = Ok tt -> f tt x = Ok tt -> try_each f tt (l ++ [x]) = Ok tt.
Proof. rewrite !try_each_unit, Forall_app. auto. Qed.

Lemma rs_get_key_some s id k : rs_get_key s id = Some k -> k ∈ rs_keys s /\ ak_public k = id.
Proof. rewrite rs_get_key_map. apply keys_map_lookup_inv. Qed.

Lemma rs_get_key_none s id : rs_get_key s id = None <-> id ∉ ids (rs_keys s).
Proof.
  rewrite rs_get_key_map, <- keys_map_fst. split; [apply not_elem_of_list_to_map|apply not_elem_of_list_to_map_1].
Qed.

Lemma verify_signatures_iff s a : verify_aum_signatures s a = Ok tt <-> signed s a.
Proof.
  unfold verify_aum_signatures, signed. destruct (decide (aum_signatures a = [])) as [E|Hne].
  { rewrite E. naive_solver. }
  replace (is_empty (aum_signatures a)) with false by (by destruct (aum_signatures a)).
  rewrite try_each_unit. split; [intros Hf; split; [done|]|intros [_ Hf]]; (eapply Forall_impl; [exact Hf|]);
    intros sig; cbn.
  - intros E. bind_ok E. apply ok_or_some in Em. destruct (_ || _); [done|]. apply zip_valid_iff in E.
    apply rs_get_key_some in Em as [Hk <-]. split; [|done]. unfold ids. apply list_elem_of_fmap. eauto.
  - intros [Hin Hz]. destruct (rs_get_key s (sg_key_id sig)) as [k|] eqn:E; [|by apply rs_get_key_none in E].
    apply rs_get_key_some in E as [_ E]. cbn [ok_or mbind res_bind]. rewrite E, (proj1 Hz).
    destruct (ak_kind k). rewrite bool_decide_false by (by intros []). cbn. by apply zip_valid_iff.
Qed.

Lemma verify_next_iff s a s' :
  verify_next s a = Ok s'
  <-> static_validate a = Ok tt /\ signed s a /\ apply_verified_aum s a = (s', Ok tt).
Proof.
  unfold verify_next. rewrite <- verify_signatures_iff.
  destruct (static_validate a) as [|[]]; cbn [mbind res_bind]; [naive_solver|].
  destruct (verify_aum_signatures s a) as [|[]]; cbn [mbind res_bind]; [naive_solver|].
  destruct (apply_verified_aum s a) as [s1 [e|[]]]; naive_solver.
Qed.

Lemma verify_genesis_iff a s' :
  verify_genesis a = Ok s'
  <-> static_validate a = Ok tt /\ signed s' a /\ apply_verified_aum ReplayState_default a = (s', Ok tt).
Proof.
  unfold verify_genesis. rewrite <- verify_signatures_iff.
  destruct (static_validate a) as [|[]]; cbn [mbind res_bind]; [naive_solver|].
  destruct (apply_verified_aum ReplayState_default a) as [s1 [e|[]]].
  { split; [done|]. by intros (_ & _ & ?). }
  destruct (verify_aum_signatures s1 a) as [|[]] eqn:E; cbn [mbind res_bind].
  { split; [done|]. intros (_ & ? & [= <-]). congruence. }
  split; [intros [= <-]; done|]. intros (_ & _ & [= <-]). done.
Qed.

Lemma replay_cons s a l s' :
  replay s (a :: l) = Ok s' <-> exists s1, apply_verified_aum s a = (s1, Ok tt) /\ replay s1 l = Ok s'.
Proof.
  cbn. destruct (apply_verified_aum s a) as [s1 [e|[]]]; [naive_solver|]. split; [eauto|].
  by intros (? & [= <-] & ?).
Qed.

Lemma try_next_iff s l s' :
  try_each verify_next s l = Ok s'
  <-> replay s l = Ok s'
      /\ forall i a, l !! i = Some a ->
           static_validate a = Ok tt /\ exists si, replay s (take i l) = Ok si /\ signed si a.
Proof.
  revert s. induction l as [|a l IH]; intros s; [cbn; naive_solver|]. rewrite replay_cons. cbn [try_each]. split.
  - intros E. bind_ok E. apply verify_next_iff in Em as (Hv & Hs & Ha). apply IH in E as [Hr Hall].
    split; [eauto|]. intros [|i] b Hb; cbn in Hb.
    + simplify_eq. split; [done|]. exists s. done.
    + destruct (Hall i b Hb) as [? (si & ? & ?)]. split; [done|]. exists si. split; [|done].
      cbn [take]. apply replay_cons. eauto.
  - intros [(s1 & Ha & Hr) Hall]. destruct (Hall 0%nat a eq_refl) as [Hv (s0 & [= <-] & Hs)].
    rewrite (proj2 (verify_next_iff s a s1)) by done. cbn [mbind res_bind]. apply IH. split; [done|].
    intros i b Hb. destruct (Hall (S i) b Hb) as [? (si & Hsi & ?)]. split; [done|]. exists si. split; [|done].
    cbn [take] in Hsi. apply replay_cons in Hsi as (s1' & Ha' & ?). congruence.
Qed.

(** The state the signatures of the message at [i] are checked in: the one
    before it, and for the genesis the one it sets up. *)
Definition signers aums (i : nat) : res ReplayState := replay ReplayState_default (take (max 1 i) aums).

Lemma verify_iff aums c :
  verify aums = Ok c
  <-> exists la, last aums = Some la /\ vc_head c = hash la
        /\ replay ReplayState_default aums = Ok (vc_state c)
        /\ forall i a, aums !! i = Some a ->
             static_validate a = Ok tt /\ exists s, signers aums i = Ok s /\ signed s a.
Proof.
  unfold verify. destruct aums as [|g rest]; [split; [done|]; naive_solver|].
  destruct (last (g :: rest)) as [la|] eqn:El; [|by apply last_None in El].
  destruct c as [s h]. cbn [vc_head vc_state]. split.
  - intros E. repeat bind_ok E. apply verify_genesis_iff in Em as (Hv & Hs & Ha).
    apply try_next_iff in Em0 as [Hr Hall]. simplify_eq/=. exists la. split_and!; [done|done| |].
    + by rewrite Ha.
    + intros [|i] a Hi; cbn in Hi.
      * simplify_eq. split; [done|]. exists r. split; [|done]. unfold signers. cbn. by rewrite Ha.
      * destruct (Hall i a Hi) as [? (si & Hsi & ?)]. split; [done|]. exists si. split; [|done].
        unfold signers. cbn. by rewrite Ha.
  - intros (la' & [= <-] & -> & Hr & Hall). apply replay_cons in Hr as (s1 & Ha & Hr).
    destruct (Hall 0%nat g eq_refl) as [Hv (s1' & Hs1 & Hs)]. unfold signers in Hs1. cbn in Hs1.
    rewrite Ha in Hs1. injection Hs1 as <-.
    rewrite (proj2 (verify_genesis_iff g s1)) by done. cbn [mbind res_bind].
    rewrite (proj2 (try_next_iff s1 rest s)); [done|]. split; [done|]. intros i a Hi.
    destruct (Hall (S i) a Hi) as [? (si & Hsi & ?)]. split; [done|]. exists si. split; [|done].
    unfold signers in Hsi. cbn in Hsi. by rewrite Ha in Hsi.
Qed.
End Verified.

Section Invariant.
Context `{TkaCrypto}.
Implicit Types (s : ReplayState) (a : Aum) (k : AumKey) (l aums : list Aum).

(** The trusted keys of a verified chain: distinct, valid, and never none. *)
Record good s : Prop := {
  g_distinct : distinct s;
  g_valid : Forall valid_key (rs_keys s);
  g_some : rs_keys s <> [];
}.

(** The message brings the key in. *)
Definition introduces a (id : list Z) : Prop :=
  match message_kind a with
  | AddKey => exists k, aum_key a = Some k /\ ak_public k = id
  | Checkpoint => exists st, aum_state a = Some st /\ id ∈ ids (default [] (as_keys st))
  | _ => False
  end.

(** What a successful update does to the list of keys. *)
Lemma apply_ok s a s' :
  apply_verified_aum s a = (s', Ok tt) ->
  check_link s a = Ok tt /\ rs_last_aum_hash s' = Some (hash a)
  /\ match message_kind a with
     | NoOp | AumInvalid => rs_keys s' = rs_keys s
     | AddKey => exists k, aum_key a = Some k /\ rs_keys s' = rs_keys s ++ [k] /\ ak_public k ∉ ids (rs_keys s)
     | UpdateKey => exists i k, rs_keys s !! i = Some k /\ ak_public k = aum_key_id a
         /\ rs_keys s' = <[i := update_key a k]> (rs_keys s) /\ valid_key (update_key a k)
     | RemoveKey => exists i k, rs_keys s !! i = Some k /\ ak_public k = aum_key_id a
         /\ rs_keys s' = delete i (rs_keys s) /\ length (rs_keys s) <> 1%nat
     | Checkpoint => exists st, aum_state a = Some st /\ rs_keys s' = default [] (as_keys st)
     end.
Proof.
  unfold apply_verified_aum. destruct (check_link s a) as [e|[]]; [done|]. intros E. split; [done|].
  destruct (message_kind a).
  - by injection E as <-.
  - destruct (aum_key a) as [k|]; [|done]. destruct (rs_get_key s _) eqn:Eg; [done|]. injection E as <-.
    apply rs_get_key_none in Eg. eauto.
  - destruct (match rs_keys s with [_] => _ | _ => _ end) eqn:Eo; [done|].
    destruct (find_key_index s _) as [[i k]|] eqn:Ef; [|done]. injection E as <-.
    apply find_key_index_some in Ef as (Hi & Ep & _). split; [done|]. exists i, k. split_and!; try done.
    intros El. destruct (rs_keys s) as [|k0 [|]]; try done. destruct i; [|done]. cbn in Hi. simplify_eq.
    by apply bool_decide_eq_false in Eo.
  - by injection E as <-.
  - destruct (find_key_index s _) as [[i k]|] eqn:Ef; [|done]. apply find_key_index_some in Ef as (Hi & Ep & _).
    destruct (key_static_validate (update_key a k)) as [|[]] eqn:Ev; [done|]. injection E as <-. split; [done|].
    exists i, k. done.
  - destruct (aum_state a) as [st|]; [|done]. destruct (rs_state_id s) as [id|]; [case_decide; [|done]|];
      injection E as <-; eauto.
Qed.

Lemma apply_good s a s' :
  distinct s -> Forall valid_key (rs_keys s) -> static_validate a = Ok tt ->
  apply_verified_aum s a = (s', Ok tt) ->
  distinct s' /\ Forall valid_key (rs_keys s') /\ (rs_keys s <> [] -> rs_keys s' <> []).
Proof.
  intros Hd Hf Hv Ha.
  pose proof (apply_refines s a Hd (static_validate_distinct a Hv)) as Hr. rewrite Ha in Hr.
  split; [apply Hr|]. clear Hr. apply static_validate_keys in Hv as [Hk Hs].
  apply apply_ok in Ha as (_ & _ & Ha). destruct (message_kind a).
  - rewrite Ha. done.
  - destruct Ha as (k & Ek & -> & _). split; [|by intros _ [_ ?]%app_nil]. apply Forall_app. split; [done|].
    constructor; [by apply Hk|done].
  - destruct Ha as (i & k & Hi & _ & -> & Hl). split; [by apply Forall_delete|]. intros _ E.
    apply (f_equal length) in E. rewrite length_delete in E by eauto. cbn in E.
    apply lookup_lt_Some in Hi. lia.
  - rewrite Ha. done.
  - destruct Ha as (i & k & Hi & _ & -> & Hu). split; [by apply Forall_insert|]. intros Hne E. apply Hne.
    apply length_zero_iff_nil. apply (f_equal length) in E. by rewrite length_insert in E.
  - destruct Ha as (st & Est & ->). destruct (Hs st Est) as (? & _ & ? & _). done.
Qed.

Lemma apply_ids s a s' id :
  apply_verified_aum s a = (s', Ok tt) -> id ∈ ids (rs_keys s') -> id ∈ ids (rs_keys s) \/ introduces a id.
Proof.
  intros Ha Hid. apply apply_ok in Ha as (_ & _ & Ha). unfold introduces. destruct (message_kind a).
  - left. by rewrite <- Ha.
  - destruct Ha as (k & Ek & Eks & _). rewrite Eks in Hid. apply ids_snoc in Hid as [?| ->]; eauto.
  - destruct Ha as (i & k & Hi & _ & Eks & _). left. unfold ids in *. rewrite Eks in Hid.
    rewrite (delete_Permutation _ _ _ Hi). by right.
  - left. by rewrite <- Ha.
  - destruct Ha as (i & k & Hi & _ & Eks & _). left. rewrite Eks, (ids_insert _ _ k) in Hid; done.
  - destruct Ha as (st & Est & Eks). right. rewrite Eks in Hid. eauto.
Qed.

Lemma replay_app s l1 l2 s' :
  replay s (l1 ++ l2) = Ok s' <-> exists s1, replay s l1 = Ok s1 /\ replay s1 l2 = Ok s'.
Proof.
  revert s. induction l1 as [|a l1 IH]; intros s.
  { cbn. split; [eauto|]. by intros (? & [= <-] & ?). }
  cbn [app]. rewrite replay_cons. setoid_rewrite replay_cons. setoid_rewrite IH. naive_solver.
Qed.

Lemma replay_snoc s l a s' :
  replay s (l ++ [a]) = Ok s' <-> exists s1, replay s l = Ok s1 /\ apply_verified_aum s1 a = (s', Ok tt).
Proof.
  rewrite replay_app. split; intros (s1 & H1 & H2); exists s1; (split; [done|]).
  - apply replay_cons in H2 as (s2 & ? & [= <-]). done.
  - apply replay_cons. eauto.
Qed.

(** Each message names the one before it; the first has no parent. *)
Definition linked aums : Prop :=
  forall i a, aums !! i = Some a ->
    prev_aum_hash a = match i with O => None | S j => hash <$> aums !! j end.

Lemma replay_linked aums s :
  replay ReplayState_default aums = Ok s -> linked aums /\ rs_last_aum_hash s = hash <$> last aums.
Proof.
  revert s. induction aums as [|a aums IH] using rev_ind; intros s Hr.
  { cbn in Hr. injection Hr as <-. split; [|done]. intros i a Hi. by rewrite lookup_nil in Hi. }
  apply replay_snoc in Hr as (s1 & H1 & Ha). destruct (IH _ H1) as [Hl Hh].
  apply apply_ok in Ha as (Hc & Hlast & _). rewrite last_snoc. split; [|done].
  intros i b Hi. apply lookup_app_Some in Hi as [Hi|[Hge Hi]].
  - rewrite (Hl i b Hi). destruct i; [done|]. apply lookup_lt_Some in Hi. by rewrite lookup_app_l by lia.
  - apply list_lookup_singleton_Some in Hi as [Hi <-]. assert (i = length aums) as -> by lia. clear Hge Hi.
    unfold check_link in Hc. rewrite Hh in Hc. destruct (last aums) as [la|] eqn:Ela; cbn in Hc.
    + destruct aums as [|x l _] using rev_ind; [done|]. rewrite last_snoc in Ela. simplify_eq.
      rewrite length_app. cbn. rewrite Nat.add_1_r, lookup_app_l by (rewrite length_app; cbn; lia).
      rewrite list_lookup_middle by done. cbn. destruct (prev_aum_hash a); [|done]. by case_decide; subst.
    + apply last_None in Ela as ->. cbn. by destruct (prev_aum_hash a).
Qed.

(** The key set of a replayed, validated chain. *)
Lemma replay_distinct l s s' :
  distinct s -> Forall valid_key (rs_keys s) -> Forall (fun a => static_validate a = Ok tt) l ->
  replay s l = Ok s' ->
  distinct s' /\ Forall valid_key (rs_keys s') /\ (rs_keys s <> [] -> rs_keys s' <> []).
Proof.
  intros Hd Hf Hl. revert s Hd Hf. induction Hl as [|a l Ha Hl IH]; intros s Hd Hf Hr.
  { cbn in Hr. by injection Hr as <-. }
  apply replay_cons in Hr as (s1 & H1 & Hr). destruct (apply_good _ _ _ Hd Hf Ha H1) as (Hd1 & Hf1 & Hn1).
  destruct (IH s1 Hd1 Hf1 Hr) as (? & ? & ?). auto.
Qed.

Lemma replay_ids l s s' id :
  replay s l = Ok s' -> id ∈ ids (rs_keys s') ->
  id ∈ ids (rs_keys s) \/ exists i a, l !! i = Some a /\ introduces a id.
Proof.
  revert s. induction l as [|a l IH]; intros s Hr Hid.
  { cbn in Hr. injection Hr as <-. by left. }
  apply replay_cons in Hr as (s1 & H1 & Hr). destruct (IH s1 Hr Hid) as [Hs|(i & b & Hi & Hb)].
  - destruct (apply_ids _ _ _ _ H1 Hs) as [?|?]; [by left|]. right. by exists 0%nat, a.
  - right. by exists (S i), b.
Qed.
End Invariant.

(** ** Theorems *)

Section Theorems.
Context `{TkaCrypto}.
Implicit Types (s : ReplayState) (a : Aum) (aums : list Aum).

Lemma trusted_ids s h id : key_trusted (mkAuthority h (to_state s)) id = true <-> id ∈ ids (rs_keys s).
Proof.
  rewrite key_trusted_iff. unfold to_state, ids. cbn. by rewrite <- list_fmap_compose.
Qed.

Lemma verified_good aums c : verify aums = Ok c -> good (vc_state c).
Proof.
  intros (la & Hl & _ & Hr & Hall)%verify_iff. destruct aums as [|g rest]; [done|].
  apply replay_cons in Hr as (s1 & Ha & Hr).
  destruct (Hall 0%nat g eq_refl) as [Hv (s1' & Hs1 & [Hne Hs])]. unfold signers in Hs1. cbn in Hs1.
  rewrite Ha in Hs1. injection Hs1 as <-.
  destruct (apply_good _ _ _ (NoDup_nil_2 : distinct ReplayState_default) (Forall_nil_2 _) Hv Ha) as (Hd1 & Hf1 & _).
  destruct (replay_distinct rest s1 (vc_state c) Hd1 Hf1) as (Hd & Hf & Hn); [|done|].
  { apply Forall_lookup. intros i a Hi. by destruct (Hall (S i) a Hi). }
  split; [done|done|]. apply Hn. intros E. destruct Hs as [|sig sigs [Hin _] _]; [done|].
  unfold ids in Hin. rewrite E in Hin. by apply elem_of_nil in Hin.
Qed.

Lemma verified_introduced aums c id :
  verify aums = Ok c -> id ∈ ids (rs_keys (vc_state c)) ->
  exists i a s, aums !! i = Some a /\ introduces a id /\ signers aums i = Ok s /\ signed s a.
Proof.
  intros (la & Hl & _ & Hr & Hall)%verify_iff Hid.
  destruct (replay_ids _ _ _ _ Hr Hid) as [Hn|(i & a & Hi & Ha)]; [by apply elem_of_nil in Hn|].
  destruct (Hall i a Hi) as [_ (s & ? & ?)]. eauto 10.
Qed.

(** C15: Verification accepts exactly the chains that are rooted in a genesis
    without a parent, name each message as the parent of the next, replay without
    an error, and whose every message is statically valid and signed, with all of
    its one or more signatures, by keys trusted before it (the genesis by the keys
    it sets up); the result has the hash of the last message and the replayed
    state. *)
Theorem verified_chain_exact (aums : list Aum) (c : VerifiedAumChain) :
  verify aums = Ok c
  <-> exists la, last aums = Some la /\ vc_head c = hash la /\ linked aums
        /\ replay ReplayState_default aums = Ok (vc_state c)
        /\ forall i a, aums !! i = Some a ->
             static_validate a = Ok tt /\ exists s, signers aums i = Ok s /\ signed s a.
Proof.
  rewrite verify_iff. split.
  - intros (la & ? & ? & Hr & ?). exists la. split_and!; try done. by eapply replay_linked.
  - intros (la & ? & ? & _ & ? & ?). eauto 10.
Qed.

(** C6: A peer the authority of a verified chain lets in traces back to a signed
    decision: its node key is the one of the outermost signature, the innermost
    is made by a key that a message of the chain brought in, and that message is
    signed by keys trusted at that point.  The trusted keys are distinct, valid
    and at least one. *)
Theorem authorized_peers_trace_back (aums : list Aum) (c : VerifiedAumChain) (node_key cbor : list Z) :
  verify aums = Ok c ->
  node_key_authorized (from_verified_chain c) node_key cbor = Ok tt ->
  good (vc_state c)
  /\ exists sig root i a s,
       decode_node_key_signature cbor = Ok sig /\ nks_pubkey sig = node_key
       /\ last (links sig) = Some root
       /\ zip_valid (nks_key_id root) (nks_sig_hash root) (nks_signature root)
       /\ aums !! i = Some a /\ introduces a (nks_key_id root)
       /\ signers aums i = Ok s /\ signed s a.
Proof.
  intros Hv Hn. split; [by eapply verified_good|]. unfold node_key_authorized in Hn. bind_ok Hn.
  apply authorized_details_iff in Em as (sig & root & Hd & (_ & Hp & Hl & _ & _ & Ht & Hz & _) & _).
  apply key_trusted_iff, trusted_ids in Ht.
  destruct (verified_introduced _ _ _ Hv Ht) as (i & a & s & ? & ? & ? & ?).
  exists sig, root, i, a, s. done.
Qed.

(** C21: Folding a message into the list of trusted keys is the update of a finite
    map from key ids to keys, on every branch: it succeeds exactly when the map
    update does, with the map, the head and the authority id that update gives,
    and keeps the ids distinct. *)
Theorem replay_refines_map (s : ReplayState) (a : Aum) :
  distinct s -> checkpoint_distinct a ->
  match apply_verified_aum s a with
  | (s', inr _) => trust_apply (abs s) a = Some (abs s') /\ distinct s'
  | (_, inl _) => trust_apply (abs s) a = None
  end.
Proof. apply apply_refines. Qed.

(** C35: At a fork the pick is a candidate that no other beats by weight, then by
    being a removal, then by the lowest hash, and listing the candidates in
    another order picks the message with the same hash, weight and kind of
    removal. *)
Theorem branch_choice (s : ReplayState) (c d : Aum) (cs ds : list Aum) :
  c :: cs ≡ₚ d :: ds ->
  pick_next_aum s c cs ∈ c :: cs
  /\ (forall x, x ∈ c :: cs ->
        weight s x <= weight s (pick_next_aum s c cs)
        /\ (weight s x = weight s (pick_next_aum s c cs) ->
            (removes x = true -> removes (pick_next_aum s c cs) = true)
            /\ (removes x = removes (pick_next_aum s c cs) ->
                lex_le (hash (pick_next_aum s c cs)) (hash x) = true)))
  /\ hash (pick_next_aum s c cs) = hash (pick_next_aum s d ds)
  /\ weight s (pick_next_aum s c cs) = weight s (pick_next_aum s d ds)
  /\ removes (pick_next_aum s c cs) = removes (pick_next_aum s d ds).
Proof.
  intros Hp. destruct (pick_next_best s c cs) as [Hc Bc], (pick_next_best s d ds) as [Hd Bd].
  destruct (not_better_antisym s (pick_next_aum s c cs) (pick_next_aum s d ds)) as (? & ? & ?);
    [apply Bd; by rewrite <- Hp|apply Bc; by rewrite Hp|].
  split_and!; try done. intros x Hx. specialize (Bc x Hx). rewrite <- not_true_iff_false, better_spec in Bc.
  split; [lia|]. intros Ew. split; intros Er.
  - destruct (removes (pick_next_aum s c cs)) eqn:E; [done|]. destruct Bc. right. auto.
  - destruct (lex_le _ _) eqn:E; [done|]. destruct Bc. right. auto.
Qed.

(** An update that fails leaves the state as it was, except an [UpdateKey]
    whose result is not a valid key: that one fails with the key already
    changed. *)
Theorem failed_update_state (s : ReplayState) (a : Aum) (s' : ReplayState) (e : TkaError) :
  apply_verified_aum s a = (s', Err e) ->
  s' = s
  \/ (message_kind a = UpdateKey
      /\ exists i k, rs_keys s !! i = Some k /\ ak_public k = aum_key_id a
           /\ rs_keys s' = <[i := update_key a k]> (rs_keys s) /\ ~ valid_key (update_key a k)).
Proof.
  unfold apply_verified_aum. destruct (check_link s a); [intros [= <- _]; by left|].
  destruct (message_kind a); try done.
  - repeat case_match; intros; simplify_eq; by left.
  - repeat case_match; intros; simplify_eq; by left.
  - destruct (find_key_index s _) as [[i k]|] eqn:Ef; [|intros [= <- _]; by left].
    apply find_key_index_some in Ef as (Hi & Ep & _).
    destruct (key_static_validate (update_key a k)) eqn:Ev; intros [= <- _].
    right. split; [done|]. exists i, k. split_and!; try done. unfold valid_key. congruence.
  - repeat case_match; intros; simplify_eq; by left.
Qed.
End Theorems.

Section Building.
Context `{TkaCryptoLaws}.
Implicit Types (s : ReplayState) (a : Aum) (aums : list Aum).

Lemma sign_static_validate a sk : static_validate a = Ok tt -> static_validate (aum_sign a sk) = Ok tt.
Proof.
  unfold static_validate. cbn [aum_key aum_signatures aum_state aum_key_id aum_votes aum_meta message_kind aum_sign].
  intros E. repeat bind_ok E. destruct u, u0, u1.
  cbn [mbind res_bind]. rewrite try_each_unit_snoc; [exact E|done|]. cbn. by rewrite ed_public_len, ed_sign_len.
Qed.

Lemma sign_signed s a sk :
  aum_signatures a = [] \/ signed s a -> ed_public sk ∈ ids (rs_keys s) -> signed s (aum_sign a sk).
Proof.
  intros Ha Hin. split; [cbn; by destruct (aum_signatures a)|].
  cbn [aum_signatures aum_sign]. apply Forall_app. split.
  - destruct Ha as [->|[_ Ha]]; [constructor|exact Ha].
  - constructor; [|constructor]. cbn [sg_key_id sg_signature]. split; [done|].
    apply (ed_sign_zip_valid sk (aum_sig_hash a)).
Qed.

(** The builders make what verification accepts: a genesis checkpoint signed
    by one of the keys it lists verifies and its keys become the trusted ones;
    and a valid message that replays on a verified chain verifies as its next
    message once signed by a trusted key. *)
Theorem signing_extends_chain (ks : list AumKey) (ds : list (list Z)) (g a : Aum) (sk : SigningKey)
    (aums : list Aum) (c : VerifiedAumChain) (s' : ReplayState) :
  new_genesis_checkpoint ks ds = Ok g -> ed_public sk ∈ ids ks ->
  verify aums = Ok c -> aum_signatures a = [] -> static_validate a = Ok tt ->
  ed_public sk ∈ ids (rs_keys (vc_state c)) ->
  apply_verified_aum (vc_state c) (aum_sign a sk) = (s', Ok tt) ->
  verify [aum_sign g sk] = Ok (mkVerified (mkReplay ks (Some (hash (aum_sign g sk))) (Some (0, 0)))
                                 (hash (aum_sign g sk)))
  /\ verify (aums ++ [aum_sign a sk]) = Ok (mkVerified s' (hash (aum_sign a sk))).
Proof.
  intros Hg Hk Hv Hsig Hst Hin Ha. split.
  - unfold new_genesis_checkpoint in Hg. bind_ok Hg. injection Hg as <-. destruct u.
    apply (sign_static_validate _ sk) in Em. set (g' := aum_sign _ sk) in *.
    unfold verify. cbn [last]. rewrite (proj2 (verify_genesis_iff g' (mkReplay ks (Some (hash g')) (Some (0, 0)))));
      [done|]. split_and!; [done| |done].
    apply sign_signed; [by left|exact Hk].
  - apply verify_iff in Hv as (la & Hl & _ & Hr & Hall). apply verify_iff. exists (aum_sign a sk).
    rewrite last_snoc. split_and!; [done|done|apply replay_snoc; eauto|].
    intros i b Hi. apply lookup_app_Some in Hi as [Hi|[Hge Hi]].
    + destruct (Hall i b Hi) as [? (s & Hs & ?)]. split; [done|]. exists s. split; [|done].
      unfold signers in *. apply lookup_lt_Some in Hi. rewrite take_app_le by lia. done.
    + apply list_lookup_singleton_Some in Hi as [Hi <-]. assert (i = length aums) as -> by lia.
      split; [by apply sign_static_validate|]. exists (vc_state c). split.
      * unfold signers. assert (length aums <> 0%nat) by (by destruct aums).
        rewrite Nat.max_r by lia. by rewrite take_app_length.
      * apply sign_signed; [by left|done].
Qed.
End Building.

(** *** Witnesses *)

#[local] Existing Instances ToyTka.toy_tka ToyTka.toy_tka_laws.

Module DemoChain.

Definition k (n : Z) : AumKey := mkAumKey Ed25519 1 (ToyTka.pub n) [].

Definition bare (kind : AumKind) (prev : option AumHash) (key : option AumKey) (id : list Z) : Aum :=
  mkAum kind prev key id None None [] [].

(** Key 3 sets up the chain and adds key 4. *)
Definition genesis : Aum := aum_sign (bare AddKey None (Some (k 3)) []) (3 : SigningKey).
Definition second : Aum := aum_sign (bare AddKey (Some (hash genesis)) (Some (k 4)) []) (3 : SigningKey).
Definition third : Aum := bare RemoveKey (Some (hash second)) None (ToyTka.pub 3).

Definition chain : list Aum := [genesis; second].

Definition state : ReplayState := mkReplay [k 3; k 4] (Some (hash second)) None.

Lemma chain_verifies : verify chain = Ok (mkVerified state (hash second)).
Proof. vm_compute. reflexivity. Qed.

Definition disablement : list (list Z) := [replicate 32 1].

Definition checkpoint : Aum :=
  mkAum Checkpoint None None [] (Some (mkAumState None (Some disablement) (Some [k 4]) 0 0)) None [] [].

(** An update of key 3 to more votes than a key can have. *)
Definition bad_update : Aum := mkAum UpdateKey (Some (hash second)) None (ToyTka.pub 3) None (Some 5000) [] [].

Definition bad_state : ReplayState :=
  mkReplay [mkAumKey Ed25519 5000 (ToyTka.pub 3) []; k 4] (Some (hash second)) None.

Lemma bad_update_fails : apply_verified_aum state bad_update = (bad_state, Err BadKeyState).
Proof. vm_compute. reflexivity. Qed.
End DemoChain.

Lemma authorized_peers_trace_back_witness :
  good DemoChain.state
  /\ exists sig root i a s,
       decode_node_key_signature (nks_serialize (sign_direct (replicate 32 7) 4)) = Ok sig
       /\ nks_pubkey sig = replicate 32 7
       /\ last (links sig) = Some root
       /\ zip_valid (nks_key_id root) (nks_sig_hash root) (nks_signature root)
       /\ DemoChain.chain !! i = Some a /\ introduces a (nks_key_id root)
       /\ signers DemoChain.chain i = Ok s /\ signed s a.
Proof.
  apply (authorized_peers_trace_back DemoChain.chain (mkVerified DemoChain.state (hash DemoChain.second))).
  - apply DemoChain.chain_verifies.
  - vm_compute. reflexivity.
Defined.

Lemma replay_refines_map_witness :
  match apply_verified_aum DemoChain.state DemoChain.third with
  | (s', inr _) => trust_apply (abs DemoChain.state) DemoChain.third = Some (abs s') /\ distinct s'
  | (_, inl _) => trust_apply (abs DemoChain.state) DemoChain.third = None
  end.
Proof.
  apply replay_refines_map; [|exact I]. apply NoDup_cons. split; [|apply NoDup_singleton].
  rewrite list_elem_of_singleton. discriminate.
Defined.

Lemma branch_choice_witness :
  let c := DemoChain.second in
  let d := DemoChain.third in
  let s := DemoChain.state in
  pick_next_aum s c [d] ∈ [c; d]
  /\ (forall x, x ∈ [c; d] ->
        weight s x <= weight s (pick_next_aum s c [d])
        /\ (weight s x = weight s (pick_next_aum s c [d]) ->
            (removes x = true -> removes (pick_next_aum s c [d]) = true)
            /\ (removes x = removes (pick_next_aum s c [d]) ->
                lex_le (hash (pick_next_aum s c [d])) (hash x) = true)))
  /\ hash (pick_next_aum s c [d]) = hash (pick_next_aum s d [c])
  /\ weight s (pick_next_aum s c [d]) = weight s (pick_next_aum s d [c])
  /\ removes (pick_next_aum s c [d]) = removes (pick_next_aum s d [c]).
Proof. apply branch_choice, Permutation_swap. Defined.

Lemma failed_update_state_witness :
  DemoChain.bad_state = DemoChain.state
  \/ (message_kind DemoChain.bad_update = UpdateKey
      /\ exists i k, rs_keys DemoChain.state !! i = Some k /\ ak_public k = aum_key_id DemoChain.bad_update
           /\ rs_keys DemoChain.bad_state = <[i := update_key DemoChain.bad_update k]> (rs_keys DemoChain.state)
           /\ ~ valid_key (update_key DemoChain.bad_update k)).
Proof. exact (failed_update_state _ _ _ _ DemoChain.bad_update_fails). Defined.

Lemma signing_extends_chain_witness :
  let g := DemoChain.checkpoint in
  verify [aum_sign g (4 : SigningKey)]
    = Ok (mkVerified (mkReplay [DemoChain.k 4] (Some (hash (aum_sign g (4 : SigningKey)))) (Some (0, 0)))
            (hash (aum_sign g (4 : SigningKey))))
  /\ verify (DemoChain.chain ++ [aum_sign DemoChain.third (4 : SigningKey)])
     = Ok (mkVerified (mkReplay [DemoChain.k 4] (Some (hash (aum_sign DemoChain.third (4 : SigningKey)))) None)
             (hash (aum_sign DemoChain.third (4 : SigningKey)))).
Proof.
  apply (signing_extends_chain (H := ToyTka.toy_tka) [DemoChain.k 4] DemoChain.disablement
    DemoChain.checkpoint DemoChain.third 4 DemoChain.chain (mkVerified DemoChain.state (hash DemoChain.second))).
  - vm_compute. reflexivity.
  - left.
  - apply DemoChain.chain_verifies.
  - reflexivity.
  - vm_compute. reflexivity.
  - right. left.
  - vm_compute. reflexivity.
Defined.
