(* ===== verification/TkaSync.v ===== *)
(** * TkaSync: catching a chain up with a peer's (src/ts_tka/src/lib.rs)

    The store of AUMs, the walks over it, and the exchange of offers by which two
    nodes work out which messages one of them is missing. *)

From stdpp Require Import list gmap strings.
From S2P Require Import Prelude Bytes Cbor TkaWire TkaAuth TkaChain.

Local Open Scope Z_scope.

Definition MAX_SYNC_HEAD_INTERSECTION_ITER : nat := 1000.
Definition MAX_SYNC_ITER : nat := 2000.

(** [trait AumStore] *)
Class AumStore (T : Type) := {
  st_aum : T -> AumHash -> option Aum;
  child_aums : T -> AumHash -> list Aum;
}.

Record MemAumStore := mkStore {
  by_hash : gmap (list Z) Aum;
  children : gmap (list Z) (list AumHash);
}.

Definition store_new : MemAumStore := mkStore ∅ ∅.

Record SyncOffer := mkOffer {
  so_head : AumHash;
  so_ancestors : list AumHash;
}.

Record Intersection := mkIntersection {
  up_to_date : bool;
  head_intersection : option AumHash;
  tail_intersection : option AumHash;
}.

#[export] Instance mem_store : AumStore MemAumStore := {|
  st_aum := fun st h => by_hash st !! (h : list Z);
  child_aums := fun st h =>
    match children st !! (h : list Z) with
    | Some kids => omap (fun k : AumHash => by_hash st !! (k : list Z)) kids
    | None => []
    end;
|}.

Section Sync.
Context `{TkaCrypto}.

Definition store_insert (st : MemAumStore) (a : Aum) : MemAumStore :=
  let h := hash a in
  let kids' :=
    match prev_aum_hash a with
    | Some parent =>
        let kids := default [] (children st !! (parent : list Z)) in
        <[(parent : list Z) := if bool_decide (h ∈ kids) then kids else kids ++ [h]]> (children st)
    | None => children st
    end in
  mkStore (<[(h : list Z) := a]> (by_hash st)) kids'.

Definition from_aums (aums : list Aum) : MemAumStore := foldl store_insert store_new aums.

Definition store_len (st : MemAumStore) : nat := size (by_hash st).

(** The loop of [linear_chain_from]; a failed fold keeps whatever state it left. *)
Fixpoint linear_loop (n : nat) (st : MemAumStore) (state : ReplayState) (curs : Aum) (out : list Aum) :
    res (list Aum) :=
  match n with
  | O => Err BadChain
  | S n =>
      let state := (apply_verified_aum state curs).1 in
      let out := out ++ [curs] in
      match child_aums st (hash curs) with
      | [] => Ok out
      | c :: cs => linear_loop n st state (pick_next_aum state c cs) out
      end
  end.

Definition linear_chain_from (st : MemAumStore) (oldest : AumHash) : res (list Aum) :=
  match st_aum st oldest with
  | None => Err BadChain
  | Some curs => linear_loop MAX_SYNC_ITER st ReplayState_default curs []
  end.

Section Walks.
Context `{AumStore T}.
Implicit Types storage : T.

(** The child [fast_forward] advances to: the one on the path, or the pick. *)
Definition next_aum (path : option (gset (list Z))) (state : ReplayState) (kids : list Aum) : option Aum :=
  match path with
  | Some p => find_first (fun c => bool_decide ((hash c : list Z) ∈ p)) kids
  | None => match kids with [] => None | c :: cs => Some (pick_next_aum state c cs) end
  end.

(** The loop of [fast_forward], with what [gather] has gathered. *)
Fixpoint fast_loop {G} (n : nat) storage (gather : G -> Aum -> ReplayState -> res (G * ReplayState * bool))
    (path : option (gset (list Z))) (stop_at : option AumHash) (curs : Aum) (state : ReplayState) (g : G) :
    res (G * (Aum * ReplayState)) :=
  match n with
  | O => Err BadChain
  | S n =>
      if decide (Some (hash curs) = stop_at) then Ok (g, (curs, state))
      else
        '(g, state, stop) ← gather g curs state;
        if (stop : bool) then Ok (g, (curs, state))
        else
          match next_aum path state (child_aums storage (hash curs)) with
          | None => Ok (g, (curs, state))
          | Some nx =>
              match apply_verified_aum state nx with
              | (_, inl e) => Err e
              | (state, inr _) => fast_loop n storage gather path stop_at nx state g
              end
          end
  end.

Definition fast_forward {G} storage (max_iter : nat) (start_state : ReplayState)
    (gather : G -> Aum -> ReplayState -> res (G * ReplayState * bool)) (g : G)
    (path : option (gset (list Z))) (stop_at : option AumHash) : res (G * (Aum * ReplayState)) :=
  start_hash ← ok_or (rs_last_aum_hash start_state) (Decode "fast_forward from a state with no head");
  curs ← ok_or (st_aum storage start_hash) BadParent;
  fast_loop max_iter storage gather path stop_at curs start_state g.

(** [&mut |_, _| Ok(false)] *)
Definition no_gather (g : unit) (_ : Aum) (s : ReplayState) : res (unit * ReplayState * bool) := Ok (g, s, false).

(** The backward loop of [compute_state_at]. *)
Fixpoint back_loop (n : nat) storage (curs : Aum) (path : gset (list Z)) : res (ReplayState * gset (list Z)) :=
  match n with
  | O => Err BadChain
  | S n =>
      let path := {[ (hash curs : list Z) ]} ∪ path in
      match message_kind curs with
      | Checkpoint =>
          snapshot ← ok_or (aum_state curs) (Decode "checkpoint AUM missing state");
          Ok (mkReplay (default [] (as_keys snapshot)) (Some (hash curs))
                (Some (as_state_id1 snapshot, as_state_id2 snapshot)), path)
      | _ =>
          match prev_aum_hash curs with
          | None =>
              match apply_verified_aum ReplayState_default curs with
              | (_, inl e) => Err e
              | (s, inr _) => Ok (s, path)
              end
          | Some parent =>
              p ← ok_or (st_aum storage parent) BadParent;
              back_loop n storage p path
          end
      end
  end.

Definition compute_state_at storage (max_iter : nat) (want_hash : AumHash) : res (option ReplayState) :=
  match st_aum storage want_hash with
  | None => Ok None
  | Some top =>
      '(state, path) ← back_loop max_iter storage top ∅;
      '(_, (_, end_state)) ← fast_forward storage max_iter state no_gather tt (Some path) (Some want_hash);
      Ok (Some end_state)
  end.

Fixpoint offer_loop (n : nat) storage (oldest curs : AumHash) (ancestors : list AumHash) : list AumHash :=
  match n with
  | O => ancestors
  | S n =>
      match st_aum storage curs with
      | None => ancestors
      | Some parent =>
          if decide (hash parent = oldest) then ancestors
          else
            let ancestors := match message_kind parent with Checkpoint => ancestors ++ [curs] | _ => ancestors end in
            match prev_aum_hash parent with
            | Some prev => offer_loop n storage oldest prev ancestors
            | None => ancestors
            end
      end
  end.

Definition sync_offer (a : Authority) storage (oldest : AumHash) : SyncOffer :=
  mkOffer (au_head a) (offer_loop MAX_SYNC_HEAD_INTERSECTION_ITER storage oldest (au_head a) [] ++ [oldest]).

(** Whether the walk back from [curs] meets the remote's head. *)
Fixpoint head_loop (n : nat) storage (remote_head curs : AumHash) : bool :=
  match n with
  | O => false
  | S n =>
      match st_aum storage curs with
      | None => false
      | Some parent =>
          if decide (hash parent = remote_head) then true
          else match prev_aum_hash parent with
               | Some prev => head_loop n storage remote_head prev
               | None => false
               end
      end
  end.

Fixpoint tail_loop storage (local_head : AumHash) (ancestors : list AumHash) : res Intersection :=
  match ancestors with
  | [] => Err BadChain
  | ancestor :: ancestors =>
      st ← compute_state_at storage MAX_SYNC_ITER ancestor;
      match st with
      | None => tail_loop storage local_head ancestors
      | Some state =>
          '(_, (la, _)) ← fast_forward storage MAX_SYNC_ITER state no_gather tt None (Some local_head);
          if decide (hash la = local_head)
          then Ok (mkIntersection false None (Some ancestor))
          else tail_loop storage local_head ancestors
      end
  end.

Definition compute_sync_intersection storage (local_offer remote_offer : SyncOffer) : res Intersection :=
  if decide (so_head remote_offer = so_head local_offer)
  then Ok (mkIntersection true (Some (so_head local_offer)) None)
  else if match st_aum storage (so_head remote_offer) with
          | Some _ => head_loop MAX_SYNC_HEAD_INTERSECTION_ITER storage (so_head remote_offer) (so_head local_offer)
          | None => false
          end
  then Ok (mkIntersection false (Some (so_head remote_offer)) None)
  else tail_loop storage (so_head local_offer) (so_ancestors remote_offer).

(** The closure of [missing_aums]. *)
Definition gather_from (from : AumHash) (out : list Aum) (curs : Aum) (s : ReplayState) :
    res (list Aum * ReplayState * bool) :=
  Ok (if decide (hash curs = from) then out else out ++ [curs], s, false).

Definition missing_aums (a : Authority) storage (remote_offer : SyncOffer) (oldest : AumHash) : res (list Aum) :=
  let local_offer := sync_offer a storage oldest in
  isect ← compute_sync_intersection storage local_offer remote_offer;
  if up_to_date isect then Ok []
  else
    from ← ok_or (match head_intersection isect with Some h => Some h | None => tail_intersection isect end) BadChain;
    st ← compute_state_at storage MAX_SYNC_ITER from;
    match st with
    | None => Err BadParent
    | Some state =>
        '(out, _) ← fast_forward storage MAX_SYNC_ITER state (gather_from from) [] None None;
        Ok out
    end.
End Walks.
End Sync.

(** ** A store that holds a chain *)

Section Holds.
Context `{TkaCrypto} `{AumStore T}.
Implicit Types (storage : T) (aums : list Aum) (a b : Aum) (i j k n : nat) (s : ReplayState).

(** The messages of the chain and no others, each with the next as its only
    child. *)
Record holds storage aums : Prop := {
  holds_aum : forall i a, aums !! i = Some a -> st_aum storage (hash a) = Some a;
  holds_only : forall h a, st_aum storage h = Some a -> a ∈ aums /\ hash a = h;
  holds_kids : forall i a, aums !! i = Some a -> child_aums storage (hash a) = option_list (aums !! S i);
}.

(** A chain that replays, without a collision of hashes. *)
Record sound_chain aums : Prop := {
  sc_replay : exists s, replay ReplayState_default aums = Ok s;
  sc_hashes : NoDup (hash <$> aums);
}.

(** The state after the message at [i]. *)
Definition state_at aums i s : Prop := replay ReplayState_default (take (S i) aums) = Ok s.

Section Walk.
Variables (storage : T) (aums : list Aum).
Hypothesis Hst : holds storage aums.
Hypothesis Hch : sound_chain aums.

Lemma state_at_exists i a : aums !! i = Some a -> exists s, state_at aums i s.
Proof.
  intros Hi. destruct (sc_replay _ Hch) as [s Hs]. rewrite <- (take_drop (S i) aums) in Hs.
  apply replay_app in Hs as (si & Hsi & _). by exists si.
Qed.

Lemma state_at_step i a s s' :
  aums !! S i = Some a -> state_at aums i s -> state_at aums (S i) s' -> apply_verified_aum s a = (s', Ok tt).
Proof.
  unfold state_at. intros Hi Hs Hs'. erewrite (take_S_r aums (S i)) in Hs' by done.
  apply replay_snoc in Hs' as (s1 & H1 & ?). congruence.
Qed.

Lemma state_at_first a s : aums !! 0%nat = Some a -> state_at aums 0 s -> apply_verified_aum ReplayState_default a = (s, Ok tt).
Proof.
  unfold state_at. intros Hi Hs. erewrite (take_S_r aums 0) in Hs by done.
  apply replay_snoc in Hs as (s1 & [= <-] & ?). done.
Qed.

Lemma state_at_last i a s : aums !! i = Some a -> state_at aums i s -> rs_last_aum_hash s = Some (hash a).
Proof.
  unfold state_at. intros Hi Hs. apply replay_linked in Hs as [_ ->].
  erewrite take_S_r by done. by rewrite last_snoc.
Qed.

Lemma chain_linked : linked aums.
Proof. destruct (sc_replay _ Hch) as [s Hs]. by eapply replay_linked. Qed.

Lemma prev_at i a b : aums !! i = Some a -> aums !! S i = Some b -> prev_aum_hash b = Some (hash a).
Proof. intros Ha Hb. rewrite (chain_linked _ _ Hb). by rewrite Ha. Qed.

Lemma prev_first a : aums !! 0%nat = Some a -> prev_aum_hash a = None.
Proof. intros Ha. by rewrite (chain_linked _ _ Ha). Qed.

Lemma hash_inj i j a b : aums !! i = Some a -> aums !! j = Some b -> hash a = hash b -> i = j.
Proof.
  intros Ha Hb E. eapply (NoDup_lookup (hash <$> aums)); [apply Hch| |].
  - by rewrite list_lookup_fmap, Ha.
  - rewrite list_lookup_fmap, Hb. cbn. by rewrite E.
Qed.

(** A closure that adds each message to what it has gathered. *)
Definition accumulates {G} (upd : G -> Aum -> G) (gather : G -> Aum -> ReplayState -> res (G * ReplayState * bool)) : Prop :=
  forall g a s, gather g a s = Ok (upd g a, s, false).

(** The messages from [i] up to and not including [j]. *)
Definition between i j : list Aum := take (j - i) (drop i aums).

Lemma between_step i j a : aums !! i = Some a -> (i < j)%nat -> between i j = a :: between (S i) j.
Proof.
  intros Hi Hlt. unfold between. replace (j - i)%nat with (S (j - S i)) by lia.
  by rewrite (drop_S _ a) by done.
Qed.

Lemma next_only path s c :
  (forall p, path = Some p -> (hash c : list Z) ∈ p) -> next_aum path s [c] = Some c.
Proof.
  intros Hp. destruct path as [p|]; [|done]. unfold next_aum, find_first. cbn.
  rewrite decide_True; [done|]. by apply bool_decide_pack, Hp.
Qed.

(** The walk forward along the chain, to the message it is to stop at. *)
Lemma fast_loop_stops {G} (upd : G -> Aum -> G) gather path n i j a b s s' g :
  accumulates upd gather ->
  aums !! i = Some a -> aums !! j = Some b -> (i <= j)%nat -> (j - i < n)%nat ->
  state_at aums i s -> state_at aums j s' ->
  (forall p, path = Some p -> forall k x, (i <= k <= j)%nat -> aums !! k = Some x -> (hash x : list Z) ∈ p) ->
  fast_loop n storage gather path (Some (hash b)) a s g = Ok (foldl upd g (between i j), (b, s')).
Proof.
  intros Hg Ha Hb Hij Hn Hs Hs' Hp. revert n i a s g Ha Hij Hn Hs Hp.
  induction n as [|n IH]; intros i a s g Ha Hij Hn Hs Hp; [lia|]. cbn [fast_loop].
  case_decide as Ed.
  { injection Ed as Ed. assert (i = j) as -> by (by eapply hash_inj). simplify_eq.
    unfold between. rewrite Nat.sub_diag, take_0. unfold state_at in *. cbn. congruence. }
  assert (i <> j) as Hne by (intros ->; congruence).
  rewrite Hg. cbn [mbind res_bind]. erewrite (holds_kids _ _ Hst) by done.
  destruct (lookup_lt_is_Some_2 aums (S i)) as [c Hc]; [apply lookup_lt_Some in Hb; lia|].
  rewrite Hc. change (option_list (Some c)) with [c].
  rewrite next_only by (intros p Ep; eapply (Hp p Ep (S i)); [lia|done]).
  destruct (state_at_exists _ _ Hc) as [sc Hsc]. rewrite (state_at_step _ _ _ _ Hc Hs Hsc).
  rewrite (between_step i j a) by (done || lia). cbn [foldl].
  apply (IH (S i)); [done|lia|lia|done|]. intros p Ep k x Hk. apply (Hp p Ep). lia.
Qed.

(** The walk forward to the head. *)
Lemma fast_loop_ends {G} (upd : G -> Aum -> G) gather n i a s g b s' :
  accumulates upd gather ->
  aums !! i = Some a -> (length aums - i <= n)%nat -> state_at aums i s ->
  last aums = Some b -> replay ReplayState_default aums = Ok s' ->
  fast_loop n storage gather None None a s g = Ok (foldl upd g (drop i aums), (b, s')).
Proof.
  intros Hg Ha Hn Hs Hb Hs'. revert i a s g Ha Hn Hs. induction n as [|n IH]; intros i a s g Ha Hn Hs.
  { apply lookup_lt_Some in Ha. lia. }
  cbn [fast_loop]. rewrite decide_False by done. rewrite Hg. cbn [mbind res_bind].
  erewrite (holds_kids _ _ Hst) by done. rewrite (drop_S _ a) by done. cbn [foldl].
  destruct (aums !! S i) as [c|] eqn:Hc.
  - change (option_list (Some c)) with [c]. destruct (state_at_exists _ _ Hc) as [sc Hsc]. rewrite next_only by done.
    rewrite (state_at_step _ _ _ _ Hc Hs Hsc). apply IH; [done|lia|done].
  - apply lookup_ge_None in Hc. rewrite drop_ge by lia. cbn.
    apply lookup_lt_Some in Ha as Hlt. unfold state_at in Hs. rewrite take_ge in Hs by lia.
    rewrite last_lookup in Hb. replace (Init.Nat.pred (length aums)) with i in Hb by lia. simplify_eq. congruence.
Qed.
(** A checkpoint's snapshot is the state after it. *)
Lemma checkpoint_state i a s st :
  aums !! i = Some a -> message_kind a = Checkpoint -> aum_state a = Some st -> state_at aums i s ->
  s = mkReplay (default [] (as_keys st)) (Some (hash a)) (Some (as_state_id1 st, as_state_id2 st)).
Proof.
  unfold state_at. intros Hi Hk Est Hs. erewrite take_S_r in Hs by done.
  apply replay_snoc in Hs as (s1 & _ & Ha). unfold apply_verified_aum in Ha. rewrite Hk, Est in Ha.
  destruct (check_link s1 a); [done|]. destruct (rs_state_id s1) as [id|]; [case_decide; [|done]|];
    by injection Ha as <-.
Qed.

Lemma checkpoint_has_state i a :
  aums !! i = Some a -> message_kind a = Checkpoint -> exists st, aum_state a = Some st.
Proof.
  intros Hi Hk. destruct (state_at_exists _ _ Hi) as [s Hs]. unfold state_at in Hs.
  erewrite take_S_r in Hs by done. apply replay_snoc in Hs as (s1 & _ & Ha).
  apply apply_ok in Ha as (_ & _ & Ha). rewrite Hk in Ha. naive_solver.
Qed.

(** The walk back ends at a state of the chain, with the way there on the path. *)
Lemma back_loop_state n i a path :
  aums !! i = Some a -> (i < n)%nat ->
  exists j sj p b, (j <= i)%nat /\ aums !! j = Some b /\ back_loop n storage a path = Ok (sj, p)
    /\ state_at aums j sj /\ path ⊆ p
    /\ forall k x, (j <= k <= i)%nat -> aums !! k = Some x -> (hash x : list Z) ∈ p.
Proof.
  revert i a path. induction n as [|n IH]; intros i a path Hi Hn; [lia|]. cbn [back_loop].
  set (path' := {[ (hash a : list Z) ]} ∪ path).
  assert (forall k x, (i <= k <= i)%nat -> aums !! k = Some x -> (hash x : list Z) ∈ path') as Hself.
  { intros k x Hk Hx. assert (k = i) as -> by lia. simplify_eq. set_solver. }
  destruct (decide (message_kind a = Checkpoint)) as [Hk|Hk].
  { rewrite Hk. destruct (checkpoint_has_state _ _ Hi Hk) as [st Est]. rewrite Est. cbn [ok_or mbind res_bind].
    destruct (state_at_exists _ _ Hi) as [s Hs]. exists i, s, path', a. rewrite <- (checkpoint_state i a s st) by done.
    split_and!; try done. set_solver. }
  assert (forall X Y : res (ReplayState * gset (list Z)),
    match message_kind a with Checkpoint => Y | _ => X end = X) as Hm by (intros; by destruct (message_kind a)).
  rewrite Hm. clear Hm. destruct i as [|i].
  - rewrite (prev_first _ Hi). destruct (state_at_exists _ _ Hi) as [s Hs].
    rewrite (state_at_first _ _ Hi Hs). exists 0%nat, s, path', a. split_and!; try done. set_solver.
  - destruct (lookup_lt_is_Some_2 aums i) as [c Hc]; [apply lookup_lt_Some in Hi; lia|].
    rewrite (prev_at _ _ _ Hc Hi), (holds_aum _ _ Hst _ _ Hc). cbn [ok_or mbind res_bind].
    destruct (IH i c path' Hc ltac:(lia)) as (j & sj & p & b & Hj & Hb & E & Hs & Hsub & Hp).
    exists j, sj, p, b. split_and!; try done; [lia|set_solver|].
    intros k x Hkx Hx. destruct (decide (k = S i)) as [->|Hne]; [|apply (Hp k x); [lia|done]].
    apply Hsub. by apply (Hself (S i)).
Qed.

Lemma no_gather_accumulates : accumulates (fun (g : unit) (_ : Aum) => g) no_gather.
Proof. by intros [] a s. Qed.

Lemma gather_accumulates from :
  accumulates (fun out a => if decide (hash a = from) then out else out ++ [a]) (gather_from from).
Proof. by intros g a s. Qed.

Lemma compute_state_at_state n i a s :
  aums !! i = Some a -> state_at aums i s -> (i < n)%nat ->
  compute_state_at storage n (hash a) = Ok (Some s).
Proof.
  intros Hi Hs Hn. unfold compute_state_at. rewrite (holds_aum _ _ Hst _ _ Hi).
  destruct (back_loop_state n i a ∅ Hi Hn) as (j & sj & p & b & Hj & Hb & -> & Hsj & _ & Hp).
  cbn [mbind res_bind]. unfold fast_forward. rewrite (state_at_last _ _ _ Hb Hsj). cbn [ok_or mbind res_bind].
  rewrite (holds_aum _ _ Hst _ _ Hb). cbn [ok_or mbind res_bind].
  rewrite (fast_loop_stops _ _ (Some p) n j i b a sj s tt no_gather_accumulates Hb Hi Hj); [done|lia|done|done|].
  by intros p' [= <-].
Qed.

Lemma head_loop_finds n i j a b :
  aums !! i = Some a -> aums !! j = Some b -> (i <= j)%nat -> (j - i < n)%nat ->
  head_loop n storage (hash a) (hash b) = true.
Proof.
  intros Ha Hb Hij Hn. revert j b Hb Hij Hn. induction n as [|n IH]; intros j b Hb Hij Hn; [lia|]. cbn [head_loop].
  rewrite (holds_aum _ _ Hst _ _ Hb). case_decide as E; [done|].
  destruct j as [|j]; [assert (i = 0%nat) as -> by lia; congruence|].
  assert (i <> S j) by (intros ->; congruence).
  destruct (lookup_lt_is_Some_2 aums j) as [c Hc]; [apply lookup_lt_Some in Hb; lia|].
  rewrite (prev_at _ _ _ Hc Hb). apply (IH j c); [done|lia|lia].
Qed.

(** The messages a walk from [i] gathers when it leaves the first one out. *)
Lemma gathered i a out :
  aums !! i = Some a ->
  foldl (fun out x => if decide (hash x = hash a) then out else out ++ [x]) out (drop i aums)
  = out ++ drop (S i) aums.
Proof.
  intros Hi. rewrite (drop_S _ a) by done. cbn [foldl]. rewrite decide_True by done.
  assert (forall k l out, (i < k)%nat -> l = drop k aums ->
    foldl (fun out x => if decide (hash x = hash a) then out else out ++ [x]) out l = out ++ l) as Hall.
  { intros k l. revert k. induction l as [|x l IH]; intros k o Hk El; [by rewrite app_nil_r|].
    assert (aums !! k = Some x) as Hx.
    { rewrite <- (Nat.add_0_r k), <- lookup_drop, <- El. done. }
    cbn [foldl]. rewrite decide_False by (intros E; pose proof (hash_inj _ _ _ _ Hx Hi E); lia).
    rewrite (IH (S k)); [by rewrite <- app_assoc|lia|]. rewrite (drop_S _ x) in El by done. by injection El. }
  by apply (Hall (S i)); [lia|].
Qed.

(** What is missing after the message at [i]. *)
Lemma forward_from i a s :
  aums !! i = Some a -> state_at aums i s -> (length aums <= MAX_SYNC_ITER)%nat ->
  exists r, fast_forward storage MAX_SYNC_ITER s (gather_from (hash a)) [] None None = Ok (drop (S i) aums, r).
Proof.
  intros Hi Hs Hl. unfold fast_forward. rewrite (state_at_last _ _ _ Hi Hs). cbn [ok_or mbind res_bind].
  rewrite (holds_aum _ _ Hst _ _ Hi). cbn [ok_or mbind res_bind].
  destruct (sc_replay _ Hch) as [s' Hs']. destruct (last aums) as [b|] eqn:Eb.
  2: { apply last_None in Eb. rewrite Eb, lookup_nil in Hi. done. }
  assert (length aums - i <= MAX_SYNC_ITER)%nat as Hn by lia.
  rewrite (fast_loop_ends _ _ _ _ _ _ [] _ _ (gather_accumulates (hash a)) Hi Hn Hs Eb Hs').
  rewrite gathered by done. eauto.
Qed.
Definition is_checkpoint a : bool := match message_kind a with Checkpoint => true | _ => false end.

(** The offer: the checkpoints after the genesis, the newest first. *)
Lemma offer_loop_checkpoints n j g b anc :
  aums !! 0%nat = Some g -> aums !! j = Some b -> (j < n)%nat ->
  offer_loop n storage (hash g) (hash b) anc
  = anc ++ (hash <$> reverse (filter is_checkpoint (take j (tail aums)))).
Proof.
  intros Hg. revert j b anc. induction n as [|n IH]; intros j b anc Hb Hn; [lia|]. cbn [offer_loop].
  rewrite (holds_aum _ _ Hst _ _ Hb). case_decide as E.
  { rewrite (hash_inj _ _ _ _ Hb Hg E). cbn. by rewrite app_nil_r. }
  destruct j as [|j]; [congruence|].
  destruct (lookup_lt_is_Some_2 aums j) as [c Hc]; [apply lookup_lt_Some in Hb; lia|].
  rewrite (prev_at _ _ _ Hc Hb). rewrite (IH j c) by (done || lia).
  assert (tail aums !! j = Some b) as Ht by (destruct aums; [done|exact Hb]).
  rewrite (take_S_r _ _ _ Ht), filter_app, reverse_app, fmap_app.
  destruct (decide (message_kind b = Checkpoint)) as [Ek|Ek].
  - assert (is_checkpoint b = true) as Ec by (unfold is_checkpoint; by rewrite Ek).
    rewrite filter_cons_True, filter_nil by (by rewrite Ec). rewrite Ek. by rewrite <- app_assoc.
  - assert (is_checkpoint b = false) as Ec by (unfold is_checkpoint; by destruct (message_kind b)).
    rewrite filter_cons_False, filter_nil by (rewrite Ec; by intros []). cbn. by destruct (message_kind b).
Qed.

(** A peer whose head is on the chain. *)
Lemma missing_from_head auth remote oldest i a b :
  last aums = Some b -> au_head auth = hash b -> aums !! i = Some a -> so_head remote = hash a ->
  (length aums <= MAX_SYNC_HEAD_INTERSECTION_ITER)%nat ->
  missing_aums auth storage remote oldest = Ok (drop (S i) aums).
Proof.
  intros Eb Hauth Hi Hr Hl. rewrite last_lookup in Eb. apply lookup_lt_Some in Hi as Hlt.
  unfold missing_aums, compute_sync_intersection. cbn [so_head sync_offer]. rewrite Hauth, Hr.
  case_decide as E.
  { cbn. rewrite drop_ge; [done|]. rewrite (hash_inj _ _ _ _ Hi Eb E). lia. }
  rewrite (holds_aum _ _ Hst _ _ Hi). rewrite (head_loop_finds _ i _ a b) by (done || lia).
  cbn [mbind res_bind up_to_date head_intersection ok_or].
  destruct (state_at_exists _ _ Hi) as [s Hs].
  unfold MAX_SYNC_HEAD_INTERSECTION_ITER in Hl.
  rewrite (compute_state_at_state MAX_SYNC_ITER _ _ _ Hi Hs) by (unfold MAX_SYNC_ITER; lia).
  cbn [mbind res_bind]. destruct (forward_from i a s Hi Hs) as [r ->]; [unfold MAX_SYNC_ITER; lia|]. done.
Qed.

(** A peer with a head that is not on the chain, and ancestors one of which is. *)
Lemma missing_from_tail auth remote oldest i a b unknown older :
  last aums = Some b -> au_head auth = hash b -> aums !! i = Some a ->
  st_aum storage (so_head remote) = None ->
  so_ancestors remote = unknown ++ hash a :: older -> Forall (fun h => st_aum storage h = None) unknown ->
  (length aums <= MAX_SYNC_ITER)%nat ->
  missing_aums auth storage remote oldest = Ok (drop (S i) aums).
Proof.
  intros Eb Hauth Hi Hr Hanc Hun Hl. pose proof Eb as Eb'. rewrite last_lookup in Eb. apply lookup_lt_Some in Hi as Hlt.
  unfold missing_aums, compute_sync_intersection. cbn [so_head sync_offer]. rewrite Hauth, Hr.
  rewrite decide_False by (intros E; rewrite E, (holds_aum _ _ Hst _ _ Eb) in Hr; done).
  rewrite Hanc. destruct (state_at_exists _ _ Hi) as [s Hs]. destruct (state_at_exists _ _ Eb) as [sb Hsb].
  assert (tail_loop storage (hash b) (unknown ++ hash a :: older) = Ok (mkIntersection false None (Some (hash a)))) as ->.
  { clear Hanc. induction Hun as [|h unknown Hh _ IH]; cbn [app tail_loop].
    - rewrite (compute_state_at_state MAX_SYNC_ITER _ _ _ Hi Hs) by lia. cbn [mbind res_bind].
      unfold fast_forward. rewrite (state_at_last _ _ _ Hi Hs). cbn [ok_or mbind res_bind].
      rewrite (holds_aum _ _ Hst _ _ Hi). cbn [ok_or mbind res_bind].
      rewrite (fast_loop_stops _ _ None _ i _ a b s sb tt no_gather_accumulates Hi Eb) by (done || lia).
      cbn [mbind res_bind]. by rewrite decide_True.
    - unfold compute_state_at. rewrite Hh. cbn [mbind res_bind]. exact IH. }
  cbn [mbind res_bind up_to_date head_intersection tail_intersection ok_or].
  rewrite (compute_state_at_state MAX_SYNC_ITER _ _ _ Hi Hs) by lia.
  cbn [mbind res_bind]. destruct (forward_from i a s Hi Hs Hl) as [r ->]. done.
Qed.
End Walk.
End Holds.

(** ** The store in memory *)

Section Mem.
Context `{TkaCrypto}.
Implicit Types (aums l : list Aum) (a b : Aum) (i j k n : nat) (s : ReplayState) (st : MemAumStore).

(** The messages that name [p] as their parent. *)
Definition kids_of (p : AumHash) l : list Aum := filter (fun a => prev_aum_hash a = Some p) l.

Lemma from_aums_snoc l a : from_aums (l ++ [a]) = store_insert (from_aums l) a.
Proof. unfold from_aums. by rewrite foldl_snoc. Qed.

Lemma by_hash_from l h a :
  NoDup (hash <$> l) -> by_hash (from_aums l) !! (h : list Z) = Some a <-> a ∈ l /\ hash a = h.
Proof.
  induction l as [|b l IH] using rev_ind; intros Hnd.
  { split; [done|]. intros [Ha _]. by apply elem_of_nil in Ha. }
  rewrite fmap_app in Hnd. apply NoDup_app in Hnd as (Hnd & Hdis & _). specialize (IH Hnd).
  rewrite from_aums_snoc. cbn [store_insert by_hash]. rewrite lookup_insert_Some, IH, elem_of_app, list_elem_of_singleton.
  split; [naive_solver|]. intros [[Ha|Ha] Eh]; [right|left; naive_solver]. split; [|done].
  intros E. apply (Hdis (hash a)); [apply list_elem_of_fmap; eauto|]. cbn. rewrite E, Eh. apply list_elem_of_singleton. done.
Qed.

Lemma children_from l p :
  NoDup (hash <$> l) -> default [] (children (from_aums l) !! (p : list Z)) = hash <$> kids_of p l.
Proof.
  induction l as [|b l IH] using rev_ind; intros Hnd; [done|].
  rewrite fmap_app in Hnd. apply NoDup_app in Hnd as (Hnd & Hdis & _). specialize (IH Hnd).
  rewrite from_aums_snoc. unfold kids_of in *. rewrite filter_app, fmap_app, <- IH.
  cbn [store_insert children]. destruct (prev_aum_hash b) as [q|] eqn:Eq.
  - destruct (decide (q = p)) as [->|Hne].
    + rewrite lookup_insert_eq. cbn [default from_option]. rewrite filter_cons_True, filter_nil by done.
      rewrite bool_decide_false; [done|]. rewrite IH. intros Hin.
      apply list_elem_of_fmap in Hin as (x & E & [_ Hx]%list_elem_of_filter).
      apply (Hdis (hash x)); [apply list_elem_of_fmap; eauto|]. cbn. rewrite E. by apply list_elem_of_singleton.
    + rewrite lookup_insert_ne by done. rewrite filter_cons_False, filter_nil by congruence. by rewrite app_nil_r.
  - rewrite filter_cons_False, filter_nil by congruence. by rewrite app_nil_r.
Qed.

Lemma child_aums_from l p : NoDup (hash <$> l) -> child_aums (from_aums l) p = kids_of p l.
Proof.
  intros Hnd. cbn [child_aums mem_store]. pose proof (children_from l p Hnd) as Hc.
  assert (forall ks, (forall x, x ∈ ks -> x ∈ l) ->
    omap (M := list) (fun k : AumHash => by_hash (from_aums l) !! (k : list Z)) (hash <$> ks) = ks) as Hk.
  { induction ks as [|x ks IH]; intros Hin; [done|]. cbn.
    rewrite (proj2 (by_hash_from l (hash x) x Hnd)) by (split; [apply Hin; left|done]).
    f_equal. apply IH. intros y Hy. apply Hin. by right. }
  destruct (children (from_aums l) !! (p : list Z)) as [kids|]; cbn in Hc;
    [subst kids|by destruct (kids_of p l)].
  apply Hk. intros x. unfold kids_of. rewrite list_elem_of_filter. naive_solver.
Qed.

Lemma filter_index {A} (P : A -> Prop) `{forall x, Decision (P x)} (l : list A) k :
  (forall j x, l !! j = Some x -> P x <-> j = k) -> filter P l = option_list (l !! k).
Proof.
  revert k. induction l as [|x l IH]; intros k Hp; [done|]. destruct k as [|k].
  - rewrite filter_cons_True by (by apply (Hp 0%nat)). change (option_list _) with [x]. f_equal.
    assert (Forall (fun y => ~ P y) l) as Hf.
    { apply Forall_lookup. intros j y Hy Py. by apply (Hp (S j) y Hy) in Py. }
    clear IH Hp. induction Hf as [|y l Hy _ IH]; [done|]. by rewrite filter_cons_False.
  - rewrite filter_cons_False by (intros Px; by apply (Hp 0%nat) in Px).
    rewrite (IH k); [done|]. intros j y Hy. rewrite (Hp (S j) y Hy). lia.
Qed.

Lemma kids_of_chain aums i a :
  sound_chain aums -> aums !! i = Some a -> kids_of (hash a) aums = option_list (aums !! S i).
Proof.
  intros Hch Hi. apply filter_index. intros j x Hx. rewrite (chain_linked _ Hch _ _ Hx). split.
  - destruct j as [|j]; [done|]. intros E. apply fmap_Some in E as (y & Hy & E). f_equal.
    by eapply (hash_inj _ Hch).
  - intros ->. by rewrite Hi.
Qed.

(** Messages put in the store in any order. *)
Lemma mem_holds aums l : sound_chain aums -> l ≡ₚ aums -> holds (from_aums l) aums.
Proof.
  intros Hch Hp. assert (NoDup (hash <$> l)) as Hnd by (rewrite Hp; apply Hch). split.
  - intros i a Hi. cbn [st_aum mem_store]. apply by_hash_from; [done|]. split; [|done]. rewrite Hp.
    by eapply list_elem_of_lookup_2.
  - intros h a Ha. cbn [st_aum mem_store] in Ha. apply by_hash_from in Ha as [Ha <-]; [|done]. by rewrite <- Hp.
  - intros i a Hi. rewrite child_aums_from by done.
    assert (kids_of (hash a) l ≡ₚ option_list (aums !! S i)) as Hk.
    { rewrite <- (kids_of_chain _ _ _ Hch Hi). unfold kids_of. by rewrite Hp. }
    destruct (aums !! S i); cbn in *; [by apply Permutation_singleton_r in Hk|by apply Permutation_nil_r in Hk].
Qed.

Lemma linear_loop_chain st aums n i a s out :
  holds st aums -> sound_chain aums -> aums !! i = Some a ->
  match i with O => s = ReplayState_default | S j => state_at aums j s end ->
  linear_loop n st s a out
  = if decide (length aums - i <= n)%nat then Ok (out ++ drop i aums) else Err BadChain.
Proof.
  intros Hst Hch. revert i a s out. induction n as [|n IH]; intros i a s out Hi Hs.
  { apply lookup_lt_Some in Hi. cbn. by rewrite decide_False by lia. }
  cbn [linear_loop]. destruct (state_at_exists _ Hch _ _ Hi) as [s' Hs'].
  assert (apply_verified_aum s a = (s', Ok tt)) as ->.
  { destruct i; [subst s; by apply (state_at_first aums)|by eapply state_at_step]. }
  cbn [fst]. erewrite (holds_kids _ _ Hst) by done. apply lookup_lt_Some in Hi as Hlt.
  destruct (aums !! S i) as [c|] eqn:Hc.
  - change (option_list (Some c)) with [c]. cbn [pick_next_aum foldl]. unfold pick_next_aum. cbn [foldl].
    rewrite (IH (S i)) by done. apply lookup_lt_Some in Hc.
    rewrite (drop_S aums a i) by done. rewrite <- app_assoc.
    destruct (decide (length aums - S i <= n)%nat), (decide (length aums - i <= S n)%nat); done || lia.
  - apply lookup_ge_None in Hc. rewrite decide_True by lia. cbn.
    by rewrite (drop_S aums a i), drop_ge by (done || lia).
Qed.
End Mem.

(** ** Theorems *)

Section Theorems.
Context `{TkaCrypto}.
Implicit Types (aums : list Aum).

(** A prefix of a verified chain verifies. *)
Lemma verify_prefix aums c i :
  verify aums = Ok c -> (i < length aums)%nat ->
  exists c' a, aums !! i = Some a /\ verify (take (S i) aums) = Ok c' /\ vc_head c' = hash a.
Proof.
  intros (la & Hl & _ & Hr & Hall)%verify_iff Hi. apply lookup_lt_is_Some_2 in Hi as Hia. destruct Hia as [a Ha].
  rewrite <- (take_drop (S i) aums) in Hr. apply replay_app in Hr as (s & Hs & _).
  exists (mkVerified s (hash a)), a. split; [done|]. split; [|done]. apply verify_iff. exists a. cbn [vc_head vc_state].
  split_and!; [|done|done|].
  - erewrite take_S_r by done. apply last_snoc.
  - intros j b Hj. apply lookup_take_Some in Hj as [Hj Hlt]. destruct (Hall j b Hj) as [? (sj & Hsj & ?)].
    split; [done|]. exists sj. split; [|done]. unfold signers in *. rewrite take_take, Nat.min_l by lia. done.
Qed.

Lemma verified_sound_chain aums c : verify aums = Ok c -> NoDup (hash <$> aums) -> sound_chain aums.
Proof. intros (la & _ & _ & Hr & _)%verify_iff Hnd. split; [by exists (vc_state c)|done]. Qed.

(** C38: Whatever order the messages of a chain arrived in, the store gives the
    chain back in order from its genesis, up to 2000 messages, and an error
    beyond. *)
Theorem linear_chain_recovers (aums l : list Aum) (g : Aum) :
  sound_chain aums -> l ≡ₚ aums -> aums !! 0%nat = Some g ->
  linear_chain_from (from_aums l) (hash g)
  = if decide (length aums <= 2000)%nat then Ok aums else Err BadChain.
Proof.
  intros Hch Hp Hg. pose proof (mem_holds aums l Hch Hp) as Hst. unfold linear_chain_from.
  rewrite (holds_aum _ _ Hst _ _ Hg). rewrite (linear_loop_chain _ aums _ 0 g) by done.
  rewrite Nat.sub_0_r, drop_0. done.
Qed.

(** A node that holds a chain, in whatever order it was stored, sends a peer
    exactly the messages after the newest one the peer is known to have: after the
    peer's head when that is on the chain, and otherwise after the first of the
    peer's ancestors that is. *)
Theorem missing_aums_exact (aums l : list Aum) (auth : Authority) (remote : SyncOffer) (oldest : AumHash)
    (i : nat) (a b : Aum) (unknown older : list AumHash) :
  sound_chain aums -> l ≡ₚ aums -> (length aums <= 1000)%nat ->
  last aums = Some b -> au_head auth = hash b -> aums !! i = Some a ->
  so_head remote = hash a
  \/ (Forall (fun h => h ∉ hash <$> aums) (so_head remote :: unknown)
      /\ so_ancestors remote = unknown ++ hash a :: older) ->
  missing_aums auth (from_aums l) remote oldest = Ok (drop (S i) aums).
Proof.
  intros Hch Hp Hl Hb Hauth Hi Hr. pose proof (mem_holds aums l Hch Hp) as Hst.
  assert (forall h, h ∉ hash <$> aums -> st_aum (from_aums l) h = None) as Hnone.
  { intros h Hh. destruct (st_aum (from_aums l) h) eqn:E; [|done]. apply (holds_only _ _ Hst) in E as [Hin <-].
    destruct Hh. apply list_elem_of_fmap. eauto. }
  destruct Hr as [Hr|[[Hr Hun]%Forall_cons Hanc]].
  - by eapply missing_from_head.
  - eapply missing_from_tail; try done; [by apply Hnone| |unfold MAX_SYNC_ITER; lia].
    eapply Forall_impl; [exact Hun|]. exact Hnone.
Qed.

(** C18: One exchange brings a peer up to date: when a peer that holds a prefix of
    a verified chain of at most 1000 messages makes its offer, which lists the
    checkpoints it holds and its oldest message, it is sent exactly the rest, and
    with these in its store it orders the whole chain, which verifies to the
    sender's authority. *)
Theorem sync_converges (aums mine theirs : list Aum) (c : VerifiedAumChain) (g : Aum) (i : nat) :
  verify aums = Ok c -> NoDup (hash <$> aums) -> (length aums <= 1000)%nat -> aums !! 0%nat = Some g ->
  (i < length aums)%nat -> theirs ≡ₚ aums -> mine ≡ₚ take (S i) aums ->
  exists c', verify (take (S i) aums) = Ok c'
    /\ let offer := sync_offer (from_verified_chain c') (from_aums mine) (hash g) in
       so_ancestors offer = (hash <$> reverse (filter is_checkpoint (take i (tail aums)))) ++ [hash g]
       /\ missing_aums (from_verified_chain c) (from_aums theirs) offer (hash g) = Ok (drop (S i) aums)
       /\ exists all, linear_chain_from (from_aums (mine ++ drop (S i) aums)) (hash g) = Ok all
            /\ verify all = Ok c.
Proof.
  intros Hv Hnd Hl Hg Hi Ht Hm. pose proof (verified_sound_chain _ _ Hv Hnd) as Hch.
  destruct (verify_prefix _ _ _ Hv Hi) as (c' & a & Ha & Hc' & Hh). exists c'. split; [done|].
  assert (NoDup (hash <$> take (S i) aums)) as Hnd'.
  { rewrite fmap_take. by apply sublist_NoDup with (hash <$> aums); [|apply sublist_take]. }
  pose proof (verified_sound_chain _ _ Hc' Hnd') as Hch'.
  pose proof (mem_holds _ _ Hch' Hm) as Hst'. cbn [so_ancestors sync_offer so_head].
  assert (take (S i) aums !! 0%nat = Some g) as Hg' by (rewrite lookup_take_lt by lia; done).
  assert (take (S i) aums !! i = Some a) as Ha' by (rewrite lookup_take_lt by lia; done).
  split_and!.
  - f_equal. cbn [au_head from_verified_chain]. rewrite Hh.
    rewrite (offer_loop_checkpoints _ _ Hst' Hch' _ i g a) by (done || unfold MAX_SYNC_HEAD_INTERSECTION_ITER; lia).
    cbn [app]. destruct aums as [|x rest]; [done|]. cbn [take tail]. by rewrite take_take, Nat.min_id.
  - apply verify_iff in Hv as (la & Hla & Hhead & _).
    eapply (missing_from_head _ _ (mem_holds _ _ Hch Ht) Hch); [done|exact Hhead|exact Ha| |done].
    cbn [so_head sync_offer au_head from_verified_chain]. done.
  - exists aums. split; [|done]. unfold linear_chain_from.
    assert (mine ++ drop (S i) aums ≡ₚ aums) as Hp by (rewrite Hm; by rewrite take_drop).
    pose proof (mem_holds aums _ Hch Hp) as Hst. rewrite (holds_aum _ _ Hst _ _ Hg).
    rewrite (linear_loop_chain _ aums _ 0 g) by done. rewrite decide_True by (unfold MAX_SYNC_ITER; lia). done.
Qed.
End Theorems.

(** *** Witnesses *)

#[local] Existing Instances ToyTka.toy_tka ToyTka.toy_tka_laws.

Lemma demo_hashes : NoDup (hash <$> DemoChain.chain).
Proof. apply (bool_decide_unpack _). vm_compute. exact I. Qed.

Lemma demo_sound : sound_chain DemoChain.chain.
Proof. eapply verified_sound_chain; [apply DemoChain.chain_verifies|apply demo_hashes]. Qed.

Lemma linear_chain_recovers_witness :
  linear_chain_from (from_aums [DemoChain.second; DemoChain.genesis]) (hash DemoChain.genesis)
  = if decide (length DemoChain.chain <= 2000)%nat then Ok DemoChain.chain else Err BadChain.
Proof.
  apply linear_chain_recovers; [apply demo_sound|apply Permutation_swap|reflexivity].
Defined.

Lemma missing_aums_exact_witness :
  missing_aums (mkAuthority (hash DemoChain.second) (mkState [])) (from_aums DemoChain.chain)
    (mkOffer (hash DemoChain.genesis) []) [] = Ok [DemoChain.second].
Proof.
  apply (missing_aums_exact DemoChain.chain DemoChain.chain _ _ [] 0 DemoChain.genesis DemoChain.second [] []).
  - apply demo_sound.
  - reflexivity.
  - cbn. lia.
  - reflexivity.
  - reflexivity.
  - reflexivity.
  - by left.
Defined.

Lemma sync_converges_witness :
  exists c', verify [DemoChain.genesis] = Ok c'
    /\ let offer := sync_offer (from_verified_chain c') (from_aums [DemoChain.genesis]) (hash DemoChain.genesis) in
       so_ancestors offer = [hash DemoChain.genesis]
       /\ missing_aums (from_verified_chain (mkVerified DemoChain.state (hash DemoChain.second)))
            (from_aums DemoChain.chain) offer (hash DemoChain.genesis) = Ok [DemoChain.second]
       /\ exists all,
            linear_chain_from (from_aums [DemoChain.genesis; DemoChain.second]) (hash DemoChain.genesis) = Ok all
            /\ verify all = Ok (mkVerified DemoChain.state (hash DemoChain.second)).
Proof.
  apply (sync_converges DemoChain.chain [DemoChain.genesis] DemoChain.chain _ DemoChain.genesis 0).
  - apply DemoChain.chain_verifies.
  - apply demo_hashes.
  - cbn. lia.
  - reflexivity.
  - cbn. lia.
  - reflexivity.
  - reflexivity.
Defined.
