(* ===== verification/ControlNode.v ===== *)
(** * ControlNode: the nodes of the netmap (src/ts_control/src/node.rs)

    [Node] as the client keeps it, names and their comparison, the routes a
    node advertises and which of them are installed, and the choice of an exit
    node.  Strings are their UTF-8 bytes, keys the 32 bytes of [to_bytes], an
    instant is a number of nanoseconds since the Unix epoch, a [BTreeMap] a
    finite map.  The conversion from the wire and the gates that read only the
    capability map are not modelled. *)

From stdpp Require Import gmap sorting countable.
From S2P Require Import Prelude Bytes IpNet PacketFilter Packet FlowTrack.

Local Open Scope Z_scope.

Abbreviation str := (list Z) (only parsing).

Section ControlNode.
Context `{!IpNetOps}.

(** ** Data *)

(** An [Ipv4Net] and an [Ipv6Net]: networks of a known family. *)
Record TailnetAddress := mkTailnetAddress { ipv4 : IpNet; ipv6 : IpNet }.

Inductive ResolverTransport := Udp (a : SocketAddr).

Record Resolver := mkResolver { transport : ResolverTransport; use_with_exit_node : bool }.

#[export] Instance TailnetAddress_eq_dec : EqDecision TailnetAddress.
Proof. solve_decision. Defined.

#[export] Instance ResolverTransport_eq_dec : EqDecision ResolverTransport.
Proof. solve_decision. Defined.

#[export] Instance Resolver_eq_dec : EqDecision Resolver.
Proof. solve_decision. Defined.

Record Node := mkNode {
  node_id : Z;
  stable_id : str;
  hostname : str;
  user_id : Z;
  tailnet : option str;
  tags : list str;
  addresses : list IpNet;
  tailnet_address : TailnetAddress;
  node_key : list Z;
  node_key_expiry : option Z;
  expired : bool;
  online : option bool;
  last_seen : option Z;
  key_signature : list Z;
  machine_key : option (list Z);
  disco_key : option (list Z);
  unsigned_peer_api_only : bool;
  accepted_routes : list IpNet;
  underlay_addresses : list SocketAddr;
  ssh_host_keys : list str;
  derp_region : option Z;
  cap : Z;
  cap_map : gmap str (list str);
  peerapi_port : option Z;
  peerapi_dns_proxy : bool;
  is_wireguard_only : bool;
  exit_node_dns_resolvers : list Resolver;
  peer_relay : bool;
  service_vips : gmap str (list IpAddr);
}.

#[export] Instance Node_eq_dec : EqDecision Node.
Proof. solve_decision. Defined.

(** [node.field = v] *)
Definition set_node_key (v : list Z) (n : Node) : Node :=
  mkNode (node_id n) (stable_id n) (hostname n) (user_id n) (tailnet n) (tags n) (addresses n)
    (tailnet_address n) v (node_key_expiry n) (expired n) (online n) (last_seen n)
    (key_signature n) (machine_key n) (disco_key n) (unsigned_peer_api_only n)
    (accepted_routes n) (underlay_addresses n) (ssh_host_keys n) (derp_region n) (cap n)
    (cap_map n) (peerapi_port n) (peerapi_dns_proxy n) (is_wireguard_only n)
    (exit_node_dns_resolvers n) (peer_relay n) (service_vips n).

Definition set_node_key_expiry (v : option Z) (n : Node) : Node :=
  mkNode (node_id n) (stable_id n) (hostname n) (user_id n) (tailnet n) (tags n) (addresses n)
    (tailnet_address n) (node_key n) v (expired n) (online n) (last_seen n) (key_signature n)
    (machine_key n) (disco_key n) (unsigned_peer_api_only n) (accepted_routes n)
    (underlay_addresses n) (ssh_host_keys n) (derp_region n) (cap n) (cap_map n)
    (peerapi_port n) (peerapi_dns_proxy n) (is_wireguard_only n) (exit_node_dns_resolvers n)
    (peer_relay n) (service_vips n).

Definition set_expired (v : bool) (n : Node) : Node :=
  mkNode (node_id n) (stable_id n) (hostname n) (user_id n) (tailnet n) (tags n) (addresses n)
    (tailnet_address n) (node_key n) (node_key_expiry n) v (online n) (last_seen n)
    (key_signature n) (machine_key n) (disco_key n) (unsigned_peer_api_only n)
    (accepted_routes n) (underlay_addresses n) (ssh_host_keys n) (derp_region n) (cap n)
    (cap_map n) (peerapi_port n) (peerapi_dns_proxy n) (is_wireguard_only n)
    (exit_node_dns_resolvers n) (peer_relay n) (service_vips n).

Definition set_online (v : option bool) (n : Node) : Node :=
  mkNode (node_id n) (stable_id n) (hostname n) (user_id n) (tailnet n) (tags n) (addresses n)
    (tailnet_address n) (node_key n) (node_key_expiry n) (expired n) v (last_seen n)
    (key_signature n) (machine_key n) (disco_key n) (unsigned_peer_api_only n)
    (accepted_routes n) (underlay_addresses n) (ssh_host_keys n) (derp_region n) (cap n)
    (cap_map n) (peerapi_port n) (peerapi_dns_proxy n) (is_wireguard_only n)
    (exit_node_dns_resolvers n) (peer_relay n) (service_vips n).

Definition set_last_seen (v : option Z) (n : Node) : Node :=
  mkNode (node_id n) (stable_id n) (hostname n) (user_id n) (tailnet n) (tags n) (addresses n)
    (tailnet_address n) (node_key n) (node_key_expiry n) (expired n) (online n) v
    (key_signature n) (machine_key n) (disco_key n) (unsigned_peer_api_only n)
    (accepted_routes n) (underlay_addresses n) (ssh_host_keys n) (derp_region n) (cap n)
    (cap_map n) (peerapi_port n) (peerapi_dns_proxy n) (is_wireguard_only n)
    (exit_node_dns_resolvers n) (peer_relay n) (service_vips n).

Definition set_key_signature (v : list Z) (n : Node) : Node :=
  mkNode (node_id n) (stable_id n) (hostname n) (user_id n) (tailnet n) (tags n) (addresses n)
    (tailnet_address n) (node_key n) (node_key_expiry n) (expired n) (online n) (last_seen n) v
    (machine_key n) (disco_key n) (unsigned_peer_api_only n) (accepted_routes n)
    (underlay_addresses n) (ssh_host_keys n) (derp_region n) (cap n) (cap_map n)
    (peerapi_port n) (peerapi_dns_proxy n) (is_wireguard_only n) (exit_node_dns_resolvers n)
    (peer_relay n) (service_vips n).

Definition set_disco_key (v : option (list Z)) (n : Node) : Node :=
  mkNode (node_id n) (stable_id n) (hostname n) (user_id n) (tailnet n) (tags n) (addresses n)
    (tailnet_address n) (node_key n) (node_key_expiry n) (expired n) (online n) (last_seen n)
    (key_signature n) (machine_key n) v (unsigned_peer_api_only n) (accepted_routes n)
    (underlay_addresses n) (ssh_host_keys n) (derp_region n) (cap n) (cap_map n)
    (peerapi_port n) (peerapi_dns_proxy n) (is_wireguard_only n) (exit_node_dns_resolvers n)
    (peer_relay n) (service_vips n).

Definition set_underlay_addresses (v : list SocketAddr) (n : Node) : Node :=
  mkNode (node_id n) (stable_id n) (hostname n) (user_id n) (tailnet n) (tags n) (addresses n)
    (tailnet_address n) (node_key n) (node_key_expiry n) (expired n) (online n) (last_seen n)
    (key_signature n) (machine_key n) (disco_key n) (unsigned_peer_api_only n)
    (accepted_routes n) v (ssh_host_keys n) (derp_region n) (cap n) (cap_map n) (peerapi_port n)
    (peerapi_dns_proxy n) (is_wireguard_only n) (exit_node_dns_resolvers n) (peer_relay n)
    (service_vips n).

Definition set_derp_region (v : option Z) (n : Node) : Node :=
  mkNode (node_id n) (stable_id n) (hostname n) (user_id n) (tailnet n) (tags n) (addresses n)
    (tailnet_address n) (node_key n) (node_key_expiry n) (expired n) (online n) (last_seen n)
    (key_signature n) (machine_key n) (disco_key n) (unsigned_peer_api_only n)
    (accepted_routes n) (underlay_addresses n) (ssh_host_keys n) v (cap n) (cap_map n)
    (peerapi_port n) (peerapi_dns_proxy n) (is_wireguard_only n) (exit_node_dns_resolvers n)
    (peer_relay n) (service_vips n).

Definition set_cap (v : Z) (n : Node) : Node :=
  mkNode (node_id n) (stable_id n) (hostname n) (user_id n) (tailnet n) (tags n) (addresses n)
    (tailnet_address n) (node_key n) (node_key_expiry n) (expired n) (online n) (last_seen n)
    (key_signature n) (machine_key n) (disco_key n) (unsigned_peer_api_only n)
    (accepted_routes n) (underlay_addresses n) (ssh_host_keys n) (derp_region n) v (cap_map n)
    (peerapi_port n) (peerapi_dns_proxy n) (is_wireguard_only n) (exit_node_dns_resolvers n)
    (peer_relay n) (service_vips n).

Definition set_cap_map (v : gmap str (list str)) (n : Node) : Node :=
  mkNode (node_id n) (stable_id n) (hostname n) (user_id n) (tailnet n) (tags n) (addresses n)
    (tailnet_address n) (node_key n) (node_key_expiry n) (expired n) (online n) (last_seen n)
    (key_signature n) (machine_key n) (disco_key n) (unsigned_peer_api_only n)
    (accepted_routes n) (underlay_addresses n) (ssh_host_keys n) (derp_region n) (cap n) v
    (peerapi_port n) (peerapi_dns_proxy n) (is_wireguard_only n) (exit_node_dns_resolvers n)
    (peer_relay n) (service_vips n).

(** Nodes with the same fields are equal: proofs compare updated nodes field by
    field. *)
Lemma node_ext a b :
  node_id a = node_id b -> stable_id a = stable_id b -> hostname a = hostname b ->
  user_id a = user_id b -> tailnet a = tailnet b -> tags a = tags b ->
  addresses a = addresses b -> tailnet_address a = tailnet_address b ->
  node_key a = node_key b -> node_key_expiry a = node_key_expiry b -> expired a = expired b ->
  online a = online b -> last_seen a = last_seen b -> key_signature a = key_signature b ->
  machine_key a = machine_key b -> disco_key a = disco_key b ->
  unsigned_peer_api_only a = unsigned_peer_api_only b ->
  accepted_routes a = accepted_routes b -> underlay_addresses a = underlay_addresses b ->
  ssh_host_keys a = ssh_host_keys b -> derp_region a = derp_region b -> cap a = cap b ->
  cap_map a = cap_map b -> peerapi_port a = peerapi_port b ->
  peerapi_dns_proxy a = peerapi_dns_proxy b -> is_wireguard_only a = is_wireguard_only b ->
  exit_node_dns_resolvers a = exit_node_dns_resolvers b -> peer_relay a = peer_relay b ->
  service_vips a = service_vips b ->
  a = b.
Proof. destruct a, b. cbn. intros. by subst. Qed.

(** ** Names *)

Definition DOT : Z := 46.

(** [s.strip_suffix('.')] *)
Definition strip_dot (s : str) : option str :=
  match rev s with
  | c :: r => if decide (c = DOT) then Some (rev r) else None
  | [] => None
  end.

(** [u8::to_ascii_lowercase] on every byte: bytes beyond ASCII stay. *)
Definition to_lower (c : Z) : Z := if decide (65 <= c <= 90) then c + 32 else c.
Definition to_ascii_lowercase (s : str) : str := to_lower <$> s.

Definition eq_ignore_ascii_case (a b : str) : bool :=
  bool_decide (to_ascii_lowercase a = to_ascii_lowercase b).

(** [s.is_char_boundary(i)]: the ends, and the bytes that do not continue a
    character. *)
Definition is_char_boundary (s : str) (i : nat) : bool :=
  match s !! i with
  | Some b => bool_decide (i = 0%nat) || negb (bool_decide (128 <= b < 192))
  | None => bool_decide (i = length s)
  end.

(** [s.get(i..)] and [s.get(..i)] *)
Definition str_get_from (s : str) (i : nat) : option str :=
  if is_char_boundary s i then Some (drop i s) else None.
Definition str_get_to (s : str) (i : nat) : option str :=
  if is_char_boundary s i then Some (take i s) else None.

Definition fqdn (n : Node) (trailing_dot : bool) : str :=
  match tailnet n with
  | Some t => hostname n ++ [DOT] ++ t ++ (if trailing_dot then [DOT] else [])
  | None => hostname n ++ (if trailing_dot then [DOT] else [])
  end.

Definition fqdn_opt (n : Node) (trailing_dot : bool) : option str :=
  t ← tailnet n;
  Some (hostname n ++ [DOT] ++ t ++ (if trailing_dot then [DOT] else [])).

Definition matches_name (n : Node) (name : str) : bool :=
  let name := default name (strip_dot name) in
  let name :=
    match tailnet n with
    | Some t =>
        default name (
          suffix ← str_get_from name (length name - length t);
          if eq_ignore_ascii_case suffix t
          then front ← str_get_to name (length name - length t); strip_dot front
          else None)
    | None => name
    end in
  eq_ignore_ascii_case name (hostname n).

(** ** Expiry as reported *)

Definition key_expired (n : Node) (now : Z) : bool :=
  match node_key_expiry n with
  | None => false
  | Some expiry => bool_decide (expiry < now)
  end.

(** ** Addresses and routes *)

Definition tailnet_contains (t : TailnetAddress) (a : IpAddr) : bool :=
  match a with
  | V4 _ => bool_decide (addr (ipv4 t) = a)
  | V6 _ => bool_decide (addr (ipv6 t) = a)
  end.

(** [Ipv4Net::new(..).unwrap()] of the three ranges. *)
Definition is_tailscale_ip (a : IpAddr) : outcome bool :=
  match a with
  | V4 _ =>
      cgnat ← new_assert (V4 [100; 64; 0; 0]) 10;
      chromeos ← new_assert (V4 [100; 115; 92; 0]) 23;
      Ret (net_contains cgnat a && negb (net_contains chromeos a))
  | V6 _ =>
      ula ← new_assert (V6 [253; 122; 17; 92; 161; 224; 0; 0; 0; 0; 0; 0; 0; 0; 0; 0]) 48;
      Ret (net_contains ula a)
  end.

Definition is_router (n : Node) : bool :=
  existsb (fun route => negb (bool_decide (route ∈ addresses n))) (accepted_routes n).

Definition is_subnet_route (n : Node) (route : IpNet) : outcome bool :=
  let host_prefix := if is_ipv4 (addr route) then 32%nat else 128%nat in
  if decide (prefix_len route <> host_prefix) then Ret true
  else
    ts ← is_tailscale_ip (addr route);
    Ret (negb (ts || tailnet_contains (tailnet_address n) (addr route))).

(** The closure of [routes_to_install]'s filter. *)
Definition installs (n : Node) (accept_routes is_selected_exit : bool) (route : IpNet)
    : outcome bool :=
  if expired n then Ret false
  else if decide (prefix_len route = 0%nat) then Ret is_selected_exit
  else if accept_routes then Ret true
  else subnet ← is_subnet_route n route; Ret (negb subnet).

Fixpoint mfilter {A} (f : A -> outcome bool) (l : list A) : outcome (list A) :=
  match l with
  | [] => Ret []
  | x :: l =>
      b ← f x;
      rest ← mfilter f l;
      Ret (if b : bool then x :: rest else rest)
  end.

Definition routes_to_install (n : Node) (accept_routes : bool) (exit_node : option str)
    : outcome (list IpNet) :=
  let is_selected_exit := bool_decide (exit_node = Some (stable_id n)) in
  mfilter (installs n accept_routes is_selected_exit) (accepted_routes n).

(** ** Exit nodes *)

Inductive ExitNodeSelector :=
| SelStableId (s : str)
| SelIp (ip : IpAddr)
| SelName (name : str).

(** [StableId]'s derived order: bytes, lexicographically. *)
Fixpoint str_leb (a b : str) : bool :=
  match a, b with
  | [], _ => true
  | _ :: _, [] => false
  | x :: a, y :: b =>
      if decide (x < y) then true else if decide (x = y) then str_leb a b else false
  end.

(** [Iterator::min] *)
Fixpoint min_str (l : list str) : option str :=
  match l with
  | [] => None
  | x :: l =>
      match min_str l with
      | None => Some x
      | Some m => Some (if str_leb x m then x else m)
      end
  end.

Definition selects (sel : ExitNodeSelector) (n : Node) : bool :=
  match sel with
  | SelStableId s => bool_decide (stable_id n = s)
  | SelIp ip => tailnet_contains (tailnet_address n) ip
  | SelName name => matches_name n name
  end.

Definition resolve (sel : ExitNodeSelector) (peers : list Node) : option str :=
  min_str (stable_id <$> List.filter (selects sel) peers).
End ControlNode.
