(* ===== verification/PeerDb.v ===== *)
(** * PeerDb: the peers and their indices (src/ts_runtime/src/peer_tracker/peer_db.rs)

    Peers are stored by [PeerId] and indexed by node key, disco key, stable id,
    control id, names, tailnet address and accepted routes.  The hash maps are
    finite maps and the two routing tables those of Table.v.  [HashMap::retain]
    visits the peers in an order that is an argument of the model.

    The database is shown to implement a map from stable ids to peers, its
    indices to name only peers that carry the indexed field, and its operations
    to return, for peers whose routes are distinct; for other peers the
    assertion of [remove_route] can fail. *)

From stdpp Require Import gmap strings sorting countable.
From S2P Require Import Prelude Bytes BaseIndex IpNet Stride IpTrie TrieSpec TrieUpdate TrieRemove TrieLookup Table Routing Routers IpNetModel PacketFilter Packet FlowTrack ControlNode.

Local Open Scope Z_scope.

(** ** The model *)

Abbreviation PeerId := Z (only parsing).
Abbreviation Index K := (gmap K PeerId) (only parsing).

Definition canon_name (name : str) : str :=
  to_ascii_lowercase (default name (strip_dot name)).

Inductive DiscoKeyMatch := Active | Inactive.

Section Model.
Context `{!IpNetOps}.

Record IndexState := mkIndexState {
  nk_idx : Index (list Z);
  disco_idx : Index (list Z);
  inactive_disco_idx : Index (list Z);
  inactive_disco : gmap PeerId (list Z);
  stableid_idx : Index str;
  control_idx : Index Z;
  name_idx : Index str;
  ip_idx : RTable PeerId;
  route_idx : RTable (list PeerId);
}.

Record PeerDb := mkPeerDb {
  peers : gmap PeerId Node;
  index_state : IndexState;
  next_id : Z;
}.

Definition IndexState_default : IndexState :=
  mkIndexState ∅ ∅ ∅ ∅ ∅ ∅ ∅ Split.EMPTY Split.EMPTY.

Definition PeerDb_default : PeerDb := mkPeerDb ∅ IndexState_default 0.

Definition delete_if_owned `{Countable K} (key : K) (id : PeerId) (idx : Index K) : Index K :=
  if decide (idx !! key = Some id) then delete key idx else idx.

Definition delete_ip_if_owned (idx : RTable PeerId) (prefix : IpNet) (id : PeerId)
    : outcome (RTable PeerId) :=
  owner ← Split.lookup_prefix_exact idx prefix;
  if decide (owner = Some id) then '(idx, _) ← Split.remove idx prefix; Ret idx else Ret idx.

(** [maybe_update] and [maybe_update_idx] *)
Definition maybe_update {T Idx} `{EqDecision T} (new : Node) (old : option Node)
    (accessor : Node -> T) (remove insert : Node -> Idx -> outcome Idx) (idx : Idx) : outcome Idx :=
  match old with
  | Some o =>
      if decide (accessor o = accessor new) then Ret idx
      else idx ← remove o idx; insert new idx
  | None => insert new idx
  end.

Definition maybe_update_idx `{Countable K} (new : Node) (old : option Node)
    (accessor : Node -> K) (new_id : PeerId) (idx : Index K) : outcome (Index K) :=
  maybe_update new old accessor
    (fun o idx => Ret (delete_if_owned (accessor o) new_id idx))
    (fun n idx => Ret (<[accessor n := new_id]> idx)) idx.

(** The closure that [remove_route] passes to [modify], without its
    assertion. *)
Definition remove_route_fn (id : PeerId) : ModifyFn (list PeerId) :=
  mkModifyFn Noop (fun val =>
    let val := filter (fun x => x <> id) val in
    (val, if decide (val = []) then Remove else Noop)).

(** The assertion is on the value that [modify] hands to the closure: the one
    stored at the truncated prefix. *)
Definition remove_route (route : IpNet) (id : PeerId) (t : RTable (list PeerId))
    : outcome (RTable (list PeerId)) :=
  val ← Split.lookup_prefix_exact t (trunc route);
  _ ← match val : option (list PeerId) with
      | Some val => rassert (bool_decide (id ∈ val))
      | None => Ret tt
      end;
  '(t, _) ← Split.modify t route (remove_route_fn id);
  Ret t.

Definition add_route_fn (id : PeerId) : ModifyFn (list PeerId) :=
  mkModifyFn (Insert [id]) (fun val => (val ++ [id], Noop)).

Definition add_route (route : IpNet) (id : PeerId) (t : RTable (list PeerId))
    : outcome (RTable (list PeerId)) :=
  '(t, _) ← Split.modify t route (add_route_fn id);
  Ret t.

(** The closures of [upsert]. *)
Definition disco_remove (id : PeerId) (o : Node) (idx : Index (list Z)) : outcome (Index (list Z)) :=
  Ret match disco_key o with Some key => delete_if_owned key id idx | None => idx end.
Definition disco_insert (id : PeerId) (n : Node) (idx : Index (list Z)) : outcome (Index (list Z)) :=
  Ret match disco_key n with Some key => <[key := id]> idx | None => idx end.

Definition name_remove (id : PeerId) (o : Node) (idx : Index str) : outcome (Index str) :=
  let idx := delete_if_owned (canon_name (hostname o)) id idx in
  Ret match fqdn_opt o false with
      | Some fqdn => delete_if_owned (canon_name fqdn) id idx
      | None => idx
      end.
Definition name_insert (id : PeerId) (n : Node) (idx : Index str) : outcome (Index str) :=
  let idx := <[canon_name (hostname n) := id]> idx in
  Ret match fqdn_opt n false with
      | Some fqdn => <[canon_name fqdn := id]> idx
      | None => idx
      end.

Definition ip_remove (id : PeerId) (o : Node) (idx : RTable PeerId) : outcome (RTable PeerId) :=
  idx ← delete_ip_if_owned idx (ipv4 (tailnet_address o)) id;
  delete_ip_if_owned idx (ipv6 (tailnet_address o)) id.
(** [idx.insert(prefix, id);] *)
Definition insert_ip (idx : RTable PeerId) (prefix : IpNet) (id : PeerId) : outcome (RTable PeerId) :=
  '(idx, _) ← Split.insert idx prefix id;
  Ret idx.
Definition ip_insert (id : PeerId) (n : Node) (idx : RTable PeerId) : outcome (RTable PeerId) :=
  idx ← insert_ip idx (ipv4 (tailnet_address n)) id;
  insert_ip idx (ipv6 (tailnet_address n)) id.

Definition routes_remove (id : PeerId) (o : Node) (idx : RTable (list PeerId)) :=
  mfoldl (fun t route => remove_route route id t) idx (accepted_routes o).
Definition routes_insert (id : PeerId) (n : Node) (idx : RTable (list PeerId)) :=
  mfoldl (fun t route => add_route route id t) idx (accepted_routes n).

(** [self.next_id += 1] on a [u32]. *)
Definition take_id (db : PeerDb) : outcome (PeerId * Z) :=
  if decide (next_id db + 1 < 2 ^ 32) then Ret (next_id db, next_id db + 1) else Panic.

Definition upsert (new : Node) (db : PeerDb) : outcome (PeerDb * PeerId) :=
  let st := index_state db in
  '(id, next) ←
    match stableid_idx st !! stable_id new with
    | Some id => Ret (id, next_id db)
    | None => take_id db
    end;
  let old := peers db !! id in
  if decide (old = Some new) then Ret (mkPeerDb (peers db) st next, id)
  else
    nk ← maybe_update_idx new old node_key id (nk_idx st);
    sid ← maybe_update_idx new old stable_id id (stableid_idx st);
    cid ← maybe_update_idx new old node_id id (control_idx st);
    disco ← maybe_update new old disco_key (disco_remove id) (disco_insert id) (disco_idx st);
    name ← maybe_update new old (fun x => (hostname x, tailnet x)) (name_remove id)
      (name_insert id) (name_idx st);
    ip ← maybe_update new old tailnet_address (ip_remove id) (ip_insert id) (ip_idx st);
    routes ← maybe_update new old accepted_routes (routes_remove id) (routes_insert id)
      (route_idx st);
    Ret (mkPeerDb (<[id := new]> (peers db))
           (mkIndexState nk disco (inactive_disco_idx st) (inactive_disco st) sid cid name ip routes)
           next, id).

(** [IndexState::remove] *)
Definition index_remove (id : PeerId) (node : Node) (st : IndexState) : outcome IndexState :=
  ip ← ip_remove id node (ip_idx st);
  name ← name_remove id node (name_idx st);
  routes ← routes_remove id node (route_idx st);
  disco ← disco_remove id node (disco_idx st);
  Ret (mkIndexState
    (delete_if_owned (node_key node) id (nk_idx st))
    disco
    match inactive_disco st !! id with
    | Some key => delete_if_owned key id (inactive_disco_idx st)
    | None => inactive_disco_idx st
    end
    (delete id (inactive_disco st))
    (delete_if_owned (stable_id node) id (stableid_idx st))
    (delete_if_owned (node_id node) id (control_idx st))
    name ip routes).

(** The implementations of [IndexedField]. *)
Inductive IndexedField :=
| FPeerId (id : PeerId)
| FNodeKey (key : list Z)
| FDiscoKey (key : list Z)
| FStableId (id : str)
| FNodeId (id : Z)
| FName (name : str)
| FIp (ip : IpAddr).

Definition field_lookup (field : IndexedField) (db : PeerDb) : outcome (option PeerId) :=
  let st := index_state db in
  match field with
  | FPeerId id => Ret match peers db !! id with Some _ => Some id | None => None end
  | FNodeKey key => Ret (nk_idx st !! key)
  | FDiscoKey key => Ret (disco_idx st !! key)
  | FStableId id => Ret (stableid_idx st !! id)
  | FNodeId id => Ret (control_idx st !! id)
  | FName name => Ret (name_idx st !! canon_name name)
  | FIp ip => Split.lookup (ip_idx st) ip
  end.

Definition remove (field : IndexedField) (db : PeerDb)
    : outcome (PeerDb * option (PeerId * Node)) :=
  id ← field_lookup field db;
  match id with
  | None => Ret (db, None)
  | Some id =>
      match peers db !! id with
      | None => Ret (db, None)
      | Some node =>
          st ← index_remove id node (index_state db);
          Ret (mkPeerDb (delete id (peers db)) st (next_id db), Some (id, node))
      end
  end.

Definition get (field : IndexedField) (db : PeerDb) : outcome (option (PeerId * Node)) :=
  id ← field_lookup field db;
  Ret (id ← id; peer ← peers db !! id; Some (id, peer)).

Definition has (field : IndexedField) (db : PeerDb) : outcome (option PeerId) :=
  field_lookup field db.

(** The iterator of [get_route], run to its end. *)
Fixpoint get_all (ids : list PeerId) (db : PeerDb) : outcome (list (PeerId * Node)) :=
  match ids with
  | [] => Ret []
  | id :: ids =>
      node ← unwrap (peers db !! id);
      rest ← get_all ids db;
      Ret ((id, node) :: rest)
  end.

Definition get_route (route : IpNet) (db : PeerDb) : outcome (list (PeerId * Node)) :=
  ids ← Split.lookup_prefix (route_idx (index_state db)) route;
  get_all (default [] ids) db.

Definition peer_by_known_disco_key (key : list Z) (db : PeerDb)
    : option (PeerId * Node * DiscoKeyMatch) :=
  '(id, matched) ←
    match disco_idx (index_state db) !! key with
    | Some id => Some (id, Active)
    | None => id ← inactive_disco_idx (index_state db) !! key; Some (id, Inactive)
    end;
  node ← peers db !! id;
  Some (id, node, matched).

Definition set_inactive_disco_key (id : PeerId) (key : option (list Z)) (db : PeerDb) : PeerDb :=
  let st := index_state db in
  let idx :=
    match inactive_disco st !! id with
    | Some previous => delete_if_owned previous id (inactive_disco_idx st)
    | None => inactive_disco_idx st
    end in
  let rev := delete id (inactive_disco st) in
  let '(idx, rev) :=
    match key with
    | Some key => (<[key := id]> idx, <[id := key]> rev)
    | None => (idx, rev)
    end in
  mkPeerDb (peers db)
    (mkIndexState (nk_idx st) (disco_idx st) idx rev (stableid_idx st) (control_idx st)
       (name_idx st) (ip_idx st) (route_idx st))
    (next_id db).

Definition retain_one (predicate : PeerId -> Node -> bool) (db : PeerDb) (id : PeerId)
    : outcome PeerDb :=
  match peers db !! id with
  | None => Ret db
  | Some node =>
      if predicate id node then Ret db
      else
        st ← index_remove id node (index_state db);
        Ret (mkPeerDb (delete id (peers db)) st (next_id db))
  end.

(** [order] lists the peers as [HashMap::retain] visits them. *)
Definition retain (order : list PeerId) (predicate : PeerId -> Node -> bool) (db : PeerDb)
    : outcome PeerDb :=
  mfoldl (retain_one predicate) db order.
End Model.

(** ** What an index says of the peers *)

Section Owned.
Context `{!IpNetOps} {K : Type} `{!EqDecision K}.
Implicit Types (f g h : K -> option PeerId) (ks : list K) (ps : gmap PeerId Node).

(** An entry names a peer that has the key. *)
Definition idx_sound f (keys : Node -> list K) ps : Prop :=
  forall k id, f k = Some id -> exists n, ps !! id = Some n /\ k ∈ keys n.

(** The entries of [id] under [ks] are gone, and no other. *)
Definition dropped f g (id : PeerId) ks : Prop :=
  forall k i, g k = Some i <-> f k = Some i /\ ~ (i = id /\ k ∈ ks).

(** The keys [ks] name [id], the others what they did. *)
Definition added f g (id : PeerId) ks : Prop :=
  forall k, g k = if decide (k ∈ ks) then Some id else f k.

Lemma dropped_nil f id : dropped f f id [].
Proof. intros k i. split; [|by intros []]. intros ?. split; [done|]. intros [_ []%not_elem_of_nil]. Qed.

Lemma dropped_app f g h id ks ks' :
  dropped f g id ks -> dropped g h id ks' -> dropped f h id (ks ++ ks').
Proof. intros Hf Hg k i. rewrite (Hg k i), (Hf k i), elem_of_app. naive_solver. Qed.

Lemma added_nil f id : added f f id [].
Proof. intros k. rewrite decide_False; [done|]. apply not_elem_of_nil. Qed.

Lemma added_app f g h id ks ks' :
  added f g id ks -> added g h id ks' -> added f h id (ks ++ ks').
Proof.
  intros Hf Hg k. rewrite (Hg k), (Hf k). pose proof (elem_of_app ks ks' k).
  repeat case_decide; naive_solver.
Qed.

(** The peers after an update of one of them. *)
Lemma idx_sound_dropped f g keys ps id n :
  idx_sound f keys ps -> ps !! id = Some n -> dropped f g id (keys n) ->
  idx_sound g keys (delete id ps).
Proof.
  intros Hf Hn Hd k i Hk. apply Hd in Hk as [Hk Hne]. destruct (Hf k i Hk) as (m & Hm & Hin).
  exists m. rewrite lookup_delete_ne; [done|]. intros <-. apply Hne. split; [done|].
  by simplify_eq.
Qed.

Lemma idx_sound_delete_other f keys ps id :
  idx_sound f keys ps -> (forall k, f k <> Some id) -> idx_sound f keys (delete id ps).
Proof.
  intros Hf Hne k i Hk. destruct (Hf k i Hk) as (m & Hm & Hin). exists m.
  rewrite lookup_delete_ne; [done|]. intros <-. by apply Hne in Hk.
Qed.

Lemma idx_sound_added f g keys ps id new :
  idx_sound f keys (delete id ps) -> added f g id (keys new) ->
  idx_sound g keys (<[id := new]> ps).
Proof.
  intros Hf Ha k i Hk. rewrite (Ha k) in Hk. case_decide.
  - injection Hk as <-. exists new. by rewrite lookup_insert_eq.
  - destruct (Hf k i Hk) as (m & Hm & Hin). apply lookup_delete_Some in Hm as [Hne Hm].
    exists m. by rewrite lookup_insert_ne.
Qed.

Lemma idx_sound_same f keys ps id o new :
  idx_sound f keys ps -> ps !! id = Some o -> keys o = keys new ->
  idx_sound f keys (<[id := new]> ps).
Proof.
  intros Hf Ho E k i Hk. destruct (Hf k i Hk) as (m & Hm & Hin).
  destruct (decide (i = id)) as [->|Hne].
  - exists new. rewrite lookup_insert_eq, <- E. by simplify_eq.
  - exists m. by rewrite lookup_insert_ne.
Qed.

(** An index kept by [maybe_update]: how its contents read as a map, the keys
    of a peer, and closures that drop and add them. *)
Context {Idx T : Type} `{!EqDecision T} (view : Idx -> (K -> option PeerId) -> Prop)
  (keys : Node -> list K) (accessor : Node -> T) (ok : Node -> Prop)
  (rem ins : Node -> Idx -> outcome Idx) (id : PeerId).
Hypothesis rem_spec : forall o idx f, ok o -> view idx f ->
  exists idx' f', rem o idx = Ret idx' /\ view idx' f' /\ dropped f f' id (keys o).
Hypothesis ins_spec : forall n idx f, ok n -> view idx f ->
  exists idx' f', ins n idx = Ret idx' /\ view idx' f' /\ added f f' id (keys n).
Hypothesis accessor_keys : forall a b, accessor a = accessor b -> keys a = keys b.

Lemma maybe_update_sound idx f ps new :
  view idx f -> idx_sound f keys ps -> ok new -> (forall o, ps !! id = Some o -> ok o) ->
  exists idx' f', maybe_update new (ps !! id) accessor rem ins idx = Ret idx' /\ view idx' f' /\
    idx_sound f' keys (<[id := new]> ps) /\
    (forall k i, i <> id -> k ∉ keys new -> f k = Some i -> f' k = Some i) /\
    ((forall o, ps !! id = Some o -> accessor o <> accessor new) ->
      forall k, k ∈ keys new -> f' k = Some id) /\
    (forall k, k ∈ keys new -> f k = Some id -> f' k = Some id).
Proof.
  intros Hv Hs Hnew Hold. unfold maybe_update. destruct (ps !! id) as [o|] eqn:Ho.
  - case_decide as E.
    + exists idx, f. split_and!; try done; [|naive_solver].
      eapply idx_sound_same; eauto.
    + destruct (rem_spec o idx f (Hold o eq_refl) Hv) as (i1 & f1 & -> & Hv1 & Hd).
      destruct (ins_spec new i1 f1 Hnew Hv1) as (i2 & f2 & Hi & Hv2 & Ha). cbn [mbind outcome_bind].
      exists i2, f2. split_and!; try done.
      * eapply idx_sound_added, Ha. by eapply idx_sound_dropped.
      * intros k i Hne Hk Hf. rewrite (Ha k), decide_False by done. apply Hd. naive_solver.
      * intros _ k Hk. by rewrite (Ha k), decide_True.
      * intros k Hk _. by rewrite (Ha k), decide_True.
  - destruct (ins_spec new idx f Hnew Hv) as (i2 & f2 & Hi & Hv2 & Ha).
    exists i2, f2. split_and!; try done.
    + eapply idx_sound_added, Ha. apply idx_sound_delete_other; [done|].
      intros k Hk. destruct (Hs k id Hk) as (n & Hn & _). congruence.
    + intros k i Hne Hk Hf. by rewrite (Ha k), decide_False.
    + intros _ k Hk. by rewrite (Ha k), decide_True.
    + intros k Hk _. by rewrite (Ha k), decide_True.
Qed.
End Owned.

(** ** The closures drop and add the keys of a peer *)

Definition map_view `{Countable K} (idx : Index K) (f : K -> option PeerId) : Prop :=
  forall k, f k = idx !! k.

Section Closures.
Context `{!IpNetOps, !IpNetLaws}.
Implicit Types (n o : Node) (id : PeerId).

Lemma delete_if_owned_dropped `{Countable K} key id (idx : Index K) :
  dropped (idx !!.) (delete_if_owned key id idx !!.) id [key].
Proof.
  intros k i. rewrite list_elem_of_singleton. unfold delete_if_owned. case_decide as E.
  - rewrite lookup_delete_Some. naive_solver.
  - naive_solver.
Qed.

Lemma insert_added `{Countable K} key id (idx : Index K) :
  added (idx !!.) (<[key := id]> idx !!.) id [key].
Proof.
  intros k. case_decide as E; rewrite list_elem_of_singleton in E; subst;
    [apply lookup_insert_eq|by rewrite lookup_insert_ne].
Qed.

Definition nk_keys n : list (list Z) := [node_key n].
Definition sid_keys n : list str := [stable_id n].
Definition cid_keys n : list Z := [node_id n].
Definition disco_keys n : list (list Z) := option_list (disco_key n).
Definition name_keys n : list str :=
  [canon_name (hostname n)] ++ option_list (canon_name <$> fqdn_opt n false).
Definition ip_keys n : list IpNet := [ipv4 (tailnet_address n); ipv6 (tailnet_address n)].
Definition route_keys n : list IpNet := trunc <$> accepted_routes n.

(** Peers for which the indices work: routes with distinct prefixes and
    addresses without host bits. *)
Record node_ok n : Prop := {
  nok_routes : NoDup (route_keys n);
  nok_ipv4 : trunc (ipv4 (tailnet_address n)) = ipv4 (tailnet_address n);
  nok_ipv6 : trunc (ipv6 (tailnet_address n)) = ipv6 (tailnet_address n);
}.

Lemma disco_remove_spec id o idx :
  exists idx', disco_remove id o idx = Ret idx' /\ dropped (idx !!.) (idx' !!.) id (disco_keys o).
Proof.
  unfold disco_remove, disco_keys. destruct (disco_key o); eexists; (split; [done|]);
    [apply delete_if_owned_dropped|apply dropped_nil].
Qed.

Lemma disco_insert_spec id n idx :
  exists idx', disco_insert id n idx = Ret idx' /\ added (idx !!.) (idx' !!.) id (disco_keys n).
Proof.
  unfold disco_insert, disco_keys. destruct (disco_key n); eexists; (split; [done|]);
    [apply insert_added|apply added_nil].
Qed.

Lemma name_remove_spec id o idx :
  exists idx', name_remove id o idx = Ret idx' /\ dropped (idx !!.) (idx' !!.) id (name_keys o).
Proof.
  unfold name_remove, name_keys. eexists; split; [done|].
  eapply dropped_app; [apply delete_if_owned_dropped|].
  destruct (fqdn_opt o false); [apply delete_if_owned_dropped|apply dropped_nil].
Qed.

Lemma name_insert_spec id n idx :
  exists idx', name_insert id n idx = Ret idx' /\ added (idx !!.) (idx' !!.) id (name_keys n).
Proof.
  unfold name_insert, name_keys. eexists; split; [done|].
  eapply added_app; [apply insert_added|].
  destruct (fqdn_opt n false); [apply insert_added|apply added_nil].
Qed.

Lemma delete_ip_spec (t : RTable PeerId) m p id :
  table_rel t m -> trunc p = p ->
  exists t' m', delete_ip_if_owned t p id = Ret t' /\ table_rel t' m' /\ dropped m m' id [p].
Proof.
  intros Ht Hp. unfold delete_ip_if_owned. rewrite (table_rel_exact t m) by done.
  mrun. case_decide as E.
  - destruct (table_rel_remove t m p Ht) as (t' & -> & Hrel). rewrite Hp in Hrel.
    eexists t', _. split; [reflexivity|]. split; [exact Hrel|].
    intros k i. rewrite list_elem_of_singleton. unfold aset. case_decide; naive_solver.
  - exists t, m. split_and!; [done..|]. intros k i. rewrite list_elem_of_singleton. naive_solver.
Qed.

Lemma ip_remove_spec id o (t : RTable PeerId) m :
  node_ok o -> table_rel t m ->
  exists t' m', ip_remove id o t = Ret t' /\ table_rel t' m' /\ dropped m m' id (ip_keys o).
Proof.
  intros Ho Ht. unfold ip_remove.
  destruct (delete_ip_spec t m _ id Ht (nok_ipv4 o Ho)) as (t1 & m1 & -> & Ht1 & Hd1).
  destruct (delete_ip_spec t1 m1 _ id Ht1 (nok_ipv6 o Ho)) as (t2 & m2 & Hr & Ht2 & Hd2).
  exists t2, m2. split_and!; [exact Hr|done|]. by eapply (dropped_app _ _ _ _ [_] [_]).
Qed.

Lemma aset_added (m : amap PeerId) p id : added m (aset m p (Some id)) id [p].
Proof.
  intros k. unfold aset. pose proof (list_elem_of_singleton k p). repeat case_decide; naive_solver.
Qed.

Lemma insert_ip_spec (t : RTable PeerId) m p id :
  table_rel t m -> trunc p = p ->
  exists t' m', insert_ip t p id = Ret t' /\ table_rel t' m' /\ added m m' id [p].
Proof.
  intros Ht Hp. unfold insert_ip. destruct (table_rel_insert t m p id Ht) as (t' & -> & Hrel).
  rewrite Hp in Hrel. exists t', (aset m p (Some id)). split_and!; [done..|apply aset_added].
Qed.

Lemma ip_insert_spec id n (t : RTable PeerId) m :
  node_ok n -> table_rel t m ->
  exists t' m', ip_insert id n t = Ret t' /\ table_rel t' m' /\ added m m' id (ip_keys n).
Proof.
  intros Hn Ht. unfold ip_insert.
  destruct (insert_ip_spec t m _ id Ht (nok_ipv4 n Hn)) as (t1 & m1 & -> & Ht1 & Hd1).
  destruct (insert_ip_spec t1 m1 _ id Ht1 (nok_ipv6 n Hn)) as (t2 & m2 & Hr & Ht2 & Hd2).
  exists t2, m2. split_and!; [exact Hr|done|]. by eapply (added_app _ _ _ _ [_] [_]).
Qed.
End Closures.

(** ** The route index *)

Section Routes.
Context `{!IpNetOps, !IpNetLaws}.
Implicit Types (own : PeerId -> IpNet -> Prop) (m : amap (list PeerId)) (t : RTable (list PeerId)).

(** The list stored at a prefix, without repetitions, is that of the peers
    with this route; a prefix without peers is not stored. *)
Definition rexact m own : Prop :=
  forall p, m p <> Some [] /\ NoDup (default [] (m p)) /\
    forall id, id ∈ default [] (m p) <-> own id p.

Lemma rexact_ext m own own' :
  (forall id p, own id p <-> own' id p) -> rexact m own -> rexact m own'.
Proof. intros E Hm p. destruct (Hm p) as (Hne & Hnd & Hin). split_and!; try done. intros. by rewrite Hin. Qed.

Lemma rexact_update m own p v (own' : PeerId -> IpNet -> Prop) :
  rexact m own -> v <> Some [] -> NoDup (default [] v) ->
  (forall id, id ∈ default [] v <-> own' id p) ->
  (forall id q, q <> p -> own' id q <-> own id q) ->
  rexact (aset m p v) own'.
Proof.
  intros Hm Hne Hnd Hin Hother q. unfold aset. case_decide as E; [by subst|].
  destruct (Hm q) as (? & ? & Hq). split_and!; [done..|]. intros id. by rewrite Hq, Hother.
Qed.

Lemma remove_route_spec t m own r id :
  table_rel t m -> rexact m own -> own id (trunc r) ->
  exists t' m', remove_route r id t = Ret t' /\ table_rel t' m' /\
    rexact m' (fun i p => own i p /\ ~ (i = id /\ p = trunc r)).
Proof.
  intros Ht Hm Hown. destruct (Hm (trunc r)) as (Hne & Hnd & Hin).
  assert (id ∈ default [] (m (trunc r))) as Hid by by apply Hin.
  unfold remove_route. rewrite (table_rel_exact t m) by (done || apply trunc_idem).
  destruct (m (trunc r)) as [val|] eqn:Em; [|by apply not_elem_of_nil in Hid].
  cbn [mbind outcome_bind]. rewrite bool_decide_true by exact Hid. cbn [rassert].
  destruct (table_rel_modify t m r (remove_route_fn id) Ht) as (t' & -> & Hrel).
  exists t', (aset m (trunc r) (apply_mod (remove_route_fn id) (m (trunc r))).1).
  split_and!; [done|done|]. rewrite Em. cbn [apply_mod remove_route_fn on_some].
  assert (forall i, i ∈ filter (fun x => x <> id) val <-> own i (trunc r) /\ ~ (i = id /\ trunc r = trunc r)) as Hf
    by (intros i; rewrite list_elem_of_filter, <- Hin; naive_solver).
  case_decide as E; cbn [fst]; (apply (rexact_update m own); [done| | | |naive_solver]).
  - done.
  - apply NoDup_nil_2.
  - intros i. by rewrite <- Hf, E.
  - congruence.
  - by apply NoDup_filter.
  - exact Hf.
Qed.

Lemma add_route_spec t m own r id :
  table_rel t m -> rexact m own -> ~ own id (trunc r) ->
  exists t' m', add_route r id t = Ret t' /\ table_rel t' m' /\
    rexact m' (fun i p => own i p \/ (i = id /\ p = trunc r)).
Proof.
  intros Ht Hm Hown. destruct (Hm (trunc r)) as (Hne & Hnd & Hin). unfold add_route.
  destruct (table_rel_modify t m r (add_route_fn id) Ht) as (t' & -> & Hrel).
  exists t', (aset m (trunc r) (apply_mod (add_route_fn id) (m (trunc r))).1).
  split_and!; [done|done|]. rewrite <- Hin in Hown.
  destruct (m (trunc r)) as [val|]; cbn [apply_mod add_route_fn on_some on_none fst default] in *;
    (apply (rexact_update m own); [done| | | |naive_solver]); cbn.
  - by destruct val.
  - apply NoDup_app. split_and!; [done| |apply NoDup_singleton]. intros x ? ->%list_elem_of_singleton. done.
  - intros i. rewrite elem_of_app, list_elem_of_singleton, Hin. naive_solver.
  - done.
  - apply NoDup_singleton.
  - intros i. rewrite list_elem_of_singleton, <- (Hin i). set_solver.
Qed.

Lemma routes_remove_loop id rs : forall t m own,
  table_rel t m -> rexact m own -> NoDup (trunc <$> rs) -> (forall p, p ∈ trunc <$> rs -> own id p) ->
  exists t' m', mfoldl (fun t route => remove_route route id t) t rs = Ret t' /\ table_rel t' m' /\
    rexact m' (fun i p => own i p /\ ~ (i = id /\ p ∈ trunc <$> rs)).
Proof.
  induction rs as [|r rs IH]; intros t m own Ht Hm Hnd Hown; cbn [mfoldl].
  - exists t, m. split_and!; [done..|]. eapply rexact_ext, Hm. set_solver.
  - cbn [fmap list_fmap] in *. apply NoDup_cons in Hnd as [Hr Hnd].
    destruct (remove_route_spec t m own r id Ht Hm) as (t1 & m1 & -> & Ht1 & Hm1); [set_solver|].
    destruct (IH t1 m1 _ Ht1 Hm1 Hnd) as (t2 & m2 & Hr2 & Ht2 & Hm2); [set_solver|].
    exists t2, m2. split_and!; [exact Hr2|done|]. eapply rexact_ext, Hm2. set_solver.
Qed.

Lemma routes_insert_loop id rs : forall t m own,
  table_rel t m -> rexact m own -> NoDup (trunc <$> rs) ->
  (forall p, p ∈ trunc <$> rs -> ~ own id p) ->
  exists t' m', mfoldl (fun t route => add_route route id t) t rs = Ret t' /\ table_rel t' m' /\
    rexact m' (fun i p => own i p \/ (i = id /\ p ∈ trunc <$> rs)).
Proof.
  induction rs as [|r rs IH]; intros t m own Ht Hm Hnd Hown; cbn [mfoldl].
  - exists t, m. split_and!; [done..|]. eapply rexact_ext, Hm. set_solver.
  - cbn [fmap list_fmap] in *. apply NoDup_cons in Hnd as [Hr Hnd].
    destruct (add_route_spec t m own r id Ht Hm) as (t1 & m1 & -> & Ht1 & Hm1); [set_solver|].
    destruct (IH t1 m1 _ Ht1 Hm1 Hnd) as (t2 & m2 & Hr2 & Ht2 & Hm2); [set_solver|].
    exists t2, m2. split_and!; [exact Hr2|done|]. eapply rexact_ext, Hm2. set_solver.
Qed.

(** The routes the peers of the database have. *)
Definition owns (ps : gmap PeerId Node) (id : PeerId) (p : IpNet) : Prop :=
  exists n, ps !! id = Some n /\ p ∈ route_keys n.

Lemma routes_remove_spec t m ps id o :
  table_rel t m -> rexact m (owns ps) -> ps !! id = Some o -> node_ok o ->
  exists t' m', routes_remove id o t = Ret t' /\ table_rel t' m' /\ rexact m' (owns (delete id ps)).
Proof.
  intros Ht Hm Ho Hok.
  destruct (routes_remove_loop id (accepted_routes o) t m _ Ht Hm (nok_routes o Hok))
    as (t' & m' & Hr & Ht' & Hm').
  { intros p Hp. by exists o. }
  exists t', m'. split_and!; [exact Hr|done|]. eapply rexact_ext, Hm'. intros i p. unfold owns.
  destruct (decide (i = id)) as [->|Hne].
  - rewrite lookup_delete_eq. unfold route_keys. naive_solver.
  - rewrite lookup_delete_ne by done. naive_solver.
Qed.

Lemma routes_insert_spec t m ps id new :
  table_rel t m -> rexact m (owns (delete id ps)) -> node_ok new ->
  exists t' m', routes_insert id new t = Ret t' /\ table_rel t' m' /\
    rexact m' (owns (<[id := new]> ps)).
Proof.
  intros Ht Hm Hok.
  destruct (routes_insert_loop id (accepted_routes new) t m _ Ht Hm (nok_routes new Hok))
    as (t' & m' & Hr & Ht' & Hm').
  { intros p _ (n & Hn & _). by rewrite lookup_delete_eq in Hn. }
  exists t', m'. split_and!; [exact Hr|done|]. eapply rexact_ext, Hm'. intros i p. unfold owns.
  destruct (decide (i = id)) as [->|Hne].
  - rewrite lookup_delete_eq, lookup_insert_eq. unfold route_keys. naive_solver.
  - rewrite lookup_delete_ne, lookup_insert_ne by done. naive_solver.
Qed.

Lemma routes_update_spec t m ps id new :
  table_rel t m -> rexact m (owns ps) -> node_ok new -> (forall o, ps !! id = Some o -> node_ok o) ->
  exists t' m', maybe_update new (ps !! id) accepted_routes (routes_remove id) (routes_insert id) t
      = Ret t' /\ table_rel t' m' /\ rexact m' (owns (<[id := new]> ps)).
Proof.
  intros Ht Hm Hnew Hold. unfold maybe_update. destruct (ps !! id) as [o|] eqn:Ho.
  - case_decide as E.
    + exists t, m. split_and!; [done..|]. eapply rexact_ext, Hm. intros i p. unfold owns, route_keys.
      destruct (decide (i = id)) as [->|Hne];
        [rewrite Ho, lookup_insert_eq|by rewrite lookup_insert_ne].
      split; intros (n & [= <-] & Hp); eexists; (split; [done|]); congruence.
    + destruct (routes_remove_spec t m ps id o) as (t1 & m1 & -> & Ht1 & Hm1); auto.
      by apply (routes_insert_spec t1 m1).
  - apply (routes_insert_spec t m); [done| |done]. by rewrite delete_id.
Qed.
End Routes.

(** ** The invariant of the database *)

Section Invariant.
Context `{!IpNetOps, !IpNetLaws}.
Implicit Types (db : PeerDb) (n o new : Node) (id : PeerId).

Record db_inv db : Prop := {
  inv_nk : idx_sound (nk_idx (index_state db) !!.) nk_keys (peers db);
  inv_disco : idx_sound (disco_idx (index_state db) !!.) disco_keys (peers db);
  inv_sid : idx_sound (stableid_idx (index_state db) !!.) sid_keys (peers db);
  inv_sid_all : forall id n, peers db !! id = Some n ->
    stableid_idx (index_state db) !! stable_id n = Some id;
  inv_cid : idx_sound (control_idx (index_state db) !!.) cid_keys (peers db);
  inv_name : idx_sound (name_idx (index_state db) !!.) name_keys (peers db);
  inv_ip : exists m, table_rel (ip_idx (index_state db)) m /\ idx_sound m ip_keys (peers db);
  inv_routes : exists m, table_rel (route_idx (index_state db)) m /\ rexact m (owns (peers db));
  inv_inactive : forall k id, inactive_disco_idx (index_state db) !! k = Some id ->
    inactive_disco (index_state db) !! id = Some k;
  inv_inactive_known : forall id, is_Some (inactive_disco (index_state db) !! id) ->
    is_Some (peers db !! id);
  inv_ids : forall id, is_Some (peers db !! id) -> 0 <= id < next_id db;
  inv_next : 0 <= next_id db < 2 ^ 32;
  inv_nodes : forall id n, peers db !! id = Some n -> node_ok n;
}.

Lemma db_inv_default : db_inv PeerDb_default.
Proof.
  split; cbn; try (by intros ?? ?%lookup_empty_Some); try (by intros ? [? ?%lookup_empty_Some]);
    try (exists (fun _ => None); split; [apply table_rel_empty|]); try done.
  intros p. cbn. split_and!; [done|apply NoDup_nil_2|]. intros id. unfold owns.
  rewrite elem_of_nil. split; [done|]. by intros (n & Hn%lookup_empty_Some & _).
Qed.

(** The five indices kept by [maybe_update] on hash maps. *)
Lemma map_update_sound `{Countable K, EqDecision T} (keys : Node -> list K) (accessor : Node -> T)
    (rem ins : Node -> Index K -> outcome (Index K)) id (idx : Index K) ps new :
  (forall o i, exists i', rem o i = Ret i' /\ dropped (i !!.) (i' !!.) id (keys o)) ->
  (forall n i, exists i', ins n i = Ret i' /\ added (i !!.) (i' !!.) id (keys n)) ->
  (forall a b, accessor a = accessor b -> keys a = keys b) ->
  idx_sound (idx !!.) keys ps ->
  exists idx', maybe_update new (ps !! id) accessor rem ins idx = Ret idx' /\
    idx_sound (idx' !!.) keys (<[id := new]> ps) /\
    (forall k i, i <> id -> k ∉ keys new -> idx !! k = Some i -> idx' !! k = Some i) /\
    ((forall o, ps !! id = Some o -> accessor o <> accessor new) ->
      forall k, k ∈ keys new -> idx' !! k = Some id) /\
    (forall k, k ∈ keys new -> idx !! k = Some id -> idx' !! k = Some id).
Proof.
  intros Hrem Hins Hacc Hs.
  destruct (maybe_update_sound (fun (i : Index K) f => f = (i !!.)) keys accessor (fun _ => True)
    rem ins id) with (idx := idx) (f := (idx !!.)) (ps := ps) (new := new)
    as (idx' & f' & Hr & -> & Hu1 & Hu2 & Hu3 & Hu4); try done.
  - intros o i f _ ->. destruct (Hrem o i) as (i' & -> & Hd). eauto.
  - intros o i f _ ->. destruct (Hins o i) as (i' & -> & Hd). eauto.
  - exists idx'. split_and!; done.
Qed.

Lemma idx_update_sound `{Countable K} (accessor : Node -> K) id (idx : Index K) ps new :
  idx_sound (idx !!.) (fun n => [accessor n]) ps ->
  exists idx', maybe_update_idx new (ps !! id) accessor id idx = Ret idx' /\
    idx_sound (idx' !!.) (fun n => [accessor n]) (<[id := new]> ps) /\
    (forall k i, i <> id -> k <> accessor new -> idx !! k = Some i -> idx' !! k = Some i) /\
    ((forall o, ps !! id = Some o -> accessor o <> accessor new) ->
      idx' !! accessor new = Some id) /\
    (idx !! accessor new = Some id -> idx' !! accessor new = Some id).
Proof.
  intros Hs.
  edestruct (map_update_sound (fun n => [accessor n]) accessor) with (idx := idx) (ps := ps)
    (new := new) (id := id) as (idx' & Hr & Hu1 & Hu2 & Hu3 & Hu4); [| | |exact Hs|].
  - intros o i. eexists. split; [reflexivity|]. apply delete_if_owned_dropped.
  - intros n i. eexists. split; [reflexivity|]. apply insert_added.
  - by intros a b ->.
  - exists idx'. split_and!; [exact Hr|done|..].
    + intros k i Hi Hk. apply Hu2; [done|]. by rewrite list_elem_of_singleton.
    + intros Hne. apply Hu3; [done|]. by rewrite list_elem_of_singleton.
    + apply Hu4. by rewrite list_elem_of_singleton.
Qed.

Lemma name_keys_acc a b :
  (hostname a, tailnet a) = (hostname b, tailnet b) -> name_keys a = name_keys b.
Proof. intros [= E1 E2]. unfold name_keys, fqdn_opt. by rewrite E1, E2. Qed.

Lemma disco_keys_acc a b : disco_key a = disco_key b -> disco_keys a = disco_keys b.
Proof. unfold disco_keys. by intros ->. Qed.

Lemma ip_update_sound (t : RTable PeerId) m ps id new :
  table_rel t m -> idx_sound m ip_keys ps -> node_ok new ->
  (forall o, ps !! id = Some o -> node_ok o) ->
  exists t' m', maybe_update new (ps !! id) tailnet_address (ip_remove id) (ip_insert id) t = Ret t' /\
    table_rel t' m' /\ idx_sound m' ip_keys (<[id := new]> ps) /\
    ((forall o, ps !! id = Some o -> tailnet_address o <> tailnet_address new) ->
      forall p, p ∈ ip_keys new -> m' p = Some id).
Proof.
  intros Ht Hs Hnew Hold.
  destruct (maybe_update_sound table_rel ip_keys tailnet_address node_ok (ip_remove id)
    (ip_insert id) id) with (idx := t) (f := m) (ps := ps) (new := new)
    as (t' & m' & Hr & Hv & Hu1 & _ & Hu3 & _); try done.
  - intros. by apply ip_remove_spec.
  - intros. by apply ip_insert_spec.
  - unfold ip_keys. by intros a b ->.
  - exists t', m'. done.
Qed.

(** The identifier of a peer in [upsert]: the one its stable id has, or the
    next free one. *)
Definition upsert_id new db : PeerId :=
  default (next_id db) (stableid_idx (index_state db) !! stable_id new).

(** The peer is new, or its field changes. *)
Definition changed {T} (accessor : Node -> T) new id db : Prop :=
  forall o, peers db !! id = Some o -> accessor o <> accessor new.

(** The peer is known, or an identifier is left for it. *)
Definition id_free new db : Prop :=
  is_Some (stableid_idx (index_state db) !! stable_id new) \/ next_id db + 1 < 2 ^ 32.

Record upserted new id db db' : Prop := {
  up_inv : db_inv db';
  up_peers : peers db' = <[id := new]> (peers db);
  up_next : next_id db <= next_id db' <= next_id db + 1;
  up_next_known : is_Some (stableid_idx (index_state db) !! stable_id new) ->
    next_id db' = next_id db;
  up_inactive : inactive_disco (index_state db') = inactive_disco (index_state db);
  up_inactive_idx : inactive_disco_idx (index_state db') = inactive_disco_idx (index_state db);
  up_nk : changed node_key new id db -> nk_idx (index_state db') !! node_key new = Some id;
  up_cid : changed node_id new id db -> control_idx (index_state db') !! node_id new = Some id;
  up_disco : changed disco_key new id db -> forall k, disco_key new = Some k ->
    disco_idx (index_state db') !! k = Some id;
  up_name : changed (fun x => (hostname x, tailnet x)) new id db -> forall k, k ∈ name_keys new ->
    name_idx (index_state db') !! k = Some id;
  up_ip : changed tailnet_address new id db -> exists m, table_rel (ip_idx (index_state db')) m /\
    forall p, p ∈ ip_keys new -> m p = Some id;
}.

Lemma upsert_id_known db new o :
  db_inv db -> peers db !! upsert_id new db = Some o ->
  stableid_idx (index_state db) !! stable_id new = Some (upsert_id new db) /\
  stable_id o = stable_id new.
Proof.
  intros Hi Ho. unfold upsert_id in *.
  destruct (stableid_idx (index_state db) !! stable_id new) as [id|] eqn:E; cbn in *.
  - destruct (inv_sid db Hi _ _ E) as (n & Hn & Hk). apply list_elem_of_singleton in Hk.
    split; congruence.
  - exfalso. destruct (inv_ids db Hi (next_id db)); [by rewrite Ho|lia].
Qed.

Lemma upsert_id_range db new :
  db_inv db -> 0 <= upsert_id new db <= next_id db.
Proof.
  intros Hi. unfold upsert_id. pose proof (inv_next db Hi).
  destruct (stableid_idx (index_state db) !! stable_id new) as [id|] eqn:E; cbn; [|lia].
  destruct (inv_sid db Hi _ _ E) as (n & Hn & _). destruct (inv_ids db Hi id); [by rewrite Hn|lia].
Qed.

(** A stable id names one peer. *)
Lemma stable_id_inj db id id' n n' :
  db_inv db -> peers db !! id = Some n -> peers db !! id' = Some n' ->
  stable_id n = stable_id n' -> id = id'.
Proof.
  intros Hi Hn Hn' E. apply (inv_sid_all db Hi) in Hn, Hn'. congruence.
Qed.

Lemma upsert_stable_other db new id n :
  db_inv db -> peers db !! id = Some n -> id <> upsert_id new db -> stable_id n <> stable_id new.
Proof.
  intros Hi Hn Hne E. apply Hne. unfold upsert_id. apply (inv_sid_all db Hi) in Hn.
  by rewrite <- E, Hn.
Qed.

Lemma upsert_take_id db new :
  db_inv db -> id_free new db ->
  exists next, next_id db <= next <= next_id db + 1 /\ upsert_id new db < next < 2 ^ 32 /\
    (is_Some (stableid_idx (index_state db) !! stable_id new) -> next = next_id db) /\
    match stableid_idx (index_state db) !! stable_id new with
    | Some id => Ret (id, next_id db) | None => take_id db end = Ret (upsert_id new db, next).
Proof.
  intros Hi Hfree. pose proof (inv_next db Hi). unfold upsert_id, id_free in *.
  destruct (stableid_idx _ !! _) as [id|] eqn:E; cbn.
  - exists (next_id db). destruct (inv_sid db Hi _ _ E) as (n & Hn & _).
    destruct (inv_ids db Hi id); [by rewrite Hn|]. split_and!; [lia..|done|done].
  - destruct Hfree as [[? [=]]|Hn]. exists (next_id db + 1). unfold take_id.
    rewrite decide_True by done. split_and!; [lia..|by intros [? [=]]|done].
Qed.

Lemma upsert_spec db new :
  db_inv db -> node_ok new -> id_free new db ->
  exists db', upsert new db = Ret (db', upsert_id new db) /\ upserted new (upsert_id new db) db db'.
Proof.
  intros Hi Hnew Hfree. pose proof (upsert_id_range db new Hi) as Hrange.
  pose proof (fun o => upsert_id_known db new o Hi) as Hknown.
  destruct (upsert_take_id db new Hi Hfree) as (next & Hn1 & Hn2 & Hn3 & Hid).
  pose proof (upsert_stable_other db new) as Hother.
  unfold upsert. rewrite Hid. clear Hid. set (id := upsert_id new db) in *. mrun. case_decide as Esame.
  { eexists. split; [reflexivity|]. pose proof Hi as [].
    split; cbn; try done; try lia; try (by intros Hc; destruct (Hc new Esame)).
    - split; cbn; try done; [|lia]. intros i Hs. apply inv_ids0 in Hs. lia.
    - by rewrite insert_id. }
  destruct (idx_update_sound node_key id (nk_idx (index_state db)) (peers db) new (inv_nk db Hi))
    as (nk & -> & Hnk & _ & Hnk' & _).
  destruct (idx_update_sound stable_id id (stableid_idx (index_state db)) (peers db) new (inv_sid db Hi))
    as (sid & -> & Hsid & Hsidf & Hsid' & Hsid'').
  destruct (idx_update_sound node_id id (control_idx (index_state db)) (peers db) new (inv_cid db Hi))
    as (cid & -> & Hcid & _ & Hcid' & _).
  destruct (map_update_sound disco_keys disco_key (disco_remove id) (disco_insert id) id
    (disco_idx (index_state db)) (peers db) new (disco_remove_spec id) (disco_insert_spec id)
    disco_keys_acc (inv_disco db Hi)) as (disco & -> & Hdisco & _ & Hdisco' & _).
  destruct (map_update_sound name_keys (fun x => (hostname x, tailnet x)) (name_remove id)
    (name_insert id) id (name_idx (index_state db)) (peers db) new (name_remove_spec id)
    (name_insert_spec id) name_keys_acc (inv_name db Hi)) as (name & -> & Hname & _ & Hname' & _).
  destruct (inv_ip db Hi) as (mi & Hti & Hsi).
  destruct (ip_update_sound _ mi (peers db) id new Hti Hsi Hnew (inv_nodes db Hi id))
    as (ip & mi' & -> & Hti' & Hsi' & Hip').
  destruct (inv_routes db Hi) as (mr & Htr & Hsr).
  destruct (routes_update_spec _ mr (peers db) id new Htr Hsr Hnew (inv_nodes db Hi id))
    as (rt & mr' & -> & Htr' & Hsr').
  mrun. eexists. split; [reflexivity|].
  split; cbn; try done.
  - split; cbn; try done; try (by eexists).
    + intros i n [[<- <-]|[Hne Hn]]%lookup_insert_Some.
      * destruct (peers db !! id) as [o|] eqn:Ho; [|by apply Hsid'].
        apply Hsid''. by apply (Hknown o).
      * apply Hsidf; [done|by apply (Hother i n)|by apply (inv_sid_all db Hi)].
    + apply (inv_inactive db Hi).
    + intros i Hs. apply (inv_inactive_known db Hi) in Hs. apply lookup_insert_is_Some'. by right.
    + intros i [->|Hs]%lookup_insert_is_Some'; [lia|]. apply (inv_ids db Hi) in Hs. lia.
    + lia.
    + intros i n [[<- <-]|[Hne Hn]]%lookup_insert_Some; [done|]. by apply (inv_nodes db Hi i).
  - intros Hc k Hk. apply Hdisco'; [done|]. unfold disco_keys. rewrite Hk. by apply list_elem_of_singleton.
  - intros Hc. exists mi'. split; [done|]. by apply Hip'.
Qed.

Lemma index_remove_spec db id n :
  db_inv db -> peers db !! id = Some n ->
  exists st, index_remove id n (index_state db) = Ret st /\
    db_inv (mkPeerDb (delete id (peers db)) st (next_id db)).
Proof.
  intros Hi Hn. pose proof (inv_nodes db Hi id n Hn) as Hok.
  destruct (inv_ip db Hi) as (mi & Hti & Hsi). destruct (inv_routes db Hi) as (mr & Htr & Hsr).
  unfold index_remove.
  destruct (ip_remove_spec id n _ mi Hok Hti) as (ip & mi' & -> & Hti' & Hdi).
  destruct (name_remove_spec id n (name_idx (index_state db))) as (name & -> & Hdn).
  destruct (routes_remove_spec _ mr (peers db) id n Htr Hsr Hn Hok) as (rt & mr' & -> & Htr' & Hsr').
  destruct (disco_remove_spec id n (disco_idx (index_state db))) as (disco & -> & Hdd).
  mrun. eexists. split; [reflexivity|]. split; cbn.
  - eapply idx_sound_dropped, delete_if_owned_dropped; [apply (inv_nk db Hi)|done].
  - by eapply idx_sound_dropped, Hdd; [apply (inv_disco db Hi)|].
  - eapply idx_sound_dropped, delete_if_owned_dropped; [apply (inv_sid db Hi)|done].
  - intros i m [Hne Hm]%lookup_delete_Some. apply delete_if_owned_dropped. split; [|naive_solver].
    by apply (inv_sid_all db Hi).
  - eapply idx_sound_dropped, delete_if_owned_dropped; [apply (inv_cid db Hi)|done].
  - by eapply idx_sound_dropped, Hdn; [apply (inv_name db Hi)|].
  - exists mi'. split; [done|]. by eapply idx_sound_dropped.
  - by exists mr'.
  - intros k i Hk. destruct (inactive_disco (index_state db) !! id) as [key|] eqn:E.
    + apply delete_if_owned_dropped in Hk as [Hk Hne]. apply (inv_inactive db Hi) in Hk.
      rewrite lookup_delete_ne; [done|]. intros <-. apply Hne. split; [done|].
      rewrite list_elem_of_singleton. congruence.
    + apply (inv_inactive db Hi) in Hk. rewrite lookup_delete_ne; [done|]. intros ->. congruence.
  - intros i Hs. destruct (decide (i = id)) as [->|Hne].
    + rewrite lookup_delete_eq in Hs. by destruct Hs.
    + rewrite lookup_delete_ne in Hs by done. rewrite lookup_delete_ne by done.
      by apply (inv_inactive_known db Hi).
  - intros i [m [_ Hm]%lookup_delete_Some]. apply (inv_ids db Hi). by rewrite Hm.
  - apply (inv_next db Hi).
  - intros i m [_ Hm]%lookup_delete_Some. by apply (inv_nodes db Hi i).
Qed.

Lemma set_inactive_spec db id key :
  db_inv db -> is_Some (peers db !! id) -> db_inv (set_inactive_disco_key id key db).
Proof.
  intros Hi Hid. pose proof Hi as [].
  assert (forall k i, (match inactive_disco (index_state db) !! id with
      | Some previous => delete_if_owned previous id (inactive_disco_idx (index_state db))
      | None => inactive_disco_idx (index_state db) end) !! k = Some i ->
    i <> id /\ inactive_disco (index_state db) !! i = Some k) as Hidx.
  { intros k i. destruct (inactive_disco (index_state db) !! id) as [pr|] eqn:E.
    - intros [Hk Hne]%delete_if_owned_dropped. apply inv_inactive0 in Hk. split; [|done].
      intros ->. apply Hne. split; [done|]. rewrite list_elem_of_singleton. congruence.
    - intros Hk%inv_inactive0. split; [|done]. intros ->. congruence. }
  unfold set_inactive_disco_key. destruct key as [key|]; split; cbn; try done.
  - intros k i [[<- <-]|[Hne Hk]]%lookup_insert_Some; [apply lookup_insert_eq|].
    apply Hidx in Hk as [Hi' Hk]. by rewrite lookup_insert_ne, lookup_delete_ne.
  - intros i [->|Hs]%lookup_insert_is_Some'; [done|]. apply inv_inactive_known0.
    destruct Hs as [k [_ Hk]%lookup_delete_Some]. by rewrite Hk.
  - intros k i Hk. apply Hidx in Hk as [Hi' Hk]. by rewrite lookup_delete_ne.
  - intros i [k [_ Hk]%lookup_delete_Some]. apply inv_inactive_known0. by rewrite Hk.
Qed.

Lemma retain_one_spec (pred : PeerId -> Node -> bool) db id :
  db_inv db ->
  exists db', retain_one pred db id = Ret db' /\ db_inv db' /\ next_id db' = next_id db /\
    forall i n, peers db' !! i = Some n <->
      peers db !! i = Some n /\ (i = id -> pred i n = true).
Proof.
  intros Hi. unfold retain_one. destruct (peers db !! id) as [n|] eqn:Hn.
  - destruct (pred id n) eqn:Hp.
    + exists db. split_and!; [done..|]. naive_solver congruence.
    + destruct (index_remove_spec db id n Hi Hn) as (st & -> & Hi1). eexists. split; [reflexivity|].
      split_and!; [done..|]. intros i m. cbn. rewrite lookup_delete_Some. naive_solver congruence.
  - exists db. split_and!; [done..|]. naive_solver congruence.
Qed.

Lemma retain_spec (pred : PeerId -> Node -> bool) order : forall db,
  db_inv db ->
  exists db', retain order pred db = Ret db' /\ db_inv db' /\ next_id db' = next_id db /\
    forall id n, peers db' !! id = Some n <->
      peers db !! id = Some n /\ (id ∈ order -> pred id n = true).
Proof.
  induction order as [|id order IH]; intros db Hi.
  - exists db. split_and!; [done..|]. set_solver.
  - destruct (retain_one_spec pred db id Hi) as (db1 & Hr1 & Hi1 & Hnx1 & Hps1).
    destruct (IH db1 Hi1) as (db2 & Hr2 & Hi2 & Hnx2 & Hps2). exists db2. split_and!.
    + unfold retain. cbn [mfoldl]. rewrite Hr1. exact Hr2.
    + done.
    + congruence.
    + intros i m. rewrite Hps2, Hps1, elem_of_cons. naive_solver.
Qed.

(** ** What a lookup answers *)

Definition has_field (field : IndexedField) id n : Prop :=
  match field with
  | FPeerId i => i = id
  | FNodeKey key => node_key n = key
  | FDiscoKey key => disco_key n = Some key
  | FStableId s => stable_id n = s
  | FNodeId i => node_id n = i
  | FName name => canon_name name ∈ name_keys n
  | FIp ip => exists p, p ∈ ip_keys n /\ net_contains p ip = true
  end.

Definition field_ok (field : IndexedField) : Prop :=
  match field with FIp ip => ip_ok ip | _ => True end.

Lemma field_lookup_spec db field :
  db_inv db -> field_ok field ->
  exists r, field_lookup field db = Ret r /\
    forall id, r = Some id -> exists n, peers db !! id = Some n /\ has_field field id n.
Proof.
  intros Hi Hf. destruct field as [i|k|k|s|i|nm|ip]; cbn [field_lookup has_field].
  - destruct (peers db !! i) as [n|] eqn:Hn; eexists; (split; [done|]); intros id [= <-]. by exists n.
  - eexists; split; [done|]. intros id Hk. destruct (inv_nk db Hi k id Hk) as (n & Hn & Hin).
    exists n. apply list_elem_of_singleton in Hin. done.
  - eexists; split; [done|]. intros id Hk. destruct (inv_disco db Hi k id Hk) as (n & Hn & Hin).
    exists n. split; [done|]. unfold disco_keys in Hin.
    destruct (disco_key n) as [k'|]; [|by apply not_elem_of_nil in Hin].
    apply list_elem_of_singleton in Hin. by subst.
  - eexists; split; [done|]. intros id Hk. destruct (inv_sid db Hi s id Hk) as (n & Hn & Hin).
    exists n. apply list_elem_of_singleton in Hin. done.
  - eexists; split; [done|]. intros id Hk. destruct (inv_cid db Hi i id Hk) as (n & Hn & Hin).
    exists n. apply list_elem_of_singleton in Hin. done.
  - eexists; split; [done|]. intros id Hk. destruct (inv_name db Hi _ id Hk) as (n & Hn & Hin). eauto.
  - destruct (inv_ip db Hi) as (m & Ht & Hs). exists (route_of m ip).
    rewrite (table_rel_lookup _ m) by done. split; [done|]. intros id Hr.
    pose proof (head_best_match m ip (8 * width (is_ipv4 ip)) Hf) as Hb. fold (route_of m ip) in Hb.
    rewrite Hr in Hb. destruct Hb as (p & (_ & Hc & Hm) & _).
    destruct (Hs p id Hm) as (n & Hn & Hin). eauto.
Qed.
End Invariant.

(** ** A directory of peers *)

Section Directory.
Context `{!IpNetOps, !IpNetLaws}.
Implicit Types (db : PeerDb) (n : Node) (id : PeerId).

Inductive DbOp :=
| OUpsert (new : Node)
| ORemoveBy (field : IndexedField)
| OSetInactive (id : PeerId) (key : option (list Z))
| ORetain (order : list PeerId) (predicate : PeerId -> Node -> bool).

Definition db_apply (op : DbOp) db : outcome PeerDb :=
  match op with
  | OUpsert new => '(db, _) ← upsert new db; Ret db
  | ORemoveBy field => '(db, _) ← remove field db; Ret db
  | OSetInactive id key => Ret (set_inactive_disco_key id key db)
  | ORetain order predicate => retain order predicate db
  end.

(** What the callers provide: distinct routes and free identifiers for an
    upsert, a known peer for an inactive key, an order that visits every peer. *)
Definition op_ok (op : DbOp) db : Prop :=
  match op with
  | OUpsert new => node_ok new /\ id_free new db
  | ORemoveBy field => field_ok field
  | OSetInactive id _ => is_Some (peers db !! id)
  | ORetain order _ => forall id, is_Some (peers db !! id) -> id ∈ order
  end.

(** Stable ids to peers. *)
Abbreviation Directory := (gmap str (PeerId * Node)).

Definition dir_rel (A : Directory) db : Prop :=
  forall s id n, A !! s = Some (id, n) <-> peers db !! id = Some n /\ stable_id n = s.

Inductive dir_step (A : Directory) : DbOp -> Directory -> Prop :=
| step_upsert_known new id o :
    A !! stable_id new = Some (id, o) ->
    dir_step A (OUpsert new) (<[stable_id new := (id, new)]> A)
| step_upsert_new new id :
    A !! stable_id new = None -> (forall s n, A !! s <> Some (id, n)) ->
    dir_step A (OUpsert new) (<[stable_id new := (id, new)]> A)
| step_remove field s id n :
    A !! s = Some (id, n) -> has_field field id n ->
    dir_step A (ORemoveBy field) (delete s A)
| step_remove_unknown field :
    (forall s, field = FStableId s -> A !! s = None) ->
    (forall id s n, field = FPeerId id -> A !! s <> Some (id, n)) ->
    dir_step A (ORemoveBy field) A
| step_inactive id key :
    dir_step A (OSetInactive id key) A
| step_retain order predicate :
    dir_step A (ORetain order predicate)
      (filter (fun e => predicate e.2.1 e.2.2 = true) A).

Lemma dir_rel_upsert A db new db' id :
  db_inv db -> dir_rel A db -> id = upsert_id new db -> peers db' = <[id := new]> (peers db) ->
  dir_rel (<[stable_id new := (id, new)]> A) db'.
Proof.
  intros Hi HA -> Hp s i n. rewrite Hp. pose proof (upsert_stable_other db new) as Ho.
  pose proof (fun o => upsert_id_known db new o Hi) as Hk.
  rewrite !lookup_insert_Some, (HA s i n). split.
  - intros [[<- [= <- <-]]|[Hne [Hn Hs]]]; [naive_solver|]. split; [|done]. right. split; [|done].
    intros <-. destruct (Hk n Hn). congruence.
  - intros [[[<- <-]|[Hne Hn]] Hs]; [naive_solver|]. right.
    specialize (Ho i n Hi Hn). split; [|done]. intros <-. apply Ho; [done|congruence].
Qed.

Lemma dir_rel_remove A db id n :
  db_inv db -> dir_rel A db -> peers db !! id = Some n -> forall st nx,
  dir_rel (delete (stable_id n) A) (mkPeerDb (delete id (peers db)) st nx).
Proof.
  intros Hi HA Hn st nx s i m. cbn. rewrite !lookup_delete_Some, (HA s i m).
  pose proof (stable_id_inj db i id m n Hi). naive_solver.
Qed.

Lemma peer_remove_spec db field :
  db_inv db -> field_ok field ->
  (exists id n st, remove field db
      = Ret (mkPeerDb (delete id (peers db)) st (next_id db), Some (id, n)) /\
    peers db !! id = Some n /\ has_field field id n /\
    db_inv (mkPeerDb (delete id (peers db)) st (next_id db))) \/
  (remove field db = Ret (db, None) /\ field_lookup field db = Ret None).
Proof.
  intros Hi Hf. destruct (field_lookup_spec db field Hi Hf) as (r & Hr & Hs).
  unfold remove. rewrite Hr. mrun. destruct r as [id|]; [|by right].
  destruct (Hs id eq_refl) as (n & Hn & Hh). left.
  destruct (index_remove_spec db id n Hi Hn) as (st & Hst & Hi'). rewrite Hn, Hst.
  by exists id, n, st.
Qed.

(** C11: the peer database implements a directory from stable ids to peers.
    Every operation whose caller keeps its side (peers with distinct routes,
    identifiers left in [u32], a retain that visits every peer) returns
    without a panic, keeps every index sound and acts on the directory: an
    upsert sets the peer of its stable id and keeps its identifier or takes a
    fresh one, a removal deletes one peer that has the field, a retain keeps
    the peers of its predicate. *)
Theorem peer_db_refines_directory db A op :
  db_inv db -> dir_rel A db -> op_ok op db ->
  exists db' A', db_apply op db = Ret db' /\ db_inv db' /\ dir_step A op A' /\ dir_rel A' db'.
Proof.
  intros Hi HA Hop. destruct op as [new|field|id key|order pred]; cbn [db_apply op_ok] in *.
  - destruct Hop as [Hnew Hnx]. destruct (upsert_spec db new Hi Hnew Hnx) as (db' & -> & Hup).
    exists db', (<[stable_id new := (upsert_id new db, new)]> A).
    split_and!; [done|apply Hup| |by eapply dir_rel_upsert, Hup].
    destruct (A !! stable_id new) as [[i o]|] eqn:E.
    + replace (upsert_id new db) with i; [by econstructor|].
      apply HA in E as [Ho Hs]. unfold upsert_id. by rewrite <- Hs, (inv_sid_all db Hi i o Ho).
    + constructor; [done|]. intros s n [Hn Hs]%HA.
      destruct (upsert_id_known db new n Hi Hn) as [_ Es]. rewrite <- Es, Hs in E.
      assert (A !! s = Some (upsert_id new db, n)) as E' by (by apply HA). congruence.
  - destruct (peer_remove_spec db field Hi Hop) as [(id & n & st & -> & Hn & Hh & Hi')|[-> Hno]].
    + eexists _, (delete (stable_id n) A). split_and!; [done|done| |by apply dir_rel_remove].
      econstructor; [by apply HA|done].
    + exists db, A. split_and!; [done|done| |done]. constructor.
      * intros s ->. injection Hno as Hno. destruct (A !! s) as [[i n]|] eqn:E; [|done].
        apply HA in E as [Hn <-]. apply (inv_sid_all db Hi) in Hn. congruence.
      * intros i s n -> E. apply HA in E as [Hn _]. cbn in Hno. by rewrite Hn in Hno.
  - eexists _, A. split_and!; [done|by apply set_inactive_spec|constructor|].
    destruct key; exact HA.
  - destruct (retain_spec pred order db Hi) as (db' & -> & Hi' & _ & Hp).
    eexists _, _. split_and!; [done|done|constructor|]. intros s i n.
    rewrite map_lookup_filter_Some, (HA s i n), Hp. cbn. naive_solver.
Qed.

(** A peer that [get] returns for a field is in the database under the
    returned identifier and has that field (for an address: one of its tailnet
    prefixes contains it); by identifier and by stable id every peer of the
    database is found. *)
Theorem peer_lookup_sound db field :
  db_inv db -> field_ok field ->
  exists r, get field db = Ret r /\
    (forall id n, r = Some (id, n) -> peers db !! id = Some n /\ has_field field id n) /\
    (forall id n, peers db !! id = Some n -> field = FPeerId id \/ field = FStableId (stable_id n) ->
      r = Some (id, n)).
Proof.
  intros Hi Hf. destruct (field_lookup_spec db field Hi Hf) as (r & Hr & Hs).
  unfold get. rewrite Hr. eexists. split; [reflexivity|]. split.
  - intros id n E. destruct r as [i|]; [|done]. destruct (Hs i eq_refl) as (m & Hm & Hh).
    cbn [mbind option_bind] in E. rewrite Hm in E. cbn in E. by simplify_eq.
  - intros id n Hn Hfield. assert (r = Some id) as ->.
    { destruct Hfield as [->| ->]; cbn in Hr; [rewrite Hn in Hr; congruence|].
      rewrite (inv_sid_all db Hi id n Hn) in Hr. congruence. }
    cbn [mbind option_bind]. by rewrite Hn.
Qed.

(** The prefix [q] covers the prefix [p]. *)
Definition covers (q p : IpNet) : Prop :=
  net_contains q (addr (trunc p)) = true /\ (prefix_len q <= prefix_len p)%nat.

Lemma get_all_spec db ids :
  (forall id, id ∈ ids -> is_Some (peers db !! id)) ->
  exists l, get_all ids db = Ret l /\ l.*1 = ids /\
    forall id n, (id, n) ∈ l -> peers db !! id = Some n.
Proof.
  induction ids as [|id ids IH]; intros Hids; cbn [get_all].
  - exists []. split_and!; [done..|]. by intros ?? ?%not_elem_of_nil.
  - destruct (Hids id) as [n Hn]; [apply list_elem_of_here|].
    destruct IH as (l & -> & Hl & Hin); [set_solver|]. rewrite Hn. mrun.
    exists ((id, n) :: l). split_and!; [done|by cbn; f_equal|].
    intros i m [[= -> ->]|Him]%elem_of_cons; [done|by apply Hin].
Qed.

(** C31: [get_route] never unwraps a missing peer.  It answers with no peer
    only when no peer has a route covering the query, and otherwise with
    exactly the peers that have one route, each once, no covering route of any
    peer being longer. *)
Theorem get_route_exact db r :
  db_inv db ->
  exists l, get_route r db = Ret l /\ NoDup l.*1 /\
    match l with
    | [] => forall id n q, peers db !! id = Some n -> q ∈ route_keys n -> ~ covers q r
    | _ :: _ => exists p, covers p r /\
        (forall id n, (id, n) ∈ l <-> peers db !! id = Some n /\ p ∈ route_keys n) /\
        forall id n q, peers db !! id = Some n -> q ∈ route_keys n -> covers q r ->
          (prefix_len q <= prefix_len p)%nat
    end.
Proof.
  intros Hi. destruct (inv_routes db Hi) as (m & Ht & Hm). unfold get_route.
  destruct (table_rel_lookup_prefix _ m r Ht) as (o & -> & Hb). mrun.
  assert (forall id n q, peers db !! id = Some n -> q ∈ route_keys n ->
    trunc q = q /\ exists v, m q = Some v) as Hkey.
  { intros id n q Hn Hq. split.
    - unfold route_keys in Hq. apply list_elem_of_fmap in Hq as (x & -> & _). apply trunc_idem.
    - destruct (Hm q) as (_ & _ & Hin). assert (id ∈ default [] (m q)) as Hd by (apply Hin; by exists n).
      destruct (m q); [eauto|by apply not_elem_of_nil in Hd]. }
  destruct o as [ids|]; cbn [default from_option] in *.
  - destruct Hb as (p & (Htp & Hcp & Hmp) & Hlp & Hbest). destruct (Hm p) as (Hne & Hnd & Hin).
    rewrite Hmp in Hne, Hnd, Hin. cbn [default from_option] in Hnd, Hin.
    destruct (get_all_spec db ids) as (l & Hl & Hl1 & Hln).
    { intros id Hid. apply Hin in Hid as (n & Hn & _). by rewrite Hn. }
    exists l. split_and!; [exact Hl|by rewrite Hl1|]. destruct l as [|e l']; [by subst ids|].
    exists p. split_and!; [by split| |].
    + intros id n. split.
      * intros Hd. split; [by apply Hln|]. assert (id ∈ ids) as Hid.
        { rewrite <- Hl1. apply list_elem_of_fmap. by exists (id, n). }
        apply Hin in Hid as (n' & Hn' & Hp). by rewrite (Hln _ _ Hd) in Hn'; simplify_eq.
      * intros [Hn Hp]. assert (id ∈ ids) as Hid by (apply Hin; by exists n).
        rewrite <- Hl1 in Hid. apply list_elem_of_fmap in Hid as ([i n'] & -> & Hd).
        cbn in Hn. pose proof (Hln _ _ Hd). by simplify_eq.
    + intros id n q Hn Hq [Hc Hlq]. destruct (Hkey id n q Hn Hq) as (Htq & v & Hv).
      by apply (Hbest q v).
  - exists []. split_and!; [done|apply NoDup_nil_2|]. intros id n q Hn Hq [Hc Hlq].
    destruct (Hkey id n q Hn Hq) as (Htq & v & Hv). specialize (Hb q v). unfold covering in Hb.
    assert (prefix_len r < prefix_len q)%nat by (by apply Hb). lia.
Qed.

(** After an upsert that changes a peer's key, its names or its
    address (or adds the peer), the new values resolve to that peer, whoever
    held them before. *)
Theorem upsert_claims_fields db new db' id :
  db_inv db -> node_ok new -> id_free new db -> upsert new db = Ret (db', id) ->
  get (FStableId (stable_id new)) db' = Ret (Some (id, new)) /\
  (changed node_key new id db -> get (FNodeKey (node_key new)) db' = Ret (Some (id, new))) /\
  (changed node_id new id db -> get (FNodeId (node_id new)) db' = Ret (Some (id, new))) /\
  (changed disco_key new id db -> forall k, disco_key new = Some k ->
    get (FDiscoKey k) db' = Ret (Some (id, new))) /\
  (changed (fun x => (hostname x, tailnet x)) new id db -> forall name,
    canon_name name ∈ name_keys new -> get (FName name) db' = Ret (Some (id, new))).
Proof.
  intros Hi Hnew Hnx Hr. destruct (upsert_spec db new Hi Hnew Hnx) as (db1 & Hr' & Hup).
  rewrite Hr' in Hr. injection Hr as -> <-. set (id := upsert_id new db) in *.
  assert (peers db' !! id = Some new) as Hn by (rewrite (up_peers _ _ _ _ Hup); apply lookup_insert_eq).
  assert (forall field, field_lookup field db' = Ret (Some id) -> get field db' = Ret (Some (id, new))) as Hget.
  { intros field Hf. unfold get. rewrite Hf. cbn [mbind outcome_bind option_bind]. by rewrite Hn. }
  split_and!.
  - apply Hget. cbn. f_equal. by apply (inv_sid_all db' (up_inv _ _ _ _ Hup)).
  - intros Hc. apply Hget. cbn. f_equal. by apply Hup.
  - intros Hc. apply Hget. cbn. f_equal. by apply Hup.
  - intros Hc k Hk. apply Hget. cbn. f_equal. by eapply up_disco.
  - intros Hc name Hk. apply Hget. cbn. f_equal. by eapply up_name.
Qed.
End Directory.

(** ** Names *)

Section Names.
Context `{!IpNetOps}.
Implicit Types (s t : str) (n : Node).

Lemma to_lower_dot c : to_lower c = DOT <-> c = DOT.
Proof. unfold to_lower, DOT. case_decide; lia. Qed.

Lemma to_lower_cont c : 128 <= to_lower c < 192 <-> 128 <= c < 192.
Proof. unfold to_lower. case_decide; lia. Qed.

Lemma lower_app s t :
  to_ascii_lowercase (s ++ t) = to_ascii_lowercase s ++ to_ascii_lowercase t.
Proof. apply fmap_app. Qed.

Lemma lower_dot_in s : DOT ∈ to_ascii_lowercase s <-> DOT ∈ s.
Proof.
  unfold to_ascii_lowercase. rewrite list_elem_of_fmap. split.
  - intros (c & Hc & Hin). symmetry in Hc. rewrite to_lower_dot in Hc. by subst c.
  - intros Hin. exists DOT. split; [done|done].
Qed.

Lemma strip_dot_Some s f : strip_dot s = Some f <-> s = f ++ [DOT].
Proof.
  unfold strip_dot. destruct (rev s) as [|c r] eqn:E.
  - apply (f_equal (@rev Z)) in E. rewrite rev_involutive in E. subst. split; [done|].
    by destruct f.
  - apply (f_equal (@rev Z)) in E. rewrite rev_involutive in E. cbn in E. subst. case_decide as Ec.
    + subst c. split; [intros [= <-]; done|]. intros Hf. apply app_inj_tail in Hf as [-> _]. done.
    + split; [done|]. intros Hf. apply app_inj_tail in Hf as [_ ->]. done.
Qed.

Lemma strip_dot_None s : strip_dot s = None <-> forall f, s <> f ++ [DOT].
Proof.
  destruct (strip_dot s) as [f|] eqn:E; split; try done.
  - apply strip_dot_Some in E. intros Hf. by destruct (Hf f).
  - intros _ f Hf%strip_dot_Some. congruence.
Qed.

Lemma eq_ignore_iff s t :
  eq_ignore_ascii_case s t = true <-> to_ascii_lowercase s = to_ascii_lowercase t.
Proof. apply bool_decide_eq_true. Qed.

(** The name of [matches_name] with the tailnet's suffix taken off. *)
Definition chop_tailnet s t : option str :=
  suffix ← str_get_from s (length s - length t);
  if eq_ignore_ascii_case suffix t
  then front ← str_get_to s (length s - length t); strip_dot front
  else None.

Lemma chop_Some s t f :
  chop_tailnet s t = Some f ->
  exists suffix, s = f ++ [DOT] ++ suffix /\ to_ascii_lowercase suffix = to_ascii_lowercase t.
Proof.
  unfold chop_tailnet, str_get_from, str_get_to, eq_ignore_ascii_case.
  destruct (is_char_boundary s _); [|done]. cbn [mbind option_bind].
  case_bool_decide as E; [|done]. cbn [mbind option_bind]. intros Hf%strip_dot_Some.
  exists (drop (length s - length t) s). split; [|done].
  rewrite app_assoc, <- Hf. by rewrite take_drop.
Qed.

(** A tailnet name: not empty, of whole characters, without a final dot. *)
Definition tailnet_ok t : Prop :=
  (exists c r, t = c :: r /\ ~ 128 <= c < 192) /\ forall f, t <> f ++ [DOT].

Lemma chop_fqdn s host t :
  tailnet_ok t -> to_ascii_lowercase s = to_ascii_lowercase (host ++ [DOT] ++ t) ->
  exists f, chop_tailnet s t = Some f /\ to_ascii_lowercase f = to_ascii_lowercase host.
Proof.
  intros [(c & r & Et & Hc) _] E.
  assert (length s = length host + 1 + length t)%nat as Hlen.
  { apply (f_equal length) in E. unfold to_ascii_lowercase in E. rewrite !length_fmap in E.
    rewrite !length_app in E. cbn in E. lia. }
  assert (exists f x, s = f ++ [DOT] ++ x /\ to_ascii_lowercase f = to_ascii_lowercase host /\
    to_ascii_lowercase x = to_ascii_lowercase t) as (f & x & -> & Ef & Ex).
  { rewrite !lower_app in E. apply fmap_app_inv in E as (f & y & Hf & Hy & ->).
    symmetry in Hy. apply fmap_app_inv in Hy as (d & x & Hd & Hx & ->).
    exists f, x. destruct d as [|d [|]]; try done.
    assert (to_lower d = DOT) as Hd' by (by injection Hd as <-).
    rewrite to_lower_dot in Hd'. subst d. done. }
  assert (length x = length t) as Hx.
  { apply (f_equal length) in Ex. unfold to_ascii_lowercase in Ex. by rewrite !length_fmap in Ex. }
  exists f. split; [|done]. unfold chop_tailnet.
  replace (length (f ++ [DOT] ++ x) - length t)%nat with (length (f ++ [DOT]))
    by (rewrite !length_app; cbn; lia).
  rewrite app_assoc. assert (is_char_boundary ((f ++ [DOT]) ++ x) (length (f ++ [DOT])) = true) as Hb.
  { unfold is_char_boundary. rewrite lookup_app_r, Nat.sub_diag by lia.
    rewrite Et in Ex. destruct x as [|b x]; [done|]. cbn in *. injection Ex as Eb _.
    apply orb_true_iff. right. apply negb_true_iff, bool_decide_eq_false.
    rewrite <- (to_lower_cont b), Eb, to_lower_cont. done. }
  unfold str_get_from, str_get_to. rewrite Hb. cbn [mbind option_bind].
  rewrite drop_app_length. unfold eq_ignore_ascii_case. rewrite bool_decide_true by done.
  rewrite take_app_length. by apply strip_dot_Some.
Qed.

(** Comparing a name with a node, as the exit-node selector does, agrees
    with looking it up in the name index: for a hostname without a dot and a
    proper tailnet name, [matches_name] holds exactly when the canonical form
    of the name is one of the node's index keys. *)
Theorem matches_name_is_index_key n name :
  DOT ∉ hostname n -> (forall t, tailnet n = Some t -> tailnet_ok t) ->
  matches_name n name = true <-> canon_name name ∈ name_keys n.
Proof.
  intros Hhost Htail. unfold matches_name, canon_name at 1.
  set (s := default name (strip_dot name)). unfold name_keys, fqdn_opt.
  assert (canon_name (hostname n) = to_ascii_lowercase (hostname n)) as ->.
  { unfold canon_name. replace (strip_dot (hostname n)) with (@None str); [done|].
    symmetry. apply strip_dot_None. intros f Hf. rewrite Hf in Hhost. set_solver. }
  rewrite eq_ignore_iff.
  destruct (tailnet n) as [t|]; cbn [mbind option_bind option_fmap option_map fmap option_list app];
    [|by rewrite list_elem_of_singleton].
  specialize (Htail t eq_refl). rewrite app_nil_r.
  assert (canon_name (hostname n ++ DOT :: t) = to_ascii_lowercase (hostname n ++ [DOT] ++ t)) as ->.
  { unfold canon_name. replace (strip_dot (hostname n ++ DOT :: t)) with (@None str); [done|].
    symmetry. apply strip_dot_None. intros f Hf. destruct Htail as [(c & r & -> & _) Ht].
    destruct (exists_last (l := c :: r)) as (u & x & E); [done|]. rewrite E in Hf.
    rewrite app_comm_cons, app_assoc in Hf. apply app_inj_tail in Hf as [_ ->]. by apply (Ht u). }
  fold (chop_tailnet s t).
  change (option_list (Some ?x)) with [x]. rewrite !elem_of_cons, elem_of_nil.
  destruct (chop_tailnet s t) as [f|] eqn:Ec; cbn [default from_option].
  - destruct (chop_Some s t f Ec) as (x & Hs & Hx). split.
    + intros E. right. left. change (DOT :: t) with ([DOT] ++ t).
      change (id f) with f in E. by rewrite Hs, !lower_app, E, Hx.
    + intros [E|[E|[]]].
      * exfalso. apply Hhost, lower_dot_in. rewrite <- E, lower_dot_in, Hs. set_solver.
      * destruct (chop_fqdn s (hostname n) t Htail E) as (f' & Hf' & Ef').
        change (id f) with f. congruence.
  - split; [by left|]. intros [E|[E|[]]]; [done|].
    destruct (chop_fqdn s (hostname n) t Htail E) as (f' & Hf' & _). congruence.
Qed.
End Names.

(** ** Examples *)

Module DemoPeers.
Definition net6 (os : list Z) (l : nat) (H : net_okb (V6 os) l = true) : CNet :=
  mkCNet (V6 os) l H.

Definition addresses_of (host : Z) (H : net_okb (ip4 100 64 0 host) 32 = true)
    (H' : net_okb (V6 [253; 122; 17; 92; 161; 224; 0; 0; 0; 0; 0; 0; 0; 0; 0; host]) 128 = true)
    : TailnetAddress :=
  mkTailnetAddress (net4 100 64 0 host 32 H)
    (net6 [253; 122; 17; 92; 161; 224; 0; 0; 0; 0; 0; 0; 0; 0; 0; host] 128 H').

Definition mk (name : str) (id : Z) (key : list Z) (a : TailnetAddress) (routes : list IpNet) : Node :=
  mkNode id name name 0 (Some (bytes_of_string "ts.net")) [] [ipv4 a; ipv6 a] a key None
    false None None [] None None false routes [] [] None 0 ∅ None false false [] false ∅.

Definition net10 : CNet := net4 10 0 0 0 8 eq_refl.

Definition alice : Node :=
  mk (bytes_of_string "alice") 1 (replicate 32 1) (addresses_of 1 eq_refl eq_refl) [net10].
Definition bob : Node :=
  mk (bytes_of_string "Bob") 2 (replicate 32 2) (addresses_of 2 eq_refl eq_refl) [net10].

(** A peer with a route twice. *)
Definition carol : Node :=
  mk (bytes_of_string "carol") 3 (replicate 32 3) (addresses_of 3 eq_refl eq_refl) [net10; net10].

(** A peer with the node key of [alice]. *)
Definition mallory : Node :=
  mk (bytes_of_string "mallory") 4 (replicate 32 1) (addresses_of 4 eq_refl eq_refl) [].

Lemma demo_node_ok n :
  bool_decide (NoDup (route_keys n)) && bool_decide (trunc (ipv4 (tailnet_address n)) = ipv4 (tailnet_address n))
    && bool_decide (trunc (ipv6 (tailnet_address n)) = ipv6 (tailnet_address n)) = true -> node_ok n.
Proof. rewrite !andb_true_iff, !bool_decide_eq_true. by intros [[? ?] ?]. Qed.

Lemma alice_ok : node_ok alice.
Proof. apply demo_node_ok. vm_compute. reflexivity. Qed.

Definition run (ops : list DbOp) : outcome PeerDb :=
  mfoldl (fun db op => db_apply op db) PeerDb_default ops.

(** Upserts only: a database with these peers. *)
Fixpoint upserts (ns : list Node) : PeerDb :=
  match ns with
  | [] => PeerDb_default
  | n :: ns => match upsert n (upserts ns) with Ret (db, _) => db | Panic => upserts ns end
  end.

Lemma upserts_inv ns :
  Forall node_ok ns -> Z.of_nat (length ns) + 1 < 2 ^ 32 ->
  db_inv (upserts ns) /\ next_id (upserts ns) <= Z.of_nat (length ns).
Proof.
  induction 1 as [|n ns Hn Hns IH]; cbn [upserts length]; intros Hlen.
  - split; [apply db_inv_default|]. cbn. lia.
  - destruct IH as [Hi Hnx]; [lia|].
    destruct (upsert_spec (upserts ns) n Hi Hn) as (db & -> & Hup); [right; lia|].
    split; [apply Hup|]. pose proof (up_next _ _ _ _ Hup). lia.
Qed.

Definition two_peers : PeerDb := upserts [bob; alice].

Lemma two_peers_inv : db_inv two_peers /\ next_id two_peers <= 2.
Proof.
  apply (upserts_inv [bob; alice]); [|vm_compute; reflexivity].
  apply Forall_cons; split; [|apply Forall_singleton, alice_ok].
  apply demo_node_ok. vm_compute. reflexivity.
Qed.
End DemoPeers.
Import DemoPeers.

Lemma peer_db_refines_directory_witness :
  exists db' A', db_apply (OUpsert alice) PeerDb_default = Ret db' /\ db_inv db' /\
    dir_step ∅ (OUpsert alice) A' /\ dir_rel A' db'.
Proof.
  apply (peer_db_refines_directory PeerDb_default ∅ (OUpsert alice)).
  - apply db_inv_default.
  - intros s id n. cbn. rewrite !lookup_empty. naive_solver.
  - split; [apply alice_ok|]. right. vm_compute. reflexivity.
Defined.

Lemma peer_lookup_sound_witness :
  exists r, get (FName (bytes_of_string "BOB.ts.net.")) two_peers = Ret r /\
    (forall id n, r = Some (id, n) ->
      peers two_peers !! id = Some n /\ has_field (FName (bytes_of_string "BOB.ts.net.")) id n) /\
    (forall id n, peers two_peers !! id = Some n ->
      FName (bytes_of_string "BOB.ts.net.") = FPeerId id \/
      FName (bytes_of_string "BOB.ts.net.") = FStableId (stable_id n) -> r = Some (id, n)).
Proof.
  apply (peer_lookup_sound two_peers); [apply two_peers_inv|exact I].
Defined.

Lemma get_route_exact_witness :
  exists l, get_route (net4 10 1 2 3 32 eq_refl) two_peers = Ret l /\ NoDup l.*1 /\
    match l with
    | [] => forall id n q, peers two_peers !! id = Some n -> q ∈ route_keys n ->
        ~ covers q (net4 10 1 2 3 32 eq_refl)
    | _ :: _ => exists p, covers p (net4 10 1 2 3 32 eq_refl) /\
        (forall id n, (id, n) ∈ l <-> peers two_peers !! id = Some n /\ p ∈ route_keys n) /\
        forall id n q, peers two_peers !! id = Some n -> q ∈ route_keys n ->
          covers q (net4 10 1 2 3 32 eq_refl) -> (prefix_len q <= prefix_len p)%nat
    end.
Proof. apply (get_route_exact two_peers). apply two_peers_inv. Defined.

Lemma upsert_claims_fields_witness :
  exists db' id, upsert mallory two_peers = Ret (db', id) /\
    (changed node_key mallory id two_peers ->
      get (FNodeKey (node_key alice)) db' = Ret (Some (id, mallory))).
Proof.
  assert (node_ok mallory) as Hok by (apply demo_node_ok; vm_compute; reflexivity).
  destruct two_peers_inv as [Hi Hnx].
  assert (id_free mallory two_peers) as Hlt by (right; change (2 ^ 32) with 4294967296; lia).
  destruct (upsert_spec two_peers mallory Hi Hok Hlt) as (db' & Hr & _).
  exists db', (upsert_id mallory two_peers). split; [exact Hr|].
  apply (upsert_claims_fields two_peers mallory db' _ Hi Hok Hlt Hr).
Defined.

Lemma matches_name_is_index_key_witness :
  matches_name bob (bytes_of_string "BOB.ts.net.") = true <->
  canon_name (bytes_of_string "BOB.ts.net.") ∈ name_keys bob.
Proof.
  apply matches_name_is_index_key.
  - apply (bool_decide_unpack _). vm_compute. exact I.
  - intros t [= <-]. split.
    + exists 116, (bytes_of_string "s.net"). split; [reflexivity|lia].
    + intros f Hf. apply (f_equal last) in Hf. rewrite last_snoc in Hf. vm_compute in Hf. discriminate.
Defined.

(** The assertion of [remove_route] fails for a peer that lists a route
    twice while another peer has the same route: removing the first peer drops
    both of its entries at the first occurrence, and the second occurrence
    finds only the other peer. *)
Theorem duplicate_route_panics :
  run [OUpsert carol; OUpsert bob; ORemoveBy (FStableId (stable_id carol))] = Panic /\
  (exists db, run [OUpsert carol; ORemoveBy (FStableId (stable_id carol))] = Ret db).
Proof.
  split; [apply outcome_panics|apply outcome_returns]; vm_compute; reflexivity.
Qed.

Definition alice_online : Node := set_online (Some true) alice.

Definition found (field : IndexedField) (ops : list DbOp) : outcome (option PeerId) :=
  db ← run ops; r ← get field db; Ret match r with Some (id, _) => Some id | None => None end.

(** An index entry that another peer has taken over is not reclaimed.
    Once a second peer has claimed a node key and left, a later upsert of the
    first peer (here with a new online state) leaves it unresolvable by its key,
    although it is still found by its stable id. *)
Theorem contested_key_is_lost :
  let ops := [OUpsert alice; OUpsert mallory; ORemoveBy (FStableId (stable_id mallory));
              OUpsert alice_online] in
  found (FStableId (stable_id alice)) ops = Ret (Some 0) /\
  found (FNodeKey (node_key alice)) ops = Ret None.
Proof. split; vm_compute; reflexivity. Qed.
