(* ===== verification/Expiry.v ===== *)
(** * Expiry: node-key expiry (src/ts_control/src/expiry.rs)

    [ExpiryManager] remembers the offset of control's clock and the peers it
    has flagged, rewrites a peer whose key has expired and undoes the rewrite
    when the expiry is extended.  Instants and durations are nanoseconds; the
    range of chrono's [DateTime] is a parameter, and an addition that leaves it
    panics, as chrono documents. *)

From stdpp Require Import gmap strings sorting countable.
From S2P Require Import Prelude Bytes IpNet IpNetModel PacketFilter Packet FlowTrack ControlNode.

Local Open Scope Z_scope.

(** ** The model *)

(** The instants a [DateTime<Utc>] holds. *)
Class Chrono := { dt_ok : Z -> bool }.

(** [t + d] *)
Definition dt_add `{!Chrono} (t d : Z) : outcome Z :=
  if dt_ok (t + d) then Ret (t + d) else Panic.

Definition SECOND : Z := 1000000000.

Definition FLAG_EXPIRED_PEERS_EPOCH : Z := 1673373066 * SECOND.
Definition MIN_CLOCK_DELTA : Z := 60 * SECOND.
Definition EXPIRY_TIMER_SLACK : Z := 10 * SECOND.
Definition CLOCK_SKEW_EXPIRY_FLOOR : Z := 30 * SECOND.

(** ts_keys: the leading bytes of an expired node's key. *)
Definition BAD_OLD_PREFIX : list Z := [109; 167; 116; 213; 215; 116].

(** The key is an array of 32 bytes: the slice assignment is in range. *)
Definition node_public_with_bad_old_prefix (key : list Z) : list Z :=
  BAD_OLD_PREFIX ++ drop (length BAD_OLD_PREFIX) key.

Section Model.
Context `{!IpNetOps, !Chrono}.

Record FlaggedPeer := mkFlaggedPeer { peer : Node; first_transition : bool }.

Record PristinePeer := mkPristinePeer {
  pristine_node_key : list Z;
  pristine_underlay_addresses : list SocketAddr;
  pristine_derp_region : option Z;
}.

Record ExpiryManager := mkExpiryManager {
  previously_expired : gmap str PristinePeer;
  clock_delta : Z;
}.

Definition expiry_new : ExpiryManager := mkExpiryManager ∅ 0.

(** The difference of two instants always fits a [TimeDelta]. *)
Definition on_control_time (m : ExpiryManager) (control_time local_now : Z) : ExpiryManager :=
  let delta := control_time - local_now in
  mkExpiryManager (previously_expired m)
    (if decide (MIN_CLOCK_DELTA < Z.abs delta) then delta else 0).

Definition control_now (m : ExpiryManager) (local_now : Z) : outcome Z :=
  dt_add local_now (clock_delta m).

Definition usable_control_now (m : ExpiryManager) (local_now : Z) : outcome (option Z) :=
  now ← control_now m local_now;
  Ret (if decide (FLAG_EXPIRED_PEERS_EPOCH <= now) then Some now else None).

(** [peer.node_key_expiry.is_none_or(|expiry| expiry > control_now)] *)
Definition unexpired_at (p : Node) (now : Z) : bool :=
  match node_key_expiry p with None => true | Some expiry => bool_decide (now < expiry) end.

(** What flagging destroys, put back where it is still cleared. *)
Definition restore_peer (pristine : PristinePeer) (p : Node) : Node :=
  let p := set_expired false (set_node_key (pristine_node_key pristine) p) in
  let p :=
    match underlay_addresses p with
    | [] => set_underlay_addresses (pristine_underlay_addresses pristine) p
    | _ :: _ => p
    end in
  match derp_region p with
  | None => set_derp_region (pristine_derp_region pristine) p
  | Some _ => p
  end.

Definition expire_peer (p : Node) : Node :=
  set_node_key (node_public_with_bad_old_prefix (node_key p))
    (set_derp_region None (set_underlay_addresses [] (set_expired true p))).

Definition flag_expired_peer (m : ExpiryManager) (p : Node) (local_now : Z)
    : outcome (ExpiryManager * option FlaggedPeer) :=
  now ← usable_control_now m local_now;
  match now with
  | None => Ret (m, None)
  | Some now =>
      if unexpired_at p now then
        match previously_expired m !! stable_id p with
        | None => Ret (m, None)
        | Some pristine =>
            let m := mkExpiryManager (delete (stable_id p) (previously_expired m)) (clock_delta m) in
            if decide (node_key p = node_public_with_bad_old_prefix (pristine_node_key pristine))
            then Ret (m, Some (mkFlaggedPeer (restore_peer pristine p) true))
            else Ret (m, None)
        end
      else if expired p then Ret (m, None)
      else
        let first :=
          match previously_expired m !! stable_id p with None => true | Some _ => false end in
        let memo := mkPristinePeer (node_key p) (underlay_addresses p) (derp_region p) in
        Ret (mkExpiryManager (<[stable_id p := memo]> (previously_expired m)) (clock_delta m),
             Some (mkFlaggedPeer (expire_peer p) first))
  end.

(** The closure of [next_peer_expiry]. *)
Definition consider (now : Z) (next : option Z) (p : Node) : option Z :=
  match node_key_expiry p with
  | None => next
  | Some expiry =>
      if expired p || bool_decide (expiry < now) then next
      else
        match next with
        | None => Some expiry
        | Some soonest => if decide (expiry < soonest) then Some expiry else next
        end
  end.

Definition next_peer_expiry (m : ExpiryManager) (ps : list Node) (self_node : option Node)
    (local_now : Z) : outcome (option Z) :=
  now ← usable_control_now m local_now;
  match now with
  | None => Ret None
  | Some now =>
      let next := foldl (consider now) None ps in
      let next := match self_node with Some p => consider now next p | None => next end in
      match next with
      | None => Ret None
      | Some next =>
          if decide (next < local_now) then t ← dt_add local_now CLOCK_SKEW_EXPIRY_FLOOR; Ret (Some t)
          else Ret (Some next)
      end
  end.
End Model.

(** ** The clock *)

Section Clock.
Context `{!IpNetOps, !Chrono}.
Implicit Types (m : ExpiryManager) (p : Node).

Lemma usable_now m local_now :
  dt_ok (local_now + clock_delta m) = true ->
  usable_control_now m local_now
    = Ret (if decide (FLAG_EXPIRED_PEERS_EPOCH <= local_now + clock_delta m)
           then Some (local_now + clock_delta m) else None).
Proof. intros Hok. unfold usable_control_now, control_now, dt_add. by rewrite Hok. Qed.

(** The estimate of control's clock, taken when control has just sent its
    time, is off by at most a minute, and exact for a larger skew. *)
Theorem control_now_bound m control_time local_now t :
  control_now (on_control_time m control_time local_now) local_now = Ret t ->
  Z.abs (t - control_time) <= MIN_CLOCK_DELTA /\
  (MIN_CLOCK_DELTA < Z.abs (control_time - local_now) -> t = control_time).
Proof.
  unfold control_now, on_control_time, dt_add. cbn.
  case_decide; (destruct (dt_ok _); [|done]); intros [= <-]; unfold MIN_CLOCK_DELTA, SECOND in *; lia.
Qed.

(** ** Flagging *)

(** The peer as control sees it at [now]. *)
Definition key_over p (now : Z) : Prop := exists e, node_key_expiry p = Some e /\ e <= now.

Lemma unexpired_false p now : unexpired_at p now = false <-> key_over p now.
Proof.
  unfold unexpired_at, key_over. destruct (node_key_expiry p) as [e|].
  - rewrite bool_decide_eq_false. split; [intros; exists e; split; [done|lia]|].
    intros (e' & [= <-] & He). lia.
  - split; [done|]. by intros (e & He & _).
Qed.

Lemma bad_prefix_idem key :
  node_public_with_bad_old_prefix (node_public_with_bad_old_prefix key)
    = node_public_with_bad_old_prefix key.
Proof. done. Qed.

(** The ways the pass over a peer can go. *)
Inductive flag_case m p (now : Z) : ExpiryManager -> option FlaggedPeer -> Prop :=
| case_early :
    now < FLAG_EXPIRED_PEERS_EPOCH -> flag_case m p now m None
| case_live :
    FLAG_EXPIRED_PEERS_EPOCH <= now -> ~ key_over p now ->
    previously_expired m !! stable_id p = None -> flag_case m p now m None
| case_restated pristine :
    FLAG_EXPIRED_PEERS_EPOCH <= now -> ~ key_over p now ->
    previously_expired m !! stable_id p = Some pristine ->
    node_key p <> node_public_with_bad_old_prefix (pristine_node_key pristine) ->
    flag_case m p now
      (mkExpiryManager (delete (stable_id p) (previously_expired m)) (clock_delta m)) None
| case_restored pristine :
    FLAG_EXPIRED_PEERS_EPOCH <= now -> ~ key_over p now ->
    previously_expired m !! stable_id p = Some pristine ->
    node_key p = node_public_with_bad_old_prefix (pristine_node_key pristine) ->
    flag_case m p now
      (mkExpiryManager (delete (stable_id p) (previously_expired m)) (clock_delta m))
      (Some (mkFlaggedPeer (restore_peer pristine p) true))
| case_known :
    FLAG_EXPIRED_PEERS_EPOCH <= now -> key_over p now -> expired p = true ->
    flag_case m p now m None
| case_expires first :
    FLAG_EXPIRED_PEERS_EPOCH <= now -> key_over p now -> expired p = false ->
    (first = true <-> previously_expired m !! stable_id p = None) ->
    flag_case m p now
      (mkExpiryManager (<[stable_id p :=
           mkPristinePeer (node_key p) (underlay_addresses p) (derp_region p)]>
         (previously_expired m)) (clock_delta m))
      (Some (mkFlaggedPeer (expire_peer p) first)).

Lemma flag_spec m p local_now :
  dt_ok (local_now + clock_delta m) = true ->
  exists m' r, flag_expired_peer m p local_now = Ret (m', r) /\
    flag_case m p (local_now + clock_delta m) m' r.
Proof.
  intros Hok. unfold flag_expired_peer. rewrite usable_now by done. cbn [mbind outcome_bind].
  case_decide as Hep; [|eexists _, _; split; [done|]; constructor; lia].
  destruct (unexpired_at p _) eqn:Eu.
  - assert (~ key_over p (local_now + clock_delta m)) as Hko
      by (intros Hk; apply unexpired_false in Hk; congruence).
    destruct (previously_expired m !! stable_id p) as [pr|] eqn:Em;
      [case_decide|]; (eexists _, _; split; [done|]); by econstructor.
  - apply unexpired_false in Eu. destruct (expired p) eqn:Ex; (eexists _, _; split; [done|]).
    + by constructor.
    + constructor; [done..|]. by destruct (previously_expired m !! stable_id p).
Qed.

Lemma flag_case_delta m p now m' r : flag_case m p now m' r -> clock_delta m' = clock_delta m.
Proof. by destruct 1. Qed.

Lemma flag_case_stable m p now m' fp :
  flag_case m p now m' (Some fp) -> stable_id (peer fp) = stable_id p.
Proof.
  inversion 1; subst; cbn; [|done]. unfold restore_peer.
  by repeat case_match.
Qed.

(** The manager after flagging the peer. *)
Definition flagged_manager m p : ExpiryManager :=
  mkExpiryManager (<[stable_id p :=
      mkPristinePeer (node_key p) (underlay_addresses p) (derp_region p)]>
    (previously_expired m)) (clock_delta m).

Lemma restore_expired p extended :
  expired p = false ->
  restore_peer (mkPristinePeer (node_key p) (underlay_addresses p) (derp_region p))
    (set_node_key_expiry extended (expire_peer p)) = set_node_key_expiry extended p.
Proof.
  intros Hex. apply node_ext; try reflexivity; cbn; [by rewrite Hex|..].
  all: by destruct (derp_region p).
Qed.

Lemma flag_again m p local_now later :
  dt_ok (later + clock_delta m) = true ->
  FLAG_EXPIRED_PEERS_EPOCH <= local_now + clock_delta m -> local_now <= later ->
  key_over p (local_now + clock_delta m) ->
  flag_expired_peer (flagged_manager m p) (expire_peer p) later
    = Ret (flagged_manager m p, None).
Proof.
  intros Hok Hep Hle (e & He & Hle').
  destruct (flag_spec (flagged_manager m p) (expire_peer p) later Hok) as (m' & r & -> & Hc).
  assert (key_over (expire_peer p) (later + clock_delta (flagged_manager m p))) as Hko
    by (exists e; split; [exact He|cbn; lia]).
  inversion Hc; try done; cbn in *; lia.
Qed.

Lemma flag_restores m p later extended :
  dt_ok (later + clock_delta m) = true -> FLAG_EXPIRED_PEERS_EPOCH <= later + clock_delta m ->
  expired p = false -> (forall e, extended = Some e -> later + clock_delta m < e) ->
  exists m'', flag_expired_peer (flagged_manager m p) (set_node_key_expiry extended (expire_peer p)) later
    = Ret (m'', Some (mkFlaggedPeer (set_node_key_expiry extended p) true)).
Proof.
  intros Hok Hep Hex Hext.
  destruct (flag_spec (flagged_manager m p) (set_node_key_expiry extended (expire_peer p)) later Hok)
    as (m' & r & -> & Hc).
  assert (~ key_over (set_node_key_expiry extended (expire_peer p))
      (later + clock_delta (flagged_manager m p))) as Hko
    by (intros (e & He & Hle); specialize (Hext e He); cbn in Hle; lia).
  assert (previously_expired (flagged_manager m p) !! stable_id p
    = Some (mkPristinePeer (node_key p) (underlay_addresses p) (derp_region p))) as Hm
    by apply lookup_insert_eq.
  inversion Hc as [?|? ? Hn|pr ? ? Hpr Hne|pr ? ? Hpr ?|? ? ?|first ? ? ? Hf]; try done.
  - cbn in *. lia.
  - change (previously_expired (flagged_manager m p) !! stable_id p = None) in Hn. congruence.
  - change (previously_expired (flagged_manager m p) !! stable_id p = Some pr) in Hpr.
    rewrite Hm in Hpr. injection Hpr as <-. by destruct Hne.
  - change (previously_expired (flagged_manager m p) !! stable_id p = Some pr) in Hpr.
    rewrite Hm in Hpr. injection Hpr as <-. eexists. by rewrite restore_expired.
Qed.

(** C26: a peer that has expired keeps its identity and loses its endpoints,
    its home DERP region and its usable key; while it stays expired a further
    pass leaves it alone; and once its expiry is extended the pass gives back
    the very peer that was flagged, with the new expiry. *)
Theorem expiry_flag_and_restore m p local_now later extended :
  dt_ok (local_now + clock_delta m) = true -> dt_ok (later + clock_delta m) = true ->
  FLAG_EXPIRED_PEERS_EPOCH <= local_now + clock_delta m -> local_now <= later ->
  key_over p (local_now + clock_delta m) -> expired p = false ->
  (forall e, extended = Some e -> later + clock_delta m < e) ->
  exists m' first, let p' := expire_peer p in
    flag_expired_peer m p local_now = Ret (m', Some (mkFlaggedPeer p' first)) /\
    expired p' = true /\ underlay_addresses p' = [] /\ derp_region p' = None /\
    node_key p' = node_public_with_bad_old_prefix (node_key p) /\ stable_id p' = stable_id p /\
    flag_expired_peer m' p' later = Ret (m', None) /\
    exists m'', flag_expired_peer m' (set_node_key_expiry extended p') later
      = Ret (m'', Some (mkFlaggedPeer (set_node_key_expiry extended p) true)).
Proof.
  intros Hok1 Hok2 Hep Hle Hko Hex Hext.
  destruct (flag_spec m p local_now Hok1) as (m' & r & Hr & Hc).
  destruct Hc as [?|? ?|? ? ? ? ?|? ? ? ? ?|? ? ?|first ? ? ? Hf]; try lia; try done; try congruence.
  exists (flagged_manager m p), first. split; [exact Hr|]. split_and!; try done.
  - by apply (flag_again m p local_now later).
  - apply flag_restores; [done|lia|done..].
Qed.

(** ** The next expiry *)

(** The key of the peer is live and expires at [e]. *)
Definition due p (now e : Z) : Prop :=
  node_key_expiry p = Some e /\ expired p = false /\ now <= e.

(** The first of the instants at which a live key expires. *)
Definition soonest (now : Z) (ps : list Node) (r : option Z) : Prop :=
  match r with
  | Some t => (exists p, p ∈ ps /\ due p now t) /\ forall p e, p ∈ ps -> due p now e -> t <= e
  | None => forall p e, p ∈ ps -> ~ due p now e
  end.

Lemma consider_soonest now ps r p :
  soonest now ps r -> soonest now (ps ++ [p]) (consider now r p).
Proof.
  intros Hs. unfold consider. destruct (node_key_expiry p) as [e|] eqn:Ee.
  - destruct (expired p || bool_decide (e < now)) eqn:Eb.
    + assert (forall e', ~ due p now e') as Hn.
      { intros e' (He' & Hx & Hle). rewrite Hx in Eb. cbn in Eb. apply bool_decide_eq_true in Eb.
        simplify_eq. lia. }
      unfold soonest in *. destruct r as [t|]; set_solver.
    + apply orb_false_iff in Eb as [Hx Hle]. apply bool_decide_eq_false in Hle.
      assert (due p now e) as Hd by (split_and!; [done..|lia]).
      assert (forall e', due p now e' -> e' = e) as Hu by (intros e' (? & _); congruence).
      destruct r as [t|]; [case_decide as Hlt|].
      * destruct Hs as [_ Hmin]. split; [exists p; set_solver|].
        intros q e' [Hq| ->%list_elem_of_singleton]%elem_of_app Hd'; [apply (Hmin q) in Hd'; [lia|done]|].
        rewrite (Hu e' Hd'). lia.
      * destruct Hs as [(q & Hq & Hdq) Hmin]. split; [exists q; set_solver|].
        intros q' e' [Hq'| ->%list_elem_of_singleton]%elem_of_app Hd'; [by apply (Hmin q')|].
        rewrite (Hu e' Hd'). lia.
      * split; [exists p; set_solver|].
        intros q e' [Hq| ->%list_elem_of_singleton]%elem_of_app Hd'; [by apply Hs in Hd'|].
        rewrite (Hu e' Hd'). lia.
  - assert (forall e', ~ due p now e') as Hn by (intros e' (He' & _); congruence).
    unfold soonest in *. destruct r as [t|]; set_solver.
Qed.

Lemma fold_soonest now ps : soonest now ps (foldl (consider now) None ps).
Proof.
  induction ps as [|p ps IH] using rev_ind; [by intros p e ?%not_elem_of_nil|].
  rewrite foldl_app. by apply consider_soonest.
Qed.

(** The instant for which the expiry timer is armed is never before
    the local time; it is the first expiry of a live key among the peers and
    the node itself, or, when the local clock is already past it, thirty
    seconds from now; before the hardcoded epoch no timer is armed. *)
Theorem next_expiry_soonest m ps self_node local_now :
  dt_ok (local_now + clock_delta m) = true -> dt_ok (local_now + CLOCK_SKEW_EXPIRY_FLOOR) = true ->
  exists r s, next_peer_expiry m ps self_node local_now = Ret r /\
    soonest (local_now + clock_delta m) (ps ++ option_list self_node) s /\
    (local_now + clock_delta m < FLAG_EXPIRED_PEERS_EPOCH -> r = None) /\
    (FLAG_EXPIRED_PEERS_EPOCH <= local_now + clock_delta m ->
      r = (fun t => if decide (t < local_now) then local_now + CLOCK_SKEW_EXPIRY_FLOOR else t) <$> s) /\
    (forall t, r = Some t -> local_now <= t).
Proof.
  intros Hok Hfloor. unfold next_peer_expiry. rewrite usable_now by done. cbn [mbind outcome_bind].
  set (now := local_now + clock_delta m) in *.
  assert (soonest now (ps ++ option_list self_node)
    match self_node with Some p => consider now (foldl (consider now) None ps) p
    | None => foldl (consider now) None ps end) as Hs.
  { pose proof (fold_soonest now ps). destruct self_node; cbn; [by apply consider_soonest|].
    by rewrite app_nil_r. }
  case_decide as Hep; [|exists None; eexists; split_and!; [done|exact Hs|done|done|done]].
  destruct (match self_node with Some p => _ | None => _ end) as [t|].
  - case_decide as Hlt.
    + unfold dt_add. rewrite Hfloor. eexists _, (Some t). split_and!; [done|done|lia| |].
      * intros _. cbn. by rewrite decide_True.
      * intros t' [= <-]. unfold CLOCK_SKEW_EXPIRY_FLOOR, SECOND. lia.
    + eexists _, (Some t). split_and!; [done|done|lia| |].
      * intros _. cbn. by rewrite decide_False.
      * intros t' [= <-]. lia.
  - eexists None, None. split_and!; [done|done|done|done|done].
Qed.
End Clock.

(** ** Examples *)

Module DemoClock.
(** The range of chrono's [DateTime] in years -262143 to 262142, rounded
    inwards to seconds. *)
#[export] Instance chrono_range : Chrono :=
  {| dt_ok t := bool_decide (- 8334601228800 * SECOND <= t <= 8210266876799 * SECOND) |}.

(** 2026-01-01, in nanoseconds. *)
Definition today : Z := 1767225600 * SECOND.
Definition HOUR : Z := 3600 * SECOND.

Definition addresses : TailnetAddress :=
  mkTailnetAddress (net4 100 64 0 1 32 eq_refl)
    (mkCNet (V6 (replicate 16 0)) 128 eq_refl).

Definition dave (expiry : option Z) : Node :=
  mkNode 1 (bytes_of_string "n1") (bytes_of_string "dave") 0 None [] [] addresses (replicate 32 7)
    expiry false None None [] None None false []
    [mkSocketAddr (V4 [192; 0; 2; 1]) 41641] [] (Some 3) 0 ∅ None false false [] false ∅.
End DemoClock.
Import DemoClock.

Lemma control_now_bound_witness :
  Z.abs (today + 30 * SECOND - (today + 30 * SECOND + 59 * SECOND)) <= MIN_CLOCK_DELTA /\
  (MIN_CLOCK_DELTA < Z.abs (today + 30 * SECOND + 59 * SECOND - (today + 30 * SECOND)) ->
    today + 30 * SECOND = today + 30 * SECOND + 59 * SECOND).
Proof. apply (control_now_bound expiry_new). vm_compute. reflexivity. Defined.

Definition dave_over : Node := dave (Some today).

Lemma expiry_flag_and_restore_witness :
  exists m' first, let p' := expire_peer dave_over in
    flag_expired_peer expiry_new dave_over (today + HOUR) = Ret (m', Some (mkFlaggedPeer p' first)) /\
    expired p' = true /\ underlay_addresses p' = [] /\ derp_region p' = None /\
    node_key p' = node_public_with_bad_old_prefix (node_key dave_over) /\
    stable_id p' = stable_id dave_over /\
    flag_expired_peer m' p' (today + 2 * HOUR) = Ret (m', None) /\
    exists m'', flag_expired_peer m' (set_node_key_expiry None p') (today + 2 * HOUR)
      = Ret (m'', Some (mkFlaggedPeer (set_node_key_expiry None dave_over) true)).
Proof.
  apply (expiry_flag_and_restore expiry_new dave_over (today + HOUR) (today + 2 * HOUR) None).
  - vm_compute. reflexivity.
  - vm_compute. reflexivity.
  - vm_compute. discriminate.
  - vm_compute. discriminate.
  - exists today. split; [reflexivity|]. vm_compute. discriminate.
  - reflexivity.
  - discriminate.
Defined.

Lemma next_expiry_soonest_witness :
  exists r s, next_peer_expiry expiry_new [dave (Some (today + HOUR))] None today = Ret r /\
    soonest (today + clock_delta expiry_new)
      ([dave (Some (today + HOUR))] ++ option_list None) s /\
    (today + clock_delta expiry_new < FLAG_EXPIRED_PEERS_EPOCH -> r = None) /\
    (FLAG_EXPIRED_PEERS_EPOCH <= today + clock_delta expiry_new ->
      r = (fun t => if decide (t < today) then today + CLOCK_SKEW_EXPIRY_FLOOR else t) <$> s) /\
    (forall t, r = Some t -> today <= t).
Proof.
  apply (next_expiry_soonest expiry_new [dave (Some (today + HOUR))] None today);
    vm_compute; reflexivity.
Defined.

(** The instant [next_peer_expiry] returns is not converted to the local
    clock.  With control's clock an hour ahead and a key that expires in half
    an hour, the timer is armed for an hour and a half from now, an hour after
    the key has expired. *)
Theorem next_expiry_is_control_time :
  let m := on_control_time expiry_new (today + HOUR) today in
  let p := dave (Some (today + HOUR + HOUR / 2)) in
  control_now m today = Ret (today + HOUR) /\
  next_peer_expiry m [p] None today = Ret (Some (today + HOUR + HOUR / 2)) /\
  control_now m (today + HOUR + HOUR / 2) = Ret (today + HOUR + HOUR / 2 + HOUR).
Proof. split_and!; vm_compute; reflexivity. Qed.
