(* ===== verification/PeerLock.v ===== *)
(** * PeerLock: which peers tailnet lock keeps (src/ts_runtime/src/peer_tracker/mod.rs)

    The verdict on one peer, [tka_snapshot_admits], and on a batch,
    [tka_keep_verdicts], with the [RotationTracker] that drops the node keys a
    newer rotation has superseded.  The order in which [obsolete_keys] drains
    its hash map of groups is an argument of the model. *)

From stdpp Require Import gmap strings sorting countable.
From S2P Require Import Prelude Bytes IpNet IpNetModel PacketFilter Packet FlowTrack Cbor TkaWire TkaAuth ControlNode.

Local Open Scope Z_scope.

(** ** The model *)

Record TkaVerdict := mkVerdict { admitted : bool; rotation : option RotationDetails }.

Definition verdict_admit : TkaVerdict := mkVerdict true None.
Definition verdict_drop : TkaVerdict := mkVerdict false None.

Section Verdict.
Context `{!IpNetOps, !TkaCrypto}.

Definition tka_snapshot_admits (authority : option Authority) (node : Node) : TkaVerdict :=
  match authority with
  | None => verdict_admit
  | Some auth =>
      match st_keys (au_state auth) with
      | [] => verdict_admit
      | _ :: _ =>
          match key_signature node with
          | [] => verdict_drop
          | _ :: _ =>
              match node_key_authorized_with_details auth (node_key node) (key_signature node) with
              | inr rotation => mkVerdict true rotation
              | inl _ => verdict_drop
              end
          end
      end
  end.
End Verdict.

Record SigRotation := mkSigRotation { rot_node_key : list Z; num_prev_keys : nat }.

Record RotationTracker := mkRotationTracker {
  obsolete : gset (list Z);
  by_wrapping_key : gmap (list Z) (list SigRotation);
}.

Definition RotationTracker_default : RotationTracker := mkRotationTracker ∅ ∅.

Definition rotation_add (t : RotationTracker) (node_key : list Z) (details : RotationDetails)
    : RotationTracker :=
  let obs := obsolete t ∪ list_to_set (prev_node_keys details) in
  match initial_sig_kind details with
  | Direct =>
      let w := initial_wrapping_pubkey details in
      let group := default [] (by_wrapping_key t !! w) in
      mkRotationTracker obs
        (<[w := group ++ [mkSigRotation node_key (length (prev_node_keys details))]]>
           (by_wrapping_key t))
  | _ => mkRotationTracker obs (by_wrapping_key t)
  end.

(** [group.sort_by_key(|rd| Reverse(rd.num_prev_keys))], a stable sort. *)
Fixpoint insert_rotation (x : SigRotation) (l : list SigRotation) : list SigRotation :=
  match l with
  | [] => [x]
  | y :: l' =>
      if decide (num_prev_keys y < num_prev_keys x)%nat then x :: l else y :: insert_rotation x l'
  end.

Definition sort_rotations (l : list SigRotation) : list SigRotation :=
  foldl (fun acc x => insert_rotation x acc) [] l.

Definition keys_of (l : list SigRotation) : gset (list Z) := list_to_set (rot_node_key <$> l).

(** One turn of the loop of [obsolete_keys]. *)
Definition obsolete_group (obs : gset (list Z)) (group : list SigRotation) : gset (list Z) :=
  let group := filter (fun rd => rot_node_key rd ∉ obs) group in
  match sort_rotations group with
  | [] => obs
  | [_] => obs
  | r0 :: (r1 :: _) as rest =>
      if decide (num_prev_keys r0 = num_prev_keys r1) then obs ∪ keys_of (r0 :: rest)
      else obs ∪ keys_of rest
  end.

(** [order] lists the wrapping keys as the hash map is drained. *)
Definition obsolete_keys (order : list (list Z)) (t : RotationTracker) : gset (list Z) :=
  foldl obsolete_group (obsolete t) (omap (by_wrapping_key t !!.) order).

Section Keep.
Context `{!IpNetOps, !TkaCrypto}.

Definition track (t : RotationTracker) (x : Node * TkaVerdict) : RotationTracker :=
  if admitted x.2 then
    match rotation x.2 with
    | Some details => rotation_add t (node_key x.1) details
    | None => t
    end
  else t.

Definition tracker_of (authority : option Authority) (nodes : list Node) : RotationTracker :=
  foldl track RotationTracker_default
    (zip nodes (tka_snapshot_admits authority <$> nodes)).

Definition tka_keep_verdicts (order : list (list Z)) (authority : option Authority)
    (nodes : list Node) : list bool :=
  let verdicts := tka_snapshot_admits authority <$> nodes in
  let obs := obsolete_keys order (tracker_of authority nodes) in
  (fun x => admitted x.2 && bool_decide (node_key x.1 ∉ obs)) <$> zip nodes verdicts.
End Keep.

(** ** Groups *)

Lemma insert_rotation_perm x l : insert_rotation x l ≡ₚ x :: l.
Proof.
  induction l as [|y l IH]; cbn; [done|]. case_decide; [done|]. rewrite IH. apply Permutation_swap.
Qed.

Lemma sort_rotations_perm l : sort_rotations l ≡ₚ l.
Proof.
  assert (forall acc, foldl (fun acc x => insert_rotation x acc) acc l ≡ₚ l ++ acc) as H.
  { induction l as [|x l IH]; intros acc; cbn; [done|].
    rewrite IH, insert_rotation_perm. symmetry. apply Permutation_middle. }
  unfold sort_rotations. rewrite H. by rewrite app_nil_r.
Qed.

Definition descending : list SigRotation -> Prop :=
  StronglySorted (fun a b => num_prev_keys b <= num_prev_keys a)%nat.

Lemma insert_rotation_sorted x l : descending l -> descending (insert_rotation x l).
Proof.
  induction 1 as [|y l Hl IH Hy]; cbn; [repeat constructor|]. case_decide as E.
  - constructor; [by constructor|]. constructor; [lia|].
    eapply Forall_impl; [exact Hy|]. cbn. intros. lia.
  - constructor; [done|]. rewrite insert_rotation_perm. constructor; [lia|done].
Qed.

Lemma sort_rotations_sorted l : descending (sort_rotations l).
Proof.
  unfold sort_rotations. generalize (SSorted_nil (fun a b => num_prev_keys b <= num_prev_keys a)%nat).
  change (descending [] -> descending (foldl (fun acc x => insert_rotation x acc) [] l)).
  generalize (@nil SigRotation). induction l as [|x l IH]; intros acc Hacc; cbn; [done|].
  apply IH. by apply insert_rotation_sorted.
Qed.

Lemma elem_of_keys_of k l : k ∈ keys_of l <-> exists r, r ∈ l /\ rot_node_key r = k.
Proof. unfold keys_of. rewrite elem_of_list_to_set, list_elem_of_fmap. naive_solver. Qed.

(** Another entry of the group that is not obsolete has as long a chain. *)
Definition outlived (obs : gset (list Z)) (group : list SigRotation) (r : SigRotation) : Prop :=
  exists r', r' ∈ group /\ (rot_node_key r' ∉ obs) /\ rot_node_key r' <> rot_node_key r /\
    (num_prev_keys r <= num_prev_keys r')%nat.

(** What a group adds, when its node keys are distinct. *)
Lemma obsolete_group_spec obs group k :
  NoDup (rot_node_key <$> group) ->
  k ∈ obsolete_group obs group <->
  k ∈ obs \/ exists r, r ∈ group /\ rot_node_key r = k /\ (k ∉ obs) /\ outlived obs group r.
Proof.
  intros Hnd. unfold obsolete_group.
  set (live := filter (fun rd => rot_node_key rd ∉ obs) group).
  assert (forall r, r ∈ live <-> r ∈ group /\ rot_node_key r ∉ obs) as Hlive
    by (intros r; unfold live; rewrite list_elem_of_filter; naive_solver).
  pose proof (sort_rotations_perm live) as Hp. pose proof (sort_rotations_sorted live) as Hs.
  assert (forall r, r ∈ sort_rotations live <-> r ∈ group /\ rot_node_key r ∉ obs) as Hin
    by (intros r; rewrite Hp; apply Hlive).
  assert (NoDup (rot_node_key <$> sort_rotations live)) as Hnd'.
  { rewrite Hp. eapply sublist_NoDup; [exact Hnd|]. apply fmap_sublist, sublist_filter. }
  clearbody live. clear Hlive Hp. destruct (sort_rotations live) as [|r0 rest].
  - split; [by left|]. intros [?|(r & Hr & <- & Hk & _)]; [done|].
    assert (r ∈ []) as []%not_elem_of_nil by (by apply Hin).
  - apply NoDup_cons in Hnd' as [H0 Hrest]. apply StronglySorted_inv in Hs as [Hs Hmax].
    rewrite Forall_forall in Hmax.
    assert (forall r, outlived obs group r <->
      exists r', r' ∈ r0 :: rest /\ rot_node_key r' <> rot_node_key r /\
        (num_prev_keys r <= num_prev_keys r')%nat) as Hout.
    { intros r. unfold outlived. setoid_rewrite Hin. naive_solver. }
    assert (forall r, r ∈ rest -> rot_node_key r <> rot_node_key r0) as Hne.
    { intros r Hr E. apply H0. rewrite <- E. by apply list_elem_of_fmap_2. }
    assert (forall r, r ∈ rest -> outlived obs group r) as Hrest_out.
    { intros r Hr. apply Hout. exists r0. split; [by left|]. split; [by apply not_eq_sym, Hne|]. by apply Hmax. }
    assert (forall k, (exists r, r ∈ group /\ rot_node_key r = k /\ (k ∉ obs) /\ outlived obs group r) <->
      exists r, r ∈ r0 :: rest /\ rot_node_key r = k /\ outlived obs group r) as Hex.
    { intros k'. setoid_rewrite Hin. naive_solver. }
    rewrite Hex. clear Hex.
    destruct rest as [|r1 rest].
    + split; [by left|]. intros [?|(r & Hr & <- & Ho)]; [done|].
      apply list_elem_of_singleton in Hr as ->. apply Hout in Ho as (r' & Hr' & Hn & _).
      apply list_elem_of_singleton in Hr' as ->. done.
    + case_decide as E; rewrite elem_of_union, elem_of_keys_of.
      * assert (outlived obs group r0) as Ho0.
        { apply Hout. exists r1. split; [by right; left|]. split; [by apply Hne; left|]. lia. }
        split; (intros [?|(r & Hr & Hk)]; [by left|right; exists r]).
        -- split_and!; [done..|]. apply elem_of_cons in Hr as [->|Hr]; [done|by apply Hrest_out].
        -- naive_solver.
      * assert (~ outlived obs group r0) as Ho0.
        { rewrite Hout. intros (r' & [->|Hr']%elem_of_cons & Hn & Hle); [done|].
          apply StronglySorted_inv in Hs as [_ Hs1]. rewrite Forall_forall in Hs1.
          pose proof (Hmax r1 ltac:(by left)). apply elem_of_cons in Hr' as [->|Hr']; [lia|].
          apply Hs1 in Hr'. cbn in *. lia. }
        split; (intros [?|(r & Hr & Hk)]; [by left|right; exists r]).
        -- split_and!; [by right|done|by apply Hrest_out].
        -- destruct Hk as [Hk Ho]. apply elem_of_cons in Hr as [->|Hr]; [done|naive_solver].
Qed.

Lemma outlived_ext obs obs' group r :
  (forall r', r' ∈ group -> rot_node_key r' ∈ obs <-> rot_node_key r' ∈ obs') ->
  outlived obs group r <-> outlived obs' group r.
Proof. intros E. unfold outlived. naive_solver. Qed.

(** The groups, whose node keys are distinct, do not influence each other. *)
Lemma obsolete_groups_spec groups : forall obs k,
  NoDup (rot_node_key <$> concat groups) ->
  k ∈ foldl obsolete_group obs groups <->
  k ∈ obs \/ exists g r, g ∈ groups /\ r ∈ g /\ rot_node_key r = k /\ (k ∉ obs) /\ outlived obs g r.
Proof.
  induction groups as [|g groups IH]; intros obs k Hnd; cbn [foldl].
  - split; [by left|]. intros [?|(g & r & Hg & _)]; [done|by apply not_elem_of_nil in Hg].
  - cbn [concat] in Hnd. rewrite fmap_app in Hnd. apply NoDup_app in Hnd as (Hg & Hdis & Hgs).
    assert (forall g' r, g' ∈ groups -> r ∈ g' ->
      rot_node_key r ∈ obsolete_group obs g <-> rot_node_key r ∈ obs) as Hkeep.
    { intros g' r Hg' Hr. rewrite obsolete_group_spec by done. split; [|by left].
      intros [?|(r' & Hr' & E & _)]; [done|]. exfalso. apply (Hdis (rot_node_key r)).
      - rewrite <- E. by apply list_elem_of_fmap_2.
      - apply list_elem_of_fmap_2. apply list_elem_of_In, in_concat. exists g'.
        by rewrite <- !list_elem_of_In. }
    rewrite IH by done. rewrite obsolete_group_spec at 1 by done. split.
    + intros [[?|(r & Hr & Hk)]|(g' & r & Hg' & Hr & <- & Hk & Ho)].
      * by left.
      * right. exists g, r. split; [by left|done].
      * rewrite Hkeep in Hk by done. right. exists g', r. split_and!; [by right|done..|].
        eapply outlived_ext, Ho. intros. symmetry. by eapply Hkeep.
    + intros [?|(g' & r & Hg' & Hr & <- & Hk & Ho)]; [by left; left|].
      apply elem_of_cons in Hg' as [->|Hg'].
      * left. right. by exists r.
      * right. exists g', r. rewrite Hkeep by done. split_and!; [done..|].
        eapply outlived_ext, Ho. intros. by eapply Hkeep.
Qed.

(** ** The tracker *)

(** Node keys with the details of their rotation. *)
Definition entry : Type := list Z * RotationDetails.

Definition in_group (w : list Z) (e : entry) : Prop :=
  initial_sig_kind e.2 = Direct /\ initial_wrapping_pubkey e.2 = w.

#[export] Instance in_group_dec w e : Decision (in_group w e).
Proof. unfold in_group. apply _. Defined.

Definition group_of (es : list entry) (w : list Z) : list SigRotation :=
  (fun e => mkSigRotation e.1 (length (prev_node_keys e.2))) <$> filter (in_group w) es.

Definition add_entry (t : RotationTracker) (e : entry) : RotationTracker := rotation_add t e.1 e.2.

Lemma add_entries_spec es :
  let t := foldl add_entry RotationTracker_default es in
  (forall k, k ∈ obsolete t <-> exists e, e ∈ es /\ k ∈ prev_node_keys e.2) /\
  (forall w, by_wrapping_key t !! w = match group_of es w with [] => None | g => Some g end).
Proof.
  induction es as [|e es [IHo IHw]] using rev_ind; cbn.
  - split; [|done]. intros k. rewrite elem_of_empty. split; [done|].
    by intros (e & He%not_elem_of_nil & _).
  - rewrite foldl_snoc. set (t := foldl add_entry RotationTracker_default es) in *.
    assert (forall w, group_of (es ++ [e]) w = group_of es w ++
      if decide (in_group w e) then [mkSigRotation e.1 (length (prev_node_keys e.2))] else []) as Hg.
    { intros w. unfold group_of. rewrite filter_app, fmap_app. f_equal.
      rewrite filter_cons, filter_nil. by case_decide. }
    assert (obsolete (add_entry t e) = obsolete t ∪ list_to_set (prev_node_keys e.2)) as Ho
      by (unfold add_entry, rotation_add; by destruct (initial_sig_kind e.2)).
    split.
    + intros k. rewrite Ho, elem_of_union, IHo, elem_of_list_to_set. set_solver.
    + intros w. rewrite Hg. unfold add_entry, rotation_add. case_decide as E.
      * destruct E as [-> <-]. cbn. rewrite lookup_insert_eq, IHw.
        by destruct (group_of es (initial_wrapping_pubkey e.2)).
      * rewrite app_nil_r, <- IHw. destruct (initial_sig_kind e.2) eqn:Ek; try done. cbn.
        rewrite lookup_insert_ne; [done|]. intros <-. by apply E.
Qed.

(** The order drains every group once. *)
Definition drains (order : list (list Z)) (t : RotationTracker) : Prop :=
  NoDup order /\ forall w, w ∈ order <-> is_Some (by_wrapping_key t !! w).

Lemma drains_two w1 w2 t : w1 <> w2 -> dom (by_wrapping_key t) = {[w1; w2]} -> drains [w1; w2] t.
Proof.
  intros Hw Hd. split; [by apply NoDup_cons; split; [by rewrite list_elem_of_singleton|apply NoDup_singleton]|].
  intros w. rewrite <- elem_of_dom, Hd. set_solver.
Qed.

Lemma groups_of_order es order :
  drains order (foldl add_entry RotationTracker_default es) -> forall g,
  g ∈ omap (by_wrapping_key (foldl add_entry RotationTracker_default es) !!.) order <->
  exists w, g = group_of es w /\ g <> [].
Proof.
  intros [_ Hall] g. destruct (add_entries_spec es) as [_ Hw]. rewrite list_elem_of_omap. split.
  - intros (w & _ & E). rewrite Hw in E. exists w. destruct (group_of es w); naive_solver.
  - intros (w & -> & Hne). exists w. rewrite Hall, Hw. destruct (group_of es w); [done|]. split; [by eexists|done].
Qed.

Lemma groups_distinct es order t :
  t = foldl add_entry RotationTracker_default es -> NoDup es.*1 -> NoDup order ->
  NoDup (rot_node_key <$> concat (omap (by_wrapping_key t !!.) order)).
Proof.
  intros -> Hes. destruct (add_entries_spec es) as [_ Hw].
  set (t := foldl add_entry RotationTracker_default es) in *.
  assert (forall w g, by_wrapping_key t !! w = Some g ->
    rot_node_key <$> g = (filter (in_group w) es).*1) as Hkeys.
  { intros w g. rewrite Hw. intros E. replace g with (group_of es w)
      by (destruct (group_of es w); naive_solver).
    unfold group_of. rewrite <- list_fmap_compose. done. }
  induction 1 as [|w order Hn _ IH]; cbn; [constructor|].
  destruct (by_wrapping_key t !! w) as [g|] eqn:E; [|done]. cbn. rewrite fmap_app, (Hkeys w g E).
  apply NoDup_app. split_and!; [|intros k Hk Hk'|done].
  - eapply sublist_NoDup; [exact Hes|]. apply fmap_sublist, sublist_filter.
  - apply list_elem_of_fmap in Hk as (e & -> & He). apply list_elem_of_filter in He as [Hin He].
    apply list_elem_of_fmap in Hk' as (r & Er & Hr).
    apply list_elem_of_In, in_concat in Hr as (g' & Hg' & Hr).
    apply list_elem_of_In, list_elem_of_omap in Hg' as (w' & Hw' & E').
    assert (e.1 ∈ (filter (in_group w') es).*1) as Hk'.
    { rewrite <- (Hkeys w' g' E'), Er. apply list_elem_of_fmap_2. by apply list_elem_of_In. }
    apply list_elem_of_fmap in Hk' as (e' & Ee & He'). apply list_elem_of_filter in He' as [Hin' He'].
    assert (e = e') as <-.
    { apply list_elem_of_lookup in He as [i Hi], He' as [j Hj].
      assert (i = j) as <-; [|congruence].
      eapply (NoDup_lookup es.*1); [done|rewrite list_lookup_fmap, Hi; done|].
      by rewrite list_lookup_fmap, Hj, Ee. }
    destruct Hin as [_ <-], Hin' as [_ <-]. done.
Qed.

(** Which node keys are dropped: those a rotation names as earlier, and in a
    group those outlived by another member. *)
Lemma obsolete_keys_spec es order k :
  let t := foldl add_entry RotationTracker_default es in
  NoDup es.*1 -> drains order t ->
  k ∈ obsolete_keys order t <->
  k ∈ obsolete t \/ exists d d' k', (k, d) ∈ es /\ (k', d') ∈ es /\ k' <> k /\ (k' ∉ obsolete t) /\
    initial_sig_kind d = Direct /\ initial_sig_kind d' = Direct /\
    initial_wrapping_pubkey d' = initial_wrapping_pubkey d /\
    (length (prev_node_keys d) <= length (prev_node_keys d'))%nat.
Proof.
  cbn. intros Hes Hdr. set (t := foldl add_entry RotationTracker_default es) in *.
  assert (forall w r, r ∈ group_of es w <-> exists d, (rot_node_key r, d) ∈ es /\
    initial_sig_kind d = Direct /\ initial_wrapping_pubkey d = w /\
    num_prev_keys r = length (prev_node_keys d)) as Hgr.
  { intros w r. unfold group_of. rewrite list_elem_of_fmap. setoid_rewrite list_elem_of_filter. split.
    - intros ([k' d] & -> & [Hk Hw] & Hin). by exists d.
    - intros (d & Hin & Hk & Hw & Hl). exists (rot_node_key r, d). split; [destruct r; cbn in *; by subst|done]. }
  unfold obsolete_keys. rewrite obsolete_groups_spec
    by (apply (groups_distinct es order t); [done|done|apply Hdr]).
  pose proof (groups_of_order es order Hdr) as Hgo. fold t in Hgo. setoid_rewrite Hgo. split.
  - intros [?|(g & r & (w & -> & _) & Hr & <- & Hk & (r' & Hr' & Hk' & Hne & Hle))]; [by left|]. right.
    apply Hgr in Hr as (d & Hd & Hkd & Hwd & Hld), Hr' as (d' & Hd' & Hkd' & Hwd' & Hld').
    exists d, d', (rot_node_key r'). split_and!; try done; congruence || lia.
  - destruct (decide (k ∈ obsolete t)) as [?|Hk]; [by left|].
    intros [?|(d & d' & k' & Hd & Hd' & Hne & Hk' & Hkd & Hkd' & Hw & Hle)]; [done|]. right.
    exists (group_of es (initial_wrapping_pubkey d)), (mkSigRotation k (length (prev_node_keys d))).
    assert (mkSigRotation k (length (prev_node_keys d)) ∈ group_of es (initial_wrapping_pubkey d)) as Hin
      by (apply Hgr; by exists d).
    split_and!; [|done..|].
    + eexists; split; [done|]. intros E. rewrite E in Hin. by apply not_elem_of_nil in Hin.
    + exists (mkSigRotation k' (length (prev_node_keys d'))). split_and!; try done.
      apply Hgr. by exists d'.
Qed.

(** ** The batch verdict *)

Section Exact.
Context `{!IpNetOps, !TkaCrypto}.
Implicit Types (authority : option Authority) (nodes : list Node) (n m : Node).

Definition admits authority n : bool := admitted (tka_snapshot_admits authority n).

(** The rotation an admitted peer presents. *)
Definition details authority n : option RotationDetails :=
  if admits authority n then rotation (tka_snapshot_admits authority n) else None.

(** An admitted peer has rotated the key away. *)
Definition superseded authority nodes (k : list Z) : Prop :=
  exists m d, m ∈ nodes /\ details authority m = Some d /\ k ∈ prev_node_keys d.

(** Another peer, not superseded, presents a chain from the same wrapping key
    that is at least as long. *)
Definition cloned authority nodes n : Prop :=
  exists d m d', details authority n = Some d /\ m ∈ nodes /\ details authority m = Some d' /\
    node_key m <> node_key n /\ ~ superseded authority nodes (node_key m) /\
    initial_sig_kind d = Direct /\ initial_sig_kind d' = Direct /\
    initial_wrapping_pubkey d' = initial_wrapping_pubkey d /\
    (length (prev_node_keys d) <= length (prev_node_keys d'))%nat.

Definition entries authority nodes : list entry :=
  omap (fun n => pair (node_key n) <$> details authority n) nodes.

Lemma tracker_of_entries authority nodes :
  tracker_of authority nodes = foldl add_entry RotationTracker_default (entries authority nodes).
Proof.
  unfold tracker_of. generalize RotationTracker_default as t. unfold entries.
  induction nodes as [|n nodes IH]; intros t; [done|]. cbn [fmap list_fmap zip zip_with foldl omap list_omap].
  rewrite IH. unfold track, details, admits. cbn [fst snd].
  destruct (admitted (tka_snapshot_admits authority n)); [|done].
  by destruct (rotation (tka_snapshot_admits authority n)).
Qed.

Lemma elem_of_entries authority nodes k d :
  (k, d) ∈ entries authority nodes <->
  exists n, n ∈ nodes /\ node_key n = k /\ details authority n = Some d.
Proof.
  unfold entries. rewrite list_elem_of_omap. split.
  - intros (n & Hn & E). destruct (details authority n) as [d'|] eqn:Ed; [|done].
    cbn in E. simplify_eq. by exists n.
  - intros (n & Hn & <- & Hd). exists n. by rewrite Hd.
Qed.

Lemma entries_distinct authority nodes :
  NoDup (node_key <$> nodes) -> NoDup (entries authority nodes).*1.
Proof.
  unfold entries. induction nodes as [|n nodes IH]; cbn [fmap list_fmap omap list_omap]; [constructor|].
  intros [Hn Hnd]%NoDup_cons. destruct (details authority n) as [d|]; [|by apply IH]. cbn.
  apply NoDup_cons. split; [|by apply IH]. intros Hin. apply Hn.
  apply list_elem_of_fmap in Hin as ([k d'] & -> & Hin).
  apply (elem_of_entries authority nodes) in Hin as (m & Hm & <- & _).
  exact (list_elem_of_fmap_2 node_key nodes m Hm).
Qed.

Lemma superseded_obsolete authority nodes k :
  k ∈ obsolete (tracker_of authority nodes) <-> superseded authority nodes k.
Proof.
  rewrite tracker_of_entries. destruct (add_entries_spec (entries authority nodes)) as [Ho _].
  rewrite Ho. unfold superseded. split.
  - intros ([k' d] & Hin & Hk). apply elem_of_entries in Hin as (m & Hm & <- & Hd). by exists m, d.
  - intros (m & d & Hm & Hd & Hk). exists (node_key m, d). split; [|done]. apply elem_of_entries. by exists m.
Qed.

(** A kept peer is an admitted one, whatever the keys. *)
Lemma kept_admitted order authority nodes i n :
  nodes !! i = Some n -> tka_keep_verdicts order authority nodes !! i = Some true ->
  admits authority n = true.
Proof.
  intros Hn Hk. unfold tka_keep_verdicts in Hk. rewrite list_lookup_fmap in Hk.
  apply fmap_Some in Hk as ([m v] & Hl & Hb). apply lookup_zip_with_Some in Hl as (a & b & [= -> ->] & Ha & Hv).
  rewrite list_lookup_fmap, Hn in Hv. cbn in Hv, Hb. rewrite Hn in Ha. simplify_eq.
  symmetry in Hb. by apply andb_true_iff in Hb as [? _].
Qed.

Lemma keep_length order authority nodes :
  length (tka_keep_verdicts order authority nodes) = length nodes.
Proof. unfold tka_keep_verdicts. rewrite length_fmap, length_zip_with, length_fmap. lia. Qed.

(** C24: the batch verdict of tailnet lock, for peers with distinct node keys
    and whatever the order in which the groups are drained: a peer is kept
    exactly when its signature is accepted, no accepted peer's chain names its
    node key as an earlier one, and no other peer that is not itself
    named so presents a chain from the same wrapping key that is at least as
    long. *)
Theorem rotation_filter_exact order authority nodes i n :
  NoDup (node_key <$> nodes) -> drains order (tracker_of authority nodes) -> nodes !! i = Some n ->
  tka_keep_verdicts order authority nodes !! i = Some true <->
  admits authority n = true /\ ~ superseded authority nodes (node_key n) /\
  ~ cloned authority nodes n.
Proof.
  intros Hnd Hdr Hn. assert (tka_keep_verdicts order authority nodes !! i
    = Some (admits authority n && bool_decide (node_key n ∉ obsolete_keys order (tracker_of authority nodes)))) as ->.
  { unfold tka_keep_verdicts. rewrite list_lookup_fmap.
    assert (zip nodes (tka_snapshot_admits authority <$> nodes) !! i
      = Some (n, tka_snapshot_admits authority n)) as ->; [|done].
    apply lookup_zip_with_Some. exists n, (tka_snapshot_admits authority n).
    split_and!; [done|done|]. by rewrite list_lookup_fmap, Hn. }
  rewrite (inj_iff Some), andb_true_iff, bool_decide_eq_true.
  rewrite <- superseded_obsolete. rewrite tracker_of_entries in *.
  rewrite obsolete_keys_spec by (done || by apply entries_distinct).
  rewrite <- tracker_of_entries, superseded_obsolete.
  assert (admits authority n = true -> (exists d d' k', (node_key n, d) ∈ entries authority nodes /\
      (k', d') ∈ entries authority nodes /\ k' <> node_key n /\ (k' ∉ obsolete (tracker_of authority nodes)) /\
      initial_sig_kind d = Direct /\ initial_sig_kind d' = Direct /\
      initial_wrapping_pubkey d' = initial_wrapping_pubkey d /\
      (length (prev_node_keys d) <= length (prev_node_keys d'))%nat) <-> cloned authority nodes n) as Hcl.
  { intros _. unfold cloned. setoid_rewrite elem_of_entries. setoid_rewrite superseded_obsolete. split.
    - intros (d & d' & k' & (n' & Hn' & E & Hd) & (m & Hm & <- & Hd') & Hrest). exists d, m, d'.
      assert (n' = n) as ->; [|naive_solver]. apply list_elem_of_lookup in Hn' as [j Hj].
      assert (j = i) as ->; [|congruence].
      eapply (NoDup_lookup (node_key <$> nodes)); [done|by rewrite list_lookup_fmap, Hj|].
      by rewrite list_lookup_fmap, Hn, E.
    - intros (d & m & d' & Hd & Hm & Hd' & Hrest). exists d, d', (node_key m). split_and!; try naive_solver.
      exists n. split_and!; try done. by eapply list_elem_of_lookup_2. }
  naive_solver.
Qed.
End Exact.

(** ** Examples *)

#[local] Existing Instances ToyTka.toy_tka ToyTka.toy_tka_laws.

Module DemoLock.
Definition nowhere : TailnetAddress :=
  mkTailnetAddress (net4 100 64 0 1 32 eq_refl) (mkCNet (V6 (replicate 16 0)) 128 eq_refl).

(** A peer with a node key and a signature. *)
Definition peer (name : str) (id : Z) (key signature : list Z) : Node :=
  mkNode id name name 0 None [] [] nowhere key None false None None signature None None false []
    [] [] None 0 ∅ None false false [] false ∅.

Definition lock : Authority := trusting [replicate 32 3].

Definition rotated (name : str) (id key pivot : Z) : Node :=
  peer name id (replicate 32 key)
    (nks_serialize (sign_rotation (replicate 32 key) (3 : SigningKey) (pivot : SigningKey))).

(** Two peers whose chains come from one wrapping key. *)
Definition twin_a : Node := rotated (bytes_of_string "a") 1 7 4.
Definition twin_b : Node := rotated (bytes_of_string "b") 2 8 4.

Definition signed (name : str) (id key : Z) : Node :=
  peer name id (replicate 32 key) (nks_serialize (sign_direct (replicate 32 key) (3 : SigningKey))).

Definition keys (ks : list Z) : list (list Z) := replicate 32 <$> ks.

(** Four entries, of which the first and the third have the same node key. *)
Definition repeated : RotationTracker :=
  foldl add_entry RotationTracker_default
    [ (replicate 32 1, mkRotationDetails (keys [11; 12; 13]) Direct (replicate 32 101));
      (replicate 32 2, mkRotationDetails (keys [14; 15; 16]) Direct (replicate 32 101));
      (replicate 32 1, mkRotationDetails (keys [17]) Direct (replicate 32 102));
      (replicate 32 3, mkRotationDetails (keys [18; 19]) Direct (replicate 32 102)) ].
End DemoLock.

Lemma rotation_filter_exact_witness :
  tka_keep_verdicts [replicate 32 4] (Some DemoLock.lock) [DemoLock.twin_a; DemoLock.twin_b] !! 0%nat
    = Some true <->
  admits (Some DemoLock.lock) DemoLock.twin_a = true /\
  ~ superseded (Some DemoLock.lock) [DemoLock.twin_a; DemoLock.twin_b] (node_key DemoLock.twin_a) /\
  ~ cloned (Some DemoLock.lock) [DemoLock.twin_a; DemoLock.twin_b] DemoLock.twin_a.
Proof.
  apply rotation_filter_exact; [| |reflexivity].
  - apply (bool_decide_unpack _). vm_compute. exact I.
  - split; [apply NoDup_singleton|]. intros w. rewrite list_elem_of_singleton.
    assert (by_wrapping_key (tracker_of (Some DemoLock.lock) [DemoLock.twin_a; DemoLock.twin_b])
      = {[replicate 32 4 := [mkSigRotation (replicate 32 7) 1; mkSigRotation (replicate 32 8) 1]]}) as ->
      by (vm_compute; reflexivity).
    rewrite lookup_singleton_is_Some. done.
Defined.

(** With a node key presented by two peers the outcome depends on the order
    in which the hash map of groups is drained: here the key 2 is dropped in one
    order and kept in the other. *)
Theorem rotation_order_matters :
  let t := DemoLock.repeated in
  let w1 := replicate 32 101 in
  let w2 := replicate 32 102 in
  drains [w1; w2] t /\ drains [w2; w1] t /\
  replicate 32 2 ∈ obsolete_keys [w1; w2] t /\ replicate 32 2 ∉ obsolete_keys [w2; w1] t.
Proof.
  cbn zeta. split_and!.
  - apply drains_two; apply (bool_decide_unpack _); vm_compute; exact I.
  - apply drains_two; apply (bool_decide_unpack _); vm_compute; exact I.
  - apply (bool_decide_unpack _). vm_compute. exact I.
  - apply (bool_decide_unpack _). vm_compute. exact I.
Qed.
