(* ===== verification/PeerTracker.v ===== *)
(** * PeerTracker: the netmap as the runtime keeps it (src/ts_runtime/src/peer_tracker/mod.rs)

    The actor that applies control's updates to the peer database, gates every
    peer on tailnet lock, runs the expiry pass over what it installs, keeps
    the two disco keys of each peer and answers queries.  A message is handled
    by [handle], which returns the next state and what the actor emits.

    The clock, the order in which a hash map is walked and the sender to which
    a query replies are arguments of the messages.  The cell with the lock's
    authority is a field that only [AuthorityWritten] changes: a handler reads
    one value of it.  Log lines are not modelled. *)

From stdpp Require Import gmap strings sorting countable.
From S2P Require Import Prelude Bytes IpNet Table Routing IpNetModel PacketFilter Packet FlowTrack Cbor TkaWire TkaAuth TkaChain ControlNode PeerDb Expiry PeerLock.

Local Open Scope Z_scope.

(** The end of a query's reply channel. *)
Abbreviation Sender := Z (only parsing).

(** ** Disco keys *)

Abbreviation DiscoPublicKey := (list Z) (only parsing).

Definition disco_key_is_zero (key : DiscoPublicKey) : bool := bool_decide (key = replicate 32 0).

Definition disco_key_from_control (key : option DiscoPublicKey) : option DiscoPublicKey :=
  k ← key; if disco_key_is_zero k then None else Some k.

Record EndpointDisco := mkEndpointDisco {
  control : option DiscoPublicKey;
  tsmp : option DiscoPublicKey;
  tsmp_active : bool;
}.

Definition EndpointDisco_default : EndpointDisco := mkEndpointDisco None None false.

Definition active_key (d : EndpointDisco) : option DiscoPublicKey :=
  if tsmp_active d then tsmp d else control d.

Definition update_from_control (key : option DiscoPublicKey) (d : EndpointDisco) : EndpointDisco :=
  mkEndpointDisco key (tsmp d) (tsmp_active d || bool_decide (key = None)).

Definition update_from_tsmp (key : option DiscoPublicKey) (d : EndpointDisco) : EndpointDisco :=
  mkEndpointDisco (control d) key (negb (bool_decide (key = None))).

Definition inactive_key (d : EndpointDisco) : option DiscoPublicKey :=
  k ← (if tsmp_active d then control d else tsmp d);
  if decide (Some k = active_key d) then None else Some k.

Definition check_and_update (key : DiscoPublicKey) (d : EndpointDisco)
    : EndpointDisco * option bool :=
  if decide (active_key d = Some key) then (d, Some false)
  else if decide (control d = Some key) then (mkEndpointDisco (control d) (tsmp d) false, Some true)
  else if decide (tsmp d = Some key) then (mkEndpointDisco (control d) (tsmp d) true, Some true)
  else (d, None).

Definition disco_is_empty (d : EndpointDisco) : bool :=
  bool_decide (control d = None) && bool_decide (tsmp d = None).

(** ** What the runtime reports of a peer (status.rs) *)

Section Model.
Context `{!IpNetOps, !Chrono, !TkaCrypto}.

Record StatusNode := mkStatusNode {
  sn_stable_id : str;
  sn_display_name : str;
  sn_ipv4 : IpAddr;
  sn_ipv6 : IpAddr;
  sn_tailscale_ips : list IpAddr;
  sn_online : option bool;
  sn_last_seen : option Z;
  sn_allowed_routes : list IpNet;
  sn_is_exit_node : bool;
  sn_cur_addr : option SocketAddr;
  sn_relay : option str;
  sn_ssh_host_keys : list str;
  sn_expired : bool;
}.

Definition is_single_ip (prefix : IpNet) : bool :=
  bool_decide (prefix_len prefix = if is_ipv4 (addr prefix) then 32%nat else 128%nat).

Definition StatusNode_from_node (n : Node) : StatusNode :=
  mkStatusNode (stable_id n) (default (hostname n) (fqdn_opt n false))
    (addr (ipv4 (tailnet_address n))) (addr (ipv6 (tailnet_address n)))
    (addr <$> List.filter is_single_ip (addresses n)) (online n) (last_seen n)
    (accepted_routes n) (existsb (fun route => bool_decide (prefix_len route = 0%nat)) (accepted_routes n))
    None None (ssh_host_keys n) (expired n).

Record UserProfile := mkUserProfile {
  profile_id : Z;
  login_name : str;
  display_name : option str;
  groups : list str;
}.

(** [capabilities], the entries of the node's map in the order of their keys,
    is the map. *)
Record WhoIs := mkWhoIs {
  whois_node : Node;
  user_profile : option UserProfile;
  capabilities : gmap str (list str);
  whois_cap_map : gmap str (list str);
}.

Definition from_node_with_profile (n : Node) (p : option UserProfile) : WhoIs :=
  mkWhoIs n p (cap_map n) ∅.

(** ** State *)

Inductive Pending :=
| PPeerByName (name : str) (reply : Sender)
| PAcceptedRoute (ip : IpAddr) (reply : Sender)
| PTailnetIp (ip : IpAddr) (reply : Sender)
| PStatus (reply : Sender)
| PWhoIs (socket : SocketAddr) (reply : Sender).

Record PeerTracker := mkPeerTracker {
  peer_db : PeerDb;
  seen_state_update : bool;
  pending_requests : list Pending;
  user_profiles : gmap Z UserProfile;
  endpoint_disco : gmap (list Z) EndpointDisco;
  tka_authority : option Authority;
  expiry : ExpiryManager;
  self_node : option Node;
  (** how long the armed timer sleeps *)
  expiry_timer : option Z;
}.

(** [on_start] *)
Definition PeerTracker_new (authority : option Authority) : PeerTracker :=
  mkPeerTracker PeerDb_default false [] ∅ ∅ authority expiry_new None None.

Definition set_peer_db (v : PeerDb) (s : PeerTracker) : PeerTracker :=
  mkPeerTracker v (seen_state_update s) (pending_requests s) (user_profiles s) (endpoint_disco s)
    (tka_authority s) (expiry s) (self_node s) (expiry_timer s).

Definition set_endpoint_disco (v : gmap (list Z) EndpointDisco) (s : PeerTracker) : PeerTracker :=
  mkPeerTracker (peer_db s) (seen_state_update s) (pending_requests s) (user_profiles s) v
    (tka_authority s) (expiry s) (self_node s) (expiry_timer s).

Definition set_expiry (v : ExpiryManager) (s : PeerTracker) : PeerTracker :=
  mkPeerTracker (peer_db s) (seen_state_update s) (pending_requests s) (user_profiles s)
    (endpoint_disco s) (tka_authority s) v (self_node s) (expiry_timer s).

Definition set_expiry_timer (v : option Z) (s : PeerTracker) : PeerTracker :=
  mkPeerTracker (peer_db s) (seen_state_update s) (pending_requests s) (user_profiles s)
    (endpoint_disco s) (tka_authority s) (expiry s) (self_node s) v.

Definition set_self_node (v : option Node) (s : PeerTracker) : PeerTracker :=
  mkPeerTracker (peer_db s) (seen_state_update s) (pending_requests s) (user_profiles s)
    (endpoint_disco s) (tka_authority s) (expiry s) v (expiry_timer s).

Definition set_authority (v : option Authority) (s : PeerTracker) : PeerTracker :=
  mkPeerTracker (peer_db s) (seen_state_update s) (pending_requests s) (user_profiles s)
    (endpoint_disco s) v (expiry s) (self_node s) (expiry_timer s).

Definition set_user_profiles (v : gmap Z UserProfile) (s : PeerTracker) : PeerTracker :=
  mkPeerTracker (peer_db s) (seen_state_update s) (pending_requests s) v
    (endpoint_disco s) (tka_authority s) (expiry s) (self_node s) (expiry_timer s).

Definition set_requests (seen : bool) (v : list Pending) (s : PeerTracker) : PeerTracker :=
  mkPeerTracker (peer_db s) seen v (user_profiles s) (endpoint_disco s) (tka_authority s)
    (expiry s) (self_node s) (expiry_timer s).

(** The orders in which a handler walks the hash maps. *)
Record Walk := mkWalk {
  walk_peers : gmap PeerId Node -> list PeerId;
  walk_groups : gmap (list Z) (list SigRotation) -> list (list Z);
}.

(** [self.peer_db.peers()], walked. *)
Definition entries_of (w : Walk) (db : PeerDb) : list (PeerId * Node) :=
  omap (fun id => pair id <$> peers db !! id) (walk_peers w (peers db)).

(** ** Lookups *)

Definition peer_by_name_opt (name : str) (s : PeerTracker) : outcome (option Node) :=
  r ← get (FName name) (peer_db s); Ret (option_map snd r).

Definition peer_by_tailnet_ip_opt (ip : IpAddr) (s : PeerTracker) : outcome (option Node) :=
  r ← get (FIp ip) (peer_db s); Ret (option_map snd r).

Definition status_peers (w : Walk) (s : PeerTracker) : list StatusNode :=
  StatusNode_from_node <$> (entries_of w (peer_db s)).*2.

Definition status_peers_with_ids (w : Walk) (s : PeerTracker) : list (PeerId * StatusNode) :=
  prod_map id StatusNode_from_node <$> entries_of w (peer_db s).

Definition resolve_user_profile (user_id : Z) (s : PeerTracker) : option UserProfile :=
  user_profiles s !! user_id.

Definition whois_opt (socket : SocketAddr) (s : PeerTracker) : outcome (option WhoIs) :=
  node ← peer_by_tailnet_ip_opt (sa_ip socket) s;
  Ret (n ← node; Some (from_node_with_profile n (resolve_user_profile (user_id n) s))).

Definition accumulate_user_profiles (profiles : list UserProfile) (s : PeerTracker) : PeerTracker :=
  set_user_profiles (foldl (fun m p => <[profile_id p := p]> m) (user_profiles s) profiles) s.

(** [ip.into()]: the host prefix. *)
Definition host_prefix (ip : IpAddr) : outcome IpNet := new_assert ip (8 * width (is_ipv4 ip)).

Definition peers_by_accepted_route (ip : IpAddr) (s : PeerTracker) : outcome (list Node) :=
  net ← host_prefix ip;
  l ← get_route net (peer_db s);
  Ret l.*2.

Definition all_peers (w : Walk) (s : PeerTracker) : list Node := (entries_of w (peer_db s)).*2.

Definition peer_by_stable_id (id : str) (s : PeerTracker) : outcome (option Node) :=
  r ← get (FStableId id) (peer_db s); Ret (option_map snd r).

(** ** Disco keys of a peer *)

Definition store_disco (node : Node) (disco : EndpointDisco) (s : PeerTracker)
    : outcome (PeerTracker * PeerId) :=
  let effective := active_key disco in
  '(db, id) ←
    if decide (effective = disco_key node) then upsert node (peer_db s)
    else upsert (set_disco_key effective node) (peer_db s);
  Ret (set_peer_db (set_inactive_disco_key id (inactive_key disco) db) s, id).

Definition learn_disco_key (peer : PeerId) (key : DiscoPublicKey) (s : PeerTracker)
    : outcome (PeerTracker * bool) :=
  if disco_key_is_zero key then Ret (s, false)
  else
    existing ← get (FPeerId peer) (peer_db s);
    match existing with
    | None => Ret (s, false)
    | Some (_, node) =>
        if decide ((endpoint_disco s !! node_key node ≫= tsmp) = Some key) then Ret (s, false)
        else
          let disco := default EndpointDisco_default (endpoint_disco s !! node_key node) in
          let disco := update_from_tsmp (Some key) disco in
          let s := set_endpoint_disco (<[node_key node := disco]> (endpoint_disco s)) s in
          '(s, _) ← store_disco node disco s;
          Ret (s, true)
    end.

Definition observe_disco_key (peer : PeerId) (key : DiscoPublicKey) (s : PeerTracker)
    : outcome (PeerTracker * bool) :=
  existing ← get (FPeerId peer) (peer_db s);
  match existing with
  | None => Ret (s, false)
  | Some (_, node) =>
      match endpoint_disco s !! node_key node with
      | None => Ret (s, false)
      | Some disco =>
          match check_and_update key disco with
          | (disco, None) => Ret (s, false)
          | (disco, Some false) => Ret (s, false)
          | (disco, Some true) =>
              let s := set_endpoint_disco (<[node_key node := disco]> (endpoint_disco s)) s in
              '(s, _) ← store_disco node disco s;
              Ret (s, true)
          end
      end
  end.

(** The two keys once control has restated its own. *)
Definition disco_from_control (node : Node) (s : PeerTracker) : EndpointDisco :=
  let from_control := disco_key_from_control (disco_key node) in
  let disco := default EndpointDisco_default (endpoint_disco s !! node_key node) in
  if decide (control disco = from_control) then disco
  else update_from_control from_control disco.

Definition upsert_from_control (node : Node) (now : Z) (s : PeerTracker)
    : outcome (PeerTracker * PeerId) :=
  '(ex, flagged) ← flag_expired_peer (expiry s) node now;
  let s := set_expiry ex s in
  let node := match flagged with Some f => Expiry.peer f | None => node end in
  let disco := disco_from_control node s in
  let eds := <[node_key node := disco]> (endpoint_disco s) in
  let eds := if disco_is_empty disco then delete (node_key node) eds else eds in
  store_disco node disco (set_endpoint_disco eds s).

Definition control_disco_key (node_key : list Z) (s : PeerTracker) : option DiscoPublicKey :=
  endpoint_disco s !! node_key ≫= control.

(** A lookup in a hash map returns. *)
Definition prune_endpoint_disco (s : PeerTracker) : PeerTracker :=
  set_endpoint_disco
    (filter (fun e => match has (FNodeKey e.1) (peer_db s) with
                      | Ret (Some _) => true | _ => false end = true) (endpoint_disco s)) s.

(** ** Control's updates *)

Inductive PeerUpdate :=
| Full (nodes : list Node)
| Delta (upserts : list Node) (removes : list Z).

Record PeerChange := mkPeerChange {
  pc_id : Z;
  pc_derp_region : option Z;
  pc_cap : option Z;
  pc_cap_map : option (gmap str (list str));
  pc_underlay_addresses : option (list SocketAddr);
  pc_node_key : option (list Z);
  pc_key_signature : option (list Z);
  pc_disco_key : option DiscoPublicKey;
  pc_node_key_expiry : option Z;
  pc_online : option bool;
  pc_last_seen : option Z;
}.

Definition tka_admits (n : Node) (s : PeerTracker) : bool :=
  admitted (tka_snapshot_admits (tka_authority s) n).

(** The upserted and the deleted identifiers. *)
Abbreviation Touched := (gset PeerId * gset PeerId)%type.

(** The loop of a full update: the nodes with their verdicts. *)
Definition full_step (now : Z) (acc : PeerTracker * gset PeerId) (e : Node * bool)
    : outcome (PeerTracker * gset PeerId) :=
  let '(s, ups) := acc in
  if e.2 then '(s, id) ← upsert_from_control e.1 now s; Ret (s, ups ∪ {[id]})
  else Ret (s, ups).

Definition delta_upsert (now : Z) (acc : PeerTracker * Touched) (n : Node)
    : outcome (PeerTracker * Touched) :=
  let '(s, (ups, dels)) := acc in
  if tka_admits n s then '(s, id) ← upsert_from_control n now s; Ret (s, (ups ∪ {[id]}, dels))
  else
    '(db, removed) ← remove (FStableId (stable_id n)) (peer_db s);
    Ret match removed with
        | Some (id, _) => (set_peer_db db s, (ups, dels ∪ {[id]}))
        | None => (set_peer_db db s, (ups, dels))
        end.

Definition delta_remove (acc : PeerTracker * Touched) (node_id : Z)
    : outcome (PeerTracker * Touched) :=
  let '(s, (ups, dels)) := acc in
  '(db, removed) ← remove (FNodeId node_id) (peer_db s);
  Ret match removed with
      | Some (id, _) => (set_peer_db db s, (ups, dels ∪ {[id]}))
      | None => (set_peer_db db s, (ups, dels))
      end.

(** The stable ids with a kept node. *)
Definition retained_ids (nodes : list Node) (keep : list bool) : gset str :=
  list_to_set (stable_id ∘ fst <$> List.filter snd (zip nodes keep)).

(** The identifiers whose peers the closure given to [retain] turns down. *)
Definition rejected_ids (pred : PeerId -> Node -> bool) (es : list (PeerId * Node)) : gset PeerId :=
  list_to_set (fst <$> List.filter (fun e => negb (pred e.1 e.2)) es).

Definition apply_peer_update (w : Walk) (update : PeerUpdate) (now : Z) (s : PeerTracker)
    : outcome (PeerTracker * Touched) :=
  '(s, touched) ←
    match update with
    | Full new_nodes =>
        let authority := tka_authority s in
        let keep := tka_keep_verdicts (walk_groups w (by_wrapping_key (tracker_of authority new_nodes)))
          authority new_nodes in
        let retained := retained_ids new_nodes keep in
        let pred := fun (_ : PeerId) peer => bool_decide (stable_id peer ∈ retained) in
        let deletions := rejected_ids pred (entries_of w (peer_db s)) in
        db ← retain (walk_peers w (peers (peer_db s))) pred (peer_db s);
        '(s, upserts) ← mfoldl (full_step now) (set_peer_db db s, ∅) (zip new_nodes keep);
        Ret (s, (upserts, deletions))
    | Delta upserts removes =>
        acc ← mfoldl (delta_upsert now) (s, (∅, ∅)) upserts;
        mfoldl delta_remove acc removes
    end;
  Ret (prune_endpoint_disco s, touched).

Definition tka_reevaluate_peer_db (w : Walk) (s : PeerTracker) : outcome (PeerTracker * gset PeerId) :=
  match tka_authority s with
  | None => Ret (s, ∅)
  | Some authority =>
      let es := List.filter (fun e => negb (expired e.2)) (entries_of w (peer_db s)) in
      let keep := tka_keep_verdicts
        (walk_groups w (by_wrapping_key (tracker_of (Some authority) es.*2))) (Some authority) es.*2 in
      let evicted : gset PeerId :=
        list_to_set (fst ∘ fst <$> List.filter (fun e => negb e.2) (zip es keep)) in
      if decide (evicted = ∅) then Ret (s, ∅)
      else
        db ← retain (walk_peers w (peers (peer_db s)))
          (fun id _ => negb (bool_decide (id ∈ evicted))) (peer_db s);
        Ret (prune_endpoint_disco (set_peer_db db s), evicted)
  end.

(** [filter_map(|peer| self.expiry.flag_expired_peer(peer, now)).collect()] *)
Fixpoint flag_all (ps : list Node) (now : Z) (m : ExpiryManager)
    : outcome (ExpiryManager * list FlaggedPeer) :=
  match ps with
  | [] => Ret (m, [])
  | p :: ps =>
      '(m, f) ← flag_expired_peer m p now;
      '(m, fs) ← flag_all ps now m;
      Ret (m, option_list f ++ fs)
  end.

Definition install_flagged (now : Z) (acc : PeerTracker * gset PeerId) (n : Node)
    : outcome (PeerTracker * gset PeerId) :=
  let '(s, ups) := acc in
  '(s, id) ← upsert_from_control n now s;
  Ret (s, ups ∪ {[id]}).

Definition reevaluate_expiry (w : Walk) (now : Z) (s : PeerTracker)
    : outcome (PeerTracker * gset PeerId) :=
  '(m, flagged) ← flag_all (entries_of w (peer_db s)).*2 now (expiry s);
  let s := set_expiry m s in
  match flagged with
  | [] => Ret (s, ∅)
  | _ :: _ =>
      '(s, upserts) ← mfoldl (install_flagged now) (s, ∅) (Expiry.peer <$> flagged);
      Ret (prune_endpoint_disco s, upserts)
  end.

Definition NODE_ATTR_DISABLE_DELTA_UPDATES : str := bytes_of_string "disable-delta-updates".
Definition NODE_ATTR_SILENT_DISCO : str := bytes_of_string "silent-disco".

Definition has_node_attr (cap : str) (n : Node) : bool := bool_decide (is_Some (cap_map n !! cap)).

Definition delta_updates_disabled (n : Node) : bool := has_node_attr NODE_ATTR_DISABLE_DELTA_UPDATES n.

Definition silent_disco (s : PeerTracker) : bool :=
  match self_node s with Some n => has_node_attr NODE_ATTR_SILENT_DISCO n | None => false end.

(** Instants are a [DateTime] apart, which a [TimeDelta] holds with room for
    the slack. *)
Definition rearm_expiry_timer (w : Walk) (now : Z) (s : PeerTracker) : outcome PeerTracker :=
  next ← next_peer_expiry (expiry s) (entries_of w (peer_db s)).*2 (self_node s) now;
  Ret (set_expiry_timer
    ((fun next => Z.max 0 (next - now + EXPIRY_TIMER_SLACK)) <$> next) s).

(** [if let Some(v) = field { node.field = v }] *)
Definition patch {T} (field : option T) (set : T -> Node -> Node) (n : Node) : Node :=
  match field with Some v => set v n | None => n end.

(** The fields a patch carries, folded into the peer. *)
Definition patched (p : PeerChange) (s : PeerTracker) (existing : Node) : Node :=
  let n := patch (pc_underlay_addresses p) set_underlay_addresses existing in
  let n := patch (pc_derp_region p) (fun v => set_derp_region (Some v)) n in
  let n := patch (pc_cap p) set_cap n in
  let n := patch (pc_cap_map p) set_cap_map n in
  let n := set_disco_key (control_disco_key (node_key n) s) n in
  let n := patch (pc_disco_key p) (fun v => set_disco_key (Some v)) n in
  let n := patch (pc_node_key_expiry p) (fun v => set_node_key_expiry (Some v)) n in
  let n := patch (pc_online p) (fun v => set_online (Some v)) n in
  let n := patch (pc_last_seen p) (fun v => set_last_seen (Some v)) n in
  let n := patch (pc_node_key p) (fun v n => set_expired false (set_node_key v n)) n in
  patch (pc_key_signature p) set_key_signature n.

Definition patch_step (now : Z) (acc : PeerTracker * Touched) (p : PeerChange)
    : outcome (PeerTracker * Touched) :=
  let '(s, (ups, dels)) := acc in
  existing ← get (FNodeId (pc_id p)) (peer_db s);
  match existing with
  | None => Ret (s, (ups, dels))
  | Some (_, existing) =>
      let node := patched p s existing in
      if tka_admits node s then
        '(s, id) ← upsert_from_control node now s;
        Ret (s, (ups ∪ {[id]}, dels))
      else delta_remove (s, (ups, dels)) (pc_id p)
  end.

Definition apply_peer_patches (patches : list PeerChange) (now : Z) (s : PeerTracker)
    : outcome (PeerTracker * Touched) :=
  '(s, touched) ← mfoldl (patch_step now) (s, (∅, ∅)) patches;
  Ret (prune_endpoint_disco s, touched).

Definition reinstall (now : Z) (acc : PeerTracker * gset PeerId) (n : Node)
    : outcome (PeerTracker * gset PeerId) :=
  let '(s, ups) := acc in
  '(s, id) ← upsert_from_control (set_disco_key (control_disco_key (node_key n) s) n) now s;
  Ret (s, ups ∪ {[id]}).

Definition rebuild_netmap_with_patches (w : Walk) (patches : list PeerChange) (now : Z)
    (s : PeerTracker) : outcome (PeerTracker * Touched) :=
  '(s, (upserts, deletions)) ← apply_peer_patches patches now s;
  '(s, upserts) ← mfoldl (reinstall now) (s, upserts) (entries_of w (peer_db s)).*2;
  Ret (s, (upserts, deletions)).

Definition apply_peer_patch_set (w : Walk) (patches : list PeerChange) (now : Z) (s : PeerTracker)
    : outcome (PeerTracker * Touched) :=
  if match self_node s with Some n => delta_updates_disabled n | None => false end
  then rebuild_netmap_with_patches w patches now s
  else apply_peer_patches patches now s.

(** One entry of [online_change]. *)
Definition online_step (acc : PeerTracker * bool) (e : Z * bool) : outcome (PeerTracker * bool) :=
  let '(s, changed) := acc in
  existing ← get (FNodeId e.1) (peer_db s);
  match existing with
  | Some (_, n) =>
      if decide (online n = Some e.2) then Ret (s, changed)
      else '(db, _) ← upsert (set_online (Some e.2) n) (peer_db s); Ret (set_peer_db db s, true)
  | None => Ret (s, changed)
  end.

(** One entry of [peer_seen_change]. *)
Definition seen_step (now : Z) (acc : PeerTracker * bool) (e : Z * bool)
    : outcome (PeerTracker * bool) :=
  let '(s, changed) := acc in
  let new_last_seen := if e.2 then Some now else None in
  existing ← get (FNodeId e.1) (peer_db s);
  match existing with
  | Some (_, n) =>
      if decide (last_seen n = new_last_seen) then Ret (s, changed)
      else '(db, _) ← upsert (set_last_seen new_last_seen n) (peer_db s); Ret (set_peer_db db s, true)
  | None => Ret (s, changed)
  end.

(** The maps as their entries in the order of the keys. *)
Definition apply_liveness_changes (online_change peer_seen_change : list (Z * bool)) (now : Z)
    (s : PeerTracker) : outcome (PeerTracker * bool) :=
  acc ← mfoldl online_step (s, false) online_change;
  mfoldl (seen_step now) acc peer_seen_change.

(** ** What the actor emits *)

Inductive Answer :=
| ANode (n : option Node)
| ANodes (ns : list Node)
| AStatus (ns : list (PeerId * StatusNode))
| AWhoIs (r : option WhoIs).

Inductive Output :=
| Reply (to : Sender) (answer : Answer)
| PublishWatch (peers : list StatusNode)
| PublishState (deletions upserts : gset PeerId) (peers : PeerDb) (silent : bool).

Definition reply_to (p : Pending) : Sender :=
  match p with
  | PPeerByName _ r | PAcceptedRoute _ r | PTailnetIp _ r | PStatus r | PWhoIs _ r => r
  end.

(** The answer to a query, as sent at once or from the queue. *)
Definition answer (w : Walk) (s : PeerTracker) (p : Pending) : outcome Output :=
  match p with
  | PPeerByName name r => a ← peer_by_name_opt name s; Ret (Reply r (ANode a))
  | PAcceptedRoute ip r => a ← peers_by_accepted_route ip s; Ret (Reply r (ANodes a))
  | PTailnetIp ip r => a ← peer_by_tailnet_ip_opt ip s; Ret (Reply r (ANode a))
  | PStatus r => Ret (Reply r (AStatus (status_peers_with_ids w s)))
  | PWhoIs socket r => a ← whois_opt socket s; Ret (Reply r (AWhoIs a))
  end.

Fixpoint answer_all (w : Walk) (s : PeerTracker) (ps : list Pending) : outcome (list Output) :=
  match ps with
  | [] => Ret []
  | p :: ps => o ← answer w s p; os ← answer_all w s ps; Ret (o :: os)
  end.

Definition service_pending_requests (w : Walk) (s : PeerTracker)
    : outcome (PeerTracker * list Output) :=
  if seen_state_update s then Ret (s, [])
  else
    let reqs := pending_requests s in
    let s := set_requests true [] s in
    os ← answer_all w s reqs;
    Ret (s, os).

Definition publish (w : Walk) (upserts deletions : gset PeerId) (s : PeerTracker) : list Output :=
  [PublishWatch (status_peers w s);
   PublishState deletions upserts (peer_db s) (silent_disco s)].

(** ** Messages *)

(** The fields of a [StateUpdate] that the tracker reads. *)
Record StateUpdate := mkStateUpdate {
  su_node : option Node;
  su_peer_update : option PeerUpdate;
  su_peer_patches : list PeerChange;
  su_user_profiles : list UserProfile;
  su_online_change : list (Z * bool);
  su_peer_seen_change : list (Z * bool);
  su_control_time : option Z;
}.

Inductive Message :=
| MStateUpdate (msg : StateUpdate) (now : Z) (w : Walk)
| MDiscoAdvertisement (peer : PeerId) (key : DiscoPublicKey) (w : Walk)
| MDiscoObserved (peer : PeerId) (key : DiscoPublicKey) (w : Walk)
| MExpiryTimerFired (now : Z) (w : Walk)
| MTkaAuthorityChanged (w : Walk)
| MRepublishState
| MQuery (query : Pending) (w : Walk)
| MAllPeers (reply : Sender) (w : Walk)
| MPeerByStableId (id : str) (reply : Sender)
(** the control runner writes the cell *)
| AuthorityWritten (authority : option Authority).

(** The first part of the handler, up to the early return. *)
Definition begin_update (msg : StateUpdate) (now : Z) (s : PeerTracker) : PeerTracker :=
  let s := accumulate_user_profiles (su_user_profiles msg) s in
  let s :=
    match su_control_time msg with
    | Some t => set_expiry (on_control_time (expiry s) t now) s
    | None => s
    end in
  match su_node msg with Some n => set_self_node (Some n) s | None => s end.

(** The response carries no peers and no patches. *)
Definition finish_without_peers (w : Walk) (msg : StateUpdate) (now : Z) (liveness_changed : bool)
    (s : PeerTracker) : outcome (PeerTracker * list Output) :=
  s ← rearm_expiry_timer w now s;
  '(s, out) ←
    if bool_decide (is_Some (su_node msg)) && negb (seen_state_update s) then
      '(s, os) ← service_pending_requests w s;
      Ret (s, os ++ [PublishWatch (status_peers w s)])
    else Ret (s, []);
  if liveness_changed then
    '(s, os) ← service_pending_requests w s;
    Ret (s, out ++ os ++ publish w ∅ ∅ s)
  else Ret (s, out).

(** The set of peers first, then the patches on top. *)
Definition apply_changes (w : Walk) (msg : StateUpdate) (now : Z) (s : PeerTracker)
    : outcome (PeerTracker * Touched) :=
  '(s, (upserts, deletions)) ←
    match su_peer_update msg with
    | Some u => apply_peer_update w u now s
    | None => Ret (s, (∅, ∅))
    end;
  match su_peer_patches msg with
  | [] => Ret (s, (upserts, deletions))
  | _ :: _ =>
      '(s, (patch_upserts, patch_deletions)) ← apply_peer_patch_set w (su_peer_patches msg) now s;
      Ret (s, ((upserts ∖ patch_deletions) ∪ patch_upserts,
               (deletions ∖ patch_upserts) ∪ patch_deletions))
  end.

Definition handle_state_update (w : Walk) (msg : StateUpdate) (now : Z) (s : PeerTracker)
    : outcome (PeerTracker * list Output) :=
  '(s, liveness_changed) ←
    apply_liveness_changes (su_online_change msg) (su_peer_seen_change msg) now
      (begin_update msg now s);
  if bool_decide (su_peer_update msg = None) && bool_decide (su_peer_patches msg = []) then
    finish_without_peers w msg now liveness_changed s
  else
    '(s, (upserts, deletions)) ← apply_changes w msg now s;
    s ← rearm_expiry_timer w now s;
    '(s, os) ← service_pending_requests w s;
    Ret (s, os ++ publish w upserts deletions s).

Definition handle_disco (w : Walk) (peer : PeerId) (r : PeerTracker * bool)
    : PeerTracker * list Output :=
  if r.2 then (r.1, publish w {[peer]} ∅ r.1) else (r.1, []).

Definition handle_expiry_timer (w : Walk) (now : Z) (s : PeerTracker)
    : outcome (PeerTracker * list Output) :=
  '(s, upserts) ← reevaluate_expiry w now s;
  s ← rearm_expiry_timer w now s;
  if decide (upserts = ∅) then Ret (s, [])
  else
    '(s, os) ← service_pending_requests w s;
    Ret (s, os ++ publish w upserts ∅ s).

Definition handle_authority_changed (w : Walk) (s : PeerTracker)
    : outcome (PeerTracker * list Output) :=
  '(s, deletions) ← tka_reevaluate_peer_db w s;
  if decide (deletions = ∅) then Ret (s, []) else Ret (s, publish w ∅ deletions s).

(** A query is queued until the first netmap. *)
Definition handle_query (w : Walk) (q : Pending) (s : PeerTracker)
    : outcome (PeerTracker * list Output) :=
  if seen_state_update s then o ← answer w s q; Ret (s, [o])
  else Ret (set_requests (seen_state_update s) (pending_requests s ++ [q]) s, []).

Definition handle (m : Message) (s : PeerTracker) : outcome (PeerTracker * list Output) :=
  match m with
  | MStateUpdate msg now w => handle_state_update w msg now s
  | MDiscoAdvertisement peer key w => r ← learn_disco_key peer key s; Ret (handle_disco w peer r)
  | MDiscoObserved peer key w => r ← observe_disco_key peer key s; Ret (handle_disco w peer r)
  | MExpiryTimerFired now w => handle_expiry_timer w now s
  | MTkaAuthorityChanged w => handle_authority_changed w s
  | MRepublishState => Ret (s, [PublishState ∅ ∅ (peer_db s) (silent_disco s)])
  | MQuery q w => handle_query w q s
  | MAllPeers r w => Ret (s, [Reply r (ANodes (all_peers w s))])
  | MPeerByStableId id r => a ← peer_by_stable_id id s; Ret (s, [Reply r (ANode a)])
  | AuthorityWritten a => Ret (set_authority a s, [])
  end.
End Model.

(** ** Peers the lock vouches for *)

Section Trust.
Context `{!IpNetOps, !Chrono, !TkaCrypto}.
Implicit Types (A : option Authority) (n m p : Node) (M : ExpiryManager) (s : PeerTracker).

Lemma admits_ext A n m :
  node_key n = node_key m -> key_signature n = key_signature m -> admits A n = admits A m.
Proof. intros Hk Hs. unfold admits, tka_snapshot_admits. by rewrite Hk, Hs. Qed.

(** The signature is not one of a key with the prefix that marks the keys of
    expired peers. *)
Definition clean (signature : list Z) : Prop :=
  forall sig key, decode_node_key_signature signature = inr sig ->
  nks_pubkey sig <> node_public_with_bad_old_prefix key.

(** The authority accepts the peer's signature, or the peer has expired and
    the authority accepts it with the node key it had before it was flagged. *)
Definition vouched A M n : Prop :=
  admits A n = true \/
  (expired n = true /\ exists pr, previously_expired M !! stable_id n = Some pr /\
    node_key n = node_public_with_bad_old_prefix (pristine_node_key pr) /\
    admits A (set_node_key (pristine_node_key pr) n) = true).

Definition trusted A M n : Prop := clean (key_signature n) /\ vouched A M n.

(** A lock that accepts a broken key is not active. *)
Lemma broken_admits A n key m :
  clean (key_signature n) -> node_key n = node_public_with_bad_old_prefix key ->
  admits A n = true -> admits A m = true.
Proof.
  intros Hc Hk. unfold admits, tka_snapshot_admits. destruct A as [auth|]; [|done].
  destruct (st_keys (au_state auth)) as [|k ks] eqn:Ek; [done|].
  destruct (key_signature n) as [|x l] eqn:Es; [done|]. rewrite Hk.
  destruct (node_key_authorized_with_details auth _ (x :: l)) as [|d] eqn:E; [done|].
  apply authorized_details_iff in E as (sig & root & Hd & (_ & Hp & _) & _).
  by destruct (Hc sig key Hd).
Qed.

(** The fields that trust in a peer depends on. *)
Definition same_trust n m : Prop :=
  node_key n = node_key m /\ key_signature n = key_signature m /\ expired n = expired m /\
  stable_id n = stable_id m.

Lemma trusted_ext A M n m : same_trust n m -> trusted A M n -> trusted A M m.
Proof.
  intros (Hk & Hs & He & Hi) [Hc Hv]. split; [by rewrite <- Hs|].
  destruct Hv as [Ha|(Hx & pr & Hpr & Hb & Ha)].
  - left. by rewrite <- (admits_ext A n m).
  - right. split; [congruence|]. exists pr. split_and!; [congruence..|].
    rewrite <- Ha. by apply admits_ext.
Qed.

Lemma trusted_memo A M M' n :
  previously_expired M' !! stable_id n = previously_expired M !! stable_id n ->
  trusted A M n -> trusted A M' n.
Proof.
  intros E [Hc [Ha|(Hx & pr & Hpr & Hrest)]]; (split; [done|]); [by left|]. right. split; [done|].
  exists pr. by rewrite E.
Qed.

(** The pass over a peer leaves it, or what replaces it, trusted. *)
Definition after_flag (r : option FlaggedPeer) p : Node :=
  match r with Some f => Expiry.peer f | None => p end.

Lemma restore_same pr p :
  same_trust (set_expired false (set_node_key (pristine_node_key pr) p)) (restore_peer pr p).
Proof. unfold same_trust, restore_peer. repeat case_match; done. Qed.

Lemma flag_trust A M p now M' r :
  flag_case M p now M' r -> trusted A M p -> trusted A M' (after_flag r p).
Proof.
  intros Hc [Hs Ht]. destruct Hc as [|? ? Hn|pr ? ? Hpr Hne|pr ? ? Hpr He|? ? ?|first ? ? Hx Hf]; cbn; try done.
  - split; [done|]. left. destruct Ht as [Ht|(? & pr' & Hpr' & ? & _)]; [done|]. congruence.
  - assert (admits A (set_node_key (pristine_node_key pr) p) = true) as Ha.
    { destruct Ht as [Ht|(? & pr' & Hpr' & ? & Ht)]; [by eapply broken_admits|]. congruence. }
    eapply (trusted_ext A); [apply restore_same|]. split; [done|]. left. rewrite <- Ha. by apply admits_ext.
  - split; [done|]. right. split; [done|]. eexists. split_and!; [apply lookup_insert_eq|done|].
    destruct Ht as [Ht|(? & _)]; [|congruence]. rewrite <- Ht. by apply admits_ext.
Qed.

Lemma flag_memo M p now M' r sid :
  flag_case M p now M' r -> sid <> stable_id p ->
  previously_expired M' !! sid = previously_expired M !! sid.
Proof. destruct 1; intros Hne; cbn; by rewrite ?lookup_delete_ne, ?lookup_insert_ne. Qed.

(** What the pass keeps of a peer. *)
Lemma flag_keeps M p now M' r :
  flag_case M p now M' r ->
  let p' := after_flag r p in
  stable_id p' = stable_id p /\ tailnet_address p' = tailnet_address p /\
  accepted_routes p' = accepted_routes p.
Proof. destruct 1; cbn; unfold restore_peer; repeat case_match; done. Qed.

Lemma node_ok_ext n m :
  tailnet_address n = tailnet_address m -> accepted_routes n = accepted_routes m ->
  node_ok n -> node_ok m.
Proof.
  intros Ha Hr [Hnd Hv4 Hv6]. split; [|by rewrite <- Ha..]. unfold route_keys in *. by rewrite <- Hr.
Qed.
End Trust.

(** ** Installing a peer *)

Section Install.
Context `{!IpNetOps, !IpNetLaws, !Chrono, !TkaCrypto}.
Implicit Types (A : option Authority) (n m p : Node) (M : ExpiryManager) (s : PeerTracker)
  (K : gset str).

(** The fields that updates of the peers leave alone. *)
Definition frame s := (tka_authority s, seen_state_update s, pending_requests s).

(** Every peer is trusted, those of [K] aside. *)
Definition lock_but K s : Prop :=
  forall id n, peers (peer_db s) !! id = Some n ->
    trusted (tka_authority s) (expiry s) n \/ stable_id n ∈ K.

Definition known n (db : PeerDb) : Prop :=
  exists id o, peers db !! id = Some o /\ stable_id o = stable_id n.

(** Going from [s] to [s']: the database stays well-formed, its peers stay
    known, identifiers only grow. *)
Record moved s s' : Prop := {
  mv_inv : db_inv (peer_db s) -> db_inv (peer_db s');
  mv_frame : frame s' = frame s;
  mv_delta : clock_delta (expiry s') = clock_delta (expiry s);
}.

#[export] Instance moved_refl : Reflexive moved.
Proof. by split. Qed.

#[export] Instance moved_trans : Transitive moved.
Proof. intros a b c [Hi1 Hf1 Hd1] [Hi2 Hf2 Hd2]. split; [auto|congruence..]. Qed.

Lemma moved_authority s s' : moved s s' -> tka_authority s' = tka_authority s.
Proof. intros Hm. pose proof (mv_frame _ _ Hm) as Hf. unfold frame in Hf. congruence. Qed.

Lemma known_stable n db :
  db_inv db -> known n db -> is_Some (stableid_idx (index_state db) !! stable_id n).
Proof. intros Hi (id & o & Ho & <-). by rewrite (inv_sid_all db Hi id o). Qed.

Lemma known_upsert_id n id o db :
  db_inv db -> peers db !! id = Some o -> stable_id o = stable_id n -> upsert_id n db = id.
Proof. intros Hi Ho E. unfold upsert_id. rewrite <- E. by rewrite (inv_sid_all db Hi id o). Qed.

(** The database after an upsert of a peer. *)
Lemma upsert_moves s n :
  db_inv (peer_db s) -> node_ok n -> id_free n (peer_db s) ->
  exists db', upsert n (peer_db s) = Ret (db', upsert_id n (peer_db s)) /\ db_inv db' /\
    peers db' = <[upsert_id n (peer_db s) := n]> (peers (peer_db s)) /\
    next_id db' <= next_id (peer_db s) + 1 /\
    (known n (peer_db s) -> next_id db' = next_id (peer_db s)).
Proof.
  intros Hi Hn Hf. destruct (upsert_spec (peer_db s) n Hi Hn Hf) as (db' & Hr & Hup).
  exists db'. split_and!; [done|apply Hup|apply Hup| |].
  - pose proof (up_next _ _ _ _ Hup). lia.
  - intros Hk. apply (up_next_known _ _ _ _ Hup). by apply known_stable.
Qed.

Lemma set_inactive_peers id key (db : PeerDb) :
  peers (set_inactive_disco_key id key db) = peers db /\
  next_id (set_inactive_disco_key id key db) = next_id db.
Proof. unfold set_inactive_disco_key. by destruct key. Qed.

Lemma store_disco_moves s n d :
  db_inv (peer_db s) -> node_ok n -> id_free n (peer_db s) ->
  exists s', store_disco n d s = Ret (s', upsert_id n (peer_db s)) /\
    db_inv (peer_db s') /\ s' = set_peer_db (peer_db s') s /\
    peers (peer_db s') = <[upsert_id n (peer_db s) := set_disco_key (active_key d) n]>
      (peers (peer_db s)) /\
    next_id (peer_db s') <= next_id (peer_db s) + 1 /\
    (known n (peer_db s) -> next_id (peer_db s') = next_id (peer_db s)).
Proof.
  intros Hi Hn Hf. unfold store_disco.
  assert (exists db', (if decide (active_key d = disco_key n) then upsert n (peer_db s)
      else upsert (set_disco_key (active_key d) n) (peer_db s))
      = Ret (db', upsert_id n (peer_db s)) /\ db_inv db' /\
    peers db' = <[upsert_id n (peer_db s) := set_disco_key (active_key d) n]> (peers (peer_db s)) /\
    next_id db' <= next_id (peer_db s) + 1 /\
    (known n (peer_db s) -> next_id db' = next_id (peer_db s))) as (db' & -> & Hi' & Hps & Hx & Hk).
  { case_decide as E.
    - replace (set_disco_key (active_key d) n) with n by (rewrite E; by apply node_ext).
      by apply upsert_moves.
    - apply (upsert_moves s (set_disco_key (active_key d) n)); [done| |done].
      by eapply node_ok_ext, Hn. }
  cbn [mbind outcome_bind]. eexists. split; [reflexivity|]. cbn [peer_db set_peer_db].
  destruct (set_inactive_peers (upsert_id n (peer_db s)) (inactive_key d) db') as [-> ->].
  split_and!; try done. apply set_inactive_spec; [done|]. by rewrite Hps, lookup_insert_eq.
Qed.

(** The node that lands, up to its disco key. *)
Lemma upsert_from_control_spec s n now :
  db_inv (peer_db s) -> node_ok n -> id_free n (peer_db s) ->
  dt_ok (now + clock_delta (expiry s)) = true ->
  exists s' r, upsert_from_control n now s = Ret (s', upsert_id n (peer_db s)) /\
    flag_case (expiry s) n (now + clock_delta (expiry s)) (expiry s') r /\ moved s s' /\
    peers (peer_db s') = <[upsert_id n (peer_db s) :=
      set_disco_key (active_key (disco_from_control (after_flag r n) s)) (after_flag r n)]>
      (peers (peer_db s)) /\
    next_id (peer_db s') <= next_id (peer_db s) + 1 /\
    (known n (peer_db s) -> next_id (peer_db s') = next_id (peer_db s)).
Proof.
  intros Hi Hn Hf Hdt. unfold upsert_from_control.
  destruct (flag_spec (expiry s) n now Hdt) as (M & r & -> & Hc). mrun.
  destruct (flag_keeps _ _ _ _ _ Hc) as (Hsid & Hta & Har). fold (after_flag r n).
  set (x := after_flag r n) in *. set (eds := if disco_is_empty _ then _ else _).
  assert (upsert_id x (peer_db s) = upsert_id n (peer_db s)) as Hid by (unfold upsert_id; by rewrite Hsid).
  destruct (store_disco_moves (set_endpoint_disco eds (set_expiry M s)) x
    (disco_from_control x (set_expiry M s))) as (s' & -> & Hi' & Hs' & Hps & Hnx & Hnk); [done|by eapply node_ok_ext, Hn| |].
  { unfold id_free. cbn. by rewrite Hsid. }
  cbn [peer_db set_endpoint_disco set_expiry] in *. rewrite Hid in *.
  eexists s', r. split; [reflexivity|]. assert (expiry s' = M) as EM by by rewrite Hs'.
  split_and!; [by rewrite EM| |exact Hps|done|].
  - split; [done|by rewrite Hs'|]. rewrite EM. by eapply flag_case_delta.
  - intros (i & o & Ho & Eo). apply Hnk. exists i, o. by rewrite Hsid.
Qed.

Lemma known_mono (db db' : PeerDb) n m :
  db_inv db -> peers db' = <[upsert_id n db := m]> (peers db) -> stable_id m = stable_id n ->
  forall x, known x db -> known x db'.
Proof.
  intros Hi Hps Hsid x (id & o & Ho & Eo). destruct (decide (id = upsert_id n db)) as [->|Hne].
  - exists (upsert_id n db), m. rewrite Hps, lookup_insert_eq. split; [done|].
    destruct (upsert_id_known db n o Hi Ho) as [_ E]. congruence.
  - exists id, o. rewrite Hps. by rewrite lookup_insert_ne.
Qed.

(** Installing a trusted peer settles it and disturbs no other. *)
Lemma install_trusted s n now :
  db_inv (peer_db s) -> node_ok n -> id_free n (peer_db s) ->
  dt_ok (now + clock_delta (expiry s)) = true ->
  exists s' id, upsert_from_control n now s = Ret (s', id) /\ moved s s' /\
    next_id (peer_db s') <= next_id (peer_db s) + 1 /\
    (known n (peer_db s) -> next_id (peer_db s') = next_id (peer_db s)) /\
    (forall x, known x (peer_db s) -> known x (peer_db s')) /\
    (forall m, stable_id m <> stable_id n ->
      trusted (tka_authority s) (expiry s) m -> trusted (tka_authority s) (expiry s') m) /\
    (forall K, trusted (tka_authority s) (expiry s) n \/ stable_id n ∈ K ->
      lock_but ({[stable_id n]} ∪ K) s -> lock_but K s').
Proof.
  intros Hi Hn Hf Hdt.
  destruct (upsert_from_control_spec s n now Hi Hn Hf Hdt) as (s' & r & -> & Hc & Hm & Hps & Hnx & Hnk).
  destruct (flag_keeps _ _ _ _ _ Hc) as (Hsid & Hta & Har).
  assert (forall m, stable_id m <> stable_id n -> trusted (tka_authority s) (expiry s) m ->
    trusted (tka_authority s) (expiry s') m) as Hother.
  { intros m Hne. apply trusted_memo. by eapply flag_memo. }
  eexists s', _. split_and!; [done|done|done|done| |done|].
  - eapply known_mono; [done|exact Hps|done].
  - intros K Ht Hl id m. rewrite Hps, (moved_authority s s' Hm).
    intros [[<- <-]|[Hne Hm']]%lookup_insert_Some.
    + destruct Ht as [Ht|Hk]; [left|right; cbn; by rewrite Hsid].
      eapply trusted_ext; [|by eapply flag_trust]. done.
    + pose proof (upsert_stable_other (peer_db s) n id m Hi Hm' (not_eq_sym Hne)) as Hs.
      destruct (Hl id m Hm') as [Ht'|Hk]; [left; by apply Hother|right]. set_solver.
Qed.
End Install.

(** ** The operations *)

Section Operations.
Context `{!IpNetOps, !IpNetLaws, !Chrono, !TkaCrypto}.
Implicit Types (A : option Authority) (n m p : Node) (M : ExpiryManager) (s : PeerTracker)
  (K : gset str) (w : Walk).

(** What is assumed of the signatures that arrive. *)
Context (C : Prop).

(** From [s] to [s'] at most [k] identifiers are taken and trust is kept. *)
Record kept (k : Z) s s' : Prop := {
  kp_moved : moved s s';
  kp_next : next_id (peer_db s') <= next_id (peer_db s) + k;
  kp_lock : C -> forall K, lock_but K s -> lock_but K s';
}.

Lemma kept_refl s : kept 0 s s.
Proof. split; [done|lia|done]. Qed.

Lemma kept_trans j k s1 s2 s3 : kept j s1 s2 -> kept k s2 s3 -> kept (j + k) s1 s3.
Proof.
  intros [Hm1 Hn1 Hl1] [Hm2 Hn2 Hl2]. split; [by etrans|lia|auto].
Qed.

(** What the operations rely on: a well-formed database with [k] identifiers
    left, and a clock in range. *)
Record ready (now k : Z) s : Prop := {
  rd_inv : db_inv (peer_db s);
  rd_clock : dt_ok (now + clock_delta (expiry s)) = true;
  rd_next : next_id (peer_db s) + k < 2 ^ 32;
}.

Lemma ready_le now j k s : j <= k -> ready now k s -> ready now j s.
Proof. intros Hle [Hi Hc Hn]. split; [done..|lia]. Qed.

Lemma ready_kept now j k s s' : ready now (j + k) s -> kept j s s' -> ready now k s'.
Proof.
  intros [Hi Hc Hn] [Hm Hx _]. split; [by apply (mv_inv _ _ Hm)|by rewrite (mv_delta _ _ Hm)|lia].
Qed.

Lemma ready_moved now s s' :
  ready now 0 s -> moved s s' -> next_id (peer_db s') = next_id (peer_db s) -> ready now 0 s'.
Proof.
  intros [Hi Hc Hn] Hm Hx. split; [by apply (mv_inv _ _ Hm)|by rewrite (mv_delta _ _ Hm)|lia].
Qed.

(** A loop whose steps keep the invariants. *)
Lemma kept_loop {X T} (f : PeerTracker * T -> X -> outcome (PeerTracker * T)) now j xs :
  0 <= j ->
  (forall s t x, x ∈ xs -> ready now j s -> exists s' t', f (s, t) x = Ret (s', t') /\ kept j s s') ->
  forall s t, ready now (j * Z.of_nat (length xs)) s ->
  exists s' t', mfoldl f (s, t) xs = Ret (s', t') /\ kept (j * Z.of_nat (length xs)) s s'.
Proof.
  intros Hj Hf. induction xs as [|x xs IH]; intros s t Hr; cbn [mfoldl length].
  - exists s, t. rewrite Z.mul_0_r. split; [done|apply kept_refl].
  - assert (j * Z.of_nat (S (length xs)) = j + j * Z.of_nat (length xs)) as E by lia.
    cbn [length] in Hr. rewrite E in Hr |- *.
    destruct (Hf s t x) as (s1 & t1 & -> & Hk1); [set_solver|eapply ready_le, Hr; lia|].
    destruct (IH ltac:(intros; apply Hf; [set_solver|done]) s1 t1) as (s2 & t2 & Hr2 & Hk2);
      [by eapply ready_kept|].
    exists s2, t2. split; [exact Hr2|by eapply kept_trans].
Qed.

(** *** Peers that stay who they are *)

Lemma peer_get_spec (db : PeerDb) field :
  db_inv db -> field_ok field ->
  get field db = Ret None \/
  exists id n, get field db = Ret (Some (id, n)) /\ peers db !! id = Some n /\ has_field field id n.
Proof.
  intros Hi Hf. destruct (field_lookup_spec db field Hi Hf) as (r & Hr & Hs). unfold get. rewrite Hr.
  cbn [mbind outcome_bind]. destruct r as [id|]; [|by left]. destruct (Hs id eq_refl) as (n & Hn & Hh).
  right. exists id, n. cbn [mbind option_bind]. by rewrite Hn.
Qed.

Lemma known_free n (db : PeerDb) : db_inv db -> known n db -> id_free n db.
Proof. intros Hi Hk. left. by apply known_stable. Qed.

Lemma lock_but_replace K s db id n m :
  peers db = <[id := m]> (peers (peer_db s)) -> peers (peer_db s) !! id = Some n ->
  same_trust n m -> lock_but K s -> lock_but K (set_peer_db db s).
Proof.
  intros Hps Hn Hst Hl i x. cbn. rewrite Hps. intros [[<- <-]|[Hne Hx]]%lookup_insert_Some; [|by eapply Hl].
  destruct (Hl id n Hn) as [Ht|Hk]; [left; by eapply trusted_ext|right].
  destruct Hst as (_ & _ & _ & E). congruence.
Qed.

Lemma replace_kept s id n m :
  db_inv (peer_db s) -> peers (peer_db s) !! id = Some n -> same_trust n m ->
  tailnet_address n = tailnet_address m -> accepted_routes n = accepted_routes m ->
  exists db, upsert m (peer_db s) = Ret (db, id) /\ kept 0 s (set_peer_db db s).
Proof.
  intros Hi Hn Hst Ha Hr. pose proof Hst as (_ & _ & _ & Es).
  assert (known m (peer_db s)) as Hk by (by exists id, n).
  destruct (upsert_moves s m Hi) as (db & Hu & Hi' & Hps & _ & Hnx).
  { eapply node_ok_ext; [done..|]. by eapply inv_nodes. }
  { by apply known_free. }
  rewrite (known_upsert_id m id n) in * by done. exists db. split; [done|].
  split; [by split|cbn; rewrite Hnx by done; lia|]. intros _ K. by eapply lock_but_replace.
Qed.

Lemma store_kept s eds id n d :
  db_inv (peer_db s) -> peers (peer_db s) !! id = Some n ->
  exists s', store_disco n d (set_endpoint_disco eds s) = Ret (s', id) /\ kept 0 s s' /\
    peers (peer_db s') = <[id := set_disco_key (active_key d) n]> (peers (peer_db s)).
Proof.
  intros Hi Hn. assert (known n (peer_db s)) as Hk by (by exists id, n).
  destruct (store_disco_moves (set_endpoint_disco eds s) n d) as (s' & Hr & Hi' & Hs' & Hps & _ & Hnx);
    [done|by eapply inv_nodes|by apply known_free|]. cbn [peer_db set_endpoint_disco] in *.
  rewrite (known_upsert_id n id n) in * by done. exists s'. split_and!; [done| |done].
  split; [split; [done|by rewrite Hs'|by rewrite Hs']|rewrite Hnx by done; lia|].
  intros _ K Hl. rewrite Hs'. eapply (lock_but_replace K (set_endpoint_disco eds s)); [exact Hps|done|done|].
  exact Hl.
Qed.

Lemma liveness_kept on seen now s :
  ready now 0 s ->
  exists s' b, apply_liveness_changes on seen now s = Ret (s', b) /\ kept 0 s s'.
Proof.
  intros Hrd. unfold apply_liveness_changes.
  destruct (kept_loop online_step now 0 on ltac:(lia)) with (s := s) (t := false)
    as (s1 & b1 & -> & Hk1); [|done|].
  { intros s0 b [i v] _ Hr. unfold online_step. cbn [fst snd].
    destruct (peer_get_spec (peer_db s0) (FNodeId i) (rd_inv _ _ _ Hr) I) as [->|(id & n & -> & Hn & _)]; mrun.
    - exists s0, b. split; [done|apply kept_refl].
    - case_decide; [exists s0, b; split; [done|apply kept_refl]|].
      destruct (replace_kept s0 id n (set_online (Some v) n)) as (db & -> & Hk); [apply Hr|done..|].
      by exists (set_peer_db db s0), true. }
  rewrite Z.mul_0_l in Hk1. mrun.
  destruct (kept_loop (seen_step now) now 0 seen ltac:(lia)) with (s := s1) (t := b1)
    as (s2 & b2 & -> & Hk2); [|exact (ready_kept now 0 0 s s1 Hrd Hk1)|].
  { intros s0 b [i v] _ Hr. unfold seen_step. cbn [fst snd].
    destruct (peer_get_spec (peer_db s0) (FNodeId i) (rd_inv _ _ _ Hr) I) as [->|(id & n & -> & Hn & _)]; mrun.
    - exists s0, b. split; [done|apply kept_refl].
    - case_decide; [exists s0, b; split; [done|apply kept_refl]|].
      destruct (replace_kept s0 id n (set_last_seen (if v then Some now else None) n))
        as (db & -> & Hk); [apply Hr|done..|].
      by exists (set_peer_db db s0), true. }
  exists s2, b2. split; [done|]. by eapply (kept_trans 0 0).
Qed.

(** *** Disco keys *)

(** What an advertisement does: nothing, or the peer's key is the advertised
    one. *)
Lemma learn_spec s peer key :
  db_inv (peer_db s) ->
  exists s' b, learn_disco_key peer key s = Ret (s', b) /\ kept 0 s s' /\
    if b : bool then exists n, peers (peer_db s) !! peer = Some n /\ key <> replicate 32 0 /\
      peers (peer_db s') = <[peer := set_disco_key (Some key) n]> (peers (peer_db s)) /\
      exists d, endpoint_disco s' = <[node_key n := d]> (endpoint_disco s) /\ tsmp d = Some key /\
        tsmp_active d = true /\ control d = control_disco_key (node_key n) s
    else s' = s /\ forall n, peers (peer_db s) !! peer = Some n ->
      key = replicate 32 0 \/ endpoint_disco s !! node_key n ≫= tsmp = Some key.
Proof.
  intros Hi. unfold learn_disco_key, disco_key_is_zero. case_bool_decide as Hz.
  { exists s, false. split_and!; [done|apply kept_refl|done|]. naive_solver. }
  destruct (peer_get_spec (peer_db s) (FPeerId peer) Hi I) as [Hg|(id & n & Hg & Hn & Hid)]; rewrite Hg; mrun.
  { exists s, false. split_and!; [done|apply kept_refl|done|]. intros n Hn.
    unfold get in Hg. cbn in Hg. rewrite Hn in Hg. cbn in Hg. by rewrite Hn in Hg. }
  cbn in Hid. subst id. case_decide as Ht.
  { exists s, false. split_and!; [done|apply kept_refl|done|]. intros n' Hn'. simplify_eq. by right. }
  set (d := update_from_tsmp _ _).
  destruct (store_kept s (<[node_key n := d]> (endpoint_disco s)) peer n d Hi Hn) as (s' & Hr & Hk & Hps).
  rewrite Hr. mrun. exists s', true. split_and!; [done|done|]. exists n. split_and!; [done..|].
  exists d. split_and!; [|done|done|].
  - revert Hr. unfold store_disco. intros Hr. apply bind_Ret_inv in Hr as ([db i] & _ & [= <- _]). done.
  - unfold control_disco_key. cbn. by destruct (endpoint_disco s !! node_key n).
Qed.

(** The two keys of a peer. *)
Definition known_disco (key : DiscoPublicKey) (d : EndpointDisco) : Prop :=
  control d = Some key \/ tsmp d = Some key.

Lemma check_and_update_spec key d :
  match check_and_update key d with
  | (d', Some true) => known_disco key d /\ active_key d <> Some key /\ active_key d' = Some key /\
      control d' = control d /\ tsmp d' = tsmp d
  | (d', Some false) => d' = d /\ active_key d = Some key
  | (d', None) => d' = d /\ ~ known_disco key d
  end.
Proof.
  unfold check_and_update, known_disco, active_key. repeat case_decide; cbn; naive_solver.
Qed.

Lemma observe_spec s peer key :
  db_inv (peer_db s) ->
  exists s' b, observe_disco_key peer key s = Ret (s', b) /\ kept 0 s s' /\
    if b : bool then exists n d d', peers (peer_db s) !! peer = Some n /\
      endpoint_disco s !! node_key n = Some d /\ known_disco key d /\ active_key d <> Some key /\
      endpoint_disco s' = <[node_key n := d']> (endpoint_disco s) /\ active_key d' = Some key /\
      control d' = control d /\ tsmp d' = tsmp d /\
      peers (peer_db s') = <[peer := set_disco_key (Some key) n]> (peers (peer_db s))
    else s' = s /\ forall n d, peers (peer_db s) !! peer = Some n ->
      endpoint_disco s !! node_key n = Some d -> known_disco key d -> active_key d = Some key.
Proof.
  intros Hi. unfold observe_disco_key.
  destruct (peer_get_spec (peer_db s) (FPeerId peer) Hi I) as [Hg|(id & n & Hg & Hn & Hid)]; rewrite Hg; mrun.
  { exists s, false. split_and!; [done|apply kept_refl|done|]. intros n d Hn. unfold get in Hg. cbn in Hg.
    rewrite Hn in Hg. cbn in Hg. by rewrite Hn in Hg. }
  cbn in Hid. subst id. destruct (endpoint_disco s !! node_key n) as [d|] eqn:Hd.
  2: { exists s, false. split_and!; [done|apply kept_refl|done|]. intros n' d' Hn' Hd'. simplify_eq. }
  pose proof (check_and_update_spec key d) as Hc. destruct (check_and_update key d) as [d' [[]|]].
  2, 3: exists s, false; split_and!; [done|apply kept_refl|done|]; intros n' d0 Hn' Hd' Hkd; simplify_eq; naive_solver.
  destruct (store_kept s (<[node_key n := d']> (endpoint_disco s)) peer n d' Hi Hn) as (s' & Hr & Hk & Hps).
  rewrite Hr. mrun. exists s', true. split_and!; [done|done|]. exists n, d, d'.
  destruct Hc as (Hkn & Hne & Ha & Hco & Hts). rewrite Ha in Hps. split_and!; try done.
  revert Hr. unfold store_disco. intros Hr. apply bind_Ret_inv in Hr as ([db i] & _ & [= <- _]). done.
Qed.

(** *** Removals *)

Lemma lock_but_sub K s db :
  (forall id n, peers db !! id = Some n -> peers (peer_db s) !! id = Some n) ->
  lock_but K s -> lock_but K (set_peer_db db s).
Proof. intros Hsub Hl id n Hn. by apply (Hl id n), Hsub. Qed.

Lemma prune_kept s : kept 0 s (prune_endpoint_disco s).
Proof. split; [by split|cbn; lia|done]. Qed.

Lemma remove_kept s field :
  db_inv (peer_db s) -> field_ok field ->
  exists db r, remove field (peer_db s) = Ret (db, r) /\ kept 0 s (set_peer_db db s).
Proof.
  intros Hi Hf. destruct (peer_remove_spec (peer_db s) field Hi Hf) as [(id & n & st & -> & Hn & _ & Hi')|[-> _]].
  - eexists _, _. split; [done|]. split; [by split|cbn; lia|]. intros _ K. apply lock_but_sub.
    cbn. intros i m [_ Hm]%lookup_delete_Some. done.
  - eexists _, _. split; [done|]. split; [by split|cbn; lia|]. intros _ K. by apply lock_but_sub.
Qed.

Lemma delta_remove_kept s t i :
  db_inv (peer_db s) ->
  exists s' t', delta_remove (s, t) i = Ret (s', t') /\ kept 0 s s'.
Proof.
  intros Hi. unfold delta_remove. destruct t as [ups dels].
  destruct (remove_kept s (FNodeId i) Hi I) as (db & r & -> & Hk). mrun.
  destruct r as [[id n]|]; by eexists _, _.
Qed.

Lemma retain_kept s order pred :
  db_inv (peer_db s) ->
  exists db, retain order pred (peer_db s) = Ret db /\ kept 0 s (set_peer_db db s) /\
    forall id n, peers db !! id = Some n <->
      peers (peer_db s) !! id = Some n /\ (id ∈ order -> pred id n = true).
Proof.
  intros Hi. destruct (retain_spec pred order (peer_db s) Hi) as (db & -> & Hi' & Hnx & Hps).
  exists db. split_and!; [done| |done]. split; [by split|cbn; lia|]. intros _ K. apply lock_but_sub.
  intros id n Hn. by apply Hps.
Qed.

(** *** Full updates and deltas *)

Lemma admits_trusted s n :
  clean (key_signature n) -> tka_admits n s = true -> trusted (tka_authority s) (expiry s) n.
Proof. intros Hc Ha. split; [done|by left]. Qed.

Lemma lock_but_mono K K' s : K ⊆ K' -> lock_but K s -> lock_but K' s.
Proof. intros Hs Hl id n Hn. destruct (Hl id n Hn); [by left|right; set_solver]. Qed.

Lemma install_kept s n now :
  ready now 1 s -> node_ok n -> (C -> clean (key_signature n)) -> tka_admits n s = true ->
  exists s' id, upsert_from_control n now s = Ret (s', id) /\ kept 1 s s'.
Proof.
  intros [Hi Hc Hnx] Hn Hcl Ha.
  destruct (install_trusted s n now Hi Hn) as (s' & id & Hr & Hm & Hnx' & _ & _ & _ & Hl);
    [right; lia|done|].
  exists s', id. split; [done|]. split; [done|lia|]. intros HC K HK.
  apply Hl; [left; apply admits_trusted; auto|].
  eapply lock_but_mono, HK. set_solver.
Qed.

Lemma delta_upsert_kept now s t n :
  ready now 1 s -> node_ok n -> (C -> clean (key_signature n)) ->
  exists s' t', delta_upsert now (s, t) n = Ret (s', t') /\ kept 1 s s'.
Proof.
  intros Hr Hn Hcl. unfold delta_upsert. destruct t as [ups dels]. destruct (tka_admits n s) eqn:Ha.
  - destruct (install_kept s n now Hr Hn Hcl Ha) as (s' & id & -> & Hk). mrun. by eexists _, _.
  - destruct (remove_kept s (FStableId (stable_id n)) (rd_inv _ _ _ Hr) I) as (db & r & -> & Hk). mrun.
    assert (kept 1 s (set_peer_db db s)) by (destruct Hk; split; [done|cbn in *; lia|done]).
    destruct r as [[id m]|]; by eexists _, _.
Qed.

(** The loop of a full update settles every kept node. *)
Lemma full_loop now (l : list (Node * bool)) : forall s ups,
  ready now (Z.of_nat (length l)) s -> Forall (fun e => node_ok e.1) l ->
  Forall (fun e => e.2 = true -> tka_admits e.1 s = true) l ->
  (C -> Forall (fun e => clean (key_signature e.1)) l) ->
  exists s' ups', mfoldl (full_step now) (s, ups) l = Ret (s', ups') /\ moved s s' /\
    next_id (peer_db s') <= next_id (peer_db s) + Z.of_nat (length l) /\
    (C -> forall K, lock_but (list_to_set (stable_id ∘ fst <$> List.filter snd l) ∪ K) s -> lock_but K s').
Proof.
  induction l as [|[n b] l IH]; intros s ups Hr Hok Hadm Hcl; cbn [mfoldl length].
  - exists s, ups. split_and!; [done|done|lia|]. intros _ K. apply lock_but_mono. set_solver.
  - apply Forall_cons in Hok as [Hn Hok]. apply Forall_cons in Hadm as [Ha Hadm].
    setoid_rewrite Forall_cons in Hcl. cbn [fst snd] in *.
    cbn [length] in Hr. unfold full_step at 2. cbn [fst snd]. destruct b; mrun.
    + destruct Hr as [Hi Hc Hnx].
      destruct (install_trusted s n now Hi Hn) as (s1 & id & -> & Hm & Hnx' & _ & _ & _ & Hl);
        [right; lia|done|]. mrun.
      destruct (IH s1 (ups ∪ {[id]})) as (s2 & ups2 & -> & Hm2 & Hnx2 & Hl2); [|done| |naive_solver|].
      { split; [by apply (mv_inv _ _ Hm)|by rewrite (mv_delta _ _ Hm)|lia]. }
      { eapply Forall_impl; [done|]. intros e He. unfold tka_admits. by rewrite (moved_authority _ _ Hm). }
      exists s2, ups2. split_and!; [done|by etrans|lia|]. intros HC K HK.
      apply (Hl2 HC), Hl.
      * left. apply admits_trusted; [|by apply Ha]. by apply Hcl.
      * eapply lock_but_mono, HK. cbn. set_solver.
    + destruct (IH s ups) as (s2 & ups2 & -> & Hm2 & Hnx2 & Hl2); [eapply ready_le, Hr; lia|done|done|naive_solver|].
      exists s2, ups2. split_and!; [done|done|lia|done].
Qed.

(** The walk visits every peer once. *)
Definition walk_ok w : Prop :=
  forall ps : gmap PeerId Node, NoDup (walk_peers w ps) /\ forall id, id ∈ walk_peers w ps <-> is_Some (ps !! id).

Lemma elem_of_entries_of w (db : PeerDb) id n :
  walk_ok w -> (id, n) ∈ entries_of w db <-> peers db !! id = Some n.
Proof.
  intros Hw. unfold entries_of. rewrite list_elem_of_omap. split.
  - intros (i & _ & E). destruct (peers db !! i) eqn:Ei; [|done]. cbn in E. by simplify_eq.
  - intros Hn. exists id. rewrite Hn. split; [|done]. apply Hw. by rewrite Hn.
Qed.

Definition update_nodes (u : PeerUpdate) : list Node :=
  match u with Full ns => ns | Delta ups _ => ups end.

Definition is_full (u : PeerUpdate) : bool := match u with Full _ => true | Delta _ _ => false end.

Lemma full_update w nodes now s :
  walk_ok w -> ready now (Z.of_nat (length nodes)) s -> Forall node_ok nodes ->
  (C -> Forall (fun n => clean (key_signature n)) nodes) ->
  exists s' t, apply_peer_update w (Full nodes) now s = Ret (s', t) /\
    kept (Z.of_nat (length nodes)) s s' /\
    (C -> lock_but ∅ s').
Proof.
  intros Hw Hr Hok Hcl. unfold apply_peer_update. set (keep := tka_keep_verdicts _ _ _).
  assert (length keep = length nodes) as Hlen by apply keep_length.
  set (pred := fun (_ : PeerId) peer => bool_decide (stable_id peer ∈ retained_ids nodes keep)).
  destruct (retain_kept s (walk_peers w (peers (peer_db s))) pred (rd_inv _ _ _ Hr))
    as (db & -> & Hk & Hps). mrun.
  assert (length (zip nodes keep) = length nodes) as Hz by (rewrite length_zip_with; lia).
  destruct (full_loop now (zip nodes keep) (set_peer_db db s) ∅)
    as (s2 & ups2 & -> & Hm2 & Hnx2 & Hl2).
  { rewrite Hz. by apply (ready_kept now 0 _ s). }
  { apply Forall_lookup. intros i [n b] (? & ? & [= -> ->] & Hn & _)%lookup_zip_with_Some.
    by eapply Forall_lookup in Hok. }
  { apply Forall_lookup. intros i [n b] (? & ? & [= -> ->] & Hn & Hb)%lookup_zip_with_Some.
    cbn. intros ->. by eapply (kept_admitted _ (tka_authority s)). }
  { intros HC. apply Forall_lookup. intros i [n b] (? & ? & [= -> ->] & Hn & _)%lookup_zip_with_Some.
    specialize (Hcl HC). by eapply Forall_lookup in Hcl. }
  assert (C -> lock_but ∅ s2) as Hl.
  { intros HC. apply Hl2; [done|]. intros id n Hn. right. cbn in Hn. apply Hps in Hn as [Hn Hp].
    specialize (Hp ltac:(apply Hw; by rewrite Hn)). apply bool_decide_eq_true in Hp.
    unfold retained_ids in Hp. set_solver. }
  mrun. rewrite Hz in Hnx2. destruct Hk as [Hm1 Hnx1 _]. eexists _, _. split; [reflexivity|]. split; [|exact Hl].
  split; [|cbn in *; lia|].
  - etrans; [exact Hm1|]. etrans; [exact Hm2|]. apply prune_kept.
  - intros HC K _. eapply lock_but_mono, (Hl HC). set_solver.
Qed.

Lemma apply_peer_update_spec w u now s :
  walk_ok w -> ready now (Z.of_nat (length (update_nodes u))) s -> Forall node_ok (update_nodes u) ->
  (C -> Forall (fun n => clean (key_signature n)) (update_nodes u)) ->
  exists s' t, apply_peer_update w u now s = Ret (s', t) /\
    kept (Z.of_nat (length (update_nodes u))) s s' /\ (is_full u = true -> C -> lock_but ∅ s').
Proof.
  intros Hw Hr Hok Hcl. destruct u as [nodes|ups rms]; cbn [update_nodes is_full] in *.
  { destruct (full_update w nodes now s Hw Hr Hok Hcl) as (s' & t & H1' & H2' & H3'). by exists s', t. }
  unfold apply_peer_update.
  destruct (kept_loop (delta_upsert now) now 1 ups ltac:(lia)) with (s := s) (t := (∅, ∅) : gset Z * gset Z)
    as (s1 & t1 & -> & Hk1).
  { intros s0 t n Hn Hr0. apply delta_upsert_kept; [done|by eapply Forall_forall in Hok|].
    intros HC. specialize (Hcl HC). by eapply Forall_forall in Hcl. }
  { by rewrite Z.mul_1_l. }
  mrun. rewrite Z.mul_1_l in Hk1.
  destruct (kept_loop delta_remove now 0 rms ltac:(lia)) with (s := s1) (t := t1) as (s2 & t2 & -> & Hk2).
  { intros s0 t i _ Hr0. apply delta_remove_kept, Hr0. }
  { eapply ready_kept, Hk1. by rewrite Z.add_0_r. }
  mrun. eexists _, _. split; [reflexivity|]. split; [|done].
  pose proof (kept_trans _ _ _ _ _ (kept_trans _ _ _ _ _ Hk1 Hk2) (prune_kept s2)) as Hk.
  by rewrite Z.add_0_r, Z.mul_0_l, Z.add_0_r in Hk.
Qed.

(** *** Patches *)

Lemma patch_proj {T X} (f : Node -> X) (field : option T) (set : T -> Node -> Node) n :
  (forall v n, f (set v n) = f n) -> f (patch field set n) = f n.
Proof. intros Hf. by destruct field; cbn. Qed.

Lemma patched_keeps c s n :
  stable_id (patched c s n) = stable_id n /\ tailnet_address (patched c s n) = tailnet_address n /\
  accepted_routes (patched c s n) = accepted_routes n.
Proof.
  unfold patched. split_and!; repeat (rewrite patch_proj by done);
    match goal with |- ?f (set_disco_key _ ?x) = ?r => change (f x = r) end;
    by repeat (rewrite patch_proj by done).
Qed.

(** A known peer takes no identifier. *)
Lemma install_known s n now :
  ready now 0 s -> node_ok n -> known n (peer_db s) ->
  exists s' id, upsert_from_control n now s = Ret (s', id) /\ moved s s' /\
    next_id (peer_db s') = next_id (peer_db s) /\
    (forall x, known x (peer_db s) -> known x (peer_db s')) /\
    (forall m, stable_id m <> stable_id n ->
      trusted (tka_authority s) (expiry s) m -> trusted (tka_authority s) (expiry s') m) /\
    (forall K, trusted (tka_authority s) (expiry s) n \/ stable_id n ∈ K ->
      lock_but ({[stable_id n]} ∪ K) s -> lock_but K s').
Proof.
  intros [Hi Hc _] Hn Hk.
  destruct (install_trusted s n now Hi Hn) as (s' & id & Hr & Hm & _ & Hnx & Hkn & Ho & Hl);
    [by apply known_free|done|]. exists s', id. split_and!; auto.
Qed.

Lemma patched_signature c s n :
  key_signature (patched c s n) = default (key_signature n) (pc_key_signature c).
Proof.
  unfold patched. destruct (pc_key_signature c) as [sig|]; [done|]. cbn [patch default from_option].
  repeat (rewrite patch_proj by done).
  match goal with |- ?f (set_disco_key _ ?x) = ?r => change (f x = r) end.
  by repeat (rewrite patch_proj by done).
Qed.

(** The signature that a patch carries, if it carries one. *)
Definition patch_clean (c : PeerChange) : Prop :=
  forall sig, pc_key_signature c = Some sig -> clean sig.

Lemma patch_step_kept now s t c :
  ready now 0 s -> (C -> patch_clean c) -> exists s' t', patch_step now (s, t) c = Ret (s', t') /\ kept 0 s s'.
Proof.
  intros Hr Hcl. unfold patch_step. destruct t as [ups dels].
  destruct (peer_get_spec (peer_db s) (FNodeId (pc_id c)) (rd_inv _ _ _ Hr) I) as [->|(id & n & -> & Hn & _)]; mrun.
  { eexists _, _. split; [done|apply kept_refl]. }
  destruct (tka_admits (patched c s n) s) eqn:Ha; [|by apply delta_remove_kept, Hr].
  destruct (patched_keeps c s n) as (Hs & Hta & Har).
  destruct (install_known s (patched c s n) now Hr) as (s' & i & -> & Hm & Hnx & _ & _ & Hl).
  { eapply node_ok_ext; [done..|]. by eapply inv_nodes; [apply Hr|]. }
  { by exists id, n. }
  mrun. eexists _, _. split; [reflexivity|]. split; [done|lia|]. intros HC K HK.
  apply Hl; [|eapply lock_but_mono, HK; set_solver]. rewrite Hs.
  destruct (pc_key_signature c) as [sig|] eqn:Ec.
  - left. apply admits_trusted; [|done]. rewrite patched_signature, Ec. by apply (Hcl HC).
  - destruct (HK id n Hn) as [[Hn' _]|Hk]; [left|by right]. apply admits_trusted; [|done].
    by rewrite patched_signature, Ec.
Qed.

Lemma apply_patches_kept now s cs :
  ready now 0 s -> (C -> Forall patch_clean cs) ->
  exists s' t, apply_peer_patches cs now s = Ret (s', t) /\ kept 0 s s'.
Proof.
  intros Hr Hcl. unfold apply_peer_patches.
  destruct (kept_loop (patch_step now) now 0 cs ltac:(lia)) with (s := s) (t := (∅, ∅) : gset Z * gset Z)
    as (s1 & t1 & -> & Hk1); [|done|].
  { intros s0 t c Hc Hr0. apply patch_step_kept; [done|]. intros HC. specialize (Hcl HC).
    by eapply Forall_forall in Hcl. }
  mrun. eexists _, _. split; [reflexivity|].
  exact (kept_trans 0 0 _ _ _ Hk1 (prune_kept s1)).
Qed.

(** *** Peers installed again *)

Lemma set_disco_same n d : same_trust n (set_disco_key d n).
Proof. done. Qed.

(** A list of known peers, each trusted or excused, is installed. *)
Lemma reinstall_loop (f : PeerTracker -> Node -> Node) now
    (Hf : forall s n, same_trust n (f s n) /\ tailnet_address n = tailnet_address (f s n) /\
      accepted_routes n = accepted_routes (f s n)) ns : forall s (ups : gset PeerId),
  ready now 0 s -> NoDup (stable_id <$> ns) -> Forall node_ok ns ->
  Forall (fun n => known n (peer_db s)) ns ->
  exists s' ups', mfoldl (fun acc n =>
      let '(s, ups) := acc in
      '(s, id) ← upsert_from_control (f s n) now s; Ret (s, ups ∪ {[id]})) (s, ups) ns
    = Ret (s', ups') /\ moved s s' /\ next_id (peer_db s') = next_id (peer_db s) /\
    (forall K, (forall n, n ∈ ns -> trusted (tka_authority s) (expiry s) n \/ stable_id n ∈ K) ->
      lock_but (list_to_set (stable_id <$> ns) ∪ K) s -> lock_but K s').
Proof.
  induction ns as [|n ns IH]; intros s ups Hr Hnd Hok Hkn; cbn [mfoldl fmap list_fmap] in *.
  - exists s, ups. split_and!; [done..|]. intros K _. apply lock_but_mono. set_solver.
  - apply NoDup_cons in Hnd as [Hni Hnd]. apply Forall_cons in Hok as [Hn Hok].
    apply Forall_cons in Hkn as [Hk Hkn]. destruct (Hf s n) as (Hst & Hta & Har).
    pose proof Hst as (_ & _ & _ & Es).
    destruct (install_known s (f s n) now Hr) as (s1 & id & -> & Hm & Hnx & Hkn1 & Ho & Hl).
    { by eapply node_ok_ext. }
    { destruct Hk as (i & o & Hio & E). exists i, o. split; [done|congruence]. }
    cbn [mbind outcome_bind].
    destruct (IH s1 (ups ∪ {[id]})) as (s2 & ups2 & Hr2 & Hm2 & Hnx2 & Hl2); [|done|done| |].
    { by eapply ready_moved. }
    { eapply Forall_impl; [done|]. auto. }
    exists s2, ups2. split_and!; [exact Hr2|by etrans|congruence|]. intros K Ht HK. apply Hl2.
    + intros m Hmi. rewrite (moved_authority s s1 Hm).
      destruct (Ht m ltac:(set_solver)) as [Htm|Hmk]; [left; apply Ho; [|done]|by right].
      intros E. apply Hni. rewrite Es, <- E. by apply list_elem_of_fmap_2.
    + apply Hl; [|eapply lock_but_mono, HK; set_solver].
      destruct (Ht n ltac:(set_solver)) as [Htn|Hnk]; [left; by eapply trusted_ext|right].
      rewrite <- Es. set_solver.
Qed.

(** The peers as a walk finds them. *)
Lemma entries_distinct_ids w (db : PeerDb) :
  walk_ok w -> db_inv db -> NoDup (stable_id <$> (entries_of w db).*2).
Proof.
  intros Hw Hi. unfold entries_of. destruct (Hw (peers db)) as [Hnd _].
  induction Hnd as [|id l Hni Hnd IH]; cbn; [constructor|].
  destruct (peers db !! id) as [n|] eqn:Hn; cbn; [|done]. apply NoDup_cons. split; [|done].
  intros Hin. apply list_elem_of_fmap in Hin as (m & E & Hin). apply list_elem_of_fmap in Hin as ([i m'] & -> & Hin).
  apply list_elem_of_omap in Hin as (j & Hj & Ej). destruct (peers db !! j) as [o|] eqn:Ho; [|done].
  cbn in Ej. simplify_eq. by rewrite (stable_id_inj db id i n m') in Hni.
Qed.

Lemma entries_peers w (db : PeerDb) n :
  walk_ok w -> n ∈ (entries_of w db).*2 <-> exists id, peers db !! id = Some n.
Proof.
  intros Hw. rewrite list_elem_of_fmap. split.
  - intros ([id m] & -> & Hin). exists id. by apply (elem_of_entries_of w).
  - intros [id Hn]. exists (id, n). split; [done|]. by apply elem_of_entries_of.
Qed.

Lemma entries_ok w s :
  walk_ok w -> db_inv (peer_db s) ->
  Forall node_ok (entries_of w (peer_db s)).*2 /\
  Forall (fun n => known n (peer_db s)) (entries_of w (peer_db s)).*2.
Proof.
  intros Hw Hi. split; apply Forall_forall; intros n [id Hn]%(entries_peers w); try done.
  - by eapply inv_nodes.
  - by exists id, n.
Qed.

Lemma rebuild_kept w cs now s :
  walk_ok w -> ready now 0 s -> (C -> Forall patch_clean cs) ->
  exists s' t, rebuild_netmap_with_patches w cs now s = Ret (s', t) /\ kept 0 s s'.
Proof.
  intros Hw Hr Hcl. unfold rebuild_netmap_with_patches.
  destruct (apply_patches_kept now s cs Hr Hcl) as (s1 & [ups dels] & -> & Hk1). mrun.
  pose proof (ready_kept now 0 0 s s1 Hr Hk1) as Hr1. destruct (entries_ok w s1 Hw (rd_inv _ _ _ Hr1)) as [Hok Hkn].
  destruct (reinstall_loop (fun s n => set_disco_key (control_disco_key (node_key n) s) n) now)
    with (ns := (entries_of w (peer_db s1)).*2) (s := s1) (ups := ups)
    as (s2 & ups2 & Hl2 & Hm2 & Hnx2 & Hlk); try done.
  { by apply entries_distinct_ids, Hr1. }
  change (mfoldl (reinstall now) (s1, ups) (entries_of w (peer_db s1)).*2 = Ret (s2, ups2)) in Hl2.
  rewrite Hl2. mrun. eexists _, _. split; [reflexivity|]. apply (kept_trans 0 0 _ _ _ Hk1).
  split; [done|lia|]. intros _ K HK. apply Hlk; [|eapply lock_but_mono, HK; set_solver].
  intros n [id Hn]%(entries_peers w); [|done]. by apply (HK id).
Qed.

Lemma patch_set_kept w cs now s :
  walk_ok w -> ready now 0 s -> (C -> Forall patch_clean cs) ->
  exists s' t, apply_peer_patch_set w cs now s = Ret (s', t) /\ kept 0 s s'.
Proof.
  intros Hw Hr Hcl. unfold apply_peer_patch_set. destruct (match self_node s with Some _ => _ | None => _ end).
  - by apply rebuild_kept.
  - by apply apply_patches_kept.
Qed.

(** *** The expiry pass *)

Lemma flag_all_spec A now ps : forall M,
  dt_ok (now + clock_delta M) = true -> NoDup (stable_id <$> ps) ->
  exists M' fs, flag_all ps now M = Ret (M', fs) /\ clock_delta M' = clock_delta M /\
    (forall sid, sid ∉ stable_id <$> ps -> previously_expired M' !! sid = previously_expired M !! sid) /\
    sublist (stable_id <$> (Expiry.peer <$> fs)) (stable_id <$> ps) /\
    (forall p, p ∈ ps -> trusted A M p -> trusted A M' p \/ stable_id p ∈ stable_id <$> (Expiry.peer <$> fs)) /\
    (forall f, f ∈ Expiry.peer <$> fs -> exists p, p ∈ ps /\ stable_id f = stable_id p /\
      tailnet_address p = tailnet_address f /\ accepted_routes p = accepted_routes f /\
      (trusted A M p -> trusted A M' f)).
Proof.
  induction ps as [|p ps IH]; intros M Hdt Hnd; cbn [flag_all fmap list_fmap] in *.
  - exists M, []. split_and!; try done; cbn; set_solver.
  - apply NoDup_cons in Hnd as [Hni Hnd].
    destruct (flag_spec M p now Hdt) as (M1 & r & -> & Hc). mrun. pose proof (flag_case_delta _ _ _ _ _ Hc) as Hd1.
    destruct (IH M1) as (M2 & fs & -> & Hd2 & Hmemo & Hsub & Hps & Hfs); [by rewrite Hd1|done|].
    mrun. eexists _, _. split; [reflexivity|]. destruct (flag_keeps _ _ _ _ _ Hc) as (Hs & Hta & Har).
    assert (forall m, stable_id m = stable_id p -> trusted A M1 m -> trusted A M2 m) as Hp12.
    { intros m E. apply trusted_memo. apply Hmemo. by rewrite E. }
    assert (forall m, m ∈ ps -> trusted A M m -> trusted A M1 m) as Hother.
    { intros m Hm. apply trusted_memo. eapply flag_memo; [done|]. intros E. apply Hni. rewrite <- E.
      by apply list_elem_of_fmap_2. }
    split_and!.
    + congruence.
    + intros sid Hsid. rewrite Hmemo by set_solver. eapply flag_memo; [done|]. set_solver.
    + rewrite fmap_app. destruct r as [f|]; cbn in Hs |- *; [rewrite Hs; by constructor|by constructor].
    + intros q Hq Htq. rewrite fmap_app, fmap_app.
      apply elem_of_cons in Hq as [->|Hq]; [|destruct (Hps q Hq (Hother q Hq Htq)); [by left|right; set_solver]].
      destruct r as [f|]; [right; cbn in Hs |- *; rewrite Hs; set_solver|].
      left. apply Hp12; [done|]. exact (flag_trust A M p _ M1 None Hc Htq).
    + intros f Hf. rewrite fmap_app in Hf. apply elem_of_app in Hf as [Hf|Hf].
      * destruct r as [f'|]; [|by apply not_elem_of_nil in Hf]. apply list_elem_of_singleton in Hf as ->.
        exists p. cbn in Hs, Hta, Har. split_and!; [set_solver|done|done|done|]. intros Htp.
        apply Hp12; [done|]. exact (flag_trust A M p _ M1 (Some f') Hc Htp).
      * destruct (Hfs f Hf) as (q & Hq & E1 & E2 & E3 & E4). exists q. split_and!; [set_solver|done..|].
        intros Htq. by apply E4, Hother.
Qed.

Lemma reevaluate_expiry_kept w now s :
  walk_ok w -> ready now 0 s ->
  exists s' ups, reevaluate_expiry w now s = Ret (s', ups) /\ kept 0 s s'.
Proof.
  intros Hw Hr. unfold reevaluate_expiry. destruct (entries_ok w s Hw (rd_inv _ _ _ Hr)) as [Hok Hkn].
  destruct (flag_all_spec (tka_authority s) now (entries_of w (peer_db s)).*2 (expiry s))
    as (M' & fs & -> & Hd & Hmemo & Hsub & Hps & Hfs); [apply Hr|by apply entries_distinct_ids, Hr|].
  mrun. assert (moved s (set_expiry M' s)) as Hm by (by split).
  assert (forall K, lock_but K s -> lock_but (list_to_set (stable_id <$> (Expiry.peer <$> fs)) ∪ K) (set_expiry M' s)) as Hl0.
  { intros K HK id n Hn. cbn in Hn |- *. destruct (HK id n Hn) as [Ht|Hk]; [|right; set_solver].
    destruct (Hps n) as [?|?]; [by apply entries_peers; [|exists id]|done|by left|right; set_solver]. }
  destruct fs as [|f fs].
  { eexists _, _. split; [reflexivity|]. split; [done|cbn; lia|]. intros _ K HK.
    eapply lock_but_mono, (Hl0 K HK). set_solver. }
  set (ns := Expiry.peer <$> f :: fs) in *.
  assert (forall x, x ∈ ns -> exists id p, peers (peer_db s) !! id = Some p /\ stable_id x = stable_id p /\
    tailnet_address p = tailnet_address x /\ accepted_routes p = accepted_routes x /\
    (trusted (tka_authority s) (expiry s) p -> trusted (tka_authority s) M' x)) as Hns.
  { intros x (p & [id Hp]%(entries_peers w) & Hrest)%Hfs; [|done]. by exists id, p. }
  destruct (reinstall_loop (fun _ n => n) now) with (ns := ns) (s := set_expiry M' s) (ups := ∅ : gset PeerId)
    as (s2 & ups2 & Hl2 & Hm2 & Hnx2 & Hlk); try done.
  { by eapply ready_moved. }
  { eapply sublist_NoDup; [|exact Hsub]. by apply entries_distinct_ids, Hr. }
  { apply Forall_forall. intros x (id & p & Hp & _ & E1 & E2 & _)%Hns. eapply node_ok_ext; [done..|].
    by eapply inv_nodes; [apply Hr|]. }
  { apply Forall_forall. intros x (id & p & Hp & E & _)%Hns. by exists id, p. }
  change (mfoldl (install_flagged now) (set_expiry M' s, ∅) ns = Ret (s2, ups2)) in Hl2. rewrite Hl2. mrun.
  eexists _, _. split; [reflexivity|]. apply (kept_trans 0 0 _ s2); [|apply prune_kept].
  split; [by etrans|cbn in *; lia|]. intros _ K HK. apply Hlk; [|by apply Hl0].
  intros x (id & p & Hp & E & _ & _ & Ht)%Hns. cbn. destruct (HK id p Hp); [left; auto|right; congruence].
Qed.

(** *** Filtering against a new authority *)

Lemma zip_rejected {X} (l : list X) (keep : list bool) x :
  length keep = length l -> x ∈ l ->
  x ∈ fst <$> List.filter (fun e => negb e.2) (zip l keep) \/
  exists i, l !! i = Some x /\ keep !! i = Some true.
Proof.
  intros Hlen Hx. apply list_elem_of_lookup in Hx as [i Hi].
  destruct (lookup_lt_is_Some_2 keep i) as [b Hb]; [rewrite Hlen; by eapply lookup_lt_Some|].
  destruct b; [right; by exists i|left]. apply list_elem_of_fmap. exists (x, false). split; [done|].
  apply list_elem_of_In, filter_In. split; [|done]. apply list_elem_of_In, list_elem_of_lookup. exists i.
  apply lookup_zip_with_Some. by exists x, false.
Qed.

(** No peer is left that is not flagged and that the authority turns down. *)
Lemma tka_reevaluate_spec w s :
  walk_ok w -> db_inv (peer_db s) ->
  exists s' evicted, tka_reevaluate_peer_db w s = Ret (s', evicted) /\ kept 0 s s' /\
    (forall id n, peers (peer_db s') !! id = Some n -> peers (peer_db s) !! id = Some n) /\
    forall id n, peers (peer_db s') !! id = Some n -> expired n = false ->
      admits (tka_authority s) n = true.
Proof.
  intros Hw Hi. unfold tka_reevaluate_peer_db. destruct (tka_authority s) as [auth|] eqn:Ea.
  2: { exists s, ∅. split_and!; [done|apply kept_refl|done|done]. }
  set (es := List.filter (fun e => negb (expired e.2)) (entries_of w (peer_db s))). set (keep := tka_keep_verdicts _ _ _). set (evicted := list_to_set _ : gset PeerId).
  assert (forall id n, peers (peer_db s) !! id = Some n -> expired n = false -> id ∉ evicted ->
    admits (Some auth) n = true) as Hkeep.
  { intros id n Hn Hx Hne. assert ((id, n) ∈ es) as Hin.
    { apply list_elem_of_In, filter_In. split; [|cbn; by rewrite Hx].
      by apply list_elem_of_In, (elem_of_entries_of w). }
    destruct (zip_rejected es keep (id, n)) as [Hz|(i & Hes & Hk)]; [|done| |].
    - unfold keep. rewrite keep_length. by rewrite length_fmap.
    - destruct Hne. unfold evicted. apply elem_of_list_to_set.
      apply list_elem_of_fmap in Hz as ([[i m] b] & [= <- <-] & Hz). apply list_elem_of_fmap.
      by exists (id, n, b).
    - eapply kept_admitted; [|exact Hk]. by rewrite list_lookup_fmap, Hes. }
  case_decide as E.
  { exists s, ∅. split_and!; [done|apply kept_refl|done|]. intros id n Hn Hx. apply (Hkeep id n Hn Hx).
    rewrite E. set_solver. }
  destruct (retain_kept s (walk_peers w (peers (peer_db s)))
    (fun id _ => negb (bool_decide (id ∈ evicted))) Hi) as (db & -> & Hk & Hps). mrun.
  eexists _, _. split; [reflexivity|]. split_and!; [exact (kept_trans 0 0 _ _ _ Hk (prune_kept _))|by intros id n [Hn _]%Hps|].
  cbn. intros id n [Hn Hp]%Hps Hx. apply (Hkeep id n Hn Hx).
  specialize (Hp ltac:(apply Hw; by rewrite Hn)). apply negb_true_iff, bool_decide_eq_false in Hp. done.
Qed.

(** *** The timer *)

Lemma rearm_kept w now s :
  dt_ok (now + clock_delta (expiry s)) = true -> dt_ok (now + CLOCK_SKEW_EXPIRY_FLOOR) = true ->
  exists t, rearm_expiry_timer w now s = Ret (set_expiry_timer t s).
Proof.
  intros Hdt Hfl. unfold rearm_expiry_timer, next_peer_expiry. rewrite usable_now by done. mrun.
  unfold dt_add. rewrite Hfl. repeat case_match; eexists; reflexivity.
Qed.

(** *** Answers *)

Definition query_ok (q : Pending) : Prop :=
  match q with
  | PPeerByName _ _ | PStatus _ => True
  | PAcceptedRoute ip _ | PTailnetIp ip _ => ip_ok ip
  | PWhoIs socket _ => ip_ok (sa_ip socket)
  end.

Definition a_peer (db : PeerDb) n : Prop := exists id, peers db !! id = Some n.

(** Every peer that an answer names is in the database. *)
Definition answer_from (db : PeerDb) (a : Answer) : Prop :=
  match a with
  | ANode o => forall n, o = Some n -> a_peer db n
  | ANodes ns => forall n, n ∈ ns -> a_peer db n
  | AStatus ns => forall id sn, (id, sn) ∈ ns ->
      exists n, peers db !! id = Some n /\ sn = StatusNode_from_node n
  | AWhoIs o => forall r, o = Some r -> a_peer db (whois_node r)
  end.

(** What an output says of the database. *)
Definition output_ok (db : PeerDb) (o : Output) : Prop :=
  match o with
  | Reply _ a => answer_from db a
  | PublishWatch sns => forall sn, sn ∈ sns -> exists n, a_peer db n /\ sn = StatusNode_from_node n
  | PublishState _ _ db' _ => db' = db
  end.

Lemma get_answer (db : PeerDb) field :
  db_inv db -> field_ok field ->
  exists o, (r ← get field db; Ret (option_map snd r)) = Ret o /\ forall n, o = Some n -> a_peer db n.
Proof.
  intros Hi Hf. destruct (peer_get_spec db field Hi Hf) as [->|(id & n & -> & Hn & _)]; mrun.
  - by exists None.
  - exists (Some n). split; [done|]. intros m [= <-]. by exists id.
Qed.

Lemma route_answer (db : PeerDb) ip :
  db_inv db -> ip_ok ip ->
  exists l, (net ← host_prefix ip; l ← get_route net db; Ret l.*2) = Ret l /\
    forall n, n ∈ l -> a_peer db n.
Proof.
  intros Hi Hip. unfold host_prefix. destruct (new_assert_ok ip (8 * width (is_ipv4 ip))) as (net & -> & _ & _);
    [done|done|]. mrun. unfold get_route. destruct (inv_routes db Hi) as (m & Ht & Hm).
  destruct (table_rel_lookup_prefix _ m net Ht) as (o & -> & Hb). mrun.
  destruct (get_all_spec db (default [] o)) as (l & -> & _ & Hl).
  - intros id Hid. destruct o as [ids|]; [|by apply not_elem_of_nil in Hid].
    destruct Hb as (q & (_ & _ & Hq) & _). destruct (Hm q) as (_ & _ & Hin). rewrite Hq in Hin.
    apply Hin in Hid as (n & Hn & _). by rewrite Hn.
  - mrun. exists l.*2. split; [done|]. intros n ([i n'] & -> & Hn)%list_elem_of_fmap. exists i. by apply Hl.
Qed.

Definition reply_sender (o : Output) : option Sender :=
  match o with Reply r _ => Some r | _ => None end.

(** The senders replied to. *)
Definition senders (out : list Output) : list Sender := omap reply_sender out.

Lemma answer_spec w s q :
  walk_ok w -> db_inv (peer_db s) -> query_ok q ->
  exists o, answer w s q = Ret o /\ reply_sender o = Some (reply_to q) /\ output_ok (peer_db s) o.
Proof.
  intros Hw Hi Hq. destruct q as [name r|ip r|ip r|r|socket r]; cbn [answer reply_to query_ok] in *.
  - destruct (get_answer (peer_db s) (FName name) Hi I) as (o & E & Ho).
    unfold peer_by_name_opt. rewrite E. mrun. eexists. split_and!; [done|done|exact Ho].
  - destruct (route_answer (peer_db s) ip Hi Hq) as (o & E & Ho). unfold peers_by_accepted_route.
    rewrite E. mrun. eexists. split_and!; [done|done|exact Ho].
  - destruct (get_answer (peer_db s) (FIp ip) Hi Hq) as (o & E & Ho).
    unfold peer_by_tailnet_ip_opt. rewrite E. mrun. eexists. split_and!; [done|done|exact Ho].
  - eexists. split_and!; [done|done|]. intros id sn Hin. unfold status_peers_with_ids in Hin.
    apply list_elem_of_fmap in Hin as ([i n] & [= -> ->] & Hn). exists n. split; [|done].
    by apply (elem_of_entries_of w).
  - destruct (get_answer (peer_db s) (FIp (sa_ip socket)) Hi Hq) as (o & E & Ho).
    unfold whois_opt, peer_by_tailnet_ip_opt. rewrite E. mrun. eexists. split_and!; [done|done|].
    intros x Hx. destruct o as [n|]; [|done]. cbn in Hx. simplify_eq. cbn. by apply Ho.
Qed.

Lemma answer_all_spec w s qs :
  walk_ok w -> db_inv (peer_db s) -> Forall query_ok qs ->
  exists os, answer_all w s qs = Ret os /\ senders os = reply_to <$> qs /\
    Forall (output_ok (peer_db s)) os.
Proof.
  intros Hw Hi. induction 1 as [|q qs Hq Hqs (os & Hos & Hs & Hok)]; cbn [answer_all].
  - by exists [].
  - destruct (answer_spec w s q Hw Hi Hq) as (o & -> & Hr & Ho). mrun. rewrite Hos. mrun.
    exists (o :: os). split_and!; [done| |by constructor]. unfold senders in *. cbn. by rewrite Hr, Hs.
Qed.
End Operations.

(** ** The handlers *)

Section Handlers.
Context `{!IpNetOps, !IpNetLaws, !Chrono, !TkaCrypto}.
Implicit Types (n : Node) (s : PeerTracker) (K : gset str) (w : Walk) (out : list Output).
Context (C : Prop).

Record tracker_inv s : Prop := {
  ti_db : db_inv (peer_db s);
  ti_pending : seen_state_update s = true -> pending_requests s = [];
  ti_queries : Forall query_ok (pending_requests s);
}.

(** What a message does: the invariant holds again, what is emitted describes
    the new database, every query is replied to or queued, and, if [C]
    rules out signatures of broken keys, trust in the peers is kept, or, for a
    full update, established. *)
Record handled s s' out (new : list Sender) (full : bool) : Prop := {
  hd_inv : tracker_inv s';
  hd_out : Forall (output_ok (peer_db s')) out;
  hd_senders : senders out ++ (reply_to <$> pending_requests s')
    ≡ₚ (reply_to <$> pending_requests s) ++ new;
  hd_seen : seen_state_update s = true -> seen_state_update s' = true;
  hd_authority : tka_authority s' = tka_authority s;
  hd_lock : C -> forall K, lock_but K s -> lock_but K s';
  hd_full : full = true -> C -> lock_but ∅ s';
}.

Lemma senders_app out out' : senders (out ++ out') = senders out ++ senders out'.
Proof. apply omap_app. Qed.

(** Changes that no peer takes part in. *)
Definition same_peers s s' : Prop :=
  peer_db s' = peer_db s /\ expiry s' = expiry s /\ tka_authority s' = tka_authority s.

Lemma same_peers_lock s s' K : same_peers s s' -> lock_but K s -> lock_but K s'.
Proof. intros (Ed & Ee & Ea) Hl id n. rewrite Ed, Ee, Ea. apply Hl. Qed.

Lemma publish_ok w ups dels s :
  walk_ok w -> Forall (output_ok (peer_db s)) (publish w ups dels s) /\
    senders (publish w ups dels s) = [].
Proof.
  intros Hw. split; [|done]. repeat constructor. intros sn Hin. unfold status_peers in Hin.
  apply list_elem_of_fmap in Hin as (n & -> & [id Hn]%(entries_peers w)); [|done].
  exists n. split; [by exists id|done].
Qed.

Lemma kept_inv k s s' : kept C k s s' -> tracker_inv s -> tracker_inv s'.
Proof.
  intros [Hm _ _] [Hi Hp Hq]. pose proof (mv_frame _ _ Hm) as Hf. unfold frame in Hf. injection Hf as _ Es Ep.
  split; [by apply (mv_inv _ _ Hm)|by rewrite Es, Ep|by rewrite Ep].
Qed.

Lemma kept_pending k s s' : kept C k s s' -> pending_requests s' = pending_requests s.
Proof. intros [Hm _ _]. pose proof (mv_frame _ _ Hm) as Hf. unfold frame in Hf. congruence. Qed.

Lemma kept_seen k s s' : kept C k s s' -> seen_state_update s' = seen_state_update s.
Proof. intros [Hm _ _]. pose proof (mv_frame _ _ Hm) as Hf. unfold frame in Hf. congruence. Qed.

(** The queue is emptied once, at the first netmap. *)
Lemma service_spec w s :
  walk_ok w -> tracker_inv s ->
  exists os, service_pending_requests w s = Ret (set_requests true [] s, os) /\
    senders os = reply_to <$> pending_requests s /\ Forall (output_ok (peer_db s)) os.
Proof.
  intros Hw [Hi Hp Hq]. unfold service_pending_requests. destruct (seen_state_update s) eqn:Es.
  - exists []. rewrite Hp by done. split_and!; [|done|done]. do 2 f_equal. unfold set_requests.
    rewrite <- Es, <- (Hp eq_refl). by destruct s.
  - destruct (answer_all_spec w (set_requests true [] s) (pending_requests s) Hw Hi Hq)
      as (os & -> & Hs & Hok). by exists os.
Qed.

Lemma serviced_inv s : tracker_inv s -> tracker_inv (set_requests true [] s).
Proof. intros [Hi _ _]. by split. Qed.

(** The queue serviced and the database published. *)
Lemma service_publish w ups dels s :
  walk_ok w -> tracker_inv s ->
  exists s' out, ('(s, os) ← service_pending_requests w s; Ret (s, os ++ publish w ups dels s)) = Ret (s', out) /\
    s' = set_requests true [] s /\ tracker_inv s' /\ Forall (output_ok (peer_db s)) out /\
    senders out = reply_to <$> pending_requests s.
Proof.
  intros Hw Hi. destruct (service_spec w s Hw Hi) as (os & -> & Hs & Hok). mrun.
  destruct (publish_ok w ups dels (set_requests true [] s) Hw) as [Hpok Hps].
  eexists _, _. split; [reflexivity|]. split_and!; [done|by apply serviced_inv| |].
  - apply Forall_app. by split.
  - by rewrite senders_app, Hps, app_nil_r.
Qed.

Definition clock_ok (now : Z) (control_time : option Z) s : Prop :=
  dt_ok now = true /\ dt_ok (now + CLOCK_SKEW_EXPIRY_FLOOR) = true /\
  match control_time with
  | Some t => dt_ok t = true
  | None => dt_ok (now + clock_delta (expiry s)) = true
  end.

Lemma begin_update_spec msg now s :
  clock_ok now (su_control_time msg) s ->
  let s' := begin_update msg now s in
  peer_db s' = peer_db s /\ frame s' = frame s /\
  dt_ok (now + clock_delta (expiry s')) = true /\
  (forall K, lock_but K s -> lock_but K s').
Proof.
  intros (Hn & _ & Ht). unfold begin_update. destruct (su_node msg), (su_control_time msg) as [t|]; cbn;
    (split_and!; [done..| |done]); try done; unfold on_control_time; cbn;
    case_decide; rewrite ?Z.add_0_r; try done; by replace (now + (t - now)) with t by lia.
Qed.

Definition su_nodes (msg : StateUpdate) : list Node :=
  match su_peer_update msg with Some u => update_nodes u | None => [] end.

Definition su_full (msg : StateUpdate) : bool :=
  match su_peer_update msg with Some u => is_full u | None => false end.

(** No signature of the response is one of a broken key. *)
Definition msg_clean (msg : StateUpdate) : Prop :=
  Forall (fun n => clean (key_signature n)) (su_nodes msg) /\ Forall patch_clean (su_peer_patches msg).

(** The peers part of the handler. *)
Lemma apply_changes_spec w msg now s :
  walk_ok w -> ready now (Z.of_nat (length (su_nodes msg))) s -> Forall node_ok (su_nodes msg) ->
  (C -> msg_clean msg) ->
  exists s' t, apply_changes w msg now s = Ret (s', t) /\ ready now 0 s' /\
    kept C (Z.of_nat (length (su_nodes msg))) s s' /\
    (su_full msg = true -> C -> lock_but ∅ s').
Proof.
  intros Hw Hr Hok Hcl. unfold apply_changes.
  assert (exists s1 t1, match su_peer_update msg with
      | Some u => apply_peer_update w u now s
      | None => Ret (s, (∅, ∅))
      end = Ret (s1, t1) /\ kept C (Z.of_nat (length (su_nodes msg))) s s1 /\
    (su_full msg = true -> C -> lock_but ∅ s1))
    as (s1 & [ups dels] & -> & Hk1 & Hfull).
  { unfold msg_clean, su_nodes, su_full in *. destruct (su_peer_update msg) as [u|].
    - apply apply_peer_update_spec; [done..|]. intros HC. by apply Hcl.
    - exists s, (∅, ∅). split_and!; [done|apply kept_refl|done]. }
  mrun. assert (ready now 0 s1) as Hr1 by (eapply ready_kept, Hk1; by rewrite Z.add_0_r).
  assert (C -> Forall patch_clean (su_peer_patches msg)) as Hcl' by (intros HC; apply Hcl, HC).
  destruct (su_peer_patches msg) as [|c cs]; [by eexists _, _|].
  destruct (patch_set_kept C w (c :: cs) now s1 Hw Hr1 Hcl') as (s2 & [pu pd] & -> & Hk2). mrun.
  eexists _, _. split; [reflexivity|]. split_and!.
  - exact (ready_kept C now 0 0 s1 s2 Hr1 Hk2).
  - rewrite <- (Z.add_0_r (Z.of_nat _)). by eapply kept_trans.
  - intros Hf HC. apply (kp_lock _ _ _ _ Hk2 HC). by apply Hfull.
Qed.

Lemma timer_same t s : same_peers s (set_expiry_timer t s).
Proof. done. Qed.

Lemma finish_without_peers_spec w msg now changed s :
  walk_ok w -> tracker_inv s -> dt_ok (now + clock_delta (expiry s)) = true ->
  dt_ok (now + CLOCK_SKEW_EXPIRY_FLOOR) = true ->
  exists s' out, finish_without_peers w msg now changed s = Ret (s', out) /\ same_peers s s' /\
    tracker_inv s' /\ Forall (output_ok (peer_db s')) out /\
    senders out ++ (reply_to <$> pending_requests s') = reply_to <$> pending_requests s /\
    (seen_state_update s = true \/ is_Some (su_node msg) -> seen_state_update s' = true).
Proof.
  intros Hw Hi Hdt Hfl. unfold finish_without_peers.
  destruct (rearm_kept w now s Hdt Hfl) as (t & ->). mrun. set (s0 := set_expiry_timer t s).
  assert (tracker_inv s0) as Hi0 by (destruct Hi; by split).
  assert (exists s1 out1, (if bool_decide (is_Some (su_node msg)) && negb (seen_state_update s0) then
      '(s, os) ← service_pending_requests w s0; Ret (s, os ++ [PublishWatch (status_peers w s)])
    else Ret (s0, [])) = Ret (s1, out1) /\ same_peers s0 s1 /\ tracker_inv s1 /\
    Forall (output_ok (peer_db s0)) out1 /\
    senders out1 ++ (reply_to <$> pending_requests s1) = reply_to <$> pending_requests s /\
    (seen_state_update s = true \/ is_Some (su_node msg) -> seen_state_update s1 = true))
    as (s1 & out1 & -> & Hs1 & Hi1 & Hok1 & Hsn1 & Hse1).
  { destruct (_ && _) eqn:Eb.
    2: { exists s0, []. split_and!; try done. intros [Hse|Hn]; [done|]. apply andb_false_iff in Eb as [Eb|Eb].
         - by apply bool_decide_eq_false in Eb.
         - by apply negb_false_iff in Eb. }
    destruct (service_spec w s0 Hw Hi0) as (os & -> & Hs & Hok). mrun. eexists _, _. split; [reflexivity|].
    destruct (publish_ok w ∅ ∅ (set_requests true [] s0) Hw) as [Hpok _]. apply Forall_cons in Hpok as [Hpok _].
    split_and!; [done|by apply serviced_inv|apply Forall_app; split; [done|by constructor]| |done].
    rewrite senders_app, Hs. cbn. by rewrite !app_nil_r. }
  mrun. destruct changed; [|eexists _, _; split; [reflexivity|]; split_and!; try done].
  2: { destruct Hs1 as (Ed & _). by rewrite Ed. }
  destruct (service_publish w ∅ ∅ s1 Hw Hi1) as (s2 & out2 & Hr2 & Hs2 & Hi2 & Hok2 & Hsn2).
  apply bind_Ret_inv in Hr2 as ([s3 os] & -> & [= -> <-]). mrun.
  eexists _, _. split; [reflexivity|]. subst s2. destruct Hs1 as (Ed & Ee & Ea).
  split_and!; [done|done|cbn; rewrite Ed; apply Forall_app; split; [done|by rewrite <- Ed]| |done].
  rewrite senders_app, Hsn2. cbn. by rewrite app_nil_r.
Qed.

(** The response carries the node itself, peers or patches of them. *)
Definition su_netmap (msg : StateUpdate) : bool :=
  bool_decide (is_Some (su_node msg)) || negb (bool_decide (su_peer_update msg = None))
  || negb (bool_decide (su_peer_patches msg = [])).

Lemma handle_state_update_spec w msg now s :
  walk_ok w -> tracker_inv s -> clock_ok now (su_control_time msg) s ->
  Forall node_ok (su_nodes msg) -> (C -> msg_clean msg) ->
  next_id (peer_db s) + Z.of_nat (length (su_nodes msg)) < 2 ^ 32 ->
  exists s' out, handle_state_update w msg now s = Ret (s', out) /\ handled s s' out [] (su_full msg) /\
    (su_netmap msg = true -> seen_state_update s' = true).
Proof.
  intros Hw Hi Hck Hok Hcl Hnx. destruct (begin_update_spec msg now s Hck) as (Ed & Ef & Hdt & Hl0).
  destruct Hck as (_ & Hfl & _). unfold handle_state_update. set (s0 := begin_update msg now s) in *.
  injection Ef as Ea Es Ep.
  assert (ready now (Z.of_nat (length (su_nodes msg))) s0) as Hr0.
  { split; [rewrite Ed; apply Hi|done|by rewrite Ed]. }
  assert (tracker_inv s0) as Hi0.
  { destruct Hi as [Hi Hp Hq]. split; [by rewrite Ed|by rewrite Es, Ep|by rewrite Ep]. }
  destruct (liveness_kept C (su_online_change msg) (su_peer_seen_change msg) now s0) as (s1 & b & -> & Hk1);
    [eapply ready_le, Hr0; lia|]. mrun.
  pose proof (kept_inv _ _ _ Hk1 Hi0) as Hi1. pose proof (ready_kept C now 0 _ s0 s1 Hr0 Hk1) as Hr1.
  pose proof (kept_pending _ _ _ Hk1) as Ep1. pose proof (moved_authority _ _ (kp_moved _ _ _ _ Hk1)) as Ea1.
  case_match eqn:Enone.
  { apply andb_true_iff in Enone as [Eupd Epat]. pose proof (bool_decide_eq_true_1 _ Eupd) as E.
    destruct (finish_without_peers_spec w msg now b s1 Hw Hi1) as (s' & out & -> & Hs & Hi' & Hout & Hsn & Hse);
      [apply Hr1|done|]. rewrite (kept_seen _ _ _ Hk1), Es in Hse.
    exists s', out. split; [done|]. split.
    2: { unfold su_netmap. rewrite Eupd, Epat. cbn [negb]. rewrite !orb_false_r.
         intros Hn%bool_decide_eq_true. auto. }
    split; [done|done| |auto| | |].
    - by rewrite Hsn, Ep1, Ep, app_nil_r.
    - destruct Hs as (_ & _ & ->). congruence.
    - intros HC K HK. eapply same_peers_lock; [done|]. apply (kp_lock _ _ _ _ Hk1); auto.
    - unfold su_full. by rewrite E. }
  destruct (apply_changes_spec w msg now s1 Hw Hr1 Hok Hcl) as (s2 & [ups dels] & -> & Hr2 & Hk2 & Hfull). mrun.
  destruct (rearm_kept w now s2) as (t & ->); [apply Hr2|done|]. mrun.
  pose proof (kept_inv _ _ _ Hk2 Hi1) as Hi2.
  destruct (service_publish w ups dels (set_expiry_timer t s2) Hw) as (s' & out & -> & -> & Hi' & Hout & Hsn);
    [destruct Hi2; by split|].
  eexists _, _. split; [done|]. split; [|done]. split; [done|done| |done| | |].
  - rewrite Hsn. cbn. by rewrite (kept_pending _ _ _ Hk2), Ep1, Ep.
  - cbn. rewrite (moved_authority _ _ (kp_moved _ _ _ _ Hk2)). congruence.
  - intros HC K HK. apply (same_peers_lock s2); [done|].
    by apply (kp_lock _ _ _ _ Hk2 HC), (kp_lock _ _ _ _ Hk1 HC), Hl0.
  - intros Hfu HC. apply (same_peers_lock s2); [done|]. by apply Hfull.
Qed.

(** A handler that keeps the queue as it is. *)
Lemma kept_handled k s s' out new full :
  kept C k s s' -> tracker_inv s -> Forall (output_ok (peer_db s')) out -> senders out = new ->
  full = false -> handled s s' out new full.
Proof.
  intros Hk Hi Hout Hs ->. split; [by eapply kept_inv|done| |by rewrite (kept_seen _ _ _ Hk)| |apply Hk|done].
  - rewrite Hs, (kept_pending _ _ _ Hk). by rewrite Permutation_app_comm.
  - apply (moved_authority _ _ (kp_moved _ _ _ _ Hk)).
Qed.

(** *** Messages *)

(** What arrives: walks that visit every peer, clocks in chrono's range,
    peers the database can index (a peer that lists a route twice trips an
    assertion of [PeerDb]) and identifiers left for them. *)
Definition message_ok (m : Message) s : Prop :=
  match m with
  | MStateUpdate msg now w => walk_ok w /\ clock_ok now (su_control_time msg) s /\
      Forall node_ok (su_nodes msg) /\
      next_id (peer_db s) + Z.of_nat (length (su_nodes msg)) < 2 ^ 32
  | MExpiryTimerFired now w => walk_ok w /\ clock_ok now None s
  | MDiscoAdvertisement _ _ w | MDiscoObserved _ _ w | MTkaAuthorityChanged w | MAllPeers _ w => walk_ok w
  | MQuery q w => walk_ok w /\ query_ok q
  | MRepublishState | MPeerByStableId _ _ | AuthorityWritten _ => True
  end.

Definition message_clean (m : Message) : Prop :=
  match m with MStateUpdate msg _ _ => msg_clean msg | _ => True end.

Definition new_senders (m : Message) : list Sender :=
  match m with
  | MQuery q _ => [reply_to q]
  | MAllPeers r _ | MPeerByStableId _ r => [r]
  | _ => []
  end.

Definition full_message (m : Message) : bool :=
  match m with MStateUpdate msg _ _ => su_full msg | _ => false end.

(** The answer of control that ends the wait of the queries. *)
Definition brings_netmap (m : Message) : bool :=
  match m with MStateUpdate msg _ _ => su_netmap msg | _ => false end.

(** Everything but the control runner's write to the cell. *)
Definition handled_message (m : Message) : bool :=
  match m with AuthorityWritten _ => false | _ => true end.

Lemma handle_disco_handled s s' b w peer :
  walk_ok w -> kept C 0 s s' -> tracker_inv s ->
  handled s (handle_disco w peer (s', b)).1 (handle_disco w peer (s', b)).2 [] false.
Proof.
  intros Hw Hk Hi. destruct (publish_ok w {[peer]} ∅ s' Hw) as [Hok Hs].
  destruct b; cbn; by eapply kept_handled.
Qed.

Lemma query_handled w q s :
  walk_ok w -> query_ok q -> tracker_inv s ->
  exists s' out, handle_query w q s = Ret (s', out) /\ handled s s' out [reply_to q] false.
Proof.
  intros Hw Hq Hi. unfold handle_query. destruct (seen_state_update s) eqn:Es.
  - destruct (answer_spec w s q Hw (ti_db _ Hi) Hq) as (o & -> & Hr & Ho). mrun. eexists _, _. split; [done|].
    eapply (kept_handled 0); [apply kept_refl|done|by constructor| |done]. unfold senders. cbn. by rewrite Hr.
  - eexists _, _. split; [done|]. destruct Hi as [Hi Hp Hqs]. split; [|done| |by rewrite Es|done|done|done].
    + split; [done|done|]. cbn. apply Forall_app. split; [done|by apply Forall_singleton].
    + cbn. by rewrite fmap_app.
Qed.

Lemma expiry_timer_handled w now s :
  walk_ok w -> clock_ok now None s -> tracker_inv s ->
  exists s' out, handle_expiry_timer w now s = Ret (s', out) /\ handled s s' out [] false.
Proof.
  intros Hw (Hn & Hfl & Hdt) Hi. unfold handle_expiry_timer.
  assert (ready now 0 s) as Hr.
  { split; [apply Hi|done|]. pose proof (inv_next _ (ti_db _ Hi)). lia. }
  destruct (reevaluate_expiry_kept C w now s Hw Hr) as (s1 & ups & -> & Hk). mrun.
  destruct (rearm_kept w now s1) as (t & ->); [apply (ready_kept C now 0 0 s s1 Hr Hk)|done|]. mrun.
  assert (kept C 0 s (set_expiry_timer t s1)) as Hk' by (destruct Hk as [Hm Hx Hl]; split; [etrans; [exact Hm|by split]|done|done]).
  case_decide; [eexists _, _; split; [done|]; by eapply kept_handled|].
  destruct (service_publish w ups ∅ (set_expiry_timer t s1) Hw) as (s' & out & -> & -> & Hi' & Hout & Hsn);
    [by eapply kept_inv|]. eexists _, _. split; [done|]. split; [done|done| |done| | |done].
  - rewrite Hsn. cbn. by rewrite (kept_pending _ _ _ Hk).
  - apply (moved_authority _ _ (kp_moved _ _ _ _ Hk)).
  - intros HC K HK. by apply (kp_lock _ _ _ _ Hk' HC).
Qed.

Lemma without_netmap (h : outcome (PeerTracker * list Output)) s new full :
  (exists s' out, h = Ret (s', out) /\ handled s s' out new full) ->
  exists s' out, h = Ret (s', out) /\ handled s s' out new full /\
    (false = true -> seen_state_update s' = true).
Proof. intros (s' & out & -> & Hd). by exists s', out. Qed.

Lemma handle_spec m s :
  tracker_inv s -> message_ok m s -> (C -> message_clean m) -> handled_message m = true ->
  exists s' out, handle m s = Ret (s', out) /\ handled s s' out (new_senders m) (full_message m) /\
    (brings_netmap m = true -> seen_state_update s' = true).
Proof.
  intros Hi Hm Hcl Hh.
  destruct m as [msg now w|peer key w|peer key w|now w|w| |q w|r w|id r|a];
    cbn [handle message_ok new_senders full_message message_clean brings_netmap] in *;
    [destruct Hm as (Hw & Hck & Hok & Hnx); by apply handle_state_update_spec|..];
    apply without_netmap.
  - destruct (learn_spec C s peer key (ti_db _ Hi)) as (s' & b & -> & Hk & _). mrun.
    eexists _, _. split; [apply f_equal, surjective_pairing|]. by apply handle_disco_handled.
  - destruct (observe_spec C s peer key (ti_db _ Hi)) as (s' & b & -> & Hk & _). mrun.
    eexists _, _. split; [apply f_equal, surjective_pairing|]. by apply handle_disco_handled.
  - destruct Hm as [Hw Hck]. by apply expiry_timer_handled.
  - unfold handle_authority_changed.
    destruct (tka_reevaluate_spec C w s Hm (ti_db _ Hi)) as (s' & ev & -> & Hk & _ & _). mrun.
    destruct (publish_ok w ∅ ev s' Hm) as [Hok Hs].
    case_decide; (eexists _, _; split; [done|]); by eapply kept_handled.
  - eexists _, _. split; [done|]. eapply (kept_handled 0); [apply kept_refl|done|by constructor|done..].
  - destruct Hm as [Hw Hq]. by apply query_handled.
  - eexists _, _. split; [done|]. eapply (kept_handled 0); [apply kept_refl|done| |done..].
    constructor; [|done]. cbn. intros n [id Hn]%(entries_peers w); [by exists id|done].
  - destruct (get_answer (peer_db s) (FStableId id) (ti_db _ Hi) I) as (o & E & Ho).
    unfold peer_by_stable_id. rewrite E. mrun. eexists _, _. split; [done|].
    eapply (kept_handled 0); [apply kept_refl|done|by constructor|done..].
  - done.
Qed.
End Handlers.

(** ** What the tracker guarantees *)

Section Guarantees.
Context `{!IpNetOps, !IpNetLaws, !Chrono, !TkaCrypto}.
Implicit Types (A : option Authority) (n : Node) (s : PeerTracker) (m : Message).

Lemma written_handled a s :
  tracker_inv s -> tracker_inv (set_authority a s) /\ pending_requests (set_authority a s) = pending_requests s.
Proof. intros [Hi Hp Hq]. by split. Qed.

(** C10: no message makes the peer tracker panic, in any order: each is handled,
    the database stays well-formed, every snapshot published is the database
    after the message and every answer names peers of it.  A query is answered
    exactly once: it is queued or answered at once, and as soon as a response
    of control carries the node, peers or patches, that message answers all that
    wait, and from then on every query is answered by the message that brings
    it.  Of a message it is assumed that ([message_ok]) no peer lists a route
    twice, which the database asserts, tailnet addresses have no host bits,
    32-bit identifiers are left for its peers and clocks are in chrono's
    range. *)
Theorem tracker_messages_safe s m :
  tracker_inv s -> message_ok m s ->
  exists s' out, handle m s = Ret (s', out) /\ tracker_inv s' /\
    Forall (output_ok (peer_db s')) out /\
    senders out ++ (reply_to <$> pending_requests s')
      ≡ₚ (reply_to <$> pending_requests s) ++ new_senders m /\
    (seen_state_update s' = true -> pending_requests s' = []) /\
    (seen_state_update s = true \/ brings_netmap m = true ->
      seen_state_update s' = true /\
      senders out ≡ₚ (reply_to <$> pending_requests s) ++ new_senders m).
Proof.
  intros Hi Hm. destruct (handled_message m) eqn:Hh.
  - destruct (handle_spec False m s Hi Hm ltac:(done) Hh) as (s' & out & Hr & Hd & Hnm).
    destruct Hd as [Hi' Hout Hsn Hseen _ _ _]. exists s', out. split_and!; [done..|apply Hi'|].
    intros Hs. assert (seen_state_update s' = true) as Es by (destruct Hs; auto). split; [done|].
    rewrite (ti_pending _ Hi' Es), app_nil_r in Hsn. exact Hsn.
  - destruct m; try done. destruct (written_handled authority s Hi) as [Hi' _].
    eexists _, _. split_and!; [done|done|done|cbn; by rewrite app_nil_r|apply Hi'|].
    intros [Es|]; [|done]. split; [done|]. cbn. by rewrite (ti_pending _ Hi Es).
Qed.

(** The states in which the lock of [A] is enforced, while the authority stays:
    from the start; from any state in which a full netmap is applied under it;
    and from any state in which the message that announces a new authority is
    handled, if the peers flagged as expired at that time are vouched for (the
    handler skips them, see [flagged_peer_escapes_lock]). *)
Inductive enforced A : PeerTracker -> Prop :=
| enf_start : enforced A (PeerTracker_new A)
| enf_resync s m s' out :
    tracker_inv s -> tka_authority s = A -> message_ok m s -> message_clean m ->
    full_message m = true -> handle m s = Ret (s', out) -> enforced A s'
| enf_changed s w s' out :
    tracker_inv s -> tka_authority s = A -> walk_ok w ->
    (forall id n, peers (peer_db s) !! id = Some n ->
      clean (key_signature n) /\ (expired n = true -> vouched A (expiry s) n)) ->
    handle (MTkaAuthorityChanged w) s = Ret (s', out) -> enforced A s'
| enf_step s m s' out :
    enforced A s -> message_ok m s -> message_clean m -> handled_message m = true ->
    handle m s = Ret (s', out) -> enforced A s'.

Lemma tracker_inv_new A : tracker_inv (PeerTracker_new A).
Proof. split; [apply db_inv_default|done|constructor]. Qed.

Lemma handled_step m s s' out :
  tracker_inv s -> message_ok m s -> message_clean m -> handled_message m = true ->
  handle m s = Ret (s', out) ->
  handled True s s' out (new_senders m) (full_message m).
Proof.
  intros Hi Hm Hcl Hh Hr. destruct (handle_spec True m s Hi Hm (fun _ => Hcl) Hh) as (s1 & out1 & Hr1 & Hd & _).
  rewrite Hr1 in Hr. by simplify_eq.
Qed.

(** What the handler of the message does to the peers. *)
Lemma authority_changed_spec w s :
  walk_ok w -> tracker_inv s ->
  exists s' out, handle (MTkaAuthorityChanged w) s = Ret (s', out) /\
    forall id n, peers (peer_db s') !! id = Some n ->
      peers (peer_db s) !! id = Some n /\
      (expired n = false -> admits (tka_authority s) n = true).
Proof.
  intros Hw Hi. cbn [handle]. unfold handle_authority_changed.
  destruct (tka_reevaluate_spec True w s Hw (ti_db _ Hi)) as (s' & ev & Hr & Hk & Hsub & Ha). rewrite Hr. mrun.
  case_decide; (eexists _, _; split; [done|]); eauto.
Qed.

(** The stable ids of the peers that are not flagged. *)
Definition unflagged s : gset str :=
  list_to_set ((stable_id ∘ snd) <$> filter (fun e => expired e.2 = false) (map_to_list (peers (peer_db s)))).

Lemma unflagged_peer s id n :
  db_inv (peer_db s) -> peers (peer_db s) !! id = Some n -> stable_id n ∈ unflagged s -> expired n = false.
Proof.
  intros Hi Hn Hu. apply elem_of_list_to_set, list_elem_of_fmap in Hu as ([i m] & Es & Hm).
  apply list_elem_of_filter in Hm as [Hx Hm%elem_of_map_to_list]. cbn in *.
  pose proof (inv_sid_all _ Hi id n Hn) as E1. pose proof (inv_sid_all _ Hi i m Hm) as E2.
  rewrite Es, E2 in E1. injection E1 as ->. congruence.
Qed.

(** The peers that the handler leaves are trusted. *)
Lemma changed_locked w s s' out :
  tracker_inv s -> walk_ok w ->
  (forall id n, peers (peer_db s) !! id = Some n ->
    clean (key_signature n) /\ (expired n = true -> vouched (tka_authority s) (expiry s) n)) ->
  handle (MTkaAuthorityChanged w) s = Ret (s', out) ->
  tracker_inv s' /\ tka_authority s' = tka_authority s /\ lock_but ∅ s'.
Proof.
  intros Hi Hw Hold Hr. destruct (authority_changed_spec w s Hw Hi) as (s1 & out1 & Hr1 & Hleft).
  rewrite Hr1 in Hr. injection Hr as -> ->.
  destruct (handled_step (MTkaAuthorityChanged w) s s' out Hi Hw I eq_refl Hr1) as [Hi' _ _ _ Ea Hlock _].
  split_and!; [done|done|].
  assert (lock_but (unflagged s) s) as Hl0.
  { intros id n Hn. destruct (Hold id n Hn) as [Hc Hv]. destruct (expired n) eqn:Ex; [left; by split; auto|right].
    apply elem_of_list_to_set, list_elem_of_fmap. exists (id, n). split; [done|].
    apply list_elem_of_filter. split; [done|by apply elem_of_map_to_list]. }
  intros id n Hn. left. destruct (Hleft id n Hn) as [Hn0 Had]. destruct (Hold id n Hn0) as [Hc _].
  destruct (Hlock I _ Hl0 id n Hn) as [Ht|Hu]; [done|]. split; [done|]. left. rewrite Ea. apply Had.
  by eapply (unflagged_peer s); [apply Hi|..].
Qed.

Lemma enforced_locked A s :
  enforced A s -> tracker_inv s /\ tka_authority s = A /\ lock_but ∅ s.
Proof.
  induction 1 as [|s m s' out Hi Ha Hm Hcl Hf Hr|s w s' out Hi Ha Hw Hold Hr|s m s' out _ (Hi & Ha & Hl) Hm Hcl Hh Hr].
  - split_and!; [apply tracker_inv_new|done|]. intros id n Hn. cbn in Hn. by apply lookup_empty_Some in Hn.
  - assert (handled_message m = true) as Hh by (by destruct m).
    destruct (handled_step m s s' out Hi Hm Hcl Hh Hr) as [Hi' _ _ _ Ea _ Hfull].
    split_and!; [done|congruence|by apply Hfull].
  - subst A. by eapply changed_locked.
  - destruct (handled_step m s s' out Hi Hm Hcl Hh Hr) as [Hi' _ _ _ Ea Hlock _].
    split_and!; [done|congruence|by apply Hlock].
Qed.

(** C2: once tailnet lock is enforced ([enforced]: from the start, or since a
    full netmap or a change of the authority was handled under it), every peer
    of the netmap is one that the authority vouches for, whatever control sends
    (full netmaps, deltas, patches, clock changes, disco keys): the authority
    accepts the peer's signature, or the peer is one the client has itself
    flagged as expired and the authority accepts its signature for the node key
    it had.  The messages are those of [message_ok] (no peer lists a route
    twice, clocks in range) and [message_clean]: no signature is over a key with
    the marker with which the client breaks the keys of expired peers.  The
    authority is the one in the cell, read once per message. *)
Theorem tailnet_lock_enforced A s id n :
  enforced A s -> peers (peer_db s) !! id = Some n ->
  vouched A (expiry s) n /\ (expired n = false -> admits A n = true).
Proof.
  intros (_ & <- & Hl)%enforced_locked Hn.
  assert (vouched (tka_authority s) (expiry s) n) as Hv by (by destruct (Hl id n Hn) as [[]|]).
  split; [done|]. intros Hx. destruct Hv as [?|[Hx' _]]; [done|congruence].
Qed.

(** C7: from a verified chain to the netmap: while the lock with the authority of
    a chain that verifies is enforced (see [enforced]: messages with distinct
    routes and without signatures over marked keys), each unexpired peer of the netmap presents a signature of its own
    node key, rooted in a key that a message of the chain brought in, signed in
    turn by keys trusted at that point. *)
Theorem locked_peers_trace_back aums c s id n :
  verify aums = inr c -> enforced (Some (from_verified_chain c)) s ->
  peers (peer_db s) !! id = Some n -> expired n = false ->
  exists sig root i a signed_by,
    decode_node_key_signature (key_signature n) = inr sig /\ nks_pubkey sig = node_key n /\
    last (links sig) = Some root /\
    zip_valid (nks_key_id root) (nks_sig_hash root) (nks_signature root) /\
    aums !! i = Some a /\ introduces a (nks_key_id root) /\
    signers aums i = inr signed_by /\ signed signed_by a.
Proof.
  intros Hv (_ & Ha & Hl)%enforced_locked Hn Hx.
  assert (admits (Some (from_verified_chain c)) n = true) as Had.
  { destruct (Hl id n Hn) as [[_ [?|[? _]]]|?]; [congruence|congruence|done]. }
  pose proof (verified_good _ _ Hv) as [_ _ Hne]. unfold admits, tka_snapshot_admits in Had.
  destruct (st_keys (au_state (from_verified_chain c))) as [|k ks] eqn:Ek.
  { unfold from_verified_chain, to_state in Ek. cbn in Ek. by apply fmap_nil_inv in Ek. }
  destruct (key_signature n) as [|b bs]; [done|].
  destruct (node_key_authorized_with_details _ _ _) as [|d] eqn:E; [done|].
  apply authorized_details_iff in E as (sig & root & Hd & (_ & Hp & Hla & _ & _ & Ht & Hz & _) & _).
  apply key_trusted_iff, trusted_ids in Ht.
  destruct (verified_introduced _ _ _ Hv Ht) as (i & a & sb & ? & ? & ? & ?).
  by exists sig, root, i, a, sb.
Qed.

(** C30: when the authority changes, the message is handled without a panic and
    the database afterwards holds only peers that it held before, unchanged;
    each of them is flagged as expired or has a signature that the authority
    accepts. *)
Theorem authority_change_evicts w s :
  walk_ok w -> tracker_inv s ->
  exists s' out, handle (MTkaAuthorityChanged w) s = Ret (s', out) /\
    forall id n, peers (peer_db s') !! id = Some n ->
      peers (peer_db s) !! id = Some n /\
      (expired n = false -> admits (tka_authority s) n = true).
Proof.
  intros Hw Hi. by apply authority_changed_spec.
Qed.

(** Disco received from a peer under a key changes the state exactly when
    the key is one of the two known for the peer and not the active one; it
    then becomes the peer's key, and every other key is refused. *)
Theorem observed_key_exact s peer key :
  db_inv (peer_db s) ->
  exists s' switched, observe_disco_key peer key s = Ret (s', switched) /\
    (switched = true <-> exists n d, peers (peer_db s) !! peer = Some n /\
      endpoint_disco s !! node_key n = Some d /\ known_disco key d /\ active_key d <> Some key) /\
    (switched = true -> exists n, peers (peer_db s) !! peer = Some n /\
      peers (peer_db s') = <[peer := set_disco_key (Some key) n]> (peers (peer_db s))) /\
    (switched = false -> s' = s).
Proof.
  intros Hi. destruct (observe_spec True s peer key Hi) as (s' & b & Hr & _ & Hb). exists s', b.
  split; [done|]. destruct b.
  - destruct Hb as (n & d & d' & Hn & Hd & Hkn & Hne & _ & _ & _ & _ & Hps). split_and!; [|by exists n|done].
    split; [intros _; by exists n, d|done].
  - destruct Hb as [-> Hno]. split_and!; [|done|done]. split; [done|].
    intros (n & d & Hn & Hd & Hk & Hne). by destruct Hne; apply (Hno n).
Qed.

Lemma disco_from_control_tsmp s (m : Node) d key :
  endpoint_disco s !! node_key m = Some d -> tsmp d = Some key -> tsmp_active d = true ->
  active_key (disco_from_control m s) = Some key.
Proof.
  intros Hd Ht Ha. unfold disco_from_control. rewrite Hd. cbn. case_decide; unfold active_key; cbn; by rewrite Ha.
Qed.

(** A disco key that a peer has advertised stays the key used for it when
    control next describes the peer, whatever disco key control gives. *)
Theorem advertised_key_survives s peer key s1 n (m : Node) now :
  db_inv (peer_db s) -> learn_disco_key peer key s = Ret (s1, true) ->
  peers (peer_db s1) !! peer = Some n -> stable_id m = stable_id n -> node_key m = node_key n ->
  node_ok m -> dt_ok (now + clock_delta (expiry s1)) = true ->
  node_key_expiry m = None -> previously_expired (expiry s1) !! stable_id m = None ->
  exists s2 (m' : Node), upsert_from_control m now s1 = Ret (s2, peer) /\
    peers (peer_db s2) !! peer = Some m' /\ disco_key m' = Some key /\ node_key m' = node_key m.
Proof.
  intros Hi Hr Hn Es Ek Hok Hdt Hx Hmemo.
  destruct (learn_spec True s peer key Hi) as (s1' & b & Hr' & Hk & Hb). rewrite Hr' in Hr. simplify_eq.
  destruct Hb as (o & Ho & _ & Hps & d & Hd & Ht & Ha & _).
  rewrite Hps, lookup_insert_eq in Hn. simplify_eq. cbn in Es, Ek.
  pose proof (mv_inv _ _ (kp_moved _ _ _ _ Hk) Hi) as Hi1.
  assert (peers (peer_db s1) !! peer = Some (set_disco_key (Some key) o)) as Hp1
    by (rewrite Hps; apply lookup_insert_eq).
  assert (known m (peer_db s1)) as Hkn by (by exists peer, (set_disco_key (Some key) o)).
  destruct (upsert_from_control_spec s1 m now Hi1 Hok (known_free _ _ Hi1 Hkn) Hdt)
    as (s2 & r & Hr2 & Hc & _ & Hps2 & _).
  rewrite (known_upsert_id m peer (set_disco_key (Some key) o)) in Hr2, Hps2 by done.
  assert (r = None) as ->.
  { destruct Hc as [| |pr ? ? Hpr|pr ? ? Hpr|? Hko|? ? Hko]; try done; try congruence.
    destruct Hko as (e & He & _). congruence. }
  eexists s2, _. split_and!; [exact Hr2|rewrite Hps2; apply lookup_insert_eq| |done].
  cbn. eapply disco_from_control_tsmp; [|done|done]. rewrite Hd, Ek. apply lookup_insert_eq.
Qed.
End Guarantees.

(** ** Examples *)

#[local] Existing Instances ToyTka.toy_tka ToyTka.toy_tka_laws.
Import DemoClock.

Module DemoTracker.
(** Hash maps walked in the order of their representation. *)
Definition walk : Walk := mkWalk (fun ps => (map_to_list ps).*1) (fun gs => (map_to_list gs).*1).

Lemma demo_walk_ok : walk_ok walk.
Proof.
  intros ps. split; [apply NoDup_fst_map_to_list|]. intros id. unfold walk. cbn [walk_peers]. split.
  - intros ([i n] & -> & Hn)%list_elem_of_fmap. apply elem_of_map_to_list in Hn. by exists n.
  - intros [n Hn]. apply list_elem_of_fmap. exists (id, n). split; [done|]. by apply elem_of_map_to_list.
Qed.

(** The state after a message that is handled. *)
Definition after (m : Message) (s : PeerTracker) : PeerTracker :=
  match handle m s with Ret (s', _) => s' | Panic => s end.

Definition emitted (m : Message) (s : PeerTracker) : list Output :=
  match handle m s with Ret (_, out) => out | Panic => [] end.

Lemma after_handled m s : panics (handle m s) = false -> handle m s = Ret (after m s, emitted m s).
Proof. unfold after, emitted. by destruct (handle m s) as [[]|]. Qed.

Definition update (u : option PeerUpdate) (patches : list PeerChange) (control_time : option Z)
    (now : Z) : Message :=
  MStateUpdate (mkStateUpdate None u patches [] [] [] control_time) now walk.

Definition netmap (ns : list Node) (now : Z) : Message := update (Some (Full ns)) [] None now.

Definition extend_expiry (id e : Z) : PeerChange :=
  mkPeerChange id None None None None None None None (Some e) None None.

Definition sign_with (id : Z) (signature : list Z) : PeerChange :=
  mkPeerChange id None None None None None (Some signature) None None None None.

Definition lock : Authority := DemoLock.lock.
Definition dave : Node := DemoLock.signed (bytes_of_string "dave") 1 7.
Definition eve : Node := DemoLock.peer (bytes_of_string "eve") 2 (replicate 32 9) [].
Definition expiring (n : Node) : Node := set_node_key_expiry (Some today) n.

(** A signature of a key that does not start like a broken one. *)
Lemma clean_by_head signature :
  match decode_node_key_signature signature with
  | inr sig => bool_decide (head (nks_pubkey sig) = Some 109)
  | inl _ => false
  end = false -> clean signature.
Proof.
  intros Hh sig key Hd. rewrite Hd in Hh. apply bool_decide_eq_false in Hh. intros E. apply Hh. by rewrite E.
Qed.

Lemma netmap_ok n s now :
  node_ok n -> next_id (peer_db s) + 1 < 2 ^ 32 -> clock_ok now None s ->
  message_ok (netmap [n] now) s.
Proof.
  intros Hn Hx Hc. split_and!; [apply demo_walk_ok|done| |done].
  by apply Forall_singleton.
Qed.

Lemma dave_ok : node_ok dave.
Proof. apply DemoPeers.demo_node_ok. vm_compute. reflexivity. Qed.

Lemma dave_clean : message_clean (netmap [dave] today).
Proof.
  split; [|constructor]. apply Forall_singleton, clean_by_head. vm_compute. reflexivity.
Qed.

Lemma today_ok A : message_ok (netmap [dave] today) (PeerTracker_new A).
Proof. apply netmap_ok; [apply dave_ok|done|]. by split_and!. Qed.

(** The tracker of a locked tailnet with one peer. *)
Definition locked : PeerTracker := after (netmap [dave] today) (PeerTracker_new (Some lock)).

Lemma locked_handled :
  handle (netmap [dave] today) (PeerTracker_new (Some lock))
    = Ret (locked, emitted (netmap [dave] today) (PeerTracker_new (Some lock))).
Proof. apply after_handled. vm_compute. reflexivity. Qed.

Lemma locked_enforced : enforced (Some lock) locked.
Proof.
  eapply (enf_step (Some lock)); [apply enf_start|apply today_ok|apply dave_clean|done|apply locked_handled].
Qed.

(** Whether the peer with an identifier has a property. *)
Definition peer_is (id : PeerId) (f : Node -> bool) (s : PeerTracker) : bool :=
  match peers (peer_db s) !! id with Some n => f n | None => false end.

Lemma peer_is_true id f s : peer_is id f s = true -> exists n, peers (peer_db s) !! id = Some n /\ f n = true.
Proof. unfold peer_is. destruct (peers (peer_db s) !! id) as [n|]; [by exists n|done]. Qed.
End DemoTracker.
Import DemoTracker.

(** A tracker with a query that waits for the first netmap. *)
Definition waiting : PeerTracker := after (MQuery (PStatus 5) walk) (PeerTracker_new None).

Lemma tracker_messages_safe_witness :
  exists s' out, handle (netmap [dave] today) waiting = Ret (s', out) /\ tracker_inv s' /\
    Forall (output_ok (peer_db s')) out /\
    senders out ++ (reply_to <$> pending_requests s')
      ≡ₚ (reply_to <$> pending_requests waiting) ++ new_senders (netmap [dave] today) /\
    (seen_state_update s' = true -> pending_requests s' = []) /\
    (seen_state_update waiting = true \/ brings_netmap (netmap [dave] today) = true ->
      seen_state_update s' = true /\
      senders out ≡ₚ (reply_to <$> pending_requests waiting) ++ new_senders (netmap [dave] today)).
Proof.
  apply tracker_messages_safe.
  - split; [apply db_inv_default|done|by repeat constructor].
  - apply netmap_ok; [apply dave_ok|done|]. by split_and!.
Defined.

(** A tracker that learns of the lock after its first netmap. *)
Definition unlocked : PeerTracker := after (netmap [dave] today) (PeerTracker_new None).
Definition late : PeerTracker := after (AuthorityWritten (Some lock)) unlocked.
Definition late_locked : PeerTracker := after (MTkaAuthorityChanged walk) late.

Lemma unlocked_enforced : enforced None unlocked.
Proof.
  eapply (enf_step None); [apply enf_start|apply today_ok|apply dave_clean|done|].
  apply after_handled. vm_compute. reflexivity.
Qed.

Lemma late_enforced : enforced (Some lock) late_locked.
Proof.
  destruct (enforced_locked _ _ unlocked_enforced) as (Hi & _ & Hl).
  eapply (enf_changed _ late walk); [by apply (written_handled (Some lock))|done|apply demo_walk_ok| |].
  - intros id n Hn. change (peer_db late) with (peer_db unlocked) in Hn.
    split; [by destruct (Hl id n Hn) as [[]|]|]. intros Hx.
    assert (map_Forall (fun _ n => expired n = false) (peers (peer_db unlocked))) as Hall
      by (apply (bool_decide_unpack _); vm_compute; exact I).
    specialize (Hall id n Hn). cbn in Hall. congruence.
  - apply after_handled. vm_compute. reflexivity.
Qed.

Lemma tailnet_lock_enforced_witness :
  exists n, peers (peer_db late_locked) !! 0 = Some n /\
    vouched (Some lock) (expiry late_locked) n /\ (expired n = false -> admits (Some lock) n = true).
Proof.
  destruct (peer_is_true 0 (fun _ => true) late_locked) as (n & Hn & _); [vm_compute; reflexivity|].
  exists n. split; [exact Hn|]. exact (tailnet_lock_enforced (Some lock) late_locked 0 n late_enforced Hn).
Defined.

Lemma authority_change_evicts_witness :
  exists s' out, handle (MTkaAuthorityChanged walk) locked = Ret (s', out) /\
    forall id n, peers (peer_db s') !! id = Some n ->
      peers (peer_db locked) !! id = Some n /\
      (expired n = false -> admits (tka_authority locked) n = true).
Proof.
  apply authority_change_evicts; [apply demo_walk_ok|]. apply (enforced_locked (Some lock)), locked_enforced.
Defined.

(** A peer signed by the second key of the example chain. *)
Definition chained : Node :=
  DemoLock.peer (bytes_of_string "chained") 1 (replicate 32 7)
    (nks_serialize (sign_direct (replicate 32 7) (4 : SigningKey))).

Definition chain_authority : Authority :=
  from_verified_chain (mkVerified DemoChain.state (hash DemoChain.second)).

Definition chain_locked : PeerTracker := after (netmap [chained] today) (PeerTracker_new (Some chain_authority)).

Lemma chain_locked_enforced : enforced (Some chain_authority) chain_locked.
Proof.
  eapply (enf_step _ _ (netmap [chained] today)); [apply enf_start| | |done|apply after_handled; vm_compute; reflexivity].
  - apply netmap_ok; [apply DemoPeers.demo_node_ok; vm_compute; reflexivity|done|by split_and!].
  - split; [|constructor]. apply Forall_singleton, clean_by_head. vm_compute. reflexivity.
Qed.

Lemma locked_peers_trace_back_witness :
  exists n sig root i a signed_by, peers (peer_db chain_locked) !! 0 = Some n /\
    decode_node_key_signature (key_signature n) = inr sig /\ nks_pubkey sig = node_key n /\
    last (links sig) = Some root /\
    zip_valid (nks_key_id root) (nks_sig_hash root) (nks_signature root) /\
    DemoChain.chain !! i = Some a /\ introduces a (nks_key_id root) /\
    signers DemoChain.chain i = inr signed_by /\ signed signed_by a.
Proof.
  destruct (peer_is_true 0 (fun n => negb (expired n)) chain_locked) as (n & Hn & Hx); [vm_compute; reflexivity|].
  destruct (locked_peers_trace_back DemoChain.chain (mkVerified DemoChain.state (hash DemoChain.second))
    chain_locked 0 n) as (sig & root & i & a & sb & Hrest).
  - apply DemoChain.chain_verifies.
  - apply chain_locked_enforced.
  - exact Hn.
  - by apply negb_true_iff.
  - exists n, sig, root, i, a, sb. split; [exact Hn|exact Hrest].
Defined.

Lemma observed_key_exact_witness :
  exists s' switched, observe_disco_key 0 (replicate 32 5) locked = Ret (s', switched) /\
    (switched = true <-> exists n d, peers (peer_db locked) !! 0 = Some n /\
      endpoint_disco locked !! node_key n = Some d /\ known_disco (replicate 32 5) d /\
      active_key d <> Some (replicate 32 5)) /\
    (switched = true -> exists n, peers (peer_db locked) !! 0 = Some n /\
      peers (peer_db s') = <[0 := set_disco_key (Some (replicate 32 5)) n]> (peers (peer_db locked))) /\
    (switched = false -> s' = locked).
Proof.
  apply observed_key_exact. apply (enforced_locked (Some lock)), locked_enforced.
Defined.

(** The state and the answer of an operation that returns. *)
Definition result_of (s : PeerTracker) (r : outcome (PeerTracker * bool)) : PeerTracker * bool :=
  match r with Ret r => r | Panic => (s, false) end.

Lemma result_eq s r : (result_of s r).2 = true -> r = Ret ((result_of s r).1, true).
Proof. destruct r as [[s' b]|]; [|done]. by intros <-. Qed.

(** The tracker after the peer has advertised a key. *)
Definition advertised : PeerTracker := (result_of locked (learn_disco_key 0 (replicate 32 5) locked)).1.

Lemma advertised_eq : learn_disco_key 0 (replicate 32 5) locked = Ret (advertised, true).
Proof. apply result_eq. vm_compute. reflexivity. Qed.

(** Control gives another key. *)
Definition dave_restated : Node := set_disco_key (Some (replicate 32 6)) dave.

Lemma advertised_key_survives_witness :
  exists s2 m', upsert_from_control dave_restated today advertised = Ret (s2, 0) /\
    peers (peer_db s2) !! 0 = Some m' /\ disco_key m' = Some (replicate 32 5) /\
    node_key m' = node_key dave_restated.
Proof.
  destruct (peer_is_true 0 (fun n => bool_decide (stable_id dave_restated = stable_id n) &&
    bool_decide (node_key dave_restated = node_key n)) advertised) as (n & Hn & Hf); [vm_compute; reflexivity|].
  apply andb_true_iff in Hf as [Hs Hk]. apply bool_decide_eq_true in Hs, Hk.
  apply (advertised_key_survives locked 0 (replicate 32 5) advertised n dave_restated today).
  - apply (enforced_locked (Some lock)), locked_enforced.
  - apply advertised_eq.
  - exact Hn.
  - exact Hs.
  - exact Hk.
  - apply DemoPeers.demo_node_ok. vm_compute. reflexivity.
  - vm_compute. reflexivity.
  - reflexivity.
  - vm_compute. reflexivity.
Defined.

(** Under an active lock a patch that extends the expiry of a flagged peer
    evicts it: the gate checks the signature against the node key that the
    expiry pass has broken.  Without a lock the same patch restores the peer. *)
Theorem expiry_extension_evicts :
  let flag := netmap [expiring dave] (today + HOUR) in
  let extend := update None [extend_expiry 1 (today + 3 * HOUR)] None (today + 2 * HOUR) in
  let unlocked := PeerTracker_new None in
  let locked := PeerTracker_new (Some lock) in
  peer_is 0 expired (after flag locked) = true /\
  size (peers (peer_db (after extend (after flag locked)))) = 0%nat /\
  peer_is 0 expired (after flag unlocked) = true /\
  peer_is 0 (fun n => negb (expired n) && bool_decide (node_key n = node_key dave))
    (after extend (after flag unlocked)) = true.
Proof. split_and!; vm_compute; reflexivity. Qed.

(** A peer flagged before the lock was known is never checked against it.
    The pass over the database skips flagged peers, and when control's clock
    moves back the expiry pass restores the peer without the gate: an unsigned
    peer is left unexpired under an active lock. *)
Theorem flagged_peer_escapes_lock :
  let s1 := after (netmap [expiring eve] (today + HOUR)) (PeerTracker_new None) in
  let s2 := after (MTkaAuthorityChanged walk) (after (AuthorityWritten (Some lock)) s1) in
  let s3 := after (update None [] (Some (today - HOUR)) (today + HOUR)) s2 in
  let s4 := after (MExpiryTimerFired (today + HOUR) walk) s3 in
  admits (Some lock) eve = false /\
  peer_is 0 (fun n => negb (expired n) && bool_decide (node_key n = node_key eve)
    && negb (admits (tka_authority s4) n)) s4 = true.
Proof. split_and!; vm_compute; reflexivity. Qed.

(** The identifiers a message reports as upserted and as deleted can
    overlap: of two patches for one peer the first is applied and the second,
    with a signature the lock refuses, evicts the peer. *)
Theorem touched_sets_overlap :
  match apply_changes walk (mkStateUpdate None None
      [extend_expiry 1 (today + HOUR); sign_with 1 []] [] [] [] None) today locked with
  | Ret (_, (upserts, deletions)) => bool_decide (0 ∈ upserts ∩ deletions)
  | Panic => false
  end = true.
Proof. vm_compute. reflexivity. Qed.
