(* ===== verification/RouteUpdate.v ===== *)
(** * RouteUpdate: from the netmap to the data plane (src/ts_runtime/src/route_updater.rs, src_filter.rs)

    The route updater turns each published snapshot of the peers into the
    table that routes outbound packets and the map of underlay transports; the
    source filter updater turns the same snapshot into the table of the
    addresses from which each peer may send.  What the two actors read from the
    environment and what the DERP and direct managers answer are arguments.

    The two tables agree at every address, and an address is attributed only to
    an unexpired peer with a route for it, which under tailnet lock is a peer
    the authority accepts.  The exit node fails closed, and a peer is sent to
    directly only while the direct manager reports a path. *)

From stdpp Require Import gmap strings sorting countable.
From S2P Require Import Prelude Bytes BaseIndex IpNet Stride IpTrie TrieSpec TrieUpdate TrieRemove TrieLookup Table Routing Routers IpNetModel PacketFilter Packet FlowTrack Cbor TkaWire TkaAuth TkaChain ControlNode PeerDb Expiry PeerLock PeerTracker.

Local Open Scope Z_scope.

(** ** The model *)

Section Model.
Context `{!IpNetOps}.

(** What the actors read from the environment: the selector once per message,
    the live accept-routes cell once for each peer. *)
Record Prefs := mkPrefs { exit_node : option ExitNodeSelector; accept_routes : PeerId -> bool }.

(** The answers of the DERP manager (an error answers [None]) and of the direct
    manager (an error answers the empty set). *)
Record Managers := mkManagers {
  region_for_peer : PeerId -> option Z;
  transport_for_region : PeerId -> Z -> option Z;
  peers_with_direct_path : list PeerId -> gset PeerId;
}.

Definition exit_node_id (prefs : Prefs) (ps : list Node) : option str :=
  sel ← exit_node prefs; resolve sel ps.

(** [table.insert(route, value)], its result ignored. *)
Definition insert_route {V} (value : V) (t : RTable V) (route : IpNet) : outcome (RTable V) :=
  '(t, _) ← Split.insert t route value;
  Ret t.

Definition filter_peer (prefs : Prefs) (exit : option str) (t : RTable PeerId) (e : PeerId * Node)
    : outcome (RTable PeerId) :=
  routes ← routes_to_install e.2 (accept_routes prefs e.1) exit;
  mfoldl (insert_route e.1) t routes.

(** [SourceFilterUpdater]'s handler; [es] is the walk over the snapshot's peers. *)
Definition source_filter (prefs : Prefs) (es : list (PeerId * Node)) : outcome (RTable PeerId) :=
  mfoldl (filter_peer prefs (exit_node_id prefs es.*2)) Split.EMPTY es.

Definition overlay_direct (derp_underlay : gmap PeerId Z) (direct_ready : gset PeerId)
    (direct_tid : Z) : gmap PeerId Z :=
  set_fold (fun id m => <[id := direct_tid]> m) derp_underlay direct_ready.

(** The variables that the loop over the peers assigns. *)
Record Rebuild := mkRebuild {
  overlay_out : RTable OrOut.RouteAction;
  exit_node_satisfied : bool;
  derp_underlay : gmap PeerId Z;
  peer_ids : list PeerId;
}.

Definition rebuild_route (id : PeerId) (acc : RTable OrOut.RouteAction * bool) (route : IpNet)
    : outcome (RTable OrOut.RouteAction * bool) :=
  let satisfied := if decide (prefix_len route = 0%nat) then true else acc.2 in
  t ← insert_route (OrOut.Wireguard id) acc.1 route;
  Ret (t, satisfied).

Definition derp_route (mgr : Managers) (m : gmap PeerId Z) (e : PeerId * Node) : gmap PeerId Z :=
  let region :=
    match derp_region e.2 with
    | Some region => Some region
    | None => region_for_peer mgr e.1
    end in
  match region with
  | None => m
  | Some region =>
      match transport_for_region mgr e.1 region with
      | Some transport_id => <[e.1 := transport_id]> m
      | None => m
      end
  end.

Definition rebuild_peer (prefs : Prefs) (mgr : Managers) (exit : option str) (acc : Rebuild)
    (e : PeerId * Node) : outcome Rebuild :=
  let ids := peer_ids acc ++ [e.1] in
  routes ← routes_to_install e.2 (accept_routes prefs e.1) exit;
  '(t, satisfied) ← mfoldl (rebuild_route e.1) (overlay_out acc, exit_node_satisfied acc) routes;
  Ret (mkRebuild t satisfied (derp_route mgr (derp_underlay acc) e) ids).

Definition rebuild (prefs : Prefs) (mgr : Managers) (es : list (PeerId * Node)) : outcome Rebuild :=
  mfoldl (rebuild_peer prefs mgr (exit_node_id prefs es.*2))
    (mkRebuild Split.EMPTY (bool_decide (exit_node prefs = None)) ∅ []) es.

Record RouteUpdater := mkRouteUpdater {
  direct_tid : option Z;
  default_overlay_transport : Z;
  forwarder_overlay_transport : Z;
  last_peer_state : option (list (PeerId * Node));
  last_underlay : gmap PeerId Z;
  last_exit_node_id : option str;
  active_exit : option str;
}.

Inductive RouteOutput :=
| PublishExitNode (node : option Node)
| PublishPeerRoutes (underlay_routes : gmap PeerId Z) (overlay_out_routes : RTable OrOut.RouteAction)
| PublishSelfRoutes (overlay_in_routes : RTable OrIn.RouteAction).

(** The exit node is republished when it changed. *)
Definition update_exit_node (active : option str) (es : list (PeerId * Node)) (s : RouteUpdater)
    : RouteUpdater * list RouteOutput :=
  if decide (active = last_exit_node_id s) then (s, [])
  else
    (mkRouteUpdater (direct_tid s) (default_overlay_transport s) (forwarder_overlay_transport s)
       (last_peer_state s) (last_underlay s) active active,
     [PublishExitNode (id ← active; List.find (fun peer => bool_decide (stable_id peer = id)) es.*2)]).

Definition underlay_out (direct_tid : option Z) (direct_ready : gset PeerId) (derp : gmap PeerId Z)
    : gmap PeerId Z :=
  match direct_tid with
  | Some tid => if decide (direct_ready = ∅) then derp else overlay_direct derp direct_ready tid
  | None => derp
  end.

Definition set_last_underlay (m : gmap PeerId Z) (s : RouteUpdater) : RouteUpdater :=
  mkRouteUpdater (direct_tid s) (default_overlay_transport s) (forwarder_overlay_transport s)
    (last_peer_state s) m (last_exit_node_id s) (active_exit s).

Definition rebuild_and_publish (prefs : Prefs) (mgr : Managers) (force : bool) (s : RouteUpdater)
    : outcome (RouteUpdater * list RouteOutput) :=
  match last_peer_state s with
  | None => Ret (s, [])
  | Some es =>
      acc ← rebuild prefs mgr es;
      let active := if exit_node_satisfied acc then exit_node_id prefs es.*2 else None in
      let '(s, published) := update_exit_node active es s in
      let direct_ready := peers_with_direct_path mgr (peer_ids acc) in
      let underlay := underlay_out (direct_tid s) direct_ready (derp_underlay acc) in
      if negb force && bool_decide (underlay = last_underlay s) then Ret (s, published)
      else Ret (set_last_underlay underlay s,
                published ++ [PublishPeerRoutes underlay (overlay_out acc)])
  end.

Definition set_last_peer_state (es : list (PeerId * Node)) (s : RouteUpdater) : RouteUpdater :=
  mkRouteUpdater (direct_tid s) (default_overlay_transport s) (forwarder_overlay_transport s)
    (Some es) (last_underlay s) (last_exit_node_id s) (active_exit s).

Definition handle_peer_state (prefs : Prefs) (mgr : Managers) (es : list (PeerId * Node))
    (s : RouteUpdater) : outcome (RouteUpdater * list RouteOutput) :=
  rebuild_and_publish prefs mgr true (set_last_peer_state es s).

Definition handle_recompute (prefs : Prefs) (mgr : Managers) (s : RouteUpdater)
    : outcome (RouteUpdater * list RouteOutput) :=
  rebuild_and_publish prefs mgr false s.

Definition split_route (node : Node) (app_transport forwarder_transport : Z)
    (out : RTable OrIn.RouteAction) (accepted_route : IpNet) : outcome (RTable OrIn.RouteAction) :=
  subnet ← is_subnet_route node accepted_route;
  let transport := if subnet : bool then forwarder_transport else app_transport in
  insert_route (OrIn.ToOverlay transport) out accepted_route.

Definition split_inbound_routes (node : Node) (app_transport forwarder_transport : Z)
    : outcome (RTable OrIn.RouteAction) :=
  mfoldl (split_route node app_transport forwarder_transport) Split.EMPTY (accepted_routes node).

(** [node] is the field of the control update. *)
Definition handle_self_node (node : option Node) (s : RouteUpdater)
    : outcome (RouteUpdater * list RouteOutput) :=
  match node with
  | None => Ret (s, [])
  | Some node =>
      out ← split_inbound_routes node (default_overlay_transport s) (forwarder_overlay_transport s);
      Ret (s, [PublishSelfRoutes out])
  end.
End Model.

(** ** Routes of a node *)

Section Routes.
Context `{!IpNetOps, !IpNetLaws}.
Implicit Types (r : IpNet) (e : PeerId * Node).

(** A network that is written out in the source exists. *)
Lemma new_assert_const ip l :
  bool_decide (length (ip_octets ip) = width (is_ipv4 ip)) && forallb (fun b => bool_decide (u8_ok b)) (ip_octets ip)
    && bool_decide (l <= 8 * width (is_ipv4 ip))%nat = true ->
  exists p, new_assert ip l = Ret p.
Proof.
  rewrite !andb_true_iff, !bool_decide_eq_true, forallb_forall. intros [[Hlen Hos] Hl].
  destruct (new_assert_ok ip l) as (p & Hp & _); [|done|by exists p].
  split; [done|]. apply List.Forall_forall. intros b Hb. apply (bool_decide_eq_true (u8_ok b)). by apply Hos.
Qed.

Lemma is_tailscale_ip_returns a : exists b, is_tailscale_ip a = Ret b.
Proof.
  destruct a; cbn [is_tailscale_ip].
  - destruct (new_assert_const (V4 [100; 64; 0; 0]) 10) as [? ->]; [done|].
    destruct (new_assert_const (V4 [100; 115; 92; 0]) 23) as [? ->]; [done|]. by eexists.
  - destruct (new_assert_const (V6 [253; 122; 17; 92; 161; 224; 0; 0; 0; 0; 0; 0; 0; 0; 0; 0]) 48)
      as [? ->]; [done|]. by eexists.
Qed.

Lemma is_subnet_route_returns n r : exists b, is_subnet_route n r = Ret b.
Proof.
  unfold is_subnet_route. case_decide; [by eexists|].
  destruct (is_tailscale_ip_returns (addr r)) as [? ->]. by eexists.
Qed.

Lemma installs_returns n accept exit r : exists b, installs n accept exit r = Ret b.
Proof.
  unfold installs. repeat case_match; try by eexists.
  destruct (is_subnet_route_returns n r) as [? ->]. by eexists.
Qed.

Lemma mfilter_returns {A} (f : A -> outcome bool) (l : list A) :
  (forall x, exists b, f x = Ret b) ->
  exists l', mfilter f l = Ret l' /\ forall x, x ∈ l' <-> x ∈ l /\ f x = Ret true.
Proof.
  intros Hf. induction l as [|y l (l' & IH & Hin)]; cbn [mfilter].
  - exists []. split; [done|]. set_solver.
  - destruct (Hf y) as [b Hb]. rewrite Hb, IH. mrun. eexists. split; [done|]. intros x.
    rewrite elem_of_cons. destruct b; [rewrite elem_of_cons|]; rewrite Hin; split.
    + intros [->|[? ?]]; [by split; [left|]|by split; [right|]].
    + intros [[->|?] ?]; [by left|by right].
    + intros [? ?]. by split; [right|].
    + intros [[->|?] ?]; [congruence|done].
Qed.

(** The routes both actors install for a peer. *)
Definition chosen (prefs : Prefs) (exit : option str) e : list IpNet :=
  match routes_to_install e.2 (accept_routes prefs e.1) exit with Ret rs => rs | Panic => [] end.

Lemma routes_to_install_spec n accept exit :
  exists rs, routes_to_install n accept exit = Ret rs /\
    forall r, r ∈ rs <-> r ∈ accepted_routes n /\
      installs n accept (bool_decide (exit = Some (stable_id n))) r = Ret true.
Proof.
  unfold routes_to_install. rewrite (bool_decide_ext _ (exit = Some (stable_id n))) by done.
  apply mfilter_returns, installs_returns.
Qed.

Lemma routes_to_install_chosen prefs exit e :
  routes_to_install e.2 (accept_routes prefs e.1) exit = Ret (chosen prefs exit e).
Proof.
  unfold chosen. by destruct (routes_to_install_spec e.2 (accept_routes prefs e.1) exit) as (rs & -> & _).
Qed.

Lemma elem_of_chosen prefs exit e r :
  r ∈ chosen prefs exit e <->
  r ∈ accepted_routes e.2 /\
  installs e.2 (accept_routes prefs e.1) (bool_decide (exit = Some (stable_id e.2))) r = Ret true.
Proof.
  unfold chosen. by destruct (routes_to_install_spec e.2 (accept_routes prefs e.1) exit) as (rs & -> & Hin).
Qed.

(** An installed route is one of the peer's, the peer has not expired, a
    default route is the exit node's, and a subnet needs accept-routes. *)
Lemma chosen_sound prefs exit e r :
  r ∈ chosen prefs exit e ->
  r ∈ accepted_routes e.2 /\ expired e.2 = false /\
  (prefix_len r = 0%nat -> exit = Some (stable_id e.2)) /\
  (prefix_len r <> 0%nat -> accept_routes prefs e.1 = false -> is_subnet_route e.2 r = Ret false).
Proof.
  intros [Hr Hi]%elem_of_chosen. split; [done|]. unfold installs in Hi.
  destruct (expired e.2); [done|]. split; [done|]. case_decide as Hz.
  - split; [|done]. intros _. injection Hi as Hi. by apply bool_decide_eq_true in Hi.
  - split; [done|]. intros _ Ha. rewrite Ha in Hi.
    destruct (is_subnet_route_returns e.2 r) as [b Hb]. rewrite Hb in *. by destruct b.
Qed.

Lemma net_contains_trunc r ip : ip_ok ip -> net_contains (trunc r) ip = net_contains r ip.
Proof.
  intros Hip. apply eq_true_iff_eq. rewrite !net_contains_iff by done.
  rewrite trunc_len, trunc_addr. unfold mask_addr.
  by rewrite mk_addr_is_ipv4, mk_addr_octets, mask_octets_idem.
Qed.
End Routes.

(** ** The exit node does not depend on the walk *)

Lemma str_leb_refl a : str_leb a a = true.
Proof. induction a as [|x a IH]; [done|]. cbn. by rewrite decide_False, decide_True by lia. Qed.

Lemma str_leb_total a : forall b, str_leb a b = true \/ str_leb b a = true.
Proof.
  induction a as [|x a IH]; intros [|y b]; cbn; try by left + right.
  repeat case_decide; try lia; try by left + right. apply IH.
Qed.

Lemma str_leb_antisym a : forall b, str_leb a b = true -> str_leb b a = true -> a = b.
Proof.
  induction a as [|x a IH]; intros [|y b]; cbn; try done.
  repeat case_decide; try lia; try done. intros. f_equal; [done|by apply IH].
Qed.

Lemma str_leb_trans a : forall b c, str_leb a b = true -> str_leb b c = true -> str_leb a c = true.
Proof.
  induction a as [|x a IH]; intros [|y b] [|z c]; cbn; try done.
  repeat case_decide; try lia; try done. apply IH.
Qed.

Lemma min_str_spec l :
  match min_str l with
  | Some m => m ∈ l /\ forall x, x ∈ l -> str_leb m x = true
  | None => l = []
  end.
Proof.
  induction l as [|x l IH]; [done|]. cbn [min_str]. destruct (min_str l) as [m|].
  - destruct IH as [Hin Hle]. destruct (str_leb x m) eqn:E.
    + split; [by left|]. intros y [->|Hy]%elem_of_cons; [apply str_leb_refl|].
      eapply str_leb_trans; [exact E|by apply Hle].
    + split; [by right|]. intros y [->|Hy]%elem_of_cons; [|by apply Hle].
      by destruct (str_leb_total x m); [congruence|].
  - subst l. split; [by left|]. intros y ->%list_elem_of_singleton. apply str_leb_refl.
Qed.

Lemma min_str_perm l l' : l ≡ₚ l' -> min_str l = min_str l'.
Proof.
  intros Hp. pose proof (min_str_spec l) as H1. pose proof (min_str_spec l') as H2.
  destruct (min_str l) as [m|], (min_str l') as [m'|]; subst.
  - destruct H1 as [H1 H1'], H2 as [H2 H2']. f_equal.
    apply str_leb_antisym; [apply H1'|apply H2']; [by rewrite Hp|by rewrite <- Hp].
  - apply Permutation_nil_r in Hp. subst. by destruct H1 as [?%not_elem_of_nil _].
  - apply Permutation_nil_l in Hp. subst. by destruct H2 as [?%not_elem_of_nil _].
  - done.
Qed.

(** The exit node that a selector resolves to does not depend on the order
    in which the peers are walked, and it is a peer that the selector
    matches. *)
Theorem exit_node_deterministic `{!IpNetOps} prefs ps ps' :
  ps ≡ₚ ps' ->
  exit_node_id prefs ps = exit_node_id prefs ps' /\
  forall id, exit_node_id prefs ps = Some id ->
    exists sel n, exit_node prefs = Some sel /\ n ∈ ps /\ selects sel n = true /\ stable_id n = id.
Proof.
  intros Hp. unfold exit_node_id. destruct (exit_node prefs) as [sel|]; [|done]. cbn. split.
  - apply min_str_perm, fmap_Permutation. induction Hp; cbn; repeat case_match; eauto using Permutation.
  - intros id Hid. pose proof (min_str_spec (stable_id <$> List.filter (selects sel) ps)) as Hm.
    unfold resolve in Hid. rewrite Hid in Hm. destruct Hm as [(n & -> & Hn)%list_elem_of_fmap _].
    apply list_elem_of_In, filter_In in Hn as [Hin Hs]. exists sel, n. by rewrite list_elem_of_In.
Qed.

(** ** Tables built by insertions *)

Section Build.
Context `{!IpNetOps, !IpNetLaws}.
Implicit Types (r p : IpNet).

Definition put {V} (m : amap V) (x : IpNet * V) : amap V := aset m (trunc x.1) (Some x.2).

Lemma insert_route_rel {V} (v : V) (t : RTable V) m r :
  table_rel t m -> exists t', insert_route v t r = Ret t' /\ table_rel t' (put m (r, v)).
Proof.
  intros Ht. unfold insert_route. destruct (table_rel_insert t m r v Ht) as (t' & -> & Hrel). by eexists.
Qed.

Lemma insert_routes_rel {V} (v : V) rs : forall (t : RTable V) m,
  table_rel t m ->
  exists t', mfoldl (insert_route v) t rs = Ret t' /\
    table_rel t' (foldl put m ((fun r => (r, v)) <$> rs)).
Proof.
  induction rs as [|r rs IH]; intros t m Ht; [by exists t|]. cbn [mfoldl fmap list_fmap foldl].
  destruct (insert_route_rel v t m r Ht) as (t1 & -> & Ht1). mrun. by apply IH.
Qed.

(** The entry of a prefix comes from an insertion, and every insertion leaves
    one. *)
Lemma put_source {V} (xs : list (IpNet * V)) : forall m p v,
  foldl put m xs p = Some v -> m p = Some v \/ exists r, (r, v) ∈ xs /\ trunc r = p.
Proof.
  induction xs as [|[r w] xs IH]; intros m p v Hp; [by left|]. cbn [foldl] in Hp.
  destruct (IH _ _ _ Hp) as [Hq|(r' & Hr' & Ht)].
  - unfold put, aset in Hq. case_decide; [|by left]. simplify_eq/=. right. exists r.
    by split; [left|].
  - right. exists r'. by split; [right|].
Qed.

Lemma put_keeps {V} (xs : list (IpNet * V)) : forall m p,
  is_Some (m p) -> is_Some (foldl put m xs p).
Proof.
  induction xs as [|x xs IH]; intros m p Hp; [done|]. apply IH. unfold put, aset. by case_decide.
Qed.

Lemma put_present {V} (xs : list (IpNet * V)) : forall m r v,
  (r, v) ∈ xs -> is_Some (foldl put m xs (trunc r)).
Proof.
  induction xs as [|x xs IH]; intros m r v Hin; [by apply not_elem_of_nil in Hin|].
  apply elem_of_cons in Hin as [<-|Hin]; cbn [foldl]; [|by eapply IH].
  apply put_keeps. unfold put, aset. by rewrite decide_True.
Qed.

(** A lookup answers with the value of a longest inserted route that contains
    the address. *)
Lemma built_lookup {V} (xs : list (IpNet * V)) (t : RTable V) ip :
  ip_ok ip -> table_rel t (foldl put (fun _ => None) xs) ->
  exists o, Split.lookup t ip = Ret o /\
    match o with
    | Some v => exists r, (r, v) ∈ xs /\ net_contains r ip = true /\
        forall r' v', (r', v') ∈ xs -> net_contains r' ip = true -> (prefix_len r' <= prefix_len r)%nat
    | None => forall r v, (r, v) ∈ xs -> net_contains r ip = false
    end.
Proof.
  intros Hip Ht. set (m := foldl put (fun _ => None) xs) in *. exists (route_of m ip).
  split; [by apply table_rel_lookup|].
  pose proof (head_best_match m ip (8 * width (is_ipv4 ip)) Hip) as Hb. fold (route_of m ip) in Hb.
  assert (forall r v, (r, v) ∈ xs -> net_contains r ip = true ->
    (prefix_len r <= 8 * width (is_ipv4 ip))%nat /\ exists w, covering m ip (trunc r) w) as Hcov.
  { intros r v Hin Hc. split.
    - apply net_contains_iff in Hc as [-> _]; [|done]. apply prefix_len_ok.
    - destruct (put_present xs (fun _ => None) r v Hin) as [w Hw]. exists w.
      split_and!; [apply trunc_idem|by rewrite net_contains_trunc|done]. }
  destruct (route_of m ip) as [v|]; cbn [best_match] in Hb.
  - destruct Hb as (p & (Htp & Hcp & Hp) & _ & Hbest).
    destruct (put_source xs _ _ _ Hp) as [|(r & Hr & <-)]; [done|].
    exists r. rewrite net_contains_trunc in Hcp by done. split_and!; [done..|].
    intros r' v' Hin Hc. destruct (Hcov r' v' Hin Hc) as (Hl & w & Hw).
    specialize (Hbest (trunc r') w Hw). rewrite !trunc_len in Hbest. by apply Hbest.
  - intros r v Hin. apply not_true_iff_false. intros Hc.
    destruct (Hcov r v Hin Hc) as (Hl & w & Hw). specialize (Hb _ _ Hw). rewrite trunc_len in Hb. lia.
Qed.

(** Renaming the values commutes with the lookup. *)
Lemma put_fmap {V W} (f : V -> W) (xs : list (IpNet * V)) : forall m m',
  (forall p, m' p = f <$> m p) ->
  forall p, foldl put m' ((fun x => (x.1, f x.2)) <$> xs) p = f <$> foldl put m xs p.
Proof.
  induction xs as [|x xs IH]; intros m m' Hm p; [apply Hm|]. cbn [fmap list_fmap foldl].
  apply IH. intros q. unfold put, aset. cbn. case_decide; [done|apply Hm].
Qed.

Lemma route_of_fmap {V W} (f : V -> W) (m : amap V) (m' : amap W) ip :
  (forall p, m' p = f <$> m p) -> route_of m' ip = f <$> route_of m ip.
Proof.
  intros Hm. unfold route_of. rewrite <- head_fmap_list. f_equal. unfold amatches.
  induction (rev _) as [|l ls IH]; [done|]. cbn [omap list_omap].
  destruct (net_at ip l) as [p|]; cbn [mbind option_bind]; [|exact IH].
  rewrite Hm. destruct (m p); [apply (f_equal (cons _))|]; exact IH.
Qed.
End Build.

(** ** What the two actors build *)

Section Actors.
Context `{!IpNetOps, !IpNetLaws}.
Implicit Types (r : IpNet) (e : PeerId * Node) (es : list (PeerId * Node)) (s : RouteUpdater).

(** The insertions of one peer, and of the walk. *)
Definition peer_entries (prefs : Prefs) (exit : option str) e : list (IpNet * PeerId) :=
  (fun r => (r, e.1)) <$> chosen prefs exit e.

Definition walk_entries (prefs : Prefs) es : list (IpNet * PeerId) :=
  es ≫= peer_entries prefs (exit_node_id prefs es.*2).

Lemma elem_of_walk_entries prefs es r id :
  (r, id) ∈ walk_entries prefs es <->
  exists n, (id, n) ∈ es /\ r ∈ chosen prefs (exit_node_id prefs es.*2) (id, n).
Proof.
  unfold walk_entries. rewrite list_elem_of_bind. unfold peer_entries. split.
  - intros ([id' n] & (r' & E & Hr)%list_elem_of_fmap & Hin). simplify_eq/=. by exists n.
  - intros (n & Hin & Hr). exists (id, n). split; [|done]. apply list_elem_of_fmap. by exists r.
Qed.

Lemma filter_peers_rel prefs exit es : forall t m,
  table_rel t m ->
  exists t', mfoldl (filter_peer prefs exit) t es = Ret t' /\
    table_rel t' (foldl put m (es ≫= peer_entries prefs exit)).
Proof.
  induction es as [|e es IH]; intros t m Ht; [by exists t|]. cbn [mfoldl].
  unfold filter_peer at 2. rewrite routes_to_install_chosen. mrun.
  destruct (insert_routes_rel e.1 (chosen prefs exit e) t m Ht) as (t1 & -> & Ht1). mrun.
  rewrite bind_cons, foldl_app. by apply IH.
Qed.

Lemma source_filter_built prefs es :
  exists t, source_filter prefs es = Ret t /\
    table_rel t (foldl put (fun _ => None) (walk_entries prefs es)).
Proof. apply filter_peers_rel, table_rel_empty. Qed.

Definition wireguard (x : IpNet * PeerId) : IpNet * OrOut.RouteAction := (x.1, OrOut.Wireguard x.2).

Definition is_default r : bool := bool_decide (prefix_len r = 0%nat).

Lemma rebuild_routes_rel id rs : forall t b m,
  table_rel t m ->
  exists t', mfoldl (rebuild_route id) (t, b) rs = Ret (t', b || existsb is_default rs) /\
    table_rel t' (foldl put m (wireguard <$> ((fun r => (r, id)) <$> rs))).
Proof.
  induction rs as [|r rs IH]; intros t b m Ht.
  { exists t. by rewrite orb_false_r. }
  cbn [mfoldl existsb fmap list_fmap foldl]. unfold rebuild_route at 2. cbn [fst snd].
  destruct (insert_route_rel (OrOut.Wireguard id) t m r Ht) as (t1 & -> & Ht1). mrun.
  destruct (IH t1 (if decide (prefix_len r = 0%nat) then true else b) _ Ht1) as (t' & -> & Ht').
  exists t'. split; [|done]. do 2 f_equal. unfold is_default at 2.
  case_decide; [rewrite bool_decide_eq_true_2 by done|rewrite bool_decide_eq_false_2 by done];
    by destruct b.
Qed.

(** The loop over the peers, one variable at a time. *)
Lemma rebuild_peers_spec prefs mgr exit es : forall acc m,
  table_rel (overlay_out acc) m ->
  exists acc', mfoldl (rebuild_peer prefs mgr exit) acc es = Ret acc' /\
    table_rel (overlay_out acc') (foldl put m (wireguard <$> (es ≫= peer_entries prefs exit))) /\
    exit_node_satisfied acc'
      = exit_node_satisfied acc || existsb (fun e => existsb is_default (chosen prefs exit e)) es /\
    derp_underlay acc' = foldl (derp_route mgr) (derp_underlay acc) es /\
    peer_ids acc' = peer_ids acc ++ es.*1.
Proof.
  induction es as [|e es IH]; intros acc m Ht.
  { exists acc. by rewrite orb_false_r, app_nil_r. }
  cbn [mfoldl existsb foldl]. unfold rebuild_peer at 2. rewrite routes_to_install_chosen. mrun.
  destruct (rebuild_routes_rel e.1 (chosen prefs exit e) _ (exit_node_satisfied acc) m Ht)
    as (t1 & -> & Ht1). mrun.
  edestruct (IH (mkRebuild t1 (exit_node_satisfied acc || existsb is_default (chosen prefs exit e))
    (derp_route mgr (derp_underlay acc) e) (peer_ids acc ++ [e.1])) _ Ht1)
    as (acc' & -> & Hrel & Hs & Hd & Hp).
  exists acc'. cbn in Hs, Hd, Hp. split_and!; [done| |by rewrite Hs, orb_assoc|done|].
  - rewrite bind_cons, fmap_app, foldl_app. exact Hrel.
  - rewrite Hp, <- app_assoc. done.
Qed.

Lemma rebuild_built prefs mgr es :
  exists acc, rebuild prefs mgr es = Ret acc /\
    table_rel (overlay_out acc) (foldl put (fun _ => None) (wireguard <$> walk_entries prefs es)) /\
    exit_node_satisfied acc = bool_decide (exit_node prefs = None) ||
      existsb (fun e => existsb is_default (chosen prefs (exit_node_id prefs es.*2) e)) es /\
    derp_underlay acc = foldl (derp_route mgr) ∅ es /\ peer_ids acc = es.*1.
Proof. apply rebuild_peers_spec, table_rel_empty. Qed.

(** C3: the source filter and the outbound routes that the two actors publish
    for one snapshot, reading the same settings, agree at every address: neither
    panics, and an address is accepted as a source from exactly the peer to
    which packets for it are sent. *)
Theorem source_filter_matches_routes prefs mgr es s ip :
  ip_ok ip ->
  exists filter s' out underlay table owner,
    source_filter prefs es = Ret filter /\
    handle_peer_state prefs mgr es s = Ret (s', out) /\
    last out = Some (PublishPeerRoutes underlay table) /\
    Split.lookup filter ip = Ret owner /\
    Split.lookup table ip = Ret (OrOut.Wireguard <$> owner).
Proof.
  intros Hip. destruct (source_filter_built prefs es) as (filter & Hf & Hfr).
  destruct (rebuild_built prefs mgr es) as (acc & Ha & Har & _).
  unfold handle_peer_state, rebuild_and_publish. cbn [last_peer_state set_last_peer_state].
  rewrite Ha. mrun. destruct (update_exit_node _ _ _) as [s1 published]. cbn [negb andb].
  do 6 eexists. split_and!; [done|done|by rewrite last_snoc|by apply table_rel_lookup|].
  rewrite (table_rel_lookup _ _ _ Har Hip). f_equal. apply route_of_fmap.
  by apply put_fmap.
Qed.

(** C25: the source filter attributes an address only to an unexpired peer of
    the snapshot with an installed route that contains it, the longest of all;
    through a default route only to the selected exit node, and through a
    subnet route only while routes are accepted. An address that it attributes
    to no peer is in no installed route. *)
Theorem source_owner_exact prefs es filter ip :
  source_filter prefs es = Ret filter -> ip_ok ip ->
  exists owner, Split.lookup filter ip = Ret owner /\
    match owner with
    | Some id => exists n r, (id, n) ∈ es /\ r ∈ accepted_routes n /\ net_contains r ip = true /\
        expired n = false /\
        (prefix_len r = 0%nat -> exit_node_id prefs es.*2 = Some (stable_id n)) /\
        (prefix_len r <> 0%nat -> accept_routes prefs id = false -> is_subnet_route n r = Ret false) /\
        forall id' n' r', (id', n') ∈ es -> r' ∈ chosen prefs (exit_node_id prefs es.*2) (id', n') ->
          net_contains r' ip = true -> (prefix_len r' <= prefix_len r)%nat
    | None => forall id n r, (id, n) ∈ es -> r ∈ chosen prefs (exit_node_id prefs es.*2) (id, n) ->
        net_contains r ip = false
    end.
Proof.
  intros Hf Hip. destruct (source_filter_built prefs es) as (t & Ht & Hrel). rewrite Hf in Ht. simplify_eq.
  destruct (built_lookup _ t ip Hip Hrel) as (owner & Hl & Ho). exists owner. split; [done|].
  destruct owner as [id|].
  - destruct Ho as (r & (n & Hn & Hr)%elem_of_walk_entries & Hc & Hbest).
    destruct (chosen_sound _ _ _ _ Hr) as (Hacc & Hx & Hz & Hsub).
    exists n, r. split_and!; [done..|]. intros id' n' r' Hn' Hr'. apply (Hbest r' id').
    apply elem_of_walk_entries. by exists n'.
  - intros id n r Hn Hr. apply (Ho r id). apply elem_of_walk_entries. by exists n.
Qed.

(** C32: the exit node fails closed: after a rebuild, the exit node that the
    updater reports is an unexpired peer of the snapshot that the selector
    resolves to and that offers a default route; the status cell agrees. *)
Theorem exit_node_fails_closed prefs mgr force es s s' out id :
  last_peer_state s = Some es -> active_exit s = last_exit_node_id s ->
  rebuild_and_publish prefs mgr force s = Ret (s', out) ->
  active_exit s' = last_exit_node_id s' /\
  (last_exit_node_id s' = Some id ->
   exit_node_id prefs es.*2 = Some id /\
   exists pid n r, (pid, n) ∈ es /\ stable_id n = id /\ expired n = false /\
     r ∈ accepted_routes n /\ prefix_len r = 0%nat).
Proof.
  intros Hes Hcell Hr. unfold rebuild_and_publish in Hr. rewrite Hes in Hr.
  destruct (rebuild_built prefs mgr es) as (acc & Ha & _ & Hsat & _). rewrite Ha in Hr. cbn in Hr.
  set (active := if exit_node_satisfied acc then _ else None) in Hr.
  assert (last_exit_node_id s' = active /\ active_exit s' = active) as [-> ->].
  { unfold update_exit_node in Hr. case_decide as Heq; cbn in Hr;
      destruct (negb force && _); simplify_eq/=; split; congruence. }
  split; [done|]. unfold active. destruct (exit_node_satisfied acc); [|done]. intros Hid.
  split; [done|]. rewrite bool_decide_eq_false_2 in Hsat.
  2:{ intros E. unfold exit_node_id in Hid. by rewrite E in Hid. }
  symmetry in Hsat. cbn [orb] in Hsat. apply existsb_exists in Hsat as ([pid n] & Hin & Hd).
  apply existsb_exists in Hd as (r & Hrin & Hz%bool_decide_eq_true).
  apply list_elem_of_In in Hrin, Hin. destruct (chosen_sound _ _ _ _ Hrin) as (Hacc & Hx & Hsel & _).
  exists pid, n, r. split_and!; try done. specialize (Hsel Hz). cbn in Hsel. congruence.
Qed.

(** ** Underlay transports *)

Lemma lookup_overlay_direct m (ready : gset PeerId) tid id :
  overlay_direct m ready tid !! id = if decide (id ∈ ready) then Some tid else m !! id.
Proof.
  unfold overlay_direct. revert ready.
  apply (set_fold_ind_L (fun m' (ready : gset PeerId) =>
    m' !! id = if decide (id ∈ ready) then Some tid else m !! id)).
  - by rewrite decide_False by set_solver.
  - intros x X m' _ IH. destruct (decide (x = id)) as [->|Hne].
    + rewrite lookup_insert_eq. by rewrite decide_True by set_solver.
    + rewrite lookup_insert_ne, IH by done. apply decide_ext. set_solver.
Qed.

(** The DERP transport of a peer. *)
Definition derp_transport (mgr : Managers) (id : PeerId) (n : Node) : option Z :=
  region ← match derp_region n with Some region => Some region | None => region_for_peer mgr id end;
  transport_for_region mgr id region.

Lemma derp_route_alt mgr m e :
  derp_route mgr m e
  = match derp_transport mgr e.1 e.2 with Some t => <[e.1 := t]> m | None => m end.
Proof. unfold derp_route, derp_transport. by repeat case_match; simplify_eq/=. Qed.

Lemma derp_routes_lookup mgr es id : forall m,
  NoDup es.*1 ->
  foldl (derp_route mgr) m es !! id
  = match List.find (fun e => bool_decide (e.1 = id)) es with
    | Some e => match derp_transport mgr id e.2 with Some t => Some t | None => m !! id end
    | None => m !! id
    end.
Proof.
  induction es as [|e es IH]; intros m Hnd; [done|]. cbn [foldl List.find].
  apply NoDup_cons in Hnd as [Hni Hnd]. rewrite IH, derp_route_alt by done.
  destruct (decide (e.1 = id)) as [<-|Hne].
  - rewrite bool_decide_eq_true_2 by done. destruct (List.find _ es) as [e'|] eqn:Hfind.
    { apply List.find_some in Hfind as [Hin He%bool_decide_eq_true]. destruct Hni. rewrite <- He.
      apply list_elem_of_fmap. exists e'. by rewrite list_elem_of_In. }
    destruct (derp_transport mgr e.1 e.2); [by rewrite lookup_insert_eq|done].
  - rewrite bool_decide_eq_false_2 by done.
    destruct (derp_transport mgr e.1 e.2); [by rewrite !lookup_insert_ne|done].
Qed.

Lemma find_peer es id n :
  NoDup es.*1 -> (id, n) ∈ es -> List.find (fun e => bool_decide (e.1 = id)) es = Some (id, n).
Proof.
  intros Hnd Hin. induction es as [|e es IH]; [by apply not_elem_of_nil in Hin|].
  apply NoDup_cons in Hnd as [Hni Hnd]. cbn [List.find]. apply elem_of_cons in Hin as [<-|Hin].
  - by rewrite bool_decide_eq_true_2.
  - rewrite bool_decide_eq_false_2; [by apply IH|]. intros E. apply Hni. rewrite E.
    apply list_elem_of_fmap. by exists (id, n).
Qed.

Lemma lookup_underlay_out tid (ready : gset PeerId) m id :
  underlay_out tid ready m !! id
  = match tid with Some t => if decide (id ∈ ready) then Some t else m !! id | None => m !! id end.
Proof.
  unfold underlay_out. destruct tid as [t|]; [|done]. case_decide as He.
  - subst. by rewrite decide_False by set_solver.
  - apply lookup_overlay_direct.
Qed.

(** C36: the published underlay map sends to a peer of the snapshot directly
    exactly when the transport of the direct manager is known and the manager
    reports a path to the peer, and otherwise through the relay of its region,
    if it has one. *)
Theorem underlay_routes_exact prefs mgr es s id n :
  NoDup es.*1 -> (id, n) ∈ es ->
  exists s' out underlay table,
    handle_peer_state prefs mgr es s = Ret (s', out) /\
    last out = Some (PublishPeerRoutes underlay table) /\ last_underlay s' = underlay /\
    underlay !! id =
      match direct_tid s with
      | Some tid => if decide (id ∈ peers_with_direct_path mgr es.*1) then Some tid
                    else derp_transport mgr id n
      | None => derp_transport mgr id n
      end.
Proof.
  intros Hnd Hin. destruct (rebuild_built prefs mgr es) as (acc & Ha & _ & _ & Hd & Hp).
  unfold handle_peer_state, rebuild_and_publish. cbn [last_peer_state set_last_peer_state].
  rewrite Ha. mrun. destruct (update_exit_node _ _ _) as [s1 published] eqn:Hu. cbn [negb andb].
  assert (direct_tid s1 = direct_tid s) as Htid
    by (unfold update_exit_node in Hu; case_decide; by simplify_eq/=).
  do 4 eexists. split_and!; [done|by rewrite last_snoc|done|].
  rewrite lookup_underlay_out, Hd, Hp, Htid, derp_routes_lookup, (find_peer es id n) by done. cbn.
  assert (match derp_transport mgr id n with Some t => Some t | None => ∅ !! id end
    = derp_transport mgr id n) as -> by (by destruct (derp_transport mgr id n); [|rewrite lookup_empty]).
  done.
Qed.

(** ** Routes to this node *)

Definition split_entry (node : Node) (app forwarder : Z) r : IpNet * OrIn.RouteAction :=
  (r, OrIn.ToOverlay
        (match is_subnet_route node r with Ret true => forwarder | _ => app end)).

Lemma split_routes_rel node app forwarder rs : forall t m,
  table_rel t m ->
  exists t', mfoldl (split_route node app forwarder) t rs = Ret t' /\
    table_rel t' (foldl put m (split_entry node app forwarder <$> rs)).
Proof.
  induction rs as [|r rs IH]; intros t m Ht; [by exists t|]. cbn [mfoldl fmap list_fmap foldl].
  destruct (is_subnet_route_returns node r) as [b Hb].
  assert (split_entry node app forwarder r = (r, OrIn.ToOverlay (if b then forwarder else app))) as ->
    by (unfold split_entry; rewrite Hb; by destruct b).
  unfold split_route at 2. rewrite Hb. mrun.
  destruct (insert_route_rel (OrIn.ToOverlay (if b then forwarder else app)) t m r Ht)
    as (t1 & -> & Ht1). mrun. by apply IH.
Qed.

(** Inbound packets are split between the two netstacks: the table is
    built, an address in an accepted route goes to the forwarder or to the
    application as the longest such route is a subnet route or not, and an
    address outside every accepted route goes nowhere. *)
Theorem inbound_split_exact node app forwarder ip :
  ip_ok ip ->
  exists t o, split_inbound_routes node app forwarder = Ret t /\ Split.lookup t ip = Ret o /\
    match o with
    | Some action => exists r subnet, r ∈ accepted_routes node /\ net_contains r ip = true /\
        is_subnet_route node r = Ret subnet /\
        action = OrIn.ToOverlay (if subnet : bool then forwarder else app) /\
        forall r', r' ∈ accepted_routes node -> net_contains r' ip = true ->
          (prefix_len r' <= prefix_len r)%nat
    | None => forall r, r ∈ accepted_routes node -> net_contains r ip = false
    end.
Proof.
  intros Hip. destruct (split_routes_rel node app forwarder (accepted_routes node) Split.EMPTY
    (fun _ => None) table_rel_empty) as (t & Ht & Hrel).
  destruct (built_lookup _ t ip Hip Hrel) as (o & Hl & Ho). exists t, o. split_and!; [done..|].
  assert (forall r, r ∈ accepted_routes node ->
    split_entry node app forwarder r ∈ split_entry node app forwarder <$> accepted_routes node) as Hent
    by (intros r Hr; by apply list_elem_of_fmap_2).
  destruct o as [a|].
  - destruct Ho as (r & (r0 & E & Hr)%list_elem_of_fmap & Hc & Hbest).
    unfold split_entry in E. simplify_eq. destruct (is_subnet_route_returns node r0) as [b Hb].
    exists r0, b. rewrite Hb. split_and!; [done..|by destruct b|]. intros r' Hr'.
    by eapply Hbest, Hent.
  - intros r Hr. by eapply Ho, Hent.
Qed.
End Actors.

(** ** Tailnet lock down to the source filter *)

Section Locked.
Context `{!IpNetOps, !IpNetLaws, !Chrono, !TkaCrypto}.

(** C8: tailnet lock reaches the data plane: when the source filter is built
    from the netmap of a tracker that enforces the lock, every address that it
    attributes to a peer lies in a route of an unexpired peer whose signature
    the authority accepts. *)
Theorem sources_are_locked A s prefs es filter ip id :
  enforced A s -> es ≡ₚ map_to_list (peers (peer_db s)) ->
  source_filter prefs es = Ret filter -> ip_ok ip -> Split.lookup filter ip = Ret (Some id) ->
  exists n r, peers (peer_db s) !! id = Some n /\ admits A n = true /\ expired n = false /\
    r ∈ accepted_routes n /\ net_contains r ip = true.
Proof.
  intros (_ & <- & Hlock)%enforced_locked Hes Hf Hip Hl.
  destruct (source_filter_built prefs es) as (t & Ht & Hrel). rewrite Hf in Ht. simplify_eq.
  destruct (built_lookup _ t ip Hip Hrel) as (o & Ho & Hspec). rewrite Hl in Ho. simplify_eq.
  destruct Hspec as (r & (n & Hn & Hr)%elem_of_walk_entries & Hc & _).
  destruct (chosen_sound _ _ _ _ Hr) as (Hacc & Hx & _). cbn in Hacc, Hx.
  rewrite Hes in Hn. apply elem_of_map_to_list in Hn. exists n, r. split_and!; try done.
  by destruct (Hlock id n Hn) as [[_ [?|[? _]]]|?]; [congruence|congruence|].
Qed.
End Locked.

(** ** Examples *)

#[local] Existing Instances ToyTka.toy_tka ToyTka.toy_tka_laws DemoClock.chrono_range.

Module DemoRoutes.
(** A subnet router, and an exit node. *)
Definition gateway : Node :=
  DemoPeers.mk (bytes_of_string "exit") 5 (replicate 32 5) (DemoPeers.addresses_of 5 eq_refl eq_refl)
    [net4 0 0 0 0 0 eq_refl].

Definition walk : list (PeerId * Node) := [(0, DemoPeers.alice); (1, gateway)].

Definition prefs : Prefs := mkPrefs (Some (SelStableId (bytes_of_string "exit"))) (fun _ => true).

(** Every peer has a relay in region 1, and the second one a direct path. *)
Definition managers : Managers := mkManagers (fun _ => Some 1) (fun _ region => Some (10 + region)) (fun _ => {[1]}).

Definition start : RouteUpdater := mkRouteUpdater (Some 99) 0 1 None ∅ None None.

Definition lan : IpAddr := ip4 10 1 2 3.
Lemma lan_ok : ip_ok lan.
Proof. apply ip_okb_spec. reflexivity. Qed.

Definition filter_of (ws : list (PeerId * Node)) : RTable PeerId :=
  match source_filter prefs ws with Ret t => t | Panic => Split.EMPTY end.

Lemma filter_of_eq ws : source_filter prefs ws = Ret (filter_of ws).
Proof. unfold filter_of. by destruct (source_filter_built prefs ws) as (t & -> & _). Qed.

(** A peer with a signature that the lock accepts and a route. *)
Definition frank : Node :=
  let n := DemoTracker.dave in
  mkNode (node_id n) (stable_id n) (hostname n) (user_id n) (tailnet n) (tags n) (addresses n)
    (tailnet_address n) (node_key n) (node_key_expiry n) (expired n) (online n) (last_seen n)
    (key_signature n) (machine_key n) (disco_key n) (unsigned_peer_api_only n) [DemoPeers.net10]
    (underlay_addresses n) (ssh_host_keys n) (derp_region n) (cap n) (cap_map n) (peerapi_port n)
    (peerapi_dns_proxy n) (is_wireguard_only n) (exit_node_dns_resolvers n) (peer_relay n) (service_vips n).

Definition tracker : PeerTracker :=
  DemoTracker.after (DemoTracker.netmap [frank] DemoClock.today) (PeerTracker_new (Some DemoTracker.lock)).

Lemma tracker_enforced : enforced (Some DemoTracker.lock) tracker.
Proof.
  apply (enf_step (Some DemoTracker.lock) (PeerTracker_new (Some DemoTracker.lock))
    (DemoTracker.netmap [frank] DemoClock.today) tracker
    (DemoTracker.emitted (DemoTracker.netmap [frank] DemoClock.today) (PeerTracker_new (Some DemoTracker.lock))));
    [apply enf_start| | |done|].
  - apply DemoTracker.netmap_ok; [apply DemoPeers.demo_node_ok; vm_compute; reflexivity|done|by split_and!].
  - split; [|constructor]. apply Forall_singleton, DemoTracker.clean_by_head. vm_compute. reflexivity.
  - apply DemoTracker.after_handled. vm_compute. reflexivity.
Qed.
End DemoRoutes.
Import DemoRoutes.

Lemma exit_node_deterministic_witness :
  exit_node_id prefs DemoRoutes.walk.*2 = exit_node_id prefs [gateway; DemoPeers.alice].
Proof. apply exit_node_deterministic. apply perm_swap. Defined.

Lemma source_filter_matches_routes_witness :
  exists filter s' out underlay table owner,
    source_filter prefs DemoRoutes.walk = Ret filter /\
    handle_peer_state prefs managers DemoRoutes.walk start = Ret (s', out) /\
    last out = Some (PublishPeerRoutes underlay table) /\
    Split.lookup filter lan = Ret owner /\
    Split.lookup table lan = Ret (OrOut.Wireguard <$> owner).
Proof. exact (source_filter_matches_routes prefs managers DemoRoutes.walk start lan lan_ok). Defined.

Lemma source_owner_exact_witness :
  Split.lookup (filter_of DemoRoutes.walk) lan = Ret (Some 0) /\
  exists n r, (0, n) ∈ DemoRoutes.walk /\ r ∈ accepted_routes n /\ net_contains r lan = true /\
    expired n = false.
Proof.
  assert (Split.lookup (filter_of DemoRoutes.walk) lan = Ret (Some 0)) as Hl by (vm_compute; reflexivity).
  split; [exact Hl|].
  destruct (source_owner_exact prefs DemoRoutes.walk (filter_of DemoRoutes.walk) lan
    (filter_of_eq DemoRoutes.walk) lan_ok) as (owner & Ho & Hspec).
  rewrite Hl in Ho. injection Ho as <-. destruct Hspec as (n & r & Hn & Hr & Hc & Hx & _).
  exists n, r. by split_and!.
Defined.

Lemma exit_node_fails_closed_witness :
  exists s' out, handle_peer_state prefs managers DemoRoutes.walk start = Ret (s', out) /\
    last_exit_node_id s' = Some (bytes_of_string "exit") /\
    exit_node_id prefs DemoRoutes.walk.*2 = Some (bytes_of_string "exit").
Proof.
  assert (match handle_peer_state prefs managers DemoRoutes.walk start with
    | Ret (s', _) => bool_decide (last_exit_node_id s' = Some (bytes_of_string "exit"))
    | Panic => false end = true) as Hx by (vm_compute; reflexivity).
  destruct (handle_peer_state prefs managers DemoRoutes.walk start) as [[s' out]|] eqn:Hr; [|done].
  apply bool_decide_eq_true in Hx. exists s', out. split_and!; [done|done|].
  by destruct (exit_node_fails_closed prefs managers true DemoRoutes.walk
    (set_last_peer_state DemoRoutes.walk start) s' out (bytes_of_string "exit") eq_refl eq_refl Hr)
    as [_ [? _]].
Defined.

Lemma underlay_routes_exact_witness :
  exists s' out underlay table,
    handle_peer_state prefs managers DemoRoutes.walk start = Ret (s', out) /\
    last out = Some (PublishPeerRoutes underlay table) /\ last_underlay s' = underlay /\
    underlay !! 0 = Some 11.
Proof.
  apply (underlay_routes_exact prefs managers DemoRoutes.walk start 0 DemoPeers.alice).
  - apply (bool_decide_unpack _). vm_compute. exact I.
  - by left.
Defined.

Lemma inbound_split_exact_witness :
  exists t o, split_inbound_routes DemoPeers.alice 0 1 = Ret t /\ Split.lookup t lan = Ret o.
Proof.
  destruct (inbound_split_exact DemoPeers.alice 0 1 lan lan_ok) as (t & o & Ht & Ho & _).
  exists t, o. split; [exact Ht|exact Ho].
Defined.

Lemma sources_are_locked_witness :
  exists n r, peers (peer_db tracker) !! 0 = Some n /\ admits (Some DemoTracker.lock) n = true /\
    expired n = false /\ r ∈ accepted_routes n /\ net_contains r lan = true.
Proof.
  apply (sources_are_locked (Some DemoTracker.lock) tracker prefs (map_to_list (peers (peer_db tracker)))
    (filter_of (map_to_list (peers (peer_db tracker)))) lan 0).
  - apply tracker_enforced.
  - reflexivity.
  - apply filter_of_eq.
  - apply lan_ok.
  - vm_compute. reflexivity.
Defined.
